(* ===== verification/_CoqProject ===== *)
-Q . S2P
Prelude.v
Bytes.v
Valset.v
ValsetBytes.v
ValsetPriority.v
ValsetRotation.v
ValsetChange.v
ChainConfig.v
ConfigProps.v
Rlp.v
RlpEncode.v
RlpDecode.v
RlpSplit.v
Header.v
HeaderProps.v
Eip1559.v
BorTypes.v
SpanStore.v
SpanProps.v
SpanServed.v
Snapshot.v
SnapshotProps.v
Seal.v
SealProps.v
Engine.v
EngineDemo.v
EngineProps.v
EngineSnapshot.v
EngineApply.v
StateSync.v
StateSyncProps.v
Finalize.v
FinalizeProps.v
EngineBuild.v
EngineBuildProps.v
Whitelist.v
WhitelistProps.v
WhitelistChain.v
Verifier.v
VerifierProps.v
ForkChoice.v
CanonChain.v
CanonChainProps.v
CanonLookup.v
MvStore.v
MvStoreProps.v
ParallelState.v
ParallelRead.v
ParallelRun.v
ParallelCover.v
V2Exec.v
V2Prepare.v
V2Cells.v
V2Serial.v
V2Inv.v
V2Steps.v
V2Run.v
V2Correct.v
ParallelTyped.v
Deps.v
DepsProps.v
DepsGraph.v
StateDB.v
SerialRun.v
SettleProps.v
StateRel.v
StateUndo.v
StateUnits.v
StateOps.v
StateSim.v
StateRevert.v
StateFinal.v
StateProps.v
BorApi.v
BorApiProps.v
