(* ===== verification/Prelude.v ===== *)
(** * The Bor node: consensus, finality, canonical chain and parallel execution

    Bor is Polygon's fork of go-ethereum.  What it adds is a proof-of-stake
    consensus (consensus/bor): validators chosen by Heimdall take turns in sprints,
    a snapshot records who may sign a block, headers carry a seal and, at the end of
    a sprint, the next validators, and at the start of a sprint the chain commits
    the events of the other chain.  Around the engine the node keeps checkpoints and
    milestones of Heimdall that bind its fork choice, and executes the transactions
    of a block in parallel (core/blockstm).  This library models the engine, the
    finality rules, the canonical chain, the parallel executor and the parts they
    are built on, as executable functions on records of the same shape as the Go
    structs, and proves the properties that make them correct.

    ** The program's parts and the files that model them

    - [Prelude], [Bytes]: the monad of the development, machine integers, and byte
      strings.
    - [Valset] (consensus/bor/valset/validator_set.go): the validator set, its
      proposer rotation and its change sets; [ValsetBytes] (validator.go) the form
      of validators in headers.  [ValsetPriority], [ValsetRotation] and
      [ValsetChange] hold the properties.
    - [ChainConfig] (params/config.go, params/protocol_params.go): forks and
      block-indexed parameters; properties in [ConfigProps].
    - [Rlp] (rlp/encode.go, encbuffer.go, decode.go, raw.go): the encoder buffer, the
      stream decoder and raw splitting; properties in [RlpEncode], [RlpDecode],
      [RlpSplit].
    - [Header] (core/types/block.go): the header and the extra data of Bor;
      properties in [HeaderProps].
    - [Eip1559] (consensus/misc/eip1559, consensus/misc/gaslimit.go): base fee and gas
      limit rules with their properties.
    - [BorTypes]: caches as an interface, spans, addresses, the errors of the
      engine.
    - [SpanStore] (consensus/bor/span_store.go): finding the span of a block;
      properties in [SpanProps], and in [SpanServed] that only served spans are found.
    - [Snapshot] (consensus/bor/snapshot.go, and getUpdatedValidatorSet of bor.go): the
      snapshot and the turn of a signer; properties in [SnapshotProps].
    - [Seal] (bor.go, core/types/gen_header_rlp.go, crypto/crypto.go): the encoding of
      headers, what is signed, recovery of the signer, delays; properties in
      [SealProps].
    - [Engine] (bor.go, Snapshot.apply): the state of the engine, retrieval of
      snapshots and verification of headers; [EngineDemo] is a small chain the
      properties are evaluated on, [EngineProps], [EngineSnapshot] and
      [EngineApply] hold the properties.
    - [StateSync] (bor.go): the events and the spans a block commits; properties in
      [StateSyncProps].
    - [Finalize] (bor.go): the end of a block, on import and on assembly; properties
      in [FinalizeProps].
    - [EngineBuild] (bor.go): preparing and sealing a block; properties in
      [EngineBuildProps].
    - [BorApi] (consensus/bor/api.go, merkle.go): queries on snapshots for other
      programs and the Merkle root of a checkpoint, with a view of the chain for each
      read; properties in [BorApiProps].
    - [Whitelist] (eth/downloader/whitelist, core/rawdb/milestone.go): whitelisted
      checkpoints and milestones, votes, future milestones, in memory and in the
      database; properties in [WhitelistProps] and [WhitelistChain].
    - [Verifier] (eth/bor_checkpoint_verifier.go, eth/handler_bor.go,
      eth/bor_api_backend.go, eth/downloader/bor_downloader.go): verification of
      checkpoints and milestones against the local chain, rewinds, votes; properties
      in [VerifierProps].
    - [ForkChoice] (core/forkchoice.go) and [CanonChain] (core/blockchain.go): the
      choice of the head, reorganization, the canonical index and the transaction
      lookups; properties in [CanonChainProps] and [CanonLookup].
    - [MvStore] (core/blockstm/mvstore.go, mvbalance_store.go, mvhashmap.go): the
      multi-version stores of parallel execution; properties in [MvStoreProps].
    - [ParallelState] (core/state/parallel_statedb.go, its journal and validation,
      and the execution of one message of core/parallel_state_processor.go): the
      state of one transaction.  [ParallelRead] relates a run to its recorded reads,
      [ParallelRun] proves that validated runs are serial runs, [ParallelCover] that
      recorded writes cover what is flushed.
    - [V2Exec] (core/blockstm/v2_executor.go): the executor: nonces prepared per
      sender, the estimates, and the goroutines that execute, validate and execute
      again, as steps on the shared context.  [V2Prepare] is about the nonces,
      [V2Cells] about the stores while transactions publish, [V2Serial] defines the
      serial result, [V2Inv] and [V2Steps] are the invariant and its preservation,
      [V2Run] a scheduler that runs concrete blocks, [V2Correct] the theorems;
      [ParallelTyped] shows that the values published have the type of their key.
    - [Deps] (core/blockstm/dag.go, txio.go): the dependencies between the
      transactions of a block, on bitsets; properties in [DepsProps] (bits) and
      [DepsGraph].
    - [StateDB] (core/state/statedb.go, state_object.go, journal.go, access_list.go):
      the state of a block: objects, journal, finalisation, the direct writes of
      settlement, the overlay of a parent's changes.
    - [SerialRun] (core/state_processor.go, core/state/parallel_statedb_settle.go,
      core/parallel_state_processor.go): the serial processor's transaction loop and
      the settlement of transactions executed in parallel on a [StateDB];
      [SettleProps] holds two blocks on which they differ.
    - [StateRel] to [StateProps]: states that cannot be told apart.  [StateRel] defines
      what a state answers, the relation of states that answer alike and journals that
      fit their state; [StateUndo] undoes entries on related states; [StateUnits] the
      steps operations are made of; [StateOps], [StateSim] and [StateRevert] the
      operations, snapshots and programs; [StateFinal] the end of a transaction;
      [StateProps] the theorems.

    The engine calls the span store, the snapshot and the seal, which call the
    validator set, the header and the configuration; the dependency of the files is
    that of the Go packages.

    ** Conventions

    A method that changes its receiver is a function in [st S E A]: it gets the
    state and ends in [Done] with a state and a result, in [Fail] with the state the
    method left and its error, or in [Panicked].  A nil pointer, an index out of
    range, a division by zero and an explicit panic are [Panicked]; Go code that
    goes on after an error goes on from the state of [Fail].  Integers are in [Z];
    [u64] and [i64] wrap a result where Go does, and clipped additions are written
    as the code has them.  Addresses, hashes and blooms are numbers, [*big.Int] and
    pointers that may be nil are options, strings of bytes are lists of numbers from
    0 to 255.  Caches of third-party packages are any implementation of [Cache],
    which may forget entries at any time but never makes one up.

    What is not code of the repository is a parameter: Keccak-256, the recovery of
    public keys, Heimdall's answers, the clock, the signing key.  The state
    database, the contract calls and the chain behind [GetHeader] are parameters
    too.  Their hypotheses are named where they are used (a hash that separates the
    headers seen, contract calls that do not read the roots of a header) and every
    theorem with a hypothesis is applied to a concrete input after it.

    ** What the theorems show

    - Validator sets: a change set is refused with the set unchanged or applied
      exactly; one round of rotation divides and centers the priorities as it says and
      then moves them by exactly the powers, within 64 bits; where the priorities have
      room every validator becomes proposer within a bound.
    - Configuration: block-indexed parameters are step functions; the checks of fork
      order and compatibility accept exactly what they should.
    - RLP and headers: splitting inverts encoding and accepts only canonical forms;
      the validator bytes and fee parameters in the extra data are read back by each of
      its four readers.
    - Fees: the limit and base fee checks, what a producer computes is accepted by
      every verifier, the base fee follows demand.
    - Spans: for whatever spans Heimdall serves, the search ends, keeps the cache
      coherent, and finds the newest span that contains the block among those it looks
      at, which are told exactly: it stops at one that is not served and at the second
      that begins after the block.
    - Snapshots: the turn and difficulty of a signer, the validator set of the next
      sprint, storage; retrieval returns the snapshot the chain defines for the parent, header by
      header from the genesis span, and keeps the caches coherent; applying headers can stop and resume at any block.
    - Verification: the seal check and the whole header check are characterised exactly,
      by the rules a header has to satisfy; an accepted batch is a chain; the signed bytes determine
      the signed fields; the signature cache changes no answer.
    - Building: a prepared header has the difficulty, time and room verification asks
      for; a seal recovers to its signer.
    - State sync: events are committed in order within their budgets; an assembled
      block passes its own finalization; the pipeline assembles the same block.
    - Interface of the engine: the root of a checkpoint is that of the headers below its
      end block whatever the chain does during a call but for one case, refused ranges are
      refused with their errors, equal roots are of equal blocks, the sequence of
      proposers carries the difficulties of the seals.
    - Finality: the lock and the queue of milestones stay consistent, survive a
      restart when no write failed and nothing was purged from memory alone, and refuse
      exactly the chains that go against them (of the future milestones a chain contains
      only the last queued one counts, and forks beyond the limit or with unknown
      ancestors are accepted); verification accepts, refuses or rewinds within its limit
      but for one wrap; a vote binds later chains until its lock is released.
    - Canonical chain: the index is the line of blocks up to the head through every
      import and reorganization, the head does not depend on the order of arrival,
      lookups follow the canonical blocks.
    - Parallel execution: the stores implement one cell per key and transaction; a
      run whose reads validate equals the serial run on the settled writes; what is
      flushed is recorded; under every schedule of the executor's goroutines the
      results settled are those of the serial execution, in order, some goroutine
      can go on until the block is done, no schedule goes on forever and no read spins;
      the
      prepared nonces are those of the serial execution; published values have the
      type their readers ask for.
    - State of a block: reverting to a snapshot restores what could be seen when it was
      taken; executing on the parent's changes laid over an older state is executing on
      the state with the changes applied; the two ways of ending a transaction cannot be
      told apart; states stay well formed through every block.  All this for programs
      that keep to what the EVM sees to ([fits]): accounts are created where there are
      none, code is set where the old code is known, the access list is prepared first;
      that leave the empty account of RIPEMD untouched; and, on an overlay, that ask for
      storage roots where these are recorded.
    - Dependencies: the builder returns the transitive reduction of the dependency
      of readers on last writers, for blocks of any size.
    - Shortcomings of the code, stated as what it does: overrides of the validator
      set are checked against the wrong block number in [apply]; fields outside the
      seal; powers over the limit at the end of a sprint; a nil base fee at a
      combined fork; parameters below their first key; a payment to a destroyed
      account that parallel execution keeps; a slot lost when a contract is created
      again; last writers that hide earlier ones; code never read that a snapshot does
      not restore; the root of another chain after a reorganization there and back.

    ** Bounds and fuel

    [findBase] runs on the number of the parent plus two turns: each turn goes one
    block back and the genesis block ends the walk ([snapshot_walk_ends]).
    [checkCompatible_loop] has fuel for every fork of the configuration, and each turn
    but the last rewinds below another one ([CheckCompatible_rewinds]).
    [countValues_loop] and the decoders of lists have the length of their input,
    of which every turn consumes a byte.  The loops of the span store have the
    number of spans between the estimate and the latest one; their theorem shows
    the bound is not reached.  Waiting for a span has one turn per reading of
    Heimdall within the timeout, which is an input.  [readStoreWait_loop] has [turns]
    turns, one per estimate met on a key: in the executor one is enough, since no
    execution ever waits for an estimate ([ExecuteV2BlockSTM_terminates]).

    ** What is not modelled

    Logging, metrics, tracing and locks; the goroutines that poll Heimdall, wait for
    a slot and deliver sealed blocks (their steps are modelled, not their schedule);
    cancellation, timings and statistics of the parallel executor;
    reflection in RLP; the body and transactions of a block beyond what
    finalization reads; the older MVHashMap executor and its report graph; the EVM (a
    parameter of parallel and serial execution, as a program over the state
    operations); prefetching, witnesses, tries and the commit of a state to them;
    networking, the pool and the miner, which are inherited from go-ethereum or are
    I/O.  The proposer of a validator set is a copy, not a pointer into the set; taking the
    root of a state ([IntermediateRoot]) is a function of it and does not finalise it. *)

From stdpp Require Export base tactics list gmap strings sorting.
From Stdlib Require Export ZArith Lia.

#[global] Open Scope Z_scope.

(** ** Machine integers

    Go's [uint64] and [int64] are integers kept at their width: a value is a
    [Z], and every arithmetic operation that can leave the range is followed by
    the wrap-around of its type. *)

Definition MaxUint64 : Z := 2 ^ 64 - 1.
Definition MaxInt64 : Z := 2 ^ 63 - 1.
Definition MinInt64 : Z := - 2 ^ 63.

(** Conversion to [uint64]: reduction modulo 2^64. *)
Definition u64 (x : Z) : Z := x mod 2 ^ 64.

(** Conversion to [int64]: two's complement. *)
Definition i64 (x : Z) : Z := (x + 2 ^ 63) mod 2 ^ 64 - 2 ^ 63.

Definition is_u64 (x : Z) : Prop := 0 <= x <= MaxUint64.
Definition is_i64 (x : Z) : Prop := MinInt64 <= x <= MaxInt64.

(** ** A state monad with errors and panics

    Methods with a pointer receiver are computations [st S E A]: they take the
    receiver's state and end in one of three ways.  A Go error return keeps the
    state the method left behind, because callers may go on using it; a panic
    does not return to the caller at all. *)

Inductive outcome (S E A : Type) : Type :=
| Done (s : S) (a : A)
| Fail (s : S) (e : E)
| Panicked (why : string).
Arguments Done {S E A} s a.
Arguments Fail {S E A} s e.
Arguments Panicked {S E A} why.

Definition st (S E A : Type) : Type := S -> outcome S E A.

#[export] Instance st_ret {S E} : MRet (st S E) :=
  fun A a s => Done s a.

#[export] Instance st_bind {S E} : MBind (st S E) :=
  fun A B k m s =>
    match m s with
    | Done s' a => k a s'
    | Fail s' e => Fail s' e
    | Panicked w => Panicked w
    end.

Definition getS {S E} : st S E S := fun s => Done s s.
Definition putS {S E} (s' : S) : st S E unit := fun _ => Done s' tt.
Definition modify {S E} (f : S -> S) : st S E unit := fun s => Done (f s) tt.
Definition failS {S E A} (e : E) : st S E A := fun s => Fail s e.
Definition panic {S E A} (w : string) : st S E A := fun _ => Panicked w.

(** Run a fallible step and panic on its error: Go's
    [if err := f(); err != nil { panic(err) }]. *)
Definition must {S E A} (m : st S E A) : st S E A :=
  fun s => match m s with
           | Fail _ _ => Panicked "must"
           | r => r
           end.

(** Run a step of another component, whose errors are of another type. *)
Definition mapErr {S E F A} (f : E -> F) (m : st S E A) : st S F A :=
  fun s => match m s with
           | Done s' a => Done s' a
           | Fail s' e => Fail s' (f e)
           | Panicked w => Panicked w
           end.

(** A value that may be missing because computing it panics. *)
Definition orPanic {S E A} (w : string) (o : option A) : st S E A :=
  match o with
  | Some a => mret a
  | None => panic w
  end.

(** Go's [if cond { return err }]. *)
Definition failIf {S E} (b : bool) (e : E) : st S E unit :=
  if b then failS e else mret tt.

(** [times n m] runs [m] [n] times, keeping the last value. *)
Fixpoint repeatS {S E A} (n : nat) (m : st S E A) (acc : A) : st S E A :=
  match n with
  | O => mret acc
  | Datatypes.S n' => a ← m; repeatS n' m a
  end.

(** ** Automation *)

Create HintDb bor discriminated.

(** Case analysis on the outermost test of the goal or of a hypothesis. *)
Ltac case_if :=
  match goal with
  | |- context [if ?b then _ else _] => destruct b eqn:?
  | H : context [if ?b then _ else _] |- _ => destruct b eqn:?
  end.

(** Turn every boolean comparison in sight into a proposition. *)
Ltac bool_to_prop :=
  repeat match goal with
  | H : (_ && _)%bool = true |- _ => apply andb_true_iff in H as [? ?]
  | H : (_ || _)%bool = false |- _ => apply orb_false_iff in H as [? ?]
  | H : negb _ = true |- _ => apply negb_true_iff in H
  | H : negb _ = false |- _ => apply negb_false_iff in H
  | H : (_ <? _) = true |- _ => apply Z.ltb_lt in H
  | H : (_ <? _) = false |- _ => apply Z.ltb_ge in H
  | H : (_ <=? _) = true |- _ => apply Z.leb_le in H
  | H : (_ <=? _) = false |- _ => apply Z.leb_gt in H
  | H : (_ =? _) = true |- _ => apply Z.eqb_eq in H
  | H : (_ =? _) = false |- _ => apply Z.eqb_neq in H
  end.

(** Expand the width constants so that [lia] sees numbers. *)
Ltac unfold_widths :=
  unfold is_u64, is_i64, MaxUint64, MaxInt64, MinInt64 in *.

Ltac wsolve := unfold_widths; lia.

(** ** Facts about widths *)

Lemma u64_small x : is_u64 x -> u64 x = x.
Proof. intros. unfold u64. apply Z.mod_small. wsolve. Qed.

Lemma u64_range x : is_u64 (u64 x).
Proof. unfold u64. pose proof (Z.mod_pos_bound x (2 ^ 64)). wsolve. Qed.

Lemma i64_small x : is_i64 x -> i64 x = x.
Proof. intros. unfold i64. rewrite Z.mod_small; wsolve. Qed.

Lemma i64_range x : is_i64 (i64 x).
Proof. unfold i64. pose proof (Z.mod_pos_bound (x + 2 ^ 63) (2 ^ 64)). wsolve. Qed.

#[export] Hint Resolve u64_range i64_range : bor.

(** ** Reasoning about computations *)

(** A computation that succeeds has run each of its steps to success. *)
Lemma bind_Done {S E A B} (m : st S E A) (k : A -> st S E B) s s' b :
  (m ≫= k) s = Done s' b -> exists s1 a, m s = Done s1 a /\ k a s1 = Done s' b.
Proof.
  unfold mbind, st_bind. destruct (m s) as [s1 a|s1 e|w]; [|done..]. intros H. by exists s1, a.
Qed.

Lemma bind_eq {S E A B} (m : st S E A) (k : A -> st S E B) s s1 a :
  m s = Done s1 a -> (m ≫= k) s = k a s1.
Proof. intros H. unfold mbind, st_bind. by rewrite H. Qed.

Lemma bind_assoc {S E A B D} (m : st S E A) (f : A -> st S E B) (g : B -> st S E D) s :
  (x ← m; y ← f x; g y) s = (y ← (x ← m; f x); g y) s.
Proof. unfold mbind, st_bind. by destruct (m s). Qed.

Lemma bind_ext {S E A B} (m : st S E A) (f g : A -> st S E B) s :
  (forall a s', f a s' = g a s') -> (m ≫= f) s = (m ≫= g) s.
Proof. intros H. unfold mbind, st_bind. destruct (m s); [apply H|done..]. Qed.

Lemma bind_congr {S E A B} (m m' : st S E A) (f g : A -> st S E B) s :
  m s = m' s -> (forall a s', f a s' = g a s') -> (m ≫= f) s = (m' ≫= g) s.
Proof. intros Hm H. unfold mbind, st_bind. rewrite Hm. destruct (m' s); [apply H|done..]. Qed.

Lemma failIf_Done {S E} (b : bool) (e : E) (s s' : S) u :
  failIf b e s = Done s' u -> b = false /\ s' = s.
Proof. destruct b; [done|]. by intros [= <-]. Qed.

Lemma orPanic_Done {S E A} w (o : option A) (s s' : S) a :
  orPanic (E := E) w o s = Done s' a -> o = Some a /\ s' = s.
Proof. destruct o; [|done]. by intros [= <- <-]. Qed.

(** Take a successful computation apart. *)
Ltac inv_done H :=
  repeat match type of H with
  | (_ ≫= _) _ = Done _ _ =>
      let s := fresh "s" in let a := fresh "a" in let E := fresh "E" in
      apply bind_Done in H as (s & a & E & H)
  end.

(** [m] keeps the invariant [I] whether it succeeds or fails, and its result
    satisfies [Q]. *)
Definition keeps {S E A} (I : S -> Prop) (m : st S E A) (Q : A -> Prop) : Prop :=
  forall s, I s -> match m s with
                   | Done s' a => I s' /\ Q a
                   | Fail s' _ => I s'
                   | Panicked _ => True
                   end.

Section keeps.
Context {S E : Type} (I : S -> Prop).

Lemma keeps_ret {A} (a : A) (Q : A -> Prop) : Q a -> keeps I (mret a : st S E A) Q.
Proof. by intros HQ s Hs. Qed.

Lemma keeps_fail {A} (e : E) (Q : A -> Prop) : keeps I (failS e) Q.
Proof. by intros s Hs. Qed.

Lemma keeps_panic {A} w (Q : A -> Prop) : keeps I (panic w : st S E A) Q.
Proof. done. Qed.

Lemma keeps_bind {A B} (m : st S E A) (k : A -> st S E B) (P : A -> Prop) (Q : B -> Prop) :
  keeps I m P -> (forall a, P a -> keeps I (k a) Q) -> keeps I (m ≫= k) Q.
Proof.
  intros Hm Hk s Hs. specialize (Hm s Hs). unfold mbind, st_bind.
  destruct (m s) as [s1 a|s1 e|w]; [|done..]. destruct Hm as [H1 HP]. by apply Hk.
Qed.

Lemma keeps_weaken {A} (m : st S E A) (P Q : A -> Prop) :
  keeps I m P -> (forall a, P a -> Q a) -> keeps I m Q.
Proof. intros Hm H s Hs. specialize (Hm s Hs). destruct (m s); naive_solver. Qed.

Lemma keeps_getS : keeps I (getS : st S E S) I.
Proof. by intros s Hs. Qed.

Lemma keeps_modify (f : S -> S) : (forall s, I s -> I (f s)) -> keeps I (modify f : st S E unit) (fun _ => True).
Proof. intros H s Hs. split; [by apply H|done]. Qed.

Lemma keeps_failIf b e : keeps I (failIf b e : st S E unit) (fun _ => b = false).
Proof. intros s Hs. by destruct b. Qed.

Lemma keeps_orPanic {A} w (o : option A) : keeps I (orPanic w o : st S E A) (fun a => o = Some a).
Proof. intros s Hs. by destruct o. Qed.

End keeps.

(** ** Binary search

    Go's [sort.Search(n, f)]: the least index at which [f] holds, or [n], for a
    predicate that stays true once it is.  Each turn halves the range, so [n]
    turns are enough. *)

Fixpoint searchLoop (fuel : nat) (f : nat -> bool) (i j : nat) : nat :=
  match fuel with
  | O => i
  | Datatypes.S fuel' =>
      if (i <? j)%nat then
        let h := ((i + j) / 2)%nat in
        if negb (f h) then searchLoop fuel' f (Datatypes.S h) j else searchLoop fuel' f i h
      else i
  end.

Definition sortSearch (n : nat) (f : nat -> bool) : nat := searchLoop n f 0 n.

Lemma searchLoop_spec fuel f i j :
  (j - i <= fuel)%nat -> (i <= j)%nat ->
  (forall a b, (a <= b < j)%nat -> f a = true -> f b = true) ->
  (forall a, (a < i)%nat -> f a = false) ->
  let r := searchLoop fuel f i j in
  (i <= r <= j)%nat /\ (forall a, (a < r)%nat -> f a = false) /\ ((r < j)%nat -> f r = true).
Proof.
  revert i j. induction fuel as [|fuel IH]; intros i j Hf Hij Hmono Hlow; cbn [searchLoop].
  { repeat split; [lia..|done|lia]. }
  destruct (i <? j)%nat eqn:E; [|apply Nat.ltb_ge in E; repeat split; [lia..|done|lia]].
  apply Nat.ltb_lt in E. pose proof (Nat.div_mod_eq (i + j) 2) as Hd.
  pose proof (Nat.mod_upper_bound (i + j) 2 ltac:(lia)) as Hm.
  set (h := ((i + j) / 2)%nat) in *. destruct (f h) eqn:Ef; cbn [negb].
  - destruct (IH i h) as (H1 & H2 & H3); [lia|lia| |done|].
    { intros a b Hab. apply Hmono. lia. }
    split; [lia|]. split; [done|]. intros _.
    destruct (decide (searchLoop fuel f i h = h)) as [->|]; [done|apply H3; lia].
  - destruct (IH (Datatypes.S h) j) as (H1 & H2 & H3); [lia|lia|done| |].
    { intros a Ha. destruct (f a) eqn:Ea; [|done].
      rewrite (Hmono a h) in Ef; [done|lia|done]. }
    split; [lia|]. done.
Qed.

(** On a predicate that stays true the search finds its first index. *)
Lemma sortSearch_spec n f :
  (forall a b, (a <= b < n)%nat -> f a = true -> f b = true) ->
  (sortSearch n f <= n)%nat /\ (forall a, (a < sortSearch n f)%nat -> f a = false) /\
  ((sortSearch n f < n)%nat -> f (sortSearch n f) = true).
Proof.
  intros H. destruct (searchLoop_spec n f 0 n) as (H1 & H2 & H3); [lia|lia|done|lia|].
  split; [unfold sortSearch; lia|done].
Qed.
