(* ===== verification/Bytes.v ===== *)
(** * Byte strings

    A byte is a [Z] in [0, 256) and a byte slice a list of them.  Big-endian
    numbers as [math/big] reads and writes them, shared by the header encodings
    of the validators and by RLP. *)

From S2P Require Import Prelude.

Module Bytes.

(** ** Big-endian numbers *)

Definition isByte (b : Z) : Prop := 0 <= b < 256.

(** [n] bytes of [x], most significant first. *)
Fixpoint be_bytes (n : nat) (x : Z) : list Z :=
  match n with
  | O => []
  | S n' => be_bytes n' (x / 256) ++ [x mod 256]
  end.

(** [big.Int.SetBytes]. *)
Definition SetBytes (l : list Z) : Z := fold_left (fun acc b => acc * 256 + b) l 0.

(** [big.Int.Bytes]: the absolute value, with no leading zero byte. *)
Definition bigBytes (x : Z) : list Z :=
  if x =? 0 then [] else be_bytes (Z.to_nat (Z.log2 (Z.abs x) / 8 + 1)) (Z.abs x).

(** ** Lemmas on big-endian numbers *)

Lemma length_be_bytes n x : length (be_bytes n x) = n.
Proof.
  revert x. induction n as [|n IH]; intros x; cbn [be_bytes]; [done|].
  rewrite length_app, IH. cbn. lia.
Qed.

Lemma be_bytes_isByte n x : Forall isByte (be_bytes n x).
Proof.
  revert x. induction n as [|n IH]; intros x; cbn [be_bytes]; [constructor|].
  apply Forall_app. split; [apply IH|]. constructor; [|constructor].
  unfold isByte. apply Z.mod_pos_bound. lia.
Qed.

Lemma SetBytes_snoc l b : SetBytes (l ++ [b]) = SetBytes l * 256 + b.
Proof. unfold SetBytes. by rewrite fold_left_app. Qed.

Lemma SetBytes_be_bytes n x : 0 <= x < 256 ^ Z.of_nat n -> SetBytes (be_bytes n x) = x.
Proof.
  revert x. induction n as [|n IH]; intros x Hx; cbn [be_bytes].
  - cbn in *. lia.
  - rewrite Nat2Z.inj_succ, Z.pow_succ_r in Hx by lia.
    rewrite SetBytes_snoc, IH.
    + pose proof (Z.div_mod x 256). lia.
    + split; [apply Z.div_pos; lia|apply Z.div_lt_upper_bound; lia].
Qed.

Lemma SetBytes_zeros n l : SetBytes (replicate n 0 ++ l) = SetBytes l.
Proof.
  unfold SetBytes. rewrite fold_left_app. f_equal. induction n as [|n IH]; [done|exact IH].
Qed.

Lemma log2_bytes x : 0 < x -> x < 256 ^ (Z.log2 x / 8 + 1).
Proof.
  intros Hx. pose proof (Z.log2_spec x Hx) as [_ Hl]. pose proof (Z.log2_nonneg x).
  eapply Z.lt_le_trans; [exact Hl|]. change 256 with (2 ^ 8).
  pose proof (Z.div_pos (Z.log2 x) 8 ltac:(lia) ltac:(lia)).
  rewrite <- Z.pow_mul_r by lia. apply Z.pow_le_mono_r; [lia|].
  pose proof (Z.div_mod (Z.log2 x) 8). pose proof (Z.mod_pos_bound (Z.log2 x) 8). lia.
Qed.

Lemma SetBytes_bigBytes x : SetBytes (bigBytes x) = Z.abs x.
Proof.
  unfold bigBytes. destruct (Z.eqb_spec x 0) as [->|Hx]; [done|].
  pose proof (Z.log2_nonneg (Z.abs x)).
  pose proof (Z.div_pos (Z.log2 (Z.abs x)) 8 ltac:(lia) ltac:(lia)).
  apply SetBytes_be_bytes. rewrite Z2Nat.id by lia.
  pose proof (log2_bytes (Z.abs x) ltac:(lia)). lia.
Qed.

Lemma length_bigBytes_i64 x : is_i64 x -> (length (bigBytes x) <= 8)%nat.
Proof.
  intros Hx. unfold bigBytes. destruct (Z.eqb_spec x 0) as [->|Hnz]; [cbn; lia|].
  rewrite length_be_bytes.
  assert (Z.log2 (Z.abs x) <= 63).
  { change 63 with (Z.log2 (2 ^ 63)). apply Z.log2_le_mono. wsolve. }
  pose proof (Z.div_le_mono (Z.log2 (Z.abs x)) 63 8 ltac:(lia) ltac:(lia)) as Hd.
  change (63 / 8) with 7 in Hd. lia.
Qed.

End Bytes.
