(* ===== verification/Valset.v ===== *)
(** * The validator set (consensus/bor/valset)

    Data and operations of [Validator] and [ValidatorSet]: the Tendermint
    weighted round-robin that chooses the block proposer, and the change sets
    that replace validators at the end of a sprint. *)

From S2P Require Import Prelude.

Module Valset.

(** ** Data *)

(** A [common.Address] is its 20 bytes read as a big-endian number: equality of
    the arrays is equality of the numbers and [bytes.Compare] on two addresses
    is the order of the numbers. *)
Definition zeroAddress : Z := 0.

Record Validator := mkValidator {
  ID : Z;
  Address : Z;
  VotingPower : Z;
  ProposerPriority : Z
}.

Record ValidatorSet := mkValidatorSet {
  Validators : list Validator;
  Proposer : option Validator;
  totalVotingPower : Z;
  validatorsMap : gmap Z nat
}.

#[export] Instance Validator_eq_dec : EqDecision Validator.
Proof. solve_decision. Defined.

#[export] Instance Validator_inhabited : Inhabited Validator :=
  populate (mkValidator 0 0 0 0).

Definition setID (i : Z) (v : Validator) : Validator :=
  mkValidator i (Address v) (VotingPower v) (ProposerPriority v).

Definition setPower (p : Z) (v : Validator) : Validator :=
  mkValidator (ID v) (Address v) p (ProposerPriority v).

Definition setPriority (p : Z) (v : Validator) : Validator :=
  mkValidator (ID v) (Address v) (VotingPower v) p.

Definition setValidators (l : list Validator) (s : ValidatorSet) : ValidatorSet :=
  mkValidatorSet l (Proposer s) (totalVotingPower s) (validatorsMap s).

Definition setProposer (p : option Validator) (s : ValidatorSet) : ValidatorSet :=
  mkValidatorSet (Validators s) p (totalVotingPower s) (validatorsMap s).

Definition setTotal (t : Z) (s : ValidatorSet) : ValidatorSet :=
  mkValidatorSet (Validators s) (Proposer s) t (validatorsMap s).

Definition setMap (m : gmap Z nat) (s : ValidatorSet) : ValidatorSet :=
  mkValidatorSet (Validators s) (Proposer s) (totalVotingPower s) m.

Definition MaxTotalVotingPower : Z := MaxInt64 / 8.
Definition PriorityWindowSizeFactor : Z := 2.

(** The errors the package returns. *)
Inductive valset_error :=
| ErrDuplicateEntry (v : Validator)
| ErrNegativePower (v : Validator)
| ErrPowerTooHigh (v : Validator)
| ErrTotalWouldExceed (v : Validator)
| ErrZeroPower (deletes : list Validator)
| ErrRemoveUnknown (address : Z)
| ErrEmptySet
| TotalVotingPowerExceededError (sum : Z)
| ErrInvalidValidatorsBytes.

Definition NewValidator (address votingPower : Z) : Validator :=
  mkValidator 0 address votingPower 0.

(** ** Safe arithmetic *)

Definition safeAdd (a b : Z) : Z * bool :=
  if (0 <? b) && (i64 (MaxInt64 - b) <? a) then (-1, true)
  else if (b <? 0) && (a <? i64 (MinInt64 - b)) then (-1, true)
  else (i64 (a + b), false).

Definition safeSub (a b : Z) : Z * bool :=
  if (0 <? b) && (a <? i64 (MinInt64 + b)) then (-1, true)
  else if (b <? 0) && (i64 (MaxInt64 + b) <? a) then (-1, true)
  else (i64 (a - b), false).

Definition safeAddClip (a b : Z) : Z :=
  let '(c, overflow) := safeAdd a b in
  if overflow then (if b <? 0 then MinInt64 else MaxInt64) else c.

Definition safeSubClip (a b : Z) : Z :=
  let '(c, overflow) := safeSub a b in
  if overflow then (if 0 <? b then MinInt64 else MaxInt64) else c.

(** ** Choosing between validators *)

(** A [*Validator] that points into the set's slice: the index it points at and
    the value found there. *)
Definition vptr : Type := nat * Validator.

(** [Cmp] panics on two validators with the same priority and address. *)
Definition Cmp {S E} (v other : option vptr) : st S E (option vptr) :=
  match v, other with
  | None, _ => mret other
  | Some _, None => mret v
  | Some (_, a), Some (_, b) =>
      if ProposerPriority b <? ProposerPriority a then mret v
      else if ProposerPriority a <? ProposerPriority b then mret other
      else if Address a =? Address b then panic "Cannot compare identical validators"
      else if Address a <? Address b then mret v
      else mret other
  end.

(** The pointers a [range] over the slice visits, in order. *)
Definition vptrs (l : list Validator) : list vptr := imap pair l.

Fixpoint mostPriority_loop {S E} (res : option vptr) (l : list vptr) : st S E (option vptr) :=
  match l with
  | [] => mret res
  | val :: l' => res' ← Cmp res (Some val); mostPriority_loop res' l'
  end.

Definition getValWithMostPriority {E} : st ValidatorSet E (option vptr) :=
  s ← getS; mostPriority_loop None (vptrs (Validators s)).

Fixpoint findProposer_loop {S E} (proposer : option vptr) (l : list vptr) : st S E (option vptr) :=
  match l with
  | [] => mret proposer
  | val :: l' =>
      proposer' ←
        (match proposer with
         | None => Cmp proposer (Some val)
         | Some p => if Address val.2 =? Address p.2 then mret proposer
                     else Cmp proposer (Some val)
         end);
      findProposer_loop proposer' l'
  end.

Definition findProposer {E} : st ValidatorSet E (option vptr) :=
  s ← getS; findProposer_loop None (vptrs (Validators s)).

(** ** Total voting power *)

Fixpoint sumPower_loop (sum : Z) (l : list Validator) : Z + Z :=
  match l with
  | [] => inr sum
  | v :: l' =>
      let sum' := safeAddClip sum (VotingPower v) in
      if MaxTotalVotingPower <? sum' then inl sum' else sumPower_loop sum' l'
  end.

Definition UpdateTotalVotingPower : st ValidatorSet valset_error unit :=
  s ← getS;
  match sumPower_loop 0 (Validators s) with
  | inl sum => failS (TotalVotingPowerExceededError sum)
  | inr sum => modify (setTotal sum)
  end.

Definition TotalVotingPower : st ValidatorSet valset_error Z :=
  s ← getS;
  (if totalVotingPower s =? 0 then must UpdateTotalVotingPower else mret tt);;
  s' ← getS;
  mret (totalVotingPower s').

(** ** Priorities *)

Definition IsNilOrEmpty (s : ValidatorSet) : bool :=
  match Validators s with [] => true | _ => false end.

Definition maxmin_loop (l : list Validator) : Z * Z :=
  fold_left (fun '(mx, mn) v =>
      let mn' := if ProposerPriority v <? mn then ProposerPriority v else mn in
      let mx' := if mx <? ProposerPriority v then ProposerPriority v else mx in
      (mx', mn'))
    l (MinInt64, MaxInt64).

Definition computeMaxMinPriorityDiff {E} : st ValidatorSet E Z :=
  s ← getS;
  if IsNilOrEmpty s then panic "empty validator set" else
  let '(mx, mn) := maxmin_loop (Validators s) in
  let diff := i64 (mx - mn) in
  mret (if diff <? 0 then i64 (-1 * diff) else diff).

Definition RescalePriorities {E} (diffMax : Z) : st ValidatorSet E unit :=
  s ← getS;
  if IsNilOrEmpty s then panic "empty validator set" else
  if diffMax <=? 0 then mret tt else
  diff ← computeMaxMinPriorityDiff;
  let ratio := Z.quot (i64 (i64 (diff + diffMax) - 1)) diffMax in
  if diffMax <? diff then
    if ratio =? 0 then panic "integer divide by zero" else
    modify (fun s => setValidators
      (map (fun v => setPriority (i64 (Z.quot (ProposerPriority v) ratio)) v) (Validators s)) s)
  else mret tt.

(** The sum is a [big.Int]; [big.Int.Div] by a positive number rounds down. *)
Definition computeAvgProposerPriority {E} : st ValidatorSet E Z :=
  s ← getS;
  let n := Z.of_nat (length (Validators s)) in
  let sum := fold_left (fun acc v => acc + ProposerPriority v) (Validators s) 0 in
  if n =? 0 then panic "division by zero" else
  let avg := sum / n in
  if (MinInt64 <=? avg) && (avg <=? MaxInt64) then mret avg
  else panic "Cannot represent avg ProposerPriority as an int64".

Definition shiftByAvgProposerPriority {E} : st ValidatorSet E unit :=
  s ← getS;
  if IsNilOrEmpty s then panic "empty validator set" else
  avg ← computeAvgProposerPriority;
  modify (fun s => setValidators
    (map (fun v => setPriority (safeSubClip (ProposerPriority v) avg) v) (Validators s)) s).

(** The result is the pointer to the proposer: its index in the slice. *)
Definition incrementProposerPriority : st ValidatorSet valset_error nat :=
  modify (fun s => setValidators
    (map (fun v => setPriority (safeAddClip (ProposerPriority v) (VotingPower v)) v)
         (Validators s)) s);;
  mostest ← getValWithMostPriority;
  match mostest with
  | None => panic "nil pointer dereference"
  | Some (i, _) =>
      total ← TotalVotingPower;
      modify (fun s => setValidators
        (alter (fun v => setPriority (safeSubClip (ProposerPriority v) total) v) i (Validators s)) s);;
      mret i
  end.

Definition IncrementProposerPriority (times : Z) : st ValidatorSet valset_error unit :=
  s ← getS;
  if IsNilOrEmpty s then panic "empty validator set" else
  if times <=? 0 then panic "Cannot call IncrementProposerPriority with non-positive times" else
  total ← TotalVotingPower;
  let diffMax := i64 (PriorityWindowSizeFactor * total) in
  RescalePriorities diffMax;;
  shiftByAvgProposerPriority;;
  proposer ← repeatS (Z.to_nat times) incrementProposerPriority 0%nat;
  modify (fun s => setProposer (Validators s !! proposer) s).

(** ** Lookup *)

Definition HasAddress (address : Z) (s : ValidatorSet) : bool :=
  match validatorsMap s !! address with Some _ => true | None => false end.

(** The index is -1 when the address is unknown; an index of the map that is out
    of the slice's range panics. *)
Definition GetByAddress {E} (address : Z) : st ValidatorSet E (Z * option Validator) :=
  s ← getS;
  match validatorsMap s !! address with
  | Some idx =>
      match Validators s !! idx with
      | Some v => mret (Z.of_nat idx, Some v)
      | None => panic "index out of range"
      end
  | None => mret (-1, None)
  end.

Definition GetByIndex (index : Z) (s : ValidatorSet) : Z * option Validator :=
  if (index <? 0) || (Z.of_nat (length (Validators s)) <=? index) then (zeroAddress, None)
  else match Validators s !! Z.to_nat index with
       | Some v => (Address v, Some v)
       | None => (zeroAddress, None)
       end.

Definition Size (s : ValidatorSet) : nat := length (Validators s).

(** A missing proposer is found and cached. *)
Definition GetProposer {E} : st ValidatorSet E (option Validator) :=
  s ← getS;
  match Validators s with
  | [] => mret None
  | _ =>
      match Proposer s with
      | Some p => mret (Some p)
      | None =>
          p ← findProposer;
          modify (setProposer (snd <$> p));;
          match p with
          | None => panic "nil pointer dereference"
          | Some p => mret (Some p.2)
          end
      end
  end.

Fixpoint addressIndex_loop (i : nat) (l : list Validator) (m : gmap Z nat) : gmap Z nat :=
  match l with
  | [] => m
  | v :: l' => addressIndex_loop (S i) l' (<[Address v := i]> m)
  end.

Definition UpdateValidatorMap (s : ValidatorSet) : ValidatorSet :=
  setMap (addressIndex_loop 0 (Validators s) ∅) s.

Definition Copy (s : ValidatorSet) : ValidatorSet :=
  mkValidatorSet (Validators s) (Proposer s) (totalVotingPower s)
    (addressIndex_loop 0 (Validators s) ∅).

Definition IncludeIds (valsWithId : list Validator) (s : ValidatorSet) : ValidatorSet :=
  let addressToId := fold_left (fun m v => <[Address v := ID v]> m) valsWithId (∅ : gmap Z Z) in
  setValidators
    (map (fun v => setID (default 0 (addressToId !! Address v)) v) (Validators s)) s.

Definition CheckEmptyId (s : ValidatorSet) : bool :=
  existsb (fun v => ID v =? 0) (Validators s).

(** ** Change sets *)

(** [ValidatorsByAddress.Less] orders validators by address. *)
Definition addrLe (a b : Validator) : Prop := Address a <= Address b.

#[export] Instance addrLe_dec : RelDecision addrLe.
Proof. intros a b. unfold addrLe. apply _. Defined.

Definition sortByAddress (l : list Validator) : list Validator := merge_sort addrLe l.

Fixpoint processChanges_loop (prevAddr : Z) (changes updates removals : list Validator)
  : valset_error + (list Validator * list Validator) :=
  match changes with
  | [] => inr (updates, removals)
  | valUpdate :: changes' =>
      if Address valUpdate =? prevAddr then inl (ErrDuplicateEntry valUpdate)
      else if VotingPower valUpdate <? 0 then inl (ErrNegativePower valUpdate)
      else if MaxTotalVotingPower <? VotingPower valUpdate then inl (ErrPowerTooHigh valUpdate)
      else if VotingPower valUpdate =? 0 then
        processChanges_loop (Address valUpdate) changes' updates (removals ++ [valUpdate])
      else
        processChanges_loop (Address valUpdate) changes' (updates ++ [valUpdate]) removals
  end.

Definition processChanges (origChanges : list Validator)
  : valset_error + (list Validator * list Validator) :=
  processChanges_loop zeroAddress (sortByAddress origChanges) [] [].

Fixpoint verifyUpdates_loop (updates : list Validator) (updatedTotal : Z) (numNew : nat)
  : st ValidatorSet valset_error (Z * nat) :=
  match updates with
  | [] => mret (updatedTotal, numNew)
  | valUpdate :: updates' =>
      r ← GetByAddress (Address valUpdate);
      let '(updatedTotal', numNew') :=
        match r.2 with
        | None => (i64 (updatedTotal + VotingPower valUpdate), S numNew)
        | Some val =>
            (i64 (updatedTotal + i64 (VotingPower valUpdate - VotingPower val)), numNew)
        end in
      if MaxTotalVotingPower <? updatedTotal' then failS (ErrTotalWouldExceed valUpdate)
      else verifyUpdates_loop updates' updatedTotal' numNew'
  end.

Definition verifyUpdates (updates : list Validator) : st ValidatorSet valset_error (Z * nat) :=
  total ← TotalVotingPower;
  verifyUpdates_loop updates total 0.

Fixpoint computeNewPriorities (updates : list Validator) (updatedTotal : Z)
  : st ValidatorSet valset_error (list Validator) :=
  match updates with
  | [] => mret []
  | valUpdate :: updates' =>
      r ← GetByAddress (Address valUpdate);
      let valUpdate' :=
        match r.2 with
        | None => setPriority (i64 (- i64 (updatedTotal + Z.shiftr updatedTotal 3))) valUpdate
        | Some val => setPriority (ProposerPriority val) valUpdate
        end in
      rest ← computeNewPriorities updates' updatedTotal;
      mret (valUpdate' :: rest)
  end.

(** The merge of two address-ordered slices; an update replaces the validator
    with the same address. *)
Fixpoint mergeUpdates (existing : list Validator) : list Validator -> list Validator :=
  fix go (updates : list Validator) : list Validator :=
    match existing, updates with
    | [], _ => updates
    | _, [] => existing
    | e :: existing', u :: updates' =>
        if Address e <? Address u then e :: mergeUpdates existing' updates
        else if Address e =? Address u then u :: mergeUpdates existing' updates'
        else u :: go updates'
    end.

Definition applyUpdates (updates : list Validator) (s : ValidatorSet) : ValidatorSet :=
  setValidators (mergeUpdates (Validators s) updates) s.

Fixpoint verifyRemovals_loop (deletes : list Validator) : st ValidatorSet valset_error unit :=
  match deletes with
  | [] => mret tt
  | valUpdate :: deletes' =>
      r ← GetByAddress (Address valUpdate);
      match r.2 with
      | None => failS (ErrRemoveUnknown (Address valUpdate))
      | Some _ => verifyRemovals_loop deletes'
      end
  end.

Definition verifyRemovals (deletes : list Validator) : st ValidatorSet valset_error unit :=
  verifyRemovals_loop deletes;;
  s ← getS;
  if (length (Validators s) <? length deletes)%nat then panic "more deletes than validators"
  else mret tt.

(** Walk the slice while deletions are left; running off its end panics. *)
Fixpoint removeAddresses (existing deletes : list Validator) : option (list Validator) :=
  match deletes with
  | [] => Some existing
  | d :: deletes' =>
      match existing with
      | [] => None
      | e :: existing' =>
          if Address e =? Address d then removeAddresses existing' deletes'
          else cons e <$> removeAddresses existing' deletes
      end
  end.

(** [merged] has room for the validators that stay, so a deletion that is not
    found panics either on the empty slice or on the full one. *)
Definition applyRemovals {E} (deletes : list Validator) : st ValidatorSet E unit :=
  s ← getS;
  match removeAddresses (Validators s) deletes with
  | Some merged => modify (setValidators merged)
  | None => panic "index out of range"
  end.

Definition updateValidators {E} (updates deletes : list Validator) : st ValidatorSet E unit :=
  modify (applyUpdates updates);;
  applyRemovals deletes;;
  modify UpdateValidatorMap.

Definition updateWithChangeSet (changes : list Validator) (allowDeletes : bool)
  : st ValidatorSet valset_error unit :=
  match changes with
  | [] => mret tt
  | _ =>
      match processChanges changes with
      | inl e => failS e
      | inr (updates, deletes) =>
          if negb allowDeletes && negb (Nat.eqb (length deletes) 0) then
            failS (ErrZeroPower deletes)
          else
          verifyRemovals deletes;;
          r ← verifyUpdates updates;
          let '(updatedTotalVotingPower, numNewValidators) := r : Z * nat in
          s ← getS;
          if Nat.eqb numNewValidators 0 && Nat.eqb (length (Validators s)) (length deletes) then
            failS ErrEmptySet
          else
          updates' ← computeNewPriorities updates updatedTotalVotingPower;
          updateValidators updates' deletes;;
          UpdateTotalVotingPower;;
          total ← TotalVotingPower;
          RescalePriorities (i64 (PriorityWindowSizeFactor * total));;
          shiftByAvgProposerPriority
      end
  end.

Definition UpdateWithChangeSet (changes : list Validator) : st ValidatorSet valset_error unit :=
  updateWithChangeSet changes true.

Definition emptySet : ValidatorSet := mkValidatorSet [] None 0 ∅.

(** [NewValidatorSet] panics when the change set is refused. *)
Definition NewValidatorSet (valz : list Validator) : outcome ValidatorSet valset_error unit :=
  (must (updateWithChangeSet valz false);;
   match valz with
   | [] => mret tt
   | _ => IncrementProposerPriority 1
   end) emptySet.

Definition CopyIncrementProposerPriority (times : Z) (s : ValidatorSet)
  : outcome ValidatorSet valset_error unit :=
  IncrementProposerPriority times (Copy s).

End Valset.
