(* ===== verification/ValsetBytes.v ===== *)
(** * Byte encodings of validators (consensus/bor/valset/validator.go)

    The sprint-end header carries the validator set as 40 bytes per validator.
    A byte is a [Z] in [0, 256) and a byte slice a list of them. *)

From S2P Require Import Prelude Bytes Valset.

Module ValsetBytes.
Import Bytes Valset.

(** ** Addresses *)

Definition AddressLength : nat := 20.

Definition isAddress (a : Z) : Prop := 0 <= a < 256 ^ 20.

(** [Address.Bytes]. *)
Definition addressBytes (a : Z) : list Z := be_bytes AddressLength a.

(** [common.BytesToAddress]: a longer slice is cropped from the left. *)
Definition BytesToAddress (l : list Z) : Z :=
  SetBytes (drop (length l - AddressLength) l).

(** ** Encoding *)

Definition PowerBytes (v : Validator) : list Z :=
  let powerBytes := bigBytes (VotingPower v) in
  replicate (20 - length powerBytes) 0 ++ powerBytes.

Definition HeaderBytes (v : Validator) : list Z :=
  addressBytes (Address v) ++ PowerBytes v.

Fixpoint parse_loop (n : nat) (validatorsBytes : list Z) : list Validator :=
  match n with
  | O => []
  | S n' =>
      NewValidator (BytesToAddress (take 20 validatorsBytes))
                   (i64 (SetBytes (take 20 (drop 20 validatorsBytes))))
      :: parse_loop n' (drop 40 validatorsBytes)
  end.

Definition ParseValidators (validatorsBytes : list Z) : valset_error + list Validator :=
  if negb (Nat.eqb (length validatorsBytes mod 40) 0) then inl ErrInvalidValidatorsBytes
  else inr (parse_loop (length validatorsBytes / 40) validatorsBytes).

(** ** The contract's view of a validator *)

Record MinimalValT := mkMinimalVal {
  mvID : Z;
  mvSigner : Z;
  mvVotingPower : Z
}.

Definition MinimalVal (v : Validator) : MinimalValT :=
  mkMinimalVal (ID v) (Address v) (u64 (VotingPower v)).

Definition ValidatorsToMinimalValidators (vals : list Validator) : list MinimalValT :=
  map MinimalVal vals.

Definition signerLe (a b : MinimalValT) : Prop := mvSigner a <= mvSigner b.

#[export] Instance signerLe_dec : RelDecision signerLe.
Proof. intros a b. unfold signerLe. apply _. Defined.

Definition SortMinimalValByAddress (a : list MinimalValT) : list MinimalValT :=
  merge_sort signerLe a.

(** ** Lengths *)

Lemma length_PowerBytes v : is_i64 (VotingPower v) -> length (PowerBytes v) = 20%nat.
Proof.
  intros Hv. unfold PowerBytes. rewrite length_app, length_replicate.
  pose proof (length_bigBytes_i64 _ Hv). lia.
Qed.

Lemma length_addressBytes a : length (addressBytes a) = 20%nat.
Proof. apply length_be_bytes. Qed.

Lemma BytesToAddress_addressBytes a : isAddress a -> BytesToAddress (addressBytes a) = a.
Proof.
  intros Ha. unfold BytesToAddress. rewrite length_addressBytes. cbn [AddressLength Nat.sub drop].
  by apply SetBytes_be_bytes.
Qed.

(** ** The round trip *)

(** A validator whose fields fit their types. *)
Definition encodable (v : Validator) : Prop :=
  isAddress (Address v) /\ is_i64 (VotingPower v).

Lemma length_HeaderBytes v : encodable v -> length (HeaderBytes v) = 40%nat.
Proof.
  intros [_ Hp]. unfold HeaderBytes.
  by rewrite length_app, length_addressBytes, length_PowerBytes.
Qed.

(** What the reader of an encoded validator gets: the sign of the power is not
    encoded. *)
Definition decoded (v : Validator) : Validator :=
  NewValidator (Address v) (i64 (Z.abs (VotingPower v))).

Lemma parse_loop_HeaderBytes vs rest :
  Forall encodable vs ->
  parse_loop (length vs) (mjoin (map HeaderBytes vs) ++ rest) = map decoded vs.
Proof.
  induction 1 as [|v vs Hv _ IH]; [done|].
  change (mjoin (map HeaderBytes (v :: vs))) with (HeaderBytes v ++ mjoin (map HeaderBytes vs)).
  cbn [length parse_loop map].
  pose proof (length_HeaderBytes v Hv) as Hl. destruct Hv as [Ha Hp].
  rewrite <- app_assoc. f_equal.
  - unfold HeaderBytes. rewrite <- app_assoc.
    rewrite take_app_length' by (by rewrite length_addressBytes).
    rewrite drop_app_length' by (by rewrite length_addressBytes).
    rewrite take_app_length' by (by rewrite length_PowerBytes).
    rewrite BytesToAddress_addressBytes by done. unfold PowerBytes, decoded.
    by rewrite SetBytes_zeros, SetBytes_bigBytes.
  - by rewrite drop_app_length' by (by rewrite Hl).
Qed.

Lemma length_header_list vs :
  Forall encodable vs -> length (mjoin (map HeaderBytes vs)) = (length vs * 40)%nat.
Proof.
  induction 1 as [|v vs Hv _ IH]; [done|].
  change (mjoin (map HeaderBytes (v :: vs))) with (HeaderBytes v ++ mjoin (map HeaderBytes vs)).
  rewrite length_app, IH, (length_HeaderBytes v Hv). cbn [length]. lia.
Qed.

Lemma ParseValidators_encoded vs :
  Forall encodable vs ->
  ParseValidators (mjoin (map HeaderBytes vs)) = inr (map decoded vs).
Proof.
  intros Hvs. unfold ParseValidators. rewrite length_header_list by done.
  rewrite Nat.Div0.mod_mul, Nat.div_mul by lia. cbn [Nat.eqb negb].
  rewrite <- (app_nil_r (mjoin _)). by rewrite parse_loop_HeaderBytes.
Qed.

(** Round trip of the sprint-end header bytes: the validators written by
    [HeaderBytes] with non-negative powers are read back by [ParseValidators] in
    the same order with their address and power, and nothing else of them. *)
Theorem ParseValidators_HeaderBytes vs :
  Forall (fun v => isAddress (Address v) /\ 0 <= VotingPower v <= MaxInt64) vs ->
  ParseValidators (mjoin (map HeaderBytes vs)) =
  inr (map (fun v => NewValidator (Address v) (VotingPower v)) vs).
Proof.
  intros Hvs. rewrite ParseValidators_encoded.
  - f_equal. induction Hvs as [|v vs [_ Hp] _ IH]; [done|]. cbn [map]. f_equal; [|exact IH].
    unfold decoded. rewrite Z.abs_eq, i64_small by wsolve. done.
  - eapply Forall_impl; [exact Hvs|]. intros v [Ha Hp]. split; [done|wsolve].
Qed.

Lemma ParseValidators_HeaderBytes_witness :
  let vs := [mkValidator 1 4660 1000 5; mkValidator 2 (256 ^ 19) MaxInt64 (-7)] in
  ParseValidators (mjoin (map HeaderBytes vs)) =
  inr [mkValidator 0 4660 1000 0; mkValidator 0 (256 ^ 19) MaxInt64 0].
Proof.
  intros vs. apply (ParseValidators_HeaderBytes vs).
  unfold vs, isAddress. repeat constructor; vm_compute; congruence.
Defined.

(** [ParseValidators] accepts exactly the slices whose length is a multiple
    of 40 and returns one validator per 40 bytes; it never reads out of range. *)
Theorem ParseValidators_total bs :
  match ParseValidators bs with
  | inl e => e = ErrInvalidValidatorsBytes /\ (length bs mod 40 <> 0)%nat
  | inr vs => (40 * length vs)%nat = length bs /\
              Forall (fun v => ID v = 0 /\ ProposerPriority v = 0 /\ is_i64 (VotingPower v)) vs
  end.
Proof.
  unfold ParseValidators. destruct (Nat.eqb_spec (length bs mod 40) 0) as [Hm|Hm]; cbn [negb]; [|done].
  assert (Hlen : forall n l, length (parse_loop n l) = n).
  { induction n as [|n IH]; intros l; cbn [parse_loop length]; [done|by rewrite IH]. }
  split.
  - rewrite Hlen. pose proof (Nat.div_mod_eq (length bs) 40). lia.
  - generalize (length bs / 40)%nat as n. intros n. revert bs Hm.
    assert (Hgen : forall l, Forall (fun v => ID v = 0 /\ ProposerPriority v = 0 /\
                                 is_i64 (VotingPower v)) (parse_loop n l)); [|auto].
    induction n as [|n IH]; intros l; cbn [parse_loop]; constructor; [|apply IH].
    cbn. auto with bor.
Qed.

End ValsetBytes.
