(* ===== verification/ValsetPriority.v ===== *)
(** * Proposer rotation of the validator set

    The arithmetic of [RescalePriorities], [shiftByAvgProposerPriority] and
    [IncrementProposerPriority]: what each does to the priorities, that nothing
    is clipped or wrapped on sets whose total voting power is within
    [MaxTotalVotingPower], and who becomes the proposer. *)

From S2P Require Import Prelude Valset.

Module ValsetPriority.
Import Valset.

(** ** Sums, extremes and bounds *)

Fixpoint sumZ (f : Validator -> Z) (l : list Validator) : Z :=
  match l with
  | [] => 0
  | v :: l' => f v + sumZ f l'
  end.

Definition prios (l : list Validator) : list Z := map ProposerPriority l.

(** All priorities lie in the interval [lo, hi]. *)
Definition within (lo hi : Z) (l : list Validator) : Prop :=
  Forall (fun v => lo <= ProposerPriority v <= hi) l.

(** The distance between any two priorities is at most [d]. *)
Definition spread (d : Z) (l : list Validator) : Prop :=
  forall a b, a ∈ l -> b ∈ l -> ProposerPriority a - ProposerPriority b <= d.

(** [v] beats [w]: higher priority, or the same and a smaller address. *)
Definition beats (v w : Validator) : Prop :=
  ProposerPriority w < ProposerPriority v \/
  (ProposerPriority w = ProposerPriority v /\ Address v <= Address w).

(** The two halves of one rotation step in exact arithmetic. *)
Definition bumped (v : Validator) : Validator :=
  setPriority (ProposerPriority v + VotingPower v) v.

Definition exactStep (i : nat) (l : list Validator) : list Validator :=
  alter (fun v => setPriority (ProposerPriority v - sumZ VotingPower l) v) i (map bumped l).

(** ** Safe arithmetic *)

Definition clip (x : Z) : Z := Z.max MinInt64 (Z.min MaxInt64 x).

Lemma clip_id x : is_i64 x -> clip x = x.
Proof. unfold clip. wsolve. Qed.

Lemma safeAddClip_clip a b :
  is_i64 a -> is_i64 b -> safeAddClip a b = clip (a + b).
Proof.
  intros Ha Hb. unfold safeAddClip, safeAdd, clip.
  destruct (Z.ltb_spec 0 b), (Z.ltb_spec b 0); cbn [andb]; try lia.
  - rewrite (i64_small (MaxInt64 - b)) by wsolve.
    destruct (Z.ltb_spec (MaxInt64 - b) a); cbn.
    + destruct (Z.ltb_spec b 0); wsolve.
    + rewrite i64_small; wsolve.
  - rewrite (i64_small (MinInt64 - b)) by wsolve.
    destruct (Z.ltb_spec a (MinInt64 - b)); cbn.
    + destruct (Z.ltb_spec b 0); wsolve.
    + rewrite i64_small; wsolve.
  - rewrite i64_small; wsolve.
Qed.

Lemma safeSubClip_clip a b :
  is_i64 a -> is_i64 b -> safeSubClip a b = clip (a - b).
Proof.
  intros Ha Hb. unfold safeSubClip, safeSub, clip.
  destruct (Z.ltb_spec 0 b), (Z.ltb_spec b 0); cbn [andb]; try lia.
  - rewrite (i64_small (MinInt64 + b)) by wsolve.
    destruct (Z.ltb_spec a (MinInt64 + b)); cbn.
    + destruct (Z.ltb_spec 0 b); wsolve.
    + rewrite i64_small; wsolve.
  - rewrite (i64_small (MaxInt64 + b)) by wsolve.
    destruct (Z.ltb_spec (MaxInt64 + b) a); cbn.
    + destruct (Z.ltb_spec 0 b); wsolve.
    + rewrite i64_small; wsolve.
  - rewrite i64_small; wsolve.
Qed.

Lemma safeAddClip_exact a b :
  is_i64 a -> is_i64 b -> is_i64 (a + b) -> safeAddClip a b = a + b.
Proof. intros. rewrite safeAddClip_clip by done. by apply clip_id. Qed.

Lemma safeSubClip_exact a b :
  is_i64 a -> is_i64 b -> is_i64 (a - b) -> safeSubClip a b = a - b.
Proof. intros. rewrite safeSubClip_clip by done. by apply clip_id. Qed.

(** ** Sums *)

Lemma sumZ_app f l1 l2 : sumZ f (l1 ++ l2) = sumZ f l1 + sumZ f l2.
Proof. induction l1; cbn; lia. Qed.

Lemma sumZ_nonneg f l : Forall (fun v => 0 <= f v) l -> 0 <= sumZ f l.
Proof. induction 1; cbn; lia. Qed.

Lemma sumZ_elem_le f l v : Forall (fun v => 0 <= f v) l -> v ∈ l -> f v <= sumZ f l.
Proof.
  intros Hl. induction Hl as [|w l Hw Hl IH]; intros Hv; [by apply elem_of_nil in Hv|].
  apply elem_of_cons in Hv as [->|Hv]; cbn.
  - pose proof (sumZ_nonneg f l Hl). lia.
  - specialize (IH Hv). lia.
Qed.

Lemma sumZ_map f g l : (forall v, f (g v) = f v) -> sumZ f (map g l) = sumZ f l.
Proof. intros Hg. induction l; cbn; [done|]. rewrite Hg. lia. Qed.

Lemma sumZ_map_add f g h l :
  (forall v, f (g v) = f v + h v) -> sumZ f (map g l) = sumZ f l + sumZ h l.
Proof. intros Hg. induction l; cbn; [done|]. rewrite Hg. lia. Qed.

Lemma sumZ_const c (l : list Validator) : sumZ (fun _ => c) l = c * Z.of_nat (length l).
Proof. induction l; cbn; lia. Qed.

Lemma fold_left_sum f l acc :
  fold_left (fun acc v => acc + f v) l acc = acc + sumZ f l.
Proof. revert acc. induction l; intros; cbn; [lia|]. rewrite IHl. lia. Qed.

Lemma sumZ_bounds f lo hi l :
  Forall (fun v => lo <= f v <= hi) l ->
  lo * Z.of_nat (length l) <= sumZ f l <= hi * Z.of_nat (length l).
Proof. induction 1; cbn [sumZ length]; lia. Qed.

Lemma sumZ_alter f g i l v :
  l !! i = Some v -> sumZ f (alter g i l) = sumZ f l - f v + f (g v).
Proof.
  revert i. induction l as [|w l IH]; intros [|i] Hi; simplify_eq/=.
  - lia.
  - rewrite (IH i Hi). lia.
Qed.

Lemma within_weaken lo hi lo' hi' l :
  within lo hi l -> lo' <= lo -> hi <= hi' -> within lo' hi' l.
Proof. intros H ??. eapply Forall_impl; [exact H|]. cbn. lia. Qed.

Lemma within_elem lo hi l v : within lo hi l -> v ∈ l -> lo <= ProposerPriority v <= hi.
Proof. intros H Hv. exact (proj1 (Forall_forall _ _) H v Hv). Qed.

Lemma within_spread lo hi l : within lo hi l -> spread (hi - lo) l.
Proof.
  intros H a b Ha Hb. pose proof (within_elem _ _ _ a H Ha).
  pose proof (within_elem _ _ _ b H Hb). lia.
Qed.

(** ** The extremes found by the loop *)

Lemma maxmin_loop_acc l mx mn :
  let '(mx', mn') :=
    fold_left (fun '(mx, mn) v =>
      let mn' := if ProposerPriority v <? mn then ProposerPriority v else mn in
      let mx' := if mx <? ProposerPriority v then ProposerPriority v else mx in
      (mx', mn')) l (mx, mn) in
  mx <= mx' /\ mn' <= mn /\
  Forall (fun v => mn' <= ProposerPriority v <= mx') l /\
  (mx' = mx \/ exists v, v ∈ l /\ ProposerPriority v = mx') /\
  (mn' = mn \/ exists v, v ∈ l /\ ProposerPriority v = mn').
Proof.
  revert mx mn. induction l as [|v l IH]; intros mx mn; cbn [fold_left].
  - split_and!; try lia; constructor.
  - set (mn1 := if ProposerPriority v <? mn then ProposerPriority v else mn).
    set (mx1 := if mx <? ProposerPriority v then ProposerPriority v else mx).
    specialize (IH mx1 mn1). destruct (fold_left _ l (mx1, mn1)) as [mx' mn'].
    destruct IH as (H1 & H2 & H3 & H4 & H5).
    assert (mx <= mx1 /\ ProposerPriority v <= mx1) by
      (unfold mx1; destruct (Z.ltb_spec mx (ProposerPriority v)); lia).
    assert (mn1 <= mn /\ mn1 <= ProposerPriority v) by
      (unfold mn1; destruct (Z.ltb_spec (ProposerPriority v) mn); lia).
    split_and!; try lia.
    + constructor; [lia|done].
    + destruct H4 as [->|(w & Hw & <-)].
      * unfold mx1. case_if; [|by left]. right. exists v. split; [left|done].
      * right. exists w. split; [by right|done].
    + destruct H5 as [->|(w & Hw & <-)].
      * unfold mn1. case_if; [|by left]. right. exists v. split; [left|done].
      * right. exists w. split; [by right|done].
Qed.

Lemma maxmin_loop_spec l :
  l <> [] -> within MinInt64 MaxInt64 l ->
  exists a b, a ∈ l /\ b ∈ l /\ maxmin_loop l = (ProposerPriority a, ProposerPriority b) /\
              within (ProposerPriority b) (ProposerPriority a) l.
Proof.
  intros Hne Hr. unfold maxmin_loop.
  pose proof (maxmin_loop_acc l MinInt64 MaxInt64) as H.
  destruct (fold_left _ l _) as [mx mn]. destruct H as (_ & _ & Hf & Hmx & Hmn).
  destruct l as [|w l]; [done|].
  pose proof (Forall_inv Hf) as Hw. pose proof (Forall_inv Hr) as Hrw. cbn in Hw, Hrw.
  assert (exists a, a ∈ w :: l /\ ProposerPriority a = mx) as (a & Ha & <-).
  { destruct Hmx as [->|?]; [|done]. exists w. split; [left|lia]. }
  assert (exists b, b ∈ w :: l /\ ProposerPriority b = mn) as (b & Hb & <-).
  { destruct Hmn as [->|?]; [|done]. exists w. split; [left|lia]. }
  exists a, b. done.
Qed.

(** ** Rescaling *)

(** Two lists of the same validators, which may differ in their priorities. *)
Definition samePeople (l l' : list Validator) : Prop :=
  map (setPriority 0) l = map (setPriority 0) l'.

Lemma samePeople_map f l : samePeople l (map (fun v => setPriority (f v) v) l).
Proof. unfold samePeople. rewrite map_map. by apply map_ext. Qed.

Lemma samePeople_trans l1 l2 l3 : samePeople l1 l2 -> samePeople l2 l3 -> samePeople l1 l3.
Proof. unfold samePeople. congruence. Qed.

(** Whatever ignores the priority is the same on both lists. *)
Lemma samePeople_proj {A} (f : Validator -> A) l l' :
  (forall v, f (setPriority 0 v) = f v) -> samePeople l l' -> map f l = map f l'.
Proof.
  intros Hf H. unfold samePeople in H.
  apply (f_equal (map f)) in H. rewrite !map_map in H.
  by rewrite !(map_ext (fun v => f (setPriority 0 v)) f) in H.
Qed.

Lemma samePeople_length l l' : samePeople l l' -> length l = length l'.
Proof. intros H%(f_equal length). by rewrite !length_map in H. Qed.

Lemma samePeople_powers l l' :
  samePeople l l' -> sumZ VotingPower l = sumZ VotingPower l'.
Proof.
  intros H%(samePeople_proj VotingPower); [|done].
  revert l' H. induction l; intros [|w l'] H; simplify_eq/=; [done|].
  f_equal; auto.
Qed.

Lemma samePeople_addresses l l' :
  samePeople l l' -> map Address l = map Address l'.
Proof. by apply samePeople_proj. Qed.

Lemma samePeople_lookup l l' j v :
  samePeople l l' -> l !! j = Some v ->
  exists v', l' !! j = Some v' /\ Address v' = Address v /\ VotingPower v' = VotingPower v.
Proof.
  unfold samePeople. intros H Hj.
  assert (Hm : map (setPriority 0) l !! j = Some (setPriority 0 v))
    by (change (map (setPriority 0) l) with (setPriority 0 <$> l); by rewrite list_lookup_fmap, Hj).
  rewrite H in Hm. change (map (setPriority 0) l') with (setPriority 0 <$> l') in Hm.
  rewrite list_lookup_fmap in Hm. destruct (l' !! j) as [v'|]; [|done]. cbn in Hm.
  unfold setPriority in Hm. injection Hm as ? Ha Hp. by exists v'.
Qed.

Lemma samePeople_Forall_power (P : Z -> Prop) l l' :
  samePeople l l' -> Forall (fun v => P (VotingPower v)) l -> Forall (fun v => P (VotingPower v)) l'.
Proof.
  intros H%(samePeople_proj VotingPower) HF; [|done].
  apply (proj1 (List.Forall_map VotingPower P l')). rewrite <- H.
  by apply (proj2 (List.Forall_map VotingPower P l)).
Qed.

#[export] Hint Resolve samePeople_map samePeople_trans : bor.

Lemma rem_sign x r :
  0 < r -> (0 <= x /\ 0 <= Z.rem x r < r) \/ (x < 0 /\ - r < Z.rem x r <= 0).
Proof.
  intros Hr. destruct (Z_lt_ge_dec x 0) as [Hx|Hx].
  - right. split; [done|]. pose proof (Z.rem_bound_abs x r). pose proof (Z.rem_nonpos x r). lia.
  - left. split; [lia|]. apply Z.rem_bound_pos; lia.
Qed.

(** Truncated division by a positive number brings two numbers together at
    least as much as division of their distance. *)
Lemma quot_spread a b r d :
  0 < r -> 0 <= d -> a - b <= d * r -> Z.quot a r - Z.quot b r <= d.
Proof.
  intros Hr Hd Hab.
  pose proof (Z.quot_rem' a r) as Ea. pose proof (Z.quot_rem' b r) as Eb.
  pose proof (rem_sign a r Hr) as Ra. pose proof (rem_sign b r Hr) as Rb.
  destruct (Z_le_gt_dec (Z.quot a r - Z.quot b r) d) as [?|Hgt]; [done|exfalso].
  assert (d * r + r <= r * Z.quot a r - r * Z.quot b r) by nia.
  destruct Ra as [[??]|[??]], Rb as [[??]|[??]]; try lia.
  assert (Z.quot a r <= 0) by nia. assert (0 <= Z.quot b r) by nia. lia.
Qed.

Lemma quot_within lo hi x r : 0 < r -> lo <= 0 <= hi -> lo <= x <= hi -> lo <= Z.quot x r <= hi.
Proof.
  intros Hr H0 Hx.
  pose proof (Z.quot_rem' x r) as Ex. destruct (rem_sign x r Hr) as [[??]|[??]]; nia.
Qed.

(** The bound on priorities every operation of the package preserves. *)
Definition PrioBound : Z := 3 * MaxTotalVotingPower.

Ltac unfold_power := unfold PrioBound, MaxTotalVotingPower, MaxInt64 in *.

Lemma MaxTotalVotingPower_val : MaxTotalVotingPower = 2 ^ 60 - 1.
Proof. reflexivity. Qed.

Ltac psolve :=
  unfold PrioBound in *; rewrite ?MaxTotalVotingPower_val in *; wsolve.

Lemma within_i64 l : within (- PrioBound) PrioBound l -> within MinInt64 MaxInt64 l.
Proof. intros H. eapply within_weaken; [exact H|psolve|psolve]. Qed.

Lemma IsNilOrEmpty_false s : Validators s <> [] -> IsNilOrEmpty s = false.
Proof. unfold IsNilOrEmpty. by destruct (Validators s). Qed.

Lemma computeMaxMinPriorityDiff_spec {E} s :
  Validators s <> [] -> within (- PrioBound) PrioBound (Validators s) ->
  exists diff, computeMaxMinPriorityDiff (E := E) s = Done s diff /\
               0 <= diff <= 2 * PrioBound /\ spread diff (Validators s) /\
               (forall d, spread d (Validators s) -> diff <= d).
Proof.
  intros Hne Hw. destruct (maxmin_loop_spec _ Hne (within_i64 _ Hw)) as (a & b & Ha & Hb & E1 & Hab).
  pose proof (within_elem _ _ _ a Hw Ha). pose proof (within_elem _ _ _ b Hw Hb).
  pose proof (within_elem _ _ _ b Hab Hb).
  exists (ProposerPriority a - ProposerPriority b).
  unfold computeMaxMinPriorityDiff, mbind, st_bind, getS.
  rewrite (IsNilOrEmpty_false _ Hne), E1.
  rewrite i64_small by psolve. rewrite (proj2 (Z.ltb_ge _ 0)) by lia.
  split_and!; [done|lia|lia|by apply within_spread|].
  intros d Hd. by apply Hd.
Qed.

(** The distance between the greatest and the least priority. *)
Definition gap (l : list Validator) : Z :=
  match l with
  | [] => 0
  | v :: _ => fold_right (fun w m => Z.max (ProposerPriority w) m) (ProposerPriority v) l -
              fold_right (fun w m => Z.min (ProposerPriority w) m) (ProposerPriority v) l
  end.

Definition rescaled (w : Z) (l : list Validator) : list Validator :=
  if w <? gap l then
    let ratio := (gap l + w - 1) / w in map (fun v => setPriority (Z.quot (ProposerPriority v) ratio) v) l
  else l.

Lemma fold_max_spec p l :
  let m := fold_right (fun w m => Z.max (ProposerPriority w) m) p l in
  p <= m /\ Forall (fun v => ProposerPriority v <= m) l /\ (m = p \/ exists v, v ∈ l /\ ProposerPriority v = m).
Proof.
  induction l as [|w l (H1 & H2 & H3)]; cbn [fold_right]; [split_and!; [lia|done|by left]|].
  split; [lia|]. split.
  - constructor; [lia|]. eapply Forall_impl; [exact H2|]. cbn. lia.
  - destruct (Z.max_spec (ProposerPriority w) (fold_right (fun w m => Z.max (ProposerPriority w) m) p l)) as [[_ E]|[_ E]];
      rewrite E; [|right; exists w; split; [left|done]].
    destruct H3 as [->|(v & Hv & Ev)]; [by left|]. right. exists v. split; [by right|done].
Qed.

Lemma fold_min_spec p l :
  let m := fold_right (fun w m => Z.min (ProposerPriority w) m) p l in
  m <= p /\ Forall (fun v => m <= ProposerPriority v) l /\ (m = p \/ exists v, v ∈ l /\ ProposerPriority v = m).
Proof.
  induction l as [|w l (H1 & H2 & H3)]; cbn [fold_right]; [split_and!; [lia|done|by left]|].
  split; [lia|]. split.
  - constructor; [lia|]. eapply Forall_impl; [exact H2|]. cbn. lia.
  - destruct (Z.min_spec (ProposerPriority w) (fold_right (fun w m => Z.min (ProposerPriority w) m) p l)) as [[_ E]|[_ E]];
      rewrite E; [right; exists w; split; [left|done]|].
    destruct H3 as [->|(v & Hv & Ev)]; [by left|]. right. exists v. split; [by right|done].
Qed.

(** It is the least spread. *)
Lemma gap_spec l : l <> [] -> spread (gap l) l /\ forall d, spread d l -> gap l <= d.
Proof.
  destruct l as [|v l0] eqn:El; [done|]. intros _. rewrite <- El. assert (Hv : v ∈ l) by (subst; left).
  assert (Eg : gap l = fold_right (fun w m => Z.max (ProposerPriority w) m) (ProposerPriority v) l -
    fold_right (fun w m => Z.min (ProposerPriority w) m) (ProposerPriority v) l) by (by rewrite El).
  rewrite Eg. clear Eg El.
  destruct (fold_max_spec (ProposerPriority v) l) as (_ & Hmx & Emx).
  destruct (fold_min_spec (ProposerPriority v) l) as (_ & Hmn & Emn).
  split.
  - intros a b Ha Hb. pose proof (proj1 (Forall_forall _ _) Hmx a Ha) as H1.
    pose proof (proj1 (Forall_forall _ _) Hmn b Hb) as H2. cbn in H1, H2. lia.
  - intros d Hd.
    assert (exists a, a ∈ l /\ ProposerPriority a = fold_right (fun w m => Z.max (ProposerPriority w) m) (ProposerPriority v) l)
      as (a & Ha & Ea) by (destruct Emx as [->|?]; [by exists v|done]).
    assert (exists b, b ∈ l /\ ProposerPriority b = fold_right (fun w m => Z.min (ProposerPriority w) m) (ProposerPriority v) l)
      as (b & Hb & Eb) by (destruct Emn as [->|?]; [by exists v|done]).
    rewrite <- Ea, <- Eb. by apply Hd.
Qed.

Lemma RescalePriorities_spec {E} s diffMax :
  Validators s <> [] -> within (- PrioBound) PrioBound (Validators s) ->
  0 < diffMax <= 2 * MaxTotalVotingPower ->
  exists l', RescalePriorities (E := E) diffMax s = Done (setValidators l' s) tt /\
             samePeople (Validators s) l' /\ spread diffMax l' /\
             within (- PrioBound) PrioBound l' /\ l' = rescaled diffMax (Validators s).
Proof.
  intros Hne Hw Hd.
  destruct (computeMaxMinPriorityDiff_spec (E := E) s Hne Hw) as (diff & Ed & Hdiff & Hsp & Hmin).
  destruct (gap_spec _ Hne) as [Hgs Hgm].
  assert (Eg : gap (Validators s) = diff) by (apply Z.le_antisymm; [by apply Hgm|by apply Hmin]).
  unfold rescaled. rewrite Eg. unfold RescalePriorities, mbind, st_bind, getS.
  rewrite (IsNilOrEmpty_false _ Hne).
  rewrite (proj2 (Z.leb_gt _ _)) by lia. rewrite Ed.
  rewrite (i64_small (diff + diffMax)) by psolve.
  rewrite (i64_small (diff + diffMax - 1)) by psolve.
  set (ratio := Z.quot (diff + diffMax - 1) diffMax).
  destruct (Z.ltb_spec diffMax diff) as [Hlt|Hge].
  - assert (0 < ratio /\ diff <= diffMax * ratio) as [Hr Hdr].
    { unfold ratio. rewrite Z.quot_div_nonneg by lia.
      pose proof (Z.div_mod (diff + diffMax - 1) diffMax).
      pose proof (Z.mod_pos_bound (diff + diffMax - 1) diffMax). nia. }
    rewrite (proj2 (Z.eqb_neq _ _)) by lia.
    exists (map (fun v => setPriority (i64 (Z.quot (ProposerPriority v) ratio)) v) (Validators s)).
    assert (Hq : forall v, v ∈ Validators s ->
      i64 (Z.quot (ProposerPriority v) ratio) = Z.quot (ProposerPriority v) ratio /\
      - PrioBound <= Z.quot (ProposerPriority v) ratio <= PrioBound).
    { intros v Hv. pose proof (within_elem _ _ _ v Hw Hv).
      pose proof (quot_within (- PrioBound) PrioBound (ProposerPriority v) ratio).
      split; [apply i64_small|]; psolve. }
    split_and!; [done|auto with bor| | |].
    + intros a b (a' & -> & Ha)%list_elem_of_fmap (b' & -> & Hb)%list_elem_of_fmap. cbn.
      rewrite (proj1 (Hq a' Ha)), (proj1 (Hq b' Hb)).
      apply quot_spread; [lia|lia|]. pose proof (Hsp a' b' Ha Hb). lia.
    + apply Forall_forall. intros a (a' & -> & Ha)%list_elem_of_fmap. cbn.
      destruct (Hq a' Ha) as [-> ?]. done.
    + cbv zeta. rewrite <- Z.quot_div_nonneg by lia. fold ratio. apply list_fmap_ext.
      intros k v Hv%list_elem_of_lookup_2. by rewrite (proj1 (Hq v Hv)).
  - exists (Validators s). destruct s; cbn in *. split_and!; [done|done| |done|done].
    intros a b Ha Hb. pose proof (Hsp a b Ha Hb). lia.
Qed.

(** ** Centering *)

(** What the two preparatory steps make of the priorities, in whole numbers: divided,
    towards zero, by the least number that brings their range within [w], and less
    their average, rounded down. *)
Definition recentered (l : list Validator) : list Validator :=
  let avg := sumZ ProposerPriority l / Z.of_nat (length l) in
  map (fun v => setPriority (ProposerPriority v - avg) v) l.

Definition prepared (w : Z) (l : list Validator) : list Validator := recentered (rescaled w l).

Lemma avg_between lo hi l :
  l <> [] -> within lo hi l ->
  lo <= sumZ ProposerPriority l / Z.of_nat (length l) <= hi.
Proof.
  intros Hne Hw. pose proof (sumZ_bounds _ _ _ _ Hw).
  assert (0 < Z.of_nat (length l)) by (destruct l; [done|cbn; lia]).
  split; [apply Z.div_le_lower_bound|apply Z.div_le_upper_bound]; nia.
Qed.

Lemma computeAvgProposerPriority_spec {E} s :
  Validators s <> [] -> within (- PrioBound) PrioBound (Validators s) ->
  computeAvgProposerPriority (E := E) s =
    Done s (sumZ ProposerPriority (Validators s) / Z.of_nat (length (Validators s))).
Proof.
  intros Hne Hw. pose proof (avg_between _ _ _ Hne Hw).
  unfold computeAvgProposerPriority, mbind, st_bind, getS.
  rewrite fold_left_sum, Z.add_0_l.
  rewrite (proj2 (Z.eqb_neq _ _)) by (destruct (Validators s); [done|cbn; lia]).
  rewrite !(proj2 (Z.leb_le _ _)) by psolve. done.
Qed.

Lemma sumZ_shift l a :
  (forall v, v ∈ l -> safeSubClip (ProposerPriority v) a = ProposerPriority v - a) ->
  sumZ ProposerPriority (map (fun v => setPriority (safeSubClip (ProposerPriority v) a) v) l)
  = sumZ ProposerPriority l - a * Z.of_nat (length l).
Proof.
  intros H. induction l as [|v l IH]; cbn [map sumZ length]; [lia|].
  rewrite IH by (intros; apply H; by right). cbn. rewrite (H v) by left. lia.
Qed.

Lemma shiftByAvgProposerPriority_spec {E} s d :
  Validators s <> [] -> within (- PrioBound) PrioBound (Validators s) ->
  spread d (Validators s) -> d <= 2 * MaxTotalVotingPower ->
  exists l', shiftByAvgProposerPriority (E := E) s = Done (setValidators l' s) tt /\
             samePeople (Validators s) l' /\ within (- d) d l' /\
             0 <= sumZ ProposerPriority l' < Z.of_nat (length l') /\ l' = recentered (Validators s).
Proof.
  intros Hne Hw Hsp Hd.
  set (n := Z.of_nat (length (Validators s))).
  set (avg := sumZ ProposerPriority (Validators s) / n).
  assert (Hn : 0 < n) by (unfold n; destruct (Validators s); [done|cbn; lia]).
  pose proof (avg_between _ _ _ Hne Hw) as Havg. fold n in Havg. fold avg in Havg.
  destruct (maxmin_loop_spec _ Hne (within_i64 _ Hw)) as (a & b & Ha & Hb & _ & Hab).
  pose proof (avg_between _ _ _ Hne Hab) as Havg'. fold n in Havg'. fold avg in Havg'.
  pose proof (Hsp a b Ha Hb) as Hdab.
  assert (Hsub : forall v, v ∈ Validators s ->
    safeSubClip (ProposerPriority v) avg = ProposerPriority v - avg /\
    - d <= ProposerPriority v - avg <= d).
  { intros v Hv. pose proof (within_elem _ _ _ v Hw Hv). pose proof (within_elem _ _ _ v Hab Hv).
    split; [apply safeSubClip_exact|]; psolve. }
  exists (map (fun v => setPriority (safeSubClip (ProposerPriority v) avg) v) (Validators s)).
  split; [|split; [auto with bor|split; [|split]]].
  - unfold shiftByAvgProposerPriority, mbind, st_bind. unfold getS at 1.
    rewrite (IsNilOrEmpty_false _ Hne), (computeAvgProposerPriority_spec s Hne Hw). done.
  - apply Forall_forall. intros v' (v & -> & Hv)%list_elem_of_fmap. cbn.
    destruct (Hsub v Hv) as [-> ?]. done.
  - rewrite length_map. fold n.
    rewrite (sumZ_shift _ avg (fun v Hv => proj1 (Hsub v Hv))). fold n. unfold avg.
    pose proof (Z.div_mod (sumZ ProposerPriority (Validators s)) n).
    pose proof (Z.mod_pos_bound (sumZ ProposerPriority (Validators s)) n). lia.
  - unfold recentered. fold n avg. apply list_fmap_ext.
    intros k v Hv%list_elem_of_lookup_2. by rewrite (proj1 (Hsub v Hv)).
Qed.

(** Priorities within the range whose average is zero are left alone. *)
Lemma prepared_id w l :
  l <> [] -> spread w l -> 0 <= sumZ ProposerPriority l < Z.of_nat (length l) -> prepared w l = l.
Proof.
  intros Hne Hs Hsum. unfold prepared, rescaled.
  rewrite (proj2 (Z.ltb_ge _ _)) by (by apply (gap_spec l Hne)). unfold recentered.
  rewrite (Z.div_small _ _ Hsum). rewrite <- (map_id l) at 2. apply map_ext. intros [? ? ? ?].
  unfold setPriority. cbn. by rewrite Z.sub_0_r.
Qed.

(** ** Choosing the proposer *)

Lemma beats_refl v : beats v v.
Proof. right. lia. Qed.

Lemma beats_trans u v w : beats u v -> beats v w -> beats u w.
Proof. unfold beats. lia. Qed.

Lemma mostPriority_loop_spec {St E} (l : list vptr) p (s : St) :
  NoDup (map (fun q => Address q.2) (p :: l)) ->
  exists q, mostPriority_loop (E := E) (Some p) l s = Done s (Some q) /\ q ∈ p :: l /\
            forall r, r ∈ p :: l -> beats q.2 r.2.
Proof.
  revert p. induction l as [|r l IH]; intros [i v] Hnd.
  - exists (i, v). split_and!; [done|left|].
    intros r ->%list_elem_of_singleton. apply beats_refl.
  - destruct r as [j w]. cbn in Hnd. apply NoDup_cons in Hnd as [Hin Hnd].
    assert (Hvw : Address v <> Address w) by (intros Heq; apply Hin; rewrite Heq; left).
    assert (exists q0, Cmp (S := St) (E := E) (Some (i, v)) (Some (j, w)) s = Done s (Some q0) /\
              (q0 = (i, v) \/ q0 = (j, w)) /\ beats q0.2 v /\ beats q0.2 w) as (q0 & Ec & Hq & Hb1 & Hb2).
    { unfold Cmp, beats, mret, st_ret. destruct (Z.ltb_spec (ProposerPriority w) (ProposerPriority v)).
      { exists (i, v). cbn. split_and!; [done|by left|lia|lia]. }
      destruct (Z.ltb_spec (ProposerPriority v) (ProposerPriority w)).
      { exists (j, w). cbn. split_and!; [done|by right|lia|lia]. }
      rewrite (proj2 (Z.eqb_neq _ _)) by done.
      destruct (Z.ltb_spec (Address v) (Address w)).
      { exists (i, v). cbn. split_and!; [done|by left|lia|lia]. }
      exists (j, w). cbn. split_and!; [done|by right|lia|lia]. }
    destruct (IH q0) as (q & Em & Hqin & Hall).
    { cbn. apply NoDup_cons in Hnd as [Hwin Hnd]. destruct Hq as [->| ->]; cbn;
        apply NoDup_cons; split; auto. intros ?. apply Hin. by right. }
    exists q. change (mostPriority_loop (Some (i, v)) ((j, w) :: l))
      with (res' ← Cmp (S := St) (E := E) (Some (i, v)) (Some (j, w)); mostPriority_loop res' l).
    unfold mbind, st_bind. rewrite Ec, Em. split_and!; [done| |].
    + apply elem_of_cons in Hqin as [->|?]; [destruct Hq as [->| ->]|]; set_solver.
    + intros r Hr. pose proof (Hall q0 ltac:(left)) as H0.
      apply elem_of_cons in Hr as [->|Hr]; [by eapply beats_trans|].
      apply elem_of_cons in Hr as [->|Hr]; [by eapply beats_trans|]. apply Hall. by right.
Qed.

Lemma elem_of_vptrs l i v : (i, v) ∈ vptrs l <-> l !! i = Some v.
Proof.
  unfold vptrs. rewrite list_elem_of_lookup. split.
  - intros [k Hk]. rewrite list_lookup_imap in Hk.
    destruct (l !! k) eqn:E; cbn in Hk; simplify_eq. done.
  - intros H. exists i. rewrite list_lookup_imap, H. done.
Qed.

Lemma vptrs_addresses l : map (fun q => Address q.2) (vptrs l) = map Address l.
Proof.
  unfold vptrs. change (map (fun q : vptr => Address q.2) (imap pair l))
    with ((fun q : vptr => Address q.2) <$> imap pair l).
  apply list_eq. intros i. rewrite list_lookup_fmap, list_lookup_imap.
  change (map Address l) with (Address <$> l). rewrite list_lookup_fmap.
  by destruct (l !! i).
Qed.

(** The validator with most priority exists, is in the set, and beats every
    other validator of the set. *)
Lemma getValWithMostPriority_spec {E} s :
  Validators s <> [] -> NoDup (map Address (Validators s)) ->
  exists i v, getValWithMostPriority (E := E) s = Done s (Some (i, v)) /\
              Validators s !! i = Some v /\
              (forall w, w ∈ Validators s -> beats v w).
Proof.
  intros Hne Hnd. unfold getValWithMostPriority, mbind, st_bind, getS.
  rewrite <- vptrs_addresses in Hnd.
  destruct (vptrs (Validators s)) as [|p l] eqn:Ep.
  { apply (f_equal length) in Ep. unfold vptrs in Ep. rewrite length_imap in Ep.
    by destruct (Validators s). }
  destruct (mostPriority_loop_spec (E := E) l p s Hnd) as ([i v] & E1 & Hin & Hall).
  exists i, v. split_and!.
  - cbn [mostPriority_loop]. unfold mbind, st_bind, Cmp, mret, st_ret. exact E1.
  - apply elem_of_vptrs. rewrite Ep. done.
  - intros w [k Hk]%list_elem_of_lookup. apply (Hall (k, w)). rewrite <- Ep. by apply elem_of_vptrs.
Qed.

End ValsetPriority.
