(* ===== verification/ValsetRotation.v ===== *)
(** * The proposer rotation keeps its invariant

    The well-formedness invariant of a validator set, the exact behaviour of
    [IncrementProposerPriority] on a well-formed set, and the fairness of the
    rotation. *)

From S2P Require Import Prelude Valset ValsetPriority.

Module ValsetRotation.
Import Valset ValsetPriority.

(** ** The invariant *)

Definition addrLt (a b : Validator) : Prop := Address a < Address b.

(** What every operation of the package relies on: validators ordered by
    address, positive powers whose sum is cached and within the limit, an index
    that agrees with the slice, and priorities that leave room for one round. *)
Record wf (s : ValidatorSet) : Prop := mkWf {
  wf_sorted : StronglySorted addrLt (Validators s);
  wf_power : Forall (fun v => 0 < VotingPower v) (Validators s);
  wf_total : totalVotingPower s = sumZ VotingPower (Validators s);
  wf_max : totalVotingPower s <= MaxTotalVotingPower;
  wf_map : validatorsMap s = addressIndex_loop 0 (Validators s) ∅;
  wf_prio : within (- PrioBound) PrioBound (Validators s)
}.

(** A set ready for rotation steps: the total is cached and positive, nobody is
    below [- lo], and the priorities are centered. *)
Record centered (lo : Z) (s : ValidatorSet) : Prop := mkCentered {
  ce_ne : Validators s <> [];
  ce_nodup : NoDup (map Address (Validators s));
  ce_power : Forall (fun v => 0 < VotingPower v) (Validators s);
  ce_total : totalVotingPower s = sumZ VotingPower (Validators s);
  ce_lo : Forall (fun v => - lo <= ProposerPriority v) (Validators s);
  ce_sum : 0 <= sumZ ProposerPriority (Validators s) < Z.of_nat (length (Validators s))
}.

(** ** Consequences of the order *)

Lemma sorted_nodup l : StronglySorted addrLt l -> NoDup (map Address l).
Proof.
  induction 1 as [|v l Hl IH Hv]; cbn; [constructor|].
  apply NoDup_cons. split; [|done].
  intros (w & Hw & Hin)%list_elem_of_fmap.
  pose proof (proj1 (Forall_forall _ _) Hv w Hin). unfold addrLt in *. lia.
Qed.

Lemma samePeople_sorted l l' :
  samePeople l l' -> StronglySorted addrLt l -> StronglySorted addrLt l'.
Proof.
  intros H%samePeople_addresses Hs. revert l' H.
  induction Hs as [|v l Hs IH Hv]; intros [|v' l'] H; try done; [constructor|].
  cbn in H. injection H as Ha H. constructor; [auto|]. apply Forall_forall. intros w Hw.
  assert (Hin : Address w ∈ map Address l').
  { apply list_elem_of_fmap. by exists w. }
  rewrite <- H in Hin. apply list_elem_of_fmap in Hin as (u & Hu & Hin).
  pose proof (proj1 (Forall_forall _ _) Hv u Hin). unfold addrLt in *. lia.
Qed.

Lemma addressIndex_loop_people l l' i m :
  map Address l = map Address l' -> addressIndex_loop i l m = addressIndex_loop i l' m.
Proof.
  revert l' i m. induction l as [|v l IH]; intros [|v' l'] i m H; try done.
  cbn in H |- *. injection H as -> H. auto.
Qed.

Lemma samePeople_nonempty l l' : samePeople l l' -> l <> [] -> l' <> [].
Proof. intros H%samePeople_length. by destruct l, l'. Qed.

Lemma samePeople_setPriority_alter f i l :
  samePeople l (alter (fun v => setPriority (f v) v) i l).
Proof.
  unfold samePeople. revert i. induction l as [|v l IH]; intros [|i]; cbn; try done.
  f_equal. apply IH.
Qed.

Lemma samePeople_exactStep i l : samePeople l (exactStep i l).
Proof.
  unfold exactStep. eapply samePeople_trans; [apply (samePeople_map (fun v => ProposerPriority v + VotingPower v) l)|].
  apply (samePeople_setPriority_alter (fun v => ProposerPriority v - sumZ VotingPower l)).
Qed.

(** Changing priorities within the bound keeps a set well formed. *)
Lemma wf_samePeople s l' p :
  wf s -> samePeople (Validators s) l' -> within (- PrioBound) PrioBound l' ->
  wf (setProposer p (setValidators l' s)).
Proof.
  intros [Hs Hp Ht Hm Hi _] Hsame Hw. split; cbn; auto.
  - by eapply samePeople_sorted.
  - by eapply (samePeople_Forall_power (fun x => 0 < x)).
  - by rewrite Ht, (samePeople_powers _ _ Hsame).
  - rewrite Hi. by apply addressIndex_loop_people, samePeople_addresses.
Qed.

Lemma sum_pos l : l <> [] -> Forall (fun v => 0 < VotingPower v) l -> 0 < sumZ VotingPower l.
Proof.
  intros Hne Hl. destruct Hl as [|v l Hv Hl]; [done|]. cbn.
  pose proof (sumZ_nonneg VotingPower l). enough (0 <= sumZ VotingPower l) by lia.
  apply H. eapply Forall_impl; [exact Hl|]. cbn. lia.
Qed.

Lemma power_le_sum l v :
  Forall (fun v => 0 < VotingPower v) l -> v ∈ l -> 0 < VotingPower v <= sumZ VotingPower l.
Proof.
  intros Hl Hv. split; [exact (proj1 (Forall_forall _ _) Hl v Hv)|].
  apply sumZ_elem_le; [|done]. eapply Forall_impl; [exact Hl|]. cbn. lia.
Qed.

Lemma TotalVotingPower_cached s :
  totalVotingPower s <> 0 -> TotalVotingPower s = Done s (totalVotingPower s).
Proof.
  intros H. unfold TotalVotingPower, mbind, st_bind, getS.
  by rewrite (proj2 (Z.eqb_neq _ _) H).
Qed.

(** ** One rotation step *)

Lemma bumped_exact lo hi T l :
  within lo hi l -> Forall (fun v => 0 < VotingPower v <= T) l ->
  MinInt64 <= lo -> hi + T <= MaxInt64 -> 0 < T <= MaxInt64 ->
  map (fun v => setPriority (safeAddClip (ProposerPriority v) (VotingPower v)) v) l = map bumped l.
Proof.
  intros Hw Hp Hlo Hhi HT. apply list_fmap_ext. intros k v Hv%list_elem_of_lookup_2.
  unfold bumped. f_equal.
  pose proof (within_elem _ _ _ v Hw Hv). pose proof (proj1 (Forall_forall _ _) Hp v Hv) as Hpv.
  cbn in Hpv. apply safeAddClip_exact; wsolve.
Qed.

Lemma map_bumped_lookup l i v :
  map bumped l !! i = Some v -> exists w, l !! i = Some w /\ v = bumped w.
Proof.
  change (map bumped l) with (bumped <$> l). rewrite list_lookup_fmap.
  destruct (l !! i) as [w|]; cbn; [|done]. intros [= <-]. by exists w.
Qed.

(** One step is exact: every validator gains its power and the winner pays the
    total; nothing is clipped. *)
Lemma incrementProposerPriority_exact lo hi s :
  Validators s <> [] -> NoDup (map Address (Validators s)) ->
  Forall (fun v => 0 < VotingPower v) (Validators s) ->
  totalVotingPower s = sumZ VotingPower (Validators s) ->
  within lo hi (Validators s) ->
  MinInt64 + totalVotingPower s <= lo -> hi + totalVotingPower s <= MaxInt64 ->
  totalVotingPower s <= MaxInt64 ->
  exists i v, Validators s !! i = Some v /\
    incrementProposerPriority s = Done (setValidators (exactStep i (Validators s)) s) i /\
    (forall w, w ∈ Validators s -> beats (bumped v) (bumped w)).
Proof.
  intros Hne Hnd Hp Ht Hw Hlo Hhi Hmax.
  pose proof (sum_pos _ Hne Hp) as HT. rewrite <- Ht in HT.
  set (s1 := setValidators (map bumped (Validators s)) s).
  assert (Hne1 : Validators s1 <> []) by (cbn; by destruct (Validators s)).
  assert (Hnd1 : NoDup (map Address (Validators s1))) by (cbn; by rewrite map_map).
  destruct (getValWithMostPriority_spec (E := valset_error) s1 Hne1 Hnd1)
    as (i & v' & Eg & Hi & Hbeat).
  destruct (map_bumped_lookup _ _ _ Hi) as (v & Hv & ->).
  exists i, v. split; [done|split].
  - unfold incrementProposerPriority, mbind, st_bind, modify.
    rewrite (bumped_exact lo hi (totalVotingPower s)); [|done| |wsolve|wsolve|wsolve].
    2: { apply Forall_forall. intros w Hw'. rewrite Ht. by apply power_le_sum. }
    fold s1. rewrite Eg. rewrite TotalVotingPower_cached by (cbn; lia).
    unfold mret, st_ret, s1, setValidators. cbn. f_equal. f_equal. unfold exactStep. rewrite <- Ht.
    apply list_eq. intros k. destruct (decide (k = i)) as [->|Hk].
    + rewrite !list_lookup_alter_eq. cbn in Hi. rewrite Hi. cbn. do 2 f_equal.
      pose proof (within_elem _ _ _ v Hw (list_elem_of_lookup_2 _ _ _ Hv)).
      pose proof (power_le_sum _ v Hp (list_elem_of_lookup_2 _ _ _ Hv)).
      apply safeSubClip_exact; wsolve.
    + rewrite !list_lookup_alter_ne by done. done.
  - intros w Hw'. apply Hbeat. cbn. apply list_elem_of_fmap. by exists w.
Qed.

Lemma sum_bumped l :
  sumZ ProposerPriority (map bumped l) = sumZ ProposerPriority l + sumZ VotingPower l.
Proof. by apply sumZ_map_add. Qed.

(** A step moves priority around but creates none. *)
Lemma sum_exactStep i l v :
  l !! i = Some v -> sumZ ProposerPriority (exactStep i l) = sumZ ProposerPriority l.
Proof.
  intros Hv. unfold exactStep. rewrite (sumZ_alter _ _ _ _ (bumped v)).
  - rewrite sum_bumped. cbn. lia.
  - change (map bumped l) with (bumped <$> l). by rewrite list_lookup_fmap, Hv.
Qed.

Lemma elem_of_exactStep i l v w :
  l !! i = Some v -> w ∈ exactStep i l ->
  w = setPriority (ProposerPriority v + VotingPower v - sumZ VotingPower l) v \/
  exists u, u ∈ l /\ w = bumped u.
Proof.
  intros Hv [k Hk]%list_elem_of_lookup. unfold exactStep in Hk.
  destruct (decide (k = i)) as [->|Hne].
  - rewrite list_lookup_alter_eq in Hk. change (map bumped l) with (bumped <$> l) in Hk.
    rewrite list_lookup_fmap, Hv in Hk. cbn in Hk. left. injection Hk as <-. done.
  - rewrite list_lookup_alter_ne in Hk by done.
    apply map_bumped_lookup in Hk as (u & Hu & ->). right. exists u.
    split; [by eapply list_elem_of_lookup_2|done].
Qed.

(** The winner has positive priority before it pays: the average is not
    negative and the total was just handed out. *)
Lemma winner_positive l v :
  l <> [] -> Forall (fun v => 0 < VotingPower v) l -> 0 <= sumZ ProposerPriority l ->
  (forall w, w ∈ l -> beats (bumped v) (bumped w)) ->
  0 < ProposerPriority (bumped v).
Proof.
  intros Hne Hp Hs Hb. pose proof (sum_pos l Hne Hp) as HT.
  destruct (Z_lt_ge_dec 0 (ProposerPriority (bumped v))) as [?|Hle]; [done|exfalso].
  assert (Hsum : sumZ ProposerPriority (map bumped l) <= 0).
  { clear -Hb Hle. induction l as [|w l IH]; [done|]. cbn [map sumZ].
    pose proof (Hb w ltac:(left)) as Hw. unfold beats in Hw.
    assert (forall w, w ∈ l -> beats (bumped v) (bumped w)) as Hb' by (intros; apply Hb; by right).
    specialize (IH Hb'). lia. }
  rewrite sum_bumped in Hsum. lia.
Qed.

Lemma exactStep_within lo hi l i v :
  l !! i = Some v -> within lo hi l -> Forall (fun v => 0 < VotingPower v) l ->
  within (lo - sumZ VotingPower l) (hi + sumZ VotingPower l) (exactStep i l).
Proof.
  intros Hv Hw Hp. apply Forall_forall. intros w Hin.
  pose proof (list_elem_of_lookup_2 _ _ _ Hv) as Hvl.
  destruct (elem_of_exactStep _ _ _ _ Hv Hin) as [->|(u & Hu & ->)]; cbn.
  - pose proof (within_elem _ _ _ v Hw Hvl). pose proof (power_le_sum _ v Hp Hvl). lia.
  - pose proof (within_elem _ _ _ u Hw Hu). pose proof (power_le_sum _ u Hp Hu). lia.
Qed.

(** ** Advancing the proposer once *)

(** The first half of [IncrementProposerPriority]: rescale, then center. *)
Lemma prepare_exact s :
  wf s -> Validators s <> [] ->
  let l := prepared (2 * totalVotingPower s) (Validators s) in
  samePeople (Validators s) l /\
  within (- (2 * totalVotingPower s)) (2 * totalVotingPower s) l /\
  0 <= sumZ ProposerPriority l < Z.of_nat (length l) /\
  forall (k : unit -> st ValidatorSet valset_error unit),
    (RescalePriorities (i64 (PriorityWindowSizeFactor * totalVotingPower s));;
     x ← shiftByAvgProposerPriority; k x) s = k tt (setValidators l s).
Proof.
  intros [Hs Hp Ht Hm Hi Hw] Hne. pose proof (sum_pos _ Hne Hp) as HT. rewrite <- Ht in HT.
  unfold PriorityWindowSizeFactor. rewrite i64_small by psolve.
  destruct (RescalePriorities_spec (E := valset_error) s (2 * totalVotingPower s) Hne Hw ltac:(lia))
    as (l1 & E1 & Hsame1 & Hsp1 & Hw1 & ->).
  destruct (shiftByAvgProposerPriority_spec (E := valset_error)
    (setValidators (rescaled (2 * totalVotingPower s) (Validators s)) s)
    (2 * totalVotingPower s)) as (l2 & E2 & Hsame2 & Hw2 & Hsum2 & ->); cbn; auto; [|lia|].
  { by eapply samePeople_nonempty. }
  split; [by eapply samePeople_trans|]. split; [done|]. split; [done|].
  intros k. unfold mbind, st_bind. rewrite E1, E2. done.
Qed.

Lemma prepare_spec s :
  wf s -> Validators s <> [] ->
  exists l, samePeople (Validators s) l /\
    within (- (2 * totalVotingPower s)) (2 * totalVotingPower s) l /\
    0 <= sumZ ProposerPriority l < Z.of_nat (length l) /\
    forall (k : unit -> st ValidatorSet valset_error unit),
      (RescalePriorities (i64 (PriorityWindowSizeFactor * totalVotingPower s));;
       x ← shiftByAvgProposerPriority; k x) s = k tt (setValidators l s).
Proof. intros. eexists. by apply prepare_exact. Qed.

Lemma IncrementProposerPriority_unfold times s :
  Validators s <> [] -> totalVotingPower s <> 0 -> 0 < times ->
  IncrementProposerPriority times s =
  (RescalePriorities (i64 (PriorityWindowSizeFactor * totalVotingPower s));;
   _ ← shiftByAvgProposerPriority;
   proposer ← repeatS (Z.to_nat times) incrementProposerPriority 0%nat;
   modify (fun s => setProposer (Validators s !! proposer) s)) s.
Proof.
  intros Hne Ht Htimes. unfold IncrementProposerPriority.
  unfold mbind at 1, st_bind at 1, getS.
  rewrite (IsNilOrEmpty_false _ Hne), (proj2 (Z.leb_gt _ _)) by lia.
  unfold mbind at 1, st_bind at 1. by rewrite TotalVotingPower_cached.
Qed.

(** One call, on every well-formed set: a turn of the loop on the prepared list. *)
Lemma IncrementProposerPriority_once s :
  wf s -> Validators s <> [] ->
  let l := prepared (2 * totalVotingPower s) (Validators s) in
  exists i v,
    l !! i = Some v /\ (forall w, w ∈ l -> beats (bumped v) (bumped w)) /\
    incrementProposerPriority (setValidators l s) = Done (setValidators (exactStep i l) s) i /\
    let s' := setProposer (exactStep i l !! i) (setValidators (exactStep i l) s) in
    IncrementProposerPriority 1 s = Done s' tt /\ wf s' /\
    0 <= sumZ ProposerPriority (Validators s') < Z.of_nat (length (Validators s')).
Proof.
  intros Hwf Hne l. destruct (prepare_exact s Hwf Hne) as (Hsame & Hw & Hsum & Ek). fold l in Hsame, Hw, Hsum, Ek.
  pose proof Hwf as [Hs Hp Ht Hm Hi _]. pose proof (sum_pos _ Hne Hp) as HT. rewrite <- Ht in HT.
  assert (Hp' : Forall (fun v => 0 < VotingPower v) l)
    by (by eapply (samePeople_Forall_power (fun x => 0 < x))).
  assert (Ht' : totalVotingPower s = sumZ VotingPower l)
    by (rewrite Ht; by apply samePeople_powers).
  destruct (incrementProposerPriority_exact (- (2 * totalVotingPower s)) (2 * totalVotingPower s)
    (setValidators l s)) as (i & v & Hv & Einc & Hbeat); cbn; auto; try psolve.
  { by eapply samePeople_nonempty. }
  { rewrite <- (samePeople_addresses _ _ Hsame). by apply sorted_nodup. }
  cbn [Validators setValidators] in Hv. exists i, v. split; [done|]. split; [done|]. split; [exact Einc|].
  split; [|split; [|cbn [Validators setProposer setValidators]]].
  - rewrite IncrementProposerPriority_unfold by lia || done. rewrite Ek.
    change (Z.to_nat 1) with 1%nat. cbn [repeatS]. unfold mbind, st_bind.
    rewrite Einc. done.
  - apply wf_samePeople; [done|eapply samePeople_trans; [done|apply samePeople_exactStep]|].
    eapply within_weaken; [by apply (exactStep_within _ _ _ _ _ Hv Hw Hp')|cbn; psolve|cbn; psolve].
  - by rewrite (sum_exactStep _ _ _ Hv), <- (samePeople_length _ _ (samePeople_exactStep i l)).
Qed.

(** The specification of one round, on every well-formed set. *)
Lemma IncrementProposerPriority_1 s :
  wf s -> Validators s <> [] ->
  exists s' l i v,
    IncrementProposerPriority 1 s = Done s' tt /\
    samePeople (Validators s) l /\
    within (- (2 * totalVotingPower s)) (2 * totalVotingPower s) l /\
    l !! i = Some v /\ (forall w, w ∈ l -> beats (bumped v) (bumped w)) /\
    Validators s' = exactStep i l /\ Proposer s' = Validators s' !! i /\
    totalVotingPower s' = totalVotingPower s /\ wf s'.
Proof.
  intros Hwf Hne. destruct (prepare_exact s Hwf Hne) as (Hsame & Hw & _).
  destruct (IncrementProposerPriority_once s Hwf Hne) as (i & v & Hv & Hb & _ & E & Hwf' & _).
  eexists _, _, i, v. split; [exact E|]. by split_and!.
Qed.

(** ** Calls and turns *)

(** The proposer that a set remembers has no part in a turn. *)
Lemma incrementProposerPriority_proposer p s :
  totalVotingPower s <> 0 ->
  incrementProposerPriority (setProposer p s) =
  match incrementProposerPriority s with
  | Done t i => Done (setProposer p t) i
  | Fail t e => Fail (setProposer p t) e
  | Panicked w => Panicked w
  end.
Proof.
  intros Ht. unfold incrementProposerPriority, getValWithMostPriority, mbind, st_bind, modify, getS.
  cbn [Validators setProposer setValidators].
  set (l := map (fun v => setPriority (safeAddClip (ProposerPriority v) (VotingPower v)) v) (Validators s)).
  assert (Hloop : forall res ps (s1 s2 : ValidatorSet),
    match mostPriority_loop (E := valset_error) res ps s1 with
    | Done t r => t = s1 /\ mostPriority_loop (E := valset_error) res ps s2 = Done s2 r
    | Fail t e => False
    | Panicked w => mostPriority_loop (E := valset_error) res ps s2 = Panicked w
    end).
  { intros res ps. revert res. induction ps as [|q ps IH]; intros res s1 s2; cbn [mostPriority_loop]; [done|].
    unfold mbind, st_bind, Cmp. destruct res as [[i a]|]; [|apply IH]. destruct q as [j b].
    repeat case_if; try apply IH. done. }
  specialize (Hloop None (vptrs l) (setValidators l s) (setValidators l (setProposer p s))).
  destruct (mostPriority_loop None (vptrs l) (setValidators l s)) as [t r|t e|w].
  - destruct Hloop as [-> E]. cbn in E |- *. rewrite E. destruct r as [[i a]|]; [|done].
    pose proof TotalVotingPower_cached as Hc. unfold setProposer in *. rewrite !Hc by done. done.
  - done.
  - cbn in Hloop |- *. by rewrite Hloop.
Qed.

(** [m] calls in a row. *)
Abbreviation calls m := (repeatS m (IncrementProposerPriority 1) tt).

(** Along them no call but the first has priorities to rescale. *)
Definition unscaled (m : nat) (s : ValidatorSet) : Prop :=
  forall k s1, (0 < k < m)%nat -> calls k s = Done s1 tt -> gap (Validators s1) <= 2 * totalVotingPower s.

Lemma repeatS_snoc {St E A} n (m : st St E A) a0 s s1 a s2 b :
  repeatS n m a0 s = Done s1 a -> m s1 = Done s2 b -> repeatS (S n) m a0 s = Done s2 b.
Proof.
  revert a0 s. induction n as [|n IH]; intros a0 s E1 E2.
  - cbn [repeatS] in *. unfold mret, st_ret in E1. injection E1 as -> ->.
    unfold mbind, st_bind. by rewrite E2.
  - cbn [repeatS] in E1 |- *. unfold mbind, st_bind in E1 |- *.
    destruct (m s) as [s0 c|?|?]; try done. exact (IH c s0 E1 E2).
Qed.

Lemma calls_turns m s :
  wf s -> Validators s <> [] -> unscaled (S m) s ->
  let s0 := setValidators (prepared (2 * totalVotingPower s) (Validators s)) s in
  exists t i, repeatS (S m) incrementProposerPriority 0%nat s0 = Done t i /\
    calls (S m) s = Done (setProposer (Validators t !! i) t) tt /\
    wf (setProposer (Validators t !! i) t) /\ Validators t <> [] /\ totalVotingPower t = totalVotingPower s /\
    0 <= sumZ ProposerPriority (Validators t) < Z.of_nat (length (Validators t)).
Proof.
  intros Hwf Hne. induction m as [|m IH]; intros Hu s0.
  - destruct (IncrementProposerPriority_once s Hwf Hne) as (i & v & Hv & _ & Einc & E & Hwf' & Hsum).
    eexists _, i. split; [|split; [|split; [exact Hwf'|split; [|split; [done|exact Hsum]]]]].
    + cbn [repeatS]. subst s0. by rewrite (bind_eq _ _ _ _ _ Einc).
    + cbn [repeatS]. by rewrite (bind_eq _ _ _ _ _ E).
    + cbn. intros Hnil. cbn in Hsum. rewrite Hnil in Hsum. cbn in Hsum. lia.
  - destruct IH as (t & i & Et & Ec & Hwft & Hnet & Htot & Hsum).
    { intros k s1 Hk. apply Hu. lia. }
    assert (Hgap : gap (Validators t) <= 2 * totalVotingPower t).
    { rewrite Htot. apply (Hu (S m) (setProposer (Validators t !! i) t)); [lia|exact Ec]. }
    assert (Eid : prepared (2 * totalVotingPower t) (Validators t) = Validators t).
    { apply prepared_id; [done| |done]. intros a b Ha Hb. pose proof (proj1 (gap_spec _ Hnet) a b Ha Hb). lia. }
    destruct (IncrementProposerPriority_once _ Hwft Hnet) as (j & v & Hv & _ & Einc & E & Hwf' & Hsum').
    cbn [Validators totalVotingPower setProposer setValidators] in Hv, Einc, E, Hwf', Hsum'.
    rewrite Eid in Hv, Einc, E, Hwf', Hsum'.
    assert (Htz : totalVotingPower t <> 0).
    { destruct Hwft as [_ Hp Ht _ _ _]. cbn in Hp, Ht. pose proof (sum_pos _ Hnet Hp). lia. }
    set (t' := setValidators (exactStep j (Validators t)) t).
    assert (Einc' : incrementProposerPriority t = Done t' j).
    { assert (Es : setValidators (Validators t) (setProposer (Validators t !! i) t) = setProposer (Validators t !! i) t) by done.
      rewrite Es, incrementProposerPriority_proposer in Einc by done.
      destruct (incrementProposerPriority t) as [u k|?|?] eqn:Eu; [|done|done].
      assert (k = j) as -> by congruence.
      destruct (incrementProposerPriority_exact (-(2 * totalVotingPower t)) (2 * totalVotingPower t) t) as (k' & ? & _ & E2 & _).
      - done.
      - apply sorted_nodup, (wf_sorted _ Hwft).
      - apply (wf_power _ Hwft).
      - apply (wf_total _ Hwft).
      - destruct (prepare_exact _ Hwft Hnet) as (_ & Hw & _). cbn in Hw. by rewrite Eid in Hw.
      - pose proof (wf_max _ Hwft) as Hm. cbn in Hm. psolve.
      - pose proof (wf_max _ Hwft) as Hm. cbn in Hm. psolve.
      - pose proof (wf_max _ Hwft) as Hm. cbn in Hm. psolve.
      - rewrite Eu in E2. assert (j = k') as <- by congruence. exact E2. }
    exists t', j. split; [|split; [|split; [exact Hwf'|split; [|split; [done|exact Hsum']]]]].
    + by apply (repeatS_snoc _ _ _ _ _ _ _ _ Et).
    + by apply (repeatS_snoc _ _ _ _ _ _ _ _ Ec).
    + cbn. intros Hnil. cbn in Hsum'. rewrite Hnil in Hsum'. cbn in Hsum'. lia.
Qed.

(** ** Many steps: fairness *)

Lemma elem_le_sum_lo f lo (l : list Validator) v :
  Forall (fun v => - lo <= f v) l -> v ∈ l ->
  f v <= sumZ f l + lo * (Z.of_nat (length l) - 1).
Proof.
  intros Hl Hv. apply list_elem_of_split in Hv as (l1 & l2 & ->).
  apply Forall_app in Hl as [H1 H2]. apply Forall_cons in H2 as [_ H2].
  rewrite sumZ_app, length_app. cbn [sumZ length].
  assert (Hlow : forall l', Forall (fun v => - lo <= f v) l' -> - lo * Z.of_nat (length l') <= sumZ f l').
  { induction 1; cbn [sumZ length]; lia. }
  pose proof (Hlow _ H1). pose proof (Hlow _ H2). lia.
Qed.

Lemma centered_upper lo s :
  centered lo s ->
  within (- lo) ((lo + 1) * (Z.of_nat (length (Validators s)) - 1)) (Validators s).
Proof.
  intros [_ _ _ _ Hlo Hsum]. apply Forall_forall. intros v Hv.
  pose proof (elem_le_sum_lo ProposerPriority lo _ v Hlo Hv).
  pose proof (proj1 (Forall_forall _ _) Hlo v Hv) as Hl. cbn in Hl. lia.
Qed.

(** A set has room when no centered arrangement of its validators can overflow. *)
Definition roomy (lo : Z) (s : ValidatorSet) : Prop :=
  totalVotingPower s <= lo /\ lo + totalVotingPower s <= MaxInt64 /\
  (lo + 1) * (Z.of_nat (length (Validators s)) - 1) + totalVotingPower s <= MaxInt64.

Lemma centered_step lo s :
  centered lo s -> roomy lo s ->
  exists i v, Validators s !! i = Some v /\
    incrementProposerPriority s = Done (setValidators (exactStep i (Validators s)) s) i /\
    centered lo (setValidators (exactStep i (Validators s)) s) /\
    roomy lo (setValidators (exactStep i (Validators s)) s).
Proof.
  intros Hc (Hlo & Hlo2 & Hhi). pose proof (centered_upper _ _ Hc) as Hw.
  pose proof Hc as [Hne Hnd Hp Ht Hl Hsum].
  pose proof (sum_pos _ Hne Hp) as HT.
  destruct (incrementProposerPriority_exact _ _ s Hne Hnd Hp Ht Hw)
    as (i & v & Hv & Einc & Hbeat); [wsolve|wsolve|wsolve|].
  pose proof (samePeople_exactStep i (Validators s)) as Hsame.
  pose proof (winner_positive _ v Hne Hp (proj1 Hsum) Hbeat) as Hpos. cbn in Hpos.
  exists i, v. split; [done|split; [done|split]].
  - split; cbn.
    + by eapply samePeople_nonempty.
    + by rewrite <- (samePeople_addresses _ _ Hsame).
    + by eapply (samePeople_Forall_power (fun x => 0 < x)).
    + by rewrite Ht, (samePeople_powers _ _ Hsame).
    + apply Forall_forall. intros w Hin.
      destruct (elem_of_exactStep _ _ _ _ Hv Hin) as [->|(u & Hu & ->)]; cbn.
      * rewrite <- Ht. lia.
      * pose proof (proj1 (Forall_forall _ _) Hl u Hu) as Hlu. cbn in Hlu.
        pose proof (power_le_sum _ u Hp Hu). lia.
    + rewrite (sum_exactStep _ _ _ Hv), <- (samePeople_length _ _ Hsame). done.
  - unfold roomy. cbn. rewrite <- (samePeople_length _ _ Hsame). done.
Qed.

(** A run of [n] steps ends in a centered set; along it, a validator that is
    never chosen collects its power every step. *)
Lemma rotation_run lo n s j v :
  centered lo s -> roomy lo s -> Validators s !! j = Some v ->
  (exists k s1 s2 a, (k < n)%nat /\ repeatS k incrementProposerPriority 0%nat s = Done s1 a /\
                   incrementProposerPriority s1 = Done s2 j /\
                   exists p, Validators s2 !! j = Some p /\ Address p = Address v) \/
  (exists s' a v', repeatS n incrementProposerPriority 0%nat s = Done s' a /\
     centered lo s' /\ roomy lo s' /\ length (Validators s') = length (Validators s) /\
     Validators s' !! j = Some v' /\ VotingPower v' = VotingPower v /\
     ProposerPriority v' = ProposerPriority v + Z.of_nat n * VotingPower v).
Proof.
  revert s v. generalize 0%nat as a0.
  induction n as [|n IH]; intros a0 s v Hc Hr Hj.
  - right. exists s, a0, v. cbn. split_and!; try done. lia.
  - destruct (centered_step lo s Hc Hr) as (i & w & Hw & Einc & Hc' & Hr').
    destruct (decide (i = j)) as [->|Hij].
    + left. exists 0%nat, s, (setValidators (exactStep j (Validators s)) s), a0.
      split; [lia|]. split; [done|]. split; [done|].
      exists (setPriority (ProposerPriority w + VotingPower w - sumZ VotingPower (Validators s)) w).
      cbn. unfold exactStep. rewrite list_lookup_alter_eq.
      change (map bumped (Validators s)) with (bumped <$> Validators s).
      rewrite list_lookup_fmap, Hw. split; [done|]. by simplify_eq.
    + set (s' := setValidators (exactStep i (Validators s)) s) in *.
      assert (Hj' : Validators s' !! j = Some (bumped v)).
      { cbn. unfold exactStep. rewrite list_lookup_alter_ne by done.
        change (map bumped (Validators s)) with (bumped <$> Validators s).
        by rewrite list_lookup_fmap, Hj. }
      destruct (IH i s' (bumped v) Hc' Hr' Hj')
        as [(k & s1 & s2 & a & Hk & E1 & E2 & Hp2)|(s1 & a & v' & E1 & ? & ? & Hlen & Hv' & Hp' & Hprio)].
      * left. exists (S k), s1, s2, a. split; [lia|]. split; [|done].
        cbn [repeatS]. unfold mbind, st_bind. by rewrite Einc.
      * right. exists s1, a, v'. split_and!; try done.
        -- cbn [repeatS]. unfold mbind, st_bind. by rewrite Einc.
        -- rewrite Hlen. cbn. symmetry. apply samePeople_length, samePeople_exactStep.
        -- rewrite Hprio. cbn [bumped ProposerPriority VotingPower setPriority]. lia.
Qed.

(** ** A concrete set, used by the witnesses *)

Definition demoValidators : list Validator :=
  [mkValidator 1 11 10 0; mkValidator 2 22 20 0; mkValidator 3 33 30 0].

Definition demoSet : ValidatorSet :=
  mkValidatorSet demoValidators None 60 (addressIndex_loop 0 demoValidators ∅).

Lemma demoSet_wf : wf demoSet.
Proof.
  split; try done.
  - repeat constructor; unfold addrLt; cbn; lia.
  - repeat constructor; cbn; lia.
  - repeat constructor; cbn; psolve.
Qed.

(** ** Properties *)

(** C18: One round, the call the engine makes at the end of a sprint, on any
    well-formed nonempty set.  The priorities are first [prepared]: divided, towards
    zero, by the least whole number that brings their range within twice the total
    power, where it is beyond that, and then less their average, rounded down; a set
    within the range and with average zero, as every round leaves it, is not
    changed by this.  Then every validator gains exactly its voting power, the
    winner [v] is the one with the highest resulting priority (lowest address on a tie)
    and pays exactly the total; it is stored as the proposer.  No addition or
    subtraction is clipped or wraps, people, powers and the total stay, and the set
    stays well formed. *)
Theorem IncrementProposerPriority_round s :
  wf s -> Validators s <> [] ->
  let l := prepared (2 * totalVotingPower s) (Validators s) in
  (gap (Validators s) <= 2 * totalVotingPower s ->
   0 <= sumZ ProposerPriority (Validators s) < Z.of_nat (length (Validators s)) -> l = Validators s) /\
  exists s' i v,
    IncrementProposerPriority 1 s = Done s' tt /\
    l !! i = Some v /\ (forall w, w ∈ l -> beats (bumped v) (bumped w)) /\
    Validators s' = exactStep i l /\ Proposer s' = Validators s' !! i /\
    samePeople (Validators s) (Validators s') /\ totalVotingPower s' = totalVotingPower s /\
    0 <= sumZ ProposerPriority (Validators s') < Z.of_nat (length (Validators s')) /\ wf s'.
Proof.
  intros Hwf Hne l. split.
  - intros Hg Hs. apply prepared_id; [done| |done]. intros a b Ha Hb.
    pose proof (proj1 (gap_spec _ Hne) a b Ha Hb). lia.
  - destruct (prepare_exact s Hwf Hne) as (Hsame & _).
    destruct (IncrementProposerPriority_once s Hwf Hne) as (i & v & Hv & Hb & _ & E & Hwf' & Hsum).
    eexists _, i, v. split; [exact E|]. split_and!; try done; try apply Hsum.
    eapply samePeople_trans; [exact Hsame|apply samePeople_exactStep].
Qed.

(** A set whose priorities are out of range: 900 apart with a total of 60. *)
Definition wideList : list Validator :=
  [mkValidator 1 11 10 (-500); mkValidator 2 22 20 0; mkValidator 3 33 30 400].

Definition demoWide : ValidatorSet := setProposer None (setValidators wideList demoSet).

Lemma demoWide_wf : wf demoWide.
Proof.
  apply (wf_samePeople demoSet wideList None demoSet_wf); [reflexivity|]. repeat constructor; cbn; psolve.
Qed.

Lemma IncrementProposerPriority_round_witness :
  prepared 120 (Validators demoWide) =
    [mkValidator 1 11 10 (-58); mkValidator 2 22 20 4; mkValidator 3 33 30 54] /\
  exists s', IncrementProposerPriority 1 demoWide = Done s' tt /\ wf s'.
Proof.
  split; [vm_compute; reflexivity|].
  destruct (IncrementProposerPriority_round demoWide demoWide_wf) as (_ & s' & i & v & E & H).
  - discriminate.
  - exists s'. split; [exact E|]. apply H.
Defined.

(** C19: No starvation: on a well-formed set in which
    [(2*total + 1) * (size - 1) + total] fits a signed integer, every validator is
    the proposer after some call with at most [(2*total + 1) * size] for [times],
    that is within so many turns of the loop of [IncrementProposerPriority], whatever the
    other powers and priorities are.  The turns of one call are not rescaled in
    between; the same number of calls of one turn each, as the engine makes them, leads to
    the same set as long as none but the first of them finds priorities that differ by
    more than twice the total ([unscaled]). *)
Theorem rotation_no_starvation s j v :
  wf s -> Validators s !! j = Some v ->
  (2 * totalVotingPower s + 1) * (Z.of_nat (length (Validators s)) - 1)
    + totalVotingPower s <= MaxInt64 ->
  exists times s' p,
    0 < times <= (2 * totalVotingPower s + 1) * Z.of_nat (length (Validators s)) /\
    IncrementProposerPriority times s = Done s' tt /\
    Proposer s' = Some p /\ Address p = Address v /\
    (unscaled (Z.to_nat times) s -> repeatS (Z.to_nat times) (IncrementProposerPriority 1) tt s = Done s' tt).
Proof.
  intros Hwf Hj Hroom.
  assert (Hne : Validators s <> []) by (intros E; by rewrite E in Hj).
  destruct (prepare_exact s Hwf Hne) as (Hsame & Hw & Hsum & Ek).
  set (l := prepared (2 * totalVotingPower s) (Validators s)) in *.
  pose proof Hwf as [Hs Hp Ht Hm _ _]. pose proof (sum_pos _ Hne Hp) as HT. rewrite <- Ht in HT.
  set (lo := 2 * totalVotingPower s) in *. set (s0 := setValidators l s).
  pose proof (samePeople_length _ _ Hsame) as Hlen.
  assert (Hc : centered lo s0).
  { split; cbn; auto.
    - by eapply samePeople_nonempty.
    - rewrite <- (samePeople_addresses _ _ Hsame). by apply sorted_nodup.
    - by eapply (samePeople_Forall_power (fun x => 0 < x)).
    - by rewrite Ht, (samePeople_powers _ _ Hsame).
    - eapply Forall_impl; [exact Hw|]. cbn. lia. }
  assert (Hr : roomy lo s0) by (unfold roomy; cbn; rewrite <- Hlen; psolve).
  assert (exists v0, Validators s0 !! j = Some v0 /\ Address v0 = Address v /\
          VotingPower v0 = VotingPower v) as (v0 & Hv0 & Ha & Hpow).
  { apply samePeople_lookup with (l := Validators s); done. }
  set (K := Z.to_nat ((lo + 1) * Z.of_nat (length (Validators s)))).
  pose proof (power_le_sum _ v Hp (list_elem_of_lookup_2 _ _ _ Hj)) as Hvp.
  destruct (rotation_run lo K s0 j v0 Hc Hr Hv0)
    as [(k & s1 & s2 & a & Hk & E1 & E2 & p & Hp2 & Hpa)|(s1 & a & v1 & _ & Hc1 & _ & Hl1 & Hv1 & _ & Hprio)].
  - exists (Z.of_nat (S k)), (setProposer (Validators s2 !! j) s2), p.
    pose proof (repeatS_snoc _ _ _ _ _ _ _ _ E1 E2) as E.
    split; [unfold K in Hk; lia|]. split_and!.
    + rewrite IncrementProposerPriority_unfold by lia || done. rewrite Ek, Nat2Z.id.
      unfold mbind, st_bind. fold s0. by rewrite E.
    + done.
    + congruence.
    + rewrite Nat2Z.id. intros Hu. destruct (calls_turns k s Hwf Hne Hu) as (t & i & Et & Ec & _).
      assert (Et0 : repeatS (S k) incrementProposerPriority 0%nat s0 = Done t i) by exact Et.
      rewrite E in Et0. injection Et0 as <- <-. exact Ec.
  - exfalso. pose proof (centered_upper _ _ Hc1) as Hu.
    pose proof (within_elem _ _ _ v1 Hu (list_elem_of_lookup_2 _ _ _ Hv1)) as Hv1b.
    pose proof (within_elem _ _ _ v0 (centered_upper _ _ Hc) (list_elem_of_lookup_2 _ _ _ Hv0)).
    rewrite Hl1 in Hv1b. cbn in Hv1b. rewrite <- Hlen in Hv1b. unfold K in Hprio. nia.
Qed.

Lemma rotation_no_starvation_witness :
  wf demoSet /\
  exists times s' p,
    0 < times <= (2 * 60 + 1) * 3 /\
    IncrementProposerPriority times demoSet = Done s' tt /\
    Proposer s' = Some p /\ Address p = 11.
Proof.
  split; [exact demoSet_wf|].
  destruct (rotation_no_starvation demoSet 0 (mkValidator 1 11 10 0) demoSet_wf) as (times & s' & p & H1 & H2 & H3 & H4 & _);
    [reflexivity|cbn; psolve|].
  exists times, s', p. split; [exact H1|]. split; [exact H2|]. split; [exact H3|exact H4].
Defined.

End ValsetRotation.
