(* ===== verification/ValsetChange.v ===== *)
(** * Change sets of the validator set

    [updateWithChangeSet] against its specification as a finite map from
    addresses to voting powers: updates override, zero powers delete.  Every
    branch is covered: success, each refusal (which leaves the set as it was)
    and the absence of panics. *)

From S2P Require Import Prelude Valset ValsetPriority ValsetRotation.

Module ValsetChange.
Import Valset ValsetPriority ValsetRotation.

(** ** The abstract set *)

(** The validators by address. *)
Definition byAddr (l : list Validator) : gmap Z Validator :=
  list_to_map ((fun v => (Address v, v)) <$> l).

(** The abstraction of a validator set: who may sign, with which power. *)
Definition powers (l : list Validator) : gmap Z Z := VotingPower <$> byAddr l.

(** The specification of a change set on the abstraction. *)
Definition applyChanges (changes : list Validator) (m : gmap Z Z) : gmap Z Z :=
  filter (fun p => p.2 <> 0) (powers changes ∪ m).

Definition goodPower (v : Validator) : Prop := 0 <= VotingPower v <= MaxTotalVotingPower.

(** ** Lists ordered by address *)

Lemma fst_keyed l : ((fun v => (Address v, v)) <$> l).*1 = map Address l.
Proof. induction l; cbn; [done|]. by f_equal. Qed.

Lemma byAddr_Some l a v :
  NoDup (map Address l) -> byAddr l !! a = Some v <-> v ∈ l /\ Address v = a.
Proof.
  intros Hnd. unfold byAddr. rewrite <- elem_of_list_to_map by (by rewrite fst_keyed).
  rewrite list_elem_of_fmap. split.
  - intros (w & [= -> ->] & Hw). done.
  - intros [Hv <-]. by exists v.
Qed.

Lemma byAddr_None l a : byAddr l !! a = None <-> a ∉ map Address l.
Proof.
  unfold byAddr. rewrite <- not_elem_of_list_to_map. by rewrite fst_keyed.
Qed.

Lemma byAddr_cons v l : byAddr (v :: l) = <[Address v := v]> (byAddr l).
Proof. done. Qed.

(** Ordered lists with the same map are equal. *)
Lemma byAddr_inj l l' :
  StronglySorted addrLt l -> StronglySorted addrLt l' -> byAddr l = byAddr l' -> l = l'.
Proof.
  intros Hl. revert l'. induction Hl as [|v l Hl IH Hv]; intros l' Hl' E.
  - destruct l' as [|w l']; [done|]. apply (f_equal (lookup (Address w))) in E.
    rewrite byAddr_cons, lookup_insert_eq in E. done.
  - destruct Hl' as [|w l' Hl' Hw].
    { apply (f_equal (lookup (Address v))) in E. rewrite byAddr_cons, lookup_insert_eq in E. done. }
    assert (Hnd : NoDup (map Address (v :: l))) by (apply sorted_nodup; by constructor).
    assert (Hnd' : NoDup (map Address (w :: l'))) by (apply sorted_nodup; by constructor).
    assert (Hvw : v = w).
    { assert (H1 : v ∈ w :: l' /\ Address v = Address v).
      { apply byAddr_Some; [done|]. rewrite <- E. apply byAddr_Some; [done|]. split; [left|done]. }
      assert (H2 : w ∈ v :: l /\ Address w = Address w).
      { apply byAddr_Some; [done|]. rewrite E. apply byAddr_Some; [done|]. split; [left|done]. }
      destruct H1 as [[->|H1]%elem_of_cons _]; [done|].
      destruct H2 as [[->|H2]%elem_of_cons _]; [done|].
      pose proof (proj1 (Forall_forall _ _) Hw v H1). pose proof (proj1 (Forall_forall _ _) Hv w H2).
      unfold addrLt in *. lia. }
    subst w. f_equal. apply IH; [done|].
    rewrite !byAddr_cons in E. apply (f_equal (delete (Address v))) in E.
    rewrite !delete_insert_id in E; [done|..]; apply byAddr_None.
    + cbn in Hnd'. by apply NoDup_cons in Hnd' as [? _].
    + cbn in Hnd. by apply NoDup_cons in Hnd as [? _].
Qed.

(** ** Lookup by address *)

Lemma addressIndex_loop_lookup l i m a :
  NoDup (map Address l) ->
  match addressIndex_loop i l m !! a with
  | Some k => (exists j v, k = (i + j)%nat /\ l !! j = Some v /\ Address v = a) \/
              ((a ∉ map Address l) /\ m !! a = Some k)
  | None => (a ∉ map Address l) /\ m !! a = None
  end.
Proof.
  revert i m. induction l as [|v l IH]; intros i m Hnd; cbn.
  - destruct (m !! a) eqn:E.
    + right. split; [apply not_elem_of_nil|done].
    + split; [apply not_elem_of_nil|done].
  - apply NoDup_cons in Hnd as [Hv Hnd]. specialize (IH (S i) (<[Address v:=i]> m) Hnd).
    destruct (addressIndex_loop (S i) l (<[Address v:=i]> m) !! a) as [k|].
    + destruct IH as [(j & w & -> & Hj & Ha)|(Ha & Hm)].
      * left. exists (S j), w. split_and!; [lia|done|done].
      * destruct (decide (Address v = a)) as [<-|Hne].
        -- rewrite lookup_insert_eq in Hm. left. exists 0%nat, v. split_and!; [|done|done].
           simplify_eq. lia.
        -- rewrite lookup_insert_ne in Hm by done. right. split; [|done].
           apply not_elem_of_cons. by split.
    + destruct IH as [Ha Hm]. apply lookup_insert_None in Hm as [Hm Hne].
      split; [|done]. apply not_elem_of_cons. by split.
Qed.

(** A set whose index agrees with its slice. *)
Definition indexed (s : ValidatorSet) : Prop :=
  NoDup (map Address (Validators s)) /\
  validatorsMap s = addressIndex_loop 0 (Validators s) ∅.

Lemma indexed_lookup s a :
  indexed s ->
  match validatorsMap s !! a with
  | Some k => exists v, Validators s !! k = Some v /\ Address v = a /\ byAddr (Validators s) !! a = Some v
  | None => byAddr (Validators s) !! a = None
  end.
Proof.
  intros [Hnd ->]. pose proof (addressIndex_loop_lookup (Validators s) 0 ∅ a Hnd) as H.
  destruct (addressIndex_loop 0 (Validators s) ∅ !! a) as [k|].
  - destruct H as [(j & v & -> & Hj & Ha)|(_ & ?)]; [|done].
    exists v. split_and!; [done|done|]. apply byAddr_Some; [done|].
    split; [by eapply list_elem_of_lookup_2|done].
  - apply byAddr_None. apply H.
Qed.

(** [GetByAddress] finds the validator with the address, and its index. *)
Lemma GetByAddress_spec {E} s a :
  indexed s ->
  exists k, GetByAddress (E := E) a s = Done s (k, byAddr (Validators s) !! a) /\
    match byAddr (Validators s) !! a with
    | Some v => 0 <= k /\ Validators s !! Z.to_nat k = Some v /\ Address v = a
    | None => k = -1
    end.
Proof.
  intros Hi. pose proof (indexed_lookup s a Hi) as H.
  unfold GetByAddress, mbind, st_bind, getS.
  destruct (validatorsMap s !! a) as [k|].
  - destruct H as (v & Hv & Ha & Hb). exists (Z.of_nat k). rewrite Hv, Hb.
    split; [done|]. rewrite Nat2Z.id. split_and!; [lia|done|done].
  - exists (-1). by rewrite H.
Qed.

Lemma wf_indexed s : wf s -> indexed s.
Proof. intros [Hs _ _ _ Hm _]. split; [by apply sorted_nodup|done]. Qed.

(** ** Merging and removing *)

Lemma mergeUpdates_nil_r l : mergeUpdates l [] = l.
Proof. by destruct l. Qed.

Lemma mergeUpdates_cons e el u ul :
  mergeUpdates (e :: el) (u :: ul) =
  if Address e <? Address u then e :: mergeUpdates el (u :: ul)
  else if Address e =? Address u then u :: mergeUpdates el ul
  else u :: mergeUpdates (e :: el) ul.
Proof. done. Qed.

Lemma mergeUpdates_elem e u v : v ∈ mergeUpdates e u -> v ∈ e \/ v ∈ u.
Proof.
  revert u. induction e as [|x e IH]; intros u; [by destruct u; auto|].
  induction u as [|y u IHu]; [by auto|]. rewrite mergeUpdates_cons.
  destruct (Address x <? Address y).
  { intros [->|H]%elem_of_cons; [left; left|]. apply IH in H as [?|?]; [left; by right|auto]. }
  destruct (Address x =? Address y).
  { intros [->|H]%elem_of_cons; [right; left|]. apply IH in H as [?|?]; [left|right]; by right. }
  intros [->|H]%elem_of_cons; [right; left|]. apply IHu in H as [?|?]; [auto|right; by right].
Qed.

Lemma mergeUpdates_sorted e u :
  StronglySorted addrLt e -> StronglySorted addrLt u -> StronglySorted addrLt (mergeUpdates e u).
Proof.
  intros He. revert u. induction He as [|x e He IH Hx]; intros u Hu; [by destruct u|].
  induction Hu as [|y u Hu IHu Hy]; [by constructor|]. rewrite mergeUpdates_cons.
  destruct (Z.ltb_spec (Address x) (Address y)) as [Hlt|Hge].
  - constructor; [apply IH; by constructor|]. apply Forall_forall.
    intros w [Hw|Hw]%mergeUpdates_elem; [exact (proj1 (Forall_forall _ _) Hx w Hw)|].
    apply elem_of_cons in Hw as [->|Hw]; [done|].
    pose proof (proj1 (Forall_forall _ _) Hy w Hw). unfold addrLt in *. lia.
  - destruct (Z.eqb_spec (Address x) (Address y)) as [Heq|Hne].
    + constructor; [by apply IH|]. apply Forall_forall.
      intros w [Hw|Hw]%mergeUpdates_elem; [|exact (proj1 (Forall_forall _ _) Hy w Hw)].
      pose proof (proj1 (Forall_forall _ _) Hx w Hw). unfold addrLt in *. lia.
    + constructor; [done|]. apply Forall_forall.
      intros w [Hw|Hw]%mergeUpdates_elem; [|exact (proj1 (Forall_forall _ _) Hy w Hw)].
      apply elem_of_cons in Hw as [->|Hw]; [unfold addrLt; lia|].
      pose proof (proj1 (Forall_forall _ _) Hx w Hw). unfold addrLt in *. lia.
Qed.

Lemma byAddr_lt_None l v :
  StronglySorted addrLt l -> Forall (addrLt v) l -> byAddr l !! Address v = None.
Proof.
  intros _ Hv. apply byAddr_None. intros (w & Hw & Hin)%list_elem_of_fmap.
  pose proof (proj1 (Forall_forall _ _) Hv w Hin). unfold addrLt in *. lia.
Qed.

Lemma byAddr_mergeUpdates e u :
  StronglySorted addrLt e -> StronglySorted addrLt u ->
  byAddr (mergeUpdates e u) = byAddr u ∪ byAddr e.
Proof.
  intros He. revert u. induction He as [|x e He IH Hx]; intros u Hu.
  { change (byAddr []) with (∅ : gmap Z Validator). rewrite (map_union_empty _). by destruct u. }
  induction Hu as [|y u Hu IHu Hy].
  { change (byAddr []) with (∅ : gmap Z Validator).
    by rewrite mergeUpdates_nil_r, (map_empty_union _). }
  rewrite mergeUpdates_cons.
  destruct (Z.ltb_spec (Address x) (Address y)) as [Hlt|Hge].
  - rewrite byAddr_cons, IH by (by constructor). rewrite (byAddr_cons x).
    rewrite insert_union_r; [done|]. apply (byAddr_lt_None (y :: u)); [by constructor|].
    constructor; [done|]. eapply Forall_impl; [exact Hy|]. unfold addrLt. lia.
  - destruct (Z.eqb_spec (Address x) (Address y)) as [Heq|Hne].
    + rewrite byAddr_cons, IH by done. rewrite !byAddr_cons, Heq.
      apply map_eq. intros a. rewrite <- insert_union_l.
      destruct (decide (Address y = a)) as [<-|Ha].
      * by rewrite !lookup_insert_eq.
      * rewrite !lookup_insert_ne by done. rewrite !lookup_union.
        by rewrite lookup_insert_ne by done.
    + rewrite byAddr_cons, IHu. rewrite (byAddr_cons y). by rewrite insert_union_l.
Qed.

(** The validators that are not on a list of addresses. *)
Definition without (d l : list Validator) : list Validator :=
  filter (fun v => Address v ∉ map Address d) l.

Lemma StronglySorted_filter (P : Validator -> Prop) `{!forall v, Decision (P v)} l :
  StronglySorted addrLt l -> StronglySorted addrLt (filter P l).
Proof.
  induction 1 as [|v l Hl IH Hv]; [constructor|]. rewrite filter_cons. case_decide; [|done].
  constructor; [done|]. apply Forall_forall. intros w [_ Hw]%list_elem_of_filter.
  exact (proj1 (Forall_forall _ _) Hv w Hw).
Qed.

Lemma without_sorted d l : StronglySorted addrLt l -> StronglySorted addrLt (without d l).
Proof. apply StronglySorted_filter. Qed.

Lemma without_cons d v l :
  without d (v :: l) = if decide (Address v ∉ map Address d) then v :: without d l else without d l.
Proof. unfold without. by rewrite filter_cons. Qed.

Lemma without_nil l : without [] l = l.
Proof.
  unfold without. induction l as [|v l IH]; [done|]. rewrite filter_cons.
  rewrite decide_True by (apply not_elem_of_nil). by f_equal.
Qed.

Lemma without_skip d v l :
  Forall (addrLt v) l -> StronglySorted addrLt l ->
  without (v :: d) l = without d l.
Proof.
  intros Hv _. unfold without. induction l as [|w l IH]; [done|].
  apply Forall_cons in Hv as [Hw Hl]. rewrite !filter_cons, IH by done.
  destruct (decide (Address w ∉ map Address d)) as [H|H].
  - rewrite decide_True; [done|]. cbn. apply not_elem_of_cons. split; [|done].
    unfold addrLt in Hw. lia.
  - rewrite decide_False; [done|]. intros H'. apply H. cbn in H'. by apply not_elem_of_cons in H' as [_ ?].
Qed.

(** Removing a sorted sublist of addresses leaves exactly the others. *)
Lemma removeAddresses_spec e d :
  StronglySorted addrLt e -> StronglySorted addrLt d ->
  (forall x, x ∈ d -> Address x ∈ map Address e) ->
  removeAddresses e d = Some (without d e).
Proof.
  intros He. revert d. induction He as [|x e He IH Hx]; intros d Hd Hsub.
  - destruct d as [|y d]; [done|]. pose proof (Hsub y ltac:(left)) as H. by apply elem_of_nil in H.
  - destruct d as [|y d]; [by rewrite without_nil|]. cbn [removeAddresses].
    apply StronglySorted_inv in Hd as [Hd Hy].
    assert (Hgt : forall z, z ∈ d -> Address z <> Address x -> Address z ∈ map Address e).
    { intros z Hz Hne. pose proof (Hsub z ltac:(by right)) as [?|?]%elem_of_cons; [lia|done]. }
    destruct (Z.eqb_spec (Address x) (Address y)) as [Heq|Hne].
    + rewrite IH; [|done|].
      * rewrite without_cons, decide_False by (cbn; rewrite Heq; set_solver).
        rewrite (without_skip d y); [done| |done].
        eapply Forall_impl; [exact Hx|]. unfold addrLt. cbn. lia.
      * intros z Hz. apply Hgt; [done|].
        pose proof (proj1 (Forall_forall _ _) Hy z Hz). unfold addrLt in *. lia.
    + assert (Hyin : Address y ∈ map Address e).
      { pose proof (Hsub y ltac:(left)) as [?|?]%elem_of_cons; [lia|done]. }
      assert (Hxy : Address x < Address y).
      { apply list_elem_of_fmap in Hyin as (w & -> & Hw).
        exact (proj1 (Forall_forall _ _) Hx w Hw). }
      rewrite IH; [|by constructor|].
      * rewrite without_cons, decide_True; [done|]. cbn.
        intros [Hc|Hc]%elem_of_cons; [lia|]. apply list_elem_of_fmap in Hc as (w & Hc & Hw).
        pose proof (proj1 (Forall_forall _ _) Hy w Hw). unfold addrLt in *. lia.
      * intros z [->|Hz]%elem_of_cons; [done|]. apply Hgt; [done|].
        pose proof (proj1 (Forall_forall _ _) Hy z Hz). unfold addrLt in *. lia.
Qed.

(** ** Splitting the change set *)

#[export] Instance addrLe_total : Total addrLe.
Proof. intros a b. unfold addrLe. lia. Qed.

#[export] Instance addrLe_trans : Transitive addrLe.
Proof. intros a b c. unfold addrLe. lia. Qed.

Lemma sortByAddress_perm l : sortByAddress l ≡ₚ l.
Proof. apply merge_sort_Permutation. Qed.

Lemma sortByAddress_sorted l : StronglySorted addrLe (sortByAddress l).
Proof. apply StronglySorted_merge_sort; apply _. Qed.

Definition isUpdate (v : Validator) : Prop := VotingPower v <> 0.
Definition isRemoval (v : Validator) : Prop := VotingPower v = 0.

(** No two neighbours with the same address, starting after [prev]. *)
Fixpoint noRepeat (prev : Z) (l : list Validator) : Prop :=
  match l with
  | [] => True
  | v :: l' => Address v <> prev /\ noRepeat (Address v) l'
  end.

Lemma processChanges_loop_inr prev l u r u' r' :
  processChanges_loop prev l u r = inr (u', r') <->
  noRepeat prev l /\ Forall goodPower l /\
  u' = u ++ filter isUpdate l /\ r' = r ++ filter isRemoval l.
Proof.
  revert prev u r. induction l as [|v l IH]; intros prev u r; cbn [processChanges_loop noRepeat].
  - rewrite !filter_nil, !app_nil_r. split; [intros [= -> ->]; auto|].
    intros (_ & _ & -> & ->). done.
  - rewrite Forall_cons, !filter_cons. unfold goodPower at 1.
    destruct (Z.eqb_spec (Address v) prev) as [?|Hne].
    { split; [done|]. intros ((? & _) & _). done. }
    destruct (Z.ltb_spec (VotingPower v) 0).
    { split; [done|]. intros (_ & (? & _) & _). lia. }
    destruct (Z.ltb_spec MaxTotalVotingPower (VotingPower v)).
    { split; [done|]. intros (_ & (? & _) & _). lia. }
    destruct (Z.eqb_spec (VotingPower v) 0) as [Hz|Hz].
    + rewrite (decide_False (P := isUpdate v)) by (unfold isUpdate; lia).
      rewrite (decide_True (P := isRemoval v)) by done. rewrite IH, <- app_assoc. naive_solver lia.
    + rewrite (decide_True (P := isUpdate v)) by done.
      rewrite (decide_False (P := isRemoval v)) by done. rewrite IH, <- app_assoc. naive_solver lia.
Qed.

Lemma sorted_le_lt prev l :
  StronglySorted addrLe l -> noRepeat prev l -> StronglySorted addrLt l.
Proof.
  intros Hl. revert prev. induction Hl as [|v l Hl IH Hv]; intros prev Hn; [constructor|].
  destruct Hn as [_ Hn]. specialize (IH _ Hn). constructor; [done|].
  destruct l as [|w l]; [constructor|]. destruct Hn as [Hwv _].
  assert (addrLt v w) as Hvw.
  { apply Forall_cons in Hv as [? _]. unfold addrLe, addrLt in *. lia. }
  constructor; [done|]. apply StronglySorted_inv in IH as [_ IH].
  eapply Forall_impl; [exact IH|]. unfold addrLt in *. lia.
Qed.

(** A change set passes exactly when its powers are legal and, in address
    order, no entry repeats the address before it (the zero address counts as
    the one before the first). *)
Lemma processChanges_inr changes u d :
  processChanges changes = inr (u, d) <->
  noRepeat zeroAddress (sortByAddress changes) /\ Forall goodPower changes /\
  u = filter isUpdate (sortByAddress changes) /\ d = filter isRemoval (sortByAddress changes).
Proof.
  unfold processChanges. rewrite processChanges_loop_inr. cbn [app].
  assert (Forall goodPower (sortByAddress changes) <-> Forall goodPower changes) as ->; [|done].
  by rewrite (sortByAddress_perm changes).
Qed.

Lemma processChanges_sorted changes u d :
  processChanges changes = inr (u, d) ->
  StronglySorted addrLt u /\ StronglySorted addrLt d /\ NoDup (map Address changes) /\
  Forall (fun v => 0 < VotingPower v <= MaxTotalVotingPower) u /\
  Forall (fun v => VotingPower v = 0) d.
Proof.
  intros (Hn & Hg & -> & ->)%processChanges_inr.
  pose proof (sorted_le_lt _ _ (sortByAddress_sorted changes) Hn) as Hs.
  split_and!; [by apply StronglySorted_filter|by apply StronglySorted_filter| | |].
  - rewrite <- (sortByAddress_perm changes). by apply sorted_nodup.
  - apply Forall_forall. intros v [Hv Hin]%list_elem_of_filter.
    rewrite sortByAddress_perm in Hin. pose proof (proj1 (Forall_forall _ _) Hg v Hin).
    unfold isUpdate, goodPower in *. lia.
  - apply Forall_forall. by intros v [Hv _]%list_elem_of_filter.
Qed.

(** ** The checks before a change *)

Lemma verifyRemovals_loop_spec s d :
  indexed s ->
  (Forall (fun x => is_Some (byAddr (Validators s) !! Address x)) d /\
   verifyRemovals_loop d s = Done s tt) \/
  (exists x, x ∈ d /\ byAddr (Validators s) !! Address x = None /\
   verifyRemovals_loop d s = Fail s (ErrRemoveUnknown (Address x))).
Proof.
  intros Hi. induction d as [|x d IH]; [left; by split|].
  cbn [verifyRemovals_loop]. unfold mbind, st_bind.
  destruct (GetByAddress_spec (E := valset_error) s (Address x) Hi) as (k & E1 & _).
  destruct (byAddr (Validators s) !! Address x) as [v|] eqn:Ev; rewrite E1; cbn.
  - destruct IH as [[HF E2]|(y & Hy & Ey & E2)].
    + left. split; [|done]. constructor; [by rewrite Ev|done].
    + right. exists y. split; [by right|done].
  - right. exists x. split; [left|done].
Qed.

Lemma sublist_length s d :
  indexed s -> StronglySorted addrLt d ->
  Forall (fun x => is_Some (byAddr (Validators s) !! Address x)) d ->
  (length d <= length (Validators s))%nat.
Proof.
  intros [Hnd _] Hd HF. rewrite <- (length_map Address d), <- (length_map Address (Validators s)).
  apply submseteq_length, NoDup_submseteq; [by apply sorted_nodup|].
  intros a (x & -> & Hx)%list_elem_of_fmap.
  destruct (proj1 (Forall_forall _ _) HF x Hx) as [v Hv].
  apply byAddr_Some in Hv as [Hv <-]; [|done]. apply list_elem_of_fmap. by exists v.
Qed.

Lemma verifyRemovals_spec s d :
  indexed s -> StronglySorted addrLt d ->
  (Forall (fun x => is_Some (byAddr (Validators s) !! Address x)) d /\
   verifyRemovals d s = Done s tt) \/
  (exists x, x ∈ d /\ byAddr (Validators s) !! Address x = None /\
   verifyRemovals d s = Fail s (ErrRemoveUnknown (Address x))).
Proof.
  intros Hi Hd. unfold verifyRemovals, mbind, st_bind.
  destruct (verifyRemovals_loop_spec s d Hi) as [[HF ->]|(x & Hx & Hn & ->)]; [left|right; by exists x].
  split; [done|]. unfold getS. pose proof (sublist_length s d Hi Hd HF).
  destruct (Nat.ltb_spec (length (Validators s)) (length d)); [lia|done].
Qed.

(** The power an update replaces: zero for a new validator. *)
Definition oldPower (s : ValidatorSet) (u : Validator) : Z :=
  default 0 (VotingPower <$> byAddr (Validators s) !! Address u).

Definition isNew (s : ValidatorSet) (u : Validator) : Prop :=
  byAddr (Validators s) !! Address u = None.

#[export] Instance isNew_dec s u : Decision (isNew s u).
Proof. unfold isNew. apply _. Defined.

Lemma oldPower_nonneg s u :
  indexed s -> Forall (fun v => 0 <= VotingPower v) (Validators s) -> 0 <= oldPower s u.
Proof.
  intros [Hnd _] HF. unfold oldPower. destruct (byAddr (Validators s) !! Address u) eqn:E; cbn; [|lia].
  apply byAddr_Some in E as [E _]; [|done]. exact (proj1 (Forall_forall _ _) HF _ E).
Qed.

(** Distinct validators of the set weigh at most as much as the whole set. *)
Lemma oldPower_sum s us :
  indexed s -> Forall (fun v => 0 <= VotingPower v) (Validators s) -> NoDup (map Address us) ->
  sumZ (oldPower s) us <= sumZ VotingPower (Validators s).
Proof.
  intros [Hnd _]. unfold oldPower. revert Hnd us. generalize (Validators s) as l.
  induction l as [|v l IH]; intros Hnd us HF Hus.
  - clear. change (byAddr []) with (∅ : gmap Z Validator).
    induction us as [|u us IH]; cbn [sumZ] in *; [lia|]. rewrite lookup_empty. cbn in *. lia.
  - cbn in Hnd. apply NoDup_cons in Hnd as [Hv Hnd]. apply Forall_cons in HF as [Hpv HF].
    cbn [sumZ]. specialize (IH Hnd).
    assert (Hstep : forall us, NoDup (map Address us) ->
      sumZ (fun u => default 0 (VotingPower <$> byAddr (v :: l) !! Address u)) us <=
      sumZ (fun u => default 0 (VotingPower <$> byAddr l !! Address u)) us +
        (if decide (Address v ∈ map Address us) then VotingPower v else 0)).
    { clear -Hpv Hv. induction us as [|u us IH]; intros Hus; [cbn [sumZ]; case_decide; lia|].
      cbn in Hus. apply NoDup_cons in Hus as [Hu Hus]. cbn [sumZ]. specialize (IH Hus).
      rewrite byAddr_cons. destruct (decide (Address v = Address u)) as [Heq|Hne].
      - rewrite Heq, lookup_insert_eq. cbn. rewrite Heq in IH.
        rewrite decide_False in IH by done. rewrite decide_True by left.
        rewrite (proj2 (byAddr_None l (Address u))) by (by rewrite <- Heq). cbn.
        rewrite byAddr_cons, Heq in IH. lia.
      - rewrite lookup_insert_ne by done. rewrite byAddr_cons in IH.
        destruct (decide (Address v ∈ map Address us)) as [Hin|Hin].
        + rewrite decide_True by (by right). lia.
        + rewrite decide_False by (by apply not_elem_of_cons). lia. }
    specialize (Hstep us Hus). specialize (IH us HF Hus). case_decide; lia.
Qed.

(** The running total of [verifyUpdates]. *)
Lemma verifyUpdates_loop_spec s us t n :
  indexed s -> Forall (fun v => 0 <= VotingPower v) (Validators s) ->
  Forall (fun u => 0 < VotingPower u <= MaxTotalVotingPower) us ->
  sumZ (oldPower s) us <= MaxTotalVotingPower ->
  - MaxTotalVotingPower <= t - sumZ (oldPower s) us -> t <= MaxTotalVotingPower ->
  (verifyUpdates_loop us t n s =
     Done s (t + sumZ VotingPower us - sumZ (oldPower s) us, (n + length (filter (isNew s) us))%nat) /\
   t + sumZ VotingPower us - sumZ (oldPower s) us <= MaxTotalVotingPower) \/
  (exists us1 x, (us1 ++ [x]) `prefix_of` us /\
     verifyUpdates_loop us t n s = Fail s (ErrTotalWouldExceed x) /\
     MaxTotalVotingPower < t + sumZ VotingPower (us1 ++ [x]) - sumZ (oldPower s) (us1 ++ [x])).
Proof.
  intros Hi Hp Hus. revert t n. induction Hus as [|u us Hu Hus IH]; intros t n HB Hlo Ht.
  { left. cbn. rewrite Nat.add_0_r. split; [|lia]. unfold mret, st_ret. do 2 f_equal. lia. }
  cbn [sumZ] in HB, Hlo |- *. cbn [verifyUpdates_loop]. unfold mbind, st_bind.
  destruct (GetByAddress_spec (E := valset_error) s (Address u) Hi) as (k & -> & _). cbn [snd].
  pose proof (oldPower_nonneg s u Hi Hp) as Hold.
  assert (Holds : 0 <= sumZ (oldPower s) us).
  { apply sumZ_nonneg, Forall_forall. intros w _. by apply oldPower_nonneg. }
  rewrite filter_cons. destruct (decide (isNew s u)) as [Hn|Hn].
  - assert (Ho : oldPower s u = 0) by (unfold oldPower; by rewrite Hn).
    rewrite Hn, Ho. rewrite (i64_small (t + _)) by psolve.
    destruct (Z.ltb_spec MaxTotalVotingPower (t + VotingPower u)).
    { right. exists [], u. split; [by exists us|]. split; [done|]. cbn. lia. }
    destruct (IH (t + VotingPower u) (S n)) as [[-> ?]|(us1 & x & Hpre & -> & Hgt)]; [lia|lia|lia| |].
    2: { right. exists (u :: us1), x. split; [by apply prefix_cons|]. split; [done|]. cbn. lia. }
    left. split; [|lia]. do 2 f_equal; [lia|]. cbn [length]. lia.
  - destruct (byAddr (Validators s) !! Address u) as [v|] eqn:Eb; [|by exfalso].
    assert (Ho : oldPower s u = VotingPower v) by (unfold oldPower; by rewrite Eb).
    rewrite (i64_small (VotingPower u - VotingPower v)) by psolve.
    rewrite (i64_small (t + _)) by psolve.
    destruct (Z.ltb_spec MaxTotalVotingPower (t + (VotingPower u - VotingPower v))).
    { right. exists [], u. split; [by exists us|]. split; [done|]. cbn. lia. }
    destruct (IH (t + (VotingPower u - VotingPower v)) n) as [[-> ?]|(us1 & x & Hpre & -> & Hgt)];
      [lia|lia|lia| |].
    2: { right. exists (u :: us1), x. split; [by apply prefix_cons|]. split; [done|]. cbn. lia. }
    left. split; [|lia]. do 2 f_equal. lia.
Qed.

(** ** The new list *)

(** A new validator starts at -1.125 times the total; a known one keeps its
    priority. *)
Definition newPriority (s : ValidatorSet) (total : Z) (u : Validator) : Validator :=
  match byAddr (Validators s) !! Address u with
  | None => setPriority (i64 (- i64 (total + Z.shiftr total 3))) u
  | Some v => setPriority (ProposerPriority v) u
  end.

Lemma newPriority_fields s t u :
  Address (newPriority s t u) = Address u /\ VotingPower (newPriority s t u) = VotingPower u.
Proof. unfold newPriority. by destruct (byAddr _ !! _). Qed.

Lemma computeNewPriorities_spec s us t :
  indexed s -> computeNewPriorities us t s = Done s (map (newPriority s t) us).
Proof.
  intros Hi. induction us as [|u us IH]; [done|]. cbn [computeNewPriorities map].
  unfold mbind, st_bind.
  destruct (GetByAddress_spec (E := valset_error) s (Address u) Hi) as (k & -> & _). cbn [snd].
  by rewrite IH.
Qed.

Lemma newPriority_within s t u :
  indexed s -> within (- PrioBound) PrioBound (Validators s) ->
  - MaxTotalVotingPower <= t <= MaxTotalVotingPower ->
  - PrioBound <= ProposerPriority (newPriority s t u) <= PrioBound.
Proof.
  intros [Hnd _] Hw Ht. unfold newPriority.
  destruct (byAddr (Validators s) !! Address u) as [v|] eqn:E.
  - apply byAddr_Some in E as [E _]; [|done]. exact (within_elem _ _ _ v Hw E).
  - rewrite Z.shiftr_div_pow2 by lia. change (2 ^ 3) with 8.
    pose proof (Z.div_mod t 8). pose proof (Z.mod_pos_bound t 8).
    rewrite (i64_small (t + t / 8)) by psolve. rewrite i64_small by psolve. cbn. psolve.
Qed.

Lemma sumPower_loop_ok l acc :
  0 <= acc -> Forall (fun v => 0 <= VotingPower v) l ->
  acc + sumZ VotingPower l <= MaxTotalVotingPower ->
  sumPower_loop acc l = inr (acc + sumZ VotingPower l).
Proof.
  intros Hacc HF. revert acc Hacc. induction HF as [|v l Hv HF IH]; intros acc Hacc Hs.
  - cbn. f_equal. lia.
  - cbn [sumPower_loop sumZ] in *. pose proof (sumZ_nonneg VotingPower l HF).
    rewrite safeAddClip_exact by psolve.
    destruct (Z.ltb_spec MaxTotalVotingPower (acc + VotingPower v)); [lia|].
    rewrite IH by lia. f_equal. lia.
Qed.

Lemma UpdateTotalVotingPower_ok s :
  Forall (fun v => 0 <= VotingPower v) (Validators s) ->
  sumZ VotingPower (Validators s) <= MaxTotalVotingPower ->
  UpdateTotalVotingPower s = Done (setTotal (sumZ VotingPower (Validators s)) s) tt.
Proof.
  intros HF Hs. unfold UpdateTotalVotingPower, mbind, st_bind, getS.
  rewrite sumPower_loop_ok by (done || lia). done.
Qed.

Lemma sumZ_ext f g (l : list Validator) : (forall v, v ∈ l -> f v = g v) -> sumZ f l = sumZ g l.
Proof.
  induction l as [|v l IH]; intros H; [done|]. cbn. rewrite IH by (intros; apply H; by right).
  by rewrite H by left.
Qed.

Lemma sum_mergeUpdates e u :
  StronglySorted addrLt e -> StronglySorted addrLt u ->
  sumZ VotingPower (mergeUpdates e u) =
  sumZ VotingPower e + sumZ VotingPower u
  - sumZ (fun x => default 0 (VotingPower <$> byAddr e !! Address x)) u.
Proof.
  intros He. revert u. induction He as [|x e He IH Hx]; intros u Hu.
  { change (byAddr []) with (∅ : gmap Z Validator).
    rewrite (sumZ_ext (fun x => default 0 (VotingPower <$> (∅ : gmap Z Validator) !! Address x))
      (fun _ => 0)) by (intros; by rewrite lookup_empty).
    rewrite (sumZ_const 0). destruct u; cbn; lia. }
  induction Hu as [|y u Hu IHu Hy]; [rewrite mergeUpdates_nil_r; cbn; lia|].
  assert (Hskip : forall u', (forall w, w ∈ u' -> Address x < Address w) ->
    sumZ (fun z => default 0 (VotingPower <$> byAddr (x :: e) !! Address z)) u' =
    sumZ (fun z => default 0 (VotingPower <$> byAddr e !! Address z)) u').
  { intros u' Hu'. apply sumZ_ext. intros w Hw. rewrite byAddr_cons, lookup_insert_ne; [done|].
    specialize (Hu' w Hw). lia. }
  assert (Hyl : forall w, w ∈ u -> Address y < Address w)
    by (intros w Hw; exact (proj1 (Forall_forall _ _) Hy w Hw)).
  rewrite mergeUpdates_cons. destruct (Z.ltb_spec (Address x) (Address y)) as [Hlt|Hge].
  - cbn [sumZ]. rewrite IH by (by constructor). cbn [sumZ].
    rewrite byAddr_cons, lookup_insert_ne by lia. rewrite <- byAddr_cons.
    rewrite (Hskip u); [lia|]. intros w Hw. specialize (Hyl w Hw). lia.
  - destruct (Z.eqb_spec (Address x) (Address y)) as [Heq|Hne]; cbn [sumZ].
    + rewrite IH by done. rewrite (Hskip u) by (intros w Hw; specialize (Hyl w Hw); lia).
      rewrite byAddr_cons, Heq, lookup_insert_eq. cbn. lia.
    + rewrite IHu. cbn [sumZ]. rewrite (proj2 (byAddr_None (x :: e) (Address y))); [cbn; lia|].
      intros (w & Hw & [->|Hin]%elem_of_cons)%list_elem_of_fmap; [lia|].
      pose proof (proj1 (Forall_forall _ _) Hx w Hin). unfold addrLt in *. lia.
Qed.

Lemma sum_without d l :
  Forall (fun v => 0 <= VotingPower v) l -> sumZ VotingPower (without d l) <= sumZ VotingPower l.
Proof.
  induction 1 as [|v l Hv Hl IH]; [done|]. rewrite without_cons. case_decide; cbn [sumZ]; lia.
Qed.

Lemma byAddr_without d l :
  NoDup (map Address l) ->
  byAddr (without d l) = filter (fun p => p.1 ∉ map Address d) (byAddr l).
Proof.
  intros Hnd. apply map_eq. intros a. apply option_eq. intros v.
  rewrite map_lookup_filter_Some. cbn. rewrite (byAddr_Some l) by done.
  rewrite byAddr_Some.
  - unfold without. rewrite list_elem_of_filter. naive_solver.
  - unfold without. clear -Hnd. induction l as [|w l IH]; [constructor|].
    cbn in Hnd. apply NoDup_cons in Hnd as [Hw Hnd]. rewrite filter_cons. case_decide; [|auto].
    cbn. apply NoDup_cons. split; [|auto]. intros (x & Hx & [_ Hin]%list_elem_of_filter)%list_elem_of_fmap.
    apply Hw. rewrite Hx. apply list_elem_of_fmap. by exists x.
Qed.

(** ** A whole change set *)

(** The sets change sets are applied to: like well-formed sets, but the cached
    total may be stale and powers may be zero, as they are while the caller is
    replacing validators. *)
Record changeable (s : ValidatorSet) : Prop := mkChangeable {
  ch_sorted : StronglySorted addrLt (Validators s);
  ch_power : Forall (fun v => 0 <= VotingPower v) (Validators s);
  ch_sum : sumZ VotingPower (Validators s) <= MaxTotalVotingPower;
  ch_total : 0 <= totalVotingPower s <= MaxTotalVotingPower;
  ch_zero : totalVotingPower s = 0 -> Validators s = [];
  ch_map : validatorsMap s = addressIndex_loop 0 (Validators s) ∅;
  ch_prio : within (- PrioBound) PrioBound (Validators s)
}.

Lemma changeable_indexed s : changeable s -> indexed s.
Proof. intros H. split; [apply sorted_nodup|]; apply H. Qed.

Lemma wf_changeable s : wf s -> changeable s.
Proof.
  intros [Hs Hp Ht Hm Hi Hw].
  assert (Hp' : Forall (fun v => 0 <= VotingPower v) (Validators s))
    by (eapply Forall_impl; [exact Hp|]; cbn; lia).
  pose proof (sumZ_nonneg _ _ Hp'). split; auto; try lia.
  intros H0. destruct (Validators s) as [|v l] eqn:E; [done|].
  pose proof (sum_pos (v :: l)). rewrite Ht in H0. specialize (H1 ltac:(done) Hp). lia.
Qed.

Lemma emptySet_wf : wf emptySet.
Proof. split; try constructor; done. Qed.

Lemma TotalVotingPower_changeable s :
  changeable s -> TotalVotingPower s = Done s (totalVotingPower s).
Proof.
  intros H. destruct (Z.eq_dec (totalVotingPower s) 0) as [E|E]; [|by apply TotalVotingPower_cached].
  unfold TotalVotingPower, mbind, st_bind, getS, must. rewrite E. cbn.
  unfold UpdateTotalVotingPower, mbind, st_bind, getS. rewrite (ch_zero s H E). cbn.
  destruct s as [vs p t m]. cbn in *. subst. done.
Qed.

(** The list a change set leads to, before priorities are scaled. *)
Definition changedList (s : ValidatorSet) (u d : list Validator) : list Validator :=
  let t := totalVotingPower s + sumZ VotingPower u - sumZ (oldPower s) u in
  without d (mergeUpdates (Validators s) (map (newPriority s t) u)).

(** The state after a change set: [l] with a fresh total and index. *)
Definition changedSet (l : list Validator) (s : ValidatorSet) : ValidatorSet :=
  mkValidatorSet l (Proposer s) (sumZ VotingPower l) (addressIndex_loop 0 l ∅).

Lemma map_newPriority_sorted s t u :
  StronglySorted addrLt u -> StronglySorted addrLt (map (newPriority s t) u).
Proof.
  induction 1 as [|v l Hl IH Hv]; cbn; constructor; [done|].
  apply Forall_forall. intros w (x & -> & Hx)%list_elem_of_fmap.
  unfold addrLt. rewrite !(proj1 (newPriority_fields _ _ _)).
  exact (proj1 (Forall_forall _ _) Hv x Hx).
Qed.

Lemma map_newPriority_sum s t u f :
  (forall v w, Address v = Address w -> VotingPower v = VotingPower w -> f v = f w) ->
  sumZ f (map (newPriority s t) u) = sumZ f u.
Proof. intros Hf. apply sumZ_map. intros v. apply Hf; apply newPriority_fields. Qed.

Lemma map_newPriority_addresses s t u : map Address (map (newPriority s t) u) = map Address u.
Proof. rewrite map_map. apply map_ext. intros v. apply newPriority_fields. Qed.

Section Change.
Context (s : ValidatorSet) (changes u d : list Validator).
Context (Hs : changeable s) (Hpc : processChanges changes = inr (u, d)).

Abbreviation t := (totalVotingPower s + sumZ VotingPower u - sumZ (oldPower s) u).

Lemma changedList_sorted : StronglySorted addrLt (changedList s u d).
Proof using Hs Hpc.
  apply without_sorted, mergeUpdates_sorted; [apply Hs|].
  apply map_newPriority_sorted. by destruct (processChanges_sorted _ _ _ Hpc).
Qed.

Lemma merged_nonneg :
  Forall (fun v => 0 <= VotingPower v) (mergeUpdates (Validators s) (map (newPriority s t) u)).
Proof using Hs Hpc.
  apply Forall_forall. intros v [Hv|(w & -> & Hw)%list_elem_of_fmap]%mergeUpdates_elem.
  - exact (proj1 (Forall_forall _ _) (ch_power s Hs) v Hv).
  - rewrite (proj2 (newPriority_fields _ _ _)).
    destruct (processChanges_sorted _ _ _ Hpc) as (_ & _ & _ & Hu & _).
    pose proof (proj1 (Forall_forall _ _) Hu w Hw) as H. cbn in H. lia.
Qed.

Lemma changedList_nonneg : Forall (fun v => 0 <= VotingPower v) (changedList s u d).
Proof using Hs Hpc.
  apply Forall_forall. intros v [_ Hv]%list_elem_of_filter.
  exact (proj1 (Forall_forall _ _) merged_nonneg v Hv).
Qed.

(** The new total is at most the old sum plus what the updates add. *)
Lemma changedList_sum :
  sumZ VotingPower (changedList s u d) <=
  sumZ VotingPower (Validators s) + sumZ VotingPower u - sumZ (oldPower s) u.
Proof using Hs Hpc.
  unfold changedList. pose proof (sum_without d _ merged_nonneg) as H.
  rewrite sum_mergeUpdates in H; [|apply Hs|].
  - rewrite (map_newPriority_sum _ _ _ VotingPower) in H by done.
    rewrite (map_newPriority_sum _ _ _ (fun x => default 0 (VotingPower <$> byAddr (Validators s) !! Address x)))
      in H by (by intros v w -> _). exact H.
  - apply map_newPriority_sorted. by destruct (processChanges_sorted _ _ _ Hpc).
Qed.

Lemma changedList_within :
  - MaxTotalVotingPower <= t <= MaxTotalVotingPower ->
  within (- PrioBound) PrioBound (changedList s u d).
Proof using Hs Hpc.
  intros Ht. apply Forall_forall. intros v [_ Hv]%list_elem_of_filter.
  apply mergeUpdates_elem in Hv as [Hv|(w & -> & Hw)%list_elem_of_fmap].
  - exact (within_elem _ _ _ v (ch_prio s Hs) Hv).
  - apply newPriority_within; [by apply changeable_indexed|apply Hs|done].
Qed.

Lemma elem_of_changedList a :
  a ∈ map Address (changedList s u d) <->
  (a ∈ map Address (Validators s) \/ a ∈ map Address u) /\ a ∉ map Address d.
Proof using Hs Hpc.
  destruct (processChanges_sorted _ _ _ Hpc) as (Hu & Hd & _).
  assert (Hm : forall b, b ∈ map Address (mergeUpdates (Validators s) (map (newPriority s t) u)) <->
    b ∈ map Address (Validators s) \/ b ∈ map Address u).
  { intros b. rewrite <- (map_newPriority_addresses s t u).
    destruct (decide (b ∈ map Address (mergeUpdates (Validators s) (map (newPriority s t) u)))) as [H|H].
    - split; [|done]. intros _. apply list_elem_of_fmap in H as (v & -> & Hv).
      apply mergeUpdates_elem in Hv as [Hv|Hv]; [left|right]; apply list_elem_of_fmap; by exists v.
    - split; [done|]. intros H'. exfalso. apply byAddr_None in H.
      rewrite byAddr_mergeUpdates, lookup_union_None in H; [|apply Hs|by apply map_newPriority_sorted].
      rewrite !byAddr_None in H. tauto. }
  rewrite <- Hm. unfold changedList, without. split.
  - intros (v & -> & [Hd' Hv]%list_elem_of_filter)%list_elem_of_fmap.
    split; [apply list_elem_of_fmap; by exists v|done].
  - intros [(v & -> & Hv)%list_elem_of_fmap Hd']. apply list_elem_of_fmap. exists v.
    split; [done|]. by apply list_elem_of_filter.
Qed.

Lemma changedList_nonempty :
  Forall (fun x => is_Some (byAddr (Validators s) !! Address x)) d ->
  (length (filter (isNew s) u) <> 0 \/ length (Validators s) <> length d)%nat ->
  changedList s u d <> [].
Proof using Hs Hpc.
  intros Hin Hcase E. destruct (processChanges_sorted _ _ _ Hpc) as (Hu & Hd & Hnd & Hup & Hdp).
  pose proof (changeable_indexed s Hs) as Hi.
  assert (Hall : forall a, a ∈ map Address (Validators s) \/ a ∈ map Address u -> a ∈ map Address d).
  { intros a Ha. destruct (decide (a ∈ map Address d)) as [|Hn]; [done|exfalso].
    pose proof (proj2 (elem_of_changedList a) (conj Ha Hn)) as H. rewrite E in H.
    by apply elem_of_nil in H. }
  destruct Hcase as [Hnew|Hlen].
  - destruct (filter (isNew s) u) as [|x l] eqn:Ef; [done|].
    assert (Hx : x ∈ filter (isNew s) u) by (rewrite Ef; left).
    apply list_elem_of_filter in Hx as [Hxn Hx].
    assert (Hxd : Address x ∈ map Address d).
    { apply Hall. right. apply list_elem_of_fmap. by exists x. }
    apply list_elem_of_fmap in Hxd as (y & Hxy & Hy).
    destruct (proj1 (Forall_forall _ _) Hin y Hy) as [v Hv]. rewrite <- Hxy, Hxn in Hv. done.
  - apply Hlen, Nat.le_antisymm; [|by apply sublist_length].
    rewrite <- (length_map Address d), <- (length_map Address (Validators s)).
    apply submseteq_length, NoDup_submseteq; [apply Hi|]. intros a Ha. apply Hall. by left.
Qed.

(** The second half of the function: install the list, recompute the total,
    rescale and center. *)
Lemma install_spec :
  Forall (fun x => is_Some (byAddr (Validators s) !! Address x)) d ->
  - MaxTotalVotingPower <= t <= MaxTotalVotingPower -> changedList s u d <> [] ->
  sumZ VotingPower (changedList s u d) <= MaxTotalVotingPower ->
  Forall (fun v => 0 < VotingPower v) (changedList s u d) ->
  exists l, samePeople (changedList s u d) l /\ wf (changedSet l s) /\
    (updateValidators (map (newPriority s t) u) d;;
     UpdateTotalVotingPower;;
     total ← TotalVotingPower;
     RescalePriorities (i64 (PriorityWindowSizeFactor * total));;
     shiftByAvgProposerPriority) s = Done (changedSet l s) tt.
Proof using Hs Hpc.
  intros Hin Ht Hne Hsum Hpos. set (L := changedList s u d) in *.
  set (s1 := mkValidatorSet L (Proposer s) (totalVotingPower s) (addressIndex_loop 0 L ∅)).
  destruct (processChanges_sorted _ _ _ Hpc) as (Hu & Hd & _).
  assert (E1 : updateValidators (E := valset_error) (map (newPriority s t) u) d s = Done s1 tt).
  { unfold updateValidators, applyRemovals, mbind, st_bind, modify, getS, applyUpdates. cbn.
    rewrite removeAddresses_spec; [done| |done|].
    - apply mergeUpdates_sorted; [apply Hs|by apply map_newPriority_sorted].
    - intros x Hx. destruct (proj1 (Forall_forall _ _) Hin x Hx) as [v Hv].
      destruct (decide (Address x ∈ map Address
        (mergeUpdates (Validators s) (map (newPriority s t) u)))) as [|Hn]; [done|].
      apply byAddr_None in Hn. rewrite byAddr_mergeUpdates, lookup_union_None in Hn;
        [|apply Hs|by apply map_newPriority_sorted]. destruct Hn as [_ Hn]. congruence. }
  assert (Hwf1 : wf (changedSet L s)).
  { split; cbn; auto; [apply changedList_sorted|by apply changedList_within]. }
  pose proof (sum_pos L Hne Hpos) as HT.
  destruct (prepare_spec (changedSet L s) Hwf1 Hne) as (l & Hsame & Hw & Hs0 & Ek).
  exists l. split; [done|].
  assert (Es : changedSet l s = setValidators l (changedSet L s)).
  { unfold changedSet, setValidators. cbn. f_equal.
    - symmetry. by apply samePeople_powers.
    - symmetry. by apply addressIndex_loop_people, samePeople_addresses. }
  rewrite Es. split.
  - assert (Hwf2 : wf (setProposer (Proposer s) (setValidators l (changedSet L s)))).
    { apply wf_samePeople; [done|done|]. cbn in Hw. eapply within_weaken; [exact Hw|psolve|psolve]. }
    exact Hwf2.
  - unfold mbind at 1, st_bind at 1. rewrite E1.
    unfold mbind at 1, st_bind at 1. rewrite UpdateTotalVotingPower_ok; cbn [Validators s1].
    2: { eapply Forall_impl; [exact Hpos|]. cbn. lia. }
    2: done.
    change (setTotal (sumZ VotingPower L) s1) with (changedSet L s).
    unfold mbind at 1, st_bind at 1. rewrite TotalVotingPower_cached by (cbn; lia).
    specialize (Ek mret). unfold mbind, st_bind in Ek |- *.
    destruct (RescalePriorities _ _) as [s2 []|?|?]; try done.
    by destruct (shiftByAvgProposerPriority s2).
Qed.
End Change.

(** Why a change set is refused. *)
Inductive refusal (s : ValidatorSet) (changes : list Validator) (allowDeletes : bool)
  : valset_error -> Prop :=
| ref_change e :
    processChanges changes = inl e -> refusal s changes allowDeletes e
| ref_delete d c :
    allowDeletes = false -> c ∈ changes -> VotingPower c = 0 ->
    refusal s changes allowDeletes (ErrZeroPower d)
| ref_unknown c :
    c ∈ changes -> VotingPower c = 0 -> byAddr (Validators s) !! Address c = None ->
    refusal s changes allowDeletes (ErrRemoveUnknown (Address c))
| ref_total c us :
    us `sublist_of` sortByAddress changes -> c ∈ us ->
    MaxTotalVotingPower < totalVotingPower s + sumZ VotingPower us - sumZ (oldPower s) us ->
    refusal s changes allowDeletes (ErrTotalWouldExceed c)
| ref_empty :
    applyChanges changes (powers (Validators s)) = ∅ -> refusal s changes allowDeletes ErrEmptySet.

Lemma in_updates changes u d c :
  processChanges changes = inr (u, d) -> c ∈ changes -> VotingPower c <> 0 -> c ∈ u.
Proof.
  intros (_ & _ & -> & _)%processChanges_inr Hc Hp. apply list_elem_of_filter.
  split; [done|]. by rewrite sortByAddress_perm.
Qed.

Lemma in_removals changes u d c :
  processChanges changes = inr (u, d) -> c ∈ d <-> c ∈ changes /\ VotingPower c = 0.
Proof.
  intros (_ & _ & _ & ->)%processChanges_inr. rewrite list_elem_of_filter, sortByAddress_perm.
  unfold isRemoval. tauto.
Qed.

Lemma lookup_powers l a p :
  powers l !! a = Some p -> exists v, byAddr l !! a = Some v /\ VotingPower v = p.
Proof.
  unfold powers. rewrite lookup_fmap. destruct (byAddr l !! a) as [v|]; cbn; [|done].
  intros [= <-]. by exists v.
Qed.

(** With no new validator and every validator deleted nothing is left. *)
Lemma nothing_left s changes u d :
  changeable s -> processChanges changes = inr (u, d) ->
  Forall (fun x => is_Some (byAddr (Validators s) !! Address x)) d ->
  length (filter (isNew s) u) = 0%nat -> length (Validators s) = length d ->
  applyChanges changes (powers (Validators s)) = ∅.
Proof.
  intros Hs Hpc Hin Hnew Hlen.
  pose proof (changeable_indexed s Hs) as [Hnd _].
  destruct (processChanges_sorted _ _ _ Hpc) as (_ & Hd & Hndc & _).
  assert (Hperm : map Address d ≡ₚ map Address (Validators s)).
  { apply submseteq_length_Permutation.
    - apply NoDup_submseteq; [by apply sorted_nodup|].
      intros a (x & -> & Hx)%list_elem_of_fmap.
      destruct (proj1 (Forall_forall _ _) Hin x Hx) as [v Hv].
      apply byAddr_Some in Hv as [Hv <-]; [|done]. apply list_elem_of_fmap. by exists v.
    - rewrite !length_map. lia. }
  assert (Hdel : forall v, v ∈ Validators s -> exists c, c ∈ changes /\ VotingPower c = 0 /\ Address c = Address v).
  { intros v Hv. assert (Ha : Address v ∈ map Address d).
    { rewrite Hperm. apply list_elem_of_fmap. by exists v. }
    apply list_elem_of_fmap in Ha as (c & Hc & Hcd).
    apply (in_removals _ _ _ _ Hpc) in Hcd as [??]. by exists c. }
  apply map_empty. intros a. apply map_lookup_filter_None. right. intros p Hp Hp0. cbn in Hp0.
  apply lookup_union_Some_raw in Hp as [Hp|[Hno Hp]].
  - apply lookup_powers in Hp as (c & Hc & <-). apply byAddr_Some in Hc as [Hc <-]; [|done].
    pose proof (in_updates _ _ _ _ Hpc Hc Hp0) as Hcu.
    destruct (byAddr (Validators s) !! Address c) as [v|] eqn:Ev.
    + apply byAddr_Some in Ev as [Hv Hva]; [|done]. destruct (Hdel v Hv) as (c' & Hc' & H0 & Ha').
      assert (c' = c) as ->; [|done].
      assert (byAddr changes !! Address c = Some c) as E1 by (apply byAddr_Some; done).
      assert (byAddr changes !! Address c = Some c') as E2
        by (apply byAddr_Some; [done|]; split; [done|congruence]).
      congruence.
    + assert (Hf : c ∈ filter (isNew s) u) by (by apply list_elem_of_filter).
      destruct (filter (isNew s) u); [by apply elem_of_nil in Hf|done].
  - apply lookup_powers in Hp as (v & Hv & _). apply byAddr_Some in Hv as [Hv <-]; [|done].
    destruct (Hdel v Hv) as (c & Hc & _ & Ha).
    unfold powers in Hno. rewrite lookup_fmap, fmap_None, byAddr_None in Hno.
    apply Hno. rewrite <- Ha. apply list_elem_of_fmap. by exists c.
Qed.

(** Every outcome of a change set: refused with the set unchanged, or applied. *)
Lemma updateWithChangeSet_cases s changes allow :
  changeable s -> changes <> [] ->
  (exists e, updateWithChangeSet changes allow s = Fail s e /\ refusal s changes allow e) \/
  (exists u d, processChanges changes = inr (u, d) /\
     Forall (fun x => is_Some (byAddr (Validators s) !! Address x)) d /\
     totalVotingPower s + sumZ VotingPower u - sumZ (oldPower s) u <= MaxTotalVotingPower /\
     changedList s u d <> [] /\
     (sumZ VotingPower (changedList s u d) <= MaxTotalVotingPower ->
      Forall (fun v => 0 < VotingPower v) (changedList s u d) ->
      exists l, samePeople (changedList s u d) l /\ wf (changedSet l s) /\
        updateWithChangeSet changes allow s = Done (changedSet l s) tt)).
Proof.
  intros Hs Hc. pose proof (changeable_indexed s Hs) as Hi.
  unfold updateWithChangeSet. destruct changes as [|c0 cs]; [done|]. remember (c0 :: cs) as changes.
  destruct (processChanges changes) as [e|[u d]] eqn:Hpc.
  { left. exists e. split; [done|]. by apply ref_change. }
  destruct (negb allow && negb (Nat.eqb (length d) 0)) eqn:Eallow.
  { left. eexists. split; [done|]. apply andb_true_iff in Eallow as [Ha%negb_true_iff Hd0%negb_true_iff].
    destruct d as [|c d]; [done|].
    destruct (proj1 (in_removals _ _ _ c Hpc) ltac:(left)) as [??]. by eapply ref_delete. }
  destruct (processChanges_sorted _ _ _ Hpc) as (Hu & Hd & _ & Hup & _).
  destruct (verifyRemovals_spec s d Hi Hd) as [[Hin Er]|(c & Hcd & Hn & Er)].
  2: { left. eexists. split; [unfold mbind, st_bind; by rewrite Er|].
       apply (in_removals _ _ _ _ Hpc) in Hcd as [??]. by apply ref_unknown. }
  pose proof (oldPower_sum s u Hi (ch_power s Hs) (sorted_nodup _ Hu)) as Hold.
  assert (Hold0 : 0 <= sumZ (oldPower s) u)
    by (apply sumZ_nonneg, Forall_forall; intros x _; apply oldPower_nonneg; [done|apply Hs]).
  assert (Hu0 : 0 <= sumZ VotingPower u)
    by (apply sumZ_nonneg; eapply Forall_impl; [exact Hup|]; cbn; lia).
  pose proof (ch_total s Hs) as Htot. pose proof (ch_sum s Hs) as Hsum.
  assert (Ev : verifyUpdates u s = verifyUpdates_loop u (totalVotingPower s) 0 s).
  { unfold verifyUpdates, mbind at 1, st_bind at 1. by rewrite TotalVotingPower_changeable. }
  destruct (verifyUpdates_loop_spec s u (totalVotingPower s) 0 Hi (ch_power s Hs) Hup)
    as [[El Hle]|(us1 & x & Hpre & El & Hgt)]; [lia|lia|lia| |].
  2: { left. eexists. split; [unfold mbind, st_bind; by rewrite Er, Ev, El|].
       eapply (ref_total _ _ _ x (us1 ++ [x])); [|set_solver|done].
       apply processChanges_inr in Hpc as (_ & _ & Eu & _).
       transitivity u; [|rewrite Eu; apply sublist_filter].
       destruct Hpre as [k ->]. by apply sublist_inserts_r. }
  set (t := totalVotingPower s + sumZ VotingPower u - sumZ (oldPower s) u) in *.
  destruct (Nat.eqb (0 + length (filter (isNew s) u)) 0 && Nat.eqb (length (Validators s)) (length d))
    eqn:Eempty.
  { left. exists ErrEmptySet. split.
    - unfold mbind, st_bind. rewrite Er, Ev, El. unfold getS. by rewrite Eempty.
    - apply andb_true_iff in Eempty as [E1%Nat.eqb_eq E2%Nat.eqb_eq].
      apply ref_empty. by eapply nothing_left. }
  right. exists u, d. split; [done|]. split; [done|]. split; [done|].
  assert (Hne : changedList s u d <> []).
  { eapply changedList_nonempty; [done|done|done|].
    apply andb_false_iff in Eempty as [E|E]; apply Nat.eqb_neq in E; [left|right]; lia. }
  split; [done|]. intros Hsum' Hpos.
  destruct (install_spec s changes u d Hs Hpc Hin ltac:(lia) Hne Hsum' Hpos) as (l & Hsame & Hwf & Ei).
  exists l. split; [done|]. split; [done|].
  unfold mbind at 1, st_bind at 1. rewrite Er. unfold mbind at 1, st_bind at 1. rewrite Ev, El.
  unfold mbind at 1, st_bind at 1, getS. rewrite Eempty.
  unfold mbind at 1, st_bind at 1. rewrite computeNewPriorities_spec by done. exact Ei.
Qed.

(** ** The result as a map *)

Lemma powers_samePeople l l' :
  samePeople l l' -> NoDup (map Address l) -> powers l = powers l'.
Proof.
  intros H Hnd. pose proof (samePeople_addresses _ _ H) as Ha.
  unfold powers, byAddr. clear Hnd Ha. revert l' H.
  induction l as [|v l IH]; intros [|w l'] H; try done. cbn in H. injection H as H1 H2 H3 H4.
  cbn. rewrite !fmap_insert. rewrite H2, H3. f_equal. by apply IH.
Qed.

Lemma byAddr_map_newPriority s t u :
  byAddr (map (newPriority s t) u) = newPriority s t <$> byAddr u.
Proof.
  induction u as [|v u IH]; [done|]. cbn [map]. rewrite !byAddr_cons, fmap_insert, IH.
  by rewrite (proj1 (newPriority_fields s t v)).
Qed.

(** The validator a change set leaves at an address. *)
Lemma lookup_changedList s changes u d a :
  changeable s -> processChanges changes = inr (u, d) ->
  byAddr (changedList s u d) !! a =
  if decide (a ∈ map Address d) then None
  else match byAddr u !! a with
       | Some c => Some (newPriority s
           (totalVotingPower s + sumZ VotingPower u - sumZ (oldPower s) u) c)
       | None => byAddr (Validators s) !! a
       end.
Proof.
  intros Hs Hpc. destruct (processChanges_sorted _ _ _ Hpc) as (Hu & _).
  unfold changedList. set (t := totalVotingPower s + sumZ VotingPower u - sumZ (oldPower s) u).
  pose proof (map_newPriority_sorted s t u Hu) as Hu'.
  rewrite byAddr_without by (apply sorted_nodup, mergeUpdates_sorted; [apply Hs|done]).
  rewrite byAddr_mergeUpdates, byAddr_map_newPriority by (apply Hs || done).
  rewrite map_lookup_filter, lookup_union, lookup_fmap.
  destruct (byAddr u !! a) as [c|], (byAddr (Validators s) !! a) as [v|]; cbn;
    repeat case_guard; case_decide; naive_solver.
Qed.

Lemma powers_changedList s changes u d :
  changeable s -> processChanges changes = inr (u, d) ->
  (forall v, v ∈ Validators s -> VotingPower v = 0 -> Address v ∈ map Address changes) ->
  powers (changedList s u d) = applyChanges changes (powers (Validators s)).
Proof.
  intros Hs Hpc Hzero. pose proof (changeable_indexed s Hs) as [Hnds _].
  destruct (processChanges_sorted _ _ _ Hpc) as (Hu & Hd & Hnd & _).
  apply map_eq. intros a. unfold applyChanges. rewrite map_lookup_filter, lookup_union.
  unfold powers. rewrite !lookup_fmap, (lookup_changedList _ _ _ _ _ Hs Hpc).
  destruct (byAddr changes !! a) as [c|] eqn:Ec.
  - apply byAddr_Some in Ec as [Hc <-]; [|done].
    assert (Huniq : forall x, x ∈ changes -> Address x = Address c -> x = c).
    { intros x Hx Ha. assert (byAddr changes !! Address c = Some c) by (by apply byAddr_Some).
      assert (byAddr changes !! Address c = Some x) by (by apply byAddr_Some). congruence. }
    change (VotingPower <$> Some c) with (Some (VotingPower c)). rewrite union_Some_l. cbn.
    destruct (Z.eq_dec (VotingPower c) 0) as [Hz|Hnz].
    + rewrite decide_True.
      * cbn. case_guard; cbn in *; [lia|done].
      * apply list_elem_of_fmap. exists c. split; [done|]. by apply (in_removals _ _ _ _ Hpc).
    + rewrite decide_False.
      * rewrite (proj2 (byAddr_Some u (Address c) c (sorted_nodup _ Hu))).
        -- cbn. rewrite (proj2 (newPriority_fields _ _ c)). by case_guard.
        -- split; [|done]. by eapply in_updates.
      * intros (x & Hx & [Hxc H0]%(in_removals _ _ _ _ Hpc))%list_elem_of_fmap.
        rewrite (Huniq x) in H0 by done. done.
  - apply byAddr_None in Ec.
    rewrite decide_False.
    2: { intros (x & -> & [Hx _]%(in_removals _ _ _ _ Hpc))%list_elem_of_fmap. apply Ec.
         apply list_elem_of_fmap. by exists x. }
    rewrite (proj2 (byAddr_None u a)).
    2: { intros (x & -> & Hx)%list_elem_of_fmap. apply Ec.
         apply processChanges_inr in Hpc as (_ & _ & -> & _).
         apply list_elem_of_filter in Hx as [_ Hx]. rewrite sortByAddress_perm in Hx.
         apply list_elem_of_fmap. by exists x. }
    destruct (byAddr (Validators s) !! a) as [v|] eqn:Ev; [|done]. cbn.
    case_guard as Hg; [done|]. exfalso.
    apply byAddr_Some in Ev as [Hv <-]; [|done]. by apply Ec, Hzero.
Qed.

(** A change set applied to a well-formed set, in one statement. *)
Lemma updateWithChangeSet_wf s changes allow :
  wf s -> changes <> [] ->
  match updateWithChangeSet changes allow s with
  | Done s' _ =>
      wf s' /\ Validators s' <> [] /\ Proposer s' = Proposer s /\
      powers (Validators s') = applyChanges changes (powers (Validators s))
  | Fail s' e => s' = s /\ refusal s changes allow e
  | Panicked _ => False
  end.
Proof.
  intros Hwf Hc. pose proof (wf_changeable s Hwf) as Hs.
  destruct (updateWithChangeSet_cases s changes allow Hs Hc)
    as [(e & -> & Hr)|(u & d & Hpc & Hin & Ht & Hne & Hok)]; [done|].
  pose proof (changedList_sum s changes u d Hs Hpc) as Hsum.
  destruct Hok as (l & Hsame & Hwf' & ->).
  - rewrite <- (wf_total s Hwf) in Hsum. lia.
  - apply Forall_forall. intros v [_ Hv]%list_elem_of_filter.
    apply mergeUpdates_elem in Hv as [Hv|(w & -> & Hw)%list_elem_of_fmap].
    + exact (proj1 (Forall_forall _ _) (wf_power s Hwf) v Hv).
    + rewrite (proj2 (newPriority_fields _ _ _)).
      destruct (processChanges_sorted _ _ _ Hpc) as (_ & _ & _ & Hu & _).
      exact (proj1 (proj1 (Forall_forall _ _) Hu w Hw)).
  - split_and!; [done|by eapply samePeople_nonempty|done|].
    change (Validators (changedSet l s)) with l. rewrite <- (powers_samePeople _ _ Hsame);
      [|apply sorted_nodup; by eapply changedList_sorted].
    eapply powers_changedList; [done|done|]. intros v Hv H0.
    pose proof (proj1 (Forall_forall _ _) (wf_power s Hwf) v Hv) as H. cbn in H. lia.
Qed.

(** Enough for acceptance: distinct non-zero addresses, legal powers, deletions
    only of members, a total that fits and somebody left. *)
Lemma noRepeat_nodup prev l :
  (prev ∉ map Address l) -> NoDup (map Address l) -> noRepeat prev l.
Proof.
  revert prev. induction l as [|v l IH]; intros prev Hp Hnd; [done|].
  cbn in *. apply not_elem_of_cons in Hp as [Hp _]. apply NoDup_cons in Hnd as [Hv Hnd].
  split; [congruence|]. by apply IH.
Qed.

Lemma sumZ_sublist f (l1 l2 : list Validator) :
  Forall (fun v => 0 <= f v) l2 -> l1 `sublist_of` l2 -> sumZ f l1 <= sumZ f l2.
Proof.
  intros HF Hs. induction Hs; cbn; apply Forall_cons in HF as [??] || idtac; [lia| |];
  specialize (IHHs ltac:(done)); lia.
Qed.

Lemma sumZ_perm f l1 l2 : l1 ≡ₚ l2 -> sumZ f l1 = sumZ f l2.
Proof. induction 1; cbn; lia. Qed.

Lemma no_refusal s changes allow e :
  wf s -> NoDup (map Address changes) -> (zeroAddress ∉ map Address changes) ->
  Forall goodPower changes ->
  (forall c, c ∈ changes -> VotingPower c = 0 ->
     allow = true /\ is_Some (byAddr (Validators s) !! Address c)) ->
  totalVotingPower s + sumZ VotingPower changes <= MaxTotalVotingPower ->
  applyChanges changes (powers (Validators s)) <> ∅ ->
  ~ refusal s changes allow e.
Proof.
  intros Hwf Hnd Hz Hg Hdel Ht Hne Hr. pose proof (wf_changeable s Hwf) as Hs.
  destruct Hr as [e He|d c Ha Hc H0|c Hc H0 Hn|c us Hsub Hc Hgt|He]; try done.
  - assert (Hok : processChanges changes = inr (filter isUpdate (sortByAddress changes),
      filter isRemoval (sortByAddress changes))); [|by rewrite Hok in He].
    apply processChanges_inr. split_and!; try done.
    apply noRepeat_nodup; by rewrite sortByAddress_perm.
  - destruct (Hdel c Hc H0). congruence.
  - destruct (Hdel c Hc H0) as [_ [v Hv]]. congruence.
  - assert (Hold : 0 <= sumZ (oldPower s) us).
    { apply sumZ_nonneg, Forall_forall. intros x _. apply oldPower_nonneg; [|apply Hs].
      by apply changeable_indexed. }
    pose proof (sumZ_sublist VotingPower us (sortByAddress changes)) as H.
    rewrite (sumZ_perm _ _ _ (sortByAddress_perm changes)) in H.
    assert (Forall (fun v => 0 <= VotingPower v) (sortByAddress changes)) as Hg'.
    { rewrite sortByAddress_perm. eapply Forall_impl; [exact Hg|]. unfold goodPower. cbn. lia. }
    specialize (H Hg' Hsub). lia.
Qed.

Lemma applyChanges_empty l :
  NoDup (map Address l) -> Forall (fun v => VotingPower v <> 0) l ->
  applyChanges l (powers []) = powers l.
Proof.
  intros Hnd HF. unfold applyChanges. change (powers []) with (∅ : gmap Z Z).
  rewrite (map_union_empty _). apply map_filter_id. intros a p Hp. cbn.
  apply lookup_powers in Hp as (v & Hv & <-). apply byAddr_Some in Hv as [Hv _]; [|done].
  exact (proj1 (Forall_forall _ _) HF v Hv).
Qed.

Lemma powers_nonempty v l : powers (v :: l) <> ∅.
Proof.
  intros H. apply (f_equal (lookup (Address v))) in H. revert H.
  unfold powers. rewrite lookup_fmap, byAddr_cons, lookup_insert_eq. done.
Qed.

(** Legal input for [NewValidatorSet]. *)
Definition legalGenesis (valz : list Validator) : Prop :=
  valz <> [] /\ NoDup (map Address valz) /\ (zeroAddress ∉ map Address valz) /\
  Forall (fun v => 0 < VotingPower v) valz /\ sumZ VotingPower valz <= MaxTotalVotingPower.

Lemma legalGenesis_accepted valz :
  legalGenesis valz ->
  exists s, updateWithChangeSet valz false emptySet = Done s tt /\ wf s /\ Validators s <> [] /\
            powers (Validators s) = powers valz.
Proof.
  intros (Hne & Hnd & Hz & Hp & Hsum).
  assert (HF : Forall (fun v => VotingPower v <> 0) valz)
    by (eapply Forall_impl; [exact Hp|]; cbn; lia).
  assert (Hno : forall e, ~ refusal emptySet valz false e).
  { intros e. apply no_refusal; auto using emptySet_wf.
    - apply Forall_forall. intros v Hv. pose proof (power_le_sum _ v Hp Hv). unfold goodPower. lia.
    - intros c Hc H0. by pose proof (proj1 (Forall_forall _ _) HF c Hc).
    - change (Validators emptySet) with (@nil Validator). rewrite applyChanges_empty by done.
      destruct valz; [done|]. apply powers_nonempty. }
  pose proof (updateWithChangeSet_wf emptySet valz false emptySet_wf Hne) as H.
  destruct (updateWithChangeSet valz false emptySet) as [s []|s e|w]; [|by destruct (Hno e), H|done].
  destruct H as (Hwf & Hne' & _ & Hpow). exists s. split_and!; try done.
  rewrite Hpow. by apply applyChanges_empty.
Qed.

(** ** Properties *)

(** C6: Refinement of the change sets: on a well-formed set a change set is
    either refused, for one of the documented reasons and with the set exactly
    as it was, or applied, and then the set is well formed, not empty, and its
    powers by address are the old ones overridden by the changes, with the
    zero powers removed.  It never panics. *)
Theorem updateWithChangeSet_refines s changes allow :
  wf s -> changes <> [] ->
  match updateWithChangeSet changes allow s with
  | Done s' _ =>
      wf s' /\ Validators s' <> [] /\ Proposer s' = Proposer s /\
      powers (Validators s') = applyChanges changes (powers (Validators s))
  | Fail s' e => s' = s /\ refusal s changes allow e
  | Panicked _ => False
  end.
Proof. apply updateWithChangeSet_wf. Qed.

Definition demoChanged : ValidatorSet :=
  match updateWithChangeSet [mkValidator 0 22 0 0; mkValidator 0 44 5 0] true demoSet with
  | Done s' _ => s' | _ => demoSet end.

Lemma updateWithChangeSet_refines_witness :
  updateWithChangeSet [mkValidator 0 22 0 0; mkValidator 0 44 5 0] true demoSet = Done demoChanged tt /\
  wf demoChanged /\ powers (Validators demoChanged) = {[11 := 10; 33 := 30; 44 := 5]}.
Proof.
  pose proof (updateWithChangeSet_refines demoSet
    [mkValidator 0 22 0 0; mkValidator 0 44 5 0] true demoSet_wf ltac:(discriminate)) as H.
  assert (E : updateWithChangeSet [mkValidator 0 22 0 0; mkValidator 0 44 5 0] true demoSet = Done demoChanged tt)
    by (vm_compute; reflexivity).
  rewrite E in H. split; [exact E|]. split; [exact (proj1 H)|]. vm_compute. reflexivity.
Defined.

(** A change set with distinct non-zero addresses and legal powers, whose
    deletions are allowed and name members, whose powers fit beside the current
    total and which leaves somebody in the set, is accepted. *)
Theorem updateWithChangeSet_accepts s changes allow :
  wf s -> changes <> [] -> NoDup (map Address changes) -> (zeroAddress ∉ map Address changes) ->
  Forall goodPower changes ->
  (forall c, c ∈ changes -> VotingPower c = 0 ->
     allow = true /\ is_Some (byAddr (Validators s) !! Address c)) ->
  totalVotingPower s + sumZ VotingPower changes <= MaxTotalVotingPower ->
  applyChanges changes (powers (Validators s)) <> ∅ ->
  exists s', updateWithChangeSet changes allow s = Done s' tt /\ wf s' /\
             powers (Validators s') = applyChanges changes (powers (Validators s)).
Proof.
  intros Hwf Hc Hnd Hz Hg Hdel Ht Hne.
  pose proof (updateWithChangeSet_wf s changes allow Hwf Hc) as H.
  destruct (updateWithChangeSet changes allow s) as [s' []|s' e|w]; [|exfalso|done].
  - exists s'. split_and!; [done|apply H|apply H].
  - destruct H as [_ H]. revert H. by apply no_refusal.
Qed.

Lemma updateWithChangeSet_accepts_witness :
  exists s', updateWithChangeSet [mkValidator 0 44 5 0] false demoSet = Done s' tt /\ wf s'.
Proof.
  destruct (updateWithChangeSet_accepts demoSet [mkValidator 0 44 5 0] false demoSet_wf)
    as (s' & E & Hwf & _).
  - discriminate.
  - apply NoDup_singleton.
  - apply not_elem_of_cons. split; [discriminate|apply not_elem_of_nil].
  - repeat constructor; vm_compute; discriminate.
  - intros c ->%list_elem_of_singleton. discriminate.
  - vm_compute. discriminate.
  - vm_compute. discriminate.
  - by exists s'.
Defined.

(** [NewValidatorSet] on a non-empty list with distinct non-zero addresses
    and positive powers whose sum fits returns a well-formed set with exactly
    those powers, and a proposer taken from it. *)
Theorem NewValidatorSet_correct valz :
  legalGenesis valz ->
  exists s p, NewValidatorSet valz = Done s tt /\ wf s /\
            powers (Validators s) = powers valz /\ Proposer s = Some p /\ p ∈ Validators s.
Proof.
  intros Hl. destruct (legalGenesis_accepted valz Hl) as (s0 & E0 & Hwf0 & Hne0 & Hp0).
  destruct (IncrementProposerPriority_1 s0 Hwf0 Hne0)
    as (s & l & i & v & E1 & Hsame & _ & Hv & _ & Hvals & Hprop & _ & Hwf).
  assert (Hpeople : samePeople (Validators s0) (Validators s)).
  { rewrite Hvals. eapply samePeople_trans; [done|apply samePeople_exactStep]. }
  assert (exists p, Validators s !! i = Some p) as [p Hp].
  { apply lookup_lt_is_Some. rewrite Hvals, <- (samePeople_length _ _ (samePeople_exactStep i l)).
    by eapply lookup_lt_Some. }
  exists s, p. split_and!; [|done| |by rewrite Hprop|by eapply list_elem_of_lookup_2].
  - unfold NewValidatorSet, mbind, st_bind, must. rewrite E0.
    destruct valz; [by destruct Hl|done].
  - rewrite <- (powers_samePeople _ _ Hpeople) by (apply sorted_nodup, Hwf0). done.
Qed.

Lemma NewValidatorSet_correct_witness :
  exists s p, NewValidatorSet demoValidators = Done s tt /\ Proposer s = Some p /\ Address p = 33.
Proof.
  destruct (NewValidatorSet_correct demoValidators) as (s & p & E & _ & _ & Hp & _).
  - unfold legalGenesis. split_and!.
    + discriminate.
    + vm_compute. repeat constructor; set_solver by lia.
    + vm_compute. set_solver by lia.
    + repeat constructor.
    + vm_compute. discriminate.
  - exists s, p. split; [exact E|]. split; [exact Hp|].
    vm_compute in E. injection E as <-. vm_compute in Hp. injection Hp as <-. reflexivity.
Defined.

End ValsetChange.
