(* ===== verification/ChainConfig.v ===== *)
(** * Chain configuration (params/config.go, params/protocol_params.go)

    The fork schedule, the block-indexed parameters of the Bor engine, and the
    compatibility checks a node runs on its stored configuration. *)

From S2P Require Import Prelude.

Module ChainConfig.

(** ** Data *)

Record BlockRangeOverride := mkBlockRangeOverride {
  StartBlock : Z;
  EndBlock : Z;
  Value : Z
}.

Record BlockRangeOverrideValidatorSet := mkBlockRangeOverrideValidatorSet {
  ovStartBlock : Z;
  ovEndBlock : Z;
  ovValidators : list Z
}.

(** A Go [map[string]T] as its entries in the order a [range] visits them: the
    order is arbitrary, the keys are distinct. *)
Abbreviation strmap T := (list (string * T)).

Record BorConfig := mkBorConfig {
  Period : strmap Z;
  ProducerDelay : strmap Z;
  Sprint : strmap Z;
  BackupMultiplier : strmap Z;
  OverrideStateSyncRecords : gmap string Z;
  OverrideStateSyncRecordsInRange : list BlockRangeOverride;
  OverrideValidatorSetInRange : list BlockRangeOverrideValidatorSet;
  BurntContract : strmap string;
  Coinbase : option (strmap string);
  SkipValidatorByteCheck : list Z;
  TargetGasPercentage : option Z;
  cfgBaseFeeChangeDenominator : option Z;
  EnableDynamicTargetGas : option bool;
  TargetGasMinPercentage : option Z;
  TargetGasMaxPercentage : option Z;
  TargetBaseFee : option Z;
  BaseFeeBuffer : option Z;
  JaipurBlock : option Z;
  DelhiBlock : option Z;
  IndoreBlock : option Z;
  StateSyncConfirmationDelay : strmap Z;
  AhmedabadBlock : option Z;
  BhilaiBlock : option Z;
  RioBlock : option Z;
  MadhugiriBlock : option Z;
  MadhugiriProBlock : option Z;
  DandeliBlock : option Z;
  LisovoBlock : option Z;
  LisovoProBlock : option Z;
  GiuglianoBlock : option Z;
  ChicagoBlock : option Z;
  ValenciaBlock : option Z;
  AustinBlock : option Z;
  HampiBlock : option Z
}.

Record BlobConfig := mkBlobConfig {
  blobTarget : Z;
  blobMax : Z;
  UpdateFraction : Z
}.

Record BlobScheduleConfig := mkBlobScheduleConfig {
  blobCancun : option BlobConfig;
  blobPrague : option BlobConfig;
  blobOsaka : option BlobConfig
}.

Record ChainConfig := mkChainConfig {
  ChainID : option Z;
  HomesteadBlock : option Z;
  DAOForkBlock : option Z;
  DAOForkSupport : bool;
  EIP150Block : option Z;
  EIP155Block : option Z;
  EIP158Block : option Z;
  ByzantiumBlock : option Z;
  ConstantinopleBlock : option Z;
  PetersburgBlock : option Z;
  IstanbulBlock : option Z;
  MuirGlacierBlock : option Z;
  BerlinBlock : option Z;
  LondonBlock : option Z;
  ArrowGlacierBlock : option Z;
  GrayGlacierBlock : option Z;
  MergeNetsplitBlock : option Z;
  ShanghaiBlock : option Z;
  CancunBlock : option Z;
  PragueBlock : option Z;
  VerkleBlock : option Z;
  OsakaBlock : option Z;
  Bor : option BorConfig;
  BlobSchedule : option BlobScheduleConfig
}.

(** ** Fork predicates *)

Definition isBlockForked (s head : option Z) : bool :=
  match s, head with
  | Some s, Some head => s <=? head
  | _, _ => false
  end.

Definition IsJaipur (c : BorConfig) (number : option Z) : bool := isBlockForked (JaipurBlock c) number.
Definition IsDelhi (c : BorConfig) (number : option Z) : bool := isBlockForked (DelhiBlock c) number.
Definition IsIndore (c : BorConfig) (number : option Z) : bool := isBlockForked (IndoreBlock c) number.
Definition IsAhmedabad (c : BorConfig) (number : option Z) : bool := isBlockForked (AhmedabadBlock c) number.
Definition IsBhilai (c : BorConfig) (number : option Z) : bool := isBlockForked (BhilaiBlock c) number.
Definition IsRio (c : BorConfig) (number : option Z) : bool := isBlockForked (RioBlock c) number.
Definition IsMadhugiri (c : BorConfig) (number : option Z) : bool := isBlockForked (MadhugiriBlock c) number.
Definition IsMadhugiriPro (c : BorConfig) (number : option Z) : bool := isBlockForked (MadhugiriProBlock c) number.
Definition IsDandeli (c : BorConfig) (number : option Z) : bool := isBlockForked (DandeliBlock c) number.
Definition IsLisovo (c : BorConfig) (number : option Z) : bool := isBlockForked (LisovoBlock c) number.
Definition IsLisovoPro (c : BorConfig) (number : option Z) : bool := isBlockForked (LisovoProBlock c) number.
Definition IsGiugliano (c : BorConfig) (number : option Z) : bool := isBlockForked (GiuglianoBlock c) number.
Definition IsChicago (c : BorConfig) (number : option Z) : bool := isBlockForked (ChicagoBlock c) number.
Definition IsValencia (c : BorConfig) (number : option Z) : bool := isBlockForked (ValenciaBlock c) number.
Definition IsAustin (c : BorConfig) (number : option Z) : bool := isBlockForked (AustinBlock c) number.
Definition IsHampi (c : BorConfig) (number : option Z) : bool := isBlockForked (HampiBlock c) number.

Definition IsHomestead (c : ChainConfig) (num : option Z) : bool := isBlockForked (HomesteadBlock c) num.
Definition IsDAOFork (c : ChainConfig) (num : option Z) : bool := isBlockForked (DAOForkBlock c) num.
Definition IsEIP158 (c : ChainConfig) (num : option Z) : bool := isBlockForked (EIP158Block c) num.
Definition IsByzantium (c : ChainConfig) (num : option Z) : bool := isBlockForked (ByzantiumBlock c) num.
Definition IsIstanbul (c : ChainConfig) (num : option Z) : bool := isBlockForked (IstanbulBlock c) num.
Definition IsBerlin (c : ChainConfig) (num : option Z) : bool := isBlockForked (BerlinBlock c) num.
Definition IsLondon (c : ChainConfig) (num : option Z) : bool := isBlockForked (LondonBlock c) num.
Definition IsShanghai (c : ChainConfig) (num : option Z) : bool := isBlockForked (ShanghaiBlock c) num.
Definition IsCancun (c : ChainConfig) (num : option Z) : bool := isBlockForked (CancunBlock c) num.
Definition IsPrague (c : ChainConfig) (num : option Z) : bool := isBlockForked (PragueBlock c) num.

Definition IsPetersburg (c : ChainConfig) (num : option Z) : bool :=
  isBlockForked (PetersburgBlock c) num ||
  (bool_decide (PetersburgBlock c = None) && isBlockForked (ConstantinopleBlock c) num).

Definition IsOsaka (c : ChainConfig) (num : option Z) : bool :=
  IsLondon c num && isBlockForked (OsakaBlock c) num.

Definition IsVerkle (c : ChainConfig) (num : option Z) : bool :=
  IsLondon c num && isBlockForked (VerkleBlock c) num.

(** ** Block-indexed parameters *)

(** [strconv.ParseUint(k, 10, 64)]. *)
Definition digitOf (c : Ascii.ascii) : option Z :=
  let n := Z.of_N (Ascii.N_of_ascii c) in
  if (48 <=? n) && (n <=? 57) then Some (n - 48) else None.

Fixpoint parseDigits (acc : Z) (s : string) : option Z :=
  match s with
  | EmptyString => Some acc
  | String c s' =>
      match digitOf c with
      | Some d =>
          let acc' := acc * 10 + d in
          if MaxUint64 <? acc' then None else parseDigits acc' s'
      | None => None
      end
  end.

Definition ParseUint (s : string) : option Z :=
  match s with EmptyString => None | _ => parseDigits 0 s end.

(** The loop over the map: the keys in visiting order and the numeric map. *)
Fixpoint parseField {T} (field : strmap T) (keys : list Z) (fieldUint : gmap Z T)
  : option (list Z * gmap Z T) :=
  match field with
  | [] => Some (keys, fieldUint)
  | (k, v) :: field' =>
      keyUint ← ParseUint k;
      parseField field' (keys ++ [keyUint]) (<[keyUint := v]> fieldUint)
  end.

Fixpoint pickKey (keys : list Z) (number : Z) : option Z :=
  match keys with
  | [] => None
  | [k] => Some k
  | k :: ((k' :: _) as keys') =>
      if (k <=? number) && (number <? k') then Some k else pickKey keys' number
  end.

(** [None] is a panic: a key that is not a number, or an empty map. *)
Definition borKeyValueConfigHelper {T} (field : strmap T) (number : Z) : option T :=
  '(keys, fieldUint) ← parseField field [] ∅;
  k ← pickKey (merge_sort Z.le keys) number;
  fieldUint !! k.

Definition CalculateProducerDelay (c : BorConfig) (number : Z) : option Z :=
  borKeyValueConfigHelper (ProducerDelay c) number.
Definition CalculateSprint (c : BorConfig) (number : Z) : option Z :=
  borKeyValueConfigHelper (Sprint c) number.
Definition CalculateBackupMultiplier (c : BorConfig) (number : Z) : option Z :=
  borKeyValueConfigHelper (BackupMultiplier c) number.
Definition CalculatePeriod (c : BorConfig) (number : Z) : option Z :=
  borKeyValueConfigHelper (Period c) number.
Definition CalculateStateSyncDelay (c : BorConfig) (number : Z) : option Z :=
  borKeyValueConfigHelper (StateSyncConfirmationDelay c) number.
Definition CalculateBurntContract (c : BorConfig) (number : Z) : option string :=
  borKeyValueConfigHelper (BurntContract c) number.

Definition zeroAddressHex : string := "0x0000000000000000000000000000000000000000".

Definition CalculateCoinbase (c : BorConfig) (number : Z) : option string :=
  match Coinbase c with
  | Some m => borKeyValueConfigHelper m number
  | None => Some zeroAddressHex
  end.

(** A zero sprint is a division by zero. *)
Definition IsSprintStart (c : BorConfig) (number : Z) : option bool :=
  sprint ← CalculateSprint c number;
  if sprint =? 0 then None else Some (number mod sprint =? 0).

Fixpoint overrideRecord (l : list BlockRangeOverride) (block : Z) : option Z :=
  match l with
  | [] => None
  | r :: l' =>
      if (StartBlock r <=? block) && (block <=? EndBlock r) then Some (Value r)
      else overrideRecord l' block
  end.

(** [None] is the pair [(0, false)]. *)
Definition GetOverrideStateSyncRecord (c : BorConfig) (block : Z) : option Z :=
  overrideRecord (OverrideStateSyncRecordsInRange c) block.

(** ** Gas targets and base fee parameters *)

Definition TargetGasPercentagePostDandeli : Z := 65.
Definition DefaultBaseFeeChangeDenominator : Z := 8.
Definition BaseFeeChangeDenominatorPostDelhi : Z := 16.
Definition BaseFeeChangeDenominatorPostBhilai : Z := 64.
Definition DefaultElasticityMultiplier : Z := 2.
Definition InitialBaseFee : Z := 1000000000.
Definition GasLimitBoundDivisor : Z := 1024.
Definition MinGasLimit : Z := 5000.

Definition validPercentage (p : option Z) : option Z :=
  val ← p; if (0 <? val) && (val <=? 100) then Some val else None.

Definition GetTargetGasPercentage (c : BorConfig) (number : option Z) : Z :=
  if negb (IsDandeli c number) then 0
  else if IsLisovo c number then
    default TargetGasPercentagePostDandeli (validPercentage (TargetGasPercentage c))
  else TargetGasPercentagePostDandeli.

Definition GetDynamicTargetGasPercentage (c : BorConfig) (parentBaseFee number : option Z) : Z :=
  let static := GetTargetGasPercentage c number in
  if negb (IsLisovo c number) || negb (default false (EnableDynamicTargetGas c)) then static else
  match parentBaseFee, TargetBaseFee c with
  | None, _ | _, None => static
  | Some parentBaseFee, Some bigDesired =>
      let bigBuffer := default 0 (BaseFeeBuffer c) in
      let upperBound := bigDesired + bigBuffer in
      let lowerBound := if bigBuffer <? bigDesired then bigDesired - bigBuffer else 0 in
      if upperBound <? parentBaseFee then default static (validPercentage (TargetGasMaxPercentage c))
      else if parentBaseFee <? lowerBound then default static (validPercentage (TargetGasMinPercentage c))
      else static
  end.

Definition BaseFeeChangeDenominator (borConfig : option BorConfig) (number : option Z) : Z :=
  match borConfig with
  | None => DefaultBaseFeeChangeDenominator
  | Some c =>
      let byFork :=
        if IsBhilai c number then BaseFeeChangeDenominatorPostBhilai
        else if IsDelhi c number then BaseFeeChangeDenominatorPostDelhi
        else DefaultBaseFeeChangeDenominator in
      match cfgBaseFeeChangeDenominator c with
      | Some val => if IsLisovo c number && (0 <? val) then val else byFork
      | None => byFork
      end
  end.

(** ** Compatibility of two configurations *)

Definition configBlockEqual (x y : option Z) : bool :=
  match x, y with
  | None, None => true
  | Some x, Some y => x =? y
  | _, _ => false
  end.

Definition isForkBlockIncompatible (s1 s2 head : option Z) : bool :=
  (isBlockForked s1 head || isBlockForked s2 head) && negb (configBlockEqual s1 s2).

Record ConfigCompatError := mkConfigCompatError {
  What : string;
  StoredBlock : option Z;
  NewBlock : option Z;
  RewindToBlock : Z
}.

Definition newBlockCompatError (what : string) (storedblock newblock : option Z) : ConfigCompatError :=
  let rew :=
    match storedblock, newblock with
    | None, _ => newblock
    | Some s, None => Some s
    | Some s, Some n => if s <? n then Some s else Some n
    end in
  mkConfigCompatError what storedblock newblock
    (match rew with
     | Some r => if 0 <? r then u64 (u64 r - 1) else 0
     | None => 0
     end).

(** A sequence of [if cond { return err }]. *)
Fixpoint firstError {E} (l : list (bool * E)) : option E :=
  match l with
  | [] => None
  | (b, e) :: l' => if b then Some e else firstError l'
  end.

Definition forkCheck (what : string) (s1 s2 : option Z)
  : (option Z -> bool) * ConfigCompatError :=
  (isForkBlockIncompatible s1 s2, newBlockCompatError what s1 s2).

(** The checks in order: a condition on the head number and the error. *)
Definition compatChecks (c newcfg : ChainConfig) : list ((option Z -> bool) * ConfigCompatError) :=
  [forkCheck "Homestead fork block" (HomesteadBlock c) (HomesteadBlock newcfg);
   forkCheck "DAO fork block" (DAOForkBlock c) (DAOForkBlock newcfg);
   (fun headNumber => IsDAOFork c headNumber && negb (eqb (DAOForkSupport c) (DAOForkSupport newcfg)),
    newBlockCompatError "DAO fork support flag" (DAOForkBlock c) (DAOForkBlock newcfg));
   forkCheck "EIP150 fork block" (EIP150Block c) (EIP150Block newcfg);
   forkCheck "EIP155 fork block" (EIP155Block c) (EIP155Block newcfg);
   forkCheck "EIP158 fork block" (EIP158Block c) (EIP158Block newcfg);
   (fun headNumber => IsEIP158 c headNumber && negb (configBlockEqual (ChainID c) (ChainID newcfg)),
    newBlockCompatError "EIP158 chain ID" (EIP158Block c) (EIP158Block newcfg));
   forkCheck "Byzantium fork block" (ByzantiumBlock c) (ByzantiumBlock newcfg);
   forkCheck "Constantinople fork block" (ConstantinopleBlock c) (ConstantinopleBlock newcfg);
   (fun headNumber =>
      isForkBlockIncompatible (PetersburgBlock c) (PetersburgBlock newcfg) headNumber &&
      isForkBlockIncompatible (ConstantinopleBlock c) (PetersburgBlock newcfg) headNumber,
    newBlockCompatError "Petersburg fork block" (PetersburgBlock c) (PetersburgBlock newcfg));
   forkCheck "Istanbul fork block" (IstanbulBlock c) (IstanbulBlock newcfg);
   forkCheck "Muir Glacier fork block" (MuirGlacierBlock c) (MuirGlacierBlock newcfg);
   forkCheck "Berlin fork block" (BerlinBlock c) (BerlinBlock newcfg);
   forkCheck "London fork block" (LondonBlock c) (LondonBlock newcfg);
   forkCheck "Arrow Glacier fork block" (ArrowGlacierBlock c) (ArrowGlacierBlock newcfg);
   forkCheck "Gray Glacier fork block" (GrayGlacierBlock c) (GrayGlacierBlock newcfg);
   forkCheck "Merge netsplit fork block" (MergeNetsplitBlock c) (MergeNetsplitBlock newcfg);
   forkCheck "Shanghai fork block" (ShanghaiBlock c) (ShanghaiBlock newcfg);
   forkCheck "Cancun fork block" (CancunBlock c) (CancunBlock newcfg);
   forkCheck "Prague fork block" (PragueBlock c) (PragueBlock newcfg);
   forkCheck "Verkle fork timestamp" (VerkleBlock c) (VerkleBlock newcfg);
   forkCheck "Osaka fork block" (OsakaBlock c) (OsakaBlock newcfg)].

Definition checkCompatible (c newcfg : ChainConfig) (headNumber : option Z)
  : option ConfigCompatError :=
  firstError (map (fun '(cond, err) => (cond headNumber, err)) (compatChecks c newcfg)).

(** The loop rewinds the head to the block an error names and checks again, until
    there is no error or the same block is named twice.  [None] when the fuel
    runs out; the rewind time of a block error is always 0. *)
Fixpoint checkCompatible_loop (fuel : nat) (c newcfg : ChainConfig) (bhead : Z)
    (lasterr : option ConfigCompatError) : option (option ConfigCompatError) :=
  match fuel with
  | O => None
  | S fuel' =>
      match checkCompatible c newcfg (Some bhead) with
      | None => Some lasterr
      | Some err =>
          if match lasterr with
             | Some l => RewindToBlock err =? RewindToBlock l
             | None => false
             end
          then Some lasterr
          else checkCompatible_loop fuel' c newcfg (RewindToBlock err) (Some err)
      end
  end.

(** One turn per check and two more are enough (see [CheckCompatible_terminates]). *)
Definition compatFuel : nat := 25.

Definition CheckCompatible (c newcfg : ChainConfig) (height : Z)
  : option (option ConfigCompatError) :=
  checkCompatible_loop compatFuel c newcfg height None.

(** ** Order of the forks *)

Record fork := mkFork {
  name : string;
  block : option Z;
  optional : bool
}.

Definition forkList (c : ChainConfig) : list fork :=
  [mkFork "homesteadBlock" (HomesteadBlock c) false;
   mkFork "daoForkBlock" (DAOForkBlock c) true;
   mkFork "eip150Block" (EIP150Block c) false;
   mkFork "eip155Block" (EIP155Block c) false;
   mkFork "eip158Block" (EIP158Block c) false;
   mkFork "byzantiumBlock" (ByzantiumBlock c) false;
   mkFork "constantinopleBlock" (ConstantinopleBlock c) false;
   mkFork "petersburgBlock" (PetersburgBlock c) false;
   mkFork "istanbulBlock" (IstanbulBlock c) false;
   mkFork "muirGlacierBlock" (MuirGlacierBlock c) true;
   mkFork "berlinBlock" (BerlinBlock c) false;
   mkFork "londonBlock" (LondonBlock c) false;
   mkFork "arrowGlacierBlock" (ArrowGlacierBlock c) true;
   mkFork "grayGlacierBlock" (GrayGlacierBlock c) true;
   mkFork "mergeNetsplitBlock" (MergeNetsplitBlock c) true;
   mkFork "shanghaiBlock" (ShanghaiBlock c) false;
   mkFork "cancunBlock" (CancunBlock c) true;
   mkFork "pragueBlock" (PragueBlock c) true;
   mkFork "osakaBlock" (OsakaBlock c) true;
   mkFork "verkleBlock" (VerkleBlock c) true].

Inductive fork_order_error :=
| ErrForkNotEnabled (last cur : string)
| ErrForkOrder (last cur : string)
| ErrBlobConfig (fork : string).

(** No fork of the list has a timestamp, so the timestamp cases never apply. *)
Fixpoint forkOrder_loop (lastFork : option fork) (l : list fork) : option fork_order_error :=
  match l with
  | [] => None
  | cur :: l' =>
      match
        match lastFork with
        | None => None
        | Some last =>
            match block last, block cur with
            | None, Some _ => Some (ErrForkNotEnabled (name last) (name cur))
            | Some b, Some b' => if b' <? b then Some (ErrForkOrder (name last) (name cur)) else None
            | _, None => None
            end
        end
      with
      | Some e => Some e
      | None =>
          forkOrder_loop
            (if negb (optional cur) || bool_decide (is_Some (block cur)) then Some cur else lastFork) l'
      end
  end.

(** [BlobConfig.validate]: does the configuration fail? *)
Definition blobInvalid (bc : option BlobConfig) : bool :=
  match bc with
  | None => false
  | Some bc => (blobMax bc <? 0) || (blobTarget bc <? 0) || (UpdateFraction bc =? 0)
  end.

Definition CheckConfigForkOrder (c : ChainConfig) : option fork_order_error :=
  match forkOrder_loop None (forkList c) with
  | Some e => Some e
  | None =>
      let bsc := default (mkBlobScheduleConfig None None None) (BlobSchedule c) in
      firstError [(blobInvalid (blobCancun bsc), ErrBlobConfig "cancun");
                  (blobInvalid (blobPrague bsc), ErrBlobConfig "prague");
                  (blobInvalid (blobOsaka bsc), ErrBlobConfig "osaka")]
  end.

End ChainConfig.
