(* ===== verification/ConfigProps.v ===== *)
(** * Properties of the chain configuration

    The block-indexed parameters are step functions of the block number, the
    fork-order check is exactly the order of the schedule, and the rewind loop
    of [CheckCompatible] ends with a block to which a rewind is enough. *)

From S2P Require Import Prelude ChainConfig.

Module ConfigProps.
Import ChainConfig.

(** ** Block-indexed parameters *)

(** The numeric entries of a field. *)
Definition parsedEntry {T} (e : string * T) (k : Z) (v : T) : Prop :=
  ParseUint e.1 = Some k /\ e.2 = v.

Definition entries {T} (field : strmap T) : option (list (Z * T)) :=
  mapM (fun '(k, v) => k' ← ParseUint k; Some (k', v)) field.

Lemma parseField_entries {T} (field : strmap T) keys m :
  parseField field keys m =
  es ← entries field;
  Some (keys ++ es.*1, fold_left (fun m '(k, v) => <[k := v]> m) es m).
Proof.
  revert keys m. unfold entries. induction field as [|[k v] field IH]; intros keys m; cbn.
  - by rewrite app_nil_r.
  - destruct (ParseUint k) as [k'|]; cbn; [|done]. rewrite IH.
    destruct (mapM _ field) as [es|]; cbn; [|done]. by rewrite <- app_assoc.
Qed.

Lemma fold_insert_lookup {T} (es : list (Z * T)) (m : gmap Z T) k v :
  NoDup es.*1 -> (k, v) ∈ es ->
  fold_left (fun m '(k, v) => <[k := v]> m) es m !! k = Some v.
Proof.
  assert (Hskip : forall (es : list (Z * T)) (m : gmap Z T) k, k ∉ es.*1 ->
            fold_left (fun m '(k, v) => <[k := v]> m) es m !! k = m !! k).
  { clear. induction es as [|[k' v'] es IH]; intros m k Hk; cbn; [done|].
    cbn in Hk. rewrite IH by set_solver. rewrite lookup_insert_ne; set_solver. }
  revert m. induction es as [|[k' v'] es IH]; intros m Hnd Hin; [by apply elem_of_nil in Hin|].
  cbn in Hnd |- *. apply NoDup_cons in Hnd as [Hk' Hnd].
  apply elem_of_cons in Hin as [[= -> ->]|Hin]; [|by apply IH].
  rewrite Hskip by done. by rewrite lookup_insert_eq.
Qed.

(** The key a sorted list gives: the floor of the number, or the last key when
    every key is above it. *)
Definition isChosen (keys : list Z) (number k : Z) : Prop :=
  k ∈ keys /\
  ((k <= number /\ forall k', k' ∈ keys -> k' <= number -> k' <= k) \/
   ((forall k', k' ∈ keys -> number < k') /\ forall k', k' ∈ keys -> k' <= k)).

Lemma isChosen_unique keys number k1 k2 :
  isChosen keys number k1 -> isChosen keys number k2 -> k1 = k2.
Proof.
  intros [Hi1 H1] [Hi2 H2].
  destruct H1 as [[Hle1 Hm1]|[Hab1 Hm1]], H2 as [[Hle2 Hm2]|[Hab2 Hm2]].
  - pose proof (Hm1 k2 Hi2 Hle2). pose proof (Hm2 k1 Hi1 Hle1). lia.
  - pose proof (Hab2 k1 Hi1). lia.
  - pose proof (Hab1 k2 Hi2). lia.
  - pose proof (Hm1 k2 Hi2). pose proof (Hm2 k1 Hi1). lia.
Qed.

Lemma pickKey_chosen keys number :
  StronglySorted Z.le keys -> keys <> [] ->
  exists k, pickKey keys number = Some k /\ isChosen keys number k.
Proof.
  induction 1 as [|k keys Hs IH Hk]; [done|]. intros _.
  destruct keys as [|k' keys]; cbn [pickKey].
  { exists k. split; [done|]. split; [set_solver|].
    destruct (Z.le_gt_cases k number); [left|right]; split; try done;
      intros k'; rewrite list_elem_of_singleton; intros ->; lia. }
  pose proof (proj1 (Forall_forall _ _) Hk) as Hk2. cbn in Hk2.
  destruct ((k <=? number) && (number <? k')) eqn:Hin.
  - bool_to_prop. exists k. split; [done|]. split; [set_solver|]. left. split; [done|].
    intros x Hx Hxn. apply elem_of_cons in Hx as [->|Hx]; [lia|].
    apply elem_of_cons in Hx as [->|Hx]; [lia|].
    apply StronglySorted_inv in Hs as [_ Hf].
    pose proof (proj1 (Forall_forall _ _) Hf x Hx). lia.
  - destruct IH as (x & Ex & Hx & Hch); [done|]. exists x. split; [done|].
    split; [set_solver|]. pose proof (Hk2 k' ltac:(set_solver)) as Hkk'.
    destruct Hch as [[Hle Hm]|[Hab Hm]].
    + left. split; [done|]. intros y Hy Hyn. apply elem_of_cons in Hy as [->|Hy]; [|by apply Hm].
      pose proof (Hk2 x Hx). lia.
    + pose proof (Hab k' ltac:(set_solver)).
      apply andb_false_iff in Hin as [Hin|Hin]; bool_to_prop; [|lia].
      right. split; intros y Hy; apply elem_of_cons in Hy as [->|Hy]; auto; lia.
Qed.

(** A field whose keys are numbers, all different, and not empty. *)
Definition goodField {T} (field : strmap T) (es : list (Z * T)) : Prop :=
  entries field = Some es /\ NoDup es.*1 /\ es <> [].

Lemma helper_chosen {T} (field : strmap T) es number :
  goodField field es ->
  exists k v, borKeyValueConfigHelper field number = Some v /\ (k, v) ∈ es /\
              isChosen es.*1 number k.
Proof.
  intros (He & Hnd & Hne). unfold borKeyValueConfigHelper. rewrite parseField_entries, He. cbn.
  pose proof (merge_sort_Permutation Z.le es.*1) as Hperm.
  assert (Hs : StronglySorted Z.le (merge_sort Z.le es.*1)).
  { apply StronglySorted_merge_sort; apply _. }
  destruct (pickKey_chosen (merge_sort Z.le es.*1) number Hs) as (k & -> & Hk & Hch).
  { intros E. rewrite E in Hperm. apply Permutation_nil_l in Hperm. by destruct es. }
  cbn. assert (Hch' : isChosen es.*1 number k).
  { split; [by rewrite <- Hperm|].
    destruct Hch as [[? Hm]|[Hab Hm]]; [left|right]; split; auto;
      intros k'; rewrite <- Hperm; auto. }
  pose proof (proj1 Hch') as Hin. apply list_elem_of_fmap in Hin as ([k0 v] & -> & Hin).
  exists k0, v. cbn. split; [by apply fold_insert_lookup|]. done.
Qed.

Lemma entries_perm {T} (field field' : strmap T) es :
  field' ≡ₚ field -> entries field = Some es ->
  exists es', entries field' = Some es' /\ es' ≡ₚ es.
Proof.
  intros Hperm. revert es. unfold entries.
  induction Hperm as [|[k v] l l' Hp IH|[k v] [k' v'] l|l1 l2 l3 Hp1 IH1 Hp2 IH2]; intros es He.
  - by exists es.
  - cbn in He |- *. destruct (ParseUint k) as [n|]; cbn in *; [|done].
    destruct (mapM _ l') as [es0|]; cbn in *; [|done]. injection He as <-.
    destruct (IH es0 eq_refl) as (es1 & -> & Hp1). exists ((n, v) :: es1).
    split; [done|]. by apply Permutation_cons.
  - cbn in He |- *. destruct (ParseUint k) as [n|], (ParseUint k') as [n'|]; cbn in *; try done.
    destruct (mapM _ l) as [es0|]; cbn in *; [|done]. injection He as <-.
    eexists. split; [done|]. apply perm_swap.
  - destruct (IH2 es He) as (es2 & He2 & Hp2'). destruct (IH1 es2 He2) as (es1 & -> & Hp1').
    exists es1. split; [done|]. by transitivity es2.
Qed.

(** ** Fork order *)

(** A later fork needs every earlier required fork, at the same block or before. *)
Definition forkLe (f g : fork) : Prop :=
  match block g with
  | None => True
  | Some b =>
      match block f with
      | None => optional f = true
      | Some a => a <= b
      end
  end.

Definition kept (f : fork) : Prop := block f = None -> optional f = false.

Lemma forkLe_trans f g h : kept g -> forkLe f g -> forkLe g h -> forkLe f h.
Proof.
  unfold forkLe, kept. intros Hg Hfg Hgh.
  destruct (block h), (block g), (block f); auto; try lia; by rewrite Hg in Hgh.
Qed.

Lemma forkOrder_loop_sorted last l :
  kept last ->
  forkOrder_loop (Some last) l = None <-> StronglySorted forkLe (last :: l).
Proof.
  revert last. induction l as [|cur l IH]; intros last Hl.
  { split; [|done]. repeat constructor. }
  cbn [forkOrder_loop].
  assert (Hnext : forall nxt, nxt = None <-> forkLe last cur ->
    (match nxt with Some e => Some e | None =>
       forkOrder_loop (if negb (optional cur) || bool_decide (is_Some (block cur))
                       then Some cur else Some last) l end = (None : option fork_order_error)
     <-> StronglySorted forkLe (last :: cur :: l))).
  { intros nxt Hn. destruct nxt as [e|].
    - split; [done|]. intros Hs. apply StronglySorted_inv in Hs as [_ Hs].
      apply Forall_cons in Hs as [Hlc _]. by apply Hn.
    - pose proof (proj1 Hn eq_refl) as Hlc.
      destruct (negb (optional cur) || bool_decide (is_Some (block cur))) eqn:Ek.
      + assert (Hc : kept cur).
        { intros Hb. rewrite Hb in Ek. by destruct (optional cur). }
        rewrite (IH cur Hc). split.
        * intros Hs. constructor; [done|]. constructor; [done|].
          apply StronglySorted_inv in Hs as [_ Hs]. eapply Forall_impl; [exact Hs|].
          intros g Hg. by eapply forkLe_trans.
        * intros Hs. by apply StronglySorted_inv in Hs as [Hs _].
      + apply orb_false_iff in Ek as [Ho Hb]. apply negb_false_iff in Ho.
        apply bool_decide_eq_false in Hb. rewrite <- eq_None_not_Some in Hb.
        rewrite (IH last Hl). split; intros Hs; apply StronglySorted_inv in Hs as [Hs Hf].
        * constructor; [|by constructor]. constructor; [done|].
          apply Forall_forall. intros g _. unfold forkLe. rewrite Hb. by destruct (block g).
        * apply StronglySorted_inv in Hs as [Hs _]. apply Forall_cons in Hf as [_ Hf].
          by constructor. }
  apply Hnext. unfold forkLe. destruct (block last) eqn:E1, (block cur) eqn:E2; try done.
  - destruct (Z.ltb_spec z0 z); split; try done; lia.
  - split; [done|]. rewrite (Hl E1). done.
Qed.

Lemma forkOrder_loop_start f l :
  optional f = false ->
  forkOrder_loop None (f :: l) = None <-> StronglySorted forkLe (f :: l).
Proof.
  intros Hf. cbn [forkOrder_loop]. rewrite Hf. cbn [negb orb].
  apply forkOrder_loop_sorted. by intros _.
Qed.

(** ** Rewinding to a compatible block *)

Definition compatGood (p : (option Z -> bool) * ConfigCompatError) : Prop :=
  (forall h h', h' <= h -> p.1 (Some h') = true -> p.1 (Some h) = true) /\
  (forall h, is_u64 h -> p.1 (Some h) = true ->
     0 <= RewindToBlock p.2 <= h /\
     (RewindToBlock p.2 = 0 \/ p.1 (Some (RewindToBlock p.2)) = false)).

Lemma isBlockForked_mono s h h' :
  h' <= h -> isBlockForked s (Some h') = true -> isBlockForked s (Some h) = true.
Proof. destruct s; cbn; [|done]. intros ? H. bool_to_prop. apply Z.leb_le. lia. Qed.

Lemma isForkBlockIncompatible_mono s1 s2 h h' :
  h' <= h -> isForkBlockIncompatible s1 s2 (Some h') = true ->
  isForkBlockIncompatible s1 s2 (Some h) = true.
Proof.
  unfold isForkBlockIncompatible. intros Hh H. apply andb_true_iff in H as [H ->].
  rewrite andb_true_r. apply orb_true_iff in H as [H|H]; apply orb_true_iff;
    [left|right]; by eapply isBlockForked_mono.
Qed.

(** The rewind block of an error is below both schedules. *)
Lemma rewind_spec what s1 s2 h :
  is_u64 h -> isBlockForked s1 (Some h) || isBlockForked s2 (Some h) = true ->
  let r := RewindToBlock (newBlockCompatError what s1 s2) in
  0 <= r <= h /\
  (r = 0 \/ (isBlockForked s1 (Some r) = false /\ isBlockForked s2 (Some r) = false)).
Proof.
  intros Hh Hf r. subst r. unfold newBlockCompatError, RewindToBlock.
  assert (Hu : forall x, 0 < x <= h -> u64 (u64 x - 1) = x - 1).
  { intros x Hx. rewrite (u64_small x) by wsolve. apply u64_small. wsolve. }
  destruct s1 as [a|], s2 as [b|]; cbn [isBlockForked] in *; try done;
    try rewrite orb_true_iff in Hf; try rewrite orb_false_r in Hf; cbn in Hf;
    rewrite ?Z.leb_le in Hf; repeat case_if; bool_to_prop;
    rewrite ?Hu by lia; rewrite ?Z.leb_gt; split; wsolve.
Qed.

Lemma forkCheck_good what s1 s2 : compatGood (forkCheck what s1 s2).
Proof.
  split; cbn [forkCheck fst snd].
  - intros. by eapply isForkBlockIncompatible_mono.
  - intros h Hh Hi. unfold isForkBlockIncompatible in Hi. apply andb_true_iff in Hi as [Hi _].
    destruct (rewind_spec what s1 s2 h Hh Hi) as [Hr [H0|[H1 H2]]]; split; auto.
    right. unfold isForkBlockIncompatible. by rewrite H1, H2.
Qed.

Lemma flagCheck_good what s1 s2 (f : bool) :
  compatGood (fun h => isBlockForked s1 h && f, newBlockCompatError what s1 s2).
Proof.
  split; cbn [fst snd].
  - intros h h' Hh H. apply andb_true_iff in H as [H ->].
    rewrite (isBlockForked_mono _ _ _ Hh H). done.
  - intros h Hh H. apply andb_true_iff in H as [H ->].
    destruct (rewind_spec what s1 s2 h Hh) as [Hr [H0|[H1 H2]]]; [by rewrite H|split; auto..].
    right. by rewrite H1.
Qed.

Lemma petersburg_good what s1 s2 s3 :
  compatGood (fun h => isForkBlockIncompatible s1 s2 h && isForkBlockIncompatible s3 s2 h,
              newBlockCompatError what s1 s2).
Proof.
  destruct (forkCheck_good what s1 s2) as [Hm Hr]. split; cbn [fst snd forkCheck] in *.
  - intros h h' Hh H. apply andb_true_iff in H as [H1 H2].
    by rewrite (Hm h h' Hh H1), (isForkBlockIncompatible_mono _ _ h h' Hh H2).
  - intros h Hh H. apply andb_true_iff in H as [H1 _].
    destruct (Hr h Hh H1) as [? [?|Hf]]; split; auto. right. by rewrite Hf.
Qed.

Lemma compatChecks_good c newcfg : Forall compatGood (compatChecks c newcfg).
Proof.
  unfold compatChecks, IsDAOFork, IsEIP158.
  repeat (constructor; [first [apply forkCheck_good|apply flagCheck_good|apply petersburg_good]|]).
  constructor.
Qed.

(** How many checks fail at a head. *)
Definition failing (l : list ((option Z -> bool) * ConfigCompatError)) (h : Z) : nat :=
  length (filter (fun p => p.1 (Some h) = true) l).

Lemma failing_cons p l h :
  failing (p :: l) h = ((if p.1 (Some h) then 1 else 0) + failing l h)%nat.
Proof. unfold failing. rewrite filter_cons. destruct (p.1 (Some h)); case_decide; done. Qed.

Lemma failing_mono l h h' :
  Forall compatGood l -> h' <= h -> (failing l h' <= failing l h)%nat.
Proof.
  intros Hl Hh. induction Hl as [|p l Hp _ IH]; [done|]. rewrite !failing_cons.
  destruct (p.1 (Some h')) eqn:E; [|lia].
  rewrite (proj1 Hp h h' Hh E). lia.
Qed.

Lemma firstError_rewind l h err :
  Forall compatGood l -> is_u64 h ->
  firstError (map (fun '(cond, e) => (cond (Some h), e)) l) = Some err ->
  0 <= RewindToBlock err <= h /\
  (RewindToBlock err = 0 \/ (failing l (RewindToBlock err) < failing l h)%nat).
Proof.
  intros Hl Hh. induction Hl as [|p l Hp Hl IH]; [done|]. destruct p as [cond e]. cbn [map firstError].
  rewrite !failing_cons. cbn [fst]. destruct (cond (Some h)) eqn:E.
  - intros [= <-]. destruct (proj2 Hp h Hh E) as [Hr Hd]. cbn in Hr, Hd. split; [done|].
    destruct Hd as [?|Hd]; [by left|right]. rewrite Hd.
    pose proof (failing_mono l h (RewindToBlock e) Hl ltac:(lia)). lia.
  - intros He. destruct (IH He) as [Hr Hd]. split; [done|]. destruct Hd as [?|Hd]; [by left|right].
    destruct (cond (Some (RewindToBlock err))) eqn:E'; [|lia].
    pose proof (proj1 Hp h _ (proj2 Hr) E'). cbn in *. congruence.
Qed.

Lemma checkCompatible_loop_S fuel c newcfg bhead lasterr :
  checkCompatible_loop (S fuel) c newcfg bhead lasterr =
  match checkCompatible c newcfg (Some bhead) with
  | None => Some lasterr
  | Some err =>
      if match lasterr with
         | Some l => RewindToBlock err =? RewindToBlock l
         | None => false
         end
      then Some lasterr
      else checkCompatible_loop fuel c newcfg (RewindToBlock err) (Some err)
  end.
Proof. done. Qed.

(** The state of the loop: the head is the block of the last error. *)
Definition rewound (c newcfg : ChainConfig) (e : ConfigCompatError) : Prop :=
  checkCompatible c newcfg (Some (RewindToBlock e)) = None \/ RewindToBlock e = 0.

Lemma loop_result c newcfg fuel bhead e0 :
  is_u64 bhead -> bhead = RewindToBlock e0 ->
  (failing (compatChecks c newcfg) bhead + 1 < fuel)%nat ->
  exists e, checkCompatible_loop fuel c newcfg bhead (Some e0) = Some (Some e) /\
            rewound c newcfg e /\ 0 <= RewindToBlock e <= bhead.
Proof.
  revert bhead e0. induction fuel as [|fuel IH]; intros bhead e0 Hb E0 Hfuel; [lia|].
  rewrite checkCompatible_loop_S. destruct (checkCompatible c newcfg (Some bhead)) as [err|] eqn:E.
  2:{ exists e0. split; [done|]. split; [left; by rewrite <- E0|wsolve]. }
  destruct (firstError_rewind _ bhead err (compatChecks_good c newcfg) Hb E) as [Hr Hd].
  destruct (Z.eqb_spec (RewindToBlock err) (RewindToBlock e0)) as [Heq|Hneq].
  - exists e0. split; [done|]. split; [|wsolve]. right.
    destruct Hd as [?|Hd]; [lia|]. rewrite Heq, <- E0 in Hd. lia.
  - destruct Hd as [H0|Hd].
    + destruct fuel as [|fuel]; [lia|].
      rewrite checkCompatible_loop_S.
      destruct (checkCompatible c newcfg (Some (RewindToBlock err))) as [err'|] eqn:E'.
      * destruct (firstError_rewind _ (RewindToBlock err) err' (compatChecks_good c newcfg)
          ltac:(wsolve) E') as [Hr' _].
        rewrite (proj2 (Z.eqb_eq _ _)) by lia. exists err. split; [done|]. split; [by right|lia].
      * exists err. split; [done|]. split; [by left|lia].
    + destruct (IH (RewindToBlock err) err) as (e & -> & He & Hle); [wsolve|done|lia|].
      exists e. split; [done|]. split; [done|]. lia.
Qed.

Lemma failing_bound c newcfg h : (failing (compatChecks c newcfg) h <= 22)%nat.
Proof. unfold failing. etransitivity; [apply length_filter|]. done. Qed.

Lemma checkCompatible_mono c newcfg h h' :
  h' <= h -> checkCompatible c newcfg (Some h) = None -> checkCompatible c newcfg (Some h') = None.
Proof.
  unfold checkCompatible. pose proof (compatChecks_good c newcfg) as Hl. intros Hh.
  induction Hl as [|[cond e] l Hp _ IH]; [done|]. cbn [map firstError].
  destruct (cond (Some h)) eqn:E; [done|]. destruct (cond (Some h')) eqn:E'; [|exact IH].
  pose proof (proj1 Hp h h' Hh E'). cbn in *. congruence.
Qed.

(** ** Concrete configurations, used by the witnesses *)

Definition demoBor : BorConfig :=
  mkBorConfig [("0", 2)] [("0", 6); ("100", 4)] [("0", 64); ("100", 16)] [("0", 2)]
    ∅ [] [] [("0", "0x1111")] None [] None None None None None None None
    (Some 0) (Some 0) (Some 0) [("0", 128)] (Some 0) (Some 0) None None None
    (Some 200) (Some 300) None None None None None None.

Definition demoChain (london : Z) : ChainConfig :=
  mkChainConfig (Some 137) (Some 0) None false (Some 0) (Some 0) (Some 0) (Some 0) (Some 0)
    (Some 0) (Some 0) (Some 0) (Some 0) (Some london) None None None (Some london) None None
    None None (Some demoBor) None.

(** ** Properties *)

(** A block-indexed parameter is a step function: with numeric, distinct keys
    the value at block [number] is that of the greatest key not above it, and a
    number below every key gets the value of the greatest key. *)
Theorem borKeyValueConfigHelper_floor {T} (field : strmap T) es number :
  entries field = Some es -> NoDup es.*1 -> es <> [] ->
  exists k v, borKeyValueConfigHelper field number = Some v /\ (k, v) ∈ es /\
    ((k <= number /\ forall k', k' ∈ es.*1 -> k' <= number -> k' <= k) \/
     ((forall k', k' ∈ es.*1 -> number < k') /\ forall k', k' ∈ es.*1 -> k' <= k)).
Proof.
  intros He Hnd Hne.
  destruct (helper_chosen field es number (conj He (conj Hnd Hne))) as (k & v & ? & ? & _ & ?).
  by exists k, v.
Qed.

Lemma borKeyValueConfigHelper_floor_witness :
  exists v, borKeyValueConfigHelper [("38189056", 16); ("0", 64)] 1000 = Some v /\ v = 64.
Proof.
  destruct (borKeyValueConfigHelper_floor [("38189056", 16); ("0", 64)]
              [(38189056, 16); (0, 64)] 1000) as (k & v & E & Hin & Hk).
  - reflexivity.
  - repeat constructor; cbn; set_solver.
  - discriminate.
  - exists v. split; [exact E|]. vm_compute in E. congruence.
Defined.

(** The value of a block-indexed parameter does not depend on the order in
    which Go iterates over the map. *)
Theorem borKeyValueConfigHelper_order {T} (field field' : strmap T) es number :
  goodField field es -> field' ≡ₚ field ->
  borKeyValueConfigHelper field' number = borKeyValueConfigHelper field number.
Proof.
  intros Hg Hperm. pose proof Hg as (He & Hnd & Hne).
  destruct (entries_perm _ _ _ Hperm He) as (es' & He' & Hpe).
  assert (Hg' : goodField field' es').
  { split; [done|]. split; [by rewrite Hpe|]. intros ->. by apply Permutation_nil_l in Hpe. }
  destruct (helper_chosen _ _ number Hg) as (k & v & -> & Hin & Hch).
  destruct (helper_chosen _ _ number Hg') as (k' & v' & -> & Hin' & Hch').
  rewrite Hpe in Hin'. assert (k = k').
  { eapply (isChosen_unique es.*1 number); [done|]. destruct Hch' as [Hk' Hc'].
    split; [by rewrite <- Hpe|]. destruct Hc' as [[? Hm]|[Hab Hm]]; [left|right]; split; auto;
      intros x; rewrite <- Hpe; auto. }
  subst k'. f_equal. eapply (f_equal snd (x := (k, v')) (y := (k, v))).
  assert (Hf : forall l : list (Z * T), NoDup l.*1 -> forall v1 v2, (k, v1) ∈ l -> (k, v2) ∈ l -> v1 = v2).
  { intros l Hl v1 v2 H1 H2. pose proof (fold_insert_lookup l ∅ k v1 Hl H1).
    pose proof (fold_insert_lookup l ∅ k v2 Hl H2). congruence. }
  by rewrite (Hf es Hnd v' v).
Qed.

Lemma borKeyValueConfigHelper_order_witness :
  borKeyValueConfigHelper [("0", 64); ("100", 16)] 150 =
  borKeyValueConfigHelper [("100", 16); ("0", 64)] 150.
Proof.
  apply (borKeyValueConfigHelper_order [("100", 16); ("0", 64)] _ [(100, 16); (0, 64)]).
  - split; [reflexivity|]. split; [repeat constructor; cbn; set_solver|discriminate].
  - apply perm_swap.
Defined.

(** [CheckConfigForkOrder] accepts exactly the configurations in which every
    later fork has all the earlier required forks enabled, none of them at a
    later block, and whose blob parameters are valid. *)
Theorem CheckConfigForkOrder_iff c :
  CheckConfigForkOrder c = None <->
  StronglySorted forkLe (forkList c) /\
  (forall bsc, BlobSchedule c = Some bsc ->
     blobInvalid (blobCancun bsc) = false /\ blobInvalid (blobPrague bsc) = false /\
     blobInvalid (blobOsaka bsc) = false).
Proof.
  unfold CheckConfigForkOrder.
  assert (Hs : forkOrder_loop None (forkList c) = None <-> StronglySorted forkLe (forkList c)).
  { by apply forkOrder_loop_start. }
  destruct (forkOrder_loop None (forkList c)) as [e|].
  { split; [done|]. intros [H _]. apply Hs in H. done. }
  destruct (BlobSchedule c) as [bsc|]; cbn.
  - destruct (blobInvalid (blobCancun bsc)) eqn:E1, (blobInvalid (blobPrague bsc)) eqn:E2,
      (blobInvalid (blobOsaka bsc)) eqn:E3; split; try done; try (by intros [_ H]; destruct (H bsc eq_refl) as (? & ? & ?); congruence).
    intros _. split; [by apply Hs|]. intros b [= <-]. done.
  - split; [|done]. intros _. split; [by apply Hs|]. done.
Qed.

(** The rewind loop of [CheckCompatible] ends within its fuel, and returns
    nothing exactly when the two schedules agree on the past of the head;
    otherwise rewinding to the block of the error, or below it, leaves no
    conflict, unless that block is the genesis. *)
Theorem CheckCompatible_rewinds c newcfg height :
  is_u64 height ->
  exists r, CheckCompatible c newcfg height = Some r /\
    match r with
    | None => checkCompatible c newcfg (Some height) = None
    | Some e =>
        checkCompatible c newcfg (Some height) <> None /\
        0 <= RewindToBlock e <= height /\
        (RewindToBlock e = 0 \/
         forall h, h <= RewindToBlock e -> checkCompatible c newcfg (Some h) = None)
    end.
Proof.
  intros Hh. unfold CheckCompatible, compatFuel. rewrite checkCompatible_loop_S.
  destruct (checkCompatible c newcfg (Some height)) as [err|] eqn:E; [|by exists None].
  destruct (firstError_rewind _ height err (compatChecks_good c newcfg) Hh E) as [Hr _].
  destruct (loop_result c newcfg 24 (RewindToBlock err) err) as (e & -> & He & Hle);
    [wsolve|done|pose proof (failing_bound c newcfg (RewindToBlock err)); lia|].
  exists (Some e). split; [done|]. split; [done|]. split; [lia|].
  destruct He as [He|He]; [right|by left]. intros h Hle'. by eapply checkCompatible_mono.
Qed.

Lemma CheckCompatible_rewinds_witness :
  exists e, CheckCompatible (demoChain 100) (demoChain 90) 200 = Some (Some e) /\
            RewindToBlock e = 89 /\ checkCompatible (demoChain 100) (demoChain 90) (Some 89) = None.
Proof.
  destruct (CheckCompatible_rewinds (demoChain 100) (demoChain 90) 200) as (r & E & Hr).
  - wsolve.
  - vm_compute in E. destruct r as [e|]; [|discriminate].
    exists e. split; [vm_compute; exact E|]. injection E as <-. split; [reflexivity|].
    destruct Hr as (_ & _ & [H0|Hr]); [discriminate H0|]. apply Hr. cbn. lia.
Defined.

End ConfigProps.
