(* ===== verification/Rlp.v ===== *)
(** * RLP (rlp/encode.go, rlp/encbuffer.go, rlp/decode.go, rlp/raw.go)

    The encoder buffer with its deferred list headers, the decoding stream with
    its stack of list limits, and the slice-splitting functions.  Reflection is
    replaced by one combinator per kind of Go type. *)

From S2P Require Import Prelude Bytes.

Module Rlp.
Import Bytes.

(** ** Encoding *)

(** [intsize]: [bits.Len64(i)] is [log2 i + 1]. *)
Definition intsize (i : Z) : Z :=
  if i =? 0 then 1 else (Z.log2 i + 1 + 7) / 8.

Definition headsize (size : Z) : Z := if size <? 56 then 1 else 1 + intsize size.

(** The number of bytes the cases of [putint] write. *)
Definition putintSize (i : Z) : nat :=
  if i <? 2 ^ 8 then 1
  else if i <? 2 ^ 16 then 2
  else if i <? 2 ^ 24 then 3
  else if i <? 2 ^ 32 then 4
  else if i <? 2 ^ 40 then 5
  else if i <? 2 ^ 48 then 6
  else if i <? 2 ^ 56 then 7
  else 8.

Definition putint (i : Z) : list Z := be_bytes (putintSize i) i.

Definition puthead (smalltag largetag size : Z) : list Z :=
  if size <? 56 then [smalltag + size]
  else (largetag + Z.of_nat (putintSize size)) :: putint size.

Record listhead := mkListhead {
  offset : nat;
  lhSize : Z
}.

Record encBuffer := mkEncBuffer {
  str : list Z;
  lheads : list listhead;
  lhsize : Z
}.

Definition emptyBuffer : encBuffer := mkEncBuffer [] [] 0.

Definition writer : Type := encBuffer -> encBuffer.

Definition append (b : list Z) : writer :=
  fun buf => mkEncBuffer (str buf ++ b) (lheads buf) (lhsize buf).

Definition bufSize (buf : encBuffer) : Z := Z.of_nat (length (str buf)) + lhsize buf.

Definition writeUint64 (i : Z) : writer :=
  if i =? 0 then append [128]
  else if i <? 128 then append [i]
  else append ((128 + Z.of_nat (putintSize i)) :: putint i).

Definition encodeStringHeader (size : Z) : writer := append (puthead 128 183 size).

Definition writeBytes (b : list Z) : writer :=
  match b with
  | [x] => if x <=? 127 then append [x]
           else fun buf => append b (encodeStringHeader 1 buf)
  | _ => fun buf => append b (encodeStringHeader (Z.of_nat (length b)) buf)
  end.

(** [list] stores the size of the headers so far in the new header; [listEnd]
    replaces it by the size of the list. *)
Definition openList : encBuffer -> nat * encBuffer :=
  fun buf => (length (lheads buf),
              mkEncBuffer (str buf) (lheads buf ++ [mkListhead (length (str buf)) (lhsize buf)])
                          (lhsize buf)).

Definition listEnd (index : nat) : writer :=
  fun buf =>
    match lheads buf !! index with
    | None => buf
    | Some lh =>
        let sz := bufSize buf - Z.of_nat (offset lh) - lhSize lh in
        mkEncBuffer (str buf) (<[index := mkListhead (offset lh) sz]> (lheads buf))
          (if sz <? 56 then lhsize buf + 1 else lhsize buf + (1 + intsize sz))
    end.

Definition inList (content : writer) : writer :=
  fun buf => let '(lh, buf1) := openList buf in listEnd lh (content buf1).

Definition writeAll {A} (w : A -> writer) (l : list A) : writer :=
  fun buf => fold_left (fun buf x => w x buf) l buf.

(** The writer of a slice type. *)
Definition writeSlice {A} (w : A -> writer) (l : list A) : writer :=
  match l with
  | [] => append [192]
  | _ => inList (writeAll w l)
  end.

(** The writer of a [*uint64]: nil is the empty string. *)
Definition writeUintPtr (p : option Z) : writer :=
  match p with
  | Some i => writeUint64 i
  | None => append [128]
  end.

(** The writer of a struct: optional fields that are zero at the end are left
    out.  A field is its writer and whether its value is zero. *)
Fixpoint lastPresent (optionals : list (writer * bool)) : list writer :=
  match optionals with
  | [] => []
  | (w, isZero) :: l =>
      match lastPresent l with
      | [] => if isZero then [] else [w]
      | ws => w :: ws
      end
  end.

Definition writeStruct (required : list writer) (optionals : list (writer * bool)) : writer :=
  inList (writeAll id (required ++ lastPresent optionals)).

(** [copyTo]: the string data up to each header's offset, then the header. *)
Fixpoint copyTo_loop (s : list Z) (strpos : nat) (heads : list listhead) : list Z :=
  match heads with
  | [] => drop strpos s
  | h :: heads' =>
      take (offset h - strpos) (drop strpos s) ++ puthead 192 247 (lhSize h)
      ++ copyTo_loop s (Nat.max strpos (offset h)) heads'
  end.

Definition copyTo (buf : encBuffer) : list Z := copyTo_loop (str buf) 0 (lheads buf).

(** The output slice has [bufSize] bytes. *)
Definition makeBytes (buf : encBuffer) : list Z :=
  let n := Z.to_nat (bufSize buf) in
  take n (copyTo buf) ++ replicate (n - length (copyTo buf)) 0.

Definition EncodeToBytes (w : writer) : list Z := makeBytes (w emptyBuffer).

(** [AppendUint64] to an empty slice. *)
Definition AppendUint64 (i : Z) : list Z :=
  if i =? 0 then [128]
  else if i <? 128 then [i]
  else (128 + Z.of_nat (putintSize i)) :: putint i.

(** ** Decoding a stream *)

Inductive Kind := KByte | KString | KList.

Inductive rlp_error :=
| EOL
| ErrCanonInt
| ErrCanonSize
| ErrElemTooLarge
| ErrValueTooLarge
| ErrExpectedString
| ErrExpectedList
| ErrMoreThanOneValue
| errNotInList
| errNotAtEOL
| errUintOverflow
| ErrUnexpectedEOF
| ErrEOF
| TooFewElements
| DecodeError (inner : rlp_error).

#[export] Instance Kind_eq_dec : EqDecision Kind.
Proof. solve_decision. Defined.

#[export] Instance rlp_error_eq_dec : EqDecision rlp_error.
Proof. solve_decision. Defined.

(** The reader is the rest of the input slice; the innermost list comes first in
    the stack; no kind is the re-armed [-1]. *)
Record Stream := mkStream {
  r : list Z;
  remaining : Z;
  size : Z;
  kinderr : option rlp_error;
  stack : list Z;
  kind : option Kind;
  byteval : Z;
  limited : bool
}.

Definition setR (x : list Z) (s : Stream) : Stream :=
  mkStream x (remaining s) (size s) (kinderr s) (stack s) (kind s) (byteval s) (limited s).
Definition setRemaining (x : Z) (s : Stream) : Stream :=
  mkStream (r s) x (size s) (kinderr s) (stack s) (kind s) (byteval s) (limited s).
Definition setAhead (k : option Kind) (sz : Z) (e : option rlp_error) (s : Stream) : Stream :=
  mkStream (r s) (remaining s) sz e (stack s) k (byteval s) (limited s).
Definition setStack (x : list Z) (s : Stream) : Stream :=
  mkStream (r s) (remaining s) (size s) (kinderr s) x (kind s) (byteval s) (limited s).
Definition setByteval (x : Z) (s : Stream) : Stream :=
  mkStream (r s) (remaining s) (size s) (kinderr s) (stack s) (kind s) x (limited s).

(** [s.kind = -1]. *)
Definition rearm (s : Stream) : Stream := setAhead None (size s) (kinderr s) s.

(** [Reset] on a slice reader: an explicit limit of zero is no limit. *)
Definition Reset (b : list Z) (inputLimit : Z) : Stream :=
  mkStream b (if 0 <? inputLimit then inputLimit else 0) 0 None [] None 0 (0 <? inputLimit).

Definition listLimit (s : Stream) : bool * Z :=
  match stack s with
  | [] => (false, 0)
  | l :: _ => (true, l)
  end.

Abbreviation dec := (st Stream rlp_error).

Definition willRead (n : Z) : dec unit :=
  modify rearm;;
  s ← getS;
  (match stack s with
   | l :: outer => if l <? n then failS ErrElemTooLarge
                   else modify (setStack (l - n :: outer))
   | [] => mret tt
   end);;
  s ← getS;
  if limited s then
    if remaining s <? n then failS ErrValueTooLarge
    else modify (setRemaining (remaining s - n))
  else mret tt.

Definition readByte : dec Z :=
  willRead 1;;
  s ← getS;
  match r s with
  | [] => failS ErrUnexpectedEOF
  | b :: r' => modify (setR r');; mret b
  end.

Definition readFull (n : nat) : dec (list Z) :=
  willRead (Z.of_nat n);;
  s ← getS;
  if (length (r s) <? n)%nat then modify (setR []);; failS ErrUnexpectedEOF
  else modify (setR (drop n (r s)));; mret (take n (r s)).

Definition readUint (sz : Z) : dec Z :=
  if sz =? 0 then modify rearm;; mret 0
  else if sz =? 1 then readByte
  else
    buffer ← readFull (Z.to_nat sz);
    match buffer with
    | 0 :: _ => failS ErrCanonSize
    | _ => mret (SetBytes buffer)
    end.

(** The kind, the size and the error, all three returned to [Kind]. *)
Definition readKind (s : Stream) : Stream * (Kind * Z * option rlp_error) :=
  match readByte s with
  | Done s1 b =>
      let s2 := setByteval 0 s1 in
      let long k tag :=
        match readUint (b - tag) s2 with
        | Done s3 sz => (s3, (k, sz, if sz <? 56 then Some ErrCanonSize else None))
        | Fail s3 e => (s3, (k, 0, Some e))
        | Panicked _ => (s2, (k, 0, Some ErrEOF))
        end in
      if b <? 128 then (setByteval b s1, (KByte, 0, None))
      else if b <? 184 then (s2, (KString, b - 128, None))
      else if b <? 192 then long KString 183
      else if b <? 248 then (s2, (KList, b - 192, None))
      else long KList 247
  | Fail s1 e =>
      let e' := match stack s1, e with
                | [], ErrUnexpectedEOF | [], ErrValueTooLarge => ErrEOF
                | _, _ => e
                end in
      (s1, (KByte, 0, Some e'))
  | Panicked _ => (s, (KByte, 0, Some ErrEOF))
  end.

(** [Stream.Kind]: the kind and size of the next value, cached until it is read.
    The list limit is the one before the tag is read. *)
Definition KindOf : dec (Kind * Z) :=
  fun s =>
    match kind s with
    | Some k =>
        match kinderr s with
        | None => Done s (k, size s)
        | Some e => Fail s e
        end
    | None =>
        let '(inList, limit) := listLimit s in
        if inList && (limit =? 0) then Fail s EOL
        else
          let '(s', (k, sz, err)) := readKind s in
          let err' :=
            match err with
            | Some e => Some e
            | None =>
                if inList && (limit <? sz) then Some ErrElemTooLarge
                else if limited s' && (remaining s' <? sz) then Some ErrValueTooLarge
                else None
            end in
          let s'' := setAhead (Some k) sz err' s' in
          match err' with
          | None => Done s'' (k, sz)
          | Some e => Fail s'' e
          end
    end.

(** [Stream.Bytes]. *)
Definition Bytes : dec (list Z) :=
  '(k, sz) ← KindOf;
  match k with
  | KByte => s ← getS; modify rearm;; mret [byteval s]
  | KString =>
      b ← readFull (Z.to_nat sz);
      match b with
      | [x] => if x <? 128 then failS ErrCanonSize else mret b
      | _ => mret b
      end
  | KList => failS ErrExpectedString
  end.

(** [Stream.Raw]: the header is written again in front of the content. *)
Definition Raw : dec (list Z) :=
  '(k, sz) ← KindOf;
  match k with
  | KByte => s ← getS; modify rearm;; mret [byteval s]
  | KString => b ← readFull (Z.to_nat sz); mret (puthead 128 183 sz ++ b)
  | KList => b ← readFull (Z.to_nat sz); mret (puthead 192 247 sz ++ b)
  end.

(** [Stream.uint]. *)
Definition uint (maxbits : Z) : dec Z :=
  '(k, sz) ← KindOf;
  match k with
  | KByte =>
      s ← getS;
      if byteval s =? 0 then failS ErrCanonInt else modify rearm;; mret (byteval s)
  | KString =>
      if maxbits / 8 <? sz then failS errUintOverflow
      else
        v ← (fun s => match readUint sz s with
                      | Fail s' ErrCanonSize => Fail s' ErrCanonInt
                      | o => o
                      end);
        if (0 <? sz) && (v <? 128) then failS ErrCanonSize else mret v
  | KList => failS ErrExpectedString
  end.

(** [Stream.List]: the inner size is taken off the enclosing list. *)
Definition ListStart : dec Z :=
  '(k, sz) ← KindOf;
  match k with
  | KList =>
      modify (fun s => setStack (match stack s with
                                 | l :: outer => sz :: u64 (l - sz) :: outer
                                 | [] => [sz]
                                 end) s);;
      modify (fun s => setAhead None 0 (kinderr s) s);;
      mret sz
  | _ => failS ErrExpectedList
  end.

Definition ListEnd : dec unit :=
  s ← getS;
  match stack s with
  | [] => failS errNotInList
  | l :: outer =>
      if 0 <? l then failS errNotAtEOL
      else modify (setStack outer);; modify (fun s => setAhead None 0 (kinderr s) s)
  end.

(** ** Decoders of Go types *)

Definition wrapError (e : rlp_error) : rlp_error :=
  match e with
  | ErrCanonInt | ErrCanonSize | ErrExpectedList | ErrExpectedString
  | errUintOverflow | errNotAtEOL => DecodeError e
  | _ => e
  end.

Definition wrapStreamError {A} (m : dec A) : dec A :=
  fun s => match m s with
           | Fail s' e => Fail s' (wrapError e)
           | o => o
           end.

Definition decodeUint : dec Z := wrapStreamError (uint 64).
Definition decodeByteSlice : dec (list Z) := wrapStreamError Bytes.
Definition decodeRawValue : dec (list Z) := Raw.

(** Elements until the end of the list; the fuel is a bound on their number. *)
Fixpoint decodeSliceElems {A} (fuel : nat) (elemdec : dec A) (acc : list A) : dec (list A) :=
  match fuel with
  | O => panic "out of fuel"
  | S fuel' =>
      fun s =>
        match elemdec s with
        | Done s' a => decodeSliceElems fuel' elemdec (acc ++ [a]) s'
        | Fail s' EOL => Done s' acc
        | Fail s' e => Fail s' e
        | Panicked w => Panicked w
        end
  end.

(** An element takes at least one byte of the input. *)
Definition decodeListSlice {A} (elemdec : dec A) : dec (list A) :=
  sz ← wrapStreamError ListStart;
  if sz =? 0 then ListEnd;; mret []
  else
    s ← getS;
    l ← decodeSliceElems (S (length (r s))) elemdec [];
    ListEnd;;
    mret l.

(** A required field of a struct: the end of the list is an error. *)
Definition required {A} (m : dec A) : dec A :=
  fun s => match m s with
           | Fail s' EOL => Fail s' TooFewElements
           | o => o
           end.

(** An optional pointer field: at the end of the list it and the later fields
    are nil. *)
Definition optionalField {A} (m : dec A) : dec (option A) :=
  fun s => match m s with
           | Done s' a => Done s' (Some a)
           | Fail s' EOL => Done s' None
           | Fail s' e => Fail s' e
           | Panicked w => Panicked w
           end.

(** [DecodeBytes]: exactly one value and nothing after it. *)
Definition DecodeBytes {A} (m : dec A) (b : list Z) : rlp_error + A :=
  match m (Reset b (Z.of_nat (length b))) with
  | Done s a => match r s with [] => inr a | _ => inl ErrMoreThanOneValue end
  | Fail _ e => inl e
  | Panicked _ => inl ErrEOF
  end.

(** ** Splitting slices (raw.go) *)

Definition readSize (b : list Z) (slen : Z) : rlp_error + Z :=
  if Z.of_nat (length b) <? slen then inl ErrUnexpectedEOF
  else
    let s := SetBytes (take (Z.to_nat slen) b) in
    match b with
    | b0 :: _ => if (s <? 56) || (b0 =? 0) then inl ErrCanonSize else inr s
    | [] => inl ErrUnexpectedEOF
    end.

Definition rawKind (buf : list Z) : rlp_error + (Kind * Z * Z) :=
  match buf with
  | [] => inl ErrUnexpectedEOF
  | b :: rest =>
      let long k tag :=
        match readSize rest (b - tag) with
        | inl e => inl e
        | inr cs => inr (k, b - tag + 1, cs)
        end in
      let result :=
        if b <? 128 then inr (KByte, 0, 1)
        else if b <? 184 then
          match rest with
          | b1 :: _ => if (b - 128 =? 1) && (b1 <? 128) then inl ErrCanonSize
                       else inr (KString, 1, b - 128)
          | [] => inr (KString, 1, b - 128)
          end
        else if b <? 192 then long KString 183
        else if b <? 248 then inr (KList, 1, b - 192)
        else long KList 247 in
      match result with
      | inl e => inl e
      | inr (k, ts, cs) =>
          if u64 (Z.of_nat (length buf) - ts) <? cs then inl ErrValueTooLarge
          else inr (k, ts, cs)
      end
  end.

(** The kind, the content and the rest; out-of-range slicing is excluded by
    [rawKind] (see [Split_canonical]). *)
Definition Split (b : list Z) : rlp_error + (Kind * list Z * list Z) :=
  match rawKind b with
  | inl e => inl e
  | inr (k, ts, cs) =>
      inr (k, take (Z.to_nat cs) (drop (Z.to_nat ts) b), drop (Z.to_nat (ts + cs)) b)
  end.

Definition SplitString (b : list Z) : rlp_error + (list Z * list Z) :=
  match Split b with
  | inl e => inl e
  | inr (k, content, rest) =>
      match k with KList => inl ErrExpectedString | _ => inr (content, rest) end
  end.

Definition SplitList (b : list Z) : rlp_error + (list Z * list Z) :=
  match Split b with
  | inl e => inl e
  | inr (k, content, rest) =>
      match k with KList => inr (content, rest) | _ => inl ErrExpectedList end
  end.

Definition SplitUint64 (b : list Z) : rlp_error + (Z * list Z) :=
  match SplitString b with
  | inl e => inl e
  | inr (content, rest) =>
      match content with
      | [] => inr (0, rest)
      | [x] => if x =? 0 then inl ErrCanonInt else inr (x, rest)
      | _ =>
          if (8 <? length content)%nat then inl errUintOverflow
          else match readSize content (Z.of_nat (length content)) with
               | inl _ => inl ErrCanonInt
               | inr x => inr (x, rest)
               end
      end
  end.

(** Every value takes at least one byte, so the length is enough fuel. *)
Fixpoint countValues_loop (fuel : nat) (b : list Z) (i : nat) : rlp_error + nat :=
  match b, fuel with
  | [], _ => inr i
  | _, O => inl ErrEOF
  | _, S fuel' =>
      match rawKind b with
      | inl e => inl e
      | inr (_, tagsize, sz) => countValues_loop fuel' (drop (Z.to_nat (tagsize + sz)) b) (S i)
      end
  end.

Definition CountValues (b : list Z) : rlp_error + nat := countValues_loop (length b) b 0.

End Rlp.
