(* ===== verification/RlpEncode.v ===== *)
(** * The RLP encoder buffer against the plain encoding

    [encBuffer] keeps string data and list headers apart and computes the sizes
    of the headers when lists end.  Its output is the plain recursive encoding. *)

From S2P Require Import Prelude Bytes Rlp.

Module RlpEncode.
Import Bytes Rlp.

(** ** The plain encoding *)

Definition encString (b : list Z) : list Z :=
  match b with
  | [x] => if x <=? 127 then [x] else 129 :: [x]
  | _ => puthead 128 183 (Z.of_nat (length b)) ++ b
  end.

Definition encList (content : list Z) : list Z :=
  puthead 192 247 (Z.of_nat (length content)) ++ content.

Definition encUint (i : Z) : list Z := AppendUint64 i.

(** ** Header sizes *)

Lemma putintSize_intsize i : 0 < i < 2 ^ 64 -> Z.of_nat (putintSize i) = intsize i.
Proof.
  intros Hi. unfold putintSize, intsize. rewrite (proj2 (Z.eqb_neq i 0)) by lia.
  assert (Hlog : forall k, 0 < k -> 2 ^ (k - 1) <= i < 2 ^ k -> Z.log2 i = k - 1).
  { intros k Hk H. apply Z.log2_unique; [lia|]. replace (Z.succ (k - 1)) with k by lia. lia. }
  assert (Hb : forall n : nat, (1 <= n)%nat -> 256 ^ (Z.of_nat n - 1) <= i < 256 ^ Z.of_nat n ->
            Z.of_nat n = (Z.log2 i + 1 + 7) / 8).
  { intros n Hn H. change 256 with (2 ^ 8) in H. rewrite <- !Z.pow_mul_r in H by lia.
    assert (8 * (Z.of_nat n - 1) <= Z.log2 i) by (apply Z.log2_le_pow2; lia).
    assert (Z.log2 i < 8 * Z.of_nat n) by (apply Z.log2_lt_pow2; lia).
    apply Z.div_unique with (r := Z.log2 i + 8 - 8 * Z.of_nat n); lia. }
  repeat case_if; bool_to_prop; apply Hb; cbn; lia.
Qed.

Lemma length_puthead st lt n :
  0 <= n < 2 ^ 64 -> Z.of_nat (length (puthead st lt n)) = headsize n.
Proof.
  intros Hn. unfold puthead, headsize. destruct (Z.ltb_spec n 56); [done|].
  cbn [length]. unfold putint. rewrite length_be_bytes, Nat2Z.inj_succ.
  rewrite putintSize_intsize by lia. lia.
Qed.

(** ** Rendering a buffer *)

Definition shiftHead (n : nat) (h : listhead) : listhead := mkListhead (n + offset h) (lhSize h).

(** The offsets of the headers are in order and inside the string data. *)
Fixpoint headsFit (lo : nat) (len : nat) (hs : list listhead) : Prop :=
  match hs with
  | [] => (lo <= len)%nat
  | h :: hs' => (lo <= offset h)%nat /\ headsFit (offset h) len hs'
  end.

Lemma headsFit_le lo len hs : headsFit lo len hs -> (lo <= len)%nat.
Proof. revert lo. induction hs as [|h hs IH]; intros lo; cbn; [done|]. intros [? ?%IH]. lia. Qed.

Lemma headsFit_app lo len len' hs hs' :
  headsFit lo len hs -> headsFit 0 len' hs' ->
  headsFit lo (len + len') (hs ++ map (shiftHead len) hs').
Proof.
  intros H H'. revert lo H. induction hs as [|h hs IH]; intros lo H; cbn in *.
  - assert (Hgen : forall k lo, headsFit k len' hs' -> (lo <= len + k)%nat ->
              headsFit lo (len + len') (map (shiftHead len) hs')).
    { clear. induction hs' as [|h hs IH]; intros k lo; cbn.
      - lia.
      - intros [? ?] ?. split; [lia|]. by apply (IH (offset h)). }
    apply (Hgen 0%nat); [done|lia].
  - destruct H as [? H]. split; [done|]. by apply IH.
Qed.

Lemma copyTo_loop_prefix s s' n hs :
  headsFit n (length s) hs ->
  copyTo_loop (s ++ s') n hs = copyTo_loop s n hs ++ s'.
Proof.
  revert n. induction hs as [|h hs IH]; intros n Hf; cbn [copyTo_loop headsFit] in *.
  - by rewrite drop_app_le.
  - destruct Hf as [Hn Hf]. pose proof (headsFit_le _ _ _ Hf).
    rewrite drop_app_le, take_app_le by (rewrite ?length_drop; lia).
    rewrite Nat.max_r by lia. rewrite IH by done. by rewrite <- !app_assoc.
Qed.

Lemma copyTo_loop_shift s s' n hs :
  copyTo_loop (s ++ s') (length s + n) (map (shiftHead (length s)) hs) = copyTo_loop s' n hs.
Proof.
  revert n. induction hs as [|h hs IH]; intros n; cbn [copyTo_loop map].
  - rewrite drop_app_ge by lia. f_equal. lia.
  - cbn [shiftHead offset lhSize]. rewrite drop_app_ge by lia.
    replace (length s + n - length s)%nat with n by lia.
    replace (length s + offset h - (length s + n))%nat with (offset h - n)%nat by lia.
    do 2 f_equal. replace (Nat.max (length s + n) (length s + offset h))
      with (length s + Nat.max n (offset h))%nat by lia. apply IH.
Qed.

Lemma copyTo_loop_skip s n k hs :
  headsFit k (length s) hs -> (n <= k)%nat ->
  copyTo_loop s n hs = take (k - n) (drop n s) ++ copyTo_loop s k hs.
Proof.
  intros Hf Hnk. pose proof (headsFit_le _ _ _ Hf). destruct hs as [|h hs]; cbn [copyTo_loop headsFit] in *.
  - replace (drop k s) with (drop (k - n) (drop n s)) by (rewrite drop_drop; f_equal; lia).
    by rewrite take_drop.
  - destruct Hf as [Hk Hf]. rewrite !Nat.max_r by lia.
    replace (offset h - n)%nat with ((k - n) + (offset h - k))%nat by lia.
    rewrite <- take_take_drop, drop_drop. replace (n + (k - n))%nat with k by lia.
    by rewrite <- app_assoc.
Qed.

Lemma copyTo_loop_app s s' hs hs' n :
  headsFit n (length s) hs -> headsFit 0 (length s') hs' ->
  copyTo_loop (s ++ s') n (hs ++ map (shiftHead (length s)) hs') =
  copyTo_loop s n hs ++ copyTo_loop s' 0 hs'.
Proof.
  intros Hf Hf'. revert n Hf. induction hs as [|h hs IH]; intros n Hf; cbn [app].
  - cbn [headsFit] in Hf.
    assert (Hfit : headsFit (length s) (length (s ++ s')) (map (shiftHead (length s)) hs')).
    { rewrite length_app. apply (headsFit_app (length s) _ _ [] hs'); cbn; [lia|done]. }
    rewrite (copyTo_loop_skip _ n (length s)) by (done || lia).
    rewrite drop_app_le, take_app_le by (rewrite ?length_drop; lia).
    replace (length s - n)%nat with (length (drop n s)) by (rewrite length_drop; lia).
    rewrite take_ge by done. cbn [copyTo_loop]. f_equal.
    rewrite <- (Nat.add_0_r (length s)) at 1. apply copyTo_loop_shift.
  - cbn [copyTo_loop headsFit] in *. destruct Hf as [Hn Hf]. pose proof (headsFit_le _ _ _ Hf).
    rewrite drop_app_le, take_app_le by (rewrite ?length_drop; lia).
    rewrite Nat.max_r by lia. rewrite (IH _ Hf). by rewrite <- !app_assoc.
Qed.

(** ** What a writer writes *)

Definition headsLen (hs : list listhead) : Z :=
  fold_right (fun h acc => headsize (lhSize h) + acc) 0 hs.

Lemma headsLen_app hs hs' : headsLen (hs ++ hs') = headsLen hs + headsLen hs'.
Proof. induction hs as [|h hs IH]; cbn; [done|]. unfold headsLen in *. rewrite IH. lia. Qed.

Lemma headsLen_shift n hs : headsLen (map (shiftHead n) hs) = headsLen hs.
Proof. induction hs as [|h hs IH]; cbn; [done|]. unfold headsLen in *. by rewrite IH. Qed.

(** [w] appends to any buffer string data and headers that render as [out]. *)
Definition Writes (w : writer) (out : list Z) : Prop :=
  exists s hs,
    headsFit 0 (length s) hs /\ copyTo_loop s 0 hs = out /\
    Z.of_nat (length out) = Z.of_nat (length s) + headsLen hs /\
    forall buf, w buf = mkEncBuffer (str buf ++ s)
      (lheads buf ++ map (shiftHead (length (str buf))) hs) (lhsize buf + headsLen hs).

Lemma Writes_append b : Writes (append b) b.
Proof.
  exists b, []. cbn. split_and!; try done; try lia.
  intros buf. unfold append. by rewrite app_nil_r, Z.add_0_r.
Qed.

Lemma Writes_seq w1 w2 o1 o2 :
  Writes w1 o1 -> Writes w2 o2 -> Writes (fun buf => w2 (w1 buf)) (o1 ++ o2).
Proof.
  intros (s1 & h1 & Hf1 & Hc1 & Hl1 & E1) (s2 & h2 & Hf2 & Hc2 & Hl2 & E2).
  exists (s1 ++ s2), (h1 ++ map (shiftHead (length s1)) h2). split_and!.
  - rewrite length_app. by apply headsFit_app.
  - rewrite copyTo_loop_app by done. congruence.
  - rewrite !length_app, headsLen_app, headsLen_shift. lia.
  - intros buf. rewrite E1, E2. cbn [str lheads lhsize]. rewrite <- !app_assoc. f_equal.
    + rewrite map_app. do 2 f_equal. rewrite map_map. apply map_ext. intros h.
      unfold shiftHead. cbn. rewrite length_app. f_equal. lia.
    + rewrite headsLen_app, headsLen_shift. lia.
Qed.

Lemma Writes_ext w w' o : (forall buf, w buf = w' buf) -> Writes w o -> Writes w' o.
Proof.
  intros E (s & hs & Hf & Hc & Hl & Ew). exists s, hs. split_and!; auto.
  intros buf. by rewrite <- E.
Qed.

Lemma Writes_inList w o :
  Z.of_nat (length o) < 2 ^ 64 -> Writes w o -> Writes (inList w) (encList o).
Proof.
  intros Hlen (s & hs & Hf & Hc & Hl & E). set (n := Z.of_nat (length o)) in *.
  exists s, (mkListhead 0 n :: hs). split_and!.
  - cbn. split; [lia|done].
  - cbn [copyTo_loop offset lhSize Nat.sub take]. unfold encList. rewrite Nat.max_0_r. cbn.
    by rewrite Hc.
  - unfold encList. rewrite length_app, Nat2Z.inj_add, length_puthead by lia.
    cbn [headsLen fold_right lhSize]. fold n. unfold headsLen in Hl. lia.
  - intros buf. unfold inList, openList, listEnd. rewrite E. cbn [str lheads lhsize].
    rewrite lookup_app_l by (rewrite length_app; cbn; lia).
    rewrite list_lookup_middle by done. cbn [offset lhSize]. unfold bufSize. cbn [str lhsize].
    assert (En : Z.of_nat (length (str buf ++ s)) + (lhsize buf + headsLen hs)
                 - Z.of_nat (length (str buf)) - lhsize buf = n).
    { rewrite length_app. lia. }
    rewrite En. f_equal.
    + rewrite <- app_assoc. cbn [app map]. rewrite insert_app_r_alt, Nat.sub_diag by lia. cbn [list_insert insert].
      do 2 f_equal. unfold shiftHead. cbn. f_equal. lia.
    + change (headsLen (mkListhead 0 n :: hs)) with (headsize n + headsLen hs).
      unfold headsize. destruct (n <? 56); lia.
Qed.

Lemma Writes_all {A} (w : A -> writer) (o : A -> list Z) l :
  (forall x, x ∈ l -> Writes (w x) (o x)) -> Writes (writeAll w l) (mjoin (map o l)).
Proof.
  unfold writeAll. induction l as [|x l IH]; intros H.
  - eapply Writes_ext; [|exact (Writes_append [])]. intros [? ? ?]. unfold append. cbn.
    by rewrite app_nil_r.
  - change (mjoin (map o (x :: l))) with (o x ++ mjoin (map o l)).
    apply (Writes_seq (w x)); [apply H; set_solver|apply IH; set_solver].
Qed.

Lemma Writes_uint i : Writes (writeUint64 i) (encUint i).
Proof. unfold writeUint64, encUint, AppendUint64. repeat case_if; apply Writes_append. Qed.

Lemma Writes_bytes b : Writes (writeBytes b) (encString b).
Proof.
  assert (Hgen : Writes (fun buf => append b (encodeStringHeader (Z.of_nat (length b)) buf))
                        (puthead 128 183 (Z.of_nat (length b)) ++ b)).
  { apply (Writes_seq _ _ _ _ (Writes_append _) (Writes_append b)). }
  unfold writeBytes, encString. destruct b as [|x [|y b]]; try exact Hgen.
  destruct (x <=? 127); [apply Writes_append|exact Hgen].
Qed.

Lemma EncodeToBytes_Writes w o : Writes w o -> EncodeToBytes w = o.
Proof.
  intros (s & hs & Hf & Hc & Hl & E). unfold EncodeToBytes, makeBytes, copyTo, bufSize.
  rewrite E. cbn [str lheads lhsize emptyBuffer]. cbn [app].
  assert (Hid : map (shiftHead (length (str emptyBuffer))) hs = hs).
  { clear. induction hs as [|[? ?] hs IH]; cbn; [done|]. f_equal. exact IH. }
  cbn [str emptyBuffer] in Hid. rewrite Hid, Hc, Z.add_0_l.
  replace (Z.to_nat (Z.of_nat (length s) + headsLen hs)) with (length o) by lia.
  by rewrite take_ge, Nat.sub_diag, app_nil_r.
Qed.

End RlpEncode.
