(* ===== verification/RlpDecode.v ===== *)
(** * The RLP stream reads back what the encoder wrote *)

From S2P Require Import Prelude Bytes Rlp RlpEncode.

Module RlpDecode.
Import Bytes Rlp RlpEncode.

(** ** Sizes in big-endian form *)

Lemma be_bytes_head k x : be_bytes (S k) x = (x / 256 ^ Z.of_nat k) mod 256 :: be_bytes k x.
Proof.
  revert x. induction k as [|k IH]; intros x; [by rewrite Z.div_1_r|].
  change (be_bytes (S (S k)) x) with (be_bytes (S k) (x / 256) ++ [x mod 256]).
  rewrite IH. change (be_bytes (S k) x) with (be_bytes k (x / 256) ++ [x mod 256]).
  cbn [app]. f_equal. rewrite Nat2Z.inj_succ, Z.pow_succ_r by lia.
  by rewrite Z.div_div by (try apply Z.pow_nonzero; try apply Z.pow_pos_nonneg; lia).
Qed.

Lemma putintSize_bounds i :
  0 < i < 2 ^ 64 ->
  (1 <= putintSize i <= 8)%nat /\
  256 ^ (Z.of_nat (putintSize i) - 1) <= i < 256 ^ Z.of_nat (putintSize i).
Proof.
  intros Hi. unfold putintSize. repeat case_if; bool_to_prop; cbn; lia.
Qed.

Lemma length_putint i : length (putint i) = putintSize i.
Proof. apply length_be_bytes. Qed.

Lemma SetBytes_putint i : 0 < i < 2 ^ 64 -> SetBytes (putint i) = i.
Proof.
  intros Hi. destruct (putintSize_bounds i Hi). unfold putint. apply SetBytes_be_bytes. lia.
Qed.

(** The first byte of a size is not zero. *)
Lemma putint_head i : 0 < i < 2 ^ 64 -> exists b l, putint i = b :: l /\ b <> 0.
Proof.
  intros Hi. destruct (putintSize_bounds i Hi) as [Hn [Hlo Hhi]]. unfold putint.
  destruct (putintSize i) as [|k]; [lia|]. rewrite be_bytes_head.
  eexists _, _. split; [done|]. replace (Z.of_nat (S k) - 1) with (Z.of_nat k) in Hlo by lia.
  rewrite Nat2Z.inj_succ, Z.pow_succ_r in Hhi by lia.
  assert (0 < 256 ^ Z.of_nat k) by (apply Z.pow_pos_nonneg; lia).
  rewrite Z.mod_small.
  - pose proof (Z.div_le_mono _ _ (256 ^ Z.of_nat k) ltac:(lia) Hlo) as Hd.
    rewrite Z.div_same in Hd by lia. lia.
  - split; [apply Z.div_pos; lia|apply Z.div_lt_upper_bound; lia].
Qed.

(** ** The position of a stream *)

Record Pos (s : Stream) (input : list Z) (rem : Z) (stk : list Z) : Prop := mkPos {
  pos_r : r s = input;
  pos_rem : remaining s = rem;
  pos_stk : stack s = stk;
  pos_lim : limited s = true
}.

Definition fits (n rem : Z) (stk : list Z) : Prop :=
  0 <= n <= rem /\ rem <= MaxUint64 /\
  match stk with l :: _ => n <= l <= MaxUint64 | [] => True end.

Definition sub (n : Z) (stk : list Z) : list Z :=
  match stk with l :: outer => l - n :: outer | [] => [] end.

Lemma sub_sub n m stk : sub m (sub n stk) = sub (n + m) stk.
Proof. destruct stk; cbn; [done|]. f_equal. lia. Qed.

Lemma fits_sub n m rem stk :
  fits (n + m) rem stk -> 0 <= n -> 0 <= m -> fits m (rem - n) (sub n stk).
Proof. unfold fits. destruct stk; cbn; intros; wsolve. Qed.

Lemma fits_weaken n m rem stk : fits n rem stk -> 0 <= m <= n -> fits m rem stk.
Proof. unfold fits. destruct stk; intros; wsolve. Qed.

Ltac fit := first [assumption | by eapply fits_weaken; [eassumption|lia]
                  | by apply fits_sub; [eapply fits_weaken; [eassumption|lia]|lia|lia]].

Lemma willRead_ok n s input rem stk :
  Pos s input rem stk -> fits n rem stk ->
  exists s', willRead n s = Done s' tt /\ Pos s' input (rem - n) (sub n stk) /\
             kind s' = None /\ byteval s' = byteval s.
Proof.
  intros [Hr Hm Hs Hl] (Hn & _ & Hstk). unfold willRead, mbind, st_bind, modify, getS. cbn.
  rewrite Hs. destruct stk as [|l outer]; cbn.
  - rewrite Hl, Hm, (proj2 (Z.ltb_ge rem n)) by lia. eexists. split; [done|].
    cbn. split_and!; try done; by split.
  - rewrite (proj2 (Z.ltb_ge l n)) by lia. cbn.
    rewrite Hl, Hm, (proj2 (Z.ltb_ge rem n)) by lia. eexists. split; [done|].
    cbn. split_and!; try done; by split.
Qed.

Lemma readByte_ok b s input rem stk :
  Pos s (b :: input) rem stk -> fits 1 rem stk ->
  exists s', readByte s = Done s' b /\ Pos s' input (rem - 1) (sub 1 stk) /\
             kind s' = None /\ byteval s' = byteval s.
Proof.
  intros Hp Hf. destruct (willRead_ok 1 s _ _ _ Hp Hf) as (s1 & E & [Hr1 ? ? ?] & Hk & Hb).
  unfold readByte, mbind, st_bind. rewrite E. cbn. rewrite Hr1. cbn.
  eexists. split; [done|]. cbn. split_and!; try done.
Qed.

Lemma readFull_ok bs s input rem stk :
  Pos s (bs ++ input) rem stk -> fits (Z.of_nat (length bs)) rem stk ->
  exists s', readFull (length bs) s = Done s' bs /\
             Pos s' input (rem - Z.of_nat (length bs)) (sub (Z.of_nat (length bs)) stk) /\
             kind s' = None /\ byteval s' = byteval s.
Proof.
  intros Hp Hf. destruct (willRead_ok _ s _ _ _ Hp Hf) as (s1 & E & [Hr1 ? ? ?] & Hk & Hb).
  unfold readFull, mbind, st_bind, getS, modify. rewrite E, Hr1.
  rewrite (proj2 (Nat.ltb_ge _ _)) by (rewrite length_app; lia). cbn.
  rewrite take_app_length, drop_app_length. eexists. split; [done|]. by cbn.
Qed.

(** A size or an integer of at least one byte. *)
Lemma readUint_ok i s input rem stk :
  0 < i < 2 ^ 64 ->
  Pos s (putint i ++ input) rem stk -> fits (Z.of_nat (putintSize i)) rem stk ->
  exists s', readUint (Z.of_nat (putintSize i)) s = Done s' i /\
             Pos s' input (rem - Z.of_nat (putintSize i)) (sub (Z.of_nat (putintSize i)) stk) /\
             kind s' = None /\ byteval s' = byteval s.
Proof.
  intros Hi Hp Hf. pose proof (SetBytes_putint i Hi) as Hset.
  destruct (putintSize_bounds i Hi) as [Hn _].
  destruct (putint_head i Hi) as (b & l & Eb & Hb). pose proof (length_putint i) as Hlen.
  unfold readUint. rewrite (proj2 (Z.eqb_neq _ 0)) by lia.
  destruct (Z.eqb_spec (Z.of_nat (putintSize i)) 1) as [H1|H1].
  - rewrite H1 in *. rewrite Eb in *. destruct l as [|? l]; [|cbn in Hlen; lia].
    assert (b = i) as ->. { rewrite <- Hset. cbn. lia. }
    by apply readByte_ok.
  - rewrite Nat2Z.id. rewrite <- Hlen in Hf |- *.
    destruct (readFull_ok (putint i) s input rem stk Hp Hf) as (s' & E & Hp' & Hk & Hv).
    exists s'. split; [|done]. unfold mbind, st_bind. rewrite E. rewrite Eb. rewrite <- Eb, Hset.
    by destruct b.
Qed.

(** ** The kind of the value ahead *)

Record Ahead (s : Stream) (k : Kind) (n : Z) : Prop := mkAhead {
  ahead_kind : kind s = Some k;
  ahead_size : size s = n;
  ahead_err : kinderr s = None
}.

(** The tags of strings and of lists. *)
Definition tags (k : Kind) : Z * Z :=
  match k with KList => (192, 247) | _ => (128, 183) end.

Definition headOf (k : Kind) (n : Z) : list Z := puthead (tags k).1 (tags k).2 n.

Lemma headsize_pos n : 0 <= n < 2 ^ 64 -> 1 <= headsize n <= 9.
Proof.
  intros Hn. unfold headsize. destruct (Z.ltb_spec n 56); [lia|].
  rewrite <- putintSize_intsize by lia. destruct (putintSize_bounds n); lia.
Qed.

Lemma length_headOf k n : 0 <= n < 2 ^ 64 -> Z.of_nat (length (headOf k n)) = headsize n.
Proof. apply length_puthead. Qed.

Lemma readKind_head k n s rest rem stk :
  k <> KByte -> 0 <= n < 2 ^ 64 ->
  Pos s (headOf k n ++ rest) rem stk -> fits (headsize n) rem stk ->
  exists s', readKind s = (s', (k, n, None)) /\
             Pos s' rest (rem - headsize n) (sub (headsize n) stk).
Proof.
  intros Hk Hn Hp Hf. unfold headOf, headsize, puthead in *.
  destruct (Z.ltb_spec n 56) as [Hlt|Hge].
  - cbn [app] in Hp. destruct (readByte_ok _ s _ _ _ Hp Hf) as (s1 & E & [? ? ? ?] & _ & _).
    exists (setByteval 0 s1). unfold readKind. rewrite E.
    split; [|by split]. destruct k; [done| |]; cbn [tags fst].
    + rewrite (proj2 (Z.ltb_ge _ _)), (proj2 (Z.ltb_lt _ _)) by lia. do 3 f_equal. lia.
    + do 3 (rewrite (proj2 (Z.ltb_ge _ _)) by lia). rewrite (proj2 (Z.ltb_lt _ _)) by lia.
      do 3 f_equal. lia.
  - rewrite <- putintSize_intsize in * by lia. cbn [app] in Hp.
    destruct (putintSize_bounds n ltac:(lia)) as [Hsz _].
    destruct (readByte_ok _ s _ _ _ Hp ltac:(fit)) as (s1 & E & [? ? ? ?] & _ & _).
    destruct (readUint_ok n (setByteval 0 s1) rest (rem - 1) (sub 1 stk)) as (s2 & E2 & Hp2 & _ & _);
      [lia|by split|fit|].
    exists s2. rewrite sub_sub in Hp2. split; [|by rewrite Z.sub_add_distr].
    unfold readKind. rewrite E. destruct k; [done| |]; cbn [tags fst snd].
    + do 2 (rewrite (proj2 (Z.ltb_ge _ _)) by lia). rewrite (proj2 (Z.ltb_lt _ _)) by lia.
      replace (183 + Z.of_nat (putintSize n) - 183) with (Z.of_nat (putintSize n)) by lia.
      rewrite E2. rewrite (proj2 (Z.ltb_ge _ _)) by lia. done.
    + do 4 (rewrite (proj2 (Z.ltb_ge _ _)) by lia).
      replace (247 + Z.of_nat (putintSize n) - 247) with (Z.of_nat (putintSize n)) by lia.
      rewrite E2. rewrite (proj2 (Z.ltb_ge _ _)) by lia. done.
Qed.

Lemma KindOf_read s s' k n input rem stk h :
  kind s = None -> 1 <= h ->
  Pos s input rem stk -> fits (h + n) rem stk ->
  readKind s = (s', (k, n, None)) ->
  remaining s' = rem - h -> limited s' = true -> 0 <= n ->
  KindOf s = Done (setAhead (Some k) n None s') (k, n).
Proof.
  intros Hk Hh [Hr Hm Hs Hl] (Hn & _ & Hstk) E Hm' Hl' Hn0. unfold KindOf, listLimit.
  rewrite Hk, Hs. destruct stk as [|l outer]; cbn [andb].
  - rewrite E, Hl', Hm', (proj2 (Z.ltb_ge _ n)) by lia. done.
  - rewrite (proj2 (Z.eqb_neq l 0)) by lia.
    rewrite E, Hl', Hm', !(proj2 (Z.ltb_ge _ n)) by lia. done.
Qed.

Lemma KindOf_head k n s rest rem stk :
  k <> KByte -> 0 <= n < 2 ^ 64 -> kind s = None ->
  Pos s (headOf k n ++ rest) rem stk -> fits (headsize n + n) rem stk ->
  exists s', KindOf s = Done s' (k, n) /\ Ahead s' k n /\
             Pos s' rest (rem - headsize n) (sub (headsize n) stk).
Proof.
  intros Hk Hn Hki Hp Hf. pose proof (headsize_pos n Hn).
  destruct (readKind_head k n s rest rem stk Hk Hn Hp ltac:(fit)) as (s1 & E & Hp1).
  exists (setAhead (Some k) n None s1). destruct Hp1 as [? ? ? ?].
  split; [|split; [by split|by split]].
  by eapply (KindOf_read s s1 k n _ rem stk (headsize n)); try done; lia.
Qed.

Lemma KindOf_byte b s rest rem stk :
  0 <= b < 128 -> kind s = None -> Pos s (b :: rest) rem stk -> fits 1 rem stk ->
  exists s', KindOf s = Done s' (KByte, 0) /\ byteval s' = b /\
             Pos s' rest (rem - 1) (sub 1 stk).
Proof.
  intros Hb Hki Hp Hf. destruct (readByte_ok b s rest rem stk Hp Hf) as (s1 & E & [? ? ? ?] & _ & _).
  exists (setAhead (Some KByte) 0 None (setByteval b s1)). split; [|split; [done|by split]].
  eapply (KindOf_read s (setByteval b s1) KByte 0 _ rem stk 1); try done; try lia; try fit.
  unfold readKind. rewrite E. by rewrite (proj2 (Z.ltb_lt _ _)) by lia.
Qed.

(** ** Reading values *)

(** [m] reads the encoding [enc] as [x], wherever it stands. *)
Definition Reads {A} (m : dec A) (enc : list Z) (x : A) : Prop :=
  forall s rest rem stk,
    Pos s (enc ++ rest) rem stk -> kind s = None -> fits (Z.of_nat (length enc)) rem stk ->
    exists s', m s = Done s' x /\ kind s' = None /\
      Pos s' rest (rem - Z.of_nat (length enc)) (sub (Z.of_nat (length enc)) stk).

(** [m] reports the end of a list when nothing is left of it. *)
Definition StopsAtEnd {A} (m : dec A) : Prop :=
  forall s outer, kind s = None -> stack s = 0 :: outer -> m s = Fail s EOL.

Lemma KindOf_end s outer : kind s = None -> stack s = 0 :: outer -> KindOf s = Fail s EOL.
Proof. intros Hk Hs. unfold KindOf, listLimit. by rewrite Hk, Hs. Qed.

Lemma StopsAtEnd_kind {A} (k : Kind * Z -> dec A) : StopsAtEnd (x ← KindOf; k x).
Proof. intros s outer Hk Hs. unfold mbind, st_bind. by rewrite (KindOf_end s outer). Qed.

Lemma StopsAtEnd_bind {A B} (m : dec A) (k : A -> dec B) : StopsAtEnd m -> StopsAtEnd (x ← m; k x).
Proof. intros H s outer Hk Hs. unfold mbind, st_bind. by rewrite (H s outer). Qed.

Lemma StopsAtEnd_wrap {A} (m : dec A) : StopsAtEnd m -> StopsAtEnd (wrapStreamError m).
Proof. intros H s outer Hk Hs. unfold wrapStreamError. by rewrite (H s outer). Qed.

Lemma Reads_wrap {A} (m : dec A) enc x : Reads m enc x -> Reads (wrapStreamError m) enc x.
Proof.
  intros H s rest rem stk Hp Hk Hf. destruct (H s rest rem stk Hp Hk Hf) as (s' & E & ?).
  exists s'. split; [|done]. unfold wrapStreamError. by rewrite E.
Qed.

Lemma Reads_Bytes b :
  Forall isByte b -> Z.of_nat (length b) < 2 ^ 64 -> Reads Bytes (encString b) b.
Proof.
  intros Hb Hlen s rest rem stk Hp Hk Hf. unfold Bytes.
  assert ((exists x, b = [x] /\ x <= 127) \/ ~ (exists x, b = [x] /\ x <= 127))
    as [(x & -> & Hx)|Hno].
  { destruct b as [|x [|y b]]; [right; by intros (? & ? & _)| |right; by intros (? & ? & _)].
    destruct (Z.le_gt_cases x 127); [left; by exists x|right]. intros (? & [= <-] & ?). lia. }
  - unfold encString in *. rewrite (proj2 (Z.leb_le x 127)) in * by lia.
    apply Forall_cons in Hb as [Hx0 _]. unfold isByte in Hx0.
    destruct (KindOf_byte x s rest rem stk) as (s1 & E & Hv & [? ? ? ?]); [lia|done|done|done|].
    unfold mbind, st_bind. rewrite E. cbn. exists (rearm s1). rewrite Hv.
    split; [done|]. split; [done|by split].
  - set (n := Z.of_nat (length b)) in *.
    assert (Henc : encString b = headOf KString n ++ b).
    { unfold encString, headOf, n. destruct b as [|x [|y b]]; try done.
      destruct (Z.leb_spec x 127); [|done]. exfalso. apply Hno. by exists x. }
    rewrite Henc in *. rewrite <- app_assoc in Hp.
    pose proof (length_headOf KString n ltac:(lia)) as Hhl.
    pose proof (headsize_pos n ltac:(lia)) as Hhp.
    rewrite length_app, Nat2Z.inj_add, Hhl in *.
    destruct (KindOf_head KString n s (b ++ rest) rem stk) as (s1 & E & _ & Hp1);
      [done|lia|done|done|done|].
    destruct (readFull_ok b s1 rest _ _ Hp1) as (s2 & E2 & Hp2 & Hk2 & _); [fit|].
    exists s2. rewrite sub_sub in Hp2. split; [|split; [done|by rewrite Z.sub_add_distr]].
    unfold mbind, st_bind. rewrite E. unfold n at 1. rewrite Nat2Z.id, E2.
    destruct b as [|x [|y b]]; try done. destruct (Z.ltb_spec x 128); [|done].
    exfalso. apply Hno. exists x. split; [done|lia].
Qed.

Lemma Reads_uint i : is_u64 i -> Reads (uint 64) (encUint i) i.
Proof.
  intros Hi s rest rem stk Hp Hk Hf. unfold uint, encUint, AppendUint64 in *.
  destruct (Z.eqb_spec i 0) as [->|H0]; [|destruct (Z.ltb_spec i 128) as [Hlt|Hge]].
  - destruct (KindOf_head KString 0 s rest rem stk) as (s1 & E & _ & [? ? ? ?]); [done|lia|done|done|fit|].
    unfold mbind, st_bind. rewrite E. cbn. exists (rearm s1).
    split; [done|]. split; [done|by split].
  - destruct (KindOf_byte i s rest rem stk) as (s1 & E & Hv & [? ? ? ?]); [wsolve|done|done|done|].
    unfold mbind, st_bind. rewrite E. cbn. rewrite Hv, (proj2 (Z.eqb_neq _ _)) by done.
    exists (rearm s1). cbn. rewrite ?Hv. split; [done|]. split; [done|by split].
  - assert (Hi' : 0 < i < 2 ^ 64) by wsolve.
    destruct (putintSize_bounds i Hi') as [Hn _]. set (n := Z.of_nat (putintSize i)) in *.
    assert (Hh : headOf KString n = [128 + n]).
    { unfold headOf, puthead. cbn [tags fst snd]. by rewrite (proj2 (Z.ltb_lt _ _)) by lia. }
    assert (Hhs : headsize n = 1) by (unfold headsize; by rewrite (proj2 (Z.ltb_lt _ _)) by lia).
    cbn [length] in *. rewrite Nat2Z.inj_succ, length_putint in *. fold n in Hf |- *.
    destruct (KindOf_head KString n s (putint i ++ rest) rem stk) as (s1 & E & _ & Hp1);
      [done|lia|done|by rewrite Hh|rewrite Hhs; fit|].
    rewrite Hhs in Hp1.
    destruct (readUint_ok i s1 rest _ _ Hi' Hp1) as (s2 & E2 & Hp2 & Hk2 & _); [fit|].
    exists s2. rewrite sub_sub in Hp2. replace (Z.succ n) with (1 + n) by lia.
    split; [|split; [done|by rewrite Z.sub_add_distr]].
    unfold mbind, st_bind. rewrite E. change (64 / 8) with 8.
    rewrite (proj2 (Z.ltb_ge 8 n)) by lia. fold n in E2. rewrite E2.
    by rewrite (proj2 (Z.ltb_ge i 128)) by lia; rewrite andb_false_r.
Qed.

(** ** Lists *)

Lemma ListStart_ok n s rest rem stk :
  0 <= n < 2 ^ 64 -> kind s = None ->
  Pos s (headOf KList n ++ rest) rem stk -> fits (headsize n + n) rem stk ->
  exists s', ListStart s = Done s' n /\ kind s' = None /\
             Pos s' rest (rem - headsize n) (n :: sub (headsize n + n) stk).
Proof.
  intros Hn Hk Hp Hf.
  destruct (KindOf_head KList n s rest rem stk) as (s1 & E & _ & [? ? Hs ?]); [done|lia|done|done|done|].
  unfold ListStart, mbind, st_bind. rewrite E. cbn. rewrite Hs.
  eexists. split; [done|]. split; [done|]. split; try done. cbn.
  destruct stk as [|l outer]; cbn; [done|]. destruct Hf as (? & ? & ?).
  rewrite u64_small; [do 2 f_equal; lia|]. pose proof (headsize_pos n Hn). wsolve.
Qed.

Lemma ListEnd_ok s input rem outer :
  Pos s input rem (0 :: outer) ->
  exists s', ListEnd s = Done s' tt /\ kind s' = None /\ Pos s' input rem outer.
Proof.
  intros [? ? Hs ?]. unfold ListEnd, mbind, st_bind, getS. rewrite Hs. cbn.
  eexists. split; [done|]. split; [done|by split].
Qed.

Lemma decodeSliceElems_ok {A} (m : dec A) (o : A -> list Z) l fuel acc s rest rem outer :
  (forall x, x ∈ l -> Reads m (o x) x) -> StopsAtEnd m ->
  (length l < fuel)%nat -> kind s = None ->
  let n := Z.of_nat (length (mjoin (map o l))) in
  Pos s (mjoin (map o l) ++ rest) rem (n :: outer) -> n <= rem <= MaxUint64 ->
  exists s', decodeSliceElems fuel m acc s = Done s' (acc ++ l) /\ kind s' = None /\
             Pos s' rest (rem - n) (0 :: outer).
Proof.
  intros Hr Hstop. revert fuel acc s rem. induction l as [|x l IH]; intros fuel acc s rem Hfuel Hk.
  - cbn. intros Hp _. destruct fuel as [|fuel]; [lia|]. cbn [decodeSliceElems].
    rewrite (Hstop s outer Hk (pos_stk _ _ _ _ Hp)). exists s. rewrite app_nil_r, Z.sub_0_r. done.
  - change (mjoin (map o (x :: l))) with (o x ++ mjoin (map o l)).
    rewrite length_app, Nat2Z.inj_add, <- app_assoc. intros n Hp Hrem.
    destruct fuel as [|fuel]; [cbn in Hfuel; lia|]. cbn [decodeSliceElems].
    destruct (Hr x ltac:(set_solver) s _ _ _ Hp Hk) as (s1 & E & Hk1 & Hp1).
    { unfold fits. unfold n in *. wsolve. }
    rewrite E. cbn [sub] in Hp1.
    replace (n - Z.of_nat (length (o x))) with (Z.of_nat (length (mjoin (map o l)))) in Hp1 by lia.
    destruct (IH (fun y Hy => Hr y ltac:(set_solver)) fuel (acc ++ [x]) s1
                (rem - Z.of_nat (length (o x)))) as (s2 & E2 & Hk2 & Hp2); [cbn in Hfuel; lia|done|done|wsolve|].
    exists s2. rewrite E2, <- app_assoc. split; [done|]. split; [done|].
    unfold n. by rewrite Z.sub_add_distr.
Qed.

Lemma length_mjoin_ge {A} (o : A -> list Z) l :
  (forall x, x ∈ l -> o x <> []) -> (length l <= length (mjoin (map o l)))%nat.
Proof.
  induction l as [|x l IH]; intros H; [done|].
  change (mjoin (map o (x :: l))) with (o x ++ mjoin (map o l)). rewrite length_app. cbn [length].
  pose proof (IH (fun y Hy => H y ltac:(set_solver))).
  pose proof (H x ltac:(set_solver)). destruct (o x); [done|]. cbn. lia.
Qed.

Lemma Reads_list {A} (m : dec A) (o : A -> list Z) l :
  (forall x, x ∈ l -> Reads m (o x) x /\ o x <> []) -> StopsAtEnd m ->
  Z.of_nat (length (mjoin (map o l))) < 2 ^ 64 ->
  Reads (decodeListSlice m) (encList (mjoin (map o l))) l.
Proof.
  intros Hr Hstop Hlen s rest rem stk Hp Hk Hf. unfold encList in *.
  set (n := Z.of_nat (length (mjoin (map o l)))) in *. change (puthead 192 247 n) with (headOf KList n) in *.
  rewrite length_app, Nat2Z.inj_add, (length_headOf KList n) in Hf |- * by lia. fold n in Hf |- *.
  rewrite <- app_assoc in Hp. pose proof (headsize_pos n ltac:(lia)).
  destruct (ListStart_ok n s _ rem stk ltac:(lia) Hk Hp Hf) as (s1 & E1 & Hk1 & Hp1).
  unfold decodeListSlice, mbind, st_bind, wrapStreamError. rewrite E1.
  destruct (Z.eqb_spec n 0) as [H0|H0].
  - assert (l = []) as ->.
    { destruct l as [|x l]; [done|]. pose proof (length_mjoin_ge o (x :: l) (fun y Hy => proj2 (Hr y Hy))).
      cbn [length] in *. unfold n in H0. lia. }
    cbn in Hp1. rewrite H0 in *. destruct (ListEnd_ok s1 _ _ _ Hp1) as (s2 & E2 & Hk2 & Hp2).
    rewrite E2. exists s2. split; [done|]. split; [done|]. by rewrite Z.add_0_r in *.
  - unfold getS. pose proof (length_mjoin_ge o l (fun y Hy => proj2 (Hr y Hy))).
    destruct (decodeSliceElems_ok m o l (S (length (r s1))) [] s1 rest (rem - headsize n)
      (sub (headsize n + n) stk) (fun y Hy => proj1 (Hr y Hy)) Hstop) as (s2 & E2 & Hk2 & Hp2);
      [rewrite (pos_r _ _ _ _ Hp1), length_app; lia|done|done|destruct Hf; wsolve|].
    rewrite E2. cbn [app]. destruct (ListEnd_ok s2 _ _ _ Hp2) as (s3 & E3 & Hk3 & Hp3).
    rewrite E3. exists s3. split; [done|]. split; [done|]. by rewrite Z.sub_add_distr.
Qed.

Lemma StopsAtEnd_list {A} (m : dec A) : StopsAtEnd (decodeListSlice m).
Proof. apply StopsAtEnd_bind, StopsAtEnd_wrap, StopsAtEnd_kind. Qed.

Lemma encUint_nonempty i : encUint i <> [].
Proof. unfold encUint, AppendUint64. repeat case_if; done. Qed.

Lemma encList_nonempty c : encList c <> [].
Proof. unfold encList, puthead. case_if; done. Qed.

Lemma encString_nonempty b : encString b <> [].
Proof.
  unfold encString, puthead. destruct b as [|x [|y b]]; cbn; try done; case_if; done.
Qed.

Lemma Raw_encoded k n b s rest rem stk :
  k <> KByte -> n = Z.of_nat (length b) -> n < 2 ^ 64 -> kind s = None ->
  Pos s (headOf k n ++ b ++ rest) rem stk -> fits (headsize n + n) rem stk ->
  exists s', Raw s = Done s' (headOf k n ++ b) /\ kind s' = None /\
    Pos s' rest (rem - (headsize n + n)) (sub (headsize n + n) stk).
Proof.
  intros Hk -> Hn Hki Hp Hf. set (n := Z.of_nat (length b)) in *.
  pose proof (headsize_pos n ltac:(lia)).
  destruct (KindOf_head k n s (b ++ rest) rem stk) as (s1 & E & _ & Hp1); [done|lia|done|done|done|].
  destruct (readFull_ok b s1 rest _ _ Hp1) as (s2 & E2 & Hp2 & Hk2 & _); [fit|].
  exists s2. rewrite sub_sub in Hp2. split; [|split; [done|by rewrite Z.sub_add_distr]].
  assert (En : Z.to_nat n = length b) by (unfold n; lia).
  unfold Raw, mbind, st_bind. rewrite E, En. destruct k; [done| |]; by rewrite E2.
Qed.

Lemma Reads_Raw_list c :
  Z.of_nat (length c) < 2 ^ 64 -> Reads Raw (encList c) (encList c).
Proof.
  intros Hlen s rest rem stk Hp Hk Hf. unfold encList in *.
  set (n := Z.of_nat (length c)) in *. change (puthead 192 247 n) with (headOf KList n) in *.
  rewrite length_app, Nat2Z.inj_add, (length_headOf KList n) in Hf |- * by lia. fold n in Hf |- *.
  rewrite <- app_assoc in Hp. by apply Raw_encoded.
Qed.

Lemma DecodeBytes_Reads {A} (m : dec A) enc x :
  Reads m enc x -> enc <> [] -> Z.of_nat (length enc) < 2 ^ 64 -> DecodeBytes m enc = inr x.
Proof.
  intros H Hne Hlen. unfold DecodeBytes.
  destruct (H (Reset enc (Z.of_nat (length enc))) [] (Z.of_nat (length enc)) []) as (s' & E & _ & [Hr ? ? ?]).
  - unfold Reset. assert (Hpos : 0 < Z.of_nat (length enc)) by (destruct enc; cbn; [done|lia]).
    rewrite (proj2 (Z.ltb_lt _ _) Hpos). split; cbn; try done. by rewrite app_nil_r.
  - done.
  - unfold fits. wsolve.
  - by rewrite E, Hr.
Qed.

End RlpDecode.
