(* ===== verification/RlpSplit.v ===== *)
(** * Splitting RLP slices (rlp/raw.go) and safety of the slice decoder

    [Split] is the inverse of the encoding and accepts nothing but canonical
    encodings; the decoder of slices never runs out of fuel. *)

From S2P Require Import Prelude Bytes Rlp RlpEncode RlpDecode.

Module RlpSplit.
Import Bytes Rlp RlpEncode RlpDecode.

(** ** Canonical sizes *)

Lemma SetBytes_bounds l :
  Forall isByte l -> 0 <= SetBytes l < 256 ^ Z.of_nat (length l).
Proof.
  induction l as [|b l IH] using rev_ind; intros Hl; [cbn; lia|].
  apply Forall_app in Hl as [Hl Hb]. apply Forall_cons in Hb as [Hb _]. unfold isByte in Hb.
  rewrite SetBytes_snoc, length_app, Nat2Z.inj_add. cbn [length].
  rewrite Z.pow_add_r by lia. specialize (IH Hl). change (256 ^ Z.of_nat 1) with 256. lia.
Qed.

Lemma be_bytes_SetBytes l : Forall isByte l -> be_bytes (length l) (SetBytes l) = l.
Proof.
  induction l as [|b l IH] using rev_ind; intros Hl; [done|].
  apply Forall_app in Hl as [Hl Hb]. apply Forall_cons in Hb as [Hb _]. unfold isByte in Hb.
  rewrite SetBytes_snoc, length_app, Nat.add_1_r. cbn [be_bytes].
  rewrite Z.div_add_l, Z.div_small, Z.add_0_r by lia. rewrite IH by done.
  by rewrite Z.add_comm, Z.mod_add, Z.mod_small by lia.
Qed.

Lemma SetBytes_cons b l :
  SetBytes (b :: l) = b * 256 ^ Z.of_nat (length l) + SetBytes l.
Proof.
  induction l as [|x l IH] using rev_ind; [cbn; lia|].
  change (b :: l ++ [x]) with ((b :: l) ++ [x]). rewrite !SetBytes_snoc, IH, length_app, Nat2Z.inj_add.
  cbn [length]. rewrite Z.pow_add_r by lia. change (256 ^ Z.of_nat 1) with 256. lia.
Qed.

Lemma putintSize_unique n i :
  (1 <= n <= 8)%nat -> 256 ^ (Z.of_nat n - 1) <= i < 256 ^ Z.of_nat n -> putintSize i = n.
Proof.
  intros Hn Hi. unfold putintSize.
  do 9 (destruct n as [|n]; [cbn in Hi; repeat case_if; bool_to_prop; lia|]). lia.
Qed.

Lemma readSize_canonical b slen sz :
  Forall isByte b -> 1 <= slen <= 8 -> readSize b slen = inr sz ->
  56 <= sz < 2 ^ 64 /\ slen = Z.of_nat (putintSize sz) /\
  exists rest, b = putint sz ++ rest.
Proof.
  intros Hb Hs. unfold readSize. destruct (Z.ltb_spec (Z.of_nat (length b)) slen); [done|].
  destruct b as [|b0 b]; [done|]. set (l := take (Z.to_nat slen) (b0 :: b)).
  assert (Hl : Forall isByte l) by by apply Forall_take.
  assert (Hlen : Z.of_nat (length l) = slen) by (unfold l; rewrite length_take; lia).
  destruct ((SetBytes l <? 56) || (b0 =? 0)) eqn:E; [done|]. intros [= <-].
  apply orb_false_iff in E as [E1 E2]. bool_to_prop.
  pose proof (SetBytes_bounds l Hl) as Hbd. rewrite Hlen in Hbd.
  assert (Hpow : 256 ^ slen <= 2 ^ 64).
  { change 256 with (2 ^ 8). rewrite <- Z.pow_mul_r by lia. apply Z.pow_le_mono_r; lia. }
  assert (Hsz : putintSize (SetBytes l) = length l).
  { apply putintSize_unique; [lia|]. rewrite Hlen. split; [|lia].
    assert (exists l', l = b0 :: l') as (l' & El).
    { unfold l. destruct (Z.to_nat slen) eqn:En; [lia|]. cbn. by eexists. }
    rewrite El, SetBytes_cons. apply Forall_cons in Hb as [Hb0 _]. unfold isByte in Hb0.
    rewrite El in Hl. apply Forall_cons in Hl as [_ Hl']. pose proof (SetBytes_bounds l' Hl').
    rewrite El in Hlen. cbn [length] in Hlen. replace (slen - 1) with (Z.of_nat (length l')) by lia. nia. }
  split; [lia|]. split; [by rewrite Hsz|].
  exists (drop (Z.to_nat slen) (b0 :: b)). unfold putint.
  rewrite Hsz, be_bytes_SetBytes by done. unfold l. by rewrite take_drop.
Qed.

Lemma readSize_putint sz rest :
  56 <= sz < 2 ^ 64 -> readSize (putint sz ++ rest) (Z.of_nat (putintSize sz)) = inr sz.
Proof.
  intros Hsz. unfold readSize. rewrite length_app, length_putint.
  rewrite (proj2 (Z.ltb_ge _ _)) by lia.
  destruct (putint_head sz ltac:(lia)) as (b & l & E & Hb).
  rewrite Nat2Z.id, <- (length_putint sz), take_app_length, SetBytes_putint by lia.
  rewrite E. cbn [app]. by rewrite (proj2 (Z.ltb_ge _ _)), (proj2 (Z.eqb_neq _ _)) by lia.
Qed.

(** ** [Split] *)

(** The encoding of a value of each kind. *)
Definition encKind (k : Kind) (content : list Z) : list Z :=
  match k with KList => encList content | _ => encString content end.

Definition kindOfString (b : list Z) : Kind :=
  match b with [x] => if x <=? 127 then KByte else KString | _ => KString end.

Lemma rawKind_head k n rest :
  k <> KByte -> 0 <= n <= Z.of_nat (length rest) -> n < 2 ^ 63 ->
  Z.of_nat (length (headOf k n ++ rest)) < 2 ^ 63 ->
  (k = KString -> n = 1 -> exists x rest', rest = x :: rest' /\ 128 <= x) ->
  rawKind (headOf k n ++ rest) = inr (k, headsize n, n).
Proof.
  intros Hk Hn Hn2 Hlen H1. rewrite length_app in Hlen.
  pose proof (length_headOf k n ltac:(lia)) as Hh. pose proof (headsize_pos n ltac:(lia)) as Hhp.
  assert (Hu : (u64 (Z.of_nat (length (headOf k n ++ rest)) - headsize n) <? n) = false).
  { apply Z.ltb_ge. rewrite length_app, u64_small by wsolve. lia. }
  revert Hu. unfold headOf, headsize, puthead.
  destruct (Z.ltb_spec n 56) as [Hlt|Hge]; cbn [app]; intros Hu; unfold rawKind; cbv zeta.
  - destruct k; [done| |]; cbn [tags fst snd] in *.
    + rewrite (proj2 (Z.ltb_ge _ _)), (proj2 (Z.ltb_lt _ _)) by lia.
      replace (128 + n - 128) with n by lia.
      destruct rest as [|x rest']; [by rewrite Hu|].
      destruct (Z.eqb_spec n 1) as [E1|E1]; cbn [andb]; [|by rewrite Hu].
      destruct (H1 eq_refl E1) as (x' & r' & [= <- <-] & Hx).
      by rewrite (proj2 (Z.ltb_ge x 128)), Hu by lia.
    + do 3 (rewrite (proj2 (Z.ltb_ge _ _)) by lia). rewrite (proj2 (Z.ltb_lt (192 + n) _)) by lia.
      replace (192 + n - 192) with n by lia. by rewrite Hu.
  - destruct (putintSize_bounds n ltac:(lia)) as [Hb _].
    rewrite <- putintSize_intsize in * by lia.
    destruct k; [done| |]; cbn [tags fst snd] in *.
    + do 2 (rewrite (proj2 (Z.ltb_ge _ _)) by lia). rewrite (proj2 (Z.ltb_lt (183 + _) _)) by lia.
      replace (183 + Z.of_nat (putintSize n) - 183) with (Z.of_nat (putintSize n)) by lia.
      rewrite readSize_putint by lia. rewrite (Z.add_comm (Z.of_nat (putintSize n)) 1). by rewrite Hu.
    + do 4 (rewrite (proj2 (Z.ltb_ge _ _)) by lia).
      replace (247 + Z.of_nat (putintSize n) - 247) with (Z.of_nat (putintSize n)) by lia.
      rewrite readSize_putint by lia. rewrite (Z.add_comm (Z.of_nat (putintSize n)) 1). by rewrite Hu.
Qed.

Lemma rawKind_canonical b k ts cs :
  Forall isByte b -> Z.of_nat (length b) < 2 ^ 63 -> rawKind b = inr (k, ts, cs) ->
  0 <= ts /\ 0 <= cs /\ ts + cs <= Z.of_nat (length b) /\
  exists content rest, Z.of_nat (length content) = cs /\
    match k with
    | KByte => exists x, content = [x] /\ 0 <= x < 128 /\ ts = 0 /\ b = content ++ rest
    | _ => ts = headsize cs /\ b = headOf k cs ++ content ++ rest /\
           (k = KString -> cs = 1 -> exists x, content = [x] /\ 128 <= x)
    end.
Proof.
  intros Hb Hlen. destruct b as [|b0 b]; [done|]. unfold rawKind. cbv zeta.
  apply Forall_cons in Hb as [Hb0 Hb]. unfold isByte in Hb0.
  set (L := Z.of_nat (length (b0 :: b))) in *. assert (HL : L = Z.of_nat (length b) + 1) by (unfold L; cbn; lia).
  assert (Hshort : forall k' tag cs', (k' <> KByte) -> tag = (tags k').1 -> cs' = b0 - tag -> 0 <= cs' < 56 ->
    (k' = KString -> cs' = 1 -> match b with x :: _ => 128 <= x | [] => True end) ->
    (if u64 (L - 1) <? cs' then inl ErrValueTooLarge else inr (k', 1, cs')) = inr (k, ts, cs) ->
    0 <= ts /\ 0 <= cs /\ ts + cs <= L /\ exists content rest, Z.of_nat (length content) = cs /\
    match k with
    | KByte => exists x, content = [x] /\ 0 <= x < 128 /\ ts = 0 /\ b0 :: b = content ++ rest
    | _ => ts = headsize cs /\ b0 :: b = headOf k cs ++ content ++ rest /\
           (k = KString -> cs = 1 -> exists x, content = [x] /\ 128 <= x)
    end).
  { intros k' tag cs' Hk' Htag Hcs Hr H1 E. rewrite u64_small in E by wsolve.
    destruct (Z.ltb_spec (L - 1) cs'); [done|]. injection E as <- <- <-.
    split_and!; try lia. exists (take (Z.to_nat cs') b), (drop (Z.to_nat cs') b).
    assert (Ecs : Z.of_nat (length (take (Z.to_nat cs') b)) = cs') by (rewrite length_take; lia).
    split; [done|]. destruct k'; [done| |];
      (split; [unfold headsize; by rewrite (proj2 (Z.ltb_lt _ _)) by lia|];
       split; [unfold headOf, puthead; rewrite (proj2 (Z.ltb_lt _ _)) by lia; rewrite take_drop;
               cbn [app]; f_equal; cbn in *; lia|]); [|done].
    intros _ E1. specialize (H1 eq_refl E1). rewrite E1 in *. destruct b as [|x b']; [by rewrite take_nil in Ecs|].
    exists x. split; [done|lia]. }
  assert (Hlong : forall k' tag, k' <> KByte -> tag = (tags k').2 -> 1 <= b0 - tag <= 8 ->
    match match readSize b (b0 - tag) with
          | inl e => inl e | inr cs' => inr (k', b0 - tag + 1, cs') end with
    | inl e => inl e
    | inr (k0, ts0, cs0) => if u64 (L - ts0) <? cs0 then inl ErrValueTooLarge else inr (k0, ts0, cs0)
    end = inr (k, ts, cs) ->
    0 <= ts /\ 0 <= cs /\ ts + cs <= L /\ exists content rest, Z.of_nat (length content) = cs /\
    match k with
    | KByte => exists x, content = [x] /\ 0 <= x < 128 /\ ts = 0 /\ b0 :: b = content ++ rest
    | _ => ts = headsize cs /\ b0 :: b = headOf k cs ++ content ++ rest /\
           (k = KString -> cs = 1 -> exists x, content = [x] /\ 128 <= x)
    end).
  { intros k' tag Hk' Htag Hr E. destruct (readSize b (b0 - tag)) as [e|cs'] eqn:Er; [done|].
    destruct (readSize_canonical b _ cs' Hb Hr Er) as (Hcs & Hsl & rest' & Eb).
    assert (Hlb : Z.of_nat (length b) = b0 - tag + Z.of_nat (length rest')).
    { rewrite Eb, length_app, length_putint. lia. }
    rewrite u64_small in E by wsolve. destruct (Z.ltb_spec (L - (b0 - tag + 1)) cs'); [done|].
    injection E as <- <- <-. split_and!; try lia.
    exists (take (Z.to_nat cs') rest'), (drop (Z.to_nat cs') rest').
    split; [rewrite length_take; lia|]. destruct k'; [done| |];
      (split; [unfold headsize; rewrite (proj2 (Z.ltb_ge _ _)) by lia;
               rewrite <- putintSize_intsize by lia; lia|];
       split; [|lia]; unfold headOf, puthead; rewrite (proj2 (Z.ltb_ge _ _)) by lia;
       rewrite take_drop; cbn [app tags fst snd]; rewrite <- Eb; f_equal; cbn in *; lia). }
  destruct (Z.ltb_spec b0 128).
  { rewrite u64_small by wsolve. destruct (Z.ltb_spec (L - 0) 1); [done|]. intros [= <- <- <-].
    split_and!; try lia. exists [b0], b. split; [done|]. exists b0. split_and!; try done; lia. }
  destruct (Z.ltb_spec b0 184).
  { destruct b as [|x b']; [apply (Hshort KString 128); try done; lia|].
    destruct (Z.eqb_spec (b0 - 128) 1) as [E1|E1]; cbn [andb];
      [destruct (Z.ltb_spec x 128); [done|]|]; apply (Hshort KString 128); try done; lia. }
  destruct (Z.ltb_spec b0 192); [by apply Hlong; cbn; try done; lia|].
  destruct (Z.ltb_spec b0 248); [by apply (Hshort KList 192); try done; lia|].
  by apply Hlong; cbn; try done; lia.
Qed.

(** ** The decoders never panic and never give input back *)

(** Never a panic, and the input left does not grow. *)
Definition Mono {A} (m : dec A) : Prop :=
  forall s, match m s with
            | Done s' _ | Fail s' _ => (length (r s') <= length (r s))%nat
            | Panicked _ => False
            end.

(** From a re-armed stream a value takes at least a byte and leaves the stream
    re-armed. *)
Definition Strict {A} (m : dec A) : Prop :=
  forall s, kind s = None ->
    match m s with
    | Done s' _ => kind s' = None /\ (length (r s') < length (r s))%nat
    | Fail s' _ => (length (r s') <= length (r s))%nat
    | Panicked _ => False
    end.

Lemma Mono_bind {A B} (m : dec A) (k : A -> dec B) :
  Mono m -> (forall a, Mono (k a)) -> Mono (x ← m; k x).
Proof.
  intros Hm Hk s. specialize (Hm s). unfold mbind, st_bind. destruct (m s) as [s1 a|s1 e|]; [|done..].
  specialize (Hk a s1). destruct (k a s1); [lia|lia|done].
Qed.

Lemma Mono_ret {A} (a : A) : Mono (mret a : dec A).
Proof. intros s. apply le_n. Qed.

Lemma Mono_fail {A} e : Mono (failS e : dec A).
Proof. intros s. apply le_n. Qed.

Lemma Mono_get : Mono (getS : dec Stream).
Proof. intros s. apply le_n. Qed.

Lemma Mono_modify f : (forall s, (length (r (f s)) <= length (r s))%nat) -> Mono (modify f : dec unit).
Proof. intros H s. exact (H s). Qed.

Create HintDb mono discriminated.
#[local] Hint Resolve Mono_ret Mono_fail Mono_get : mono.

Ltac mono :=
  repeat first
    [ progress auto with mono
    | apply Mono_bind; [|intros ?]
    | apply Mono_modify; intros ?; cbn; lia
    | match goal with
      | |- Mono (if ?b then _ else _) => destruct b
      | |- Mono (match ?x with _ => _ end) => destruct x
      end ].

Lemma Mono_willRead n : Mono (willRead n).
Proof. unfold willRead. mono. Qed.
#[local] Hint Resolve Mono_willRead : mono.

Lemma Mono_readByte : Mono readByte.
Proof.
  intros s. unfold readByte, mbind, st_bind. pose proof (Mono_willRead 1 s) as H.
  destruct (willRead 1 s) as [s1 ?|s1 ?|]; [|done..]. unfold getS.
  destruct (r s1) as [|b l] eqn:E; cbn in *; rewrite ?E; cbn; lia.
Qed.
#[local] Hint Resolve Mono_readByte : mono.

Lemma Mono_readFull n : Mono (readFull n).
Proof.
  intros s. unfold readFull, mbind, st_bind. pose proof (Mono_willRead (Z.of_nat n) s) as H.
  destruct (willRead _ s) as [s1 ?|s1 ?|]; [|done..]. unfold getS.
  destruct (length (r s1) <? n)%nat; cbn; [lia|]. rewrite length_drop. lia.
Qed.
#[local] Hint Resolve Mono_readFull : mono.

Lemma Mono_readUint n : Mono (readUint n).
Proof. unfold readUint. mono. Qed.
#[local] Hint Resolve Mono_readUint : mono.

Lemma willRead_kind n s s' u : willRead n s = Done s' u -> kind s' = None /\ r s' = r s.
Proof.
  unfold willRead, mbind, st_bind, modify, getS. cbn.
  destruct (stack s) as [|l outer]; cbn; [|destruct (l <? n); cbn; [done|]];
    destruct (limited s); cbn; try destruct (remaining s <? n); cbn; try done; intros [= <-]; done.
Qed.

Lemma readFull_kind n s s' u : readFull n s = Done s' u -> kind s' = None.
Proof.
  unfold readFull, mbind, st_bind. destruct (willRead _ s) as [s1 ?|?|] eqn:E; [|done..].
  apply willRead_kind in E as [Hk _]. unfold getS. destruct (_ <? n)%nat; cbn; [done|]. by intros [= <- _].
Qed.

Lemma readByte_kind s s' b :
  readByte s = Done s' b -> kind s' = None /\ length (r s) = S (length (r s')).
Proof.
  unfold readByte, mbind, st_bind. destruct (willRead _ s) as [s1 ?|?|] eqn:E; [|done..].
  apply willRead_kind in E as [Hk Hr]. unfold getS. destruct (r s1) as [|x l] eqn:E1; cbn; [done|].
  intros [= <- <-]. cbn. split; [done|]. by rewrite <- Hr.
Qed.

Lemma readUint_kind n s s' u : readUint n s = Done s' u -> kind s' = None.
Proof.
  unfold readUint. destruct (n =? 0); [by intros [= <- _]|].
  destruct (n =? 1); [intros H; by apply readByte_kind in H as [? _]|].
  unfold mbind, st_bind. destruct (readFull _ s) as [s1 l|?|] eqn:E; [|done..].
  apply readFull_kind in E. destruct l as [|[|?|?] l]; by intros [= <- _].
Qed.

Lemma readKind_progress s :
  (length (r (readKind s).1) <= length (r s))%nat /\
  ((readKind s).2.2 = None -> (length (r (readKind s).1) < length (r s))%nat).
Proof.
  unfold readKind. pose proof (Mono_readByte s) as Hm.
  destruct (readByte s) as [s1 b|s1 e|] eqn:E; [|by split|done].
  apply readByte_kind in E as [_ E].
  assert (Hlong : forall (k : Kind) tag,
    let res := match readUint (b - tag) (setByteval 0 s1) with
               | Done s3 sz => (s3, (k, sz, if sz <? 56 then Some ErrCanonSize else None))
               | Fail s3 e => (s3, (k, 0, Some e))
               | Panicked _ => (setByteval 0 s1, (k, 0, Some ErrEOF))
               end in
    (length (r res.1) < length (r s))%nat).
  { intros k tag. pose proof (Mono_readUint (b - tag) (setByteval 0 s1)) as Hu. cbn in Hu |- *.
    destruct (readUint _ _); cbn; lia. }
  repeat case_if; cbn [fst snd]; try (cbn; lia).
  - pose proof (Hlong KString 183). split; intros; cbn in *; lia.
  - pose proof (Hlong KList 247). split; intros; cbn in *; lia.
Qed.

Lemma Mono_KindOf : Mono KindOf.
Proof.
  intros s. unfold KindOf. destruct (kind s); [destruct (kinderr s); done|].
  destruct (listLimit s) as [b l]. destruct (b && (l =? 0)); [done|].
  pose proof (readKind_progress s) as [H _].
  destruct (readKind s) as [s' [[k sz] err]]. cbn in H.
  destruct err; [exact H|]. destruct (b && (l <? sz)); [exact H|].
  destruct (limited s' && (remaining s' <? sz)); exact H.
Qed.
#[local] Hint Resolve Mono_KindOf : mono.

Lemma KindOf_progress s s' x :
  kind s = None -> KindOf s = Done s' x -> (length (r s') < length (r s))%nat.
Proof.
  intros Hk. unfold KindOf. rewrite Hk. destruct (listLimit s) as [b l].
  destruct (b && (l =? 0)); [done|]. pose proof (readKind_progress s) as [_ H].
  destruct (readKind s) as [s1 [[k sz] err]]. cbn in H. destruct err; [done|].
  specialize (H eq_refl). destruct (b && (l <? sz)); [done|].
  destruct (limited s1 && (remaining s1 <? sz)); [done|]. intros [= <- _]. done.
Qed.

(** A decoder that starts with the kind and ends re-armed. *)
Lemma Strict_kind {A} (k : Kind * Z -> dec A) :
  (forall x, Mono (k x)) ->
  (forall x s s' a, k x s = Done s' a -> kind s' = None) ->
  Strict (x ← KindOf; k x).
Proof.
  intros Hm Hk s Hn. unfold mbind, st_bind. pose proof (Mono_KindOf s) as H0.
  pose proof (KindOf_progress s) as Hp.
  destruct (KindOf s) as [s1 x|s1 e|]; [|done..]. specialize (Hp s1 x Hn eq_refl).
  specialize (Hm x s1). specialize (Hk x s1). destruct (k x s1) as [s2 a|s2 e|]; [|lia|done].
  split; [by eapply Hk|lia].
Qed.

Lemma Strict_uint n : Strict (uint n).
Proof.
  apply Strict_kind.
  - intros [k sz]. destruct k; mono. intros s. pose proof (Mono_readUint sz s) as H.
    destruct (readUint sz s) as [|? []|]; done.
  - intros [k sz] s s' a. destruct k; [| |done].
    + unfold mbind, st_bind, getS. destruct (byteval s =? 0); cbn; [done|]. by intros [= <- _].
    + unfold mbind, st_bind. destruct (n / 8 <? sz); [done|].
      destruct (readUint sz s) as [s1 v|s1 []|] eqn:E; try done.
      apply readUint_kind in E. destruct ((0 <? sz) && (v <? 128)); [done|]. by intros [= <- _].
Qed.

Lemma Strict_Bytes : Strict Bytes.
Proof.
  apply Strict_kind.
  - intros [k sz]. destruct k; mono.
  - intros [k sz] s s' a. destruct k; [by intros [= <- _]| |done].
    unfold mbind, st_bind. destruct (readFull _ s) as [s1 l|?|] eqn:E; [|done..].
    apply readFull_kind in E. destruct l as [|x [|y l]]; try (by intros [= <- _]).
    destruct (x <? 128); [done|]. by intros [= <- _].
Qed.

Lemma Strict_wrap {A} (m : dec A) : Strict m -> Strict (wrapStreamError m).
Proof. intros H s Hk. specialize (H s Hk). unfold wrapStreamError. by destruct (m s). Qed.

Lemma Strict_ListStart : Strict ListStart.
Proof.
  apply Strict_kind; [intros [k sz]; destruct k; mono|].
  intros [k sz] s s' a. destruct k; [done..|]. unfold mbind, st_bind, modify. cbn. by intros [= <- _].
Qed.

Lemma decodeSliceElems_safe {A} (m : dec A) fuel acc s :
  Strict m -> kind s = None -> (length (r s) < fuel)%nat ->
  match decodeSliceElems fuel m acc s with
  | Done s' _ | Fail s' _ => (length (r s') <= length (r s))%nat
  | Panicked _ => False
  end.
Proof.
  intros Hm. revert acc s. induction fuel as [|fuel IH]; intros acc s Hk Hf; [lia|].
  cbn [decodeSliceElems]. specialize (Hm s Hk). destruct (m s) as [s1 a|s1 e|]; [|by destruct e|done].
  destruct Hm as [Hk1 Hr1]. specialize (IH (acc ++ [a]) s1 Hk1 ltac:(lia)).
  destruct (decodeSliceElems fuel m (acc ++ [a]) s1); [lia|lia|done].
Qed.

Lemma ListEnd_safe s :
  match ListEnd s with
  | Done s' _ => kind s' = None /\ r s' = r s
  | Fail s' _ => r s' = r s
  | Panicked _ => False
  end.
Proof.
  unfold ListEnd, mbind, st_bind, getS. destruct (stack s) as [|l outer]; [done|].
  by destruct (0 <? l).
Qed.

Lemma Strict_list {A} (m : dec A) : Strict m -> Strict (decodeListSlice m).
Proof.
  intros Hm s Hk. unfold decodeListSlice, mbind, st_bind.
  pose proof (Strict_wrap _ Strict_ListStart s Hk) as H1.
  destruct (wrapStreamError ListStart s) as [s1 sz|s1 e|]; [|done..]. destruct H1 as [Hk1 Hr1].
  destruct (sz =? 0).
  - pose proof (ListEnd_safe s1) as H2. destruct (ListEnd s1); [|rewrite H2; lia|done].
    destruct H2 as [? Hr2]. rewrite <- Hr2 in Hr1. done.
  - unfold getS. pose proof (decodeSliceElems_safe m (S (length (r s1))) [] s1 Hm Hk1 ltac:(lia)) as H2.
    destruct (decodeSliceElems _ m [] s1) as [s2 l|s2 e|]; [|lia|done].
    pose proof (ListEnd_safe s2) as H3. destruct (ListEnd s2); [|rewrite H3; lia|done].
    destruct H3 as [? Hr3]. rewrite <- Hr3 in H2. split; [done|lia].
Qed.

(** ** Sequences of values *)

Lemma Split_encKind k content rest :
  Forall isByte content ->
  Z.of_nat (length (encKind k content ++ rest)) < 2 ^ 63 ->
  (k <> KList -> k = kindOfString content) ->
  Split (encKind k content ++ rest) = inr (k, content, rest).
Proof.
  intros Hb Hlen Hk.
  assert (Hgen : forall k', k' <> KByte -> encKind k content = headOf k' (Z.of_nat (length content)) ++ content ->
    (k' = KString -> length content = 1%nat -> exists x, content = [x] /\ 128 <= x) ->
    Split (encKind k content ++ rest) = inr (k', content, rest)).
  { intros k' Hk' E H1. rewrite E in *. set (n := Z.of_nat (length content)) in *.
    unfold Split. rewrite <- app_assoc in *. rewrite !length_app in Hlen.
    pose proof (length_headOf k' n) as Hh. pose proof (headsize_pos n) as Hp.
    rewrite (rawKind_head k' n (content ++ rest)); [|done|rewrite length_app; lia|lia|
      rewrite !length_app; lia|].
    - replace (Z.to_nat (headsize n)) with (length (headOf k' n)) by lia.
      replace (Z.to_nat (headsize n + n)) with (length (headOf k' n ++ content))
        by (rewrite length_app; lia).
      rewrite drop_app_length. unfold n at 1. rewrite Nat2Z.id, take_app_length.
      by rewrite app_assoc, drop_app_length.
    - intros Ek E1. destruct (H1 Ek ltac:(lia)) as (x & -> & Hx). by exists x, rest. }
  destruct k.
  - specialize (Hk ltac:(done)). unfold kindOfString in Hk. destruct content as [|x [|y c]]; try done.
    destruct (Z.leb_spec x 127) as [Hx|Hx]; [|done]. apply Forall_cons in Hb as [Hb _]. unfold isByte in Hb.
    cbn [encKind encString app] in *. rewrite (proj2 (Z.leb_le _ _) Hx) in *. cbn [app length] in *.
    unfold Split, rawKind. rewrite (proj2 (Z.ltb_lt x 128)) by lia.
    rewrite u64_small by (cbn [length]; wsolve). rewrite (proj2 (Z.ltb_ge _ _)) by (cbn [length]; lia). done.
  - apply Hgen; [done| |].
    + specialize (Hk ltac:(done)). unfold encKind, encString, kindOfString in *.
      destruct content as [|x [|y c]]; try done. by destruct (x <=? 127).
    + intros _ H1. specialize (Hk ltac:(done)). destruct content as [|x [|y c]]; try done.
      cbn in Hk. exists x. split; [done|]. destruct (Z.leb_spec x 127); [done|lia].
  - by apply Hgen.
Qed.

(** A value to encode: a list with its content, or a string. *)
Definition item : Type := Kind * list Z.

Definition goodItem (i : item) : Prop :=
  Forall isByte i.2 /\ (i.1 <> KList -> i.1 = kindOfString i.2).

Definition encItems (l : list item) : list Z := mjoin (map (fun i => encKind i.1 i.2) l).

Lemma encItems_cons i l : encItems (i :: l) = encKind i.1 i.2 ++ encItems l.
Proof. done. Qed.

Lemma encKind_nonempty k c : encKind k c <> [].
Proof.
  assert (Hp : forall a b n, puthead a b n <> []) by (intros; unfold puthead; by case_if).
  assert (Hs : encString c <> []).
  { unfold encString. destruct c as [|x [|y c]]; [|by case_if|];
      intros [H _]%app_nil; by apply Hp in H. }
  destruct k; cbn; try done. unfold encList. intros [H _]%app_nil. by apply Hp in H.
Qed.

Lemma countValues_items fuel l n :
  Forall goodItem l -> Z.of_nat (length (encItems l)) < 2 ^ 63 ->
  (length (encItems l) <= fuel)%nat ->
  countValues_loop fuel (encItems l) n = inr (n + length l)%nat.
Proof.
  revert fuel n. induction l as [|[k c] l IH]; intros fuel n Hg Hlen Hf.
  - destruct fuel; cbn; f_equal; lia.
  - apply Forall_cons in Hg as [[Hb Hk] Hg]. rewrite encItems_cons in *. cbn [fst snd] in *.
    pose proof (Split_encKind k c (encItems l) Hb Hlen Hk) as E.
    pose proof (encKind_nonempty k c) as Hne. unfold Split in E.
    set (b := encKind k c ++ encItems l) in *.
    assert (0 < length (encKind k c))%nat by (destruct (encKind k c); [done|cbn; lia]).
    assert (length b = length (encKind k c) + length (encItems l))%nat by (unfold b; apply length_app).
    destruct fuel as [|fuel]; [lia|]. destruct b as [|x b'] eqn:Eb; [cbn in *; lia|].
    cbn [countValues_loop]. destruct (rawKind (x :: b')) as [e|[[k' ts] cs]]; [done|].
    injection E as -> _ ->. rewrite IH; [|done|lia|cbn in *; lia]. f_equal. cbn. lia.
Qed.

(** ** Properties *)

(** In a concatenation of encoded values, [Split] returns the kind and the
    content of the first value and exactly what follows it, and [CountValues]
    counts the values: no fuel or length is lost at any boundary. *)
Theorem Split_encoded (i : item) (l : list item) :
  goodItem i -> Forall goodItem l ->
  Z.of_nat (length (encItems (i :: l))) < 2 ^ 63 ->
  Split (encItems (i :: l)) = inr (i.1, i.2, encItems l) /\
  CountValues (encItems (i :: l)) = inr (S (length l)).
Proof.
  intros [Hb Hk] Hl Hlen. split.
  - rewrite encItems_cons in *. by apply Split_encKind.
  - unfold CountValues. rewrite countValues_items; [done|by constructor|done|done].
Qed.

Lemma Split_encoded_witness :
  Split (encItems [(KString, [200; 1; 2]); (KByte, [7]); (KList, [128; 5])]) =
    inr (KString, [200; 1; 2], encItems [(KByte, [7]); (KList, [128; 5])]) /\
  CountValues (encItems [(KString, [200; 1; 2]); (KByte, [7]); (KList, [128; 5])]) = inr 3%nat.
Proof.
  apply (Split_encoded (KString, [200; 1; 2]) [(KByte, [7]); (KList, [128; 5])]).
  - split; [repeat constructor; unfold isByte; cbn; lia|reflexivity].
  - repeat constructor; unfold isByte; cbn; try lia; done.
  - vm_compute. reflexivity.
Defined.

(** C38: [Split] accepts only canonical encodings: whatever it accepts is the
    encoding of the content it returns followed by the rest it returns, so no two
    byte strings denote the same value. *)
Theorem Split_canonical b k content rest :
  Forall isByte b -> Z.of_nat (length b) < 2 ^ 63 ->
  Split b = inr (k, content, rest) ->
  b = encKind k content ++ rest /\ (k <> KList -> k = kindOfString content).
Proof.
  intros Hb Hlen. unfold Split. destruct (rawKind b) as [e|[[k' ts] cs]] eqn:E; [done|].
  intros [= -> Ec Er]. subst.
  destruct (rawKind_canonical b k ts cs Hb Hlen E) as (H1 & H2 & H3 & c & rst & Hc & Hcase).
  assert (Hfin : forall h, Z.of_nat (length h) = ts -> b = h ++ c ++ rst ->
            take (Z.to_nat cs) (drop (Z.to_nat ts) b) = c /\ drop (Z.to_nat (ts + cs)) b = rst).
  { intros h Hh ->. replace (Z.to_nat ts) with (length h) by lia.
    replace (Z.to_nat (ts + cs)) with (length (h ++ c)) by (rewrite length_app; lia).
    rewrite drop_app_length. replace (Z.to_nat cs) with (length c) by lia.
    by rewrite take_app_length, app_assoc, drop_app_length. }
  destruct k.
  - destruct Hcase as (x & -> & Hx & -> & Eb). destruct (Hfin [] eq_refl Eb) as [-> ->].
    cbn. rewrite (proj2 (Z.leb_le x 127)) by lia. done.
  - destruct Hcase as (-> & Eb & Hone). destruct (Hfin _ (length_headOf KString cs ltac:(lia)) Eb) as [-> ->].
    subst cs. assert (Hk : KString = kindOfString c).
    { unfold kindOfString. destruct c as [|x [|y c]]; try done.
      destruct (Hone eq_refl eq_refl) as (x' & [= <-] & Hx). by rewrite (proj2 (Z.leb_gt _ _)) by lia. }
    split; [|done]. rewrite Eb, app_assoc. f_equal. unfold encKind, encString.
    destruct c as [|x [|y c]]; try done.
    destruct (Hone eq_refl eq_refl) as (x' & [= <-] & Hx). by rewrite (proj2 (Z.leb_gt _ _)) by lia.
  - destruct Hcase as (-> & Eb & _). destruct (Hfin _ (length_headOf KList cs ltac:(lia)) Eb) as [-> ->].
    subst cs. split; [|done]. rewrite Eb, app_assoc. done.
Qed.

Lemma Split_canonical_witness :
  [193; 128; 9] = encKind KList [128] ++ [9] /\ (KList <> KList -> KList = kindOfString [128]).
Proof.
  apply (Split_canonical [193; 128; 9] KList [128] [9]).
  - repeat constructor; unfold isByte; lia.
  - vm_compute. reflexivity.
  - vm_compute. reflexivity.
Defined.

End RlpSplit.
