(* ===== verification/Header.v ===== *)
(** * Block headers and their extra data (core/types/block.go)

    The header record and the encoding of the validator list and of the base-fee
    parameters between the vanity and the seal of the extra-data field. *)

From S2P Require Import Prelude Bytes ChainConfig Rlp RlpEncode RlpDecode RlpSplit.

Module Header.
Import Bytes ChainConfig Rlp.

(** ** Data *)

(** Hashes, addresses and the bloom filter are numbers; [None] is a nil pointer.
    [ActualTime] is in nanoseconds, [None] for the zero time; it and
    [AbortRecovery] are local to the miner and not encoded. *)
Record Header := mkHeader {
  ParentHash : Z;
  UncleHash : Z;
  hdrCoinbase : Z;
  Root : Z;
  TxHash : Z;
  ReceiptHash : Z;
  Bloom : Z;
  Difficulty : option Z;
  Number : option Z;
  GasLimit : Z;
  GasUsed : Z;
  Time : Z;
  Extra : list Z;
  MixDigest : Z;
  Nonce : Z;
  BaseFee : option Z;
  WithdrawalsHash : option Z;
  BlobGasUsed : option Z;
  ExcessBlobGas : option Z;
  ParentBeaconRoot : option Z;
  RequestsHash : option Z;
  ActualTime : option Z;
  AbortRecovery : bool
}.

Definition ExtraVanityLength : nat := 32.
Definition ExtraSealLength : nat := 65.

Record BlockExtraData := mkBlockExtraData {
  ValidatorBytes : list Z;
  TxDependency : list (list Z);
  GasTarget : option Z;
  BaseFeeChangeDenom : option Z
}.

(** ** Encoding *)

Definition optionalUints (gasTarget baseFeeChangeDenom : option Z) : list (writer * bool) :=
  [(writeUintPtr gasTarget, bool_decide (gasTarget = None));
   (writeUintPtr baseFeeChangeDenom, bool_decide (baseFeeChangeDenom = None))].

Definition writeBlockExtraData (d : BlockExtraData) : writer :=
  writeStruct [writeBytes (ValidatorBytes d); writeSlice (writeSlice writeUint64) (TxDependency d)]
    (optionalUints (GasTarget d) (BaseFeeChangeDenom d)).

Definition writeBlockExtraDataPostAustin (validatorBytes : list Z)
    (gasTarget baseFeeChangeDenom : option Z) : writer :=
  writeStruct [writeBytes validatorBytes] (optionalUints gasTarget baseFeeChangeDenom).

Definition isAustin (c : ChainConfig) (number : option Z) : bool :=
  match Bor c with Some b => IsAustin b number | None => false end.

Definition isValencia (c : ChainConfig) (number : option Z) : bool :=
  match Bor c with Some b => IsValencia b number | None => false end.

Definition EncodeBlockExtraData (c : ChainConfig) (number : option Z) (validatorBytes : list Z)
    (gasTarget baseFeeChangeDenom : option Z) : list Z :=
  if isAustin c number then
    EncodeToBytes (writeBlockExtraDataPostAustin validatorBytes gasTarget baseFeeChangeDenom)
  else
    EncodeToBytes (writeBlockExtraData
      (mkBlockExtraData validatorBytes [] gasTarget baseFeeChangeDenom)).

(** ** Decoding *)

(** The two optional pointers at the end of the struct, and the end of its list. *)
Definition decodeTail : dec (option Z * option Z) :=
  gasTarget ← optionalField decodeUint;
  match gasTarget with
  | None => wrapStreamError ListEnd;; mret (None, None)
  | Some _ =>
      baseFeeChangeDenom ← optionalField decodeUint;
      wrapStreamError ListEnd;;
      mret (gasTarget, baseFeeChangeDenom)
  end.

Definition decodePostAustin : dec (list Z * option Z * option Z) :=
  wrapStreamError ListStart;;
  validatorBytes ← required decodeByteSlice;
  '(gasTarget, baseFeeChangeDenom) ← decodeTail;
  mret (validatorBytes, gasTarget, baseFeeChangeDenom).

(** [blockExtraDataRawTxDeps]. *)
Definition decodeRawTxDeps : dec (list Z * list Z * option Z * option Z) :=
  wrapStreamError ListStart;;
  validatorBytes ← required decodeByteSlice;
  txDependency ← required decodeRawValue;
  '(gasTarget, baseFeeChangeDenom) ← decodeTail;
  mret (validatorBytes, txDependency, gasTarget, baseFeeChangeDenom).

Definition decodeTxDependency : dec (list (list Z)) :=
  decodeListSlice (decodeListSlice decodeUint).

Definition decodeFull : dec BlockExtraData :=
  wrapStreamError ListStart;;
  validatorBytes ← required decodeByteSlice;
  txDependency ← required decodeTxDependency;
  '(gasTarget, baseFeeChangeDenom) ← decodeTail;
  mret (mkBlockExtraData validatorBytes txDependency gasTarget baseFeeChangeDenom).

Definition txDependencyValidPreValencia (c : ChainConfig) (number : option Z) (raw : list Z) : bool :=
  isValencia c number ||
  match DecodeBytes decodeTxDependency raw with inr _ => true | inl _ => false end.

(** [Extra[ExtraVanityLength : len-ExtraSealLength]]; the callers check the length. *)
Definition extraPayload (h : Header) : list Z :=
  drop ExtraVanityLength (take (length (Extra h) - ExtraSealLength) (Extra h)).

Definition extraTooShort (h : Header) : bool :=
  (length (Extra h) <? ExtraVanityLength + ExtraSealLength)%nat.

(** [None] is [ok = false]. *)
Definition decodeExtraFieldsFast (c : ChainConfig) (h : Header)
  : option (list Z * option Z * option Z) :=
  let raw := extraPayload h in
  if isAustin c (Number h) then
    match DecodeBytes decodePostAustin raw with
    | inl _ => None
    | inr d => Some d
    end
  else
    match DecodeBytes decodeRawTxDeps raw with
    | inl _ => None
    | inr (validatorBytes, txDep, gasTarget, bfcd) =>
        if txDependencyValidPreValencia c (Number h) txDep
        then Some (validatorBytes, gasTarget, bfcd) else None
    end.

(** A nil slice is the empty list. *)
Definition GetValidatorBytes (c : ChainConfig) (h : Header) : list Z :=
  if extraTooShort h then []
  else if negb (IsCancun c (Number h)) then extraPayload h
  else match decodeExtraFieldsFast c h with
       | None => []
       | Some (validatorBytes, _, _) => validatorBytes
       end.

Definition GetBaseFeeParams (c : ChainConfig) (h : Header) : option Z * option Z :=
  if negb (IsCancun c (Number h)) then (None, None)
  else if extraTooShort h then (None, None)
  else match decodeExtraFieldsFast c h with
       | None => (None, None)
       | Some (_, gasTarget, bfcd) => (gasTarget, bfcd)
       end.

Definition GetValidatorBytesAndBaseFeeParams (c : ChainConfig) (h : Header)
  : list Z * option Z * option Z :=
  if extraTooShort h then ([], None, None)
  else if negb (IsCancun c (Number h)) then (extraPayload h, None, None)
  else match decodeExtraFieldsFast c h with
       | None => ([], None, None)
       | Some d => d
       end.

Definition DecodeBlockExtraData (c : ChainConfig) (h : Header) : option BlockExtraData :=
  if negb (IsCancun c (Number h)) then None
  else if extraTooShort h then None
  else if isAustin c (Number h) then
    match decodeExtraFieldsFast c h with
    | None => None
    | Some (validatorBytes, gasTarget, bfcd) =>
        Some (mkBlockExtraData validatorBytes [] gasTarget bfcd)
    end
  else
    match DecodeBytes decodeFull (extraPayload h) with
    | inl _ => None
    | inr d => Some d
    end.

End Header.
