(* ===== verification/HeaderProps.v ===== *)
(** * The extra data of a header survives encoding and decoding *)

From S2P Require Import Prelude Bytes ChainConfig ConfigProps Rlp RlpEncode RlpDecode RlpSplit.
From S2P Require Import Header.

Module HeaderProps.
Import Bytes ChainConfig Rlp RlpEncode RlpDecode Header.

(** ** Encoding *)

(** What the two optional fields become: a missing gas target in front of a
    denominator is written as zero. *)
Definition encTail (gasTarget bfcd : option Z) : list Z :=
  match bfcd with
  | Some d => encUint (default 0 gasTarget) ++ encUint d
  | None => match gasTarget with Some g => encUint g | None => [] end
  end.

Lemma Writes_uintPtr p : Writes (writeUintPtr p) (encUint (default 0 p)).
Proof. destruct p; [apply Writes_uint|apply Writes_append]. Qed.

Lemma Writes_nil : Writes id [].
Proof.
  exists [], []. cbn. split_and!; try done. intros [? ? ?]. cbn. by rewrite !app_nil_r, Z.add_0_r.
Qed.

Lemma Writes_list ws os :
  Forall2 Writes ws os -> Writes (writeAll id ws) (mjoin os).
Proof.
  unfold writeAll. induction 1 as [|w o ws os Hw _ IH]; [exact Writes_nil|].
  change (mjoin (o :: os)) with (o ++ mjoin os). by apply (Writes_seq w).
Qed.

Lemma lastPresent_tail gasTarget bfcd :
  exists os, Forall2 Writes (lastPresent (optionalUints gasTarget bfcd)) os /\
             mjoin os = encTail gasTarget bfcd.
Proof.
  unfold optionalUints, encTail. destruct bfcd as [d|]; cbn.
  - exists [encUint (default 0 gasTarget); encUint d]. split; [|cbn; by rewrite app_nil_r].
    repeat constructor; [apply Writes_uintPtr|apply Writes_uint].
  - destruct gasTarget as [g|]; cbn.
    + exists [encUint g]. split; [|cbn; by rewrite app_nil_r]. repeat constructor. apply Writes_uint.
    + exists []. by split.
Qed.

Lemma struct_encoded ws os gasTarget bfcd :
  Forall2 Writes ws os ->
  Z.of_nat (length (mjoin os ++ encTail gasTarget bfcd)) < 2 ^ 64 ->
  EncodeToBytes (writeStruct ws (optionalUints gasTarget bfcd)) =
  encList (mjoin os ++ encTail gasTarget bfcd).
Proof.
  intros Hw Hlen. apply EncodeToBytes_Writes, Writes_inList; [done|].
  destruct (lastPresent_tail gasTarget bfcd) as (os' & Hw' & <-).
  replace (mjoin os ++ mjoin os') with (mjoin (os ++ os')).
  - apply Writes_list. by apply Forall2_app.
  - clear. induction os as [|o os IH]; [done|].
    change (mjoin ((o :: os) ++ os')) with (o ++ mjoin (os ++ os')).
    change (mjoin (o :: os)) with (o ++ mjoin os). by rewrite IH, app_assoc.
Qed.

(** ** Decoding *)

Lemma Reads_required {A} (m : dec A) enc x : Reads m enc x -> Reads (required m) enc x.
Proof.
  intros H s rest rem stk Hp Hk Hf. destruct (H s rest rem stk Hp Hk Hf) as (s' & E & ?).
  exists s'. split; [|done]. unfold required. by rewrite E.
Qed.

Lemma Reads_optional {A} (m : dec A) enc x : Reads m enc x -> Reads (optionalField m) enc (Some x).
Proof.
  intros H s rest rem stk Hp Hk Hf. destruct (H s rest rem stk Hp Hk Hf) as (s' & E & ?).
  exists s'. split; [|done]. unfold optionalField. by rewrite E.
Qed.

Lemma optional_end {A} (m : dec A) s outer :
  StopsAtEnd m -> kind s = None -> stack s = 0 :: outer -> optionalField m s = Done s None.
Proof. intros H Hk Hs. unfold optionalField. by rewrite (H s outer). Qed.

Lemma StopsAtEnd_uint : StopsAtEnd decodeUint.
Proof. apply StopsAtEnd_wrap, StopsAtEnd_kind. Qed.

Lemma ListEnd_wrap s input rem outer :
  Pos s input rem (0 :: outer) ->
  exists s', wrapStreamError ListEnd s = Done s' tt /\ kind s' = None /\ Pos s' input rem outer.
Proof.
  intros Hp. destruct (ListEnd_ok s input rem outer Hp) as (s' & E & ?).
  exists s'. split; [|done]. unfold wrapStreamError. by rewrite E.
Qed.

(** The optional fields, inside a list that ends with them. *)
Definition okUint (p : option Z) : Prop := forall x, p = Some x -> is_u64 x.

Definition readTarget (gasTarget bfcd : option Z) : option Z :=
  match bfcd with Some _ => Some (default 0 gasTarget) | None => gasTarget end.

Lemma decodeTail_ok gasTarget bfcd s rest rem outer :
  okUint gasTarget -> okUint bfcd -> kind s = None ->
  let n := Z.of_nat (length (encTail gasTarget bfcd)) in
  Pos s (encTail gasTarget bfcd ++ rest) rem (n :: outer) -> n <= rem <= MaxUint64 ->
  exists s', decodeTail s = Done s' (readTarget gasTarget bfcd, bfcd) /\ kind s' = None /\
             Pos s' rest (rem - n) outer.
Proof.
  intros Hg Hb Hk n Hp Hrem. unfold decodeTail.
  assert (Hru : forall i, is_u64 i -> Reads (optionalField decodeUint) (encUint i) (Some i)).
  { intros i Hi. by apply Reads_optional, Reads_wrap, Reads_uint. }
  unfold encTail in *. destruct bfcd as [d|].
  - assert (Hg0 : is_u64 (default 0 gasTarget)).
    { destruct gasTarget; cbn; [by apply Hg|wsolve]. }
    set (g := default 0 gasTarget) in *. subst n. rewrite length_app, Nat2Z.inj_add in *.
    rewrite <- app_assoc in Hp.
    destruct (Hru g Hg0 s _ _ _ Hp Hk) as (s1 & E1 & Hk1 & Hp1); [unfold fits; wsolve|].
    cbn [sub] in Hp1.
    destruct (Hru d (Hb d eq_refl) s1 _ _ _ Hp1 Hk1) as (s2 & E2 & Hk2 & Hp2); [unfold fits; wsolve|].
    cbn [sub] in Hp2.
    replace (Z.of_nat (length (encUint g)) + Z.of_nat (length (encUint d)) - Z.of_nat (length (encUint g))
             - Z.of_nat (length (encUint d))) with 0 in Hp2 by lia.
    destruct (ListEnd_wrap _ _ _ _ Hp2) as (s3 & E3 & Hk3 & Hp3).
    exists s3. unfold mbind, st_bind. rewrite E1, E2, E3.
    split; [done|]. split; [done|]. by rewrite Z.sub_add_distr.
  - destruct gasTarget as [g|].
    + destruct (Hru g (Hg g eq_refl) s _ _ _ Hp Hk) as (s1 & E1 & Hk1 & Hp1); [unfold fits; wsolve|].
      cbn [sub] in Hp1. fold n in Hp1. rewrite Z.sub_diag in Hp1.
      destruct (ListEnd_wrap _ _ _ _ Hp1) as (s2 & E2 & Hk2 & Hp2).
      exists s2. unfold mbind, st_bind. rewrite E1.
      rewrite (optional_end _ s1 outer StopsAtEnd_uint Hk1 (pos_stk _ _ _ _ Hp1)), E2. done.
    + cbn in n. subst n. destruct (ListEnd_wrap _ _ _ _ Hp) as (s1 & E1 & Hk1 & Hp1).
      exists s1. unfold mbind, st_bind.
      rewrite (optional_end _ s outer StopsAtEnd_uint Hk (pos_stk _ _ _ _ Hp)), E1.
      cbn [app] in Hp1. by rewrite Z.sub_0_r.
Qed.

(** A struct whose first field is read by [m1]: the list opens, [m1] reads it,
    and the rest is read inside the list. *)
Lemma struct_start {A} (m1 : dec A) e1 x1 content s rest rem :
  Reads m1 e1 x1 -> kind s = None ->
  let n := Z.of_nat (length (e1 ++ content)) in
  n < 2 ^ 63 -> Pos s (encList (e1 ++ content) ++ rest) rem [] -> headsize n + n <= rem <= MaxUint64 ->
  exists s1 s2, wrapStreamError ListStart s = Done s1 n /\ m1 s1 = Done s2 x1 /\ kind s2 = None /\
    Pos s2 (content ++ rest) (rem - headsize n - Z.of_nat (length e1))
        [Z.of_nat (length content)].
Proof.
  intros Hm Hk n Hn Hp Hrem. unfold encList in Hp. fold n in Hp.
  change (puthead 192 247 n) with (headOf KList n) in Hp. rewrite <- app_assoc in Hp.
  pose proof (headsize_pos n ltac:(lia)).
  destruct (ListStart_ok n s _ rem [] ltac:(lia) Hk Hp) as (s1 & E1 & Hk1 & Hp1).
  { unfold fits. wsolve. }
  cbn [sub] in Hp1. rewrite <- app_assoc in Hp1.
  assert (En : n = Z.of_nat (length e1) + Z.of_nat (length content)) by (unfold n; rewrite length_app; lia).
  destruct (Hm s1 _ _ _ Hp1 Hk1) as (s2 & E2 & Hk2 & Hp2); [unfold fits; wsolve|].
  exists s1, s2. unfold wrapStreamError at 1. rewrite E1. split_and!; try done.
  cbn [sub] in Hp2. by replace (n - Z.of_nat (length e1)) with (Z.of_nat (length content)) in Hp2 by lia.
Qed.

Lemma DecodeBytes_struct {A} (m : dec A) enc x :
  enc <> [] -> Z.of_nat (length enc) < 2 ^ 63 ->
  (forall s, kind s = None -> Pos s (enc ++ []) (Z.of_nat (length enc)) [] ->
     exists s', m s = Done s' x /\ r s' = []) ->
  DecodeBytes m enc = inr x.
Proof.
  intros Hne Hlen H. unfold DecodeBytes.
  destruct (H (Reset enc (Z.of_nat (length enc)))) as (s' & E & Hr).
  - done.
  - unfold Reset. assert (Hpos : 0 < Z.of_nat (length enc)) by (destruct enc; cbn; [done|lia]).
    rewrite (proj2 (Z.ltb_lt _ _) Hpos). split; cbn; try done. by rewrite app_nil_r.
  - by rewrite E, Hr.
Qed.

Lemma length_encList c :
  Z.of_nat (length c) < 2 ^ 63 ->
  Z.of_nat (length (encList c)) = headsize (Z.of_nat (length c)) + Z.of_nat (length c).
Proof. intros H. unfold encList. rewrite length_app, Nat2Z.inj_add, length_puthead; lia. Qed.

Section roundtrip.
Context (vb : list Z) (gt bf : option Z).
Hypothesis Hvb : Forall isByte vb.
Hypothesis Hgt : okUint gt.
Hypothesis Hbf : okUint bf.

Lemma Reads_vb : Z.of_nat (length vb) < 2 ^ 63 -> Reads (required decodeByteSlice) (encString vb) vb.
Proof. intros. by apply Reads_required, Reads_wrap, Reads_Bytes; [|lia]. Qed.

Lemma length_encString_ge (b : list Z) : (length b <= length (encString b))%nat.
Proof.
  unfold encString. destruct b as [|x [|y b]]; [cbn; lia|case_if; cbn; lia|].
  rewrite length_app. lia.
Qed.

Lemma decodePostAustin_encoded :
  let content := encString vb ++ encTail gt bf in
  Z.of_nat (length content) < 2 ^ 62 ->
  DecodeBytes decodePostAustin (encList content) = inr (vb, readTarget gt bf, bf).
Proof.
  intros content Hlen. pose proof (headsize_pos (Z.of_nat (length content)) ltac:(lia)).
  pose proof (length_encList content ltac:(lia)) as Hl. pose proof (length_encString_ge vb) as Hv.
  pose proof Hlen as Hlen'. unfold content in Hlen'. rewrite length_app in Hlen'.
  apply DecodeBytes_struct; [apply encList_nonempty|lia|].
  intros s Hk Hp.
  destruct (struct_start _ _ _ (encTail gt bf) s []
    (Z.of_nat (length (encList content))) (Reads_vb ltac:(lia)) Hk) as (s1 & s2 & E1 & E2 & Hk2 & Hp2);
    [rewrite length_app; lia|exact Hp|fold content; wsolve|].
  fold content in Hp2.
  destruct (decodeTail_ok gt bf s2 [] _ [] Hgt Hbf Hk2 Hp2) as (s3 & E3 & _ & [Hr3 ? ? ?]).
  { unfold content in Hl |- *. rewrite length_app in *. wsolve. }
  exists s3. unfold decodePostAustin, mbind, st_bind. rewrite E1, E2, E3. done.
Qed.

(** The layouts before Austin: a reader [m] of the dependencies between the validator
    bytes and the optional fields, on the empty list that is written there. *)
Lemma withDeps_encoded {A B} (m : dec A) x (build : list Z -> A -> option Z -> option Z -> B) :
  Reads m (encList []) x ->
  let content := encString vb ++ encList [] ++ encTail gt bf in
  Z.of_nat (length content) < 2 ^ 62 ->
  DecodeBytes (wrapStreamError ListStart;;
               validatorBytes ← required decodeByteSlice;
               deps ← required m;
               '(gasTarget, baseFeeChangeDenom) ← decodeTail;
               mret (build validatorBytes deps gasTarget baseFeeChangeDenom)) (encList content) =
  inr (build vb x (readTarget gt bf) bf).
Proof.
  intros Hm content Hlen. pose proof (headsize_pos (Z.of_nat (length content)) ltac:(lia)).
  pose proof (length_encList content ltac:(lia)) as Hl. pose proof (length_encString_ge vb) as Hv.
  pose proof Hlen as Hlen'. unfold content in Hlen'. rewrite length_app in Hlen'.
  apply DecodeBytes_struct; [apply encList_nonempty|lia|].
  intros s Hk Hp.
  destruct (struct_start _ _ _ (encList [] ++ encTail gt bf) s []
    (Z.of_nat (length (encList content))) (Reads_vb ltac:(lia)) Hk)
    as (s1 & s2 & E1 & E2 & Hk2 & Hp2); [rewrite length_app; lia|exact Hp|fold content; wsolve|].
  fold content in Hp2. rewrite <- app_assoc in Hp2.
  assert (Hl2 : Z.of_nat (length content) = Z.of_nat (length (encString vb)) + 1 + Z.of_nat (length (encTail gt bf))).
  { unfold content. rewrite !length_app. change (length (encList [])) with 1%nat. lia. }
  rewrite length_app, Nat2Z.inj_add in Hp2. change (Z.of_nat (length (encList []))) with 1 in Hp2.
  destruct (Reads_required _ _ _ Hm s2 _ _ _ Hp2 Hk2)
    as (s3 & E3 & Hk3 & Hp3); [change (Z.of_nat (length (encList []))) with 1; unfold fits; wsolve|].
  change (Z.of_nat (length (encList []))) with 1 in Hp3. cbn [sub] in Hp3.
  replace (1 + Z.of_nat (length (encTail gt bf)) - 1) with (Z.of_nat (length (encTail gt bf))) in Hp3 by lia.
  destruct (decodeTail_ok gt bf s3 [] _ [] Hgt Hbf Hk3 Hp3) as (s4 & E4 & _ & [Hr4 ? ? ?]); [wsolve|].
  exists s4. unfold mbind, st_bind. rewrite E1, E2, E3, E4. done.
Qed.

Lemma decodeRawTxDeps_encoded :
  let content := encString vb ++ encList [] ++ encTail gt bf in
  Z.of_nat (length content) < 2 ^ 62 ->
  DecodeBytes decodeRawTxDeps (encList content) = inr (vb, encList [], readTarget gt bf, bf).
Proof.
  apply (withDeps_encoded decodeRawValue (encList []) (fun v d g b => (v, d, g, b))).
  apply Reads_Raw_list. cbn. lia.
Qed.

Lemma decodeFull_encoded :
  let content := encString vb ++ encList [] ++ encTail gt bf in
  Z.of_nat (length content) < 2 ^ 62 ->
  DecodeBytes decodeFull (encList content) = inr (mkBlockExtraData vb [] (readTarget gt bf) bf).
Proof.
  apply (withDeps_encoded decodeTxDependency [] mkBlockExtraData).
  apply (Reads_list _ (fun _ => []) []); [intros x Hx; by apply elem_of_nil in Hx|apply StopsAtEnd_list|cbn; lia].
Qed.

End roundtrip.

Lemma extraPayload_middle h vanity payload seal :
  length vanity = 32%nat -> length seal = 65%nat -> Extra h = vanity ++ payload ++ seal ->
  extraPayload h = payload /\ extraTooShort h = false.
Proof.
  intros Hv Hs E. unfold extraPayload, extraTooShort. rewrite E, !length_app, Hv, Hs.
  unfold ExtraVanityLength, ExtraSealLength. split.
  - replace (32 + (length payload + 65) - 65)%nat with (length (vanity ++ payload))
      by (rewrite length_app; lia).
    rewrite app_assoc, take_app_length. rewrite <- Hv. by rewrite drop_app_length.
  - apply Nat.ltb_ge. lia.
Qed.

Lemma length_encTail gt bf : okUint gt -> okUint bf -> Z.of_nat (length (encTail gt bf)) <= 18.
Proof.
  intros Hg Hd. assert (Hu : forall i, is_u64 i -> (length (encUint i) <= 9)%nat).
  { intros i Hi. unfold encUint, AppendUint64. repeat case_if; cbn; try lia.
    rewrite length_putint. bool_to_prop. destruct (putintSize_bounds i); wsolve. }
  unfold encTail. destruct bf as [d|]; [|destruct gt as [g|]; cbn; [|lia]].
  - rewrite length_app. pose proof (Hu d (Hd d eq_refl)).
    assert (is_u64 (default 0 gt)) by (destruct gt; cbn; [by apply Hg|wsolve]).
    pose proof (Hu (default 0 gt) ltac:(done)). lia.
  - pose proof (Hu g (Hg g eq_refl)). lia.
Qed.

Lemma length_encString_le vb :
  Z.of_nat (length vb) < 2 ^ 60 -> Z.of_nat (length (encString vb)) <= Z.of_nat (length vb) + 9.
Proof.
  intros Hl. unfold encString. destruct vb as [|x [|y vb']] eqn:Evb;
    [by vm_compute|destruct (x <=? 127); cbn [length]; lia|].
  rewrite <- Evb in *. rewrite length_app, Nat2Z.inj_add, length_puthead by lia.
  pose proof (headsize_pos (Z.of_nat (length vb))). lia.
Qed.

(** What is written, as one list. *)
Lemma EncodeBlockExtraData_bytes c number vb gt bf :
  Z.of_nat (length vb) < 2 ^ 60 -> okUint gt -> okUint bf ->
  let content := if isAustin c number then encString vb ++ encTail gt bf
                 else encString vb ++ encList [] ++ encTail gt bf in
  EncodeBlockExtraData c number vb gt bf = encList content /\ Z.of_nat (length content) < 2 ^ 62.
Proof.
  intros Hl Hg Hd. pose proof (length_encTail gt bf Hg Hd). pose proof (length_encString_le vb Hl).
  unfold EncodeBlockExtraData. destruct (isAustin c number); cbv zeta.
  - unfold writeBlockExtraDataPostAustin. rewrite (struct_encoded _ [encString vb]).
    + change (mjoin [encString vb]) with (encString vb ++ []). rewrite app_nil_r. split; [done|].
      rewrite length_app. lia.
    + repeat constructor. apply Writes_bytes.
    + change (mjoin [encString vb]) with (encString vb ++ []). rewrite app_nil_r, length_app. lia.
  - unfold writeBlockExtraData. cbn [ValidatorBytes TxDependency GasTarget BaseFeeChangeDenom].
    assert (Hj : mjoin [encString vb; encList []] = encString vb ++ encList []).
    { change (mjoin [encString vb; encList []]) with (encString vb ++ encList [] ++ []). by rewrite app_nil_r. }
    rewrite (struct_encoded _ [encString vb; encList []]).
    + rewrite Hj, <- app_assoc. split; [done|]. rewrite !length_app. change (length (encList [])) with 1%nat. lia.
    + repeat constructor; [apply Writes_bytes|apply Writes_append].
    + rewrite Hj, !length_app. change (length (encList [])) with 1%nat. lia.
Qed.

(** What the two ways of decoding make of it. *)
Lemma decodeExtra_encoded c h vanity seal vb gt bf :
  length vanity = 32%nat -> length seal = 65%nat ->
  Forall isByte vb -> Z.of_nat (length vb) < 2 ^ 60 -> okUint gt -> okUint bf -> IsCancun c (Number h) = true ->
  Extra h = vanity ++ EncodeBlockExtraData c (Number h) vb gt bf ++ seal ->
  decodeExtraFieldsFast c h = Some (vb, readTarget gt bf, bf) /\
  DecodeBlockExtraData c h = Some (mkBlockExtraData vb [] (readTarget gt bf) bf).
Proof.
  intros Hv Hs Hb Hl Hg Hd Hc E. destruct (extraPayload_middle h _ _ _ Hv Hs E) as [Ep Hsh].
  destruct (EncodeBlockExtraData_bytes c (Number h) vb gt bf Hl Hg Hd) as [Ee Hlen].
  rewrite Ee in Ep. unfold DecodeBlockExtraData. rewrite Hc, Hsh. unfold decodeExtraFieldsFast. rewrite Ep.
  clear Ee Ep. destruct (isAustin c (Number h)); cbn [negb].
  - by rewrite (decodePostAustin_encoded vb gt bf Hb Hg Hd Hlen).
  - rewrite (decodeRawTxDeps_encoded vb gt bf Hb Hg Hd Hlen), (decodeFull_encoded vb gt bf Hb Hg Hd Hlen).
    unfold txDependencyValidPreValencia.
    change (DecodeBytes decodeTxDependency (encList [])) with (inr [] : rlp_error + list (list Z)).
    by rewrite orb_true_r.
Qed.

(** ** Properties *)

(** C39: Round trip of the extra data, from Cancun on, before and after the Austin
    format change: the validator bytes (below 2^60 of them) and base fee parameters
    that [EncodeBlockExtraData] puts between a vanity of 32 and a seal of 65 bytes
    are what each of the four readers of the header gets back, with no dependencies
    of transactions, except that a gas target that is missing before a denominator
    reads as 0. *)
Theorem EncodeBlockExtraData_roundtrip c h vanity seal vb gt bf :
  length vanity = 32%nat -> length seal = 65%nat ->
  Forall isByte vb -> Z.of_nat (length vb) < 2 ^ 60 -> okUint gt -> okUint bf ->
  IsCancun c (Number h) = true ->
  Extra h = vanity ++ EncodeBlockExtraData c (Number h) vb gt bf ++ seal ->
  let gt' := match gt, bf with None, Some _ => Some 0 | _, _ => gt end in
  GetValidatorBytesAndBaseFeeParams c h = (vb, gt', bf) /\
  GetValidatorBytes c h = vb /\ GetBaseFeeParams c h = (gt', bf) /\
  DecodeBlockExtraData c h = Some (mkBlockExtraData vb [] gt' bf).
Proof.
  intros Hv Hs Hb Hl Hg Hd Hc E gt'.
  destruct (decodeExtra_encoded c h vanity seal vb gt bf Hv Hs Hb Hl Hg Hd Hc E) as [Hdec Hfull].
  destruct (extraPayload_middle h _ _ _ Hv Hs E) as [_ Hsh].
  assert (Hrt : readTarget gt bf = gt') by (unfold gt'; by destruct bf, gt).
  unfold GetValidatorBytesAndBaseFeeParams, GetValidatorBytes, GetBaseFeeParams.
  rewrite Hc, Hsh, Hdec, Hfull, Hrt. done.
Qed.

(** A header at block 500 of the configuration of [ConfigProps] with Cancun on. *)
Definition demoCancun : ChainConfig :=
  mkChainConfig (Some 137) (Some 0) None false (Some 0) (Some 0) (Some 0) (Some 0) (Some 0)
    (Some 0) (Some 0) (Some 0) (Some 0) (Some 0) None None None (Some 0) (Some 0) None
    None None (Some ConfigProps.demoBor) None.

Definition demoHeader (number time : Z) (extra : list Z) : Header :=
  mkHeader 0 0 0 0 0 0 0 (Some 1) (Some number) 30000000 0 time extra 0 0 (Some 1000)
    None None None None None None false.

Lemma EncodeBlockExtraData_roundtrip_witness :
  let h := demoHeader 500 1000 (replicate 32 0 ++
     EncodeBlockExtraData demoCancun (Some 500) (replicate 40 7) (Some 15000000) (Some 64)
     ++ replicate 65 1) in
  GetValidatorBytesAndBaseFeeParams demoCancun h = (replicate 40 7, Some 15000000, Some 64) /\
  GetValidatorBytes demoCancun h = replicate 40 7 /\
  GetBaseFeeParams demoCancun h = (Some 15000000, Some 64) /\
  DecodeBlockExtraData demoCancun h = Some (mkBlockExtraData (replicate 40 7) [] (Some 15000000) (Some 64)).
Proof.
  intros h.
  apply (EncodeBlockExtraData_roundtrip demoCancun h (replicate 32 0) (replicate 65 1)
    (replicate 40 7) (Some 15000000) (Some 64)).
  - reflexivity.
  - reflexivity.
  - repeat constructor; unfold isByte; lia.
  - vm_compute. reflexivity.
  - intros x [= <-]. wsolve.
  - intros x [= <-]. wsolve.
  - reflexivity.
  - reflexivity.
Defined.

End HeaderProps.
