(* ===== verification/Eip1559.v ===== *)
(** * Gas limit and base fee (consensus/misc/gaslimit.go, consensus/misc/eip1559) *)

From S2P Require Import Prelude ChainConfig ConfigProps Header HeaderProps.

Module Eip1559.
Import ChainConfig Header.

(** ** Operations *)

Inductive fee_error :=
| ErrInvalidGasLimit
| ErrGasLimitBelowMin
| ErrHeaderMissingBaseFee
| ErrParentMissingBaseFee
| ErrBaseFeeChange
| ErrInvalidBaseFee.

Definition MaxBaseFeeChangePercent : Z := 5.

Definition VerifyGaslimit {S} (parentGasLimit headerGasLimit : Z) : st S fee_error unit :=
  let diff := i64 (i64 parentGasLimit - i64 headerGasLimit) in
  let diff := if diff <? 0 then i64 (diff * -1) else diff in
  let limit := parentGasLimit / GasLimitBoundDivisor in
  if limit <=? u64 diff then failS ErrInvalidGasLimit
  else if headerGasLimit <? MinGasLimit then failS ErrGasLimitBelowMin
  else mret tt.

(** At most [MaxBaseFeeChangePercent] of the parent's base fee, at least 1 wei. *)
Definition maxAllowedChange (parentBaseFee : Z) : Z :=
  let c := parentBaseFee * MaxBaseFeeChangePercent / 100 in
  if c <? 1 then 1 else c.

Definition verifyBaseFeeWithinBoundaries {S} (parent header : Header) : st S fee_error unit :=
  match BaseFee parent, BaseFee header with
  | Some pb, Some hb =>
      let actualChange := if pb <=? hb then hb - pb else pb - hb in
      if maxAllowedChange pb <? actualChange then failS ErrBaseFeeChange else mret tt
  | _, _ => panic "nil pointer dereference"
  end.

Definition calcParentGasTarget (c : ChainConfig) (parent : Header) : Z :=
  match Bor c with
  | Some b =>
      if IsDandeli b (Number parent) then
        let targetPercentage := GetDynamicTargetGasPercentage b (BaseFee parent) (Number parent) in
        u64 (GasLimit parent * targetPercentage) / 100
      else GasLimit parent / DefaultElasticityMultiplier
  | None => GasLimit parent / DefaultElasticityMultiplier
  end.

Definition CalcGasTarget (c : ChainConfig) (parent : Header) : Z := calcParentGasTarget c parent.

(** [None] is the panic of a division by a zero gas target. *)
Definition CalcBaseFee (c : ChainConfig) (parent : Header) : option Z :=
  match BaseFee parent with
  | None => Some InitialBaseFee
  | Some baseFee =>
      if negb (IsLondon c (Number parent)) then Some InitialBaseFee else
      let parentGasTarget := calcParentGasTarget c parent in
      if GasUsed parent =? parentGasTarget then Some baseFee else
      let denominator := BaseFeeChangeDenominator (Bor c) (Number parent) in
      let applyBoundaryCap :=
        match Bor c with Some b => IsLisovo b (Number parent) | None => false end in
      let cap num := if applyBoundaryCap && (maxAllowedChange baseFee <? num)
                     then maxAllowedChange baseFee else num in
      if parentGasTarget =? 0 then None
      else if parentGasTarget <? GasUsed parent then
        let num := cap ((GasUsed parent - parentGasTarget) * baseFee / parentGasTarget / denominator) in
        Some (if num <? 1 then baseFee + 1 else baseFee + num)
      else
        let num := cap ((parentGasTarget - GasUsed parent) * baseFee / parentGasTarget / denominator) in
        let fee := baseFee - num in
        Some (if fee <? 0 then 0 else fee)
  end.

Definition VerifyEIP1559Header {S} (c : ChainConfig) (parent header : Header) : st S fee_error unit :=
  let parentGasLimit :=
    if negb (IsLondon c (Number parent)) then u64 (GasLimit parent * DefaultElasticityMultiplier)
    else GasLimit parent in
  VerifyGaslimit parentGasLimit (GasLimit header);;
  failIf (bool_decide (BaseFee header = None)) ErrHeaderMissingBaseFee;;
  failIf (IsLondon c (Number parent) && bool_decide (BaseFee parent = None)) ErrParentMissingBaseFee;;
  if match Bor c with Some b => IsLisovo b (Number header) | None => false end
  then verifyBaseFeeWithinBoundaries parent header
  else
    expectedBaseFee ← orPanic "division by zero" (CalcBaseFee c parent);
    failIf (negb (default 0 (BaseFee header) =? expectedBaseFee)) ErrInvalidBaseFee.

(** ** Lemmas *)

Lemma BaseFeeChangeDenominator_pos b number : 0 < BaseFeeChangeDenominator b number.
Proof.
  unfold BaseFeeChangeDenominator, DefaultBaseFeeChangeDenominator,
    BaseFeeChangeDenominatorPostBhilai, BaseFeeChangeDenominatorPostDelhi.
  destruct b as [b|]; [|lia]. destruct (cfgBaseFeeChangeDenominator b) as [v|].
  - destruct (IsLisovo b number && (0 <? v)) eqn:E; [bool_to_prop; lia|]. repeat case_if; lia.
  - repeat case_if; lia.
Qed.

Lemma validPercentage_range p d : 1 <= d <= 100 -> 1 <= default d (validPercentage p) <= 100.
Proof.
  intros Hd. destruct p as [v|]; cbn; [|done].
  destruct ((0 <? v) && (v <=? 100)) eqn:E; cbn; [bool_to_prop; lia|done].
Qed.

(** Whatever a node configures, after Dandeli the target is a percentage. *)
Lemma GetDynamicTargetGasPercentage_range b fee number :
  IsDandeli b number = true -> 1 <= GetDynamicTargetGasPercentage b fee number <= 100.
Proof.
  intros Hd.
  assert (Hs : 1 <= GetTargetGasPercentage b number <= 100).
  { unfold GetTargetGasPercentage, TargetGasPercentagePostDandeli. rewrite Hd. cbn [negb].
    case_if; [apply validPercentage_range|]; lia. }
  unfold GetDynamicTargetGasPercentage. case_if; [done|].
  destruct fee as [f|]; [|done]. destruct (TargetBaseFee b) as [t|]; [|done].
  repeat case_if; try done; by apply validPercentage_range.
Qed.

(** The fee moves towards the target, and never by more than the cap once the
    cap applies. *)
Lemma CalcBaseFee_spec c parent baseFee :
  IsLondon c (Number parent) = true -> BaseFee parent = Some baseFee -> 0 <= baseFee ->
  0 <= GasUsed parent -> 0 < calcParentGasTarget c parent ->
  exists fee, CalcBaseFee c parent = Some fee /\ 0 <= fee /\
    (GasUsed parent = calcParentGasTarget c parent -> fee = baseFee) /\
    (calcParentGasTarget c parent < GasUsed parent -> baseFee < fee) /\
    (GasUsed parent < calcParentGasTarget c parent -> fee <= baseFee) /\
    (match Bor c with Some b => IsLisovo b (Number parent) | None => false end = true ->
     Z.abs (fee - baseFee) <= maxAllowedChange baseFee).
Proof.
  intros HL Hb Hb0 Hu Ht. unfold CalcBaseFee. rewrite Hb, HL. cbn [negb].
  set (T := calcParentGasTarget c parent) in *. set (U := GasUsed parent) in *.
  pose proof (BaseFeeChangeDenominator_pos (Bor c) (Number parent)) as Hd.
  set (D := BaseFeeChangeDenominator (Bor c) (Number parent)) in *.
  set (lis := match Bor c with Some b => IsLisovo b (Number parent) | None => false end).
  assert (Hcap1 : 1 <= maxAllowedChange baseFee) by (unfold maxAllowedChange; case_if; bool_to_prop; lia).
  destruct (Z.eqb_spec U T) as [E|E].
  { exists baseFee. split_and!; try done; try lia. }
  rewrite (proj2 (Z.eqb_neq T 0)) by lia.
  assert (Hnum : forall x, 0 <= x -> 0 <= x * baseFee / T / D).
  { intros x Hx. apply Z.div_pos; [|lia]. apply Z.div_pos; [|lia]. by apply Z.mul_nonneg_nonneg. }
  destruct (Z.ltb_spec T U) as [Hlt|Hge].
  - set (num := (U - T) * baseFee / T / D). pose proof (Hnum (U - T) ltac:(lia)) as Hn. fold num in Hn.
    eexists. split; [done|]. destruct lis eqn:El; cbn [andb]; repeat case_if; bool_to_prop; split_and!; intros; lia.
  - set (num := (T - U) * baseFee / T / D). pose proof (Hnum (T - U) ltac:(lia)) as Hn. fold num in Hn.
    eexists. split; [done|]. destruct lis eqn:El; cbn [andb]; repeat case_if; bool_to_prop; split_and!; intros; lia.
Qed.

(** ** Properties *)

(** C40: [VerifyGaslimit] accepts exactly the limits that differ from the parent's
    by less than a 1024th of it and are at least the minimum, for all limits the
    header check lets through (up to 2^63-1), without overflow. *)
Theorem VerifyGaslimit_iff {S} parentGasLimit headerGasLimit (s : S) :
  0 <= parentGasLimit <= MaxInt64 -> 0 <= headerGasLimit <= MaxInt64 ->
  VerifyGaslimit parentGasLimit headerGasLimit s = Done s tt <->
  Z.abs (parentGasLimit - headerGasLimit) < parentGasLimit / GasLimitBoundDivisor /\
  MinGasLimit <= headerGasLimit.
Proof.
  intros Hp Hh. unfold VerifyGaslimit.
  rewrite (i64_small parentGasLimit), (i64_small headerGasLimit) by wsolve.
  rewrite (i64_small (parentGasLimit - headerGasLimit)) by wsolve.
  assert (E : u64 (if parentGasLimit - headerGasLimit <? 0
                   then i64 ((parentGasLimit - headerGasLimit) * -1)
                   else parentGasLimit - headerGasLimit) = Z.abs (parentGasLimit - headerGasLimit)).
  { case_if; bool_to_prop; [rewrite i64_small by wsolve|]; rewrite u64_small; wsolve. }
  rewrite E. destruct (Z.leb_spec (parentGasLimit / GasLimitBoundDivisor) (Z.abs (parentGasLimit - headerGasLimit))).
  - split; [done|lia].
  - destruct (Z.ltb_spec headerGasLimit MinGasLimit); split; try done; lia.
Qed.

Lemma VerifyGaslimit_iff_witness :
  VerifyGaslimit 30000000 30020000 tt = Done tt tt <->
  Z.abs (30000000 - 30020000) < 30000000 / GasLimitBoundDivisor /\ MinGasLimit <= 30020000.
Proof. apply (VerifyGaslimit_iff 30000000 30020000 tt); wsolve. Defined.

(** After Lisovo the base fee a producer computes passes the boundary check
    of every verifier, whatever gas target and change denominator either of them
    configured: the cap of [CalcBaseFee] is the bound of
    [verifyBaseFeeWithinBoundaries], also for very low fees. *)
Theorem CalcBaseFee_accepted {S} c b parent header baseFee (s : S) :
  Bor c = Some b -> IsLisovo b (Number parent) = true ->
  IsLondon c (Number parent) = true -> BaseFee parent = Some baseFee -> 0 <= baseFee ->
  0 <= GasUsed parent -> 0 < calcParentGasTarget c parent ->
  BaseFee header = CalcBaseFee c parent ->
  verifyBaseFeeWithinBoundaries parent header s = Done s tt.
Proof.
  intros Hc Hl HL Hb Hb0 Hu Ht Hh.
  destruct (CalcBaseFee_spec c parent baseFee HL Hb Hb0 Hu Ht) as (fee & E & Hf0 & _ & _ & _ & Hcap).
  rewrite Hc in Hcap. specialize (Hcap Hl).
  unfold verifyBaseFeeWithinBoundaries. rewrite Hb, Hh, E.
  destruct (Z.leb_spec baseFee fee); rewrite (proj2 (Z.ltb_ge _ _)) by lia; done.
Qed.

(** A chain on which Lisovo is active. *)
Definition demoParent : Header := HeaderProps.demoHeader 500 1000 [].

Definition demoChild (fee : option Z) : Header :=
  mkHeader 0 0 0 0 0 0 0 (Some 1) (Some 501) 30000000 0 1002 [] 0 0 fee
    None None None None None None false.

Lemma CalcBaseFee_accepted_witness :
  verifyBaseFeeWithinBoundaries demoParent
    (demoChild (CalcBaseFee HeaderProps.demoCancun demoParent)) tt = Done tt tt.
Proof.
  apply (CalcBaseFee_accepted HeaderProps.demoCancun ConfigProps.demoBor demoParent _ 1000 tt);
    try reflexivity; vm_compute; congruence.
Defined.

(** The base fee follows demand: it stays when the parent used its target,
    rises strictly when it used more, never rises when it used less, and is never
    negative; with a positive gas target the computation never divides by zero. *)
Theorem CalcBaseFee_follows_demand c parent baseFee :
  IsLondon c (Number parent) = true -> BaseFee parent = Some baseFee -> 0 <= baseFee ->
  0 <= GasUsed parent -> 0 < calcParentGasTarget c parent ->
  exists fee, CalcBaseFee c parent = Some fee /\ 0 <= fee /\
    (GasUsed parent = calcParentGasTarget c parent -> fee = baseFee) /\
    (calcParentGasTarget c parent < GasUsed parent -> baseFee < fee) /\
    (GasUsed parent < calcParentGasTarget c parent -> fee <= baseFee).
Proof.
  intros HL Hb Hb0 Hu Ht.
  destruct (CalcBaseFee_spec c parent baseFee HL Hb Hb0 Hu Ht) as (fee & ? & ? & ? & ? & ? & _).
  by exists fee.
Qed.

Lemma CalcBaseFee_follows_demand_witness :
  exists fee, CalcBaseFee HeaderProps.demoCancun demoParent = Some fee /\ 0 <= fee /\ fee <= 1000.
Proof.
  destruct (CalcBaseFee_follows_demand HeaderProps.demoCancun demoParent 1000)
    as (fee & E & H0 & _ & _ & Hle); try reflexivity; try (vm_compute; congruence).
  exists fee. split; [exact E|]. split; [exact H0|]. apply Hle. vm_compute. reflexivity.
Defined.

(** After Dandeli the gas target is a share of the parent's gas limit: it never
    exceeds the limit, and it is positive, so the base fee computation is defined,
    for every limit the network allows (at least [MinGasLimit], and below the
    point where the percentage would overflow 64 bits). *)
Theorem calcParentGasTarget_bounds c b parent :
  Bor c = Some b -> IsDandeli b (Number parent) = true ->
  MinGasLimit <= GasLimit parent <= MaxUint64 / 100 ->
  0 < calcParentGasTarget c parent <= GasLimit parent.
Proof.
  intros Hc Hd Hl. unfold calcParentGasTarget. rewrite Hc, Hd.
  pose proof (GetDynamicTargetGasPercentage_range b (BaseFee parent) (Number parent) Hd) as Hp.
  set (p := GetDynamicTargetGasPercentage _ _ _) in *. unfold MinGasLimit in Hl.
  assert (HM : MaxUint64 / 100 * 100 <= MaxUint64) by (vm_compute; congruence).
  rewrite u64_small by (unfold is_u64; nia). split.
  - apply Z.div_str_pos. nia.
  - apply Z.div_le_upper_bound; [lia|]. nia.
Qed.

Lemma calcParentGasTarget_bounds_witness :
  0 < calcParentGasTarget HeaderProps.demoCancun demoParent <= 30000000.
Proof.
  apply (calcParentGasTarget_bounds HeaderProps.demoCancun ConfigProps.demoBor demoParent);
    try reflexivity. vm_compute. split; congruence.
Defined.

(** A block at which London and Lisovo both start cannot be verified: its
    parent has no base fee, and the boundary check reads it; the verifier panics
    instead of accepting the initial base fee that the producer computes. *)
Theorem VerifyEIP1559Header_first_block_panics {S} c b parent header (s : S) :
  Bor c = Some b -> IsLisovo b (Number header) = true ->
  IsLondon c (Number parent) = false -> BaseFee parent = None ->
  BaseFee header = CalcBaseFee c parent ->
  VerifyGaslimit (u64 (GasLimit parent * DefaultElasticityMultiplier)) (GasLimit header) s = Done s tt ->
  VerifyEIP1559Header c parent header s = Panicked "nil pointer dereference".
Proof.
  intros Hc Hl HL Hp Hh Hg. unfold VerifyEIP1559Header. rewrite HL. cbn [negb].
  unfold mbind, st_bind. rewrite Hg. unfold CalcBaseFee in Hh. rewrite Hp in Hh. rewrite Hh, Hc, Hl.
  cbn. unfold verifyBaseFeeWithinBoundaries. by rewrite Hp.
Qed.

Lemma VerifyEIP1559Header_first_block_panics_witness :
  VerifyEIP1559Header (ConfigProps.demoChain 500)
    (mkHeader 0 0 0 0 0 0 0 (Some 1) (Some 499) 15000000 0 1000 [] 0 0 None
       None None None None None None false)
    (demoChild (Some InitialBaseFee)) tt = Panicked "nil pointer dereference".
Proof.
  apply (VerifyEIP1559Header_first_block_panics (ConfigProps.demoChain 500) ConfigProps.demoBor);
    reflexivity.
Defined.

End Eip1559.
