(* ===== verification/BorTypes.v ===== *)
(** * Shared types of the Bor engine (consensus/bor)

    Caches, spans, the errors of the engine, and hexadecimal addresses. *)

From Stdlib Require Import Ascii.
From S2P Require Import Prelude Bytes Valset ValsetBytes Eip1559.

Module BorTypes.
Import Bytes Valset ValsetBytes.

(** ** Caches

    The engine keeps its recent results in caches of third-party packages
    (hashicorp/golang-lru, jellydator/ttlcache).  They may forget an entry at any
    operation, by eviction or expiry, but never make one up; a lookup may change
    which entry is evicted next. *)

Class Cache (C : Type -> Type) := {
  cempty : forall V, C V;
  cget : forall V, Z -> C V -> option V * C V;
  cadd : forall V, Z -> V -> C V -> C V;
  cget_empty : forall V k, (cget V k (cempty V)).1 = None;
  cget_get : forall V k k' c x,
    (cget V k (cget V k' c).2).1 = Some x -> (cget V k c).1 = Some x;
  cget_add : forall V k k' v c x,
    (cget V k (cadd V k' v c)).1 = Some x -> (k = k' /\ x = v) \/ (cget V k c).1 = Some x
}.
Arguments cempty {C _ V}.
Arguments cget {C _ V} k c.
Arguments cadd {C _ V} k v c.

(** A cache that forgets nothing. *)
#[export] Instance gmap_cache : Cache (gmap Z).
Proof.
  refine {| cempty := fun V => ∅;
            cget := fun V k m => (m !! k, m);
            cadd := fun V k v m => <[k := v]> m |}.
  - intros. apply lookup_empty.
  - intros V k k' c x H. exact H.
  - intros V k k' v c x H. cbn in *. destruct (decide (k' = k)) as [->|Hn].
    + rewrite lookup_insert_eq in H. left. split; congruence.
    + rewrite lookup_insert_ne in H by done. by right.
Defined.

(** A cache of one entry. *)
Definition lastOnly (V : Type) : Type := option (Z * V).

#[export] Instance lastOnly_cache : Cache lastOnly.
Proof.
  refine {| cempty := fun V => None;
            cget := fun V k c => (match c with
                                  | Some (k', v) => if k' =? k then Some v else None
                                  | None => None
                                  end, c);
            cadd := fun V k v c => Some (k, v) |}.
  - done.
  - intros V k k' c x H. exact H.
  - intros V k k' v c x H. cbn in *. destruct (Z.eqb_spec k' k) as [->|]; [|done].
    left. split; congruence.
Defined.

(** ** Hexadecimal addresses (common/bytes.go, common/types.go) *)

Definition has0xPrefix (s : string) : bool :=
  match s with
  | String "0"%char (String "x"%char _) | String "0"%char (String "X"%char _) => true
  | _ => false
  end.

Definition hexDigit (c : Ascii.ascii) : option Z :=
  let n := Z.of_N (Ascii.N_of_ascii c) in
  if (48 <=? n) && (n <=? 57) then Some (n - 48)
  else if (97 <=? n) && (n <=? 102) then Some (n - 87)
  else if (65 <=? n) && (n <=? 70) then Some (n - 55)
  else None.

(** [hex.DecodeString] returns what it decoded before an invalid character. *)
Fixpoint Hex2Bytes (s : string) : list Z :=
  match s with
  | String a (String b s') =>
      match hexDigit a, hexDigit b with
      | Some x, Some y => (16 * x + y) :: Hex2Bytes s'
      | _, _ => []
      end
  | _ => []
  end.

Definition FromHex (s : string) : list Z :=
  let s := if has0xPrefix s then String.substring 2 (String.length s - 2) s else s in
  let s := if Nat.odd (String.length s) then String "0"%char s else s in
  Hex2Bytes s.

Definition HexToAddress (s : string) : Z := BytesToAddress (FromHex s).

(** ** Spans

    The span type of Heimdall, with the fields the client reads.  Its validators
    carry their signer as a hexadecimal string and every reader decodes it with
    [HexToAddress]; here they are kept decoded. *)

Record Span := mkSpan {
  SpanId : Z;
  SpanStart : Z;
  SpanEnd : Z;
  SelectedProducers : list Validator;
  SpanValidators : list Validator;
  SpanProposer : option Validator;
  BorChainId : string
}.

(** [ConvertHeimdallValSetToBorValSet]: the error of the total is dropped. *)
Definition ConvertHeimdallValSetToBorValSet (sp : Span) : ValidatorSet :=
  let s := mkValidatorSet (SpanValidators sp) (SpanProposer sp) 0 ∅ in
  let s := match UpdateTotalVotingPower s with Done s' _ => s' | _ => s end in
  UpdateValidatorMap s.

(** A Heimdall validator with its signer string, as it arrives. *)
Record HeimdallValidator := mkHeimdallValidator {
  ValId : Z;
  Signer : string;
  hPower : Z;
  hPriority : Z
}.

Definition HeimdallToValSetValidator (h : HeimdallValidator) : Validator :=
  mkValidator (ValId h) (HexToAddress (Signer h)) (hPower h) (hPriority h).

Definition HeimdallToValSetValidators (l : list HeimdallValidator) : list Validator :=
  map HeimdallToValSetValidator l.

(** ** Errors *)

Inductive bor_error :=
| errUnknownBlock
| errMissingVanity
| errMissingSignature
| errNonCanonicalSeal
| errExtraValidators
| errInvalidSpanValidators
| errMissingGiuglianoFields
| errInvalidMixDigest
| errInvalidUncleHash
| errInvalidDifficulty
| ErrInvalidTimestamp
| errOutOfRangeChain
| errUncleDetected
| errUnknownValidators
| errInvalidGasLimit
| errInvalidGasUsed
| errBaseFeeBeforeFork
| ErrFutureBlock
| ErrUnknownAncestor
| ErrInvalidNumber
| ErrUnexpectedWithdrawals
| ErrUnexpectedRequests
| MismatchingValidatorsError (number : Z)
| BlockTooSoonError (number succession : Z)
| UnauthorizedProposerError (number proposer : Z)
| UnauthorizedSignerError (number signer : Z)
| WrongDifficultyError (number expected actual signer : Z)
| InvalidStateReceivedError (number lastStateID : Z)
| errRecover
| errSpanFetch (id : Z)
| errSpanEmpty (id : Z)
| errSpanNotFound (number : Z)
| errDatabase
| errBlockTime
| errSign
| errContractCall
| errChainID
| errValset (e : valset_error)
| errFee (e : Eip1559.fee_error).

End BorTypes.
