(* ===== verification/SpanStore.v ===== *)
(** * The span store (consensus/bor/span_store.go)

    A cache of Heimdall's spans and the search for the span of a block. *)

From S2P Require Import Prelude Bytes Valset ValsetBytes BorTypes.

Module SpanStore.
Import Valset BorTypes.

Definition defaultSpanLength : Z := 6400.
Definition zerothSpanEnd : Z := 255.

Section store.
Context {C : Type -> Type} `{!Cache C}.

(** What the Heimdall client and the genesis contract answer; [None] is an error. *)
Record Heimdall := mkHeimdall {
  GetSpan : Z -> option Span;
  GetLatestSpan : option Span
}.

Record Env := mkEnv {
  heimdallClient : option Heimdall;
  genesisValidators : option (list Validator);
  chainId : string
}.

(** Only the id of the latest span is ever read. *)
Record SpanStore := mkSpanStore {
  store : C Span;
  latestSpanCache : option Z;
  lastUsedSpan : option Span;
  latestKnownSpanId : Z
}.

Abbreviation ss := (st SpanStore bor_error).

Definition setStore (x : C Span) (s : SpanStore) : SpanStore :=
  mkSpanStore x (latestSpanCache s) (lastUsedSpan s) (latestKnownSpanId s).
Definition setLatest (x : option Z) (s : SpanStore) : SpanStore :=
  mkSpanStore (store s) x (lastUsedSpan s) (latestKnownSpanId s).
Definition setLastUsed (x : option Span) (s : SpanStore) : SpanStore :=
  mkSpanStore (store s) (latestSpanCache s) x (latestKnownSpanId s).
Definition setLatestKnown (x : Z) (s : SpanStore) : SpanStore :=
  mkSpanStore (store s) (latestSpanCache s) (lastUsedSpan s) x.

Definition newSpanStore : SpanStore := mkSpanStore cempty None None 0.

(** The poll loop and the cached status are not part of the state. *)
Definition PurgeCache (s : SpanStore) : SpanStore := newSpanStore.

(** The validators are copied through [NewValidatorSet], which panics on an
    illegal set, and the conversion back needs a proposer. *)
Definition updateLatestSpan (env : Env) : ss unit :=
  match heimdallClient env with
  | None => mret tt
  | Some h =>
      match GetLatestSpan h with
      | None => failS (errSpanFetch (-1))
      | Some latestSpan =>
          match NewValidatorSet (SpanValidators latestSpan) with
          | Done vs _ =>
              match Proposer vs with
              | None => panic "nil pointer dereference"
              | Some _ => modify (setLatest (Some (SpanId latestSpan)))
              end
          | _ => panic "cannot create validator set"
          end
      end
  end.

Definition getLatestSpan (env : Env) : ss (option Z) :=
  s ← getS;
  match latestSpanCache s with
  | Some id => mret (Some id)
  | None =>
      updateLatestSpan env;;
      s ← getS;
      mret (latestSpanCache s)
  end.

Definition getMockSpan0 (env : Env) : ss Span :=
  match genesisValidators env with
  | None => failS (errSpanFetch 0)
  | Some [] => failS (errSpanEmpty 0)
  | Some ((v :: _) as vals) => mret (mkSpan 0 0 255 vals vals (Some v) (chainId env))
  end.

Definition fetchSpan (env : Env) (spanId : Z) : ss Span :=
  match heimdallClient env with
  | None => if spanId =? 0 then getMockSpan0 env else failS (errSpanFetch spanId)
  | Some h =>
      match GetSpan h spanId with
      | None => failS (errSpanFetch spanId)
      | Some sp =>
          match SelectedProducers sp with
          | [] => failS (errSpanEmpty spanId)
          | _ => mret sp
          end
      end
  end.

Definition spanById (env : Env) (spanId : Z) : ss Span :=
  s ← getS;
  let '(hit, store') := cget spanId (store s) in
  putS (setStore store' s);;
  match hit with
  | Some sp => mret sp
  | None =>
      sp ← fetchSpan env spanId;
      modify (fun s => setStore (cadd spanId sp (store s)) s);;
      modify (fun s => if latestKnownSpanId s <? SpanId sp then setLatestKnown (SpanId sp) s else s);;
      mret sp
  end.

Definition contains (sp : Span) (blockNumber : Z) : bool :=
  (SpanStart sp <=? blockNumber) && (blockNumber <=? SpanEnd sp).

(** The candidate, or the error when there is none. *)
Definition candidateOr (candidate : option Span) (e : bor_error) : ss (option Span) :=
  match candidate with
  | None => failS e
  | Some sp => mret (Some sp)
  end.

Fixpoint getFutureSpan_loop (fuel : nat) (env : Env) (latest id blockNumber : Z)
    (candidateSpan : option Span) (skippedSpans : Z) : ss (option Span) :=
  match fuel with
  | O => panic "out of fuel"
  | S fuel' =>
      if latest <? id then candidateOr candidateSpan (errSpanNotFound blockNumber) else
      fun s =>
        match spanById env id s with
        | Panicked w => Panicked w
        | Fail s' e => candidateOr candidateSpan e s'
        | Done s' sp =>
            let inside := contains sp blockNumber in
            let candidateSpan := if inside then Some sp else candidateSpan in
            let skippedSpans := if inside then 0 else skippedSpans in
            if blockNumber <? SpanStart sp then
              let skippedSpans := skippedSpans + 1 in
              if 1 <? skippedSpans then candidateOr candidateSpan (errSpanNotFound blockNumber) s'
              else getFutureSpan_loop fuel' env latest (u64 (id + 1)) blockNumber candidateSpan skippedSpans s'
            else getFutureSpan_loop fuel' env latest (u64 (id + 1)) blockNumber candidateSpan skippedSpans s'
        end
  end.

(** No span is returned, and no error, when the latest span is not known.  The
    fuel covers the ids up to the latest. *)
Definition getFutureSpan (env : Env) (id blockNumber : Z) : ss (option Span) :=
  latest ← getLatestSpan env;
  match latest with
  | None => mret None
  | Some latest =>
      getFutureSpan_loop (Z.to_nat (latest + 2 - id) + 1) env latest id blockNumber None 0
  end.

Definition estimateSpanId (blockNumber : Z) (s : SpanStore) : Z :=
  if (zerothSpanEnd <? blockNumber) && (0 <? blockNumber) then
    let uniform := u64 (1 + u64 (u64 (blockNumber - zerothSpanEnd) - 1) / defaultSpanLength) in
    match lastUsedSpan s with
    | Some last =>
        if SpanEnd last <? blockNumber then
          u64 (u64 (SpanId last + 1) + u64 (u64 (blockNumber - SpanEnd last) - 1) / defaultSpanLength)
        else if blockNumber <? SpanStart last then
          let spansToDecrement := u64 (1 + u64 (u64 (SpanStart last - blockNumber) - 1) / defaultSpanLength) in
          if spansToDecrement <=? SpanId last then SpanId last - spansToDecrement else uniform
        else SpanId last
    | None => uniform
    end
  else 0.

(** The backward search: the first span that contains the block, or a jump to the
    future spans when the block is past the first span looked at. *)
Inductive searchResult := Found (sp : Span) | Future | NotFound.

Fixpoint search_loop (n : nat) (env : Env) (first : bool) (blockNumber : Z) : ss searchResult :=
  sp ← spanById env (Z.of_nat n);
  if contains sp blockNumber then mret (Found sp)
  else if first && (SpanEnd sp <? blockNumber) then mret Future
  else match n with
       | O => mret NotFound
       | S n' => search_loop n' env false blockNumber
       end.

Definition search (env : Env) (estimatedSpanId blockNumber : Z) : ss searchResult :=
  let id := i64 estimatedSpanId in
  if id <? 0 then mret NotFound else search_loop (Z.to_nat id) env true blockNumber.

Definition rememberUsed (res : option Span) : ss (option Span) :=
  match res with
  | Some sp =>
      (match SelectedProducers sp with
       | [] => mret tt
       | _ => modify (setLastUsed res)
       end);;
      mret res
  | None => mret res
  end.

(** A known span was found; a newer one that contains the block replaces it. *)
Definition preferFuture (env : Env) (id blockNumber : Z) (sp : Span) : ss (option Span) :=
  fun s =>
    match getFutureSpan env id blockNumber s with
    | Done s' (Some futureSpan) => rememberUsed (Some futureSpan) s'
    | Done s' None => rememberUsed (Some sp) s'
    | Fail s' _ => rememberUsed (Some sp) s'
    | Panicked w => Panicked w
    end.

(** Waiting until Heimdall is synced has no effect on the result. *)
Definition spanByBlockNumber (env : Env) (blockNumber : Z) : ss (option Span) :=
  s ← getS;
  let estimatedSpanId := estimateSpanId blockNumber s in
  found ← search env estimatedSpanId blockNumber;
  match found with
  | Future =>
      res ← getFutureSpan env (u64 (estimatedSpanId + 1)) blockNumber;
      rememberUsed res
  | Found sp => preferFuture env (u64 (estimatedSpanId + 1)) blockNumber sp
  | NotFound => failS (errSpanNotFound blockNumber)
  end.

(** One turn of [waitForNewSpan]: is the span of the block produced by somebody
    else than the current author? *)
Definition isNewSpan (sp : Span) (targetBlockNumber currentHeaderAuthor : Z) : bool :=
  contains sp targetBlockNumber &&
  match SelectedProducers sp with
  | p :: _ => negb (Address p =? currentHeaderAuthor)
  | [] => false
  end.

(** The wait: one answer of the environment per turn, until the deadline, after
    which the result is [false]. *)
Fixpoint waitLoop (turns : list Env) (currentSpan : option Span)
    (targetBlockNumber currentHeaderAuthor : Z) : ss bool :=
  match currentSpan with
  | None => panic "nil pointer dereference"
  | Some sp =>
      if isNewSpan sp targetBlockNumber currentHeaderAuthor then mret true
      else match turns with
           | [] => mret false
           | env :: turns' =>
               sp' ← spanByBlockNumber env targetBlockNumber;
               waitLoop turns' sp' targetBlockNumber currentHeaderAuthor
           end
  end.

Definition waitForNewSpan (env : Env) (turns : list Env)
    (targetBlockNumber currentHeaderAuthor : Z) : ss bool :=
  sp ← spanByBlockNumber env targetBlockNumber;
  waitLoop turns sp targetBlockNumber currentHeaderAuthor.

End store.

Arguments SpanStore C : clear implicits.

End SpanStore.
