(* ===== verification/SpanProps.v ===== *)
(** * The span store finds the newest span of a block *)

From S2P Require Import Prelude Bytes Valset ValsetBytes BorTypes SpanStore.

Module SpanProps.
Import Valset BorTypes SpanStore.

(** ** The search against a table of spans *)

Section search.
Context {C : Type -> Type} `{!Cache C}.
Context (h : Heimdall) (gv : option (list Validator)) (cid : string).

Abbreviation env := (mkEnv (Some h) gv cid).

(** What Heimdall answers for an id, and the client accepts. *)
Definition spanAt (id : Z) (sp : Span) : Prop :=
  GetSpan h id = Some sp /\ SelectedProducers sp <> [].

Lemma spanAt_fun id sp sp' : spanAt id sp -> spanAt id sp' -> sp = sp'.
Proof. intros [? _] [? _]. congruence. Qed.

(** The cache holds nothing but Heimdall's answers. *)
Definition coherent (s : SpanStore C) : Prop :=
  forall id sp, (cget id (store s)).1 = Some sp -> spanAt id sp.

(** The state after reading spans: the cache stays coherent, the rest is kept. *)
Definition sameBut (s s' : SpanStore C) : Prop :=
  coherent s' /\ latestSpanCache s' = latestSpanCache s /\ lastUsedSpan s' = lastUsedSpan s.

Lemma sameBut_trans s1 s2 s3 : sameBut s1 s2 -> sameBut s2 s3 -> sameBut s1 s3.
Proof. intros (? & ? & ?) (? & ? & ?). split_and!; [done|congruence..]. Qed.

Lemma sameBut_refl s : coherent s -> sameBut s s.
Proof. done. Qed.

Lemma spanById_ok s id sp :
  coherent s -> spanAt id sp ->
  exists s', spanById env id s = Done s' sp /\ sameBut s s'.
Proof.
  intros Hc Hsp. unfold spanById, mbind, st_bind, getS, putS.
  pose proof (Hc id) as Hid. pose proof (fun k x => cget_get (C := C) Span k id (store s) x) as Hg.
  destruct (cget id (store s)) as [hit store'] eqn:E. cbn [fst snd] in *.
  destruct hit as [sp'|].
  - assert (sp' = sp) as -> by (by eapply spanAt_fun; [apply Hid|]).
    eexists. split; [done|]. split; [|done]. intros k x Hk. cbn in Hk. by apply Hc, Hg.
  - cbn. destruct Hsp as [Hh Hp]. unfold fetchSpan. cbn. rewrite Hh.
    destruct (SelectedProducers sp) as [|p ps] eqn:Ep; [done|]. cbn.
    eexists. split; [done|]. split.
    + intros k x Hk. assert (Hk' : (cget k (cadd id sp store')).1 = Some x).
      { revert Hk. cbn. by case_if. }
      apply cget_add in Hk' as [[-> ->]|Hk']; [by split; [|rewrite Ep]|by apply Hc, Hg].
    + cbn. by case_if.
Qed.

(** What a fetch of an id that is not served ends with. *)
Definition fetchFails (id : Z) (e : bor_error) : Prop :=
  match GetSpan h id with
  | None => e = errSpanFetch id
  | Some sp => SelectedProducers sp = [] /\ e = errSpanEmpty id
  end.

Lemma fetchFails_unserved id e sp : fetchFails id e -> ~ spanAt id sp.
Proof. unfold fetchFails. intros H [E Hp]. rewrite E in H. by destruct H. Qed.

Lemma served_dec id : (exists sp, spanAt id sp) \/ exists e, fetchFails id e.
Proof.
  unfold spanAt, fetchFails. destruct (GetSpan h id) as [sp|] eqn:E; [|right; by eexists].
  destruct (SelectedProducers sp) as [|p ps] eqn:Ep; [right; by eexists|].
  left. exists sp. split; [done|congruence].
Qed.

Lemma spanById_fails s id e :
  coherent s -> fetchFails id e -> exists s', spanById env id s = Fail s' e /\ sameBut s s'.
Proof.
  intros Hc Hf. unfold spanById, mbind, st_bind, getS, putS.
  pose proof (Hc id) as Hid. pose proof (fun k x => cget_get (C := C) Span k id (store s) x) as Hg.
  destruct (cget id (store s)) as [hit store'] eqn:E. cbn [fst snd] in *.
  destruct hit as [sp'|]; [by destruct (fetchFails_unserved _ _ sp' Hf); apply Hid|].
  exists (setStore store' s). split.
  - unfold fetchSpan. cbn. unfold fetchFails in Hf. destruct (GetSpan h id) as [sp|]; [|by subst].
    destruct Hf as [-> ->]. done.
  - split; [|done]. intros k x Hk. by apply Hc, Hg.
Qed.

(** No span with an id in [lo, hi] contains the block. *)
Definition noneIn (lo hi b : Z) : Prop :=
  forall j sp, lo <= j <= hi -> spanAt j sp -> contains sp b = false.

(** [sp] is the newest span with an id in [lo, hi] that contains the block. *)
Definition newestIn (lo hi b : Z) (sp : Span) : Prop :=
  exists id, lo <= id <= hi /\ spanAt id sp /\ contains sp b = true /\ noneIn (id + 1) hi b.

Lemma newestIn_extend lo lo' hi b sp : lo' <= lo -> newestIn lo hi b sp -> newestIn lo' hi b sp.
Proof. intros Hl (id & ? & ? & ? & ?). exists id. split_and!; try done; lia. Qed.

Lemma noneIn_app lo mid hi b : noneIn lo mid b -> noneIn (mid + 1) hi b -> noneIn lo hi b.
Proof. intros H1 H2 j sp Hj. destruct (decide (j <= mid)); [apply H1|apply H2]; lia. Qed.

Lemma noneIn_sub lo hi lo' hi' b : noneIn lo hi b -> lo <= lo' -> hi' <= hi -> noneIn lo' hi' b.
Proof. intros H ? ? j sp Hj. apply H. lia. Qed.

Lemma noneIn_one id b sp : spanAt id sp -> contains sp b = false -> noneIn id id b.
Proof. intros Hs Hc j sp' Hj Hs'. replace j with id in Hs' by lia. by rewrite (spanAt_fun _ _ _ Hs' Hs). Qed.

Lemma newestIn_app lo mid hi b sp : newestIn lo mid b sp -> noneIn (mid + 1) hi b -> mid <= hi -> newestIn lo hi b sp.
Proof.
  intros (id & ? & ? & ? & Hn) H2 ?. exists id. split_and!; try done; [lia|lia|]. by eapply noneIn_app.
Qed.

Lemma newestIn_one lo id b sp : lo <= id -> spanAt id sp -> contains sp b = true -> newestIn lo id b sp.
Proof. intros. exists id. split_and!; try done; try lia. intros j ? ?. lia. Qed.

(** *** How far the search for newer spans goes *)

(** The span with this id begins after the block. *)
Definition late (b id : Z) : Prop := exists sp, spanAt id sp /\ b < SpanStart sp.

(** [hi] is the second span from [lo] on that begins after the block, since the last
    one that contains it. *)
Definition gaveUp (lo hi b : Z) : Prop :=
  exists i, lo <= i < hi /\ late b i /\ late b hi /\ noneIn i hi b.

(** The search from [lo] looks at the ids up to [hi]: up to the latest known one, the
    one before the first that is not served, or the first at which it gives up. *)
Record scanned (lo latest hi b : Z) : Prop := mkScanned {
  sc_from : lo - 1 <= hi;
  sc_served : forall j, lo <= j <= hi -> exists sp, spanAt j sp;
  sc_on : forall k, k < hi -> ~ gaveUp lo k b;
  sc_end : hi = Z.max latest (lo - 1) \/ (hi < latest /\ exists e, fetchFails (hi + 1) e) \/ (hi <= latest /\ gaveUp lo hi b)
}.

(** The loop's count of spans that begin after the block. *)
Definition counted (lo id b skipped : Z) : Prop :=
  (skipped = 0 /\ forall i, lo <= i < id -> late b i -> ~ noneIn i (id - 1) b) \/
  (skipped = 1 /\ exists i, lo <= i < id /\ late b i /\ noneIn i (id - 1) b /\
     forall k, lo <= k < id -> late b k -> noneIn k (id - 1) b -> k = i).

Lemma counted_inside lo id b skipped sp :
  counted lo id b skipped -> spanAt id sp -> contains sp b = true -> counted lo (id + 1) b 0.
Proof.
  intros _ Hs Hc. left. split; [done|]. intros i Hi _ Hn.
  assert (contains sp b = false) by (apply (Hn id); [lia|done]). congruence.
Qed.

Lemma counted_passed lo id b skipped sp :
  lo <= id -> counted lo id b skipped -> spanAt id sp -> contains sp b = false -> ~ late b id ->
  counted lo (id + 1) b skipped.
Proof.
  intros Hlo Hk Hs Hc Hnl.
  assert (Hback : forall i, noneIn i (id + 1 - 1) b -> noneIn i (id - 1) b) by (intros i Hn; eapply noneIn_sub; [exact Hn|lia|lia]).
  assert (Hlt : forall i, lo <= i < id + 1 -> late b i -> lo <= i < id).
  { intros i Hi Hl. destruct (decide (i = id)) as [->|]; [done|lia]. }
  destruct Hk as [[-> H]|[-> (i & Hi & Hl & Hn & Hu)]].
  - left. split; [done|]. intros i Hi Hl Hn. by eapply H; [apply Hlt|..|apply Hback].
  - right. split; [done|]. exists i. split; [lia|]. split; [done|]. split.
    + replace (id + 1 - 1) with id by lia. eapply noneIn_app; [exact Hn|]. replace (id - 1 + 1) with id by lia.
      by eapply noneIn_one.
    + intros k Hkk Hlk Hnk. apply Hu; auto.
Qed.

Lemma counted_late lo id b sp :
  lo <= id -> counted lo id b 0 -> spanAt id sp -> contains sp b = false -> late b id -> counted lo (id + 1) b 1.
Proof.
  intros Hlo [[_ H]|[? _]] Hs Hc Hl; [|done]. right. split; [done|]. exists id. split; [lia|]. split; [done|]. split.
  - replace (id + 1 - 1) with id by lia. by eapply noneIn_one.
  - intros k Hk Hlk Hn. destruct (decide (k = id)); [done|]. exfalso. apply (H k); [lia|done|].
    eapply noneIn_sub; [exact Hn|lia|lia].
Qed.

Lemma counted_gaveUp lo id b skipped :
  counted lo id b skipped -> (gaveUp lo id b <-> skipped = 1 /\ late b id /\ forall sp, spanAt id sp -> contains sp b = false).
Proof.
  intros Hk. split.
  - intros (i & Hi & Hl & Hlid & Hn). split; [|split; [done|]].
    + destruct Hk as [[-> H]|[-> _]]; [|done]. exfalso. apply (H i); [lia|done|]. eapply noneIn_sub; [exact Hn|lia|lia].
    + intros sp Hs. apply (Hn id); [lia|done].
  - intros (-> & Hlid & Hc). destruct Hk as [[? _]|[_ (i & Hi & Hl & Hn & _)]]; [done|].
    exists i. split; [done|]. split; [done|]. split; [done|].
    eapply noneIn_app; [exact Hn|]. intros j sp Hj. replace j with id by lia. apply Hc.
Qed.

(** What has been found among the ids before [id]. *)
Definition candidate (lo id b : Z) (cand : option Span) : Prop :=
  match cand with Some sp => newestIn lo (id - 1) b sp | None => noneIn lo (id - 1) b end.

(** How the search for newer spans ends. *)
Definition ahead (lo latest b : Z) (s : SpanStore C) (o : outcome (SpanStore C) bor_error (option Span)) : Prop :=
  match o with
  | Done s' (Some sp) => sameBut s s' /\ exists hi, scanned lo latest hi b /\ newestIn lo hi b sp
  | Fail s' e => sameBut s s' /\ exists hi, scanned lo latest hi b /\ noneIn lo hi b /\
                   (e = errSpanNotFound b \/ hi < latest /\ fetchFails (hi + 1) e)
  | _ => False
  end.

Lemma ahead_end lo latest hi b cand e s s' :
  sameBut s s' -> scanned lo latest hi b -> candidate lo (hi + 1) b cand ->
  e = errSpanNotFound b \/ hi < latest /\ fetchFails (hi + 1) e ->
  ahead lo latest b s (candidateOr cand e s').
Proof.
  unfold candidate. rewrite Z.add_simpl_r. destruct cand as [sp|]; cbn; intros; (split; [done|]); exists hi; done.
Qed.

Lemma future_loop_ok fuel lo s latest id b cand skipped :
  coherent s -> 0 <= lo -> lo <= id <= Z.max latest (lo - 1) + 1 -> latest < MaxUint64 ->
  (forall j, lo <= j < id -> exists sp, spanAt j sp) -> (forall k, k < id -> ~ gaveUp lo k b) ->
  counted lo id b skipped -> candidate lo id b cand ->
  (Z.to_nat (latest + 1 - id) < fuel)%nat ->
  ahead lo latest b s (getFutureSpan_loop fuel env latest id b cand skipped s).
Proof.
  revert s id cand skipped. induction fuel as [|fuel IH]; intros s id cand skipped Hc Hlo Hid HL Hsv Hng Hk Hcand Hf; [lia|].
  cbn [getFutureSpan_loop]. destruct (Z.ltb_spec latest id) as [Hlt|Hle].
  { apply (ahead_end lo latest (id - 1)); [done| |by rewrite Z.sub_add|by left].
    split; [lia|intros; apply Hsv; lia|intros; apply Hng; lia|left; lia]. }
  destruct (served_dec id) as [[sp Hsp]|[e He]].
  2: { destruct (spanById_fails s id e Hc He) as (s1 & E & Hs1). rewrite E.
       apply (ahead_end lo latest (id - 1)); [done| |by rewrite Z.sub_add|right; rewrite Z.sub_add; split; [lia|done]].
       split; [lia|intros; apply Hsv; lia|intros; apply Hng; lia|right; left; rewrite Z.sub_add; split; [lia|by exists e]]. }
  destruct (spanById_ok s id sp Hc Hsp) as (s1 & E & Hs1). rewrite E.
  assert (Eu : u64 (id + 1) = id + 1) by (apply u64_small; wsolve). rewrite Eu.
  assert (Hsv' : forall j, lo <= j < id + 1 -> exists sp, spanAt j sp).
  { intros j Hj. destruct (decide (j = id)) as [->|]; [by exists sp|apply Hsv; lia]. }
  assert (Hcand' : candidate lo (id + 1) b (if contains sp b then Some sp else cand)).
  { unfold candidate. rewrite Z.add_simpl_r. destruct (contains sp b) eqn:Ec; [by apply newestIn_one; [lia|..]|].
    pose proof (noneIn_one id b sp Hsp Ec) as H1. destruct cand as [c|]; cbn in Hcand.
    - eapply newestIn_app; [exact Hcand|by rewrite Z.sub_add|lia].
    - eapply noneIn_app; [exact Hcand|by rewrite Z.sub_add]. }
  assert (Hrec : forall skipped', counted lo (id + 1) b skipped' -> ~ gaveUp lo id b ->
    ahead lo latest b s (getFutureSpan_loop fuel env latest (id + 1) b (if contains sp b then Some sp else cand) skipped' s1)).
  { intros skipped' Hk' Hg.
    specialize (IH s1 (id + 1) (if contains sp b then Some sp else cand) skipped' (proj1 Hs1) Hlo ltac:(lia) HL Hsv').
    specialize (IH ltac:(intros k ?; destruct (decide (k = id)) as [->|]; [done|apply Hng; lia]) Hk' Hcand' ltac:(lia)).
    unfold ahead in IH |- *. destruct (getFutureSpan_loop fuel env latest (id + 1) b _ skipped' s1) as [s2 [sp2|]|s2 e|]; try done;
      destruct IH as [Hs2 ?]; (split; [by eapply sameBut_trans|done]). }
  pose proof (counted_gaveUp lo id b skipped Hk) as Hgu.
  destruct (Z.ltb_spec b (SpanStart sp)) as [Hb|Hb].
  - assert (Hni : contains sp b = false) by (unfold contains; apply andb_false_iff; left; apply Z.leb_gt; lia).
    assert (Hl : late b id) by (by exists sp). rewrite Hni in *.
    assert (skipped = 0 \/ skipped = 1) as [->| ->] by (destruct Hk as [[? _]|[? _]]; auto).
    + change (1 <? 0 + 1) with false. cbv iota. apply Hrec; [by apply (counted_late lo id b sp); [lia|..]|]. intros [? _]%Hgu. done.
    + change (1 <? 1 + 1) with true. cbv iota. apply (ahead_end lo latest id); [done| |done|by left].
      split; [lia|intros; apply Hsv'; lia|exact Hng|]. right. right. split; [done|]. apply Hgu.
      split; [done|]. split; [done|]. intros sp' Hsp'. by rewrite (spanAt_fun _ _ _ Hsp' Hsp).
  - assert (Hnl : ~ late b id).
    { intros (sp' & Hsp' & ?). rewrite (spanAt_fun _ _ _ Hsp' Hsp) in *. lia. }
    apply Hrec; [|by intros (_ & ? & _)%Hgu]. destruct (contains sp b) eqn:Ec; [by apply (counted_inside lo id b skipped sp)|by apply (counted_passed lo id b skipped sp); [lia|..]].
Qed.

(** *** The search backwards *)

(** How it ends, from the id [n] down. *)
Definition behind (n b : Z) (first : bool) (s : SpanStore C) (o : outcome (SpanStore C) bor_error searchResult) : Prop :=
  match o with
  | Done s' (Found sp) => sameBut s s' /\ newestIn 0 n b sp
  | Done s' Future => sameBut s s' /\ first = true /\ exists sp, spanAt n sp /\ SpanEnd sp < b /\ contains sp b = false
  | Done s' NotFound => sameBut s s' /\ noneIn 0 n b /\ (first = true -> late b n)
  | Fail s' e => sameBut s s' /\ exists id, 0 <= id <= n /\ fetchFails id e /\ noneIn id n b
  | Panicked _ => False
  end.

Lemma search_loop_ok n first s b :
  coherent s -> behind (Z.of_nat n) b first s (search_loop n env first b s).
Proof.
  revert first s. induction n as [|n IH]; intros first s Hc; cbn [search_loop]; unfold behind;
    (destruct (served_dec (Z.of_nat (S n))) as [H|H] || destruct (served_dec (Z.of_nat 0)) as [H|H]).
  - destruct H as [sp Hsp]. destruct (spanById_ok s _ sp Hc Hsp) as (s1 & E & Hs1).
    unfold mbind, st_bind. rewrite E. destruct (contains sp b) eqn:Ec; cbn.
    + split; [done|]. by apply newestIn_one.
    + pose proof (noneIn_one _ b sp Hsp Ec) as Hn.
      destruct first; cbn; [|by split_and!]. destruct (Z.ltb_spec (SpanEnd sp) b); cbn; split; try done.
      * split; [done|]. by exists sp.
      * split; [done|]. intros _. exists sp. split; [done|]. revert Ec. unfold contains.
        intros [Ec|Ec]%andb_false_iff; bool_to_prop; lia.
  - destruct H as [e He]. destruct (spanById_fails s _ e Hc He) as (s1 & E & Hs1).
    unfold mbind, st_bind. rewrite E. split; [done|]. exists (Z.of_nat 0). split; [lia|]. split; [done|].
    intros j sp Hj Hsp. replace j with (Z.of_nat 0) in Hsp by lia. by destruct (fetchFails_unserved _ _ sp He).
  - destruct H as [sp Hsp]. destruct (spanById_ok s _ sp Hc Hsp) as (s1 & E & Hs1).
    unfold mbind, st_bind. rewrite E. destruct (contains sp b) eqn:Ec; cbn [negb andb].
    + split; [done|]. apply newestIn_one; [lia|done|done].
    + pose proof (noneIn_one _ b sp Hsp Ec) as Hn.
      assert (Hlate : first && (SpanEnd sp <? b) = false -> first = true -> late b (Z.of_nat (S n))).
      { intros Ef ->. exists sp. split; [done|]. revert Ec Ef. unfold contains.
        intros [Ec|Ec]%andb_false_iff Ef; cbn in Ef; bool_to_prop; lia. }
      destruct (first && (SpanEnd sp <? b)) eqn:Ef.
      * apply andb_true_iff in Ef as [-> He]. bool_to_prop. cbn. split; [done|]. split; [done|]. by exists sp.
      * specialize (IH false s1 (proj1 Hs1)). unfold behind in IH.
        replace (Z.of_nat (S n)) with (Z.of_nat n + 1) in * by lia.
        destruct (search_loop n env false b s1) as [s2 [sp2| |]|s2 e|w]; try done.
        -- destruct IH as [Hs2 Hnew]. split; [by eapply sameBut_trans|]. eapply newestIn_app; [exact Hnew|done|lia].
        -- destruct IH as [_ [? _]]. done.
        -- destruct IH as (Hs2 & Hnone & _). split; [by eapply sameBut_trans|]. split; [|by apply Hlate].
           by eapply noneIn_app.
        -- destruct IH as (Hs2 & id & Hid & Hf & Hnone). split; [by eapply sameBut_trans|]. exists id.
           split; [lia|]. split; [done|]. by eapply noneIn_app.
  - destruct H as [e He]. destruct (spanById_fails s _ e Hc He) as (s1 & E & Hs1).
    unfold mbind, st_bind. rewrite E. split; [done|]. exists (Z.of_nat (S n)). split; [lia|]. split; [done|].
    intros j sp Hj Hsp. replace j with (Z.of_nat (S n)) in Hsp by lia. by destruct (fetchFails_unserved _ _ sp He).
Qed.

Lemma getFutureSpan_ok s latest id b :
  coherent s -> latestSpanCache s = Some latest -> 0 <= id -> latest < MaxUint64 ->
  ahead id latest b s (getFutureSpan env id b s).
Proof.
  intros Hc Hl Hid HL. unfold getFutureSpan, getLatestSpan, mbind, st_bind, getS. rewrite Hl. cbn.
  apply future_loop_ok; try done; try lia.
  - intros k Hk (i & Hi & _). lia.
  - left. split; [done|]. intros i Hi. lia.
  - intros j sp Hj. lia.
Qed.

(** How the whole search ends, for the estimate [est]. *)
Definition spanFound (est latest b : Z) (s : SpanStore C) (o : outcome (SpanStore C) bor_error (option Span)) : Prop :=
  match o with
  | Done s' (Some sp) =>
      (exists hi, scanned (est + 1) latest hi b /\ newestIn 0 hi b sp) /\
      coherent s' /\ latestSpanCache s' = Some latest /\ lastUsedSpan s' = Some sp
  | Fail s' e =>
      sameBut s s' /\
      ((exists id, 0 <= id <= est /\ fetchFails id e /\ noneIn id est b) \/
       (e = errSpanNotFound b /\ late b est /\ noneIn 0 est b) \/
       (exists sp hi, spanAt est sp /\ SpanEnd sp < b /\ scanned (est + 1) latest hi b /\ noneIn est hi b /\
          (e = errSpanNotFound b \/ hi < latest /\ fetchFails (hi + 1) e)))
  | _ => False
  end.

Lemma spanByBlockNumber_ok s latest b :
  let est := estimateSpanId b s in
  coherent s -> latestSpanCache s = Some latest ->
  0 <= est < MaxInt64 -> latest < MaxUint64 ->
  spanFound est latest b s (spanByBlockNumber env b s).
Proof.
  intros est Hc Hl He0 HL. unfold spanByBlockNumber. unfold mbind at 1, st_bind at 1, getS.
  fold est. unfold search. rewrite i64_small by wsolve. rewrite (proj2 (Z.ltb_ge est 0)) by lia.
  unfold mbind at 1, st_bind at 1.
  pose proof (search_loop_ok (Z.to_nat est) true s b Hc) as Hs. rewrite Z2Nat.id in Hs by lia.
  assert (Eu : u64 (est + 1) = est + 1) by (apply u64_small; wsolve). rewrite Eu.
  assert (Hfut : forall s1, sameBut s s1 -> ahead (est + 1) latest b s (getFutureSpan env (est + 1) b s1)).
  { intros s1 (Hc1 & Hl1 & Hu1). rewrite <- Hl1 in Hl.
    pose proof (getFutureSpan_ok s1 latest (est + 1) b Hc1 Hl ltac:(lia) HL) as H. unfold ahead in H |- *.
    destruct (getFutureSpan env (est + 1) b s1) as [s2 [sp2|]|s2 e|]; try done;
      destruct H as [H ?]; (split; [by eapply sameBut_trans; [|exact H]|done]). }
  assert (Hrem : forall s1 sp hi, sameBut s s1 -> scanned (est + 1) latest hi b -> newestIn 0 hi b sp ->
    spanFound est latest b s (rememberUsed (Some sp) s1)).
  { intros s1 sp hi (Hc1 & Hl1 & Hu1) Hsc Hn. pose proof Hn as (i & _ & [_ Hp] & _).
    unfold rememberUsed. destruct (SelectedProducers sp) eqn:Ep; [done|].
    unfold mbind, st_bind, modify. cbn. split; [by exists hi|]. split_and!; try done. by rewrite Hl1. }
  unfold behind in Hs. destruct (search_loop (Z.to_nat est) env true b s) as [s1 [sp| |]|s1 e|w]; try done.
  - destruct Hs as [Hs1 Hn]. unfold preferFuture. specialize (Hfut s1 Hs1). unfold ahead in Hfut.
    destruct (getFutureSpan env (est + 1) b s1) as [s2 [sp2|]|s2 e|]; try done.
    + destruct Hfut as (Hs2 & hi & Hsc & Hn2). apply (Hrem s2 sp2 hi); [done|done|].
      eapply newestIn_extend; [|exact Hn2]. lia.
    + destruct Hfut as (Hs2 & hi & Hsc & Hnone & _). apply (Hrem s2 sp hi); [done|done|].
      eapply newestIn_app; [exact Hn|done|]. pose proof (sc_from _ _ _ _ Hsc). lia.
  - destruct Hs as (Hs1 & _ & sp0 & Hsp0 & Hend & Hno). specialize (Hfut s1 Hs1). unfold ahead in Hfut. unfold mbind, st_bind.
    destruct (getFutureSpan env (est + 1) b s1) as [s2 [sp2|]|s2 e|]; try done.
    + destruct Hfut as (Hs2 & hi & Hsc & Hn2). apply (Hrem s2 sp2 hi); [done|done|].
      eapply newestIn_extend; [|exact Hn2]. lia.
    + destruct Hfut as (Hs2 & hi & Hsc & Hnone & He). split; [done|]. right. right. exists sp0, hi.
      split; [done|]. split; [done|]. split; [done|]. split; [|done].
      eapply noneIn_app; [by eapply noneIn_one|done].
  - destruct Hs as (Hs1 & Hnone & Hlate). cbn. split; [done|]. right. left. split; [done|]. by auto.
  - destruct Hs as (Hs1 & id & Hid & Hf & Hnone). cbn. split; [done|]. left. by exists id.
Qed.

(** Spans that move forward: every id up to [M] is served, and a later span does not
    start or end before an earlier one (they may overlap). *)
Record table (M : Z) : Prop := mkTable {
  tb_served : forall id, 0 <= id <= M -> exists sp, spanAt id sp;
  tb_mono : forall i j a b, 0 <= i <= j -> j <= M -> spanAt i a -> spanAt j b ->
    SpanStart a <= SpanStart b /\ SpanEnd a <= SpanEnd b
}.

(** On those, giving up misses nothing. *)
Lemma table_scanned M lo latest hi b :
  table M -> 0 <= lo -> M = Z.max latest (lo - 1) -> scanned lo latest hi b -> hi <= M /\ noneIn (hi + 1) M b.
Proof.
  intros Ht Hlo HM [Hfrom _ _ Hend]. destruct Hend as [->|[[Hlt [e He]]|[Hle (i & Hi & (spi & Hspi & Hb) & _)]]].
  - split; [lia|]. intros j sp Hj. lia.
  - destruct (tb_served M Ht (hi + 1) ltac:(lia)) as [sp Hsp]. by destruct (fetchFails_unserved _ _ sp He).
  - split; [lia|]. intros j sp Hj Hsp. destruct (tb_mono M Ht i j spi sp ltac:(lia) ltac:(lia) Hspi Hsp) as [Hst _].
    unfold contains. apply andb_false_iff. left. apply Z.leb_gt. lia.
Qed.

(** C20: For any spans Heimdall serves, overlapping in any way, missing or without
    producers, with a coherent cache that may forget anything at any time, a known
    latest span and ids in range, the search ends, never with a nil span, and keeps
    the cache coherent.  It goes back from the estimated span and on from there up to
    the latest span, the first one that is not served, or the second in a row to begin
    after the block since the last that contains it ([scanned]).  The span it returns,
    and remembers as the last used one, is that with the greatest id up to there that
    contains the block.  It returns an error, of the fetch or that there is no span,
    only if no span contains the block from the one that is not served up to the
    estimated one, if none does up to the estimated one and that begins after the block,
    or if the estimated span ends before the block and none from it up to where
    the search ends contains it. *)
Theorem spanByBlockNumber_exact s latest b :
  coherent s -> latestSpanCache s = Some latest ->
  0 <= estimateSpanId b s < MaxInt64 -> latest < MaxUint64 ->
  match spanByBlockNumber env b s with
  | Done s' (Some sp) =>
      (exists hi, scanned (estimateSpanId b s + 1) latest hi b /\ newestIn 0 hi b sp) /\
      coherent s' /\ latestSpanCache s' = Some latest /\ lastUsedSpan s' = Some sp
  | Fail s' e =>
      sameBut s s' /\
      ((exists id, 0 <= id <= estimateSpanId b s /\ fetchFails id e /\ noneIn id (estimateSpanId b s) b) \/
       (e = errSpanNotFound b /\ late b (estimateSpanId b s) /\ noneIn 0 (estimateSpanId b s) b) \/
       (exists sp hi, spanAt (estimateSpanId b s) sp /\ SpanEnd sp < b /\
          scanned (estimateSpanId b s + 1) latest hi b /\ noneIn (estimateSpanId b s) hi b /\
          (e = errSpanNotFound b \/ hi < latest /\ fetchFails (hi + 1) e)))
  | _ => False
  end.
Proof. intros. by apply spanByBlockNumber_ok. Qed.

(** Where spans move forward and all are served, what is returned is the newest span
    of all that contains the block, and there is an error only when none does. *)
Theorem spanByBlockNumber_newest s latest b :
  let M := Z.max (estimateSpanId b s) latest in
  table M -> coherent s -> latestSpanCache s = Some latest ->
  0 <= estimateSpanId b s < MaxInt64 -> latest < MaxUint64 ->
  match spanByBlockNumber env b s with
  | Done s' (Some sp) => newestIn 0 M b sp
  | Fail s' e => e = errSpanNotFound b /\ noneIn 0 M b
  | _ => False
  end.
Proof.
  intros M Ht Hc Hl He HL. pose proof (spanByBlockNumber_ok s latest b Hc Hl He HL) as H. unfold spanFound in H.
  set (est := estimateSpanId b s) in *.
  assert (HM : M = Z.max latest (est + 1 - 1)) by lia.
  assert (Hmiss : forall id e, 0 <= id <= M -> ~ fetchFails id e).
  { intros id e Hid Hf. destruct (tb_served M Ht id Hid) as [sp Hsp]. by destruct (fetchFails_unserved _ _ sp Hf). }
  destruct (spanByBlockNumber env b s) as [s' [sp|]|s' e|]; try done.
  - destruct H as [(hi & Hsc & Hn) _]. destruct (table_scanned M (est + 1) latest hi b Ht ltac:(lia) HM Hsc).
    by eapply newestIn_app.
  - destruct H as [_ [(id & Hid & Hf & _)|[(-> & (sp & Hsp & Hb) & Hn)|(sp & hi & Hsp & Hb & Hsc & Hn & He')]]].
    + by destruct (Hmiss id e ltac:(lia)).
    + split; [done|]. eapply noneIn_app; [exact Hn|]. intros j sp' Hj Hsp'.
      destruct (tb_mono M Ht est j sp sp' ltac:(lia) ltac:(lia) Hsp Hsp') as [Hst _].
      unfold contains. apply andb_false_iff. left. apply Z.leb_gt. lia.
    + destruct (table_scanned M (est + 1) latest hi b Ht ltac:(lia) HM Hsc) as [Hhi Hrest]. split.
      * destruct He' as [?|[Hlt Hf]]; [done|]. destruct (Hmiss (hi + 1) e); [|done].
        pose proof (sc_from _ _ _ _ Hsc). lia.
      * pose proof (sc_from _ _ _ _ Hsc). apply (noneIn_app 0 est).
        -- intros j sp' Hj Hsp'. destruct (tb_mono M Ht j est sp' sp ltac:(lia) ltac:(lia) Hsp' Hsp) as [_ He''].
           unfold contains. apply andb_false_iff. right. apply Z.leb_gt. lia.
        -- eapply noneIn_app; [|exact Hrest]. eapply noneIn_sub; [exact Hn|lia|lia].
Qed.

End search.

(** ** A concrete Heimdall, used by the witnesses *)

(** Spans of the default length; span 3 overlaps the end of span 2. *)
Definition demoProducer : Validator := mkValidator 1 17 10 0.

Definition demoSpan (id start stop : Z) : Span :=
  mkSpan id start stop [demoProducer] [demoProducer] (Some demoProducer) "137".

Definition demoHeimdall : Heimdall :=
  mkHeimdall (fun id =>
      if id =? 0 then Some (demoSpan 0 0 255)
      else if id =? 1 then Some (demoSpan 1 256 6655)
      else if id =? 2 then Some (demoSpan 2 6656 13055)
      else if id =? 3 then Some (demoSpan 3 13000 19455)
      else None)
    (Some (demoSpan 3 13000 19455)).

Definition demoStore : SpanStore lastOnly := mkSpanStore None (Some 3) None 0.

Lemma demo_spanAt id sp :
  spanAt demoHeimdall id sp <->
  (id = 0 /\ sp = demoSpan 0 0 255) \/ (id = 1 /\ sp = demoSpan 1 256 6655) \/
  (id = 2 /\ sp = demoSpan 2 6656 13055) \/ (id = 3 /\ sp = demoSpan 3 13000 19455).
Proof.
  unfold spanAt. cbn. split.
  - intros [E _]. destruct (Z.eqb_spec id 0); [left; split; congruence|].
    destruct (Z.eqb_spec id 1); [right; left; split; congruence|].
    destruct (Z.eqb_spec id 2); [right; right; left; split; congruence|].
    destruct (Z.eqb_spec id 3); [right; right; right; split; congruence|done].
  - intros [[-> ->]|[[-> ->]|[[-> ->]|[-> ->]]]]; done.
Qed.

Lemma demo_table : table demoHeimdall 3.
Proof.
  split.
  - intros id Hid. assert (id = 0 \/ id = 1 \/ id = 2 \/ id = 3) as [->|[->|[->| ->]]] by lia;
      eexists; by split.
  - intros i j a b Hij Hj Ha%demo_spanAt Hb%demo_spanAt.
    destruct Ha as [[? ->]|[[? ->]|[[? ->]|[? ->]]]], Hb as [[? ->]|[[? ->]|[[? ->]|[? ->]]]]; cbn; lia.
Qed.

Lemma spanByBlockNumber_newest_witness :
  newestIn demoHeimdall 0 3 13040 (demoSpan 3 13000 19455).
Proof.
  pose proof (spanByBlockNumber_newest demoHeimdall None "137" demoStore 3 13040
    demo_table ltac:(done) eq_refl ltac:(vm_compute; split; congruence) ltac:(vm_compute; reflexivity)) as H.
  exact H.
Defined.

(** Spans that go back: span 3 starts before span 2 and ends before it, as do those of
    the repository's test of overlapping spans. *)
Definition backHeimdall : Heimdall :=
  mkHeimdall (fun id =>
      if id =? 0 then Some (demoSpan 0 0 99)
      else if id =? 1 then Some (demoSpan 1 100 199)
      else if id =? 2 then Some (demoSpan 2 200 299)
      else if id =? 3 then Some (demoSpan 3 150 249)
      else if id =? 4 then Some (demoSpan 4 250 349)
      else None)
    (Some (demoSpan 4 250 349)).

Definition backStore : SpanStore lastOnly := mkSpanStore None (Some 4) None 0.

Lemma spanByBlockNumber_exact_witness :
  exists s', spanByBlockNumber (mkEnv (Some backHeimdall) None "137") 160 backStore
             = Done s' (Some (demoSpan 3 150 249)) /\
    exists hi, scanned backHeimdall 1 4 hi 160 /\ newestIn backHeimdall 0 hi 160 (demoSpan 3 150 249).
Proof.
  pose proof (spanByBlockNumber_exact backHeimdall None "137" backStore 4 160
    ltac:(done) eq_refl ltac:(vm_compute; split; congruence) ltac:(vm_compute; reflexivity)) as H.
  assert (E : spanByBlockNumber (mkEnv (Some backHeimdall) None "137") 160 backStore =
    Done (match spanByBlockNumber (mkEnv (Some backHeimdall) None "137") 160 backStore with
          | Done s' _ => s' | _ => backStore end) (Some (demoSpan 3 150 249))) by (vm_compute; reflexivity).
  rewrite E in H. eexists. split; [exact E|]. exact (proj1 H).
Defined.

(** ** Estimating the id of a span *)

(** The span of a block when every span after the zeroth has the default length. *)
Definition uniformId (b : Z) : Z :=
  if b <=? zerothSpanEnd then 0 else 1 + (b - 256) / defaultSpanLength.

Definition isUniform (sp : Span) : Prop :=
  (SpanId sp = 0 /\ SpanStart sp = 0 /\ SpanEnd sp = zerothSpanEnd) \/
  (0 < SpanId sp /\ SpanStart sp = 256 + defaultSpanLength * (SpanId sp - 1) /\
   SpanEnd sp = SpanStart sp + defaultSpanLength - 1).

(** The estimate is exact on a chain of spans of the default length: whatever
    span was used last, before or after the block, [estimateSpanId] gives the id
    of the span that contains the block, with no overflow for any block number
    below 2^63. *)
Theorem estimateSpanId_exact {C} `{!Cache C} (s : SpanStore C) b :
  0 <= b < 2 ^ 63 ->
  (forall sp, lastUsedSpan s = Some sp -> isUniform sp /\ SpanEnd sp < 2 ^ 63) ->
  estimateSpanId b s = uniformId b.
Proof.
  intros Hb Hlast. unfold estimateSpanId, uniformId, zerothSpanEnd, defaultSpanLength in *.
  destruct (Z.leb_spec b 255) as [Hle|Hgt].
  { by rewrite (proj2 (Z.ltb_ge 255 b)) by lia. }
  rewrite (proj2 (Z.ltb_lt 255 b)), (proj2 (Z.ltb_lt 0 b)) by lia. cbn [andb].
  assert (Hdiv : forall x, 0 <= x < 2 ^ 63 -> is_u64 (1 + x / 6400)).
  { intros x Hx. pose proof (Z.div_pos x 6400). pose proof (Z.div_le_upper_bound x 6400 x). wsolve. }
  assert (Hu : u64 (1 + u64 (u64 (b - 255) - 1) / 6400) = 1 + (b - 256) / 6400).
  { rewrite (u64_small (b - 255)) by wsolve. rewrite (u64_small (b - 255 - 1)) by wsolve.
    replace (b - 255 - 1) with (b - 256) by lia. apply u64_small. apply Hdiv. lia. }
  destruct (lastUsedSpan s) as [sp|]; [|done].
  destruct (Hlast sp eq_refl) as [Hun Hend]. clear Hlast.
  destruct Hun as [(Hid & Hst & He)|(Hid & Hst & He)].
  - unfold zerothSpanEnd in *. rewrite Hid, He. rewrite (proj2 (Z.ltb_lt 255 b)) by lia.
    rewrite (u64_small (0 + 1)) by wsolve. exact Hu.
  - unfold defaultSpanLength in *. set (k := SpanId sp) in *. rewrite He, Hst in *.
    assert (Hk : k < 2 ^ 63) by lia.
    destruct (Z.ltb_spec (256 + 6400 * (k - 1) + 6400 - 1) b) as [Ha|Ha].
    + rewrite (u64_small (k + 1)) by wsolve. rewrite (u64_small (b - _)) by wsolve.
      rewrite (u64_small (b - _ - 1)) by wsolve.
      replace (b - (256 + 6400 * (k - 1) + 6400 - 1) - 1) with (b - 256 + (- k) * 6400) by lia.
      rewrite Z.div_add by lia. rewrite u64_small; [lia|].
      pose proof (Hdiv (b - 256) ltac:(lia)). wsolve.
    + destruct (Z.ltb_spec b (256 + 6400 * (k - 1))) as [Hc|Hc].
      * rewrite (u64_small (256 + 6400 * (k - 1) - b)) by wsolve.
        rewrite (u64_small (256 + 6400 * (k - 1) - b - 1)) by wsolve.
        assert (Hq : (256 + 6400 * (k - 1) - b - 1) / 6400 = k - 2 - (b - 256) / 6400).
        { symmetry. apply Z.div_unique with (r := 6399 - (b - 256) mod 6400).
          - pose proof (Z.mod_pos_bound (b - 256) 6400). lia.
          - pose proof (Z.div_mod (b - 256) 6400). lia. }
        rewrite Hq. pose proof (Z.div_pos (b - 256) 6400 ltac:(lia) ltac:(lia)).
        rewrite u64_small.
        -- rewrite (proj2 (Z.leb_le _ _)) by lia. lia.
        -- assert ((b - 256) / 6400 < k - 1) by (apply Z.div_lt_upper_bound; lia). wsolve.
      * replace ((b - 256) / 6400) with (k - 1); [lia|].
        apply Z.div_unique with (r := b - 256 - 6400 * (k - 1)); lia.
Qed.

Lemma estimateSpanId_exact_witness :
  estimateSpanId 20000 (mkSpanStore None None (Some (demoSpan 2 6656 13055)) 0 : SpanStore lastOnly) = 4.
Proof.
  apply (estimateSpanId_exact (C := lastOnly)).
  - lia.
  - intros sp [= <-]. split; [right; unfold defaultSpanLength; cbn; lia|cbn; lia].
Defined.

End SpanProps.
