(* ===== verification/SpanServed.v ===== *)
(** * Where the spans of a store come from

    A store that holds only spans that were served answers a search with a span
    that was served and contains the block, whatever the environment answers now,
    and still holds only such spans. *)

From S2P Require Import Prelude Bytes Valset ValsetBytes BorTypes SpanStore.

Module SpanServed.
Import Valset BorTypes SpanStore.

Section served.
Context {C : Type -> Type} `{!Cache C}.

(** The spans that Heimdall, or the genesis contract without it, gives out. *)
Variable served : Span -> Prop.

Definition serves (env : Env) : Prop :=
  (forall h id sp, heimdallClient env = Some h -> GetSpan h id = Some sp -> served sp) /\
  (forall v l, genesisValidators env = Some (v :: l) -> served (mkSpan 0 0 255 (v :: l) (v :: l) (Some v) (chainId env))).

Definition answered (b : Z) (sp : Span) : Prop := served sp /\ contains sp b = true.

Definition spansServed (s : SpanStore C) : Prop :=
  forall k sp, (cget k (store s)).1 = Some sp -> served sp.

Definition optAnswered (b : Z) (o : option Span) : Prop := forall sp, o = Some sp -> answered b sp.

Variable env : Env.
Hypothesis Henv : serves env.

Lemma keeps_fetchSpan id : keeps spansServed (fetchSpan env id) served.
Proof using Henv.
  destruct Henv as [Hh Hm]. unfold fetchSpan. destruct (heimdallClient env) as [h|] eqn:E.
  - destruct (GetSpan h id) as [sp|] eqn:Es; [|apply keeps_fail].
    destruct (SelectedProducers sp); [apply keeps_fail|]. apply keeps_ret. by eapply Hh.
  - case_if; [|apply keeps_fail]. unfold getMockSpan0.
    destruct (genesisValidators env) as [[|v l]|]; [apply keeps_fail| |apply keeps_fail].
    apply keeps_ret. by apply Hm.
Qed.

Lemma keeps_spanById id : keeps spansServed (spanById env id) served.
Proof using Henv.
  intros s Hs. unfold spanById, mbind, st_bind, getS, putS.
  pose proof (Hs id) as Hid. pose proof (fun k x => cget_get Span k id (store s) x) as Hg.
  destruct (cget id (store s)) as [hit c'] eqn:E. cbn [fst snd] in *.
  assert (Hs' : spansServed (setStore c' s)) by (intros k x Hk; eapply Hs, Hg; exact Hk).
  destruct hit as [sp|]; [split; [done|by apply Hid]|].
  pose proof (keeps_fetchSpan id _ Hs') as Hf.
  destruct (fetchSpan env id (setStore c' s)) as [s1 sp|s1 e|]; [|done..]. destruct Hf as [H1 Hsp]. cbn.
  split; [|done]. intros k x Hk. assert (Hk' : (cget k (cadd id sp (store s1))).1 = Some x).
  { revert Hk. cbn. by case_if. }
  apply cget_add in Hk' as [[-> ->]|Hk']; [done|by eapply H1].
Qed.

Lemma keeps_candidateOr b cand e : optAnswered b cand -> keeps spansServed (candidateOr cand e) (optAnswered b).
Proof. intros H. destruct cand as [sp|]; [by apply keeps_ret|apply keeps_fail]. Qed.

Lemma keeps_future_loop fuel latest id b cand skipped :
  optAnswered b cand -> keeps spansServed (getFutureSpan_loop fuel env latest id b cand skipped) (optAnswered b).
Proof using Henv.
  revert id cand skipped. induction fuel as [|fuel IH]; intros id cand skipped Hc; [apply keeps_panic|].
  cbn [getFutureSpan_loop]. case_if; [by apply keeps_candidateOr|]. intros s Hs.
  pose proof (keeps_spanById id s Hs) as H. destruct (spanById env id s) as [s1 sp|s1 e|]; [|by apply keeps_candidateOr|done].
  destruct H as [H1 Hsp].
  assert (Hc' : optAnswered b (if contains sp b then Some sp else cand)).
  { destruct (contains sp b) eqn:E; [|done]. by intros ? [= <-]. }
  case_if; [case_if; [by apply keeps_candidateOr|by apply IH]|by apply IH].
Qed.

Lemma keeps_getLatestSpan : keeps spansServed (getLatestSpan env) (fun _ => True).
Proof.
  unfold getLatestSpan. eapply keeps_bind; [apply keeps_getS|]. intros s0 _.
  destruct (latestSpanCache s0); [by apply keeps_ret|]. eapply (keeps_bind _ _ _ (fun _ => True)).
  - unfold updateLatestSpan. destruct (heimdallClient env) as [h|]; [|by apply keeps_ret].
    destruct (GetLatestSpan h) as [sp|]; [|apply keeps_fail].
    destruct (NewValidatorSet (SpanValidators sp)) as [vs ?|?|]; [|apply keeps_panic..].
    destruct (Proposer vs); [by apply keeps_modify|apply keeps_panic].
  - intros _ _. eapply keeps_bind; [apply keeps_getS|]. intros s1 _. by apply keeps_ret.
Qed.

Lemma keeps_getFutureSpan id b : keeps spansServed (getFutureSpan env id b) (optAnswered b).
Proof using Henv.
  unfold getFutureSpan. eapply keeps_bind; [apply keeps_getLatestSpan|]. intros [latest|] _.
  - by apply keeps_future_loop.
  - by apply keeps_ret.
Qed.

Lemma keeps_rememberUsed b o : optAnswered b o -> keeps spansServed (rememberUsed o) (optAnswered b).
Proof.
  intros H. unfold rememberUsed. destruct o as [sp|]; [|by apply keeps_ret].
  eapply (keeps_bind _ _ _ (fun _ => True)); [|intros _ _; by apply keeps_ret].
  destruct (SelectedProducers sp); [by apply keeps_ret|by apply keeps_modify].
Qed.

Definition foundAnswered (b : Z) (r : searchResult) : Prop :=
  match r with Found sp => answered b sp | _ => True end.

Lemma keeps_search est b : keeps spansServed (search env est b) (foundAnswered b).
Proof using Henv.
  unfold search. case_if; [by apply keeps_ret|]. generalize true. induction (Z.to_nat (i64 est)) as [|n IH];
    intros first; cbn [search_loop]; (eapply keeps_bind; [apply keeps_spanById|]); intros sp Hsp;
    destruct (contains sp b) eqn:E; try (by apply keeps_ret); case_if; try (by apply keeps_ret). apply IH.
Qed.

(** The span a search gives was served and contains the block. *)
Lemma keeps_spanByBlockNumber b : keeps spansServed (spanByBlockNumber env b) (optAnswered b).
Proof using Henv.
  unfold spanByBlockNumber. eapply keeps_bind; [apply keeps_getS|]. intros s0 _. cbv zeta.
  eapply keeps_bind; [apply keeps_search|]. intros [sp| |] Hf; [..|apply keeps_fail].
  - assert (Ho : optAnswered b (Some sp)) by (by intros ? [= <-]). intros s Hs. unfold preferFuture.
    pose proof (keeps_getFutureSpan (u64 (estimateSpanId b s0 + 1)) b s Hs) as H.
    destruct (getFutureSpan _ _ _ s) as [s1 [sp'|]|s1 e|]; [| | |done].
    + destruct H as [H1 H2]. by apply keeps_rememberUsed.
    + destruct H as [H1 _]. by apply keeps_rememberUsed.
    + by apply keeps_rememberUsed.
  - eapply keeps_bind; [apply keeps_getFutureSpan|]. intros o Ho. by apply keeps_rememberUsed.
Qed.

End served.

(** A wait keeps it too, when every environment it meets serves such spans. *)
Lemma keeps_waitForNewSpan {C : Type -> Type} `{!Cache C} served env turns b author :
  serves served env -> Forall (serves served) turns ->
  keeps (spansServed (C := C) served) (waitForNewSpan env turns b author) (fun _ => True).
Proof.
  intros He Ht. unfold waitForNewSpan. eapply keeps_bind; [by apply keeps_spanByBlockNumber|]. intros o _.
  revert o. induction Ht as [|env' turns He' _ IH]; intros [sp|]; cbn [waitLoop]; try apply keeps_panic;
    (case_if; [by apply keeps_ret|]); [by apply keeps_ret|].
  eapply keeps_bind; [by apply keeps_spanByBlockNumber|]. intros o _. apply IH.
Qed.

End SpanServed.
