(* ===== verification/Snapshot.v ===== *)
(** * Snapshots (consensus/bor/snapshot.go)

    The validator set at a block, the turn of a signer in it, and the change of
    the set at the end of a sprint. *)

From S2P Require Import Prelude Bytes Valset ValsetPriority ValsetRotation ValsetChange ValsetBytes.
From S2P Require Import ChainConfig BorTypes.

Module Snapshot.
Import Valset ChainConfig BorTypes.

(** ** Data *)

(** A nil configuration is [None].  The signature cache belongs to the engine. *)
Record Snapshot := mkSnapshot {
  chainConfig : option ChainConfig;
  Number : Z;
  Hash : Z;
  vals : ValidatorSet;
  Recents : gmap Z Z
}.

Definition setVals (v : ValidatorSet) (s : Snapshot) : Snapshot :=
  mkSnapshot (chainConfig s) (Number s) (Hash s) v (Recents s).
Definition setRecents (m : gmap Z Z) (s : Snapshot) : Snapshot :=
  mkSnapshot (chainConfig s) (Number s) (Hash s) (vals s) m.
Definition setHead (n h : Z) (s : Snapshot) : Snapshot :=
  mkSnapshot (chainConfig s) n h (vals s) (Recents s).

(** Run an operation of the validator set inside the snapshot. *)
Definition onVals {E A} (m : st ValidatorSet E A) : st Snapshot E A :=
  fun s => match m (vals s) with
           | Done v a => Done (setVals v s) a
           | Fail v e => Fail (setVals v s) e
           | Panicked w => Panicked w
           end.

(** ** Creation, copies and storage *)

Definition newSnapshot {S E} (cfg : option ChainConfig) (number hash : Z) (validators : list Validator)
  : st S E Snapshot :=
  fun s => match NewValidatorSet validators with
           | Done v _ => Done s (mkSnapshot cfg number hash v ∅)
           | Fail _ _ => Panicked "cannot create validator set"
           | Panicked w => Panicked w
           end.

Definition copy (s : Snapshot) : Snapshot := setVals (Copy (vals s)) s.

(** What [json.Marshal] keeps of a snapshot: the total and the index of the
    validator set are unexported, the configuration too. *)
Definition stored (s : Snapshot) : Snapshot :=
  mkSnapshot None (Number s) (Hash s)
    (mkValidatorSet (Validators (vals s)) (Proposer (vals s)) 0 ∅) (Recents s).

(** The second half of [loadSnapshot], after the blob is decoded. *)
Definition reload (cfg : option ChainConfig) (s : Snapshot) : option Snapshot :=
  match UpdateTotalVotingPower (UpdateValidatorMap (vals s)) with
  | Done v _ => Some (mkSnapshot cfg (Number s) (Hash s) v (Recents s))
  | _ => None
  end.

(** ** Authorization *)

Fixpoint overrideAllows (l : list BlockRangeOverrideValidatorSet) (addr blockNumber : Z) : bool :=
  match l with
  | [] => false
  | o :: l' =>
      if (blockNumber <? ovStartBlock o) || (ovEndBlock o <? blockNumber)
      then overrideAllows l' addr blockNumber
      else existsb (Z.eqb addr) (ovValidators o)
  end.

Definition isAllowedByValidatorSetOverride (s : Snapshot) (addr blockNumber : Z) : bool :=
  match chainConfig s with
  | None => false
  | Some c =>
      match Bor c with
      | None => false
      | Some b => overrideAllows (OverrideValidatorSetInRange b) addr blockNumber
      end
  end.

(** [GetProposer().Address]: a nil proposer is a nil dereference. *)
Definition proposerAddress {E} : st ValidatorSet E Z :=
  p ← GetProposer;
  match p with
  | None => panic "nil pointer dereference"
  | Some p => mret (Address p)
  end.

Definition GetSignerSuccessionNumber (signer : Z) : st Snapshot bor_error Z :=
  s0 ← getS;
  let n := Z.of_nat (length (Validators (vals s0))) in
  proposer ← onVals proposerAddress;
  '(proposerIndex, _) ← onVals (GetByAddress proposer);
  s ← getS;
  if proposerIndex =? -1 then failS (UnauthorizedProposerError (Number s) proposer) else
  '(signerIndex, _) ← onVals (GetByAddress signer);
  s ← getS;
  if (signerIndex =? -1) && negb (isAllowedByValidatorSetOverride s signer (Number s))
  then failS (UnauthorizedSignerError (Number s) signer)
  else
    let tempIndex :=
      if negb (proposerIndex =? signerIndex) && (signerIndex <? proposerIndex)
      then signerIndex + n else signerIndex in
    mret (tempIndex - proposerIndex).

Definition signers (s : Snapshot) : list Z := map Address (Validators (vals s)).

Definition Difficulty {E} (signer : Z) : st ValidatorSet E Z :=
  if signer =? zeroAddress then mret 1 else
  s ← getS;
  let totalValidators := Z.of_nat (length (Validators s)) in
  proposer ← proposerAddress;
  '(proposerIndex, _) ← GetByAddress proposer;
  '(signerIndex, _) ← GetByAddress signer;
  let tempIndex :=
    if signerIndex <? proposerIndex then signerIndex + totalValidators else signerIndex in
  mret (u64 (totalValidators - (tempIndex - proposerIndex))).

(** ** The validator set after a sprint (bor.go) *)

Definition validatorContains (a : list Validator) (x : Validator) : option Validator :=
  List.find (fun n => Address n =? Address x) a.

(** The powers are changed in the set's own slice before the change set is
    applied; an error of the change set is only logged. *)
Definition getUpdatedValidatorSet {S E} (oldValidatorSet : ValidatorSet) (newVals : list Validator)
  : st S E ValidatorSet :=
  let changed := map (fun ov => setPower (match validatorContains newVals ov with
                                          | Some f => VotingPower f
                                          | None => 0
                                          end) ov) (Validators oldValidatorSet) in
  let v := setValidators changed oldValidatorSet in
  let changes := fold_left (fun acc nv => match validatorContains acc nv with
                                          | Some _ => acc
                                          | None => acc ++ [nv]
                                          end) newVals changed in
  fun s => match UpdateWithChangeSet changes v with
           | Done v' _ | Fail v' _ => Done s v'
           | Panicked w => Panicked w
           end.

End Snapshot.
