(* ===== verification/SnapshotProps.v ===== *)
(** * Turns, difficulties and the change of validators *)

From S2P Require Import Prelude Bytes Valset ValsetPriority ValsetRotation ValsetChange ValsetBytes.
From S2P Require Import ChainConfig BorTypes Snapshot.

Module SnapshotProps.
Import Valset ValsetPriority ValsetRotation ValsetChange ChainConfig BorTypes Snapshot.

(** ** Positions in the set *)

(** [i] is the position of the address in the set. *)
Definition positionOf (l : list Validator) (a : Z) (i : Z) : Prop :=
  0 <= i /\ exists v, l !! Z.to_nat i = Some v /\ Address v = a.

Lemma positionOf_bound l a i : positionOf l a i -> 0 <= i < Z.of_nat (length l).
Proof. intros (H & v & Hv & _). apply lookup_lt_Some in Hv. lia. Qed.

Lemma positionOf_inj l a b i : positionOf l a i -> positionOf l b i -> a = b.
Proof. intros (_ & v & Hv & <-) (_ & w & Hw & <-). congruence. Qed.

Lemma positionOf_unique l a i j :
  NoDup (map Address l) -> positionOf l a i -> positionOf l a j -> i = j.
Proof.
  intros Hnd (Hi & v & Hv & Ha) (Hj & w & Hw & Hb).
  assert (E : Z.to_nat i = Z.to_nat j); [|lia].
  eapply (NoDup_lookup (map Address l)); [done| |].
  - change (map Address l) with (Address <$> l). by rewrite list_lookup_fmap, Hv; cbn; rewrite Ha.
  - change (map Address l) with (Address <$> l). by rewrite list_lookup_fmap, Hw; cbn; rewrite Hb.
Qed.

Lemma GetByAddress_position {E} s a :
  indexed s ->
  exists k, GetByAddress (E := E) a s = Done s (k, byAddr (Validators s) !! a) /\
    (positionOf (Validators s) a k \/ (k = -1 /\ a ∉ map Address (Validators s))).
Proof.
  intros Hi. destruct (GetByAddress_spec (E := E) s a Hi) as (k & Eq & H). exists k. split; [done|].
  destruct (byAddr (Validators s) !! a) as [v|] eqn:Ev.
  - left. destruct H as (? & ? & ?). split; [done|]. by exists v.
  - right. split; [done|]. by apply byAddr_None.
Qed.

(** A set whose proposer is known and one of its validators. *)
Definition ready (s : ValidatorSet) (p : Validator) (pi : Z) : Prop :=
  indexed s /\ Proposer s = Some p /\ positionOf (Validators s) (Address p) pi.

Lemma ready_nonempty s p pi : ready s p pi -> Validators s <> [].
Proof. intros (_ & _ & H) E. apply positionOf_bound in H. rewrite E in H. cbn in H. lia. Qed.

Lemma proposerAddress_ready {E} s p pi :
  ready s p pi -> proposerAddress (E := E) s = Done s (Address p).
Proof.
  intros Hr. pose proof (ready_nonempty _ _ _ Hr) as Hne. destruct Hr as (_ & Hp & _).
  unfold proposerAddress, GetProposer, mbind, st_bind, getS.
  destruct (Validators s) as [|v l]; [done|]. by rewrite Hp.
Qed.

Lemma GetByAddress_at {E} s a i :
  indexed s -> positionOf (Validators s) a i ->
  exists o, GetByAddress (E := E) a s = Done s (i, o).
Proof.
  intros Hi Hp. destruct (GetByAddress_position (E := E) s a Hi) as (k & Eq & [Hk|[_ Hn]]).
  - rewrite Eq. eexists. do 3 f_equal. destruct Hi as [Hnd _]. by eapply positionOf_unique.
  - exfalso. apply Hn. destruct Hp as (_ & v & Hv & <-). apply list_elem_of_fmap. exists v.
    split; [done|]. by eapply list_elem_of_lookup_2.
Qed.

(** How far after the proposer a position comes, going round. *)
Definition turn (n pi si : Z) : Z := if si <? pi then si + n - pi else si - pi.

Lemma turn_range n pi si : 0 <= pi < n -> 0 <= si < n -> 0 <= turn n pi si < n.
Proof. unfold turn. case_if; bool_to_prop; lia. Qed.

Lemma turn_inj n pi si sj :
  0 <= pi < n -> 0 <= si < n -> 0 <= sj < n -> turn n pi si = turn n pi sj -> si = sj.
Proof. unfold turn. repeat case_if; bool_to_prop; lia. Qed.

Lemma turn_mod n pi si : 0 <= pi < n -> 0 <= si < n -> turn n pi si = (si - pi) mod n.
Proof.
  intros Hp Hs. unfold turn. case_if; bool_to_prop.
  - apply Z.mod_unique with (q := -1); lia.
  - by rewrite Z.mod_small by lia.
Qed.

Lemma setVals_id s : setVals (vals s) s = s.
Proof. by destruct s. Qed.

Lemma succession_at s p pi signer si :
  ready (vals s) p pi -> positionOf (Validators (vals s)) signer si ->
  GetSignerSuccessionNumber signer s =
  Done s (turn (Z.of_nat (length (Validators (vals s)))) pi si).
Proof.
  intros Hr Hs. pose proof (positionOf_bound _ _ _ Hs) as Hsb.
  destruct (GetByAddress_at (E := bor_error) (vals s) (Address p) pi) as [o1 E1]; [apply Hr|apply Hr|].
  destruct (GetByAddress_at (E := bor_error) (vals s) signer si) as [o2 E2]; [apply Hr|done|].
  pose proof (positionOf_bound _ _ _ (proj2 (proj2 Hr))) as Hpb.
  unfold GetSignerSuccessionNumber, mbind, st_bind, getS, onVals.
  rewrite (proposerAddress_ready _ _ _ Hr), setVals_id, E1, setVals_id.
  rewrite (proj2 (Z.eqb_neq pi (-1))) by lia.
  rewrite E2, setVals_id, (proj2 (Z.eqb_neq si (-1))) by lia. cbn [andb].
  unfold turn, mret, st_ret. f_equal.
  destruct (Z.eqb_spec pi si) as [->|]; cbn [negb andb].
  - by rewrite (proj2 (Z.ltb_ge si si)) by lia.
  - destruct (si <? pi); lia.
Qed.

Lemma difficulty_at {E} s p pi signer si :
  ready s p pi -> signer <> zeroAddress -> positionOf (Validators s) signer si ->
  Z.of_nat (length (Validators s)) <= MaxInt64 ->
  Difficulty (E := E) signer s =
  Done s (Z.of_nat (length (Validators s)) - turn (Z.of_nat (length (Validators s))) pi si).
Proof.
  intros Hr Hz Hs Hlen. pose proof (positionOf_bound _ _ _ Hs) as Hsb.
  destruct (GetByAddress_at (E := E) s (Address p) pi) as [o1 E1]; [apply Hr|apply Hr|].
  destruct (GetByAddress_at (E := E) s signer si) as [o2 E2]; [apply Hr|done|].
  pose proof (positionOf_bound _ _ _ (proj2 (proj2 Hr))) as Hpb.
  unfold Difficulty, mbind, st_bind, getS. rewrite (proj2 (Z.eqb_neq _ _) Hz).
  rewrite (proposerAddress_ready _ _ _ Hr), E1, E2. unfold mret, st_ret, turn. f_equal.
  destruct (Z.ltb_spec si pi); rewrite u64_small by wsolve; lia.
Qed.

(** ** The sprint-end change *)

Lemma validatorContains_Some l x v :
  validatorContains l x = Some v -> v ∈ l /\ Address v = Address x.
Proof.
  intros H. apply List.find_some in H as [Hin He]. bool_to_prop.
  split; [by apply list_elem_of_In|done].
Qed.

Lemma validatorContains_None l x :
  validatorContains l x = None <-> Address x ∉ map Address l.
Proof.
  unfold validatorContains. split.
  - intros H (v & Hv & Hin)%list_elem_of_fmap.
    apply list_elem_of_In in Hin. apply (List.find_none _ _ H) in Hin. bool_to_prop. congruence.
  - intros H. induction l as [|v l IH]; [done|]. cbn in *.
    apply not_elem_of_cons in H as [H1 H2]. destruct (Z.eqb_spec (Address v) (Address x)); [congruence|].
    by apply IH.
Qed.

Lemma validatorContains_byAddr l x :
  NoDup (map Address l) -> validatorContains l x = byAddr l !! Address x.
Proof.
  intros Hnd. destruct (validatorContains l x) as [v|] eqn:E.
  - apply validatorContains_Some in E as [Hin <-]. symmetry. by apply byAddr_Some.
  - apply validatorContains_None in E. symmetry. by apply byAddr_None.
Qed.

(** The slice with the powers of the header, and the changes built from it. *)
Definition repowered (newVals old : list Validator) : list Validator :=
  map (fun ov => setPower (match validatorContains newVals ov with
                           | Some f => VotingPower f
                           | None => 0
                           end) ov) old.

Definition joiners (newVals old : list Validator) : list Validator :=
  filter (fun nv => Address nv ∉ map Address old) newVals.

Lemma repowered_addresses newVals old : map Address (repowered newVals old) = map Address old.
Proof. unfold repowered. rewrite map_map. by apply map_ext. Qed.

Lemma joiners_cons nv l old :
  joiners (nv :: l) old =
  if decide (Address nv ∈ map Address old) then joiners l old else nv :: joiners l old.
Proof. unfold joiners. rewrite filter_cons. repeat case_decide; tauto. Qed.

Lemma joiners_snoc l old nv :
  (Address nv ∉ map Address l) -> joiners l (old ++ [nv]) = joiners l old.
Proof.
  induction l as [|v l IH]; intros Hn; [done|]. cbn in Hn. apply not_elem_of_cons in Hn as [Hv Hn].
  rewrite !joiners_cons, IH by done. rewrite map_app. cbn.
  destruct (decide (Address v ∈ map Address old)) as [Hin|Hout].
  - by rewrite decide_True by (apply elem_of_app; by left).
  - rewrite decide_False; [done|]. rewrite elem_of_app, list_elem_of_singleton. naive_solver.
Qed.

Lemma changes_joiners newVals acc :
  NoDup (map Address newVals) ->
  fold_left (fun acc nv => match validatorContains acc nv with
                           | Some _ => acc
                           | None => acc ++ [nv]
                           end) newVals acc = acc ++ joiners newVals acc.
Proof.
  revert acc. induction newVals as [|nv l IH]; intros acc Hnd; cbn [fold_left].
  { by rewrite app_nil_r. }
  cbn in Hnd. apply NoDup_cons in Hnd as [Hnv Hnd]. rewrite joiners_cons.
  destruct (validatorContains acc nv) as [v|] eqn:E.
  - rewrite decide_True; [by apply IH|].
    apply validatorContains_Some in E as [Hv <-]. apply list_elem_of_fmap. by exists v.
  - apply validatorContains_None in E. rewrite decide_False by done.
    rewrite IH by done. rewrite <- app_assoc. cbn. by rewrite joiners_snoc.
Qed.

(** A list whose powers are a function of the address. *)
Lemma lookup_powers_fun l (f : Z -> Z) a :
  NoDup (map Address l) -> (forall c, c ∈ l -> VotingPower c = f (Address c)) ->
  powers l !! a = if decide (a ∈ map Address l) then Some (f a) else None.
Proof.
  intros Hnd Hf. unfold powers. rewrite lookup_fmap.
  destruct (byAddr l !! a) as [v|] eqn:E; cbn.
  - apply byAddr_Some in E as [Hv <-]; [|done]. rewrite decide_True; [by rewrite Hf|].
    apply list_elem_of_fmap. by exists v.
  - apply byAddr_None in E. by rewrite decide_False.
Qed.

(** Equal powers, equal totals. *)
Lemma powers_sum l l' :
  NoDup (map Address l) -> NoDup (map Address l') -> powers l = powers l' ->
  sumZ VotingPower l = sumZ VotingPower l'.
Proof.
  intros Hnd Hnd' Hp.
  set (pairs := fun l : list Validator => (fun v => (Address v, VotingPower v)) <$> l).
  assert (Hfst : forall l, (pairs l).*1 = map Address l).
  { intros l0. unfold pairs. rewrite <- list_fmap_compose. done. }
  assert (Hmap : forall l, powers l = list_to_map (pairs l)).
  { intros l0. unfold powers, pairs. induction l0 as [|v l0 IH]; [done|].
    rewrite byAddr_cons, fmap_insert, IH. done. }
  assert (Hperm : pairs l ≡ₚ pairs l').
  { apply list_to_map_inj; [by rewrite Hfst|by rewrite Hfst|]. by rewrite <- !Hmap. }
  assert (Hsum : forall l, sumZ VotingPower l = foldr (fun p acc => p.2 + acc) 0 (pairs l)).
  { induction l0 as [|v l0 IH]; cbn in *; [done|]. by rewrite IH. }
  rewrite !Hsum. clear -Hperm. induction Hperm; cbn; lia.
Qed.

Section sprint_end.
Context (s : ValidatorSet) (newVals : list Validator).
Hypothesis Hwf : wf s.
Hypothesis Hz : zeroAddress ∉ map Address (Validators s).
Hypothesis Hnew : legalGenesis newVals.
Hypothesis Hroom : totalVotingPower s + sumZ VotingPower newVals <= MaxTotalVotingPower.

Abbreviation R := (repowered newVals (Validators s)).
Abbreviation v := (setValidators R s).
Abbreviation J := (joiners newVals R).

(** The power of an address in the header. *)
Definition headerPower (a : Z) : Z := default 0 (VotingPower <$> byAddr newVals !! a).

Lemma headerPower_in c : c ∈ newVals -> headerPower (Address c) = VotingPower c.
Proof using Hnew.
  intros Hc. destruct Hnew as (_ & Hnd & _). unfold headerPower.
  by rewrite (proj2 (byAddr_Some newVals _ c Hnd)).
Qed.

Lemma headerPower_pos a : a ∈ map Address newVals <-> 0 < headerPower a.
Proof using Hnew.
  destruct Hnew as (_ & Hnd & _ & Hp & _). split.
  - intros (c & -> & Hc)%list_elem_of_fmap. rewrite headerPower_in by done.
    exact (proj1 (Forall_forall _ _) Hp c Hc).
  - unfold headerPower. destruct (byAddr newVals !! a) as [c|] eqn:E; cbn; [|lia].
    apply byAddr_Some in E as [Hc <-]; [|done]. intros _. apply list_elem_of_fmap. by exists c.
Qed.

Lemma headerPower_nonneg a : 0 <= headerPower a.
Proof using Hnew.
  destruct (decide (a ∈ map Address newVals)) as [H|H]; [apply headerPower_pos in H; lia|].
  unfold headerPower. by rewrite (proj2 (byAddr_None newVals a) H).
Qed.

Lemma R_power c : c ∈ R -> VotingPower c = headerPower (Address c).
Proof using Hnew.
  intros (ov & -> & Hov)%list_elem_of_fmap. unfold headerPower. cbn.
  destruct Hnew as (_ & Hnd & _). rewrite validatorContains_byAddr by done.
  by destruct (byAddr newVals !! Address ov).
Qed.

Lemma J_in c : c ∈ J <-> c ∈ newVals /\ Address c ∉ map Address (Validators s).
Proof using.
  unfold joiners. rewrite list_elem_of_filter, repowered_addresses. tauto.
Qed.

Lemma changes_power c : c ∈ R ++ J -> VotingPower c = headerPower (Address c).
Proof using Hnew.
  intros [Hc|Hc]%elem_of_app; [by apply R_power|]. apply J_in in Hc as [Hc _].
  by rewrite headerPower_in.
Qed.

Lemma changes_nodup : NoDup (map Address (R ++ J)).
Proof using Hwf Hnew.
  rewrite map_app, repowered_addresses. apply NoDup_app. split_and!.
  - apply sorted_nodup, Hwf.
  - intros a Ha (c & -> & [_ Hc]%J_in)%list_elem_of_fmap. done.
  - unfold joiners. destruct Hnew as (_ & Hnd & _).
    eapply sublist_NoDup; [exact Hnd|]. apply (fmap_sublist Address). apply sublist_filter.
Qed.

Lemma changes_addresses a :
  a ∈ map Address (R ++ J) <-> a ∈ map Address (Validators s) \/ a ∈ map Address newVals.
Proof using.
  rewrite map_app, elem_of_app, repowered_addresses. split.
  - intros [?|(c & -> & [Hc _]%J_in)%list_elem_of_fmap]; [by left|right].
    apply list_elem_of_fmap. by exists c.
  - intros [?|Hn]; [by left|].
    destruct (decide (a ∈ map Address (Validators s))); [by left|right].
    apply list_elem_of_fmap in Hn as (c & -> & Hc). apply list_elem_of_fmap. exists c.
    split; [done|]. by apply J_in.
Qed.

Lemma v_changeable : changeable v.
Proof using Hwf Hnew.
  pose proof (wf_changeable s Hwf) as [Hs Hp Hsum Ht Htz Hm Hpr].
  split; cbn [setValidators Validators totalVotingPower validatorsMap]; auto.
  - unfold repowered. clear -Hs. induction Hs as [|w l Hl IH Hw]; cbn; constructor; [done|].
    apply Forall_forall. intros x (y & -> & Hy)%list_elem_of_fmap.
    exact (proj1 (Forall_forall _ _) Hw y Hy).
  - apply Forall_forall. intros c Hc. rewrite R_power by done. apply headerPower_nonneg.
  - destruct Hnew as (_ & Hnd & _ & Hpos & Hle). etransitivity; [|exact Hle].
    set (sn := mkValidatorSet newVals None 0 (addressIndex_loop 0 newVals ∅)).
    rewrite (sumZ_ext VotingPower (oldPower sn) R).
    + apply (oldPower_sum sn R); [by split| |].
      * cbn. eapply Forall_impl; [exact Hpos|]. cbn. lia.
      * rewrite repowered_addresses. by apply sorted_nodup.
    + intros c Hc. by rewrite R_power.
  - intros H0. by rewrite (Htz H0).
  - rewrite Hm. apply addressIndex_loop_people. by rewrite repowered_addresses.
  - unfold within. apply Forall_forall. intros c (ov & -> & Hov)%list_elem_of_fmap. cbn.
    exact (within_elem _ _ _ _ Hpr Hov).
Qed.

(** The change set turns the powers of the set into those of the header. *)
Lemma changes_result : applyChanges (R ++ J) (powers R) = powers newVals.
Proof using Hwf Hnew.
  apply map_eq. intros a. unfold applyChanges. rewrite map_lookup_filter, lookup_union.
  rewrite (lookup_powers_fun (R ++ J) headerPower a changes_nodup changes_power).
  rewrite (lookup_powers_fun R headerPower a);
    [|rewrite repowered_addresses; apply sorted_nodup, Hwf|apply R_power].
  rewrite (lookup_powers_fun newVals headerPower a); [|apply Hnew|intros c Hc; by rewrite headerPower_in].
  pose proof (changes_addresses a) as Ha. pose proof (headerPower_pos a) as Hp.
  pose proof (headerPower_nonneg a). rewrite repowered_addresses.
  destruct (decide (a ∈ map Address (R ++ J))) as [H1|H1];
    destruct (decide (a ∈ map Address (Validators s))) as [H2|H2];
    destruct (decide (a ∈ map Address newVals)) as [H3|H3]; try tauto; cbn;
    try (case_guard; cbn in *; tauto || lia || done);
    rewrite ?union_Some_l; cbn; try (case_guard; cbn in *; [try done; exfalso; apply H3, Hp; lia|]);
    try done; exfalso; apply Hp in H3; cbn in *; lia.
Qed.

Lemma changes_accepted : forall e, ~ refusal v (R ++ J) true e.
Proof using Hwf Hnew Hz Hroom.
  intros e Hr. destruct Hnew as (Hne & Hnd & Hzn & Hpos & Hle).
  pose proof (fun c => proj1 (Forall_forall _ _) Hpos c) as Hposc. cbn in Hposc.
  destruct Hr as [e He|d c Ha Hc H0|c Hc H0 Hn|c us Hsub Hc Hgt|He]; try done.
  - assert (Hok : processChanges (R ++ J) = inr (filter isUpdate (sortByAddress (R ++ J)),
      filter isRemoval (sortByAddress (R ++ J)))); [|by rewrite Hok in He].
    apply processChanges_inr. split_and!; try done.
    + apply noRepeat_nodup; rewrite sortByAddress_perm; [|apply changes_nodup].
      rewrite changes_addresses. tauto.
    + apply Forall_forall. intros c Hc. unfold goodPower.
      rewrite changes_power by done. split; [apply headerPower_nonneg|].
      unfold headerPower. destruct (byAddr newVals !! Address c) as [w|] eqn:E; cbn; [|psolve].
      apply byAddr_Some in E as [Hw _]; [|done]. pose proof (power_le_sum _ w Hpos Hw). lia.
  - apply elem_of_app in Hc as [Hc|Hc].
    + apply byAddr_None in Hn. apply Hn. apply list_elem_of_fmap. by exists c.
    + apply J_in in Hc as [Hc _]. specialize (Hposc c Hc). lia.
  - set (f := fun x => VotingPower x - oldPower v x).
    assert (Hf : forall l, sumZ f l = sumZ VotingPower l - sumZ (oldPower v) l).
    { unfold f. induction l as [|x l IH]; cbn [sumZ]; [lia|]. rewrite IH. lia. }
    assert (HR : forall x, x ∈ R -> f x = 0).
    { intros x Hx. unfold f, oldPower. cbn [setValidators Validators].
      rewrite (proj2 (byAddr_Some R (Address x) x ltac:(rewrite repowered_addresses; apply sorted_nodup, Hwf))) by done.
      cbn. lia. }
    assert (HJ : forall x, x ∈ J -> f x = VotingPower x).
    { intros x Hx. unfold f, oldPower. cbn [setValidators Validators].
      rewrite (proj2 (byAddr_None R (Address x))).
      - cbn. lia.
      - rewrite repowered_addresses. by apply J_in in Hx as [_ Hx]. }
    assert (Hpos' : forall x, x ∈ R ++ J -> 0 <= f x).
    { intros x [Hx|Hx]%elem_of_app; [by rewrite HR|]. rewrite HJ by done.
      apply J_in in Hx as [Hx _]. specialize (Hposc x Hx). lia. }
    pose proof (sumZ_sublist f us (sortByAddress (R ++ J))) as Hs.
    rewrite (sumZ_perm _ _ _ (sortByAddress_perm (R ++ J))), sumZ_app in Hs.
    rewrite (sumZ_ext f (fun _ => 0) R HR), sumZ_const, (sumZ_ext f VotingPower J HJ) in Hs.
    assert (HJle : sumZ VotingPower J <= sumZ VotingPower newVals).
    { apply sumZ_sublist; [|apply sublist_filter]. eapply Forall_impl; [exact Hpos|]. cbn. lia. }
    specialize (Hs ltac:(rewrite sortByAddress_perm; by apply Forall_forall) Hsub).
    rewrite Hf in Hs. cbn [setValidators totalVotingPower] in Hgt. lia.
  - cbn [setValidators Validators] in He. rewrite changes_result in He. destruct newVals as [|w l]; [done|].
    by apply powers_nonempty in He.
Qed.

Lemma sprint_end_ok {S E} (st0 : S) :
  exists v', getUpdatedValidatorSet (E := E) s newVals st0 = Done st0 v' /\ wf v' /\
    Validators v' <> [] /\ powers (Validators v') = powers newVals /\ Proposer v' = Proposer s.
Proof using Hwf Hnew Hz Hroom.
  assert (Hne : newVals <> []) by apply Hnew.
  assert (Hc : R ++ J <> []).
  { intros E0. assert (exists w, w ∈ newVals) as [w Hwn].
    { destruct newVals as [|w l]; [done|]. exists w. by left. }
    assert (Hw : Address w ∈ map Address (R ++ J)).
    { apply changes_addresses. right. apply list_elem_of_fmap. by exists w. }
    rewrite E0 in Hw. by apply elem_of_nil in Hw. }
  unfold getUpdatedValidatorSet. fold (repowered newVals (Validators s)).
  rewrite changes_joiners by apply Hnew. unfold UpdateWithChangeSet.
  destruct (updateWithChangeSet_cases v (R ++ J) true v_changeable Hc)
    as [(e & _ & Hr)|(u & d & Hpc & Hin & Ht & Hcl & Hok)]; [by apply changes_accepted in Hr|].
  assert (Hpow : powers (changedList v u d) = powers newVals).
  { rewrite (powers_changedList v (R ++ J) u d v_changeable Hpc).
    - apply changes_result.
    - intros c Hcin _. cbn in Hcin. rewrite map_app. apply elem_of_app. left.
      apply list_elem_of_fmap. by exists c. }
  assert (Hndl : NoDup (map Address (changedList v u d))).
  { apply sorted_nodup. eapply changedList_sorted; [exact v_changeable|exact Hpc]. }
  destruct Hok as (l & Hsame & Hwf' & ->).
  - rewrite (powers_sum _ newVals); [apply Hnew|done|apply Hnew|done].
  - apply Forall_forall. intros c Hcin.
    assert (Hl : powers newVals !! Address c = Some (VotingPower c)).
    { rewrite <- Hpow. unfold powers. by rewrite lookup_fmap, (proj2 (byAddr_Some _ _ c Hndl)). }
    apply lookup_powers in Hl as (w & Hw & <-). apply byAddr_Some in Hw as [Hw _]; [|apply Hnew].
    destruct Hnew as (_ & _ & _ & Hpos & _). exact (proj1 (Forall_forall _ _) Hpos w Hw).
  - eexists. split; [done|]. split_and!; [done| | |done].
    + by eapply samePeople_nonempty.
    + change (powers l = powers newVals). by rewrite <- (powers_samePeople _ _ Hsame).
Qed.

End sprint_end.

(** Storing and reloading. *)
Lemma reload_stored_wf s :
  wf (vals s) ->
  reload (chainConfig s) (stored s) = Some s.
Proof.
  intros Hwf. pose proof Hwf as [Hs Hp Ht Hm Hi _]. unfold reload, stored. cbn [vals].
  rewrite UpdateTotalVotingPower_ok; cbn [UpdateValidatorMap setMap Validators].
  - unfold setTotal, setMap. cbn. destruct s as [c n h [l p t m] r]. cbn in *. by rewrite <- Ht, Hi.
  - eapply Forall_impl; [exact Hp|]. cbn. lia.
  - by rewrite <- Ht.
Qed.

(** ** Concrete snapshots *)

Definition demoVals : ValidatorSet :=
  setProposer (Some (mkValidator 2 22 20 0)) demoSet.

Definition demoSnapshot : Snapshot := mkSnapshot None 100 7 demoVals ∅.

Lemma demo_indexed : indexed demoVals.
Proof. split; [repeat constructor; cbn; set_solver by lia|done]. Qed.

Lemma demo_ready : ready demoVals (mkValidator 2 22 20 0) 1.
Proof.
  split; [exact demo_indexed|]. split; [done|]. split; [lia|]. by exists (mkValidator 2 22 20 0).
Qed.

(** ** Properties *)

(** The turn of a signer: its distance after the proposer in the order of the
    addresses, going round.  It is between 0 and the size of the set, and exactly
    0 for the proposer. *)
Theorem GetSignerSuccessionNumber_turn s p pi signer si :
  ready (vals s) p pi -> positionOf (Validators (vals s)) signer si ->
  exists k, GetSignerSuccessionNumber signer s = Done s k /\
    0 <= k < Z.of_nat (length (Validators (vals s))) /\
    k = (si - pi) mod Z.of_nat (length (Validators (vals s))) /\
    (k = 0 <-> signer = Address p).
Proof.
  intros Hr Hs. pose proof (positionOf_bound _ _ _ Hs) as Hsb.
  pose proof (positionOf_bound _ _ _ (proj2 (proj2 Hr))) as Hpb.
  eexists. split; [by eapply succession_at|]. split; [by apply turn_range|].
  split; [by apply turn_mod|]. split.
  - intros H0. assert (si = pi) as ->.
    { apply (turn_inj (Z.of_nat (length (Validators (vals s)))) pi); [done..|].
      rewrite H0. unfold turn. rewrite (proj2 (Z.ltb_ge pi pi)) by lia. lia. }
    by eapply positionOf_inj; [exact Hs|apply Hr].
  - intros ->. destruct Hr as ([Hnd _] & _ & Hp).
    rewrite (positionOf_unique _ _ _ _ Hnd Hs Hp). unfold turn.
    rewrite (proj2 (Z.ltb_ge pi pi)) by lia. lia.
Qed.

Lemma GetSignerSuccessionNumber_turn_witness :
  exists k, GetSignerSuccessionNumber 11 demoSnapshot = Done demoSnapshot k /\ k = 2.
Proof.
  destruct (GetSignerSuccessionNumber_turn demoSnapshot (mkValidator 2 22 20 0) 1 11 0)
    as (k & E & _ & Hk & _).
  - exact demo_ready.
  - split; [lia|]. exists (mkValidator 1 11 10 0). split; reflexivity.
  - exists k. split; [exact E|]. rewrite Hk. reflexivity.
Defined.

(** Difficulty ranks the validators: the proposer's is the size of the set,
    every other validator's is smaller and positive, and two different validators
    never have the same difficulty, so the heaviest chain is the most in-turn
    one. *)
Theorem Difficulty_ranks {E} s p pi signer si :
  ready s p pi -> signer <> zeroAddress -> positionOf (Validators s) signer si ->
  Z.of_nat (length (Validators s)) <= MaxInt64 ->
  exists d, Difficulty (E := E) signer s = Done s d /\
    1 <= d <= Z.of_nat (length (Validators s)) /\
    (d = Z.of_nat (length (Validators s)) <-> signer = Address p) /\
    forall other oi, other <> zeroAddress -> positionOf (Validators s) other oi ->
      Difficulty (E := E) other s = Done s d -> other = signer.
Proof.
  intros Hr Hz Hs Hlen. pose proof (positionOf_bound _ _ _ Hs) as Hsb.
  pose proof (positionOf_bound _ _ _ (proj2 (proj2 Hr))) as Hpb.
  set (n := Z.of_nat (length (Validators s))) in *.
  pose proof (turn_range n pi si Hpb Hsb) as Ht.
  eexists. split; [by eapply difficulty_at|]. fold n. split; [lia|]. split.
  - split.
    + intros Hd. assert (si = pi) as ->.
      { apply (turn_inj n pi); [done..|]. unfold turn at 2. rewrite (proj2 (Z.ltb_ge pi pi)) by lia. lia. }
      by eapply positionOf_inj; [exact Hs|apply Hr].
    + intros ->. destruct Hr as ([Hnd _] & _ & Hp).
      rewrite (positionOf_unique _ _ _ _ Hnd Hs Hp). unfold turn.
      rewrite (proj2 (Z.ltb_ge pi pi)) by lia. lia.
  - intros other oi Hoz Ho. rewrite (difficulty_at s p pi other oi Hr Hoz Ho Hlen). fold n.
    intros [= He]. pose proof (positionOf_bound _ _ _ Ho) as Hob.
    assert (oi = si) as -> by (apply (turn_inj n pi); try done; lia).
    by eapply positionOf_inj.
Qed.

Lemma Difficulty_ranks_witness :
  exists d, Difficulty (E := bor_error) 33 demoVals = Done demoVals d /\ 1 <= d <= 3.
Proof.
  destruct (Difficulty_ranks (E := bor_error) demoVals (mkValidator 2 22 20 0) 1 33 2) as (d & E & Hd & _).
  - exact demo_ready.
  - discriminate.
  - split; [lia|]. exists (mkValidator 3 33 30 0). split; reflexivity.
  - vm_compute. congruence.
  - exists d. split; [exact E|exact Hd].
Defined.

(** The end of a sprint installs the header's validators: from a well-formed
    set, with room for both totals, the updated set is well formed and its
    addresses and powers are exactly those of the header, although the powers are
    written into the set before the change set is checked. *)
Theorem getUpdatedValidatorSet_installs {S E} s newVals (st0 : S) :
  wf s -> (zeroAddress ∉ map Address (Validators s)) -> legalGenesis newVals ->
  totalVotingPower s + sumZ VotingPower newVals <= MaxTotalVotingPower ->
  exists v', getUpdatedValidatorSet (E := E) s newVals st0 = Done st0 v' /\ wf v' /\
    powers (Validators v') = powers newVals /\ Proposer v' = Proposer s.
Proof.
  intros Hwf Hz Hnew Hroom.
  destruct (sprint_end_ok s newVals Hwf Hz Hnew Hroom (E := E) st0) as (v' & ? & ? & _ & ? & ?).
  by exists v'.
Qed.

Lemma demo_legal : legalGenesis [mkValidator 0 22 25 0; mkValidator 0 44 5 0].
Proof.
  unfold legalGenesis. split_and!; [done| | | |].
  - repeat constructor; cbn; set_solver by lia.
  - cbn. set_solver by lia.
  - repeat constructor.
  - vm_compute. congruence.
Qed.

Lemma getUpdatedValidatorSet_installs_witness :
  exists v', getUpdatedValidatorSet (E := bor_error) demoSet
               [mkValidator 0 22 25 0; mkValidator 0 44 5 0] tt = Done tt v' /\
    powers (Validators v') = {[22 := 25; 44 := 5]}.
Proof.
  destruct (getUpdatedValidatorSet_installs (E := bor_error) demoSet
    [mkValidator 0 22 25 0; mkValidator 0 44 5 0] tt) as (v' & E & _ & Hp & _).
  - exact demoSet_wf.
  - cbn. set_solver by lia.
  - exact demo_legal.
  - vm_compute. congruence.
  - exists v'. split; [exact E|]. rewrite Hp. vm_compute. reflexivity.
Defined.

(** A snapshot survives the database: storing drops the total and the index
    of the validator set, loading computes them again, and the result is the
    snapshot that was stored. *)
Theorem reload_stored s :
  wf (vals s) -> reload (chainConfig s) (stored s) = Some s.
Proof. apply reload_stored_wf. Qed.

Lemma reload_stored_witness :
  reload None (stored (mkSnapshot None 100 7 demoSet {[99 := 11]})) =
  Some (mkSnapshot None 100 7 demoSet {[99 := 11]}).
Proof.
  apply (reload_stored (mkSnapshot None 100 7 demoSet {[99 := 11]})). exact demoSet_wf.
Defined.

(** The change of powers bypasses the limit on the total when it is only a
    change of existing validators: the error is logged, not returned, and the set
    the caller goes on with has powers over the limit and a stale total. *)
Theorem getUpdatedValidatorSet_over_limit :
  let big := MaxTotalVotingPower in
  let s := mkValidatorSet [mkValidator 1 11 10 0; mkValidator 2 22 20 0] None 30
             (addressIndex_loop 0 [mkValidator 1 11 10 0; mkValidator 2 22 20 0] ∅) in
  wf s /\
  exists v', getUpdatedValidatorSet (E := bor_error) s [mkValidator 0 11 big 0; mkValidator 0 22 big 0] tt
             = Done tt v' /\
    sumZ VotingPower (Validators v') = 2 * big /\ totalVotingPower v' = 30.
Proof.
  intros big s. split.
  - split; try done.
    + repeat constructor; unfold addrLt; cbn; lia.
    + repeat constructor; cbn; lia.
    + repeat constructor; cbn; psolve.
  - eexists. split; [vm_compute; reflexivity|]. split; vm_compute; reflexivity.
Qed.

End SnapshotProps.
