(* ===== verification/Seal.v ===== *)
(** * Seals (consensus/bor/bor.go, core/types/gen_header_rlp.go, crypto/crypto.go)

    What a block hash and a seal hash are taken of, the recovery of the signer
    with its cache, and the delay a producer has to keep. *)

From S2P Require Import Prelude Bytes Valset ValsetBytes ChainConfig ConfigProps Rlp RlpEncode.
From S2P Require Import RlpDecode RlpSplit Header HeaderProps Eip1559 BorTypes.

Module Seal.
Import Bytes Rlp ChainConfig Header BorTypes.

(** ** Encodings of a header *)

(** [encBuffer.writeBigInt]; [BitLen] is [log2 i + 1], and 0 for 0. *)
Definition writeBigInt (i : Z) : writer :=
  let bitlen := if i =? 0 then 0 else Z.log2 i + 1 in
  if bitlen <=? 64 then writeUint64 (u64 i)
  else
    let length := Z.shiftr (Z.land (bitlen + 7) (-8)) 3 in
    fun buf => Rlp.append (be_bytes (Z.to_nat length) i) (encodeStringHeader length buf).

(** [writeBigIntPtr]: [None] is [ErrNegativeBigInt]. *)
Definition writeBigIntPtr (p : option Z) : option writer :=
  match p with
  | None => Some (Rlp.append [128])
  | Some i => if i <? 0 then None else Some (writeBigInt i)
  end.

Definition writeHash (h : Z) : writer := writeBytes (be_bytes 32 h).
Definition writeAddress (a : Z) : writer := writeBytes (be_bytes 20 a).
Definition writeBloom (b : Z) : writer := writeBytes (be_bytes 256 b).
Definition writeNonce (n : Z) : writer := writeBytes (be_bytes 8 n).
Definition writeHashPtr (p : option Z) : writer :=
  match p with Some h => writeHash h | None => Rlp.append [128] end.

(** The first fifteen fields, with the extra data given. *)
Definition headerFields (h : Header) (extra : list Z) : option (list writer) :=
  difficulty ← writeBigIntPtr (Difficulty h);
  number ← writeBigIntPtr (Number h);
  Some [writeHash (ParentHash h); writeHash (UncleHash h); writeAddress (hdrCoinbase h);
        writeHash (Root h); writeHash (TxHash h); writeHash (ReceiptHash h); writeBloom (Bloom h);
        difficulty; number; writeUint64 (GasLimit h); writeUint64 (GasUsed h);
        writeUint64 (Time h); writeBytes extra; writeHash (MixDigest h); writeNonce (Nonce h)].

(** [Header.EncodeRLP]; [None] is an error. *)
Definition EncodeRLP (h : Header) : option (list Z) :=
  fields ← headerFields h (Extra h);
  baseFee ← writeBigIntPtr (BaseFee h);
  Some (EncodeToBytes (writeStruct fields
    [(baseFee, bool_decide (BaseFee h = None));
     (writeHashPtr (WithdrawalsHash h), bool_decide (WithdrawalsHash h = None));
     (writeUintPtr (BlobGasUsed h), bool_decide (BlobGasUsed h = None));
     (writeUintPtr (ExcessBlobGas h), bool_decide (ExcessBlobGas h = None));
     (writeHashPtr (ParentBeaconRoot h), bool_decide (ParentBeaconRoot h = None));
     (writeHashPtr (RequestsHash h), bool_decide (RequestsHash h = None))])).

(** [encodeSigHeader]; [None] is a panic: the extra data is too short to hold a
    seal, or a number is negative. *)
Definition encodeSigHeader (h : Header) (c : BorConfig) : option (list Z) :=
  if (length (Extra h) <? 65)%nat then None else
  fields ← headerFields h (take (length (Extra h) - 65) (Extra h));
  match BaseFee h with
  | Some baseFee =>
      if IsJaipur c (Number h) then
        w ← writeBigIntPtr (Some baseFee);
        Some (EncodeToBytes (inList (writeAll id (fields ++ [w]))))
      else Some (EncodeToBytes (inList (writeAll id fields)))
  | None => Some (EncodeToBytes (inList (writeAll id fields)))
  end.

Definition BorRLP (h : Header) (c : BorConfig) : option (list Z) := encodeSigHeader h c.

(** ** Signature values (crypto/crypto.go) *)

(** The order of the curve secp256k1 and its half. *)
Definition secp256k1N : Z :=
  115792089237316195423570985008687907852837564279074904382605163141518161494337.
Definition secp256k1halfN : Z := secp256k1N / 2.

Definition ValidateSignatureValues (v r s : Z) (homestead : bool) : bool :=
  if (r <? 1) || (s <? 1) then false
  else if homestead && (secp256k1halfN <? s) then false
  else (r <? secp256k1N) && (s <? secp256k1N) && ((v =? 0) || (v =? 1)).

(** ** Delays *)

(** [IsSprintStart] of the engine, on a sprint length; a zero length is a
    division by zero. *)
Definition sprintStart (number sprint : Z) : option bool :=
  if sprint =? 0 then None else Some (number mod sprint =? 0).

(** [succession] is an [int]; the backup delay is added for positive ones only. *)
Definition CalcProducerDelay (number succession : Z) (c : BorConfig) : option Z :=
  delay ← CalculatePeriod c number;
  if IsRio c (Some (i64 number)) then Some delay else
  sprint ← CalculateSprint c number;
  start ← sprintStart number sprint;
  delay ← (if start : bool then CalculateProducerDelay c number else Some delay);
  if 0 <? succession then
    multiplier ← CalculateBackupMultiplier c number;
    Some (u64 (delay + u64 (u64 succession * multiplier)))
  else Some delay.

(** [None] is a panic of the configuration. *)
Definition IsBlockEarly (parent : option Header) (header : Header) (number succession : Z)
    (c : BorConfig) : option bool :=
  match parent with
  | None => Some false
  | Some parent =>
      delay ← CalcProducerDelay number succession c;
      Some (Time header <? u64 (Time parent + delay))
  end.

Definition validateHeaderExtraField {S} (extraBytes : list Z) : st S bor_error unit :=
  failIf (length extraBytes <? ExtraVanityLength)%nat errMissingVanity;;
  failIf (length extraBytes <? ExtraVanityLength + ExtraSealLength)%nat errMissingSignature.

(** ** Recovery of the signer *)

Section recovery.
Context {C : Type -> Type} `{!Cache C}.
(** Keccak-256 (golang.org/x/crypto/sha3) of a byte string, as a number, and the
    recovery of a public key (libsecp256k1). *)
Variable keccak : list Z -> Z.
Variable Ecrecover : list Z -> list Z -> option (list Z).

(** [Header.Hash]: [rlpHash] hashes nothing when the encoding fails. *)
Definition Hash (h : Header) : Z := keccak (default [] (EncodeRLP h)).

Definition SealHash (h : Header) (c : BorConfig) : option Z := keccak <$> encodeSigHeader h c.

Definition sealOf (h : Header) : list Z := drop (length (Extra h) - ExtraSealLength) (Extra h).

(** The address of a public key: the last 20 bytes of its hash. *)
Definition pubkeyAddress (pubkey : list Z) : Z := keccak (drop 1 pubkey) mod 2 ^ 160.

Definition ecrecover (h : Header) (c : BorConfig) : st (C Z) bor_error Z :=
  sigcache ← getS;
  let hash := Hash h in
  let '(known, sigcache') := cget hash sigcache in
  putS sigcache';;
  match known with
  | Some address => mret address
  | None =>
      failIf (length (Extra h) <? ExtraSealLength)%nat errMissingSignature;;
      let signature := sealOf h in
      let r := SetBytes (take 32 signature) in
      let s := SetBytes (take 32 (drop 32 signature)) in
      let v := default 0 (signature !! 64%nat) in
      failIf (negb (ValidateSignatureValues v r s true)) errNonCanonicalSeal;;
      sealHash ← orPanic "can't encode" (SealHash h c);
      match Ecrecover (be_bytes 32 sealHash) signature with
      | None => failS errRecover
      | Some pubkey =>
          let signer := pubkeyAddress pubkey in
          modify (cadd hash signer);;
          mret signer
      end
  end.

End recovery.

End Seal.
