(* ===== verification/SealProps.v ===== *)
(** * What a seal signs, and the signer cache

    The encoding that is signed determines every field it contains; the fields it
    leaves out can be changed under the same seal.  The signer cache changes no
    result. *)

From S2P Require Import Prelude Bytes Valset ValsetBytes ChainConfig ConfigProps Rlp RlpEncode.
From S2P Require Import RlpDecode RlpSplit Header HeaderProps Eip1559 BorTypes Seal.

Module SealProps.
Import Bytes Rlp RlpEncode RlpDecode RlpSplit ChainConfig Header BorTypes Seal.

(** ** Integers as strings *)

Lemma bigBytes_isByte x : Forall isByte (bigBytes x).
Proof. unfold bigBytes. case_if; [constructor|apply be_bytes_isByte]. Qed.

Lemma bigBytes_inj x y : 0 <= x -> 0 <= y -> bigBytes x = bigBytes y -> x = y.
Proof. intros Hx Hy E. apply (f_equal SetBytes) in E. rewrite !SetBytes_bigBytes in E. lia. Qed.

Lemma be_bytes_inj n x y :
  0 <= x < 256 ^ Z.of_nat n -> 0 <= y < 256 ^ Z.of_nat n -> be_bytes n x = be_bytes n y -> x = y.
Proof. intros Hx Hy E. apply (f_equal SetBytes) in E. by rewrite !SetBytes_be_bytes in E. Qed.

(** The number of bytes of a positive number. *)
Lemma bigBytes_size x n :
  0 < x -> 256 ^ (Z.of_nat n - 1) <= x < 256 ^ Z.of_nat n -> (1 <= n)%nat ->
  bigBytes x = be_bytes n x.
Proof.
  intros Hx Hr Hn. unfold bigBytes. rewrite (proj2 (Z.eqb_neq x 0)), Z.abs_eq by lia.
  f_equal. change 256 with (2 ^ 8) in Hr. rewrite <- !Z.pow_mul_r in Hr by lia.
  assert (8 * (Z.of_nat n - 1) <= Z.log2 x) by (apply Z.log2_le_pow2; lia).
  assert (Z.log2 x < 8 * Z.of_nat n) by (apply Z.log2_lt_pow2; lia).
  assert (Z.log2 x / 8 = Z.of_nat n - 1); [|lia].
  symmetry. apply Z.div_unique with (r := Z.log2 x - 8 * (Z.of_nat n - 1)); lia.
Qed.

Lemma encUint_encString i : is_u64 i -> encUint i = encString (bigBytes i).
Proof.
  intros Hi. unfold encUint, AppendUint64. destruct (Z.eqb_spec i 0) as [->|Hnz]; [done|].
  destruct (Z.ltb_spec i 128) as [Hs|Hs].
  - rewrite (bigBytes_size i 1) by (cbn; wsolve). cbn.
    rewrite Z.mod_small by wsolve. by rewrite (proj2 (Z.leb_le i 127)) by lia.
  - destruct (putintSize_bounds i ltac:(wsolve)) as [Hsz Hr].
    rewrite (bigBytes_size i (putintSize i)) by (wsolve || lia). unfold putint.
    destruct (putintSize i) as [|[|n]] eqn:En; [lia| |].
    + cbn in *. rewrite Z.mod_small by lia. by rewrite (proj2 (Z.leb_gt i 127)) by lia.
    + assert (Hl : length (be_bytes (S (S n)) i) = S (S n)) by apply length_be_bytes.
      unfold encString. destruct (be_bytes (S (S n)) i) as [|x [|y l]] eqn:Eb; [done..|].
      rewrite Hl. unfold puthead. rewrite (proj2 (Z.ltb_lt _ _)) by lia. done.
Qed.

Lemma Writes_bigInt i : 0 <= i -> Writes (writeBigInt i) (encString (bigBytes i)).
Proof.
  intros Hi. unfold writeBigInt. cbv zeta.
  destruct (Z.leb_spec (if i =? 0 then 0 else Z.log2 i + 1) 64) as [Hs|Hl].
  - assert (Hu : is_u64 i).
    { destruct (Z.eqb_spec i 0) as [->|]; [wsolve|]. pose proof (Z.log2_spec i ltac:(lia)) as [_ H].
      assert (2 ^ Z.succ (Z.log2 i) <= 2 ^ 64) by (apply Z.pow_le_mono_r; lia). wsolve. }
    rewrite u64_small, <- encUint_encString by done. apply Writes_uint.
  - destruct (Z.eqb_spec i 0) as [->|Hnz]; [lia|].
    set (bl := Z.log2 i + 1) in *.
    assert (Esz : Z.shiftr (Z.land (bl + 7) (-8)) 3 = Z.log2 i / 8 + 1).
    { change (-8) with (Z.lnot (Z.ones 3)).
      rewrite <- Z.ldiff_land, Z.ldiff_ones_r by lia.
      rewrite Z.shiftr_shiftl_l, Z.shiftl_0_r, Z.shiftr_div_pow2 by lia. unfold bl.
      replace (Z.log2 i + 1 + 7) with (Z.log2 i + 1 * 8) by lia. change (2 ^ 3) with 8.
      by rewrite Z.div_add by lia. }
    rewrite Esz. set (n := Z.to_nat (Z.log2 i / 8 + 1)).
    assert (Hdiv : 8 <= Z.log2 i / 8) by (apply Z.div_le_lower_bound; lia).
    assert (En : Z.log2 i / 8 + 1 = Z.of_nat n) by (unfold n; lia). rewrite En.
    assert (Eb : bigBytes i = be_bytes n i).
    { unfold bigBytes. by rewrite (proj2 (Z.eqb_neq i 0)), Z.abs_eq by lia. }
    assert (Hlen : length (be_bytes n i) = n) by apply length_be_bytes.
    replace (encString (bigBytes i)) with (puthead 128 183 (Z.of_nat n) ++ be_bytes n i).
    + apply (Writes_seq (encodeStringHeader (Z.of_nat n)) (append (be_bytes n i)));
        apply Writes_append.
    + rewrite Eb. unfold encString. destruct (be_bytes n i) as [|x [|y l]] eqn:El;
        [cbn in Hlen; lia..|]. by rewrite <- Hlen.
Qed.

(** ** Sequences of strings *)

Definition strItem (b : list Z) : item := (kindOfString b, b).
Definition encStrings (l : list (list Z)) : list Z := encItems (map strItem l).

Lemma encKind_strItem b : encKind (kindOfString b) b = encString b.
Proof. unfold encKind, kindOfString. destruct b as [|x [|y b]]; try done. by case_if. Qed.

Lemma goodItem_str b : Forall isByte b -> goodItem (strItem b).
Proof. done. Qed.

Lemma encStrings_cons b l : encStrings (b :: l) = encString b ++ encStrings l.
Proof.
  unfold encStrings. cbn [map]. rewrite encItems_cons. unfold strItem at 1 2. cbn [fst snd].
  by rewrite encKind_strItem.
Qed.

Lemma encStrings_app l l' : encStrings (l ++ l') = encStrings l ++ encStrings l'.
Proof.
  induction l as [|b l IH]; [done|]. cbn [app]. by rewrite !encStrings_cons, IH, app_assoc.
Qed.

(** A sequence of encoded strings can be read in one way only. *)
Lemma encStrings_inj l l' :
  Forall (Forall isByte) l -> Forall (Forall isByte) l' ->
  Z.of_nat (length (encStrings l)) < 2 ^ 63 -> encStrings l = encStrings l' -> l = l'.
Proof.
  revert l'. induction l as [|b l IH]; intros l' Hl Hl' Hlen E.
  - destruct l' as [|b' l']; [done|]. rewrite encStrings_cons in E. symmetry in E.
    apply app_nil in E as [E _]. rewrite <- encKind_strItem in E. by apply encKind_nonempty in E.
  - destruct l' as [|b' l'].
    { rewrite encStrings_cons in E. apply app_nil in E as [E _]. rewrite <- encKind_strItem in E.
      by apply encKind_nonempty in E. }
    rewrite !encStrings_cons in *. apply Forall_cons in Hl as [Hb Hl], Hl' as [Hb' Hl'].
    rewrite <- !encKind_strItem in *.
    pose proof (Split_encKind _ b (encStrings l) Hb Hlen (fun _ => eq_refl)) as E1.
    rewrite E in Hlen, E1.
    rewrite (Split_encKind _ b' (encStrings l') Hb' Hlen (fun _ => eq_refl)) in E1.
    injection E1 as _ -> E2. f_equal. symmetry in E2. apply IH; [done..| |done].
    rewrite length_app in Hlen. rewrite E2. lia.
Qed.

Lemma puthead_isByte st lt n :
  0 <= st <= 192 -> 0 <= lt <= 247 -> 0 <= n < 2 ^ 64 -> Forall isByte (puthead st lt n).
Proof.
  intros Hs Hl Hn. unfold puthead. destruct (Z.ltb_spec n 56).
  - constructor; [unfold isByte; lia|constructor].
  - destruct (putintSize_bounds n ltac:(lia)) as [Hb _].
    constructor; [unfold isByte; lia|apply be_bytes_isByte].
Qed.

Lemma encStrings_isByte l :
  Z.of_nat (length (encStrings l)) < 2 ^ 63 -> Forall (Forall isByte) l -> Forall isByte (encStrings l).
Proof.
  intros Hlen. induction 1 as [|b l Hb _ IH]; [constructor|]. rewrite encStrings_cons in *.
  rewrite length_app in Hlen. apply Forall_app. split; [|apply IH; lia].
  unfold encString in *. destruct b as [|x [|y b]].
  - constructor; [unfold isByte; cbn; lia|constructor].
  - case_if; [done|]. constructor; [unfold isByte; lia|done].
  - rewrite length_app in Hlen. apply Forall_app. split; [|done].
    apply puthead_isByte; lia.
Qed.

Lemma encList_inj c c' :
  Forall isByte c -> Forall isByte c' -> Z.of_nat (length (encList c)) < 2 ^ 63 ->
  encList c = encList c' -> c = c'.
Proof.
  intros Hb Hb' Hlen E.
  pose proof (Split_encKind KList c [] Hb) as E1. pose proof (Split_encKind KList c' [] Hb') as E2.
  cbn [encKind] in *. rewrite !app_nil_r in *. rewrite E in *.
  specialize (E1 Hlen ltac:(done)). specialize (E2 Hlen ltac:(done)). congruence.
Qed.

(** ** The fields of a header as strings *)

Definition bigString (p : option Z) : list Z := bigBytes (default 0 p).

Definition fieldStrings (h : Header) (extra : list Z) : list (list Z) :=
  [be_bytes 32 (ParentHash h); be_bytes 32 (UncleHash h); be_bytes 20 (hdrCoinbase h);
   be_bytes 32 (Root h); be_bytes 32 (TxHash h); be_bytes 32 (ReceiptHash h);
   be_bytes 256 (Bloom h); bigString (Difficulty h); bigString (Number h);
   bigBytes (GasLimit h); bigBytes (GasUsed h); bigBytes (Time h); extra;
   be_bytes 32 (MixDigest h); be_bytes 8 (Nonce h)].

(** The widths of the fields of a header that arrived over the wire. *)
Definition nonneg (p : option Z) : Prop := forall x, p = Some x -> 0 <= x.

Record wireHeader (h : Header) : Prop := mkWireHeader {
  wire_parent : 0 <= ParentHash h < 2 ^ 256;
  wire_uncle : 0 <= UncleHash h < 2 ^ 256;
  wire_coinbase : 0 <= hdrCoinbase h < 2 ^ 160;
  wire_root : 0 <= Root h < 2 ^ 256;
  wire_tx : 0 <= TxHash h < 2 ^ 256;
  wire_receipt : 0 <= ReceiptHash h < 2 ^ 256;
  wire_bloom : 0 <= Bloom h < 2 ^ 2048;
  wire_difficulty : nonneg (Difficulty h);
  wire_number : nonneg (Number h);
  wire_gasLimit : is_u64 (GasLimit h);
  wire_gasUsed : is_u64 (GasUsed h);
  wire_time : is_u64 (Time h);
  wire_extra : Forall isByte (Extra h);
  wire_mix : 0 <= MixDigest h < 2 ^ 256;
  wire_nonce : 0 <= Nonce h < 2 ^ 64;
  wire_baseFee : nonneg (BaseFee h)
}.

Lemma nonneg_default p : nonneg p -> 0 <= default 0 p.
Proof. intros H. destruct p as [x|]; cbn; [by apply H|lia]. Qed.

Lemma Writes_bigIntPtr p :
  nonneg p -> exists w, writeBigIntPtr p = Some w /\ Writes w (encString (bigString p)).
Proof.
  intros H. destruct p as [x|]; cbn.
  - specialize (H x eq_refl). rewrite (proj2 (Z.ltb_ge x 0)) by lia. eexists. split; [done|].
    by apply Writes_bigInt.
  - eexists. split; [done|]. apply Writes_append.
Qed.

Lemma Writes_uintString i : is_u64 i -> Writes (writeUint64 i) (encString (bigBytes i)).
Proof. intros H. rewrite <- encUint_encString by done. apply Writes_uint. Qed.

Lemma Writes_encList ws outs :
  Forall2 Writes ws outs -> Writes (writeAll id ws) (mjoin outs).
Proof.
  induction 1 as [|w o ws outs Hw _ IH].
  - apply (Writes_all (fun w => w) (fun _ => [])). set_solver.
  - change (mjoin (o :: outs)) with (o ++ mjoin outs). by apply (Writes_seq w).
Qed.

Lemma mjoin_encString l : mjoin (map encString l) = encStrings l.
Proof.
  induction l as [|b l IH]; [done|]. rewrite encStrings_cons, <- IH. done.
Qed.

Lemma headerFields_ok h extra :
  wireHeader h -> exists ws, headerFields h extra = Some ws /\
    Forall2 Writes ws (map encString (fieldStrings h extra)).
Proof.
  intros [].
  destruct (Writes_bigIntPtr (Difficulty h)) as (wd & Ed & Hd); [done|].
  destruct (Writes_bigIntPtr (Number h)) as (wn & En & Hn); [done|].
  unfold headerFields. rewrite Ed, En. eexists. split; [done|]. cbn [fieldStrings map].
  repeat (constructor; [first [exact Hd | exact Hn | by apply Writes_uintString | apply Writes_bytes]|]).
  constructor.
Qed.

Lemma EncodeToBytes_strings ws l :
  Forall2 Writes ws (map encString l) -> Z.of_nat (length (encStrings l)) < 2 ^ 63 ->
  EncodeToBytes (inList (writeAll id ws)) = encList (encStrings l).
Proof.
  intros H Hlen. apply EncodeToBytes_Writes, Writes_inList; [lia|].
  rewrite <- mjoin_encString. by apply Writes_encList.
Qed.

(** The strings that are signed. *)
Definition unsealed (h : Header) : list Z := take (length (Extra h) - 65) (Extra h).

Definition signedStrings (h : Header) (c : BorConfig) : list (list Z) :=
  fieldStrings h (unsealed h) ++
  match BaseFee h with
  | Some fee => if IsJaipur c (Number h) then [bigBytes fee] else []
  | None => []
  end.

Lemma fieldStrings_isByte h extra : Forall isByte extra -> Forall (Forall isByte) (fieldStrings h extra).
Proof.
  intros He. unfold fieldStrings, bigString.
  repeat (constructor; [first [exact He | apply be_bytes_isByte | apply bigBytes_isByte]|]).
  constructor.
Qed.

Lemma length_fieldStrings h extra : length (fieldStrings h extra) = 15%nat.
Proof. done. Qed.

Lemma signedStrings_isByte h c : wireHeader h -> Forall (Forall isByte) (signedStrings h c).
Proof.
  intros Hw. apply Forall_app. split.
  - apply fieldStrings_isByte, Forall_take, wire_extra, Hw.
  - destruct (BaseFee h); [|constructor]. case_if; [|constructor].
    constructor; [apply bigBytes_isByte|constructor].
Qed.

Definition smallHeader (h : Header) (c : BorConfig) : Prop :=
  Z.of_nat (length (encList (encStrings (signedStrings h c)))) < 2 ^ 63.

Lemma encList_longer c : (length c <= length (encList c))%nat.
Proof. unfold encList. rewrite length_app. lia. Qed.

Lemma BorRLP_strings h c :
  wireHeader h -> smallHeader h c -> (65 <= length (Extra h))%nat ->
  BorRLP h c = Some (encList (encStrings (signedStrings h c))).
Proof.
  intros Hw Hs He. unfold BorRLP, encodeSigHeader.
  rewrite (proj2 (Nat.ltb_ge _ _)) by lia. fold (unsealed h).
  destruct (headerFields_ok h (unsealed h) Hw) as (ws & E & HW). rewrite E.
  cbn [mbind option_bind].
  unfold smallHeader, signedStrings in *. pose proof (encList_longer (encStrings (signedStrings h c))) as Hl.
  unfold signedStrings in Hl.
  destruct (BaseFee h) as [fee|] eqn:Ef; [|rewrite app_nil_r in *; by rewrite (EncodeToBytes_strings _ _ HW) by lia].
  destruct (IsJaipur c (Number h)); [|rewrite app_nil_r in *; by rewrite (EncodeToBytes_strings _ _ HW) by lia].
  destruct (Writes_bigIntPtr (Some fee)) as (w & Ew & Hwr).
  { intros x [= <-]. by apply (wire_baseFee h Hw). }
  rewrite Ew. cbn [mbind option_bind]. f_equal. apply EncodeToBytes_strings; [|lia].
  rewrite map_app. apply Forall2_app; [done|]. constructor; [done|constructor].
Qed.

(** The fields that a list of strings determines. *)
Lemma fieldStrings_inj h h' e e' :
  wireHeader h -> wireHeader h' -> fieldStrings h e = fieldStrings h' e' ->
  ParentHash h = ParentHash h' /\ UncleHash h = UncleHash h' /\ hdrCoinbase h = hdrCoinbase h' /\
  Root h = Root h' /\ TxHash h = TxHash h' /\ ReceiptHash h = ReceiptHash h' /\
  Bloom h = Bloom h' /\ default 0 (Difficulty h) = default 0 (Difficulty h') /\
  default 0 (Number h) = default 0 (Number h') /\ GasLimit h = GasLimit h' /\
  GasUsed h = GasUsed h' /\ Time h = Time h' /\ e = e' /\ MixDigest h = MixDigest h' /\
  Nonce h = Nonce h'.
Proof.
  intros [] [] E. unfold fieldStrings in E.
  assert (H : forall n x y, 0 <= x < 256 ^ Z.of_nat n -> 0 <= y < 256 ^ Z.of_nat n ->
            be_bytes n x = be_bytes n y -> x = y) by apply be_bytes_inj.
  assert (Hb : forall p q, nonneg p -> nonneg q -> bigString p = bigString q ->
            default 0 p = default 0 q).
  { intros p q Hp Hq. apply bigBytes_inj; by apply nonneg_default. }
  assert (Hc : forall (x y : list Z) l l', x :: l = y :: l' -> x = y /\ l = l')
    by (intros x y l l'; by injection 1).
  repeat (apply Hc in E as [? E]). clear E Hc.
  repeat split; first [assumption | apply Hb; assumption
    | apply bigBytes_inj; [wsolve|wsolve|assumption] | eapply H; [| |eassumption]; assumption].
Qed.

(** ** The strings of the hashed encoding *)

Lemma lastPresent_strings (ops : list (writer * bool)) (ss : list (list Z)) :
  Forall2 (fun o b => Writes o.1 (encString b)) ops ss ->
  exists n, Forall2 Writes (lastPresent ops) (map encString (take n ss)) /\ (n <= length ops)%nat /\
    (forall i o, ops !! i = Some o -> o.2 = false -> (i < n)%nat) /\
    (forall k, (forall i o, ops !! i = Some o -> (k <= i)%nat -> o.2 = true) -> (n <= k)%nat).
Proof.
  induction 1 as [|[w z] b ops ss Hw Hrest (n & Hn & Hle & Hlo & Hhi)].
  { exists 0%nat. split_and!; [constructor|done|done|lia]. }
  cbn [lastPresent]. pose proof (Forall2_length _ _ _ Hrest) as Hlen.
  assert (En : length (lastPresent ops) = n).
  { pose proof (Forall2_length _ _ _ Hn) as E. rewrite length_map, length_take in E. lia. }
  destruct (lastPresent ops) as [|w' ws] eqn:E.
  - cbn in En. subst n. destruct z.
    + exists 0%nat. split_and!; [constructor|cbn; lia| |lia].
      intros [|i] o Hi Ho; cbn in Hi; [injection Hi as <-; done|].
      specialize (Hlo i o Hi Ho). lia.
    + exists 1%nat. split_and!; [cbn [take map]; constructor; [exact Hw|constructor]|cbn; lia| |].
      * intros [|i] o Hi Ho; [lia|]. specialize (Hlo i o Hi Ho). lia.
      * intros [|k] Hk; [|lia]. by specialize (Hk 0%nat _ eq_refl (le_n _)).
  - exists (S n). split_and!; [cbn [take map]; by constructor|cbn; lia| |].
    + intros [|i] o Hi Ho; [lia|]. specialize (Hlo i o Hi Ho). lia.
    + intros [|k] Hk; [|apply le_n_S, Hhi; intros i o Hi Hki; apply (Hk (S i)); [done|lia]].
      exfalso. enough (n <= 0)%nat by (cbn in En; lia). apply Hhi.
      intros i o Hi _. apply (Hk (S i)); [done|lia].
Qed.

(** The optional fields as strings. *)
Definition hashString (p : option Z) : list Z :=
  match p with Some h => be_bytes 32 h | None => [] end.

Definition optStrings (h : Header) : list (list Z) :=
  [bigString (BaseFee h); hashString (WithdrawalsHash h); bigString (BlobGasUsed h);
   bigString (ExcessBlobGas h); hashString (ParentBeaconRoot h); hashString (RequestsHash h)].

Definition wireOptions (h : Header) : Prop :=
  (forall x, BlobGasUsed h = Some x -> is_u64 x) /\ (forall x, ExcessBlobGas h = Some x -> is_u64 x).

Lemma Writes_hashPtr p : Writes (writeHashPtr p) (encString (hashString p)).
Proof. destruct p; [apply Writes_bytes|apply Writes_append]. Qed.

Lemma Writes_uintPtrString p :
  (forall x, p = Some x -> is_u64 x) -> Writes (writeUintPtr p) (encString (bigString p)).
Proof. intros H. destruct p as [x|]; [by apply Writes_uintString, H|apply Writes_append]. Qed.

(** The encoding of a header is that of the fifteen fields and of [n] optional
    ones, where the last one that is set is the [n]-th. *)
Lemma EncodeRLP_strings h :
  wireHeader h -> wireOptions h ->
  Z.of_nat (length (encStrings (fieldStrings h (Extra h) ++ optStrings h))) < 2 ^ 63 ->
  exists n, (n <= 6)%nat /\
    EncodeRLP h = Some (encList (encStrings (fieldStrings h (Extra h) ++ take n (optStrings h)))) /\
    (ParentBeaconRoot h <> None -> (5 <= n)%nat) /\
    (ParentBeaconRoot h = None -> RequestsHash h = None -> (n <= 4)%nat).
Proof.
  intros Hw [Hb He] Hlen. unfold EncodeRLP.
  destruct (headerFields_ok h (Extra h) Hw) as (ws & E & HW). rewrite E. cbn [mbind option_bind].
  destruct (Writes_bigIntPtr (BaseFee h)) as (w & Ew & Hwr); [apply wire_baseFee, Hw|].
  rewrite Ew. cbn [mbind option_bind].
  set (ops := (w, bool_decide (BaseFee h = None)) :: _).
  destruct (lastPresent_strings ops (optStrings h)) as (n & Hn & Hle & Hlo & Hhi).
  { unfold ops, optStrings. repeat (constructor; [cbn [fst]; first [exact Hwr | apply Writes_hashPtr
      | by apply Writes_uintPtrString]|]). constructor. }
  exists n. split_and!.
  - done.
  - f_equal. apply EncodeToBytes_strings.
    + rewrite map_app. by apply Forall2_app.
    + eapply Z.le_lt_trans; [|exact Hlen]. rewrite <- (take_drop n (optStrings h)) at 2.
      rewrite app_assoc, (encStrings_app (_ ++ _)), length_app. lia.
  - intros Hp. specialize (Hlo 4%nat _ eq_refl). cbn in Hlo. rewrite bool_decide_eq_false in Hlo.
    specialize (Hlo Hp). lia.
  - intros Hp Hr. apply Hhi. intros i o Hi Hge.
    do 4 (destruct i as [|i]; [lia|]). destruct i as [|[|i]]; [..|done];
      injection Hi as <-; by apply bool_decide_eq_true.
Qed.

(** ** Recovery and its cache *)

Section recovery.
Context {C : Type -> Type} `{!Cache C}.
Variable keccak : list Z -> Z.
Variable Ecrecover : list Z -> list Z -> option (list Z).

Abbreviation recover := (ecrecover (C := C) keccak Ecrecover).

(** The outcome of a step without the state it leaves. *)
Definition answer {S E A} (o : outcome S E A) : (E + A) + string :=
  match o with
  | Done _ a => inl (inr a)
  | Fail _ e => inl (inl e)
  | Panicked w => inr w
  end.

(** The recovery without a cache. *)
Definition recovered (h : Header) (c : BorConfig) : (bor_error + Z) + string :=
  answer (recover h c cempty).

(** Every cached address is the one recovery gives, for the headers [seen]. *)
Definition coherentSigs (seen : Header -> Prop) (c : BorConfig) (sigs : C Z) : Prop :=
  forall h a, seen h -> (cget (Hash keccak h) sigs).1 = Some a -> recovered h c = inl (inr a).

Lemma recover_cold h c sigs :
  (cget (Hash keccak h) sigs).1 = None -> answer (recover h c sigs) = recovered h c.
Proof.
  intros E. unfold recovered, ecrecover, mbind, st_bind, getS, putS.
  pose proof (cget_empty Z (Hash keccak h)) as E0.
  destruct (cget (Hash keccak h) sigs) as [? s1], (cget (Hash keccak h) cempty) as [? s2].
  cbn in E, E0. subst. unfold failIf, failS, orPanic, panic, modify.
  repeat case_if; try done. destruct (SealHash keccak h c); [|done]. cbn.
  by destruct (Ecrecover _ _).
Qed.

(** What a recovery leaves in the cache: what was there, or its own result. *)
Lemma recover_cache h c sigs sigs' k a :
  match recover h c sigs with Done s' _ | Fail s' _ => s' = sigs' | Panicked _ => False end ->
  (cget k sigs').1 = Some a ->
  (cget k sigs).1 = Some a \/
  (k = Hash keccak h /\ (cget (Hash keccak h) sigs).1 = None /\
   answer (recover h c sigs) = inl (inr a)).
Proof.
  unfold ecrecover, mbind, st_bind, getS, putS.
  pose proof (fun x => cget_get Z k (Hash keccak h) sigs x) as Hget.
  destruct (cget (Hash keccak h) sigs) as [[a0|] s1] eqn:E; cbn [fst snd] in Hget.
  { cbn. intros <- H. left. by apply Hget. }
  unfold failIf, failS, orPanic, panic, modify.
  repeat case_if; cbn; try (intros <- H; left; by apply Hget).
  destruct (SealHash keccak h c) as [sh|]; [|done]. cbn.
  destruct (Ecrecover _ _) as [pk|]; [|intros <- H; left; by apply Hget].
  cbn. intros <- H. apply cget_add in H as [[-> ->]|H]; [by right|left; by apply Hget].
Qed.

(** The recovery depends on the two encodings and the extra data only. *)
Lemma recovered_ext c h h' :
  EncodeRLP h = EncodeRLP h' -> Extra h = Extra h' -> encodeSigHeader h c = encodeSigHeader h' c ->
  recovered h c = recovered h' c.
Proof.
  intros E1 E2 E3. unfold recovered, ecrecover, Hash, SealHash, sealOf. by rewrite E1, E2, E3.
Qed.

Lemma recover_warm h c sigs a :
  (cget (Hash keccak h) sigs).1 = Some a -> answer (recover h c sigs) = inl (inr a).
Proof.
  intros E. unfold ecrecover, mbind, st_bind, getS, putS.
  destruct (cget (Hash keccak h) sigs) as [o s1]. cbn in E. by subst.
Qed.

End recovery.

(** The header with a parent beacon root. *)
Definition withBeaconRoot (root : Z) (h : Header) : Header :=
  mkHeader (ParentHash h) (UncleHash h) (hdrCoinbase h) (Root h) (TxHash h) (ReceiptHash h) (Bloom h)
    (Difficulty h) (Number h) (GasLimit h) (GasUsed h) (Time h) (Extra h) (MixDigest h) (Nonce h)
    (BaseFee h) (WithdrawalsHash h) (BlobGasUsed h) (ExcessBlobGas h) (Some root) (RequestsHash h)
    (ActualTime h) (AbortRecovery h).

Lemma recovered_withBeaconRoot keccak Ecrecover c h root :
  recovered (C := gmap Z) keccak Ecrecover (withBeaconRoot root h) c =
  recovered (C := gmap Z) keccak Ecrecover h c.
Proof.
  unfold recovered, ecrecover, mbind, st_bind, getS, putS. cbn [cget gmap_cache cempty].
  rewrite !lookup_empty.
  change (SealHash keccak (withBeaconRoot root h) c) with (SealHash keccak h c).
  change (sealOf (withBeaconRoot root h)) with (sealOf h).
  change (Extra (withBeaconRoot root h)) with (Extra h).
  unfold failIf, failS, orPanic, panic, modify. repeat case_if; try done.
  destruct (SealHash keccak h c); [|done]. cbn. by destruct (Ecrecover _ _).
Qed.

Definition smallEncoding (h : Header) : Prop :=
  Z.of_nat (length (encStrings (fieldStrings h (Extra h) ++ optStrings h))) < 2 ^ 62.

Lemma length_encList_le c : Z.of_nat (length c) < 2 ^ 63 ->
  Z.of_nat (length (encList c)) <= Z.of_nat (length c) + 9.
Proof.
  intros H. unfold encList. rewrite length_app, Nat2Z.inj_add.
  pose proof (length_headOf KList (Z.of_nat (length c)) ltac:(lia)) as Hh. unfold headOf in Hh.
  cbn [tags fst snd] in Hh. rewrite Hh. pose proof (headsize_pos (Z.of_nat (length c)) ltac:(lia)). lia.
Qed.

Lemma optStrings_isByte h : Forall (Forall isByte) (optStrings h).
Proof.
  unfold optStrings, bigString, hashString.
  repeat (constructor; [first [apply bigBytes_isByte | case_match; [apply be_bytes_isByte|constructor]]|]).
  constructor.
Qed.

(** Equal encodings have as many optional fields. *)
Lemma encoded_count h h' n n' :
  encList (encStrings (fieldStrings h' (Extra h') ++ take n' (optStrings h'))) =
    encList (encStrings (fieldStrings h (Extra h) ++ take n (optStrings h))) ->
  wireHeader h -> wireHeader h' -> smallEncoding h -> smallEncoding h' ->
  (n <= 6)%nat -> (n' <= 6)%nat -> n = n'.
Proof.
  intros E Hw Hw' Hs Hs' Hn Hn'.
  assert (Hgen : forall g m, wireHeader g -> smallEncoding g ->
    let l := fieldStrings g (Extra g) ++ take m (optStrings g) in
    Forall (Forall isByte) l /\ Z.of_nat (length (encStrings l)) < 2 ^ 62).
  { intros g m Hg Hsg l. split.
    - apply Forall_app. split; [apply fieldStrings_isByte, wire_extra, Hg|].
      apply Forall_take, optStrings_isByte.
    - eapply Z.le_lt_trans; [|exact Hsg]. unfold l. rewrite <- (take_drop m (optStrings g)) at 2.
      rewrite app_assoc, (encStrings_app (_ ++ _)), length_app. lia. }
  destruct (Hgen h n Hw Hs) as [B L], (Hgen h' n' Hw' Hs') as [B' L'].
  pose proof (length_encList_le _ (Z.lt_trans _ _ (2 ^ 63) L' eq_refl)).
  apply encList_inj in E; [|apply encStrings_isByte; [lia|done]..|lia].
  apply encStrings_inj in E; [|done..|lia].
  apply (f_equal length) in E. rewrite !length_app, !length_fieldStrings, !length_take in E.
  change (length (optStrings h)) with 6%nat in E. change (length (optStrings h')) with 6%nat in E. lia.
Qed.

(** ** Properties *)

(** C36: the bytes that are signed determine every field they are made of: two
    headers with the same [BorRLP] agree on all the fields before the base fee, on
    the extra data up to the seal, and after Jaipur on the base fee.  A seal
    cannot be moved to a header that differs in any of them. *)
Theorem BorRLP_injective c h h' :
  wireHeader h -> wireHeader h' -> smallHeader h c -> smallHeader h' c ->
  (65 <= length (Extra h))%nat -> (65 <= length (Extra h'))%nat ->
  Number h <> None -> Number h' <> None ->
  BorRLP h c = BorRLP h' c ->
  fieldStrings h (unsealed h) = fieldStrings h' (unsealed h') /\
  ParentHash h = ParentHash h' /\ Root h = Root h' /\ TxHash h = TxHash h' /\
  ReceiptHash h = ReceiptHash h' /\ Number h = Number h' /\ Time h = Time h' /\
  default 0 (Difficulty h) = default 0 (Difficulty h') /\ unsealed h = unsealed h' /\
  (IsJaipur c (Number h) = true -> BaseFee h = BaseFee h').
Proof.
  intros Hw Hw' Hs Hs' He He' Hn Hn'. rewrite !BorRLP_strings by done. intros E.
  apply (inj Some) in E.
  pose proof (encList_longer (encStrings (signedStrings h c))) as Hl. unfold smallHeader in Hs.
  pose proof (encList_longer (encStrings (signedStrings h' c))) as Hl'. unfold smallHeader in Hs'.
  apply encList_inj in E; [|apply encStrings_isByte; [lia|by apply signedStrings_isByte]..|done].
  apply encStrings_inj in E; [|by apply signedStrings_isByte|by apply signedStrings_isByte|lia].
  unfold signedStrings in E. apply app_inj_1 in E as [Ef Et]; [|by rewrite !length_fieldStrings].
  destruct (fieldStrings_inj h h' _ _ Hw Hw' Ef) as (? & ? & ? & ? & ? & ? & ? & ? & En & ? & ? & ? & ? & ? & ?).
  assert (Enum : Number h = Number h') by (destruct (Number h), (Number h'); cbn in En; congruence).
  repeat (split; [assumption|]). intros HJ. rewrite <- Enum, HJ in Et.
  destruct (BaseFee h) as [x|] eqn:Eb, (BaseFee h') as [y|] eqn:Eb'; try done.
  f_equal. assert (Exy : bigBytes x = bigBytes y) by congruence.
  apply bigBytes_inj; [by apply (wire_baseFee h Hw)|by apply (wire_baseFee h' Hw')|done].
Qed.

(** A header of block 500 with a seal of 65 equal bytes. *)
Definition demoSealed (seal : Z) : Header :=
  HeaderProps.demoHeader 500 1000 (replicate 32 0 ++ replicate 65 seal).

Lemma demoSealed_wire seal : isByte seal -> wireHeader (demoSealed seal) /\ wireOptions (demoSealed seal).
Proof.
  intros Hs. split; [|split; discriminate].
  split; cbn [demoSealed HeaderProps.demoHeader ParentHash UncleHash hdrCoinbase Root TxHash ReceiptHash
    Bloom GasLimit GasUsed Time MixDigest Nonce Difficulty Number BaseFee Extra];
    first [wsolve | (intros x [= <-]; lia) | idtac].
  apply Forall_app. split; apply Forall_replicate; [unfold isByte; lia|done].
Qed.

Lemma BorRLP_injective_witness :
  Number (demoSealed 1) = Number (demoSealed 2) /\ unsealed (demoSealed 1) = unsealed (demoSealed 2) /\
  BaseFee (demoSealed 1) = BaseFee (demoSealed 2).
Proof.
  destruct (BorRLP_injective ConfigProps.demoBor (demoSealed 1) (demoSealed 2))
    as (_ & _ & _ & _ & _ & H1 & _ & _ & H2 & H3).
  - apply demoSealed_wire. unfold isByte. lia.
  - apply demoSealed_wire. unfold isByte. lia.
  - vm_compute. reflexivity.
  - vm_compute. reflexivity.
  - vm_compute. lia.
  - vm_compute. lia.
  - discriminate.
  - discriminate.
  - vm_compute. reflexivity.
  - split; [exact H1|]. split; [exact H2|]. apply H3. vm_compute. reflexivity.
Defined.

(** The fields [encodeSigHeader] leaves out are free under a seal.  Adding a
    parent beacon root to a sealed header keeps its signer and changes the bytes
    its hash is taken of, so one seal authorizes several block hashes. *)
Theorem beacon_root_not_sealed (keccak : list Z -> Z) (Ecrecover : list Z -> list Z -> option (list Z))
    (c : BorConfig) (h : Header) (root : Z) :
  wireHeader h -> wireOptions h -> smallEncoding h -> smallEncoding (withBeaconRoot root h) ->
  ParentBeaconRoot h = None -> RequestsHash h = None ->
  recovered (C := gmap Z) keccak Ecrecover (withBeaconRoot root h) c =
    recovered (C := gmap Z) keccak Ecrecover h c /\
  EncodeRLP (withBeaconRoot root h) <> EncodeRLP h.
Proof.
  intros Hw Ho Hs Hs' Hp Hr. split; [by apply recovered_withBeaconRoot|].
  assert (Hw' : wireHeader (withBeaconRoot root h)) by (destruct Hw; by split).
  destruct (EncodeRLP_strings h Hw Ho) as (n & Hn & -> & _ & Hn4); [unfold smallEncoding in Hs; lia|].
  destruct (EncodeRLP_strings _ Hw' Ho) as (n' & Hn' & -> & Hn5 & _); [unfold smallEncoding in Hs'; lia|].
  specialize (Hn4 Hp Hr). specialize (Hn5 ltac:(done)). intros E.
  apply (inj Some) in E.
  apply encoded_count in E; [lia|done..].
Qed.

Lemma beacon_root_not_sealed_witness :
  recovered (C := gmap Z) SetBytes (fun hash sig => Some (4 :: hash)) (withBeaconRoot 9 (demoSealed 1))
      ConfigProps.demoBor =
    recovered (C := gmap Z) SetBytes (fun hash sig => Some (4 :: hash)) (demoSealed 1) ConfigProps.demoBor /\
  EncodeRLP (withBeaconRoot 9 (demoSealed 1)) <> EncodeRLP (demoSealed 1).
Proof.
  apply beacon_root_not_sealed.
  - apply demoSealed_wire. unfold isByte. lia.
  - apply (demoSealed_wire 1). unfold isByte. lia.
  - vm_compute. reflexivity.
  - vm_compute. reflexivity.
  - reflexivity.
  - reflexivity.
Defined.

(** The signer cache changes no answer.  From a cache whose entries are what
    recovery gives, recovering gives what it gives without a cache, and leaves
    such a cache, as long as the hash separates the headers that are seen. *)
Theorem ecrecover_transparent {C : Type -> Type} `{!Cache C}
    (keccak : list Z -> Z) (Ecrecover : list Z -> list Z -> option (list Z))
    (seen : Header -> Prop) (c : BorConfig) (h : Header) (sigs : C Z) :
  seen h ->
  (forall h', seen h' -> Hash keccak h' = Hash keccak h -> EncodeRLP h' = EncodeRLP h /\ Extra h' = Extra h
     /\ encodeSigHeader h' c = encodeSigHeader h c) ->
  coherentSigs keccak Ecrecover seen c sigs ->
  answer (ecrecover keccak Ecrecover h c sigs) = recovered (C := C) keccak Ecrecover h c /\
  match ecrecover keccak Ecrecover h c sigs with
  | Done sigs' _ | Fail sigs' _ => coherentSigs keccak Ecrecover seen c sigs'
  | Panicked _ => True
  end.
Proof.
  intros Hseen Hhash Hc.
  assert (Ha : answer (ecrecover keccak Ecrecover h c sigs) = recovered (C := C) keccak Ecrecover h c).
  { destruct (cget (Hash keccak h) sigs).1 as [a|] eqn:E; [|by apply recover_cold].
    rewrite (Hc h a Hseen E). by apply recover_warm. }
  split; [exact Ha|].
  pose proof (fun sigs' k a => recover_cache keccak Ecrecover h c sigs sigs' k a) as Hcache.
  destruct (ecrecover keccak Ecrecover h c sigs) as [s' x|s' e|] eqn:Er; [..|done];
    intros h' a Hs' H; (destruct (Hcache s' (Hash keccak h') a eq_refl H) as [H'|(Eh & _ & Ea)];
      [by apply Hc|]); destruct (Hhash h' Hs' Eh) as (E1 & E2 & E3);
    rewrite (recovered_ext keccak Ecrecover c h' h E1 E2 E3), <- Ha; exact Ea.
Qed.

Lemma ecrecover_transparent_witness :
  answer (ecrecover (C := gmap Z) SetBytes (fun hash sig => Some (4 :: sig)) (demoSealed 1)
            ConfigProps.demoBor ∅) =
  recovered (C := gmap Z) SetBytes (fun hash sig => Some (4 :: sig)) (demoSealed 1) ConfigProps.demoBor /\
  answer (ecrecover (C := gmap Z) SetBytes (fun hash sig => Some (4 :: sig)) (demoSealed 1)
            ConfigProps.demoBor ∅) = inl (inr (SetBytes (replicate 20 1))).
Proof.
  split; [|vm_compute; reflexivity].
  apply (ecrecover_transparent (C := gmap Z) SetBytes (fun hash sig => Some (4 :: sig))
           (fun h => h = demoSealed 1) ConfigProps.demoBor (demoSealed 1) ∅).
  - reflexivity.
  - intros h' -> _. repeat split.
  - intros h a _. cbn [cget gmap_cache]. rewrite lookup_empty. discriminate.
Defined.

End SealProps.
