(* ===== verification/Engine.v ===== *)
(** * The Bor engine: snapshots and verification (consensus/bor/bor.go, snapshot.go)

    The state of the engine, the retrieval of the snapshot of a block, the
    application of headers to a snapshot, and the checks on headers and seals. *)

From S2P Require Import Prelude Bytes Valset ValsetBytes ChainConfig Rlp Header Eip1559 BorTypes.
From S2P Require Import SpanStore Snapshot Seal.

Module Engine.
Import Valset ValsetBytes ChainConfig Header Eip1559 BorTypes SpanStore Seal.

Definition checkpointInterval : Z := 1024.
Definition maxAllowedFutureBlockTimeSeconds : Z := 30.
Definition validatorHeaderBytesLength : nat := 40.

(** ** State *)

(** The caches, the span store, the database of snapshots (what [json.Marshal]
    keeps of them) and the last milestone the fetcher saw.  A cached snapshot is
    shared by pointer, but its users only fill in the proposer and the total of its
    validator set, which are functions of the rest; here every user has a copy. *)
Record Bor (C : Type -> Type) := mkBor {
  recents : C Snapshot.Snapshot;
  recentVerifiedHeaders : C Header;
  signatures : C Z;
  spanStore : SpanStore C;
  db : gmap Z Snapshot.Snapshot;
  latestMilestoneBlock : Z;
  parentActualTimeCache : C Z
}.
Arguments mkBor {C}.
Arguments recents {C}.
Arguments recentVerifiedHeaders {C}.
Arguments signatures {C}.
Arguments spanStore {C}.
Arguments db {C}.
Arguments latestMilestoneBlock {C}.
Arguments parentActualTimeCache {C}.

(** What does not change after [New]: the configuration, the signer that mints
    blocks and the testing switches.  [blockTime] is in nanoseconds. *)
Record Settings := mkSettings {
  chainConfig : ChainConfig;
  config : BorConfig;
  signer : Z;
  DevFakeAuthor : bool;
  fakeDiff : bool;
  blockTime : Z
}.

(** What a call sees of the rest of the node: the chain, the readings of the clock
    in the order they are taken (in seconds), Heimdall now and at each turn of a
    wait, and whether the database accepts writes. *)
Record World := mkWorld {
  GetHeader : Z -> Z -> option Header;
  GetHeaderByNumber : Z -> option Header;
  now : Z;
  sealNow : Z;
  heimdall : Env;
  turns : list Env;
  dbWritable : bool
}.

Section engine.
Context {C : Type -> Type} `{!Cache C}.
Variable keccak : list Z -> Z.
Variable Ecrecover : list Z -> list Z -> option (list Z).
Variable cfg : Settings.

Abbreviation eng := (st (Bor C) bor_error).
Abbreviation hashOf := (Hash keccak).

Definition setRecentsCache (x : C Snapshot.Snapshot) (s : Bor C) : Bor C :=
  mkBor x (recentVerifiedHeaders s) (signatures s) (spanStore s) (db s) (latestMilestoneBlock s)
    (parentActualTimeCache s).
Definition setVerified (x : C Header) (s : Bor C) : Bor C :=
  mkBor (recents s) x (signatures s) (spanStore s) (db s) (latestMilestoneBlock s)
    (parentActualTimeCache s).
Definition setSignatures (x : C Z) (s : Bor C) : Bor C :=
  mkBor (recents s) (recentVerifiedHeaders s) x (spanStore s) (db s) (latestMilestoneBlock s)
    (parentActualTimeCache s).
Definition setSpanStore (x : SpanStore C) (s : Bor C) : Bor C :=
  mkBor (recents s) (recentVerifiedHeaders s) (signatures s) x (db s) (latestMilestoneBlock s)
    (parentActualTimeCache s).
Definition setDb (x : gmap Z Snapshot.Snapshot) (s : Bor C) : Bor C :=
  mkBor (recents s) (recentVerifiedHeaders s) (signatures s) (spanStore s) x (latestMilestoneBlock s)
    (parentActualTimeCache s).
Definition setMilestone (x : Z) (s : Bor C) : Bor C :=
  mkBor (recents s) (recentVerifiedHeaders s) (signatures s) (spanStore s) (db s) x
    (parentActualTimeCache s).
Definition setActualTimes (x : C Z) (s : Bor C) : Bor C :=
  mkBor (recents s) (recentVerifiedHeaders s) (signatures s) (spanStore s) (db s)
    (latestMilestoneBlock s) x.

(** Run a step of a component inside the engine. *)
Definition onSigs {A} (m : st (C Z) bor_error A) : eng A :=
  fun s => match m (signatures s) with
           | Done x a => Done (setSignatures x s) a
           | Fail x e => Fail (setSignatures x s) e
           | Panicked w => Panicked w
           end.

Definition onSpans {A} (m : st (SpanStore C) bor_error A) : eng A :=
  fun s => match m (spanStore s) with
           | Done x a => Done (setSpanStore x s) a
           | Fail x e => Fail (setSpanStore x s) e
           | Panicked w => Panicked w
           end.

(** Run a step on a value the caller holds. *)
Definition onValue {T E A} (conv : E -> bor_error) (m : st T E A) (x : T) : eng (T * A) :=
  fun s => match m x with
           | Done x' a => Done s (x', a)
           | Fail _ e => Fail s (conv e)
           | Panicked w => Panicked w
           end.

(** [header.Number.Uint64()]: the low 64 bits; nil is dereferenced. *)
Definition numberOf (h : Header) : eng Z :=
  match Number h with
  | Some n => mret (u64 (Z.abs n))
  | None => panic "nil pointer dereference"
  end.

(** A span of [spanByBlockNumber], which may be nil without an error. *)
Definition spanAt (w : World) (number : Z) : eng Span :=
  sp ← onSpans (spanByBlockNumber (heimdall w) number);
  orPanic "nil pointer dereference" sp.

(** The last explicit parent, or the header of the chain. *)
Definition parentOf (w : World) (parentHash number : Z) (parents : list Header) : option Header :=
  match last parents with
  | Some p => Some p
  | None => GetHeader w parentHash (u64 (number - 1))
  end.

Definition isSprintStart (number sprint : Z) : eng bool :=
  orPanic "division by zero" (sprintStart number sprint).

Definition calcSprint (number : Z) : eng Z :=
  orPanic "bad configuration" (CalculateSprint (config cfg) number).

(** ** Applying headers to a snapshot (snapshot.go) *)

(** The numbers of consecutive headers. *)
Fixpoint contiguous (headers : list Header) : eng bool :=
  match headers with
  | h :: ((h' :: _) as rest) =>
      n ← numberOf h;
      n' ← numberOf h';
      if n' =? u64 (n + 1) then contiguous rest else mret false
  | _ => mret true
  end.

(** The validator set after the last block of a sprint.  The error of
    [ParseValidators] is dropped, with an empty list. *)
Definition nextValidators (w : World) (c : ChainConfig) (header : Header) (number : Z)
    (old : ValidatorSet) : eng ValidatorSet :=
  validateHeaderExtraField (Extra header);;
  let validatorBytes := GetValidatorBytes c header in
  let newVals := match ParseValidators validatorBytes with inr l => l | inl _ => [] end in
  v ← Snapshot.getUpdatedValidatorSet (Copy old) newVals;
  '(v, _) ← onValue errValset (IncrementProposerPriority 1) v;
  if CheckEmptyId v then
    sp ← spanAt w (u64 (number + 1));
    mret (IncludeIds (Validators (ConvertHeimdallValSetToBorValSet sp)) v)
  else mret v.

(** One turn of the loop of [apply]; [c] is the snapshot's own configuration. *)
Definition applyHeader (w : World) (c : ChainConfig) (b : BorConfig)
    (snap : Snapshot.Snapshot) (header : Header) : eng Snapshot.Snapshot :=
  number ← numberOf header;
  sprint ← orPanic "bad configuration" (CalculateSprint b number);
  let snap := if sprint <=? number
              then Snapshot.setRecents (delete (u64 (number - sprint)) (Snapshot.Recents snap)) snap
              else snap in
  signer ← onSigs (ecrecover keccak Ecrecover header b);
  failIf (negb (HasAddress signer (Snapshot.vals snap)) &&
          negb (Snapshot.isAllowedByValidatorSetOverride snap signer number))
    (UnauthorizedSignerError number signer);;
  '(snap, _) ← onValue id (Snapshot.GetSignerSuccessionNumber signer) snap;
  let snap := Snapshot.setRecents (<[number := signer]> (Snapshot.Recents snap)) snap in
  if 0 <? number then
    sprintEnd ← isSprintStart (u64 (number + 1)) sprint;
    if sprintEnd : bool then
      v ← nextValidators w c header number (Snapshot.vals snap);
      mret (Snapshot.setVals v snap)
    else mret snap
  else mret snap.

Fixpoint applyHeaders (w : World) (c : ChainConfig) (b : BorConfig)
    (snap : Snapshot.Snapshot) (headers : list Header) : eng Snapshot.Snapshot :=
  match headers with
  | [] => mret snap
  | h :: headers' =>
      snap ← applyHeader w c b snap h;
      applyHeaders w c b snap headers'
  end.

Definition apply (w : World) (s : Snapshot.Snapshot) (headers : list Header)
  : eng Snapshot.Snapshot :=
  match headers, last headers with
  | h0 :: _, Some lastHeader =>
      ok ← contiguous headers;
      if negb ok then failS errOutOfRangeChain else
      n0 ← numberOf h0;
      if negb (n0 =? u64 (Snapshot.Number s + 1)) then failS errOutOfRangeChain else
      c ← orPanic "nil pointer dereference" (Snapshot.chainConfig s);
      b ← orPanic "nil pointer dereference" (ChainConfig.Bor c);
      snap ← applyHeaders w c b (Snapshot.copy s) headers;
      mret (Snapshot.setHead (u64 (Snapshot.Number snap + Z.of_nat (length headers)))
              (hashOf lastHeader) snap)
  | _, _ => mret s
  end.

(** ** Retrieving a snapshot (bor.go) *)

Definition storeSnapshot (w : World) (snap : Snapshot.Snapshot) : eng unit :=
  if dbWritable w then
    modify (fun s => setDb (<[Snapshot.Hash snap := Snapshot.stored snap]> (db s)) s)
  else failS errDatabase.

Definition loadSnapshot (hash : Z) : eng (option Snapshot.Snapshot) :=
  s ← getS;
  mret (db s !! hash ≫= Snapshot.reload (Some (chainConfig cfg))).

Definition getRecent (hash : Z) : eng (option Snapshot.Snapshot) :=
  s ← getS;
  let '(hit, recents') := cget hash (recents s) in
  putS (setRecentsCache recents' s);;
  mret hit.

Definition addRecent (snap : Snapshot.Snapshot) : eng unit :=
  modify (fun s => setRecentsCache (cadd (Snapshot.Hash snap) snap (recents s)) s).

(** The snapshot of the genesis block, from the validators of its span. *)
Definition genesisSnapshot (w : World) (checkpoint : Header) : eng Snapshot.Snapshot :=
  sp ← spanAt w 1;
  snap ← Snapshot.newSnapshot (Some (chainConfig cfg)) 0 (hashOf checkpoint)
           (Validators (ConvertHeimdallValSetToBorValSet sp));
  storeSnapshot w snap;;
  mret snap.

(** The walk back from a block to the nearest known snapshot, gathering the
    headers on the way, latest first.  Each turn moves one block back, and the
    genesis block ends the walk when the chain knows it. *)
Fixpoint findBase (fuel : nat) (w : World) (hash number : Z) (parents headers : list Header)
  : eng (Snapshot.Snapshot * list Header) :=
  match fuel with
  | O => panic "out of fuel"
  | S fuel' =>
      hit ← getRecent hash;
      match hit with
      | Some snap => mret (snap, headers)
      | None =>
          onDisk ← (if number mod checkpointInterval =? 0 then loadSnapshot hash else mret None);
          match onDisk with
          | Some snap => mret (snap, headers)
          | None =>
              match (if number =? 0 then GetHeaderByNumber w 0 else None) with
              | Some checkpoint =>
                  snap ← genesisSnapshot w checkpoint;
                  mret (snap, headers)
              | None =>
                  match last parents with
                  | Some header =>
                      n ← numberOf header;
                      if negb (hashOf header =? hash) || negb (n =? number)
                      then failS ErrUnknownAncestor
                      else findBase fuel' w (ParentHash header) (u64 (number - 1))
                             (take (length parents - 1) parents) (headers ++ [header])
                  | None =>
                      match GetHeader w hash number with
                      | None => failS ErrUnknownAncestor
                      | Some header =>
                          findBase fuel' w (ParentHash header) (u64 (number - 1)) []
                            (headers ++ [header])
                      end
                  end
              end
          end
      end
  end.

(** [performSpanCheck]: wait for a new span when the block may be by the producer
    of an old one. *)
Definition hasVerified (hash : Z) : eng bool :=
  s ← getS;
  let '(hit, x) := cget hash (recentVerifiedHeaders s) in
  putS (setVerified x s);;
  mret (match hit with Some _ => true | None => false end).

Definition waitNewSpan (w : World) (number author : Z) : eng unit :=
  onSpans (waitForNewSpan (heimdall w) (turns w) number author);; mret tt.

Definition Author (h : Header) : eng Z := onSigs (ecrecover keccak Ecrecover h (config cfg)).

Definition performSpanCheck (w : World) (targetHeader : Header) (parents : list Header) : eng unit :=
  number ← numberOf targetHeader;
  if u64 (number - 1) =? 0 then mret tt else
  s ← getS;
  if number <=? latestMilestoneBlock s then mret tt else
  fun s =>
    match Author targetHeader s with
    | Panicked why => Panicked why
    | Fail s' _ => Done s' tt
    | Done s' targetHeaderAuthor =>
        match parentOf w (ParentHash targetHeader) number parents with
        | None => waitNewSpan w number targetHeaderAuthor s'
        | Some parentHeader =>
            (parentHeaderAuthor ← Author parentHeader;
             verified ← hasVerified (ParentHash targetHeader);
             if negb verified && (targetHeaderAuthor =? parentHeaderAuthor)
             then waitNewSpan w number targetHeaderAuthor
             else mret tt) s'
        end
    end.

Definition getVeBlopSnapshot (w : World) (targetHeader : Header) (parents : list Header)
    (checkNewSpan : bool) : eng Snapshot.Snapshot :=
  number ← numberOf targetHeader;
  (if checkNewSpan then performSpanCheck w targetHeader parents else mret tt);;
  sp ← spanAt w number;
  let producers := map (fun v => mkValidator 0 (Address v) (VotingPower v) 0) (SelectedProducers sp) in
  snap ← Snapshot.newSnapshot (Some (chainConfig cfg)) number (hashOf targetHeader)
           (sortByAddress producers);
  addRecent snap;;
  mret snap.

(** The snapshot of a lone fake author. *)
Definition fakeAuthorSnapshot (targetHeader : Header) : eng Snapshot.Snapshot :=
  number ← numberOf targetHeader;
  match NewValidatorSet [NewValidator (signer cfg) 1000] with
  | Done vs _ => Snapshot.newSnapshot (Some (chainConfig cfg)) number (hashOf targetHeader) (Validators vs)
  | _ => panic "cannot create validator set"
  end.

(** The second half of [snapshot]: apply the gathered headers and keep the result. *)
Definition extendSnapshot (w : World) (snap : Snapshot.Snapshot) (headers : list Header)
  : eng Snapshot.Snapshot :=
  snap ← apply w snap (reverse headers);
  addRecent snap;;
  (if (Snapshot.Number snap mod checkpointInterval =? 0) && (0 <? length headers)%nat
   then storeSnapshot w snap else mret tt);;
  mret snap.

Definition snapshot (w : World) (targetHeader : Header) (parents : list Header) (checkNewSpan : bool)
  : eng Snapshot.Snapshot :=
  if DevFakeAuthor cfg && negb (signer cfg =? zeroAddress) then fakeAuthorSnapshot targetHeader
  else if IsRio (config cfg) (Number targetHeader) then
    getVeBlopSnapshot w targetHeader parents checkNewSpan
  else
    target ← numberOf targetHeader;
    let number := u64 (target - 1) in
    '(snap, headers) ← findBase (Z.to_nat number + 2) w (ParentHash targetHeader) number parents [];
    extendSnapshot w snap headers.

(** ** Verification *)

Definition verifySeal (w : World) (header : Header) (parents : list Header) : eng unit :=
  number ← numberOf header;
  failIf (number =? 0) errUnknownBlock;;
  snap ← snapshot w header parents true;
  signer ← Author header;
  failIf (negb (HasAddress signer (Snapshot.vals snap)) &&
          negb (Snapshot.isAllowedByValidatorSetOverride snap signer number))
    (UnauthorizedSignerError number signer);;
  '(snap, succession) ← onValue id (Snapshot.GetSignerSuccessionNumber signer) snap;
  let parent := parentOf w (ParentHash header) number parents in
  failIf (IsBhilai (config cfg) (Number header) && negb (succession =? 0) &&
          (sealNow w <? Time header)) ErrFutureBlock;;
  early ← orPanic "bad configuration" (IsBlockEarly parent header number succession (config cfg));
  failIf early (BlockTooSoonError number succession);;
  if fakeDiff cfg then mret tt else
  '(_, expected) ← onValue id (Snapshot.Difficulty signer) (Snapshot.vals snap);
  match Difficulty header with
  | None => failS (WrongDifficultyError number expected MaxUint64 signer)
  | Some actual =>
      if (actual <? 0) || (MaxUint64 <? actual)
      then failS (WrongDifficultyError number expected MaxUint64 signer)
      else failIf (negb (actual =? expected)) (WrongDifficultyError number expected actual signer)
  end.

(** The producers of the next span against the list of the last block of a sprint. *)
Definition checkSpanProducers (w : World) (header : Header) (number : Z) : eng unit :=
  sp ← spanAt w (u64 (number + 1));
  let newValidators := sortByAddress (SelectedProducers sp) in
  match ParseValidators (GetValidatorBytes (chainConfig cfg) header) with
  | inl e => failS (errValset e)
  | inr headerVals =>
      failIf (negb (length newValidators =? length headerVals)%nat) errInvalidSpanValidators;;
      failIf (negb (bool_decide (map HeaderBytes newValidators = map HeaderBytes headerVals)))
        errInvalidSpanValidators
  end.

(** The list of the previous block against the set of the snapshot. *)
Definition checkParentValidators (parent : Header) (number : Z) (snap : Snapshot.Snapshot) : eng unit :=
  let parentValidatorBytes := GetValidatorBytes (chainConfig cfg) parent in
  let currentValidators := sortByAddress (Validators (Snapshot.vals snap)) in
  failIf (negb (bool_decide (parentValidatorBytes = mjoin (map HeaderBytes currentValidators))))
    (MismatchingValidatorsError (number - 1)).

Definition verifyValidatorLists (w : World) (header parent : Header) (number : Z)
    (parents : list Header) : eng unit :=
  if negb (IsRio (config cfg) (Number header)) &&
     negb (existsb (Z.eqb number) (SkipValidatorByteCheck (config cfg)))
  then
    snap ← snapshot w header parents false;
    sprint ← calcSprint number;
    sprintEnd ← (if zerothSpanEnd <? number then isSprintStart (u64 (number + 1)) sprint else mret false);
    (if sprintEnd : bool then checkSpanProducers w header number else mret tt);;
    start ← isSprintStart number sprint;
    if start && negb (existsb (Z.eqb (number - 1)) (SkipValidatorByteCheck (config cfg)))
    then checkParentValidators parent number snap else mret tt
  else mret tt.

Definition verifyCascadingFields (w : World) (header : Header) (parents : list Header) : eng unit :=
  number ← numberOf header;
  if number =? 0 then mret tt else
  match parentOf w (ParentHash header) number parents with
  | None => failS ErrUnknownAncestor
  | Some parent =>
      failIf (negb (hashOf parent =? ParentHash header)) ErrUnknownAncestor;;
      n ← orPanic "nil pointer dereference" (Number header);
      p ← orPanic "nil pointer dereference" (Number parent);
      failIf (negb (n - p =? 1)) ErrInvalidNumber;;
      failIf (GasLimit header <? GasUsed header) errInvalidGasUsed;;
      (if negb (IsLondon (chainConfig cfg) (Number header)) then
         failIf (negb (bool_decide (BaseFee header = None))) errBaseFeeBeforeFork;;
         mapErr errFee (VerifyGaslimit (GasLimit parent) (GasLimit header))
       else mapErr errFee (VerifyEIP1559Header (chainConfig cfg) parent header));;
      period ← orPanic "bad configuration" (CalculatePeriod (config cfg) number);
      failIf (Time header <? u64 (Time parent + period)) ErrInvalidTimestamp;;
      verifyValidatorLists w header parent number parents;;
      verifySeal w header parents
  end.

(** The checks against the clock. *)
Definition checkClock (w : World) (header : Header) (number : Z) (parents : list Header) : eng unit :=
  if IsGiugliano (config cfg) (Number header) then
    match parentOf w (ParentHash header) number parents with
    | None => failS ErrFutureBlock
    | Some parent =>
        failIf (now w <? Time parent) ErrFutureBlock;;
        failIf (u64 (now w + maxAllowedFutureBlockTimeSeconds) <? Time header) ErrFutureBlock
    end
  else if IsBhilai (config cfg) (Number header) then
    delay ← orPanic "bad configuration" (CalcProducerDelay number 0 (config cfg));
    failIf (now w <? u64 (Time header - delay)) ErrFutureBlock
  else failIf (now w <? Time header) ErrFutureBlock.

(** The checks of a header on its own. *)
Definition checkFields (uncleHash : Z) (header : Header) (number : Z) : eng unit :=
  validateHeaderExtraField (Extra header);;
  sprint ← calcSprint number;
  isSprintEnd ← isSprintStart (u64 (number + 1)) sprint;
  let '(validatorBytes, gasTarget, bfcd) :=
    GetValidatorBytesAndBaseFeeParams (chainConfig cfg) header in
  let signersBytes := length validatorBytes in
  failIf (negb isSprintEnd && negb (signersBytes =? 0)%nat) errExtraValidators;;
  failIf (isSprintEnd && negb (signersBytes mod validatorHeaderBytesLength =? 0)%nat)
    errInvalidSpanValidators;;
  failIf (IsGiugliano (config cfg) (Number header) &&
          (bool_decide (gasTarget = None) || bool_decide (bfcd = None))) errMissingGiuglianoFields;;
  failIf (negb (MixDigest header =? 0)) errInvalidMixDigest;;
  failIf (negb (UncleHash header =? uncleHash)) errInvalidUncleHash;;
  failIf ((0 <? number) && bool_decide (Difficulty header = None)) errInvalidDifficulty;;
  failIf (MaxInt64 <? GasLimit header) errInvalidGasLimit;;
  failIf (negb (bool_decide (WithdrawalsHash header = None))) ErrUnexpectedWithdrawals;;
  failIf (negb (bool_decide (RequestsHash header = None))) ErrUnexpectedRequests.

(** [CalcUncleHash(nil)]: the hash of the empty list. *)
Definition uncleHash : Z := keccak [192].

Definition verifyHeader (w : World) (header : Header) (parents : list Header) : eng unit :=
  match Number header with
  | None => failS errUnknownBlock
  | Some _ =>
      number ← numberOf header;
      checkClock w header number parents;;
      checkFields uncleHash header number;;
      verifyCascadingFields w header parents;;
      modify (fun s => setVerified (cadd (hashOf header) header (recentVerifiedHeaders s)) s)
  end.

(** [VerifyHeaders]: the results in order; each header is checked with the ones
    before it as parents, whatever their results. *)
Fixpoint verifyHeaders_loop (ws : list World) (done rest : list Header)
  : st (Bor C) bor_error (list (option bor_error)) :=
  match rest, ws with
  | h :: rest', w :: ws' =>
      fun s =>
        match verifyHeader w h done s with
        | Panicked why => Panicked why
        | Done s' _ =>
            (l ← verifyHeaders_loop ws' (done ++ [h]) rest'; mret (None :: l)) s'
        | Fail s' e =>
            (l ← verifyHeaders_loop ws' (done ++ [h]) rest'; mret (Some e :: l)) s'
        end
  | _, _ => mret []
  end.

Definition VerifyHeaders (ws : list World) (headers : list Header) :=
  verifyHeaders_loop ws [] headers.

Definition VerifyUncles (uncles : list Header) : eng unit :=
  failIf (0 <? length uncles)%nat errUncleDetected.

(** ** Maintenance *)

Definition PurgeCache : eng unit :=
  modify (fun s => setSpanStore newSpanStore (setVerified cempty (setRecentsCache cempty s))).

(** One tick of the milestone fetcher, with Heimdall's answer. *)
Definition fetchMilestone (answer : option Z) : eng unit :=
  match answer with
  | Some endBlock => modify (setMilestone endBlock)
  | None => mret tt
  end.

End engine.

End Engine.
