(* ===== verification/EngineDemo.v ===== *)
(** * A small chain

    A genesis block and two blocks by a lone validator, with a small stand-in for
    the hash and a signature scheme whose public key is the signature; the
    properties of the engine are instantiated here. *)

From S2P Require Import Prelude Bytes Valset ValsetBytes ChainConfig ConfigProps Rlp Header.
From S2P Require Import HeaderProps Eip1559 BorTypes SpanStore SpanProps Snapshot Seal Engine.

Module EngineDemo.
Import Bytes Valset ChainConfig Header BorTypes SpanStore Seal Engine.

Definition demoKeccak (l : list Z) : Z :=
  fold_left (fun acc b => (acc * 257 + b + 1) mod 1000003) l 0.
Definition demoEcrecover (hash sig : list Z) : option (list Z) := Some (4 :: sig).

(** The address recovered from a seal of 65 ones. *)
Definition demoSigner : Z := demoKeccak (replicate 65 1).

Definition demoSettings : Settings :=
  mkSettings (ConfigProps.demoChain 1000) ConfigProps.demoBor demoSigner false false 0.

Definition demoBlock (parentHash number time : Z) : Header :=
  mkHeader parentHash (demoKeccak [192]) 0 0 0 0 0 (Some 1) (Some number) 30000000 0 time
    (replicate 32 0 ++ replicate 65 1) 0 0 None None None None None None None false.

Definition demoGenesis : Header := demoBlock 0 0 1000.
Definition demoBlock1 : Header := demoBlock (Hash demoKeccak demoGenesis) 1 1002.
Definition demoBlock2 : Header := demoBlock (Hash demoKeccak demoBlock1) 2 1004.

Definition demoSpan0 : Span :=
  mkSpan 0 0 255 [mkValidator 1 demoSigner 10 0] [mkValidator 1 demoSigner 10 0]
    (Some (mkValidator 1 demoSigner 10 0)) "137".

Definition demoEnv : Env :=
  mkEnv (Some (mkHeimdall (fun id => if id =? 0 then Some demoSpan0 else None) (Some demoSpan0))) None "137".

(** The chain of the headers given. *)
Definition demoWorld (chain : list Header) : World :=
  mkWorld
    (fun hash number => List.find (fun h => (Hash demoKeccak h =? hash) && (default 0 (Number h) =? number)) chain)
    (fun number => List.find (fun h => default 0 (Number h) =? number) chain)
    5000 5000 demoEnv [] true.

Definition demoState : Bor (gmap Z) :=
  mkBor ∅ ∅ ∅ (mkSpanStore ∅ (Some 0) None 0) ∅ 0 ∅.

Definition after {S E A} (o : outcome S E A) (s : S) : S :=
  match o with Done s' _ | Fail s' _ => s' | Panicked _ => s end.

Definition demoVerify (chain : list Header) (h : Header) (parents : list Header) (s : Bor (gmap Z)) :=
  verifyHeader demoKeccak demoEcrecover demoSettings (demoWorld chain) h parents s.

(** The state after block 1 is verified. *)
Definition demoState1 : Bor (gmap Z) := after (demoVerify [demoGenesis] demoBlock1 [] demoState) demoState.

Example demo_accepted :
  demoVerify [demoGenesis] demoBlock1 [] demoState = Done demoState1 tt.
Proof. vm_compute. reflexivity. Qed.

(** The snapshot block 1 is sealed on, and the state its seal check leaves. *)
Definition demoSnap : Snapshot.Snapshot :=
  match snapshot demoKeccak demoEcrecover demoSettings (demoWorld [demoGenesis]) demoBlock1 [] true demoState with
  | Done _ snap => snap
  | _ => Snapshot.mkSnapshot None 0 0 emptySet ∅
  end.

Definition demoSealState : Bor (gmap Z) :=
  after (verifySeal demoKeccak demoEcrecover demoSettings (demoWorld [demoGenesis]) demoBlock1 [] demoState)
    demoState.

End EngineDemo.
