(* ===== verification/EngineProps.v ===== *)
(** * Properties of verification and of snapshots

    What a verified header satisfies, what a snapshot is the snapshot of, and that
    resuming from a stored snapshot changes nothing. *)

From S2P Require Import Prelude Bytes Valset ValsetPriority ValsetRotation ValsetChange ValsetBytes.
From S2P Require Import ChainConfig ConfigProps Rlp Header HeaderProps Eip1559 BorTypes SpanStore.
From S2P Require Import SpanProps Snapshot SnapshotProps Seal SealProps Engine EngineDemo.

Module EngineProps.
Import Valset ValsetBytes ChainConfig Header Eip1559 BorTypes SpanStore Seal Engine.

Section engine.
Context {C : Type -> Type} `{!Cache C}.
Variable keccak : list Z -> Z.
Variable Ecrecover : list Z -> list Z -> option (list Z).
Variable cfg : Settings.

Abbreviation hashOf := (Hash keccak).
Abbreviation snapshotOf := (snapshot (C := C) keccak Ecrecover cfg).
Abbreviation authorOf := (Author (C := C) keccak Ecrecover cfg).

(** The number of a header as the engine reads it. *)
Definition hdNum (h : Header) : Z := u64 (Z.abs (default 0 (Number h))).

Lemma numberOf_Done h (s s' : Bor C) n :
  numberOf h s = Done s' n -> s' = s /\ n = hdNum h /\ Number h <> None.
Proof. unfold numberOf, hdNum. destruct (Number h); [|done]. by intros [= <- <-]. Qed.

Lemma onValue_Done {T E A} conv (m : st T E A) x (s s' : Bor C) y :
  onValue conv m x s = Done s' y -> s' = s /\ m x = Done y.1 y.2.
Proof. unfold onValue. destruct (m x) as [x' a|? ?|?]; [|done..]. by intros [= <- <-]. Qed.

(** The next check of a successful computation. *)
Ltac next_check H Hx :=
  let s := fresh "s" in let E := fresh "E" in
  apply bind_Done in H as (s & [] & E & H); apply failIf_Done in E as [Hx ->].

(** ** Seals *)

(** What the engine demands of a seal, from the state [s] on: the snapshot it
    takes, the signer it recovers, the turn of the signer and the difficulty. *)
Record sealRules (w : World) (h : Header) (parents : list Header) (s s' : Bor C)
    (snap : Snapshot.Snapshot) (who succession : Z) : Prop := mkSealRules {
  seal_snapshot : exists s1, snapshotOf w h parents true s = Done s1 snap /\ authorOf h s1 = Done s' who;
  seal_number : hdNum h <> 0;
  seal_allowed : HasAddress who (Snapshot.vals snap) = true \/
                 Snapshot.isAllowedByValidatorSetOverride snap who (hdNum h) = true;
  seal_turn : exists snap', Snapshot.GetSignerSuccessionNumber who snap = Done snap' succession /\
    (fakeDiff cfg = true \/
     exists v d, Snapshot.Difficulty (E := bor_error) who (Snapshot.vals snap') = Done v d /\
       Difficulty h = Some d /\ is_u64 d);
  seal_future : IsBhilai (config cfg) (Number h) = true -> succession <> 0 -> Time h <= sealNow w;
  seal_delay : forall parent, parentOf w (ParentHash h) (hdNum h) parents = Some parent ->
    exists delay, CalcProducerDelay (hdNum h) succession (config cfg) = Some delay /\
      u64 (Time parent + delay) <= Time h
}.

Lemma verifySeal_rules w h parents s s' :
  verifySeal keccak Ecrecover cfg w h parents s = Done s' tt ->
  exists snap who succession, sealRules w h parents s s' snap who succession.
Proof.
  intros H. unfold verifySeal in H. inv_done H.
  apply numberOf_Done in E as (-> & -> & Hn). apply failIf_Done in E0 as [Hz ->]. bool_to_prop.
  apply failIf_Done in E3 as [Ha ->]. apply onValue_Done in E4 as [-> Et].
  destruct a4 as [snap' succession]. cbn [fst snd] in *. inv_done H.
  apply failIf_Done in E as [Hf ->]. apply orPanic_Done in E0 as [Ee ->].
  apply failIf_Done in E3 as [-> ->].
  assert (Hdiff : s3 = s' /\ (fakeDiff cfg = true \/
     exists v d, Snapshot.Difficulty (E := bor_error) a2 (Snapshot.vals snap') = Done v d /\
       Difficulty h = Some d /\ is_u64 d)).
  { destruct (fakeDiff cfg); [injection H as ->; by split; [|left]|].
    apply bind_Done in H as (sd & [v d] & Eo & H). apply onValue_Done in Eo as [-> Ed]. cbn [fst snd] in *.
    destruct (Difficulty h) as [actual|]; [|done].
    destruct ((actual <? 0) || (MaxUint64 <? actual)) eqn:Er; [done|].
    apply failIf_Done in H as [Heq ->]. bool_to_prop. subst. split; [done|]. right.
    exists v, d. split_and!; [done|done|wsolve]. }
  destruct Hdiff as [-> Hdiff]. exists a1, a2, succession. split.
  - by exists s2.
  - done.
  - destruct (HasAddress a2 (Snapshot.vals a1)); [by left|right]. cbn in Ha. by bool_to_prop.
  - by exists snap'.
  - intros HB Hs. rewrite HB, (proj2 (Z.eqb_neq _ _) Hs) in Hf. cbn in Hf. by bool_to_prop.
  - intros parent Hp. rewrite Hp in Ee. cbn in Ee.
    destruct (CalcProducerDelay (hdNum h) succession (config cfg)) as [delay|]; [|done].
    cbn in Ee. injection Ee as Ee. bool_to_prop. by exists delay.
Qed.

Lemma sealRules_verify w h parents s s' snap who succession :
  sealRules w h parents s s' snap who succession -> Number h <> None ->
  verifySeal keccak Ecrecover cfg w h parents s = Done s' tt.
Proof.
  intros [(s1 & Es & Ea) Hn Hal (snap' & Et & Hd) Hf Hdl] Hnum. unfold verifySeal.
  assert (En : numberOf h s = Done s (hdNum h)).
  { unfold numberOf, hdNum. by destruct (Number h). }
  rewrite (bind_eq _ _ _ _ _ En), (proj2 (Z.eqb_neq _ _) Hn).
  cbn [failIf]. rewrite (bind_eq (mret tt) _ s s tt eq_refl), (bind_eq _ _ _ _ _ Es), (bind_eq _ _ _ _ _ Ea).
  assert (Hb : negb (HasAddress who (Snapshot.vals snap)) &&
    negb (Snapshot.isAllowedByValidatorSetOverride snap who (hdNum h)) = false).
  { destruct Hal as [->| ->]; [done|]. by rewrite andb_false_r. }
  rewrite Hb. cbn [failIf]. rewrite (bind_eq (mret tt) _ s' s' tt eq_refl).
  assert (Eo : onValue (C := C) id (Snapshot.GetSignerSuccessionNumber who) snap s' = Done s' (snap', succession)).
  { unfold onValue. by rewrite Et. }
  rewrite (bind_eq _ _ _ _ _ Eo).
  assert (Hfb : IsBhilai (config cfg) (Number h) && negb (succession =? 0) && (sealNow w <? Time h) = false).
  { destruct (IsBhilai (config cfg) (Number h)); [|done]. destruct (Z.eqb_spec succession 0); [done|].
    cbn. apply Z.ltb_ge. by apply Hf. }
  rewrite Hfb. cbn [failIf]. rewrite (bind_eq (mret tt) _ s' s' tt eq_refl).
  assert (Ee : IsBlockEarly (parentOf w (ParentHash h) (hdNum h) parents) h (hdNum h) succession (config cfg)
               = Some false).
  { unfold IsBlockEarly. destruct (parentOf w (ParentHash h) (hdNum h) parents) as [parent|]; [|done].
    destruct (Hdl parent eq_refl) as (delay & -> & Hle). cbn. f_equal. by apply Z.ltb_ge. }
  rewrite Ee. cbn [orPanic]. rewrite (bind_eq (mret false) _ s' s' false eq_refl). cbn [failIf].
  rewrite (bind_eq (mret tt) _ s' s' tt eq_refl).
  destruct (fakeDiff cfg); [done|]. destruct Hd as [|(v & d & Ed & Eh & Hu)]; [done|].
  assert (Eo' : onValue (C := C) id (Snapshot.Difficulty who) (Snapshot.vals snap') s' = Done s' (v, d)).
  { unfold onValue. by rewrite Ed. }
  rewrite (bind_eq _ _ _ _ _ Eo'), Eh.
  assert (Er : (d <? 0) || (MaxUint64 <? d) = false).
  { apply orb_false_iff. split; apply Z.ltb_ge; wsolve. }
  by rewrite Er, Z.eqb_refl.
Qed.

(** ** Exact steps *)

Lemma bind_failIf_iff {S E A} b (e : E) (k : unit -> st S E A) s s' x :
  (failIf b e ≫= k) s = Done s' x <-> b = false /\ k tt s = Done s' x.
Proof.
  split.
  - intros H. apply bind_Done in H as (s1 & [] & E1 & H). by apply failIf_Done in E1 as [-> ->].
  - intros [-> H]. by rewrite (bind_eq _ _ s s tt).
Qed.

Lemma failIf_iff {S E} b (e : E) (s s' : S) : failIf b e s = Done s' tt <-> b = false /\ s' = s.
Proof. split; [apply failIf_Done|by intros [-> ->]]. Qed.

Lemma bind_orPanic_iff {S E A B} w (o : option B) (k : B -> st S E A) s s' x :
  (orPanic w o ≫= k) s = Done s' x <-> exists a, o = Some a /\ k a s = Done s' x.
Proof.
  split.
  - intros H. apply bind_Done in H as (s1 & a & E1 & H). apply orPanic_Done in E1 as [-> ->]. by exists a.
  - intros (a & -> & H). by rewrite (bind_eq _ _ s s a).
Qed.

Lemma bind_numberOf_iff {A} h (k : Z -> st (Bor C) bor_error A) s s' x :
  (numberOf h ≫= k) s = Done s' x <-> Number h <> None /\ k (hdNum h) s = Done s' x.
Proof.
  unfold numberOf, hdNum. destruct (Number h) as [n|].
  - rewrite (bind_eq _ _ s s (u64 (Z.abs n))) by done. by split; [|intros [_ ?]].
  - by split; [|intros [? _]].
Qed.

Lemma bind_Done_iff {S E A B} (m : st S E A) (k : A -> st S E B) s s' b :
  (m ≫= k) s = Done s' b <-> exists s1 a, m s = Done s1 a /\ k a s1 = Done s' b.
Proof.
  split; [apply bind_Done|]. intros (s1 & a & E1 & H). by rewrite (bind_eq _ _ _ _ _ E1).
Qed.

Lemma bind_unit_iff {S E A} (m : st S E unit) (k : unit -> st S E A) s s' b :
  (m ≫= k) s = Done s' b <-> exists s1, m s = Done s1 tt /\ k tt s1 = Done s' b.
Proof. rewrite bind_Done_iff. split; [intros (s1 & [] & H)|intros (s1 & H)]; eauto. Qed.

(** ** Headers *)

(** What the engine demands of the time of a header by the local clock. *)
Record clockRules (w : World) (h : Header) (parents : list Header) : Prop := mkClockRules {
  clock_giugliano : IsGiugliano (config cfg) (Number h) = true ->
    exists parent, parentOf w (ParentHash h) (hdNum h) parents = Some parent /\
      Time parent <= now w /\ Time h <= u64 (now w + maxAllowedFutureBlockTimeSeconds);
  clock_bhilai : IsGiugliano (config cfg) (Number h) = false -> IsBhilai (config cfg) (Number h) = true ->
    exists delay, CalcProducerDelay (hdNum h) 0 (config cfg) = Some delay /\ u64 (Time h - delay) <= now w;
  clock_before : IsGiugliano (config cfg) (Number h) = false -> IsBhilai (config cfg) (Number h) = false ->
    Time h <= now w
}.

(** What it demands of the fields of a header alone. *)
Record fieldRules (h : Header) : Prop := mkFieldRules {
  rule_extra : (ExtraVanityLength + ExtraSealLength <= length (Extra h))%nat;
  rule_validators : exists sprint, CalculateSprint (config cfg) (hdNum h) = Some sprint /\ sprint <> 0 /\
    let bytes := GetValidatorBytes (chainConfig cfg) h in
    if u64 (hdNum h + 1) mod sprint =? 0 then (length bytes mod validatorHeaderBytesLength = 0)%nat else bytes = [];
  rule_giugliano : IsGiugliano (config cfg) (Number h) = true ->
    exists gasTarget bfcd, GetBaseFeeParams (chainConfig cfg) h = (Some gasTarget, Some bfcd);
  rule_mix : MixDigest h = 0;
  rule_uncles : UncleHash h = uncleHash keccak;
  rule_difficulty : 0 < hdNum h -> Difficulty h <> None;
  rule_gasLimit : GasLimit h <= MaxInt64;
  rule_withdrawals : WithdrawalsHash h = None;
  rule_requests : RequestsHash h = None
}.

(** The base fee of a header after London: free within the boundaries after Lisovo,
    the one computed from the parent before. *)
Definition feeRule (h parent : Header) : Prop :=
  exists fee, BaseFee h = Some fee /\
  (IsLondon (chainConfig cfg) (Number parent) = true -> BaseFee parent <> None) /\
  if match ChainConfig.Bor (chainConfig cfg) with Some b => IsLisovo b (Number h) | None => false end
  then exists parentFee, BaseFee parent = Some parentFee /\
         Z.abs (fee - parentFee) <= maxAllowedChange parentFee
  else CalcBaseFee (chainConfig cfg) parent = Some fee.

(** The gas limit of the parent that the header's is compared with: it doubles at London. *)
Definition parentLimit (h parent : Header) : Z :=
  if IsLondon (chainConfig cfg) (Number h) && negb (IsLondon (chainConfig cfg) (Number parent))
  then u64 (GasLimit parent * DefaultElasticityMultiplier) else GasLimit parent.

(** What it demands of a header and its parent. *)
Record parentRules (h parent : Header) : Prop := mkParentRules {
  rule_hash : hashOf parent = ParentHash h;
  rule_number : exists n, Number h = Some n /\ Number parent = Some (n - 1);
  rule_gasUsed : GasUsed h <= GasLimit h;
  rule_gasChange : VerifyGaslimit (parentLimit h parent) (GasLimit h) tt = Done tt tt;
  rule_fee : if IsLondon (chainConfig cfg) (Number h) then feeRule h parent else BaseFee h = None;
  rule_time : exists period, CalculatePeriod (config cfg) (hdNum h) = Some period /\
    u64 (Time parent + period) <= Time h
}.

(** The list of the last header of a sprint is that of the producers of the span of
    the next block. *)
Definition producersListed (w : World) (h : Header) (s s' : Bor C) : Prop :=
  exists sp vals, spanAt w (u64 (hdNum h + 1)) s = Done s' sp /\
    ParseValidators (GetValidatorBytes (chainConfig cfg) h) = inr vals /\
    map HeaderBytes vals = map HeaderBytes (sortByAddress (SelectedProducers sp)).

(** What it demands of the lists of validators before Rio, outside the numbers the
    configuration skips, from the state [s] on.  At the end of a sprint after the
    first span the header lists the producers of the next span; at the start of a
    sprint the parent lists the set of the snapshot. *)
Definition listRules (w : World) (h parent : Header) (parents : list Header) (s s' : Bor C) : Prop :=
  if negb (IsRio (config cfg) (Number h)) && negb (existsb (Z.eqb (hdNum h)) (SkipValidatorByteCheck (config cfg)))
  then exists s1 snap sprint,
    snapshotOf w h parents false s = Done s1 snap /\
    CalculateSprint (config cfg) (hdNum h) = Some sprint /\ sprint <> 0 /\
    (if (zerothSpanEnd <? hdNum h) && (u64 (hdNum h + 1) mod sprint =? 0)
     then producersListed w h s1 s' else s' = s1) /\
    (hdNum h mod sprint = 0 -> existsb (Z.eqb (hdNum h - 1)) (SkipValidatorByteCheck (config cfg)) = false ->
     GetValidatorBytes (chainConfig cfg) parent =
     mjoin (map HeaderBytes (sortByAddress (Validators (Snapshot.vals snap)))))
  else s' = s.

Lemma validateHeaderExtraField_iff {S} extra (s s' : S) :
  validateHeaderExtraField extra s = Done s' tt <->
  (ExtraVanityLength + ExtraSealLength <= length extra)%nat /\ s' = s.
Proof.
  unfold validateHeaderExtraField. rewrite bind_failIf_iff, failIf_iff, !Nat.ltb_ge.
  split; [by intros (_ & ? & ->)|intros [? ->]]. split_and!; [lia|done|done].
Qed.

Lemma GetValidatorBytesAndBaseFeeParams_parts c h v g b :
  GetValidatorBytesAndBaseFeeParams c h = (v, g, b) ->
  GetValidatorBytes c h = v /\ (IsCancun c (Number h) = true -> GetBaseFeeParams c h = (g, b)) /\
  (IsCancun c (Number h) = false -> g = None /\ b = None /\ GetBaseFeeParams c h = (None, None)).
Proof.
  unfold GetValidatorBytesAndBaseFeeParams, GetValidatorBytes, GetBaseFeeParams.
  destruct (extraTooShort h), (IsCancun c (Number h)); cbn; try by intros [= <- <- <-].
  destruct (decodeExtraFieldsFast c h) as [[[? ?] ?]|]; by intros [= <- <- <-].
Qed.

Lemma GetBaseFeeParams_split c h :
  GetBaseFeeParams c h = ((GetValidatorBytesAndBaseFeeParams c h).1.2,
                          (GetValidatorBytesAndBaseFeeParams c h).2).
Proof.
  destruct (GetValidatorBytesAndBaseFeeParams c h) as [[v g] b] eqn:E. cbn.
  destruct (GetValidatorBytesAndBaseFeeParams_parts _ _ _ _ _ E) as (_ & Hc & Hn).
  destruct (IsCancun c (Number h)); [by apply Hc|]. by destruct (Hn eq_refl) as (-> & -> & ->).
Qed.

Lemma sprintStart_iff {A} number sprint (k : bool -> st (Bor C) bor_error A) s s' x :
  (isSprintStart number sprint ≫= k) s = Done s' x <->
  sprint <> 0 /\ k (number mod sprint =? 0) s = Done s' x.
Proof.
  unfold isSprintStart, sprintStart. rewrite bind_orPanic_iff.
  destruct (Z.eqb_spec sprint 0) as [->|Hs]; [by split; [intros (? & ? & _)|intros [? _]]|].
  split; [by intros (a & [= <-] & H)|intros [_ H]; by eexists].
Qed.

Lemma checkFields_iff h s s' :
  checkFields (C := C) cfg (uncleHash keccak) h (hdNum h) s = Done s' tt <-> fieldRules h /\ s' = s.
Proof.
  unfold checkFields. rewrite bind_unit_iff.
  setoid_rewrite validateHeaderExtraField_iff. unfold calcSprint. setoid_rewrite bind_orPanic_iff.
  setoid_rewrite sprintStart_iff.
  pose proof (GetBaseFeeParams_split (chainConfig cfg) h) as Ep.
  destruct (GetValidatorBytesAndBaseFeeParams (chainConfig cfg) h) as [[vb gt] bf] eqn:Eg. cbn in Ep.
  destruct (GetValidatorBytesAndBaseFeeParams_parts _ _ _ _ _ Eg) as (Ev & _).
  repeat setoid_rewrite bind_failIf_iff. setoid_rewrite failIf_iff.
  repeat setoid_rewrite negb_false_iff. repeat setoid_rewrite bool_decide_eq_true.
  split.
  - intros (? & [? ->] & sprint & ? & ? & Hno & Hend & Hgiu & Hmix & Hunc & Hdif & Hgas & ? & ? & ->).
    split; [|done]. bool_to_prop. split; try done.
    + exists sprint. rewrite Ev. split_and!; [done..|]. cbv zeta.
      destruct (_ =? 0); cbn in Hno, Hend; [by apply negb_false_iff, Nat.eqb_eq in Hend|].
      apply negb_false_iff, Nat.eqb_eq in Hno. by destruct vb.
    + intros HG. rewrite HG in Hgiu. apply orb_false_iff in Hgiu as [Hg Hb].
      apply bool_decide_eq_false in Hg, Hb. destruct gt, bf; by eauto.
    + intros Hp HN. apply Z.ltb_lt in Hp. by rewrite Hp, HN in Hdif.
  - intros [[? (sprint & ? & ? & Hv) HG Hm Hu Hd Hg ? ?] ->]. exists s. split; [done|].
    exists sprint. rewrite Ev in Hv. cbv zeta in Hv. rewrite Hm, Hu, !Z.eqb_refl. split_and!; try done.
    + destruct (_ =? 0); [done|]. by rewrite Hv.
    + destruct (_ =? 0); [|done]. by rewrite Hv.
    + destruct (IsGiugliano (config cfg) (Number h)); [|done]. destruct (HG eq_refl) as (g & b & E).
      rewrite Ep in E. by injection E as -> ->.
    + destruct (Z.ltb_spec 0 (hdNum h)); [|done]. apply bool_decide_eq_false. by apply Hd.
    + by apply Z.ltb_ge.
Qed.

(** ** The whole verification *)

Lemma mapErr_iff {S E F A} (f : E -> F) (m : st S E A) s s' a :
  mapErr f m s = Done s' a <-> m s = Done s' a.
Proof. unfold mapErr. destruct (m s); naive_solver. Qed.

Lemma VerifyGaslimit_any {S} p h (s s' : S) :
  VerifyGaslimit p h s = Done s' tt <-> VerifyGaslimit p h tt = Done tt tt /\ s' = s.
Proof.
  unfold VerifyGaslimit. cbv zeta. repeat case_if; (split; [|intros [H ->]]); try done; by intros [= ->].
Qed.

Lemma verifyBaseFeeWithinBoundaries_iff {S} parent h fee (s s' : S) :
  BaseFee h = Some fee ->
  verifyBaseFeeWithinBoundaries parent h s = Done s' tt <->
  (exists parentFee, BaseFee parent = Some parentFee /\
     Z.abs (fee - parentFee) <= maxAllowedChange parentFee) /\ s' = s.
Proof.
  intros Hf. unfold verifyBaseFeeWithinBoundaries. rewrite Hf.
  destruct (BaseFee parent) as [pb|]; [|by split; [|intros [(? & ? & _) _]]].
  assert (E : (if pb <=? fee then fee - pb else pb - fee) = Z.abs (fee - pb)) by (case_if; bool_to_prop; lia).
  cbv zeta. rewrite E. destruct (Z.ltb_spec (maxAllowedChange pb) (Z.abs (fee - pb))).
  - split; [done|]. intros [(? & [= <-] & ?) _]. lia.
  - split; [intros [= ->]; split; [by exists pb|done]|by intros [_ ->]].
Qed.

Lemma VerifyEIP1559Header_iff {S} parent h (s s' : S) :
  VerifyEIP1559Header (chainConfig cfg) parent h s = Done s' tt <->
  (VerifyGaslimit (if negb (IsLondon (chainConfig cfg) (Number parent))
                   then u64 (GasLimit parent * DefaultElasticityMultiplier) else GasLimit parent)
                  (GasLimit h) tt = Done tt tt /\ feeRule h parent) /\ s' = s.
Proof.
  unfold VerifyEIP1559Header. cbv zeta. rewrite bind_unit_iff. setoid_rewrite VerifyGaslimit_any.
  repeat setoid_rewrite bind_failIf_iff. setoid_rewrite bool_decide_eq_false.
  unfold feeRule. destruct (BaseFee h) as [fee|] eqn:Ef; [|by split; [intros (? & _ & ? & _)|intros ((_ & ? & ? & _) & _)]].
  assert (Hrest : forall s1, (if match ChainConfig.Bor (chainConfig cfg) with Some b => IsLisovo b (Number h) | None => false end
      then verifyBaseFeeWithinBoundaries parent h
      else expectedBaseFee ← orPanic "division by zero" (CalcBaseFee (chainConfig cfg) parent);
           failIf (negb (default 0 (Some fee) =? expectedBaseFee)) ErrInvalidBaseFee) s1 = Done s' tt <->
    (if match ChainConfig.Bor (chainConfig cfg) with Some b => IsLisovo b (Number h) | None => false end
     then exists parentFee, BaseFee parent = Some parentFee /\ Z.abs (fee - parentFee) <= maxAllowedChange parentFee
     else CalcBaseFee (chainConfig cfg) parent = Some fee) /\ s' = s1).
  { intros s1. destruct (match ChainConfig.Bor _ with Some _ => _ | None => _ end).
    - by apply verifyBaseFeeWithinBoundaries_iff.
    - rewrite bind_orPanic_iff. setoid_rewrite failIf_iff. cbn [default].
      split; [intros (a & -> & Hne & ->); bool_to_prop; by subst|intros [-> ->]].
      exists fee. by rewrite Z.eqb_refl. }
  setoid_rewrite Hrest. setoid_rewrite andb_false_iff. setoid_rewrite bool_decide_eq_false. split.
  - intros (s1 & [Hg ->] & _ & Hp & Hr & ->). split; [|done]. split; [done|]. exists fee.
    split; [done|]. split; [|done]. intros HL. by destruct Hp as [Hp|]; [congruence|].
  - intros [([Hg _] & fee' & [= <-] & Hp & Hr) ->]. exists s. split; [done|]. split; [done|].
    split; [|done]. destruct (IsLondon (chainConfig cfg) (Number parent)); [right; by apply Hp|by left].
Qed.

Lemma checkSpanProducers_iff w h s s' :
  checkSpanProducers cfg w h (hdNum h) s = Done s' tt <-> producersListed w h s s'.
Proof.
  unfold checkSpanProducers, producersListed. rewrite bind_Done_iff. split.
  - intros (s1 & sp & E & H). destruct (ParseValidators _) as [e|vals]; [done|].
    apply bind_failIf_iff in H as [_ H]. apply failIf_iff in H as [H ->].
    apply negb_false_iff, bool_decide_eq_true in H. by exists sp, vals.
  - intros (sp & vals & E & -> & Hm). exists s', sp. split; [done|]. rewrite bind_failIf_iff, failIf_iff.
    rewrite <- (length_map HeaderBytes (sortByAddress _)), <- Hm, length_map, Nat.eqb_refl.
    rewrite !negb_false_iff, bool_decide_eq_true. done.
Qed.

Lemma sprintEnd_iff {A} h sprint (k : bool -> st (Bor C) bor_error A) s s' x :
  ((if zerothSpanEnd <? hdNum h then isSprintStart (u64 (hdNum h + 1)) sprint else mret false) ≫= k) s =
    Done s' x <->
  ((zerothSpanEnd <? hdNum h) = true -> sprint <> 0) /\
  k ((zerothSpanEnd <? hdNum h) && (u64 (hdNum h + 1) mod sprint =? 0)) s = Done s' x.
Proof.
  destruct (zerothSpanEnd <? hdNum h).
  - rewrite sprintStart_iff. cbn [andb]. split; intros [? ?]; auto.
  - rewrite (bind_eq (mret false) _ s s false) by done. split; [by auto|by intros [_ ?]].
Qed.

Lemma verifyValidatorLists_iff w h parent parents s s' :
  verifyValidatorLists keccak Ecrecover cfg w h parent (hdNum h) parents s = Done s' tt <->
  listRules w h parent parents s s'.
Proof.
  unfold verifyValidatorLists, listRules.
  destruct (negb (IsRio _ _) && _); [|split; [by intros [= ->]|by intros ->]].
  rewrite bind_Done_iff. unfold calcSprint. setoid_rewrite bind_orPanic_iff.
  assert (Hpar : forall snap s1, checkParentValidators cfg parent (hdNum h) snap s1 = Done s' tt <->
      GetValidatorBytes (chainConfig cfg) parent =
      mjoin (map HeaderBytes (sortByAddress (Validators (Snapshot.vals snap)))) /\ s' = s1).
  { intros snap s1. unfold checkParentValidators. cbv zeta. by rewrite failIf_iff, negb_false_iff, bool_decide_eq_true. }
  split.
  - intros (s1 & snap & E & sprint & Esp & H). apply sprintEnd_iff in H as [_ H].
    apply bind_unit_iff in H as (s3 & E3 & H). apply sprintStart_iff in H as [Hs H].
    exists s1, snap, sprint. split; [done|]. split; [done|]. split; [done|].
    assert (Hlast : s' = s3 /\ (hdNum h mod sprint = 0 ->
       existsb (Z.eqb (hdNum h - 1)) (SkipValidatorByteCheck (config cfg)) = false ->
       GetValidatorBytes (chainConfig cfg) parent =
       mjoin (map HeaderBytes (sortByAddress (Validators (Snapshot.vals snap)))))).
    { revert H. destruct (Z.eqb_spec (hdNum h mod sprint) 0); cbn [andb]; [|by intros [= ->]].
      destruct (existsb _ _); cbn [negb]; [by intros [= ->]|]. rewrite Hpar. by intros [? ->]. }
    destruct Hlast as [-> Hlast]. split; [|done].
    destruct (_ && _); [by apply checkSpanProducers_iff|by injection E3 as ->].
  - intros (s1 & snap & sprint & E & Esp & Hs & Hb & Hlast). exists s1, snap. split; [done|]. exists sprint.
    split; [done|]. apply sprintEnd_iff. split; [done|]. rewrite bind_unit_iff. exists s'. split.
    { destruct (_ && _); [by apply checkSpanProducers_iff|by rewrite Hb]. }
    rewrite sprintStart_iff. split; [done|].
    destruct (Z.eqb_spec (hdNum h mod sprint) 0); cbn [andb]; [|done].
    destruct (existsb _ _); cbn [negb]; [done|]. apply Hpar. by auto.
Qed.

Lemma verifySeal_iff w h parents s s' :
  Number h <> None ->
  verifySeal keccak Ecrecover cfg w h parents s = Done s' tt <->
  exists snap who succession, sealRules w h parents s s' snap who succession.
Proof.
  intros Hn. split; [apply verifySeal_rules|]. intros (snap & who & succession & Hr).
  by eapply sealRules_verify.
Qed.

(** What is demanded of a header other than the first in the context of the chain,
    from the state [s] to the state [s']. *)
Definition cascadingRules (w : World) (h : Header) (parents : list Header) (s s' : Bor C) : Prop :=
  exists parent s1 snap who succession,
    parentOf w (ParentHash h) (hdNum h) parents = Some parent /\ parentRules h parent /\
    listRules w h parent parents s s1 /\ sealRules w h parents s1 s' snap who succession.

Lemma verifyCascadingFields_iff w h parents s s' :
  verifyCascadingFields keccak Ecrecover cfg w h parents s = Done s' tt <->
  Number h <> None /\ if hdNum h =? 0 then s' = s else cascadingRules w h parents s s'.
Proof.
  unfold verifyCascadingFields. rewrite bind_numberOf_iff.
  assert (Hfee : forall parent s1, (if negb (IsLondon (chainConfig cfg) (Number h)) then
      failIf (negb (bool_decide (BaseFee h = None))) errBaseFeeBeforeFork;;
      mapErr errFee (VerifyGaslimit (GasLimit parent) (GasLimit h))
    else mapErr errFee (VerifyEIP1559Header (chainConfig cfg) parent h)) s = Done s1 tt <->
    (VerifyGaslimit (parentLimit h parent) (GasLimit h) tt = Done tt tt /\
     if IsLondon (chainConfig cfg) (Number h) then feeRule h parent else BaseFee h = None) /\ s1 = s).
  { intros parent s1. unfold parentLimit. destruct (IsLondon (chainConfig cfg) (Number h)); cbn [negb andb].
    - by rewrite mapErr_iff, VerifyEIP1559Header_iff.
    - rewrite bind_failIf_iff, mapErr_iff, VerifyGaslimit_any, negb_false_iff, bool_decide_eq_true. tauto. }
  apply and_iff_compat_l. destruct (hdNum h =? 0); [split; [by intros [= ->]|by intros ->]|].
  unfold cascadingRules. destruct (parentOf w (ParentHash h) (hdNum h) parents) as [parent|];
    [|by split; [|intros (? & ? & ? & ? & ? & ? & _)]].
  rewrite bind_failIf_iff, !bind_orPanic_iff. setoid_rewrite bind_orPanic_iff.
  repeat setoid_rewrite bind_failIf_iff. setoid_rewrite bind_unit_iff. setoid_rewrite Hfee.
  setoid_rewrite bind_orPanic_iff. setoid_rewrite bind_failIf_iff. setoid_rewrite bind_unit_iff.
  setoid_rewrite verifyValidatorLists_iff.
  split.
  - intros (Hh & n & En & p & Ep & Hn & Hgas & s1 & [[Hl Hf] ->] & period & Eper & Ht & s2 & El & Es).
    apply verifySeal_rules in Es as (snap & who & k & Hs). bool_to_prop.
    exists parent, s2, snap, who, k. split_and!; [done| |done|done]. split; try done.
    + exists n. split; [done|]. rewrite Ep. f_equal. lia.
    + by exists period.
  - intros (? & s2 & snap & who & k & [= <-] & [Hh (n & En & Ep) Hgas Hl Hf (period & Eper & Ht)] & El & Hs).
    rewrite Hh, Z.eqb_refl. split; [done|]. exists n. split; [done|]. exists (n - 1). split; [done|].
    rewrite (proj2 (Z.eqb_eq (n - (n - 1)) 1)) by lia. split; [done|]. split; [by apply Z.ltb_ge|].
    exists s. split; [done|]. exists period. split; [done|]. split; [by apply Z.ltb_ge|]. exists s2.
    split; [done|]. eapply sealRules_verify; [done|]. by rewrite En.
Qed.

Lemma checkClock_iff w h parents (s s' : Bor C) :
  checkClock cfg w h (hdNum h) parents s = Done s' tt <-> clockRules w h parents /\ s' = s.
Proof.
  unfold checkClock. destruct (IsGiugliano (config cfg) (Number h)) eqn:HG.
  - destruct (parentOf w (ParentHash h) (hdNum h) parents) as [parent|] eqn:Ep.
    + rewrite bind_failIf_iff, failIf_iff, !Z.ltb_ge. split.
      * intros (? & ? & ->). split; [|done]. split; [|by rewrite HG..]. by exists parent.
      * intros [[Hg _ _] ->]. destruct (Hg HG) as (p & E & ? & ?). rewrite Ep in E. by injection E as <-.
    + split; [done|]. intros [[Hg _ _] _]. destruct (Hg HG) as (p & E & _). by rewrite Ep in E.
  - destruct (IsBhilai (config cfg) (Number h)) eqn:HB.
    + rewrite bind_orPanic_iff. setoid_rewrite failIf_iff. setoid_rewrite Z.ltb_ge. split.
      * intros (d & E & ? & ->). split; [|done]. split; [by rewrite HG| |by rewrite HB]. by exists d.
      * intros [[_ Hb _] ->]. destruct (Hb HG HB) as (d & ? & ?). by exists d.
    + rewrite failIf_iff, Z.ltb_ge. split.
      * intros [? ->]. split; [|done]. split; [by rewrite HG|by rewrite HB|done].
      * intros [[_ _ Hb] ->]. split; [by apply Hb|done].
Qed.

(** Remember a header that has been verified. *)
Definition markVerified (h : Header) (s : Bor C) : Bor C :=
  setVerified (cadd (hashOf h) h (recentVerifiedHeaders s)) s.

Lemma verifyHeader_iff w h parents s s' :
  verifyHeader keccak Ecrecover cfg w h parents s = Done s' tt <->
  Number h <> None /\ clockRules w h parents /\ fieldRules h /\
  exists s1, s' = markVerified h s1 /\ if hdNum h =? 0 then s1 = s else cascadingRules w h parents s s1.
Proof.
  unfold verifyHeader. destruct (Number h) eqn:En; [|by split; [|intros [? _]]].
  rewrite bind_numberOf_iff, bind_unit_iff. setoid_rewrite checkClock_iff.
  setoid_rewrite bind_unit_iff. setoid_rewrite checkFields_iff. setoid_rewrite bind_unit_iff.
  setoid_rewrite verifyCascadingFields_iff. rewrite En. split.
  - intros (? & s1 & [? ->] & s2 & [? ->] & s3 & [_ ?] & [= <-]). split_and!; [done..|]. by exists s3.
  - intros (? & ? & ? & s3 & -> & ?). split; [done|]. exists s. split; [done|]. exists s. split; [done|].
    by exists s3.
Qed.

Lemma verifyHeader_rules w h parents s s' :
  verifyHeader keccak Ecrecover cfg w h parents s = Done s' tt -> hdNum h <> 0 ->
  exists s1, cascadingRules w h parents s s1.
Proof.
  rewrite verifyHeader_iff. intros (_ & _ & _ & s1 & _ & H) Hz.
  rewrite (proj2 (Z.eqb_neq _ _) Hz) in H. by exists s1.
Qed.

(** The batch: each header that is accepted is verified against the one before. *)
Lemma VerifyHeaders_loop_parents ws before rest s s' l :
  verifyHeaders_loop keccak Ecrecover cfg ws before rest s = Done s' l ->
  length l = length rest -> Forall (eq None) l -> Forall (fun h => hdNum h <> 0) rest ->
  forall i p h, (last before :: map Some rest) !! i = Some (Some p) -> rest !! i = Some h -> parentRules h p.
Proof.
  revert ws before s l. induction rest as [|h rest IH]; intros ws before s l H Hlen Hl Hnz i p h' Hp Hh; [done|].
  apply Forall_cons in Hnz as [Hh0 Hnz].
  destruct ws as [|w ws]; cbn [verifyHeaders_loop] in H; [injection H as _ <-; discriminate Hlen|].
  destruct (verifyHeader keccak Ecrecover cfg w h before s) as [s1 []|s1 e|] eqn:Ev; [| |done];
    apply bind_Done in H as (s2 & l' & E & H); injection H as -> <-; apply Forall_cons in Hl as [He Hl]; [|done].
  destruct i as [|i].
  - cbn in Hp, Hh. injection Hh as <-. injection Hp as Hp.
    destruct (verifyHeader_rules w h before s s1 Ev Hh0) as (? & parent & ? & ? & ? & ? & Epar & Hrules & _). unfold parentOf in Epar. rewrite Hp in Epar.
    by injection Epar as <-.
  - cbn in Hh. eapply (IH ws (before ++ [h]) s1 l' E ltac:(cbn in Hlen; lia) Hl Hnz i); [|done].
    rewrite last_snoc. cbn in Hp. destruct i; exact Hp.
Qed.

End engine.

(** ** Properties *)

(** C2: the seal check accepts exactly the headers that satisfy its rules: the
    recovered signer is in the snapshot's validator set or in an override, its
    block is not before its turn's delay after the parent, a backup's block is not
    from the future after Bhilai, and the difficulty is the one of its turn. *)
Theorem verifySeal_exact {C : Type -> Type} `{!Cache C} keccak Ecrecover cfg w h parents (s s' : Bor C) :
  Number h <> None ->
  verifySeal keccak Ecrecover cfg w h parents s = Done s' tt <->
  exists snap who succession, sealRules keccak Ecrecover cfg w h parents s s' snap who succession.
Proof. apply verifySeal_iff. Qed.

Lemma verifySeal_exact_witness :
  exists s' snap who succession,
    sealRules EngineDemo.demoKeccak EngineDemo.demoEcrecover EngineDemo.demoSettings
      (EngineDemo.demoWorld [EngineDemo.demoGenesis]) EngineDemo.demoBlock1 [] EngineDemo.demoState
      s' snap who succession.
Proof.
  eexists. apply (verifySeal_exact EngineDemo.demoKeccak EngineDemo.demoEcrecover EngineDemo.demoSettings
    (EngineDemo.demoWorld [EngineDemo.demoGenesis]) EngineDemo.demoBlock1 [] EngineDemo.demoState).
  - discriminate.
  - vm_compute. reflexivity.
Defined.

(** C1: [verifyHeader] accepts exactly the headers that have a number and satisfy
    every rule, and then only remembers the header, besides what taking the
    snapshots has cached.  By the clock ([clockRules]): after Giugliano the parent
    is known, not from the future, and the header at most 30 seconds ahead; after
    Bhilai it is ahead by at most the delay of the primary producer; before, not at
    all.  On its own ([fieldRules]): vanity and seal, a validator list of whole
    entries at the end of a sprint and none elsewhere, base fee parameters after
    Giugliano, no mix digest, no uncles, a difficulty, a gas limit below 2^63, no
    withdrawals and no requests.  The first header (number 0 in its low 64 bits)
    needs no more; any other has a parent with the hash it names and the number
    before, gas used, gas limit, base fee and time that follow from it
    ([parentRules]), before Rio the validator lists of span and snapshot
    ([listRules]), and a seal by the rules of [sealRules]. *)
Theorem verifyHeader_exact {C : Type -> Type} `{!Cache C} keccak Ecrecover cfg w h parents (s s' : Bor C) :
  verifyHeader keccak Ecrecover cfg w h parents s = Done s' tt <->
  Number h <> None /\ clockRules cfg w h parents /\ fieldRules keccak cfg h /\
  exists s1, s' = markVerified keccak h s1 /\
    if hdNum h =? 0 then s1 = s else
    exists parent s2 snap who succession,
      parentOf w (ParentHash h) (hdNum h) parents = Some parent /\ parentRules keccak cfg h parent /\
      listRules keccak Ecrecover cfg w h parent parents s s2 /\
      sealRules keccak Ecrecover cfg w h parents s2 s1 snap who succession.
Proof. apply verifyHeader_iff. Qed.

Lemma verifyHeader_exact_witness :
  clockRules EngineDemo.demoSettings (EngineDemo.demoWorld [EngineDemo.demoGenesis]) EngineDemo.demoBlock1 [] /\
  fieldRules EngineDemo.demoKeccak EngineDemo.demoSettings EngineDemo.demoBlock1 /\
  exists parent, parentRules EngineDemo.demoKeccak EngineDemo.demoSettings EngineDemo.demoBlock1 parent.
Proof.
  destruct (proj1 (verifyHeader_exact EngineDemo.demoKeccak EngineDemo.demoEcrecover EngineDemo.demoSettings
    (EngineDemo.demoWorld [EngineDemo.demoGenesis]) EngineDemo.demoBlock1 [] EngineDemo.demoState
    EngineDemo.demoState1)) as (_ & Hc & Hf & s1 & _ & parent & s2 & snap & who & k & _ & Hp & _).
  - vm_compute. reflexivity.
  - split; [exact Hc|]. split; [exact Hf|]. exists parent. exact Hp.
Defined.

(** The difficulty of a sealed block tells whose turn it was: with the set of
    the snapshot indexed and its proposer known, an accepted signer's succession
    number is its distance after the proposer, and the header's difficulty is the
    number of validators less that distance. *)
Theorem sealed_difficulty_is_turn {C : Type -> Type} `{!Cache C} keccak Ecrecover cfg w h parents
    (s s' : Bor C) snap who succession p pi si :
  sealRules keccak Ecrecover cfg w h parents s s' snap who succession -> fakeDiff cfg = false ->
  SnapshotProps.ready (Snapshot.vals snap) p pi -> who <> zeroAddress ->
  SnapshotProps.positionOf (Validators (Snapshot.vals snap)) who si ->
  Z.of_nat (length (Validators (Snapshot.vals snap))) <= MaxInt64 ->
  let n := Z.of_nat (length (Validators (Snapshot.vals snap))) in
  succession = (si - pi) mod n /\ Difficulty h = Some (n - succession) /\
  (who = Address p <-> Difficulty h = Some n).
Proof.
  intros [_ _ _ (snap' & Et & Hd) _ _] Hfake Hr Hz Hpos Hlen n.
  rewrite (SnapshotProps.succession_at snap p pi who si Hr Hpos) in Et. injection Et as <- <-.
  destruct Hd as [|(v & d & Ed & Eh & _)]; [congruence|].
  rewrite (SnapshotProps.difficulty_at _ p pi who si Hr Hz Hpos Hlen) in Ed. injection Ed as _ <-.
  fold n in Eh |- *. pose proof (SnapshotProps.positionOf_bound _ _ _ Hpos) as Hsb.
  pose proof (SnapshotProps.positionOf_bound _ _ _ (proj2 (proj2 Hr))) as Hpb. fold n in Hsb, Hpb.
  split; [by apply SnapshotProps.turn_mod|]. split; [done|]. rewrite Eh. split.
  - intros ->. f_equal. destruct Hr as ([Hnd _] & _ & Hp).
    rewrite (SnapshotProps.positionOf_unique _ _ _ _ Hnd Hpos Hp). unfold SnapshotProps.turn.
    rewrite (proj2 (Z.ltb_ge pi pi)) by lia. lia.
  - intros [= E]. assert (si = pi) as ->.
    { apply (SnapshotProps.turn_inj n pi); [done..|]. unfold SnapshotProps.turn at 2.
      rewrite (proj2 (Z.ltb_ge pi pi)) by lia. lia. }
    eapply SnapshotProps.positionOf_inj; [exact Hpos|apply Hr].
Qed.

Lemma sealed_difficulty_is_turn_witness :
  Difficulty EngineDemo.demoBlock1 = Some 1 /\ (0 - 0) mod 1 = 0.
Proof.
  destruct (sealed_difficulty_is_turn EngineDemo.demoKeccak EngineDemo.demoEcrecover EngineDemo.demoSettings
    (EngineDemo.demoWorld [EngineDemo.demoGenesis]) EngineDemo.demoBlock1 [] EngineDemo.demoState
    EngineDemo.demoSealState EngineDemo.demoSnap EngineDemo.demoSigner 0
    (mkValidator 1 EngineDemo.demoSigner 10 0) 0 0) as (_ & H & _).
  - split.
    + eexists. split; vm_compute; reflexivity.
    + vm_compute. discriminate.
    + left. vm_compute. reflexivity.
    + eexists. split; [vm_compute; reflexivity|]. right. eexists _, _.
      split; [vm_compute; reflexivity|]. split; [reflexivity|vm_compute; split; discriminate].
    + intros _ H. destruct (H eq_refl).
    + intros parent H. exists 2. vm_compute in H. injection H as <-. split; [vm_compute; reflexivity|].
      vm_compute. discriminate.
  - reflexivity.
  - split; [split|split].
    + vm_compute. constructor; [intros H; inversion H|constructor].
    + vm_compute. reflexivity.
    + vm_compute. reflexivity.
    + split; [lia|]. eexists. split; vm_compute; reflexivity.
  - vm_compute. discriminate.
  - split; [lia|]. eexists. split; vm_compute; reflexivity.
  - vm_compute. discriminate.
  - split; [exact H|reflexivity].
Defined.

(** A batch of headers that is accepted as a whole is a chain: every header
    names the hash of the one before it, is one block higher and at least a period
    later. *)
Theorem VerifyHeaders_chain {C : Type -> Type} `{!Cache C} keccak Ecrecover cfg ws headers (s s' : Bor C) results :
  VerifyHeaders keccak Ecrecover cfg ws headers s = Done s' results ->
  results = replicate (length headers) None -> Forall (fun h => hdNum h <> 0) headers ->
  forall i p h, headers !! i = Some p -> headers !! S i = Some h -> parentRules keccak cfg h p.
Proof.
  intros H Hl Hnz i p h Hp Hh.
  eapply (VerifyHeaders_loop_parents keccak Ecrecover cfg ws [] headers s s' results H); [| |done| |exact Hh].
  - by rewrite Hl, length_replicate.
  - rewrite Hl. by apply Forall_replicate.
  - change ((Some <$> headers) !! i = Some (Some p)). by rewrite list_lookup_fmap, Hp.
Qed.

Lemma VerifyHeaders_chain_witness :
  parentRules EngineDemo.demoKeccak EngineDemo.demoSettings EngineDemo.demoBlock2 EngineDemo.demoBlock1.
Proof.
  pose (w := EngineDemo.demoWorld [EngineDemo.demoGenesis]).
  eapply (VerifyHeaders_chain EngineDemo.demoKeccak EngineDemo.demoEcrecover EngineDemo.demoSettings [w; w]
    [EngineDemo.demoBlock1; EngineDemo.demoBlock2] EngineDemo.demoState) with (i := 0%nat).
  - vm_compute. reflexivity.
  - reflexivity.
  - repeat constructor; vm_compute; discriminate.
  - reflexivity.
  - reflexivity.
Defined.

End EngineProps.
