(* ===== verification/EngineSnapshot.v ===== *)
(** * What a snapshot is the snapshot of

    The snapshot of a block is defined by the chain: the validators of the genesis
    span, and from there header by header the signer remembered, the recents pruned
    and, at the end of a sprint, the validators the header lists installed and
    turned once.  [snapshot] finds it from whatever the caches and the database
    hold, and keeps them holding such snapshots only.  The walk back never runs out
    of fuel. *)

From S2P Require Import Prelude Bytes Valset ValsetPriority ValsetRotation ValsetChange ValsetBytes.
From S2P Require Import ChainConfig ConfigProps Rlp Header HeaderProps Eip1559 BorTypes SpanStore.
From S2P Require Import SpanProps SpanServed Snapshot SnapshotProps Seal SealProps Engine EngineDemo.
From S2P Require Import EngineProps.

Module EngineSnapshot.
Import Valset ValsetPriority ValsetRotation ValsetChange ValsetBytes ChainConfig Header Eip1559 BorTypes SpanStore SpanServed.
Import Seal SealProps Engine EngineProps.

(** ** The snapshot of a block *)

Section spec.
Context {C : Type -> Type} `{!Cache C}.
Variable keccak : list Z -> Z.
Variable Ecrecover : list Z -> list Z -> option (list Z).
Variable cfg : Settings.

(** The number of the block with a hash, the headers of the block tree, and the
    spans that are served. *)
Variable numAt : Z -> Z.
Variable seen : Header -> Prop.
Variable served : Span -> Prop.

(** The validators the extra data of a header lists; none when it does not parse. *)
Definition headerValidators (hd : Header) : list Validator :=
  match ParseValidators (GetValidatorBytes (chainConfig cfg) hd) with inr l => l | inl _ => [] end.

(** A set and a list under which nothing of a change set can be refused. *)
Definition lawful (old : ValidatorSet) (listed : list Validator) : Prop :=
  wf old /\ (zeroAddress ∉ map Address (Validators old)) /\ legalGenesis listed /\
  totalVotingPower old + sumZ VotingPower listed <= MaxTotalVotingPower.

(** The end of a sprint: the listed validators replace the set, which is turned
    once and, when ids are missing, given those of the span of the next block.
    Lawful lists end up with exactly their addresses and powers. *)
Definition installed (old : ValidatorSet) (listed : list Validator) (n : Z) (new : ValidatorSet) : Prop :=
  exists updated turned,
    Snapshot.getUpdatedValidatorSet (S := unit) (E := bor_error) (Copy old) listed tt = Done tt updated /\
    IncrementProposerPriority 1 updated = Done turned tt /\
    (if CheckEmptyId turned
     then exists sp, answered served (u64 (n + 1)) sp /\
            new = IncludeIds (Validators (ConvertHeimdallValSetToBorValSet sp)) turned
     else new = turned) /\
    (lawful (Copy old) listed -> powers (Validators new) = powers listed).

(** One header on the snapshot of its parent: its recovered signer may sign, the
    proposer of the set is known from then on, the signer is remembered and the
    one of a sprint before forgotten, and the set changes at the end of a sprint
    only. *)
Record headerApplied (snap : Snapshot.Snapshot) (hd : Header) (sprint who : Z) (seated : ValidatorSet)
    (snap' : Snapshot.Snapshot) : Prop := mkHeaderApplied {
  applied_sprint : CalculateSprint (config cfg) (hdNum hd) = Some sprint;
  applied_signer : recovered (C := C) keccak Ecrecover hd (config cfg) = inl (inr who);
  applied_allowed : HasAddress who (Snapshot.vals snap) = true \/
    Snapshot.isAllowedByValidatorSetOverride snap who (hdNum hd) = true;
  applied_seated : exists p, Snapshot.proposerAddress (E := bor_error) (Snapshot.vals snap) = Done seated p;
  applied_recents : Snapshot.Recents snap' = <[hdNum hd := who]>
    (if sprint <=? hdNum hd then delete (u64 (hdNum hd - sprint)) (Snapshot.Recents snap)
     else Snapshot.Recents snap);
  applied_vals :
    if (0 <? hdNum hd) && bool_decide (sprintStart (u64 (hdNum hd + 1)) sprint = Some true)
    then installed seated (headerValidators hd) (hdNum hd) (Snapshot.vals snap')
    else Snapshot.vals snap' = seated;
  applied_config : Snapshot.chainConfig snap' = Snapshot.chainConfig snap
}.

Inductive headersApplied : Snapshot.Snapshot -> list Header -> Snapshot.Snapshot -> Prop :=
  | applied_none snap : headersApplied snap [] snap
  | applied_one snap hd sprint who seated snap1 headers snap2 :
      headerApplied snap hd sprint who seated snap1 -> headersApplied snap1 headers snap2 ->
      headersApplied snap (hd :: headers) snap2.

(** Headers, latest first, from a hash along parent hashes down to a block. *)
Fixpoint descends (hash : Z) (found : list Header) (base : Z) : Prop :=
  match found with
  | [] => hash = base
  | hd :: rest => Hash keccak hd = hash /\ seen hd /\ descends (ParentHash hd) rest base
  end.

(** What the database gives back of a snapshot: total and index computed anew. *)
Record reloaded (snap snap' : Snapshot.Snapshot) : Prop := mkReloaded {
  reloaded_config : Snapshot.chainConfig snap' = Some (chainConfig cfg);
  reloaded_number : Snapshot.Number snap' = Snapshot.Number snap;
  reloaded_hash : Snapshot.Hash snap' = Snapshot.Hash snap;
  reloaded_recents : Snapshot.Recents snap' = Snapshot.Recents snap;
  reloaded_validators : Validators (Snapshot.vals snap') = Validators (Snapshot.vals snap);
  reloaded_proposer : Proposer (Snapshot.vals snap') = Proposer (Snapshot.vals snap);
  reloaded_total : sumPower_loop 0 (Validators (Snapshot.vals snap)) = inr (totalVotingPower (Snapshot.vals snap'));
  reloaded_index : validatorsMap (Snapshot.vals snap') = addressIndex_loop 0 (Validators (Snapshot.vals snap)) ∅
}.

Inductive blockSnapshot : Z -> Snapshot.Snapshot -> Prop :=
  | of_genesis k sp vs :
      numAt k = 0 -> answered served 1 sp ->
      NewValidatorSet (Validators (ConvertHeimdallValSetToBorValSet sp)) = Done vs tt ->
      blockSnapshot k (Snapshot.mkSnapshot (Some (chainConfig cfg)) 0 k vs ∅)
  | of_headers k0 s0 k found snap :
      blockSnapshot k0 s0 -> found <> [] -> descends k found k0 ->
      headersApplied (Snapshot.copy s0) (reverse found) snap ->
      blockSnapshot k (Snapshot.setHead (numAt k) k snap)
  | of_disk k snap snap' : blockSnapshot k snap -> reloaded snap snap' -> blockSnapshot k snap'.

(** What is kept under a hash: the snapshot of that block; after Rio the set is
    that of the span, so only blocks before Rio have one in this sense. *)
Record good (k : Z) (snap : Snapshot.Snapshot) : Prop := mkGood {
  good_hash : Snapshot.Hash snap = k;
  good_number : Snapshot.Number snap = numAt k;
  good_config : Snapshot.chainConfig snap = Some (chainConfig cfg);
  good_of : IsRio (config cfg) (Some (numAt k)) = false -> blockSnapshot k snap
}.

Record keyed (s : Bor C) : Prop := mkKeyed {
  keyed_recents : forall k snap, (cget k (recents s)).1 = Some snap -> good k snap;
  keyed_db : forall k d, db s !! k = Some d -> exists snap, good k snap /\ d = Snapshot.stored snap;
  keyed_sigs : coherentSigs keccak Ecrecover seen (config cfg) (signatures s);
  keyed_spans : spansServed served (spanStore s)
}.

(** The block tree: numbered along parent hashes, with hashes that separate what
    recovery reads, and the configuration of the engine that of the chain. *)
Record blockTree : Prop := mkBlockTree {
  tree_number : forall hd, seen hd -> Number hd = Some (numAt (Hash keccak hd)) /\ is_u64 (numAt (Hash keccak hd));
  tree_parent : forall hd, seen hd -> 0 < numAt (Hash keccak hd) ->
    numAt (ParentHash hd) = numAt (Hash keccak hd) - 1;
  tree_hash : forall h h', seen h -> seen h' -> Hash keccak h' = Hash keccak h ->
    EncodeRLP h' = EncodeRLP h /\ Extra h' = Extra h /\
    encodeSigHeader h' (config cfg) = encodeSigHeader h (config cfg);
  tree_config : ChainConfig.Bor (chainConfig cfg) = Some (config cfg)
}.

(** A node that finds the headers of the tree by their own hash, knows the genesis
    block, and is answered with the spans that are served. *)
Record inTree (w : World) (parents : list Header) : Prop := mkInTree {
  in_chain : forall k n hd, GetHeader w k n = Some hd -> Hash keccak hd = k /\ seen hd;
  in_parents : forall hd, hd ∈ parents -> seen hd;
  in_genesis : exists g, GetHeaderByNumber w 0 = Some g /\ forall k, numAt k = 0 -> k = Hash keccak g;
  in_heimdall : serves served (heimdall w);
  in_turns : Forall (serves served) (turns w)
}.

End spec.

Section engine.
Context {C : Type -> Type} `{!Cache C}.
Variable keccak : list Z -> Z.
Variable Ecrecover : list Z -> list Z -> option (list Z).
Variable cfg : Settings.

Abbreviation hashOf := (Hash keccak).
Abbreviation findBaseOf := (findBase (C := C) keccak cfg).

(** ** Fuel *)

(** With the genesis block known, any fuel above the number gives the same walk. *)
Lemma findBase_fuel w f1 f2 hash number parents headers s :
  GetHeaderByNumber w 0 <> None -> 0 <= number <= MaxUint64 ->
  number < Z.of_nat f1 -> number < Z.of_nat f2 ->
  findBaseOf f1 w hash number parents headers s = findBaseOf f2 w hash number parents headers s.
Proof.
  intros Hg. revert f2 hash number parents headers s.
  induction f1 as [|f1 IH]; intros f2 hash number parents headers s Hn H1 H2; [lia|].
  destruct f2 as [|f2]; [lia|]. cbn [findBase]. apply bind_ext. intros [snap|] s1; [done|].
  apply bind_ext. intros [snap|] s2; [done|].
  destruct (Z.eqb_spec number 0) as [->|Hnz].
  - by destruct (GetHeaderByNumber w 0).
  - assert (Hstep : u64 (number - 1) = number - 1) by (apply u64_small; wsolve).
    destruct (last parents) as [hd|].
    + apply bind_ext. intros n s3. case_if; [done|]. apply IH; rewrite Hstep; wsolve.
    + destruct (GetHeader w hash number) as [hd|]; [|done]. apply IH; rewrite Hstep; wsolve.
Qed.

Variable numAt : Z -> Z.
Variable seen : Header -> Prop.
Variable served : Span -> Prop.

Abbreviation goodAt := (good (C := C) keccak Ecrecover cfg numAt seen served).
Abbreviation keyedState := (keyed (C := C) keccak Ecrecover cfg numAt seen served).
Abbreviation stepped := (headerApplied (C := C) keccak Ecrecover cfg served).
Abbreviation steppedAll := (headersApplied (C := C) keccak Ecrecover cfg served).
Abbreviation inTreeOf := (inTree keccak numAt seen served).

Hypothesis Htree : blockTree keccak cfg numAt seen.

Lemma inTree_fewer w parents parents' :
  (forall hd, hd ∈ parents' -> hd ∈ parents) -> inTreeOf w parents -> inTreeOf w parents'.
Proof. intros Hsub [? Hk ? ? ?]. split; [done| |done..]. intros hd H. by apply Hk, Hsub. Qed.

Lemma seen_hdNum hd : seen hd -> hdNum hd = numAt (hashOf hd).
Proof using Htree.
  intros H. destruct (tree_number _ _ _ _ Htree hd H) as [E Hr]. unfold hdNum. rewrite E. cbn.
  rewrite Z.abs_eq by wsolve. by apply u64_small.
Qed.

(** ** Steps that leave the snapshots alone *)

Lemma keeps_onValue {T E A} conv (m : st T E A) x :
  keeps keyedState (onValue conv m x) (fun y => m x = Done y.1 y.2).
Proof. intros s Hs. unfold onValue. destruct (m x); naive_solver. Qed.

Lemma keeps_numberOf h : keeps keyedState (numberOf h) (fun n => n = hdNum h).
Proof. intros s Hs. unfold numberOf, hdNum. by destruct (Number h). Qed.

Lemma keeps_true {A} (m : st (Bor C) bor_error A) Q : keeps keyedState m Q -> keeps keyedState m (fun _ => True).
Proof. intros H. by eapply keeps_weaken. Qed.

(** A signer recovered through the cache is the one recovery gives. *)
Lemma keeps_recover h : seen h ->
  keeps keyedState (onSigs (ecrecover keccak Ecrecover h (config cfg)))
    (fun who => recovered (C := C) keccak Ecrecover h (config cfg) = inl (inr who)).
Proof using Htree.
  intros Hseen s Hs. unfold onSigs.
  destruct (ecrecover_transparent keccak Ecrecover seen (config cfg) h (signatures s) Hseen) as [Ha Hc].
  - intros h' Hh' E. by apply (tree_hash _ _ _ _ Htree).
  - apply Hs.
  - destruct (ecrecover keccak Ecrecover h (config cfg) (signatures s)) as [x who|x e|]; [|by destruct Hs; split..|done].
    split; [by destruct Hs; split|by rewrite <- Ha].
Qed.

Lemma keeps_onSpans {A} (m : st (SpanStore C) bor_error A) Q :
  keeps (spansServed served) m Q -> keeps keyedState (onSpans m) Q.
Proof.
  intros Hm s Hs. specialize (Hm (spanStore s) ltac:(apply Hs)). unfold onSpans.
  destruct (m (spanStore s)); [|by destruct Hs; split|done]. destruct Hm as [Hx HQ]. split; [by destruct Hs; split|exact HQ].
Qed.

Lemma keeps_spanAt w parents n : inTreeOf w parents -> keeps keyedState (spanAt w n) (answered served n).
Proof.
  intros Hw. eapply keeps_bind; [apply keeps_onSpans, keeps_spanByBlockNumber; apply Hw|].
  intros o Ho. eapply keeps_weaken; [apply keeps_orPanic|]. intros sp ->. by apply Ho.
Qed.

Lemma keeps_hasVerified k : keeps keyedState (hasVerified k) (fun _ => True).
Proof.
  intros s Hs. unfold hasVerified, mbind, st_bind, getS, putS.
  destruct (cget k (recentVerifiedHeaders s)). cbn. split; [by destruct Hs; split|done].
Qed.

Lemma keeps_performSpanCheck w h parents : inTreeOf w parents -> seen h ->
  keeps keyedState (performSpanCheck keccak Ecrecover cfg w h parents) (fun _ => True).
Proof using Htree.
  intros Hw Hh. unfold performSpanCheck. eapply keeps_bind; [apply keeps_numberOf|]. intros n ->.
  case_if; [by apply keeps_ret|]. eapply keeps_bind; [apply keeps_getS|]. intros s0 _.
  case_if; [by apply keeps_ret|]. intros s Hs.
  assert (Hwait : forall a, keeps keyedState (waitNewSpan w (hdNum h) a) (fun _ => True)).
  { intros a. eapply keeps_bind; [apply keeps_onSpans, keeps_waitForNewSpan; apply Hw|].
    intros _ _. by apply keeps_ret. }
  pose proof (keeps_recover h Hh s Hs) as Ha. unfold Author.
  destruct (onSigs _ s) as [s1 who|s1 e|why]; [|done..]. destruct Ha as [Ha _].
  destruct (parentOf w (ParentHash h) (hdNum h) parents) as [parent|] eqn:Ep; [|by apply Hwait].
  assert (Hp : seen parent).
  { unfold parentOf in Ep. destruct (last parents) as [p|] eqn:El.
    - injection Ep as <-. apply (in_parents _ _ _ _ _ _ Hw). rewrite last_lookup in El. by eapply list_elem_of_lookup_2.
    - by apply (in_chain _ _ _ _ _ _ Hw) in Ep as [_ ?]. }
  revert s1 Ha. change (keeps keyedState (parentHeaderAuthor ← onSigs (ecrecover keccak Ecrecover parent (config cfg));
      verified ← hasVerified (ParentHash h);
      if negb verified && (who =? parentHeaderAuthor) then waitNewSpan w (hdNum h) who else mret tt)
      (fun _ => True)).
  eapply keeps_bind; [by apply keeps_recover|]. intros pa _.
  eapply keeps_bind; [apply keeps_hasVerified|]. intros v _. case_if; [apply Hwait|by apply keeps_ret].
Qed.

(** ** The stores *)

Lemma keeps_getRecent k :
  keeps keyedState (getRecent k) (fun o => forall snap, o = Some snap -> goodAt k snap).
Proof.
  intros s [Hr Hd Hg Hp]. unfold getRecent, mbind, st_bind, getS, putS.
  pose proof (Hr k) as Hk. pose proof (fun k' => cget_get _ k' k (recents s)) as Hget.
  destruct (cget k (recents s)) as [o c']. cbn in *. split; [|done]. split; [|done..].
  intros k' snap H. apply Hr. by apply Hget.
Qed.

Lemma reload_reloaded snap snap' :
  Snapshot.reload (Some (chainConfig cfg)) (Snapshot.stored snap) = Some snap' -> reloaded cfg snap snap'.
Proof.
  unfold Snapshot.reload, UpdateTotalVotingPower, mbind, st_bind, getS, Snapshot.stored. cbn.
  destruct (sumPower_loop 0 (Validators (Snapshot.vals snap))) as [|sum] eqn:E; [done|].
  cbn. intros [= <-]. by split.
Qed.

Lemma reload_good k snap snap' : goodAt k snap ->
  Snapshot.reload (Some (chainConfig cfg)) (Snapshot.stored snap) = Some snap' -> goodAt k snap'.
Proof.
  intros [Hh Hn Hc Ho] E%reload_reloaded. pose proof E as [Ec En Eh _ _ _ _ _]. split; [congruence..|].
  intros Hr. eapply of_disk; [by apply Ho|done].
Qed.

Lemma keeps_loadSnapshot k :
  keeps keyedState (loadSnapshot cfg k) (fun o => forall snap, o = Some snap -> goodAt k snap).
Proof.
  intros s Hs. unfold loadSnapshot, mbind, st_bind, getS. cbn. split; [done|].
  intros snap H. destruct (db s !! k) as [d|] eqn:E; [|done]. cbn in H.
  destruct (keyed_db _ _ _ _ _ _ _ Hs _ _ E) as (snap0 & Hg & ->). by eapply reload_good.
Qed.

Lemma keeps_store w k snap : goodAt k snap -> keeps keyedState (storeSnapshot w snap) (fun _ => True).
Proof.
  intros Hg. unfold storeSnapshot. case_if; [|apply keeps_fail]. apply keeps_modify.
  intros s [Hr Hd Hs Hp]. split; [done| |done..]. intros k' d. cbn [db setDb]. intros H.
  apply lookup_insert_Some in H as [[<- <-]|[_ H]]; [|by apply Hd]. exists snap.
  by rewrite (good_hash _ _ _ _ _ _ _ _ Hg).
Qed.

Lemma keeps_addRecent k snap : goodAt k snap -> keeps keyedState (addRecent snap) (fun _ => True).
Proof.
  intros Hg. apply keeps_modify. intros s [Hr Hd Hs Hp]. split; [|done..]. intros k' sn.
  cbn [recents setRecentsCache]. rewrite (good_hash _ _ _ _ _ _ _ _ Hg).
  intros [[-> ->]|H]%cget_add; [done|by apply Hr].
Qed.

Lemma keeps_newSnapshot c n h vs :
  keeps keyedState (Snapshot.newSnapshot (E := bor_error) c n h vs)
    (fun snap => exists v, NewValidatorSet vs = Done v tt /\ snap = Snapshot.mkSnapshot c n h v ∅).
Proof.
  intros s Hs. unfold Snapshot.newSnapshot. destruct (NewValidatorSet vs) as [v []|?|]; [|done..].
  split; [done|]. by exists v.
Qed.

(** ** Applying headers *)

(** What a step on a snapshot leaves alone. *)
Definition sameHead (a b : Snapshot.Snapshot) : Prop :=
  Snapshot.Hash b = Snapshot.Hash a /\ Snapshot.Number b = Snapshot.Number a /\
  Snapshot.chainConfig b = Snapshot.chainConfig a.

Lemma onVals_sameHead {E A} (m : st ValidatorSet E A) a :
  keeps (sameHead a) (Snapshot.onVals m) (fun _ => True).
Proof. intros s Hs. unfold Snapshot.onVals. by destruct (m (Snapshot.vals s)). Qed.

Lemma onVals_Done {E A} (m : st ValidatorSet E A) a b x :
  Snapshot.onVals m a = Done b x ->
  m (Snapshot.vals a) = Done (Snapshot.vals b) x /\ b = Snapshot.setVals (Snapshot.vals b) a.
Proof. unfold Snapshot.onVals. destruct (m (Snapshot.vals a)); [|done..]. by intros [= <- <-]. Qed.

Lemma GetByAddress_same {E} addr v v' (r : Z * option Validator) :
  GetByAddress (E := E) addr v = Done v' r -> v' = v.
Proof.
  unfold GetByAddress, mbind, st_bind, getS. cbn. destruct (validatorsMap v !! addr); [|by intros [= <- _]].
  destruct (Validators v !! _); [|done]. by intros [= <- _].
Qed.

(** Looking up the succession seats the proposer and changes nothing else. *)
Lemma succession_seats who a b n :
  Snapshot.GetSignerSuccessionNumber who a = Done b n ->
  b = Snapshot.setVals (Snapshot.vals b) a /\
  exists p, Snapshot.proposerAddress (E := bor_error) (Snapshot.vals a) = Done (Snapshot.vals b) p.
Proof.
  intros H. unfold Snapshot.GetSignerSuccessionNumber in H.
  apply bind_Done in H as (s0 & a0 & [= <- <-] & H).
  apply bind_Done in H as (s1 & p & E1 & H). apply onVals_Done in E1 as [E1 S1].
  apply bind_Done in H as (s2 & [pi o] & E2 & H). apply onVals_Done in E2 as [E2 S2].
  apply GetByAddress_same in E2. apply bind_Done in H as (s3 & a3 & [= <- <-] & H).
  destruct (pi =? -1); [done|].
  apply bind_Done in H as (s4 & [si o'] & E4 & H). apply onVals_Done in E4 as [E4 S4].
  apply GetByAddress_same in E4. apply bind_Done in H as (s5 & a5 & [= <- <-] & H).
  assert (b = s4) as -> by (by destruct (_ && _); [|injection H]).
  rewrite E4, E2. split; [|by exists p]. rewrite S4, E4, S2, E2, S1. done.
Qed.

Lemma succession_sameHead who a b n :
  Snapshot.GetSignerSuccessionNumber who a = Done b n -> sameHead a b.
Proof. intros [-> _]%succession_seats. done. Qed.

Lemma keeps_validateExtra extra : keeps keyedState (validateHeaderExtraField extra) (fun _ => True).
Proof.
  unfold validateHeaderExtraField. eapply keeps_bind; [apply keeps_failIf|]. intros _ _.
  eapply keeps_true, keeps_failIf.
Qed.

(** ** The end of a sprint *)

Lemma powers_setID (f : Validator -> Z) l : powers (map (fun v => setID (f v) v) l) = powers l.
Proof.
  unfold powers, byAddr. induction l as [|v l IH]; [done|]. cbn. rewrite !fmap_insert. by rewrite IH.
Qed.

Lemma Copy_wf_nodup v : wf v -> NoDup (map Address (Validators v)).
Proof. intros H. by apply sorted_nodup, H. Qed.

(** A turn of the priorities keeps addresses and powers. *)
Lemma turned_powers v v' :
  wf v -> Validators v <> [] -> IncrementProposerPriority 1 v = Done v' tt ->
  powers (Validators v') = powers (Validators v).
Proof.
  intros Hwf Hne E. destruct (IncrementProposerPriority_1 v Hwf Hne) as (s' & l & i & x & E' & Hl & _ & _ & _ & Hv & _).
  rewrite E in E'. injection E' as <-. rewrite Hv. symmetry. apply powers_samePeople; [|by apply Copy_wf_nodup].
  eapply samePeople_trans; [done|apply samePeople_exactStep].
Qed.

Lemma installed_powers old listed updated turned l :
  Snapshot.getUpdatedValidatorSet (S := unit) (E := bor_error) (Copy old) listed tt = Done tt updated ->
  IncrementProposerPriority 1 updated = Done turned tt ->
  lawful (Copy old) listed ->
  powers (Validators turned) = powers listed /\ powers (Validators (IncludeIds l turned)) = powers listed.
Proof.
  intros E1 E2 (Hwf & Hz & Hl & Hroom).
  destruct (SnapshotProps.sprint_end_ok (Copy old) listed Hwf Hz Hl Hroom (E := bor_error) tt) as (v & E & Hv & Hne & Hp & _).
  rewrite E1 in E. injection E as <-.
  assert (Ht : powers (Validators turned) = powers listed).
  { rewrite <- Hp. by apply turned_powers. }
  split; [done|]. unfold IncludeIds. cbn [setValidators Validators]. by rewrite powers_setID.
Qed.

Lemma getUpdated_any {S S' E E'} old l (s : S) (s' : S') t v :
  Snapshot.getUpdatedValidatorSet (E := E) old l s = Done t v ->
  Snapshot.getUpdatedValidatorSet (E := E') old l s' = Done s' v.
Proof. unfold Snapshot.getUpdatedValidatorSet. by destruct (UpdateWithChangeSet _ _) as [? ?|? ?|]; intros [= <- <-]. Qed.

Lemma keeps_nextValidators w parents h old : inTreeOf w parents ->
  keeps keyedState (nextValidators w (chainConfig cfg) h (hdNum h) old)
    (installed served old (headerValidators cfg h) (hdNum h)).
Proof.
  intros Hw. unfold nextValidators. eapply keeps_bind; [apply keeps_validateExtra|]. intros _ _.
  fold (headerValidators cfg h). eapply (keeps_bind _ _ _ (fun v =>
    Snapshot.getUpdatedValidatorSet (S := unit) (E := bor_error) (Copy old) (headerValidators cfg h) tt = Done tt v)).
  { intros s Hs.
    destruct (Snapshot.getUpdatedValidatorSet (Copy old) (headerValidators cfg h) s) as [s' v|s' e|] eqn:E; [| |done].
    - split; [|by eapply getUpdated_any]. revert E. unfold Snapshot.getUpdatedValidatorSet.
      destruct (UpdateWithChangeSet _ _); intros [= <- _]; done.
    - revert E. unfold Snapshot.getUpdatedValidatorSet. by destruct (UpdateWithChangeSet _ _). }
  intros v Ev. eapply keeps_bind; [apply keeps_onValue|]. intros [v' []] Et. cbn [fst snd] in Et.
  destruct (CheckEmptyId v') eqn:Ec.
  - eapply keeps_bind; [by apply (keeps_spanAt w parents)|]. intros sp Hsp. apply keeps_ret.
    exists v, v'. rewrite Ec. split_and!; [done|done|by exists sp|]. intros Hl.
    by eapply installed_powers.
  - apply keeps_ret. exists v, v'. rewrite Ec. split_and!; [done..|]. intros Hl.
    by eapply (installed_powers _ _ _ _ []).
Qed.

(** ** One header and a run of headers *)

Lemma keeps_applyHeader w parents snap h : inTreeOf w parents -> seen h ->
  keeps keyedState (applyHeader keccak Ecrecover w (chainConfig cfg) (config cfg) snap h)
    (fun snap' => sameHead snap snap' /\ exists sprint who seated, stepped snap h sprint who seated snap').
Proof using Htree.
  intros Hw Hseen. unfold applyHeader. eapply keeps_bind; [apply keeps_numberOf|]. intros n ->.
  eapply keeps_bind; [apply keeps_orPanic|]. intros sprint Es.
  set (snap0 := if sprint <=? hdNum h then _ else snap).
  assert (Hv0 : Snapshot.vals snap0 = Snapshot.vals snap) by (unfold snap0; by case_if).
  assert (H0 : sameHead snap snap0) by (unfold snap0; by case_if).
  assert (Hr0 : Snapshot.Recents snap0 = if sprint <=? hdNum h
    then delete (u64 (hdNum h - sprint)) (Snapshot.Recents snap) else Snapshot.Recents snap)
    by (unfold snap0; by case_if).
  assert (Ho0 : forall a n, Snapshot.isAllowedByValidatorSetOverride snap0 a n =
    Snapshot.isAllowedByValidatorSetOverride snap a n) by (intros; unfold snap0; by case_if).
  eapply keeps_bind; [by apply keeps_recover|]. intros who Ewho.
  eapply keeps_bind; [apply keeps_failIf|]. intros [] Ha. cbv beta in Ha. rewrite Hv0, Ho0 in Ha.
  assert (Hallow : HasAddress who (Snapshot.vals snap) = true \/
    Snapshot.isAllowedByValidatorSetOverride snap who (hdNum h) = true).
  { by destruct (HasAddress who _), (Snapshot.isAllowedByValidatorSetOverride _ _ _); [left..|right|]. }
  eapply keeps_bind; [apply keeps_onValue|]. intros [snap1 k] H1. cbn [fst snd] in H1.
  apply succession_seats in H1 as (S1 & p & Ep). rewrite Hv0 in Ep.
  assert (Hc : Snapshot.chainConfig snap1 = Snapshot.chainConfig snap) by (rewrite S1; apply H0).
  assert (Hr1 : Snapshot.Recents snap1 = Snapshot.Recents snap0) by (by rewrite S1).
  assert (Hh : sameHead snap snap1) by (rewrite S1; exact H0).
  case_if; [|apply keeps_ret; split; [exact Hh|]; exists sprint, who, (Snapshot.vals snap1); split;
    [done|done|done|by exists p|cbn; by rewrite Hr1, Hr0|by rewrite Heqb|done]].
  eapply keeps_bind; [apply keeps_orPanic|]. intros e Ee.
  destruct e.
  - eapply keeps_bind; [by eapply keeps_nextValidators|]. intros v Hi. apply keeps_ret. split; [exact Hh|].
    exists sprint, who, (Snapshot.vals snap1).
    split; [done|done|done|by exists p|cbn; by rewrite Hr1, Hr0|rewrite Heqb, bool_decide_eq_true_2 by done; exact Hi|done].
  - apply keeps_ret. split; [exact Hh|]. exists sprint, who, (Snapshot.vals snap1).
    split; [done|done|done|by exists p|cbn; by rewrite Hr1, Hr0|rewrite Heqb, bool_decide_eq_false_2 by congruence; done|done].
Qed.

Lemma keeps_applyHeaders w parents headers snap : inTreeOf w parents -> Forall seen headers ->
  keeps keyedState (applyHeaders keccak Ecrecover w (chainConfig cfg) (config cfg) snap headers)
    (fun snap' => sameHead snap snap' /\ steppedAll snap headers snap').
Proof using Htree.
  intros Hw Hs. revert snap. induction Hs as [|h headers Hh _ IH]; intros snap; cbn [applyHeaders].
  - apply keeps_ret. split; [done|]. constructor.
  - eapply keeps_bind; [by eapply keeps_applyHeader|]. intros snap' [H (sprint & who & seated & H1)].
    eapply keeps_weaken; [apply IH|]. intros s2 [H2 H3]. split.
    + unfold sameHead in *. naive_solver congruence.
    + by eapply applied_one.
Qed.

(** The last of contiguous headers. *)
Lemma keeps_contiguous headers :
  keeps keyedState (contiguous headers) (fun ok => ok = true -> forall h0 hl,
    head headers = Some h0 -> last headers = Some hl ->
    hdNum hl = u64 (hdNum h0 + (Z.of_nat (length headers) - 1))).
Proof.
  induction headers as [|h headers IH]; [by apply keeps_ret|].
  destruct headers as [|h' headers].
  - apply keeps_ret. intros _ h0 hl [= <-] [= <-]. cbn. unfold hdNum.
    rewrite Z.add_0_r. symmetry. apply u64_small, u64_range.
  - change (contiguous (h :: h' :: headers)) with
      (n ← numberOf (C := C) h; n' ← numberOf h';
       if n' =? u64 (n + 1) then contiguous (h' :: headers) else mret false).
    eapply keeps_bind; [apply keeps_numberOf|]. intros n ->.
    eapply keeps_bind; [apply keeps_numberOf|]. intros n' ->.
    destruct (Z.eqb_spec (hdNum h') (u64 (hdNum h + 1))) as [E|]; [|by apply keeps_ret].
    eapply keeps_weaken; [exact IH|]. intros ok Hok Ht h0 hl [= <-] Hl.
    rewrite (Hok Ht h' hl eq_refl Hl), E. unfold u64. cbn [length].
    rewrite Zplus_mod_idemp_l. f_equal. lia.
Qed.

Lemma keeps_apply w parents s0 headers :
  inTreeOf w parents -> Forall seen headers -> Snapshot.chainConfig s0 = Some (chainConfig cfg) ->
  keeps keyedState (apply keccak Ecrecover w s0 headers) (fun snap =>
    match last headers with
    | None => snap = s0
    | Some hl => exists snap0, steppedAll (Snapshot.copy s0) headers snap0 /\
        Snapshot.chainConfig snap0 = Some (chainConfig cfg) /\
        snap = Snapshot.setHead (hdNum hl) (hashOf hl) snap0
    end).
Proof using Htree.
  intros Hw Hs Hcfg. unfold apply. destruct headers as [|h0 rest]; [by apply keeps_ret|].
  set (headers := h0 :: rest) in *. destruct (last headers) as [hl|] eqn:El.
  2:{ apply last_None in El. done. }
  change (keeps keyedState (ok ← contiguous (C := C) headers;
      if negb ok then failS errOutOfRangeChain else
      n0 ← numberOf h0;
      if negb (n0 =? u64 (Snapshot.Number s0 + 1)) then failS errOutOfRangeChain else
      c ← orPanic "nil pointer dereference" (Snapshot.chainConfig s0);
      b ← orPanic "nil pointer dereference" (ChainConfig.Bor c);
      snap ← applyHeaders keccak Ecrecover w c b (Snapshot.copy s0) headers;
      mret (Snapshot.setHead (u64 (Snapshot.Number snap + Z.of_nat (length headers)))
              (hashOf hl) snap))
    (fun snap => exists snap0, steppedAll (Snapshot.copy s0) headers snap0 /\
        Snapshot.chainConfig snap0 = Some (chainConfig cfg) /\
        snap = Snapshot.setHead (hdNum hl) (hashOf hl) snap0)).
  eapply keeps_bind; [apply keeps_contiguous|]. intros ok Hok. destruct ok; [|apply keeps_fail].
  cbn [negb]. eapply keeps_bind; [apply keeps_numberOf|]. intros n0 ->.
  case_if; [apply keeps_fail|]. bool_to_prop.
  eapply keeps_bind; [apply keeps_orPanic|]. intros c Ec. rewrite Hcfg in Ec. injection Ec as <-.
  eapply keeps_bind; [apply keeps_orPanic|]. intros b Eb. rewrite (tree_config _ _ _ _ Htree) in Eb. injection Eb as <-.
  eapply keeps_bind; [by eapply keeps_applyHeaders|]. intros snap ((_ & Hn & Hc) & Ha).
  apply keeps_ret. exists snap. split; [done|]. split; [by rewrite Hc|]. f_equal. rewrite Hn.
  rewrite (Hok eq_refl h0 hl eq_refl El), Heqb. unfold u64. cbn [Snapshot.copy Snapshot.setVals Snapshot.Number].
  rewrite Zplus_mod_idemp_l. f_equal. unfold headers. cbn [length]. lia.
Qed.

(** ** The walk back *)

(** The headers found lead from the hash asked for down to the snapshot. *)
Definition leadsTo (hash : Z) (headers0 : list Header) (r : Snapshot.Snapshot * list Header) : Prop :=
  exists k found, r.2 = headers0 ++ found /\ descends keccak seen hash found k /\ goodAt k r.1 /\
    numAt k <= numAt hash.

Lemma leadsTo_step hash hd headers r :
  hashOf hd = hash -> seen hd -> numAt (ParentHash hd) <= numAt hash ->
  leadsTo (ParentHash hd) (headers ++ [hd]) r -> leadsTo hash headers r.
Proof.
  intros Hh Hn Hle (k & found & E & Hd & Hg & Hk). exists k, (hd :: found). split; [|split_and!; [done..|lia]].
  rewrite E. by rewrite <- app_assoc.
Qed.

Lemma genesis_good k sp v :
  numAt k = 0 -> answered served 1 sp ->
  NewValidatorSet (Validators (ConvertHeimdallValSetToBorValSet sp)) = Done v tt ->
  goodAt k (Snapshot.mkSnapshot (Some (chainConfig cfg)) 0 k v ∅).
Proof. intros Hk Hsp E. split; [done..|]. intros _. by eapply of_genesis. Qed.

Lemma keeps_findBase w fuel hash number parents headers :
  inTreeOf w parents -> number = numAt hash -> is_u64 number ->
  keeps keyedState (findBaseOf fuel w hash number parents headers) (leadsTo hash headers).
Proof using Htree.
  revert hash number parents headers. induction fuel as [|fuel IH];
    intros hash number parents headers Hw En Hu; [apply keeps_panic|]. cbn [findBase].
  assert (Hhere : forall snap, goodAt hash snap -> leadsTo hash headers (snap, headers)).
  { intros snap Hg. exists hash, []. by rewrite app_nil_r. }
  assert (Hback : forall hd, seen hd -> hashOf hd = hash -> number <> 0 ->
    u64 (number - 1) = numAt (ParentHash hd) /\ is_u64 (u64 (number - 1)) /\ numAt (ParentHash hd) <= numAt hash).
  { intros hd Hs Eh Hnz. rewrite u64_small by wsolve.
    assert (E : numAt (ParentHash hd) = number - 1) by (rewrite (tree_parent _ _ _ _ Htree hd Hs); rewrite Eh; wsolve).
    rewrite E. split_and!; [done|wsolve|lia]. }
  eapply keeps_bind; [apply keeps_getRecent|]. intros [snap|] Hrec; [apply keeps_ret; auto|].
  eapply (keeps_bind _ _ _ (fun o => forall snap, o = Some snap -> goodAt hash snap)).
  { case_if; [apply keeps_loadSnapshot|by apply keeps_ret]. }
  intros [snap|] Hdisk; [apply keeps_ret; auto|].
  pose proof (in_genesis _ _ _ _ _ _ Hw) as (g & Eg & Hgen).
  destruct (Z.eqb_spec number 0) as [Hz|Hnz].
  - rewrite Eg. eapply (keeps_bind _ _ _ (goodAt hash)).
    + assert (hash = hashOf g) as -> by (apply Hgen; lia). unfold genesisSnapshot.
      eapply keeps_bind; [by apply (keeps_spanAt w parents)|]. intros sp Hsp.
      eapply keeps_bind; [apply keeps_newSnapshot|]. intros snap (v & Ev & ->).
      assert (Hg := genesis_good (hashOf g) sp v ltac:(lia) Hsp Ev).
      eapply keeps_bind; [by eapply keeps_store|]. intros _ _. by apply keeps_ret.
    + intros snap Hg. apply keeps_ret. auto.
  - destruct (last parents) as [hd|] eqn:El.
    + assert (Hin : hd ∈ parents).
      { rewrite last_lookup in El. by eapply list_elem_of_lookup_2. }
      pose proof (in_parents _ _ _ _ _ _ Hw hd Hin) as Hs.
      eapply keeps_bind; [apply keeps_numberOf|]. intros n ->.
      case_if; [apply keeps_fail|]. bool_to_prop. destruct (Hback hd Hs) as (Hp & Hpu & Hle); [done..|].
      eapply keeps_weaken; [apply IH; [|done..]|intros r; apply leadsTo_step; [done..|lia]].
      eapply inTree_fewer; [|exact Hw]. intros x Hx.
      rewrite <- (take_drop (length parents - 1) parents). apply elem_of_app. by left.
    + destruct (GetHeader w hash number) as [hd|] eqn:Eh; [|apply keeps_fail].
      destruct (in_chain _ _ _ _ _ _ Hw _ _ _ Eh) as [Ehash Hs]. destruct (Hback hd Hs) as (Hp & Hpu & Hle); [done..|].
      eapply keeps_weaken; [apply IH; [|done..]|intros r; apply leadsTo_step; [done..|lia]].
      eapply inTree_fewer; [|exact Hw]. set_solver.
Qed.

Lemma descends_seen hash found k : descends keccak seen hash found k -> Forall seen found.
Proof. revert hash. induction found as [|hd found IH]; intros hash; [done|]. intros (_ & Hs & H). constructor; eauto. Qed.

Lemma IsRio_lower n m : m <= n -> IsRio (config cfg) (Some n) = false -> IsRio (config cfg) (Some m) = false.
Proof. unfold IsRio, isBlockForked. destruct (RioBlock (config cfg)); [|done]. intros. bool_to_prop. lia. Qed.

Lemma keeps_extendSnapshot w parents hash snap headers :
  inTreeOf w parents -> leadsTo hash [] (snap, headers) ->
  keeps keyedState (extendSnapshot keccak Ecrecover w snap headers) (goodAt hash).
Proof using Htree.
  intros Hw (k & found & Ef & Hd & Hg & Hle). cbn in Ef, Hg. subst found. unfold extendSnapshot.
  eapply (keeps_bind _ _ _ (goodAt hash)).
  - eapply keeps_weaken; [eapply keeps_apply; [done| |apply Hg]|].
    { apply Forall_reverse. by eapply descends_seen. }
    intros snap' H. rewrite last_reverse in H. destruct headers as [|hd rest]; cbn in H, Hd; [by subst|].
    destruct Hd as (Eh & Hs & Hd), H as (snap0 & Ha & Hc & ->). rewrite (seen_hdNum hd Hs), Eh.
    split; [done..|]. intros Hrio. eapply (of_headers _ _ _ _ _ _ k snap _ (hd :: rest)); [|done|done|exact Ha].
    apply Hg. by eapply IsRio_lower.
  - intros snap' Hg'. eapply keeps_bind; [by eapply keeps_addRecent|]. intros _ _.
    eapply (keeps_bind _ _ _ (fun _ => True)).
    { case_if; [by eapply keeps_store|by apply keeps_ret]. }
    intros _ _. by apply keeps_ret.
Qed.

(** The walking case of [snapshot]: before Rio, with no fake author. *)
Definition walks (target : Header) : Prop :=
  DevFakeAuthor cfg && negb (signer cfg =? zeroAddress) = false /\
  IsRio (config cfg) (Number target) = false.

Lemma keeps_snapshot w target parents chk :
  inTreeOf w parents -> seen target -> 0 < hdNum target ->
  keeps keyedState (snapshot keccak Ecrecover cfg w target parents chk)
    (fun snap => walks target -> goodAt (ParentHash target) snap).
Proof using Htree.
  intros Hw Ht Hpos. unfold snapshot, walks. case_if.
  { eapply keeps_bind; [apply keeps_numberOf|]. intros n ->.
    destruct (NewValidatorSet _); [|apply keeps_panic..].
    eapply keeps_weaken; [apply keeps_newSnapshot|]. naive_solver. }
  destruct (tree_number _ _ _ _ Htree _ Ht) as [En Hr]. pose proof (seen_hdNum _ Ht) as Eh.
  case_if.
  - unfold getVeBlopSnapshot. eapply keeps_bind; [apply keeps_numberOf|]. intros n ->.
    eapply (keeps_bind _ _ _ (fun _ => True)).
    { case_if; [by apply keeps_performSpanCheck|by apply keeps_ret]. }
    intros _ _. eapply keeps_bind; [by apply (keeps_spanAt w parents)|]. intros sp _.
    eapply keeps_bind; [apply keeps_newSnapshot|]. intros snap (v & _ & ->).
    eapply keeps_bind; [eapply (keeps_addRecent (hashOf target))|].
    { split; [done|done|done|]. rewrite <- En. congruence. }
    intros _ _. apply keeps_ret. naive_solver.
  - eapply keeps_bind; [apply keeps_numberOf|]. intros n ->.
    rewrite (u64_small (hdNum target - 1)) by wsolve.
    eapply keeps_bind; [apply keeps_findBase; [done| |wsolve]|].
    { rewrite (tree_parent _ _ _ _ Htree _ Ht) by lia. lia. }
    intros [snap headers] Hl. eapply keeps_weaken; [by eapply keeps_extendSnapshot|]. done.
Qed.

End engine.

(** ** Properties *)

(** C21: [snapshot] returns the snapshot of the parent.  On a tree of numbered
    blocks whose hashes separate them, when the caches and the database hold under
    each hash the snapshot of that block and the signer cache recovered addresses,
    they still do after a call, whether it succeeds or fails, and before Rio the
    snapshot returned has the hash and the number of the parent of the target and
    is the one the chain gives the parent ([blockSnapshot]): from the validators of the
    genesis span header by header with the recovered signers, the recents of one
    sprint, and at each end of a sprint the validators that header lists. *)
Theorem snapshot_of_parent {C : Type -> Type} `{!Cache C} keccak Ecrecover cfg numAt seen served w target
    parents chk (s : Bor C) :
  blockTree keccak cfg numAt seen -> inTree keccak numAt seen served w parents ->
  seen target -> 0 < hdNum target -> keyed keccak Ecrecover cfg numAt seen served s ->
  match snapshot keccak Ecrecover cfg w target parents chk s with
  | Done s' snap => keyed keccak Ecrecover cfg numAt seen served s' /\
      (walks cfg target -> Snapshot.Hash snap = ParentHash target /\ Snapshot.Number snap = hdNum target - 1 /\
        blockSnapshot (C := C) keccak Ecrecover cfg numAt seen served (ParentHash target) snap)
  | Fail s' _ => keyed keccak Ecrecover cfg numAt seen served s'
  | Panicked _ => True
  end.
Proof.
  intros Htree Hw Ht Hpos Hs.
  pose proof (keeps_snapshot keccak Ecrecover cfg numAt seen served Htree w target parents chk Hw Ht Hpos s Hs) as H.
  destruct (snapshot _ _ _ _ _ _ _ s) as [s' snap|s' e|why]; [|done..]. destruct H as [Hk Hg].
  split; [done|]. intros Hwalk. destruct (Hg Hwalk) as [E1 E2 _ Ho].
  pose proof (seen_hdNum keccak cfg numAt seen Htree _ Ht) as En.
  destruct (tree_number _ _ _ _ Htree _ Ht) as [EN Hr].
  rewrite (tree_parent _ _ _ _ Htree _ Ht) in E2 by lia. split_and!; [done|lia|]. apply Ho.
  destruct Hwalk as [_ Hrio]. rewrite EN in Hrio. eapply IsRio_lower; [|exact Hrio].
  rewrite (tree_parent _ _ _ _ Htree _ Ht) by lia. lia.
Qed.

(** The numbers of the blocks of the small chain. *)
Definition demoNumAt (k : Z) : Z :=
  if k =? Hash EngineDemo.demoKeccak EngineDemo.demoGenesis then 0
  else if k =? Hash EngineDemo.demoKeccak EngineDemo.demoBlock1 then 1 else 2.

Definition demoChainWorld : World := EngineDemo.demoWorld [EngineDemo.demoGenesis; EngineDemo.demoBlock1].

Definition demoSeen (hd : Header) : Prop :=
  hd = EngineDemo.demoGenesis \/ hd = EngineDemo.demoBlock1 \/ hd = EngineDemo.demoBlock2.

Definition demoServed (sp : Span) : Prop := sp = EngineDemo.demoSpan0.

Lemma demo_tree : blockTree EngineDemo.demoKeccak EngineDemo.demoSettings demoNumAt demoSeen.
Proof.
  split.
  - intros hd [-> |[-> | ->]]; (split; [vm_compute; reflexivity|split; vm_compute; (reflexivity || discriminate)]).
  - intros hd [-> |[-> | ->]] H; [vm_compute in H; discriminate H|vm_compute; reflexivity..].
  - intros h h' [-> |[-> | ->]] [-> |[-> | ->]] H;
      first [exfalso; vm_compute in H; discriminate H|split; [|split]; reflexivity].
  - vm_compute. reflexivity.
Qed.

Lemma demo_inTree : inTree EngineDemo.demoKeccak demoNumAt demoSeen demoServed demoChainWorld [].
Proof.
  split.
  - intros k n hd H. unfold demoChainWorld, EngineDemo.demoWorld in H. cbn [GetHeader] in H.
    apply List.find_some in H as [Hin H]. apply andb_true_iff in H as [H _]. apply Z.eqb_eq in H.
    split; [exact H|]. destruct Hin as [<-|[<-|[]]]; [by left|by right; left].
  - intros hd H. inversion H.
  - exists EngineDemo.demoGenesis. split; [vm_compute; reflexivity|]. intros k. unfold demoNumAt.
    destruct (Z.eqb_spec k (Hash EngineDemo.demoKeccak EngineDemo.demoGenesis)); [done|]. case_if; lia.
  - split; [|discriminate]. intros h id sp [= <-]. cbn [GetSpan]. case_if; [|discriminate]. by intros [= <-].
  - constructor.
Qed.

Lemma demo_keyed : keyed EngineDemo.demoKeccak EngineDemo.demoEcrecover EngineDemo.demoSettings demoNumAt demoSeen
  demoServed EngineDemo.demoState.
Proof.
  split.
  - intros k snap H. cbn [cget gmap_cache fst recents EngineDemo.demoState] in H. rewrite lookup_empty in H. discriminate H.
  - intros k snap H. cbn [db EngineDemo.demoState] in H. rewrite lookup_empty in H. discriminate H.
  - intros h a _ H. cbn [cget gmap_cache fst signatures EngineDemo.demoState] in H. rewrite lookup_empty in H. discriminate H.
  - intros k sp H. cbn [cget gmap_cache fst store spanStore EngineDemo.demoState] in H. rewrite lookup_empty in H.
    discriminate H.
Qed.

Lemma snapshot_of_parent_witness :
  exists s' snap,
    snapshot EngineDemo.demoKeccak EngineDemo.demoEcrecover EngineDemo.demoSettings demoChainWorld
      EngineDemo.demoBlock2 [] false EngineDemo.demoState = Done s' snap /\
    Snapshot.Number snap = 1 /\ map Address (Validators (Snapshot.vals snap)) = [EngineDemo.demoSigner] /\
    blockSnapshot (C := gmap Z) EngineDemo.demoKeccak EngineDemo.demoEcrecover EngineDemo.demoSettings demoNumAt demoSeen
      demoServed (Hash EngineDemo.demoKeccak EngineDemo.demoBlock1) snap.
Proof.
  pose proof (snapshot_of_parent EngineDemo.demoKeccak EngineDemo.demoEcrecover EngineDemo.demoSettings demoNumAt
    demoSeen demoServed demoChainWorld EngineDemo.demoBlock2 [] false EngineDemo.demoState demo_tree demo_inTree
    (or_intror (or_intror eq_refl)) eq_refl demo_keyed) as H.
  assert (Hd : match snapshot EngineDemo.demoKeccak EngineDemo.demoEcrecover EngineDemo.demoSettings demoChainWorld
      EngineDemo.demoBlock2 [] false EngineDemo.demoState with
    | Done _ snap => map Address (Validators (Snapshot.vals snap)) = [EngineDemo.demoSigner]
    | _ => False
    end) by (vm_compute; reflexivity).
  destruct (snapshot _ _ _ _ _ _ _ EngineDemo.demoState) as [s' snap|s' e|why]; [|destruct Hd..].
  destruct H as [_ H]. destruct H as (_ & Hn & Ho); [split; vm_compute; reflexivity|].
  exists s', snap. split; [reflexivity|]. split; [exact Hn|]. split; [exact Hd|exact Ho].
Defined.

(** The walk back ends: with the genesis block known, every bound on its turns
    above the block number gives the same result, so the bound of [snapshot] is
    never reached. *)
Theorem snapshot_walk_ends {C : Type -> Type} `{!Cache C} keccak cfg w fuel hash number parents headers
    (s : Bor C) :
  GetHeaderByNumber w 0 <> None -> 0 <= number <= MaxUint64 -> number < Z.of_nat fuel ->
  findBase keccak cfg fuel w hash number parents headers s =
  findBase keccak cfg (Z.to_nat number + 2) w hash number parents headers s.
Proof. intros Hg Hn Hf. apply findBase_fuel; [done|done|done|lia]. Qed.

Lemma snapshot_walk_ends_witness :
  findBase EngineDemo.demoKeccak EngineDemo.demoSettings 50 demoChainWorld (ParentHash EngineDemo.demoBlock2) 1
    [] [] EngineDemo.demoState =
  findBase EngineDemo.demoKeccak EngineDemo.demoSettings (Z.to_nat 1 + 2) demoChainWorld
    (ParentHash EngineDemo.demoBlock2) 1 [] [] EngineDemo.demoState.
Proof.
  apply (snapshot_walk_ends EngineDemo.demoKeccak EngineDemo.demoSettings demoChainWorld 50).
  - discriminate.
  - vm_compute. split; discriminate.
  - lia.
Defined.

End EngineSnapshot.
