(* ===== verification/EngineApply.v ===== *)
(** * Resuming from a stored snapshot

    Applying a run of headers in one go, or stopping at a checkpoint and going on
    from the snapshot stored there, gives the same snapshot, the same engine state
    and the same errors. *)

From S2P Require Import Prelude Bytes Valset ValsetPriority ValsetRotation ValsetChange ValsetBytes.
From S2P Require Import ChainConfig ConfigProps Rlp Header HeaderProps Eip1559 BorTypes SpanStore.
From S2P Require Import SpanProps Snapshot SnapshotProps Seal SealProps Engine EngineDemo.
From S2P Require Import EngineProps EngineSnapshot.

Module EngineApply.
Import Valset ValsetRotation ValsetBytes ChainConfig Header Eip1559 BorTypes SpanStore Seal Engine
  EngineProps EngineSnapshot.

(** ** Sets whose index is the one a copy has *)

Definition selfIndexed (v : ValidatorSet) : Prop :=
  validatorsMap v = addressIndex_loop 0 (Validators v) ∅.

Lemma selfIndexed_people f v :
  selfIndexed v -> map Address (f (Validators v)) = map Address (Validators v) ->
  selfIndexed (setValidators (f (Validators v)) v).
Proof. unfold selfIndexed. cbn. intros -> E. by apply addressIndex_loop_people. Qed.

Lemma Copy_selfIndexed v : selfIndexed v -> Copy v = v.
Proof. unfold selfIndexed, Copy. intros <-. by destruct v. Qed.

(** An update of the priorities, the total or the proposer keeps the index. *)
Lemma keeps_must {St E A} (I : St -> Prop) (m : st St E A) Q : keeps I m Q -> keeps I (must m) Q.
Proof. intros H s Hs. specialize (H s Hs). unfold must. by destruct (m s). Qed.

Lemma keeps_priorities {E} (g : Validator -> Z) :
  keeps (E := E) selfIndexed
    (modify (fun s => setValidators (map (fun v => setPriority (g v) v) (Validators s)) s)) (fun _ => True).
Proof.
  apply keeps_modify. intros v Hv. apply (selfIndexed_people (map (fun v => setPriority (g v) v))); [done|].
  rewrite map_map. by apply map_ext.
Qed.

Lemma keeps_updateTotal : keeps selfIndexed UpdateTotalVotingPower (fun _ => True).
Proof.
  unfold UpdateTotalVotingPower. eapply keeps_bind; [apply keeps_getS|]. intros s _.
  destruct (sumPower_loop 0 (Validators s)); [apply keeps_fail|by apply keeps_modify].
Qed.

Lemma keeps_total : keeps selfIndexed TotalVotingPower (fun _ => True).
Proof.
  unfold TotalVotingPower. eapply keeps_bind; [apply keeps_getS|]. intros s _.
  eapply (keeps_bind _ _ _ (fun _ => True)).
  - case_if; [apply keeps_must, keeps_updateTotal|by apply keeps_ret].
  - intros _ _. eapply keeps_bind; [apply keeps_getS|]. intros s' _. by apply keeps_ret.
Qed.

Lemma keeps_rescale {E} d : keeps (E := E) selfIndexed (RescalePriorities d) (fun _ => True).
Proof.
  unfold RescalePriorities. eapply keeps_bind; [apply keeps_getS|]. intros s _.
  case_if; [apply keeps_panic|]. case_if; [by apply keeps_ret|].
  eapply (keeps_bind _ _ _ (fun _ => True)).
  - unfold computeMaxMinPriorityDiff. eapply keeps_bind; [apply keeps_getS|]. intros s' _.
    case_if; [apply keeps_panic|]. destruct (maxmin_loop (Validators s')). by apply keeps_ret.
  - intros diff _. cbv zeta. repeat case_if; [apply keeps_panic|apply keeps_priorities|by apply keeps_ret].
Qed.

Lemma keeps_shift {E} : keeps (E := E) selfIndexed shiftByAvgProposerPriority (fun _ => True).
Proof.
  unfold shiftByAvgProposerPriority. eapply keeps_bind; [apply keeps_getS|]. intros s _.
  case_if; [apply keeps_panic|]. eapply (keeps_bind _ _ _ (fun _ => True)).
  - unfold computeAvgProposerPriority. eapply keeps_bind; [apply keeps_getS|]. intros s' _.
    cbv zeta. repeat case_if; try apply keeps_panic. by apply keeps_ret.
  - intros avg _. apply keeps_priorities.
Qed.

(** Searches do not change the state. *)
Lemma keeps_Cmp {E} v o : keeps (E := E) selfIndexed (Cmp v o) (fun _ => True).
Proof. unfold Cmp. repeat case_match; try apply keeps_panic; by apply keeps_ret. Qed.

Lemma keeps_most {E} : keeps (E := E) selfIndexed getValWithMostPriority (fun _ => True).
Proof.
  unfold getValWithMostPriority. eapply keeps_bind; [apply keeps_getS|]. intros s _.
  generalize (@None vptr). induction (vptrs (Validators s)) as [|p l IH]; intros res;
    cbn [mostPriority_loop]; [by apply keeps_ret|].
  eapply keeps_bind; [apply keeps_Cmp|intros r _; apply IH].
Qed.

Lemma keeps_findProposer {E} : keeps (E := E) selfIndexed findProposer (fun _ => True).
Proof.
  unfold findProposer. eapply keeps_bind; [apply keeps_getS|]. intros s _.
  generalize (@None vptr). induction (vptrs (Validators s)) as [|p l IH]; intros res;
    cbn [findProposer_loop]; [by apply keeps_ret|].
  eapply (keeps_bind _ _ _ (fun _ => True)); [|intros r _; apply IH].
  destruct res; [|apply keeps_Cmp]. case_if; [by apply keeps_ret|apply keeps_Cmp].
Qed.

Lemma keeps_increment : keeps selfIndexed incrementProposerPriority (fun _ => True).
Proof.
  unfold incrementProposerPriority.
  eapply keeps_bind; [apply (keeps_priorities (fun v => safeAddClip (ProposerPriority v) (VotingPower v)))|].
  intros _ _. eapply keeps_bind; [apply keeps_most|]. intros [[i v]|] _; [|apply keeps_panic].
  eapply keeps_bind; [apply keeps_total|]. intros t _.
  eapply (keeps_bind _ _ _ (fun _ => True)); [|intros _ _; by apply keeps_ret].
  apply keeps_modify. intros s Hs.
  apply (selfIndexed_people (alter (fun v => setPriority (safeSubClip (ProposerPriority v) t) v) i)); [done|].
  generalize (Validators s) i. clear. induction l as [|x l IH]; intros [|i]; cbn; f_equal; auto.
Qed.

Lemma keeps_IncrementProposerPriority times :
  keeps selfIndexed (IncrementProposerPriority times) (fun _ => True).
Proof.
  unfold IncrementProposerPriority. eapply keeps_bind; [apply keeps_getS|]. intros s _.
  do 2 (case_if; [apply keeps_panic|]).
  eapply keeps_bind; [apply keeps_total|]. intros t _.
  eapply keeps_bind; [apply keeps_rescale|]. intros _ _.
  eapply keeps_bind; [apply keeps_shift|]. intros _ _.
  eapply (keeps_bind _ _ _ (fun _ => True)); [|intros p _; by apply keeps_modify].
  generalize 0%nat. induction (Z.to_nat times) as [|n IH]; intros acc; cbn [repeatS]; [by apply keeps_ret|].
  eapply keeps_bind; [apply keeps_increment|]. intros a _. apply IH.
Qed.

Lemma keeps_GetByAddress {E} a : keeps (E := E) selfIndexed (GetByAddress a) (fun _ => True).
Proof.
  unfold GetByAddress. eapply keeps_bind; [apply keeps_getS|]. intros s _.
  destruct (validatorsMap s !! a); [|by apply keeps_ret].
  destruct (Validators s !! _); [by apply keeps_ret|apply keeps_panic].
Qed.

Lemma keeps_verifyRemovals d : keeps selfIndexed (verifyRemovals d) (fun _ => True).
Proof.
  unfold verifyRemovals. eapply (keeps_bind _ _ _ (fun _ => True)).
  - induction d as [|x d IH]; cbn [verifyRemovals_loop]; [by apply keeps_ret|].
    eapply keeps_bind; [apply keeps_GetByAddress|]. intros r _. destruct r.2; [exact IH|apply keeps_fail].
  - intros _ _. eapply keeps_bind; [apply keeps_getS|]. intros s _. case_if; [apply keeps_panic|by apply keeps_ret].
Qed.

Lemma keeps_verifyUpdates u : keeps selfIndexed (verifyUpdates u) (fun _ => True).
Proof.
  unfold verifyUpdates. eapply keeps_bind; [apply keeps_total|]. intros t _.
  generalize 0%nat. revert t. induction u as [|x u IH]; intros t n; cbn [verifyUpdates_loop]; [by apply keeps_ret|].
  eapply keeps_bind; [apply keeps_GetByAddress|]. intros r _.
  destruct (match r.2 with Some _ => _ | None => _ end). case_if; [apply keeps_fail|apply IH].
Qed.

Lemma keeps_computeNewPriorities u t : keeps selfIndexed (computeNewPriorities u t) (fun _ => True).
Proof.
  induction u as [|x u IH]; cbn [computeNewPriorities]; [by apply keeps_ret|].
  eapply keeps_bind; [apply keeps_GetByAddress|]. intros r _.
  eapply keeps_bind; [apply IH|]. intros l _. by apply keeps_ret.
Qed.

Lemma keeps_updateValidators {E} u d : keeps (E := E) selfIndexed (updateValidators u d) (fun _ => True).
Proof.
  intros s _. unfold updateValidators, applyRemovals, mbind, st_bind, modify, getS.
  destruct (removeAddresses _ d); [|done]. by cbn.
Qed.

Lemma keeps_UpdateWithChangeSet changes : keeps selfIndexed (UpdateWithChangeSet changes) (fun _ => True).
Proof.
  unfold UpdateWithChangeSet, updateWithChangeSet. destruct changes as [|c l]; [by apply keeps_ret|].
  destruct (processChanges (c :: l)) as [e|[u d]]; [apply keeps_fail|].
  case_if; [apply keeps_fail|]. eapply keeps_bind; [apply keeps_verifyRemovals|]. intros _ _.
  eapply keeps_bind; [apply keeps_verifyUpdates|]. intros [t n] _.
  eapply keeps_bind; [apply keeps_getS|]. intros s _. case_if; [apply keeps_fail|].
  eapply keeps_bind; [apply keeps_computeNewPriorities|]. intros u' _.
  eapply keeps_bind; [apply keeps_updateValidators|]. intros _ _.
  eapply keeps_bind; [apply keeps_updateTotal|]. intros _ _.
  eapply keeps_bind; [apply keeps_total|]. intros t' _.
  eapply keeps_bind; [apply keeps_rescale|]. intros _ _. apply keeps_shift.
Qed.

(** ** Snapshots during [apply] *)

Section engine.
Context {C : Type -> Type} `{!Cache C}.
Variable keccak : list Z -> Z.
Variable Ecrecover : list Z -> list Z -> option (list Z).

Abbreviation hashOf := (Hash keccak).
Abbreviation any := (fun _ : Bor C => True).

Lemma nextValidators_selfIndexed w c h n old :
  keeps any (nextValidators w c h n old) selfIndexed.
Proof.
  intros s _. destruct (nextValidators w c h n old s) as [s' v|s' e|] eqn:E; [|done..]. split; [done|].
  unfold nextValidators in E. apply bind_Done in E as (s1 & [] & _ & E).
  apply bind_Done in E as (s2 & v1 & E1 & E). apply bind_Done in E as (s3 & [v2 []] & E2 & E).
  apply onValue_Done in E2 as [_ E2]. cbn [fst snd] in E2.
  assert (H1 : selfIndexed v1).
  { unfold Snapshot.getUpdatedValidatorSet in E1.
    match type of E1 with match UpdateWithChangeSet ?c ?x with _ => _ end = _ =>
      assert (Hx : selfIndexed x);
      [|pose proof (keeps_UpdateWithChangeSet c x Hx) as Hk; destruct (UpdateWithChangeSet c x) as [v' ?|v' ?|]]
    end; [|injection E1 as _ <-; apply Hk|injection E1 as _ <-; exact Hk|done].
    unfold selfIndexed. cbn. apply addressIndex_loop_people. rewrite map_map. by apply map_ext. }
  pose proof (keeps_IncrementProposerPriority 1 v1 H1) as H2. rewrite E2 in H2. destruct H2 as [H2 _].
  destruct (CheckEmptyId v2); [|by injection E as _ <-].
  apply bind_Done in E as (s4 & sp & _ & E). injection E as _ <-. unfold IncludeIds.
  apply (selfIndexed_people (map (fun v => setID _ v))); [done|]. rewrite map_map. by apply map_ext.
Qed.

Lemma succession_selfIndexed who a b n :
  selfIndexed (Snapshot.vals a) -> Snapshot.GetSignerSuccessionNumber who a = Done b n ->
  selfIndexed (Snapshot.vals b).
Proof.
  intros Ha H.
  assert (Hon : forall E A (m : st ValidatorSet E A), keeps selfIndexed m (fun _ => True) ->
    keeps (fun s => selfIndexed (Snapshot.vals s)) (Snapshot.onVals m) (fun _ => True)).
  { intros E A m Hm s Hs. specialize (Hm _ Hs). unfold Snapshot.onVals.
    destruct (m (Snapshot.vals s)); naive_solver. }
  assert (Hp : keeps (E := bor_error) selfIndexed Snapshot.proposerAddress (fun _ => True)).
  { unfold Snapshot.proposerAddress, GetProposer.
    eapply (keeps_bind _ _ _ (fun _ => True)); [|intros [p|] _; [by apply keeps_ret|apply keeps_panic]].
    eapply keeps_bind; [apply keeps_getS|]. intros s _. destruct (Validators s); [by apply keeps_ret|].
    destruct (Proposer s); [by apply keeps_ret|].
    eapply (keeps_bind _ _ _ (fun _ => True)).
    { apply keeps_findProposer. }
    intros p _. eapply (keeps_bind _ _ _ (fun _ => True)); [by apply keeps_modify|]. intros _ _.
    destruct p; [by apply keeps_ret|apply keeps_panic]. }
  assert (Hk : keeps (fun s => selfIndexed (Snapshot.vals s))
                 (Snapshot.GetSignerSuccessionNumber who) (fun _ => True)).
  { unfold Snapshot.GetSignerSuccessionNumber.
    eapply keeps_bind; [apply keeps_getS|]. intros s0 _.
    eapply keeps_bind; [apply Hon, Hp|]. intros p _.
    eapply keeps_bind; [apply Hon, keeps_GetByAddress|]. intros [pi ?] _.
    eapply keeps_bind; [apply keeps_getS|]. intros s1 _. case_if; [apply keeps_fail|].
    eapply keeps_bind; [apply Hon, keeps_GetByAddress|]. intros [si ?] _.
    eapply keeps_bind; [apply keeps_getS|]. intros s2 _. case_if; [apply keeps_fail|].
    by apply keeps_ret. }
  specialize (Hk a Ha). rewrite H in Hk. apply Hk.
Qed.

Lemma applyHeader_selfIndexed w c b snap h (s s' : Bor C) snap' :
  selfIndexed (Snapshot.vals snap) -> applyHeader keccak Ecrecover w c b snap h s = Done s' snap' ->
  selfIndexed (Snapshot.vals snap').
Proof.
  intros Hs H. unfold applyHeader in H.
  apply bind_Done in H as (s1 & n & _ & H). apply bind_Done in H as (s2 & sprint & _ & H).
  apply bind_Done in H as (s3 & who & _ & H). apply bind_Done in H as (s4 & [] & _ & H).
  apply bind_Done in H as (s5 & [snap1 k] & E & H). apply onValue_Done in E as [_ E]. cbn [fst snd] in E.
  apply succession_selfIndexed in E; [|by case_if].
  destruct (0 <? n); [|by injection H as _ <-].
  apply bind_Done in H as (s6 & e & _ & H). destruct e; [|by injection H as _ <-].
  apply bind_Done in H as (s7 & v & Ev & H). injection H as _ <-. cbn.
  cbn [Snapshot.setRecents Snapshot.vals] in Ev.
  pose proof (nextValidators_selfIndexed w c h n (Snapshot.vals snap1) s6 I) as Hv.
  rewrite Ev in Hv. apply Hv.
Qed.

Lemma applyHeaders_selfIndexed w c b headers snap (s s' : Bor C) snap' :
  selfIndexed (Snapshot.vals snap) -> applyHeaders keccak Ecrecover w c b snap headers s = Done s' snap' ->
  selfIndexed (Snapshot.vals snap').
Proof.
  revert snap s. induction headers as [|h headers IH]; intros snap s Hs H; cbn [applyHeaders] in H.
  - by injection H as _ <-.
  - apply bind_Done in H as (s1 & snap1 & E & H). eapply IH; [|exact H].
    by eapply applyHeader_selfIndexed.
Qed.

Lemma applyHeaders_app w c b h1 h2 snap (s : Bor C) :
  applyHeaders keccak Ecrecover w c b snap (h1 ++ h2) s =
  (mid ← applyHeaders keccak Ecrecover w c b snap h1; applyHeaders keccak Ecrecover w c b mid h2) s.
Proof.
  revert snap s. induction h1 as [|h h1 IH]; intros snap s; [done|].
  cbn [app applyHeaders]. rewrite <- bind_assoc. apply bind_ext. intros a s'. apply IH.
Qed.

(** ** The head of a snapshot does not matter *)

(** Without overrides of the validator set, the number and the hash of a snapshot
    are not read while headers are applied to it. *)
Definition noOverrides (snap : Snapshot.Snapshot) : Prop :=
  forall who n, Snapshot.isAllowedByValidatorSetOverride snap who n = false.

Lemma onVals_setHead {E A} (m : st ValidatorSet E A) n k a b x :
  Snapshot.onVals m a = Done b x ->
  Snapshot.onVals m (Snapshot.setHead n k a) = Done (Snapshot.setHead n k b) x.
Proof.
  unfold Snapshot.onVals. cbn [Snapshot.setHead Snapshot.vals].
  destruct (m (Snapshot.vals a)); [|done..]. by intros [= <- <-].
Qed.

Lemma onVals_sameConfig {E A} (m : st ValidatorSet E A) a b x :
  Snapshot.onVals m a = Done b x -> Snapshot.chainConfig b = Snapshot.chainConfig a.
Proof. unfold Snapshot.onVals. destruct (m (Snapshot.vals a)); [|done..]. by intros [= <- <-]. Qed.

Lemma noOverrides_config a b :
  Snapshot.chainConfig b = Snapshot.chainConfig a -> noOverrides a -> noOverrides b.
Proof.
  intros E H who n. specialize (H who n). unfold Snapshot.isAllowedByValidatorSetOverride in *.
  by rewrite E.
Qed.

Lemma succession_setHead who n k a b x :
  noOverrides a -> Snapshot.GetSignerSuccessionNumber who a = Done b x ->
  Snapshot.GetSignerSuccessionNumber who (Snapshot.setHead n k a) = Done (Snapshot.setHead n k b) x.
Proof.
  intros Ha H. unfold Snapshot.GetSignerSuccessionNumber in *.
  apply bind_Done in H as (s0 & a0 & [= <- <-] & H).
  apply bind_Done in H as (s1 & p & E1 & H). pose proof (onVals_sameConfig _ _ _ _ E1) as C1.
  apply bind_Done in H as (s2 & [pi o] & E2 & H). pose proof (onVals_sameConfig _ _ _ _ E2) as C2.
  apply bind_Done in H as (s3 & a3 & [= <- <-] & H).
  destruct (pi =? -1) eqn:Ep; [done|].
  apply bind_Done in H as (s4 & [si o'] & E4 & H). pose proof (onVals_sameConfig _ _ _ _ E4) as C4.
  apply bind_Done in H as (s5 & a5 & [= <- <-] & H).
  assert (N4 : noOverrides s4) by (apply (noOverrides_config a); [congruence|done]).
  assert (N4' : noOverrides (Snapshot.setHead n k s4)) by (by apply (noOverrides_config s4)).
  rewrite N4 in H.
  rewrite (bind_eq getS _ _ _ _ eq_refl), (bind_eq _ _ _ _ _ (onVals_setHead _ n k _ _ _ E1)).
  rewrite (bind_eq _ _ _ _ _ (onVals_setHead _ n k _ _ _ E2)), (bind_eq getS _ _ _ _ eq_refl), Ep.
  rewrite (bind_eq _ _ _ _ _ (onVals_setHead _ n k _ _ _ E4)), (bind_eq getS _ _ _ _ eq_refl), N4'.
  destruct ((si =? -1) && negb false); [done|]. by injection H as <- <-.
Qed.

Lemma applyHeader_setHead w c b n k snap h (s s' : Bor C) snap' :
  noOverrides snap -> applyHeader keccak Ecrecover w c b snap h s = Done s' snap' ->
  applyHeader keccak Ecrecover w c b (Snapshot.setHead n k snap) h s = Done s' (Snapshot.setHead n k snap') /\
  sameHead snap snap'.
Proof.
  intros Ha H. unfold applyHeader in *.
  apply bind_Done in H as (s1 & num & E1 & H). rewrite (bind_eq _ _ _ _ _ E1).
  apply bind_Done in H as (s2 & sprint & E2 & H). rewrite (bind_eq _ _ _ _ _ E2).
  apply bind_Done in H as (s3 & who & E3 & H). rewrite (bind_eq _ _ _ _ _ E3).
  set (snap0 := if sprint <=? num then _ else snap) in H.
  set (snap0' := if sprint <=? num then _ else Snapshot.setHead n k snap).
  assert (E0 : snap0' = Snapshot.setHead n k snap0) by (unfold snap0, snap0'; by case_if).
  assert (H0 : sameHead snap snap0) by (unfold snap0; by case_if).
  assert (N0 : noOverrides snap0) by (by apply (noOverrides_config snap); [apply H0|]).
  apply bind_Done in H as (s4 & [] & E4 & H). apply failIf_Done in E4 as [E4 ->].
  rewrite E0. change (Snapshot.vals (Snapshot.setHead n k snap0)) with (Snapshot.vals snap0).
  change (Snapshot.isAllowedByValidatorSetOverride (Snapshot.setHead n k snap0) who num)
    with (Snapshot.isAllowedByValidatorSetOverride snap0 who num).
  rewrite E4. cbn [failIf]. rewrite (bind_eq (mret tt) _ s3 s3 tt eq_refl).
  apply bind_Done in H as (s5 & [snap1 x] & E5 & H). apply onValue_Done in E5 as [-> E5]. cbn [fst snd] in E5.
  pose proof (succession_sameHead _ _ _ _ E5) as H1.
  assert (Eo : onValue (C := C) id (Snapshot.GetSignerSuccessionNumber who) (Snapshot.setHead n k snap0) s3
               = Done s3 (Snapshot.setHead n k snap1, x)).
  { unfold onValue. by rewrite (succession_setHead who n k snap0 snap1 x N0 E5). }
  rewrite (bind_eq _ _ _ _ _ Eo).
  assert (H2 : sameHead snap snap1) by (unfold sameHead in *; naive_solver congruence).
  destruct (0 <? num); [|injection H as <- <-; by split].
  apply bind_Done in H as (s6 & e & E6 & H). rewrite (bind_eq _ _ _ _ _ E6).
  destruct e; [|injection H as <- <-; by split].
  apply bind_Done in H as (s7 & v & E7 & H). injection H as <- <-.
  split; [|done].
  assert (E7' : nextValidators w c h num (Snapshot.vals (Snapshot.setRecents
     (<[num := who]> (Snapshot.Recents (Snapshot.setHead n k snap1))) (Snapshot.setHead n k snap1))) s6 = Done s7 v)
    by exact E7.
  by rewrite (bind_eq _ _ _ _ _ E7').
Qed.

Lemma applyHeaders_setHead w c b n k headers snap (s s' : Bor C) snap' :
  noOverrides snap -> applyHeaders keccak Ecrecover w c b snap headers s = Done s' snap' ->
  applyHeaders keccak Ecrecover w c b (Snapshot.setHead n k snap) headers s =
    Done s' (Snapshot.setHead n k snap') /\ sameHead snap snap'.
Proof.
  revert snap s. induction headers as [|h headers IH]; intros snap s Ha H; cbn [applyHeaders] in *.
  - injection H as <- <-. by split.
  - apply bind_Done in H as (s1 & snap1 & E1 & H).
    destruct (applyHeader_setHead w c b n k _ _ _ _ _ Ha E1) as [E1' H1].
    rewrite (bind_eq _ _ _ _ _ E1').
    destruct (IH snap1 s1) as [E H2]; [|done|].
    { by apply (noOverrides_config snap); [apply H1|]. }
    split; [done|]. unfold sameHead in *. naive_solver congruence.
Qed.

(** ** Contiguous headers *)

Fixpoint contiguousNums (headers : list Header) : Prop :=
  match headers with
  | h :: ((h' :: _) as rest) => hdNum h' = u64 (hdNum h + 1) /\ contiguousNums rest
  | _ => True
  end.

Lemma contiguous_true headers (s : Bor C) :
  Forall (fun h => Number h <> None) headers -> contiguousNums headers ->
  contiguous headers s = Done s true.
Proof.
  induction headers as [|h [|h' rest] IH]; intros Hf Hc; [done..|].
  apply Forall_cons in Hf as [Hh Hf]. pose proof Hf as [Hh' _]%Forall_cons. destruct Hc as [E Hc].
  change (contiguous (h :: h' :: rest) s) with
    ((n ← numberOf (C := C) h; n' ← numberOf h';
      if n' =? u64 (n + 1) then contiguous (h' :: rest) else mret false) s).
  assert (En : forall x, Number x <> None -> numberOf (C := C) x s = Done s (hdNum x)).
  { intros x Hx. unfold numberOf, hdNum. by destruct (Number x). }
  rewrite (bind_eq _ _ _ _ _ (En h Hh)), (bind_eq _ _ _ _ _ (En h' Hh')), E, Z.eqb_refl. by apply IH.
Qed.

Lemma contiguousNums_app h1 h2 : contiguousNums (h1 ++ h2) -> contiguousNums h1 /\ contiguousNums h2.
Proof.
  induction h1 as [|h [|h' h1] IH]; intros H; [done|..].
  - split; [done|]. cbn in H. destruct h2; [done|apply H].
  - destruct H as [E H]. destruct (IH H) as [H1 H2]. by split; [split|].
Qed.

(** The first number after a contiguous run. *)
Lemma contiguousNums_next h0 h1 x h2 :
  contiguousNums ((h0 :: h1) ++ x :: h2) -> hdNum x = u64 (hdNum h0 + Z.of_nat (length (h0 :: h1))).
Proof.
  revert h0. induction h1 as [|h1' h1 IH]; intros h0 H; cbn [app] in H.
  - destruct H as [-> _]. f_equal.
  - destruct H as [E H]. rewrite (IH h1' H), E. unfold u64. rewrite Zplus_mod_idemp_l.
    f_equal. cbn [length]. lia.
Qed.

(** [apply] on headers that pass its first checks. *)
Lemma apply_unfold w s0 h0 rest hl c b (s : Bor C) :
  Forall (fun h => Number h <> None) (h0 :: rest) -> contiguousNums (h0 :: rest) ->
  hdNum h0 = u64 (Snapshot.Number s0 + 1) -> last (h0 :: rest) = Some hl ->
  Snapshot.chainConfig s0 = Some c -> ChainConfig.Bor c = Some b ->
  apply keccak Ecrecover w s0 (h0 :: rest) s =
  (snap ← applyHeaders keccak Ecrecover w c b (Snapshot.copy s0) (h0 :: rest);
   mret (Snapshot.setHead (u64 (Snapshot.Number snap + Z.of_nat (length (h0 :: rest)))) (hashOf hl) snap)) s.
Proof.
  intros Hf Hc Hn Hl Ec Eb. unfold apply. rewrite Hl.
  rewrite (bind_eq _ _ _ _ _ (contiguous_true _ s Hf Hc)). cbn [negb].
  apply Forall_cons in Hf as [Hh _].
  assert (En : numberOf (C := C) h0 s = Done s (hdNum h0)).
  { unfold numberOf, hdNum. by destruct (Number h0). }
  rewrite (bind_eq _ _ _ _ _ En), Hn, Z.eqb_refl. cbn [negb]. rewrite Ec. cbn [orPanic].
  rewrite (bind_eq (mret c) _ s s c eq_refl), Eb. cbn [orPanic]. by rewrite (bind_eq (mret b) _ s s b eq_refl).
Qed.

Lemma setHead_setHead n k n' k' snap :
  Snapshot.setHead n k (Snapshot.setHead n' k' snap) = Snapshot.setHead n k snap.
Proof. done. Qed.

Lemma setHead_same snap : Snapshot.setHead (Snapshot.Number snap) (Snapshot.Hash snap) snap = snap.
Proof. by destruct snap. Qed.

Lemma copy_selfIndexed snap : selfIndexed (Snapshot.vals snap) -> Snapshot.copy snap = snap.
Proof. intros H. unfold Snapshot.copy. rewrite Copy_selfIndexed by done. by destruct snap. Qed.

(** A run of headers in two parts, contiguous from the snapshot. *)
Record twoParts (s0 : Snapshot.Snapshot) (a : Header) (h1 : list Header) (x : Header) (h2 : list Header)
    (c : ChainConfig) (b : BorConfig) : Prop := mkTwoParts {
  parts_numbers : Forall (fun h => Number h <> None) ((a :: h1) ++ x :: h2);
  parts_contiguous : contiguousNums ((a :: h1) ++ x :: h2);
  parts_first : hdNum a = u64 (Snapshot.Number s0 + 1);
  parts_config : Snapshot.chainConfig s0 = Some c;
  parts_bor : ChainConfig.Bor c = Some b;
  parts_overrides : noOverrides s0
}.

(** The second part, from the snapshot after the first. *)
Lemma apply_second w s0 a h1 x h2 c b (s s1 : Bor C) mid0 l1 l2 :
  twoParts s0 a h1 x h2 c b -> last (x :: h2) = Some l2 ->
  applyHeaders keccak Ecrecover w c b (Snapshot.copy s0) (a :: h1) s = Done s1 mid0 ->
  let mid := Snapshot.setHead (u64 (Snapshot.Number mid0 + Z.of_nat (length (a :: h1)))) (hashOf l1) mid0 in
  apply keccak Ecrecover w mid (x :: h2) s1 =
  (snap ← applyHeaders keccak Ecrecover w c b mid (x :: h2);
   mret (Snapshot.setHead (u64 (Snapshot.Number snap + Z.of_nat (length (x :: h2)))) (hashOf l2) snap)) s1 /\
  noOverrides mid0 /\ Snapshot.Number mid0 = Snapshot.Number s0.
Proof.
  intros [Hf Hc Hn Ec Eb Hov] El2 E mid. pose proof (contiguousNums_next _ _ _ _ Hc) as Hx.
  pose proof Hf as [_ Hf2]%Forall_app. pose proof (contiguousNums_app _ _ Hc) as [_ Hc2].
  assert (Nc : noOverrides (Snapshot.copy s0)) by (by apply (noOverrides_config s0)).
  destruct (applyHeaders_setHead w c b 0 0 _ _ _ _ _ Nc E) as [_ (_ & Hm & Hcc)].
  cbn in Hm, Hcc. split; [|split; [by apply (noOverrides_config s0)|done]].
  rewrite (apply_unfold w mid x h2 l2 c b s1); try done.
  - rewrite (copy_selfIndexed mid); [done|]. by eapply applyHeaders_selfIndexed in E.
  - rewrite Hx, Hn. unfold mid, u64. cbn [Snapshot.setHead Snapshot.Number]. rewrite Hm.
    rewrite !Zplus_mod_idemp_l. f_equal. lia.
  - cbn. congruence.
Qed.

Lemma u64_parts m len1 len2 : u64 (u64 (m + len1) + len2) = u64 (m + (len1 + len2)).
Proof. unfold u64. rewrite Zplus_mod_idemp_l. f_equal. lia. Qed.

Lemma mret_Done {St E A} (a b : A) (s s' : St) :
  (mret a : st St E A) s = Done s' b -> s' = s /\ b = a.
Proof. by intros [= <- <-]. Qed.

Lemma last_cons_Some {A} (x : A) l : exists y, last (x :: l) = Some y.
Proof. destruct (last (x :: l)) eqn:E; [by eexists|]. by apply last_None in E. Qed.

End engine.

(** ** Properties *)

(** C22: applying a run of headers in one go, or stopping anywhere and going on from
    the snapshot reached there, succeeds for the same runs and gives the same
    snapshot and the same engine state: a checkpoint may be taken at any block.
    It needs a configuration without overrides of the validator set. *)
Theorem apply_resumes {C : Type -> Type} `{!Cache C} keccak Ecrecover w s0 a h1 x h2 c b (s s' : Bor C) snap :
  twoParts s0 a h1 x h2 c b ->
  apply keccak Ecrecover w s0 ((a :: h1) ++ x :: h2) s = Done s' snap <->
  exists s1 mid, apply keccak Ecrecover w s0 (a :: h1) s = Done s1 mid /\
                 apply keccak Ecrecover w mid (x :: h2) s1 = Done s' snap.
Proof.
  intros Hp. pose proof Hp as [Hf Hc Hn Ec Eb Hov].
  pose proof Hf as [Hf1 _]%Forall_app. pose proof (contiguousNums_app _ _ Hc) as [Hc1 _].
  destruct (last_cons_Some a h1) as [l1 El1], (last_cons_Some x h2) as [l2 El2].
  assert (El : last ((a :: h1) ++ x :: h2) = Some l2) by (by rewrite last_app, El2).
  pose proof (apply_unfold keccak Ecrecover w s0 a (h1 ++ x :: h2) l2 c b s Hf Hc Hn El Ec Eb) as Eall.
  pose proof (apply_unfold keccak Ecrecover w s0 a h1 l1 c b s Hf1 Hc1 Hn El1 Ec Eb) as Efirst.
  change (a :: h1 ++ x :: h2) with ((a :: h1) ++ x :: h2) in Eall. rewrite Eall, Efirst.
  rewrite length_app, Nat2Z.inj_add.
  pose proof (fun s1 mid0 => apply_second keccak Ecrecover w s0 a h1 x h2 c b s s1 mid0 l1 l2 Hp El2) as Hsecond.
  split.
  - intros H. apply bind_Done in H as (s2 & f & E & H). rewrite applyHeaders_app in E.
    apply bind_Done in E as (s1 & mid0 & E1 & E2). destruct (Hsecond s1 mid0 E1) as (Hap & Nm & Em).
    eexists s1, _. split; [rewrite (bind_eq _ _ _ _ _ E1); reflexivity|]. rewrite Hap.
    destruct (applyHeaders_setHead keccak Ecrecover w c b
                (u64 (Snapshot.Number mid0 + Z.of_nat (length (a :: h1)))) (Hash keccak l1) _ _ _ _ _ Nm E2)
      as [E2' (_ & Hfm & _)].
    rewrite (bind_eq _ _ _ _ _ E2'). apply mret_Done in H as [-> ->]. unfold mret, st_ret. f_equal.
    cbn [Snapshot.setHead Snapshot.Number]. by rewrite Hfm, u64_parts.
  - intros (s1 & mid & H1 & H2). apply bind_Done in H1 as (s1' & mid0 & E1 & H1).
    apply mret_Done in H1 as [-> ->]. destruct (Hsecond _ mid0 E1) as (Hap & Nm & Em). rewrite Hap in H2.
    apply bind_Done in H2 as (s2 & f & E2 & H2).
    assert (Nm' : noOverrides (Snapshot.setHead (u64 (Snapshot.Number mid0 + Z.of_nat (length (a :: h1))))
                    (Hash keccak l1) mid0)) by (by apply (noOverrides_config mid0)).
    destruct (applyHeaders_setHead keccak Ecrecover w c b (Snapshot.Number mid0) (Snapshot.Hash mid0)
                _ _ _ _ _ Nm' E2) as [E2' (_ & Hfm & _)].
    rewrite setHead_setHead, setHead_same in E2'.
    assert (E : applyHeaders keccak Ecrecover w c b (Snapshot.copy s0) ((a :: h1) ++ x :: h2) s =
                Done s2 (Snapshot.setHead (Snapshot.Number mid0) (Snapshot.Hash mid0) f)).
    { rewrite applyHeaders_app. by rewrite (bind_eq _ _ _ _ _ E1). }
    rewrite (bind_eq _ _ _ _ _ E). apply mret_Done in H2 as [-> ->]. unfold mret, st_ret. f_equal.
    cbn [Snapshot.setHead Snapshot.Number] in *. by rewrite Hfm, u64_parts.
Qed.

Lemma apply_resumes_witness :
  exists s1 mid s' snap,
    apply EngineDemo.demoKeccak EngineDemo.demoEcrecover (EngineDemo.demoWorld []) EngineDemo.demoSnap
      [EngineDemo.demoBlock1] EngineDemo.demoState = Done s1 mid /\
    apply EngineDemo.demoKeccak EngineDemo.demoEcrecover (EngineDemo.demoWorld []) mid
      [EngineDemo.demoBlock2] s1 = Done s' snap.
Proof.
  destruct (proj1 (apply_resumes EngineDemo.demoKeccak EngineDemo.demoEcrecover (EngineDemo.demoWorld [])
    EngineDemo.demoSnap EngineDemo.demoBlock1 [] EngineDemo.demoBlock2 [] (ConfigProps.demoChain 1000)
    ConfigProps.demoBor EngineDemo.demoState _ _ ltac:(split; [
      repeat constructor; discriminate
    | split; [vm_compute; reflexivity|exact I]
    | vm_compute; reflexivity
    | vm_compute; reflexivity
    | reflexivity
    | intros who n; vm_compute; reflexivity])) ltac:(vm_compute; reflexivity)) as (s1 & mid & H1 & H2).
  eexists s1, mid, _, _. split; [exact H1|exact H2].
Defined.

(** The small chain with an override: blocks 1 and 2 may also be signed by the
    owner of another seal. *)
Definition otherSeal : list Z := replicate 64 2 ++ [1].
Definition otherSigner : Z := EngineDemo.demoKeccak otherSeal.

Definition overrideBor : BorConfig :=
  let b := ConfigProps.demoBor in
  mkBorConfig (Period b) (ProducerDelay b) (Sprint b) (BackupMultiplier b) ∅ []
    [mkBlockRangeOverrideValidatorSet 1 2 [otherSigner]] (BurntContract b) None [] None None None None None
    None None (Some 0) (Some 0) (Some 0) (StateSyncConfirmationDelay b) (Some 0) (Some 0) None None None
    (Some 200) (Some 300) None None None None None None.

Definition overrideChain : ChainConfig :=
  mkChainConfig (Some 137) (Some 0) None false (Some 0) (Some 0) (Some 0) (Some 0) (Some 0)
    (Some 0) (Some 0) (Some 0) (Some 0) (Some 1000) None None None (Some 1000) None None
    None None (Some overrideBor) None.

Definition overrideSnap : Snapshot.Snapshot :=
  Snapshot.mkSnapshot (Some overrideChain) 0 (Snapshot.Hash EngineDemo.demoSnap) (Snapshot.vals EngineDemo.demoSnap) ∅.

Definition otherBlock2 : Header :=
  mkHeader (ParentHash EngineDemo.demoBlock2) 0 0 0 0 0 0 (Some 1) (Some 2) 30000000 0 1004
    (replicate 32 0 ++ otherSeal) 0 0 None None None None None None None false.

Definition demoApply := apply (C := gmap Z) EngineDemo.demoKeccak EngineDemo.demoEcrecover (EngineDemo.demoWorld []).

Definition resultOf {S E} (o : outcome S E Snapshot.Snapshot) : Snapshot.Snapshot :=
  match o with Done _ x => x | _ => overrideSnap end.

(** With an override of the validator set, what [apply] accepts depends on where
    it starts: the succession of a signer outside the set is checked against the
    number of the snapshot, not of the header.  A block signed under an override is
    refused when it is applied together with the block before it, and accepted from
    the snapshot of that block. *)
Theorem apply_override_depends_on_start :
  (exists s e, apply EngineDemo.demoKeccak EngineDemo.demoEcrecover (EngineDemo.demoWorld []) overrideSnap
     [EngineDemo.demoBlock1; otherBlock2] EngineDemo.demoState = Fail s (UnauthorizedSignerError e otherSigner)) /\
  (exists s1 mid s2 snap,
     apply EngineDemo.demoKeccak EngineDemo.demoEcrecover (EngineDemo.demoWorld []) overrideSnap
       [EngineDemo.demoBlock1] EngineDemo.demoState = Done s1 mid /\
     apply EngineDemo.demoKeccak EngineDemo.demoEcrecover (EngineDemo.demoWorld []) mid
       [otherBlock2] s1 = Done s2 snap).
Proof.
  split.
  - eexists _, _. vm_compute. reflexivity.
  - exists (EngineDemo.after (demoApply overrideSnap [EngineDemo.demoBlock1] EngineDemo.demoState) EngineDemo.demoState).
    exists (resultOf (demoApply overrideSnap [EngineDemo.demoBlock1] EngineDemo.demoState)).
    eexists _, _. split; vm_compute; reflexivity.
Qed.

End EngineApply.
