(* ===== verification/StateSync.v ===== *)
(** * State sync and span commits (consensus/bor/bor.go)

    At the first block of a sprint the engine commits to the state the events that
    Heimdall has recorded, in the order of their ids and within budgets of bytes and
    gas, and before Rio the next span.  From Madhugiri on the events are a
    transaction at the end of the block. *)

From stdpp Require Import pretty.
From S2P Require Import Prelude Bytes Valset ValsetBytes ChainConfig Header Eip1559 BorTypes.
From S2P Require Import SpanStore Snapshot Seal Engine.

Module StateSync.
Import Valset ValsetBytes ChainConfig Header BorTypes SpanStore Engine.

(** ** Data *)

(** [clerk.EventRecordWithTime]; the time is in nanoseconds. *)
Record EventRecordWithTime := mkEventRecord {
  erID : Z;
  erContract : Z;
  erData : list Z;
  erTxHash : Z;
  erLogIndex : Z;
  erChainID : string;
  erTime : Z
}.

Record StateSyncData := mkStateSyncData {
  ssID : Z;
  ssContract : Z;
  ssData : list Z;
  ssTxHash : Z
}.

Definition MaxStateSyncBytesPerBlock : Z := 2 ^ 20.
Definition MaxStateSyncGasPerBlock : Z := 30000000.

(** ** Checks on records *)

(** [to] is in seconds. *)
Definition validateEventRecord (r : EventRecordWithTime) (to lastStateID : Z) (chainID : string) : bool :=
  (u64 (lastStateID + 1) =? erID r) && String.eqb (erChainID r) chainID && (erTime r <? to * 10 ^ 9).

Definition stateSyncBudgetExceeded (enforce : bool) (includedBytes recordSize : Z) : bool :=
  if negb enforce then false
  else MaxStateSyncBytesPerBlock <? u64 (includedBytes + recordSize).

Definition toStateSyncData (r : EventRecordWithTime) : StateSyncData :=
  mkStateSyncData (erID r) (erContract r) (erData r) (erTxHash r).

(** [l[0:n]]; out of range panics. *)
Definition slice0 {A} (l : list A) (n : Z) : option (list A) :=
  if (n <? 0) || (Z.of_nat (length l) <? n) then None else Some (take (Z.to_nat n) l).

Section statesync.
(** The state of the block, and what runs on it: the call of the state receiver
    contract with its preparation (the gas used, [None] for an error). *)
Context {ES : Type}.
Variable CommitState : EventRecordWithTime -> Header -> ES -> option (ES * Z).

(** What the call asks: the last committed id, Heimdall's events from an id up to a
    time, the chain. *)
Record SyncWorld := mkSyncWorld {
  LastStateId : option ES -> Z -> Z -> option Z;
  StateSyncEvents : Z -> Z -> option (list EventRecordWithTime);
  chainHeader : Z -> option Header
}.

(** ** Committing events *)

Fixpoint commitLoop (c : BorConfig) (header : Header) (chainID : string) (to : Z)
    (records : list EventRecordWithTime) (lastStateID totalGas stateSyncBytes : Z)
    (stateSyncs : list StateSyncData) : st ES bor_error (list StateSyncData) :=
  match records with
  | [] => mret stateSyncs
  | eventRecord :: records' =>
      if erID eventRecord <=? lastStateID then
        commitLoop c header chainID to records' lastStateID totalGas stateSyncBytes stateSyncs
      else if negb (validateEventRecord eventRecord to lastStateID chainID) then mret stateSyncs
      else
        let recordSize := Z.of_nat (length (erData eventRecord)) in
        if (0 <? length stateSyncs)%nat &&
           stateSyncBudgetExceeded (IsValencia c (Number header)) stateSyncBytes recordSize
        then mret stateSyncs
        else if IsAustin c (Number header) && (MaxStateSyncGasPerBlock <=? totalGas)
        then mret stateSyncs
        else
          es ← getS;
          match CommitState eventRecord header es with
          | None => failS errContractCall
          | Some (es', gasUsed) =>
              putS es';;
              commitLoop c header chainID to records' (u64 (lastStateID + 1)) (u64 (totalGas + gasUsed))
                (u64 (stateSyncBytes + recordSize)) (stateSyncs ++ [toStateSyncData eventRecord])
          end
  end.

(** The last committed id and the time up to which events are taken. *)
Definition syncWindow (w : SyncWorld) (c : BorConfig) (header : Header) (number : Z)
  : st ES bor_error (Z * Z) :=
  if IsIndore c (Number header) then
    es ← getS;
    match LastStateId w (Some es) (u64 (number - 1)) (ParentHash header) with
    | None => failS errContractCall
    | Some lastStateID =>
        delay ← orPanic "bad configuration" (CalculateStateSyncDelay c number);
        mret (u64 (Z.abs lastStateID), i64 (u64 (Time header - delay)))
    end
  else
    match LastStateId w None (u64 (number - 1)) (ParentHash header) with
    | None => failS errContractCall
    | Some lastStateID =>
        sprint ← orPanic "bad configuration" (CalculateSprint c number);
        past ← orPanic "nil pointer dereference" (chainHeader w (u64 (number - sprint)));
        mret (u64 (Z.abs lastStateID), i64 (Time past))
    end.

(** The configured truncations of the records. *)
Definition overrideRecords (c : BorConfig) (number : Z) (records : list EventRecordWithTime)
  : option (list EventRecordWithTime) :=
  records ← match OverrideStateSyncRecords c !! pretty (Z.to_N number) with
            | Some val => slice0 records val
            | None => Some records
            end;
  match GetOverrideStateSyncRecord c number with
  | Some val => slice0 records val
  | None => Some records
  end.

(** A failed fetch commits nothing and is not an error. *)
Definition CommitStates (w : SyncWorld) (c : BorConfig) (chainID : string) (header : Header)
  : st ES bor_error (list StateSyncData) :=
  number ← orPanic "nil pointer dereference" ((fun n => u64 (Z.abs n)) <$> Number header);
  if bool_decide (GetOverrideStateSyncRecord c number = Some 0) then mret [] else
  '(lastStateID, to) ← syncWindow w c header number;
  match StateSyncEvents w (u64 (lastStateID + 1)) to with
  | None => mret []
  | Some eventRecords =>
      eventRecords ← orPanic "slice bounds out of range" (overrideRecords c number eventRecords);
      commitLoop c header chainID to eventRecords lastStateID 0 0 []
  end.

End statesync.

(** ** Span commits *)

(** [EndBlock] 0 is a contract that has no span yet. *)
Definition needToCommitSpan (c : BorConfig) (currentSpan : option Span) (headerNumber : Z) : option bool :=
  match currentSpan with
  | None => Some false
  | Some sp =>
      if SpanEnd sp =? 0 then Some true else
      sprintLength ← CalculateSprint c headerNumber;
      Some ((sprintLength <? SpanEnd sp) && (u64 (SpanEnd sp - sprintLength + 1) =? headerNumber) &&
            negb (SpanId sp =? 0))
  end.

Section spans.
Context {C : Type -> Type} `{!Cache C} {ES : Type}.
Variable keccak : list Z -> Z.
Variable Ecrecover : list Z -> list Z -> option (list Z).
Variable cfg : Settings.
(** The validator set contract: its current span, and the commit of a new one. *)
Variable GetCurrentSpan : Z -> ES -> option (option Span).
Variable CommitSpan : Z * Z * Z -> list MinimalValT -> list MinimalValT -> Header -> ES -> option ES.

Abbreviation eng := (st (Bor C) bor_error).

(** The next span of a chain without Heimdall. *)
Definition getNextHeimdallSpanForTest (w : World) (newSpanID : Z) (header : Header) (es : ES)
    (chainID : string) : eng Span :=
  headerNumber ← numberOf header;
  match GetCurrentSpan (ParentHash header) es with
  | None => failS errContractCall
  | Some sp =>
      sp ← orPanic "nil pointer dereference" sp;
      snap ← snapshot keccak Ecrecover cfg w header [] false;
      sprint ← calcSprint cfg headerNumber;
      let start := if SpanEnd sp =? 0 then 256 else u64 (SpanEnd sp + 1) in
      let vs := Validators (Snapshot.vals snap) in
      mret (mkSpan newSpanID start (u64 (start + u64 (100 * sprint) - 1)) vs vs
              (Proposer (Snapshot.vals snap)) chainID)
  end.

Definition FetchAndCommitSpan (w : World) (newSpanID : Z) (header : Header) (chainID : string) (es : ES)
  : eng ES :=
  sp ← (match heimdallClient (heimdall w) with
        | None => getNextHeimdallSpanForTest w newSpanID header es chainID
        | Some _ => onSpans (spanById (heimdall w) newSpanID)
        end);
  failIf (negb (String.eqb (BorChainId sp) chainID)) errChainID;;
  match CommitSpan (SpanId sp, SpanStart sp, SpanEnd sp) (ValidatorsToMinimalValidators (SpanValidators sp))
          (ValidatorsToMinimalValidators (SelectedProducers sp)) header es with
  | None => failS errContractCall
  | Some es' => mret es'
  end.

Definition checkAndCommitSpan (w : World) (header : Header) (chainID : string) (es : ES) : eng ES :=
  headerNumber ← numberOf header;
  match GetCurrentSpan (ParentHash header) es with
  | None => failS errContractCall
  | Some sp =>
      need ← orPanic "bad configuration" (needToCommitSpan (config cfg) sp headerNumber);
      match sp with
      | Some sp => if need : bool then FetchAndCommitSpan w (u64 (SpanId sp + 1)) header chainID es else mret es
      | None => mret es
      end
  end.

End spans.

End StateSync.
