(* ===== verification/StateSyncProps.v ===== *)
(** * Properties of state sync

    The events that are committed are consecutive, belong to the chain and to the
    window, and stay within the budgets; a block the node assembles passes its own
    finalization. *)

From S2P Require Import Prelude Bytes Valset ValsetBytes ChainConfig ConfigProps Header HeaderProps.
From S2P Require Import Eip1559 BorTypes SpanStore Snapshot Seal Engine StateSync.

Module StateSyncProps.
Import ChainConfig Header BorTypes StateSync.

Section statesync.
Context {ES : Type}.
Variable CommitState : EventRecordWithTime -> Header -> ES -> option (ES * Z).
Variables (c : BorConfig) (header : Header) (chainID : string) (to : Z).

(** ** Runs of records *)

(** Committing records one after the other: the state and the gas used. *)
Fixpoint commitAll (rs : list EventRecordWithTime) (es : ES) : option (ES * Z) :=
  match rs with
  | [] => Some (es, 0)
  | r :: rs' =>
      '(es1, g) ← CommitState r header es;
      '(es2, g') ← commitAll rs' es1;
      Some (es2, g + g')
  end.

Lemma commitAll_app rs rs' es :
  commitAll (rs ++ rs') es =
  ('(es1, g) ← commitAll rs es; '(es2, g') ← commitAll rs' es1; Some (es2, g + g')).
Proof.
  revert es. induction rs as [|r rs IH]; intros es; cbn [app commitAll].
  - cbn. by destruct (commitAll rs' es) as [[? ?]|].
  - destruct (CommitState r header es) as [[es1 g]|]; [|done]. cbn. rewrite IH.
    destruct (commitAll rs es1) as [[es2 g2]|]; [|done]. cbn.
    destruct (commitAll rs' es2) as [[es3 g3]|]; [|done]. cbn. do 2 f_equal. lia.
Qed.

Definition sizes (rs : list EventRecordWithTime) : Z :=
  fold_right (fun r acc => Z.of_nat (length (erData r)) + acc) 0 rs.

Lemma sizes_app rs rs' : sizes (rs ++ rs') = sizes rs + sizes rs'.
Proof. induction rs as [|r rs IH]; cbn; [done|]. unfold sizes in *. rewrite IH. lia. Qed.

Lemma sizes_nonneg rs : 0 <= sizes rs.
Proof. induction rs as [|r rs IH]; cbn; [lia|]. unfold sizes in *. lia. Qed.

(** Consecutive records after an id, of this chain and window. *)
Definition inOrder (last : Z) (rs : list EventRecordWithTime) : Prop :=
  forall i r, rs !! i = Some r ->
    erID r = last + 1 + Z.of_nat i /\ erChainID r = chainID /\ erTime r < to * 10 ^ 9.

Lemma inOrder_snoc last rs r :
  inOrder last rs -> erID r = last + Z.of_nat (length rs) + 1 -> erChainID r = chainID ->
  erTime r < to * 10 ^ 9 -> inOrder last (rs ++ [r]).
Proof.
  intros H Hid Hc Ht i r' Hi. apply lookup_app_Some in Hi as [Hi|[Hge Hi]]; [by apply H|].
  destruct (i - length rs)%nat eqn:E; [|done]. injection Hi as <-.
  assert (i = length rs) as -> by lia. split_and!; [lia|done|done].
Qed.

(** The budgets, for what is committed in one block: past the first record the
    bytes fit, and the last record starts below the gas threshold. *)
Definition withinBudgets (es : ES) (rs : list EventRecordWithTime) : Prop :=
  (IsValencia c (Number header) = true -> (length rs <= 1)%nat \/ sizes rs <= MaxStateSyncBytesPerBlock) /\
  (IsAustin c (Number header) = true -> forall rs' r es' g, rs = rs' ++ [r] ->
     commitAll rs' es = Some (es', g) -> g < MaxStateSyncGasPerBlock).

(** The gas of one call is a [uint64] far from wrapping. *)
Definition smallGas : Prop :=
  forall r es es' g, CommitState r header es = Some (es', g) -> 0 <= g < 2 ^ 63.

(** What the loop has done so far: [inc] is committed, starting from [es0] and
    [last0]. *)
Record committed (es0 : ES) (last0 : Z) (inc : list EventRecordWithTime) (es : ES) (gas : Z) : Prop :=
  mkCommitted {
  com_order : inOrder last0 inc;
  com_run : commitAll inc es0 = Some (es, gas);
  com_budget : withinBudgets es0 inc
}.

Lemma committed_snoc es0 last0 inc es gas r es' g :
  committed es0 last0 inc es gas -> smallGas -> CommitState r header es = Some (es', g) ->
  erID r = last0 + Z.of_nat (length inc) + 1 -> erChainID r = chainID -> erTime r < to * 10 ^ 9 ->
  (IsValencia c (Number header) = true -> inc = [] \/
     sizes inc + Z.of_nat (length (erData r)) <= MaxStateSyncBytesPerBlock) ->
  (IsAustin c (Number header) = true -> gas < MaxStateSyncGasPerBlock) ->
  committed es0 last0 (inc ++ [r]) es' (gas + g).
Proof.
  intros [Ho Hr Hb] Hg Hc Hid Hch Ht Hv Ha. split.
  - by apply inOrder_snoc.
  - rewrite commitAll_app, Hr. cbn. rewrite Hc. cbn. do 2 f_equal. lia.
  - split.
    + intros HV. destruct (Hv HV) as [->|Hs]; [left; cbn; lia|right].
      rewrite sizes_app. cbn. lia.
    + intros HA rs' r' es1 g1 E Hrun. apply app_inj_2 in E as [-> E]; [|done].
      rewrite Hr in Hrun. injection Hrun as _ <-. by apply Ha.
Qed.

Lemma commitLoop_spec es0 last0 records inc es gas tg es' out :
  smallGas -> committed es0 last0 inc es gas -> 0 <= last0 -> 0 <= gas ->
  (IsAustin c (Number header) = true -> tg = gas) ->
  last0 + Z.of_nat (length inc) + Z.of_nat (length records) <= MaxUint64 ->
  sizes inc + sizes records <= MaxUint64 ->
  commitLoop CommitState c header chainID to records (last0 + Z.of_nat (length inc)) tg (sizes inc)
    (map toStateSyncData inc) es = Done es' out ->
  exists more gas', out = map toStateSyncData (inc ++ more) /\
    committed es0 last0 (inc ++ more) es' gas' /\ more `sublist_of` records.
Proof.
  intros Hgas. revert inc es gas tg.
  induction records as [|r records IH]; intros inc es gas tg Hcom Hl0 Hg0 Htg Hids Hsz H; cbn [commitLoop] in H.
  { injection H as <- <-. exists [], gas. by rewrite app_nil_r. }
  assert (Hstop : (mret (map toStateSyncData inc) : st ES bor_error _) es = Done es' out ->
    exists more gas', out = map toStateSyncData (inc ++ more) /\
      committed es0 last0 (inc ++ more) es' gas' /\ more `sublist_of` (r :: records)).
  { intros [= <- <-]. exists [], gas. rewrite app_nil_r. split_and!; [done|done|apply sublist_nil_l]. }
  cbn [length] in Hids. assert (Hsz' : sizes inc + (Z.of_nat (length (erData r)) + sizes records) <= MaxUint64) by exact Hsz.
  pose proof (sizes_nonneg records). pose proof (sizes_nonneg inc).
  destruct (Z.leb_spec (erID r) (last0 + Z.of_nat (length inc))).
  { destruct (IH inc es gas tg Hcom Hl0 Hg0 Htg ltac:(lia) ltac:(lia) H) as (more & gas' & ? & ? & ?).
    exists more, gas'. split_and!; [done|done|by apply sublist_cons]. }
  destruct (validateEventRecord r to _ chainID) eqn:Ev; cbn [negb] in H; [|by apply Hstop].
  unfold validateEventRecord in Ev. rewrite u64_small in Ev by wsolve.
  apply andb_true_iff in Ev as [Ev Htime]. apply andb_true_iff in Ev as [Hid Hchain].
  apply Z.eqb_eq in Hid. apply String.eqb_eq in Hchain. apply Z.ltb_lt in Htime. rewrite length_map in H.
  destruct ((0 <? length inc)%nat && _) eqn:Eb; [by apply Hstop|].
  destruct (IsAustin c (Number header) && _) eqn:Ea; [by apply Hstop|].
  apply bind_Done in H as (es1 & es2 & [= <- <-] & H).
  destruct (CommitState r header es) as [[es1 g]|] eqn:Ec; [|done].
  apply bind_Done in H as (es2 & [] & [= <-] & H).
  pose proof (Hgas _ _ _ _ Ec) as Hg.
  assert (Hv : IsValencia c (Number header) = true -> inc = [] \/
     sizes inc + Z.of_nat (length (erData r)) <= MaxStateSyncBytesPerBlock).
  { intros HV. destruct inc as [|r0 inc0]; [by left|right]. rewrite HV in Eb. cbn [length Nat.ltb Nat.leb andb] in Eb.
    unfold stateSyncBudgetExceeded in Eb. cbn [negb andb] in Eb. rewrite u64_small in Eb by wsolve.
    by bool_to_prop. }
  assert (Ha : IsAustin c (Number header) = true -> gas < MaxStateSyncGasPerBlock).
  { intros HA. rewrite HA, (Htg HA) in Ea. cbn in Ea. by bool_to_prop. }
  pose proof (committed_snoc es0 last0 inc es gas r es1 g Hcom Hgas Ec ltac:(lia) Hchain Htime Hv Ha) as Hcom'.
  destruct (IH (inc ++ [r]) es1 (gas + g) (u64 (tg + g)) Hcom' Hl0 ltac:(lia)) as (more & gas' & E1 & E2 & E3).
  - intros HA. rewrite (Htg HA). specialize (Ha HA). unfold MaxStateSyncGasPerBlock in Ha.
    apply u64_small. wsolve.
  - rewrite length_app. cbn. lia.
  - rewrite sizes_app. cbn. lia.
  - rewrite map_app, sizes_app, length_app. cbn [map length sizes fold_right].
    replace (last0 + Z.of_nat (length inc + 1)) with (last0 + Z.of_nat (length inc) + 1) by lia.
    rewrite (u64_small (last0 + _ + 1)), (u64_small (sizes inc + _)) in H by wsolve.
    rewrite Z.add_0_r. exact H.
  - exists (r :: more), gas'. rewrite <- app_assoc in E1, E2. split_and!; [done|done|by apply sublist_skip].
Qed.

(** The first pending record is committed whatever its size. *)
Lemma commitLoop_first last r records es es1 g es' out :
  erID r = last + 1 -> 0 <= last < MaxUint64 -> erChainID r = chainID -> erTime r < to * 10 ^ 9 ->
  CommitState r header es = Some (es1, g) ->
  commitLoop CommitState c header chainID to (r :: records) last 0 0 [] es = Done es' out ->
  exists rest, out = toStateSyncData r :: rest.
Proof.
  intros Hid Hl Hch Ht Hc H. cbn [commitLoop] in H. rewrite (proj2 (Z.leb_gt _ _)) in H by lia.
  assert (Ev : validateEventRecord r to last chainID = true).
  { unfold validateEventRecord. rewrite u64_small, Hid, Z.eqb_refl, Hch, String.eqb_refl by wsolve.
    by apply Z.ltb_lt. }
  rewrite Ev in H. cbn [negb length Nat.ltb Nat.leb andb] in H.
  rewrite andb_false_r in H. apply bind_Done in H as (e1 & e2 & [= <- <-] & H). rewrite Hc in H.
  apply bind_Done in H as (e3 & [] & [= <-] & H).
  assert (Hmono : forall rs l t b acc e e' o,
    commitLoop CommitState c header chainID to rs l t b acc e = Done e' o -> exists more, o = acc ++ more).
  { clear. induction rs as [|x rs IH]; intros l t b acc e e' o H; cbn [commitLoop] in H.
    - injection H as _ <-. exists []. by rewrite app_nil_r.
    - assert (Hstop : (mret acc : st ES bor_error _) e = Done e' o -> exists more, o = acc ++ more).
      { intros [= _ <-]. exists []. by rewrite app_nil_r. }
      destruct (erID x <=? l); [by eapply IH|]. destruct (negb _); [by apply Hstop|].
      destruct (_ && _)%bool; [by apply Hstop|]. destruct (_ && _)%bool; [by apply Hstop|].
      apply bind_Done in H as (e1 & e2 & _ & H). destruct (CommitState x header e2) as [[e3 g]|]; [|done].
      apply bind_Done in H as (e4 & [] & _ & H). apply IH in H as [more ->].
      exists (toStateSyncData x :: more). by rewrite <- app_assoc. }
  apply Hmono in H as [more ->]. by exists more.
Qed.

End statesync.

(** ** A concrete state: the ids committed *)

Definition demoCommit (r : EventRecordWithTime) (header : Header) (es : list Z) : option (list Z * Z) :=
  Some (es ++ [erID r], 50000).

Definition demoRecord (id : Z) : EventRecordWithTime :=
  mkEventRecord id 4096 [1; 2; 3] (1000 + id) 0 "137" 1000000000.

Definition demoSync : SyncWorld (ES := list Z) :=
  mkSyncWorld (fun _ _ _ => Some 6) (fun from to => Some [demoRecord 6; demoRecord 7; demoRecord 8; demoRecord 10])
    (fun _ => None).

Definition demoSyncHeader : Header := HeaderProps.demoHeader 64 5000 [].

(** ** Properties *)

(** C23: the events a block commits are consecutive from the last committed id, of
    this chain and before the end of the window, and they are what the state is
    run on, in their order; past the first one they stay within the byte budget,
    and no event starts above the gas threshold.  The first pending event is
    committed whatever its size. *)
Theorem CommitStates_in_order {ES : Type} CommitState (w : SyncWorld (ES := ES)) c chainID header n
    (es es' : ES) lastStateID to fetched records data :
  smallGas CommitState header -> Number header = Some n -> 0 <= n <= MaxUint64 ->
  GetOverrideStateSyncRecord c n <> Some 0 ->
  syncWindow w c header n es = Done es (lastStateID, to) -> 0 <= lastStateID < MaxUint64 ->
  StateSyncEvents w (lastStateID + 1) to = Some fetched -> overrideRecords c n fetched = Some records ->
  lastStateID + Z.of_nat (length records) <= MaxUint64 -> sizes records <= MaxUint64 ->
  CommitStates CommitState w c chainID header es = Done es' data ->
  (exists inc gas, data = map toStateSyncData inc /\ inc `sublist_of` records /\
     committed CommitState c header chainID to es lastStateID inc es' gas) /\
  (forall r rest es1 g, records = r :: rest -> erID r = lastStateID + 1 -> erChainID r = chainID ->
     erTime r < to * 10 ^ 9 -> CommitState r header es = Some (es1, g) -> data <> []).
Proof.
  intros Hg En Hn Hov Hwin Hl Hfetch Hrec Hids Hsz H. unfold CommitStates in H. rewrite En in H.
  cbn [fmap option_fmap option_map] in H. rewrite Z.abs_eq, u64_small in H by wsolve.
  apply bind_Done in H as (e1 & num & [= <- <-] & H).
  rewrite bool_decide_eq_false_2 in H by done.
  apply bind_Done in H as (e1 & x & E & H). rewrite Hwin in E. injection E as <- <-.
  rewrite u64_small in H by wsolve. rewrite Hfetch, Hrec in H.
  apply bind_Done in H as (e1 & rs & [= <- <-] & H). split.
  - destruct (commitLoop_spec CommitState c header chainID to es lastStateID records [] es 0 0 es' data Hg)
      as (more & gas & E1 & E2 & E3); cbn [length sizes fold_right map app]; try lia; try done.
    + split; [intros i r Hi; by rewrite lookup_nil in Hi|done|].
      split; [intros _; left; cbn; lia|]. intros _ rs' r e1 g1 E. by destruct rs'.
    + by rewrite Z.add_0_r.
    + by exists more, gas.
  - intros r rest es1 g -> Hid Hch Ht Hc ->.
    by destruct (commitLoop_first CommitState c header chainID to _ r rest es es1 g es' [] Hid Hl Hch Ht Hc H).
Qed.

Lemma CommitStates_in_order_witness :
  exists inc gas, length inc = 2%nat /\
    committed demoCommit ConfigProps.demoBor demoSyncHeader "137" 4872 [6] 6 inc [6; 7; 8] gas.
Proof.
  destruct (CommitStates_in_order demoCommit demoSync ConfigProps.demoBor "137" demoSyncHeader 64 [6] [6; 7; 8]
    6 4872 [demoRecord 6; demoRecord 7; demoRecord 8; demoRecord 10]
    [demoRecord 6; demoRecord 7; demoRecord 8; demoRecord 10]
    [toStateSyncData (demoRecord 7); toStateSyncData (demoRecord 8)]) as [(inc & gas & E & _ & H) _].
  - intros r es es' g [= <- <-]. lia.
  - reflexivity.
  - vm_compute. split; discriminate.
  - vm_compute. discriminate.
  - vm_compute. reflexivity.
  - vm_compute. split; [discriminate|reflexivity].
  - reflexivity.
  - vm_compute. reflexivity.
  - vm_compute. discriminate.
  - vm_compute. discriminate.
  - vm_compute. reflexivity.
  - exists inc, gas. split; [|exact H]. apply (f_equal length) in E. rewrite length_map in E. symmetry. exact E.
Defined.

End StateSyncProps.
