(* ===== verification/Finalize.v ===== *)
(** * Finalization and assembly of blocks (consensus/bor/bor.go)

    After the transactions of a block the engine commits the span and the events of
    Heimdall at the start of a sprint, changes the code of system contracts at
    configured blocks, and from Madhugiri on checks or appends the state-sync
    transaction. *)

From stdpp Require Import pretty.
From S2P Require Import Prelude Bytes Valset ChainConfig Header BorTypes Snapshot Seal Engine.
From S2P Require Import StateSync.

Module Finalize.
Import ChainConfig Header BorTypes StateSync.

(** ** Data *)

Record Log := mkLog { logIndex : Z; logTxIndex : Z }.

Record Receipt := mkReceipt {
  rType : Z;
  rStatus : Z;
  CumulativeGasUsed : Z;
  Logs : list Log;
  rTxHash : Z;
  rGasUsed : Z;
  rBlockNumber : option Z;
  TransactionIndex : Z
}.

Record Transaction := mkTransaction { txType : Z; txHash : Z }.

Definition StateSyncTxType : Z := 127.

Record Body := mkBody {
  Transactions : list Transaction;
  Withdrawals : option unit
}.

(** An account of a genesis allocation. *)
Record Account := mkAccount { Code : list Z; Balance : Z }.

(** What is read and written of the state of a block ([vm.StateDB]). *)
Record StateDB (ES : Type) := mkStateDB {
  SetCode : Z -> list Z -> ES -> ES;
  GetBalance : Z -> ES -> Z;
  SetBalance : Z -> Z -> ES -> ES;
  stateLogs : ES -> list Log;
  IntermediateRoot : bool -> ES -> Z
}.
Arguments SetCode {ES}.
Arguments GetBalance {ES}.
Arguments SetBalance {ES}.
Arguments stateLogs {ES}.
Arguments IntermediateRoot {ES}.

(** The state of the block, and the events the chain was handed for it. *)
Record ChainState (ES : Type) := mkChainState { blockState : ES; stateSyncSlot : list StateSyncData }.
Arguments mkChainState {ES}.
Arguments blockState {ES}.
Arguments stateSyncSlot {ES}.

(** A failed event is a processing error in [Finalize] and is passed on as it is when a
    block is assembled. *)
Inductive finalize_error :=
| ErrUnexpectedWithdrawals
| ErrUnexpectedRequests
| FinSpan (e : bor_error)
| FinStates (e : bor_error)
| FinContractCode
| FinStateSyncMissing
| FinStateSyncMismatch.

(** ** The state-sync receipt *)

Definition logLe (a b : Log) : Prop := logIndex a <= logIndex b.

#[export] Instance logLe_dec : RelDecision logLe.
Proof. intros a b. unfold logLe. apply _. Defined.

Definition countLogsFromReceipts (receipts : list Receipt) : nat :=
  fold_left (fun total r => total + length (Logs r))%nat receipts 0%nat.

Section finalize.
Context {ES : Type}.
Variable db : StateDB ES.
Variable CommitState : EventRecordWithTime -> Header -> ES -> option (ES * Z).
(** [checkAndCommitSpan] on a header. *)
Variable commitSpan : Header -> st ES bor_error unit.
(** The hash of the transaction made of the events. *)
Variable stateSyncTxHash : list StateSyncData -> Z.
(** [c.config.BlockAlloc], with [decodeGenesisAlloc] applied to its values ([None] is an
    error), in the order the accounts are visited. *)
Variable BlockAlloc : gmap string (option (list (Z * Account))).
Variable chainConfig : ChainConfig.
Variable c : BorConfig.
Variable chainID : string.
Variable hasHeimdall : bool.

Abbreviation fin := (st (ChainState ES) finalize_error).

(** Run a step of the block's state. *)
Definition onState {A} (m : st ES finalize_error A) : fin A :=
  fun s => match m (blockState s) with
           | Done es a => Done (mkChainState es (stateSyncSlot s)) a
           | Fail es e => Fail (mkChainState es (stateSyncSlot s)) e
           | Panicked w => Panicked w
           end.

Definition SetStateSync (data : list StateSyncData) : fin unit :=
  modify (fun s => mkChainState (blockState s) data).

(** [header.Number.Uint64()]. *)
Definition headerNumber (header : Header) : fin Z :=
  orPanic "nil pointer dereference" ((fun n => u64 (Z.abs n)) <$> Number header).

(** [None] is a panic: the receipts have more logs than the state. *)
Definition insertStateSyncTransactionAndCalculateReceipt (hash : Z) (header : Header) (body : Body)
    (es : ES) (receipts : list Receipt) : option (list Receipt) :=
  let allLogs := merge_sort logLe (stateLogs db es) in
  let n := countLogsFromReceipts receipts in
  if (length allLogs <? n)%nat then None else
  let txIndex := Z.of_nat (length (Transactions body)) - 1 in
  let stateSyncLogs := map (fun l => mkLog (logIndex l) txIndex) (drop n allLogs) in
  let cumulativeGasUsed := match last receipts with Some r => CumulativeGasUsed r | None => 0 end in
  Some (receipts ++ [mkReceipt StateSyncTxType 1 cumulativeGasUsed stateSyncLogs hash 0
                       (Number header) txIndex]).

(** ** Contract code *)

(** [uint256.MustFromBig]. *)
Definition changeAccount (account : Z * Account) : st ES finalize_error unit :=
  let '(addr, a) := account in
  modify (SetCode db addr (Code a));;
  es ← getS;
  if GetBalance db addr es =? 0 then
    if 2 ^ 256 <=? Z.abs (Balance a) then panic "overflow"
    else modify (SetBalance db addr (Balance a mod 2 ^ 256))
  else mret tt.

Fixpoint changeAccounts (allocs : list (Z * Account)) : st ES finalize_error unit :=
  match allocs with
  | [] => mret tt
  | a :: allocs' => changeAccount a;; changeAccounts allocs'
  end.

Definition changeContractCodeIfNeeded (number : Z) : st ES finalize_error unit :=
  match BlockAlloc !! pretty (Z.to_N number) with
  | None => mret tt
  | Some None => failS FinContractCode
  | Some (Some allocs) => changeAccounts allocs
  end.

(** ** The steps at the end of a block *)

Definition commitSprintWork (w : SyncWorld (ES := ES)) (header : Header)
  : st ES finalize_error (list StateSyncData) :=
  (if negb (IsRio c (Number header)) then mapErr FinSpan (commitSpan header) else mret tt);;
  if hasHeimdall then mapErr FinStates (CommitStates CommitState w c chainID header) else mret [].

(** The part [Finalize], [finalizeAndAssemble] and [FinalizeForPipeline] share. *)
Definition endOfBlock (w : SyncWorld (ES := ES)) (skip : bool) (header : Header) (number : Z)
  : fin (list StateSyncData) :=
  start ← (if skip then mret false
           else sprint ← orPanic "bad configuration" (CalculateSprint c number);
                orPanic "division by zero" (Seal.sprintStart number sprint));
  stateSyncData ← (if start : bool then onState (commitSprintWork w header) else mret []);
  onState (changeContractCodeIfNeeded number);;
  mret stateSyncData.

Definition rejectUnexpected (header : Header) (body : Body) : fin unit :=
  failIf (negb (bool_decide (Withdrawals body = None)) || negb (bool_decide (WithdrawalsHash header = None)))
    ErrUnexpectedWithdrawals;;
  failIf (negb (bool_decide (RequestsHash header = None))) ErrUnexpectedRequests.

(** [isHeaderChain]: the chain is a [core.HeaderChain], which keeps the events. *)
Definition Finalize (w : SyncWorld (ES := ES)) (isHeaderChain : bool) (header : Header) (body : Body)
    (receipts : list Receipt) : fin (list Receipt) :=
  rejectUnexpected header body;;
  number ← headerNumber header;
  stateSyncData ← endOfBlock w false header number;
  (if isHeaderChain then SetStateSync stateSyncData else mret tt);;
  if (length stateSyncData =? 0)%nat then mret receipts
  else if negb (IsMadhugiri c (Number header)) then mret receipts
  else
    match last (Transactions body) with
    | None => failS FinStateSyncMissing
    | Some lastTx =>
        if negb (txType lastTx =? StateSyncTxType) then failS FinStateSyncMissing
        else if negb (stateSyncTxHash stateSyncData =? txHash lastTx) then failS FinStateSyncMismatch
        else
          s ← getS;
          orPanic "slice bounds out of range"
            (insertStateSyncTransactionAndCalculateReceipt (txHash lastTx) header body (blockState s) receipts)
    end.

(** The root and the empty list of uncles. *)
Definition setRoots (keccak : list Z -> Z) (root : Z) (h : Header) : Header :=
  mkHeader (ParentHash h) (Engine.uncleHash keccak) (hdrCoinbase h) root (TxHash h) (ReceiptHash h) (Bloom h)
    (Difficulty h) (Number h) (GasLimit h) (GasUsed h) (Time h) (Extra h) (MixDigest h) (Nonce h) (BaseFee h)
    (WithdrawalsHash h) (BlobGasUsed h) (ExcessBlobGas h) (ParentBeaconRoot h) (RequestsHash h) (ActualTime h)
    (AbortRecovery h).

Variable keccak : list Z -> Z.

(** What [types.NewBlock] is called on: header, body and receipts. *)
Definition blockParts (stateSyncData : list StateSyncData) (header : Header) (number : Z) (body : Body)
    (receipts : list Receipt) : fin (Header * Body * list Receipt) :=
  if (0 <? length stateSyncData)%nat && IsMadhugiri c (Some (i64 number)) then
    let hash := stateSyncTxHash stateSyncData in
    let body := mkBody (Transactions body ++ [mkTransaction StateSyncTxType hash]) (Withdrawals body) in
    s ← getS;
    receipts ← orPanic "slice bounds out of range"
      (insertStateSyncTransactionAndCalculateReceipt hash header body (blockState s) receipts);
    mret (header, body, receipts)
  else
    SetStateSync stateSyncData;;
    mret (header, body, receipts).

Definition finalizeAndAssemble (w : SyncWorld (ES := ES)) (simulated : bool) (header : Header) (body : Body)
    (receipts : list Receipt) : fin (Header * Body * list Receipt) :=
  number ← headerNumber header;
  rejectUnexpected header body;;
  stateSyncData ← endOfBlock w simulated header number;
  s ← getS;
  let header := setRoots keccak (IntermediateRoot db (IsEIP158 chainConfig (Number header)) (blockState s)) header in
  blockParts stateSyncData header number body receipts.

Definition FinalizeAndAssemble (w : SyncWorld (ES := ES)) := finalizeAndAssemble w false.
Definition FinalizeAndAssembleForSimulation (w : SyncWorld (ES := ES)) := finalizeAndAssemble w true.

Definition FinalizeForPipeline (w : SyncWorld (ES := ES)) (header : Header) (body : Body)
  : fin (list StateSyncData) :=
  number ← headerNumber header;
  rejectUnexpected header body;;
  endOfBlock w false header number.

Definition AssembleBlock (header : Header) (body : Body) (receipts : list Receipt) (stateRoot : Z)
    (stateSyncData : list StateSyncData) : fin (Header * Body * list Receipt) :=
  number ← headerNumber header;
  let header := setRoots keccak stateRoot header in
  blockParts stateSyncData header number body receipts.

End finalize.

End Finalize.
