(* ===== verification/FinalizeProps.v ===== *)
(** * Properties of finalization

    Assembling a block in one call and through the pipeline are the same, an
    assembled block passes [Finalize], and [Finalize] ties the last transaction of
    a block to the events it commits. *)

From S2P Require Import Prelude Bytes Valset ChainConfig ConfigProps Header HeaderProps BorTypes.
From S2P Require Import Snapshot Seal Engine StateSync StateSyncProps Finalize.

Module FinalizeProps.
Import Bytes ChainConfig Header BorTypes StateSync StateSyncProps Finalize.

Section finalize.
Context {ES : Type}.
Variable db : StateDB ES.
Variable CommitState : EventRecordWithTime -> Header -> ES -> option (ES * Z).
Variable commitSpan : Header -> st ES bor_error unit.
Variable stateSyncTxHash : list StateSyncData -> Z.
Variable BlockAlloc : gmap string (option (list (Z * Account))).
Variable chainConfig : ChainConfig.
Variable c : BorConfig.
Variable chainID : string.
Variable hasHeimdall : bool.
Variable keccak : list Z -> Z.

Abbreviation assemble := (finalizeAndAssemble db CommitState commitSpan stateSyncTxHash BlockAlloc chainConfig c
  chainID hasHeimdall keccak).
Abbreviation finalize := (Finalize db CommitState commitSpan stateSyncTxHash BlockAlloc c chainID hasHeimdall).
Abbreviation pipeline := (FinalizeForPipeline db CommitState commitSpan BlockAlloc c chainID hasHeimdall).
Abbreviation assembleBlock := (AssembleBlock db stateSyncTxHash c keccak).
Abbreviation work := (endOfBlock db CommitState commitSpan BlockAlloc c chainID hasHeimdall).

(** ** The state-sync receipt *)

Lemma count_logs_snoc rs r : countLogsFromReceipts (rs ++ [r]) = (countLogsFromReceipts rs + length (Logs r))%nat.
Proof. unfold countLogsFromReceipts. by rewrite fold_left_app. Qed.

(** It holds the logs of the state that no other receipt has. *)
Lemma insert_receipt hash header body es receipts receipts' :
  insertStateSyncTransactionAndCalculateReceipt db hash header body es receipts = Some receipts' ->
  exists r, receipts' = receipts ++ [r] /\ rTxHash r = hash /\ rType r = StateSyncTxType /\ rGasUsed r = 0 /\
    TransactionIndex r = Z.of_nat (length (Transactions body)) - 1 /\
    map logIndex (Logs r) =
      drop (countLogsFromReceipts receipts) (map logIndex (merge_sort logLe (stateLogs db es))) /\
    countLogsFromReceipts receipts' = length (stateLogs db es).
Proof.
  unfold insertStateSyncTransactionAndCalculateReceipt. intros H.
  pose proof (Permutation_length (merge_sort_Permutation logLe (stateLogs db es))) as Hlen.
  destruct (_ <? _)%nat eqn:E in H; [done|]. apply Nat.ltb_ge in E. apply (inj Some) in H as <-.
  eexists. split; [reflexivity|]. cbn [rTxHash rType rGasUsed TransactionIndex Logs].
  do 4 (split; [done|]). split.
  - rewrite map_map, <- skipn_map. done.
  - rewrite count_logs_snoc. cbn [Logs]. rewrite length_map, length_drop. lia.
Qed.

(** ** What the work at the end of a block reads of the header *)

(** The call of the contracts sees the number, the parent, the time and the
    like, not the roots. *)
Definition blindToRoots : Prop :=
  forall root h, (forall r es, CommitState r (setRoots keccak root h) es = CommitState r h es) /\
                 (forall es, commitSpan (setRoots keccak root h) es = commitSpan h es).

Lemma commitLoop_roots root h to records last gas bytes acc es :
  blindToRoots ->
  commitLoop CommitState c (setRoots keccak root h) chainID to records last gas bytes acc es =
  commitLoop CommitState c h chainID to records last gas bytes acc es.
Proof.
  intros Hb. revert last gas bytes acc es.
  induction records as [|r rs IH]; intros last gas bytes acc es; [done|]. cbn [commitLoop].
  change (Number (setRoots keccak root h)) with (Number h).
  repeat case_if; [apply IH|done..|]. unfold mbind, st_bind, getS, putS.
  rewrite (proj1 (Hb root h)). destruct (CommitState r h es) as [[es' g]|]; [apply IH|done].
Qed.

Lemma CommitStates_roots w root h es :
  blindToRoots ->
  CommitStates CommitState w c chainID (setRoots keccak root h) es = CommitStates CommitState w c chainID h es.
Proof.
  intros Hb. unfold CommitStates. change (Number (setRoots keccak root h)) with (Number h).
  change (syncWindow w c (setRoots keccak root h)) with (syncWindow w c h).
  apply bind_congr; [done|]. intros n s1. case_if; [done|]. apply bind_congr; [done|]. intros [l to] s2.
  destruct (StateSyncEvents w _ _); [|done]. apply bind_congr; [done|]. intros records s3.
  by apply commitLoop_roots.
Qed.

Lemma endOfBlock_roots w skip root h number s :
  blindToRoots -> work w skip (setRoots keccak root h) number s = work w skip h number s.
Proof.
  intros Hb. unfold endOfBlock. apply bind_congr; [done|]. intros start s1. apply bind_congr; [|done].
  destruct start; [|done]. unfold onState.
  assert (E : commitSprintWork CommitState commitSpan c chainID hasHeimdall w (setRoots keccak root h)
                (blockState s1) =
              commitSprintWork CommitState commitSpan c chainID hasHeimdall w h (blockState s1)).
  { unfold commitSprintWork. change (Number (setRoots keccak root h)) with (Number h).
    apply bind_congr.
    - case_if; [|done]. unfold mapErr. by rewrite (proj2 (Hb root h)).
    - intros [] es. destruct hasHeimdall; [|done]. unfold mapErr. by rewrite CommitStates_roots. }
  by rewrite E.
Qed.

(** ** The branches of a success *)

Lemma rejectUnexpected_Done header body (s s' : ChainState ES) u :
  rejectUnexpected header body s = Done s' u -> s' = s /\ forall t : ChainState ES, rejectUnexpected header body t = Done t tt.
Proof.
  unfold rejectUnexpected. intros H. apply bind_Done in H as (s1 & [] & E & H).
  apply failIf_Done in E as [Hw ->]. apply failIf_Done in H as [Hr ->]. split; [done|]. intros t. by rewrite Hw, Hr.
Qed.

Lemma headerNumber_at header n (s : ChainState ES) :
  Number header = Some n -> 0 <= n <= MaxInt64 -> headerNumber header s = Done s n.
Proof.
  intros En Hn. unfold headerNumber. rewrite En. cbn [fmap option_fmap option_map orPanic].
  by rewrite Z.abs_eq, u64_small by wsolve.
Qed.

(** The outcome of [Finalize] after the work at the end of the block. *)
Lemma Finalize_after w hc header body receipts n s s1 data :
  Number header = Some n -> 0 <= n <= MaxInt64 -> rejectUnexpected header body s = Done s tt ->
  work w false header n s = Done s1 data ->
  finalize w hc header body receipts s =
    (let s2 := if hc : bool then mkChainState (blockState s1) data else s1 in
     match data, IsMadhugiri c (Number header), last (Transactions body) with
     | [], _, _ | _, false, _ => Done s2 receipts
     | _, true, None => Fail s2 FinStateSyncMissing
     | _, true, Some tx =>
         if negb (txType tx =? StateSyncTxType) then Fail s2 FinStateSyncMissing
         else if negb (stateSyncTxHash data =? txHash tx) then Fail s2 FinStateSyncMismatch
         else orPanic "slice bounds out of range"
                (insertStateSyncTransactionAndCalculateReceipt db (txHash tx) header body (blockState s1) receipts) s2
     end).
Proof.
  intros En Hn Hr Hw. unfold Finalize. rewrite (bind_eq _ _ _ _ _ Hr).
  rewrite (bind_eq _ _ _ _ _ (headerNumber_at header n s En Hn)), (bind_eq _ _ _ _ _ Hw).
  assert (Hset : (if hc then SetStateSync data else mret tt) s1 =
                 Done (E := finalize_error) (if hc : bool then mkChainState (blockState s1) data else s1) tt)
    by by destruct hc.
  rewrite (bind_eq _ _ _ _ _ Hset). cbv zeta. destruct data as [|d data]; [done|]. cbn [length Nat.eqb].
  destruct (IsMadhugiri c (Number header)); [|done]. cbn [negb].
  destruct (last (Transactions body)) as [tx|]; [|done]. repeat case_if; [done..|].
  unfold mbind, st_bind, getS. by destruct hc.
Qed.

End finalize.

(** ** Properties *)

(** Assembling a block in one call and through the pipeline give the same
    block, receipts, chain state and errors, when the background computation of
    the root hands back the root of the state that [FinalizeForPipeline] left. *)
Theorem pipeline_assembles_same {ES : Type} (db : StateDB ES) CommitState commitSpan stateSyncTxHash BlockAlloc
    chainConfig c chainID hasHeimdall keccak w header body receipts (s : ChainState ES) :
  FinalizeAndAssemble db CommitState commitSpan stateSyncTxHash BlockAlloc chainConfig c chainID hasHeimdall keccak
    w header body receipts s =
  (stateSyncData ← FinalizeForPipeline db CommitState commitSpan BlockAlloc c chainID hasHeimdall w header body;
   s1 ← getS;
   AssembleBlock db stateSyncTxHash c keccak header body receipts
     (IntermediateRoot db (IsEIP158 chainConfig (Number header)) (blockState s1)) stateSyncData) s.
Proof.
  unfold FinalizeAndAssemble, finalizeAndAssemble, FinalizeForPipeline, AssembleBlock, headerNumber.
  destruct (Number header) as [n|]; [|done]. cbn [fmap option_fmap option_map orPanic].
  unfold mbind, st_bind, mret, st_ret, getS.
  destruct (rejectUnexpected header body s) as [s1 []| |]; [|done..].
  by destruct (endOfBlock _ _ _ _ _ _ _ w false header _ s1).
Qed.

(** C24: a block the node assembles passes its own finalization: on the header and
    body that [FinalizeAndAssemble] returns, with the state-sync transaction at
    the end when there are events, [Finalize] from the same state reaches the
    same state and the same receipts.  The contract calls do not look at the
    roots of the header. *)
Theorem assembled_block_finalizes {ES : Type} (db : StateDB ES) CommitState commitSpan stateSyncTxHash BlockAlloc
    chainConfig c chainID hasHeimdall keccak w hc header body receipts (s s' : ChainState ES) header' body' receipts' n :
  blindToRoots CommitState commitSpan keccak -> Number header = Some n -> 0 <= n <= MaxInt64 ->
  FinalizeAndAssemble db CommitState commitSpan stateSyncTxHash BlockAlloc chainConfig c chainID hasHeimdall keccak
    w header body receipts s = Done s' (header', body', receipts') ->
  exists s1, blockState s1 = blockState s' /\
    Finalize db CommitState commitSpan stateSyncTxHash BlockAlloc c chainID hasHeimdall
      w hc header' body' receipts s = Done s1 receipts'.
Proof.
  intros Hb En Hn H. unfold FinalizeAndAssemble, finalizeAndAssemble in H.
  rewrite (bind_eq _ _ _ _ _ (headerNumber_at header n s En Hn)) in H.
  apply bind_Done in H as (s0 & [] & E & H). apply rejectUnexpected_Done in E as [-> Hrej].
  apply bind_Done in H as (s1 & data & Ework & H). apply bind_Done in H as (s1' & s1'' & [= <- <-] & H).
  set (root := IntermediateRoot db _ _) in H.
  assert (Hw : endOfBlock db CommitState commitSpan BlockAlloc c chainID hasHeimdall w false
                 (setRoots keccak root header) n s = Done s1 data) by (rewrite endOfBlock_roots; done).
  assert (Hi : i64 n = n) by (apply i64_small; wsolve).
  unfold blockParts in H. rewrite Hi in H. rewrite <- En in H.
  destruct (_ && _)%bool eqn:Em in H.
  - apply andb_true_iff in Em as [Hlen Hmad].
    apply bind_Done in H as (s2 & s3 & [= <- <-] & H). apply bind_Done in H as (s2 & rs & E & H).
    apply orPanic_Done in E as [Er ->]. injection H as <- <- <- <-.
    eexists. rewrite (Finalize_after db CommitState commitSpan stateSyncTxHash BlockAlloc c chainID hasHeimdall w hc
      (setRoots keccak root header)
      (mkBody (Transactions body ++ [mkTransaction StateSyncTxType (stateSyncTxHash data)]) (Withdrawals body))
      receipts n s s1 data En Hn (Hrej s) Hw). cbv zeta.
    destruct data as [|d data]; [done|]. change (Number (setRoots keccak root header)) with (Number header).
    rewrite Hmad. cbn [Transactions]. rewrite last_snoc. cbn [txType txHash]. rewrite !Z.eqb_refl. cbn [negb].
    rewrite Er. split; [|reflexivity]. by destruct hc.
  - apply bind_Done in H as (s2 & [] & Es2 & H). injection H as <- <- <- <-. injection Es2 as <-.
    eexists. rewrite (Finalize_after db CommitState commitSpan stateSyncTxHash BlockAlloc c chainID hasHeimdall w hc
      (setRoots keccak root header) body receipts n s s1 data En Hn (Hrej s) Hw). cbv zeta.
    change (Number (setRoots keccak root header)) with (Number header).
    destruct data as [|d data]; [split; [|reflexivity]; by destruct hc|].
    cbn [length Nat.ltb Nat.leb andb] in Em. rewrite Em. split; [|reflexivity]. by destruct hc.
Qed.

(** From Madhugiri on, a block that [Finalize] accepts where the work at its
    end commits events has as its last transaction the one made of exactly these
    events, its receipt takes all the logs that no other receipt has, so that the
    receipts account for every log of the state, and a header chain is handed
    the events. *)
Theorem Finalize_ties_events {ES : Type} (db : StateDB ES) CommitState commitSpan stateSyncTxHash BlockAlloc
    c chainID hasHeimdall w hc header body receipts receipts' (s s1 s' : ChainState ES) data n :
  Number header = Some n -> 0 <= n <= MaxInt64 -> IsMadhugiri c (Number header) = true ->
  endOfBlock db CommitState commitSpan BlockAlloc c chainID hasHeimdall w false header n s = Done s1 data ->
  data <> [] ->
  Finalize db CommitState commitSpan stateSyncTxHash BlockAlloc c chainID hasHeimdall
    w hc header body receipts s = Done s' receipts' ->
  exists tx r, last (Transactions body) = Some tx /\ txType tx = StateSyncTxType /\
    txHash tx = stateSyncTxHash data /\ receipts' = receipts ++ [r] /\ rTxHash r = txHash tx /\ rGasUsed r = 0 /\
    countLogsFromReceipts receipts' = length (stateLogs db (blockState s')) /\ blockState s' = blockState s1 /\
    (hc = true -> stateSyncSlot s' = data).
Proof.
  intros En Hn Hm Hw Hd H.
  assert (Hr : rejectUnexpected header body s = Done s tt).
  { unfold Finalize in H. apply bind_Done in H as (s0 & [] & E & _). by apply rejectUnexpected_Done in E as [_ E]. }
  rewrite (Finalize_after db CommitState commitSpan stateSyncTxHash BlockAlloc c chainID hasHeimdall w hc _ _ _ n s s1 data En Hn Hr Hw) in H. cbv zeta in H.
  rewrite Hm in H. destruct data as [|d data]; [done|]. destruct (last (Transactions body)) as [tx|]; [|done].
  destruct (txType tx =? StateSyncTxType) eqn:Et; [|done]. cbn [negb] in H.
  destruct (stateSyncTxHash (d :: data) =? txHash tx) eqn:Eh; [|done]. cbn [negb] in H.
  apply Z.eqb_eq in Et, Eh. apply orPanic_Done in H as [Er ->].
  apply insert_receipt in Er as (r & -> & Hh & _ & Hgas & _ & _ & Hcount).
  exists tx, r. assert (Hbs : blockState (if hc then mkChainState (blockState s1) (d :: data) else s1) = blockState s1)
    by by destruct hc.
  rewrite Hbs. split_and!; try done. by intros ->.
Qed.

(** ** Examples *)

(** The small chain with Madhugiri on. *)
Definition madhugiriBor : BorConfig :=
  let b := ConfigProps.demoBor in
  mkBorConfig (Period b) (ProducerDelay b) (Sprint b) (BackupMultiplier b) ∅ [] [] (BurntContract b) None []
    None None None None None None None (Some 0) (Some 0) (Some 0) (StateSyncConfirmationDelay b) (Some 0)
    (Some 0) (Some 0) (Some 0) (Some 0) (Some 200) (Some 300) None None None None None None.

(** Each event logs its id. *)
Definition demoDB : StateDB (list Z) :=
  mkStateDB _ (fun _ _ es => es) (fun _ _ => 0) (fun _ _ es => es) (map (fun id => mkLog id 0))
    (fun _ es => Z.of_nat (length es)).

Definition demoTxHash (d : list StateSyncData) : Z := Z.of_nat (length d).
Definition demoChainState : ChainState (list Z) := mkChainState [6] [].
Definition demoBody : Body := mkBody [mkTransaction 2 99] None.
Definition demoReceipt : Receipt := mkReceipt 2 1 21000 [mkLog 6 0] 99 21000 (Some 64) 0.

Definition demoAssemble :=
  FinalizeAndAssemble demoDB demoCommit (fun _ => mret tt) demoTxHash ∅ (ConfigProps.demoChain 1000) madhugiriBor
    "137" true SetBytes demoSync demoSyncHeader demoBody [demoReceipt] demoChainState.

Definition demoAssembled : Header * Body * list Receipt :=
  match demoAssemble with Done _ x => x | _ => (demoSyncHeader, demoBody, []) end.

Lemma assembled_block_finalizes_witness :
  exists s1, blockState s1 = [6; 7; 8] /\
    Finalize demoDB demoCommit (fun _ => mret tt) demoTxHash ∅ madhugiriBor "137" true demoSync true
      demoAssembled.1.1 demoAssembled.1.2 [demoReceipt] demoChainState = Done s1 demoAssembled.2.
Proof.
  destruct (assembled_block_finalizes demoDB demoCommit (fun _ => mret tt) demoTxHash ∅ (ConfigProps.demoChain 1000)
    madhugiriBor "137" true SetBytes demoSync true demoSyncHeader demoBody [demoReceipt] demoChainState
    (mkChainState [6; 7; 8] []) demoAssembled.1.1 demoAssembled.1.2 demoAssembled.2 64) as (s1 & H1 & H2).
  - intros root h. split; reflexivity.
  - reflexivity.
  - vm_compute. split; discriminate.
  - vm_compute. reflexivity.
  - exists s1. split; [exact H1|exact H2].
Defined.

Lemma Finalize_ties_events_witness :
  exists tx r, last (Transactions demoAssembled.1.2) = Some tx /\ txHash tx = 2 /\
    demoAssembled.2 = [demoReceipt] ++ [r] /\ countLogsFromReceipts demoAssembled.2 = 3%nat.
Proof.
  destruct (Finalize_ties_events demoDB demoCommit (fun _ => mret tt) demoTxHash ∅ madhugiriBor "137" true demoSync
    true demoAssembled.1.1 demoAssembled.1.2 [demoReceipt] demoAssembled.2 demoChainState
    (mkChainState [6; 7; 8] []) (mkChainState [6; 7; 8] (map toStateSyncData [demoRecord 7; demoRecord 8]))
    (map toStateSyncData [demoRecord 7; demoRecord 8]) 64) as (tx & r & H1 & _ & H2 & H3 & _ & _ & H4 & _).
  - vm_compute. reflexivity.
  - vm_compute. split; discriminate.
  - vm_compute. reflexivity.
  - vm_compute. reflexivity.
  - discriminate.
  - vm_compute. reflexivity.
  - exists tx, r. split; [exact H1|]. split; [exact H2|]. split; [exact H3|exact H4].
Defined.

End FinalizeProps.
