(* ===== verification/EngineBuild.v ===== *)
(** * Building blocks (consensus/bor/bor.go)

    [Prepare] fills in the consensus fields of a header, [Sign] and [Seal] put the
    seal on it. *)

From S2P Require Import Prelude Bytes Valset ValsetBytes ChainConfig Rlp Header Eip1559 BorTypes.
From S2P Require Import SpanStore Snapshot Seal Engine.

Module EngineBuild.
Import Valset ValsetBytes ChainConfig Header Eip1559 BorTypes SpanStore Seal Engine.

Definition second : Z := 10 ^ 9.
Definition minBlockBuildTime : Z := 1 * second.

(** What [Prepare] reads besides: the validators of the next sprint in the contract
    ([None] is an error), and the clock, in nanoseconds, when the build time is
    computed and when it is compared. *)
Record BuildWorld := mkBuildWorld {
  currentValidators : option (list Validator);
  nowNs : Z;
  untilNs : Z
}.

(** [GetActualTime], in nanoseconds. *)
Definition GetActualTime (h : Header) : Z :=
  match ActualTime h with
  | Some t => t
  | None => i64 (Time h) * second
  end.

(** The fields [Prepare] and [Sign] set. *)
Definition setBlank (h : Header) : Header :=
  mkHeader (ParentHash h) (UncleHash h) 0 (Root h) (TxHash h) (ReceiptHash h) (Bloom h) (Difficulty h)
    (Number h) (GasLimit h) (GasUsed h) (Time h) (Extra h) (MixDigest h) 0 (BaseFee h) (WithdrawalsHash h)
    (BlobGasUsed h) (ExcessBlobGas h) (ParentBeaconRoot h) (RequestsHash h) (ActualTime h) (AbortRecovery h).

Definition setBuilt (difficulty : option Z) (extra : list Z) (mixDigest time : Z) (actual : option Z)
    (h : Header) : Header :=
  mkHeader (ParentHash h) (UncleHash h) (hdrCoinbase h) (Root h) (TxHash h) (ReceiptHash h) (Bloom h) difficulty
    (Number h) (GasLimit h) (GasUsed h) time extra mixDigest (Nonce h) (BaseFee h) (WithdrawalsHash h)
    (BlobGasUsed h) (ExcessBlobGas h) (ParentBeaconRoot h) (RequestsHash h) actual (AbortRecovery h).

Definition setExtra (extra : list Z) (h : Header) : Header :=
  setBuilt (Difficulty h) extra (MixDigest h) (Time h) (ActualTime h) h.

(** The vanity: padded with zeros, then cut. *)
Definition vanityOf (extra : list Z) : list Z :=
  take ExtraVanityLength (extra ++ replicate (ExtraVanityLength - length extra) 0).

Section build.
Context {C : Type -> Type} `{!Cache C}.
Variable keccak : list Z -> Z.
Variable Ecrecover : list Z -> list Z -> option (list Z).
Variable cfg : Settings.

Abbreviation eng := (st (Bor C) bor_error).

Definition giuglianoExtraFields (header parent : Header) : option Z * option Z :=
  if negb (IsGiugliano (config cfg) (Number header)) then (None, None)
  else (Some (CalcGasTarget (chainConfig cfg) parent),
        Some (BaseFeeChangeDenominator (Some (config cfg)) (Number parent))).

Definition parentActualTime (parent : Header) (parentHash : Z) : eng Z :=
  let parentBlockTime := i64 (Time parent) * second in
  s ← getS;
  let '(hit, x) := cget parentHash (parentActualTimeCache s) in
  putS (setActualTimes x s);;
  mret (match hit with
        | Some at' => if parentBlockTime <? at' then at' else parentBlockTime
        | None => parentBlockTime
        end).

(** [EarliestAnnounceTime]; [now] is the clock. *)
Definition EarliestAnnounceTime (w : World) (now : Z) (header : option Header) : eng Z :=
  match header with
  | None => mret now
  | Some h =>
      match Number h with
      | None => mret now
      | Some n =>
          if n =? 0 then mret now
          else if negb (IsGiugliano (config cfg) (Some n)) then mret (GetActualTime h)
          else
            match GetHeader w (ParentHash h) (u64 (u64 (Z.abs n) - 1)) with
            | None => mret (GetActualTime h)
            | Some parent => parentActualTime parent (ParentHash h)
            end
      end
  end.

(** The extra data between the vanity and the room for the seal. *)
Definition extraBody (bw : BuildWorld) (header parent : Header) (number : Z) : eng (list Z) :=
  sprint ← calcSprint cfg number;
  sprintEnd ← isSprintStart (u64 (number + 1)) sprint;
  let '(gasTarget, bfcd) := giuglianoExtraFields header parent in
  if sprintEnd && negb (IsRio (config cfg) (Number header)) then
    match currentValidators bw with
    | None => failS errUnknownValidators
    | Some newValidators =>
        let validatorBytes := mjoin (map HeaderBytes (sortByAddress newValidators)) in
        if IsCancun (chainConfig cfg) (Number header)
        then mret (EncodeBlockExtraData (chainConfig cfg) (Number header) validatorBytes gasTarget bfcd)
        else mret validatorBytes
    end
  else if IsCancun (chainConfig cfg) (Number header)
       then mret (EncodeBlockExtraData (chainConfig cfg) (Number header) [] gasTarget bfcd)
       else mret [].

(** The turn of the signer; an unknown signer builds with turn 0. *)
Definition buildSuccession (snap : Snapshot.Snapshot) : eng Z :=
  if signer cfg =? zeroAddress then mret 0 else
  fun s => match Snapshot.GetSignerSuccessionNumber (signer cfg) snap with
           | Done _ k => Done s k
           | Fail _ _ => Done s 0
           | Panicked w => Panicked w
           end.

Definition customTime (header : Header) : bool :=
  (0 <? blockTime cfg) && IsRio (config cfg) (Number header).

(** The time of the block and its actual time, before the minimum build time. *)
Definition targetTime (header parent : Header) (number succession : Z) : eng (Z * option Z) :=
  if customTime header then
    parentActual ← parentActualTime parent (ParentHash header);
    let actual := parentActual + blockTime cfg in
    mret (u64 (actual / second), Some actual)
  else
    delay ← orPanic "bad configuration" (CalcProducerDelay number succession (config cfg));
    mret (u64 (Time parent + delay), ActualTime header).

Definition pushTime (bw : BuildWorld) (header : Header) (period : Z) (target : Z * option Z)
  : Z * option Z :=
  let '(time, actual) := target in
  let duration := if customTime header then blockTime cfg else i64 (i64 period * second) in
  let actualTime := match actual with Some t => t | None => i64 time * second end in
  if negb (AbortRecovery header) && (actualTime - untilNs bw <? minBlockBuildTime) then
    (u64 ((nowNs bw + duration) / second),
     if customTime header then Some (nowNs bw + duration) else actual)
  else target.

(** The wait before building has no effect on the header. *)
Definition Prepare (w : World) (bw : BuildWorld) (header : Header) : eng Header :=
  let header := setBlank header in
  number ← numberOf header;
  snap ← snapshot keccak Ecrecover cfg w header [] false;
  '(v, difficulty) ← onValue id (Snapshot.Difficulty (signer cfg)) (Snapshot.vals snap);
  let snap := Snapshot.setVals v snap in
  match GetHeader w (ParentHash header) (u64 (number - 1)) with
  | None => failS ErrUnknownAncestor
  | Some parent =>
      body ← extraBody bw header parent number;
      let extra := vanityOf (Extra header) ++ body ++ replicate ExtraSealLength 0 in
      succession ← buildSuccession snap;
      period ← orPanic "bad configuration" (CalculatePeriod (config cfg) number);
      failIf ((0 <? blockTime cfg) && (u64 (blockTime cfg / second) <? period)) errBlockTime;;
      target ← targetTime header parent number succession;
      let '(time, actual) := pushTime bw header period target in
      mret (setBuilt (Some difficulty) extra 0 time actual header)
  end.

(** ** Seals *)

(** [copy] into the last 65 bytes. *)
Definition putSeal (extra sighash : list Z) : list Z :=
  let n := (length extra - ExtraSealLength)%nat in
  take n extra ++ take ExtraSealLength sighash ++ drop (length sighash) (drop n extra).

(** The key signs the encoding of the header; [None] is an error of the wallet. *)
Definition Sign {S} (signFn : list Z -> option (list Z)) (header : Header) (c : BorConfig)
  : st S bor_error Header :=
  rlp ← orPanic "can't encode" (BorRLP header c);
  match signFn rlp with
  | None => failS errSign
  | Some sighash => mret (setExtra (putSeal (Extra header) sighash) header)
  end.

(** The synchronous part of [Seal]: the sealed header, or [None] when sealing is
    paused. *)
Definition SealHeader (w : World) (signFn : list Z -> option (list Z)) (header : Header)
    (transactions : nat) : eng (option Header) :=
  number ← numberOf header;
  failIf (number =? 0) errUnknownBlock;;
  period ← orPanic "bad configuration" (CalculatePeriod (config cfg) number);
  if (period =? 0) && (transactions =? 0)%nat then mret None else
  snap ← snapshot keccak Ecrecover cfg w header [] false;
  failIf (negb (HasAddress (signer cfg) (Snapshot.vals snap)) &&
          negb (Snapshot.isAllowedByValidatorSetOverride snap (signer cfg) number))
    (UnauthorizedSignerError number (signer cfg));;
  '(_, successionNumber) ← onValue id (Snapshot.GetSignerSuccessionNumber (signer cfg)) snap;
  _ ← orPanic "bad configuration" (CalculateBackupMultiplier (config cfg) number);
  sealed ← Sign signFn header (config cfg);
  (match ActualTime sealed with
   | Some t => modify (fun s => setActualTimes (cadd (Hash keccak sealed) t (parentActualTimeCache s)) s)
   | None => mret tt
   end);;
  mret (Some sealed).

Definition CalcDifficulty (w : World) (parent : Header) : eng (option Z) :=
  fun s =>
    match (snap ← snapshot keccak Ecrecover cfg w parent [] true;
           '(_, d) ← onValue id (Snapshot.Difficulty (signer cfg)) (Snapshot.vals snap);
           mret d) s with
    | Done s' d => Done s' (Some d)
    | Fail s' _ => Done s' None
    | Panicked why => Panicked why
    end.

End build.

End EngineBuild.
