(* ===== verification/EngineBuildProps.v ===== *)
(** * Properties of block building

    A prepared header has the difficulty, the extra data and the time that
    verification asks for, and a seal does not change what it signs. *)

From S2P Require Import Prelude Bytes Valset ValsetBytes ChainConfig ConfigProps Rlp Header.
From S2P Require Import HeaderProps Eip1559 BorTypes SpanStore Snapshot Seal SealProps Engine.
From S2P Require Import EngineDemo EngineProps EngineBuild.

Create HintDb steady.

Module EngineBuildProps.
Import Bytes Valset ValsetBytes ChainConfig Header BorTypes SpanStore Seal SealProps Engine EngineProps EngineBuild.

Section build.
Context {C : Type -> Type} `{!Cache C}.
Variable keccak : list Z -> Z.
Variable Ecrecover : list Z -> list Z -> option (list Z).
Variable cfg : Settings.

(** ** Time *)

(** Clocks and configured delays that stay far from the ends of their types, and
    a sprint-start delay that is not below the period. *)
Record saneTimes (bw : BuildWorld) (s : Bor C) (header parent : Header) (number period : Z) : Prop := mkSaneTimes {
  sane_number : Number header = Some number /\ 0 <= number <= MaxInt64;
  sane_parent : 0 <= Time parent <= 2 ^ 40;
  sane_period : 1 <= period <= 2 ^ 20;
  sane_delay : forall k d, k <= 2 ^ 16 -> CalcProducerDelay number k (config cfg) = Some d -> period <= d <= 2 ^ 40;
  sane_blockTime : 0 <= blockTime cfg <= 2 ^ 60;
  sane_actual : ActualTime header = None;
  sane_cached : forall k t, (cget k (parentActualTimeCache s)).1 = Some t -> t <= 2 ^ 80;
  sane_now : 0 <= nowNs bw <= 2 ^ 80;
  (** the two readings of the clock are close *)
  sane_until : untilNs bw - nowNs bw <= (if customTime cfg header then blockTime cfg else period * second) - second
}.

Lemma parentActualTime_bounds parent k (s s' : Bor C) t :
  0 <= Time parent <= 2 ^ 40 -> (forall t, (cget k (parentActualTimeCache s)).1 = Some t -> t <= 2 ^ 80) ->
  parentActualTime parent k s = Done s' t -> Time parent * second <= t <= 2 ^ 80.
Proof.
  intros Hp Hc H. unfold parentActualTime, mbind, st_bind, getS, putS in H.
  rewrite i64_small in H by wsolve.
  destruct (cget k (parentActualTimeCache s)) as [o x]. cbn in H, Hc. injection H as _ <-.
  unfold second. destruct o as [a|]; [specialize (Hc a eq_refl); case_if; bool_to_prop; lia|lia].
Qed.

(** The time Prepare aims at, before any push. *)
Lemma targetTime_bounds bw s s' header parent number period succession time actual :
  saneTimes bw s header parent number period -> CalculatePeriod (config cfg) number = Some period ->
  succession <= 2 ^ 16 -> (0 <? blockTime cfg) && (u64 (blockTime cfg / second) <? period) = false ->
  targetTime cfg header parent number succession s = Done s' (time, actual) ->
  exists delay, CalcProducerDelay number succession (config cfg) = Some delay /\
    Time parent + delay <= time /\ 0 <= time <= 2 ^ 60 /\ period <= delay <= 2 ^ 40 /\
    let at' := match actual with Some t => t | None => i64 time * second end in
    time = at' / second /\ at' <= 2 ^ 81.
Proof.
  intros [[En Hn] Hpar Hper Hdel Hbt Hact Hcache Hnow Huntil] Eper Hk Hblock H. unfold targetTime in H.
  destruct (customTime cfg header) eqn:Ec.
  - apply bind_Done in H as (s1 & pa & Epa & H). injection H as _ <- <-.
    unfold customTime in Ec. apply andb_true_iff in Ec as [Hpos HRio]. rewrite Hpos in Hblock. cbn in Hblock.
    bool_to_prop. pose proof (parentActualTime_bounds parent _ s s1 pa Hpar (Hcache (ParentHash header)) Epa) as Hpa.
    assert (Ed : CalcProducerDelay number succession (config cfg) = Some period).
    { unfold CalcProducerDelay. rewrite Eper. cbn. rewrite i64_small by wsolve. by rewrite <- En, HRio. }
    exists period. split; [done|]. unfold second in *.
    assert (Hq : Time parent + period <= (pa + blockTime cfg) / 10 ^ 9).
    { rewrite u64_small in Hblock.
      - apply Z.div_le_lower_bound; [lia|].
        pose proof (Z.mul_div_le (blockTime cfg) (10 ^ 9) ltac:(lia)). lia.
      - pose proof (Z.div_pos (blockTime cfg) (10 ^ 9) ltac:(lia) ltac:(lia)).
        pose proof (Z.div_le_upper_bound (blockTime cfg) (10 ^ 9) (2 ^ 60) ltac:(lia) ltac:(lia)). wsolve. }
    assert (Hu : (pa + blockTime cfg) / 10 ^ 9 <= 2 ^ 60) by (apply Z.div_le_upper_bound; lia).
    rewrite u64_small by wsolve. split_and!; try lia.
  - apply bind_Done in H as (s1 & delay & E & H). apply orPanic_Done in E as [Ed ->].
    injection H as _ <- <-. pose proof (Hdel _ _ Hk Ed) as Hd. exists delay. split; [done|].
    rewrite u64_small by wsolve. rewrite Hact, i64_small by wsolve. unfold second.
    rewrite Z.div_mul by lia. split_and!; lia.
Qed.

(** Pushing never makes the block earlier. *)
Lemma pushTime_later bw s header parent number period time actual :
  saneTimes bw s header parent number period -> 0 <= time <= 2 ^ 60 ->
  (let at' := match actual with Some t => t | None => i64 time * second end in
   time = at' / second /\ at' <= 2 ^ 81) ->
  time <= (pushTime cfg bw header period (time, actual)).1 <= 2 ^ 61.
Proof.
  intros [[En Hn] Hpar Hper Hdel Hbt Hact Hcache Hnow Huntil] Ht [Eat Hat]. unfold pushTime. cbv zeta.
  set (at' := match actual with Some t => t | None => i64 time * second end) in *.
  assert (Hdur : (if customTime cfg header then blockTime cfg else i64 (i64 period * second)) =
                 (if customTime cfg header then blockTime cfg else period * second)).
  { case_if; [done|]. unfold second. rewrite (i64_small period), i64_small by wsolve. done. }
  rewrite Hdur. set (dur := if customTime cfg header then blockTime cfg else period * second) in *.
  assert (Hdb : 0 <= dur <= 2 ^ 60) by (unfold dur, second; case_if; lia).
  destruct (negb (AbortRecovery header) && (at' - untilNs bw <? minBlockBuildTime)) eqn:E; cbn [fst]; [|lia].
  apply andb_true_iff in E as [_ E]. apply Z.ltb_lt in E. unfold minBlockBuildTime, second in *.
  assert (Hle : at' / 10 ^ 9 <= (nowNs bw + dur) / 10 ^ 9) by (apply Z.div_le_mono; lia).
  assert (Hup : (nowNs bw + dur) / 10 ^ 9 <= 2 ^ 61) by (apply Z.div_le_upper_bound; lia).
  rewrite u64_small by wsolve. lia.
Qed.

(** ** Snapshots leave the actual times alone *)

Section actual_times.
Variable x : C Z.

Abbreviation steady m := (keeps (E := bor_error) (fun s : Bor C => parentActualTimeCache s = x) m (fun _ => True)).

Lemma steady_bind {A B} (m : st (Bor C) bor_error A) (k : A -> st (Bor C) bor_error B) :
  steady m -> (forall a, steady (k a)) -> steady (m ≫= k).
Proof. intros Hm Hk. eapply keeps_bind; [exact Hm|]. auto. Qed.

Lemma steady_getS : steady getS.
Proof. by intros s Hs. Qed.

Lemma steady_orPanic {A} why (o : option A) : steady (orPanic why o).
Proof. intros s Hs. by destruct o. Qed.

Lemma steady_failIf b e : steady (failIf b e).
Proof. intros s Hs. by destruct b. Qed.

Lemma steady_onSigs {A} (m : st (C Z) bor_error A) : steady (onSigs m).
Proof. intros s Hs. unfold onSigs. by destruct (m (signatures s)). Qed.

Lemma steady_onSpans {A} (m : st (SpanStore C) bor_error A) : steady (onSpans m).
Proof. intros s Hs. unfold onSpans. by destruct (m (spanStore s)). Qed.

Lemma steady_onValue {T E A} conv (m : st T E A) (t : T) : steady (onValue conv m t).
Proof. intros s Hs. unfold onValue. by destruct (m t). Qed.

Lemma steady_getRecent hash : steady (getRecent hash).
Proof.
  intros s Hs. unfold getRecent, mbind, st_bind, getS, putS.
  by destruct (cget hash (recents s)).
Qed.

Lemma steady_hasVerified hash : steady (hasVerified hash).
Proof.
  intros s Hs. unfold hasVerified, mbind, st_bind, getS, putS.
  by destruct (cget hash (recentVerifiedHeaders s)).
Qed.

Lemma steady_newSnapshot c number hash l : steady (Snapshot.newSnapshot c number hash l).
Proof. intros s Hs. unfold Snapshot.newSnapshot. by destruct (NewValidatorSet l). Qed.

Lemma steady_getUpdated v l : steady (Snapshot.getUpdatedValidatorSet v l).
Proof. intros s Hs. unfold Snapshot.getUpdatedValidatorSet. by destruct (UpdateWithChangeSet _ _). Qed.

Lemma steady_modify f : (forall s : Bor C, parentActualTimeCache (f s) = parentActualTimeCache s) -> steady (modify f).
Proof. intros H s Hs. cbn. by rewrite H. Qed.

Lemma steady_ret {A} (a : A) : steady (mret a).
Proof. by apply keeps_ret. Qed.

Hint Resolve steady_bind steady_getS steady_orPanic steady_failIf steady_onSigs steady_onSpans steady_onValue
  steady_getRecent steady_hasVerified steady_newSnapshot steady_getUpdated steady_ret keeps_fail keeps_panic : steady.
Hint Extern 2 (keeps _ (modify _) _) => apply steady_modify; intros []; reflexivity : steady.

Ltac steady :=
  repeat first
    [ solve [auto 2 with steady nocore]
    | apply steady_bind; [|intros ?]
    | match goal with |- context [match ?y with _ => _ end] => destruct y end ].

Lemma steady_numberOf h : steady (numberOf h).
Proof. unfold numberOf. steady. Qed.

Lemma steady_contiguous headers : steady (contiguous headers).
Proof.
  induction headers as [|h l IH]; [apply steady_ret|]. cbn [contiguous].
  destruct l as [|h' l]; [apply steady_ret|]. repeat (apply steady_bind; [apply steady_numberOf|intros ?]).
  case_if; [exact IH|apply steady_ret].
Qed.
Hint Resolve steady_numberOf steady_contiguous : steady.

Lemma steady_applyHeaders w c b headers snap : steady (applyHeaders keccak Ecrecover w c b snap headers).
Proof.
  revert snap. induction headers as [|h l IH]; intros snap; [apply steady_ret|]. cbn [applyHeaders].
  apply steady_bind; [|apply IH].
  unfold applyHeader, nextValidators, validateHeaderExtraField, isSprintStart, spanAt. steady.
Qed.
Hint Resolve steady_applyHeaders : steady.

Lemma steady_storeSnapshot w snap : steady (storeSnapshot w snap).
Proof. unfold storeSnapshot. steady. Qed.
Hint Resolve steady_storeSnapshot : steady.

Lemma steady_findBase fuel w hash number parents headers :
  steady (findBase keccak cfg fuel w hash number parents headers).
Proof.
  revert hash number parents headers.
  induction fuel as [|fuel IH]; intros hash number parents headers; [apply keeps_panic|]. cbn [findBase].
  unfold genesisSnapshot, loadSnapshot, spanAt. steady; apply IH.
Qed.

Lemma steady_performSpanCheck w h parents : steady (performSpanCheck keccak Ecrecover cfg w h parents).
Proof.
  unfold performSpanCheck. apply steady_bind; [apply steady_numberOf|]. intros n. case_if; [apply steady_ret|].
  apply steady_bind; [apply steady_getS|]. intros s0. case_if; [apply steady_ret|]. intros s Hs.
  pose proof (steady_onSigs (ecrecover keccak Ecrecover h (config cfg)) s Hs) as Ha. unfold Author at 1.
  destruct (onSigs _ s) as [s1 a|s1 e|]; [destruct Ha as [Hs1 _]| |]; [|done..].
  destruct (parentOf _ _ _ _).
  - revert s1 Hs1. unfold Author, waitNewSpan. steady.
  - revert s1 Hs1. unfold waitNewSpan. steady.
Qed.
Hint Resolve steady_findBase steady_performSpanCheck : steady.

Lemma steady_snapshot w h parents check : steady (snapshot keccak Ecrecover cfg w h parents check).
Proof.
  unfold snapshot, fakeAuthorSnapshot, getVeBlopSnapshot, extendSnapshot, apply, spanAt, addRecent. steady.
Qed.

End actual_times.

(** ** The turn a signer builds with *)

Section turn.
Variable l : list Validator.

Abbreviation over P m := (keeps (fun v : ValidatorSet => Validators v = l) m P).

Lemma over_findProposer {E} : over (fun _ => True) (findProposer (E := E)).
Proof.
  unfold findProposer. eapply keeps_bind; [apply keeps_getS|]. intros s _.
  generalize (None : option vptr). induction (vptrs (Validators s)) as [|p ps IH]; intros res;
    cbn [findProposer_loop]; [by apply keeps_ret|].
  eapply (keeps_bind _ _ _ (fun _ => True)); [|intros r _; apply IH].
  unfold Cmp. repeat case_match; try apply keeps_panic; by apply keeps_ret.
Qed.

Lemma over_proposerAddress {E} : over (fun _ => True) (Snapshot.proposerAddress (E := E)).
Proof.
  unfold Snapshot.proposerAddress, GetProposer. eapply (keeps_bind _ _ _ (fun _ => True)).
  - eapply keeps_bind; [apply keeps_getS|]. intros s _. repeat case_match; try by apply keeps_ret.
    eapply keeps_bind; [apply over_findProposer|]. intros p _.
    eapply keeps_bind; [by apply keeps_modify|]. intros _ _. destruct p; [by apply keeps_ret|apply keeps_panic].
  - intros p _. destruct p; [by apply keeps_ret|apply keeps_panic].
Qed.

Lemma over_GetByAddress {E} a : over (fun r => -1 <= r.1 < Z.of_nat (length l)) (GetByAddress (E := E) a).
Proof.
  unfold GetByAddress. eapply keeps_bind; [apply keeps_getS|]. intros s <-.
  destruct (validatorsMap s !! a) as [i|]; [|apply keeps_ret; cbn; lia].
  destruct (Validators s !! i) eqn:Ei; [|apply keeps_panic]. apply keeps_ret. cbn. apply lookup_lt_Some in Ei. lia.
Qed.

Lemma keeps_onVals {E A} (m : st ValidatorSet E A) P :
  over P m -> keeps (fun s => Validators (Snapshot.vals s) = l) (Snapshot.onVals m) P.
Proof. intros Hm s Hs. unfold Snapshot.onVals. specialize (Hm _ Hs). by destruct (m (Snapshot.vals s)). Qed.

Lemma over_succession who :
  keeps (fun s => Validators (Snapshot.vals s) = l) (Snapshot.GetSignerSuccessionNumber who)
    (fun k => k <= Z.of_nat (length l)).
Proof.
  unfold Snapshot.GetSignerSuccessionNumber. eapply keeps_bind; [apply keeps_getS|]. intros s0 H0. cbv zeta.
  rewrite H0. eapply keeps_bind; [apply keeps_onVals, over_proposerAddress|]. intros proposer _.
  eapply keeps_bind; [apply keeps_onVals, over_GetByAddress|]. intros [pi ?] Hpi. cbn in Hpi.
  eapply keeps_bind; [apply keeps_getS|]. intros s1 H1. case_if; [apply keeps_fail|].
  eapply keeps_bind; [apply keeps_onVals, over_GetByAddress|]. intros [si ?] Hsi. cbn in Hsi.
  eapply keeps_bind; [apply keeps_getS|]. intros s2 _. case_if; [apply keeps_fail|]. apply keeps_ret.
  bool_to_prop. case_if; bool_to_prop; lia.
Qed.

Lemma over_Difficulty {E} who : over (fun _ => True) (Snapshot.Difficulty (E := E) who).
Proof.
  unfold Snapshot.Difficulty. case_if; [by apply keeps_ret|].
  eapply keeps_bind; [apply keeps_getS|]. intros s0 _. cbv zeta.
  eapply keeps_bind; [apply over_proposerAddress|]. intros proposer _.
  eapply keeps_bind; [apply over_GetByAddress|]. intros [pi ?] _.
  eapply keeps_bind; [apply over_GetByAddress|]. intros [si ?] _. by apply keeps_ret.
Qed.

End turn.

(** It is at most the number of validators. *)
Lemma buildSuccession_bound snap v d k (s s' : Bor C) :
  Snapshot.Difficulty (E := bor_error) (signer cfg) (Snapshot.vals snap) = Done v d ->
  buildSuccession cfg (Snapshot.setVals v snap) s = Done s' k ->
  k <= Z.of_nat (length (Validators (Snapshot.vals snap))).
Proof.
  intros Ed. pose proof (over_Difficulty _ (E := bor_error) (signer cfg) (Snapshot.vals snap) eq_refl) as Hv.
  rewrite Ed in Hv. destruct Hv as [Hv _].
  unfold buildSuccession. case_if; [intros [= _ <-]; lia|].
  pose proof (over_succession _ (signer cfg) (Snapshot.setVals v snap) Hv) as Hk.
  destruct (Snapshot.GetSignerSuccessionNumber _ _); [|intros [= _ <-]; lia|done].
  intros [= _ <-]. apply Hk.
Qed.

Lemma length_vanityOf extra : length (vanityOf extra) = ExtraVanityLength.
Proof. unfold vanityOf. rewrite length_take, length_app, length_replicate. lia. Qed.

(** What a prepared header is made of. *)
Lemma Prepare_shape w bw header (s s' : Bor C) h' :
  Prepare keccak Ecrecover cfg w bw header s = Done s' h' ->
  exists s1 snap v d parent body succession period s2 s3 time actual,
    snapshot keccak Ecrecover cfg w (setBlank header) [] false s = Done s1 snap /\
    Snapshot.Difficulty (E := bor_error) (signer cfg) (Snapshot.vals snap) = Done v d /\
    GetHeader w (ParentHash header) (u64 (hdNum header - 1)) = Some parent /\
    CalculatePeriod (config cfg) (hdNum header) = Some period /\
    (0 <? blockTime cfg) && (u64 (blockTime cfg / second) <? period) = false /\
    s2 = s1 /\ buildSuccession cfg (Snapshot.setVals v snap) s1 = Done s1 succession /\
    targetTime cfg (setBlank header) parent (hdNum header) succession s2 = Done s3 (time, actual) /\
    Difficulty h' = Some d /\ MixDigest h' = 0 /\ Number h' = Number header /\ ParentHash h' = ParentHash header /\
    Extra h' = vanityOf (Extra header) ++ body ++ replicate ExtraSealLength 0 /\
    Time h' = (pushTime cfg bw (setBlank header) period (time, actual)).1.
Proof.
  intros H. unfold Prepare in H. cbv zeta in H.
  apply bind_Done in H as (s0 & n & E & H). apply numberOf_Done in E as (-> & -> & _).
  apply bind_Done in H as (s1 & snap & Esnap & H).
  apply bind_Done in H as (s1' & [v d] & E & H). apply onValue_Done in E as [-> Ed]. cbn [fst snd] in Ed.
  destruct (GetHeader w _ _) as [parent|] eqn:Epar; [|done].
  apply bind_Done in H as (s2 & body & Ebody & H).
  apply bind_Done in H as (s3 & succession & Esucc & H).
  apply bind_Done in H as (s4 & period & E & H). apply orPanic_Done in E as [Eper ->].
  apply bind_Done in H as (s5 & [] & E & H). apply failIf_Done in E as [Hblock ->].
  apply bind_Done in H as (s6 & [time actual] & Et & H).
  destruct (pushTime cfg bw (setBlank header) period (time, actual)) as [time' actual'] eqn:Ep.
  injection H as _ <-.
  assert (Hs2 : s2 = s1).
  { unfold extraBody in Ebody. apply bind_Done in Ebody as (a1 & ? & E & Ebody). apply orPanic_Done in E as [_ ->].
    apply bind_Done in Ebody as (a1 & ? & E & Ebody). apply orPanic_Done in E as [_ ->].
    destruct (giuglianoExtraFields _ _ _). destruct (_ && _)%bool in Ebody.
    - destruct (currentValidators bw); [|done]. case_if; by injection Ebody as <- _.
    - case_if; by injection Ebody as <- _. }
  assert (Hs3 : s3 = s2).
  { unfold buildSuccession in Esucc. case_if; [by injection Esucc as <- _|].
    destruct (Snapshot.GetSignerSuccessionNumber _ _); [..|done]; by injection Esucc as <- _. }
  subst s3 s2. exists s1, snap, v, d, parent, body, succession, period, s1, s6, time, actual.
  rewrite Ep. split_and!; done.
Qed.

(** The number of a header in the low 64 bits. *)
Lemma hdNum_small h n : Number h = Some n -> 0 <= n <= MaxInt64 -> hdNum h = n.
Proof. intros E Hn. unfold hdNum. rewrite E. cbn. rewrite Z.abs_eq by lia. apply u64_small. wsolve. Qed.

(** C25: a header that [Prepare] returns passes the checks of [verifyHeader] and
    [verifySeal] that depend on its content.  It has the difficulty of the signer
    in the snapshot of its parent, room for vanity and seal, no mix digest, and a
    time that is a period after its parent's and not early for the turn the
    signer builds with, whether the time comes from the configured delays or from
    a custom block time, and also when too little time is left to build and
    [Prepare] moves the block on. *)
Theorem Prepare_respects_rules w bw header parent number period (s s' : Bor C) h' :
  GetHeader w (ParentHash header) (u64 (number - 1)) = Some parent ->
  saneTimes bw s header parent number period -> CalculatePeriod (config cfg) number = Some period ->
  (forall s1 snap, snapshot keccak Ecrecover cfg w (setBlank header) [] false s = Done s1 snap ->
                   Z.of_nat (length (Validators (Snapshot.vals snap))) <= 2 ^ 16) ->
  Prepare keccak Ecrecover cfg w bw header s = Done s' h' ->
  exists s1 snap v d succession,
    snapshot keccak Ecrecover cfg w (setBlank header) [] false s = Done s1 snap /\
    Snapshot.Difficulty (E := bor_error) (signer cfg) (Snapshot.vals snap) = Done v d /\
    buildSuccession cfg (Snapshot.setVals v snap) s1 = Done s1 succession /\
    Difficulty h' = Some d /\ Number h' = Some number /\ ParentHash h' = ParentHash header /\
    validateHeaderExtraField (Extra h') s = Done s tt /\ MixDigest h' = 0 /\
    Time parent + period <= Time h' /\
    IsBlockEarly (Some parent) h' number succession (config cfg) = Some false.
Proof.
  intros Hpar Hsane Eper Hfew H. pose proof (sane_number _ _ _ _ _ _ Hsane) as [En Hn].
  apply Prepare_shape in H as (s1 & snap & v & d & parent' & body & succession & period' & s2 & s3 & time & actual
    & Esnap & Ed & Epar & Eper' & Hblock & -> & Esucc & Et & Hd & Hmix & Hnum & Hph & Hex & Htime).
  rewrite (hdNum_small header number En Hn) in *. simplify_eq.
  exists s1, snap, v, d, succession. do 3 (split; [done|]). do 3 (split; [congruence|]).
  assert (Hsane1 : saneTimes bw s1 (setBlank header) parent number period).
  { pose proof (steady_snapshot (parentActualTimeCache s) w (setBlank header) [] false s eq_refl) as Hk.
    rewrite Esnap in Hk. destruct Hk as [Hk _]. destruct Hsane as [? ? ? ? ? ? Hc ? ?].
    split; try done. by rewrite Hk. }
  assert (Hk : succession <= 2 ^ 16).
  { etransitivity; [by eapply buildSuccession_bound|by eapply Hfew]. }
  destruct (targetTime_bounds bw s1 s3 _ parent number period succession time actual Hsane1 Eper Hk Hblock Et)
    as (delay & Edelay & Hge & Htb & Hdel & Hat).
  pose proof (pushTime_later bw s1 _ parent number period time actual Hsane1 Htb Hat) as Hpush.
  rewrite <- Htime in Hpush. pose proof (sane_parent _ _ _ _ _ _ Hsane). pose proof (sane_period _ _ _ _ _ _ Hsane).
  split; [|split; [done|split; [lia|]]].
  - unfold validateHeaderExtraField, mbind, st_bind, failIf.
    assert (Hlen : (97 <= length (Extra h'))%nat).
    { rewrite Hex, !length_app, length_vanityOf, length_replicate. unfold ExtraVanityLength, ExtraSealLength. lia. }
    unfold ExtraVanityLength, ExtraSealLength. change (32 + 65)%nat with 97%nat.
    rewrite (proj2 (Nat.ltb_ge (length (Extra h')) 32)), (proj2 (Nat.ltb_ge (length (Extra h')) 97)) by lia. done.
  - assert (Hu : u64 (Time parent + delay) = Time parent + delay) by (apply u64_small; wsolve).
    unfold IsBlockEarly. rewrite Edelay. cbn. rewrite Hu. f_equal. apply Z.ltb_ge. lia.
Qed.

End build.

(** ** Seals *)

(** A seal of 65 bytes replaces the last 65 bytes and nothing else. *)
Lemma putSeal_parts extra sig :
  (65 <= length extra)%nat -> length sig = 65%nat ->
  length (putSeal extra sig) = length extra /\
  take (length extra - 65) (putSeal extra sig) = take (length extra - 65) extra /\
  drop (length extra - 65) (putSeal extra sig) = sig.
Proof.
  intros He Hs. unfold putSeal, ExtraSealLength. set (n := (length extra - 65)%nat).
  assert (Ht : length (take n extra) = n) by (rewrite length_take; lia).
  rewrite drop_drop, (drop_ge extra) by lia. rewrite app_nil_r, (take_ge sig) by lia.
  split; [rewrite length_app; lia|]. split.
  - by rewrite take_app_length'.
  - by rewrite drop_app_length'.
Qed.

Lemma putSeal_twice extra sig :
  (65 <= length extra)%nat -> length sig = 65%nat -> putSeal (putSeal extra sig) sig = putSeal extra sig.
Proof.
  intros He Hs. destruct (putSeal_parts extra sig He Hs) as (Plen & Ptake & _).
  unfold putSeal at 1. rewrite Plen. unfold ExtraSealLength. rewrite Ptake.
  rewrite drop_drop, (drop_ge (putSeal extra sig)) by lia.
  unfold putSeal, ExtraSealLength. rewrite drop_drop, (drop_ge extra) by lia. done.
Qed.

(** C37: a header that [Sign] seals verifies as its signer's.  The seal is put in
    the last 65 bytes of the extra data, the bytes that were signed are also the
    bytes of the sealed header, so sealing a sealed header again signs the same
    bytes, and recovery on it gives the address of the key, for any signature the
    key makes that recovers and has canonical values. *)
Theorem Sign_recovers {S} (keccak : list Z -> Z) (Ecrecover : list Z -> list Z -> option (list Z))
    (signFn : list Z -> option (list Z)) (h : Header) (c : BorConfig) (rlp sig pubkey : list Z) (st0 : S) :
  (65 <= length (Extra h))%nat -> BorRLP h c = Some rlp -> signFn rlp = Some sig -> length sig = 65%nat ->
  Ecrecover (be_bytes 32 (keccak rlp)) sig = Some pubkey ->
  ValidateSignatureValues (default 0 (sig !! 64%nat)) (SetBytes (take 32 sig)) (SetBytes (take 32 (drop 32 sig))) true
    = true ->
  exists sealed, Sign signFn h c st0 = Done st0 sealed /\
    sealOf sealed = sig /\ BorRLP sealed c = Some rlp /\ Sign signFn sealed c st0 = Done st0 sealed /\
    recovered (C := gmap Z) keccak Ecrecover sealed c = inl (inr (pubkeyAddress keccak pubkey)).
Proof.
  intros He Er Es Hl Hrec Hval. exists (setExtra (putSeal (Extra h) sig) h).
  destruct (putSeal_parts (Extra h) sig He Hl) as (Plen & Ptake & Pdrop).
  assert (Eseal : sealOf (setExtra (putSeal (Extra h) sig) h) = sig).
  { unfold sealOf. cbn [setExtra setBuilt Extra]. by rewrite Plen. }
  assert (Erlp : BorRLP (setExtra (putSeal (Extra h) sig) h) c = Some rlp).
  { rewrite <- Er. unfold BorRLP, encodeSigHeader. cbn [setExtra setBuilt Extra BaseFee Number].
    by rewrite Plen, Ptake. }
  split; [|split; [done|split; [done|split]]].
  - unfold Sign, mbind, st_bind. rewrite Er. cbn. by rewrite Es.
  - unfold Sign, mbind, st_bind. rewrite Erlp. cbn [orPanic mret st_ret]. rewrite Es. f_equal.
    change (Extra (setExtra (putSeal (Extra h) sig) h)) with (putSeal (Extra h) sig).
    by rewrite putSeal_twice.
  - unfold recovered, ecrecover, mbind, st_bind, getS, putS. cbn [cget gmap_cache cempty]. rewrite lookup_empty.
    rewrite Eseal. cbn [setExtra setBuilt Extra]. rewrite Plen. unfold failIf, ExtraSealLength.
    rewrite (proj2 (Nat.ltb_ge _ _)) by lia. rewrite Hval. cbn [negb].
    unfold SealHash. unfold BorRLP in Erlp. rewrite Erlp. cbn [fmap option_fmap option_map orPanic mret st_ret]. by rewrite Hrec.
Qed.

(** ** Examples *)

(** A header to build on the genesis block, with a short vanity. *)
Definition demoDraft : Header :=
  setBuilt None [7; 7] 5 0 None (EngineDemo.demoBlock (Hash EngineDemo.demoKeccak EngineDemo.demoGenesis) 1 0).

(** The clock is past the time of the block, which is moved on. *)
Definition demoBuild : BuildWorld := mkBuildWorld None (1005 * second) (1005 * second).

Definition demoPrepare :=
  Prepare EngineDemo.demoKeccak EngineDemo.demoEcrecover EngineDemo.demoSettings
    (EngineDemo.demoWorld [EngineDemo.demoGenesis]) demoBuild demoDraft EngineDemo.demoState.

Definition demoPrepared : Header := match demoPrepare with Done _ h => h | _ => demoDraft end.

Lemma demo_saneTimes :
  saneTimes EngineDemo.demoSettings demoBuild EngineDemo.demoState demoDraft EngineDemo.demoGenesis 1 2.
Proof.
  split.
  - split; [vm_compute; reflexivity|wsolve].
  - cbn. lia.
  - lia.
  - intros k d Hk. unfold CalcProducerDelay.
    change (config EngineDemo.demoSettings) with ConfigProps.demoBor.
    replace (CalculatePeriod ConfigProps.demoBor 1) with (Some 2) by (vm_compute; reflexivity). cbn.
    replace (CalculateSprint ConfigProps.demoBor 1) with (Some 64) by (vm_compute; reflexivity). cbn.
    destruct (0 <? k) eqn:E; [|by intros [= <-]].
    replace (CalculateBackupMultiplier ConfigProps.demoBor 1) with (Some 2) by (vm_compute; reflexivity). cbn.
    intros H. apply (inj Some) in H. apply Z.ltb_lt in E.
    rewrite (u64_small k), (u64_small (k * 2)), u64_small in H by wsolve. lia.
  - cbn. lia.
  - reflexivity.
  - intros k t. cbn. by rewrite lookup_empty.
  - vm_compute. split; discriminate.
  - vm_compute. discriminate.
Qed.

Lemma Prepare_respects_rules_witness :
  exists succession, Difficulty demoPrepared = Some 1 /\ Time demoPrepared = 1007 /\
    length (Extra demoPrepared) = 97%nat /\
    IsBlockEarly (Some EngineDemo.demoGenesis) demoPrepared 1 succession ConfigProps.demoBor = Some false.
Proof.
  destruct (Prepare_respects_rules EngineDemo.demoKeccak EngineDemo.demoEcrecover EngineDemo.demoSettings
    (EngineDemo.demoWorld [EngineDemo.demoGenesis]) demoBuild demoDraft EngineDemo.demoGenesis 1 2
    EngineDemo.demoState (EngineDemo.after demoPrepare EngineDemo.demoState) demoPrepared)
    as (s1 & snap & v & d & k & H).
  - vm_compute. reflexivity.
  - exact demo_saneTimes.
  - vm_compute. reflexivity.
  - intros s1 snap E.
    assert (Hs : match snapshot EngineDemo.demoKeccak EngineDemo.demoEcrecover EngineDemo.demoSettings
      (EngineDemo.demoWorld [EngineDemo.demoGenesis]) (setBlank demoDraft) [] false EngineDemo.demoState with
      | Done _ snap => Nat.leb (length (Validators (Snapshot.vals snap))) 1 | _ => false end = true)
      by (vm_compute; reflexivity).
    rewrite E in Hs. apply Nat.leb_le in Hs. lia.
  - vm_compute. reflexivity.
  - exists k. split; [vm_compute; reflexivity|]. split; [vm_compute; reflexivity|].
    split; [vm_compute; reflexivity|]. apply H.
Defined.

Lemma Sign_recovers_witness :
  exists sealed, Sign (fun _ => Some (replicate 65 1)) demoPrepared ConfigProps.demoBor tt = Done tt sealed /\
    recovered (C := gmap Z) EngineDemo.demoKeccak EngineDemo.demoEcrecover sealed ConfigProps.demoBor =
      inl (inr EngineDemo.demoSigner).
Proof.
  destruct (Sign_recovers EngineDemo.demoKeccak EngineDemo.demoEcrecover (fun _ => Some (replicate 65 1))
    demoPrepared ConfigProps.demoBor (default [] (BorRLP demoPrepared ConfigProps.demoBor)) (replicate 65 1)
    (4 :: replicate 65 1) tt) as (sealed & H1 & _ & _ & _ & H2).
  - vm_compute. lia.
  - vm_compute. reflexivity.
  - reflexivity.
  - reflexivity.
  - reflexivity.
  - vm_compute. reflexivity.
  - exists sealed. split; [exact H1|]. rewrite H2. vm_compute. reflexivity.
Defined.

End EngineBuildProps.
