(* ===== verification/Whitelist.v ===== *)
(** * Whitelisted checkpoints and milestones (eth/downloader/whitelist, core/rawdb)

    Heimdall finalizes blocks in checkpoints and milestones.  The node keeps the
    last one of each, the milestone it voted for last (the lock), and milestones
    above its head (the future list), in memory and in the database, and refuses
    chains and peers that disagree with them. *)

From S2P Require Import Prelude Bytes Header Seal.

Module Whitelist.
Import Header.

Definition DefaultMaxForkCorrectnessLimit : Z := 256.

(** ** The database (core/rawdb/milestone.go, checkpoint.go) *)

Inductive FinalityKind := Milestone | Checkpoint.

Record LockField := mkLockField {
  lfVal : bool;
  lfBlock : Z;
  lfHash : Z;
  lfIdList : gset string
}.

(** [None] is an entry that is missing or cannot be read. *)
Record DB := mkDB {
  lastMilestone : option (Z * Z);
  lastCheckpoint : option (Z * Z);
  lockFieldKey : option LockField;
  futureMilestoneKey : option (list Z * gmap Z Z)
}.

Definition emptyDB : DB := mkDB None None None None.

Definition ReadFinality (k : FinalityKind) (d : DB) : option (Z * Z) :=
  match k with Milestone => lastMilestone d | Checkpoint => lastCheckpoint d end.

Definition putFinality (k : FinalityKind) (x : option (Z * Z)) (d : DB) : DB :=
  match k with
  | Milestone => mkDB x (lastCheckpoint d) (lockFieldKey d) (futureMilestoneKey d)
  | Checkpoint => mkDB (lastMilestone d) x (lockFieldKey d) (futureMilestoneKey d)
  end.

Definition putLock (x : LockField) (d : DB) : DB :=
  mkDB (lastMilestone d) (lastCheckpoint d) (Some x) (futureMilestoneKey d).

Definition putFuture (order : list Z) (l : gmap Z Z) (d : DB) : DB :=
  mkDB (lastMilestone d) (lastCheckpoint d) (lockFieldKey d) (Some (order, l)).

(** [PurgeWhitelistedEntriesFromDb]. *)
Definition PurgeWhitelistedEntriesFromDb (d : DB) : DB := emptyDB.

(** ** State *)

Record finality := mkFinality {
  doExist : bool;
  finNumber : Z;
  finHash : Z
}.

(** [mutexHeld]: the write lock is kept between [LockMutex] and [UnlockMutex]. *)
Record milestone := mkMilestone {
  mFinality : finality;
  LockedMilestoneNumber : Z;
  LockedMilestoneHash : Z;
  Locked : bool;
  LockedMilestoneIDs : gset string;
  FutureMilestoneList : gmap Z Z;
  FutureMilestoneOrder : list Z;
  MaxCapacity : nat;
  hasBlockchain : bool;
  mutexHeld : bool
}.

(** [dbWritable]: whether the database takes writes at the moment; failed writes
    are logged.  The cache only holds hashes with the value [true]. *)
Record Service := mkService {
  db : DB;
  dbWritable : bool;
  cpFinality : finality;
  mil : milestone;
  disableBlindForkValidation : bool;
  maxForkCorrectnessLimit : Z;
  lastValidForkBlock : Z;
  forkValidationCache : gset Z
}.

Definition setFinality (f : finality) (m : milestone) : milestone :=
  mkMilestone f (LockedMilestoneNumber m) (LockedMilestoneHash m) (Locked m) (LockedMilestoneIDs m)
    (FutureMilestoneList m) (FutureMilestoneOrder m) (MaxCapacity m) (hasBlockchain m) (mutexHeld m).
Definition setLock (locked : bool) (number hash : Z) (ids : gset string) (m : milestone) : milestone :=
  mkMilestone (mFinality m) number hash locked ids
    (FutureMilestoneList m) (FutureMilestoneOrder m) (MaxCapacity m) (hasBlockchain m) (mutexHeld m).
Definition setFuture (order : list Z) (l : gmap Z Z) (m : milestone) : milestone :=
  mkMilestone (mFinality m) (LockedMilestoneNumber m) (LockedMilestoneHash m) (Locked m) (LockedMilestoneIDs m)
    l order (MaxCapacity m) (hasBlockchain m) (mutexHeld m).
Definition setChain (b : bool) (m : milestone) : milestone :=
  mkMilestone (mFinality m) (LockedMilestoneNumber m) (LockedMilestoneHash m) (Locked m) (LockedMilestoneIDs m)
    (FutureMilestoneList m) (FutureMilestoneOrder m) (MaxCapacity m) b (mutexHeld m).
Definition setMutex (b : bool) (m : milestone) : milestone :=
  mkMilestone (mFinality m) (LockedMilestoneNumber m) (LockedMilestoneHash m) (Locked m) (LockedMilestoneIDs m)
    (FutureMilestoneList m) (FutureMilestoneOrder m) (MaxCapacity m) (hasBlockchain m) b.

Definition setMil (m : milestone) (s : Service) : Service :=
  mkService (db s) (dbWritable s) (cpFinality s) m (disableBlindForkValidation s) (maxForkCorrectnessLimit s)
    (lastValidForkBlock s) (forkValidationCache s).
Definition setCheckpoint (f : finality) (s : Service) : Service :=
  mkService (db s) (dbWritable s) f (mil s) (disableBlindForkValidation s) (maxForkCorrectnessLimit s)
    (lastValidForkBlock s) (forkValidationCache s).
Definition setStored (d : DB) (s : Service) : Service :=
  mkService d (dbWritable s) (cpFinality s) (mil s) (disableBlindForkValidation s) (maxForkCorrectnessLimit s)
    (lastValidForkBlock s) (forkValidationCache s).
Definition setCache (last : Z) (c : gset Z) (s : Service) : Service :=
  mkService (db s) (dbWritable s) (cpFinality s) (mil s) (disableBlindForkValidation s) (maxForkCorrectnessLimit s)
    last c.

Inductive peer_error := ErrNoRemote | ErrMismatch.

(** No operation returns a Go error except the checks of peers, whose error comes
    with their verdict. *)
Abbreviation wl := (st Service Empty_set).

(** ** Writing to the database *)

Definition writeDB (f : DB -> DB) : wl unit :=
  modify (fun s => if dbWritable s then setStored (f (db s)) s else s).

Definition WriteLockField : wl unit :=
  s ← getS;
  let m := mil s in
  writeDB (putLock (mkLockField (Locked m) (LockedMilestoneNumber m) (LockedMilestoneHash m) (LockedMilestoneIDs m))).

Definition WriteFutureMilestoneList : wl unit :=
  s ← getS;
  writeDB (putFuture (FutureMilestoneOrder (mil s)) (FutureMilestoneList (mil s))).

(** A method that takes the lock of the milestone waits while it is held. *)
Definition lockFree : wl unit :=
  s ← getS;
  if mutexHeld (mil s) then panic "blocked" else mret tt.

Definition onMil (f : milestone -> milestone) : wl unit := modify (fun s => setMil (f (mil s)) s).

(** ** finality.go *)

Definition getFinality (k : FinalityKind) (s : Service) : finality :=
  match k with Milestone => mFinality (mil s) | Checkpoint => cpFinality s end.

Definition putEntry (k : FinalityKind) (f : finality) (s : Service) : Service :=
  match k with
  | Milestone => setMil (setFinality f (mil s)) s
  | Checkpoint => setCheckpoint f s
  end.

Definition finality_Process (k : FinalityKind) (block hash : Z) : wl unit :=
  modify (putEntry k (mkFinality true block hash));;
  writeDB (putFinality k (Some (block, hash))).

Definition finality_Get (k : FinalityKind) (s : Service) : bool * Z * Z :=
  let f := getFinality k s in
  if doExist f then (true, finNumber f, finHash f) else
  match ReadFinality k (db s) with
  | Some (block, hash) => (true, block, hash)
  | None => (false, finNumber f, finHash f)
  end.

Definition finality_Purge (k : FinalityKind) : wl unit :=
  modify (fun s => let f := getFinality k s in putEntry k (mkFinality false (finNumber f) (finHash f)) s).

(** ** Chains of headers *)

(** [header.Number.Uint64()]; [None] is a nil dereference. *)
Definition numU64 (h : Header) : option Z := (fun n => u64 (Z.abs n)) <$> Number h.

(** The slices of [chain] up to and from an index; [None] is out of range (the slice
    is taken to have no spare capacity). *)
Definition splitAt {A} (k : Z) (l : list A) : option (list A * list A) :=
  if Z.of_nat (length l) <? k then None else Some (take (Z.to_nat k) l, drop (Z.to_nat k) l).

Definition splitChain (current : Z) (chain : list Header) : option (list Header * list Header) :=
  h0 ← head chain; hl ← last chain;
  first ← numU64 h0; lastN ← numU64 hl;
  past ← (if first <=? current then
            if (length chain =? 1)%nat || (lastN <=? current) then Some chain
            else fst <$> splitAt (u64 (current - first + 1)) chain
          else Some []);
  future ← (if current <? lastN then
              if (length chain =? 1)%nat || (current <? first) then Some chain
              else snd <$> splitAt (u64 (current - first + 1)) chain
            else Some []);
  Some (past, future).

Section whitelist.
Variable keccak : list Z -> Z.
(** [flags.Milestone]. *)
Variable milestoneFlag : bool.

Abbreviation hashOf := (Seal.Hash keccak).

(** The first header with a number, looking in the order given. *)
Fixpoint findNumber (number : Z) (l : list Header) : option (option Header) :=
  match l with
  | [] => Some None
  | h :: l' => n ← numU64 h; if n =? number then Some (Some h) else findNumber number l'
  end.

Definition isValidChain (currentHeader : Header) (chain : list Header) (f : finality) : option bool :=
  if negb (doExist f) then Some true else
  current ← numU64 currentHeader;
  hl ← last chain; lastN ← numU64 hl;
  if lastN <? finNumber f then Some (negb (finNumber f <=? current)) else
  '(pastChain, _) ← splitChain current chain;
  hit ← findNumber (finNumber f) (reverse pastChain);
  Some (match hit with Some h => hashOf h =? finHash f | None => true end).

(** [finality.IsValidChain]. *)
Definition finality_IsValidChain (currentHeader : Header) (chain : list Header) (f : finality) : option bool :=
  if (length chain =? 0)%nat then Some false else isValidChain currentHeader chain f.

(** [fetch]: the headers and hashes a peer answers for one block, or an error. *)
Definition isValidPeer (fetch : Z -> option (list Header * list Z)) (f : finality)
  : option (bool * option peer_error) :=
  if negb (doExist f) then Some (true, None) else
  match fetch (finNumber f) with
  | None | Some ([], _) => Some (false, Some ErrNoRemote)
  | Some (h :: _, hashes) =>
      reqBlockNum ← numU64 h;
      reqBlockHash ← head hashes;
      Some (if (reqBlockNum =? finNumber f) && (reqBlockHash =? finHash f) then (true, None)
            else (false, Some ErrMismatch))
  end.

(** ** milestone.go *)

Definition dequeueFutureMilestone : wl unit :=
  s ← getS;
  match FutureMilestoneOrder (mil s) with
  | [] => panic "index out of range"
  | n :: order' =>
      onMil (setFuture order' (delete n (FutureMilestoneList (mil s))));;
      WriteFutureMilestoneList
  end.

Definition unlockSprintLocked (endBlockNum : Z) : wl unit :=
  s ← getS;
  let m := mil s in
  if endBlockNum <? LockedMilestoneNumber m then mret tt else
  onMil (setLock false (LockedMilestoneNumber m) (LockedMilestoneHash m) ∅);;
  WriteLockField.

(** The loop of [Process]: the index goes up while the head is removed. *)
Fixpoint dequeueLoop (fuel : nat) (i : nat) (block : Z) : wl unit :=
  match fuel with
  | O => mret tt
  | S fuel' =>
      s ← getS;
      match FutureMilestoneOrder (mil s) !! i with
      | None => mret tt
      | Some n =>
          if n <=? block then dequeueFutureMilestone;; dequeueLoop fuel' (S i) block
          else mret tt
      end
  end.

Definition milestone_Process (block hash : Z) : wl unit :=
  lockFree;;
  finality_Process Milestone block hash;;
  s ← getS;
  dequeueLoop (length (FutureMilestoneOrder (mil s))) 0 block;;
  unlockSprintLocked block.

Definition LockMutex (endBlockNum : Z) : wl bool :=
  lockFree;;
  onMil (setMutex true);;
  s ← getS;
  let m := mil s in
  if doExist (mFinality m) && (endBlockNum <=? finNumber (mFinality m)) then mret false
  else mret (negb (Locked m && (endBlockNum <? LockedMilestoneNumber m))).

(** Unlocking a mutex that is not held is a fatal error. *)
Definition UnlockMutex (doLock : bool) (milestoneId : string) (endBlockNum endBlockHash : Z) : wl unit :=
  onMil (fun m => setLock (Locked m || doLock) (LockedMilestoneNumber m) (LockedMilestoneHash m)
                    (LockedMilestoneIDs m) m);;
  (if doLock then
     s ← getS;
     unlockSprintLocked (LockedMilestoneNumber (mil s));;
     onMil (fun m => setLock true endBlockNum endBlockHash ({[milestoneId]} ∪ LockedMilestoneIDs m) m)
   else mret tt);;
  WriteLockField;;
  s ← getS;
  if mutexHeld (mil s) then onMil (setMutex false) else panic "unlock of unlocked RWMutex".

Definition UnlockSprint (endBlockNum : Z) : wl unit := lockFree;; unlockSprintLocked endBlockNum.

Definition RemoveMilestoneID (milestoneId : string) : wl unit :=
  lockFree;;
  onMil (fun m =>
    let ids := LockedMilestoneIDs m ∖ {[milestoneId]} in
    setLock (if bool_decide (ids = ∅) then false else Locked m) (LockedMilestoneNumber m) (LockedMilestoneHash m)
      ids m);;
  WriteLockField.

Definition IsReorgAllowed (chain : list Header) (lockedNumber lockedHash : Z) : option bool :=
  hl ← last chain; lastN ← numU64 hl;
  if lastN <=? lockedNumber then Some false else
  hit ← findNumber lockedNumber chain;
  Some (match hit with Some h => hashOf h =? lockedHash | None => true end).

Definition GetMilestoneIDsList (s : Service) : list string := elements (LockedMilestoneIDs (mil s)).

(** The future milestones from the last one; a missing hash reads as zero. *)
Fixpoint futureLoop (chain : list Header) (tip : Z) (l : gmap Z Z) (order : list Z) : option bool :=
  match order with
  | [] => Some true
  | n :: order' =>
      if n <=? tip then
        hit ← findNumber n (reverse chain);
        match hit with
        | Some h => Some (hashOf h =? default 0 (l !! n))
        | None => futureLoop chain tip l order'
        end
      else futureLoop chain tip l order'
  end.

Definition IsFutureMilestoneCompatible (chain : list Header) (m : milestone) : option bool :=
  hl ← last chain; tip ← numU64 hl;
  futureLoop chain tip (FutureMilestoneList m) (reverse (FutureMilestoneOrder m)).

Definition milestone_IsValidChain (currentHeader : Header) (chain : list Header) (m : milestone) : option bool :=
  if negb milestoneFlag then Some true else
  res ← finality_IsValidChain currentHeader chain (mFinality m);
  if negb res then Some false else
  allowed ← (if Locked m then IsReorgAllowed chain (LockedMilestoneNumber m) (LockedMilestoneHash m)
             else Some true);
  if negb allowed then Some false else IsFutureMilestoneCompatible chain m.

(** What [IsValidPeer] sees of the local chain. *)
Record ChainReader := mkChainReader {
  CurrentBlock : option Header;
  GetBlockByNumber : Z -> option Header
}.

Definition milestone_IsValidPeer (bc : ChainReader) (fetch : Z -> option (list Header * list Z)) (m : milestone)
  : option (bool * option peer_error) :=
  if negb milestoneFlag then Some (true, None) else
  let f := mFinality m in
  forked ← (if hasBlockchain m && doExist f then
              match CurrentBlock bc with
              | None => Some false
              | Some localHead =>
                  n ← numU64 localHead;
                  Some ((finNumber f <=? n) &&
                        match GetBlockByNumber bc (finNumber f) with
                        | Some b => negb (hashOf b =? finHash f)
                        | None => false
                        end)
              end
            else Some false);
  if forked : bool then Some (true, None) else isValidPeer fetch f.

Definition enqueueFutureMilestoneLocked (key hash : Z) : wl unit :=
  s ← getS;
  let m := mil s in
  match FutureMilestoneList m !! key with
  | Some _ => mret tt
  | None =>
      onMil (setFuture (FutureMilestoneOrder m ++ [key]) (<[key := hash]> (FutureMilestoneList m)));;
      WriteFutureMilestoneList
  end.

Definition ProcessFutureMilestone (num hash : Z) : wl unit :=
  lockFree;;
  s ← getS;
  (if (length (FutureMilestoneOrder (mil s)) <? MaxCapacity (mil s))%nat
   then enqueueFutureMilestoneLocked num hash else mret tt);;
  unlockSprintLocked num.

(** The entries above [block] of the future list. *)
Definition trimFuture (block : Z) (m : milestone) : milestone :=
  setFuture (List.filter (fun n => negb (block <? n)) (FutureMilestoneOrder m))
    (fold_left (fun l n => if block <? n then delete n l else l) (FutureMilestoneOrder m) (FutureMilestoneList m)) m.

Definition PurgeAfter (block : Z) : wl unit :=
  lockFree;;
  s ← getS;
  let f := mFinality (mil s) in
  let diskStale := match ReadFinality Milestone (db s) with Some (n, _) => block <? n | None => false end in
  let memStale := doExist f && (block <? finNumber f) in
  (if diskStale || memStale then
     writeDB (putFinality Milestone None);;
     if memStale then onMil (setFinality (mkFinality false 0 0)) else mret tt
   else mret tt);;
  s ← getS;
  (if Locked (mil s) && (block <? LockedMilestoneNumber (mil s)) then
     onMil (setLock false 0 0 ∅);; WriteLockField
   else mret tt);;
  s ← getS;
  let m := mil s in
  if (0 <? length (FutureMilestoneOrder m))%nat &&
     negb (length (FutureMilestoneOrder (trimFuture block m)) =? length (FutureMilestoneOrder m))%nat
  then onMil (trimFuture block);; WriteFutureMilestoneList
  else mret tt.

(** ** service.go *)

Definition NewService (d : DB) (writable : bool) (disable : bool) (limit : Z) : Service :=
  let limit := if limit =? 0 then DefaultMaxForkCorrectnessLimit else limit in
  let entry k := match ReadFinality k d with
                 | Some (n, h) => mkFinality (negb (h =? 0)) n h
                 | None => mkFinality false 0 0
                 end in
  let l := match lockFieldKey d with
           | Some l => if lfVal l then l else mkLockField false (lfBlock l) (lfHash l) ∅
           | None => mkLockField false 0 0 ∅
           end in
  let bad := lfVal l && (MaxInt64 <? lfBlock l) in
  let l := if bad then mkLockField false 0 0 ∅ else l in
  let d' := if bad && writable then putLock l d else d in
  let '(order, list) := default ([], ∅) (futureMilestoneKey d) in
  mkService d' writable (entry Checkpoint)
    (mkMilestone (entry Milestone) (lfBlock l) (lfHash l) (lfVal l) (lfIdList l) list order 10 false false)
    disable limit 0 ∅.

Definition SetBlockchain : wl unit := lockFree;; onMil (setChain true).

Definition resetForkValidationCache : wl unit := modify (fun s => setCache (lastValidForkBlock s) ∅ s).

Definition ProcessMilestone (endBlockNum endBlockHash : Z) : wl unit :=
  milestone_Process endBlockNum endBlockHash;; resetForkValidationCache.

Definition ProcessCheckpoint (endBlockNum endBlockHash : Z) : wl unit :=
  finality_Process Checkpoint endBlockNum endBlockHash;; resetForkValidationCache.

Definition PurgeWhitelistedCheckpoint : wl unit := finality_Purge Checkpoint.
Definition PurgeWhitelistedMilestone : wl unit := lockFree;; finality_Purge Milestone.

Definition PurgeMilestonesAfter (block : Z) : wl unit :=
  PurgeAfter block;;
  modify (fun s => setCache (if lastValidForkBlock s <=? block then lastValidForkBlock s else block) ∅ s).

Definition IsValidPeer (bc : ChainReader) (fetch : Z -> option (list Header * list Z)) (s : Service)
  : option (bool * option peer_error) :=
  '(ok, err) ← isValidPeer fetch (cpFinality s);
  if negb ok then Some (ok, err) else
  '(ok, err) ← milestone_IsValidPeer bc fetch (mil s);
  if negb ok then Some (ok, err) else Some (true, None).

(** *** Fork correctness *)

(** The newest whitelisted entry. *)
Definition newestEntry (s : Service) : option (Z * Z) :=
  let '(milestoneExists, milestoneNumber, milestoneHash) := finality_Get Milestone s in
  let '(checkpointExists, checkpointNumber, checkpointHash) := finality_Get Checkpoint s in
  if negb milestoneExists && negb checkpointExists then None else
  let '(number, hash) := if milestoneExists then (milestoneNumber, milestoneHash) else (0, 0) in
  Some (if checkpointExists && (number <? checkpointNumber) then (checkpointNumber, checkpointHash)
        else (number, hash)).

Definition acceptFork (blocksChecked : list Z) (lastNumber : Z) : wl bool :=
  modify (fun s => setCache lastNumber (list_to_set blocksChecked ∪ forkValidationCache s) s);;
  mret true.

(** [ReadHeader]: the header of the database under a hash and a number. *)
Fixpoint forkLoop (fuel : nat) (ReadHeader : Z -> Z -> option Header) (number hash lastNumber : Z)
    (parentHash parentNumber : Z) (blocksChecked : list Z) : wl bool :=
  match fuel with
  | O => panic "out of fuel"
  | S fuel' =>
      s ← getS;
      if bool_decide (parentHash ∈ forkValidationCache s) then acceptFork blocksChecked lastNumber else
      match ReadHeader parentHash parentNumber with
      | None => mret true
      | Some header =>
          n ← orPanic "nil pointer dereference" (numU64 header);
          if n =? number then
            if hashOf header =? hash then acceptFork blocksChecked lastNumber else mret false
          else forkLoop fuel' ReadHeader number hash lastNumber (ParentHash header) (u64 (parentNumber - 1))
                 (blocksChecked ++ [hashOf header])
      end
  end.

Definition checkForkCorrectness (ReadHeader : Z -> Z -> option Header) (chain : list Header) : wl bool :=
  match head chain, last chain with
  | Some firstBlock, Some lastBlock =>
      headerNumber ← orPanic "nil pointer dereference" (numU64 firstBlock);
      lastHeaderNumber ← orPanic "nil pointer dereference" (numU64 lastBlock);
      lockFree;;
      s ← getS;
      match newestEntry s with
      | None => mret true
      | Some (number, hash) =>
          let lastKnownValidBlock := Z.max (lastValidForkBlock s) number in
          if (lastKnownValidBlock <? headerNumber) &&
             (maxForkCorrectnessLimit s <? headerNumber - lastKnownValidBlock) then mret true
          else if number <? headerNumber then
            forkLoop (Z.to_nat headerNumber + 1) ReadHeader number hash lastHeaderNumber (ParentHash firstBlock)
              (headerNumber - 1) (map hashOf chain)
          else mret true
      end
  | _, _ => mret true
  end.

(** The checks of milestones read under the lock. *)
Definition IsValidChain (ReadHeader : Z -> Z -> option Header) (currentHeader : Header) (chain : list Header)
  : wl bool :=
  s ← getS;
  cp ← orPanic "out of range" (finality_IsValidChain currentHeader chain (cpFinality s));
  if negb cp then mret false else
  (if milestoneFlag then lockFree else mret tt);;
  m ← orPanic "out of range" (milestone_IsValidChain currentHeader chain (mil s));
  if negb m then mret false else
  if disableBlindForkValidation s then mret true else
  checkForkCorrectness ReadHeader chain.

End whitelist.

End Whitelist.
