(* ===== verification/WhitelistProps.v ===== *)
(** * Properties of the whitelist

    The state of the service over any sequence of operations, its persistence, and
    what an accepted chain agrees with. *)

From S2P Require Import Prelude Bytes Header Seal Whitelist.

Module WhitelistProps.
Import Bytes Header Whitelist.

(** ** Operations *)

(** What the node calls on the service, and the database that starts or stops to take
    writes. *)
Inductive op :=
| OpProcessMilestone (n h : Z)
| OpProcessCheckpoint (n h : Z)
| OpLockMutex (n : Z)
| OpUnlockMutex (doLock : bool) (id : string) (n h : Z)
| OpUnlockSprint (n : Z)
| OpRemoveMilestoneID (id : string)
| OpProcessFutureMilestone (n h : Z)
| OpPurgeMilestonesAfter (n : Z)
| OpPurgeMilestone
| OpPurgeCheckpoint
| OpSetBlockchain
| OpIsValidChain (ReadHeader : Z -> Z -> option Header) (current : Header) (chain : list Header)
| OpWritable (b : bool).

Section ops.
Variable keccak : list Z -> Z.
Variable milestoneFlag : bool.

Definition exec (o : op) : st Service Empty_set unit :=
  match o with
  | OpProcessMilestone n h => ProcessMilestone n h
  | OpProcessCheckpoint n h => ProcessCheckpoint n h
  | OpLockMutex n => LockMutex n;; mret tt
  | OpUnlockMutex doLock id n h => UnlockMutex doLock id n h
  | OpUnlockSprint n => UnlockSprint n
  | OpRemoveMilestoneID id => RemoveMilestoneID id
  | OpProcessFutureMilestone n h => ProcessFutureMilestone n h
  | OpPurgeMilestonesAfter n => PurgeMilestonesAfter n
  | OpPurgeMilestone => PurgeWhitelistedMilestone
  | OpPurgeCheckpoint => PurgeWhitelistedCheckpoint
  | OpSetBlockchain => SetBlockchain
  | OpIsValidChain RH cur chain => IsValidChain keccak milestoneFlag RH cur chain;; mret tt
  | OpWritable b =>
      modify (fun s => mkService (db s) b (cpFinality s) (mil s) (disableBlindForkValidation s)
                         (maxForkCorrectnessLimit s) (lastValidForkBlock s) (forkValidationCache s))
  end.

(** The states the service can be in. *)
Inductive reachable (allowed : op -> Prop) (s0 : Service) : Service -> Prop :=
| reachable_start : reachable allowed s0 s0
| reachable_step s o s' : reachable allowed s0 s -> allowed o -> exec o s = Done s' tt -> reachable allowed s0 s'.

Lemma reachable_inv allowed s0 (I : Service -> Prop) :
  I s0 -> (forall o, allowed o -> keeps I (exec o) (fun _ => True)) -> forall s, reachable allowed s0 s -> I s.
Proof.
  intros H0 Hk s Hr. induction Hr as [|s o s' _ IH Ho E]; [done|].
  specialize (Hk o Ho s IH). rewrite E in Hk. by destruct Hk.
Qed.

(** ** Steps that keep an invariant *)

Section steps.
Variable I : Service -> Prop.

Abbreviation keep m := (keeps (E := Empty_set) I m (fun _ => True)).

Lemma keep_bind {A B} (m : st Service Empty_set A) (k : A -> st Service Empty_set B) :
  keep m -> (forall a, keep (k a)) -> keep (m ≫= k).
Proof. intros Hm Hk. eapply keeps_bind; [exact Hm|]. auto. Qed.

Lemma keep_ret {A} (a : A) : keep (mret a).
Proof. by apply keeps_ret. Qed.

Lemma keep_getS : keep getS.
Proof. by intros s Hs. Qed.

Lemma keep_orPanic {A} w (o : option A) : keep (orPanic w o).
Proof. intros s Hs. by destruct o. Qed.

Lemma keep_lockFree : keep lockFree.
Proof. intros s Hs. unfold lockFree, mbind, st_bind, getS. by destruct (mutexHeld (mil s)). Qed.

(** Only the caches change in the checks of chains. *)
Hypothesis I_cache : forall s l c, I s -> I (setCache l c s).

Lemma keep_acceptFork l n : keep (acceptFork l n).
Proof. intros s Hs. cbn. split; [by apply I_cache|done]. Qed.

Lemma keep_forkLoop fuel RH number hash lastN ph pn l : keep (forkLoop keccak fuel RH number hash lastN ph pn l).
Proof.
  revert ph pn l. induction fuel as [|fuel IH]; intros ph pn l; [apply keeps_panic|]. cbn [forkLoop].
  apply keep_bind; [apply keep_getS|]. intros s. case_if; [apply keep_acceptFork|].
  destruct (RH ph pn) as [h|]; [|apply keep_ret]. apply keep_bind; [apply keep_orPanic|]. intros n.
  repeat case_if; [apply keep_acceptFork|apply keep_ret|apply IH].
Qed.

Lemma keep_IsValidChain RH cur chain : keep (IsValidChain keccak milestoneFlag RH cur chain).
Proof.
  unfold IsValidChain. apply keep_bind; [apply keep_getS|]. intros s.
  apply keep_bind; [apply keep_orPanic|]. intros cp. case_if; [apply keep_ret|].
  apply keep_bind; [case_if; [apply keep_lockFree|apply keep_ret]|]. intros _.
  apply keep_bind; [apply keep_orPanic|]. intros m. repeat (case_if; [apply keep_ret|]).
  unfold checkForkCorrectness. destruct (head chain), (last chain); try apply keep_ret.
  apply keep_bind; [apply keep_orPanic|]. intros n1. apply keep_bind; [apply keep_orPanic|]. intros n2.
  apply keep_bind; [apply keep_lockFree|]. intros _. apply keep_bind; [apply keep_getS|]. intros s2.
  destruct (newestEntry s2) as [[]|]; [|apply keep_ret]. cbv zeta.
  repeat case_if; [apply keep_ret|apply keep_forkLoop|apply keep_ret].
Qed.

End steps.

(** ** The milestone's own invariant *)

(** The future list and its order are about the same milestones, without repetition
    and within capacity, and the service is locked exactly when it holds the id of a
    vote. *)
Record tidy (m : milestone) : Prop := mkTidy {
  tidy_nodup : NoDup (FutureMilestoneOrder m);
  tidy_dom : forall n, is_Some (FutureMilestoneList m !! n) <-> n ∈ FutureMilestoneOrder m;
  tidy_capacity : (length (FutureMilestoneOrder m) <= MaxCapacity m)%nat;
  tidy_lock : Locked m = true <-> LockedMilestoneIDs m <> ∅
}.

Abbreviation keepTidy m := (keeps (E := Empty_set) (fun s : Service => tidy (mil s)) m (fun _ => True)).

Lemma tidy_future order l m :
  tidy m -> NoDup order -> (forall n, is_Some (l !! n) <-> n ∈ order) -> (length order <= MaxCapacity m)%nat ->
  tidy (setFuture order l m).
Proof. intros [_ _ _ Hl] H1 H2 H3. by split. Qed.

Lemma tidy_setLock b n h ids m : tidy m -> (b = true <-> ids <> ∅) -> tidy (setLock b n h ids m).
Proof. intros [H1 H2 H3 _] Hl. by split. Qed.

Lemma tidy_modify (f : Service -> Service) :
  (forall s, tidy (mil s) -> tidy (mil (f s))) -> keepTidy (modify f).
Proof. intros H s Hs. split; [by apply H|done]. Qed.

Lemma tidy_writeDB f : keepTidy (writeDB f).
Proof. apply tidy_modify. intros s Hs. by destruct (dbWritable s). Qed.

Lemma tidy_WriteLockField : keepTidy WriteLockField.
Proof. unfold WriteLockField. apply keep_bind; [apply keep_getS|]. intros s. apply tidy_writeDB. Qed.

Lemma tidy_WriteFuture : keepTidy WriteFutureMilestoneList.
Proof. unfold WriteFutureMilestoneList. apply keep_bind; [apply keep_getS|]. intros s. apply tidy_writeDB. Qed.

(** A step that reads the milestone first. *)
Lemma tidy_read {A} (k : Service -> st Service Empty_set A) :
  (forall s, tidy (mil s) -> match k s s with Done s' _ | Fail s' _ => tidy (mil s') | Panicked _ => True end) ->
  keepTidy (s ← getS; k s).
Proof. intros H s Hs. specialize (H s Hs). unfold mbind, st_bind, getS. by destruct (k s s). Qed.

Lemma tidy_then {A} (f : milestone -> milestone) (m : st Service Empty_set A) s :
  tidy (f (mil s)) -> keepTidy m ->
  match (onMil f;; m) s with Done s' _ | Fail s' _ => tidy (mil s') | Panicked _ => True end.
Proof.
  intros Hf Hm. unfold mbind, st_bind, onMil, modify. specialize (Hm (setMil (f (mil s)) s) Hf).
  by destruct (m _) as [? ?|? []|]; [destruct Hm|].
Qed.

Lemma tidy_onMil (f : milestone -> milestone) : (forall m, tidy m -> tidy (f m)) -> keepTidy (onMil f).
Proof. intros H. apply tidy_modify. intros s Hs. by apply H. Qed.

Lemma tidy_unlockSprint n : keepTidy (unlockSprintLocked n).
Proof.
  apply tidy_read. intros s Hs. cbv zeta. case_if; [done|].
  apply (tidy_then (setLock false _ _ ∅)); [|apply tidy_WriteLockField]. by apply tidy_setLock.
Qed.

Lemma tidy_dequeue : keepTidy dequeueFutureMilestone.
Proof.
  apply tidy_read. intros s Hs. destruct (FutureMilestoneOrder (mil s)) as [|n order] eqn:E; [done|].
  apply (tidy_then (setFuture order _)); [|apply tidy_WriteFuture].
  pose proof Hs as [Hnd Hdom Hcap Hl]. rewrite E in Hnd, Hdom, Hcap. apply NoDup_cons in Hnd as [Hn Hnd].
  apply tidy_future; [done..| |cbn in Hcap |- *; lia].
  intros k. destruct (decide (k = n)) as [->|Hk].
  - rewrite lookup_delete_eq. split; [by intros []|done].
  - rewrite lookup_delete_ne, Hdom, elem_of_cons by done. naive_solver.
Qed.

Lemma tidy_dequeueLoop fuel i block : keepTidy (dequeueLoop fuel i block).
Proof.
  revert i. induction fuel as [|fuel IH]; intros i; [apply keep_ret|]. cbn [dequeueLoop].
  apply keep_bind; [apply keep_getS|]. intros s. destruct (_ !! i); [|apply keep_ret].
  case_if; [|apply keep_ret]. apply keep_bind; [apply tidy_dequeue|intros _; apply IH].
Qed.

Lemma tidy_enqueue n h s :
  tidy (mil s) -> (length (FutureMilestoneOrder (mil s)) < MaxCapacity (mil s))%nat ->
  match enqueueFutureMilestoneLocked n h s with Done s' _ | Fail s' _ => tidy (mil s') | Panicked _ => True end.
Proof.
  intros Hs Hlen. unfold enqueueFutureMilestoneLocked. unfold mbind at 1, st_bind at 1, getS. cbv zeta.
  destruct (FutureMilestoneList (mil s) !! n) as [x|] eqn:E; [done|].
  apply (tidy_then (setFuture _ _)); [|apply tidy_WriteFuture].
  pose proof Hs as [Hnd Hdom Hcap Hl]. assert (Hn : n ∉ FutureMilestoneOrder (mil s)).
  { rewrite <- Hdom, E. by intros []. }
  apply tidy_future; [done| | |rewrite length_app; cbn; lia].
  - apply NoDup_app. split; [done|]. split; [|apply NoDup_singleton].
    intros k Hk Hk'. apply list_elem_of_singleton in Hk'. by subst.
  - intros k. rewrite elem_of_app, list_elem_of_singleton. destruct (decide (k = n)) as [->|Hk].
    + rewrite lookup_insert_eq. naive_solver.
    + rewrite lookup_insert_ne, Hdom by done. naive_solver.
Qed.

Lemma tidy_ProcessFuture n h : keepTidy (ProcessFutureMilestone n h).
Proof.
  unfold ProcessFutureMilestone. apply keep_bind; [apply keep_lockFree|]. intros _. apply tidy_read. intros s Hs.
  destruct (_ <? _)%nat eqn:E.
  - apply Nat.ltb_lt in E. pose proof (tidy_enqueue n h s Hs E) as He. unfold mbind at 1, st_bind at 1.
    destruct (enqueueFutureMilestoneLocked n h s) as [s1 []|? []|]; [|done].
    pose proof (tidy_unlockSprint n s1 He) as Hu. by destruct (unlockSprintLocked n s1) as [? ?|? []|]; [destruct Hu|].
  - pose proof (tidy_unlockSprint n s Hs) as Hu. unfold mbind, st_bind, mret, st_ret.
    by destruct (unlockSprintLocked n s) as [? ?|? []|]; [destruct Hu|].
Qed.

Lemma fold_delete_lookup (P : Z -> bool) (order : list Z) (l : gmap Z Z) k :
  fold_left (fun l n => if P n then delete n l else l) order l !! k =
  (if bool_decide (k ∈ order) && P k then None else l !! k).
Proof.
  revert l. induction order as [|n order IH]; intros l; cbn [fold_left]; [done|]. rewrite IH.
  destruct (decide (k = n)) as [->|Hk].
  - rewrite (bool_decide_eq_true_2 (n ∈ n :: order)) by constructor. cbn.
    destruct (P n) eqn:E; [rewrite lookup_delete_eq; by case_match|].
    by rewrite andb_false_r.
  - assert (Hb : bool_decide (k ∈ n :: order) = bool_decide (k ∈ order)).
    { apply bool_decide_ext. rewrite elem_of_cons. naive_solver. }
    rewrite Hb. destruct (P n); [|done]. by rewrite lookup_delete_ne.
Qed.

Lemma tidy_trimFuture block m : tidy m -> tidy (trimFuture block m).
Proof.
  intros Hm. pose proof Hm as [Hnd Hdom Hcap _]. apply tidy_future; [done| | |].
  - by apply NoDup_ListNoDup, List.NoDup_filter, NoDup_ListNoDup.
  - intros n. rewrite (fold_delete_lookup (fun n => block <? n)).
    assert (Hin : n ∈ List.filter (fun n => negb (block <? n)) (FutureMilestoneOrder m) <->
                  n ∈ FutureMilestoneOrder m /\ negb (block <? n) = true).
    { rewrite !list_elem_of_In. apply filter_In. }
    rewrite Hin.
    destruct (bool_decide_reflect (n ∈ FutureMilestoneOrder m)) as [Hn|Hn]; cbn [andb].
    + destruct (block <? n); cbn; [|by rewrite Hdom; naive_solver]. split; [by intros []|by intros []].
    + rewrite Hdom. naive_solver.
  - etransitivity; [apply List.filter_length_le|done].
Qed.

Lemma tidy_PurgeAfter block : keepTidy (PurgeAfter block).
Proof.
  unfold PurgeAfter. apply keep_bind; [apply keep_lockFree|]. intros _.
  apply keep_bind; [apply keep_getS|]. intros s. cbv zeta. apply keep_bind.
  { case_if; [|apply keep_ret]. apply keep_bind; [apply tidy_writeDB|]. intros _.
    case_if; [|apply keep_ret]. apply tidy_onMil. by intros m [? ? ? ?]. }
  intros _. apply keep_bind; [apply keep_getS|]. intros s1. apply keep_bind.
  { case_if; [|apply keep_ret]. apply keep_bind; [|intros _; apply tidy_WriteLockField].
    apply tidy_onMil. intros m Hm. by apply tidy_setLock. }
  intros _. apply keep_bind; [apply keep_getS|]. intros s2. case_if; [|apply keep_ret].
  apply keep_bind; [|intros _; apply tidy_WriteFuture]. apply tidy_onMil. intros m. apply tidy_trimFuture.
Qed.

Lemma tidy_finality_Process k n h : keepTidy (finality_Process k n h).
Proof.
  unfold finality_Process. apply keep_bind; [|intros _; apply tidy_writeDB].
  apply tidy_modify. intros s [? ? ? ?]. by destruct k.
Qed.

Lemma tidy_purge k : keepTidy (finality_Purge k).
Proof. apply tidy_modify. intros s [? ? ? ?]. by destruct k. Qed.

Lemma tidy_LockMutex n : keepTidy (LockMutex n).
Proof.
  unfold LockMutex. apply keep_bind; [apply keep_lockFree|]. intros _.
  apply keep_bind; [apply tidy_onMil; by intros m [? ? ? ?]|]. intros _.
  apply keep_bind; [apply keep_getS|]. intros s. cbv zeta. case_if; apply keep_ret.
Qed.

(** What the writes leave. *)
Definition storeLock (s : Service) : Service :=
  let m := mil s in
  if dbWritable s then
    setStored (putLock (mkLockField (Locked m) (LockedMilestoneNumber m) (LockedMilestoneHash m) (LockedMilestoneIDs m))
                 (db s)) s
  else s.

Lemma WriteLockField_eq s : WriteLockField s = Done (storeLock s) tt.
Proof. done. Qed.

Lemma mil_storeLock s : mil (storeLock s) = mil s.
Proof. unfold storeLock. by destruct (dbWritable s). Qed.

(** The vote for a milestone replaces the lock, whatever it was. *)
Lemma UnlockMutex_locks id n h s :
  mutexHeld (mil s) = true ->
  exists s', UnlockMutex true id n h s = Done s' tt /\
    mil s' = setMutex false (setLock true n h {[id]} (mil s)) /\
    cpFinality s' = cpFinality s /\ dbWritable s' = dbWritable s /\
    (dbWritable s = true -> db s' = putLock (mkLockField true n h {[id]}) (db s)).
Proof.
  destruct s as [d w f [fin num hash locked ids l o cap bc held] ? ? ? ?]. cbn [mil mutexHeld]. intros ->.
  unfold UnlockMutex, unlockSprintLocked, WriteLockField, writeDB, onMil, modify, mbind, st_bind, getS.
  cbn. rewrite Z.ltb_irrefl. destruct w; cbn; eexists; (split; [reflexivity|]); cbn;
    by rewrite (union_empty_r_L (C := gset string)).
Qed.

Lemma UnlockMutex_unheld doLock id n h s :
  mutexHeld (mil s) = false -> UnlockMutex doLock id n h s = Panicked "unlock of unlocked RWMutex".
Proof.
  destruct s as [d w f [fin num hash locked ids l o cap bc held] ? ? ? ?]. cbn [mil mutexHeld]. intros ->.
  unfold UnlockMutex, unlockSprintLocked, WriteLockField, writeDB, onMil, modify, mbind, st_bind, getS.
  destruct doLock; cbn; [rewrite Z.ltb_irrefl|]; by destruct w.
Qed.

Lemma tidy_UnlockMutex doLock id n h : keepTidy (UnlockMutex doLock id n h).
Proof.
  destruct doLock.
  - intros s Hs. destruct (mutexHeld (mil s)) eqn:Em.
    + destruct (UnlockMutex_locks id n h s Em) as (s' & -> & -> & _). split; [|done].
      destruct Hs as [? ? ? _]. split; [done..|]. cbn. split; [|done]. intros _. set_solver.
    + by rewrite UnlockMutex_unheld.
  - unfold UnlockMutex. apply keep_bind.
    { apply tidy_onMil. intros m Hm. rewrite orb_false_r. apply tidy_setLock; [done|apply Hm]. }
    intros _. apply keep_bind; [apply keep_ret|]. intros _. apply keep_bind; [apply tidy_WriteLockField|]. intros _.
    apply keep_bind; [apply keep_getS|]. intros s. case_if; [|apply keeps_panic].
    apply tidy_onMil. by intros m [? ? ? ?].
Qed.

Lemma tidy_RemoveMilestoneID id : keepTidy (RemoveMilestoneID id).
Proof.
  unfold RemoveMilestoneID. apply keep_bind; [apply keep_lockFree|]. intros _.
  apply keep_bind; [|intros _; apply tidy_WriteLockField]. apply tidy_onMil. intros m Hm.
  apply tidy_setLock; [done|]. destruct (bool_decide_reflect (LockedMilestoneIDs m ∖ {[id]} = ∅)) as [E|E]; [done|].
  rewrite (tidy_lock _ Hm). split; [done|]. intros _ E2. apply E. set_solver.
Qed.

Lemma tidy_exec o : keepTidy (exec o).
Proof.
  destruct o; cbn [exec].
  - unfold ProcessMilestone, milestone_Process. apply keep_bind; [|intros _; by apply tidy_modify].
    apply keep_bind; [apply keep_lockFree|]. intros _. apply keep_bind; [apply tidy_finality_Process|]. intros _.
    apply keep_bind; [apply keep_getS|]. intros s. apply keep_bind; [apply tidy_dequeueLoop|]. intros _.
    apply tidy_unlockSprint.
  - apply keep_bind; [apply tidy_finality_Process|]. intros _. by apply tidy_modify.
  - apply keep_bind; [apply tidy_LockMutex|]. intros _. apply keep_ret.
  - apply tidy_UnlockMutex.
  - apply keep_bind; [apply keep_lockFree|]. intros _. apply tidy_unlockSprint.
  - apply tidy_RemoveMilestoneID.
  - apply tidy_ProcessFuture.
  - apply keep_bind; [apply tidy_PurgeAfter|]. intros _. by apply tidy_modify.
  - apply keep_bind; [apply keep_lockFree|]. intros _. apply tidy_purge.
  - apply tidy_purge.
  - apply keep_bind; [apply keep_lockFree|]. intros _. apply tidy_onMil. by intros m [? ? ? ?].
  - apply keep_bind; [by apply keep_IsValidChain|]. intros _. apply keep_ret.
  - by apply tidy_modify.
Qed.

(** The entries of a database that the service itself wrote. *)
Record goodDB (d : DB) : Prop := mkGoodDB {
  good_entries : forall k n h, ReadFinality k d = Some (n, h) -> h <> 0;
  good_lock : forall l, lockFieldKey d = Some l -> (lfVal l = true <-> lfIdList l <> ∅) /\ lfBlock l <= MaxInt64;
  good_future : forall order l, futureMilestoneKey d = Some (order, l) ->
    NoDup order /\ (forall n, is_Some (l !! n) <-> n ∈ order) /\ (length order <= 10)%nat
}.

Lemma NewService_tidy d w disable limit : goodDB d -> tidy (mil (NewService d w disable limit)).
Proof.
  intros [_ Hl Hf]. unfold NewService.
  set (l := match lockFieldKey d with Some l => _ | None => _ end).
  assert (Hlock : lfVal l = true <-> lfIdList l <> ∅).
  { unfold l. destruct (lockFieldKey d) as [x|] eqn:E; [|done]. destruct (lfVal x) eqn:Ex; [|done].
    apply (Hl x eq_refl). }
  destruct (futureMilestoneKey d) as [[order list]|] eqn:E; cbn.
  - destruct (Hf order list eq_refl) as (H1 & H2 & H3). split; cbn; [done..|]. by destruct (_ && _)%bool.
  - split; cbn; [constructor| |lia|by destruct (_ && _)%bool].
    intros n. rewrite lookup_empty. split; [by intros []|by intros H%elem_of_nil].
Qed.

(** ** Persistence *)

(** An entry of the whitelist as [NewService] reads it. *)
Definition entryOf (k : FinalityKind) (d : DB) : finality :=
  match ReadFinality k d with
  | Some (n, h) => mkFinality (negb (h =? 0)) n h
  | None => mkFinality false 0 0
  end.

Definition lockOf (m : milestone) : LockField :=
  mkLockField (Locked m) (LockedMilestoneNumber m) (LockedMilestoneHash m) (LockedMilestoneIDs m).

(** Memory and database hold the same. *)
Record synced (s : Service) : Prop := mkSynced {
  sync_writable : dbWritable s = true;
  sync_limit : maxForkCorrectnessLimit s <> 0;
  sync_capacity : MaxCapacity (mil s) = 10%nat;
  sync_entries : cpFinality s = entryOf Checkpoint (db s) /\ mFinality (mil s) = entryOf Milestone (db s);
  sync_hashes : forall k n h, ReadFinality k (db s) = Some (n, h) -> h <> 0;
  sync_lock : default (mkLockField false 0 0 ∅) (lockFieldKey (db s)) = lockOf (mil s);
  sync_small : LockedMilestoneNumber (mil s) <= MaxInt64;
  sync_ids : Locked (mil s) = false -> LockedMilestoneIDs (mil s) = ∅;
  sync_future : default ([], ∅) (futureMilestoneKey (db s)) = (FutureMilestoneOrder (mil s), FutureMilestoneList (mil s))
}.

Abbreviation keepSync m := (keeps (E := Empty_set) synced m (fun _ => True)).

Ltac explode s :=
  let w := fresh "w" in let held := fresh "held" in
  destruct s as [? w ? [? ? ? ? ? ? ? ? ? held] ? ? ? ?]; cbn [dbWritable mil mutexHeld] in *.

Lemma sync_setMutex b s : synced s -> synced (setMil (setMutex b (mil s)) s).
Proof. by intros [? ? ? ? ? ? ? ? ?]. Qed.

Lemma sync_setChain b s : synced s -> synced (setMil (setChain b (mil s)) s).
Proof. by intros [? ? ? ? ? ? ? ? ?]. Qed.

Lemma sync_setCache a c s : synced s -> synced (setCache a c s).
Proof. by intros [? ? ? ? ? ? ? ? ?]. Qed.

(** Changing the lock and writing it. *)
Lemma sync_relock b n h ids s :
  synced s -> n <= MaxInt64 -> (b = false -> ids = ∅) ->
  synced (storeLock (setMil (setLock b n h ids (mil s)) s)).
Proof.
  intros [Hw ? ? ? ? ? ? ? ?] Hn Hids. explode s. subst. unfold storeLock. cbn. by split.
Qed.

(** Changing the future list and writing it. *)
Lemma sync_refuture o l s :
  synced s ->
  synced (setStored (putFuture o l (db s)) (setMil (setFuture o l (mil s)) s)).
Proof. intros [Hw ? ? ? ? ? ? ? ?]. explode s. subst. by split. Qed.

Lemma sync_WriteFuture o l s :
  synced s ->
  exists s', (onMil (setFuture o l);; WriteFutureMilestoneList) s = Done s' tt /\ synced s' /\
             mil s' = setFuture o l (mil s).
Proof.
  intros Hs. pose proof (sync_refuture o l s Hs) as H.
  unfold onMil, WriteFutureMilestoneList, writeDB, modify, mbind, st_bind, getS.
  cbn [dbWritable setMil db mil setFuture FutureMilestoneOrder FutureMilestoneList].
  rewrite (sync_writable _ Hs). eexists. split; [reflexivity|]. by split.
Qed.

Lemma sync_unlockSprint n : keepSync (unlockSprintLocked n).
Proof.
  intros s Hs. unfold unlockSprintLocked, onMil, modify, mbind, st_bind, getS. cbv zeta. case_if; [done|].
  rewrite WriteLockField_eq. split; [|done]. apply sync_relock; [done|apply Hs|done].
Qed.

Lemma sync_dequeue : keepSync dequeueFutureMilestone.
Proof.
  intros s Hs. unfold dequeueFutureMilestone. unfold mbind at 1, st_bind at 1, getS.
  destruct (FutureMilestoneOrder (mil s)) as [|n o]; [done|].
  by destruct (sync_WriteFuture o (delete n (FutureMilestoneList (mil s))) s Hs) as (s' & -> & Hs' & _).
Qed.

Lemma sync_dequeueLoop fuel i block : keepSync (dequeueLoop fuel i block).
Proof.
  revert i. induction fuel as [|fuel IH]; intros i; [apply keep_ret|]. cbn [dequeueLoop].
  apply keep_bind; [apply keep_getS|]. intros s. destruct (_ !! i); [|apply keep_ret].
  case_if; [|apply keep_ret]. apply keep_bind; [apply sync_dequeue|intros _; apply IH].
Qed.

Lemma sync_Process k n h : h <> 0 -> keepSync (finality_Process k n h).
Proof.
  intros Hh s [Hw ? ? [Hc Hm] Hhash ? ? ? ?]. explode s. subst. cbn in Hc, Hm, Hhash.
  split; [|done]. assert (Hb : negb (h =? 0) = true) by (by apply negb_true_iff, Z.eqb_neq).
  destruct k; (split; try done; cbn [mil cpFinality db setStored putEntry setMil setCheckpoint setFinality mFinality];
    [split; [|]; (exact Hc || exact Hm || (unfold entryOf; cbn; by rewrite Hb))|]);
  intros k' n' h'; cbn; destruct k'; cbn; intros E; first [by simplify_eq | by apply (Hhash Milestone n' h')
    | by apply (Hhash Checkpoint n' h')].
Qed.

Lemma sync_LockMutex n : keepSync (LockMutex n).
Proof.
  unfold LockMutex. apply keep_bind; [apply keep_lockFree|]. intros _.
  apply keep_bind; [intros s Hs; split; [by apply sync_setMutex|done]|]. intros _.
  apply keep_bind; [apply keep_getS|]. intros s. cbv zeta. case_if; apply keep_ret.
Qed.

Lemma sync_UnlockMutex doLock id n h : n <= MaxInt64 -> keepSync (UnlockMutex doLock id n h).
Proof.
  intros Hn s Hs. destruct (mutexHeld (mil s)) eqn:Em; [|by rewrite UnlockMutex_unheld].
  destruct doLock.
  - assert (E : UnlockMutex true id n h s =
      Done (setMil (setMutex false (setLock true n h {[id]} (mil s)))
              (storeLock (setMil (setLock true n h {[id]} (mil s)) s))) tt).
    { destruct Hs as [Hw _ _ _ _ _ _ _ _]. explode s. subst.
      unfold UnlockMutex, unlockSprintLocked, WriteLockField, writeDB, onMil, modify, mbind, st_bind, getS.
      cbn. rewrite Z.ltb_irrefl. cbn. by rewrite (union_empty_r_L (C := gset string)). }
    rewrite E. split; [|done].
    pose proof (sync_setMutex false _ (sync_relock true n h ({[id]} : gset string) s Hs Hn ltac:(discriminate))) as H.
    rewrite mil_storeLock in H. exact H.
  - assert (E : UnlockMutex false id n h s = Done (setMil (setMutex false (mil s)) (storeLock s)) tt).
    { clear Hs. explode s. subst.
      unfold UnlockMutex, unlockSprintLocked, WriteLockField, writeDB, onMil, modify, mbind, st_bind, getS.
      cbn. rewrite orb_false_r. unfold storeLock. cbn. by destruct w. }
    rewrite E. split; [|done].
    pose proof (sync_relock (Locked (mil s)) (LockedMilestoneNumber (mil s)) (LockedMilestoneHash (mil s))
      (LockedMilestoneIDs (mil s)) s Hs (sync_small _ Hs) (sync_ids _ Hs)) as H.
    apply (sync_setMutex false) in H. rewrite mil_storeLock in H. unfold storeLock in *. cbn in *. by destruct (dbWritable s).
Qed.

Lemma sync_RemoveMilestoneID id : keepSync (RemoveMilestoneID id).
Proof.
  unfold RemoveMilestoneID. apply keep_bind; [apply keep_lockFree|]. intros _ s Hs.
  unfold onMil, modify, mbind, st_bind. rewrite WriteLockField_eq. split; [|done].
  apply sync_relock; [done|apply Hs|].
  destruct (bool_decide_reflect (LockedMilestoneIDs (mil s) ∖ {[id]} = ∅)) as [E|E]; [done|].
  intros El. apply (sync_ids _ Hs) in El. set_solver.
Qed.

Lemma sync_ProcessFuture n h : keepSync (ProcessFutureMilestone n h).
Proof.
  unfold ProcessFutureMilestone. apply keep_bind; [apply keep_lockFree|]. intros _.
  apply keep_bind; [apply keep_getS|]. intros s0. apply keep_bind; [|intros _; apply sync_unlockSprint].
  case_if; [|apply keep_ret]. intros s Hs. unfold enqueueFutureMilestoneLocked.
  unfold mbind at 1, st_bind at 1, getS. cbv zeta. destruct (_ !! n); [done|].
  destruct (sync_WriteFuture (FutureMilestoneOrder (mil s) ++ [n]) (<[n := h]> (FutureMilestoneList (mil s))) s Hs)
    as (s' & -> & Hs' & _). done.
Qed.

(** Dropping a stale milestone: it is stale on disk exactly when it is in memory. *)
Lemma sync_dropMilestone s :
  synced s ->
  synced (setMil (setFinality (mkFinality false 0 0) (mil s)) (setStored (putFinality Milestone None (db s)) s)).
Proof.
  intros [Hw ? ? [Hc Hm] Hhash ? ? ? ?]. explode s. split; try done.
  intros k n h. destruct k; [done|]. cbn. apply (Hhash Checkpoint).
Qed.

Lemma sync_PurgeAfter block : keepSync (PurgeAfter block).
Proof.
  unfold PurgeAfter. apply keep_bind; [apply keep_lockFree|]. intros _. cbv zeta.
  intros s Hs. unfold mbind at 1, st_bind at 1, getS.
  assert (Hstale : match ReadFinality Milestone (db s) with Some (n, _) => block <? n | None => false end =
                   doExist (mFinality (mil s)) && (block <? finNumber (mFinality (mil s)))).
  { rewrite (proj2 (sync_entries _ Hs)). unfold entryOf.
    destruct (ReadFinality Milestone (db s)) as [[n h]|] eqn:E; [|done]. cbn.
    by rewrite (proj2 (Z.eqb_neq h 0)) by (by eapply sync_hashes). }
  rewrite Hstale, orb_diag. clear Hstale.
  assert (Hrest : keepSync (s1 ← getS;
    (if Locked (mil s1) && (block <? LockedMilestoneNumber (mil s1)) then onMil (setLock false 0 0 ∅);; WriteLockField
     else mret tt);;
    s2 ← getS;
    if (0 <? length (FutureMilestoneOrder (mil s2)))%nat &&
       negb (length (FutureMilestoneOrder (trimFuture block (mil s2))) =? length (FutureMilestoneOrder (mil s2)))%nat
    then onMil (trimFuture block);; WriteFutureMilestoneList else mret tt)).
  { apply keep_bind; [apply keep_getS|]. intros s1. apply keep_bind.
    - case_if; [|apply keep_ret]. clear s Hs. intros s Hs. unfold onMil, modify, mbind, st_bind. rewrite WriteLockField_eq.
      split; [|done]. apply sync_relock; [done|unfold MaxInt64; lia|done].
    - intros _. apply keep_bind; [apply keep_getS|]. intros s2. case_if; [|apply keep_ret].
      clear s Hs. intros s Hs.
      destruct (sync_WriteFuture (FutureMilestoneOrder (trimFuture block (mil s)))
        (FutureMilestoneList (trimFuture block (mil s))) s Hs) as (s' & E & Hs' & _).
      change ((onMil (trimFuture block);; WriteFutureMilestoneList) s) with
        ((onMil (setFuture (FutureMilestoneOrder (trimFuture block (mil s)))
           (FutureMilestoneList (trimFuture block (mil s))));; WriteFutureMilestoneList) s). rewrite E. done. }
  unfold mbind at 1, st_bind at 1. case_if.
  - unfold writeDB, onMil, modify, mbind at 1, st_bind at 1. rewrite (sync_writable _ Hs).
    apply Hrest. exact (sync_dropMilestone s Hs).
  - by apply Hrest.
Qed.

(** The operations that leave memory and database in step: no entry is dropped from
    memory only, hashes are not zero, and votes are below [MaxInt64], which
    [GetVoteOnHash] checks. *)
Definition durable (o : op) : Prop :=
  match o with
  | OpProcessMilestone _ h | OpProcessCheckpoint _ h => h <> 0
  | OpUnlockMutex _ _ n _ => n <= MaxInt64
  | OpPurgeMilestone | OpPurgeCheckpoint => False
  | OpWritable b => b = true
  | _ => True
  end.

Lemma sync_exec o : durable o -> keepSync (exec o).
Proof.
  intros Ho. destruct o; cbn [exec durable] in *; try done.
  - unfold ProcessMilestone, milestone_Process.
    apply keep_bind; [|intros _ s Hs; split; [by apply sync_setCache|done]].
    apply keep_bind; [apply keep_lockFree|]. intros _. apply keep_bind; [by apply sync_Process|]. intros _.
    apply keep_bind; [apply keep_getS|]. intros s. apply keep_bind; [apply sync_dequeueLoop|]. intros _.
    apply sync_unlockSprint.
  - apply keep_bind; [by apply sync_Process|]. intros _ s Hs. split; [by apply sync_setCache|done].
  - apply keep_bind; [apply sync_LockMutex|]. intros _. apply keep_ret.
  - by apply sync_UnlockMutex.
  - apply keep_bind; [apply keep_lockFree|]. intros _. apply sync_unlockSprint.
  - apply sync_RemoveMilestoneID.
  - apply sync_ProcessFuture.
  - apply keep_bind; [apply sync_PurgeAfter|]. intros _ s Hs. split; [by apply sync_setCache|done].
  - apply keep_bind; [apply keep_lockFree|]. intros _ s Hs. split; [by apply sync_setChain|done].
  - apply keep_bind; [apply keep_IsValidChain; intros; by apply sync_setCache|]. intros _. apply keep_ret.
  - intros s [Hw ? ? ? ? ? ? ? ?]. subst. by split.
Qed.

Lemma NewService_synced d disable limit : goodDB d -> synced (NewService d true disable limit).
Proof.
  intros [He Hl Hf]. unfold NewService.
  set (l := match lockFieldKey d with Some l => _ | None => _ end).
  assert (Hsmall : lfBlock l <= MaxInt64 /\ (lfVal l = false -> lfIdList l = ∅) /\
                   default (mkLockField false 0 0 ∅) (lockFieldKey d) = l).
  { unfold l. destruct (lockFieldKey d) as [x|]; [|cbn; unfold MaxInt64; split; [lia|done]].
    destruct (Hl x eq_refl) as [Hx Hb]. destruct x as [v b h ids]. cbn in *.
    destruct v; [by split|]. split; [done|]. split; [done|]. cbn. f_equal.
    destruct (decide (ids = ∅)) as [->|Hn]; [done|]. by apply Hx in Hn. }
  destruct Hsmall as (Hsmall & Hids & Hdef).
  assert (Hbad : lfVal l && (MaxInt64 <? lfBlock l) = false).
  { rewrite (proj2 (Z.ltb_ge _ _)) by done. apply andb_false_r. }
  rewrite Hbad. cbn [andb].
  assert (Hlim : (if limit =? 0 then DefaultMaxForkCorrectnessLimit else limit) <> 0).
  { unfold DefaultMaxForkCorrectnessLimit. case_if; bool_to_prop; lia. }
  destruct (default ([], ∅) (futureMilestoneKey d)) as [order list] eqn:E.
  split; cbn; try done. by rewrite Hdef; destruct l.
Qed.

(** What a restart makes of a service. *)
Definition restarted (s : Service) : Service :=
  mkService (db s) true (cpFinality s) (setMutex false (setChain false (mil s))) (disableBlindForkValidation s)
    (maxForkCorrectnessLimit s) 0 ∅.

Lemma synced_restart s :
  synced s -> NewService (db s) true (disableBlindForkValidation s) (maxForkCorrectnessLimit s) = restarted s.
Proof.
  intros [Hw Hlim Hcap [Hc Hm] Hhash Hl Hsmall Hids Hf]. unfold NewService, restarted.
  rewrite (proj2 (Z.eqb_neq _ _) Hlim), Hf. fold (entryOf Checkpoint (db s)). fold (entryOf Milestone (db s)).
  rewrite <- Hc, <- Hm.
  assert (El : match lockFieldKey (db s) with
               | Some l => if lfVal l then l else mkLockField false (lfBlock l) (lfHash l) ∅
               | None => mkLockField false 0 0 ∅ end = lockOf (mil s)).
  { destruct (lockFieldKey (db s)) as [x|]; cbn in Hl; [|done]. subst x.
    unfold lockOf. cbn. destruct (Locked (mil s)) eqn:E; [done|]. by rewrite Hids. }
  rewrite El. cbn [lfVal lockOf lfBlock lfHash lfIdList].
  rewrite (proj2 (Z.ltb_ge _ _)) by done. rewrite andb_false_r. cbn [andb lfVal lfBlock lfHash lfIdList].
  f_equal. explode s. cbn in *. by subst.
Qed.

End ops.

(** ** Properties *)

(** C31: whatever the node does with the whitelist after it is opened on its own
    database, the queue of future milestones lists each milestone of the map once
    and within capacity, and the service is locked exactly while it holds the id of
    a vote.  This holds also when the database refuses writes. *)
Theorem whitelist_invariant keccak milestoneFlag d w disable limit s :
  goodDB d -> reachable keccak milestoneFlag (fun _ => True) (NewService d w disable limit) s -> tidy (mil s).
Proof.
  intros Hd. apply (reachable_inv _ _ _ _ (fun s => tidy (mil s))); [by apply NewService_tidy|].
  intros o _. apply tidy_exec.
Qed.

(** C32: the whitelist survives a restart, for the runs that are [durable]: from a
    service opened on a readable database, over every sequence of operations in which
    no entry is purged from memory alone ([Purge]), no write fails, no zero hash is
    whitelisted and votes are below [MaxInt64], a service opened on the database the
    run left has the checkpoint, the milestone, the lock and the future milestones
    that were in memory; only the caches, the reference to the chain and a held
    mutex are gone. *)
Theorem restart_restores keccak milestoneFlag d disable limit s :
  goodDB d -> reachable keccak milestoneFlag durable (NewService d true disable limit) s ->
  NewService (db s) true (disableBlindForkValidation s) (maxForkCorrectnessLimit s) = restarted s.
Proof.
  intros Hd Hr. apply synced_restart. revert s Hr.
  apply (reachable_inv _ _ _ _ synced); [by apply NewService_synced|]. apply sync_exec.
Qed.

(** [Process] does not remove all the future milestones it passes: the index of
    its loop goes up while the queue is shortened from the front, so every second
    one is skipped.  With 10, 20 and 30 queued, milestone 25 leaves 20 in the
    queue. *)
Theorem Process_leaves_passed :
  match (ProcessFutureMilestone 10 1;; ProcessFutureMilestone 20 2;; ProcessFutureMilestone 30 3;;
         ProcessMilestone 25 9) (NewService emptyDB true false 0) with
  | Done s _ => FutureMilestoneOrder (mil s) = [20; 30] /\ FutureMilestoneList (mil s) !! 20 = Some 2 /\
                finNumber (mFinality (mil s)) = 25
  | _ => False
  end.
Proof. vm_compute. done. Qed.

(** ** Examples *)

Lemma emptyDB_good : goodDB emptyDB.
Proof. split; [intros []|..]; done. Qed.

(** A vote for milestone 100, a milestone above the head, a checkpoint. *)
Definition demoOps : list op :=
  [OpLockMutex 100; OpUnlockMutex true "vote" 100 7; OpProcessFutureMilestone 90 9; OpProcessCheckpoint 50 5].

Fixpoint runOps (ops : list op) (s : Service) : Service :=
  match ops with
  | [] => s
  | o :: ops' => match exec SetBytes true o s with Done s' _ => runOps ops' s' | _ => s end
  end.

Definition demoService : Service := runOps demoOps (NewService emptyDB true false 0).

Lemma demo_reachable : reachable SetBytes true durable (NewService emptyDB true false 0) demoService.
Proof.
  apply (reachable_step _ _ _ _ (runOps (take 3 demoOps) (NewService emptyDB true false 0)) (OpProcessCheckpoint 50 5));
    [|done|vm_compute; reflexivity].
  apply (reachable_step _ _ _ _ (runOps (take 2 demoOps) (NewService emptyDB true false 0))
    (OpProcessFutureMilestone 90 9)); [|done|vm_compute; reflexivity].
  apply (reachable_step _ _ _ _ (runOps (take 1 demoOps) (NewService emptyDB true false 0))
    (OpUnlockMutex true "vote" 100 7)); [|done|vm_compute; reflexivity].
  eapply (reachable_step _ _ _ _ _ (OpLockMutex 100)); [apply reachable_start|done|vm_compute; reflexivity].
Qed.

Lemma reachable_weaken keccak flag (P Q : op -> Prop) s0 s :
  (forall o, P o -> Q o) -> reachable keccak flag P s0 s -> reachable keccak flag Q s0 s.
Proof. intros H Hr. induction Hr; [constructor|]. econstructor; [done|by apply H|done]. Qed.

Lemma whitelist_invariant_witness :
  tidy (mil demoService) /\ Locked (mil demoService) = true /\ FutureMilestoneOrder (mil demoService) = [90].
Proof.
  split; [|by vm_compute].
  apply (whitelist_invariant SetBytes true emptyDB true false 0); [apply emptyDB_good|].
  by apply (reachable_weaken _ _ durable), demo_reachable.
Defined.

Lemma restart_restores_witness :
  NewService (db demoService) true false 256 = restarted demoService /\
  LockedMilestoneNumber (mil (restarted demoService)) = 100 /\ finNumber (cpFinality (restarted demoService)) = 50.
Proof.
  split; [|by vm_compute].
  exact (restart_restores SetBytes true emptyDB false 0 demoService emptyDB_good demo_reachable).
Defined.

End WhitelistProps.
