(* ===== verification/WhitelistChain.v ===== *)
(** * Which chains the whitelist accepts

    The checks of an incoming chain against the last checkpoint and milestone, the
    lock, the future milestones, and the fork it builds on. *)

From S2P Require Import Prelude Bytes Header HeaderProps Seal Engine EngineDemo Whitelist WhitelistProps.

Module WhitelistChain.
Import Header Whitelist.

(** ** Chains *)

(** Headers with consecutive numbers from [n0]. *)
Record chainFrom (n0 : Z) (chain : list Header) : Prop := mkChainFrom {
  chain_start : 0 <= n0;
  chain_end : n0 + Z.of_nat (length chain) <= MaxInt64;
  chain_numbers : forall i h, chain !! i = Some h -> Number h = Some (n0 + Z.of_nat i);
  chain_nonempty : chain <> []
}.

Lemma nonempty_length {A} (l : list A) : l <> [] -> (1 <= length l)%nat.
Proof. destruct l; [done|cbn; lia]. Qed.

Section chains.
Variables (n0 : Z) (chain : list Header).
Hypothesis Hc : chainFrom n0 chain.

Definition tip : Z := n0 + Z.of_nat (length chain) - 1.

Lemma chain_num i h : chain !! i = Some h -> numU64 h = Some (n0 + Z.of_nat i).
Proof.
  intros Hi. unfold numU64. rewrite (chain_numbers _ _ Hc i h Hi). cbn. f_equal.
  pose proof (lookup_lt_Some _ _ _ Hi). destruct Hc as [? ? _ _].
  rewrite Z.abs_eq by lia. apply u64_small. wsolve.
Qed.

Lemma chain_elem h : h ∈ chain -> exists i, chain !! i = Some h /\ numU64 h = Some (n0 + Z.of_nat i).
Proof. intros [i Hi]%list_elem_of_lookup. exists i. split; [done|by apply chain_num]. Qed.

Lemma chain_unique h h' n : h ∈ chain -> h' ∈ chain -> numU64 h = Some n -> numU64 h' = Some n -> h = h'.
Proof.
  intros (i & Hi & Ei)%chain_elem (j & Hj & Ej)%chain_elem E E'. rewrite Ei in E. rewrite Ej in E'.
  simplify_eq. assert (i = j) by lia. subst. congruence.
Qed.

Lemma chain_head : exists h, head chain = Some h /\ numU64 h = Some n0.
Proof.
  assert (E0 : head chain = chain !! 0%nat) by (by destruct chain). rewrite E0.
  destruct (lookup_lt_is_Some_2 chain 0) as [h Eh]; [apply nonempty_length, Hc|].
  exists h. split; [done|]. rewrite <- (Z.add_0_r n0). by apply (chain_num 0).
Qed.

Lemma chain_last : exists h, last chain = Some h /\ numU64 h = Some tip.
Proof.
  destruct (last chain) as [h|] eqn:E.
  - exists h. split; [done|]. rewrite last_lookup in E. apply chain_num in E as ->. f_equal. unfold tip.
    pose proof (nonempty_length _ (chain_nonempty _ _ Hc)). lia.
  - apply last_None in E. by destruct (chain_nonempty _ _ Hc).
Qed.

(** The search by number finds the header of that number. *)
Lemma findNumber_spec n l :
  (forall h, h ∈ l -> h ∈ chain) ->
  exists o, findNumber n l = Some o /\
    match o with
    | Some h => h ∈ l /\ numU64 h = Some n
    | None => forall h, h ∈ l -> numU64 h <> Some n
    end.
Proof.
  induction l as [|h l IH]; intros Hl; cbn [findNumber].
  { exists None. split; [done|]. by intros h Hh%elem_of_nil. }
  destruct (chain_elem h) as (i & _ & Ei); [apply Hl; constructor|]. rewrite Ei. cbn [mbind option_bind].
  destruct (Z.eqb_spec (n0 + Z.of_nat i) n) as [En|En].
  { exists (Some h). split; [done|]. split; [constructor|congruence]. }
  destruct IH as (o & Eo & Ho); [intros; apply Hl; by constructor|]. exists o. split; [exact Eo|].
  destruct o as [h'|]; [split; [by constructor; apply Ho|apply Ho]|].
  intros h' [->|Hh']%elem_of_cons; [congruence|by apply Ho].
Qed.

(** The past of a chain is its part up to the current number. *)
Lemma splitChain_past current :
  0 <= current <= MaxInt64 ->
  exists past future, splitChain current chain = Some (past, future) /\
    forall h, h ∈ past <-> h ∈ chain /\ exists n, numU64 h = Some n /\ n <= current.
Proof.
  intros Hcur. destruct chain_head as (h0 & E0 & En0), chain_last as (hl & El & Enl).
  pose proof (chain_start _ _ Hc). pose proof (chain_end _ _ Hc). pose proof (nonempty_length _ (chain_nonempty _ _ Hc)) as Hlen.
  assert (Hall : tip <= current -> forall h, h ∈ chain <-> h ∈ chain /\ exists n, numU64 h = Some n /\ n <= current).
  { intros Ht h. split; [|by intros []]. intros Hh. split; [done|]. destruct (chain_elem h Hh) as (i & Hi & Ei).
    exists (n0 + Z.of_nat i). split; [done|]. apply lookup_lt_Some in Hi. unfold tip in Ht. lia. }
  assert (Hnone : current < n0 -> forall h, h ∈ [] <-> h ∈ chain /\ exists n, numU64 h = Some n /\ n <= current).
  { intros Ht h. split; [by intros Hh%elem_of_nil|]. intros [Hh (n & En & Hn)].
    destruct (chain_elem h Hh) as (i & Hi & Ei). rewrite Ei in En. simplify_eq. lia. }
  unfold splitChain. rewrite E0, El. cbn [mbind option_bind]. rewrite En0, Enl. cbn [mbind option_bind].
  assert (Hu : n0 <= current < tip -> u64 (current - n0 + 1) = current - n0 + 1).
  { intros Ht. apply u64_small. unfold tip in Ht. wsolve. }
  assert (Hsplit : n0 <= current < tip -> splitAt (u64 (current - n0 + 1)) chain =
    Some (take (Z.to_nat (current - n0 + 1)) chain, drop (Z.to_nat (current - n0 + 1)) chain)).
  { intros Ht. rewrite Hu by done. unfold splitAt. rewrite (proj2 (Z.ltb_ge _ _)) by (unfold tip in Ht; lia). done. }
  destruct (Z.leb_spec n0 current) as [H1|H1].
  - destruct (Z.leb_spec tip current) as [H2|H2].
    + rewrite orb_true_r, (proj2 (Z.ltb_ge current tip)) by lia. eexists _, _. split; [reflexivity|by apply Hall].
    + rewrite orb_false_r, (proj2 (Z.ltb_lt current tip)) by lia. rewrite (proj2 (Z.ltb_ge current n0)) by lia.
      rewrite orb_false_r. destruct (Nat.eqb_spec (length chain) 1) as [Hl|Hl].
      { unfold tip in H2. lia. }
      rewrite Hsplit by lia. eexists _, _. split; [reflexivity|]. intros h.
      rewrite list_elem_of_lookup. split.
      * intros [i Hi]. apply lookup_take_Some in Hi as [Hi Hlt]. split; [by apply list_elem_of_lookup; exists i|].
        exists (n0 + Z.of_nat i). split; [by apply chain_num|lia].
      * intros [Hh (n & En & Hn)]. destruct (chain_elem h Hh) as (i & Hi & Ei). rewrite Ei in En. simplify_eq.
        exists i. apply lookup_take_Some. split; [done|lia].
  - rewrite (proj2 (Z.ltb_lt current tip)) by (unfold tip; lia). rewrite (proj2 (Z.ltb_lt current n0)) by lia.
    rewrite orb_true_r. eexists _, _. split; [reflexivity|by apply Hnone].
Qed.

(** ** The checks *)

Variable keccak : list Z -> Z.
Abbreviation hashOf := (Seal.Hash keccak).

(** A whitelisted entry at or below the current block is not reorganized away: the
    chain reaches it, and its block of that number is the whitelisted one. *)
Definition respectsEntry (f : finality) (current : Z) : Prop :=
  doExist f = true -> finNumber f <= current ->
  finNumber f <= tip /\ forall h, h ∈ chain -> numU64 h = Some (finNumber f) -> hashOf h = finHash f.

Lemma isValidChain_exact f cur current :
  numU64 cur = Some current -> 0 <= current <= MaxInt64 ->
  exists b, finality_IsValidChain keccak cur chain f = Some b /\ (b = true <-> respectsEntry f current).
Proof.
  intros Ecur Hcur. unfold finality_IsValidChain, isValidChain, respectsEntry.
  assert (Hlen : (length chain =? 0)%nat = false).
  { apply Nat.eqb_neq. pose proof (nonempty_length _ (chain_nonempty _ _ Hc)). lia. }
  rewrite Hlen. destruct (doExist f); cbn [negb]; [|by exists true].
  destruct chain_last as (hl & El & Enl). rewrite Ecur, El. cbn [mbind option_bind]. rewrite Enl.
  cbn [mbind option_bind]. destruct (Z.ltb_spec tip (finNumber f)) as [Ht|Ht].
  { eexists. split; [reflexivity|]. rewrite negb_true_iff, Z.leb_gt. split; [lia|].
    intros H. destruct (Z.le_gt_cases (finNumber f) current) as [Hle|]; [|done]. destruct (H eq_refl Hle). lia. }
  destruct (splitChain_past current Hcur) as (past & future & -> & Hpast). cbn [mbind option_bind].
  destruct (findNumber_spec (finNumber f) (reverse past)) as (o & -> & Ho).
  { intros h Hh. rewrite elem_of_reverse in Hh. by apply Hpast in Hh as []. }
  cbn [mbind option_bind]. destruct o as [h|].
  - destruct Ho as [Hh En]. rewrite elem_of_reverse in Hh. apply Hpast in Hh as [Hh (n & En' & Hn)].
    eexists. split; [reflexivity|]. rewrite Z.eqb_eq. split.
    + intros Heq _ _. split; [done|]. intros h' Hh' En2. by rewrite (chain_unique h' h (finNumber f)).
    + intros H. rewrite En in En'. simplify_eq. by apply H.
  - exists true. split; [done|]. split; [|done]. intros _ _ Hle. split; [done|]. intros h Hh En.
    exfalso. apply (Ho h); [|done]. rewrite elem_of_reverse. apply Hpast. split; [done|]. by exists (finNumber f).
Qed.

(** The locked milestone is strictly inside the chain or below it. *)
Definition respectsLock (m : milestone) : Prop :=
  Locked m = true ->
  LockedMilestoneNumber m < tip /\
  forall h, h ∈ chain -> numU64 h = Some (LockedMilestoneNumber m) -> hashOf h = LockedMilestoneHash m.

Lemma IsReorgAllowed_exact n hash :
  exists b, IsReorgAllowed keccak chain n hash = Some b /\
    (b = true <-> n < tip /\ forall h, h ∈ chain -> numU64 h = Some n -> hashOf h = hash).
Proof.
  unfold IsReorgAllowed. destruct chain_last as (hl & El & Enl). rewrite El. cbn [mbind option_bind].
  rewrite Enl. cbn [mbind option_bind]. destruct (Z.leb_spec tip n) as [Ht|Ht].
  { exists false. split; [done|]. split; [done|]. intros []. lia. }
  destruct (findNumber_spec n chain) as (o & -> & Ho); [done|]. cbn [mbind option_bind]. destruct o as [h|].
  - destruct Ho as [Hh En]. eexists. split; [reflexivity|]. rewrite Z.eqb_eq. split; [|intros [_ H]; by apply H].
    intros Heq. split; [done|]. intros h' Hh' En'. by rewrite (chain_unique h' h n).
  - exists true. split; [done|]. split; [|done]. intros _. split; [done|]. intros h Hh En. by destruct (Ho h Hh).
Qed.

(** Of the future milestones the chain has a block for, the one queued last is
    right. *)
Definition respectsFuture (m : milestone) : Prop :=
  forall before n after, FutureMilestoneOrder m = before ++ n :: after ->
    (forall k h, k ∈ after -> h ∈ chain -> numU64 h <> Some k) ->
    forall h, h ∈ chain -> numU64 h = Some n -> hashOf h = default 0 (FutureMilestoneList m !! n).

Lemma futureLoop_exact l order :
  exists b, futureLoop keccak chain tip l order = Some b /\
    (b = true <->
     forall before n after, order = before ++ n :: after ->
       (forall k h, k ∈ before -> h ∈ chain -> numU64 h <> Some k) ->
       forall h, h ∈ chain -> numU64 h = Some n -> hashOf h = default 0 (l !! n)).
Proof.
  induction order as [|n order (b & Eb & Hb)]; cbn [futureLoop].
  { exists true. split; [done|]. split; [|done]. by intros _ [|] n after. }
  destruct (findNumber_spec n (reverse chain)) as (o & Eo & Ho); [intros h; by rewrite elem_of_reverse|].
  assert (Hskip : (forall h, h ∈ chain -> numU64 h <> Some n) ->
    (b = true <-> forall before n' after, n :: order = before ++ n' :: after ->
       (forall k h, k ∈ before -> h ∈ chain -> numU64 h <> Some k) ->
       forall h, h ∈ chain -> numU64 h = Some n' -> hashOf h = default 0 (l !! n'))).
  { intros Hn. rewrite Hb. split; intros H before n' after E Hbef h Hh En.
    - destruct before as [|k before]; simplify_eq/=; [by destruct (Hn h Hh)|].
      apply (H before n' after); [done| |done..]. intros k' h' Hk'. apply Hbef. by constructor.
    - apply (H (n :: before) n' after); [by rewrite E| |done..].
      intros k h' [->|Hk]%elem_of_cons Hh'; [by apply Hn|by apply Hbef]. }
  destruct (Z.leb_spec n tip) as [Ht|Ht].
  - rewrite Eo. cbn [mbind option_bind]. destruct o as [h|].
    + destruct Ho as [Hh En]. rewrite elem_of_reverse in Hh. eexists. split; [reflexivity|]. rewrite Z.eqb_eq. split.
      * intros Heq before n' after E Hbef h' Hh' En'.
        destruct before as [|k before]; simplify_eq/=; [by rewrite (chain_unique h' h n')|].
        by destruct (Hbef k h); [constructor|..].
      * intros H. by apply (H [] n order); [done|intros k h' Hk%elem_of_nil|..].
    + exists b. split; [done|]. apply Hskip. intros h Hh. apply Ho. by rewrite elem_of_reverse.
  - exists b. split; [done|]. apply Hskip. intros h Hh En. destruct (chain_elem h Hh) as (i & Hi & Ei).
    apply lookup_lt_Some in Hi. rewrite Ei in En. simplify_eq. unfold tip in Ht. lia.
Qed.

End chains.

(** ** Fork correctness *)

Section fork.
Variable keccak : list Z -> Z.
Abbreviation hashOf := (Seal.Hash keccak).

(** The headers ever seen, by hash, and those of the database. *)
Variable block : Z -> option Header.
Variable ReadHeader : Z -> Z -> option Header.

(** Hashes separate headers, and the database returns what it is asked for. *)
Record honest : Prop := mkHonest {
  honest_hash : forall k h, block k = Some h -> hashOf h = k;
  honest_db : forall k n h, ReadHeader k n = Some h -> block k = Some h /\ numU64 h = Some n
}.
Hypothesis Hh : honest.

Variables number hash : Z.

(** The blocks that build on the whitelisted one. *)
Inductive descends : Z -> Prop :=
| desc_at h : block hash = Some h -> numU64 h = Some number -> descends hash
| desc_up k h n : block k = Some h -> numU64 h = Some n -> number < n -> descends (ParentHash h) -> descends k.

(** The database shows that block [k] at height [n] builds on another block. *)
Inductive conflicts : Z -> Z -> Prop :=
| conf_at k h : ReadHeader k number = Some h -> hashOf h <> hash -> conflicts k number
| conf_up k n h : ReadHeader k n = Some h -> number < n -> conflicts (ParentHash h) (n - 1) -> conflicts k n.

Lemma descends_conflicts k n : descends k -> conflicts k n -> False.
Proof.
  intros Hd. revert n. induction Hd as [h Eb En|k h m Eb En Hm Hd IH]; intros n Hconf.
  - inversion Hconf as [k' h' ER Hne|k' n' h' ER Hlt]; subst.
    + apply (honest_db Hh) in ER as [Eb' _]. rewrite Eb in Eb'. simplify_eq. by apply Hne, (honest_hash Hh).
    + apply (honest_db Hh) in ER as [Eb' En']. rewrite Eb in Eb'. simplify_eq. lia.
  - inversion Hconf as [k' h' ER Hne|k' n' h' ER Hlt Hc]; subst.
    + apply (honest_db Hh) in ER as [Eb' En']. rewrite Eb in Eb'. simplify_eq. lia.
    + apply (honest_db Hh) in ER as [Eb' En']. rewrite Eb in Eb'. simplify_eq. by eapply IH.
Qed.

Definition coherentForks (s : Service) : Prop := forall k, k ∈ forkValidationCache s -> descends k.

Lemma acceptFork_coherent blocks lastN s :
  coherentForks s -> (forall k, k ∈ blocks -> descends k) ->
  exists s', acceptFork blocks lastN s = Done s' true /\ coherentForks s' /\ s' = setCache (lastValidForkBlock s')
    (forkValidationCache s') s.
Proof.
  intros Hs Hb. eexists. split; [reflexivity|]. split; [|done]. intros k. cbn.
  rewrite elem_of_union, elem_of_list_to_set. intros [?|?]; [by apply Hb|by apply Hs].
Qed.

(** The walk back decides whether the block conflicts. *)
Lemma forkLoop_exact fuel lastN p pn blocks s :
  coherentForks s -> number <= pn <= MaxInt64 -> 0 <= number -> (Z.to_nat (pn - number) < fuel)%nat ->
  (descends p -> forall k, k ∈ blocks -> descends k) ->
  exists s' b, forkLoop keccak fuel ReadHeader number hash lastN p pn blocks s = Done s' b /\
    coherentForks s' /\ s' = setCache (lastValidForkBlock s') (forkValidationCache s') s /\
    (b = false <-> conflicts p pn).
Proof.
  revert p pn blocks. induction fuel as [|fuel IH]; intros p pn blocks Hs Hpn H0 Hf Hb; [lia|].
  cbn [forkLoop]. unfold mbind at 1, st_bind at 1, getS.
  destruct (bool_decide_reflect (p ∈ forkValidationCache s)) as [Hp|Hp].
  { destruct (acceptFork_coherent blocks lastN s Hs (Hb (Hs p Hp))) as (s' & -> & Hs' & Es').
    exists s', true. split_and!; [done..|]. split; [done|]. intros Hc. by destruct (descends_conflicts p pn (Hs p Hp) Hc). }
  destruct (ReadHeader p pn) as [h|] eqn:ER.
  2: { exists s, true. split; [done|]. split; [done|]. split; [by destruct s|]. split; [done|].
       intros Hc. inversion Hc; congruence. }
  destruct (honest_db Hh _ _ _ ER) as [Eb En]. rewrite En. cbn [orPanic].
  rewrite (bind_eq (mret pn) _ s s pn eq_refl). destruct (Z.eqb_spec pn number) as [->|Hne].
  - destruct (Z.eqb_spec (hashOf h) hash) as [Eh|Eh].
    + assert (Hd : descends p).
      { pose proof (honest_hash Hh _ _ Eb) as Ep. assert (p = hash) as -> by congruence. by eapply desc_at. }
      destruct (acceptFork_coherent blocks lastN s Hs (Hb Hd)) as (s' & -> & Hs' & Es').
      exists s', true. split_and!; [done..|]. split; [done|]. intros Hc. by destruct (descends_conflicts p number Hd Hc).
    + exists s, false. split; [done|]. split; [done|]. split; [by destruct s|]. split; [|done]. intros _. by eapply conf_at.
  - rewrite (u64_small (pn - 1)) by wsolve.
    destruct (IH (ParentHash h) (pn - 1) (blocks ++ [hashOf h]) Hs) as (s' & b & E & Hs' & Es' & Hconf); [lia|lia|lia| |].
    { intros Hd k. rewrite elem_of_app, list_elem_of_singleton.
      assert (Hdp : descends p) by (eapply desc_up; [done..|lia|done]).
      intros [Hk| ->]; [by apply Hb|]. by rewrite (honest_hash Hh _ _ Eb). }
    exists s', b. split_and!; [done..|]. rewrite Hconf. split.
    + intros Hc. eapply conf_up; [done|lia|done].
    + intros Hc. inversion Hc as [k' h' ER' Hne'|k' n' h' ER' Hlt Hc']; subst; [lia|].
      rewrite ER in ER'. by simplify_eq.
Qed.

(** The blocks of a chain are linked and seen. *)
Record linked (chain : list Header) : Prop := mkLinked {
  linked_seen : forall h, h ∈ chain -> block (hashOf h) = Some h;
  linked_parent : forall i h h', chain !! i = Some h -> chain !! S i = Some h' -> ParentHash h' = hashOf h
}.

Lemma linked_descends n0 chain h0 :
  chainFrom n0 chain -> linked chain -> number < n0 -> head chain = Some h0 -> descends (ParentHash h0) ->
  forall k, k ∈ map hashOf chain -> descends k.
Proof.
  intros Hc [Hseen Hpar] Hn E0 Hd.
  assert (Hall : forall i h, chain !! i = Some h -> descends (hashOf h)).
  { induction i as [|i IH]; intros h Hi.
    - assert (h = h0) as -> by (destruct chain; simplify_eq/=; done).
      eapply desc_up; [apply Hseen, list_elem_of_lookup; by exists 0%nat|by apply (chain_num n0 chain Hc 0)|lia|done].
    - destruct (lookup_lt_is_Some_2 chain i) as [g Hg]; [apply lookup_lt_Some in Hi; lia|].
      eapply desc_up; [apply Hseen, list_elem_of_lookup; by exists (S i)|by apply (chain_num n0 chain Hc (S i))|lia|].
      rewrite (Hpar i g h Hg Hi). by apply IH. }
  intros k (h & -> & Hin)%list_elem_of_fmap. apply list_elem_of_lookup in Hin as [i Hi]. by eapply Hall.
Qed.

End fork.

(** ** Properties *)

Lemma bind_orPanic_Some {S E A B} w (a : A) (k : A -> st S E B) s : (orPanic w (Some a) ≫= k) s = k a s.
Proof. done. Qed.

(** What the entries of the whitelist ask of a chain. *)
Record respects (keccak : list Z -> Z) (milestoneFlag : bool) (n0 current : Z) (chain : list Header) (s : Service)
  : Prop := mkRespects {
  respects_checkpoint : respectsEntry n0 chain keccak (cpFinality s) current;
  respects_milestone : milestoneFlag = true -> respectsEntry n0 chain keccak (mFinality (mil s)) current;
  respects_lock : milestoneFlag = true -> respectsLock n0 chain keccak (mil s);
  respects_future : milestoneFlag = true -> respectsFuture chain keccak (mil s)
}.

Lemma milestone_IsValidChain_exact keccak flag n0 chain cur current m :
  chainFrom n0 chain -> numU64 cur = Some current -> 0 <= current <= MaxInt64 ->
  exists b, milestone_IsValidChain keccak flag cur chain m = Some b /\
    (b = true <-> (flag = true -> respectsEntry n0 chain keccak (mFinality m) current /\
                                  respectsLock n0 chain keccak m /\ respectsFuture chain keccak m)).
Proof.
  intros Hc Ecur Hcur. unfold milestone_IsValidChain. destruct flag; cbn [negb]; [|by exists true].
  destruct (isValidChain_exact n0 chain Hc keccak (mFinality m) cur current Ecur Hcur) as (b1 & -> & Hb1).
  cbn [mbind option_bind]. destruct b1; cbn [negb].
  2: { exists false. split; [done|]. split; [done|]. intros H. by apply Hb1, H. }
  destruct (IsReorgAllowed_exact n0 chain Hc keccak (LockedMilestoneNumber m) (LockedMilestoneHash m)) as (b2 & Eb2 & Hb2).
  assert (Hlock : exists b, (if Locked m then IsReorgAllowed keccak chain (LockedMilestoneNumber m) (LockedMilestoneHash m)
                             else Some true) = Some b /\ (b = true <-> respectsLock n0 chain keccak m)).
  { unfold respectsLock. destruct (Locked m); [|by exists true]. exists b2. split; [done|]. rewrite Hb2. naive_solver. }
  destruct Hlock as (b3 & -> & Hb3). cbn [mbind option_bind]. destruct b3; cbn [negb].
  2: { exists false. split; [done|]. split; [done|]. intros H. by apply Hb3, H. }
  unfold IsFutureMilestoneCompatible. destruct (chain_last n0 chain Hc) as (hl & -> & Enl). cbn [mbind option_bind].
  rewrite Enl. cbn [mbind option_bind].
  destruct (futureLoop_exact n0 chain Hc keccak (FutureMilestoneList m) (reverse (FutureMilestoneOrder m)))
    as (b4 & -> & Hb4).
  exists b4. split; [done|]. rewrite Hb4. split.
  - intros H _. split; [by apply Hb1|]. split; [by apply Hb3|]. intros before n after E Haft.
    apply (H (reverse after) n (reverse before)).
    + rewrite E, reverse_app, reverse_cons, <- app_assoc. done.
    + intros k h Hk. rewrite elem_of_reverse in Hk. by apply Haft.
  - intros H before n after E Hbef. destruct (H eq_refl) as (_ & _ & Hf).
    apply (Hf (reverse after) n (reverse before)).
    + rewrite <- (reverse_involutive (FutureMilestoneOrder m)), E, reverse_app, reverse_cons, <- app_assoc. done.
    + intros k h Hk. rewrite elem_of_reverse in Hk. by apply Hbef.
Qed.

(** C30: on headers with consecutive numbers and with the lock of the list free, the
    entries of the whitelist refuse exactly the chains that do not reach a
    whitelisted checkpoint or milestone at or below the head or have another block at
    its number, that do not reach past the locked milestone or have another block at
    its number, or that have another block at the last queued of the future
    milestones whose numbers they contain; the future milestones queued before that
    one are not compared, and without the milestone flag only the checkpoint counts.
    A refusal changes nothing; a chain that is not refused gets the answer of the
    check of the fork it builds on, which may refuse it, or is accepted where that
    check is disabled; nothing is read out of range. *)
Theorem IsValidChain_exact keccak flag ReadHeader n0 chain cur current s :
  chainFrom n0 chain -> numU64 cur = Some current -> 0 <= current <= MaxInt64 -> mutexHeld (mil s) = false ->
  (~ respects keccak flag n0 current chain s ->
   IsValidChain keccak flag ReadHeader cur chain s = Done s false) /\
  (respects keccak flag n0 current chain s ->
   IsValidChain keccak flag ReadHeader cur chain s =
     (if disableBlindForkValidation s then mret true else checkForkCorrectness keccak ReadHeader chain) s).
Proof.
  intros Hc Ecur Hcur Hm. unfold IsValidChain. rewrite (bind_eq getS _ s s s eq_refl).
  destruct (isValidChain_exact n0 chain Hc keccak (cpFinality s) cur current Ecur Hcur) as (b1 & -> & Hb1).
  rewrite bind_orPanic_Some.
  destruct b1; cbn [negb].
  2: { split; [done|]. intros [H _ _ _]. by apply Hb1 in H. }
  assert (Hfree : (if flag then lockFree else mret tt) s = Done s tt).
  { destruct flag; [|done]. unfold lockFree, mbind, st_bind, getS. by rewrite Hm. }
  rewrite (bind_eq _ _ _ _ _ Hfree).
  destruct (milestone_IsValidChain_exact keccak flag n0 chain cur current (mil s) Hc Ecur Hcur) as (b2 & -> & Hb2).
  rewrite bind_orPanic_Some. destruct b2; cbn [negb].
  - split; [|by case_if]. intros Hn. exfalso. apply Hn. destruct flag; [|by split; [apply Hb1|..]].
    destruct (proj1 Hb2 eq_refl eq_refl) as (H1 & H2 & H3). by split; [apply Hb1|..].
  - split; [done|]. intros [_ H1 H2 H3]. assert (false = true) by (apply Hb2; auto). done.
Qed.

(** C34: with hashes that separate headers, a database that returns what it is asked
    for and a cache of blocks that build on the newest whitelisted one, the check of
    the fork refuses a chain exactly when it starts above that block, no more than
    [maxForkCorrectnessLimit] above it and the last block known to be valid, and the
    database has all ancestors of the chain down to the whitelisted number, where it
    has another block.  A chain that starts further above, or one with an ancestor that
    is missing, is accepted without having been followed to the whitelisted block.
    The walk back ends within its fuel, and the cache keeps only blocks that build on
    the whitelisted one. *)
Theorem checkForkCorrectness_exact keccak block ReadHeader n0 chain h0 number hash s :
  honest keccak block ReadHeader -> chainFrom n0 chain -> linked keccak block chain -> head chain = Some h0 ->
  mutexHeld (mil s) = false -> newestEntry s = Some (number, hash) -> 0 <= number ->
  0 <= maxForkCorrectnessLimit s ->
  coherentForks block number hash s ->
  exists s' b, checkForkCorrectness keccak ReadHeader chain s = Done s' b /\
    coherentForks block number hash s' /\ newestEntry s' = Some (number, hash) /\
    (b = false <-> number < n0 /\ n0 - Z.max (lastValidForkBlock s) number <= maxForkCorrectnessLimit s /\
                   conflicts keccak ReadHeader number hash (ParentHash h0) (n0 - 1)).
Proof.
  intros Hh Hc Hl E0 Hm Hne H0 Hpos Hs. unfold checkForkCorrectness.
  destruct (chain_head n0 chain Hc) as (h & Eh & En), (chain_last n0 chain Hc) as (hl & El & Enl).
  rewrite E0, El. assert (h = h0) by congruence. subst h. rewrite En, Enl. cbn [orPanic].
  rewrite !(bind_eq (mret _) _ s s _ eq_refl).
  assert (Hfree : lockFree s = Done s tt) by (unfold lockFree, mbind, st_bind, getS; by rewrite Hm).
  rewrite (bind_eq _ _ _ _ _ Hfree). unfold mbind, st_bind, getS. rewrite Hne. cbv zeta.
  destruct (_ && _)%bool eqn:Eblind.
  { apply andb_true_iff in Eblind as [H1 H2]. apply Z.ltb_lt in H1, H2. exists s, true. split_and!; [done..|].
    split; [done|]. intros (_ & ? & _). lia. }
  assert (Hlim : number < n0 -> n0 - Z.max (lastValidForkBlock s) number <= maxForkCorrectnessLimit s \/
                 n0 <= Z.max (lastValidForkBlock s) number).
  { intros _. apply andb_false_iff in Eblind as [E|E]; apply Z.ltb_ge in E; lia. }
  destruct (Z.ltb_spec number n0) as [Hlt|Hge].
  2: { exists s, true. split_and!; [done..|]. split; [done|]. intros []. lia. }
  destruct (forkLoop_exact keccak block ReadHeader Hh number hash (Z.to_nat n0 + 1) (tip n0 chain) (ParentHash h0) (n0 - 1)
    (map (Seal.Hash keccak) chain) s Hs) as (s' & b & E & Hs' & Es' & Hb).
  - pose proof (chain_end _ _ Hc). lia.
  - done.
  - lia.
  - intros Hd. by eapply linked_descends.
  - exists s', b. split; [exact E|]. split; [done|]. split; [by rewrite Es'|]. rewrite Hb. split; [|naive_solver].
    intros Hconf. split; [done|]. split; [|done].
    destruct (Hlim Hlt); lia.
Qed.

(** ** Examples *)

Definition demoCurrent : Header := HeaderProps.demoHeader 96 1000 [].

Lemma demoChain_from n : 0 <= n < MaxInt64 -> chainFrom n [HeaderProps.demoHeader n 1000 []].
Proof.
  intros Hn. split; [lia|cbn; lia| |done]. intros [|i] h; [|done]. intros [= <-]. cbn. by rewrite Z.add_0_r.
Qed.

(** With a vote for milestone 100, a chain that ends at block 99 is refused and one that
    starts at block 101 is not. *)
Lemma IsValidChain_exact_witness :
  IsValidChain Bytes.SetBytes true (fun _ _ => None) demoCurrent [HeaderProps.demoHeader 99 1000 []]
    WhitelistProps.demoService = Done WhitelistProps.demoService false /\
  IsValidChain Bytes.SetBytes true (fun _ _ => None) demoCurrent [HeaderProps.demoHeader 101 1000 []]
    WhitelistProps.demoService =
  checkForkCorrectness Bytes.SetBytes (fun _ _ => None) [HeaderProps.demoHeader 101 1000 []]
    WhitelistProps.demoService.
Proof.
  split.
  - apply (IsValidChain_exact Bytes.SetBytes true (fun _ _ => None) 99 _ demoCurrent 96 WhitelistProps.demoService).
    + apply demoChain_from. wsolve.
    + reflexivity.
    + wsolve.
    + vm_compute. reflexivity.
    + intros [_ _ H _]. destruct (H eq_refl); [vm_compute; reflexivity|]. vm_compute in H0. discriminate.
  - apply (IsValidChain_exact Bytes.SetBytes true (fun _ _ => None) 101 _ demoCurrent 96 WhitelistProps.demoService).
    + apply demoChain_from. wsolve.
    + reflexivity.
    + wsolve.
    + vm_compute. reflexivity.
    + assert (Hno : forall n, n <> 101 -> forall h, h ∈ [HeaderProps.demoHeader 101 1000 []] -> numU64 h <> Some n).
      { intros n Hn h Hh%list_elem_of_singleton. subst.
        change (numU64 (HeaderProps.demoHeader 101 1000 [])) with (Some 101). congruence. }
      split.
      * intros _ _. split; [vm_compute; discriminate|]. intros h Hh En. by apply Hno in En.
      * intros _ H. vm_compute in H. discriminate.
      * intros _ _. split; [vm_compute; reflexivity|]. intros h Hh En. by apply Hno in En.
      * intros _ before n after E. assert (n = 90) as ->.
        { vm_compute in E. destruct before as [|? [|]]; simplify_eq/=; done. }
        intros _ h Hh En. by apply Hno in En.
Defined.

(** The queue of future milestones is in the order of their arrival, and the loop
    from its end stops at the first one the chain contains: after the future
    milestones 100 and 99 a chain with another block 100 passes if its block 99 is
    right. *)
Lemma future_milestone_not_highest :
  let h99 := HeaderProps.demoHeader 99 1000 [] in let h100 := HeaderProps.demoHeader 100 1002 [] in
  let hashOf := Seal.Hash EngineDemo.demoKeccak in
  match (ProcessFutureMilestone 100 7;; ProcessFutureMilestone 99 (hashOf h99)) (NewService emptyDB true false 0) with
  | Done s _ =>
      FutureMilestoneList (mil s) !! 100 = Some 7 /\ (hashOf h100 =? 7) = false /\
      IsFutureMilestoneCompatible EngineDemo.demoKeccak [h99; h100] (mil s) = Some true
  | _ => False
  end.
Proof. vm_compute. split_and!; reflexivity. Qed.

(** The genesis block of the small chain is not the whitelisted one. *)
Definition demoBlocks : list Header := [EngineDemo.demoGenesis; EngineDemo.demoBlock1; EngineDemo.demoBlock2].

Definition demoSeen (k : Z) : option Header :=
  List.find (fun h => Seal.Hash EngineDemo.demoKeccak h =? k) demoBlocks.

Definition demoRead (k n : Z) : option Header :=
  h ← demoSeen k; if bool_decide (numU64 h = Some n) then Some h else None.

Definition demoForked : Service :=
  match ProcessMilestone 0 12345 (NewService emptyDB true false 0) with Done s _ => s | _ => NewService emptyDB true false 0 end.

Lemma demo_honest : honest EngineDemo.demoKeccak demoSeen demoRead.
Proof.
  split.
  - intros k h Hs. unfold demoSeen in Hs. apply List.find_some in Hs as [_ E]. exact (proj1 (Z.eqb_eq _ _) E).
  - intros k n h Hr. unfold demoRead in Hr. apply bind_Some in Hr as (g & Eg & Hr).
    case_bool_decide as En; [|discriminate Hr]. injection Hr as <-. exact (conj Eg En).
Qed.

Lemma demo_linked : linked EngineDemo.demoKeccak demoSeen [EngineDemo.demoBlock2].
Proof.
  split; [|by intros [|[|i]] h h'].
  intros h Hh%list_elem_of_singleton. subst. vm_compute. reflexivity.
Qed.

Lemma checkForkCorrectness_exact_witness :
  exists s', checkForkCorrectness EngineDemo.demoKeccak demoRead [EngineDemo.demoBlock2] demoForked = Done s' false.
Proof.
  destruct (checkForkCorrectness_exact EngineDemo.demoKeccak demoSeen demoRead 2 [EngineDemo.demoBlock2]
    EngineDemo.demoBlock2 0 12345 demoForked) as (s' & b & E & _ & _ & Hb).
  - exact demo_honest.
  - split; [lia|vm_compute; discriminate| |discriminate]. intros [|i] h; [|done]. intros [= <-]. reflexivity.
  - exact demo_linked.
  - reflexivity.
  - vm_compute. reflexivity.
  - vm_compute. reflexivity.
  - lia.
  - vm_compute. discriminate.
  - intros k Hk. exfalso. revert Hk. apply not_elem_of_empty.
  - exists s'. rewrite E. f_equal. apply Hb. split; [lia|]. split; [vm_compute; discriminate|].
    apply (conf_up _ _ _ _ _ _ EngineDemo.demoBlock1); [vm_compute; reflexivity|lia|].
    apply (conf_at _ _ _ _ _ EngineDemo.demoGenesis); [vm_compute; reflexivity|vm_compute; discriminate].
Defined.

End WhitelistChain.
