(* ===== verification/Verifier.v ===== *)
(** * Verifying checkpoints and milestones, and voting (eth/bor_checkpoint_verifier.go,
    eth/handler_bor.go, eth/bor_api_backend.go, eth/downloader/bor_downloader.go)

    A checkpoint or milestone of Heimdall is compared with the local chain before it
    is whitelisted; a milestone the chain disagrees with makes the node rewind to a
    block it can vouch for.  The node votes for milestones over RPC and remembers
    its vote. *)

From S2P Require Import Prelude Bytes Header Seal Whitelist.

Module Verifier.
Import Header Whitelist.

Definition maxRewindLen : Z := 126.
Definition tipConfirmationOffset : Z := 16.

(** ** The block chain the verifier works on *)

(** What the node asks of core.BlockChain and of the RPC backend, which stay
    parameters.  Blocks are named by their header.  [BlockByNumber] takes the signed
    number of an RPC call, negative ones being tags such as "latest"; [None] is an
    error and [Some None] a missing block.  The operations that change the chain
    say whether they succeeded. *)
Class BlockChain (C : Type) := {
  CurrentBlock : C -> option Header;
  GetCanonicalHash : C -> Z -> Z;
  GetBlockByNumber : C -> Z -> option Header;
  GetBlockNumber : C -> Z -> option Z;
  GetBlock : C -> Z -> Z -> option Header;
  BlockByNumber : C -> Z -> option (option Header);
  GetRootHash : C -> Z -> Z -> option Z;
  SetHead : C -> Z -> C * bool;
  InsertChain : C -> list Header -> C * bool;
  SetCanonical : C -> Header -> C * bool;
  ReadTd : C -> Z -> Z -> option Z;
  WriteTd : C -> Z -> Z -> Z -> C
}.

(** ** State *)

(** What the node does to its chain, its downloads and its miner, in order. *)
Inductive event :=
| StopMiner | StartMiner | CancelDownloads
| SetHeadTo (number : Z)
| InsertBlocks (blocks : list Header)
| MakeCanonical (block : Header).

(** The fields of the downloader for stateless nodes; [ffPending] is the channel of
    capacity one. *)
Record FastForward := mkFastForward {
  statelessSync : bool;
  FastForwardThreshold : Z;
  latestCheckpointBlock : Z;
  fastForwardBlock : Z;
  futureCandidateBlocks : list Z;
  ffPending : option Z
}.

(** [miner]: [None] for a node without one, else whether it is mining. *)
Record Node (C : Type) := mkNode {
  chain : C;
  checker : Service;
  miner : option bool;
  forward : FastForward;
  trace : list event
}.
Arguments mkNode {C} _ _ _ _ _.
Arguments chain {C} _.
Arguments checker {C} _.
Arguments miner {C} _.
Arguments forward {C} _.
Arguments trace {C} _.

Inductive verifyError :=
| errMissingCurrentBlock | errChainOutOfSync | errRootHash | errHashMismatch | errEndBlock
| errTipConfirmationBlock | errBorEngineNotAvailable | errInvalidBlockNumber | errVoteMismatch.

Record MilestoneMsg := mkMilestoneMsg {
  StartBlock : Z;
  EndBlock : Z;
  MsgHash : Z;
  TotalDifficulty : Z
}.

(** ** Small steps *)

Section verifier.
Variable keccak : list Z -> Z.
Context {C : Type} {BC : BlockChain C}.

Abbreviation hashOf := (Seal.Hash keccak).
Abbreviation nm := (st (Node C) verifyError).

Definition setChain (c : C) (n : Node C) : Node C := mkNode c (checker n) (miner n) (forward n) (trace n).
Definition setChecker (s : Service) (n : Node C) : Node C := mkNode (chain n) s (miner n) (forward n) (trace n).
Definition setMiner (m : option bool) (n : Node C) : Node C := mkNode (chain n) (checker n) m (forward n) (trace n).
Definition setForward (f : FastForward) (n : Node C) : Node C := mkNode (chain n) (checker n) (miner n) f (trace n).

Definition emit (e : event) : nm unit :=
  modify (fun n => mkNode (chain n) (checker n) (miner n) (forward n) (trace n ++ [e])).

(** Run an operation of the whitelist service. *)
Definition onChecker {A} (m : wl A) : nm A := fun n =>
  match m (checker n) with
  | Done s a => Done (setChecker s n) a
  | Fail _ e => match e with end
  | Panicked w => Panicked w
  end.

(** Run an operation of the chain that succeeds or not. *)
Definition onChain (f : C -> C * bool) : nm bool := fun n =>
  let '(c, ok) := f (chain n) in Done (setChain c n) ok.

Definition pauseMiner : nm bool :=
  n ← getS;
  match miner n with
  | Some true => modify (setMiner (Some false));; emit StopMiner;; mret true
  | _ => mret false
  end.

(** The function [pauseMiner] returns. *)
Definition resumeMiner (paused : bool) : nm unit :=
  if paused then modify (setMiner (Some true));; emit StartMiner else mret tt.

(** ** Choosing where to rewind to *)

Fixpoint ancestorLoop (c : C) (endB : Z) (l : gmap Z Z) (order : list Z) (targetBlock : Z) : Z * bool :=
  match order with
  | [] => (targetBlock, false)
  | milestoneNum :: order' =>
      if endB <=? milestoneNum then ancestorLoop c endB l order' targetBlock else
      let milestoneHash := default 0 (l !! milestoneNum) in
      if match GetBlockByNumber c milestoneNum with Some b => hashOf b =? milestoneHash | None => false end
      then (milestoneNum, true)
      else ancestorLoop c endB l order'
             (if (0 <? milestoneNum) && (milestoneNum <? targetBlock) then milestoneNum - 1 else targetBlock)
  end.

(** The list is read from the database. *)
Definition findCommonAncestorWithFutureMilestones (c : C) (d : DB) (start endB milestoneEndHash : Z) : Z * bool :=
  if start =? 0 then (0, false) else
  if match GetBlockByNumber c endB with Some b => hashOf b =? milestoneEndHash | None => false end
  then (endB, true)
  else
    let '(order, l) := default ([], ∅) (futureMilestoneKey d) in
    ancestorLoop c endB l (reverse order) (start - 1).

Definition attestRewindAt (c : C) (endB num expectedHash : Z) : bool :=
  (num <? endB) && (GetCanonicalHash c num =? expectedHash).

(** The target and whether it is attested, before it is brought within reach. *)
Definition rewindAnchor (c : C) (s : Service) (start endB hash : Z) (isCheckpoint : bool) : Z * bool :=
  let '(milestoneExists, num, h) := finality_Get Milestone s in
  let '(rewindTo, rewindToSet, rewindAttested) :=
    if milestoneExists then (num, true, attestRewindAt c endB num h) else (0, false, false) in
  let '(rewindTo, rewindToSet, rewindAttested) :=
    if negb rewindAttested && negb isCheckpoint && (0 <? endB) then
      let '(num, attested) := findCommonAncestorWithFutureMilestones c (db s) start endB hash in
      if attested && (num <? endB) then (num, true, true)
      else if negb rewindToSet then (num, true, rewindAttested)
      else (rewindTo, rewindToSet, rewindAttested)
    else (rewindTo, rewindToSet, rewindAttested) in
  let rewindTo :=
    if rewindToSet then rewindTo else
    let '(checkpointExists, num, _) := finality_Get Checkpoint s in
    if checkpointExists then num else if 0 <? start then start - 1 else rewindTo in
  (rewindTo, rewindAttested).

Definition clampRewind (head : Z) (x : Z * bool) : Z * bool :=
  if maxRewindLen <? u64 (head - fst x) then (u64 (head - maxRewindLen), false) else x.

(** ** The canonical segment of a milestone *)

Fixpoint blocksFrom (c : C) (n : nat) (hash number : Z) : list Header :=
  match n with
  | O => []
  | S n' =>
      match GetBlock c hash number with
      | None => []
      | Some b => b :: blocksFrom c n' (ParentHash b) (u64 (number - 1))
      end
  end.

Definition GetBlocksFromHash (c : C) (hash n : Z) : list Header :=
  match GetBlockNumber c hash with
  | None => []
  | Some number => blocksFrom c (Z.to_nat n) hash number
  end.

Definition canonicalSegment (c : C) (hash endB rewindTo : Z) (isCheckpoint : bool) : list Header :=
  let length := i64 (u64 (endB - rewindTo)) in
  let canonicalChain := if isCheckpoint then [] else reverse (GetBlocksFromHash c hash length) in
  if Z.of_nat (List.length canonicalChain) =? length then canonicalChain else [].

(** ** Rewinding *)

Definition rewind (rewindTo : Z) : nm bool :=
  emit CancelDownloads;;
  emit (SetHeadTo rewindTo);;
  onChain (fun c => SetHead c rewindTo).

Definition insertFinalized (canonicalChain : list Header) : nm unit :=
  match last canonicalChain with
  | None => mret tt
  | Some finalBlock =>
      emit (InsertBlocks canonicalChain);;
      ok ← onChain (fun c => InsertChain c canonicalChain);
      if negb ok then mret tt else
      emit (MakeCanonical finalBlock);;
      onChain (fun c => SetCanonical c finalBlock);;
      mret tt
  end.

Definition reorgToFinalized (rewindTo : Z) (canonicalChain : list Header) : nm bool :=
  if (List.length canonicalChain =? 0)%nat then mret false else
  paused ← pauseMiner;
  ok ← rewind rewindTo;
  (if ok : bool then insertFinalized canonicalChain else mret tt);;
  resumeMiner paused;;
  mret ok.

(** The part of [borVerify] from the mismatch on. *)
Definition onMismatch (head start endB hash : Z) (isCheckpoint : bool) : nm Z :=
  onChecker lockFree;;
  n ← getS;
  let '(rewindTo, rewindAttested) :=
    clampRewind head (rewindAnchor (chain n) (checker n) start endB hash isCheckpoint) in
  let canonicalChain := canonicalSegment (chain n) hash endB rewindTo isCheckpoint in
  if (0 <? List.length canonicalChain)%nat then
    moved ← reorgToFinalized rewindTo canonicalChain;
    (if moved : bool then onChecker (PurgeMilestonesAfter rewindTo) else mret tt);;
    failS errHashMismatch
  else if negb isCheckpoint && rewindAttested && (u64 (head - rewindTo) <=? maxRewindLen) then
    paused ← pauseMiner;
    ok ← rewind rewindTo;
    (if ok : bool then onChecker (PurgeMilestonesAfter rewindTo) else mret tt);;
    resumeMiner paused;;
    failS errHashMismatch
  else failS errHashMismatch.

(** The hash of the map [ethapi.GetBlockByNumber] returns: [None] is an error and
    [Some None] a map without one, as of the pending block (number -1). *)
Definition apiBlockHash (c : C) (number : Z) : option (option Z) :=
  match BlockByNumber c number with
  | None => None
  | Some None => Some None
  | Some (Some b) => Some (if number =? -1 then None else Some (hashOf b))
  end.

(** Hashes are compared as strings of 64 hexadecimal digits, that is by value; the
    string of a missing hash reads as the zero hash. *)
Definition borVerify (start endB hash : Z) (isCheckpoint : bool) : nm Z :=
  n ← getS;
  match CurrentBlock (chain n) with
  | None => failS errMissingCurrentBlock
  | Some currentBlock =>
      head ← orPanic "nil pointer dereference" (numU64 currentBlock);
      failIf (head <? endB) errChainOutOfSync;;
      localHash ← (if isCheckpoint then
                     match GetRootHash (chain n) start endB with
                     | None => failS errRootHash
                     | Some h => mret h
                     end
                   else
                     match apiBlockHash (chain n) (i64 endB) with
                     | Some (Some h) => mret h
                     | _ => failS errEndBlock
                     end);
      if negb (localHash =? hash) then onMismatch head start endB hash isCheckpoint else
      match apiBlockHash (chain n) (i64 endB) with
      | None => failS errEndBlock
      | Some h => mret (default 0 h)
      end
  end.

(** ** Fast forward of stateless nodes *)

Definition setFastForwardBlock (next : Z) (f : FastForward) : FastForward :=
  mkFastForward (statelessSync f) (FastForwardThreshold f) (latestCheckpointBlock f) next (futureCandidateBlocks f)
    (match ffPending f with Some x => Some x | None => Some next end).

(** [int64(a) - int64(b) > int64(threshold)]. *)
Definition gapAbove (f : FastForward) (a b : Z) : bool :=
  i64 (FastForwardThreshold f) <? i64 (i64 a - i64 b).

Definition UpdateFastForwardBlockFromMilestone (m : MilestoneMsg) : nm unit :=
  n ← getS;
  if negb (statelessSync (forward n)) then mret tt else
  let milestoneTd := i64 (TotalDifficulty m) in
  (if bool_decide (ReadTd (chain n) (MsgHash m) (EndBlock m) = Some milestoneTd) then mret tt
   else modify (setChain (WriteTd (chain n) (MsgHash m) (EndBlock m) milestoneTd)));;
  n ← getS;
  currentBlock ← orPanic "nil pointer dereference" (CurrentBlock (chain n) ≫= numU64);
  let f := forward n in
  if gapAbove f (EndBlock m) currentBlock && (fastForwardBlock f <? EndBlock m) then
    modify (setForward (setFastForwardBlock (EndBlock m) f))
  else if (latestCheckpointBlock f <? EndBlock m) && (0 <? latestCheckpointBlock f) then
    modify (setForward (mkFastForward (statelessSync f) (FastForwardThreshold f) (latestCheckpointBlock f)
                          (fastForwardBlock f) (futureCandidateBlocks f ++ [EndBlock m]) (ffPending f)))
  else if fastForwardBlock f <? EndBlock m then
    modify (setForward (setFastForwardBlock (EndBlock m) f))
  else mret tt.

Definition UpdateFastForwardBlockFromCheckpoint (endBlock : Z) (f : FastForward) : FastForward :=
  if negb (statelessSync f) then f else
  if endBlock <=? latestCheckpointBlock f then f else
  let next := fold_left (fun acc c => if (c <=? endBlock) && (acc <? c) then c else acc) (futureCandidateBlocks f) 0 in
  let f' := mkFastForward (statelessSync f) (FastForwardThreshold f) endBlock (fastForwardBlock f)
              (List.filter (fun c => next <? c) (futureCandidateBlocks f)) (ffPending f) in
  if next =? 0 then f' else setFastForwardBlock next f'.

(** ** Handlers *)

Definition handleWhitelistCheckpoint (start endB rootHash : Z) (process : bool) : nm Z :=
  blockHash ← borVerify start endB rootHash true;
  (if process then onChecker (ProcessCheckpoint endB blockHash) else mret tt);;
  mret blockHash.

(** An error of [borVerify] is kept while the handler goes on. *)
Definition attempt {A} (m : nm A) : nm (A + verifyError) := fun n =>
  match m n with
  | Done n' a => Done n' (inl a)
  | Fail n' e => Done n' (inr e)
  | Panicked w => Panicked w
  end.

Definition isDeferred (e : verifyError) : bool :=
  match e with errChainOutOfSync | errHashMismatch => true | _ => false end.

Definition handleMilestone (m : MilestoneMsg) : nm unit :=
  UpdateFastForwardBlockFromMilestone m;;
  r ← attempt (borVerify (StartBlock m) (EndBlock m) (MsgHash m) false);
  match r with
  | inr e =>
      onChecker (UnlockSprint (EndBlock m));;
      (if isDeferred e then onChecker (ProcessFutureMilestone (EndBlock m) (MsgHash m)) else mret tt);;
      failS e
  | inl _ => onChecker (ProcessMilestone (EndBlock m) (MsgHash m))
  end.

(** [hash]: the hash the string of the request spells out, if it has the form of one. *)
Definition GetVoteOnHash (borEngine : bool) (endBlockNr : Z) (hash : option Z) (milestoneId : string) : nm bool :=
  failIf (MaxInt64 - tipConfirmationOffset <? endBlockNr) errInvalidBlockNumber;;
  failIf (negb borEngine) errBorEngineNotAvailable;;
  n ← getS;
  match BlockByNumber (chain n) (endBlockNr + tipConfirmationOffset) with
  | None | Some None => failS errTipConfirmationBlock
  | Some (Some _) =>
      match BlockByNumber (chain n) endBlockNr with
      | None | Some None => failS errEndBlock
      | Some (Some localEndBlock) =>
          onChecker (LockMutex endBlockNr);;
          if negb (bool_decide (hash = Some (hashOf localEndBlock))) then
            onChecker (UnlockMutex false "" endBlockNr 0);;
            failS errVoteMismatch
          else
            onChecker (UnlockMutex true milestoneId endBlockNr (hashOf localEndBlock));;
            mret true
      end
  end.

End verifier.

End Verifier.
