(* ===== verification/VerifierProps.v ===== *)
(** * Properties of the verifier of checkpoints and milestones

    When the node rewinds its chain and how far, what the handlers do to the
    whitelist, and what a vote binds the node to. *)

From S2P Require Import Prelude Bytes Header Seal Engine EngineDemo Whitelist WhitelistProps WhitelistChain Verifier.

Module VerifierProps.
Import Header Whitelist WhitelistProps WhitelistChain Verifier.

(** What the chain answers: a block is stored under its hash and number, and the
    numbers of blocks fit a signed integer; the current block has a number. *)
Class BlockChainLaws (keccak : list Z -> Z) (C : Type) {BC : BlockChain C} : Prop := {
  GetBlock_stored : forall c h n b, GetBlock c h n = Some b -> Seal.Hash keccak b = h /\ numU64 b = Some n /\ 0 <= n <= MaxInt64;
  CurrentBlock_numbered : forall c b, CurrentBlock c = Some b -> exists n, numU64 b = Some n
}.

Section verifier.
Variable keccak : list Z -> Z.
Context {C : Type} {BC : BlockChain C} {BL : BlockChainLaws keccak C}.

Abbreviation hashOf := (Seal.Hash keccak).

(** ** The specification *)

(** The whitelist holds numbers of blocks, which fit a signed integer. *)
Record sane (s : Service) : Prop := mkSane {
  sane_entry : forall n h, finality_Get Milestone s = (true, n, h) -> 0 <= n <= MaxInt64;
  sane_checkpoint : forall n h, finality_Get Checkpoint s = (true, n, h) -> 0 <= n <= MaxInt64;
  sane_future : forall order l n, futureMilestoneKey (db s) = Some (order, l) -> n ∈ order -> 0 <= n
}.

(** A finalized block that is on the local chain. *)
Definition attests (c : C) (s : Service) (t : Z) : Prop :=
  (exists h, finality_Get Milestone s = (true, t, h) /\ GetCanonicalHash c t = h) \/
  (exists order l b, futureMilestoneKey (db s) = Some (order, l) /\ t ∈ order /\
     GetBlockByNumber c t = Some b /\ hashOf b = default 0 (l !! t)).

(** The stored blocks that lead up to the block with a hash and number, in order. *)
Record segment (hash endB : Z) (blocks : list Header) : Prop := mkSegment {
  seg_nums : forall i b, blocks !! i = Some b -> numU64 b = Some (endB - Z.of_nat (length blocks) + 1 + Z.of_nat i);
  seg_linked : forall i b b', blocks !! i = Some b -> blocks !! S i = Some b' -> ParentHash b' = hashOf b;
  seg_last : exists b, last blocks = Some b /\ hashOf b = hash
}.

(** A rewind to [t] followed by the insertion of [blocks]. *)
Record justified (c : C) (s : Service) (head endB hash t : Z) (blocks : list Header) : Prop := mkJustified {
  just_reach : 0 <= t < endB /\ head - t <= maxRewindLen \/ head = 125 /\ t = MaxUint64 /\ blocks <> [];
  just_support : blocks = [] /\ attests c s t \/ segment hash endB blocks /\ Z.of_nat (length blocks) = u64 (endB - t)
}.

Definition ran (c : C) (t : Z) (blocks : list Header) : C :=
  let '(c1, ok) := SetHead c t in
  if negb ok then c1 else
  match last blocks with
  | None => c1
  | Some b => let '(c2, inserted) := InsertChain c1 blocks in
              if negb inserted then c2 else fst (SetCanonical c2 b)
  end.

Definition insertEvents (c : C) (t : Z) (blocks : list Header) : list event :=
  let '(c1, ok) := SetHead c t in
  if negb ok then [] else
  match last blocks with
  | None => []
  | Some b => InsertBlocks blocks :: (if snd (InsertChain c1 blocks) then [MakeCanonical b] else [])
  end.

(** The chain is changed while the miner is stopped, the whitelist loses what is above
    the target exactly when the head moved, and nothing else changes. *)
Record rewound (n : Node C) (t : Z) (blocks : list Header) (n' : Node C) : Prop := mkRewound {
  rw_chain : chain n' = ran (chain n) t blocks;
  rw_miner : miner n' = miner n;
  rw_forward : forward n' = forward n;
  rw_checker : if snd (SetHead (chain n) t) then PurgeMilestonesAfter t (checker n) = Done (checker n') tt
               else checker n' = checker n;
  rw_trace : trace n' = trace n ++ (if bool_decide (miner n = Some true) then [StopMiner] else []) ++
                 [CancelDownloads; SetHeadTo t] ++ insertEvents (chain n) t blocks ++
                 (if bool_decide (miner n = Some true) then [StartMiner] else [])
}.

Definition localHash (c : C) (start endB : Z) (isCheckpoint : bool) : option Z :=
  if isCheckpoint then GetRootHash c start endB else mjoin (apiBlockHash keccak c (i64 endB)).

Inductive verdict (n : Node C) (start endB hash : Z) (isCheckpoint : bool) : outcome (Node C) verifyError Z -> Prop :=
| vAccept cur head h :
    CurrentBlock (chain n) = Some cur -> numU64 cur = Some head -> endB <= head ->
    localHash (chain n) start endB isCheckpoint = Some hash ->
    apiBlockHash keccak (chain n) (i64 endB) = Some h ->
    verdict n start endB hash isCheckpoint (Done n (default 0 h))
| vRefuse e : verdict n start endB hash isCheckpoint (Fail n e)
| vRewind cur head t blocks n' :
    isCheckpoint = false ->
    CurrentBlock (chain n) = Some cur -> numU64 cur = Some head -> endB <= head ->
    localHash (chain n) start endB isCheckpoint <> Some hash ->
    justified (chain n) (checker n) head endB hash t blocks ->
    rewound n t blocks n' ->
    verdict n start endB hash isCheckpoint (Fail n' errHashMismatch).

(** ** Where the target comes from *)

Lemma ancestorLoop_spec c endB l order target t b :
  ancestorLoop keccak c endB l order target = (t, b) ->
  (b = true -> t ∈ order /\ t < endB /\ exists blk, GetBlockByNumber c t = Some blk /\ hashOf blk = default 0 (l !! t)) /\
  (b = false -> 0 <= target -> (forall n, n ∈ order -> 0 <= n) -> 0 <= t <= target).
Proof.
  revert target. induction order as [|m order IH]; intros target; cbn [ancestorLoop].
  { intros [= <- <-]. split; [done|lia]. }
  destruct (Z.leb_spec endB m).
  { intros [H1 H2]%IH. split; [intros Hb; destruct (H1 Hb) as (? & ?); split; [by right|done]|].
    intros Hb H0 Hn. apply H2; [done..|]. intros. apply Hn. by right. }
  match goal with |- context [if ?hit then (m, true) else _] => destruct hit eqn:Eh end.
  { intros [= <- <-]. split; [|done]. intros _. split; [by left|]. split; [done|].
    destruct (GetBlockByNumber c m) as [blk|]; [|done]. apply Z.eqb_eq in Eh. by exists blk. }
  intros [H1 H2]%IH. split; [intros Hb; destruct (H1 Hb) as (? & ?); split; [by right|done]|].
  intros Hb H0 Hn. assert (0 <= m) by (apply Hn; by left).
  assert (0 <= t <= if (0 <? m) && (m <? target) then m - 1 else target) as Ht.
  { apply H2; [done|case_match; lia|]. intros. apply Hn. by right. }
  destruct (Z.ltb_spec 0 m), (Z.ltb_spec m target); cbn [andb] in Ht; lia.
Qed.

Lemma findCommonAncestor_spec c s start endB hash t b :
  sane s -> 0 <= start <= MaxUint64 ->
  findCommonAncestorWithFutureMilestones keccak c (db s) start endB hash = (t, b) ->
  (b = true -> t <= endB /\ (t < endB -> 0 <= t /\ attests c s t)) /\
  (b = false -> 0 <= t <= Z.max 0 (start - 1)).
Proof.
  intros Hs Hstart. unfold findCommonAncestorWithFutureMilestones.
  destruct (Z.eqb_spec start 0) as [|Hne]; [intros [= <- <-]; split; [done|lia]|].
  match goal with |- context [if ?hit then (endB, true) else _] => destruct hit eqn:Eh end.
  { intros [= <- <-]. split; [|done]. intros _. split; [done|lia]. }
  destruct (futureMilestoneKey (db s)) as [[order l]|] eqn:Ef; cbn [default].
  - intros [H1 H2]%ancestorLoop_spec.
    assert (Hn : forall n, n ∈ reverse order -> 0 <= n).
    { intros n Hn. apply (sane_future s Hs order l n Ef). by apply elem_of_reverse. }
    split; [|intros Hb; specialize (H2 Hb ltac:(lia) Hn); lia].
    intros Hb. destruct (H1 Hb) as (Ht & Hlt & blk & Eb & Eh'). split; [lia|]. intros _. split; [by apply Hn|].
    right. exists order, l, blk. split_and!; [done|by apply elem_of_reverse|done..].
  - cbn. intros [= <- <-]. split; [done|lia].
Qed.

(** The target is a number of a block, or the block before the start; when it is
    attested it is below the end and on the local chain. *)
Lemma rewindAnchor_spec c s start endB hash isCheckpoint t b :
  sane s -> 0 <= start <= MaxInt64 -> 0 <= endB <= MaxInt64 ->
  rewindAnchor keccak c s start endB hash isCheckpoint = (t, b) ->
  0 <= t <= MaxInt64 /\ (b = true -> t < endB /\ attests c s t).
Proof.
  intros Hs Hstart Hend. unfold rewindAnchor.
  destruct (finality_Get Milestone s) as [[ex num] h] eqn:Em.
  destruct (finality_Get Checkpoint s) as [[cex cnum] ch] eqn:Ec.
  destruct (findCommonAncestorWithFutureMilestones keccak c (db s) start endB hash) as [fnum fatt] eqn:Ef.
  apply findCommonAncestor_spec in Ef as [Hf1 Hf2]; [|done|unfold MaxInt64, MaxUint64 in *; lia].
  set (good (t : Z) (b : bool) := 0 <= t <= MaxInt64 /\ (b = true -> t < endB /\ attests c s t)).
  assert (Hent : ex = true -> good num (attestRewindAt c endB num h)).
  { intros ->. split; [by apply (sane_entry s Hs num h)|].
    intros [Hlt Hh]%andb_prop. split; [lia|]. left. exists h. split; [done|lia]. }
  assert (Hcp : cex = true -> good cnum false) by (intros ->; split; [by apply (sane_checkpoint s Hs cnum ch)|done]).
  assert (Hfut : if fatt && (fnum <? endB) then good fnum true else 0 <= fnum <= MaxInt64).
  { destruct fatt, (Z.ltb_spec fnum endB); cbn [andb]; destruct (Hf1 eq_refl) || specialize (Hf2 eq_refl); try lia.
    split; [|split; [done|]]; naive_solver lia. }
  assert (Hst : 0 <= start - 1 <= MaxInt64 \/ (0 <? start) = false) by (destruct (Z.ltb_spec 0 start); [left|right]; lia).
  fold (good t b). destruct ex; [specialize (Hent eq_refl)|]; cbn [negb andb].
  - destruct (attestRewindAt c endB num h); cbn [negb andb]; [intros [= <- <-]; exact Hent|].
    destruct (negb isCheckpoint && (0 <? endB)); [|intros [= <- <-]; exact Hent].
    destruct (fatt && (fnum <? endB)); intros [= <- <-]; done.
  - destruct (negb isCheckpoint && (0 <? endB)).
    + destruct (fatt && (fnum <? endB)); intros [= <- <-]; done.
    + destruct cex; [intros [= <- <-]; by apply Hcp|].
      destruct (0 <? start); intros [= <- <-]; split; try done; naive_solver lia.
Qed.

(** ** The segment *)

Lemma blocksFrom_high c n hash number : MaxInt64 < number -> blocksFrom c n hash number = [].
Proof.
  intros H. destruct n; [done|]. cbn [blocksFrom]. destruct (GetBlock c hash number) eqn:E; [|done].
  apply GetBlock_stored in E as (_ & _ & ?). lia.
Qed.

Lemma blocksFrom_nums c n hash number i b :
  blocksFrom c n hash number !! i = Some b ->
  0 <= number - Z.of_nat i /\ numU64 b = Some (number - Z.of_nat i).
Proof.
  revert hash number i. induction n as [|n IH]; intros hash number i; cbn [blocksFrom]; [done|].
  destruct (GetBlock c hash number) as [b0|] eqn:E; [|done]. apply GetBlock_stored in E as (_ & Hb0 & Hr).
  destruct i as [|i]; cbn [lookup list_lookup].
  { intros [= <-]. split; [lia|]. rewrite Hb0. f_equal. lia. }
  intros Hl. destruct (Z.eq_dec number 0) as [->|Hne].
  - by rewrite blocksFrom_high in Hl.
  - apply IH in Hl as [H0 Hl]. assert (Hu : u64 (number - 1) = number - 1).
    { unfold u64. apply Z.mod_small. unfold MaxInt64 in *. lia. }
    rewrite Hu in *. rewrite Hl. split; [|f_equal]; lia.
Qed.

Lemma blocksFrom_linked c n hash number :
  (forall b, head (blocksFrom c n hash number) = Some b -> hashOf b = hash) /\
  (forall i b b', blocksFrom c n hash number !! i = Some b' -> blocksFrom c n hash number !! S i = Some b ->
     ParentHash b' = hashOf b).
Proof.
  revert hash number. induction n as [|n IH]; intros hash number; cbn [blocksFrom]; [done|].
  destruct (GetBlock c hash number) as [b0|] eqn:E; [|done]. apply GetBlock_stored in E as (Hh & _ & _).
  destruct (IH (ParentHash b0) (u64 (number - 1))) as [Hhd Hl]. split; [by intros b [= <-]|].
  intros [|i] b b'; cbn [lookup list_lookup]; [|apply Hl].
  intros [= <-] Hb. symmetry. apply Hhd. by rewrite head_lookup.
Qed.

Lemma blocksFrom_length c n hash number : (length (blocksFrom c n hash number) <= n)%nat.
Proof.
  revert hash number. induction n as [|n IH]; intros hash number; cbn [blocksFrom]; [done|].
  destruct (GetBlock c hash number); cbn [length]; [|lia]. specialize (IH (ParentHash h) (u64 (number - 1))). lia.
Qed.

(** A nonempty segment has the length asked for, does not go below the genesis block,
    and leads up to the end. *)
Lemma canonicalSegment_spec c hash endB t isCheckpoint blocks :
  (forall k, GetBlockNumber c hash = Some k -> k = endB) ->
  canonicalSegment c hash endB t isCheckpoint = blocks -> blocks <> [] ->
  isCheckpoint = false /\ segment hash endB blocks /\ Z.of_nat (length blocks) = i64 (u64 (endB - t)) /\
  Z.of_nat (length blocks) <= endB + 1.
Proof.
  unfold canonicalSegment. intros Hk <- Hne. revert Hne.
  destruct (Z.eqb_spec (Z.of_nat (length (if isCheckpoint then [] else reverse (GetBlocksFromHash c hash (i64 (u64 (endB - t)))))))
    (i64 (u64 (endB - t)))) as [Hlen|]; [|done].
  destruct isCheckpoint; [done|]. intros Hne. split; [done|]. revert Hlen Hne.
  unfold GetBlocksFromHash. destruct (GetBlockNumber c hash) as [k|]; [|done]. rewrite (Hk k eq_refl).
  set (d := blocksFrom c (Z.to_nat (i64 (u64 (endB - t)))) hash endB) in *. intros Hlen Hne.
  destruct (blocksFrom_linked c (Z.to_nat (i64 (u64 (endB - t)))) hash endB) as [Hhd Hl]. fold d in Hhd, Hl.
  rewrite length_reverse in *. split; [|split; [exact Hlen|]].
  - split.
    + intros i b Hb. rewrite length_reverse.
      assert (Hi : (i < length d)%nat) by (rewrite <- length_reverse; by eapply lookup_lt_Some).
      rewrite reverse_lookup in Hb; [|done]. apply blocksFrom_nums in Hb as [_ ->]. f_equal. lia.
    + intros i b b' Hb Hb'.
      assert (Hi : (S i < length d)%nat) by (rewrite <- length_reverse; by eapply lookup_lt_Some).
      rewrite reverse_lookup in Hb, Hb'; [|lia..].
      apply (Hl (length d - S (S i))%nat); [done|]. rewrite <- Hb. f_equal. lia.
    + rewrite last_reverse. destruct d as [|b d'] eqn:Ed; [done|]. exists b. split; [done|]. by apply Hhd.
  - assert (Hd : (0 < length d)%nat) by (destruct d; [done|cbn; lia]).
    destruct (lookup_lt_is_Some_2 d (length d - 1)) as [b Hb]; [lia|].
    apply blocksFrom_nums in Hb as [Hb _]. lia.
Qed.

(** ** Reach *)

Lemma clampRewind_attested head t0 b0 t : clampRewind head (t0, b0) = (t, true) -> t = t0 /\ b0 = true.
Proof. unfold clampRewind. cbn [fst]. case_match; by intros [= <- <-]. Qed.

(** An attested target is not clamped, so it is within reach. *)
Lemma clampRewind_near head endB t0 b0 t :
  is_u64 head -> 0 <= t0 < endB -> endB <= head ->
  clampRewind head (t0, b0) = (t, true) -> 0 <= t < endB /\ head - t <= maxRewindLen.
Proof.
  intros Hh Ht He Hc. pose proof (clampRewind_attested _ _ _ _ Hc) as [-> ->]. revert Hc.
  unfold clampRewind, maxRewindLen. cbn [fst]. destruct (Z.ltb_spec 126 (u64 (head - t0))) as [|Hn]; [done|].
  intros _. rewrite u64_small in Hn by wsolve. lia.
Qed.

(** A target from which blocks lead up to the end is within reach, unless the subtraction
    wraps around at head 125. *)
Lemma clampRewind_segment head endB t0 b0 t b len :
  is_u64 head -> 0 <= t0 <= MaxInt64 -> 0 <= endB <= MaxInt64 -> endB <= head ->
  clampRewind head (t0, b0) = (t, b) ->
  len = i64 (u64 (endB - t)) -> 0 < len <= endB + 1 ->
  len = u64 (endB - t) /\ (0 <= t < endB /\ head - t <= maxRewindLen \/ head = 125 /\ t = MaxUint64).
Proof.
  intros Hh Ht Hend He Hc Hl Hlen.
  assert (Hu : len = u64 (endB - t)).
  { revert Hl. pose proof (u64_range (endB - t)). set (x := u64 (endB - t)) in *.
    destruct (Z.le_gt_cases x MaxInt64); [by rewrite i64_small by wsolve|].
    assert (i64 x = x - 2 ^ 64) by (unfold i64; Z.div_mod_to_equations; wsolve). wsolve. }
  split; [done|]. revert Hc. unfold clampRewind, maxRewindLen in *. cbn [fst].
  destruct (Z.ltb_spec 126 (u64 (head - t0))) as [Hc|Hc].
  - destruct (Z.le_gt_cases 126 head).
    + rewrite u64_small by wsolve. intros [= <- <-]. left.
      enough (head - 126 < endB) by lia.
      destruct (Z.le_gt_cases endB (head - 126)); [|lia].
      exfalso. revert Hl Hu. unfold i64, u64. Z.div_mod_to_equations. wsolve.
    + assert (Hw : u64 (head - 126) = head - 126 + 2 ^ 64) by (unfold u64; Z.div_mod_to_equations; wsolve).
      rewrite Hw. intros [= <- <-]. right.
      assert (u64 (endB - (head - 126 + 2 ^ 64)) = endB - head + 126) by (unfold u64; Z.div_mod_to_equations; wsolve).
      wsolve.
  - intros [= <- <-]. left. assert (t0 <= head).
    { destruct (Z.le_gt_cases t0 head); [done|]. revert Hc. unfold u64. Z.div_mod_to_equations. wsolve. }
    rewrite u64_small in Hc by wsolve. enough (t0 < endB) by lia.
    destruct (Z.le_gt_cases endB t0); [|lia]. exfalso. revert Hl Hu. unfold i64, u64. Z.div_mod_to_equations. wsolve.
Qed.

(** ** Effects *)

Lemma PurgeMilestonesAfter_total t s :
  mutexHeld (mil s) = false -> exists s', PurgeMilestonesAfter t s = Done s' tt.
Proof.
  intros Hm. unfold PurgeMilestonesAfter, PurgeAfter, lockFree, WriteLockField, WriteFutureMilestoneList, writeDB, onMil,
    modify, getS, mbind, st_bind, mret, st_ret.
  rewrite Hm. repeat (case_match; simplify_eq); eauto.
Qed.

Ltac run_node :=
  repeat progress
    (unfold reorgToFinalized, pauseMiner, resumeMiner, rewind, insertFinalized, onChain, onChecker, emit, modify, getS,
       failS, mret, st_ret, mbind, st_bind, setChain, setChecker, setMiner;
     cbn [chain checker miner forward trace negb snd fst];
     repeat match goal with H : ?x = _ |- context [match ?x with _ => _ end] => rewrite H end).

(** The end of [onMismatch] once a target has been chosen, with blocks to insert. *)
Lemma reorg_rewound n t blocks :
  mutexHeld (mil (checker n)) = false -> blocks <> [] ->
  exists n', (moved ← reorgToFinalized t blocks;
              (if moved : bool then onChecker (PurgeMilestonesAfter t) else mret tt);;
              failS (A := Z) errHashMismatch) n = Fail n' errHashMismatch /\ rewound n t blocks n'.
Proof.
  intros Hm Hne. destruct (PurgeMilestonesAfter_total t _ Hm) as [s' Hs].
  destruct n as [c s m f tr]. cbn [checker] in *.
  assert (Hlen : (length blocks =? 0)%nat = false) by (destruct blocks; done).
  destruct (SetHead c t) as [c1 ok] eqn:E1. destruct (last blocks) as [b|] eqn:El; [|by apply last_None in El].
  destruct (InsertChain c1 blocks) as [c2 ins] eqn:E2. destruct (SetCanonical c2 b) as [c3 can] eqn:E3.
  destruct m as [[]|], ok, ins; eexists; (split; [run_node; reflexivity|]).
  all: split; unfold ran, insertEvents; cbn [chain checker miner forward trace].
  all: rewrite ?E1; cbn [negb snd]; rewrite ?El, ?E2; cbn [negb snd fst]; rewrite ?E3; try done.
  all: by rewrite <- !app_assoc.
Qed.

(** The same without blocks. *)
Lemma rewind_rewound n t :
  mutexHeld (mil (checker n)) = false ->
  exists n', (paused ← pauseMiner;
              ok ← rewind t;
              (if ok : bool then onChecker (PurgeMilestonesAfter t) else mret tt);;
              resumeMiner paused;;
              failS (A := Z) errHashMismatch) n = Fail n' errHashMismatch /\ rewound n t [] n'.
Proof.
  intros Hm. destruct (PurgeMilestonesAfter_total t _ Hm) as [s' Hs].
  destruct n as [c s m f tr]. cbn [checker] in *. destruct (SetHead c t) as [c1 ok] eqn:E1.
  destruct m as [[]|], ok; eexists; (split; [run_node; reflexivity|]).
  all: split; unfold ran, insertEvents; cbn [chain checker miner forward trace].
  all: rewrite ?E1; cbn [negb snd last]; try done.
  all: by rewrite <- ?app_assoc.
Qed.

Lemma onMismatch_verdict n cur head start endB hash isCheckpoint :
  mutexHeld (mil (checker n)) = false -> sane (checker n) ->
  0 <= start <= MaxInt64 -> 0 <= endB <= MaxInt64 ->
  (isCheckpoint = false -> forall k, GetBlockNumber (chain n) hash = Some k -> k = endB) ->
  CurrentBlock (chain n) = Some cur -> numU64 cur = Some head -> endB <= head ->
  localHash (chain n) start endB isCheckpoint <> Some hash ->
  verdict n start endB hash isCheckpoint (onMismatch keccak head start endB hash isCheckpoint n).
Proof.
  intros Hm Hs Hstart Hend Hk Hcur Hnum Hhead Hloc.
  assert (Hu : is_u64 head).
  { unfold numU64 in Hnum. destruct (Number cur); [|done]. injection Hnum as <-. apply u64_range. }
  assert (Hfree : onChecker lockFree n = Done n tt).
  { unfold onChecker, lockFree, mbind, st_bind, getS. rewrite Hm. by destruct n. }
  unfold onMismatch. rewrite (bind_eq _ _ _ _ _ Hfree). erewrite bind_eq by reflexivity.
  destruct (rewindAnchor keccak (chain n) (checker n) start endB hash isCheckpoint) as [t0 b0] eqn:Ea.
  apply rewindAnchor_spec in Ea as [Ht0 Hatt]; [|done..].
  destruct (clampRewind head (t0, b0)) as [t b] eqn:Ecl. cbv beta iota zeta.
  destruct (canonicalSegment (chain n) hash endB t isCheckpoint) as [|blk blks] eqn:Eseg; cbn [length Nat.ltb Nat.leb].
  - destruct isCheckpoint, b; cbn [negb andb]; try apply vRefuse.
    destruct (u64 (head - t) <=? maxRewindLen); [|apply vRefuse].
    destruct (clampRewind_attested _ _ _ _ Ecl) as [-> ->]. destruct (Hatt eq_refl) as [Hlt Hat].
    destruct (rewind_rewound n t0 Hm) as (n' & -> & Hrw).
    apply (vRewind _ _ _ _ _ cur head t0 []); [done..| |done].
    split; [left; apply (clampRewind_near head endB t0 true); [done|lia|done|done]|by left].
  - assert (Hne : blk :: blks <> []) by done.
    assert (isCheckpoint = false) as -> by (destruct isCheckpoint; [|done]; revert Eseg; unfold canonicalSegment; by case_match).
    apply canonicalSegment_spec in Eseg as (_ & Hseg & Hlen & Hle); [|by apply Hk|done].
    destruct (clampRewind_segment head endB t0 b0 t b _ Hu Ht0 Hend Hhead Ecl Hlen) as [Hl Hr]; [split; [cbn [length]; lia|done]|].
    destruct (reorg_rewound n t _ Hm Hne) as (n' & -> & Hrw).
    apply (vRewind _ _ _ _ _ cur head t (blk :: blks)); [done..| |done]. split; [naive_solver|by right].
Qed.

End verifier.

Lemma borVerify_cases keccak C (BC : BlockChain C) (BL : BlockChainLaws keccak C) n start endB hash isCheckpoint :
  mutexHeld (mil (checker n)) = false -> sane (checker n) ->
  0 <= start <= MaxInt64 -> 0 <= endB <= MaxInt64 ->
  (isCheckpoint = false -> forall k, GetBlockNumber (chain n) hash = Some k -> k = endB) ->
  verdict keccak n start endB hash isCheckpoint (borVerify keccak start endB hash isCheckpoint n).
Proof.
  intros Hm Hs Hstart Hend Hk. unfold borVerify. erewrite bind_eq by reflexivity.
  destruct (CurrentBlock (chain n)) as [cur|] eqn:Hcur; [|apply vRefuse].
  destruct (CurrentBlock_numbered _ _ Hcur) as [head Hnum].
  rewrite Hnum, bind_orPanic_Some. unfold failIf.
  destruct (Z.ltb_spec head endB) as [|Hhead]; [apply vRefuse|]. erewrite bind_eq by reflexivity.
  destruct (localHash keccak (chain n) start endB isCheckpoint) as [lh|] eqn:El.
  - erewrite bind_eq with (a := lh) (s1 := n).
    2: { revert El. unfold localHash. destruct isCheckpoint; [by intros ->|].
         by destruct (apiBlockHash keccak (chain n) (i64 endB)) as [[h|]|]; intros [= ->]. }
    destruct (Z.eqb_spec lh hash) as [->|Hne]; cbn [negb].
    + destruct (apiBlockHash keccak (chain n) (i64 endB)) as [h|] eqn:Eh; [|apply vRefuse].
      by apply (vAccept _ _ _ _ _ _ cur head).
    + apply (onMismatch_verdict keccak n cur); try done. rewrite El. congruence.
  - revert El. unfold localHash. destruct isCheckpoint.
    + intros ->. apply vRefuse.
    + destruct (apiBlockHash keccak (chain n) (i64 endB)) as [[h|]|]; [done|intros _; apply vRefuse..].
Qed.

(** C26: with the lock of the milestones free, whitelisted numbers, start and end that
    fit a signed integer and, for a milestone, a hash that is stored, if at all, under the
    end block's number, verification never panics.  It accepts with the node unchanged,
    and then the local chain has reached the end and has the hash of the message; or it
    refuses with the node unchanged; or, only for a milestone that the local chain
    disagrees with, it rewinds to a finalized block of the local chain or to the start of
    a stored segment that leads up to the milestone and is then inserted, with the miner
    stopped meanwhile and the whitelist purged above the target exactly when the head
    moved.  The target is below the end and at most 126 below the head, except at head 125
    with all blocks of the milestone stored, where the subtraction wraps around and the
    target is the greatest 64-bit number. *)
Theorem borVerify_verdict keccak C (BC : BlockChain C) (BL : BlockChainLaws keccak C) n start endB hash isCheckpoint :
  mutexHeld (mil (checker n)) = false -> sane (checker n) ->
  0 <= start <= MaxInt64 -> 0 <= endB <= MaxInt64 ->
  (isCheckpoint = false -> forall k, GetBlockNumber (chain n) hash = Some k -> k = endB) ->
  verdict keccak n start endB hash isCheckpoint (borVerify keccak start endB hash isCheckpoint n).
Proof. exact (borVerify_cases keccak C BC BL n start endB hash isCheckpoint). Qed.

(** ** Votes *)

Lemma LockMutex_takes n s :
  mutexHeld (mil s) = false -> exists b, LockMutex n s = Done (setMil (setMutex true (mil s)) s) b.
Proof.
  intros Hm. unfold LockMutex, lockFree, onMil, modify, getS, mbind, st_bind, mret, st_ret. rewrite Hm. cbn.
  case_match; eauto.
Qed.

Lemma UnlockMutex_releases id n h s :
  mutexHeld (mil s) = true ->
  exists s', UnlockMutex false id n h s = Done s' tt /\ mil s' = setMutex false (mil s) /\ cpFinality s' = cpFinality s.
Proof.
  destruct s as [d w f [fin num hash locked ids l o cap bc held] ? ? ? ?]. cbn [mil mutexHeld]. intros ->.
  unfold UnlockMutex, WriteLockField, writeDB, onMil, modify, mbind, st_bind, getS.
  cbn. rewrite orb_false_r. destruct w; cbn; eexists; (split; [reflexivity|]); done.
Qed.

(** When the node votes for a milestone. *)
Definition votes {C} {BC : BlockChain C} (keccak : list Z -> Z) (borEngine : bool) (endB : Z) (hash : option Z) (c : C) (b : Header) : Prop :=
  borEngine = true /\ endB <= MaxInt64 - tipConfirmationOffset /\
  (exists tipBlock, BlockByNumber c (endB + tipConfirmationOffset) = Some (Some tipBlock)) /\
  BlockByNumber c endB = Some (Some b) /\ hash = Some (Seal.Hash keccak b).

(** *** What a vote binds to

    The lock of a vote, and the operations after which it still stands: no milestone, end
    of a sprint or future milestone at or above its block, no other vote, no removal of
    its id and no purge below its block. *)
Record votedLock (endB hash : Z) (id : string) (m : milestone) : Prop := mkVotedLock {
  voted_locked : Locked m = true;
  voted_number : LockedMilestoneNumber m = endB;
  voted_hash : LockedMilestoneHash m = hash;
  voted_id : id ∈ LockedMilestoneIDs m
}.

Definition holdsLock (endB : Z) (id : string) (o : op) : Prop :=
  match o with
  | OpProcessMilestone n _ | OpUnlockSprint n | OpProcessFutureMilestone n _ => n < endB
  | OpUnlockMutex doLock _ _ _ => doLock = false
  | OpRemoveMilestoneID i => i <> id
  | OpPurgeMilestonesAfter n => endB <= n
  | _ => True
  end.

Section held.
Context (endB hash : Z) (id : string).

Abbreviation standing := (fun s : Service => votedLock endB hash id (mil s)).
Abbreviation keepLock m := (keeps (E := Empty_set) standing m (fun _ => True)).

Lemma lock_onMil f : (forall m, votedLock endB hash id m -> votedLock endB hash id (f m)) -> keepLock (onMil f).
Proof. intros Hf s Hs. split; [by apply Hf|done]. Qed.

Lemma lock_writeDB f : keepLock (writeDB f).
Proof. intros s Hs. unfold writeDB, modify. split; [by destruct (dbWritable s)|done]. Qed.

Lemma lock_WriteLockField : keepLock WriteLockField.
Proof. apply keep_bind; [apply keep_getS|]. intros s. apply lock_writeDB. Qed.

Lemma lock_WriteFuture : keepLock WriteFutureMilestoneList.
Proof. apply keep_bind; [apply keep_getS|]. intros s. apply lock_writeDB. Qed.

Lemma lock_dequeueLoop fuel i n : keepLock (dequeueLoop fuel i n).
Proof.
  revert i. induction fuel as [|fuel IH]; intros i; [apply keep_ret|]. cbn [dequeueLoop].
  apply keep_bind; [apply keep_getS|]. intros s. destruct (_ !! i); [|apply keep_ret]. case_if; [|apply keep_ret].
  apply keep_bind; [|intros _; apply IH]. apply keep_bind; [apply keep_getS|]. intros s1.
  destruct (FutureMilestoneOrder (mil s1)); [by intros s2 Hs2|].
  apply keep_bind; [|intros _; apply lock_WriteFuture]. apply lock_onMil. by intros m [].
Qed.

Lemma lock_unlockSprint n : n < endB -> keepLock (unlockSprintLocked n).
Proof.
  intros Hn s Hs. unfold unlockSprintLocked, mbind, st_bind, getS. rewrite (voted_number _ _ _ _ Hs).
  by rewrite (proj2 (Z.ltb_lt _ _) Hn).
Qed.

Lemma lock_read {A} (k : Service -> wl A) : (forall s, standing s -> keepLock (k s)) -> keepLock (s ← getS; k s).
Proof. intros Hk s Hs. exact (Hk s Hs s Hs). Qed.

Lemma lock_PurgeMilestonesAfter n : endB <= n -> keepLock (PurgeMilestonesAfter n).
Proof.
  intros Hn. apply keep_bind; [|by intros _ s Hs].
  unfold PurgeAfter. apply keep_bind; [apply keep_lockFree|]. intros _.
  apply keep_bind; [apply keep_getS|]. intros s. cbv zeta. apply keep_bind.
  { case_if; [|apply keep_ret]. apply keep_bind; [apply lock_writeDB|]. intros _.
    case_if; [|apply keep_ret]. apply lock_onMil. by intros m []. }
  intros _. apply lock_read. intros s1 Hs1. rewrite (voted_number _ _ _ _ Hs1), (proj2 (Z.ltb_ge _ _) Hn), andb_false_r.
  apply keep_bind; [apply keep_ret|]. intros _. apply keep_bind; [apply keep_getS|]. intros s2. case_if; [|apply keep_ret].
  apply keep_bind; [|intros _; apply lock_WriteFuture]. apply lock_onMil. by intros m [].
Qed.

Lemma lock_finality_Process k n h : keepLock (finality_Process k n h).
Proof.
  apply keep_bind; [|intros _; apply lock_writeDB]. intros s Hs. split; [|done].
  destruct k; [|done]. by destruct Hs.
Qed.

End held.

(** The lock of a vote stands through every operation that does not release it. *)
Lemma votedLock_exec keccak flag endB hash id o :
  holdsLock endB id o -> keeps (fun s => votedLock endB hash id (mil s)) (exec keccak flag o) (fun _ => True).
Proof.
  intros Ho. destruct o; cbn [exec holdsLock] in *.
  - unfold ProcessMilestone, milestone_Process. apply keep_bind; [|by intros _ s Hs].
    apply keep_bind; [apply keep_lockFree|]. intros _. apply keep_bind; [apply lock_finality_Process|]. intros _.
    apply keep_bind; [apply keep_getS|]. intros s. apply keep_bind; [apply lock_dequeueLoop|]. intros _.
    by apply lock_unlockSprint.
  - apply keep_bind; [apply lock_finality_Process|]. by intros _ s Hs.
  - apply keep_bind; [|intros _; apply keep_ret]. apply keep_bind; [apply keep_lockFree|]. intros _.
    apply keep_bind; [apply lock_onMil; by intros m []|]. intros _.
    apply keep_bind; [apply keep_getS|]. intros s. cbv zeta. case_if; apply keep_ret.
  - subst doLock. unfold UnlockMutex. apply keep_bind.
    { apply lock_onMil. intros m [? ? ? ?]. split; cbn; [by apply orb_true_iff; left|done..]. }
    intros _. apply keep_bind; [apply keep_ret|]. intros _. apply keep_bind; [apply lock_WriteLockField|]. intros _.
    apply keep_bind; [apply keep_getS|]. intros s. case_if; [|by intros s1 Hs1]. apply lock_onMil. by intros m [].
  - apply keep_bind; [apply keep_lockFree|]. intros _. by apply lock_unlockSprint.
  - apply keep_bind; [apply keep_lockFree|]. intros _. apply keep_bind; [|intros _; apply lock_WriteLockField].
    apply lock_onMil. intros m [? ? ? Hid].
    assert (Hin : id ∈ LockedMilestoneIDs m ∖ {[id0]}) by set_solver.
    split; cbn; try done. rewrite bool_decide_eq_false_2; [done|]. set_solver.
  - unfold ProcessFutureMilestone. apply keep_bind; [apply keep_lockFree|]. intros _.
    apply keep_bind; [apply keep_getS|]. intros s. apply keep_bind; [|intros _; by apply lock_unlockSprint].
    case_if; [|apply keep_ret]. apply keep_bind; [apply keep_getS|]. intros s1. cbv zeta.
    destruct (_ !! _); [apply keep_ret|]. apply keep_bind; [|intros _; apply lock_WriteFuture].
    apply lock_onMil. by intros m0 [].
  - by apply lock_PurgeMilestonesAfter.
  - apply keep_bind; [apply keep_lockFree|]. intros _ s Hs. split; [|done]. by destruct Hs.
  - by intros s Hs.
  - apply keep_bind; [apply keep_lockFree|]. intros _. apply lock_onMil. by intros m [].
  - apply keep_bind; [by apply keep_IsValidChain|]. intros _. apply keep_ret.
  - by intros s Hs.
Qed.

(** With the lock standing, a chain the whitelist accepts reaches past its block. *)
Lemma votedLock_binds keccak endB hash id RH n0 seg cur current s s1 :
  votedLock endB hash id (mil s) -> chainFrom n0 seg -> numU64 cur = Some current -> 0 <= current <= MaxInt64 ->
  IsValidChain keccak true RH cur seg s = Done s1 true ->
  endB < tip n0 seg /\ forall h, h ∈ seg -> numU64 h = Some endB -> Seal.Hash keccak h = hash.
Proof.
  intros [Hl En Eh _] Hseg Hcur Hr H. unfold IsValidChain in H. rewrite (bind_eq getS _ s s s eq_refl) in H.
  apply bind_Done in H as (s2 & cp & E & H). apply orPanic_Done in E as [_ ->]. destruct cp; cbn [negb] in H; [|done].
  apply bind_Done in H as (s2 & [] & E & H).
  assert (s2 = s) as ->.
  { unfold lockFree, mbind, st_bind, getS in E. destruct (mutexHeld (mil s)); [done|]. by injection E. }
  destruct (milestone_IsValidChain_exact keccak true n0 seg cur current (mil s) Hseg Hcur Hr) as (v & Ev & Hv).
  rewrite Ev, bind_orPanic_Some in H. destruct v; cbn [negb] in H; [|done].
  destruct (proj1 Hv eq_refl eq_refl) as (_ & Hlk & _). specialize (Hlk Hl). by rewrite En, Eh in Hlk.
Qed.

(** [LockMutex] reports that the block of a vote is below the locked one, or not above
    the whitelisted one; what comes of it is a lock on the lower block. *)
Lemma lower_vote_replaces_lock endB hash id s :
  mutexHeld (mil s) = false -> Locked (mil s) = true -> endB < LockedMilestoneNumber (mil s) ->
  exists s1 s2, LockMutex endB s = Done s1 false /\ UnlockMutex true id endB hash s1 = Done s2 tt /\
    votedLock endB hash id (mil s2) /\ LockedMilestoneIDs (mil s2) = {[id]}.
Proof.
  intros Hm Hl Hlt.
  assert (E : LockMutex endB s = Done (setMil (setMutex true (mil s)) s) false).
  { unfold LockMutex, lockFree, onMil, modify, getS, mbind, st_bind, mret, st_ret. rewrite Hm. cbn.
    rewrite Hl, (proj2 (Z.ltb_lt _ _) Hlt). by case_match. }
  destruct (UnlockMutex_locks id endB hash (setMil (setMutex true (mil s)) s) eq_refl) as (s2 & E2 & Hmil & _).
  exists (setMil (setMutex true (mil s)) s), s2. split; [exact E|]. split; [exact E2|]. rewrite Hmil. split; [|done]. split; cbn; [done..|set_solver].
Qed.

(** C33: the node votes for a milestone exactly when its number is in range, its block
    and the one sixteen above are on the local chain and the hash is that of the block.  The
    vote replaces whatever lock there was, also one on a higher block, and gives the
    mutex back.  It then binds the node until the lock is released ([holdsLock]: no
    milestone, end of a sprint or future milestone at or above the block, no other vote, no
    removal of the id, no purge below the block): every chain of consecutive headers the
    whitelist accepts in the meantime reaches past the voted block, and if it contains
    that number it has that block there.  A vote that is not given leaves the lock as it
    was. *)
Theorem GetVoteOnHash_binds keccak C (BC : BlockChain C) borEngine endB hash id n :
  mutexHeld (mil (checker n)) = false ->
  (forall b, votes keccak borEngine endB hash (chain n) b ->
     exists n', GetVoteOnHash keccak borEngine endB hash id n = Done n' true /\
       mil (checker n') = setLock true endB (Seal.Hash keccak b) {[id]} (mil (checker n)) /\
       forall s, reachable keccak true (holdsLock endB id) (checker n') s ->
         forall RH n0 seg cur current s1, chainFrom n0 seg -> numU64 cur = Some current -> 0 <= current <= MaxInt64 ->
         IsValidChain keccak true RH cur seg s = Done s1 true ->
         endB < tip n0 seg /\ forall h, h ∈ seg -> numU64 h = Some endB -> Seal.Hash keccak h = Seal.Hash keccak b) /\
  ((forall b, ~ votes keccak borEngine endB hash (chain n) b) ->
     exists n' e, GetVoteOnHash keccak borEngine endB hash id n = Fail n' e /\
       mil (checker n') = mil (checker n) /\ chain n' = chain n).
Proof.
  intros Hm. destruct (LockMutex_takes endB _ Hm) as [lb Hlock].
  assert (Hmut : setMutex false (setMutex true (mil (checker n))) = mil (checker n)).
  { destruct (mil (checker n)). cbn in *. by subst. }
  assert (Hl : onChecker (LockMutex endB) n = Done (setChecker (setMil (setMutex true (mil (checker n))) (checker n)) n) lb)
    by (unfold onChecker; by rewrite Hlock).
  split.
  - intros b (-> & Hend & [tipB Htip] & Hb & ->).
    destruct (UnlockMutex_locks id endB (Seal.Hash keccak b) (setMil (setMutex true (mil (checker n))) (checker n)))
      as (s' & Hs' & Hmil & _); [done|].
    exists (setChecker s' (setChecker (setMil (setMutex true (mil (checker n))) (checker n)) n)). split; [|split].
    + unfold GetVoteOnHash, failIf. destruct (Z.ltb_spec (MaxInt64 - tipConfirmationOffset) endB); [lia|].
      cbn [negb]. erewrite bind_eq by reflexivity. erewrite bind_eq by reflexivity. erewrite bind_eq by reflexivity.
      rewrite Htip, Hb, (bind_eq _ _ _ _ _ Hl), bool_decide_true by done. cbn [negb].
      erewrite bind_eq; [reflexivity|]. unfold onChecker. cbn [checker setChecker]. by rewrite Hs'.
    + cbn [checker setChecker]. rewrite Hmil. cbn [mil setMil]. destruct (mil (checker n)); cbn in *. by subst.
    + intros s Hs RH n0 seg cur current s1 Hseg Hcur Hr Hv.
      apply (votedLock_binds keccak endB (Seal.Hash keccak b) id RH n0 seg cur current s s1); [|done..].
      clear Hv. revert s Hs. apply (reachable_inv _ _ _ _ (fun s => votedLock endB (Seal.Hash keccak b) id (mil s))).
      * cbn [checker setChecker]. rewrite Hmil. split; cbn; [done..|set_solver].
      * intros o Ho. by apply votedLock_exec.
  - intros Hno. unfold GetVoteOnHash, failIf.
    destruct (Z.ltb_spec (MaxInt64 - tipConfirmationOffset) endB); [by exists n, errInvalidBlockNumber|].
    erewrite bind_eq by reflexivity. destruct borEngine; cbn [negb]; [|by exists n, errBorEngineNotAvailable].
    erewrite bind_eq by reflexivity. erewrite bind_eq by reflexivity.
    destruct (BlockByNumber (chain n) (endB + tipConfirmationOffset)) as [[tipB|]|] eqn:Et;
      [|by exists n, errTipConfirmationBlock..].
    destruct (BlockByNumber (chain n) endB) as [[b|]|] eqn:Eb; [|by exists n, errEndBlock..].
    rewrite (bind_eq _ _ _ _ _ Hl). rewrite bool_decide_false by (intros ->; apply (Hno b); repeat split; eauto).
    cbn [negb].
    destruct (UnlockMutex_releases "" endB 0 (setMil (setMutex true (mil (checker n))) (checker n))) as (s' & Hs' & Hmil & _);
      [done|].
    exists (setChecker s' (setChecker (setMil (setMutex true (mil (checker n))) (checker n)) n)), errVoteMismatch.
    split; [|split; [|done]].
    + erewrite bind_eq; [reflexivity|]. unfold onChecker. cbn [checker setChecker]. by rewrite Hs'.
    + cbn [checker setChecker]. by rewrite Hmil.
Qed.

(** ** Handlers *)

(** No lock at or below a block. *)
Definition releasedUpTo (n : Z) (m : milestone) : Prop := Locked m = true -> n < LockedMilestoneNumber m.

Lemma unlockSprintLocked_result n s :
  exists s', unlockSprintLocked n s = Done s' tt /\ releasedUpTo n (mil s') /\
    mil s' = setLock (Locked (mil s')) (LockedMilestoneNumber (mil s')) (LockedMilestoneHash (mil s'))
               (LockedMilestoneIDs (mil s')) (mil s) /\
    cpFinality s' = cpFinality s /\ lastMilestone (db s') = lastMilestone (db s).
Proof.
  unfold unlockSprintLocked, WriteLockField, writeDB, onMil, modify, getS, mbind, st_bind, mret, st_ret, releasedUpTo.
  destruct s as [d w f [fin num hash locked ids l o cap bc held] ? ? ? ?]. cbn.
  destruct (Z.ltb_spec n num); [by eexists|]. destruct w; cbn; by eexists.
Qed.

Lemma setFuture_self m : m = setFuture (FutureMilestoneOrder m) (FutureMilestoneList m) m.
Proof. by destruct m. Qed.

Lemma dequeueLoop_result fuel i block s :
  exists s', dequeueLoop fuel i block s = Done s' tt /\
    mil s' = setFuture (FutureMilestoneOrder (mil s')) (FutureMilestoneList (mil s')) (mil s) /\
    cpFinality s' = cpFinality s.
Proof.
  revert i s. induction fuel as [|fuel IH]; intros i s; cbn [dequeueLoop].
  { exists s. auto using setFuture_self. }
  erewrite bind_eq by reflexivity. destruct (FutureMilestoneOrder (mil s) !! i) as [n|] eqn:Ei;
    [|exists s; auto using setFuture_self].
  destruct (n <=? block); [|exists s; auto using setFuture_self].
  destruct (FutureMilestoneOrder (mil s)) as [|o order] eqn:Eo; [done|].
  set (s1 := if dbWritable s then setStored (putFuture order (delete o (FutureMilestoneList (mil s))) (db s))
                                    (setMil (setFuture order (delete o (FutureMilestoneList (mil s))) (mil s)) s)
             else setMil (setFuture order (delete o (FutureMilestoneList (mil s))) (mil s)) s).
  assert (Hd : dequeueFutureMilestone s = Done s1 tt).
  { unfold dequeueFutureMilestone. erewrite bind_eq by reflexivity. rewrite Eo. reflexivity. }
  rewrite (bind_eq _ _ _ _ _ Hd). destruct (IH (S i) s1) as (s' & Hr & Hmil & Hcp). exists s'. split; [done|].
  assert (Em1 : mil s1 = setFuture order (delete o (FutureMilestoneList (mil s))) (mil s))
    by (subst s1; by destruct (dbWritable s)).
  assert (Ec1 : cpFinality s1 = cpFinality s) by (subst s1; by destruct (dbWritable s)).
  rewrite Hmil, Em1, Hcp. split; [done|exact Ec1].
Qed.

Lemma finality_Process_result k n h s :
  exists s', finality_Process k n h s = Done s' tt /\
    getFinality k s' = mkFinality true n h /\
    (k = Milestone -> cpFinality s' = cpFinality s /\ mil s' = setFinality (mkFinality true n h) (mil s)) /\
    (k = Checkpoint -> mil s' = mil s).
Proof.
  unfold finality_Process, writeDB, modify, mbind, st_bind.
  destruct k, s as [d w f m ? ? ? ?], w; cbn; eexists; (split; [reflexivity|]); done.
Qed.

Lemma ProcessMilestone_result n h s :
  mutexHeld (mil s) = false ->
  exists s', ProcessMilestone n h s = Done s' tt /\ mFinality (mil s') = mkFinality true n h /\
    releasedUpTo n (mil s') /\ cpFinality s' = cpFinality s /\ forkValidationCache s' = ∅ /\
    mutexHeld (mil s') = false.
Proof.
  intros Hm. unfold ProcessMilestone, milestone_Process, lockFree.
  destruct (finality_Process_result Milestone n h s) as (s1 & H1 & _ & HM & _). destruct (HM eq_refl) as [Hcp1 Hmil1].
  destruct (dequeueLoop_result (length (FutureMilestoneOrder (mil s1))) 0 n s1) as (s2 & H2 & Hmil2 & Hcp2).
  destruct (unlockSprintLocked_result n s2) as (s3 & H3 & Hrel & Hmil3 & Hcp3 & _).
  exists (setCache (lastValidForkBlock s3) ∅ s3). split; [|split_and!].
  - unfold mbind, st_bind, getS at 1. rewrite Hm. unfold mret, st_ret. rewrite H1. unfold getS. rewrite H2, H3. done.
  - cbn. rewrite Hmil3, Hmil2, Hmil1. done.
  - exact Hrel.
  - cbn. congruence.
  - done.
  - cbn. rewrite Hmil3, Hmil2, Hmil1. exact Hm.
Qed.

Lemma PurgeMilestonesAfter_result t s s' :
  PurgeMilestonesAfter t s = Done s' tt ->
  mutexHeld (mil s) = false -> mutexHeld (mil s') = false /\
  (mFinality (mil s') = mFinality (mil s) \/ mFinality (mil s') = mkFinality false 0 0).
Proof.
  intros H Hm. revert H.
  unfold PurgeMilestonesAfter, PurgeAfter, lockFree, WriteLockField, WriteFutureMilestoneList, writeDB, onMil,
    modify, getS, mbind, st_bind, mret, st_ret. rewrite Hm.
  destruct s as [d w f [fin num hash locked ids l o cap bc held] ? ? ? ?]. cbn in Hm. subst held. cbn.
  repeat (case_match; simplify_eq/=); intros [= <-]; cbn; auto.
Qed.

(** A deferred milestone waits in the queue unless the queue is full. *)
Definition queued (n : Z) (m : milestone) : Prop :=
  is_Some (FutureMilestoneList m !! n) \/ (MaxCapacity m <= length (FutureMilestoneOrder m))%nat.

Lemma ProcessFutureMilestone_result n h s :
  mutexHeld (mil s) = false ->
  exists s', ProcessFutureMilestone n h s = Done s' tt /\ queued n (mil s') /\ releasedUpTo n (mil s') /\
    mFinality (mil s') = mFinality (mil s).
Proof.
  intros Hm. unfold ProcessFutureMilestone, lockFree.
  assert (Hq : exists s1, (if (length (FutureMilestoneOrder (mil s)) <? MaxCapacity (mil s))%nat
                           then enqueueFutureMilestoneLocked n h else mret tt) s = Done s1 tt /\
             queued n (mil s1) /\ mFinality (mil s1) = mFinality (mil s)).
  { destruct (Nat.ltb_spec (length (FutureMilestoneOrder (mil s))) (MaxCapacity (mil s))).
    - unfold enqueueFutureMilestoneLocked. erewrite bind_eq by reflexivity.
      destruct (FutureMilestoneList (mil s) !! n) as [x|] eqn:El; [exists s; split; [done|]; split; [left; by exists x|done]|].
      eexists. split; [reflexivity|]. cbn [setMil mil]. destruct (dbWritable _); cbn; (split; [left; exists h|done]);
        apply lookup_insert_eq.
    - exists s. split; [done|]. split; [by right|done]. }
  destruct Hq as (s1 & H1 & Hq & Hf1). destruct (unlockSprintLocked_result n s1) as (s2 & H2 & Hrel & Hmil & _).
  exists s2. split; [|split_and!; [|done|by rewrite Hmil]].
  - unfold mbind, st_bind, getS. rewrite Hm. unfold mret, st_ret in *. rewrite H1. exact H2.
  - rewrite Hmil. exact Hq.
Qed.

Lemma onChecker_eq {C A} {BC : BlockChain C} (w : st Service Empty_set A) (n : Node C) s a :
  w (checker n) = Done s a -> onChecker w n = Done (setChecker s n) a.
Proof. intros H. unfold onChecker. by rewrite H. Qed.

Lemma UpdateFastForward_checker {C} {BC : BlockChain C} m (n n1 : Node C) :
  UpdateFastForwardBlockFromMilestone m n = Done n1 tt -> checker n1 = checker n.
Proof.
  unfold UpdateFastForwardBlockFromMilestone, modify, getS, mbind, st_bind, orPanic, mret, st_ret, panic.
  repeat (case_match; simplify_eq/=); intros [= <-]; done.
Qed.

(** What the handler does once the milestone is refused, from any state of the node. *)
Lemma defer_result {C} {BC : BlockChain C} (m : MilestoneMsg) (e : verifyError) (n1 : Node C) :
  mutexHeld (mil (checker n1)) = false ->
  exists n', (onChecker (UnlockSprint (EndBlock m));;
              (if isDeferred e then onChecker (ProcessFutureMilestone (EndBlock m) (MsgHash m)) else mret tt);;
              failS (A := unit) e) n1 = Fail n' e /\
    releasedUpTo (EndBlock m) (mil (checker n')) /\ mFinality (mil (checker n')) = mFinality (mil (checker n1)) /\
    (isDeferred e = true -> queued (EndBlock m) (mil (checker n'))).
Proof.
  intros Hm. destruct (unlockSprintLocked_result (EndBlock m) (checker n1)) as (s1 & H1 & Hrel1 & Hmil1 & _).
  assert (Hu : UnlockSprint (EndBlock m) (checker n1) = Done s1 tt).
  { unfold UnlockSprint, lockFree, mbind, st_bind, getS. by rewrite Hm. }
  rewrite (bind_eq _ _ _ _ _ (onChecker_eq _ _ _ _ Hu)).
  assert (Hm1 : mutexHeld (mil s1) = false) by (rewrite Hmil1; exact Hm).
  destruct (isDeferred e).
  - destruct (ProcessFutureMilestone_result (EndBlock m) (MsgHash m) s1 Hm1) as (s2 & H2 & Hq & Hrel & Hf).
    rewrite (bind_eq _ _ (setChecker s1 n1) _ _ (onChecker_eq _ (setChecker s1 n1) _ _ H2)).
    eexists. split; [reflexivity|]. cbn [checker setChecker]. split; [done|]. split; [|done]. by rewrite Hf, Hmil1.
  - erewrite bind_eq by reflexivity. eexists. split; [reflexivity|]. cbn [checker setChecker]. split; [done|].
    split; [by rewrite Hmil1|done].
Qed.

(** A milestone is whitelisted only when the local chain reaches its end and has its
    hash there; otherwise the error is returned, the whitelisted milestone stays or is
    purged by a rewind, and a milestone that is ahead of or against the local chain waits in
    the queue if there is room.  Either way no vote for a block up to the end of the
    milestone is left, and the handler does not panic or block. *)
Theorem handleMilestone_whitelists keccak C (BC : BlockChain C) (BL : BlockChainLaws keccak C) m n n1 :
  UpdateFastForwardBlockFromMilestone m n = Done n1 tt ->
  mutexHeld (mil (checker n)) = false -> sane (checker n) ->
  0 <= StartBlock m <= MaxInt64 -> 0 <= EndBlock m <= MaxInt64 ->
  (forall k, GetBlockNumber (chain n1) (MsgHash m) = Some k -> k = EndBlock m) ->
  (exists n', handleMilestone keccak m n = Done n' tt /\ chain n' = chain n1 /\
     localHash keccak (chain n1) (StartBlock m) (EndBlock m) false = Some (MsgHash m) /\
     mFinality (mil (checker n')) = mkFinality true (EndBlock m) (MsgHash m) /\
     releasedUpTo (EndBlock m) (mil (checker n'))) \/
  (exists n' e, handleMilestone keccak m n = Fail n' e /\
     releasedUpTo (EndBlock m) (mil (checker n')) /\
     (mFinality (mil (checker n')) = mFinality (mil (checker n)) \/
      e = errHashMismatch /\ mFinality (mil (checker n')) = mkFinality false 0 0) /\
     (isDeferred e = true -> queued (EndBlock m) (mil (checker n')))).
Proof.
  intros Hff Hm Hs Hst Hend Hk. pose proof (UpdateFastForward_checker _ _ _ Hff) as Hc.
  unfold handleMilestone. rewrite (bind_eq _ _ _ _ _ Hff). rewrite <- Hc in Hm, Hs.
  pose proof (borVerify_cases keccak C BC BL n1 _ _ _ false Hm Hs Hst Hend (fun _ => Hk)) as Hv.
  rewrite <- Hc.
  set (r := borVerify _ _ _ _ _ _) in Hv. assert (Hr : attempt (borVerify keccak (StartBlock m) (EndBlock m) (MsgHash m) false) n1 =
    match r with Done n' a => Done n' (inl a) | Fail n' e => Done n' (inr e) | Panicked w => Panicked w end) by done.
  clearbody r. destruct Hv as [cur head h Hcur Hnum Hhead Hl Hh|e|cur head t blocks n2 _ Hcur Hnum Hhead Hl Hj Hrw];
    rewrite (bind_eq _ _ _ _ _ Hr).
  - left. destruct (ProcessMilestone_result (EndBlock m) (MsgHash m) (checker n1) Hm) as (s' & Hp & Hf & Hrel & _).
    exists (setChecker s' n1). split; [by apply onChecker_eq|done].
  - right. destruct (defer_result m e n1 Hm) as (n' & Hd & Hrel & Hf & Hq). exists n', e. split; [done|]. auto.
  - right. assert (Hn2 : mutexHeld (mil (checker n2)) = false /\
      (mFinality (mil (checker n2)) = mFinality (mil (checker n1)) \/ mFinality (mil (checker n2)) = mkFinality false 0 0)).
    { pose proof (rw_checker _ _ _ _ Hrw) as Hck. destruct (snd (SetHead (chain n1) t)).
      - by apply (PurgeMilestonesAfter_result t).
      - rewrite Hck. auto. }
    destruct Hn2 as [Hm2 Hf2]. destruct (defer_result m errHashMismatch n2 Hm2) as (n' & Hd & Hrel & Hf & Hq).
    exists n', errHashMismatch. split; [done|]. split; [done|]. split; [|done]. rewrite Hf. naive_solver.
Qed.

(** ** Examples *)

(** A chain in memory: the canonical blocks from the genesis block up, and others. *)
Record demoC := mkDemoC { canon : list Header; side : list Header }.

Abbreviation demoHash := (Seal.Hash EngineDemo.demoKeccak).

Definition stored (c : demoC) (h n : Z) : option Header :=
  List.find (fun b => (demoHash b =? h) && bool_decide (numU64 b = Some n) && (0 <=? n) && (n <=? MaxInt64))
    (canon c ++ side c).

#[export] Instance demoBlockChain : BlockChain demoC := {
  CurrentBlock c := b ← last (canon c); numU64 b ≫= fun _ => Some b;
  GetCanonicalHash c n := from_option demoHash 0 (canon c !! Z.to_nat n);
  GetBlockByNumber c n := canon c !! Z.to_nat n;
  GetBlockNumber c h := List.find (fun b => demoHash b =? h) (canon c ++ side c) ≫= numU64;
  GetBlock := stored;
  BlockByNumber c n := Some (if 0 <=? n then canon c !! Z.to_nat n else None);
  GetRootHash c _ _ := None;
  SetHead c n := (mkDemoC (take (S (Z.to_nat n)) (canon c)) (side c), true);
  InsertChain c l := (mkDemoC (canon c ++ l) (side c), true);
  SetCanonical c b := (c, true);
  ReadTd c _ _ := None;
  WriteTd c _ _ _ := c
}.

#[export] Instance demoBlockChain_laws : BlockChainLaws EngineDemo.demoKeccak demoC.
Proof.
  split.
  - intros c h n b. cbn [GetBlock demoBlockChain]. unfold stored. intros Hf. apply List.find_some in Hf as [_ Hf].
    apply andb_prop in Hf as [Hf H4]. apply andb_prop in Hf as [Hf H3]. apply andb_prop in Hf as [H1 H2].
    apply Z.eqb_eq in H1. apply bool_decide_eq_true in H2. apply Z.leb_le in H3, H4. done.
  - intros c b. cbn [CurrentBlock demoBlockChain]. intros Hb. apply bind_Some in Hb as (x & _ & Hb).
    apply bind_Some in Hb as (k & Hk & Hb). injection Hb as <-. by exists k.
Qed.

(** The milestone is a sibling of the second block; the first block is whitelisted. *)
Definition demoSibling : Header := EngineDemo.demoBlock (demoHash EngineDemo.demoBlock1) 2 1006.

Definition demoWhitelist : Service :=
  match ProcessMilestone 1 (demoHash EngineDemo.demoBlock1) (NewService emptyDB true false 0) with
  | Done s _ => s | _ => NewService emptyDB true false 0 end.

Definition demoNode : Node demoC :=
  mkNode (mkDemoC [EngineDemo.demoGenesis; EngineDemo.demoBlock1; EngineDemo.demoBlock2] [demoSibling])
    demoWhitelist (Some true) (mkFastForward false 0 0 0 [] None) [].

Lemma demoWhitelist_sane : sane demoWhitelist.
Proof.
  split.
  - intros n h H. vm_compute in H. injection H as <- <-. wsolve.
  - intros n h H. vm_compute in H. discriminate H.
  - intros order l n H. vm_compute in H. discriminate H.
Qed.

Lemma demoSibling_number k : GetBlockNumber (chain demoNode) (demoHash demoSibling) = Some k -> k = 2.
Proof. intros H. vm_compute in H. by injection H as <-. Qed.

(** The node stops its miner, rewinds to the first block and inserts the sibling. *)
Lemma borVerify_verdict_witness :
  verdict EngineDemo.demoKeccak demoNode 1 2 (demoHash demoSibling) false
    (borVerify EngineDemo.demoKeccak 1 2 (demoHash demoSibling) false demoNode) /\
  match borVerify EngineDemo.demoKeccak 1 2 (demoHash demoSibling) false demoNode with
  | Fail n' errHashMismatch =>
      trace n' = [StopMiner; CancelDownloads; SetHeadTo 1; InsertBlocks [demoSibling]; MakeCanonical demoSibling; StartMiner]
  | _ => False
  end.
Proof.
  split; [|vm_compute; reflexivity].
  apply (borVerify_verdict EngineDemo.demoKeccak demoC _ _ demoNode 1 2 (demoHash demoSibling) false).
  - reflexivity.
  - exact demoWhitelist_sane.
  - wsolve.
  - wsolve.
  - intros _. exact demoSibling_number.
Defined.

Definition demoMilestone : MilestoneMsg := mkMilestoneMsg 1 2 (demoHash EngineDemo.demoBlock2) 0.

(** The second block is whitelisted on the chain that has it. *)
Lemma handleMilestone_whitelists_witness :
  exists n', handleMilestone EngineDemo.demoKeccak demoMilestone demoNode = Done n' tt /\
    mFinality (mil (checker n')) = mkFinality true (EndBlock demoMilestone) (MsgHash demoMilestone).
Proof.
  destruct (handleMilestone_whitelists EngineDemo.demoKeccak demoC _ _
    demoMilestone demoNode demoNode) as [(n' & H & _ & _ & Hf & _)|(n' & e & H & _)].
  - reflexivity.
  - reflexivity.
  - exact demoWhitelist_sane.
  - cbn [StartBlock demoMilestone]. wsolve.
  - cbn [EndBlock demoMilestone]. wsolve.
  - intros k H. vm_compute in H. injection H as <-. reflexivity.
  - exists n'. exact (conj H Hf).
  - exfalso. vm_compute in H. discriminate H.
Defined.

(** Seventeen blocks. *)
Definition demoTall : Node demoC :=
  mkNode (mkDemoC (replicate 17 EngineDemo.demoGenesis) []) demoWhitelist None (mkFastForward false 0 0 0 [] None) [].

(** A node with seventeen blocks votes for the genesis block; also after milestones below it,
    checkpoints and checks of other chains, a chain that stops there is refused. *)
Lemma GetVoteOnHash_binds_witness :
  exists n', GetVoteOnHash EngineDemo.demoKeccak true 0 (Some (demoHash EngineDemo.demoGenesis)) "id" demoTall = Done n' true /\
    forall s RH s1, reachable EngineDemo.demoKeccak true (holdsLock 0 "id") (checker n') s ->
      IsValidChain EngineDemo.demoKeccak true RH EngineDemo.demoGenesis [EngineDemo.demoGenesis] s <> Done s1 true.
Proof.
  destruct (GetVoteOnHash_binds EngineDemo.demoKeccak demoC _ true 0 (Some (demoHash EngineDemo.demoGenesis)) "id" demoTall)
    as [Hyes _]; [reflexivity|].
  destruct (Hyes EngineDemo.demoGenesis) as (n' & Hv & _ & Hb).
  { split; [reflexivity|]. split; [vm_compute; discriminate|]. split; [exists EngineDemo.demoGenesis; reflexivity|].
    split; reflexivity. }
  exists n'. split; [exact Hv|]. intros s RH s1 Hs Hc.
  destruct (Hb s Hs RH 0 [EngineDemo.demoGenesis] EngineDemo.demoGenesis 0 s1) as [Ht _]; [|reflexivity|wsolve|exact Hc|].
  - split; [lia|vm_compute; discriminate| |discriminate]. intros [|i] h; [|intros Hi; discriminate Hi]. intros Hi. injection Hi as <-. reflexivity.
  - vm_compute in Ht. discriminate Ht.
Defined.

End VerifierProps.
