(* ===== verification/ForkChoice.v ===== *)
(** * Fork choice (core/forkchoice.go)

    Which of two heads the node prefers, and the check of a chain by the validator,
    an interface the whitelist implements.  Without local preferences the choice is a
    strict total order on blocks. *)

From S2P Require Import Prelude Bytes Header Seal Whitelist.

Module ForkChoice.
Import Header Whitelist.

(** ** The chain validator *)

(** [ethereum.ChainValidator], as far as fork choice uses it. *)
Class ChainValidator (V : Type) := validate : Header -> list Header -> st V Empty_set bool.

#[export] Instance whitelistValidator (keccak : list Z -> Z) (flag : bool) (ReadHeader : Z -> Z -> option Header)
  : ChainValidator Service := Whitelist.IsValidChain keccak flag ReadHeader.

(** ** The fork chooser *)

(** [GetTd] and the terminal difficulty come from the chain; [preserve] may be nil. *)
Record ForkChoice := mkForkChoice {
  GetTd : Z -> Z -> option Z;
  TerminalTotalDifficulty : option Z;
  preserve : option (Header -> bool)
}.

Inductive reorgError := errMissingTd.

Section forkchoice.
Variable keccak : list Z -> Z.
Abbreviation hashOf := (Seal.Hash keccak).

(** [None] is a nil dereference.  The bytes of hashes are compared, that is their
    numbers. *)
Definition ReorgNeeded (f : ForkChoice) (current extern : Header) : option (bool + reorgError) :=
  localNum ← numU64 current; externNum ← numU64 extern;
  match GetTd f (hashOf current) localNum, GetTd f (hashOf extern) externNum with
  | Some localTD, Some externTd =>
      if match TerminalTotalDifficulty f with Some ttd => ttd <=? externTd | None => false end then Some (inl true) else
      if localTD <? externTd then Some (inl true) else
      if externTd <? localTD then Some (inl false) else
      if externNum <? localNum then Some (inl true) else
      if negb (externNum =? localNum) then Some (inl false) else
      let '(currentPreserve, externPreserve) :=
        match preserve f with Some p => (p current, p extern) | None => (false, false) end in
      Some (inl (negb currentPreserve && (externPreserve || (hashOf current <? hashOf extern))))
  | _, _ => Some (inr errMissingTd)
  end.

Definition ValidateReorg {V} {CV : ChainValidator V} (validator : bool) (current : Header) (chain : list Header)
  : st V Empty_set bool :=
  if validator then validate current chain else mret true.

(** ** The order *)

(** Greater total difficulty first, then the lower number, then the greater hash. *)
Definition beats (td1 n1 h1 td2 n2 h2 : Z) : Prop :=
  td2 < td1 \/ td1 = td2 /\ (n1 < n2 \/ n1 = n2 /\ h2 < h1).

Lemma preferred_irrefl td n h : ~ beats td n h td n h.
Proof. unfold beats. lia. Qed.

Lemma preferred_trans td1 n1 h1 td2 n2 h2 td3 n3 h3 :
  beats td1 n1 h1 td2 n2 h2 -> beats td2 n2 h2 td3 n3 h3 -> beats td1 n1 h1 td3 n3 h3.
Proof. unfold beats. lia. Qed.

Lemma preferred_total td1 n1 h1 td2 n2 h2 : beats td1 n1 h1 td2 n2 h2 \/ (td1 = td2 /\ n1 = n2 /\ h1 = h2) \/ beats td2 n2 h2 td1 n1 h1.
Proof. unfold beats. lia. Qed.

(** Without a terminal difficulty and without local preferences. *)
Definition impartial (f : ForkChoice) : Prop := TerminalTotalDifficulty f = None /\ preserve f = None.

Lemma ReorgNeeded_beats f current extern ln en ltd etd :
  impartial f -> numU64 current = Some ln -> numU64 extern = Some en ->
  GetTd f (hashOf current) ln = Some ltd -> GetTd f (hashOf extern) en = Some etd ->
  exists b, ReorgNeeded f current extern = Some (inl b) /\
    (b = true <-> beats etd en (hashOf extern) ltd ln (hashOf current)).
Proof.
  intros [Ht Hp] Hl He Hlt Het. unfold ReorgNeeded. rewrite Hl, He. cbn [mbind option_bind]. rewrite Hlt, Het, Ht, Hp.
  unfold beats. cbn [negb orb andb].
  destruct (Z.ltb_spec ltd etd); [exists true; split; [done|]; lia|].
  destruct (Z.ltb_spec etd ltd); [exists false; split; [done|]; split; [done|lia]|].
  destruct (Z.ltb_spec en ln); [exists true; split; [done|]; lia|].
  destruct (Z.eqb_spec en ln); cbn [negb]; [|exists false; split; [done|]; split; [done|lia]].
  eexists; split; [reflexivity|]. rewrite Z.ltb_lt. lia.
Qed.

End forkchoice.

End ForkChoice.
