(* ===== verification/CanonChain.v ===== *)
(** * The canonical chain (core/blockchain.go)

    Writing blocks, choosing the head, and moving the canonical index from one branch
    to another.  The database is modelled by what these operations read and write:
    blocks and total difficulties by hash and number, the hash of each canonical
    number, the transaction lookups, and the head markers.  The caches in front of it,
    receipts, logs and the state tries are left out. *)

From S2P Require Import Prelude Bytes Header Seal Whitelist ForkChoice.

Module CanonChain.
Import Header Whitelist ForkChoice.

Record Block := mkBlock {
  bHeader : Header;
  Transactions : list Z
}.

(** What the feeds of the chain send. *)
Inductive feedEvent :=
| ChainSideEvent (h : Header)
| Chain2HeadReorgEvent (newChain oldChain : list Header)
| Chain2HeadForkEvent (h : Header)
| ChainEvent (h : Header)
| ChainHeadEvent (h : Header).

Record Chain := mkChain {
  blocks : gmap (Z * Z) Block;
  tds : gmap (Z * Z) Z;
  canonicalHash : gmap Z Z;
  txLookup : gmap Z Z;
  headHeaderHash : Z;
  headFastBlockHash : Z;
  headBlockHash : Z;
  currentHeader : Header;
  currentSnapBlock : Header;
  currentBlock : Header;
  feed : list feedEvent
}.

Inductive WriteStatus := CanonStatTy | SideStatTy.

Inductive chainError :=
| errInvalidOldChain | errInvalidNewChain | ErrUnknownAncestor | errMissingTotalDifficulty | errCommitState.

Abbreviation cm := (st Chain chainError).

Definition send (e : feedEvent) : cm unit :=
  modify (fun c => mkChain (blocks c) (tds c) (canonicalHash c) (txLookup c) (headHeaderHash c) (headFastBlockHash c)
    (headBlockHash c) (currentHeader c) (currentSnapBlock c) (currentBlock c) (feed c ++ [e])).

Definition setIndex (canon lookup : gmap Z Z) (c : Chain) : Chain :=
  mkChain (blocks c) (tds c) canon lookup (headHeaderHash c) (headFastBlockHash c) (headBlockHash c)
    (currentHeader c) (currentSnapBlock c) (currentBlock c) (feed c).

(** ** Reading *)

Definition GetBlock (c : Chain) (hash number : Z) : option Block := blocks c !! (hash, number).
Definition GetHeader (c : Chain) (hash number : Z) : option Header := bHeader <$> GetBlock c hash number.
Definition GetTd (c : Chain) (hash number : Z) : option Z := tds c !! (hash, number).

(** A missing entry reads as the zero hash. *)
Definition ReadCanonicalHash (canon : gmap Z Z) (number : Z) : Z := default 0 (canon !! number).

(** [types.HashDifference]. *)
Definition HashDifference (a b : list Z) : list Z := List.filter (fun h => negb (bool_decide (h ∈ b))) a.

Section chain.
Variable keccak : list Z -> Z.
Abbreviation hashOf := (Seal.Hash keccak).

Definition bNumber (b : Block) : option Z := numU64 (bHeader b).
Definition bHash (b : Block) : Z := hashOf (bHeader b).

(** ** Writing the head *)

Definition WriteTxLookupEntriesByBlock (number : Z) (txs : list Z) (l : gmap Z Z) : gmap Z Z :=
  fold_left (fun l tx => <[tx := number]> l) txs l.

Definition writeHeadBlock (b : Block) : cm unit :=
  n ← orPanic "nil pointer dereference" (bNumber b);
  modify (fun c => mkChain (blocks c) (tds c) (<[n := bHash b]> (canonicalHash c))
    (WriteTxLookupEntriesByBlock n (Transactions b) (txLookup c)) (bHash b) (bHash b) (bHash b)
    (bHeader b) (bHeader b) (bHeader b) (feed c)).

(** ** Reorganization *)

(** The loops that reduce the longer chain: the headers passed, and the one reached or
    nil. *)
Fixpoint reduceTo (fuel : nat) (c : Chain) (h : Header) (number : Z) (acc : list Header)
  : option (option Header * list Header) :=
  match fuel with
  | O => None
  | S fuel' =>
      n ← numU64 h;
      if n =? number then Some (Some h, acc) else
      match GetHeader c (ParentHash h) (u64 (n - 1)) with
      | None => Some (None, acc ++ [h])
      | Some p => reduceTo fuel' c p number (acc ++ [h])
      end
  end.

Fixpoint findCommon (fuel : nat) (c : Chain) (oldHead newHead : Header) (oldChain newChain : list Header)
  : option (Header * list Header * list Header + chainError) :=
  match fuel with
  | O => None
  | S fuel' =>
      if hashOf oldHead =? hashOf newHead then Some (inl (oldHead, oldChain, newChain)) else
      oldNum ← numU64 oldHead; newNum ← numU64 newHead;
      match GetHeader c (ParentHash oldHead) (u64 (oldNum - 1)) with
      | None => Some (inr errInvalidOldChain)
      | Some oldHead' =>
          match GetHeader c (ParentHash newHead) (u64 (newNum - 1)) with
          | None => Some (inr errInvalidNewChain)
          | Some newHead' => findCommon fuel' c oldHead' newHead' (oldChain ++ [oldHead]) (newChain ++ [newHead])
          end
      end
  end.

Definition blockOf (c : Chain) (h : Header) : option Block := n ← numU64 h; GetBlock c (hashOf h) n.

(** The dropped blocks are announced from the lowest up; a missing one is an error. *)
Fixpoint announceOld (c : Chain) (l : list Header) : cm unit :=
  match l with
  | [] => mret tt
  | h :: l' =>
      send (ChainSideEvent h);;
      match blockOf c h with
      | None => failS errInvalidOldChain
      | Some _ => announceOld c l'
      end
  end.

Fixpoint collectDeleted (c : Chain) (l : list Header) : cm (list Z) :=
  match l with
  | [] => mret []
  | h :: l' =>
      match blockOf c h with
      | None => failS errInvalidOldChain
      | Some b => txs ← collectDeleted c l'; mret (Transactions b ++ txs)
      end
  end.

(** The new blocks below the new head, from the lowest up. *)
Fixpoint applyNew (l : list Header) : cm (list Z) :=
  match l with
  | [] => mret []
  | h :: l' =>
      c ← getS;
      match blockOf c h with
      | None => failS errInvalidNewChain
      | Some b => writeHeadBlock b;; txs ← applyNew l'; mret (Transactions b ++ txs)
      end
  end.

(** The markers from a number up to the first missing one. *)
Fixpoint deleteMarkers (fuel : nat) (i : Z) (canon : gmap Z Z) : gmap Z Z :=
  match fuel with
  | O => canon
  | S fuel' =>
      if ReadCanonicalHash canon i =? 0 then canon
      else deleteMarkers fuel' (u64 (i + 1)) (delete i canon)
  end.

Definition dropLookups (txs : list Z) (l : gmap Z Z) : gmap Z Z := fold_left (fun l tx => delete tx l) txs l.

(** The branches to drop and to add, from their heads down, and where they meet. *)
Definition branches (c : Chain) (oldHead newHead : Header) : option (Header * list Header * list Header + chainError) :=
  oldNum ← numU64 oldHead; newNum ← numU64 newHead;
  let fuel := S (Z.to_nat (Z.max oldNum newNum)) in
  if newNum <? oldNum then
    '(old, oldChain) ← reduceTo fuel c oldHead newNum [];
    match old with
    | None => Some (inr errInvalidOldChain)
    | Some oldHead' => findCommon fuel c oldHead' newHead oldChain []
    end
  else
    '(new, newChain) ← reduceTo fuel c newHead oldNum [];
    match new with
    | None => Some (inr errInvalidNewChain)
    | Some newHead' => findCommon fuel c oldHead newHead' [] newChain
    end.

Definition reorg (oldHead newHead : Header) : cm unit :=
  c ← getS;
  r ← orPanic "nil pointer dereference" (branches c oldHead newHead);
  match r with
  | inr e => failS e
  | inl (commonBlock, oldChain, newChain) =>
      if (length oldChain =? 0)%nat && (length newChain =? 0)%nat then mret tt else
      (if (0 <? length oldChain)%nat && (0 <? length newChain)%nat
       then send (Chain2HeadReorgEvent newChain oldChain) else mret tt);;
      announceOld c (reverse oldChain);;
      deletedTxs ← collectDeleted c oldChain;
      rebirthTxs ← applyNew (reverse (tail newChain));
      number ← orPanic "nil pointer dereference" (numU64 (default commonBlock (newChain !! 1%nat)));
      modify (fun c =>
        setIndex (deleteMarkers (S (size (canonicalHash c))) (u64 (number + 1)) (canonicalHash c))
          (dropLookups (HashDifference deletedTxs rebirthTxs) (txLookup c)) c)
  end.

(** ** Importing blocks *)

(** The part of [writeBlockWithState] that writes the block, and the outcome of the
    commit of its state. *)
Definition writeBlockWithState (b : Block) (commitOk : bool) : cm unit :=
  c ← getS;
  n ← orPanic "nil pointer dereference" (bNumber b);
  match GetTd c (ParentHash (bHeader b)) (u64 (n - 1)) with
  | None => failS ErrUnknownAncestor
  | Some ptd =>
      d ← orPanic "nil pointer dereference" (Difficulty (bHeader b));
      modify (fun c => mkChain (<[(bHash b, n) := b]> (blocks c)) (<[(bHash b, n) := d + ptd]> (tds c))
        (canonicalHash c) (txLookup c) (headHeaderHash c) (headFastBlockHash c) (headBlockHash c)
        (currentHeader c) (currentSnapBlock c) (currentBlock c) (feed c));;
      if commitOk then mret tt else failS errCommitState
  end.

(** The fork chooser of the chain. *)
Definition forker (ttd : option Z) (preserve : option (Header -> bool)) (c : Chain) : ForkChoice.ForkChoice :=
  ForkChoice.mkForkChoice (GetTd c) ttd preserve.

Section import.
Variables (ttd : option Z) (preserve : option (Header -> bool)).

(** A reorganization whose error is passed on unless it is the one a stateless node
    accepts. *)
Definition reorgFor (stateless : bool) (oldHead newHead : Header) : cm unit := fun c =>
  match reorg oldHead newHead c with
  | Fail c' errInvalidNewChain => if stateless then Done c' tt else Fail c' errInvalidNewChain
  | r => r
  end.

Definition resolvePostWriteStatus (b : Block) (stateless : bool) : cm WriteStatus :=
  c ← getS;
  r ← orPanic "nil pointer dereference" (ForkChoice.ReorgNeeded keccak (forker ttd preserve c) (currentBlock c) (bHeader b));
  match r with
  | inr _ => failS errMissingTotalDifficulty
  | inl false => mret SideStatTy
  | inl true =>
      (if negb (ParentHash (bHeader b) =? hashOf (currentBlock c))
       then reorgFor stateless (currentBlock c) (bHeader b) else mret tt);;
      mret CanonStatTy
  end.

Definition emitPostWriteEvents (b : Block) (status : WriteStatus) (emitHeadEvent : bool) : cm unit :=
  match status with
  | SideStatTy => send (ChainSideEvent (bHeader b));; send (Chain2HeadForkEvent (bHeader b))
  | CanonStatTy =>
      writeHeadBlock b;;
      send (ChainEvent (bHeader b));;
      if emitHeadEvent then send (ChainHeadEvent (bHeader b)) else mret tt
  end.

Definition writeBlockAndSetHead (b : Block) (commitOk emitHeadEvent stateless : bool) : cm WriteStatus :=
  writeBlockWithState b commitOk;;
  status ← resolvePostWriteStatus b stateless;
  emitPostWriteEvents b status emitHeadEvent;;
  mret status.

End import.

Definition moveHead (b : Block) : cm unit :=
  c ← getS;
  (if negb (ParentHash (bHeader b) =? hashOf (currentBlock c)) then reorg (currentBlock c) (bHeader b) else mret tt);;
  writeHeadBlock b.

Definition writeKnownBlock (b : Block) : cm unit := moveHead b.

(** [SetCanonical] for a block whose state is there. *)
Definition SetCanonical (b : Block) : cm Z :=
  moveHead b;;
  send (ChainEvent (bHeader b));;
  send (ChainHeadEvent (bHeader b));;
  mret (bHash b).

(** A chain with only its genesis block. *)
Definition genesisChain (g : Block) (d : Z) : Chain :=
  mkChain {[(bHash g, 0) := g]} {[(bHash g, 0) := d]} {[0 := bHash g]} (WriteTxLookupEntriesByBlock 0 (Transactions g) ∅)
    (bHash g) (bHash g) (bHash g) (bHeader g) (bHeader g) (bHeader g) [].

End chain.

End CanonChain.
