(* ===== verification/CanonChainProps.v ===== *)
(** * Properties of the canonical chain

    The canonical index is always the line of blocks from genesis to the head, and the
    head is the block fork choice prefers among all that are stored; so nodes that
    have imported the same blocks, in whatever order, agree on the head and on every
    canonical number. *)

From S2P Require Import Prelude Bytes Header Seal Engine EngineDemo Whitelist ForkChoice CanonChain.

Module CanonChainProps.
Import Header Whitelist ForkChoice CanonChain.

Section canonical.
Variable keccak : list Z -> Z.
(** The blocks the node may see. *)
Variable U : Block -> Prop.

Abbreviation hashOf := (Seal.Hash keccak).
Abbreviation bHash := (CanonChain.bHash keccak).

(** Their hashes differ and are not zero, they have numbers and difficulties, and one with
    number zero has no parent. *)
Record universe : Prop := mkUniverse {
  U_inj : forall a b, U a -> U b -> bHash a = bHash b -> a = b;
  U_hash : forall a, U a -> bHash a <> 0;
  U_num : forall a, U a -> exists n, bNumber a = Some n /\ 0 <= n <= MaxInt64;
  U_diff : forall a, U a -> exists d, Difficulty (bHeader a) = Some d;
  U_root : forall a, U a -> bNumber a = Some 0 -> ParentHash (bHeader a) = 0
}.
Hypothesis HU : universe.

(** ** Lines of blocks *)

Abbreviation store := (gmap (Z * Z) Block).

(** Blocks are stored under their hash and number. *)
Definition keyed (B : store) : Prop :=
  forall k n b, B !! (k, n) = Some b -> k = bHash b /\ bNumber b = Some n /\ U b.

Definition sits (B : store) (h : Header) (n : Z) : Prop :=
  exists b, B !! (hashOf h, n) = Some b /\ bHeader b = h /\ numU64 h = Some n.

(** The blocks from a header down to one with number zero. *)
Inductive lineage (B : store) : Header -> list Header -> Prop :=
| lin_root h : sits B h 0 -> lineage B h [h]
| lin_next h pb n l :
    sits B h (n + 1) -> 0 <= n -> B !! (ParentHash h, n) = Some pb -> lineage B (bHeader pb) l ->
    lineage B h (h :: l).

Section lineage.
Context (B : store) (Hk : keyed B).

Lemma lineage_cons h l : lineage B h l -> exists l', l = h :: l'.
Proof. destruct 1; eauto. Qed.

Lemma stored_number k n b : B !! (k, n) = Some b -> numU64 (bHeader b) = Some n.
Proof. intros H. by apply Hk in H as (_ & H & _). Qed.

Lemma lineage_sits h l : lineage B h l -> sits B h (Z.of_nat (length l) - 1).
Proof.
  induction 1 as [h Hh|h pb n l Hh Hn Hp Hl IH]; [exact Hh|].
  replace (Z.of_nat (length (h :: l)) - 1) with (n + 1); [done|].
  destruct IH as (_ & _ & _ & Hnum). rewrite (stored_number _ _ _ Hp) in Hnum. injection Hnum as ->. cbn [length]. lia.
Qed.

Lemma lineage_number h l : lineage B h l -> numU64 h = Some (Z.of_nat (length l) - 1).
Proof. intros H. by apply lineage_sits in H as (_ & _ & _ & ?). Qed.

Lemma lineage_det h l l' : lineage B h l -> lineage B h l' -> l = l'.
Proof.
  intros H. revert l'. induction H as [h Hh|h pb n l Hh Hn Hp Hl IH]; intros l' Hl'.
  - destruct Hh as (_ & _ & _ & Hh). inversion Hl' as [|? pb' n' ? Hs]; subst; [done|].
    destruct Hs as (_ & _ & _ & Hs). rewrite Hs in Hh. injection Hh. lia.
  - destruct Hh as (_ & _ & _ & Hh). inversion Hl' as [? Hs|? pb' n' ? Hs Hn' Hp' Hl'']; subst;
      destruct Hs as (_ & _ & _ & Hs); rewrite Hs in Hh; injection Hh as Hh; [lia|].
    assert (n' = n) as -> by lia. rewrite Hp in Hp'. injection Hp' as <-. f_equal. by apply IH.
Qed.

Lemma lineage_drop h l k x r : lineage B h l -> drop k l = x :: r -> lineage B x (x :: r).
Proof.
  intros H. revert k. induction H as [h Hh|h pb n l Hh Hn Hp Hl IH]; intros [|k]; cbn [drop].
  - intros [= <- <-]. by apply lin_root.
  - by rewrite drop_nil.
  - intros [= <- <-]. by eapply lin_next.
  - apply IH.
Qed.

Lemma lineage_lookup h l i x : lineage B h l -> l !! i = Some x -> sits B x (Z.of_nat (length l) - 1 - Z.of_nat i).
Proof.
  intros H Hi. assert (Hd : exists r, drop i l = x :: r) by (exists (drop (S i) l); by apply drop_S).
  destruct Hd as [r Hd]. pose proof (lineage_drop _ _ _ _ _ H Hd) as Hx. apply lineage_sits in Hx.
  rewrite <- Hd, length_drop in Hx. apply lookup_lt_Some in Hi.
  replace (Z.of_nat (length l) - 1 - Z.of_nat i) with (Z.of_nat (length l - i) - 1) by lia. done.
Qed.

(** Every line ends at the one block with number zero, if there is one. *)
Lemma lineage_last h l : lineage B h l -> exists r, last l = Some r /\ sits B r 0.
Proof.
  induction 1 as [h Hh|h pb n l Hh Hn Hp Hl IH]; [by exists h|].
  destruct IH as (r & Hr & Hs). exists r. split; [|done].
  destruct (lineage_cons _ _ Hl) as [l' ->]. done.
Qed.

Lemma sits_eq x y n m : sits B x n -> sits B y m -> hashOf x = hashOf y -> x = y.
Proof.
  intros (bx & Hx & <- & _) (by' & Hy & <- & _) E. f_equal.
  apply Hk in Hx as (_ & _ & Ux). apply Hk in Hy as (_ & _ & Uy). by apply (U_inj HU).
Qed.

Lemma lineage_exists h n :
  (forall k m b, B !! (k, m) = Some b -> 0 < m -> is_Some (B !! (ParentHash (bHeader b), m - 1))) ->
  0 <= n -> sits B h n -> exists l, lineage B h l.
Proof.
  intros Hpar Hn. revert h. pattern n. apply natlike_ind; [| |done]; clear n Hn.
  - intros h Hh. exists [h]. by apply lin_root.
  - intros n Hn IH h Hh. destruct Hh as (b & Hb & <- & Hnum).
    destruct (Hpar _ _ _ Hb ltac:(lia)) as [pb Hpb]. replace (Z.succ n - 1) with n in Hpb by lia.
    destruct (IH (bHeader pb)) as [l Hl].
    { exists pb. pose proof (Hk _ _ _ Hpb) as (E & Hpn & _). unfold CanonChain.bHash in E. rewrite <- E. done. }
    exists (bHeader b :: l). apply (lin_next _ _ pb n); [|done..]. exists b. by rewrite Z.add_1_r.
Qed.

End lineage.

Lemma lineage_mono B B' h l : B ⊆ B' -> lineage B h l -> lineage B' h l.
Proof.
  intros Hs. assert (Hm : forall x n, sits B x n -> sits B' x n).
  { intros x n (b & Hb & H). exists b. split; [by apply (lookup_weaken B B')|done]. }
  induction 1 as [h Hh|h pb n l Hh Hn Hp Hl IH].
  - apply lin_root. auto.
  - apply (lin_next _ _ pb n); [auto|done|by apply (lookup_weaken B B')|done].
Qed.

(** ** Where two lines meet *)

Section walks.
Context (c : Chain) (Hk : keyed (blocks c)).

(** The parent of a header that is not the last of its line. *)
Lemma parent_read h x l n :
  lineage (blocks c) h (h :: x :: l) -> numU64 h = Some n ->
  GetHeader c (ParentHash h) (u64 (n - 1)) = Some x /\ lineage (blocks c) x (x :: l).
Proof.
  intros H Hn. inversion H as [|? pb m ? Hh Hm Hp Hl]; subst.
  destruct Hh as (b & Hb & Eb & Hnum). rewrite Hnum in Hn. injection Hn as <-.
  destruct (Hk _ _ _ Hb) as (_ & Hbn & Ub). unfold bNumber in Hbn. rewrite Eb, Hnum in Hbn.
  destruct (U_num HU b Ub) as (k & Hbk & Hr). unfold bNumber in Hbk. rewrite Eb, Hnum in Hbk. injection Hbk as <-.
  destruct (lineage_cons _ _ _ Hl) as [l' E]. injection E as -> ->.
  rewrite Z.add_simpl_r, u64_small by wsolve. unfold GetHeader, GetBlock. rewrite Hp. done.
Qed.

Lemma reduceTo_spec fuel h l n t acc :
  lineage (blocks c) h l -> numU64 h = Some n -> 0 <= t <= n -> n - t < Z.of_nat fuel ->
  exists h', reduceTo fuel c h t acc = Some (Some h', acc ++ take (Z.to_nat (n - t)) l) /\
    lineage (blocks c) h' (drop (Z.to_nat (n - t)) l).
Proof.
  revert h l n acc. induction fuel as [|fuel IH]; intros h l n acc Hl Hn Ht Hf; [lia|].
  cbn [reduceTo]. rewrite Hn. cbn [mbind option_bind]. destruct (Z.eqb_spec n t) as [->|Hne].
  { exists h. rewrite Z.sub_diag. cbn [Z.to_nat take drop]. by rewrite app_nil_r. }
  pose proof (lineage_number _ Hk _ _ Hl) as Hlen. rewrite Hn in Hlen. injection Hlen as Hlen.
  destruct (lineage_cons _ _ _ Hl) as [[|x l'] ->]; [cbn in Hlen; lia|].
  destruct (parent_read _ _ _ _ Hl Hn) as [-> Hx].
  assert (Hxn : numU64 x = Some (n - 1)).
  { rewrite (lineage_number _ Hk _ _ Hx). f_equal. cbn [length] in *. lia. }
  destruct (IH x (x :: l') (n - 1) (acc ++ [h]) Hx Hxn) as (h' & -> & Hh'); [lia..|].
  exists h'. replace (Z.to_nat (n - t)) with (S (Z.to_nat (n - 1 - t))) by lia. cbn [take drop].
  by rewrite <- app_assoc.
Qed.

Lemma findCommon_spec fuel o w lo lw oc nc :
  lineage (blocks c) o lo -> lineage (blocks c) w lw -> length lo = length lw -> last lo = last lw ->
  (length lo <= fuel)%nat ->
  exists k cb, findCommon keccak fuel c o w oc nc = Some (inl (cb, oc ++ take k lo, nc ++ take k lw)) /\
    drop k lo = drop k lw /\ lineage (blocks c) cb (drop k lo).
Proof.
  revert o w lo lw oc nc. induction fuel as [|fuel IH]; intros o w lo lw oc nc Ho Hw Hlen Hlast Hf.
  { destruct (lineage_cons _ _ _ Ho) as [? ->]. cbn in Hf. lia. }
  cbn [findCommon]. destruct (Z.eqb_spec (hashOf o) (hashOf w)) as [E|E].
  - exists 0%nat, o. cbn [take drop]. rewrite !app_nil_r. split; [done|]. split; [|done].
    pose proof (lineage_sits _ Hk _ _ Ho) as So. pose proof (lineage_sits _ Hk _ _ Hw) as Sw.
    assert (o = w) as <- by (by eapply sits_eq). by eapply lineage_det.
  - pose proof (lineage_number _ Hk _ _ Ho) as Hon. pose proof (lineage_number _ Hk _ _ Hw) as Hwn.
    rewrite Hon, Hwn. cbn [mbind option_bind].
    destruct (lineage_cons _ _ _ Ho) as [[|x lo'] ->], (lineage_cons _ _ _ Hw) as [[|y lw'] ->]; cbn [length] in *;
      [exfalso; injection Hlast as <-; done|lia..|].
    destruct (parent_read _ _ _ _ Ho Hon) as [-> Hx]. destruct (parent_read _ _ _ _ Hw Hwn) as [-> Hy].
    destruct (IH x y (x :: lo') (y :: lw') (oc ++ [o]) (nc ++ [w]) Hx Hy) as (k & cb & -> & Hd & Hcb);
      [cbn [length]; lia|exact Hlast|cbn [length]; lia|].
    exists (S k), cb. cbn [take drop]. by rewrite <- !app_assoc.
Qed.

(** The branches lead from the two heads down to a common line. *)
Lemma branches_spec o w lo lw :
  lineage (blocks c) o lo -> lineage (blocks c) w lw -> last lo = last lw ->
  exists k j cb, branches keccak c o w = Some (inl (cb, take k lo, take j lw)) /\
    drop k lo = drop j lw /\ lineage (blocks c) cb (drop k lo).
Proof.
  intros Ho Hw Hlast. unfold branches.
  pose proof (lineage_number _ Hk _ _ Ho) as Hon. pose proof (lineage_number _ Hk _ _ Hw) as Hwn.
  rewrite Hon, Hwn. cbn [mbind option_bind].
  set (on := Z.of_nat (length lo) - 1) in *. set (wn := Z.of_nat (length lw) - 1) in *.
  assert (Hlo : (1 <= length lo)%nat) by (destruct (lineage_cons _ _ _ Ho) as [? ->]; cbn; lia).
  assert (Hlw : (1 <= length lw)%nat) by (destruct (lineage_cons _ _ _ Hw) as [? ->]; cbn; lia).
  assert (Hld : forall A (l : list A) d, (d < length l)%nat -> last (drop d l) = last l).
  { intros A l d Hd. rewrite !last_lookup, length_drop, lookup_drop. f_equal. lia. }
  destruct (Z.ltb_spec wn on).
  - destruct (reduceTo_spec (S (Z.to_nat (Z.max on wn))) o lo on wn [] Ho Hon) as (o' & -> & Ho'); [lia..|].
    cbn [app mbind option_bind]. set (d := Z.to_nat (on - wn)) in *.
    destruct (findCommon_spec (S (Z.to_nat (Z.max on wn))) o' w (drop d lo) lw (take d lo) [] Ho' Hw)
      as (k & cb & -> & Hd & Hcb); [rewrite length_drop; lia|rewrite Hld by lia; done|rewrite length_drop; lia|].
    exists (d + k)%nat, k, cb. rewrite drop_drop in *. split; [|done].
    cbn [app]. by rewrite take_take_drop.
  - destruct (reduceTo_spec (S (Z.to_nat (Z.max on wn))) w lw wn on [] Hw Hwn) as (w' & -> & Hw'); [lia..|].
    cbn [app mbind option_bind]. set (d := Z.to_nat (wn - on)) in *.
    destruct (findCommon_spec (S (Z.to_nat (Z.max on wn))) o w' lo (drop d lw) [] (take d lw) Ho Hw')
      as (k & cb & -> & Hd & Hcb); [rewrite length_drop; lia|rewrite Hld by lia; done|lia|].
    exists k, (d + k)%nat, cb. rewrite drop_drop in *. split; [|done].
    cbn [app]. by rewrite take_take_drop.
Qed.

End walks.

(** ** Moving the index *)

(** The hash at each number of a line. *)
Definition line (l : list Header) (n : Z) : option Z :=
  if n <? 0 then None else hashOf <$> reverse l !! Z.to_nat n.

Lemma line_neg l n : n < 0 -> line l n = None.
Proof. intros. unfold line. by destruct (Z.ltb_spec n 0); [|lia]. Qed.

Lemma line_pos l n : 0 <= n -> line l n = hashOf <$> reverse l !! Z.to_nat n.
Proof. intros. unfold line. by destruct (Z.ltb_spec n 0); [lia|]. Qed.

(** The blocks of headers. *)
Definition bodies (B : store) (hs : list Header) (bs : list Block) : Prop :=
  Forall2 (fun h b => exists n, numU64 h = Some n /\ B !! (hashOf h, n) = Some b /\ bHeader b = h) hs bs.

Lemma bodies_exist B hs : (forall h, h ∈ hs -> exists n, sits B h n) -> exists bs, bodies B hs bs.
Proof.
  induction hs as [|h hs IH]; intros Hs; [exists []; constructor|].
  destruct (Hs h) as (n & b & Hb & Eb & Hn); [by left|]. destruct IH as [bs Hbs]; [intros x Hx; apply Hs; by right|].
  exists (b :: bs). constructor; [|done]. by exists n.
Qed.

(** Only the index and the head markers differ. *)
Definition sameStore (c c' : Chain) : Prop := blocks c' = blocks c /\ tds c' = tds c.

Lemma announceOld_spec c0 hs bs c :
  bodies (blocks c0) hs bs ->
  exists c', announceOld keccak c0 hs c = Done c' tt /\ sameStore c c' /\ canonicalHash c' = canonicalHash c /\
    txLookup c' = txLookup c /\ currentBlock c' = currentBlock c.
Proof.
  intros Hb. revert c. induction Hb as [|h b hs bs (n & Hn & Hb & _) _ IH]; intros c; cbn [announceOld]; [by exists c|].
  erewrite bind_eq by reflexivity. unfold blockOf. rewrite Hn. cbn [mbind option_bind]. unfold GetBlock. rewrite Hb.
  edestruct IH as (c' & -> & Hs & H). exists c'. split; [done|]. exact (conj Hs H).
Qed.

Lemma collectDeleted_spec c0 hs bs c :
  bodies (blocks c0) hs bs -> collectDeleted keccak c0 hs c = Done c (concat (Transactions <$> bs)).
Proof.
  induction 1 as [|h b hs bs (n & Hn & Hb & _) _ IH]; cbn [collectDeleted]; [done|].
  unfold blockOf. rewrite Hn. cbn [mbind option_bind]. unfold GetBlock. rewrite Hb. by rewrite (bind_eq _ _ _ _ _ IH).
Qed.

Lemma writeHeadBlock_eq b n c :
  bNumber b = Some n ->
  exists c', writeHeadBlock keccak b c = Done c' tt /\ sameStore c c' /\ canonicalHash c' = <[n := bHash b]> (canonicalHash c) /\
    txLookup c' = WriteTxLookupEntriesByBlock n (Transactions b) (txLookup c) /\ currentBlock c' = bHeader b.
Proof. intros Hn. unfold writeHeadBlock. rewrite Hn. by eexists. Qed.

(** The lookups after writing the blocks of consecutive numbers. *)
Fixpoint writeAll (m : Z) (bs : list Block) (l : gmap Z Z) : gmap Z Z :=
  match bs with
  | [] => l
  | b :: bs' => writeAll (m + 1) bs' (WriteTxLookupEntriesByBlock m (Transactions b) l)
  end.

Lemma applyNew_spec hs bs m c :
  bodies (blocks c) hs bs -> (forall i h, hs !! i = Some h -> numU64 h = Some (m + Z.of_nat i)) ->
  exists c', applyNew keccak hs c = Done c' (concat (Transactions <$> bs)) /\ sameStore c c' /\
    (forall n, canonicalHash c' !! n = if (m <=? n) && (n <? m + Z.of_nat (length hs)) then hashOf <$> hs !! Z.to_nat (n - m)
                                       else canonicalHash c !! n) /\
    txLookup c' = writeAll m bs (txLookup c).
Proof.
  intros Hb. revert m c Hb. revert bs. induction hs as [|h hs IH]; intros bs m c Hb Hnum.
  { inversion Hb; subst. exists c. split; [done|]. split; [done|]. split; [|done]. intros n. cbn [length].
    destruct (Z.leb_spec m n), (Z.ltb_spec n (m + Z.of_nat 0)); cbn [andb]; [lia|done..]. }
  inversion Hb as [|? b ? bs' (k & Hk & Hbk & Eb) Hb']; subst. cbn [applyNew]. erewrite bind_eq by reflexivity.
  unfold blockOf. rewrite Hk. cbn [mbind option_bind]. unfold GetBlock. rewrite Hbk.
  assert (k = m) as -> by (specialize (Hnum 0%nat _ eq_refl); rewrite Hk in Hnum; injection Hnum; lia).
  destruct (writeHeadBlock_eq b m c Hk) as (c1 & H1 & Hs1 & Hc1 & Ht1 & _). rewrite (bind_eq _ _ _ _ _ H1).
  destruct (IH bs' (m + 1) c1) as (c2 & H2 & Hs2 & Hc2 & Ht2).
  { destruct Hs1 as [-> _]. done. }
  { intros i h' Hi. rewrite (Hnum (S i) h' Hi). f_equal. lia. }
  exists c2. rewrite (bind_eq _ _ _ _ _ H2). split; [done|].
  split; [destruct Hs1, Hs2; split; congruence|]. split; [|by rewrite Ht2, Ht1].
  intros n. rewrite Hc2, Hc1. cbn [length].
  destruct (Z.leb_spec (m + 1) n), (Z.ltb_spec n (m + 1 + Z.of_nat (length hs))), (Z.leb_spec m n),
    (Z.ltb_spec n (m + Z.of_nat (S (length hs)))); cbn [andb]; try lia.
  - replace (Z.to_nat (n - m)) with (S (Z.to_nat (n - (m + 1)))) by lia. done.
  - by rewrite lookup_insert_ne by lia.
  - assert (n = m) as -> by lia. rewrite lookup_insert_eq, Z.sub_diag. done.
  - by rewrite lookup_insert_ne by lia.
Qed.

Lemma size_run (m : gmap Z Z) i k : (forall n, i <= n < k -> is_Some (m !! n)) -> k - i <= Z.of_nat (size m).
Proof.
  destruct (Z.le_gt_cases k i); [lia|]. remember (Z.to_nat (k - i)) as d eqn:Ed. revert m k Ed H.
  induction d as [|d IH]; intros m k Ed Hki Hm; [lia|].
  destruct (Z.eq_dec k (i + 1)) as [->|Hne].
  - destruct (Hm i) as [x Hx]; [lia|]. assert (size m <> 0%nat); [|lia]. intros Hz. apply map_size_empty_inv in Hz. subst.
    by rewrite lookup_empty in Hx.
  - destruct (Hm (k - 1)) as [x Hx]; [lia|].
    assert (IHd : k - 1 - i <= Z.of_nat (size (delete (k - 1) m))).
    { apply IH; [lia..|]. intros n Hn. rewrite lookup_delete_ne by lia. apply Hm. lia. }
    rewrite map_size_delete, Hx in IHd. cbn in IHd.
    assert (size m <> 0%nat); [|lia]. intros Hz. apply map_size_empty_inv in Hz. subst. by rewrite lookup_empty in Hx.
Qed.

Lemma deleteMarkers_spec fuel i k (m : gmap Z Z) :
  0 <= i -> (forall n, i <= n -> is_Some (m !! n) <-> n < k) -> (forall n, i <= n -> m !! n <> Some 0) ->
  k <= MaxInt64 + 1 -> k - i < Z.of_nat fuel ->
  forall n, deleteMarkers fuel i m !! n = if i <=? n then None else m !! n.
Proof.
  revert i m. induction fuel as [|fuel IH]; intros i m Hi Hm H0 Hk Hf n; cbn [deleteMarkers].
  { destruct (Z.leb_spec i n); [|done]. rewrite eq_None_not_Some, Hm by done. lia. }
  unfold ReadCanonicalHash. destruct (m !! i) as [x|] eqn:Ex; unfold default, from_option, id.
  - destruct (Z.eqb_spec x 0) as [->|Hx]; [by destruct (H0 i)|].
    assert (i < k) by (apply Hm; [lia|by exists x]). rewrite u64_small by wsolve.
    rewrite IH.
    + destruct (Z.leb_spec (i + 1) n), (Z.leb_spec i n); try lia; [done|assert (n = i) as -> by lia|].
      * apply lookup_delete_eq.
      * by rewrite lookup_delete_ne by lia.
    + lia.
    + intros j Hj. rewrite lookup_delete_ne by lia. apply Hm. lia.
    + intros j Hj. rewrite lookup_delete_ne by lia. apply H0. lia.
    + done.
    + lia.
  - rewrite Z.eqb_refl. destruct (Z.leb_spec i n); [|done]. rewrite eq_None_not_Some, Hm by done.
    assert (~ i < k); [|lia]. rewrite <- (Hm i) by lia. rewrite Ex. by intros [? ?].
Qed.

(** A line above a common line. *)
Lemma line_app x lc n :
  line (x ++ lc) n = if n <? Z.of_nat (length lc) then line lc n
                     else hashOf <$> reverse x !! Z.to_nat (n - Z.of_nat (length lc)).
Proof.
  unfold line. rewrite reverse_app. destruct (Z.ltb_spec n 0), (Z.ltb_spec n (Z.of_nat (length lc))); try lia; [done| |].
  - rewrite lookup_app_l by (rewrite length_reverse; lia). done.
  - rewrite lookup_app_r by (rewrite length_reverse; lia). rewrite length_reverse. do 3 f_equal. lia.
Qed.

Lemma line_some l n : 0 <= n -> is_Some (line l n) <-> n < Z.of_nat (length l).
Proof. intros Hn. rewrite line_pos, fmap_is_Some, lookup_lt_is_Some, length_reverse by done. lia. Qed.

(** The index after the three steps of a reorganization and the new head. *)
Lemma index_moved oc nc lc w lw' (canon0 canon1 canon2 : gmap Z Z) :
  lc <> [] -> nc ++ lc = w :: lw' ->
  let L := Z.of_nat (length lc) in
  let hs := reverse (tail nc) in
  (forall n, canon0 !! n = line (oc ++ lc) n) ->
  (forall n, canon1 !! n = if (L <=? n) && (n <? L + Z.of_nat (length hs)) then hashOf <$> hs !! Z.to_nat (n - L)
                           else canon0 !! n) ->
  (forall n, canon2 !! n = if L + Z.of_nat (length hs) <=? n then None else canon1 !! n) ->
  forall n, <[Z.of_nat (length (nc ++ lc)) - 1 := hashOf w]> canon2 !! n = line (nc ++ lc) n.
Proof.
  intros Hlc Hw L hs H0 H1 H2 n.
  assert (HL : 1 <= L) by (destruct lc; [done|]; unfold L; cbn [length]; lia).
  rewrite length_app. destruct nc as [|w0 nc].
  - cbn [app tail reverse] in *. subst hs. cbn [length app] in *. change (reverse (@nil Header)) with (@nil Header) in *.
    cbn [length] in *. subst lc. destruct (Z.eq_dec n (L - 1)) as [->|Hne].
    + replace (Z.of_nat (0 + length (w :: lw')) - 1) with (L - 1) by (unfold L; lia).
      rewrite lookup_insert_eq, line_pos by lia. rewrite reverse_cons, lookup_app_r by (rewrite length_reverse; unfold L; cbn [length]; lia).
      rewrite length_reverse. replace (Z.to_nat (L - 1) - length lw')%nat with 0%nat by (unfold L; cbn [length]; lia). done.
    + rewrite lookup_insert_ne by (unfold L in *; lia). rewrite H2, H1, H0.
      destruct (Z.leb_spec (L + Z.of_nat 0) n).
      * symmetry. rewrite eq_None_not_Some, line_some by lia. unfold L in *. lia.
      * destruct (Z.leb_spec L n); [lia|]. cbn [andb]. rewrite line_app. fold L. destruct (Z.ltb_spec n L); [done|lia].
  - cbn [app] in Hw. injection Hw as -> Hlw'. cbn [tail] in *. unfold hs in *. clear hs.
    rewrite line_app. fold L. rewrite reverse_cons, length_reverse in *. cbn [length] in *.
    destruct (Z.eq_dec n (L + Z.of_nat (length nc))) as [->|Hne].
    + replace (Z.of_nat (S (length nc) + length lc) - 1) with (L + Z.of_nat (length nc)) by (unfold L; lia).
      rewrite lookup_insert_eq. destruct (Z.ltb_spec (L + Z.of_nat (length nc)) L); [lia|].
      rewrite lookup_app_r by (rewrite length_reverse; lia). rewrite length_reverse.
      replace (Z.to_nat (L + Z.of_nat (length nc) - L) - length nc)%nat with 0%nat by lia. done.
    + rewrite lookup_insert_ne by (unfold L in *; lia). rewrite H2, H1, H0.
      destruct (Z.leb_spec (L + Z.of_nat (length nc)) n), (Z.ltb_spec n L); try lia.
      * symmetry. rewrite lookup_ge_None_2; [done|]. rewrite length_app, length_reverse. cbn [length]. lia.
      * destruct (Z.leb_spec L n); [lia|]. cbn [andb]. rewrite line_app. fold L. destruct (Z.ltb_spec n L); [done|lia].
      * destruct (Z.leb_spec L n), (Z.ltb_spec n (L + Z.of_nat (length nc))); try lia. cbn [andb].
        rewrite lookup_app_l by (rewrite length_reverse; lia). done.
Qed.

Lemma lineage_in B h l x : keyed B -> lineage B h l -> x ∈ l -> exists n, sits B x n.
Proof. intros Hk Hl (i & Hi)%list_elem_of_lookup. eexists. by eapply lineage_lookup. Qed.

Lemma sits_bound B x n : keyed B -> sits B x n -> hashOf x <> 0 /\ 0 <= n <= MaxInt64.
Proof.
  intros Hk (b & Hb & <- & Hn). destruct (Hk _ _ _ Hb) as (_ & Hbn & Ub). split; [by apply (U_hash HU)|].
  destruct (U_num HU b Ub) as (m & Hm & Hr). rewrite Hbn in Hm. by injection Hm as <-.
Qed.

Lemma line_nonzero B h l n : keyed B -> lineage B h l -> line l n <> Some 0.
Proof.
  intros Hk Hl E. unfold line in E. destruct (n <? 0); [done|]. apply fmap_Some in E as (x & Hx & Ex).
  apply list_elem_of_lookup_2 in Hx. rewrite elem_of_reverse in Hx.
  destruct (lineage_in _ _ _ _ Hk Hl Hx) as [m Hm]. destruct (sits_bound _ _ _ Hk Hm) as [Hz _]. by rewrite <- Ex in Hz.
Qed.

(** The numbers of the blocks a reorganization applies, and of the last one. *)
Lemma branch_numbers B w nc lc :
  keyed B -> lineage B w (nc ++ lc) ->
  (forall i h, reverse (tail nc) !! i = Some h -> numU64 h = Some (Z.of_nat (length lc) + Z.of_nat i)) /\
  (forall x, nc !! 1%nat = Some x -> numU64 x = Some (Z.of_nat (length lc) + Z.of_nat (length (tail nc)) - 1)).
Proof.
  intros Hk Hw. assert (Hat : forall p x, nc !! p = Some x ->
    numU64 x = Some (Z.of_nat (length nc) + Z.of_nat (length lc) - 1 - Z.of_nat p)).
  { intros p x Hx. assert (Hp : (nc ++ lc) !! p = Some x) by (by apply lookup_app_l_Some).
    destruct (lineage_lookup _ Hk _ _ _ _ Hw Hp) as (_ & _ & _ & ->). rewrite length_app. f_equal. lia. }
  destruct nc as [|w0 nc]; [split; [by intros [|?] ?|done]|]. cbn [tail length] in *. split.
  - intros i h Hi. assert (Hlt : (i < length nc)%nat) by (apply lookup_lt_Some in Hi; by rewrite length_reverse in Hi).
    rewrite reverse_lookup in Hi by done. rewrite (Hat (S (length nc - S i)) h Hi). f_equal. lia.
  - intros x Hx. assert (Hlt : (1 < length (w0 :: nc))%nat) by (by eapply lookup_lt_Some). cbn [length] in Hlt.
    rewrite (Hat 1%nat x Hx). f_equal. lia.
Qed.

Lemma reorg_spec c o w lo lw :
  keyed (blocks c) -> lineage (blocks c) o lo -> lineage (blocks c) w lw -> last lo = last lw ->
  (forall n, canonicalHash c !! n = line lo n) ->
  exists oc nc lc obs nbs c', lo = oc ++ lc /\ lw = nc ++ lc /\ lc <> [] /\
    bodies (blocks c) oc obs /\ bodies (blocks c) (reverse (tail nc)) nbs /\
    reorg keccak o w c = Done c' tt /\ sameStore c c' /\
    (forall n, <[Z.of_nat (length lw) - 1 := hashOf w]> (canonicalHash c') !! n = line lw n) /\
    txLookup c' = dropLookups (HashDifference (concat (Transactions <$> obs)) (concat (Transactions <$> nbs)))
                    (writeAll (Z.of_nat (length lc)) nbs (txLookup c)).
Proof.
  intros Hk Ho Hw Hlast Hcanon.
  destruct (branches_spec c Hk o w lo lw Ho Hw Hlast) as (k & j & cb & Hbr & Hd & Hcb).
  destruct (lineage_cons _ _ _ Hcb) as [lc' Hlc']. set (lc := cb :: lc') in *.
  set (oc := take k lo) in *. set (nc := take j lw) in *.
  assert (Elo : lo = oc ++ lc) by (rewrite <- Hlc'; symmetry; apply take_drop).
  assert (Elw : lw = nc ++ lc) by (rewrite <- Hlc', Hd; symmetry; apply take_drop).
  assert (Hin : forall x, x ∈ oc \/ x ∈ nc -> exists n, sits (blocks c) x n).
  { intros x [Hx|Hx]; eapply lineage_in; [done|exact Ho| |done|exact Hw|]; rewrite ?Elo, ?Elw; set_solver. }
  destruct (bodies_exist (blocks c) oc) as [obs Hobs]; [auto|].
  destruct (bodies_exist (blocks c) (reverse oc)) as [robs Hrobs]; [intros x; rewrite elem_of_reverse; auto|].
  destruct (bodies_exist (blocks c) (reverse (tail nc))) as [nbs Hnbs].
  { intros x. rewrite elem_of_reverse. intros Hx. apply Hin. right. destruct nc; [done|]. by right. }
  rewrite Elw in Hw. destruct (branch_numbers _ _ _ _ Hk Hw) as [Hnums Hlastn].
  exists oc, nc, lc, obs, nbs. unfold reorg. erewrite bind_eq by reflexivity. rewrite Hbr.
  erewrite bind_eq by reflexivity. cbv beta iota.
  destruct (lineage_cons _ _ _ Hw) as [lw' Ew].
  destruct ((length oc =? 0)%nat && (length nc =? 0)%nat) eqn:Eempty.
  { exists c. apply andb_prop in Eempty as [E1%Nat.eqb_eq%nil_length_inv E2%Nat.eqb_eq%nil_length_inv].
    rewrite E1, E2 in *. inversion Hobs; inversion Hnbs; subst obs nbs.
    split_and!; try done. rewrite Elw.
    apply (index_moved [] [] lc w lw' (canonicalHash c) (canonicalHash c) (canonicalHash c)); [done..| | |].
    - intros n. by rewrite Hcanon, Elo.
    - intros n. cbn [tail reverse length]. change (reverse (@nil Header)) with (@nil Header). cbn [length].
      destruct (Z.leb_spec (Z.of_nat (length lc)) n), (Z.ltb_spec n (Z.of_nat (length lc) + Z.of_nat 0)); cbn [andb]; [lia|done..].
    - intros n. cbn [tail]. change (reverse (@nil Header)) with (@nil Header). cbn [length].
      destruct (Z.leb_spec (Z.of_nat (length lc) + Z.of_nat 0) n); [|done].
      rewrite Hcanon, Elo, eq_None_not_Some, line_some; cbn [app]; lia. }
  set (m1 := if (0 <? length oc)%nat && (0 <? length nc)%nat then send (Chain2HeadReorgEvent nc oc) else mret tt).
  assert (H1 : exists c1, m1 c = Done c1 tt /\ sameStore c c1 /\ canonicalHash c1 = canonicalHash c /\ txLookup c1 = txLookup c)
    by (subst m1; case_match; by eexists).
  destruct H1 as (c1 & H1 & Hs1 & Hc1 & Ht1). rewrite (bind_eq _ _ _ _ _ H1).
  destruct (announceOld_spec c (reverse oc) robs c1 Hrobs) as (c2 & H2 & Hs2 & Hc2 & Ht2 & _).
  rewrite (bind_eq _ _ _ _ _ H2). rewrite (bind_eq _ _ _ _ _ (collectDeleted_spec c oc obs c2 Hobs)).
  destruct (applyNew_spec (reverse (tail nc)) nbs (Z.of_nat (length lc)) c2) as (c3 & H3 & Hs3 & Hc3 & Ht3).
  { destruct Hs1 as [Hs1 _], Hs2 as [Hs2 _]. by rewrite Hs2, Hs1. }
  { exact Hnums. }
  rewrite (bind_eq _ _ _ _ _ H3).
  assert (Hnum : numU64 (default cb (nc !! 1%nat)) = Some (Z.of_nat (length lc) + Z.of_nat (length (tail nc)) - 1)).
  { destruct (nc !! 1%nat) as [x|] eqn:Ex; [by apply Hlastn|]. cbn [default]. unfold default, from_option, id.
    rewrite (lineage_number _ Hk _ _ Hcb), Hlc'. f_equal. apply lookup_ge_None in Ex.
    destruct nc as [|? [|? ?]]; cbn [tail length] in *; lia. }
  rewrite Hnum. erewrite bind_eq by reflexivity.
  eexists. split_and!; [done..| | | |].
  - reflexivity.
  - destruct Hs1 as [Hs1 Hs1'], Hs2 as [Hs2 Hs2'], Hs3 as [Hs3 Hs3']. split; cbn; congruence.
  - cbn [canonicalHash setIndex]. rewrite Elw.
    apply (index_moved oc nc lc w lw' (canonicalHash c) (canonicalHash c3)); [done..| | |].
    + intros n. by rewrite Hcanon, Elo.
    + intros n. rewrite Hc3, Hc2, Hc1. done.
    + rewrite length_reverse in *. set (M := Z.of_nat (length lc) + Z.of_nat (length (tail nc))) in *.
      assert (Hlow : forall n, M <= n -> canonicalHash c3 !! n = line lo n).
      { intros n Hn. rewrite Hc3. destruct (Z.ltb_spec n M); [lia|]. rewrite andb_false_r. by rewrite Hc2, Hc1. }
      assert (Hlen : Z.of_nat (length lo) <= MaxInt64 + 1).
      { destruct (sits_bound _ _ _ Hk (lineage_sits _ Hk _ _ Ho)). lia. }
      assert (HM : 0 <= M <= MaxInt64 + 1).
      { destruct (sits_bound _ _ _ Hk (lineage_sits _ Hk _ _ Hw)) as [_ Hb]. rewrite length_app in Hb.
        subst M. destruct nc; cbn [tail length] in *; lia. }
      replace (M - 1 + 1) with M by lia. rewrite u64_small by wsolve.
      apply (deleteMarkers_spec _ M (Z.of_nat (length lo))); [lia| | |done|].
      * intros n Hn. rewrite Hlow by done. apply line_some. lia.
      * intros n Hn. rewrite Hlow by done. by apply (line_nonzero (blocks c) o).
      * enough (Z.of_nat (length lo) - M <= Z.of_nat (size (canonicalHash c3))) by lia.
        apply size_run. intros n Hn. rewrite Hlow by lia. apply line_some; lia.
  - cbn [txLookup setIndex]. by rewrite Ht3, Ht2, Ht1.
Qed.

(** ** The invariant *)

Section invariant.
Variables (g : Block) (gd : Z).

Record healthy (c : Chain) : Prop := mkHealthy {
  h_keyed : keyed (blocks c);
  h_root : blocks c !! (bHash g, 0) = Some g;
  h_lone : forall k b, blocks c !! (k, 0) = Some b -> b = g;
  h_parent : forall k n b, blocks c !! (k, n) = Some b -> 0 < n -> is_Some (blocks c !! (ParentHash (bHeader b), n - 1));
  h_td0 : tds c !! (bHash g, 0) = Some gd;
  h_td : forall k n b, blocks c !! (k, n) = Some b -> 0 < n ->
    exists ptd d, tds c !! (ParentHash (bHeader b), n - 1) = Some ptd /\ Difficulty (bHeader b) = Some d /\
      tds c !! (k, n) = Some (d + ptd);
  h_tds : forall k n, is_Some (tds c !! (k, n)) -> is_Some (blocks c !! (k, n));
  h_line : exists l, lineage (blocks c) (currentBlock c) l /\ forall n, canonicalHash c !! n = line l n;
  h_markers : currentHeader c = currentBlock c /\ currentSnapBlock c = currentBlock c /\
    headBlockHash c = hashOf (currentBlock c) /\ headHeaderHash c = hashOf (currentBlock c) /\
    headFastBlockHash c = hashOf (currentBlock c)
}.

(** No stored block is preferred to the head. *)
Definition headBest (c : Chain) : Prop :=
  forall k n td cn ctd, tds c !! (k, n) = Some td -> numU64 (currentBlock c) = Some cn ->
    tds c !! (hashOf (currentBlock c), cn) = Some ctd -> ~ beats td n k ctd cn (hashOf (currentBlock c)).

Lemma stored_td c k n b : healthy c -> blocks c !! (k, n) = Some b -> exists td, tds c !! (k, n) = Some td.
Proof.
  intros Hc Hb. destruct (h_keyed _ Hc _ _ _ Hb) as (Ek & Hn & Ub). destruct (U_num HU b Ub) as (m & Hm & Hr).
  rewrite Hn in Hm. injection Hm as <-. destruct (Z.eq_dec n 0) as [->|Hne].
  - rewrite (h_lone _ Hc _ _ Hb) in Ek. subst k. exists gd. apply Hc.
  - destruct (h_td _ Hc _ _ _ Hb) as (ptd & d & _ & _ & H); [lia|eauto].
Qed.

Lemma sits_lineage c h n : healthy c -> sits (blocks c) h n -> exists l, lineage (blocks c) h l /\ last l = Some (bHeader g).
Proof.
  intros Hc Hh. destruct (sits_bound _ _ _ (h_keyed _ Hc) Hh) as [_ Hn].
  destruct (lineage_exists _ (h_keyed _ Hc) h n (h_parent _ Hc)) as [l Hl]; [lia|done|].
  exists l. split; [done|]. destruct (lineage_last _ _ _ Hl) as (r & -> & (b & Hb & <- & _)).
  by rewrite (h_lone _ Hc _ _ Hb).
Qed.

Lemma head_sits c : healthy c -> exists cn ctd, numU64 (currentBlock c) = Some cn /\ sits (blocks c) (currentBlock c) cn /\
  tds c !! (hashOf (currentBlock c), cn) = Some ctd.
Proof.
  intros Hc. destruct (h_line _ Hc) as (l & Hl & _). pose proof (lineage_sits _ (h_keyed _ Hc) _ _ Hl) as Hs.
  pose proof Hs as (b & Hb & _ & Hn). destruct (stored_td _ _ _ _ Hc Hb) as [td Htd]. eauto 10.
Qed.

(** Writing a block whose parent is known. *)
Definition withBlock (c : Chain) (b : Block) (n td : Z) : Chain :=
  mkChain (<[(bHash b, n) := b]> (blocks c)) (<[(bHash b, n) := td]> (tds c)) (canonicalHash c) (txLookup c)
    (headHeaderHash c) (headFastBlockHash c) (headBlockHash c) (currentHeader c) (currentSnapBlock c) (currentBlock c) (feed c).

Lemma withBlock_subseteq c b n td : healthy c -> U b -> blocks c ⊆ blocks (withBlock c b n td).
Proof.
  intros Hc Ub. cbn. apply map_subseteq_spec. intros [k m] x Hx. destruct (decide ((bHash b, n) = (k, m))) as [E|E].
  - injection E as <- <-. rewrite lookup_insert_eq. f_equal. destruct (h_keyed _ Hc _ _ _ Hx) as (E & _ & Ux).
    by apply (U_inj HU).
  - by rewrite lookup_insert_ne.
Qed.

(** Storing a block again gives it the same total difficulty. *)
Lemma withBlock_old c b n d ptd :
  healthy c -> U b -> 0 < n -> Difficulty (bHeader b) = Some d -> tds c !! (ParentHash (bHeader b), n - 1) = Some ptd ->
  forall k m td, tds c !! (k, m) = Some td -> tds (withBlock c b n (d + ptd)) !! (k, m) = Some td.
Proof.
  intros Hc Ub Hpos Hd Hp k m td Htd. cbn.
  destruct (decide ((bHash b, n) = (k, m))) as [E|E]; [|by rewrite lookup_insert_ne].
  injection E as <- <-. rewrite lookup_insert_eq. rewrite <- Htd.
  destruct (h_tds _ Hc (bHash b) n) as [x Hx]; [by exists td|].
  destruct (h_keyed _ Hc _ _ _ Hx) as (E & _ & Ux). apply (U_inj HU) in E as <-; [|done..].
  destruct (h_td _ Hc _ _ _ Hx Hpos) as (ptd' & d' & Hp' & Hd' & ->). congruence.
Qed.

Lemma withBlock_healthy c b n d ptd :
  healthy c -> U b -> bNumber b = Some n -> 0 < n -> Difficulty (bHeader b) = Some d ->
  tds c !! (ParentHash (bHeader b), n - 1) = Some ptd -> healthy (withBlock c b n (d + ptd)).
Proof.
  intros Hc Ub Hn Hpos Hd Hp. pose proof (withBlock_subseteq c b n (d + ptd) Hc Ub) as Hsub.
  assert (Hmono : forall k m x, blocks c !! (k, m) = Some x -> blocks (withBlock c b n (d + ptd)) !! (k, m) = Some x).
  { intros k m x Hx. by eapply lookup_weaken. }
  pose proof (withBlock_old c b n d ptd Hc Ub Hpos Hd Hp) as Hold.
  assert (Hnew : forall k m x, blocks (withBlock c b n (d + ptd)) !! (k, m) = Some x ->
            blocks c !! (k, m) = Some x \/ (k = bHash b /\ m = n /\ x = b)).
  { intros k m x. cbn. destruct (decide ((bHash b, n) = (k, m))) as [E|E].
    - injection E as <- <-. rewrite lookup_insert_eq. intros [= <-]. auto.
    - rewrite lookup_insert_ne by done. auto. }
  split.
  - intros k m x [H|(-> & -> & ->)]%Hnew; [by apply Hc|done].
  - apply Hmono, Hc.
  - intros k x [H|(_ & H & _)]%Hnew; [by eapply h_lone|lia].
  - intros k m x [H|(-> & -> & ->)]%Hnew Hm.
    + destruct (h_parent _ Hc _ _ _ H Hm) as [y Hy]. exists y. by apply Hmono.
    + destruct (h_tds _ Hc (ParentHash (bHeader b)) (n - 1)) as [y Hy]; [by exists ptd|]. exists y. by apply Hmono.
  - apply Hold, Hc.
  - intros k m x [H|(-> & -> & ->)]%Hnew Hm.
    + destruct (h_td _ Hc _ _ _ H Hm) as (p & e & H1 & H2 & H3). exists p, e. eauto.
    + exists ptd, d. split; [by apply Hold|]. split; [done|]. cbn. by rewrite lookup_insert_eq.
  - intros k m. cbn. destruct (decide ((bHash b, n) = (k, m))) as [<-|E].
    + rewrite !lookup_insert_eq. eauto.
    + rewrite !lookup_insert_ne by done. apply Hc.
  - destruct (h_line _ Hc) as (l & Hl & Hcan). exists l. split; [|exact Hcan]. by eapply lineage_mono.
  - exact (h_markers _ Hc).
Qed.

(** A chain that differs in its index, its lookups and its head. *)
Lemma healthy_reindex c c' l :
  healthy c -> sameStore c c' -> lineage (blocks c) (currentBlock c') l ->
  (forall n, canonicalHash c' !! n = line l n) ->
  currentHeader c' = currentBlock c' /\ currentSnapBlock c' = currentBlock c' /\
    headBlockHash c' = hashOf (currentBlock c') /\ headHeaderHash c' = hashOf (currentBlock c') /\
    headFastBlockHash c' = hashOf (currentBlock c') ->
  healthy c'.
Proof.
  intros [H1 H2 H3 H4 H5 H6 H7 _ _] [Hb Ht] Hl Hcan Hmk.
  split; rewrite ?Hb, ?Ht; try done. by exists l.
Qed.

Lemma writeHeadBlock_healthy c c1 b n l :
  healthy c -> sameStore c c1 -> bNumber b = Some n -> lineage (blocks c) (bHeader b) l ->
  (forall m, <[n := bHash b]> (canonicalHash c1) !! m = line l m) ->
  exists c', writeHeadBlock keccak b c1 = Done c' tt /\ healthy c' /\ sameStore c c' /\ currentBlock c' = bHeader b.
Proof.
  intros Hc [Hb1 Ht1] Hn Hl Hcan. unfold writeHeadBlock. rewrite Hn. eexists. split; [reflexivity|].
  split; [|split; [split; [exact Hb1|exact Ht1]|reflexivity]].
  eapply healthy_reindex; [exact Hc|split; [exact Hb1|exact Ht1]|exact Hl|exact Hcan|cbn; done].
Qed.

(** A child of the head is on the line of the head. *)
Lemma lineage_extends c b n lo lw :
  healthy c -> blocks c !! (bHash b, n) = Some b -> bNumber b = Some n ->
  lineage (blocks c) (currentBlock c) lo -> lineage (blocks c) (bHeader b) lw ->
  ParentHash (bHeader b) = hashOf (currentBlock c) -> lw = bHeader b :: lo.
Proof.
  intros Hc Hb Hn Ho Hw Ep. pose proof (h_keyed _ Hc) as Hk. destruct (Hk _ _ _ Hb) as (_ & _ & Ub).
  inversion Hw as [h Hh Eh|h pb m l Hh Hm Hp Hl Eh]; subst lw.
  { exfalso. destruct Hh as (_ & _ & _ & Hh). rewrite (U_root HU b Ub Hh) in Ep.
    destruct (head_sits c Hc) as (cn & _ & _ & Hs & _). by destruct (sits_bound _ _ _ Hk Hs). }
  subst h. assert (Epb : bHeader pb = currentBlock c).
  { pose proof (lineage_sits _ Hk _ _ Hl) as S1. pose proof (lineage_sits _ Hk _ _ Ho) as S2.
    eapply sits_eq; [exact Hk|exact S1|exact S2|]. destruct (Hk _ _ _ Hp) as (E & _). rewrite <- Ep. by rewrite E. }
  rewrite Epb in Hl. by rewrite (lineage_det _ _ _ _ Hl Ho).
Qed.

(** Making a stored block the head, by extension or by reorganization. *)
Lemma moveHead_healthy c b n :
  healthy c -> blocks c !! (bHash b, n) = Some b -> bNumber b = Some n ->
  exists c', moveHead keccak b c = Done c' tt /\ healthy c' /\ sameStore c c' /\ currentBlock c' = bHeader b.
Proof.
  intros Hc Hb Hn. pose proof (h_keyed _ Hc) as Hk. destruct (h_line _ Hc) as (lo & Ho & Hcan).
  assert (Hsb : sits (blocks c) (bHeader b) n) by (by exists b).
  destruct (sits_lineage c (bHeader b) n Hc Hsb) as (lw & Hw & Hwl).
  assert (Hol : last lo = Some (bHeader g)).
  { destruct (head_sits c Hc) as (cn & _ & _ & Hs & _). destruct (sits_lineage c _ _ Hc Hs) as (lo' & Ho' & Hl').
    by rewrite (lineage_det _ _ _ _ Ho Ho'). }
  pose proof (lineage_number _ Hk _ _ Hw) as Hwn. unfold bNumber in Hn. rewrite Hn in Hwn. injection Hwn as Hwn.
  unfold moveHead. erewrite bind_eq by reflexivity.
  destruct (Z.eqb_spec (ParentHash (bHeader b)) (hashOf (currentBlock c))) as [Ep|Ep]; cbn [negb].
  - erewrite bind_eq by reflexivity.
    apply (writeHeadBlock_healthy c c b n lw); [done|done|done|done|].
    rewrite (lineage_extends c b n lo lw Hc Hb Hn Ho Hw Ep) in *. intros i.
    assert (En : n = Z.of_nat (length lo)) by (cbn [length] in Hwn; lia). rewrite En. clear Hwn.
    change (bHeader b :: lo) with ([bHeader b] ++ lo). rewrite line_app.
    destruct (Z.eq_dec i (Z.of_nat (length lo))) as [->|Hne].
    + rewrite lookup_insert_eq, Z.ltb_irrefl, Z.sub_diag. done.
    + rewrite lookup_insert_ne, Hcan by lia. destruct (Z.ltb_spec i (Z.of_nat (length lo))); [done|].
      rewrite lookup_ge_None_2 by (rewrite length_reverse; cbn [length]; lia).
      cbn. rewrite eq_None_not_Some, line_some; lia.
  - destruct (reorg_spec c (currentBlock c) (bHeader b) lo lw Hk Ho Hw) as (oc & nc & lc & obs & nbs & c1 & _ & _ & _ & _ & _ & Hr & Hs & Hi & _);
      [by rewrite Hol, Hwl|done|].
    rewrite (bind_eq _ _ _ _ _ Hr). apply (writeHeadBlock_healthy c c1 b n lw); [done|done|done|done|].
    rewrite Hwn. exact Hi.
Qed.

(** ** Importing *)

Lemma send_healthy c e :
  healthy c -> exists c', send e c = Done c' tt /\ healthy c' /\ sameStore c c' /\ currentBlock c' = currentBlock c /\
    txLookup c' = txLookup c.
Proof.
  intros Hc. eexists. split; [reflexivity|]. split; [|done]. destruct (h_line _ Hc) as (l & Hl & Hcan).
  apply (healthy_reindex c _ l Hc); [done..|]. apply Hc.
Qed.

Lemma parent_known c b n ptd :
  healthy c -> U b -> bNumber b = Some n -> GetTd c (ParentHash (bHeader b)) (u64 (n - 1)) = Some ptd ->
  0 < n /\ tds c !! (ParentHash (bHeader b), n - 1) = Some ptd.
Proof.
  intros Hc Ub Hn Hp. destruct (U_num HU b Ub) as (m & Hm & Hr). rewrite Hn in Hm. injection Hm as <-.
  destruct (h_tds _ Hc (ParentHash (bHeader b)) (u64 (n - 1))) as [pb Hpb]; [by exists ptd|].
  destruct (h_keyed _ Hc _ _ _ Hpb) as (_ & Hpn & Up). destruct (U_num HU pb Up) as (m & Hm & Hr').
  rewrite Hpn in Hm. injection Hm as <-. destruct (Z.eq_dec n 0) as [->|Hne].
  - change (u64 (0 - 1)) with MaxUint64 in Hr'. exfalso. wsolve.
  - rewrite u64_small in Hp by wsolve. split; [lia|done].
Qed.

(** What the head write of a block does to the lookups. *)
Definition lookupsAfter (c : Chain) (b : Block) (moved : bool) (c' : Chain) : Prop :=
  if moved then exists c2, moveHead keccak b c = Done c2 tt /\ txLookup c' = txLookup c2
  else txLookup c' = txLookup c.

Lemma emit_healthy c b (r : bool) emit c1 :
  healthy c ->
  (if r then (exists n, blocks c !! (bHash b, n) = Some b /\ bNumber b = Some n) /\
             (if negb (ParentHash (bHeader b) =? hashOf (currentBlock c))
              then reorg keccak (currentBlock c) (bHeader b) else mret tt) c = Done c1 tt
   else c1 = c) ->
  exists c', emitPostWriteEvents keccak b (if r then CanonStatTy else SideStatTy) emit c1 = Done c' tt /\ healthy c' /\
    sameStore c c' /\ currentBlock c' = (if r then bHeader b else currentBlock c) /\ lookupsAfter c b r c'.
Proof.
  intros Hc Hr. unfold emitPostWriteEvents. destruct r.
  - destruct Hr as [(n & Hb & Hn) Hr]. destruct (moveHead_healthy c b n Hc Hb Hn) as (c2 & Hm & Hc2 & Hs2 & E2).
    pose proof Hm as Hm'. unfold moveHead in Hm. erewrite bind_eq in Hm by reflexivity. rewrite (bind_eq _ _ _ _ _ Hr) in Hm.
    rewrite (bind_eq _ _ _ _ _ Hm).
    destruct (send_healthy c2 (ChainEvent (bHeader b)) Hc2) as (c3 & H3 & Hc3 & Hs3 & E3 & T3). rewrite (bind_eq _ _ _ _ _ H3).
    destruct emit.
    + destruct (send_healthy c3 (ChainHeadEvent (bHeader b)) Hc3) as (c4 & H4 & Hc4 & Hs4 & E4 & T4).
      exists c4. split; [done|]. split; [done|]. split; [|split; [congruence|exists c2; split; [done|congruence]]].
      destruct Hs2, Hs3, Hs4. split; congruence.
    + exists c3. split; [done|]. split; [done|]. split; [|split; [congruence|exists c2; split; [done|congruence]]].
      destruct Hs2, Hs3. split; congruence.
  - subst c1.
    destruct (send_healthy c (ChainSideEvent (bHeader b)) Hc) as (c3 & H3 & Hc3 & Hs3 & E3 & T3). rewrite (bind_eq _ _ _ _ _ H3).
    destruct (send_healthy c3 (Chain2HeadForkEvent (bHeader b)) Hc3) as (c4 & H4 & Hc4 & Hs4 & E4 & T4).
    exists c4. split; [done|]. split; [done|]. split; [|split; unfold lookupsAfter; congruence].
    destruct Hs3, Hs4. split; congruence.
Qed.

(** The head after a block with a total difficulty has been stored. *)
Lemma headBest_step c c' b n td cn ctd :
  headBest c -> tds c' = <[(bHash b, n) := td]> (tds c) ->
  numU64 (currentBlock c) = Some cn -> tds c' !! (hashOf (currentBlock c), cn) = Some ctd ->
  tds c !! (hashOf (currentBlock c), cn) = Some ctd -> bNumber b = Some n ->
  (currentBlock c' = currentBlock c /\ ~ beats td n (bHash b) ctd cn (hashOf (currentBlock c)) \/
   currentBlock c' = bHeader b /\ beats td n (bHash b) ctd cn (hashOf (currentBlock c))) ->
  headBest c'.
Proof.
  intros Hbest Etd Hcn Hctd' Hctd Hn Hcase k m t cn' ctd' Hk Hcn' Hc'.
  assert (Hold : ~ beats t m k ctd cn (hashOf (currentBlock c)) \/ (k = bHash b /\ m = n /\ t = td)).
  { rewrite Etd in Hk. destruct (decide ((bHash b, n) = (k, m))) as [E|E].
    - injection E as <- <-. rewrite lookup_insert_eq in Hk. injection Hk as <-. auto.
    - rewrite lookup_insert_ne in Hk by done. left. by eapply Hbest. }
  destruct Hcase as [[Ec Hnb]|[Ec Hb]]; rewrite Ec in *.
  - rewrite Hcn in Hcn'. injection Hcn' as <-. rewrite Hctd' in Hc'. injection Hc' as <-.
    destruct Hold as [H|(-> & -> & ->)]; done.
  - unfold bNumber in Hn. rewrite Hn in Hcn'. injection Hcn' as <-.
    change (hashOf (bHeader b)) with (bHash b) in *. rewrite Etd, lookup_insert_eq in Hc'. injection Hc' as <-.
    intros Hx. destruct Hold as [H|(-> & -> & ->)]; [apply H; by eapply preferred_trans|by apply preferred_irrefl in Hx].
Qed.

(** Resolving the status of a stored block and announcing it, whatever the fork chooser
    prefers. *)
Lemma settle ttd preserve c b n r emit stateless :
  healthy c -> blocks c !! (bHash b, n) = Some b -> bNumber b = Some n ->
  ReorgNeeded keccak (forker ttd preserve c) (currentBlock c) (bHeader b) = Some (inl r) ->
  exists c', (status ← resolvePostWriteStatus keccak ttd preserve b stateless;
              emitPostWriteEvents keccak b status emit;;
              mret status) c = Done c' (if r : bool then CanonStatTy else SideStatTy) /\
    healthy c' /\ sameStore c c' /\ currentBlock c' = (if r then bHeader b else currentBlock c) /\ lookupsAfter c b r c'.
Proof.
  intros Hc Hb Hn Hr. unfold resolvePostWriteStatus.
  rewrite <- bind_assoc. erewrite bind_eq by reflexivity. rewrite Hr. rewrite <- bind_assoc. erewrite bind_eq by reflexivity.
  destruct r.
  - destruct (moveHead_healthy c b n Hc Hb Hn) as (c3 & Hm & _).
    unfold moveHead in Hm. erewrite bind_eq in Hm by reflexivity. apply bind_Done in Hm as (c2 & [] & H2 & _).
    rewrite <- bind_assoc. erewrite (bind_eq _ _ c c2 tt).
    2: { destruct (negb (ParentHash (bHeader b) =? hashOf (currentBlock c))); [|exact H2]. unfold reorgFor. by rewrite H2. }
    erewrite bind_eq by reflexivity.
    destruct (emit_healthy c b true emit c2 Hc) as (c4 & H4 & Hc4 & Hs4 & E4 & T4); [split; [by exists n|done]|].
    rewrite (bind_eq _ _ _ _ _ H4). by exists c4.
  - erewrite bind_eq by reflexivity.
    destruct (emit_healthy c b false emit c Hc) as (c4 & H4 & Hc4 & Hs4 & E4 & T4); [done|].
    rewrite (bind_eq _ _ _ _ _ H4). by exists c4.
Qed.

(** What writing a block does: nothing when its parent is not known, and otherwise it is
    stored. *)
Lemma writeBlock_cases c b commitOk :
  healthy c -> U b ->
  exists n, bNumber b = Some n /\
  (GetTd c (ParentHash (bHeader b)) (u64 (n - 1)) = None /\ writeBlockWithState keccak b commitOk c = Fail c ErrUnknownAncestor \/
   exists ptd d, GetTd c (ParentHash (bHeader b)) (u64 (n - 1)) = Some ptd /\ Difficulty (bHeader b) = Some d /\
     healthy (withBlock c b n (d + ptd)) /\
     writeBlockWithState keccak b commitOk c =
       if commitOk then Done (withBlock c b n (d + ptd)) tt else Fail (withBlock c b n (d + ptd)) errCommitState).
Proof.
  intros Hc Ub. destruct (U_num HU b Ub) as (n & Hn & _). exists n. split; [done|].
  unfold writeBlockWithState. erewrite bind_eq by reflexivity. rewrite Hn. erewrite bind_eq by reflexivity.
  destruct (GetTd c (ParentHash (bHeader b)) (u64 (n - 1))) as [ptd|] eqn:Hp; [right|by left].
  destruct (parent_known _ _ _ _ Hc Ub Hn Hp) as [Hpos Hp']. destruct (U_diff HU b Ub) as [d Hd].
  exists ptd, d. split; [done|]. split; [done|]. split; [by apply withBlock_healthy|]. rewrite Hd. by destruct commitOk.
Qed.

Lemma forker_decides ttd preserve c b n :
  healthy c -> blocks c !! (bHash b, n) = Some b -> bNumber b = Some n ->
  exists r, ReorgNeeded keccak (forker ttd preserve c) (currentBlock c) (bHeader b) = Some (inl r).
Proof.
  intros Hc Hb Hn. destruct (head_sits c Hc) as (cn & ctd & Hcn & _ & Hctd). destruct (stored_td _ _ _ _ Hc Hb) as [td Htd].
  unfold ReorgNeeded. unfold bNumber in Hn. rewrite Hcn, Hn. cbn [mbind option_bind].
  change (ForkChoice.GetTd (forker ttd preserve c)) with (CanonChain.GetTd c). unfold CanonChain.GetTd. rewrite Hctd.
  change (hashOf (bHeader b)) with (bHash b). rewrite Htd. repeat case_match; eauto.
Qed.

Lemma import_any ttd preserve c b commitOk emit stateless :
  healthy c -> U b ->
  match writeBlockAndSetHead keccak ttd preserve b commitOk emit stateless c with
  | Done c' _ | Fail c' _ => healthy c'
  | Panicked _ => False
  end.
Proof.
  intros Hc Ub. unfold writeBlockAndSetHead.
  destruct (writeBlock_cases c b commitOk Hc Ub) as (n & Hn & [[_ Hw]|(ptd & d & _ & _ & Hc1 & Hw)]).
  - unfold mbind at 1, st_bind at 1. by rewrite Hw.
  - destruct commitOk; [|unfold mbind at 1, st_bind at 1; by rewrite Hw].
    rewrite (bind_eq _ _ _ _ _ Hw). assert (Hb : blocks (withBlock c b n (d + ptd)) !! (bHash b, n) = Some b) by apply lookup_insert_eq.
    destruct (forker_decides ttd preserve _ _ _ Hc1 Hb Hn) as [r Hr].
    destruct (settle ttd preserve _ b n r emit stateless Hc1 Hb Hn Hr) as (c' & -> & Hc' & _). exact Hc'.
Qed.

Lemma import_spec c b n ptd emit stateless :
  healthy c -> headBest c -> U b -> bNumber b = Some n ->
  GetTd c (ParentHash (bHeader b)) (u64 (n - 1)) = Some ptd ->
  exists c' status, writeBlockAndSetHead keccak None None b true emit stateless c = Done c' status /\
    healthy c' /\ headBest c' /\ blocks c' = <[(bHash b, n) := b]> (blocks c).
Proof.
  intros Hc Hbest Ub Hn Hp.
  destruct (writeBlock_cases c b true Hc Ub) as (n' & Hn' & [[Hp' _]|(ptd' & d & Hp' & Hd & Hc1 & Hw)]); rewrite Hn in Hn';
    injection Hn' as <-; rewrite Hp in Hp'; [done|]. injection Hp' as <-.
  set (c1 := withBlock c b n (d + ptd)) in *.
  unfold writeBlockAndSetHead. rewrite (bind_eq _ _ _ _ _ Hw).
  assert (Hb : blocks c1 !! (bHash b, n) = Some b) by apply lookup_insert_eq.
  destruct (head_sits c Hc) as (cn & ctd & Hcn & Hsit & Hctd).
  assert (Hctd1 : tds c1 !! (hashOf (currentBlock c), cn) = Some ctd).
  { destruct (parent_known _ _ _ _ Hc Ub Hn Hp) as [Hpos Hp']. by apply withBlock_old. }
  destruct (ReorgNeeded_beats keccak (forker None None c1) (currentBlock c1) (bHeader b) cn n ctd (d + ptd))
    as (r & Hr & Hrb); [done|exact Hcn|exact Hn|exact Hctd1|apply lookup_insert_eq|].
  destruct (settle None None c1 b n r emit stateless Hc1 Hb Hn Hr) as (c3 & -> & Hc3 & [Hs3 Ht3] & E3 & _).
  eexists _, _. split; [done|]. split; [done|]. split; [|by rewrite Hs3].
  apply (headBest_step c c3 b n (d + ptd) cn ctd Hbest); [by rewrite Ht3|done|by rewrite Ht3|done|done|].
  destruct r; [right|left]; (split; [done|]).
  - by apply Hrb.
  - intros Hx. by apply Hrb in Hx.
Qed.

(** ** From genesis *)

Lemma genesis_healthy : U g -> bNumber g = Some 0 -> healthy (genesisChain keccak g gd) /\ headBest (genesisChain keccak g gd).
Proof.
  intros Ug Hg. assert (Hl : forall k n x, ({[(bHash g, 0) := g]} : store) !! (k, n) = Some x -> k = bHash g /\ n = 0 /\ x = g).
  { intros k n x [E <-]%lookup_singleton_Some. by injection E as <- <-. }
  assert (Ht : forall k n x, ({[(bHash g, 0) := gd]} : gmap (Z * Z) Z) !! (k, n) = Some x -> k = bHash g /\ n = 0 /\ x = gd).
  { intros k n x [E <-]%lookup_singleton_Some. by injection E as <- <-. }
  split.
  - split; cbn [genesisChain blocks tds canonicalHash currentBlock].
    + intros k n x (-> & -> & ->)%Hl. done.
    + apply lookup_singleton_eq.
    + intros k x (_ & _ & ->)%Hl. done.
    + intros k n x (_ & -> & _)%Hl. lia.
    + apply lookup_singleton_eq.
    + intros k n x (_ & -> & _)%Hl. lia.
    + intros k n [x (-> & -> & ->)%Ht]. exists g. apply lookup_singleton_eq.
    + exists [bHeader g]. split; [apply lin_root; exists g; split; [apply lookup_singleton_eq|done]|].
      intros n. destruct (Z.eq_dec n 0) as [->|Hne]; [apply lookup_singleton_eq|]. rewrite lookup_singleton_ne by done.
      symmetry. rewrite eq_None_not_Some. destruct (Z.lt_ge_cases n 0); [rewrite line_neg by done; by intros [? ?]|].
      rewrite line_some; cbn [length]; lia.
    + done.
  - intros k n td cn ctd (-> & -> & ->)%Ht Hcn Hc. cbn in Hcn, Hc. unfold bNumber in Hg. rewrite Hg in Hcn. injection Hcn as <-.
    change (hashOf (bHeader g)) with (bHash g) in *. apply Ht in Hc as (_ & _ & ->). apply preferred_irrefl.
Qed.

(** The blocks imported one after the other, each accepted by the consensus engine and
    with its state committed. *)
Fixpoint importAll (bs : list Block) : st Chain chainError unit :=
  match bs with
  | [] => mret tt
  | b :: bs' => writeBlockAndSetHead keccak None None b true true false;; importAll bs'
  end.

(** Every block comes after its parent. *)
Fixpoint parentsFirst (seen : Block -> Prop) (bs : list Block) : Prop :=
  match bs with
  | [] => True
  | b :: bs' =>
      (exists p n, seen p /\ bHash p = ParentHash (bHeader b) /\ bNumber p = Some n /\ bNumber b = Some (n + 1)) /\
      parentsFirst (fun x => seen x \/ x = b) bs'
  end.

Definition holds (c : Chain) (b : Block) : Prop := exists n, bNumber b = Some n /\ blocks c !! (bHash b, n) = Some b.

Lemma importAll_spec bs seen c :
  healthy c -> headBest c -> (forall b, b ∈ bs -> U b) -> (forall b, holds c b <-> seen b) -> parentsFirst seen bs ->
  exists c', importAll bs c = Done c' tt /\ healthy c' /\ headBest c' /\ (forall b, holds c' b <-> seen b \/ b ∈ bs).
Proof.
  revert seen c. induction bs as [|b bs IH]; intros seen c Hc Hbest HUb Hseen Hpf.
  { exists c. split; [done|]. split; [done|]. split; [done|]. intros b. rewrite Hseen. set_solver. }
  destruct Hpf as [(p & n & Hp & Ep & Hpn & Hbn) Hpf]. assert (Ub : U b) by (apply HUb; by left).
  apply Hseen in Hp as (n' & Hpn' & Hpb). rewrite Hpn in Hpn'. injection Hpn' as <-.
  destruct (stored_td _ _ _ _ Hc Hpb) as [ptd Hptd].
  assert (Hn : 0 <= n + 1 <= MaxInt64) by (destruct (U_num HU b Ub) as (m & Hm & Hr); rewrite Hbn in Hm; by injection Hm as <-).
  assert (Hn0 : 0 <= n).
  { destruct (h_keyed _ Hc _ _ _ Hpb) as (_ & _ & Up). destruct (U_num HU p Up) as (m & Hm & Hr). rewrite Hpn in Hm.
    injection Hm as <-. lia. }
  destruct (import_spec c b (n + 1) ptd true false Hc Hbest Ub Hbn) as (c1 & st & H1 & Hc1 & Hb1 & Es).
  { rewrite Z.add_simpl_r, u64_small by wsolve. unfold GetTd. by rewrite <- Ep. }
  destruct (IH (fun x => seen x \/ x = b) c1 Hc1 Hb1) as (c' & H' & Hc' & Hb' & Hh').
  { intros x Hx. apply HUb. by right. }
  { intros x. rewrite <- Hseen. unfold holds. rewrite Es. split.
    - intros (m & Hm & Hx). destruct (decide ((bHash b, n + 1) = (bHash x, m))) as [E|E].
      + right. rewrite <- E, lookup_insert_eq in Hx. by injection Hx.
      + left. rewrite lookup_insert_ne in Hx by done. eauto.
    - intros [(m & Hm & Hx)| ->]; [|exists (n + 1); split; [done|apply lookup_insert_eq]].
      exists m. split; [done|]. destruct (decide ((bHash b, n + 1) = (bHash x, m))) as [E|E]; [|by rewrite lookup_insert_ne].
      injection E as E <-. destruct (h_keyed _ Hc _ _ _ Hx) as (_ & _ & Ux). apply (U_inj HU) in E as <-; [|done..].
      apply lookup_insert_eq. }
  { exact Hpf. }
  exists c'. cbn [importAll]. rewrite (bind_eq _ _ _ _ _ H1). split; [done|]. split; [done|]. split; [done|].
  intros x. rewrite Hh'. set_solver.
Qed.

(** ** Agreement *)

Lemma same_blocks c1 c2 : healthy c1 -> healthy c2 -> (forall b, holds c1 b <-> holds c2 b) -> blocks c1 = blocks c2.
Proof.
  assert (Hle : forall c c', healthy c -> healthy c' -> (forall b, holds c b <-> holds c' b) ->
    forall k n b, blocks c !! (k, n) = Some b -> blocks c' !! (k, n) = Some b).
  { intros c c' Hc Hc' Hh k n b Hb. destruct (h_keyed _ Hc _ _ _ Hb) as (-> & Hn & _).
    assert (holds c b) as (m & Hm & Hx)%Hh by (by exists n). rewrite Hn in Hm. by injection Hm as <-. }
  intros H1 H2 Hh. apply map_eq. intros [k n]. apply option_eq. intros b. split; by apply Hle.
Qed.

Lemma same_tds c1 c2 : healthy c1 -> healthy c2 -> blocks c1 = blocks c2 -> tds c1 = tds c2.
Proof.
  intros H1 H2 Eb. assert (Hs : forall n, 0 <= n -> forall k, is_Some (blocks c1 !! (k, n)) -> tds c1 !! (k, n) = tds c2 !! (k, n)).
  { apply (natlike_ind (fun n => forall k, is_Some (blocks c1 !! (k, n)) -> tds c1 !! (k, n) = tds c2 !! (k, n))).
    - intros k [b Hb]. pose proof (h_lone _ H1 _ _ Hb) as ->. destruct (h_keyed _ H1 _ _ _ Hb) as (-> & _ & _).
      by rewrite (h_td0 _ H1), (h_td0 _ H2).
    - intros n Hn IH k [b Hb]. pose proof Hb as Hb'. rewrite Eb in Hb'.
      destruct (h_td _ H1 _ _ _ Hb) as (p1 & d1 & Hp1 & Hd1 & ->); [lia|].
      destruct (h_td _ H2 _ _ _ Hb') as (p2 & d2 & Hp2 & Hd2 & ->); [lia|].
      replace (Z.succ n - 1) with n in * by lia. rewrite IH, Hp2 in Hp1; [congruence|]. apply (h_tds _ H1). by exists p1. }
  apply map_eq. intros [k n]. destruct (blocks c1 !! (k, n)) as [b|] eqn:Hb.
  - destruct (h_keyed _ H1 _ _ _ Hb) as (_ & Hn & Ub). destruct (U_num HU b Ub) as (m & Hm & Hr). rewrite Hn in Hm.
    injection Hm as <-. apply Hs; [lia|by exists b].
  - assert (Hno : forall c, healthy c -> blocks c = blocks c1 -> tds c !! (k, n) = None).
    { intros c Hc E. apply eq_None_not_Some. intros Ht. apply (h_tds _ Hc) in Ht as [x Hx]. rewrite E, Hb in Hx. done. }
    by rewrite !Hno.
Qed.

Lemma same_head c1 c2 :
  healthy c1 -> healthy c2 -> headBest c1 -> headBest c2 -> (forall b, holds c1 b <-> holds c2 b) ->
  currentBlock c1 = currentBlock c2 /\ canonicalHash c1 = canonicalHash c2.
Proof.
  intros H1 H2 B1 B2 Hh. pose proof (same_blocks _ _ H1 H2 Hh) as Eb. pose proof (same_tds _ _ H1 H2 Eb) as Et.
  destruct (head_sits _ H1) as (n1 & t1 & Hn1 & S1 & T1). destruct (head_sits _ H2) as (n2 & t2 & Hn2 & S2 & T2).
  assert (Ec : currentBlock c1 = currentBlock c2).
  { destruct (preferred_total t1 n1 (hashOf (currentBlock c1)) t2 n2 (hashOf (currentBlock c2))) as [H|[(_ & _ & H)|H]].
    - exfalso. revert H. eapply B2; [|done..]. by rewrite <- Et.
    - eapply sits_eq; [exact (h_keyed _ H1)|exact S1|rewrite Eb; exact S2|done].
    - exfalso. revert H. eapply B1; [|done..]. by rewrite Et. }
  split; [done|]. destruct (h_line _ H1) as (l1 & L1 & I1). destruct (h_line _ H2) as (l2 & L2 & I2).
  apply map_eq. intros n. rewrite I1, I2. f_equal. rewrite Ec, Eb in L1. by eapply lineage_det.
Qed.

(** ** Every sequence of operations *)

Inductive chainOp :=
| OpImport (ttd : option Z) (preserve : option (Header -> bool)) (b : Block) (commitOk emit stateless : bool)
| OpSetCanonical (b : Block)
| OpWriteKnown (b : Block).

Definition runOp (o : chainOp) : st Chain chainError unit :=
  match o with
  | OpImport ttd preserve b commitOk emit stateless =>
      writeBlockAndSetHead keccak ttd preserve b commitOk emit stateless;; mret tt
  | OpSetCanonical b => SetCanonical keccak b;; mret tt
  | OpWriteKnown b => writeKnownBlock keccak b
  end.

(** Imported blocks belong to the universe; a block made canonical is stored. *)
Definition allowed (c : Chain) (o : chainOp) : Prop :=
  match o with
  | OpImport _ _ b _ _ _ => U b
  | OpSetCanonical b | OpWriteKnown b => holds c b
  end.

(** A failed operation leaves its state behind. *)
Inductive reached : Chain -> Prop :=
| reached_start : reached (genesisChain keccak g gd)
| reached_done c o c' : reached c -> allowed c o -> runOp o c = Done c' tt -> reached c'
| reached_fail c o c' e : reached c -> allowed c o -> runOp o c = Fail c' e -> reached c'.

Lemma runOp_healthy c o :
  healthy c -> allowed c o -> match runOp o c with Done c' _ | Fail c' _ => healthy c' | Panicked _ => False end.
Proof.
  intros Hc Ha. destruct o as [ttd preserve b ok emit sl|b|b]; cbn [runOp].
  - pose proof (import_any ttd preserve c b ok emit sl Hc Ha) as H. unfold mbind at 1, st_bind at 1.
    by destruct (writeBlockAndSetHead keccak ttd preserve b ok emit sl c).
  - destruct Ha as (n & Hn & Hb). destruct (moveHead_healthy c b n Hc Hb Hn) as (c1 & H1 & Hc1 & _).
    unfold SetCanonical. rewrite <- bind_assoc, (bind_eq _ _ _ _ _ H1).
    destruct (send_healthy c1 (ChainEvent (bHeader b)) Hc1) as (c2 & H2 & Hc2 & _).
    rewrite <- bind_assoc, (bind_eq _ _ _ _ _ H2).
    destruct (send_healthy c2 (ChainHeadEvent (bHeader b)) Hc2) as (c3 & H3 & Hc3 & _).
    rewrite <- bind_assoc, (bind_eq _ _ _ _ _ H3). exact Hc3.
  - destruct Ha as (n & Hn & Hb). destruct (moveHead_healthy c b n Hc Hb Hn) as (c1 & H1 & Hc1 & _).
    unfold writeKnownBlock. by rewrite H1.
Qed.

Lemma reached_healthy c : U g -> bNumber g = Some 0 -> reached c -> healthy c.
Proof.
  intros Ug Hg. induction 1 as [|c o c' _ IH Ha Hr|c o c' e _ IH Ha Hr]; [by apply genesis_healthy| |];
    pose proof (runOp_healthy c o IH Ha) as H; by rewrite Hr in H.
Qed.

End invariant.

End canonical.

(** ** Properties *)

(** C8: whatever blocks are imported, made canonical or refused, in whatever order and
    whatever the fork chooser prefers, the canonical index is the line of stored blocks from
    genesis to the head and has no entry above it, all head markers name the head, and the
    next operation does not panic. *)
Theorem canonical_index keccak U g gd c o :
  universe keccak U -> U g -> bNumber g = Some 0 -> reached keccak U g gd c ->
  (exists l, lineage keccak (blocks c) (currentBlock c) l /\ (forall n, canonicalHash c !! n = line keccak l n) /\
     last l = Some (bHeader g)) /\
  headBlockHash c = Seal.Hash keccak (currentBlock c) /\ currentHeader c = currentBlock c /\
  (allowed keccak U c o -> forall w, runOp keccak o c <> Panicked w).
Proof.
  intros HU Ug Hg Hr. pose proof (reached_healthy keccak U HU g gd c Ug Hg Hr) as Hc. split; [|split; [apply Hc|split; [apply Hc|]]].
  - destruct (head_sits keccak U HU g gd c Hc) as (n & _ & _ & Hs & _).
    destruct (sits_lineage keccak U HU g gd c _ n Hc Hs) as (l & Hl & Hlast). exists l. split; [done|]. split; [|done].
    destruct (h_line _ _ _ _ _ Hc) as (l' & Hl' & Hi). by rewrite (lineage_det _ _ _ _ _ Hl Hl').
  - intros Ha w E. pose proof (runOp_healthy keccak U HU g gd c o Hc Ha) as H. by rewrite E in H.
Qed.

(** C7: two nodes that import the same blocks, each in an order in which every block comes
    after its parent, without local preferences accept all of them and end with the same
    head and the same canonical hash at every number. *)
Theorem import_order_irrelevant keccak U g gd l1 l2 :
  universe keccak U -> U g -> bNumber g = Some 0 -> (forall b, b ∈ l1 -> U b) -> (forall b, b ∈ l1 <-> b ∈ l2) ->
  parentsFirst keccak (eq g) l1 -> parentsFirst keccak (eq g) l2 ->
  exists c1 c2, importAll keccak l1 (genesisChain keccak g gd) = Done c1 tt /\
    importAll keccak l2 (genesisChain keccak g gd) = Done c2 tt /\
    currentBlock c1 = currentBlock c2 /\ canonicalHash c1 = canonicalHash c2.
Proof.
  intros HU Ug Hg HUl Hsame P1 P2. destruct (genesis_healthy keccak U g gd Ug Hg) as [Hc0 Hb0].
  assert (Hh0 : forall b, holds keccak (genesisChain keccak g gd) b <-> g = b).
  { intros b. split.
    - intros (n & _ & H). cbn in H. apply lookup_singleton_Some in H as [_ H]. done.
    - intros <-. exists 0. split; [done|apply lookup_singleton_eq]. }
  destruct (importAll_spec keccak U HU g gd l1 (eq g) _ Hc0 Hb0 HUl Hh0 P1) as (c1 & E1 & Hc1 & Hb1 & Hh1).
  destruct (importAll_spec keccak U HU g gd l2 (eq g) _ Hc0 Hb0) as (c2 & E2 & Hc2 & Hb2 & Hh2);
    [intros b Hb; by apply HUl, Hsame|done|done|].
  exists c1, c2. split; [done|]. split; [done|]. apply (same_head keccak U HU g gd); try done.
  intros b. rewrite Hh1, Hh2. by rewrite Hsame.
Qed.

(** ** Examples *)

(** A block and two that extend it. *)
Definition demoG : Block := mkBlock EngineDemo.demoGenesis [].
Definition demoB1 : Block := mkBlock EngineDemo.demoBlock1 [11].
Definition demoB2 : Block := mkBlock EngineDemo.demoBlock2 [12].
Definition demoS2 : Block :=
  mkBlock (EngineDemo.demoBlock (Seal.Hash EngineDemo.demoKeccak EngineDemo.demoBlock1) 2 1006) [13].

Definition demoUniverse (b : Block) : Prop := b ∈ [demoG; demoB1; demoB2; demoS2].

(** Finitely many blocks with different hashes are a universe. *)
Lemma universe_of_list keccak (l : list Block) :
  NoDup (CanonChain.bHash keccak <$> l) ->
  Forall (fun a => CanonChain.bHash keccak a <> 0 /\ (exists n, bNumber a = Some n /\ 0 <= n <= MaxInt64) /\
                   (exists d, Difficulty (bHeader a) = Some d) /\ (bNumber a = Some 0 -> ParentHash (bHeader a) = 0)) l ->
  universe keccak (fun b => b ∈ l).
Proof.
  intros Hnd Hall. rewrite Forall_forall in Hall. split; try (intros a Ha; by apply (Hall a Ha)).
  intros a b (i & Hi)%list_elem_of_lookup (j & Hj)%list_elem_of_lookup E.
  assert (i = j) as ->; [|congruence].
  apply (NoDup_lookup _ i j (CanonChain.bHash keccak a) Hnd); rewrite list_lookup_fmap; [by rewrite Hi|].
  rewrite Hj. cbn. by rewrite E.
Qed.

Lemma demo_universe : universe EngineDemo.demoKeccak demoUniverse.
Proof.
  apply universe_of_list.
  - apply (bool_decide_unpack _). vm_compute. reflexivity.
  - assert (Hone : forall a n d p, (Seal.Hash EngineDemo.demoKeccak (bHeader a) =? 0) = false -> numU64 (bHeader a) = Some n ->
      0 <= n <= MaxInt64 -> Difficulty (bHeader a) = Some d -> ParentHash (bHeader a) = p -> (n = 0 -> p = 0) ->
      CanonChain.bHash EngineDemo.demoKeccak a <> 0 /\ (exists n, bNumber a = Some n /\ 0 <= n <= MaxInt64) /\
      (exists d, Difficulty (bHeader a) = Some d) /\ (bNumber a = Some 0 -> ParentHash (bHeader a) = 0)).
    { intros a n d p H1 H2 H3 H4 H5 H6. apply Z.eqb_neq in H1. split; [exact H1|]. split; [by exists n|].
      split; [by exists d|]. intros H. rewrite H5. apply H6. unfold bNumber in H. congruence. }
    apply Forall_cons; split; [apply (Hone _ 0 1 0); [vm_compute; reflexivity|reflexivity|wsolve|reflexivity|reflexivity|lia]|].
    apply Forall_cons; split; [eapply (Hone _ 1 1); [vm_compute; reflexivity|reflexivity|wsolve|reflexivity|reflexivity|lia]|].
    apply Forall_cons; split; [eapply (Hone _ 2 1); [vm_compute; reflexivity|reflexivity|wsolve|reflexivity|reflexivity|lia]|].
    apply Forall_cons; split; [eapply (Hone _ 2 1); [vm_compute; reflexivity|reflexivity|wsolve|reflexivity|reflexivity|lia]|].
    apply Forall_nil. done.
Qed.

Abbreviation demoImport b := (writeBlockAndSetHead EngineDemo.demoKeccak None None b true true false).

Definition demoStart : Chain := genesisChain EngineDemo.demoKeccak demoG 1.

Definition demoEnd : Chain :=
  match importAll EngineDemo.demoKeccak [demoB1; demoB2; demoS2] demoStart with Done c _ => c | _ => demoStart end.

Lemma demo_reached : reached EngineDemo.demoKeccak demoUniverse demoG 1 demoEnd.
Proof.
  pose (s1 := match demoImport demoB1 demoStart with Done c _ => c | _ => demoStart end).
  pose (s2 := match demoImport demoB2 s1 with Done c _ => c | _ => s1 end).
  apply (reached_done _ _ _ _ s2 (OpImport None None demoS2 true true false)); [|right; right; right; left|vm_compute; reflexivity].
  apply (reached_done _ _ _ _ s1 (OpImport None None demoB2 true true false)); [|right; right; left|vm_compute; reflexivity].
  apply (reached_done _ _ _ _ demoStart (OpImport None None demoB1 true true false)); [apply reached_start|right; left|vm_compute; reflexivity].
Qed.

(** The index of the chain that has seen both siblings. *)
Lemma canonical_index_witness :
  (exists l, lineage EngineDemo.demoKeccak (blocks demoEnd) (currentBlock demoEnd) l /\
     (forall n, canonicalHash demoEnd !! n = line EngineDemo.demoKeccak l n) /\ last l = Some (bHeader demoG)) /\
  canonicalHash demoEnd !! 3 = None.
Proof.
  split; [|vm_compute; reflexivity].
  apply (canonical_index EngineDemo.demoKeccak demoUniverse demoG 1 demoEnd (OpWriteKnown demoB1)).
  - exact demo_universe.
  - left.
  - reflexivity.
  - exact demo_reached.
Defined.

Lemma demo_parents :
  CanonChain.bHash EngineDemo.demoKeccak demoG = ParentHash (bHeader demoB1) /\
  CanonChain.bHash EngineDemo.demoKeccak demoB1 = ParentHash (bHeader demoB2) /\
  CanonChain.bHash EngineDemo.demoKeccak demoB1 = ParentHash (bHeader demoS2).
Proof. vm_compute. done. Qed.

Lemma demo_order b b' :
  (b = demoB2 /\ b' = demoS2 \/ b = demoS2 /\ b' = demoB2) ->
  parentsFirst EngineDemo.demoKeccak (eq demoG) [demoB1; b; b'].
Proof.
  destruct demo_parents as (P1 & P2 & P3). intros H.
  split; [exists demoG, 0; split; [reflexivity|]; split; [exact P1|split; reflexivity]|].
  split; [|split; [|exact I]]; exists demoB1, 1; (split; [auto|]); destruct H as [[-> ->]|[-> ->]];
    (split; [assumption|split; reflexivity]).
Qed.

(** The siblings in either order. *)
Lemma import_order_irrelevant_witness :
  exists c1 c2, importAll EngineDemo.demoKeccak [demoB1; demoB2; demoS2] demoStart = Done c1 tt /\
    importAll EngineDemo.demoKeccak [demoB1; demoS2; demoB2] demoStart = Done c2 tt /\
    currentBlock c1 = currentBlock c2 /\ canonicalHash c1 = canonicalHash c2.
Proof.
  apply (import_order_irrelevant EngineDemo.demoKeccak demoUniverse demoG 1).
  - exact demo_universe.
  - left.
  - reflexivity.
  - intros b Hb. right. exact Hb.
  - intros b. rewrite !elem_of_cons. tauto.
  - apply demo_order. left. split; reflexivity.
  - apply demo_order. right. split; reflexivity.
Defined.

End CanonChainProps.
