(* ===== verification/CanonLookup.v ===== *)
(** * Transaction lookups of the canonical chain

    Where no transaction is repeated along a line of blocks, the lookup of a transaction
    is the number of the canonical block that has it, through every reorganization. *)

From S2P Require Import Prelude Bytes Header Seal EngineDemo Whitelist ForkChoice CanonChain CanonChainProps.

Module CanonLookup.
Import Header Whitelist ForkChoice CanonChain CanonChainProps.

(** ** Writing and dropping lookups *)

Lemma WriteTx_lookup n txs (l : gmap Z Z) tx :
  WriteTxLookupEntriesByBlock n txs l !! tx = if bool_decide (tx ∈ txs) then Some n else l !! tx.
Proof.
  unfold WriteTxLookupEntriesByBlock. revert l. induction txs as [|t txs IH]; intros l; cbn [fold_left].
  { by rewrite bool_decide_false by apply not_elem_of_nil. }
  rewrite IH. destruct (bool_decide_reflect (tx ∈ txs)) as [H|H].
  - rewrite bool_decide_true by set_solver. done.
  - destruct (decide (tx = t)) as [->|Hne].
    + rewrite bool_decide_true by set_solver. apply lookup_insert_eq.
    + rewrite bool_decide_false by set_solver. by apply lookup_insert_ne.
Qed.

Lemma dropLookups_lookup txs (l : gmap Z Z) tx : dropLookups txs l !! tx = if bool_decide (tx ∈ txs) then None else l !! tx.
Proof.
  unfold dropLookups. revert l. induction txs as [|t txs IH]; intros l; cbn [fold_left].
  { by rewrite bool_decide_false by apply not_elem_of_nil. }
  rewrite IH. destruct (bool_decide_reflect (tx ∈ txs)) as [H|H].
  - rewrite bool_decide_true by set_solver. done.
  - destruct (decide (tx = t)) as [->|Hne].
    + rewrite bool_decide_true by set_solver. apply lookup_delete_eq.
    + rewrite bool_decide_false by set_solver. by apply lookup_delete_ne.
Qed.

Lemma elem_HashDifference tx a b : tx ∈ HashDifference a b <-> tx ∈ a /\ tx ∉ b.
Proof.
  unfold HashDifference. rewrite !list_elem_of_In, List.filter_In, <- !list_elem_of_In.
  rewrite negb_true_iff, bool_decide_eq_false. done.
Qed.

(** What is written for consecutive blocks. *)
Lemma writeAll_none bs m (l : gmap Z Z) tx : (forall b, b ∈ bs -> tx ∉ Transactions b) -> writeAll m bs l !! tx = l !! tx.
Proof.
  revert m l. induction bs as [|b bs IH]; intros m l H; cbn [writeAll]; [done|].
  rewrite IH by (intros x Hx; apply H; by right). rewrite WriteTx_lookup, bool_decide_false; [done|]. apply H. by left.
Qed.

Lemma writeAll_some bs m (l : gmap Z Z) tx i b :
  bs !! i = Some b -> tx ∈ Transactions b -> (forall j x, bs !! j = Some x -> tx ∈ Transactions x -> j = i) ->
  writeAll m bs l !! tx = Some (m + Z.of_nat i).
Proof.
  revert m l i. induction bs as [|b0 bs IH]; intros m l i Hi Htx Hu; [done|]. cbn [writeAll].
  destruct i as [|i].
  - injection Hi as ->. rewrite writeAll_none.
    + rewrite WriteTx_lookup, bool_decide_true by done. f_equal. lia.
    + intros x (j & Hj)%list_elem_of_lookup Hx. by specialize (Hu (S j) x Hj Hx).
  - rewrite (IH (m + 1) _ i Hi Htx).
    + f_equal. lia.
    + intros j x Hj Hx. specialize (Hu (S j) x Hj Hx). lia.
Qed.

Section lookups.
Variable keccak : list Z -> Z.
Variable U : Block -> Prop.
Hypothesis HU : universe keccak U.

Abbreviation hashOf := (Seal.Hash keccak).
Abbreviation bHash := (CanonChain.bHash keccak).
Abbreviation store := (gmap (Z * Z) Block).

(** A transaction of the block with a number on a line. *)
Definition inLine (B : store) (l : list Header) (tx n : Z) : Prop :=
  exists h b, h ∈ l /\ numU64 h = Some n /\ B !! (hashOf h, n) = Some b /\ tx ∈ Transactions b.

(** No transaction is in two blocks of a line. *)
Definition noReplay : Prop :=
  forall B h l tx n n', keyed keccak U B -> lineage keccak B h l -> inLine B l tx n -> inLine B l tx n' -> n = n'.
Hypothesis Hnr : noReplay.

Lemma inLine_app B l1 l2 tx n : inLine B (l1 ++ l2) tx n <-> inLine B l1 tx n \/ inLine B l2 tx n.
Proof. unfold inLine. set_solver. Qed.

Lemma bodies_inLine B hs bs tx :
  bodies keccak B hs bs -> tx ∈ concat (Transactions <$> bs) <-> exists n, inLine B hs tx n.
Proof.
  induction 1 as [|h b hs bs (m & Hm & Hb & _) _ IH]; cbn.
  - split; [by intros ?%not_elem_of_nil|]. intros (n & h & b & Hh & _). by apply not_elem_of_nil in Hh.
  - rewrite elem_of_app, IH. split.
    + intros [Hx|(n & h' & b' & Hh & H)]; [exists m, h, b; set_solver|exists n, h', b'; set_solver].
    + intros (n & h' & b' & [->|Hh]%elem_of_cons & Hn & Hb' & Hx); [left|right; exists n, h', b'; auto].
      congruence.
Qed.

(** The two parts of a line. *)
Lemma inLine_parts B o oc lc tx n :
  keyed keccak U B -> lineage keccak B o (oc ++ lc) ->
  (inLine B oc tx n -> Z.of_nat (length lc) <= n) /\ (inLine B lc tx n -> n < Z.of_nat (length lc)).
Proof.
  intros Hk Ho. split; intros (h & b & (i & Hi)%list_elem_of_lookup & Hn & _).
  - pose proof (lookup_lt_Some _ _ _ Hi). assert (Hp : (oc ++ lc) !! i = Some h) by (by apply lookup_app_l_Some).
    destruct (lineage_lookup _ _ _ Hk _ _ _ _ Ho Hp) as (_ & _ & _ & E). rewrite Hn in E. injection E as ->. rewrite length_app. lia.
  - pose proof (lookup_lt_Some _ _ _ Hi).
    assert (Hp : (oc ++ lc) !! (length oc + i)%nat = Some h).
    { rewrite lookup_app_r by lia. by replace (length oc + i - length oc)%nat with i by lia. }
    destruct (lineage_lookup _ _ _ Hk _ _ _ _ Ho Hp) as (_ & _ & _ & E). rewrite Hn in E. injection E as ->. rewrite length_app. lia.
Qed.

(** A transaction of the added blocks gets the number of its block. *)
Lemma writeAll_line B hs bs m look tx n :
  bodies keccak B hs bs -> (forall i h, hs !! i = Some h -> numU64 h = Some (m + Z.of_nat i)) ->
  (forall n', inLine B hs tx n' -> n' = n) -> inLine B hs tx n -> writeAll m bs look !! tx = Some n.
Proof.
  intros Hbs Hnum Hu (h & b & (i & Hi)%list_elem_of_lookup & Hn & Hb & Htx).
  assert (Hat : forall j x, bs !! j = Some x -> tx ∈ Transactions x -> inLine B hs tx (m + Z.of_nat j)).
  { intros j x Hj Hx. destruct (Forall2_lookup_r _ _ _ _ _ Hbs Hj) as (h' & Hh' & k & Hk & Hkb & _).
    rewrite (Hnum _ _ Hh') in Hk. injection Hk as <-. exists h', x. split; [by eapply list_elem_of_lookup_2|]. auto. }
  destruct (Forall2_lookup_l _ _ _ _ _ Hbs Hi) as (x & Hx & k & Hk & Hkb & _). rewrite Hn in Hk. injection Hk as <-.
  rewrite Hb in Hkb. injection Hkb as <-. rewrite (Hnum _ _ Hi) in Hn. injection Hn as <-.
  apply (writeAll_some bs m look tx i b); [done..|]. intros j y Hj Hy. specialize (Hu _ (Hat j y Hj Hy)). lia.
Qed.

(** The lookups after the dropped branch, the added one and the new head. *)
Lemma lookups_moved B w oc nc lc obs nbs b wn (look : gmap Z Z) :
  keyed keccak U B -> (exists o, lineage keccak B o (oc ++ lc)) -> lineage keccak B w (nc ++ lc) -> lc <> [] ->
  bodies keccak B oc obs -> bodies keccak B (reverse (tail nc)) nbs ->
  bHeader b = w -> B !! (bHash b, wn) = Some b -> numU64 w = Some wn ->
  (forall tx n, look !! tx = Some n <-> inLine B (oc ++ lc) tx n) ->
  forall tx n,
    WriteTxLookupEntriesByBlock wn (Transactions b)
      (dropLookups (HashDifference (concat (Transactions <$> obs)) (concat (Transactions <$> nbs)))
         (writeAll (Z.of_nat (length lc)) nbs look)) !! tx = Some n <-> inLine B (nc ++ lc) tx n.
Proof.
  intros Hk [o Ho] Hw Hlc Hobs Hnbs Ew Hb Hwn Hlook tx n.
  assert (Huo : forall t m m', inLine B (oc ++ lc) t m -> inLine B (oc ++ lc) t m' -> m = m')
    by (intros t m m' H1 H2; exact (Hnr B o _ t m m' Hk Ho H1 H2)).
  assert (Huw : forall t m m', inLine B (nc ++ lc) t m -> inLine B (nc ++ lc) t m' -> m = m')
    by (intros t m m' H1 H2; exact (Hnr B w _ t m m' Hk Hw H1 H2)).
  destruct (lineage_cons _ _ _ _ Hw) as [lw' Elw].
  rewrite WriteTx_lookup. destruct (bool_decide_reflect (tx ∈ Transactions b)) as [Htx|Htx].
  { assert (Hin : inLine B (nc ++ lc) tx wn).
    { exists w, b. rewrite Elw. split; [by left|]. split; [done|]. split; [|done]. subst w. exact Hb. }
    split; [by intros [= <-]|]. intros H. f_equal. exact (Huw _ _ _ Hin H). }
  assert (Htail : forall m, inLine B nc tx m <-> inLine B (reverse (tail nc)) tx m).
  { intros m. destruct nc as [|w0 nc]; [done|]. cbn [app] in Elw. injection Elw as -> _. cbn [tail].
    unfold inLine. split.
    - intros (h & x & Hh & Hm & Hx & Ht). exists h, x. split; [|done]. apply elem_of_reverse.
      apply elem_of_cons in Hh as [->|Hh]; [|done]. exfalso. rewrite Hwn in Hm. injection Hm as <-. subst w.
      change (hashOf (bHeader b)) with (bHash b) in Hx. congruence.
    - intros (h & x & Hh & H). exists h, x. split; [|done]. rewrite elem_of_reverse in Hh. by right. }
  pose proof (bodies_inLine B _ _ tx Hobs) as Hdel. pose proof (bodies_inLine B _ _ tx Hnbs) as Hreb.
  rewrite dropLookups_lookup. destruct (bool_decide_reflect
    (tx ∈ HashDifference (concat (Transactions <$> obs)) (concat (Transactions <$> nbs)))) as [Hd|Hd];
    rewrite elem_HashDifference, Hdel, Hreb in Hd.
  - destruct Hd as [[m Hm] Hn]. split; [done|]. rewrite inLine_app, Htail. intros [H|H]; exfalso.
    + apply Hn. by exists n.
    + pose proof (proj1 (inLine_parts B o oc lc tx m Hk Ho) Hm). pose proof (proj2 (inLine_parts B o oc lc tx n Hk Ho) H).
      assert (m = n); [|lia]. apply (Huo tx); apply inLine_app; [left|right]; done.
  - destruct (branch_numbers keccak U B w nc lc Hk Hw) as [Hnums _].
    destruct (decide (tx ∈ concat (Transactions <$> nbs))) as [[m Hm]%Hreb|Hno].
    + assert (Hmw : inLine B (nc ++ lc) tx m) by (apply inLine_app; left; by apply Htail).
      rewrite (writeAll_line B (reverse (tail nc)) nbs _ look tx m Hnbs Hnums); [| |done].
      * split; [by intros [= <-]|]. intros H. f_equal. exact (Huw _ _ _ Hmw H).
      * intros n' H'. refine (Huw _ _ _ _ Hmw). apply inLine_app. left. by apply Htail.
    + rewrite writeAll_none.
      * rewrite Hlook, !inLine_app, Htail. split; intros [H|H]; auto; exfalso; [apply Hd|apply Hno, Hreb]; [|by exists n].
        split; [by exists n|]. intros H'. by apply Hno, Hreb.
      * intros x Hx Ht. apply Hno. apply list_elem_of_In, List.in_concat. exists (Transactions x).
        split; apply list_elem_of_In; [by apply list_elem_of_fmap_2|done].
Qed.

(** ** The invariant *)

Variables (g : Block) (gd : Z).
Abbreviation healthy := (CanonChainProps.healthy keccak U g gd).

Definition lookupOk (c : Chain) : Prop :=
  forall l, lineage keccak (blocks c) (currentBlock c) l -> forall tx n, txLookup c !! tx = Some n <-> inLine (blocks c) l tx n.

Lemma moveHead_lookup c b n c' :
  healthy c -> lookupOk c -> blocks c !! (bHash b, n) = Some b -> bNumber b = Some n ->
  moveHead keccak b c = Done c' tt -> lookupOk c'.
Proof.
  intros Hc Hok Hb Hn Hm. pose proof (h_keyed _ _ _ _ _ Hc) as Hk.
  destruct (moveHead_healthy keccak U HU g gd c b n Hc Hb Hn) as (c2 & Hm2 & _ & [Hs _] & Ec). rewrite Hm in Hm2.
  injection Hm2 as <-. intros lw Hw. rewrite Ec, Hs in Hw. rewrite Hs.
  destruct (h_line _ _ _ _ _ Hc) as (lo & Ho & Hcan). specialize (Hok lo Ho).
  unfold moveHead in Hm. erewrite bind_eq in Hm by reflexivity.
  destruct (Z.eqb_spec (ParentHash (bHeader b)) (hashOf (currentBlock c))) as [Ep|Ep]; cbn [negb] in Hm.
  - erewrite bind_eq in Hm by reflexivity. destruct (writeHeadBlock_eq keccak b n c Hn) as (c3 & H3 & _ & _ & Ht & _).
    rewrite Hm in H3. injection H3 as <-. rewrite Ht.
    pose proof (lineage_extends keccak U HU g gd c b n lo lw Hc Hb Hn Ho Hw Ep) as ->.
    assert (Hlo : lo <> []) by (destruct (lineage_cons _ _ _ _ Ho) as [? ->]; done).
    apply (lookups_moved (blocks c) (bHeader b) [] [bHeader b] lo [] [] b n (txLookup c)); try done.
    + by exists (currentBlock c).
    + constructor.
    + constructor.
  - destruct (sits_lineage keccak U HU g gd c (bHeader b) n Hc) as (lw' & Hw' & Hwl); [by exists b|].
    rewrite <- (lineage_det _ _ _ _ _ Hw Hw') in *. clear lw' Hw'.
    assert (Hol : last lo = Some (bHeader g)).
    { destruct (head_sits keccak U HU g gd c Hc) as (cn & _ & _ & Hsc & _).
      destruct (sits_lineage keccak U HU g gd c _ _ Hc Hsc) as (lo' & Ho' & Hl'). by rewrite (lineage_det _ _ _ _ _ Ho Ho'). }
    destruct (reorg_spec keccak U HU c (currentBlock c) (bHeader b) lo lw Hk Ho Hw)
      as (oc & nc & lc & obs & nbs & c1 & Elo & Elw & Hlc & Hobs & Hnbs & Hr & Hs1 & _ & Ht); [by rewrite Hol, Hwl|done|].
    rewrite (bind_eq _ _ _ _ _ Hr) in Hm. destruct (writeHeadBlock_eq keccak b n c1 Hn) as (c3 & H3 & _ & _ & Ht3 & _).
    rewrite Hm in H3. injection H3 as <-. rewrite Ht3, Ht. rewrite Elo in Ho, Hok. rewrite Elw in Hw. rewrite Elw.
    apply (lookups_moved (blocks c) (bHeader b) oc nc lc obs nbs b n (txLookup c)); try done. by exists (currentBlock c).
Qed.

(** A chain with the same head, and at least the same blocks and the same lookups. *)
Lemma lookupOk_grow c c' :
  healthy c -> healthy c' -> lookupOk c -> blocks c ⊆ blocks c' -> currentBlock c' = currentBlock c -> txLookup c' = txLookup c ->
  lookupOk c'.
Proof.
  intros Hc Hc' Hok Hsub Ecur Etx l Hl tx n. rewrite Ecur in Hl. destruct (h_line _ _ _ _ _ Hc) as (lo & Ho & _).
  pose proof (lineage_mono _ _ _ _ _ Hsub Ho) as Ho'. rewrite (lineage_det _ _ _ _ _ Hl Ho'), Etx, (Hok lo Ho).
  assert (Hsit : forall h m, h ∈ lo -> numU64 h = Some m -> exists b, blocks c !! (hashOf h, m) = Some b).
  { intros h m Hh Hm. destruct (lineage_in keccak U (blocks c) _ _ h (h_keyed _ _ _ _ _ Hc) Ho Hh) as (k & b & Hb & _ & Hk).
    rewrite Hm in Hk. injection Hk as <-. by exists b. }
  unfold inLine. split; intros (h & b & Hh & Hn & Hb & Ht); exists h, b; (split; [done|]); (split; [done|]); (split; [|done]).
  - by eapply lookup_weaken.
  - destruct (Hsit h n Hh Hn) as [x Hx]. pose proof (lookup_weaken _ _ _ _ Hx Hsub) as Hx'. congruence.
Qed.

Lemma lookupOk_after c b n r c' :
  healthy c -> healthy c' -> lookupOk c -> blocks c !! (bHash b, n) = Some b -> bNumber b = Some n -> sameStore c c' ->
  currentBlock c' = (if r : bool then bHeader b else currentBlock c) -> lookupsAfter keccak c b r c' -> lookupOk c'.
Proof.
  intros Hc Hc' Hok Hb Hn [Hs _] Ecur Hl. destruct r.
  - destruct Hl as (c2 & Hm & Et). destruct (moveHead_healthy keccak U HU g gd c b n Hc Hb Hn) as (c3 & Hm3 & Hc3 & [Hs3 _] & Ec3).
    rewrite Hm in Hm3. injection Hm3 as <-. apply (lookupOk_grow c2); try done.
    + exact (moveHead_lookup c b n c2 Hc Hok Hb Hn Hm).
    + by rewrite Hs, Hs3.
    + by rewrite Ecur, Ec3.
  - apply (lookupOk_grow c); try done. by rewrite Hs.
Qed.

Lemma runOp_lookup c o :
  healthy c -> lookupOk c -> allowed keccak U c o ->
  match runOp keccak o c with Done c' _ | Fail c' _ => lookupOk c' | Panicked _ => False end.
Proof.
  intros Hc Hok Ha. destruct o as [ttd preserve b ok emit sl|b|b]; cbn [runOp].
  - unfold writeBlockAndSetHead. rewrite <- bind_assoc.
    destruct (writeBlock_cases keccak U HU g gd c b ok Hc Ha) as (n & Hn & [[_ Hw]|(ptd & d & _ & _ & Hc1 & Hw)]).
    { unfold mbind at 1, st_bind at 1. by rewrite Hw. }
    assert (Hok1 : lookupOk (withBlock keccak c b n (d + ptd))).
    { apply (lookupOk_grow c); try done. by apply (withBlock_subseteq keccak U HU g gd). }
    destruct ok; [|unfold mbind at 1, st_bind at 1; by rewrite Hw]. rewrite (bind_eq _ _ _ _ _ Hw).
    assert (Hb : blocks (withBlock keccak c b n (d + ptd)) !! (bHash b, n) = Some b) by apply lookup_insert_eq.
    destruct (forker_decides keccak U HU g gd ttd preserve _ _ _ Hc1 Hb Hn) as [r Hr].
    destruct (settle keccak U HU g gd ttd preserve _ b n r emit sl Hc1 Hb Hn Hr) as (c' & H' & Hc' & Hs' & E' & L').
    rewrite (bind_eq _ _ _ _ _ H'). by apply (lookupOk_after (withBlock keccak c b n (d + ptd)) b n r).
  - destruct Ha as (n & Hn & Hb). destruct (moveHead_healthy keccak U HU g gd c b n Hc Hb Hn) as (c1 & H1 & Hc1 & _).
    pose proof (moveHead_lookup c b n c1 Hc Hok Hb Hn H1) as Hok1.
    unfold SetCanonical. rewrite <- bind_assoc, (bind_eq _ _ _ _ _ H1). exact Hok1.
  - destruct Ha as (n & Hn & Hb). destruct (moveHead_healthy keccak U HU g gd c b n Hc Hb Hn) as (c1 & H1 & _).
    unfold writeKnownBlock. rewrite H1. exact (moveHead_lookup c b n c1 Hc Hok Hb Hn H1).
Qed.

Lemma reached_lookup c : U g -> bNumber g = Some 0 -> reached keccak U g gd c -> lookupOk c.
Proof.
  intros Ug Hg Hr. assert (Hboth : healthy c /\ lookupOk c); [|apply Hboth].
  induction Hr as [|c o c' Hr [Hc Hok] Ha Ho|c o c' e Hr [Hc Hok] Ha Ho].
  - split; [by apply genesis_healthy|]. destruct (genesis_healthy keccak U g gd Ug Hg) as [Hc _].
    intros l Hl tx n. cbn [genesisChain currentBlock blocks txLookup] in *.
    assert (l = [bHeader g]) as ->.
    { eapply lineage_det; [exact Hl|]. apply lin_root. exists g. split; [apply lookup_singleton_eq|done]. }
    rewrite WriteTx_lookup. split.
    + case_bool_decide; [intros [= <-]|by rewrite lookup_empty]. exists (bHeader g), g. split; [by left|].
      split; [done|]. split; [apply lookup_singleton_eq|done].
    + intros (h & b & ->%list_elem_of_singleton & Hn & Hb & Ht). unfold bNumber in Hg. rewrite Hg in Hn. injection Hn as <-.
      apply lookup_singleton_Some in Hb as [_ <-]. by rewrite bool_decide_true.
  - pose proof (runOp_lookup c o Hc Hok Ha). pose proof (runOp_healthy keccak U HU g gd c o Hc Ha). rewrite Ho in *. done.
  - pose proof (runOp_lookup c o Hc Hok Ha). pose proof (runOp_healthy keccak U HU g gd c o Hc Ha). rewrite Ho in *. done.
Qed.

End lookups.

(** C35: where no transaction occurs twice on a line of blocks, through every sequence of
    imports, reorganizations and head changes, the lookup of a transaction is the number of
    the canonical block that has it, and only transactions of canonical blocks have one. *)
Theorem lookups_follow keccak U g gd c l tx n :
  universe keccak U -> noReplay keccak U -> U g -> bNumber g = Some 0 -> reached keccak U g gd c ->
  lineage keccak (blocks c) (currentBlock c) l ->
  txLookup c !! tx = Some n <-> inLine keccak (blocks c) l tx n.
Proof. intros HU Hnr Ug Hg Hr Hl. by apply (reached_lookup keccak U HU Hnr g gd c Ug Hg Hr l Hl). Qed.

(** ** Examples *)

(** Blocks without a common transaction. *)
Lemma noReplay_disjoint keccak U :
  (forall a b tx, U a -> U b -> tx ∈ Transactions a -> tx ∈ Transactions b -> a = b) -> noReplay keccak U.
Proof.
  intros Hd B h l tx n n' Hk _ (x & a & _ & _ & Ha & Ta) (y & b & _ & _ & Hb & Tb).
  destruct (Hk _ _ _ Ha) as (_ & Hna & Ua). destruct (Hk _ _ _ Hb) as (_ & Hnb & Ub).
  rewrite (Hd a b tx Ua Ub Ta Tb) in Hna. congruence.
Qed.

Lemma demo_noReplay : noReplay EngineDemo.demoKeccak demoUniverse.
Proof.
  apply noReplay_disjoint. unfold demoUniverse. intros a b tx Ha Hb. rewrite !elem_of_cons in Ha, Hb.
  destruct Ha as [->|[->|[->|[->|Ha]]]]; [..|by apply not_elem_of_nil in Ha];
    (destruct Hb as [->|[->|[->|[->|Hb]]]]; [..|by apply not_elem_of_nil in Hb]);
    cbn [demoG demoB1 demoB2 demoS2 Transactions]; rewrite ?list_elem_of_singleton; intros Ta Tb; try reflexivity;
    try (by apply not_elem_of_nil in Ta); try (by apply not_elem_of_nil in Tb); lia.
Qed.

(** The transaction of the first block, after both siblings have been seen. *)
Lemma lookups_follow_witness :
  exists l, lineage EngineDemo.demoKeccak (blocks demoEnd) (currentBlock demoEnd) l /\
    inLine EngineDemo.demoKeccak (blocks demoEnd) l 11 1.
Proof.
  assert (Ug : demoUniverse demoG) by left.
  destruct (h_line _ _ _ _ _ (reached_healthy EngineDemo.demoKeccak demoUniverse demo_universe demoG 1 demoEnd Ug
    eq_refl demo_reached)) as (l & Hl & _).
  exists l. split; [exact Hl|].
  apply (lookups_follow EngineDemo.demoKeccak demoUniverse demoG 1 demoEnd l 11 1).
  - exact demo_universe.
  - exact demo_noReplay.
  - left.
  - reflexivity.
  - exact demo_reached.
  - exact Hl.
  - vm_compute. reflexivity.
Defined.

End CanonLookup.
