(* ===== verification/MvStore.v ===== *)
(** * The multi-version store of the parallel executor

    core/blockstm/mvstore.go, mvbalance_store.go and the keys and the write filter
    of mvhashmap.go: what transactions executed in parallel publish and read.  A
    key maps to the entries of the transactions that wrote it, sorted by
    transaction; balances are kept as sums of what each transaction added and
    subtracted.  Both stores are cut into shards, each under its own lock; every
    operation holds one lock while it works on one shard, so an operation is one
    atomic step here (the filter is extended before the lock is taken and only ever
    gains bits, so that a reader that comes in between sees the entries from before
    the write). *)

From S2P Require Import Prelude Bytes.
Import Bytes.

Module MvStore.

(** ** Keys *)

Definition AddressLength : nat := 20.
Definition HashLength : nat := 32.
Definition KeyLength : nat := AddressLength + HashLength + 2.

Definition addressType : Z := 1.
Definition stateType : Z := 2.
Definition subpathType : Z := 3.

(** The paths of an account in core/state. *)
Definition BalancePath : Z := 1.
Definition NoncePath : Z := 2.
Definition CodePath : Z := 3.
Definition SuicidePath : Z := 4.
Definition CreatePath : Z := 5.

(** A key is [KeyLength] bytes: an address, a hash, a path and the type of the key.
    It is kept as these four parts; [keyBytes] is the array. *)
Record Key : Type := newKey {
  kAddr : Z;
  kHash : Z;
  kSubpath : Z;
  kType : Z
}.

#[export] Instance Key_eq_dec : EqDecision Key.
Proof. solve_decision. Defined.

#[export] Instance Key_countable : Countable Key.
Proof.
  refine (inj_countable' (fun k => (kAddr k, kHash k, kSubpath k, kType k))
                         (fun '(a, h, p, t) => newKey a h p t) _). by intros [].
Defined.

Definition keyBytes (k : Key) : list Z :=
  be_bytes AddressLength (kAddr k) ++ be_bytes HashLength (kHash k) ++ [kSubpath k; kType k].

Definition byteAt (k : Key) (i : nat) : Z := nth i (keyBytes k) 0.

Definition NewAddressKey (addr : Z) : Key := newKey addr 0 0 addressType.
Definition NewStateKey (addr hash : Z) : Key := newKey addr hash 0 stateType.
Definition NewSubpathKey (addr subpath : Z) : Key := newKey addr 0 subpath subpathType.

Definition IsAddress (k : Key) : bool := kType k =? addressType.
Definition IsState (k : Key) : bool := kType k =? stateType.
Definition IsSubpath (k : Key) : bool := kType k =? subpathType.
Definition GetAddress (k : Key) : Z := kAddr k.
Definition GetStateKey (k : Key) : Z := kHash k.
Definition GetSubpath (k : Key) : Z := kSubpath k.

(** FNV-1a of an address. *)
Definition addrShardIndex (addr : list Z) : Z :=
  fold_left (fun h b => u64 (Z.lxor h b * 1099511628211)) addr 14695981039346656037.

(** ** The filter of the keys written *)

Definition bloomBits : Z := 32768.
Definition bloomWords : Z := bloomBits / 64.
Definition bloomMask : Z := bloomBits - 1.

Definition bloomFold (h : Z) : Z :=
  Z.land (Z.lxor (Z.lxor h (Z.shiftr h 15)) (Z.shiftr h 30)) bloomMask.

Definition bloomHashes (k : Key) : Z * Z * Z :=
  let b := byteAt k in
  let word a0 a1 a2 a3 :=
    Z.lor (Z.lor (Z.lor a0 (Z.shiftl a1 8)) (Z.shiftl a2 16)) (Z.shiftl a3 24) in
  let h1 := word (b 0%nat) (b 1%nat) (b 2%nat) (b 3%nat) in
  let h2 := word (b 16%nat) (b 17%nat) (b 18%nat) (b 19%nat) in
  let h3 := word (Z.lxor (Z.lxor (b 8%nat) (b 28%nat)) (b 52%nat))
                 (Z.lxor (b 9%nat) (b 29%nat))
                 (Z.lxor (b 10%nat) (b 30%nat))
                 (Z.lxor (Z.lxor (b 11%nat) (b 31%nat)) (b 53%nat)) in
  (bloomFold h1, bloomFold h2, bloomFold h3).

(** [bloomWords] words of 64 bits. *)
Abbreviation writeBloom := (list Z) (only parsing).

Definition emptyBloom : writeBloom := replicate (Z.to_nat bloomWords) 0.

Definition atomicSetBit (word bit : Z) : Z :=
  let mask := Z.shiftl 1 bit in
  if negb (Z.land word mask =? 0) then word else Z.lor word mask.

Definition setBit (b : writeBloom) (h : Z) : writeBloom :=
  alter (fun w => atomicSetBit w (h mod 64)) (Z.to_nat (h / 64)) b.

Definition testBit (b : writeBloom) (h : Z) : bool :=
  negb (Z.land (nth (Z.to_nat (h / 64)) b 0) (Z.shiftl 1 (h mod 64)) =? 0).

Definition bloomAdd (b : writeBloom) (k : Key) : writeBloom :=
  let '(h1, h2, h3) := bloomHashes k in setBit (setBit (setBit b h1) h2) h3.

Definition mayContain (b : writeBloom) (k : Key) : bool :=
  let '(h1, h2, h3) := bloomHashes k in testBit b h1 && testBit b h2 && testBit b h3.

(** ** Slices sorted by transaction

    What every operation does with the slice of a key: [sort.Search] for the
    position of a transaction, then replace, insert or remove there. *)

Section slices.
Context {E : Type} (idx : E -> Z).

Definition searchTx (es : list E) (txIdx : Z) : nat :=
  sortSearch (length es) (fun i => match es !! i with
                                   | Some e => txIdx <=? idx e
                                   | None => true
                                   end).

(** [pos < len(entries) && entries[pos].txIdx == txIdx]. *)
Definition entryAt (es : list E) (txIdx : Z) : option E :=
  e ← es !! searchTx es txIdx; if idx e =? txIdx then Some e else None.

(** [append(entries, {})], [copy(entries[pos+1:], entries[pos:])],
    [entries[pos] = e]. *)
Definition insertSlice (es : list E) (pos : nat) (e : E) : list E :=
  take pos es ++ e :: drop pos es.

(** [append(entries[:pos], entries[pos+1:]...)]. *)
Definition removeSlice (es : list E) (pos : nat) : list E :=
  take pos es ++ drop (S pos) es.

End slices.

(** ** The store of values *)

(** The [any] of the code: a nonce, a hash, code, or a flag. *)
Inductive Value : Type :=
| VUint64 (n : Z)
| VHash (h : Z)
| VBytes (l : list Z)
| VBool (b : bool).

#[export] Instance Value_eq_dec : EqDecision Value.
Proof. solve_decision. Defined.

Record versionedEntry : Type := mkEntry {
  txIdx : Z;
  incarnation : Z;
  value : Value;
  estimate : bool
}.

#[export] Instance versionedEntry_eq_dec : EqDecision versionedEntry.
Proof. solve_decision. Defined.

Definition mvStoreShards : Z := 64.

Record MVStore : Type := mkMVStore {
  shards : list (gmap Key (list versionedEntry));
  bloom : writeBloom
}.

Definition NewMVStore : MVStore :=
  mkMVStore (replicate (Z.to_nat mvStoreShards) ∅) emptyBloom.

Definition shardOf (k : Key) : nat :=
  Z.to_nat (addrShardIndex (take AddressLength (keyBytes k)) mod mvStoreShards).

(** [sh.data[k]]: a missing key is an empty slice. *)
Definition entriesOf (s : MVStore) (k : Key) : list versionedEntry :=
  default [] (m ← shards s !! shardOf k; m !! k).

(** [sh.data[k] = entries]. *)
Definition setEntries (s : MVStore) (k : Key) (es : list versionedEntry) : MVStore :=
  mkMVStore (alter <[k := es]> (shardOf k) (shards s)) (bloom s).

Definition WriteInc (s : MVStore) (k : Key) (tx inc : Z) (v : Value) : MVStore :=
  let s := mkMVStore (shards s) (bloomAdd (bloom s) k) in
  let es := entriesOf s k in
  let pos := searchTx txIdx es tx in
  let e := mkEntry tx inc v false in
  match entryAt txIdx es tx with
  | Some _ => setEntries s k (<[pos := e]> es)
  | None => setEntries s k (insertSlice es pos e)
  end.

Definition Delete (s : MVStore) (k : Key) (tx : Z) : MVStore :=
  let es := entriesOf s k in
  match entryAt txIdx es tx with
  | Some _ => setEntries s k (removeSlice es (searchTx txIdx es tx))
  | None => s
  end.

(** The five results of a read; a miss is [(nil, -1, 0, false, false)]. *)
Record ReadResult : Type := mkRead {
  rVal : option Value;
  writerIdx : Z;
  writerInc : Z;
  found : bool;
  isEst : bool
}.

#[export] Instance ReadResult_eq_dec : EqDecision ReadResult.
Proof. solve_decision. Defined.

Definition notFound : ReadResult := mkRead None (-1) 0 false false.

Definition ReadVersionFull (s : MVStore) (k : Key) (tx : Z) : ReadResult :=
  if negb (mayContain (bloom s) k) then notFound
  else
    let es := entriesOf s k in
    match searchTx txIdx es tx with
    | O => notFound
    | S p => match es !! p with
             | Some e => mkRead (Some (value e)) (txIdx e) (incarnation e) true (estimate e)
             | None => notFound
             end
    end.

Definition IsEstimate (s : MVStore) (k : Key) (writer : Z) : bool :=
  match entryAt txIdx (entriesOf s k) writer with
  | Some e => estimate e
  | None => false
  end.

Definition markKey (tx : Z) (s : MVStore) (k : Key) : MVStore :=
  let es := entriesOf s k in
  match entryAt txIdx es tx with
  | Some e => setEntries s k (<[searchTx txIdx es tx := mkEntry (txIdx e) (incarnation e) (value e) true]> es)
  | None => s
  end.

Definition MarkEstimate (s : MVStore) (tx : Z) (keys : list Key) : MVStore :=
  fold_left (markKey tx) keys s.

Definition cleanupKey (tx : Z) (s : MVStore) (k : Key) : MVStore :=
  let es := entriesOf s k in
  match entryAt txIdx es tx with
  | Some e => if estimate e then setEntries s k (removeSlice es (searchTx txIdx es tx)) else s
  | None => s
  end.

Definition CleanupEstimate (s : MVStore) (tx : Z) (keys : list Key) : MVStore :=
  fold_left (cleanupKey tx) keys s.

(** ** The store of balance deltas *)

(** uint256 addition and subtraction wrap around. *)
Definition u256 (x : Z) : Z := x mod 2 ^ 256.

Record BalanceDelta : Type := mkDelta { TxIdx : Z; Add : Z; Sub : Z }.

#[export] Instance BalanceDelta_eq_dec : EqDecision BalanceDelta.
Proof. solve_decision. Defined.

Definition mvBalanceShards : Z := 64.

Record MVBalanceStore : Type := mkBals { balShards : list (gmap Z (list BalanceDelta)) }.

Definition NewMVBalanceStore : MVBalanceStore :=
  mkBals (replicate (Z.to_nat mvBalanceShards) ∅).

Definition balShardOf (addr : Z) : nat :=
  Z.to_nat (addrShardIndex (be_bytes AddressLength addr) mod mvBalanceShards).

Definition deltasOf (s : MVBalanceStore) (addr : Z) : list BalanceDelta :=
  default [] (m ← balShards s !! balShardOf addr; m !! addr).

Definition setDeltas (s : MVBalanceStore) (addr : Z) (es : list BalanceDelta) : MVBalanceStore :=
  mkBals (alter <[addr := es]> (balShardOf addr) (balShards s)).

(** A nil amount counts as zero. *)
Definition WriteDelta (s : MVBalanceStore) (addr tx : Z) (add sub : option Z) : MVBalanceStore :=
  let es := deltasOf s addr in
  let pos := searchTx TxIdx es tx in
  let a := default 0 add in
  let su := default 0 sub in
  match entryAt TxIdx es tx with
  | Some e => setDeltas s addr (<[pos := mkDelta (TxIdx e) (u256 (Add e + a)) (u256 (Sub e + su))]> es)
  | None => setDeltas s addr (insertSlice es pos (mkDelta tx a su))
  end.

(** The loop of [ReadDelta], which stops at the first later transaction. *)
Fixpoint sumBelow (es : list BalanceDelta) (tx add sub : Z) : Z * Z :=
  match es with
  | [] => (add, sub)
  | e :: es => if tx <=? TxIdx e then (add, sub)
               else sumBelow es tx (u256 (add + Add e)) (u256 (sub + Sub e))
  end.

Definition ReadDelta (s : MVBalanceStore) (addr tx : Z) : Z * Z :=
  sumBelow (deltasOf s addr) tx 0 0.

Definition GetTxDelta (s : MVBalanceStore) (addr tx : Z) : Z * Z * bool :=
  match entryAt TxIdx (deltasOf s addr) tx with
  | Some e => (Add e, Sub e, true)
  | None => (0, 0, false)
  end.

Definition zeroKey (tx : Z) (s : MVBalanceStore) (addr : Z) : MVBalanceStore :=
  let es := deltasOf s addr in
  match entryAt TxIdx es tx with
  | Some e => setDeltas s addr (<[searchTx TxIdx es tx := mkDelta (TxIdx e) 0 0]> es)
  | None => s
  end.

Definition ZeroDelta (s : MVBalanceStore) (tx : Z) (addrs : list Z) : MVBalanceStore :=
  fold_left (zeroKey tx) addrs s.

Definition DeleteSingle (s : MVBalanceStore) (addr tx : Z) : MVBalanceStore :=
  let es := deltasOf s addr in
  match entryAt TxIdx es tx with
  | Some _ => setDeltas s addr (removeSlice es (searchTx TxIdx es tx))
  | None => s
  end.

End MvStore.
