(* ===== verification/MvStoreProps.v ===== *)
(** * Properties of the multi-version store

    A slice sorted by transaction behaves as a finite map from transactions to
    entries; the filter never hides a key that was written; so the sharded store
    implements a plain map from keys and transactions to versions, in which a
    reader finds the latest version below itself. *)

From S2P Require Import Prelude Bytes MvStore.
Import Bytes MvStore.

Module MvStoreProps.

(** ** Sorted slices *)

Section slices.
Context {E : Type} (idx : E -> Z).

Definition sorted (es : list E) : Prop := StronglySorted (fun a b => idx a < idx b) es.

Lemma sorted_app l1 l2 :
  sorted (l1 ++ l2) <-> sorted l1 /\ sorted l2 /\ (forall a b, a ∈ l1 -> b ∈ l2 -> idx a < idx b).
Proof.
  unfold sorted. induction l1 as [|a l1 IH]; cbn [app].
  - split; [|tauto]. intros H. split_and!; [constructor|done|]. intros a b Ha. by apply not_elem_of_nil in Ha.
  - split.
    + intros H. apply StronglySorted_inv in H as [H Ha]. apply IH in H as (H1 & H2 & H3).
      rewrite Forall_app in Ha. destruct Ha as [Ha1 Ha2].
      split_and!; [by constructor|done|]. intros x y Hx Hy. apply elem_of_cons in Hx as [->|Hx]; [|eauto].
      rewrite Forall_forall in Ha2. auto.
    + intros (H1 & H2 & H3). apply StronglySorted_inv in H1 as [H1 Ha]. constructor.
      * apply IH. split_and!; [done..|]. intros x y Hx. apply H3. by constructor.
      * rewrite Forall_app. split; [done|]. apply Forall_forall. intros y Hy. apply H3; [by constructor|done].
Qed.

Lemma sorted_lookup es i j a b :
  sorted es -> (i < j)%nat -> es !! i = Some a -> es !! j = Some b -> idx a < idx b.
Proof.
  intros Hs Hij Ha Hb. rewrite <- (take_drop j es) in Hs. apply sorted_app in Hs as (_ & _ & H).
  apply H.
  - apply list_elem_of_lookup_2 with i. by rewrite lookup_take_lt by lia.
  - apply list_elem_of_lookup_2 with 0%nat. rewrite lookup_drop. by rewrite Nat.add_0_r.
Qed.

(** The position found cuts the slice at the transaction. *)
Lemma searchTx_split es tx :
  sorted es ->
  (forall e, e ∈ take (searchTx idx es tx) es -> idx e < tx) /\
  (forall e, e ∈ drop (searchTx idx es tx) es -> tx <= idx e).
Proof.
  intros Hs. unfold searchTx.
  set (f := fun i => match es !! i with Some e => tx <=? idx e | None => true end).
  destruct (sortSearch_spec (length es) f) as (Hle & Hlow & Hhit).
  { intros a b Hab. unfold f. destruct (es !! b) as [eb|] eqn:Eb; [|done].
    destruct (es !! a) as [ea|] eqn:Ea; [|apply lookup_ge_None in Ea; lia].
    rewrite !Z.leb_le. intros H. destruct (decide (a = b)) as [->|]; [by simplify_eq|].
    pose proof (sorted_lookup es a b ea eb Hs ltac:(lia) Ea Eb). lia. }
  set (p := sortSearch (length es) f) in *. split; intros e He.
  - apply list_elem_of_lookup in He as [i Hi]. apply lookup_take_Some in Hi as [Hi Hp].
    specialize (Hlow i Hp). unfold f in Hlow. rewrite Hi in Hlow. by apply Z.leb_gt in Hlow.
  - apply list_elem_of_lookup in He as [i Hi]. rewrite lookup_drop in Hi.
    pose proof (lookup_lt_Some _ _ _ Hi) as Hl. specialize (Hhit ltac:(lia)). unfold f in Hhit.
    destruct (es !! p) as [ep|] eqn:Ep; [|apply lookup_ge_None in Ep; lia].
    apply Z.leb_le in Hhit. destruct (decide (i = 0%nat)) as [->|].
    + rewrite Nat.add_0_r in Hi. by simplify_eq.
    + pose proof (sorted_lookup es p (p + i) ep e Hs ltac:(lia) Ep Hi). lia.
Qed.

(** A sorted slice at a transaction: what is before, the entry if there is one, and
    what is after. *)
Lemma slice_cases es tx :
  sorted es ->
  exists l r,
    (forall e, e ∈ l -> idx e < tx) /\ (forall e, e ∈ r -> tx < idx e) /\
    searchTx idx es tx = length l /\
    ((es = l ++ r /\ entryAt idx es tx = None) \/
     (exists e, es = l ++ e :: r /\ idx e = tx /\ entryAt idx es tx = Some e)).
Proof.
  intros Hs. destruct (searchTx_split es tx Hs) as [Hl Hr].
  unfold entryAt. set (p := searchTx idx es tx) in *. exists (take p es).
  assert (Hp : (p <= length es)%nat).
  { unfold p, searchTx. apply sortSearch_spec. intros a b Hab.
    destruct (es !! b) as [eb|] eqn:Eb; [|done].
    destruct (es !! a) as [ea|] eqn:Ea; [|apply lookup_ge_None in Ea; lia].
    rewrite !Z.leb_le. intros H. destruct (decide (a = b)) as [->|]; [by simplify_eq|].
    pose proof (sorted_lookup es a b ea eb Hs ltac:(lia) Ea Eb). lia. }
  pose proof (take_drop p es) as Htd. rewrite <- Htd in Hs. apply sorted_app in Hs as (_ & Hs & _).
  destruct (es !! p) as [e|] eqn:Ee.
  - pose proof (drop_S es e p Ee) as Hd.
    rewrite Hd in Hr, Hs, Htd. apply StronglySorted_inv in Hs as [_ Ha]. rewrite Forall_forall in Ha.
    assert (He : tx <= idx e) by (apply Hr; by constructor).
    destruct (decide (idx e = tx)) as [Heq|Hne].
    + exists (drop (S p) es). split_and!; [done| | |].
      * intros x Hx. specialize (Ha x Hx). cbn in Ha. lia.
      * rewrite length_take. lia.
      * right. exists e. split_and!; [by rewrite Htd|done|]. cbn. by rewrite (proj2 (Z.eqb_eq _ _) Heq).
    + exists (e :: drop (S p) es). split_and!; [done| | |].
      * intros x Hx. apply elem_of_cons in Hx as [->|Hx]; [lia|]. specialize (Ha x Hx). cbn in Ha. lia.
      * rewrite length_take. lia.
      * left. split; [by rewrite Htd|]. cbn. by rewrite (proj2 (Z.eqb_neq _ _) Hne).
  - apply lookup_ge_None in Ee. exists [].
    rewrite (drop_ge es p Ee) in Htd. split_and!; [done| | |].
    * intros x Hx. by apply not_elem_of_nil in Hx.
    * rewrite length_take. lia.
    * left. split; [by rewrite Htd|done].
Qed.

(** An entry is found exactly when the slice has it. *)
Lemma entryAt_Some es tx e :
  sorted es -> (entryAt idx es tx = Some e <-> e ∈ es /\ idx e = tx).
Proof.
  intros Hs. destruct (slice_cases es tx Hs) as (l & r & Hl & Hr & _ & [(-> & Hn)|(x & -> & Hx & Hsome)]).
  - rewrite Hn. split; [done|]. intros [Hin Heq].
    apply elem_of_app in Hin as [H|H]; [apply Hl in H|apply Hr in H]; lia.
  - rewrite Hsome. split.
    + intros [= <-]. split; [|done]. apply elem_of_app. right. by constructor.
    + intros [Hin Heq]. apply elem_of_app in Hin as [H|H]; [apply Hl in H; lia|].
      apply elem_of_cons in H as [->|H]; [done|apply Hr in H; lia].
Qed.

Lemma entryAt_None es tx :
  sorted es -> (entryAt idx es tx = None <-> forall e, e ∈ es -> idx e <> tx).
Proof.
  intros Hs. split.
  - intros Hn e He Heq. by rewrite (proj2 (entryAt_Some es tx e Hs) (conj He Heq)) in Hn.
  - intros H. destruct (entryAt idx es tx) as [e|] eqn:Ee; [|done].
    apply entryAt_Some in Ee as [He Heq]; [|done]. by apply H in He.
Qed.

(** What the three updates at a transaction make of a slice. *)
Definition put (es : list E) (tx : Z) (e : E) : list E :=
  match entryAt idx es tx with
  | Some _ => <[searchTx idx es tx := e]> es
  | None => insertSlice es (searchTx idx es tx) e
  end.

Lemma put_shape es tx e :
  sorted es -> idx e = tx ->
  exists l r, put es tx e = l ++ e :: r /\ sorted (l ++ e :: r) /\
    (forall x, x ∈ l ++ r <-> x ∈ es /\ idx x <> tx).
Proof.
  intros Hs He. unfold put.
  destruct (slice_cases es tx Hs) as (l & r & Hl & Hr & Hp & [(Heq & Hn)|(x & Heq & Hx & Hsome)]);
    rewrite Hp; exists l, r.
  - rewrite Hn, Heq. unfold insertSlice. rewrite take_app_length, drop_app_length. split; [done|].
    rewrite Heq in Hs. apply sorted_app in Hs as (H1 & H2 & H3). split.
    + apply sorted_app. split_and!; [done| |].
      * constructor; [done|]. apply Forall_forall. intros y Hy. specialize (Hr y Hy). lia.
      * intros a b Ha Hb. specialize (Hl a Ha). apply elem_of_cons in Hb as [->|Hb]; [lia|]. specialize (Hr b Hb). lia.
    + intros y. split; [|tauto]. intros Hy. split; [done|].
      apply elem_of_app in Hy as [Hy|Hy]; [apply Hl in Hy|apply Hr in Hy]; lia.
  - rewrite Hsome, Heq. rewrite insert_app_r_alt by lia. rewrite Nat.sub_diag. cbn [insert list_insert].
    split; [done|]. rewrite Heq in Hs. apply sorted_app in Hs as (H1 & H2 & H3). split.
    + apply sorted_app. split_and!; [done| |].
      * apply StronglySorted_inv in H2 as [H2 _]. constructor; [done|].
        apply Forall_forall. intros y Hy. specialize (Hr y Hy). lia.
      * intros a b Ha Hb. specialize (Hl a Ha). apply elem_of_cons in Hb as [->|Hb]; [lia|]. specialize (Hr b Hb). lia.
    + intros y. rewrite !elem_of_app, elem_of_cons. split.
      * intros [Hy|Hy]; (split; [by auto|]); [apply Hl in Hy|apply Hr in Hy]; lia.
      * intros [[Hy|[->|Hy]] Hne]; auto; lia.
Qed.

Lemma put_sorted es tx e : sorted es -> idx e = tx -> sorted (put es tx e).
Proof. intros Hs He. destruct (put_shape es tx e Hs He) as (l & r & -> & H & _). done. Qed.

Lemma put_entryAt es tx e tx' :
  sorted es -> idx e = tx ->
  entryAt idx (put es tx e) tx' = if decide (tx' = tx) then Some e else entryAt idx es tx'.
Proof.
  intros Hs He. pose proof (put_sorted es tx e Hs He) as Hs'.
  destruct (put_shape es tx e Hs He) as (l & r & Heq & _ & Hin).
  destruct (decide (tx' = tx)) as [->|Hne].
  - apply entryAt_Some; [done|]. rewrite Heq. split; [|done]. apply elem_of_app. right. by constructor.
  - destruct (entryAt idx es tx') as [x|] eqn:Ex.
    + apply entryAt_Some in Ex as [Hx Hi]; [|done]. apply entryAt_Some; [done|]. split; [|done].
      rewrite Heq. assert (Hlr : x ∈ l ++ r) by (apply Hin; split; [done|lia]).
      apply elem_of_app in Hlr as [?|?]; apply elem_of_app; [by left|right; by constructor].
    + apply entryAt_None; [done|]. rewrite entryAt_None in Ex by done. intros y Hy. rewrite Heq in Hy.
      apply elem_of_app in Hy as [Hy|Hy]; [|apply elem_of_cons in Hy as [->|Hy]]; [|lia|];
        apply Ex; apply (Hin y); apply elem_of_app; auto.
Qed.

Lemma remove_spec es tx e0 :
  sorted es -> entryAt idx es tx = Some e0 ->
  sorted (removeSlice es (searchTx idx es tx)) /\
  forall tx', entryAt idx (removeSlice es (searchTx idx es tx)) tx'
    = if decide (tx' = tx) then None else entryAt idx es tx'.
Proof.
  intros Hs He0.
  destruct (slice_cases es tx Hs) as (l & r & Hl & Hr & Hp & [(Heq & Hn)|(x & Heq & Hx & Hsome)]); [congruence|].
  assert (Hrem : removeSlice es (searchTx idx es tx) = l ++ r).
  { rewrite Hp, Heq. unfold removeSlice. rewrite take_app_length.
    replace (S (length l)) with (length l + 1)%nat by lia. by rewrite drop_app_add. }
  assert (Hs' : sorted (l ++ r)).
  { rewrite Heq in Hs. apply sorted_app in Hs as (H1 & H2 & H3). apply StronglySorted_inv in H2 as [H2 _].
    apply sorted_app. split_and!; [done..|]. intros a b Ha Hb. apply H3; [done|by constructor]. }
  rewrite Hrem. split; [done|]. intros tx'.
  assert (Hin : forall y, y ∈ l ++ r <-> y ∈ es /\ idx y <> tx).
  { intros y. rewrite Heq, !elem_of_app, elem_of_cons. split.
    - intros [Hy|Hy]; (split; [by auto|]); [apply Hl in Hy|apply Hr in Hy]; lia.
    - intros [[Hy|[->|Hy]] Hne]; auto; lia. }
  destruct (decide (tx' = tx)) as [->|Hne].
  - apply entryAt_None; [done|]. intros y Hy. apply Hin in Hy. tauto.
  - destruct (entryAt idx es tx') as [y|] eqn:Ey.
    + apply entryAt_Some in Ey as [Hy Hi]; [|done]. apply entryAt_Some; [done|]. split; [|done]. apply Hin. split; [done|lia].
    + apply entryAt_None; [done|]. rewrite entryAt_None in Ey by done. intros y Hy. apply Ey. by apply Hin in Hy as [].
Qed.

(** The entry before the position is the latest one of an earlier transaction. *)
Definition latestBelow (es : list E) (tx : Z) (e : E) : Prop :=
  e ∈ es /\ idx e < tx /\ forall e', e' ∈ es -> idx e' < tx -> idx e' <= idx e.

Lemma search_latest es tx :
  sorted es ->
  match searchTx idx es tx with
  | O => forall e, e ∈ es -> tx <= idx e
  | S p => exists e, es !! p = Some e /\ latestBelow es tx e
  end.
Proof.
  intros Hs. destruct (searchTx_split es tx Hs) as [Hl Hr].
  destruct (slice_cases es tx Hs) as (l & r & _ & _ & Hp & Hc).
  assert (Hle : (searchTx idx es tx <= length es)%nat).
  { rewrite Hp. destruct Hc as [(-> & _)|(x & -> & _)]; rewrite length_app; lia. }
  destruct (searchTx idx es tx) as [|p] eqn:Ep; [done|].
  destruct (lookup_lt_is_Some_2 es p ltac:(lia)) as [e He]. exists e. split; [done|]. split_and!.
  - by apply list_elem_of_lookup_2 in He.
  - apply Hl. apply list_elem_of_lookup_2 with p. by rewrite lookup_take_lt by lia.
  - intros e' He' Hlt. rewrite <- (take_drop (S p) es) in He'. apply elem_of_app in He' as [H|H].
    + apply list_elem_of_lookup in H as [i Hi]. apply lookup_take_Some in Hi as [Hi Hip].
      destruct (decide (i = p)) as [->|]; [by simplify_eq|].
      pose proof (sorted_lookup es i p e' e Hs ltac:(lia) Hi He). lia.
    + apply Hr in H. lia.
Qed.

End slices.

(** ** The write filter *)

Lemma atomicSetBit_spec w b n :
  0 <= b -> Z.testbit (atomicSetBit w b) n = (Z.testbit w n || (n =? b))%bool.
Proof.
  intros Hb. unfold atomicSetBit.
  assert (Hm : forall m, Z.testbit (Z.shiftl 1 b) m = (m =? b)).
  { intros m. rewrite Z.shiftl_1_l. destruct (Z.eqb_spec m b) as [->|Hne].
    - by apply Z.pow2_bits_true.
    - by apply Z.pow2_bits_false. }
  destruct (negb (Z.land w (Z.shiftl 1 b) =? 0)) eqn:E.
  - apply negb_true_iff, Z.eqb_neq in E. destruct (Z.eqb_spec n b) as [->|]; [|by rewrite orb_false_r].
    rewrite orb_true_r. destruct (Z.testbit w b) eqn:Ew; [done|]. exfalso. apply E.
    apply Z.bits_inj'. intros m Hm0. rewrite Z.land_spec, Hm, Z.bits_0.
    destruct (Z.eqb_spec m b) as [->|]; [by rewrite Ew|apply andb_false_r].
  - by rewrite Z.lor_spec, Hm.
Qed.

Lemma testBit_spec b h :
  0 <= h -> testBit b h = Z.testbit (nth (Z.to_nat (h / 64)) b 0) (h mod 64).
Proof.
  intros Hh. unfold testBit. set (w := nth _ b 0). pose proof (Z.mod_pos_bound h 64 ltac:(lia)) as Hm.
  set (i := h mod 64) in *.
  assert (Hs : forall m, Z.testbit (Z.shiftl 1 i) m = (m =? i)).
  { intros m. rewrite Z.shiftl_1_l. destruct (Z.eqb_spec m i) as [->|Hne].
    - apply Z.pow2_bits_true. lia.
    - by apply Z.pow2_bits_false. }
  destruct (Z.land w (Z.shiftl 1 i) =? 0) eqn:E; cbn [negb].
  - apply Z.eqb_eq in E. apply (f_equal (fun x => Z.testbit x i)) in E.
    rewrite Z.land_spec, Hs, Z.eqb_refl, andb_true_r, Z.bits_0 in E. done.
  - apply Z.eqb_neq in E. destruct (Z.testbit w i) eqn:Ew; [done|]. exfalso. apply E.
    apply Z.bits_inj'. intros m Hm0. rewrite Z.land_spec, Hs, Z.bits_0.
    destruct (Z.eqb_spec m i) as [->|]; [by rewrite Ew|apply andb_false_r].
Qed.

Lemma bloomFold_range h : 0 <= bloomFold h < bloomBits.
Proof.
  unfold bloomFold, bloomMask, bloomBits. change (32768 - 1) with (Z.ones 15).
  rewrite Z.land_ones by lia. apply Z.mod_pos_bound. lia.
Qed.

Lemma length_setBit b h : length (setBit b h) = length b.
Proof. unfold setBit. apply length_alter. Qed.

Lemma nth_alter (f : Z -> Z) (l : list Z) i j :
  nth j (alter f i l) 0 = if decide (i = j /\ (i < length l)%nat) then f (nth j l 0) else nth j l 0.
Proof.
  rewrite !nth_lookup. destruct (decide (i = j)) as [->|Hne].
  - rewrite list_lookup_alter_eq. destruct (l !! j) as [x|] eqn:Ex; cbn.
    + apply lookup_lt_Some in Ex. by rewrite decide_True.
    + apply lookup_ge_None in Ex. rewrite decide_False; [done|lia].
  - rewrite list_lookup_alter_ne by done. rewrite decide_False; [done|tauto].
Qed.

Definition inBits (h : Z) : Prop := 0 <= h < bloomBits.

Lemma testBit_setBit b h h' :
  length b = Z.to_nat bloomWords -> inBits h -> inBits h' ->
  testBit (setBit b h) h' = (testBit b h' || (h' =? h))%bool.
Proof.
  unfold inBits, bloomBits. intros Hlen Hh Hh'. rewrite !testBit_spec by lia. unfold setBit. rewrite nth_alter.
  pose proof (Z.div_mod h 64 ltac:(lia)) as D1. pose proof (Z.div_mod h' 64 ltac:(lia)) as D2.
  pose proof (Z.mod_pos_bound h 64 ltac:(lia)). pose proof (Z.mod_pos_bound h' 64 ltac:(lia)).
  change (Z.to_nat bloomWords) with 512%nat in Hlen.
  destruct (decide _) as [[Heq _]|Hn].
  - apply Z2Nat.inj in Heq; [|lia..]. rewrite atomicSetBit_spec by lia. f_equal.
    destruct (Z.eqb_spec h' h) as [->|]; [by rewrite Z.eqb_refl|]. apply Z.eqb_neq. lia.
  - destruct (Z.eqb_spec h' h) as [->|]; [|by rewrite orb_false_r]. exfalso. apply Hn. split; [done|].
    rewrite Hlen. apply Nat2Z.inj_lt. rewrite Z2Nat.id by lia. change (Z.of_nat 512) with 512. lia.
Qed.

Lemma bloomHashes_range k : let '(h1, h2, h3) := bloomHashes k in inBits h1 /\ inBits h2 /\ inBits h3.
Proof. unfold bloomHashes. split_and!; apply bloomFold_range. Qed.

Lemma mayContain_add b k k' :
  length b = Z.to_nat bloomWords ->
  mayContain b k' = true \/ k' = k -> mayContain (bloomAdd b k) k' = true.
Proof.
  intros Hlen H. unfold mayContain, bloomAdd in *.
  pose proof (bloomHashes_range k) as Hk. pose proof (bloomHashes_range k') as Hk'.
  destruct (bloomHashes k) as [[h1 h2] h3] eqn:Eh. destruct (bloomHashes k') as [[g1 g2] g3] eqn:Eg.
  destruct Hk as (R1 & R2 & R3), Hk' as (S1 & S2 & S3).
  rewrite !testBit_setBit by (rewrite ?length_setBit; done).
  destruct H as [H| ->].
  - apply andb_true_iff in H as [H ->]. apply andb_true_iff in H as [-> ->]. done.
  - rewrite Eh in Eg. simplify_eq. by rewrite !Z.eqb_refl, !orb_true_r.
Qed.

Lemma length_bloomAdd b k : length (bloomAdd b k) = length b.
Proof. unfold bloomAdd. destruct (bloomHashes k) as [[h1 h2] h3]. by rewrite !length_setBit. Qed.

(** ** Shards *)

Lemma shardOf_range k : (shardOf k < Z.to_nat mvStoreShards)%nat.
Proof.
  unfold shardOf, mvStoreShards. pose proof (Z.mod_pos_bound (addrShardIndex (take AddressLength (keyBytes k))) 64 ltac:(lia)). lia.
Qed.

Lemma entriesOf_setEntries s k es k' :
  length (shards s) = Z.to_nat mvStoreShards ->
  entriesOf (setEntries s k es) k' = if decide (k' = k) then es else entriesOf s k'.
Proof.
  intros Hlen. unfold entriesOf, setEntries. cbn [shards].
  destruct (decide (shardOf k = shardOf k')) as [Heq|Hne].
  - rewrite <- Heq, list_lookup_alter_eq.
    destruct (lookup_lt_is_Some_2 (shards s) (shardOf k)) as [m Hm]; [rewrite Hlen; apply shardOf_range|].
    rewrite Hm. cbn. destruct (decide (k' = k)) as [->|]; [by rewrite lookup_insert_eq|by rewrite lookup_insert_ne].
  - rewrite list_lookup_alter_ne by done. rewrite decide_False; [done|]. by intros ->.
Qed.

(** ** The store as a map of versions *)

(** The version a transaction published for a key. *)
Definition cell (s : MVStore) (k : Key) (tx : Z) : option versionedEntry :=
  entryAt txIdx (entriesOf s k) tx.

(** What every operation keeps: the shape of the arrays, sorted slices, and the
    filter covering every key that has entries. *)
Record wfStore (s : MVStore) : Prop := {
  wf_shards : length (shards s) = Z.to_nat mvStoreShards;
  wf_bloom : length (bloom s) = Z.to_nat bloomWords;
  wf_sorted : forall k, sorted txIdx (entriesOf s k);
  wf_filter : forall k, entriesOf s k <> [] -> mayContain (bloom s) k = true
}.

Lemma NewMVStore_wf : wfStore NewMVStore.
Proof.
  assert (H : forall k, entriesOf NewMVStore k = []).
  { intros k. unfold entriesOf, NewMVStore. cbn [shards].
    rewrite lookup_replicate_2 by apply shardOf_range. cbn. by rewrite lookup_empty. }
  split; [apply length_replicate..| |]; intros k; rewrite H; [constructor|done].
Qed.

Lemma setEntries_wf s k es :
  wfStore s -> sorted txIdx es -> (es <> [] -> mayContain (bloom s) k = true) -> wfStore (setEntries s k es).
Proof.
  intros [H1 H2 H3 H4] Hs Hf. split.
  - unfold setEntries. cbn. by rewrite length_alter.
  - done.
  - intros k'. rewrite entriesOf_setEntries by done. case_decide; [by subst|done].
  - intros k'. rewrite entriesOf_setEntries by done. cbn. case_decide; [subst; done|apply H4].
Qed.

Lemma setEntries_cell s k es k' tx :
  wfStore s -> cell (setEntries s k es) k' tx = if decide (k' = k) then entryAt txIdx es tx else cell s k' tx.
Proof. intros []. unfold cell. rewrite entriesOf_setEntries by done. by case_decide. Qed.

(** Each operation changes the versions it names and no others. *)

Lemma WriteInc_spec s k tx inc v :
  wfStore s ->
  wfStore (WriteInc s k tx inc v) /\
  forall k' tx', cell (WriteInc s k tx inc v) k' tx'
    = if decide (k' = k /\ tx' = tx) then Some (mkEntry tx inc v false) else cell s k' tx'.
Proof.
  intros Hwf. set (s1 := mkMVStore (shards s) (bloomAdd (bloom s) k)).
  assert (Hwf1 : wfStore s1).
  { destruct Hwf as [H1 H2 H3 H4]. split; [done|etrans; [apply length_bloomAdd|done]|done|].
    intros k' Hk'. apply mayContain_add; [done|]. left. by apply H4. }
  set (e := mkEntry tx inc v false).
  assert (Heq : WriteInc s k tx inc v = setEntries s1 k (put txIdx (entriesOf s1 k) tx e)).
  { unfold WriteInc, put. fold s1. by destruct (entryAt txIdx (entriesOf s1 k) tx). }
  rewrite Heq. pose proof (wf_sorted _ Hwf1 k) as Hs. split.
  - apply setEntries_wf; [done|by apply put_sorted|]. intros _. apply mayContain_add; [apply Hwf|by right].
  - intros k' tx'. rewrite setEntries_cell by done. destruct (decide (k' = k)) as [->|Hk].
    + rewrite put_entryAt by done. destruct (decide (tx' = tx)); [by rewrite decide_True|].
      rewrite decide_False by tauto. done.
    + rewrite decide_False by tauto. done.
Qed.

Lemma setEntries_remove s k tx e :
  wfStore s -> cell s k tx = Some e ->
  let s' := setEntries s k (removeSlice (entriesOf s k) (searchTx txIdx (entriesOf s k) tx)) in
  wfStore s' /\
  forall k' tx', cell s' k' tx' = if decide (k' = k /\ tx' = tx) then None else cell s k' tx'.
Proof.
  intros Hwf He s'. destruct (remove_spec txIdx (entriesOf s k) tx e (wf_sorted _ Hwf k) He) as [Hs Hc]. split.
  - apply setEntries_wf; [done..|]. intros _. apply (wf_filter _ Hwf). intros Hn.
    unfold cell in He. by rewrite Hn in He.
  - intros k' tx'. unfold s'. rewrite setEntries_cell by done. destruct (decide (k' = k)) as [->|Hk].
    + rewrite Hc. destruct (decide (tx' = tx)); [by rewrite decide_True|]. rewrite decide_False by tauto. done.
    + rewrite decide_False by tauto. done.
Qed.

Lemma Delete_spec s k tx :
  wfStore s ->
  wfStore (Delete s k tx) /\
  forall k' tx', cell (Delete s k tx) k' tx' = if decide (k' = k /\ tx' = tx) then None else cell s k' tx'.
Proof.
  intros Hwf. unfold Delete. destruct (entryAt txIdx (entriesOf s k) tx) as [e|] eqn:He.
  - by apply setEntries_remove with e.
  - split; [done|]. intros k' tx'. case_decide as Hd; [|done]. by destruct Hd as [-> ->].
Qed.

Definition flagged (e : versionedEntry) : versionedEntry :=
  mkEntry (txIdx e) (incarnation e) (value e) true.

Lemma markKey_spec tx s k :
  wfStore s ->
  wfStore (markKey tx s k) /\
  forall k' tx', cell (markKey tx s k) k' tx'
    = if decide (k' = k /\ tx' = tx) then flagged <$> cell s k' tx' else cell s k' tx'.
Proof.
  intros Hwf. unfold markKey. pose proof (wf_sorted _ Hwf k) as Hs.
  destruct (entryAt txIdx (entriesOf s k) tx) as [e|] eqn:He.
  - pose proof (proj1 (entryAt_Some txIdx _ tx e Hs) He) as [Hin Hi].
    assert (Heq : <[searchTx txIdx (entriesOf s k) tx := mkEntry (txIdx e) (incarnation e) (value e) true]> (entriesOf s k)
                  = put txIdx (entriesOf s k) tx (flagged e)).
    { unfold put. by rewrite He. }
    rewrite Heq. split.
    + apply setEntries_wf; [done|by apply put_sorted|]. intros _. apply (wf_filter _ Hwf). intros Hn.
      by rewrite Hn in He.
    + intros k' tx'. rewrite setEntries_cell by done. destruct (decide (k' = k)) as [->|Hk].
      * rewrite put_entryAt by done. destruct (decide (tx' = tx)) as [->|].
        -- rewrite decide_True by done. unfold cell. by rewrite He.
        -- rewrite decide_False by tauto. done.
      * rewrite decide_False by tauto. done.
  - split; [done|]. intros k' tx'. case_decide as Hd; [|done]. destruct Hd as [-> ->]. unfold cell. by rewrite He.
Qed.

Lemma MarkEstimate_spec s tx keys :
  wfStore s ->
  wfStore (MarkEstimate s tx keys) /\
  forall k' tx', cell (MarkEstimate s tx keys) k' tx'
    = if decide (k' ∈ keys /\ tx' = tx) then flagged <$> cell s k' tx' else cell s k' tx'.
Proof.
  unfold MarkEstimate. revert s. induction keys as [|k keys IH]; intros s Hwf; cbn [fold_left].
  - split; [done|]. intros k' tx'. rewrite decide_False; [done|]. intros [H _]. by apply not_elem_of_nil in H.
  - destruct (markKey_spec tx s k Hwf) as [H1 H2]. destruct (IH _ H1) as [H3 H4]. split; [done|].
    intros k' tx'. rewrite H4, H2. destruct (decide (k' = k /\ tx' = tx)) as [[-> ->]|Hn].
    + rewrite (decide_True (P := k ∈ k :: keys /\ tx = tx)) by (split; [by constructor|done]).
      case_decide; [|done]. by destruct (cell s k tx).
    + destruct (decide (k' ∈ keys /\ tx' = tx)) as [[? ->]|Hn'].
      * rewrite decide_True by (split; [by constructor|done]). done.
      * rewrite decide_False; [done|]. intros [Hin ->]. apply elem_of_cons in Hin as [->|Hin]; tauto.
Qed.

(** A version that is still an estimate. *)
Definition stale (o : option versionedEntry) : bool :=
  match o with Some e => estimate e | None => false end.

Lemma cleanupKey_spec tx s k :
  wfStore s ->
  wfStore (cleanupKey tx s k) /\
  forall k' tx', cell (cleanupKey tx s k) k' tx'
    = if decide (k' = k /\ tx' = tx /\ stale (cell s k' tx') = true) then None else cell s k' tx'.
Proof.
  intros Hwf. unfold cleanupKey. destruct (entryAt txIdx (entriesOf s k) tx) as [e|] eqn:He.
  - destruct (estimate e) eqn:Hest.
    + destruct (setEntries_remove s k tx e Hwf He) as [H1 H2]. split; [done|]. intros k' tx'. rewrite H2.
      destruct (decide (k' = k /\ tx' = tx)) as [[-> ->]|Hn].
      * rewrite decide_True; [done|]. unfold cell. by rewrite He.
      * rewrite decide_False by tauto. done.
    + split; [done|]. intros k' tx'. rewrite decide_False; [done|]. intros (-> & -> & Hst).
      unfold cell in Hst. rewrite He in Hst. cbn in Hst. congruence.
  - split; [done|]. intros k' tx'. rewrite decide_False; [done|]. intros (-> & -> & Hst).
    unfold cell in Hst. by rewrite He in Hst.
Qed.

Lemma CleanupEstimate_spec s tx keys :
  wfStore s ->
  wfStore (CleanupEstimate s tx keys) /\
  forall k' tx', cell (CleanupEstimate s tx keys) k' tx'
    = if decide (k' ∈ keys /\ tx' = tx /\ stale (cell s k' tx') = true) then None else cell s k' tx'.
Proof.
  unfold CleanupEstimate. revert s. induction keys as [|k keys IH]; intros s Hwf; cbn [fold_left].
  - split; [done|]. intros k' tx'. rewrite decide_False; [done|]. intros [H _]. by apply not_elem_of_nil in H.
  - destruct (cleanupKey_spec tx s k Hwf) as [H1 H2]. destruct (IH _ H1) as [H3 H4]. split; [done|].
    intros k' tx'. rewrite H4, H2. destruct (decide (k' = k /\ tx' = tx /\ stale (cell s k' tx') = true)) as [(-> & -> & Hst)|Hn].
    + rewrite (decide_True (P := k ∈ k :: keys /\ _)) by (split; [by constructor|done]). by case_decide.
    + destruct (decide (k' ∈ keys /\ tx' = tx /\ stale (cell s k' tx') = true)) as [(? & -> & ?)|Hn'].
      * rewrite decide_True by (split; [by constructor|done]). done.
      * rewrite decide_False; [done|]. intros (Hin & -> & ?). apply elem_of_cons in Hin as [->|Hin]; tauto.
Qed.

(** ** The abstract store

    A plain map from a key and a transaction to the incarnation, the value and the
    estimate flag of what the transaction published. *)

Abbreviation Versions := (gmap (Key * Z) (Z * Value * bool)) (only parsing).

Definition entryOf (tx : Z) (v : Z * Value * bool) : versionedEntry :=
  let '(inc, val, est) := v in mkEntry tx inc val est.

(** A read of [k] by transaction [tx]: the version of the latest earlier writer. *)
Inductive reads (m : Versions) (k : Key) (tx : Z) : ReadResult -> Prop :=
| reads_none : (forall j, j < tx -> m !! (k, j) = None) -> reads m k tx notFound
| reads_some j inc v est :
    j < tx -> m !! (k, j) = Some (inc, v, est) ->
    (forall j', j < j' < tx -> m !! (k, j') = None) ->
    reads m k tx (mkRead (Some v) j inc true est).

Definition refines (s : MVStore) (m : Versions) : Prop :=
  wfStore s /\ forall k tx, cell s k tx = entryOf tx <$> m !! (k, tx).

Definition markAbs (tx : Z) (m : Versions) (k : Key) : Versions :=
  alter (fun v => let '(inc, val, _) := v in (inc, val, true)) (k, tx) m.

Definition cleanAbs (tx : Z) (m : Versions) (k : Key) : Versions :=
  match m !! (k, tx) with
  | Some (_, _, true) => delete (k, tx) m
  | _ => m
  end.

Lemma read_cells s k tx :
  wfStore s ->
  match searchTx txIdx (entriesOf s k) tx with
  | O => forall j, j < tx -> cell s k j = None
  | S p => exists e, entriesOf s k !! p = Some e /\ cell s k (txIdx e) = Some e /\ txIdx e < tx /\
             forall j, txIdx e < j < tx -> cell s k j = None
  end.
Proof.
  intros Hwf. pose proof (wf_sorted _ Hwf k) as Hs. pose proof (search_latest txIdx _ tx Hs) as H.
  destruct (searchTx txIdx (entriesOf s k) tx) as [|p].
  - intros j Hj. apply entryAt_None; [done|]. intros e He Heq. apply H in He. lia.
  - destruct H as (e & He & Hin & Hlt & Hmax). exists e. split_and!; [done| |done|].
    + by apply entryAt_Some.
    + intros j Hj. apply entryAt_None; [done|]. intros e' He' Heq. specialize (Hmax e' He'). lia.
Qed.

Lemma ReadVersionFull_reads s m k tx : refines s m -> reads m k tx (ReadVersionFull s k tx).
Proof.
  intros [Hwf Hm]. unfold ReadVersionFull. destruct (mayContain (bloom s) k) eqn:Hb; cbn [negb].
  - pose proof (read_cells s k tx Hwf) as H. destruct (searchTx txIdx (entriesOf s k) tx) as [|p].
    + apply reads_none. intros j Hj. specialize (H j Hj). rewrite Hm in H. by destruct (m !! (k, j)).
    + destruct H as ([i inc0 v0 est0] & -> & Hc & Hlt & Hmax). cbn [txIdx] in *. rewrite Hm in Hc.
      destruct (m !! (k, i)) as [[[inc v] est]|] eqn:Em; [|done]. cbn in Hc. injection Hc as <- <- <-.
      apply reads_some; [done..|]. intros j' Hj'. specialize (Hmax j' Hj'). rewrite Hm in Hmax.
      by destruct (m !! (k, j')).
  - apply reads_none. intros j Hj. specialize (Hm k j). unfold cell in Hm.
    destruct (decide (entriesOf s k = [])) as [Hn|Hn].
    + rewrite Hn in Hm. by destruct (m !! (k, j)).
    + apply (wf_filter _ Hwf) in Hn. congruence.
Qed.

(** A read has one answer. *)
Lemma reads_det m k tx r r' : reads m k tx r -> reads m k tx r' -> r = r'.
Proof.
  intros [H|j inc v est Hj Hm Hmax] [H'|j' inc' v' est' Hj' Hm' Hmax']; [done| | |].
  - by rewrite (H j' Hj') in Hm'.
  - by rewrite (H' j Hj) in Hm.
  - destruct (Z.lt_trichotomy j j') as [Hlt|[->|Hgt]].
    + by rewrite (Hmax j' ltac:(lia)) in Hm'.
    + congruence.
    + by rewrite (Hmax' j ltac:(lia)) in Hm.
Qed.

Lemma WriteInc_refines s m k tx inc v :
  refines s m -> refines (WriteInc s k tx inc v) (<[(k, tx) := (inc, v, false)]> m).
Proof.
  intros [Hwf Hm]. destruct (WriteInc_spec s k tx inc v Hwf) as [Hwf' Hc]. split; [done|].
  intros k' tx'. rewrite Hc. destruct (decide (k' = k /\ tx' = tx)) as [[-> ->]|Hn].
  - by rewrite lookup_insert_eq.
  - rewrite lookup_insert_ne by (intros [= -> ->]; tauto). apply Hm.
Qed.

Lemma Delete_refines s m k tx : refines s m -> refines (Delete s k tx) (delete (k, tx) m).
Proof.
  intros [Hwf Hm]. destruct (Delete_spec s k tx Hwf) as [Hwf' Hc]. split; [done|].
  intros k' tx'. rewrite Hc. destruct (decide (k' = k /\ tx' = tx)) as [[-> ->]|Hn].
  - by rewrite lookup_delete_eq.
  - rewrite lookup_delete_ne by (intros [= -> ->]; tauto). apply Hm.
Qed.

Lemma markKey_refines tx s m k : refines s m -> refines (markKey tx s k) (markAbs tx m k).
Proof.
  intros [Hwf Hm]. destruct (markKey_spec tx s k Hwf) as [Hwf' Hc]. split; [done|].
  intros k' tx'. rewrite Hc, !Hm. unfold markAbs. destruct (decide (k' = k /\ tx' = tx)) as [[-> ->]|Hn].
  - rewrite lookup_alter_eq. by destruct (m !! (k, tx)) as [[[? ?] ?]|].
  - rewrite lookup_alter_ne by (intros [= -> ->]; tauto). done.
Qed.

Lemma cleanupKey_refines tx s m k : refines s m -> refines (cleanupKey tx s k) (cleanAbs tx m k).
Proof.
  intros [Hwf Hm]. destruct (cleanupKey_spec tx s k Hwf) as [Hwf' Hc]. split; [done|].
  intros k' tx'. rewrite Hc. unfold cleanAbs.
  destruct (decide (k' = k /\ tx' = tx)) as [[-> ->]|Hn].
  - rewrite Hm. destruct (m !! (k, tx)) as [[[inc v] []]|] eqn:Em; cbn.
    + rewrite decide_True by done. by rewrite lookup_delete_eq.
    + rewrite decide_False by (intros (_ & _ & ?); done). by rewrite Em.
    + rewrite decide_False by (intros (_ & _ & ?); done). by rewrite Em.
  - rewrite decide_False by tauto. rewrite Hm. destruct (m !! (k, tx)) as [[[inc v] []]|]; [|done..].
    rewrite lookup_delete_ne; [done|]. intros [= -> ->]. tauto.
Qed.

Lemma fold_refines (f : MVStore -> Key -> MVStore) (g : Versions -> Key -> Versions) keys s m :
  (forall s m k, refines s m -> refines (f s k) (g m k)) ->
  refines s m -> refines (fold_left f keys s) (fold_left g keys m).
Proof. intros Hf. revert s m. induction keys as [|k keys IH]; cbn; auto. Qed.

Lemma NewMVStore_refines : refines NewMVStore ∅.
Proof.
  split; [apply NewMVStore_wf|]. intros k tx. rewrite lookup_empty. unfold cell, entriesOf, NewMVStore. cbn [shards].
  rewrite lookup_replicate_2 by apply shardOf_range. cbn. by rewrite lookup_empty.
Qed.

(** C15: the sharded, filtered store of sorted slices implements a map from (key,
    transaction) to (incarnation, value, estimate).  It starts empty; [WriteInc],
    [Delete], [MarkEstimate] and [CleanupEstimate] are an insertion, a deletion,
    setting the flag and deleting what is still flagged; [ReadVersionFull] answers
    with the version of the latest earlier transaction, or a miss when there is none
    (so neither the filter nor the binary search ever hides a version), and
    [IsEstimate] with the flag. *)
Theorem MVStore_refines s m k tx inc v keys :
  refines s m ->
  refines NewMVStore ∅ /\
  refines (WriteInc s k tx inc v) (<[(k, tx) := (inc, v, false)]> m) /\
  refines (Delete s k tx) (delete (k, tx) m) /\
  refines (MarkEstimate s tx keys) (fold_left (markAbs tx) keys m) /\
  refines (CleanupEstimate s tx keys) (fold_left (cleanAbs tx) keys m) /\
  (forall r, reads m k tx r <-> ReadVersionFull s k tx = r) /\
  IsEstimate s k tx = match m !! (k, tx) with Some (_, _, est) => est | None => false end.
Proof.
  intros Hr. split_and!.
  - apply NewMVStore_refines.
  - by apply WriteInc_refines.
  - by apply Delete_refines.
  - apply fold_refines; [intros; by apply markKey_refines|done].
  - apply fold_refines; [intros; by apply cleanupKey_refines|done].
  - intros r. pose proof (ReadVersionFull_reads s m k tx Hr) as H. split; [|by intros <-].
    intros H'. by apply (reads_det m k tx).
  - destruct Hr as [Hwf Hm]. unfold IsEstimate. specialize (Hm k tx). unfold cell in Hm. rewrite Hm.
    by destruct (m !! (k, tx)) as [[[? ?] ?]|].
Qed.

Definition demoKey : Key := NewStateKey 7 9.

Definition demoStore : MVStore :=
  WriteInc (WriteInc (WriteInc NewMVStore demoKey 4 0 (VHash 40)) demoKey 1 0 (VHash 10)) demoKey 2 1 (VHash 20).

Lemma MVStore_refines_witness :
  ReadVersionFull demoStore demoKey 4 = mkRead (Some (VHash 20)) 2 1 true false /\
  reads (<[(demoKey, 2) := (1, VHash 20, false)]> (<[(demoKey, 1) := (0, VHash 10, false)]>
          (<[(demoKey, 4) := (0, VHash 40, false)]> ∅)))
        demoKey 4 (mkRead (Some (VHash 20)) 2 1 true false).
Proof.
  split; [vm_compute; reflexivity|].
  apply (MVStore_refines demoStore _ demoKey 4 0 (VHash 0) []).
  - unfold demoStore. apply WriteInc_refines, WriteInc_refines, WriteInc_refines, NewMVStore_refines.
  - vm_compute. reflexivity.
Defined.

(** ** Balance deltas *)

Lemma balShardOf_range a : (balShardOf a < Z.to_nat mvBalanceShards)%nat.
Proof.
  unfold balShardOf, mvBalanceShards.
  pose proof (Z.mod_pos_bound (addrShardIndex (be_bytes AddressLength a)) 64 ltac:(lia)). lia.
Qed.

Record wfBals (s : MVBalanceStore) : Prop := {
  wfb_shards : length (balShards s) = Z.to_nat mvBalanceShards;
  wfb_sorted : forall a, sorted TxIdx (deltasOf s a);
  wfb_nonneg : forall a e, e ∈ deltasOf s a -> 0 <= TxIdx e
}.

(** What a transaction contributed to a balance. *)
Definition delta (s : MVBalanceStore) (a tx : Z) : option BalanceDelta :=
  entryAt TxIdx (deltasOf s a) tx.

Lemma deltasOf_setDeltas s a es a' :
  length (balShards s) = Z.to_nat mvBalanceShards ->
  deltasOf (setDeltas s a es) a' = if decide (a' = a) then es else deltasOf s a'.
Proof.
  intros Hlen. unfold deltasOf, setDeltas. cbn [balShards].
  destruct (decide (balShardOf a = balShardOf a')) as [Heq|Hne].
  - rewrite <- Heq, list_lookup_alter_eq.
    destruct (lookup_lt_is_Some_2 (balShards s) (balShardOf a)) as [m Hm]; [rewrite Hlen; apply balShardOf_range|].
    rewrite Hm. cbn. destruct (decide (a' = a)) as [->|]; [by rewrite lookup_insert_eq|by rewrite lookup_insert_ne].
  - rewrite list_lookup_alter_ne by done. rewrite decide_False; [done|]. by intros ->.
Qed.

Lemma setDeltas_wf s a es :
  wfBals s -> sorted TxIdx es -> (forall e, e ∈ es -> 0 <= TxIdx e) -> wfBals (setDeltas s a es).
Proof.
  intros [H1 H2 H3] Hs Hn. split; [unfold setDeltas; cbn; by rewrite length_alter| |];
    intros a'; rewrite deltasOf_setDeltas by done; case_decide; [done|done|done|apply H3].
Qed.

Lemma NewMVBalanceStore_wf : wfBals NewMVBalanceStore.
Proof.
  split; [apply length_replicate| |]; intros a; unfold deltasOf, NewMVBalanceStore; cbn [balShards];
    rewrite lookup_replicate_2 by apply balShardOf_range; cbn; rewrite lookup_empty; [constructor|].
  intros e He. by apply not_elem_of_nil in He.
Qed.

(** The entry a write leaves. *)
Definition added (o : option BalanceDelta) (tx : Z) (add sub : option Z) : BalanceDelta :=
  match o with
  | Some e => mkDelta (TxIdx e) (u256 (Add e + default 0 add)) (u256 (Sub e + default 0 sub))
  | None => mkDelta tx (default 0 add) (default 0 sub)
  end.

Lemma setDeltas_put s a tx e :
  wfBals s -> TxIdx e = tx -> 0 <= tx ->
  wfBals (setDeltas s a (put TxIdx (deltasOf s a) tx e)) /\
  forall a' tx', delta (setDeltas s a (put TxIdx (deltasOf s a) tx e)) a' tx'
    = if decide (a' = a /\ tx' = tx) then Some e else delta s a' tx'.
Proof.
  intros Hwf He Htx. split.
  { apply setDeltas_wf; [done|apply put_sorted; [apply Hwf|done]|]. intros x Hx.
    destruct (put_shape TxIdx (deltasOf s a) tx e (wfb_sorted _ Hwf a) He) as (l & r & Heq & _ & Hin).
    rewrite Heq in Hx. apply elem_of_app in Hx as [Hx|Hx]; [|apply elem_of_cons in Hx as [->|Hx]]; [|lia|];
      apply (wfb_nonneg _ Hwf a); apply (Hin x), elem_of_app; auto. }
  intros a' tx'. unfold delta. rewrite deltasOf_setDeltas by apply Hwf.
  destruct (decide (a' = a)) as [->|Hk].
  - rewrite put_entryAt by (done || apply Hwf). destruct (decide (tx' = tx)); [by rewrite decide_True|].
    rewrite decide_False by tauto. done.
  - rewrite decide_False by tauto. done.
Qed.

Lemma WriteDelta_spec s a tx add sub :
  wfBals s -> 0 <= tx ->
  wfBals (WriteDelta s a tx add sub) /\
  forall a' tx', delta (WriteDelta s a tx add sub) a' tx'
    = if decide (a' = a /\ tx' = tx) then Some (added (delta s a tx) tx add sub) else delta s a' tx'.
Proof.
  intros Hwf Htx.
  assert (Hi : TxIdx (added (delta s a tx) tx add sub) = tx).
  { unfold delta. destruct (entryAt TxIdx (deltasOf s a) tx) as [e|] eqn:He; [|done].
    apply entryAt_Some in He; [|apply Hwf]. by destruct He. }
  assert (Heq : WriteDelta s a tx add sub
                = setDeltas s a (put TxIdx (deltasOf s a) tx (added (delta s a tx) tx add sub))).
  { unfold WriteDelta, put, delta. by destruct (entryAt TxIdx (deltasOf s a) tx). }
  rewrite Heq. by apply setDeltas_put.
Qed.

Lemma zeroKey_spec tx s a :
  wfBals s ->
  wfBals (zeroKey tx s a) /\
  forall a' tx', delta (zeroKey tx s a) a' tx'
    = if decide (a' = a /\ tx' = tx) then (fun _ => mkDelta tx 0 0) <$> delta s a' tx' else delta s a' tx'.
Proof.
  intros Hwf. unfold zeroKey. destruct (entryAt TxIdx (deltasOf s a) tx) as [e|] eqn:He.
  - pose proof (proj1 (entryAt_Some TxIdx _ tx e (wfb_sorted _ Hwf a)) He) as [Hin Hi].
    pose proof (wfb_nonneg _ Hwf a e Hin) as Hnn. rewrite Hi.
    assert (Heq : <[searchTx TxIdx (deltasOf s a) tx := mkDelta tx 0 0]> (deltasOf s a)
                  = put TxIdx (deltasOf s a) tx (mkDelta tx 0 0)) by (unfold put; by rewrite He).
    rewrite Heq. destruct (setDeltas_put s a tx (mkDelta tx 0 0) Hwf eq_refl ltac:(lia)) as [H1 H2].
    split; [done|]. intros a' tx'. rewrite H2. case_decide as Hd; [|done]. destruct Hd as [-> ->].
    unfold delta. by rewrite He.
  - split; [done|]. intros a' tx'. case_decide as Hd; [|done]. destruct Hd as [-> ->]. unfold delta. by rewrite He.
Qed.

Lemma ZeroDelta_spec s tx addrs :
  wfBals s ->
  wfBals (ZeroDelta s tx addrs) /\
  forall a' tx', delta (ZeroDelta s tx addrs) a' tx'
    = if decide (a' ∈ addrs /\ tx' = tx) then (fun _ => mkDelta tx 0 0) <$> delta s a' tx' else delta s a' tx'.
Proof.
  unfold ZeroDelta. revert s. induction addrs as [|a addrs IH]; intros s Hwf; cbn [fold_left].
  - split; [done|]. intros a' tx'. rewrite decide_False; [done|]. intros [H _]. by apply not_elem_of_nil in H.
  - destruct (zeroKey_spec tx s a Hwf) as [H1 H2]. destruct (IH _ H1) as [H3 H4]. split; [done|].
    intros a' tx'. rewrite H4, H2. destruct (decide (a' = a /\ tx' = tx)) as [[-> ->]|Hn].
    + rewrite (decide_True (P := a ∈ a :: addrs /\ tx = tx)) by (split; [by constructor|done]).
      case_decide; [|done]. by destruct (delta s a tx).
    + destruct (decide (a' ∈ addrs /\ tx' = tx)) as [[? ->]|Hn'].
      * rewrite decide_True by (split; [by constructor|done]). done.
      * rewrite decide_False; [done|]. intros [Hin ->]. apply elem_of_cons in Hin as [->|Hin]; tauto.
Qed.

Lemma DeleteSingle_spec s a tx :
  wfBals s ->
  wfBals (DeleteSingle s a tx) /\
  forall a' tx', delta (DeleteSingle s a tx) a' tx' = if decide (a' = a /\ tx' = tx) then None else delta s a' tx'.
Proof.
  intros Hwf. unfold DeleteSingle. destruct (entryAt TxIdx (deltasOf s a) tx) as [e|] eqn:He.
  - destruct (remove_spec TxIdx (deltasOf s a) tx e (wfb_sorted _ Hwf a) He) as [Hs Hc].
    split.
    { apply setDeltas_wf; [done..|]. intros x Hx. apply (wfb_nonneg _ Hwf a). unfold removeSlice in Hx.
      apply elem_of_app in Hx as [Hx|Hx].
      - apply elem_of_take in Hx as (i & Hi & _). by apply list_elem_of_lookup_2 in Hi.
      - apply list_elem_of_lookup in Hx as [i Hi]. rewrite lookup_drop in Hi. by apply list_elem_of_lookup_2 in Hi. }
    intros a' tx'. unfold delta. rewrite deltasOf_setDeltas by apply Hwf.
    destruct (decide (a' = a)) as [->|Hk].
    + rewrite Hc. destruct (decide (tx' = tx)); [by rewrite decide_True|]. rewrite decide_False by tauto. done.
    + rewrite decide_False by tauto. done.
  - split; [done|]. intros a' tx'. case_decide as Hd; [|done]. destruct Hd as [-> ->]. unfold delta. by rewrite He.
Qed.

(** ** What a reader of a balance sees *)

(** The sum of [f] over the transactions below [n]. *)
Fixpoint sumTo (n : nat) (f : Z -> Z) : Z :=
  match n with
  | O => 0
  | S n' => sumTo n' f + f (Z.of_nat n')
  end.

Lemma sumTo_ext n f g : (forall j, (0 <= j < Z.of_nat n) -> f j = g j) -> sumTo n f = sumTo n g.
Proof.
  induction n as [|n IH]; intros H; cbn [sumTo]; [done|].
  rewrite IH by (intros j Hj; apply H; lia). by rewrite (H (Z.of_nat n)) by lia.
Qed.

Definition addsOf (s : MVBalanceStore) (a j : Z) : Z := match delta s a j with Some e => Add e | None => 0 end.
Definition subsOf (s : MVBalanceStore) (a j : Z) : Z := match delta s a j with Some e => Sub e | None => 0 end.

Lemma u256_add_l x y : u256 (u256 x + y) = u256 (x + y).
Proof. unfold u256. by rewrite Zplus_mod_idemp_l. Qed.

Lemma u256_idem x : u256 (u256 x) = u256 x.
Proof. unfold u256. apply Zmod_mod. Qed.

Lemma sumBelow_app l r tx x y :
  (forall e, e ∈ r -> tx <= TxIdx e) -> (forall e, e ∈ l -> TxIdx e < tx) ->
  sumBelow (l ++ r) tx x y
  = fold_left (fun p e => (u256 (p.1 + Add e), u256 (p.2 + Sub e))) l (x, y).
Proof.
  revert x y. induction l as [|e l IH]; intros x y Hr Hl; cbn [app sumBelow fold_left].
  - destruct r as [|e r]; [done|]. cbn [sumBelow].
    rewrite (proj2 (Z.leb_le _ _)) by (apply Hr; by constructor). done.
  - rewrite (proj2 (Z.leb_gt _ _)) by (apply Hl; by constructor).
    rewrite IH; [done|done|]. intros e' He'. apply Hl. by constructor.
Qed.

Lemma ReadDelta_sum s a n :
  wfBals s ->
  ReadDelta s a (Z.of_nat n) = (u256 (sumTo n (addsOf s a)), u256 (sumTo n (subsOf s a))).
Proof.
  intros Hwf. unfold ReadDelta. pose proof (wfb_sorted _ Hwf a) as Hs. induction n as [|n IH].
  - destruct (deltasOf s a) as [|e es] eqn:E; [done|]. cbn [sumBelow sumTo].
    rewrite (proj2 (Z.leb_le _ _)); [done|]. apply (wfb_nonneg _ Hwf a). rewrite E. constructor.
  - cbn [sumTo]. unfold addsOf at 2, subsOf at 2, delta.
    destruct (slice_cases TxIdx (deltasOf s a) (Z.of_nat n) Hs) as (l & r & Hl & Hr & _ & [(Heq & ->)|(e & Heq & He & ->)]);
      rewrite Heq in IH |- *.
    + rewrite sumBelow_app in IH |- *; [|intros e He; specialize (Hr e He) || specialize (Hl e He); lia..].
      rewrite !Z.add_0_r. exact IH.
    + rewrite sumBelow_app in IH; [| |done].
      2:{ intros x Hx. apply elem_of_cons in Hx as [->|Hx]; [lia|]. specialize (Hr x Hx). lia. }
      change (l ++ e :: r) with (l ++ [e] ++ r). rewrite app_assoc, sumBelow_app.
      2:{ intros x Hx. specialize (Hr x Hx). lia. }
      2:{ intros x Hx. apply elem_of_app in Hx as [Hx|Hx]; [specialize (Hl x Hx); lia|].
          apply list_elem_of_singleton in Hx as ->. lia. }
      rewrite fold_left_app, IH. cbn. by rewrite !u256_add_l.
Qed.

(** One call of [WriteDelta]. *)
Record Credit : Type := mkCredit { cAddr : Z; cTx : Z; cAdd : option Z; cSub : option Z }.

Definition applyCredits (s : MVBalanceStore) (l : list Credit) : MVBalanceStore :=
  fold_left (fun s c => WriteDelta s (cAddr c) (cTx c) (cAdd c) (cSub c)) l s.

(** The exact sums of the calls of transactions below [n] for an address. *)
Definition creditsBelow (f : Credit -> option Z) (l : list Credit) (a n : Z) : Z :=
  fold_right (fun c z => (if (cAddr c =? a) && (cTx c <? n) then default 0 (f c) else 0) + z) 0 l.

Lemma sumTo_update n f g tx x :
  0 <= tx -> (forall j, j <> tx -> g j = f j) -> u256 (g tx) = u256 (f tx + x) ->
  u256 (sumTo n g) = u256 (sumTo n f + (if tx <? Z.of_nat n then x else 0)).
Proof.
  intros Htx Hne Heq. induction n as [|n IH]; cbn [sumTo].
  { rewrite (proj2 (Z.ltb_ge _ _)) by lia. done. }
  destruct (decide (tx = Z.of_nat n)) as [->|Hn].
  - rewrite (proj2 (Z.ltb_lt _ _)) by lia. rewrite (proj2 (Z.ltb_ge _ _)) in IH by lia. rewrite Z.add_0_r in IH.
    rewrite <- u256_add_l, IH, u256_add_l. rewrite Z.add_comm, <- u256_add_l, Heq, u256_add_l. f_equal. lia.
  - rewrite (Hne (Z.of_nat n)) by done. rewrite <- u256_add_l, IH, u256_add_l. f_equal.
    destruct (Z.ltb_spec tx (Z.of_nat n)), (Z.ltb_spec tx (Z.of_nat (S n))); lia.
Qed.

Lemma credits_sum s l a n :
  wfBals s -> (forall c, c ∈ l -> 0 <= cTx c) ->
  wfBals (applyCredits s l) /\
  u256 (sumTo n (addsOf (applyCredits s l) a)) = u256 (sumTo n (addsOf s a) + creditsBelow cAdd l a (Z.of_nat n)) /\
  u256 (sumTo n (subsOf (applyCredits s l) a)) = u256 (sumTo n (subsOf s a) + creditsBelow cSub l a (Z.of_nat n)).
Proof.
  revert s. induction l as [|[ca ct cd cs] l IH]; intros s Hwf Hl; cbn [applyCredits fold_left creditsBelow fold_right].
  { split; [done|]. by rewrite !Z.add_0_r. }
  cbn [cAddr cTx cAdd cSub]. assert (Hct : 0 <= ct) by (apply (Hl (mkCredit ca ct cd cs)); constructor).
  destruct (WriteDelta_spec s ca ct cd cs Hwf Hct) as [Hwf' Hd].
  destruct (IH (WriteDelta s ca ct cd cs) Hwf') as (H1 & H2 & H3).
  { intros c Hc. apply Hl. by constructor. }
  split; [done|]. unfold applyCredits in H2, H3. rewrite H2, H3. unfold creditsBelow.
  destruct (Z.eqb_spec ca a) as [->|Hne]; cbn [andb].
  - split; rewrite <- u256_add_l.
    + rewrite (sumTo_update n (addsOf s a) (addsOf (WriteDelta s a ct cd cs) a) ct (default 0 cd) Hct), u256_add_l.
      * by rewrite Z.add_assoc.
      * intros j Hj. unfold addsOf. rewrite Hd, decide_False by tauto. done.
      * unfold addsOf. rewrite Hd, decide_True by done.
        destruct (delta s a ct); cbn [added Add]; [apply u256_idem|done].
    + rewrite (sumTo_update n (subsOf s a) (subsOf (WriteDelta s a ct cd cs) a) ct (default 0 cs) Hct), u256_add_l.
      * by rewrite Z.add_assoc.
      * intros j Hj. unfold subsOf. rewrite Hd, decide_False by tauto. done.
      * unfold subsOf. rewrite Hd, decide_True by done.
        destruct (delta s a ct); cbn [added Sub]; [apply u256_idem|done].
  - cbn. rewrite (sumTo_ext n (addsOf _ a) (addsOf s a)), (sumTo_ext n (subsOf _ a) (subsOf s a)); [done|..];
      intros j _; unfold addsOf, subsOf; rewrite Hd, decide_False by (intros [-> _]; done); done.
Qed.

(** Balance deltas commute.  After any sequence of [WriteDelta] calls, in any
    order and with any transaction writing several times, a reader of an address
    gets the sums, modulo 2^256, of what the calls of earlier transactions for that
    address added and subtracted, and nothing else. *)
Theorem ReadDelta_credits l a n :
  (forall c, c ∈ l -> 0 <= cTx c) ->
  ReadDelta (applyCredits NewMVBalanceStore l) a (Z.of_nat n)
  = (u256 (creditsBelow cAdd l a (Z.of_nat n)), u256 (creditsBelow cSub l a (Z.of_nat n))).
Proof.
  intros Hl. destruct (credits_sum NewMVBalanceStore l a n NewMVBalanceStore_wf Hl) as (Hwf & H1 & H2).
  rewrite ReadDelta_sum, H1, H2 by done.
  assert (Hz : forall j, delta NewMVBalanceStore a j = None).
  { intros j. unfold delta, deltasOf, NewMVBalanceStore. cbn [balShards].
    rewrite lookup_replicate_2 by apply balShardOf_range. cbn. by rewrite lookup_empty. }
  assert (Hs : forall f, (forall j, f j = 0) -> sumTo n f = 0).
  { intros f Hf. clear -Hf. induction n as [|n IH]; cbn; [done|]. rewrite IH, Hf. lia. }
  rewrite !Hs; [done| |]; intros j; unfold addsOf, subsOf; by rewrite Hz.
Qed.

Lemma ReadDelta_credits_witness :
  ReadDelta (applyCredits NewMVBalanceStore
    [mkCredit 5 2 (Some 30) None; mkCredit 5 0 (Some 1) (Some 4); mkCredit 5 3 (Some 100) None; mkCredit 5 2 None (Some 6)]) 5 3
  = (31, 10).
Proof.
  change 3 with (Z.of_nat 3) at 2. rewrite ReadDelta_credits; [reflexivity|].
  intros c Hc. repeat (apply elem_of_cons in Hc as [->|Hc]; [cbn; lia|]). by apply not_elem_of_nil in Hc.
Defined.

End MvStoreProps.
