(* ===== verification/ParallelState.v ===== *)
(** * The state of a transaction executed in parallel

    core/state/parallel_statedb.go, parallel_statedb_journal.go,
    parallel_statedb_validate.go, access_list.go, transient_storage.go: the
    [ParallelStateDB] a transaction runs on.  It keeps the writes of the transaction
    to itself, reads what earlier transactions published from the multi-version
    store and what the block started from, and records every such read, so that it
    can be checked again when the earlier transactions are final.

    Another transaction may publish between any two reads.  So an operation is not a
    function of the store: it is a tree [tm] of the accesses it makes, and whoever
    runs it answers each access from the store of that moment. *)

From S2P Require Import Prelude Bytes MvStore.
Import MvStore.

Module ParallelState.

(** ** Accesses to the shared stores *)

Inductive tm (A : Type) : Type :=
| TRet (a : A)
| TRead (k : Key) (c : ReadResult -> tm A)       (* store.ReadVersionFull(k, TxIndex) *)
| TDelta (a : Z) (c : Z * Z -> tm A)             (* bals.ReadDelta(a, TxIndex) *)
| TWait (j : Z) (c : tm A)                       (* WaitForFinal(j) *)
| TIsEst (k : Key) (j : Z) (c : bool -> tm A)    (* store.IsEstimate(k, j) *)
| TDel (k : Key) (j : Z) (c : tm A)              (* store.Delete(k, j) *)
| TWrite (k : Key) (v : Value) (c : tm A).       (* store.WriteInc(k, TxIndex, Incarnation, v) *)
Arguments TRet {A} a.
Arguments TRead {A} k c.
Arguments TDelta {A} a c.
Arguments TWait {A} j c.
Arguments TIsEst {A} k j c.
Arguments TDel {A} k j c.
Arguments TWrite {A} k v c.

Fixpoint tmBind {A B} (t : tm A) (f : A -> tm B) : tm B :=
  match t with
  | TRet a => f a
  | TRead k c => TRead k (fun r => tmBind (c r) f)
  | TDelta a c => TDelta a (fun r => tmBind (c r) f)
  | TWait j c => TWait j (tmBind c f)
  | TIsEst k j c => TIsEst k j (fun b => tmBind (c b) f)
  | TDel k j c => TDel k j (tmBind c f)
  | TWrite k v c => TWrite k v (tmBind c f)
  end.

(** ** Data *)

Record StoreReadDesc : Type := mkStoreRead {
  rdKey : Key;
  rdWriterIdx : Z;
  rdWriterInc : Z;
  rdStoreVal : option Value;
  rdExactWriter : bool
}.

Record BalReadDesc : Type := mkBalRead { brAddr : Z; brAdd : Z; brSub : Z }.

Record BalanceOp : Type := mkBalanceOp { boAddr : Z; boAmount : Z; boIsAdd : bool }.

Record TransferRecord : Type := mkTransfer {
  trSender : Z; trRecipient : Z; trAmount : Z; LogIdx : nat; BalanceOpsIdx : nat
}.

(** access_list.go: an address maps to the index of its slots, -1 for none. *)
Record accessList : Type := mkAccess { alAddresses : gmap Z Z; alSlots : list (gset Z) }.

Definition newAccessList : accessList := mkAccess ∅ [].

Definition ContainsAddress (al : accessList) (a : Z) : bool := bool_decide (is_Some (alAddresses al !! a)).

Definition Contains (al : accessList) (a slot : Z) : bool * bool :=
  match alAddresses al !! a with
  | None => (false, false)
  | Some idx => if idx =? -1 then (true, false)
                else (true, bool_decide (slot ∈ nth (Z.to_nat idx) (alSlots al) ∅))
  end.

Definition AddAddress (al : accessList) (a : Z) : accessList * bool :=
  match alAddresses al !! a with
  | Some _ => (al, false)
  | None => (mkAccess (<[a := -1]> (alAddresses al)) (alSlots al), true)
  end.

Definition AddSlot (al : accessList) (a slot : Z) : accessList * bool * bool :=
  let fresh addrChange :=
    (mkAccess (<[a := Z.of_nat (length (alSlots al))]> (alAddresses al)) (alSlots al ++ [{[slot]}]), addrChange, true) in
  match alAddresses al !! a with
  | None => fresh true
  | Some idx =>
      if idx =? -1 then fresh false
      else if bool_decide (slot ∈ nth (Z.to_nat idx) (alSlots al) ∅) then (al, false, false)
      else (mkAccess (alAddresses al) (alter (fun m => {[slot]} ∪ m) (Z.to_nat idx) (alSlots al)), false, true)
  end.

(** transient_storage.go: setting zero deletes. *)
Definition transientSet (t : gmap Z (gmap Z Z)) (a k v : Z) : gmap Z (gmap Z Z) :=
  if v =? 0 then
    match t !! a with
    | Some m => let m' := delete k m in if bool_decide (m' = ∅) then delete a t else <[a := m']> t
    | None => t
    end
  else <[a := <[k := v]> (default ∅ (t !! a))]> t.

Definition transientGet (t : gmap Z (gmap Z Z)) (a k : Z) : Z :=
  match t !! a with Some m => default 0 (m !! k) | None => 0 end.

(** parallelJournalEntry: the flags say whether there was a value before, or whether
    the balance went up. *)
Inductive journalEntry : Type :=
| jkNonce (addr : Z) (had : bool) (prevU : Z)
| jkStorage (addr key : Z) (had : bool) (prev : Z)
| jkBalance (addr : Z) (isAdd : bool) (amt : Z)
| jkRefund (prevU : Z)
| jkLog (prevU : Z)
| jkCreate (addr : Z)
| jkDestruct (addr : Z)
| jkCode (addr : Z) (had : bool) (code : list Z)
| jkTransient (addr key prev : Z)
| jkAccessAddr (addr : Z)
| jkAccessSlot (addr key : Z).

Record revision : Type := mkRevision {
  revId : Z; journalIdx : nat; balanceOpsIdx : nat; logsIdx : nat; transfersIdx : nat
}.

(** What applying a message leaves on the state: gas, the failure flag and the fees. *)
Record TxResult : Type := mkTxResult {
  UsedGas : Z; ExecFailed : bool;
  FeeBurnt : option Z; FeeTipped : option Z; BurntContractAddress : Z; SenderInitBalance : option Z
}.

(** The fields of [ParallelStateDB] that the transaction's own operations determine.
    A log is a number here: its contents are never looked at. *)
Record Local : Type := mkLocal {
  TxIndex : Z;
  SenderNonces : gmap Z Z;
  DeferMVWrites : bool;
  trackReads : bool;
  hasWaitForFinal : bool;
  localNonces : gmap Z Z;
  localStorage : gmap Z (gmap Z Z);
  localCode : gmap Z (list Z);
  localBalAdd : gmap Z Z;
  localBalSub : gmap Z Z;
  BalanceOps : list BalanceOp;
  created : gset Z;
  destructed : gset Z;
  newContract : gset Z;
  refund : Z;
  access : accessList;
  transient : gmap Z (gmap Z Z);
  logs : list Z;
  logSize : Z;
  preimages : gmap Z (list Z);
  journalEntries : list journalEntry;
  validRevisions : list revision;
  nextRevisionId : Z;
  WriteKeys : list Key;
  BalAddrs : list Z;
  balWriteSet : gset Z;
  Transfers : list TransferRecord;
  Coinbase : Z;
  Sender : Z;
  Result : option TxResult;
  ExecErr : option Z;
  Panicked : bool
}.

Definition set_TxIndex (v : Z) (s : Local) : Local :=
  mkLocal v (SenderNonces s) (DeferMVWrites s) (trackReads s) (hasWaitForFinal s) (localNonces s)
    (localStorage s) (localCode s) (localBalAdd s) (localBalSub s) (BalanceOps s) (created s)
    (destructed s) (newContract s) (refund s) (access s) (transient s) (logs s) (logSize s)
    (preimages s) (journalEntries s) (validRevisions s) (nextRevisionId s) (WriteKeys s) (BalAddrs s)
    (balWriteSet s) (Transfers s) (Coinbase s) (Sender s) (Result s) (ExecErr s) (Panicked s).
Definition set_SenderNonces (v : gmap Z Z) (s : Local) : Local :=
  mkLocal (TxIndex s) v (DeferMVWrites s) (trackReads s) (hasWaitForFinal s) (localNonces s)
    (localStorage s) (localCode s) (localBalAdd s) (localBalSub s) (BalanceOps s) (created s)
    (destructed s) (newContract s) (refund s) (access s) (transient s) (logs s) (logSize s)
    (preimages s) (journalEntries s) (validRevisions s) (nextRevisionId s) (WriteKeys s) (BalAddrs s)
    (balWriteSet s) (Transfers s) (Coinbase s) (Sender s) (Result s) (ExecErr s) (Panicked s).
Definition set_DeferMVWrites (v : bool) (s : Local) : Local :=
  mkLocal (TxIndex s) (SenderNonces s) v (trackReads s) (hasWaitForFinal s) (localNonces s)
    (localStorage s) (localCode s) (localBalAdd s) (localBalSub s) (BalanceOps s) (created s)
    (destructed s) (newContract s) (refund s) (access s) (transient s) (logs s) (logSize s)
    (preimages s) (journalEntries s) (validRevisions s) (nextRevisionId s) (WriteKeys s) (BalAddrs s)
    (balWriteSet s) (Transfers s) (Coinbase s) (Sender s) (Result s) (ExecErr s) (Panicked s).
Definition set_trackReads (v : bool) (s : Local) : Local :=
  mkLocal (TxIndex s) (SenderNonces s) (DeferMVWrites s) v (hasWaitForFinal s) (localNonces s)
    (localStorage s) (localCode s) (localBalAdd s) (localBalSub s) (BalanceOps s) (created s)
    (destructed s) (newContract s) (refund s) (access s) (transient s) (logs s) (logSize s)
    (preimages s) (journalEntries s) (validRevisions s) (nextRevisionId s) (WriteKeys s) (BalAddrs s)
    (balWriteSet s) (Transfers s) (Coinbase s) (Sender s) (Result s) (ExecErr s) (Panicked s).
Definition set_hasWaitForFinal (v : bool) (s : Local) : Local :=
  mkLocal (TxIndex s) (SenderNonces s) (DeferMVWrites s) (trackReads s) v (localNonces s)
    (localStorage s) (localCode s) (localBalAdd s) (localBalSub s) (BalanceOps s) (created s)
    (destructed s) (newContract s) (refund s) (access s) (transient s) (logs s) (logSize s)
    (preimages s) (journalEntries s) (validRevisions s) (nextRevisionId s) (WriteKeys s) (BalAddrs s)
    (balWriteSet s) (Transfers s) (Coinbase s) (Sender s) (Result s) (ExecErr s) (Panicked s).
Definition set_localNonces (v : gmap Z Z) (s : Local) : Local :=
  mkLocal (TxIndex s) (SenderNonces s) (DeferMVWrites s) (trackReads s) (hasWaitForFinal s) v
    (localStorage s) (localCode s) (localBalAdd s) (localBalSub s) (BalanceOps s) (created s)
    (destructed s) (newContract s) (refund s) (access s) (transient s) (logs s) (logSize s)
    (preimages s) (journalEntries s) (validRevisions s) (nextRevisionId s) (WriteKeys s) (BalAddrs s)
    (balWriteSet s) (Transfers s) (Coinbase s) (Sender s) (Result s) (ExecErr s) (Panicked s).
Definition set_localStorage (v : gmap Z (gmap Z Z)) (s : Local) : Local :=
  mkLocal (TxIndex s) (SenderNonces s) (DeferMVWrites s) (trackReads s) (hasWaitForFinal s)
    (localNonces s) v (localCode s) (localBalAdd s) (localBalSub s) (BalanceOps s) (created s)
    (destructed s) (newContract s) (refund s) (access s) (transient s) (logs s) (logSize s)
    (preimages s) (journalEntries s) (validRevisions s) (nextRevisionId s) (WriteKeys s) (BalAddrs s)
    (balWriteSet s) (Transfers s) (Coinbase s) (Sender s) (Result s) (ExecErr s) (Panicked s).
Definition set_localCode (v : gmap Z (list Z)) (s : Local) : Local :=
  mkLocal (TxIndex s) (SenderNonces s) (DeferMVWrites s) (trackReads s) (hasWaitForFinal s)
    (localNonces s) (localStorage s) v (localBalAdd s) (localBalSub s) (BalanceOps s) (created s)
    (destructed s) (newContract s) (refund s) (access s) (transient s) (logs s) (logSize s)
    (preimages s) (journalEntries s) (validRevisions s) (nextRevisionId s) (WriteKeys s) (BalAddrs s)
    (balWriteSet s) (Transfers s) (Coinbase s) (Sender s) (Result s) (ExecErr s) (Panicked s).
Definition set_localBalAdd (v : gmap Z Z) (s : Local) : Local :=
  mkLocal (TxIndex s) (SenderNonces s) (DeferMVWrites s) (trackReads s) (hasWaitForFinal s)
    (localNonces s) (localStorage s) (localCode s) v (localBalSub s) (BalanceOps s) (created s)
    (destructed s) (newContract s) (refund s) (access s) (transient s) (logs s) (logSize s)
    (preimages s) (journalEntries s) (validRevisions s) (nextRevisionId s) (WriteKeys s) (BalAddrs s)
    (balWriteSet s) (Transfers s) (Coinbase s) (Sender s) (Result s) (ExecErr s) (Panicked s).
Definition set_localBalSub (v : gmap Z Z) (s : Local) : Local :=
  mkLocal (TxIndex s) (SenderNonces s) (DeferMVWrites s) (trackReads s) (hasWaitForFinal s)
    (localNonces s) (localStorage s) (localCode s) (localBalAdd s) v (BalanceOps s) (created s)
    (destructed s) (newContract s) (refund s) (access s) (transient s) (logs s) (logSize s)
    (preimages s) (journalEntries s) (validRevisions s) (nextRevisionId s) (WriteKeys s) (BalAddrs s)
    (balWriteSet s) (Transfers s) (Coinbase s) (Sender s) (Result s) (ExecErr s) (Panicked s).
Definition set_BalanceOps (v : list BalanceOp) (s : Local) : Local :=
  mkLocal (TxIndex s) (SenderNonces s) (DeferMVWrites s) (trackReads s) (hasWaitForFinal s)
    (localNonces s) (localStorage s) (localCode s) (localBalAdd s) (localBalSub s) v (created s)
    (destructed s) (newContract s) (refund s) (access s) (transient s) (logs s) (logSize s)
    (preimages s) (journalEntries s) (validRevisions s) (nextRevisionId s) (WriteKeys s) (BalAddrs s)
    (balWriteSet s) (Transfers s) (Coinbase s) (Sender s) (Result s) (ExecErr s) (Panicked s).
Definition set_created (v : gset Z) (s : Local) : Local :=
  mkLocal (TxIndex s) (SenderNonces s) (DeferMVWrites s) (trackReads s) (hasWaitForFinal s)
    (localNonces s) (localStorage s) (localCode s) (localBalAdd s) (localBalSub s) (BalanceOps s) v
    (destructed s) (newContract s) (refund s) (access s) (transient s) (logs s) (logSize s)
    (preimages s) (journalEntries s) (validRevisions s) (nextRevisionId s) (WriteKeys s) (BalAddrs s)
    (balWriteSet s) (Transfers s) (Coinbase s) (Sender s) (Result s) (ExecErr s) (Panicked s).
Definition set_destructed (v : gset Z) (s : Local) : Local :=
  mkLocal (TxIndex s) (SenderNonces s) (DeferMVWrites s) (trackReads s) (hasWaitForFinal s)
    (localNonces s) (localStorage s) (localCode s) (localBalAdd s) (localBalSub s) (BalanceOps s)
    (created s) v (newContract s) (refund s) (access s) (transient s) (logs s) (logSize s) (preimages s)
    (journalEntries s) (validRevisions s) (nextRevisionId s) (WriteKeys s) (BalAddrs s) (balWriteSet s)
    (Transfers s) (Coinbase s) (Sender s) (Result s) (ExecErr s) (Panicked s).
Definition set_newContract (v : gset Z) (s : Local) : Local :=
  mkLocal (TxIndex s) (SenderNonces s) (DeferMVWrites s) (trackReads s) (hasWaitForFinal s)
    (localNonces s) (localStorage s) (localCode s) (localBalAdd s) (localBalSub s) (BalanceOps s)
    (created s) (destructed s) v (refund s) (access s) (transient s) (logs s) (logSize s) (preimages s)
    (journalEntries s) (validRevisions s) (nextRevisionId s) (WriteKeys s) (BalAddrs s) (balWriteSet s)
    (Transfers s) (Coinbase s) (Sender s) (Result s) (ExecErr s) (Panicked s).
Definition set_refund (v : Z) (s : Local) : Local :=
  mkLocal (TxIndex s) (SenderNonces s) (DeferMVWrites s) (trackReads s) (hasWaitForFinal s)
    (localNonces s) (localStorage s) (localCode s) (localBalAdd s) (localBalSub s) (BalanceOps s)
    (created s) (destructed s) (newContract s) v (access s) (transient s) (logs s) (logSize s)
    (preimages s) (journalEntries s) (validRevisions s) (nextRevisionId s) (WriteKeys s) (BalAddrs s)
    (balWriteSet s) (Transfers s) (Coinbase s) (Sender s) (Result s) (ExecErr s) (Panicked s).
Definition set_access (v : accessList) (s : Local) : Local :=
  mkLocal (TxIndex s) (SenderNonces s) (DeferMVWrites s) (trackReads s) (hasWaitForFinal s)
    (localNonces s) (localStorage s) (localCode s) (localBalAdd s) (localBalSub s) (BalanceOps s)
    (created s) (destructed s) (newContract s) (refund s) v (transient s) (logs s) (logSize s)
    (preimages s) (journalEntries s) (validRevisions s) (nextRevisionId s) (WriteKeys s) (BalAddrs s)
    (balWriteSet s) (Transfers s) (Coinbase s) (Sender s) (Result s) (ExecErr s) (Panicked s).
Definition set_transient (v : gmap Z (gmap Z Z)) (s : Local) : Local :=
  mkLocal (TxIndex s) (SenderNonces s) (DeferMVWrites s) (trackReads s) (hasWaitForFinal s)
    (localNonces s) (localStorage s) (localCode s) (localBalAdd s) (localBalSub s) (BalanceOps s)
    (created s) (destructed s) (newContract s) (refund s) (access s) v (logs s) (logSize s)
    (preimages s) (journalEntries s) (validRevisions s) (nextRevisionId s) (WriteKeys s) (BalAddrs s)
    (balWriteSet s) (Transfers s) (Coinbase s) (Sender s) (Result s) (ExecErr s) (Panicked s).
Definition set_logs (v : list Z) (s : Local) : Local :=
  mkLocal (TxIndex s) (SenderNonces s) (DeferMVWrites s) (trackReads s) (hasWaitForFinal s)
    (localNonces s) (localStorage s) (localCode s) (localBalAdd s) (localBalSub s) (BalanceOps s)
    (created s) (destructed s) (newContract s) (refund s) (access s) (transient s) v (logSize s)
    (preimages s) (journalEntries s) (validRevisions s) (nextRevisionId s) (WriteKeys s) (BalAddrs s)
    (balWriteSet s) (Transfers s) (Coinbase s) (Sender s) (Result s) (ExecErr s) (Panicked s).
Definition set_logSize (v : Z) (s : Local) : Local :=
  mkLocal (TxIndex s) (SenderNonces s) (DeferMVWrites s) (trackReads s) (hasWaitForFinal s)
    (localNonces s) (localStorage s) (localCode s) (localBalAdd s) (localBalSub s) (BalanceOps s)
    (created s) (destructed s) (newContract s) (refund s) (access s) (transient s) (logs s) v
    (preimages s) (journalEntries s) (validRevisions s) (nextRevisionId s) (WriteKeys s) (BalAddrs s)
    (balWriteSet s) (Transfers s) (Coinbase s) (Sender s) (Result s) (ExecErr s) (Panicked s).
Definition set_preimages (v : gmap Z (list Z)) (s : Local) : Local :=
  mkLocal (TxIndex s) (SenderNonces s) (DeferMVWrites s) (trackReads s) (hasWaitForFinal s)
    (localNonces s) (localStorage s) (localCode s) (localBalAdd s) (localBalSub s) (BalanceOps s)
    (created s) (destructed s) (newContract s) (refund s) (access s) (transient s) (logs s) (logSize s)
    v (journalEntries s) (validRevisions s) (nextRevisionId s) (WriteKeys s) (BalAddrs s)
    (balWriteSet s) (Transfers s) (Coinbase s) (Sender s) (Result s) (ExecErr s) (Panicked s).
Definition set_journalEntries (v : list journalEntry) (s : Local) : Local :=
  mkLocal (TxIndex s) (SenderNonces s) (DeferMVWrites s) (trackReads s) (hasWaitForFinal s)
    (localNonces s) (localStorage s) (localCode s) (localBalAdd s) (localBalSub s) (BalanceOps s)
    (created s) (destructed s) (newContract s) (refund s) (access s) (transient s) (logs s) (logSize s)
    (preimages s) v (validRevisions s) (nextRevisionId s) (WriteKeys s) (BalAddrs s) (balWriteSet s)
    (Transfers s) (Coinbase s) (Sender s) (Result s) (ExecErr s) (Panicked s).
Definition set_validRevisions (v : list revision) (s : Local) : Local :=
  mkLocal (TxIndex s) (SenderNonces s) (DeferMVWrites s) (trackReads s) (hasWaitForFinal s)
    (localNonces s) (localStorage s) (localCode s) (localBalAdd s) (localBalSub s) (BalanceOps s)
    (created s) (destructed s) (newContract s) (refund s) (access s) (transient s) (logs s) (logSize s)
    (preimages s) (journalEntries s) v (nextRevisionId s) (WriteKeys s) (BalAddrs s) (balWriteSet s)
    (Transfers s) (Coinbase s) (Sender s) (Result s) (ExecErr s) (Panicked s).
Definition set_nextRevisionId (v : Z) (s : Local) : Local :=
  mkLocal (TxIndex s) (SenderNonces s) (DeferMVWrites s) (trackReads s) (hasWaitForFinal s)
    (localNonces s) (localStorage s) (localCode s) (localBalAdd s) (localBalSub s) (BalanceOps s)
    (created s) (destructed s) (newContract s) (refund s) (access s) (transient s) (logs s) (logSize s)
    (preimages s) (journalEntries s) (validRevisions s) v (WriteKeys s) (BalAddrs s) (balWriteSet s)
    (Transfers s) (Coinbase s) (Sender s) (Result s) (ExecErr s) (Panicked s).
Definition set_WriteKeys (v : list Key) (s : Local) : Local :=
  mkLocal (TxIndex s) (SenderNonces s) (DeferMVWrites s) (trackReads s) (hasWaitForFinal s)
    (localNonces s) (localStorage s) (localCode s) (localBalAdd s) (localBalSub s) (BalanceOps s)
    (created s) (destructed s) (newContract s) (refund s) (access s) (transient s) (logs s) (logSize s)
    (preimages s) (journalEntries s) (validRevisions s) (nextRevisionId s) v (BalAddrs s)
    (balWriteSet s) (Transfers s) (Coinbase s) (Sender s) (Result s) (ExecErr s) (Panicked s).
Definition set_BalAddrs (v : list Z) (s : Local) : Local :=
  mkLocal (TxIndex s) (SenderNonces s) (DeferMVWrites s) (trackReads s) (hasWaitForFinal s)
    (localNonces s) (localStorage s) (localCode s) (localBalAdd s) (localBalSub s) (BalanceOps s)
    (created s) (destructed s) (newContract s) (refund s) (access s) (transient s) (logs s) (logSize s)
    (preimages s) (journalEntries s) (validRevisions s) (nextRevisionId s) (WriteKeys s) v
    (balWriteSet s) (Transfers s) (Coinbase s) (Sender s) (Result s) (ExecErr s) (Panicked s).
Definition set_balWriteSet (v : gset Z) (s : Local) : Local :=
  mkLocal (TxIndex s) (SenderNonces s) (DeferMVWrites s) (trackReads s) (hasWaitForFinal s)
    (localNonces s) (localStorage s) (localCode s) (localBalAdd s) (localBalSub s) (BalanceOps s)
    (created s) (destructed s) (newContract s) (refund s) (access s) (transient s) (logs s) (logSize s)
    (preimages s) (journalEntries s) (validRevisions s) (nextRevisionId s) (WriteKeys s) (BalAddrs s) v
    (Transfers s) (Coinbase s) (Sender s) (Result s) (ExecErr s) (Panicked s).
Definition set_Transfers (v : list TransferRecord) (s : Local) : Local :=
  mkLocal (TxIndex s) (SenderNonces s) (DeferMVWrites s) (trackReads s) (hasWaitForFinal s)
    (localNonces s) (localStorage s) (localCode s) (localBalAdd s) (localBalSub s) (BalanceOps s)
    (created s) (destructed s) (newContract s) (refund s) (access s) (transient s) (logs s) (logSize s)
    (preimages s) (journalEntries s) (validRevisions s) (nextRevisionId s) (WriteKeys s) (BalAddrs s)
    (balWriteSet s) v (Coinbase s) (Sender s) (Result s) (ExecErr s) (Panicked s).
Definition set_Coinbase (v : Z) (s : Local) : Local :=
  mkLocal (TxIndex s) (SenderNonces s) (DeferMVWrites s) (trackReads s) (hasWaitForFinal s)
    (localNonces s) (localStorage s) (localCode s) (localBalAdd s) (localBalSub s) (BalanceOps s)
    (created s) (destructed s) (newContract s) (refund s) (access s) (transient s) (logs s) (logSize s)
    (preimages s) (journalEntries s) (validRevisions s) (nextRevisionId s) (WriteKeys s) (BalAddrs s)
    (balWriteSet s) (Transfers s) v (Sender s) (Result s) (ExecErr s) (Panicked s).
Definition set_Sender (v : Z) (s : Local) : Local :=
  mkLocal (TxIndex s) (SenderNonces s) (DeferMVWrites s) (trackReads s) (hasWaitForFinal s)
    (localNonces s) (localStorage s) (localCode s) (localBalAdd s) (localBalSub s) (BalanceOps s)
    (created s) (destructed s) (newContract s) (refund s) (access s) (transient s) (logs s) (logSize s)
    (preimages s) (journalEntries s) (validRevisions s) (nextRevisionId s) (WriteKeys s) (BalAddrs s)
    (balWriteSet s) (Transfers s) (Coinbase s) v (Result s) (ExecErr s) (Panicked s).
Definition set_Result (v : option TxResult) (s : Local) : Local :=
  mkLocal (TxIndex s) (SenderNonces s) (DeferMVWrites s) (trackReads s) (hasWaitForFinal s)
    (localNonces s) (localStorage s) (localCode s) (localBalAdd s) (localBalSub s) (BalanceOps s)
    (created s) (destructed s) (newContract s) (refund s) (access s) (transient s) (logs s) (logSize s)
    (preimages s) (journalEntries s) (validRevisions s) (nextRevisionId s) (WriteKeys s) (BalAddrs s)
    (balWriteSet s) (Transfers s) (Coinbase s) (Sender s) v (ExecErr s) (Panicked s).
Definition set_ExecErr (v : option Z) (s : Local) : Local :=
  mkLocal (TxIndex s) (SenderNonces s) (DeferMVWrites s) (trackReads s) (hasWaitForFinal s)
    (localNonces s) (localStorage s) (localCode s) (localBalAdd s) (localBalSub s) (BalanceOps s)
    (created s) (destructed s) (newContract s) (refund s) (access s) (transient s) (logs s) (logSize s)
    (preimages s) (journalEntries s) (validRevisions s) (nextRevisionId s) (WriteKeys s) (BalAddrs s)
    (balWriteSet s) (Transfers s) (Coinbase s) (Sender s) (Result s) v (Panicked s).
Definition set_Panicked (v : bool) (s : Local) : Local :=
  mkLocal (TxIndex s) (SenderNonces s) (DeferMVWrites s) (trackReads s) (hasWaitForFinal s)
    (localNonces s) (localStorage s) (localCode s) (localBalAdd s) (localBalSub s) (BalanceOps s)
    (created s) (destructed s) (newContract s) (refund s) (access s) (transient s) (logs s) (logSize s)
    (preimages s) (journalEntries s) (validRevisions s) (nextRevisionId s) (WriteKeys s) (BalAddrs s)
    (balWriteSet s) (Transfers s) (Coinbase s) (Sender s) (Result s) (ExecErr s) v.

(** The fields that record what was read: the read sets, the caches in front of the
    stores, and whether a read of the base failed. *)
Record Track : Type := mkTrack {
  StoreReads : list StoreReadDesc;
  BalReads : list BalReadDesc;
  balAddrSet : gset Z;
  balCache : gmap Z (Z * Z);
  destructedCache : gmap Z Z;
  destructedSeen : gset Z;
  committedCache : gmap (Z * Z) Z;
  codeReadCache : gmap Z ReadResult;
  BaseReadErr : bool
}.

Definition set_StoreReads (v : list StoreReadDesc) (s : Track) : Track :=
  mkTrack v (BalReads s) (balAddrSet s) (balCache s) (destructedCache s) (destructedSeen s)
    (committedCache s) (codeReadCache s) (BaseReadErr s).
Definition set_BalReads (v : list BalReadDesc) (s : Track) : Track :=
  mkTrack (StoreReads s) v (balAddrSet s) (balCache s) (destructedCache s) (destructedSeen s)
    (committedCache s) (codeReadCache s) (BaseReadErr s).
Definition set_balAddrSet (v : gset Z) (s : Track) : Track :=
  mkTrack (StoreReads s) (BalReads s) v (balCache s) (destructedCache s) (destructedSeen s)
    (committedCache s) (codeReadCache s) (BaseReadErr s).
Definition set_balCache (v : gmap Z (Z * Z)) (s : Track) : Track :=
  mkTrack (StoreReads s) (BalReads s) (balAddrSet s) v (destructedCache s) (destructedSeen s)
    (committedCache s) (codeReadCache s) (BaseReadErr s).
Definition set_destructedCache (v : gmap Z Z) (s : Track) : Track :=
  mkTrack (StoreReads s) (BalReads s) (balAddrSet s) (balCache s) v (destructedSeen s)
    (committedCache s) (codeReadCache s) (BaseReadErr s).
Definition set_destructedSeen (v : gset Z) (s : Track) : Track :=
  mkTrack (StoreReads s) (BalReads s) (balAddrSet s) (balCache s) (destructedCache s) v
    (committedCache s) (codeReadCache s) (BaseReadErr s).
Definition set_committedCache (v : gmap (Z * Z) Z) (s : Track) : Track :=
  mkTrack (StoreReads s) (BalReads s) (balAddrSet s) (balCache s) (destructedCache s) (destructedSeen s)
    v (codeReadCache s) (BaseReadErr s).
Definition set_codeReadCache (v : gmap Z ReadResult) (s : Track) : Track :=
  mkTrack (StoreReads s) (BalReads s) (balAddrSet s) (balCache s) (destructedCache s) (destructedSeen s)
    (committedCache s) v (BaseReadErr s).
Definition set_BaseReadErr (v : bool) (s : Track) : Track :=
  mkTrack (StoreReads s) (BalReads s) (balAddrSet s) (balCache s) (destructedCache s) (destructedSeen s)
    (committedCache s) (codeReadCache s) v.

Record PDB : Type := mkPDB { loc : Local; Incarnation : Z; trk : Track }.

(** Pre-block state: a value, and whether reading it failed. *)
Record SafeBase : Type := mkBase {
  bExist : Z -> bool * bool;
  bBalance : Z -> Z * bool;
  bNonce : Z -> Z * bool;
  bCode : Z -> list Z * bool;
  bCodeHash : Z -> Z * bool;
  bState : Z -> Z -> Z * bool;
  bCommittedState : Z -> Z -> Z * bool;
  bStorageRoot : Z -> Z * bool
}.

(** ** Operations

    An operation ends with a result, in a panic, or, when it met more estimates than
    it has turns, still spinning; the state it leaves counts in every case. *)

Inductive res (A : Type) : Type :=
| Ok (a : A)
| Panic (why : string)
| Spin.
Arguments Ok {A} a.
Arguments Panic {A} why.
Arguments Spin {A}.

Definition M (A : Type) : Type := PDB -> tm (PDB * res A).

#[export] Instance M_ret : MRet M := fun A a s => TRet (s, Ok a).

#[export] Instance M_bind : MBind M := fun A B f m s =>
  tmBind (m s) (fun p => match p with
                         | (s', Ok a) => f a s'
                         | (s', Panic w) => TRet (s', Panic w)
                         | (s', Spin) => TRet (s', Spin)
                         end).

Definition getL {A} (f : Local -> A) : M A := fun s => TRet (s, Ok (f (loc s))).
Definition modL (f : Local -> Local) : M unit := fun s => TRet (mkPDB (f (loc s)) (Incarnation s) (trk s), Ok tt).
Definition getT {A} (f : Track -> A) : M A := fun s => TRet (s, Ok (f (trk s))).
Definition modT (f : Track -> Track) : M unit := fun s => TRet (mkPDB (loc s) (Incarnation s) (f (trk s)), Ok tt).
Definition getInc : M Z := fun s => TRet (s, Ok (Incarnation s)).
Definition panicM {A} (w : string) : M A := fun s => TRet (s, Panic w).
Definition spinM {A} : M A := fun s => TRet (s, Spin).

Definition readStore (k : Key) : M ReadResult := fun s => TRead k (fun r => TRet (s, Ok r)).
Definition readDelta (a : Z) : M (Z * Z) := fun s => TDelta a (fun r => TRet (s, Ok r)).
Definition waitForFinal (j : Z) : M unit := fun s => TWait j (TRet (s, Ok tt)).
Definition isEstimate (k : Key) (j : Z) : M bool := fun s => TIsEst k j (fun b => TRet (s, Ok b)).
Definition deleteStore (k : Key) (j : Z) : M unit := fun s => TDel k j (TRet (s, Ok tt)).
Definition writeStore (k : Key) (v : Value) : M unit := fun s => TWrite k v (TRet (s, Ok tt)).

Section pdb.

(** Keccak-256, the base state and the turns given to [readStoreWait]. *)
Context (keccak : list Z -> Z) (base : SafeBase) (turns : nat).

Definition EmptyCodeHash : Z := keccak [].

Definition noteBaseReadErr (err : bool) : M unit :=
  modT (fun t => if err && negb (BaseReadErr t) then set_BaseReadErr true t else t).

(** Read the base state and note a failure. *)
Definition baseRead {A} (r : A * bool) : M A := _ ← noteBaseReadErr r.2; mret r.1.

Definition journal (j : journalEntry) : M unit := modL (fun l => set_journalEntries (journalEntries l ++ [j]) l).

(** *** Reading the store *)

Definition handleEstimate (k : Key) (writer : Z) : M bool :=
  inc ← getInc;
  hw ← getL hasWaitForFinal;
  if (inc =? 0) || negb hw then mret false
  else
    _ ← waitForFinal writer;
    est ← isEstimate k writer;
    _ ← (if est : bool then deleteStore k writer else mret tt);
    mret true.

Fixpoint readStoreWait_loop (fuel : nat) (k : Key) : M ReadResult :=
  match fuel with
  | O => spinM
  | S fuel' =>
      r ← readStore k;
      if negb (found r) || (writerIdx r <? 0) then mret r
      else if negb (isEst r) then mret r
      else
        again ← handleEstimate k (writerIdx r);
        if again : bool then readStoreWait_loop fuel' k else mret notFound
  end.

Definition readStoreWait (k : Key) : M ReadResult := readStoreWait_loop turns k.

Definition readCodeKey (addr : Z) (k : Key) : M ReadResult :=
  c ← getT codeReadCache;
  match c !! addr with
  | Some r => mret r
  | None =>
      r ← readStoreWait k;
      _ ← modT (fun t => set_codeReadCache (<[addr := r]> (codeReadCache t)) t);
      mret r
  end.

Definition recordStoreReadEx (k : Key) (writer inc : Z) (val : option Value) (exact : bool) : M unit :=
  on ← getL trackReads;
  if negb on then mret tt
  else modT (fun t => set_StoreReads (StoreReads t ++ [mkStoreRead k writer inc val exact]) t).

Definition recordStoreRead (k : Key) (writer inc : Z) (val : option Value) : M unit :=
  recordStoreReadEx k writer inc val false.

Definition recordBalanceRead (addr add sub : Z) : M unit :=
  on ← getL trackReads;
  if negb on then mret tt
  else modT (fun t => if bool_decide (addr ∈ balAddrSet t) then t
                      else set_BalReads (BalReads t ++ [mkBalRead addr add sub])
                             (set_balAddrSet ({[addr]} ∪ balAddrSet t) t)).

Definition recordWrite (k : Key) : M unit :=
  modL (fun l => if negb (trackReads l) then l else set_WriteKeys (WriteKeys l ++ [k]) l).

Definition recordBalWrite (addr : Z) : M unit :=
  modL (fun l => if negb (trackReads l) then l
                 else if bool_decide (addr ∈ balWriteSet l) then l
                 else set_BalAddrs (BalAddrs l ++ [addr]) (set_balWriteSet ({[addr]} ∪ balWriteSet l) l)).

(** The type assertions on a value read. *)
Definition asUint64 (v : option Value) : M Z :=
  match v with Some (VUint64 n) => mret n | _ => panicM "interface conversion" end.
Definition asHash (v : option Value) : M Z :=
  match v with Some (VHash h) => mret h | _ => panicM "interface conversion" end.
Definition asBytes (v : option Value) : M (list Z) :=
  match v with Some (VBytes l) => mret l | _ => panicM "interface conversion" end.

(** *** Existence *)

Definition priorDestructedAt (addr : Z) : M Z :=
  c ← getT destructedCache;
  match c !! addr with
  | Some v => mret v
  | None =>
      let suicideKey := NewSubpathKey addr SuicidePath in
      r ← readStoreWait suicideKey;
      seen ← getT destructedSeen;
      let idx := if found r then writerIdx r else -1 in
      _ ← (if bool_decide (addr ∈ seen) then mret tt
           else if found r then recordStoreReadEx suicideKey (writerIdx r) (writerInc r) (rVal r) true
           else recordStoreRead suicideKey (-1) 0 None);
      _ ← modT (fun t => set_destructedCache (<[addr := idx]> (destructedCache t))
                           (set_destructedSeen ({[addr]} ∪ destructedSeen t) t));
      mret idx
  end.

Definition priorCreatedAt (addr : Z) : M Z :=
  let createKey := NewSubpathKey addr CreatePath in
  r ← readStoreWait createKey;
  if found r then
    _ ← recordStoreReadEx createKey (writerIdx r) (writerInc r) (rVal r) true;
    mret (writerIdx r)
  else
    _ ← recordStoreRead createKey (-1) 0 None;
    mret (-1).

(** *** Balances *)

Definition priorBalanceDeltas (addr : Z) : M (Z * Z) :=
  c ← getT balCache;
  match c !! addr with
  | Some p => mret p
  | None =>
      p ← readDelta addr;
      _ ← modT (fun t => set_balCache (<[addr := p]> (balCache t)) t);
      mret p
  end.

(** The local sums of an address on top of a balance. *)
Definition withLocal (l : Local) (addr bal : Z) : Z :=
  let r := match localBalAdd l !! addr with Some a => u256 (bal + a) | None => bal end in
  match localBalSub l !! addr with Some su => u256 (r - su) | None => r end.

Definition GetBalance (addr : Z) : M Z :=
  p ← priorBalanceDeltas addr;
  _ ← recordBalanceRead addr p.1 p.2;
  bal ← baseRead (bBalance base addr);
  getL (fun l => withLocal l addr (u256 (u256 (bal + p.1) - p.2))).

Definition AddBalance (addr amount : Z) : M unit :=
  _ ← journal (jkBalance addr true amount);
  _ ← recordBalWrite addr;
  modL (fun l => set_BalanceOps (BalanceOps l ++ [mkBalanceOp addr amount true])
                   (set_localBalAdd (<[addr := u256 (default 0 (localBalAdd l !! addr) + amount)]> (localBalAdd l)) l)).

Definition SubBalance (addr amount : Z) : M unit :=
  _ ← journal (jkBalance addr false amount);
  _ ← recordBalWrite addr;
  modL (fun l => set_BalanceOps (BalanceOps l ++ [mkBalanceOp addr amount false])
                   (set_localBalSub (<[addr := u256 (default 0 (localBalSub l !! addr) + amount)]> (localBalSub l)) l)).

Definition SetBalance (addr amount : Z) : M unit :=
  prev ← GetBalance addr;
  if prev <? amount then AddBalance addr (u256 (amount - prev)) else SubBalance addr (u256 (prev - amount)).

(** *** Nonces *)

Definition GetNonce (addr : Z) : M Z :=
  ln ← getL localNonces;
  sn ← getL SenderNonces;
  match ln !! addr, sn !! addr with
  | Some n, _ => mret n
  | None, Some n => mret n
  | None, None =>
      suicideIdx ← priorDestructedAt addr;
      let nonceKey := NewSubpathKey addr NoncePath in
      r ← readStoreWait nonceKey;
      if found r then
        _ ← recordStoreReadEx nonceKey (writerIdx r) (writerInc r) (rVal r) (0 <=? suicideIdx);
        if suicideIdx <? writerIdx r then asUint64 (rVal r) else mret 0
      else if 0 <=? suicideIdx then
        _ ← recordStoreRead nonceKey (-1) 0 (Some (VUint64 0));
        mret 0
      else
        n ← baseRead (bNonce base addr);
        _ ← recordStoreRead nonceKey (-1) 0 (Some (VUint64 n));
        mret n
  end.

Definition SetNonce (addr nonce : Z) : M unit :=
  ln ← getL localNonces;
  _ ← journal (jkNonce addr (bool_decide (is_Some (ln !! addr))) (default 0 (ln !! addr)));
  _ ← modL (fun l => set_localNonces (<[addr := nonce]> (localNonces l)) l);
  recordWrite (NewSubpathKey addr NoncePath).

Definition Exist (addr : Z) : M bool :=
  cr ← getL created;
  if bool_decide (addr ∈ cr) then mret true
  else
    suicideIdx ← priorDestructedAt addr;
    createIdx ← priorCreatedAt addr;
    if suicideIdx <? createIdx then mret true
    else
      ex ← (if 0 <=? suicideIdx then mret false else baseRead (bExist base addr));
      if ex : bool then mret true
      else
        bal ← GetBalance addr;
        if negb (bal =? 0) then mret true
        else
          n ← GetNonce addr;
          mret (0 <? n).

(** *** Code *)

Definition GetCode (addr : Z) : M (list Z) :=
  lc ← getL localCode;
  match lc !! addr with
  | Some code => mret code
  | None =>
      suicideIdx ← priorDestructedAt addr;
      let codeKey := NewSubpathKey addr CodePath in
      r ← readCodeKey addr codeKey;
      if found r then
        _ ← recordStoreReadEx codeKey (writerIdx r) (writerInc r) (rVal r) (0 <=? suicideIdx);
        if suicideIdx <? writerIdx r then asBytes (rVal r) else mret []
      else if 0 <=? suicideIdx then
        _ ← recordStoreRead codeKey (-1) 0 (Some (VBytes []));
        mret []
      else
        code ← baseRead (bCode base addr);
        _ ← recordStoreRead codeKey (-1) 0 (Some (VBytes code));
        mret code
  end.

Definition GetCodeSize (addr : Z) : M Z := code ← GetCode addr; mret (Z.of_nat (length code)).

Definition hashOf (code : list Z) : Z :=
  if bool_decide (code = []) then EmptyCodeHash else keccak code.

(** The tail of [GetCodeHash], when no code is known to be set in the block. *)
Definition codeHashTail (addr suicideIdx : Z) : M Z :=
  if 0 <=? suicideIdx then
    ex ← Exist addr;
    mret (if ex : bool then EmptyCodeHash else 0)
  else
    h ← baseRead (bCodeHash base addr);
    if negb (h =? 0) then mret h
    else
      ex ← Exist addr;
      mret (if ex : bool then EmptyCodeHash else 0).

Definition GetCodeHash (addr : Z) : M Z :=
  lc ← getL localCode;
  match lc !! addr with
  | Some _ => code ← GetCode addr; mret (hashOf code)
  | None =>
      suicideIdx ← priorDestructedAt addr;
      let codeKey := NewSubpathKey addr CodePath in
      r ← readCodeKey addr codeKey;
      if found r then
        _ ← recordStoreReadEx codeKey (writerIdx r) (writerInc r) (rVal r) (0 <=? suicideIdx);
        if suicideIdx <? writerIdx r then code ← asBytes (rVal r); mret (hashOf code)
        else codeHashTail addr suicideIdx
      else
        _ ← recordStoreRead codeKey (-1) 0 None;
        codeHashTail addr suicideIdx
  end.

Definition Empty (addr : Z) : M bool :=
  ex ← Exist addr;
  if negb ex then mret true
  else
    n ← GetNonce addr;
    if negb (n =? 0) then mret false
    else
      bal ← GetBalance addr;
      if negb (bal =? 0) then mret false
      else h ← GetCodeHash addr; mret (h =? EmptyCodeHash).

(** *** Accounts *)

Definition CreateAccount (addr : Z) : M unit :=
  _ ← journal (jkCreate addr);
  _ ← modL (fun l => set_created ({[addr]} ∪ created l) l);
  let createKey := NewSubpathKey addr CreatePath in
  d ← getL DeferMVWrites;
  _ ← (if negb d then writeStore createKey (VBool true) else mret tt);
  recordWrite createKey.

Definition CreateContract (addr : Z) : M unit :=
  _ ← modL (fun l => set_newContract ({[addr]} ∪ newContract l) l);
  CreateAccount addr.

Definition SetCode (addr : Z) (code : list Z) : M (list Z) :=
  prev ← GetCode addr;
  lc ← getL localCode;
  _ ← journal (jkCode addr (bool_decide (is_Some (lc !! addr))) prev);
  _ ← modL (fun l => set_localCode (<[addr := code]> (localCode l)) l);
  let codeKey := NewSubpathKey addr CodePath in
  d ← getL DeferMVWrites;
  _ ← (if negb d then writeStore codeKey (VBytes code) else mret tt);
  _ ← recordWrite codeKey;
  cr ← getL created;
  _ ← (if negb (bool_decide (addr ∈ cr)) then CreateAccount addr else mret tt);
  mret prev.

(** *** Storage *)

(** What both reads of a slot do past the transaction's own writes and caches. *)
Definition GetState (addr key : Z) : M Z :=
  ls ← getL localStorage;
  match ls !! addr ≫= (fun slots => slots !! key) with
  | Some val => mret val
  | None =>
      suicideIdx ← priorDestructedAt addr;
      let k := NewStateKey addr key in
      r ← readStoreWait k;
      if found r then
        _ ← recordStoreReadEx k (writerIdx r) (writerInc r) (rVal r) (0 <=? suicideIdx);
        if suicideIdx <? writerIdx r then asHash (rVal r) else mret 0
      else if 0 <=? suicideIdx then
        _ ← recordStoreRead k (-1) 0 (Some (VHash 0));
        mret 0
      else
        v ← baseRead (bState base addr key);
        _ ← recordStoreRead k (-1) 0 (Some (VHash v));
        mret v
  end.

Definition GetCommittedState (addr key : Z) : M Z :=
  c ← getT committedCache;
  match c !! (addr, key) with
  | Some v => mret v
  | None =>
      suicideIdx ← priorDestructedAt addr;
      let k := NewStateKey addr key in
      r ← readStoreWait k;
      result ← (if found r then
                  _ ← recordStoreReadEx k (writerIdx r) (writerInc r) (rVal r) (0 <=? suicideIdx);
                  if suicideIdx <? writerIdx r then asHash (rVal r) else mret 0
                else
                  v ← (if suicideIdx <? 0 then baseRead (bCommittedState base addr key) else mret 0);
                  _ ← recordStoreRead k (-1) 0 (Some (VHash v));
                  mret v);
      _ ← modT (fun t => set_committedCache (<[(addr, key) := result]> (committedCache t)) t);
      mret result
  end.

Definition GetStateAndCommittedState (addr key : Z) : M (Z * Z) :=
  v ← GetState addr key; c ← GetCommittedState addr key; mret (v, c).

Definition SetState (addr key value : Z) : M Z :=
  prev ← GetState addr key;
  ls ← getL localStorage;
  _ ← journal (jkStorage addr key (bool_decide (is_Some (ls !! addr ≫= (fun slots => slots !! key)))) prev);
  _ ← modL (fun l => set_localStorage
                       (<[addr := <[key := value]> (default ∅ (localStorage l !! addr))]> (localStorage l)) l);
  _ ← recordWrite (NewStateKey addr key);
  mret prev.

Definition GetStorageRoot (addr : Z) : M Z :=
  cr ← getL created;
  if bool_decide (addr ∈ cr) then mret 0
  else
    de ← getL destructed;
    if bool_decide (addr ∈ de) then mret 0
    else
      suicideIdx ← priorDestructedAt addr;
      if 0 <=? suicideIdx then mret 0 else baseRead (bStorageRoot base addr).

(** *** Refund, access list, transient storage *)

Definition AddRefund (gas : Z) : M unit :=
  r ← getL refund;
  _ ← journal (jkRefund r);
  modL (fun l => set_refund (u64 (refund l + gas)) l).

Definition SubRefund (gas : Z) : M unit :=
  r ← getL refund;
  if r <? gas then panicM "refund counter below zero"
  else
    _ ← journal (jkRefund r);
    modL (fun l => set_refund (refund l - gas) l).

Definition AddAddressToAccessList (addr : Z) : M unit :=
  al ← getL access;
  let '(al', added) := AddAddress al addr in
  _ ← modL (set_access al');
  if added : bool then journal (jkAccessAddr addr) else mret tt.

Definition AddSlotToAccessList (addr slot : Z) : M unit :=
  al ← getL access;
  let '(al', addrAdded, slotAdded) := AddSlot al addr slot in
  _ ← modL (set_access al');
  _ ← (if addrAdded : bool then journal (jkAccessAddr addr) else mret tt);
  if slotAdded : bool then journal (jkAccessSlot addr slot) else mret tt.

Definition SetTransientState (addr key value : Z) : M unit :=
  t ← getL transient;
  let prev := transientGet t addr key in
  if prev =? value then mret tt
  else
    _ ← journal (jkTransient addr key prev);
    modL (fun l => set_transient (transientSet (transient l) addr key value) l).

Definition Prepare (isShanghai : bool) (sender coinbase : Z) (dest : option Z) (precompiles : list Z)
    (txAccesses : list (Z * list Z)) : M unit :=
  let al := (AddAddress newAccessList sender).1 in
  let al := match dest with Some d => (AddAddress al d).1 | None => al end in
  let al := fold_left (fun al a => (AddAddress al a).1) precompiles al in
  let al := fold_left (fun al el => fold_left (fun al k => (AddSlot al el.1 k).1.1) el.2 (AddAddress al el.1).1)
                      txAccesses al in
  let al := if isShanghai then (AddAddress al coinbase).1 else al in
  modL (fun l => set_access al (set_transient ∅ l)).

(** *** Self-destruction *)

Definition SelfDestruct (addr : Z) : M Z :=
  bal ← GetBalance addr;
  de ← getL destructed;
  _ ← (if negb (bool_decide (addr ∈ de)) then
         _ ← journal (jkDestruct addr);
         _ ← modL (fun l => set_destructed ({[addr]} ∪ destructed l) l);
         recordWrite (NewSubpathKey addr SuicidePath)
       else mret tt);
  _ ← SubBalance addr bal;
  mret bal.

Definition SelfDestruct6780 (addr : Z) : M (Z * bool) :=
  nc ← getL newContract;
  if bool_decide (addr ∈ nc) then b ← SelfDestruct addr; mret (b, true)
  else b ← GetBalance addr; mret (b, false).

(** *** Logs, preimages, transfers *)

Definition AddLog (l : Z) : M unit :=
  ls ← getL logs;
  _ ← journal (jkLog (Z.of_nat (length ls)));
  modL (fun s => set_logs (logs s ++ [l]) (set_logSize (logSize s + 1) s)).

Definition AddPreimage (hash : Z) (preimage : list Z) : M unit :=
  modL (fun s => match preimages s !! hash with
                 | Some _ => s
                 | None => set_preimages (<[hash := preimage]> (preimages s)) s
                 end).

Definition RecordTransfer (sender recipient amount : Z) : M bool :=
  _ ← modL (fun s => set_Transfers
              (Transfers s ++ [mkTransfer sender recipient amount (length (logs s)) (length (BalanceOps s))]) s);
  mret true.

(** *** Snapshots *)

Definition Snapshot : M Z :=
  id ← getL nextRevisionId;
  _ ← modL (fun s => set_nextRevisionId (nextRevisionId s + 1)
              (set_validRevisions (validRevisions s ++
                 [mkRevision id (length (journalEntries s)) (length (BalanceOps s)) (length (logs s)) (length (Transfers s))]) s));
  mret id.

Definition subKey (m : gmap Z Z) (addr amt : Z) : gmap Z Z :=
  match m !! addr with Some b => <[addr := u256 (b - amt)]> m | None => m end.

(** [journalEntry.revert]: what an entry undoes in the transaction's own state. *)
Definition revertLocal (j : journalEntry) (l : Local) : Local :=
  match j with
  | jkNonce a had p => set_localNonces (if had then <[a := p]> (localNonces l) else delete a (localNonces l)) l
  | jkStorage a k had p =>
      let slots := default ∅ (localStorage l !! a) in
      if had then set_localStorage (<[a := <[k := p]> slots]> (localStorage l)) l
      else match localStorage l !! a with
           | Some slots => set_localStorage (<[a := delete k slots]> (localStorage l)) l
           | None => l
           end
  | jkBalance a isAdd amt =>
      if isAdd then set_localBalAdd (subKey (localBalAdd l) a amt) l
      else set_localBalSub (subKey (localBalSub l) a amt) l
  | jkRefund p => set_refund p l
  | jkLog p => set_logs (take (Z.to_nat p) (logs l)) (set_logSize p l)
  | jkCreate a =>
      set_created (created l ∖ {[a]})
        (set_newContract (newContract l ∖ {[a]}) (set_localCode (delete a (localCode l)) l))
  | jkDestruct a => set_destructed (destructed l ∖ {[a]}) l
  | jkCode a had c => set_localCode (if had then <[a := c]> (localCode l) else delete a (localCode l)) l
  | jkTransient a k p => set_transient (transientSet (transient l) a k p) l
  | jkAccessAddr a => set_access (mkAccess (delete a (alAddresses (access l))) (alSlots (access l))) l
  | jkAccessSlot a k =>
      match alAddresses (access l) !! a with
      | Some idx =>
          if (0 <=? idx) && (idx <? Z.of_nat (length (alSlots (access l))))
          then set_access (mkAccess (alAddresses (access l))
                             (alter (fun m => m ∖ {[k]}) (Z.to_nat idx) (alSlots (access l)))) l
          else l
      | None => l
      end
  end.

(** What it undoes in the store, when writes are not deferred. *)
Definition revertStore (j : journalEntry) : M unit :=
  d ← getL DeferMVWrites;
  if d : bool then mret tt
  else
    tx ← getL TxIndex;
    match j with
    | jkCreate a =>
        _ ← deleteStore (NewSubpathKey a CreatePath) tx;
        deleteStore (NewSubpathKey a CodePath) tx
    | jkCode a had c =>
        if had then writeStore (NewSubpathKey a CodePath) (VBytes c) else deleteStore (NewSubpathKey a CodePath) tx
    | _ => mret tt
    end.

Fixpoint revertAll (js : list journalEntry) : M unit :=
  match js with
  | [] => mret tt
  | j :: js => _ ← modL (revertLocal j); _ ← revertStore j; revertAll js
  end.

Definition RevertToSnapshot (revid : Z) : M unit :=
  revs ← getL validRevisions;
  let idx := sortSearch (length revs) (fun i => match revs !! i with Some r => revid <=? revId r | None => true end) in
  match revs !! idx with
  | Some rev =>
      if negb (revId rev =? revid) then panicM "invalid snapshot id"
      else
        js ← getL journalEntries;
        _ ← revertAll (reverse (drop (journalIdx rev) js));
        modL (fun s =>
          set_journalEntries (take (journalIdx rev) (journalEntries s))
            (set_BalanceOps (take (balanceOpsIdx rev) (BalanceOps s))
              (set_logs (take (logsIdx rev) (logs s))
                (set_logSize (Z.of_nat (logsIdx rev))
                  (set_Transfers (take (transfersIdx rev) (Transfers s))
                    (set_validRevisions (take idx (validRevisions s)) s))))))
  | None => panicM "invalid snapshot id"
  end.

(** ** Running a transaction

    The EVM is a program over the operations above: what it does next depends only on
    what it was told so far.  It ends with a result, with an error of the message
    (which leaves no result), or by panicking. *)

Inductive Op : Type :=
| oExist (a : Z) | oEmpty (a : Z)
| oGetBalance (a : Z) | oAddBalance (a v : Z) | oSubBalance (a v : Z) | oSetBalance (a v : Z)
| oGetNonce (a : Z) | oSetNonce (a n : Z)
| oGetCode (a : Z) | oGetCodeSize (a : Z) | oGetCodeHash (a : Z) | oSetCode (a : Z) (c : list Z)
| oGetState (a k : Z) | oGetCommittedState (a k : Z) | oGetStateAndCommittedState (a k : Z) | oSetState (a k v : Z)
| oGetStorageRoot (a : Z)
| oAddRefund (g : Z) | oSubRefund (g : Z) | oGetRefund
| oAddressInAccessList (a : Z) | oSlotInAccessList (a k : Z)
| oAddAddressToAccessList (a : Z) | oAddSlotToAccessList (a k : Z)
| oGetTransientState (a k : Z) | oSetTransientState (a k v : Z)
| oSelfDestruct (a : Z) | oHasSelfDestructed (a : Z) | oSelfDestruct6780 (a : Z)
| oCreateAccount (a : Z) | oCreateContract (a : Z)
| oSnapshot | oRevertToSnapshot (id : Z)
| oAddLog (l : Z) | oAddPreimage (h : Z) (p : list Z) | oRecordTransfer (s r v : Z)
| oPrepare (isShanghai : bool) (sender coinbase : Z) (dest : option Z) (precompiles : list Z) (al : list (Z * list Z)).

Inductive Answer : Type :=
| aUnit
| aNum (n : Z)
| aBool (b : bool)
| aBytes (l : list Z)
| aNums (n m : Z)
| aBools (b c : bool)
| aNumBool (n : Z) (b : bool).

Definition asNum (m : M Z) : M Answer := n ← m; mret (aNum n).
Definition asBool (m : M bool) : M Answer := b ← m; mret (aBool b).
Definition asUnit (m : M unit) : M Answer := _ ← m; mret aUnit.
Definition asCode (m : M (list Z)) : M Answer := l ← m; mret (aBytes l).

Definition perform (o : Op) : M Answer :=
  match o with
  | oExist a => asBool (Exist a)
  | oEmpty a => asBool (Empty a)
  | oGetBalance a => asNum (GetBalance a)
  | oAddBalance a v => asUnit (AddBalance a v)
  | oSubBalance a v => asUnit (SubBalance a v)
  | oSetBalance a v => asUnit (SetBalance a v)
  | oGetNonce a => asNum (GetNonce a)
  | oSetNonce a n => asUnit (SetNonce a n)
  | oGetCode a => asCode (GetCode a)
  | oGetCodeSize a => asNum (GetCodeSize a)
  | oGetCodeHash a => asNum (GetCodeHash a)
  | oSetCode a c => asCode (SetCode a c)
  | oGetState a k => asNum (GetState a k)
  | oGetCommittedState a k => asNum (GetCommittedState a k)
  | oGetStateAndCommittedState a k => p ← GetStateAndCommittedState a k; mret (aNums p.1 p.2)
  | oSetState a k v => asNum (SetState a k v)
  | oGetStorageRoot a => asNum (GetStorageRoot a)
  | oAddRefund g => asUnit (AddRefund g)
  | oSubRefund g => asUnit (SubRefund g)
  | oGetRefund => asNum (getL refund)
  | oAddressInAccessList a => asBool (getL (fun l => ContainsAddress (access l) a))
  | oSlotInAccessList a k => p ← getL (fun l => Contains (access l) a k); mret (aBools p.1 p.2)
  | oAddAddressToAccessList a => asUnit (AddAddressToAccessList a)
  | oAddSlotToAccessList a k => asUnit (AddSlotToAccessList a k)
  | oGetTransientState a k => asNum (getL (fun l => transientGet (transient l) a k))
  | oSetTransientState a k v => asUnit (SetTransientState a k v)
  | oSelfDestruct a => asNum (SelfDestruct a)
  | oHasSelfDestructed a => asBool (getL (fun l => bool_decide (a ∈ destructed l)))
  | oSelfDestruct6780 a => p ← SelfDestruct6780 a; mret (aNumBool p.1 p.2)
  | oCreateAccount a => asUnit (CreateAccount a)
  | oCreateContract a => asUnit (CreateContract a)
  | oSnapshot => asNum Snapshot
  | oRevertToSnapshot id => asUnit (RevertToSnapshot id)
  | oAddLog l => asUnit (AddLog l)
  | oAddPreimage h p => asUnit (AddPreimage h p)
  | oRecordTransfer s r v => asBool (RecordTransfer s r v)
  | oPrepare sh se co de pr al => asUnit (Prepare sh se co de pr al)
  end.

Inductive prog : Type :=
| pDone (r : TxResult)
| pFail (err : Z)
| pPanic (why : string)
| pDo (o : Op) (k : Answer -> prog).

Fixpoint runProg (p : prog) : M unit :=
  match p with
  | pDone r => modL (set_Result (Some r))
  | pFail e => modL (set_ExecErr (Some e))
  | pPanic w => panicM w
  | pDo o k => a ← perform o; runProg (k a)
  end.

(** [NewParallelStateDB], and what [preparePDB] sets on it. *)
Definition newLocal (tx : Z) : Local :=
  mkLocal tx ∅ false false false ∅ ∅ ∅ ∅ ∅ [] ∅ ∅ ∅ 0 newAccessList ∅ [] 0 ∅ [] [] 0 [] [] ∅ [] 0 0 None None false.

Definition newTrack : Track := mkTrack [] [] ∅ ∅ ∅ ∅ ∅ ∅ false.

Definition NewParallelStateDB (tx : Z) : PDB := mkPDB (newLocal tx) 0 newTrack.

(** [Reset] for reuse from the pool: every field is set again, except
    [DeferMVWrites]. *)
Definition Reset (tx : Z) (s : PDB) : PDB :=
  mkPDB (set_DeferMVWrites (DeferMVWrites (loc s)) (newLocal tx)) 0 newTrack.

(** [EnableReadTracking]. *)
Definition EnableReadTracking (s : PDB) : PDB :=
  mkPDB (set_trackReads true (set_WriteKeys [] (set_BalAddrs [] (set_balWriteSet ∅ (loc s)))))
        (Incarnation s) (set_StoreReads [] (set_BalReads [] (set_balAddrSet ∅ (trk s)))).

(** A transaction of the block: its index, sender and fee recipient, and the program
    the EVM runs for it. *)
Record Task : Type := mkTask {
  tIndex : Z; tSender : Z; tTo : option Z; tAuthorities : list Z; tProg : prog
}.

(** [preparePDB] on a state from the pool, or on a new one. *)
Definition preparePDB (recycled : option PDB) (t : Task) (inc : Z) (senderNonces : gmap Z Z) (coinbase : Z)
    (deferWrites : bool) : PDB :=
  let s := match recycled with Some p => Reset (tIndex t) p | None => NewParallelStateDB (tIndex t) end in
  let l := set_SenderNonces senderNonces (set_Coinbase coinbase (set_Sender (tSender t) (loc s))) in
  EnableReadTracking (mkPDB (set_DeferMVWrites deferWrites (set_hasWaitForFinal true l)) inc (trk s)).

(** [applyMessage] recovers from a panic and marks the state. *)
Definition applyMessage (p : prog) (s : PDB) : tm PDB :=
  tmBind (runProg p s) (fun r =>
    match r with
    | (s', Ok _) => TRet s'
    | (s', Panic _) | (s', Spin) => TRet (mkPDB (set_Panicked true (loc s')) (Incarnation s') (trk s'))
    end).

Definition Execute (recycled : option PDB) (t : Task) (inc : Z) (senderNonces : gmap Z Z) (coinbase : Z)
    (deferWrites : bool) : tm PDB :=
  applyMessage (tProg t) (preparePDB recycled t inc senderNonces coinbase deferWrites).

End pdb.

(** ** Publishing *)

(** The writes of [FlushToMVStore], in the order of the maps. *)
Definition flushWrites (l : Local) : list (Key * Value) :=
  if Panicked l then []
  else
    map (fun p => (NewSubpathKey p.1 NoncePath, VUint64 p.2)) (map_to_list (localNonces l))
    ++ concat (map (fun p => map (fun q => (NewStateKey p.1 q.1, VHash q.2)) (map_to_list p.2))
                   (map_to_list (localStorage l)))
    ++ map (fun p => (NewSubpathKey p.1 CodePath, VBytes p.2)) (map_to_list (localCode l))
    ++ map (fun a => (NewSubpathKey a CreatePath, VBool true)) (elements (created l))
    ++ map (fun a => (NewSubpathKey a SuicidePath, VBool true)) (elements (destructed l)).

Definition nonzero (o : option Z) : bool := match o with Some x => negb (x =? 0) | None => false end.

(** The deltas of [flushBalanceDeltas]. *)
Definition flushDeltas (l : Local) : list (Z * option Z * option Z) :=
  if Panicked l then []
  else
    filter (fun p => is_true (nonzero p.1.2 || nonzero p.2))
      (map (fun a => (a, localBalAdd l !! a, localBalSub l !! a))
           (elements (dom (localBalAdd l) ∪ dom (localBalSub l)))).

(** ** Validation *)

(** [valuesEqual]; a type mismatch is not equal. *)
Definition valuesEqual (a b : option Value) : bool :=
  match a, b with
  | None, None => true
  | Some x, Some y => bool_decide (x = y)
  | _, _ => false
  end.

Definition storeReadMatches (rd : StoreReadDesc) (r : ReadResult) : bool :=
  let isNil := bool_decide (rdStoreVal rd = None) in
  if isEst r then negb (found r) && isNil
  else if (writerIdx r =? rdWriterIdx rd) && (writerInc r =? rdWriterInc rd) then true
  else if negb (rdExactWriter rd) && found r && negb isNil && valuesEqual (rVal r) (rdStoreVal rd) then true
  else negb (found r) && isNil.

Definition skipNonceForSenderChain (l : Local) (k : Key) : bool :=
  IsSubpath k && (GetSubpath k =? NoncePath) && bool_decide (is_Some (SenderNonces l !! GetAddress k)).

(** [readForValidate]: on an estimate it waits for the writer and reads once more. *)
Definition readForValidate (before after : MVStore) (k : Key) (tx : Z) : ReadResult :=
  let r := ReadVersionFull before k tx in
  if (0 <=? writerIdx r) && isEst r then ReadVersionFull after k tx else r.

Definition storeReadFailCategory (k : Key) : string :=
  if IsSubpath k then
    if GetSubpath k =? NoncePath then "nonce"
    else if GetSubpath k =? CodePath then "code"
    else if GetSubpath k =? CreatePath then "create"
    else "unknown"
  else if IsState k then "storage" else "unknown".

(** The category of a failed read, "" for a read that still holds.  [after] is the
    store once the writer of an estimate has executed. *)
Definition validateStoreRead (l : Local) (before after : MVStore) (rd : StoreReadDesc) : string :=
  if skipNonceForSenderChain l (rdKey rd) then ""
  else if storeReadMatches rd (readForValidate before after (rdKey rd) (TxIndex l)) then ""
  else storeReadFailCategory (rdKey rd).

Definition validateBalanceRead (l : Local) (bals : MVBalanceStore) (rd : BalReadDesc) : bool :=
  let p := ReadDelta bals (brAddr rd) (TxIndex l) in
  (p.1 =? brAdd rd) && (p.2 =? brSub rd).

Fixpoint firstFailure (l : Local) (before after : MVStore) (rds : list StoreReadDesc) : option string :=
  match rds with
  | [] => None
  | rd :: rds =>
      let cat := validateStoreRead l before after rd in
      if bool_decide (cat = ""%string) then firstFailure l before after rds else Some cat
  end.

(** The failure category, or [None] for a valid state. *)
Definition ValidateDetailed (s : PDB) (before after : MVStore) (bals : MVBalanceStore) : option string :=
  if Panicked (loc s) then Some "panic"%string
  else
    match firstFailure (loc s) before after (StoreReads (trk s)) with
    | Some cat => Some cat
    | None => if forallb (validateBalanceRead (loc s) bals) (BalReads (trk s)) then None else Some "balance"%string
    end.

Definition Validate (s : PDB) (before after : MVStore) (bals : MVBalanceStore) : bool :=
  bool_decide (ValidateDetailed s before after bals = None).

End ParallelState.
