(* ===== verification/ParallelRead.v ===== *)
(** * Validation of parallel reads

    A transaction that ran while others were publishing may have read anything.  If
    the reads it recorded still match a store, then it did exactly what it would have
    done on that store alone: its writes, its balance operations, its logs, its
    result.  This file proves that for every program the EVM can be. *)

From S2P Require Import Prelude Bytes MvStore ParallelState.
Import MvStore ParallelState.

Module ParallelRead.

(** ** Running a tree *)

Section runs.
Context (ok : Key -> ReadResult -> Prop).

(** Some run of a tree: each access answered from the store of its moment.  [ok] is
    what is known of the answers to reads. *)
Inductive runs {A} : tm A -> A -> Prop :=
| runs_ret a : runs (TRet a) a
| runs_read k c r a : ok k r -> runs (c r) a -> runs (TRead k c) a
| runs_delta x c p a : runs (c p) a -> runs (TDelta x c) a
| runs_wait j c a : runs c a -> runs (TWait j c) a
| runs_isest k j c b a : runs (c b) a -> runs (TIsEst k j c) a
| runs_del k j c a : runs c a -> runs (TDel k j c) a
| runs_write k v c a : runs c a -> runs (TWrite k v c) a.

Lemma runs_bind {A B} (t : tm A) (f : A -> tm B) b :
  runs (tmBind t f) b <-> exists a, runs t a /\ runs (f a) b.
Proof.
  split.
  - induction t as [a|k c IH|x c IH|j c IH|k j c IH|k j c IH|k v c IH]; cbn [tmBind]; intros H.
    { exists a. split; [constructor|done]. }
    all: inversion H; subst;
      match goal with Hr : runs (tmBind _ _) _ |- _ => apply IH in Hr as (a' & Ha & Hb) end;
      exists a'; (split; [by econstructor|done]).
  - intros (a & H & Hf). induction H; cbn [tmBind]; eauto using @runs.
Qed.

Lemma runs_ret_inv {A} (a b : A) : runs (TRet a) b -> b = a.
Proof. by inversion 1. Qed.

End runs.

(** The run on one store that nobody else changes, given by what a read and a balance
    read answer. *)
Fixpoint interp {A} (σ : Key -> ReadResult) (δ : Z -> Z * Z) (t : tm A) : A :=
  match t with
  | TRet a => a
  | TRead k c => interp σ δ (c (σ k))
  | TDelta a c => interp σ δ (c (δ a))
  | TWait _ c => interp σ δ c
  | TIsEst _ _ c => interp σ δ (c false)
  | TDel _ _ c => interp σ δ c
  | TWrite _ _ c => interp σ δ c
  end.

Lemma interp_bind {A B} σ δ (t : tm A) (f : A -> tm B) :
  interp σ δ (tmBind t f) = interp σ δ (f (interp σ δ t)).
Proof. induction t; cbn; auto. Qed.

Lemma interp_ext {A} σ σ' δ δ' (t : tm A) :
  (forall k, σ k = σ' k) -> (forall a, δ a = δ' a) -> interp σ δ t = interp σ' δ' t.
Proof. intros Hσ Hδ. induction t; cbn; rewrite ?Hσ, ?Hδ; auto. Qed.

(** The run on one store is one of the runs. *)
Lemma interp_runs {A} (ok : Key -> ReadResult -> Prop) σ δ (t : tm A) : (forall k, ok k (σ k)) -> runs ok t (interp σ δ t).
Proof. intros H. induction t; cbn; eauto using @runs. Qed.

(** What a read of the store always looks like. *)
Definition wfRead (r : ReadResult) : Prop :=
  if found r then 0 <= writerIdx r /\ is_Some (rVal r) else r = notFound.

Section sim.
Context (keccak : list Z -> Z) (base : SafeBase) (turns : nat).
Context (σ : Key -> ReadResult) (δ : Z -> Z * Z).
Context (Hturns : (0 < turns)%nat).
Context (σ_wf : forall k, wfRead (σ k)) (σ_est : forall k, isEst (σ k) = false).

(** An answer that agrees with the store on versions: the same incarnation of the same
    writer left one value for a key. *)
Definition okRead (k : Key) (r : ReadResult) : Prop :=
  wfRead r /\
  (found r = true -> found (σ k) = true -> writerIdx r = writerIdx (σ k) -> writerInc r = writerInc (σ k) ->
   rVal r = rVal (σ k)).

Lemma σ_ok k : okRead k (σ k).
Proof. split; [apply σ_wf|done]. Qed.

Lemma notFound_ok k : okRead k notFound.
Proof. split; [done|]. by cbn. Qed.

(** The recorded reads match the store. *)
Definition validReads (t : Track) : Prop :=
  (forall rd, rd ∈ StoreReads t -> storeReadMatches rd (σ (rdKey rd)) = true) /\
  (forall rd, rd ∈ BalReads t -> δ (brAddr rd) = (brAdd rd, brSub rd)).

(** ** What every operation does to the records *)

Definition cfg (l : Local) : Z * gmap Z Z * bool := (TxIndex l, SenderNonces l, trackReads l).

Definition noSkip (s : PDB) : Prop :=
  forall rd, rd ∈ StoreReads (trk s) -> skipNonceForSenderChain (loc s) (rdKey rd) = false.

(** Reads are only added, and none that validation would skip. *)
Definition ext (s s' : PDB) : Prop :=
  cfg (loc s') = cfg (loc s) /\
  StoreReads (trk s) `prefix_of` StoreReads (trk s') /\
  BalReads (trk s) `prefix_of` BalReads (trk s') /\
  (noSkip s -> noSkip s').

Lemma ext_refl s : ext s s.
Proof. by split_and!. Qed.

Lemma ext_trans s1 s2 s3 : ext s1 s2 -> ext s2 s3 -> ext s1 s3.
Proof.
  intros (A1 & A2 & A3 & A4) (B1 & B2 & B3 & B4). split_and!; [congruence|by etrans|by etrans|auto].
Qed.

Lemma skip_cfg l l' k : cfg l = cfg l' -> skipNonceForSenderChain l k = skipNonceForSenderChain l' k.
Proof. intros [= _ H _]. unfold skipNonceForSenderChain. by rewrite H. Qed.

Lemma ext_local s f : cfg (f (loc s)) = cfg (loc s) -> ext s (mkPDB (f (loc s)) (Incarnation s) (trk s)).
Proof.
  intros H. split_and!; [done..|]. intros Hn rd Hrd. rewrite <- (Hn rd Hrd). by apply skip_cfg.
Qed.

Lemma ext_track s f :
  StoreReads (f (trk s)) = StoreReads (trk s) -> BalReads (f (trk s)) = BalReads (trk s) ->
  ext s (mkPDB (loc s) (Incarnation s) (f (trk s))).
Proof. intros H1 H2. split_and!; cbn; rewrite ?H1, ?H2; [done..|]. unfold noSkip. cbn. by rewrite H1. Qed.

Lemma validReads_ext s s' : ext s s' -> validReads (trk s') -> validReads (trk s).
Proof.
  intros (_ & H1 & H2 & _) [V1 V2].
  split; intros rd Hrd; [apply V1|apply V2]; eapply elem_of_prefix; eauto.
Qed.

(** [mono c m]: from a state with configuration [c], [m] only extends. *)
Definition mono {A} (c : Z * gmap Z Z * bool) (m : M A) : Prop :=
  forall s s' o, cfg (loc s) = c -> runs okRead (m s) (s', o) -> ext s s'.

Section mono.
Context (c : Z * gmap Z Z * bool).

Lemma mono_ret {A} (a : A) : mono c (mret a).
Proof. intros s s' o _ H. inversion H; subst. apply ext_refl. Qed.

Lemma mono_panic {A} w : mono c (panicM w : M A).
Proof. intros s s' o _ H. inversion H; subst. apply ext_refl. Qed.

Lemma mono_spin {A} : mono c (spinM : M A).
Proof. intros s s' o _ H. inversion H; subst. apply ext_refl. Qed.

Lemma mono_bind {A B} (m : M A) (k : A -> M B) : mono c m -> (forall a, mono c (k a)) -> mono c (m ≫= k).
Proof.
  intros Hm Hk s s' o Hc H. unfold mbind, M_bind in H. apply runs_bind in H as ([s1 o1] & H1 & H2).
  pose proof (Hm s s1 o1 Hc H1) as E1. destruct o1 as [a|w|].
  - apply ext_trans with s1; [done|]. eapply Hk; [|eassumption]. destruct E1 as [-> _]. done.
  - by inversion H2; subst.
  - by inversion H2; subst.
Qed.

Lemma mono_getL {A} (f : Local -> A) : mono c (getL f).
Proof. intros s s' o _ H. inversion H; subst. apply ext_refl. Qed.

(** A read of the configuration is known to be the configuration's. *)
Lemma mono_getL_bind {A B} (f : Local -> A) (k : A -> M B) :
  (forall l, cfg l = c -> mono c (k (f l))) -> mono c (getL f ≫= k).
Proof.
  intros Hk s s' o Hc H. unfold mbind, M_bind in H. apply runs_bind in H as ([s1 o1] & H1 & H2).
  inversion H1; subst. by eapply Hk in H2.
Qed.

Lemma mono_getT {A} (f : Track -> A) : mono c (getT f).
Proof. intros s s' o _ H. inversion H; subst. apply ext_refl. Qed.

Lemma mono_getInc : mono c getInc.
Proof. intros s s' o _ H. inversion H; subst. apply ext_refl. Qed.

Lemma mono_modL f : (forall l, cfg (f l) = cfg l) -> mono c (modL f).
Proof. intros Hf s s' o _ H. inversion H; subst. by apply ext_local. Qed.

Lemma mono_modT f :
  (forall t, StoreReads (f t) = StoreReads t) -> (forall t, BalReads (f t) = BalReads t) -> mono c (modT f).
Proof. intros H1 H2 s s' o _ H. inversion H; subst. by apply ext_track. Qed.

Lemma mono_readStore k : mono c (readStore k).
Proof. intros s s' o _ H. inversion H; subst. match goal with H : runs _ (TRet _) _ |- _ => inversion H; subst end. apply ext_refl. Qed.

Lemma mono_readDelta a : mono c (readDelta a).
Proof. intros s s' o _ H. inversion H; subst. match goal with H : runs _ (TRet _) _ |- _ => inversion H; subst end. apply ext_refl. Qed.

Lemma mono_wait j : mono c (waitForFinal j).
Proof. intros s s' o _ H. inversion H; subst. match goal with H : runs _ (TRet _) _ |- _ => inversion H; subst end. apply ext_refl. Qed.

Lemma mono_isEst k j : mono c (isEstimate k j).
Proof. intros s s' o _ H. inversion H; subst. match goal with H : runs _ (TRet _) _ |- _ => inversion H; subst end. apply ext_refl. Qed.

Lemma mono_delete k j : mono c (deleteStore k j).
Proof. intros s s' o _ H. inversion H; subst. match goal with H : runs _ (TRet _) _ |- _ => inversion H; subst end. apply ext_refl. Qed.

Lemma mono_write k v : mono c (writeStore k v).
Proof. intros s s' o _ H. inversion H; subst. match goal with H : runs _ (TRet _) _ |- _ => inversion H; subst end. apply ext_refl. Qed.

(** Recording a read whose key validation does not skip. *)
Lemma mono_record k w i v ex :
  (forall l, cfg l = c -> skipNonceForSenderChain l k = false) -> mono c (recordStoreReadEx k w i v ex).
Proof.
  intros Hk. apply mono_getL_bind. intros l Hl. case_if; [apply mono_ret|].
  intros s s' o Hc H. inversion H; subst. split_and!; cbn; [done|by apply prefix_app_r|done|].
  intros Hn rd Hrd. cbn in Hrd. apply elem_of_app in Hrd as [Hrd|Hrd]; [by apply Hn|].
  apply list_elem_of_singleton in Hrd as ->. by apply Hk.
Qed.

Lemma mono_recordBalance a x y : mono c (recordBalanceRead a x y).
Proof.
  apply mono_getL_bind. intros l Hl. case_if; [apply mono_ret|].
  intros s s' o Hc H. inversion H; subst. case_bool_decide; [by split_and!|].
  split_and!; cbn; [done|done|by apply prefix_app_r|]. done.
Qed.

End mono.

(** Only nonces are skipped. *)
Lemma skip_state l a k : skipNonceForSenderChain l (NewStateKey a k) = false.
Proof. done. Qed.

Lemma skip_path l a p : p <> NoncePath -> skipNonceForSenderChain l (NewSubpathKey a p) = false.
Proof. intros H. unfold skipNonceForSenderChain, GetSubpath, IsSubpath. cbn. by rewrite (proj2 (Z.eqb_neq _ _) H). Qed.

Create HintDb mono discriminated.
#[local] Hint Resolve mono_ret mono_panic mono_spin mono_getL mono_getT mono_getInc mono_readStore mono_readDelta
  mono_wait mono_isEst mono_delete mono_write mono_recordBalance : mono.

Ltac mono_side :=
  first [ by intros []; cbn; repeat case_match
        | intros; apply skip_state
        | intros; apply skip_path; done ].

Ltac solve_mono :=
  repeat first
    [ solve [auto with mono nocore]
    | progress cbn [fst snd]
    | match goal with
      | |- mono _ (_ ≫= _) => apply mono_bind; [|intros ?]
      | |- mono _ (modL _) => apply mono_modL; mono_side
      | |- mono _ (modT _) => apply mono_modT; mono_side
      | |- mono _ (recordStoreReadEx _ _ _ _ _) => apply mono_record; mono_side
      | |- mono _ (recordStoreRead _ _ _ _) => apply mono_record; mono_side
      | |- mono _ (if ?b then _ else _) => destruct b
      | |- mono _ (match ?x with _ => _ end) => destruct x
      | |- mono _ (let '(_, _) := ?x in _) => destruct x
      end ].

Section mono_ops.
Context (c : Z * gmap Z Z * bool).

Lemma mono_journal j : mono c (journal j).
Proof. apply mono_modL. by intros []. Qed.

Lemma mono_baseRead {A} (r : A * bool) : mono c (baseRead r).
Proof. unfold baseRead, noteBaseReadErr. solve_mono. Qed.

Lemma mono_recordWrite k : mono c (recordWrite k).
Proof. unfold recordWrite. apply mono_modL. intros []; cbn. by case_if. Qed.

Lemma mono_recordBalWrite a : mono c (recordBalWrite a).
Proof. unfold recordBalWrite. apply mono_modL. intros l. case_if; [done|]. by case_bool_decide. Qed.

Lemma mono_readStoreWait_loop n k : mono c (readStoreWait_loop n k).
Proof.
  induction n as [|n IH]; cbn [readStoreWait_loop]; [apply mono_spin|]. unfold handleEstimate. solve_mono.
Qed.

Lemma mono_readStoreWait k : mono c (readStoreWait turns k).
Proof. apply mono_readStoreWait_loop. Qed.

Lemma mono_asUint64 v : mono c (asUint64 v).
Proof. unfold asUint64. solve_mono. Qed.
Lemma mono_asHash v : mono c (asHash v).
Proof. unfold asHash. solve_mono. Qed.
Lemma mono_asBytes v : mono c (asBytes v).
Proof. unfold asBytes. solve_mono. Qed.

#[local] Hint Resolve mono_journal mono_baseRead mono_recordWrite mono_recordBalWrite mono_readStoreWait
  mono_asUint64 mono_asHash mono_asBytes : mono.

Lemma mono_readCodeKey a k : mono c (readCodeKey turns a k).
Proof. unfold readCodeKey. solve_mono. Qed.

Lemma mono_priorDestructedAt a : mono c (priorDestructedAt turns a).
Proof.
  unfold priorDestructedAt. solve_mono.
Qed.

Lemma mono_priorCreatedAt a : mono c (priorCreatedAt turns a).
Proof. unfold priorCreatedAt. solve_mono. Qed.

#[local] Hint Resolve mono_readCodeKey mono_priorDestructedAt mono_priorCreatedAt : mono.

Lemma mono_GetBalance a : mono c (GetBalance base a).
Proof. unfold GetBalance, priorBalanceDeltas. solve_mono. Qed.

(** The nonce of a sender with a chain is not read from the store. *)
Lemma mono_GetNonce a : mono c (GetNonce base turns a).
Proof.
  unfold GetNonce. apply mono_bind; [apply mono_getL|intros ln]. apply mono_getL_bind. intros l Hl.
  destruct (ln !! a); [apply mono_ret|]. destruct (SenderNonces l !! a) eqn:Hs; [apply mono_ret|].
  assert (Hk : forall l', cfg l' = c -> skipNonceForSenderChain l' (NewSubpathKey a NoncePath) = false).
  { intros l' Hl'. rewrite (skip_cfg l' l) by congruence. unfold skipNonceForSenderChain, GetAddress. cbn.
    rewrite Hs. by rewrite bool_decide_false by apply is_Some_None. }
  apply mono_bind; [apply mono_priorDestructedAt|intros si]. apply mono_bind; [apply mono_readStoreWait|intros r].
  destruct (found r); [|destruct (0 <=? si)].
  - apply mono_bind; [by apply mono_record|intros _]. solve_mono.
  - apply mono_bind; [by apply mono_record|intros _]. solve_mono.
  - apply mono_bind; [solve_mono|intros n]. apply mono_bind; [by apply mono_record|intros _]. solve_mono.
Qed.

#[local] Hint Resolve mono_GetBalance mono_GetNonce : mono.

Lemma mono_Exist a : mono c (Exist base turns a).
Proof. unfold Exist. solve_mono. Qed.

Lemma mono_GetCode a : mono c (GetCode base turns a).
Proof. unfold GetCode. solve_mono. Qed.

#[local] Hint Resolve mono_Exist mono_GetCode : mono.

Lemma mono_GetCodeHash a : mono c (GetCodeHash keccak base turns a).
Proof. unfold GetCodeHash, codeHashTail. solve_mono. Qed.

Lemma mono_AddBalance a x : mono c (AddBalance a x).
Proof. unfold AddBalance. solve_mono. Qed.

Lemma mono_SubBalance a x : mono c (SubBalance a x).
Proof. unfold SubBalance. solve_mono. Qed.

Lemma mono_CreateAccount a : mono c (CreateAccount a).
Proof. unfold CreateAccount. solve_mono. Qed.

Lemma mono_GetState a k : mono c (GetState base turns a k).
Proof. unfold GetState. solve_mono. Qed.

Lemma mono_GetCommittedState a k : mono c (GetCommittedState base turns a k).
Proof. unfold GetCommittedState. solve_mono. Qed.

#[local] Hint Resolve mono_GetCodeHash mono_AddBalance mono_SubBalance mono_CreateAccount mono_GetState
  mono_GetCommittedState : mono.

Lemma mono_SelfDestruct a : mono c (SelfDestruct base a).
Proof. unfold SelfDestruct. solve_mono. Qed.

#[local] Hint Resolve mono_SelfDestruct : mono.

Lemma cfg_revertLocal j l : cfg (revertLocal j l) = cfg l.
Proof. destruct j; cbn; repeat case_match; done. Qed.

Lemma mono_revertAll js : mono c (revertAll js).
Proof.
  induction js as [|j js IH]; cbn [revertAll]; [apply mono_ret|]. apply mono_bind.
  - apply mono_modL. apply cfg_revertLocal.
  - intros _. unfold revertStore. solve_mono.
Qed.

#[local] Hint Resolve mono_revertAll : mono.

Lemma mono_perform o : mono c (perform keccak base turns o).
Proof.
  destruct o; cbn [perform]; unfold asNum, asBool, asUnit, asCode, Empty, SetBalance, SetNonce, GetCodeSize, SetCode,
    GetStateAndCommittedState, SetState, GetStorageRoot, AddRefund, SubRefund, AddAddressToAccessList,
    AddSlotToAccessList, SetTransientState, SelfDestruct6780, CreateContract, Snapshot, RevertToSnapshot, AddLog,
    AddPreimage, RecordTransfer, Prepare; solve_mono.
Qed.

Lemma mono_runProg p : mono c (runProg keccak base turns p).
Proof.
  induction p as [r|e|w|o k IH]; cbn [runProg]; [solve_mono..|].
  apply mono_bind; [apply mono_perform|done].
Qed.

End mono_ops.

(** ** Two runs side by side

    The first run is the speculative one, the second the run on the store. *)

Context (c : Z * gmap Z Z * bool) (c_on : c.2 = true).

(** The last destruction of an account, as the store has it. *)
Definition lastDestruct (a : Z) : Z :=
  let r := σ (NewSubpathKey a SuicidePath) in if found r then writerIdx r else -1.

Record R (s1 s2 : PDB) : Prop := {
  R_loc : loc s1 = loc s2;
  R_cfg : cfg (loc s1) = c;
  R_bal1 : forall a p, balCache (trk s1) !! a = Some p -> p = δ a;
  R_bal2 : forall a p, balCache (trk s2) !! a = Some p -> p = δ a;
  R_balset : forall a, a ∈ balAddrSet (trk s1) -> is_Some (balCache (trk s1) !! a);
  R_des1 : forall a i, destructedCache (trk s1) !! a = Some i -> i = lastDestruct a;
  R_des2 : forall a i, destructedCache (trk s2) !! a = Some i -> i = lastDestruct a;
  R_seen : forall a, a ∈ destructedSeen (trk s1) -> is_Some (destructedCache (trk s1) !! a);
  R_code1 : forall a r, codeReadCache (trk s1) !! a = Some r -> okRead (NewSubpathKey a CodePath) r;
  R_code2 : forall a r, codeReadCache (trk s2) !! a = Some r -> r = σ (NewSubpathKey a CodePath);
  R_com : committedCache (trk s1) = committedCache (trk s2)
}.

Lemma R_on s1 s2 : R s1 s2 -> trackReads (loc s1) = true.
Proof. intros H. rewrite <- c_on, <- (R_cfg _ _ H). done. Qed.

(** From states in [P], a run of [m1] whose records are valid has a counterpart in the
    run of [m2] on the store. *)
Definition rel {A} (P : PDB -> PDB -> Prop) (m1 m2 : M A) (Q : PDB -> PDB -> A -> A -> Prop) : Prop :=
  forall s1 s2 s1' o, P s1 s2 -> cfg (loc s1) = c -> runs okRead (m1 s1) (s1', o) -> validReads (trk s1') ->
    match o with
    | Ok a => exists s2' a2, interp σ δ (m2 s2) = (s2', Ok a2) /\ Q s1' s2' a a2
    | Panic w => exists s2', interp σ δ (m2 s2) = (s2', Panic w) /\ loc s1' = loc s2'
    | Spin => True
    end.

(** Related states and equal results. *)
Definition Req {A} (s1 s2 : PDB) (a1 a2 : A) : Prop := R s1 s2 /\ a1 = a2.

Abbreviation sim m := (rel R m m Req).

Lemma rel_ret {A} (P : PDB -> PDB -> Prop) (a1 a2 : A) Q : (forall s1 s2, P s1 s2 -> Q s1 s2 a1 a2) -> rel P (mret a1) (mret a2) Q.
Proof. intros H s1 s2 s1' o HP _ Hr _. inversion Hr; subst. eauto. Qed.

Lemma rel_bind {A B} P (m1 m2 : M A) (k1 k2 : A -> M B) Q' Q :
  rel P m1 m2 Q' -> (forall a1 a2, rel (fun s1 s2 => Q' s1 s2 a1 a2) (k1 a1) (k2 a2) Q) ->
  mono c m1 -> (forall a, mono c (k1 a)) -> rel P (m1 ≫= k1) (m2 ≫= k2) Q.
Proof.
  intros Hm Hk Hmono1 Hmono s1 s2 s1' o HP Hc Hr Hv. unfold mbind, M_bind in *.
  apply runs_bind in Hr as ([sm om] & H1 & H2). rewrite interp_bind.
  assert (Hc' : cfg (loc sm) = c) by (destruct (Hmono1 s1 sm om Hc H1) as [-> _]; done).
  destruct om as [a|w|].
  - pose proof (Hmono a sm s1' o Hc' H2) as He.
    destruct (Hm s1 s2 sm (Ok a) HP Hc H1 (validReads_ext _ _ He Hv)) as (s2m & a2 & -> & HQ).
    by apply (Hk a a2 sm s2m s1' o).
  - inversion H2; subst. destruct (Hm s1 s2 s1' (Panic w) HP Hc H1 Hv) as (s2' & -> & Hl). by exists s2'.
  - by inversion H2; subst.
Qed.

(** Steps of one side alone. *)

Lemma rel_left {A B} P (m1 : M A) (k1 : A -> M B) m2 a Q :
  (forall s1 s2 s1' o, P s1 s2 -> runs okRead (m1 s1) (s1', o) -> P s1' s2 /\ cfg (loc s1') = cfg (loc s1) /\ o = Ok a) ->
  rel P (k1 a) m2 Q -> rel P (m1 ≫= k1) m2 Q.
Proof.
  intros Hm Hk s1 s2 s1' o HP Hc Hr Hv. unfold mbind, M_bind in Hr.
  apply runs_bind in Hr as ([sm om] & H1 & H2). destruct (Hm s1 s2 sm om HP H1) as (HP' & Hc' & ->).
  apply (Hk sm s2 s1' o); [done|by rewrite Hc'|done|done].
Qed.

Lemma rel_right {A B} P (m2 : M A) (k2 : A -> M B) m1 a Q :
  (forall s1 s2, P s1 s2 -> exists s2', interp σ δ (m2 s2) = (s2', Ok a) /\ P s1 s2') ->
  rel P m1 (k2 a) Q -> rel P m1 (m2 ≫= k2) Q.
Proof.
  intros Hm Hk s1 s2 s1' o HP Hc Hr Hv. unfold mbind, M_bind. rewrite interp_bind.
  destruct (Hm s1 s2 HP) as (s2' & -> & HP'). by apply (Hk s1 s2' s1' o).
Qed.

Lemma R_noteErr_l err s1 s2 :
  R s1 s2 -> R (mkPDB (loc s1) (Incarnation s1) (if err && negb (BaseReadErr (trk s1)) then set_BaseReadErr true (trk s1) else trk s1)) s2.
Proof. intros []. by case_if; split. Qed.

Lemma R_noteErr_r err s1 s2 :
  R s1 s2 -> R s1 (mkPDB (loc s2) (Incarnation s2) (if err && negb (BaseReadErr (trk s2)) then set_BaseReadErr true (trk s2) else trk s2)).
Proof. intros []. by case_if; split. Qed.

Lemma rel_base_l {A B} (r : A * bool) (k1 : A -> M B) m2 Q : rel R (k1 r.1) m2 Q -> rel R (x ← baseRead r; k1 x) m2 Q.
Proof.
  intros Hk. apply rel_left with r.1; [|done]. intros s1 s2 s1' o HR Hr. unfold baseRead, mbind, M_bind in Hr.
  apply runs_bind in Hr as ([sm om] & H1 & H2). inversion H1; subst. inversion H2; subst.
  split; [by apply R_noteErr_l|done].
Qed.

Lemma rel_base_r {A B} (r : A * bool) (k2 : A -> M B) m1 Q : rel R m1 (k2 r.1) Q -> rel R m1 (x ← baseRead r; k2 x) Q.
Proof.
  intros Hk. apply rel_right with r.1; [|done]. intros s1 s2 HR. eexists. split; [done|]. by apply R_noteErr_r.
Qed.

Lemma R_record_l s1 s2 v : R s1 s2 -> R (mkPDB (loc s1) (Incarnation s1) (set_StoreReads v (trk s1))) s2.
Proof. intros []. by split. Qed.

(** A read recorded by the first run holds on the store. *)
Lemma rel_record_l {B} k w i v ex (k1 : M B) m2 Q :
  (storeReadMatches (mkStoreRead k w i v ex) (σ k) = true -> rel R k1 m2 Q) -> mono c k1 ->
  rel R (_ ← recordStoreReadEx k w i v ex; k1) m2 Q.
Proof.
  intros Hk Hmono s1 s2 s1' o HR Hc Hr Hv. unfold mbind, M_bind in Hr.
  apply runs_bind in Hr as ([sm om] & H1 & H2).
  unfold recordStoreReadEx, mbind, M_bind, getL in H1. cbn [tmBind] in H1. rewrite (R_on _ _ HR) in H1.
  injection (runs_ret_inv _ _ _ H1) as -> ->. pose proof H2 as Hx. eapply Hmono in Hx as (_ & Hp & _); [|exact Hc].
  refine (Hk _ _ s2 s1' o (R_record_l s1 s2 _ HR) Hc H2 Hv). apply (proj1 Hv (mkStoreRead k w i v ex)).
  eapply elem_of_prefix; [|exact Hp]. cbn. apply elem_of_app. right. by constructor.
Qed.

Lemma rel_record_r {B} k w i v ex (k2 : M B) m1 Q : rel R m1 k2 Q -> rel R m1 (_ ← recordStoreReadEx k w i v ex; k2) Q.
Proof.
  intros Hk. apply rel_right with tt; [|done]. intros s1 s2 HR. unfold recordStoreReadEx, mbind, M_bind, getL. cbn [tmBind].
  rewrite <- (R_loc _ _ HR), (R_on _ _ HR). eexists. split; [done|]. destruct HR. by split.
Qed.

(** ** Reading the store *)

Lemma loop_answer n k s s' o :
  runs okRead (readStoreWait_loop n k s) (s', o) ->
  s' = s /\ match o with Ok r => okRead k r | Panic _ => False | Spin => True end.
Proof.
  revert s. induction n as [|n IH]; intros s Hr; cbn [readStoreWait_loop] in Hr.
  { inversion Hr; subst. done. }
  unfold mbind at 1, M_bind at 1 in Hr. apply runs_bind in Hr as ([s1 o1] & H1 & H2).
  inversion H1 as [|? ? r ? Hok Hr1| | | | |]; subst. inversion Hr1; subst. clear H1 Hr1.
  destruct (negb (found r) || (writerIdx r <? 0)); [by inversion H2; subst|].
  destruct (negb (isEst r)); [by inversion H2; subst|].
  unfold mbind, M_bind in H2. apply runs_bind in H2 as ([s2 o2] & H2 & H3).
  assert (Hh : s2 = s1 /\ (o2 = Ok true \/ o2 = Ok false)).
  { unfold handleEstimate, getInc, getL in H2. unfold mbind, M_bind in H2. cbn [tmBind] in H2.
    destruct ((Incarnation s1 =? 0) || negb (hasWaitForFinal (loc s1))).
    - inversion H2; subst. tauto.
    - cbn in H2. inversion H2 as [| | |? ? ? H4| | |]; subst. inversion H4 as [| | | |? ? ? b ? H5| |]; subst.
      destruct b; cbn in H5; [inversion H5 as [| | | | |? ? ? ? H6|]; subst; inversion H6; subst|inversion H5; subst]; tauto. }
  destruct Hh as [-> [-> | ->]]; [by apply IH|]. inversion H3; subst. split; [done|apply notFound_ok].
Qed.

Lemma interp_readStoreWait k s : interp σ δ (readStoreWait turns k s) = (s, Ok (σ k)).
Proof.
  unfold readStoreWait. destruct turns as [|n]; [lia|]. cbn [readStoreWait_loop]. unfold mbind, M_bind, readStore. cbn.
  rewrite σ_est. cbn. by case_if.
Qed.

Lemma rel_readStoreWait k :
  rel R (readStoreWait turns k) (readStoreWait turns k) (fun s1 s2 r1 r2 => R s1 s2 /\ okRead k r1 /\ r2 = σ k).
Proof.
  intros s1 s2 s1' o HR _ Hr _. apply loop_answer in Hr as [-> Ho]. destruct o as [r| |]; [|done..].
  exists s2, (σ k). by rewrite interp_readStoreWait.
Qed.

(** ** What a match says *)

Lemma σ_writer k : found (σ k) = true -> 0 <= writerIdx (σ k).
Proof. pose proof (σ_wf k) as H. unfold wfRead in H. intros Hf. rewrite Hf in H. apply H. Qed.

Lemma σ_missing k : found (σ k) = false -> σ k = notFound.
Proof. pose proof (σ_wf k) as H. unfold wfRead in H. intros Hf. by rewrite Hf in H. Qed.

Lemma match_found k r ex :
  okRead k r -> found r = true ->
  storeReadMatches (mkStoreRead k (writerIdx r) (writerInc r) (rVal r) ex) (σ k) = true ->
  found (σ k) = true /\ rVal (σ k) = rVal r /\ (ex = true -> writerIdx (σ k) = writerIdx r).
Proof.
  intros [Hwf Hver] Hf. unfold wfRead in Hwf. rewrite Hf in Hwf. destruct Hwf as [Hw [v Hv]].
  unfold storeReadMatches. rewrite σ_est. cbn [rdStoreVal rdWriterIdx rdWriterInc rdExactWriter]. rewrite Hv. cbn.
  rewrite andb_false_r. destruct ((writerIdx (σ k) =? writerIdx r) && (writerInc (σ k) =? writerInc r)) eqn:E.
  - intros _. bool_to_prop. destruct (found (σ k)) eqn:Hs.
    + split; [done|]. split; [|done]. rewrite <- Hv. symmetry. by apply Hver.
    + apply σ_missing in Hs. rewrite Hs in *. cbn in *. lia.
  - case_if; [|done]. intros _. bool_to_prop. split; [done|]. split; [|by intros ->].
    destruct (rVal (σ k)) as [u|]; [|done]. cbn in *. by case_bool_decide; subst.
Qed.

Lemma match_missing k ex :
  storeReadMatches (mkStoreRead k (-1) 0 None ex) (σ k) = true -> σ k = notFound.
Proof.
  unfold storeReadMatches. rewrite σ_est. cbn. rewrite !andb_false_r, andb_true_r. intros H.
  destruct (found (σ k)) eqn:Hf; [|by apply σ_missing]. pose proof (σ_writer k Hf). case_if; bool_to_prop; [lia|done].
Qed.

Lemma match_value k v :
  storeReadMatches (mkStoreRead k (-1) 0 (Some v) false) (σ k) = true ->
  σ k = notFound \/ (found (σ k) = true /\ rVal (σ k) = Some v).
Proof.
  unfold storeReadMatches. rewrite σ_est. cbn. rewrite andb_true_r, andb_false_r. intros H.
  destruct (found (σ k)) eqn:Hf; [right|left; by apply σ_missing]. split; [done|]. pose proof (σ_writer k Hf).
  destruct ((writerIdx (σ k) =? -1) && (writerInc (σ k) =? 0)) eqn:E; [bool_to_prop; lia|].
  cbn in H. case_if; [|done]. destruct (rVal (σ k)) as [u|]; [|done]. cbn in *. by case_bool_decide; subst.
Qed.

(** ** Operations in step *)

Lemma sim_bind {A B} (m1 m2 : M A) (k1 k2 : A -> M B) Q :
  rel R m1 m2 Req -> (forall a, rel R (k1 a) (k2 a) Q) -> mono c m1 -> (forall a, mono c (k1 a)) ->
  rel R (m1 ≫= k1) (m2 ≫= k2) Q.
Proof.
  intros Hm Hk Hm1 Hmono. eapply rel_bind; [exact Hm| |done..].
  intros a1 a2 s1 s2 s1' o [HR ->]. by apply Hk.
Qed.

Lemma sim_ret {A} (a : A) : sim (mret a).
Proof. apply rel_ret. by intros s1 s2 H. Qed.

Lemma sim_panic {A} w : sim (panicM w : M A).
Proof. intros s1 s2 s1' o HR _ Hr _. inversion Hr; subst. exists s2. split; [done|apply HR]. Qed.

Lemma sim_getL {A} (f : Local -> A) : sim (getL f).
Proof.
  intros s1 s2 s1' o HR _ Hr _. inversion Hr; subst. exists s2, (f (loc s2)). split; [done|].
  split; [done|by rewrite (R_loc _ _ HR)].
Qed.

Lemma sim_modL f : (forall l, cfg (f l) = cfg l) -> sim (modL f).
Proof.
  intros Hf s1 s2 s1' o HR _ Hr _. inversion Hr; subst. eexists _, tt. split; [done|]. split; [|done].
  destruct HR as [Hl Hcfg]. split; cbn; [by rewrite Hl|by rewrite Hf|done..].
Qed.

Lemma sim_noteErr err : sim (noteBaseReadErr err).
Proof.
  intros s1 s2 s1' o HR _ Hr _. inversion Hr; subst. eexists _, tt. split; [done|]. split; [|done].
  by apply R_noteErr_l, R_noteErr_r.
Qed.

Lemma sim_asUint64 v : sim (asUint64 v).
Proof. unfold asUint64. repeat case_match; (apply sim_ret || apply sim_panic). Qed.
Lemma sim_asHash v : sim (asHash v).
Proof. unfold asHash. repeat case_match; (apply sim_ret || apply sim_panic). Qed.
Lemma sim_asBytes v : sim (asBytes v).
Proof. unfold asBytes. repeat case_match; (apply sim_ret || apply sim_panic). Qed.

(** *** The last destruction *)

Lemma interp_priorDestructedAt a s1 s2 :
  R s1 s2 -> exists s2', interp σ δ (priorDestructedAt turns a s2) = (s2', Ok (lastDestruct a)) /\ R s1 s2'.
Proof.
  intros HR. unfold priorDestructedAt, mbind, M_bind. cbn [getT tmBind].
  destruct (destructedCache (trk s2) !! a) as [i|] eqn:Hc.
  { rewrite (R_des2 _ _ HR _ _ Hc). by exists s2. }
  rewrite interp_bind, interp_readStoreWait. cbn [tmBind]. rewrite interp_bind.
  set (k := NewSubpathKey a SuicidePath).
  assert (Hrec : forall w i v ex, exists s', interp σ δ (recordStoreReadEx k w i v ex s2) = (s', Ok tt) /\ R s1 s' /\
                   destructedCache (trk s') = destructedCache (trk s2)).
  { intros w i v ex. unfold recordStoreReadEx, mbind, M_bind, getL. cbn [tmBind].
    rewrite <- (R_loc _ _ HR), (R_on _ _ HR). eexists. split; [done|]. split; [|done]. destruct HR. by split. }
  assert (Hstep : exists s', interp σ δ ((if bool_decide (a ∈ destructedSeen (trk s2)) then mret tt
      else if found (σ k) then recordStoreReadEx k (writerIdx (σ k)) (writerInc (σ k)) (rVal (σ k)) true
      else recordStoreRead k (-1) 0 None) s2) = (s', Ok tt) /\ R s1 s').
  { case_if; [by exists s2|]. unfold recordStoreRead. case_if; edestruct Hrec as (s' & H1 & H2 & _); exists s'; split; eauto. }
  destruct Hstep as (s' & -> & HR'). cbn. eexists. split; [done|]. destruct HR'. split; cbn; [done..| |done|done|done|done].
  intros b i Hi. destruct (decide (b = a)) as [->|]; [rewrite lookup_insert_eq in Hi|rewrite lookup_insert_ne in Hi by done; eauto].
  by injection Hi as <-.
Qed.

Lemma sim_priorDestructedAt a :
  rel R (priorDestructedAt turns a) (priorDestructedAt turns a)
    (fun s1 s2 i1 i2 => R s1 s2 /\ i1 = lastDestruct a /\ i2 = lastDestruct a).
Proof.
  intros s1 s2 s1' o HR _ Hr Hv. unfold priorDestructedAt, mbind, M_bind in Hr. cbn [getT tmBind] in Hr.
  destruct (destructedCache (trk s1) !! a) as [i|] eqn:Hc.
  { inversion Hr; subst. rewrite (R_des1 _ _ HR _ _ Hc).
    destruct (interp_priorDestructedAt a s1' s2 HR) as (s2' & -> & HR'). by exists s2', (lastDestruct a). }
  apply runs_bind in Hr as ([sm om] & H1 & H2). apply loop_answer in H1 as [-> Ho].
  destruct om as [r| |]; [|done|by inversion H2; subst]. cbn [tmBind] in H2.
  rewrite bool_decide_false in H2.
  2:{ intros Hs. destruct (R_seen _ _ HR _ Hs) as [i Hi]. congruence. }
  set (k := NewSubpathKey a SuicidePath) in *.
  assert (Hrun : forall w i v ex s' o', runs okRead (recordStoreReadEx k w i v ex s1) (s', o') ->
    s' = mkPDB (loc s1) (Incarnation s1) (set_StoreReads (StoreReads (trk s1) ++ [mkStoreRead k w i v ex]) (trk s1)) /\ o' = Ok tt).
  { intros w i v ex s' o' H. unfold recordStoreReadEx, mbind, M_bind, getL in H. cbn [tmBind] in H.
    rewrite (R_on _ _ HR) in H. by inversion H; subst. }
  apply runs_bind in H2 as ([sr or] & H2 & H3).
  assert (Hidx : (if found r then writerIdx r else -1) = lastDestruct a /\ R sr s2 /\ or = Ok tt /\
                 destructedCache (trk sr) = destructedCache (trk s1) /\ destructedSeen (trk sr) = destructedSeen (trk s1)).
  { destruct (found r) eqn:Hf; apply Hrun in H2 as [-> ->]; cbn in H3; inversion H3; subst; cbn in Hv.
    - destruct (match_found k r true Ho Hf) as (Hs & _ & Hw).
      { apply (proj1 Hv (mkStoreRead k (writerIdx r) (writerInc r) (rVal r) true)). cbn. apply elem_of_app. right. by constructor. }
      split_and!; [|by apply R_record_l|done..]. unfold lastDestruct. fold k. rewrite Hs. by rewrite Hw.
    - assert (Hm : σ k = notFound).
      { apply match_missing with false. apply (proj1 Hv (mkStoreRead k (-1) 0 None false)). cbn. apply elem_of_app. right. by constructor. }
      split_and!; [|by apply R_record_l|done..]. unfold lastDestruct. fold k. by rewrite Hm. }
  destruct Hidx as (Hi & HR1 & -> & Hdc & Hds). cbn in H3. inversion H3; subst. clear H3.
  destruct (interp_priorDestructedAt a sr s2 HR1) as (s2' & -> & HR2). exists s2', (lastDestruct a).
  split; [done|]. rewrite Hi. split; [|done]. destruct HR2. split; cbn; [done..| |done| |done|done|done].
  - intros b i. destruct (decide (b = a)) as [->|]; [rewrite lookup_insert_eq; intros [= <-]; done|].
    rewrite lookup_insert_ne by done. eauto.
  - intros b Hb. destruct (decide (b = a)) as [->|]; [rewrite lookup_insert_eq; eauto|]. rewrite lookup_insert_ne by done.
    apply R_seen0. set_solver.
Qed.

(** After the last destruction is known, both sides go on with it. *)
Lemma rel_destructed {B} a (k1 k2 : Z -> M B) Q :
  rel R (k1 (lastDestruct a)) (k2 (lastDestruct a)) Q -> (forall i, mono c (k1 i)) ->
  rel R (priorDestructedAt turns a ≫= k1) (priorDestructedAt turns a ≫= k2) Q.
Proof.
  intros Hk Hmono. eapply rel_bind; [apply sim_priorDestructedAt| |apply mono_priorDestructedAt|done].
  intros i1 i2 s1 s2 s1' o (HR & -> & ->). by apply Hk.
Qed.

(** After a read of the store, the first side has an answer that agrees on versions. *)
Lemma rel_read {B} k (k1 k2 : ReadResult -> M B) Q :
  (forall r, okRead k r -> rel R (k1 r) (k2 (σ k)) Q) -> (forall r, mono c (k1 r)) ->
  rel R (readStoreWait turns k ≫= k1) (readStoreWait turns k ≫= k2) Q.
Proof.
  intros Hk Hmono. eapply rel_bind; [apply rel_readStoreWait| |apply mono_readStoreWait|done].
  intros r1 r2 s1 s2 s1' o (HR & Hok & ->). by apply (Hk r1).
Qed.

Lemma rel_readCode {B} a (k1 k2 : ReadResult -> M B) Q :
  let k := NewSubpathKey a CodePath in
  (forall r, okRead k r -> rel R (k1 r) (k2 (σ k)) Q) -> (forall r, mono c (k1 r)) ->
  rel R (readCodeKey turns a k ≫= k1) (readCodeKey turns a k ≫= k2) Q.
Proof.
  intros k Hk Hmono. eapply (rel_bind _ _ _ _ _ (fun s1 s2 r1 r2 => R s1 s2 /\ okRead k r1 /\ r2 = σ k)); [| |apply mono_readCodeKey|done].
  2:{ intros r1 r2 s1 s2 s1' o (HR & Hok & ->). by apply (Hk r1). }
  intros s1 s2 s1' o HR _ Hr Hv. unfold readCodeKey, mbind, M_bind in *. cbn [getT tmBind] in *.
  assert (H2 : exists s2', interp σ δ (match codeReadCache (trk s2) !! a with
      | Some r => mret r
      | None => r ← readStoreWait turns k; _ ← modT (λ t : Track, set_codeReadCache (<[a := r]> (codeReadCache t)) t); mret r
      end s2) = (s2', Ok (σ k)) /\ R s1 s2').
  { destruct (codeReadCache (trk s2) !! a) as [r|] eqn:Hc.
    - rewrite (R_code2 _ _ HR _ _ Hc). by exists s2.
    - unfold mbind, M_bind. rewrite interp_bind, interp_readStoreWait. cbn. eexists. split; [done|].
      destruct HR. split; cbn; [done..| |done]. intros b r. destruct (decide (b = a)) as [->|].
      + rewrite lookup_insert_eq. by intros [= <-].
      + rewrite lookup_insert_ne by done. eauto. }
  destruct H2 as (s2' & H2 & HR2). unfold mbind, M_bind in H2.
  destruct (codeReadCache (trk s1) !! a) as [r|] eqn:Hc.
  - inversion Hr; subst. exists s2', (σ k). split; [exact H2|]. split_and!; [done| |done]. by apply (R_code1 _ _ HR).
  - apply runs_bind in Hr as ([sm om] & H1 & H3). apply loop_answer in H1 as [-> Ho].
    destruct om as [r| |]; [|done|by inversion H3; subst]. cbn in H3. inversion H3; subst.
    exists s2', (σ k). split; [exact H2|]. split_and!; [|done..]. destruct HR2. split; cbn; [done..| |done|done].
    intros b r'. destruct (decide (b = a)) as [->|]; [rewrite lookup_insert_eq; by intros [= <-]|].
    rewrite lookup_insert_ne by done. eauto.
Qed.

(** What the getters of a versioned value do with the answer: honour a write after the
    last destruction, otherwise zero, otherwise the base. *)
Lemma rel_versioned {A} k si (r : ReadResult) (conv : option Value -> M A) (zero : A) (inj : A -> Value) (bv : A * bool) :
  okRead k r -> (forall a, conv (Some (inj a)) = mret a) -> (forall v, sim (conv v)) -> (forall v, mono c (conv v)) ->
  let body r :=
    if found r then
      _ ← recordStoreReadEx k (writerIdx r) (writerInc r) (rVal r) (0 <=? si);
      if si <? writerIdx r then conv (rVal r) else mret zero
    else if 0 <=? si then
      _ ← recordStoreRead k (-1) 0 (Some (inj zero)); mret zero
    else
      v ← baseRead bv; _ ← recordStoreRead k (-1) 0 (Some (inj v)); mret v in
  rel R (body r) (body (σ k)) Req.
Proof.
  intros Hok Hinj Hconv Hmono body. unfold body. unfold recordStoreRead.
  assert (Hright : forall v, rVal (σ k) = Some (inj v) -> found (σ k) = true -> (0 <= si -> v = zero) ->
    rel R (mret v) (_ ← recordStoreReadEx k (writerIdx (σ k)) (writerInc (σ k)) (rVal (σ k)) (0 <=? si);
                    if si <? writerIdx (σ k) then conv (rVal (σ k)) else mret zero) Req).
  { intros v Hv Hf Hz. apply rel_record_r. pose proof (σ_writer k Hf).
    destruct (Z.ltb_spec si (writerIdx (σ k))); [rewrite Hv, Hinj; apply sim_ret|].
    rewrite Hz by lia. apply sim_ret. }
  destruct (found r) eqn:Hf.
  - apply rel_record_l; [|case_if; [apply Hmono|apply mono_ret]]. intros Hm.
    destruct (match_found k r _ Hok Hf Hm) as (Hs & Hv & Hw). rewrite Hs. apply rel_record_r. rewrite Hv.
    assert (Heq : (si <? writerIdx (σ k)) = (si <? writerIdx r)).
    { pose proof (σ_writer k Hs). destruct Hok as [Hwf _]. unfold wfRead in Hwf. rewrite Hf in Hwf. destruct Hwf as [? _].
      destruct (Z.leb_spec 0 si); [by rewrite Hw|]. rewrite !(proj2 (Z.ltb_lt _ _)) by lia. done. }
    rewrite Heq. case_if; [apply Hconv|apply sim_ret].
  - destruct (Z.leb_spec 0 si) as [Hsi|Hsi].
    + apply rel_record_l; [|apply mono_ret]. intros Hm.
      destruct (match_value k _ Hm) as [Hn|[Hs Hv]].
      * rewrite Hn. cbn [found notFound]. apply rel_record_r. apply sim_ret.
      * rewrite Hs. by apply Hright.
    + apply rel_base_l. apply rel_record_l; [|apply mono_ret]. intros Hm.
      destruct (match_value k _ Hm) as [Hn|[Hs Hv]].
      * rewrite Hn. cbn [found notFound]. apply rel_base_r, rel_record_r. apply sim_ret.
      * rewrite Hs. apply Hright; [done..|lia].
Qed.

#[local] Hint Resolve mono_journal mono_baseRead mono_recordWrite mono_recordBalWrite mono_readStoreWait mono_asUint64
  mono_asHash mono_asBytes mono_readCodeKey mono_priorDestructedAt mono_priorCreatedAt mono_GetBalance mono_GetNonce
  mono_Exist mono_GetCode mono_GetCodeHash mono_AddBalance mono_SubBalance mono_CreateAccount mono_GetState
  mono_GetCommittedState mono_SelfDestruct mono_revertAll mono_perform : mono.

Lemma rel_getL_bind {A B} (f : Local -> A) (k1 k2 : A -> M B) Q :
  (forall l, cfg l = c -> rel R (k1 (f l)) (k2 (f l)) Q) -> rel R (getL f ≫= k1) (getL f ≫= k2) Q.
Proof.
  intros Hk s1 s2 s1' o HR Hc Hr Hv. unfold mbind, M_bind in *. cbn [getL tmBind] in *.
  rewrite <- (R_loc _ _ HR). by apply (Hk (loc s1) Hc s1 s2 s1' o).
Qed.

(** *** Nonces, code, storage *)

Lemma sim_GetNonce a : sim (GetNonce base turns a).
Proof.
  unfold GetNonce. apply rel_getL_bind. intros l _. apply rel_getL_bind. intros l' Hl'.
  destruct (localNonces l !! a); [apply sim_ret|]. destruct (SenderNonces l' !! a) eqn:Hs; [apply sim_ret|].
  assert (Hk : forall l, cfg l = c -> skipNonceForSenderChain l (NewSubpathKey a NoncePath) = false).
  { intros l0 Hl0. rewrite (skip_cfg l0 l') by congruence. unfold skipNonceForSenderChain, GetAddress. cbn.
    rewrite Hs. by rewrite bool_decide_false by apply is_Some_None. }
  assert (Hm : forall i r, mono c (if found r then
        _ ← recordStoreReadEx (NewSubpathKey a NoncePath) (writerIdx r) (writerInc r) (rVal r) (0 <=? i);
        if i <? writerIdx r then asUint64 (rVal r) else mret 0
      else if 0 <=? i then _ ← recordStoreRead (NewSubpathKey a NoncePath) (-1) 0 (Some (VUint64 0)); mret 0
      else n ← baseRead (bNonce base a); _ ← recordStoreRead (NewSubpathKey a NoncePath) (-1) 0 (Some (VUint64 n)); mret n)).
  { intros i r. repeat case_if; repeat (apply mono_bind; [first [by apply mono_record|solve_mono]|intros ?]); solve_mono. }
  apply rel_destructed; [|intros i; apply mono_bind; [apply mono_readStoreWait|apply Hm]].
  apply rel_read; [|apply Hm]. intros r Hok.
  apply (rel_versioned (NewSubpathKey a NoncePath) (lastDestruct a) r asUint64 0 VUint64 (bNonce base a));
    [done|done|apply sim_asUint64|solve_mono].
Qed.

Lemma sim_GetCode a : sim (GetCode base turns a).
Proof.
  unfold GetCode. apply rel_getL_bind. intros l _. destruct (localCode l !! a); [apply sim_ret|].
  apply rel_destructed; [|intros i; solve_mono]. apply rel_readCode; [|intros i; solve_mono]. intros r Hok.
  apply (rel_versioned (NewSubpathKey a CodePath) (lastDestruct a) r asBytes [] VBytes (bCode base a));
    [done|done|apply sim_asBytes|solve_mono].
Qed.

Lemma sim_GetState a k : sim (GetState base turns a k).
Proof.
  unfold GetState. apply rel_getL_bind. intros l _. destruct (localStorage l !! a ≫= _); [apply sim_ret|].
  apply rel_destructed; [|intros i; solve_mono]. apply rel_read; [|intros i; solve_mono]. intros r Hok.
  apply (rel_versioned (NewStateKey a k) (lastDestruct a) r asHash 0 VHash (bState base a k));
    [done|done|apply sim_asHash|solve_mono].
Qed.

(** The committed value is computed like the current one, then cached. *)

Lemma rel_getCommitted {B} (k1 k2 : gmap (Z * Z) Z -> M B) Q :
  (forall m, rel R (k1 m) (k2 m) Q) -> rel R (getT committedCache ≫= k1) (getT committedCache ≫= k2) Q.
Proof.
  intros Hk s1 s2 s1' o HR Hc Hr Hv. unfold mbind, M_bind in *. cbn [getT tmBind] in *.
  rewrite <- (R_com _ _ HR). by apply (Hk _ s1 s2 s1' o).
Qed.

Lemma sim_setCommitted a k v : sim (modT (fun t => set_committedCache (<[(a, k) := v]> (committedCache t)) t)).
Proof.
  intros s1 s2 s1' o HR _ Hr _. inversion Hr; subst. eexists _, tt. split; [done|]. split; [|done].
  destruct HR. split; cbn; [done..|]. by f_equal.
Qed.

Lemma sim_committedValue a k r :
  okRead (NewStateKey a k) r ->
  let si := lastDestruct a in
  let body r :=
    if found r then
      _ ← recordStoreReadEx (NewStateKey a k) (writerIdx r) (writerInc r) (rVal r) (0 <=? si);
      if si <? writerIdx r then asHash (rVal r) else mret 0
    else
      v ← (if si <? 0 then baseRead (bCommittedState base a k) else mret 0);
      _ ← recordStoreRead (NewStateKey a k) (-1) 0 (Some (VHash v));
      mret v in
  rel R (body r) (body (σ (NewStateKey a k))) Req.
Proof.
  intros Hok si body.
  pose proof (rel_versioned (NewStateKey a k) si r asHash 0 VHash (bCommittedState base a k) Hok
    ltac:(done) sim_asHash ltac:(solve_mono)) as H.
  cbn zeta in H. unfold body. destruct (Z.leb_spec 0 si) as [Hsi|Hsi].
  - rewrite (proj2 (Z.ltb_ge si 0)) by lia. exact H.
  - rewrite (proj2 (Z.ltb_lt si 0)) by lia. exact H.
Qed.

Lemma sim_GetCommittedState a k : sim (GetCommittedState base turns a k).
Proof.
  unfold GetCommittedState. apply rel_getCommitted. intros m. destruct (m !! (a, k)); [apply sim_ret|].
  apply rel_destructed; [|intros i; solve_mono]. apply rel_read; [|intros r; solve_mono]. intros r Hok.
  apply sim_bind; [by apply sim_committedValue|intros v|solve_mono|intros v; solve_mono].
  apply sim_bind; [apply sim_setCommitted|intros _; apply sim_ret|solve_mono|intros _; solve_mono].
Qed.

(** *** Balances *)

Definition addBalRead (a : Z) (p : Z * Z) (t : Track) : Track :=
  if bool_decide (a ∈ balAddrSet t) then t
  else set_BalReads (BalReads t ++ [mkBalRead a p.1 p.2]) (set_balAddrSet ({[a]} ∪ balAddrSet t) t).

Definition cacheBal (a : Z) (p : Z * Z) (t : Track) : Track := set_balCache (<[a := p]> (balCache t)) t.

Lemma recordBalanceRead_eq a p s :
  trackReads (loc s) = true ->
  recordBalanceRead a p.1 p.2 s = TRet (mkPDB (loc s) (Incarnation s) (addBalRead a p (trk s)), Ok tt).
Proof. intros H. unfold recordBalanceRead, mbind, M_bind, getL. cbn. by rewrite H. Qed.

Lemma R_balance_r s1 s2 a f :
  R s1 s2 -> (forall p, balCache (f (trk s2)) !! a = Some p -> p = δ a) ->
  (forall b, b <> a -> balCache (f (trk s2)) !! b = balCache (trk s2) !! b) ->
  destructedCache (f (trk s2)) = destructedCache (trk s2) -> codeReadCache (f (trk s2)) = codeReadCache (trk s2) ->
  committedCache (f (trk s2)) = committedCache (trk s2) -> R s1 (mkPDB (loc s2) (Incarnation s2) (f (trk s2))).
Proof.
  intros [] Ha Hb H1 H2 H3. split; cbn; rewrite ?H1, ?H2, ?H3; try done.
  intros b p Hp. destruct (decide (b = a)) as [->|Hn]; [by apply Ha|]. rewrite Hb in Hp by done. eauto.
Qed.

Lemma R_balance_l s1 s2 a t :
  R s1 s2 -> balCache t !! a = Some (δ a) ->
  (forall b, b <> a -> balCache t !! b = balCache (trk s1) !! b) -> balAddrSet t ⊆ {[a]} ∪ balAddrSet (trk s1) ->
  destructedCache t = destructedCache (trk s1) -> destructedSeen t = destructedSeen (trk s1) ->
  codeReadCache t = codeReadCache (trk s1) -> committedCache t = committedCache (trk s1) ->
  R (mkPDB (loc s1) (Incarnation s1) t) s2.
Proof.
  intros [] Ha Hb Hset H1 H2 H3 H4. split; cbn; rewrite ?H1, ?H2, ?H3, ?H4; try done.
  - intros b p Hp. destruct (decide (b = a)) as [->|Hn]; [congruence|]. rewrite Hb in Hp by done. eauto.
  - intros b Hin. destruct (decide (b = a)) as [->|Hn]; [by rewrite Ha|]. rewrite Hb by done. apply R_balset0. set_solver.
Qed.

Lemma rel_balance {B} a (k1 k2 : Z * Z -> M B) Q :
  rel R (k1 (δ a)) (k2 (δ a)) Q -> (forall p, mono c (k1 p)) ->
  rel R (p ← priorBalanceDeltas a; _ ← recordBalanceRead a p.1 p.2; k1 p)
        (p ← priorBalanceDeltas a; _ ← recordBalanceRead a p.1 p.2; k2 p) Q.
Proof.
  intros Hk Hmono s1 s2 s1' o HR Hc Hr Hv.
  assert (Hon2 : trackReads (loc s2) = true) by (rewrite <- (R_loc _ _ HR); by apply (R_on _ _ HR)).
  assert (H2 : exists s2', interp σ δ ((p ← priorBalanceDeltas a; _ ← recordBalanceRead a p.1 p.2; k2 p) s2)
                           = interp σ δ (k2 (δ a) s2') /\ R s1 s2').
  { unfold priorBalanceDeltas, mbind, M_bind. cbn [getT tmBind].
    destruct (balCache (trk s2) !! a) as [p|] eqn:Hp.
    - cbn [tmBind mret M_ret]. rewrite (R_bal2 _ _ HR _ _ Hp), recordBalanceRead_eq by done. cbn [tmBind].
      eexists. split; [done|]. apply (R_balance_r s1 s2 a (addBalRead a (δ a))); unfold addBalRead; [done|..];
        case_if; cbn; try done; intros p'; apply (R_bal2 _ _ HR).
    - cbn [readDelta tmBind interp modT mret M_ret].
      rewrite recordBalanceRead_eq by done. cbn [tmBind loc Incarnation trk].
      eexists. split; [done|]. apply (R_balance_r s1 s2 a (fun t => addBalRead a (δ a) (cacheBal a (δ a) t)));
        unfold addBalRead, cacheBal; [done|..]; case_if; cbn; try done;
        rewrite ?lookup_insert_eq; try (by intros p [= <-]); intros b Hb; by rewrite lookup_insert_ne. }
  destruct H2 as (s2' & -> & HR2). clear Hon2.
  unfold priorBalanceDeltas, mbind, M_bind in Hr. cbn [getT tmBind] in Hr.
  destruct (balCache (trk s1) !! a) as [p|] eqn:Hp.
  - cbn [tmBind mret M_ret] in Hr. rewrite (R_bal1 _ _ HR _ _ Hp), recordBalanceRead_eq in Hr by (by apply (R_on _ _ HR)).
    cbn [tmBind] in Hr. refine (Hk _ s2' s1' o _ _ Hr Hv); [|exact Hc]. rewrite (R_bal1 _ _ HR _ _ Hp) in Hp.
    apply (R_balance_l s1 s2' a); unfold addBalRead; [done|..]; case_if; cbn; try done; set_solver.
  - cbn [readDelta tmBind modT mret M_ret] in Hr. inversion Hr as [| |? ? p ? Hr'| | | |]; subst. clear Hr.
    rewrite recordBalanceRead_eq in Hr' by (by apply (R_on _ _ HR)). cbn [tmBind loc Incarnation trk] in Hr'.
    pose proof Hr' as Hx. eapply Hmono in Hx as (_ & _ & Hpre & _); [|exact Hc].
    unfold addBalRead in Hpre, Hr'. cbn [balAddrSet] in Hpre, Hr'.
    assert (Hns : a ∉ balAddrSet (trk s1)) by (intros Hin; destruct (R_balset _ _ HR _ Hin); congruence).
    rewrite (bool_decide_false (a ∈ balAddrSet _)) in Hpre, Hr' by exact Hns. cbn in Hpre.
    assert (Hpa : p = δ a).
    { pose proof (proj2 Hv (mkBalRead a p.1 p.2)) as Hd. cbn in Hd. rewrite Hd; [by destruct p|].
      eapply elem_of_prefix; [|exact Hpre]. apply elem_of_app. right. by constructor. }
    subst p. refine (Hk _ s2' s1' o _ _ Hr' Hv); [|exact Hc].
    apply (R_balance_l s1 s2' a); cbn; [done|by rewrite lookup_insert_eq| |done..].
    intros b Hb. by rewrite lookup_insert_ne.
Qed.

Lemma sim_baseRead {A} (r : A * bool) : sim (baseRead r).
Proof.
  unfold baseRead. apply sim_bind; [apply sim_noteErr|intros _; apply sim_ret| |intros _; apply mono_ret].
  unfold noteBaseReadErr. solve_mono.
Qed.

Lemma sim_GetBalance a : sim (GetBalance base a).
Proof.
  unfold GetBalance. apply (rel_balance a
    (fun p => bal ← baseRead (bBalance base a); getL (fun l => withLocal l a (u256 (u256 (bal + p.1) - p.2))))
    (fun p => bal ← baseRead (bBalance base a); getL (fun l => withLocal l a (u256 (u256 (bal + p.1) - p.2))))).
  - apply sim_bind; [apply sim_baseRead|intros; apply sim_getL|solve_mono|intros; solve_mono].
  - intros p. solve_mono.
Qed.

(** *** Existence and code hashes *)

Lemma sim_priorCreatedAt a : sim (priorCreatedAt turns a).
Proof.
  unfold priorCreatedAt, recordStoreRead. apply rel_read; [|intros r; solve_mono]. intros r Hok.
  destruct (found r) eqn:Hf.
  - apply rel_record_l; [|apply mono_ret]. intros Hm. destruct (match_found _ r _ Hok Hf Hm) as (Hs & _ & Hw).
    rewrite Hs. apply rel_record_r. rewrite Hw by done. apply sim_ret.
  - apply rel_record_l; [|apply mono_ret]. intros Hm. rewrite (match_missing _ _ Hm). cbn [found notFound].
    apply rel_record_r. apply sim_ret.
Qed.

Lemma sim_recordWrite k : sim (recordWrite k).
Proof. apply sim_modL. intros []; cbn. by case_if. Qed.

Lemma sim_recordBalWrite a : sim (recordBalWrite a).
Proof. apply sim_modL. intros l. case_if; [done|]. by case_bool_decide. Qed.

Lemma sim_journal j : sim (journal j).
Proof. apply sim_modL. by intros []. Qed.

Lemma sim_write k v : sim (writeStore k v).
Proof.
  intros s1 s2 s1' o HR _ Hr _. inversion Hr as [| | | | | |? ? ? ? Hr']; subst. inversion Hr'; subst.
  exists s2, tt. done.
Qed.

Lemma sim_delete k j : sim (deleteStore k j).
Proof.
  intros s1 s2 s1' o HR _ Hr _. inversion Hr as [| | | | |? ? ? ? Hr'|]; subst. inversion Hr'; subst.
  exists s2, tt. done.
Qed.

Create HintDb sim discriminated.
#[local] Hint Resolve sim_ret sim_panic sim_getL sim_baseRead sim_journal sim_recordWrite sim_recordBalWrite sim_write
  sim_delete sim_asUint64 sim_asHash sim_asBytes sim_GetNonce sim_GetCode sim_GetState sim_GetCommittedState
  sim_GetBalance sim_priorCreatedAt : sim.

Ltac solve_sim :=
  repeat first
    [ solve [auto with sim nocore]
    | progress cbn [fst snd]
    | match goal with
      | |- rel R (getL _ ≫= _) _ _ => apply rel_getL_bind; intros ? ?
      | |- rel R (priorDestructedAt _ _ ≫= _) _ _ => apply rel_destructed; [|intros ?; solve_mono]
      | |- rel R (_ ≫= _) _ _ => apply sim_bind; [|intros ?|solve_mono|intros ?; solve_mono]
      | |- rel R (modL _) _ _ => apply sim_modL; mono_side
      | |- rel R (if ?b then _ else _) _ _ => destruct b
      | |- rel R (match ?x with _ => _ end) _ _ => destruct x
      end ].

Lemma sim_Exist a : sim (Exist base turns a).
Proof. unfold Exist. solve_sim. Qed.

#[local] Hint Resolve sim_Exist : sim.

Lemma sim_codeHashTail a i : sim (codeHashTail keccak base turns a i).
Proof. unfold codeHashTail. solve_sim. Qed.

Lemma mono_codeHashTail a i : mono c (codeHashTail keccak base turns a i).
Proof. unfold codeHashTail. solve_mono. Qed.

#[local] Hint Resolve mono_codeHashTail : mono.

Lemma sim_GetCodeHash a : sim (GetCodeHash keccak base turns a).
Proof.
  unfold GetCodeHash. apply rel_getL_bind. intros l _. destruct (localCode l !! a); [solve_sim|].
  apply rel_destructed; [|intros i; solve_mono]. apply rel_readCode; [|intros i; solve_mono]. intros r Hok.
  set (k := NewSubpathKey a CodePath) in *. set (si := lastDestruct a). unfold recordStoreRead.
  destruct (found r) eqn:Hf.
  - apply rel_record_l; [|solve_mono]. intros Hm. destruct (match_found k r _ Hok Hf Hm) as (Hs & Hv & Hw).
    rewrite Hs. apply rel_record_r. rewrite Hv.
    assert (Heq : (si <? writerIdx (σ k)) = (si <? writerIdx r)).
    { pose proof (σ_writer k Hs). destruct Hok as [Hwf _]. unfold wfRead in Hwf. rewrite Hf in Hwf. destruct Hwf as [? _].
      destruct (Z.leb_spec 0 si); [by rewrite Hw|]. rewrite !(proj2 (Z.ltb_lt _ _)) by lia. done. }
    rewrite Heq. case_if; [solve_sim|apply sim_codeHashTail].
  - apply rel_record_l; [|solve_mono]. intros Hm. rewrite (match_missing _ _ Hm). cbn [found notFound].
    apply rel_record_r. apply sim_codeHashTail.
Qed.

Lemma sim_AddBalance a x : sim (AddBalance a x).
Proof. unfold AddBalance. solve_sim. Qed.

Lemma sim_SubBalance a x : sim (SubBalance a x).
Proof. unfold SubBalance. solve_sim. Qed.

Lemma sim_CreateAccount a : sim (CreateAccount a).
Proof. unfold CreateAccount. solve_sim. Qed.

#[local] Hint Resolve sim_GetCodeHash sim_AddBalance sim_SubBalance sim_CreateAccount : sim.

Lemma sim_SelfDestruct a : sim (SelfDestruct base a).
Proof. unfold SelfDestruct. solve_sim. Qed.

#[local] Hint Resolve sim_SelfDestruct : sim.

Lemma sim_revertAll js : sim (revertAll js).
Proof.
  induction js as [|j js IH]; cbn [revertAll]; [apply sim_ret|].
  apply sim_bind; [apply sim_modL, cfg_revertLocal|intros _| |intros _; unfold revertStore; solve_mono].
  - unfold revertStore. apply sim_bind; [|done| |intros; solve_mono]; [solve_sim|solve_mono].
  - apply mono_modL, cfg_revertLocal.
Qed.

#[local] Hint Resolve sim_revertAll : sim.

Lemma sim_perform o : sim (perform keccak base turns o).
Proof.
  destruct o; cbn [perform]; unfold asNum, asBool, asUnit, asCode, Empty, SetBalance, SetNonce, GetCodeSize, SetCode,
    GetStateAndCommittedState, SetState, GetStorageRoot, AddRefund, SubRefund, AddAddressToAccessList,
    AddSlotToAccessList, SetTransientState, SelfDestruct6780, CreateContract, Snapshot, RevertToSnapshot, AddLog,
    AddPreimage, RecordTransfer, Prepare; solve_sim.
Qed.

Lemma sim_runProg p : sim (runProg keccak base turns p).
Proof.
  induction p as [r|e|w|o k IH]; cbn [runProg]; [solve_sim..|].
  apply sim_bind; [apply sim_perform|done|solve_mono|intros a; apply mono_runProg].
Qed.

End sim.

End ParallelRead.
