(* ===== verification/ParallelRun.v ===== *)
(** * Runs of a transaction

    Three facts about every run of a transaction on a [ParallelStateDB] with deferred
    writes: it only reads the shared stores, it does not depend on incarnation numbers,
    and a run whose records are valid on a store did what the run on that store does. *)

From S2P Require Import Prelude Bytes MvStore MvStoreProps ParallelState ParallelRead.
Import MvStore MvStoreProps ParallelState ParallelRead.

Module ParallelRun.

(** ** Quiet runs

    A first execution, and a repeated one that meets no estimate, only read: they do not
    wait, and change nothing in the store before they are done. *)

Inductive quiet {A} (ok : ReadResult -> Prop) (Φ : A -> Prop) : tm A -> Prop :=
| quiet_ret a : Φ a -> quiet ok Φ (TRet a)
| quiet_read k c : (forall r, ok r -> quiet ok Φ (c r)) -> quiet ok Φ (TRead k c)
| quiet_delta a c : (forall p, quiet ok Φ (c p)) -> quiet ok Φ (TDelta a c).

Lemma quiet_bind {A B} ok (Φ : A -> Prop) (Ψ : B -> Prop) t f :
  quiet ok Φ t -> (forall a, Φ a -> quiet ok Ψ (f a)) -> quiet ok Ψ (tmBind t f).
Proof. intros H Hf. induction H; cbn [tmBind]; [by apply Hf|by constructor..]. Qed.

(** Every run of a quiet tree with such answers ends as promised. *)
Lemma quiet_runs {A} ok (Φ : A -> Prop) t a : quiet ok Φ t -> runs (fun _ r => ok r) t a -> Φ a.
Proof. intros H. induction H; intros Hr; inversion Hr; subst; eauto. Qed.

Lemma quiet_interp {A} ok (Φ : A -> Prop) σ δ t : quiet ok Φ t -> (forall k, ok (σ k)) -> Φ (interp σ δ t).
Proof. intros H Hσ. induction H; cbn; auto. Qed.

(** The answers that keep incarnation [inc] from waiting. *)
Definition okInc (inc : Z) (r : ReadResult) : Prop := inc = 0 \/ isEst r = false.

Definition quietM {A} (m : M A) : Prop :=
  forall s, DeferMVWrites (loc s) = true ->
    quiet (okInc (Incarnation s))
      (fun p => Incarnation p.1 = Incarnation s /\ DeferMVWrites (loc p.1) = true /\ p.2 <> Spin) (m s).

Section quiet.
Context (keccak : list Z -> Z) (base : SafeBase) (turns : nat) (Hturns : (0 < turns)%nat).

Lemma q_ret {A} (a : A) : quietM (mret a).
Proof. intros s Hs. by constructor. Qed.

Lemma q_panic {A} w : quietM (panicM w : M A).
Proof. intros s Hs. by constructor. Qed.

Lemma q_bind {A B} (m : M A) (k : A -> M B) : quietM m -> (forall a, quietM (k a)) -> quietM (m ≫= k).
Proof.
  intros Hm Hk s Hs. unfold mbind, M_bind. eapply quiet_bind; [by apply Hm|]. cbn. intros [s' o] (Hi & Hd & Hsp).
  cbn in *. destruct o as [a|w|]; [|by constructor|done]. rewrite <- Hi. by apply Hk.
Qed.

Lemma q_getL {A} (f : Local -> A) : quietM (getL f).
Proof. intros s Hs. by constructor. Qed.

Lemma q_getL_bind {A B} (f : Local -> A) (k : A -> M B) :
  (forall l, DeferMVWrites l = true -> quietM (k (f l))) -> quietM (getL f ≫= k).
Proof. intros Hk s Hs. unfold mbind, M_bind. cbn. by apply Hk. Qed.

Lemma q_getT {A} (f : Track -> A) : quietM (getT f).
Proof. intros s Hs. by constructor. Qed.

Lemma q_modL f : (forall l, DeferMVWrites (f l) = DeferMVWrites l) -> quietM (modL f).
Proof. intros Hf s Hs. constructor. cbn. by rewrite Hf. Qed.

Lemma q_modT f : quietM (modT f).
Proof. intros s Hs. by constructor. Qed.

Lemma q_readDelta a : quietM (readDelta a).
Proof. intros s Hs. constructor. intros p. by constructor. Qed.

Lemma q_readStoreWait k : quietM (readStoreWait turns k).
Proof.
  intros s Hs. unfold readStoreWait. destruct turns as [|n]; [lia|]. cbn [readStoreWait_loop].
  unfold mbind, M_bind, readStore. cbn [tmBind]. constructor. intros r Hr.
  destruct (negb (found r) || (writerIdx r <? 0)); [by constructor|].
  destruct (isEst r) eqn:He; cbn [negb]; [|by constructor]. destruct Hr as [Hi|Hi]; [|congruence].
  unfold handleEstimate, getInc, getL, mbind, M_bind. cbn. rewrite Hi. cbn. by constructor.
Qed.

Create HintDb quiet discriminated.
#[local] Hint Resolve q_ret q_panic q_getL q_getT q_modT q_readDelta q_readStoreWait : quiet.

Ltac solve_quiet :=
  repeat first
    [ solve [auto with quiet nocore]
    | progress cbn [fst snd]
    | match goal with
      | |- quietM (getL DeferMVWrites ≫= _) => apply q_getL_bind; intros ? ->; cbn [negb]
      | |- quietM (_ ≫= _) => apply q_bind; [|intros ?]
      | |- quietM (modL _) => apply q_modL; by intros []; cbn; repeat case_match
      | |- quietM (if ?b then _ else _) => destruct b
      | |- quietM (match ?x with _ => _ end) => destruct x
      end ].

Lemma q_recordStoreReadEx k w i v ex : quietM (recordStoreReadEx k w i v ex).
Proof. unfold recordStoreReadEx. solve_quiet. Qed.
Lemma q_recordBalanceRead a x y : quietM (recordBalanceRead a x y).
Proof. unfold recordBalanceRead. solve_quiet. Qed.
Lemma q_baseRead {A} (r : A * bool) : quietM (baseRead r).
Proof. unfold baseRead, noteBaseReadErr. solve_quiet. Qed.
Lemma q_journal j : quietM (journal j).
Proof. unfold journal. solve_quiet. Qed.
Lemma q_recordWrite k : quietM (recordWrite k).
Proof. unfold recordWrite. solve_quiet. Qed.
Lemma q_recordBalWrite a : quietM (recordBalWrite a).
Proof. unfold recordBalWrite. apply q_modL. intros l. case_if; [done|]. by case_bool_decide. Qed.
Lemma q_asUint64 v : quietM (asUint64 v).
Proof. unfold asUint64. solve_quiet. Qed.
Lemma q_asHash v : quietM (asHash v).
Proof. unfold asHash. solve_quiet. Qed.
Lemma q_asBytes v : quietM (asBytes v).
Proof. unfold asBytes. solve_quiet. Qed.

#[local] Hint Resolve q_recordStoreReadEx q_recordBalanceRead q_baseRead q_journal q_recordWrite q_recordBalWrite
  q_asUint64 q_asHash q_asBytes : quiet.

Lemma q_readCodeKey a k : quietM (readCodeKey turns a k).
Proof. unfold readCodeKey. solve_quiet. Qed.
Lemma q_priorDestructedAt a : quietM (priorDestructedAt turns a).
Proof. unfold priorDestructedAt, recordStoreRead. solve_quiet. Qed.
Lemma q_priorCreatedAt a : quietM (priorCreatedAt turns a).
Proof. unfold priorCreatedAt, recordStoreRead. solve_quiet. Qed.
Lemma q_GetBalance a : quietM (GetBalance base a).
Proof. unfold GetBalance, priorBalanceDeltas. solve_quiet. Qed.

#[local] Hint Resolve q_readCodeKey q_priorDestructedAt q_priorCreatedAt q_GetBalance : quiet.

Lemma q_GetNonce a : quietM (GetNonce base turns a).
Proof. unfold GetNonce, recordStoreRead. solve_quiet. Qed.

#[local] Hint Resolve q_GetNonce : quiet.

Lemma q_Exist a : quietM (Exist base turns a).
Proof. unfold Exist. solve_quiet. Qed.
Lemma q_GetCode a : quietM (GetCode base turns a).
Proof. unfold GetCode, recordStoreRead. solve_quiet. Qed.
Lemma q_GetState a k : quietM (GetState base turns a k).
Proof. unfold GetState, recordStoreRead. solve_quiet. Qed.
Lemma q_GetCommittedState a k : quietM (GetCommittedState base turns a k).
Proof. unfold GetCommittedState, recordStoreRead. solve_quiet. Qed.

#[local] Hint Resolve q_Exist q_GetCode q_GetState q_GetCommittedState : quiet.

Lemma q_GetCodeHash a : quietM (GetCodeHash keccak base turns a).
Proof. unfold GetCodeHash, codeHashTail, recordStoreRead. solve_quiet. Qed.
Lemma q_AddBalance a x : quietM (AddBalance a x).
Proof. unfold AddBalance. solve_quiet. Qed.
Lemma q_SubBalance a x : quietM (SubBalance a x).
Proof. unfold SubBalance. solve_quiet. Qed.
Lemma q_CreateAccount a : quietM (CreateAccount a).
Proof. unfold CreateAccount. solve_quiet. Qed.

#[local] Hint Resolve q_GetCodeHash q_AddBalance q_SubBalance q_CreateAccount : quiet.

Lemma q_SelfDestruct a : quietM (SelfDestruct base a).
Proof. unfold SelfDestruct. solve_quiet. Qed.

Lemma q_revertAll js : quietM (revertAll js).
Proof.
  induction js as [|j js IH]; cbn [revertAll]; [apply q_ret|]. apply q_bind.
  - apply q_modL. intros l. destruct j; cbn; repeat case_match; done.
  - intros _. unfold revertStore. solve_quiet.
Qed.

#[local] Hint Resolve q_SelfDestruct q_revertAll : quiet.

Lemma q_perform o : quietM (perform keccak base turns o).
Proof.
  destruct o; cbn [perform]; unfold asNum, asBool, asUnit, asCode, Empty, SetBalance, SetNonce, GetCodeSize, SetCode,
    GetStateAndCommittedState, SetState, GetStorageRoot, AddRefund, SubRefund, AddAddressToAccessList,
    AddSlotToAccessList, SetTransientState, SelfDestruct6780, CreateContract, Snapshot, RevertToSnapshot, AddLog,
    AddPreimage, RecordTransfer, Prepare; solve_quiet.
Qed.

Lemma q_runProg p : quietM (runProg keccak base turns p).
Proof.
  induction p as [r|e|w|o k IH]; cbn [runProg]; [solve_quiet..|]. apply q_bind; [apply q_perform|done].
Qed.

End quiet.

(** ** Incarnation numbers do not matter

    Two stores that differ in the incarnations of their versions only, and two states
    that differ in their own incarnation and in what they recorded. *)

Definition sameVersion (r r' : ReadResult) : Prop :=
  rVal r = rVal r' /\ writerIdx r = writerIdx r' /\ found r = found r' /\ isEst r = isEst r'.

Section erase.
Context (keccak : list Z -> Z) (base : SafeBase) (turns : nat) (Hturns : (0 < turns)%nat).
Context (σ σ' : Key -> ReadResult) (δ : Z -> Z * Z).
Context (σ_est : forall k, isEst (σ k) = false) (σ_same : forall k, sameVersion (σ k) (σ' k)).

Lemma σ'_est k : isEst (σ' k) = false.
Proof. rewrite <- (σ_est k). symmetry. apply σ_same. Qed.

Record E (s s' : PDB) : Prop := {
  E_loc : loc s = loc s';
  E_bal : balCache (trk s) = balCache (trk s');
  E_des : destructedCache (trk s) = destructedCache (trk s');
  E_seen : destructedSeen (trk s) = destructedSeen (trk s');
  E_com : committedCache (trk s) = committedCache (trk s');
  E_code : forall a, option_Forall2 sameVersion (codeReadCache (trk s) !! a) (codeReadCache (trk s') !! a)
}.

Definition erel {A} (Q : A -> A -> Prop) (m m' : M A) : Prop :=
  forall s s', E s s' ->
    E (interp σ δ (m s)).1 (interp σ' δ (m' s')).1 /\
    match (interp σ δ (m s)).2, (interp σ' δ (m' s')).2 with
    | Ok a, Ok a' => Q a a'
    | Panic w, Panic w' => w = w'
    | Spin, Spin => True
    | _, _ => False
    end.

Abbreviation same m := (erel eq m m).

Lemma e_ret {A} (Q : A -> A -> Prop) a a' : Q a a' -> erel Q (mret a) (mret a').
Proof. by intros H s s' HE. Qed.

Lemma e_same_ret {A} (a : A) : same (mret a).
Proof. by apply e_ret. Qed.

Lemma e_panic {A} w : same (panicM w : M A).
Proof. by intros s s' HE. Qed.

Lemma e_bind {A B} (P : A -> A -> Prop) (Q : B -> B -> Prop) m m' k k' :
  erel P m m' -> (forall a a', P a a' -> erel Q (k a) (k' a')) -> erel Q (m ≫= k) (m' ≫= k').
Proof.
  intros Hm Hk s s' HE. unfold mbind, M_bind. rewrite !interp_bind. specialize (Hm s s' HE).
  destruct (interp σ δ (m s)) as [t [a|w|]], (interp σ' δ (m' s')) as [t' [a'|w'|]]; cbn in *; destruct Hm as [HE' HQ];
    try done. by apply (Hk a a' HQ).
Qed.

Lemma e_bind_eq {A B} (Q : B -> B -> Prop) (m m' : M A) k k' :
  erel eq m m' -> (forall a, erel Q (k a) (k' a)) -> erel Q (m ≫= k) (m' ≫= k').
Proof. intros Hm Hk. eapply e_bind; [exact Hm|]. by intros a a' ->. Qed.

Lemma e_getL {A} (f : Local -> A) : same (getL f).
Proof. intros s s' HE. split; [done|]. cbn. by rewrite (E_loc _ _ HE). Qed.

Lemma e_modL f : same (modL f).
Proof. intros s s' []. split; [split; cbn; first [done|by f_equal]|done]. Qed.

Lemma e_des : same (getT destructedCache).
Proof. intros s s' HE. split; [done|]. cbn. apply HE. Qed.
Lemma e_seen : same (getT destructedSeen).
Proof. intros s s' HE. split; [done|]. cbn. apply HE. Qed.
Lemma e_com : same (getT committedCache).
Proof. intros s s' HE. split; [done|]. cbn. apply HE. Qed.
Lemma e_bal : same (getT balCache).
Proof. intros s s' HE. split; [done|]. cbn. apply HE. Qed.

(** A change of the track that the relation sees alike on both sides. *)
Lemma e_modT f f' : (forall s s', E s s' -> E (mkPDB (loc s) (Incarnation s) (f (trk s))) (mkPDB (loc s') (Incarnation s') (f' (trk s')))) ->
  erel eq (modT f) (modT f').
Proof. intros H s s' HE. split; [by apply H|done]. Qed.

Lemma e_readDelta a : same (readDelta a).
Proof. intros s s' HE. by split. Qed.

Lemma e_readStoreWait k : erel sameVersion (readStoreWait turns k) (readStoreWait turns k).
Proof.
  intros s s' HE. rewrite (interp_readStoreWait turns σ δ Hturns σ_est).
  rewrite (interp_readStoreWait turns σ' δ Hturns σ'_est). split; [done|apply σ_same].
Qed.

Lemma e_record k w i i' v ex : erel eq (recordStoreReadEx k w i v ex) (recordStoreReadEx k w i' v ex).
Proof.
  unfold recordStoreReadEx. apply e_bind_eq; [apply e_getL|]. intros on. case_if; [apply e_same_ret|].
  apply e_modT. intros s s' []. by split.
Qed.

Lemma e_recordBal a x y : same (recordBalanceRead a x y).
Proof.
  unfold recordBalanceRead. apply e_bind_eq; [apply e_getL|]. intros on. case_if; [apply e_same_ret|].
  apply e_modT. intros s s' []. by repeat case_bool_decide; split.
Qed.

Lemma e_baseRead {A} (r : A * bool) : same (baseRead r).
Proof.
  unfold baseRead, noteBaseReadErr. apply e_bind_eq; [|intros; apply e_same_ret].
  apply e_modT. intros s s' []. by repeat case_if; split.
Qed.

Lemma e_readCodeKey a k : erel sameVersion (readCodeKey turns a k) (readCodeKey turns a k).
Proof.
  intros s s' HE. unfold readCodeKey.
  unfold mbind, M_bind. cbn [getT tmBind]. pose proof (E_code _ _ HE a) as Hc.
  destruct (codeReadCache (trk s) !! a) as [r|], (codeReadCache (trk s') !! a) as [r'|];
    inversion Hc; subst; [by split|].
  rewrite !interp_bind, (interp_readStoreWait turns σ δ Hturns σ_est), (interp_readStoreWait turns σ' δ Hturns σ'_est).
  cbn. split; [|apply σ_same]. destruct HE. split; cbn; try done. intros b.
  destruct (decide (b = a)) as [->|]; [rewrite !lookup_insert_eq; constructor; apply σ_same|].
  rewrite !lookup_insert_ne by done. apply E_code0.
Qed.

Lemma e_write k v : same (writeStore k v).
Proof. intros s s' HE. by split. Qed.
Lemma e_delete k j : same (deleteStore k j).
Proof. intros s s' HE. by split. Qed.

Create HintDb erase discriminated.
#[local] Hint Resolve e_same_ret e_panic e_getL e_modL e_des e_seen e_com e_bal e_readDelta e_record e_recordBal e_baseRead
  e_write e_delete : erase.

Ltac solve_erase :=
  repeat first
    [ solve [auto with erase nocore]
    | progress cbn [fst snd rVal writerIdx writerInc found isEst]
    | match goal with
      | |- erel _ (readStoreWait _ _ ≫= _) _ =>
          eapply e_bind; [apply e_readStoreWait|intros [] [] (? & ? & ? & ?); cbn in *; subst]
      | |- erel _ (readCodeKey _ _ _ ≫= _) _ =>
          eapply e_bind; [apply e_readCodeKey|intros [] [] (? & ? & ? & ?); cbn in *; subst]
      | |- erel _ (_ ≫= _) _ => apply e_bind_eq; [|intros ?]
      | |- erel _ (modT _) _ => apply e_modT; intros ? ? []; split; cbn; first [done|by f_equal]
      | |- erel _ (if ?b then _ else _) _ => destruct b
      | |- erel _ (match ?x with _ => _ end) _ => destruct x
      end ].

Lemma e_asUint64 v : same (asUint64 v).
Proof. unfold asUint64. solve_erase. Qed.
Lemma e_asHash v : same (asHash v).
Proof. unfold asHash. solve_erase. Qed.
Lemma e_asBytes v : same (asBytes v).
Proof. unfold asBytes. solve_erase. Qed.
Lemma e_journal j : same (journal j).
Proof. apply e_modL. Qed.
Lemma e_recordWrite k : same (recordWrite k).
Proof. apply e_modL. Qed.
Lemma e_recordBalWrite a : same (recordBalWrite a).
Proof. apply e_modL. Qed.

#[local] Hint Resolve e_asUint64 e_asHash e_asBytes e_journal e_recordWrite e_recordBalWrite : erase.

Lemma e_priorDestructedAt a : same (priorDestructedAt turns a).
Proof. unfold priorDestructedAt, recordStoreRead. solve_erase. Qed.
Lemma e_priorCreatedAt a : same (priorCreatedAt turns a).
Proof. unfold priorCreatedAt, recordStoreRead. solve_erase. Qed.
Lemma e_GetBalance a : same (GetBalance base a).
Proof. unfold GetBalance, priorBalanceDeltas. solve_erase. Qed.

#[local] Hint Resolve e_priorDestructedAt e_priorCreatedAt e_GetBalance : erase.

Lemma e_GetNonce a : same (GetNonce base turns a).
Proof. unfold GetNonce, recordStoreRead. solve_erase. Qed.

#[local] Hint Resolve e_GetNonce : erase.

Lemma e_Exist a : same (Exist base turns a).
Proof. unfold Exist. solve_erase. Qed.
Lemma e_GetCode a : same (GetCode base turns a).
Proof. unfold GetCode, recordStoreRead. solve_erase. Qed.
Lemma e_GetState a k : same (GetState base turns a k).
Proof. unfold GetState, recordStoreRead. solve_erase. Qed.
Lemma e_GetCommittedState a k : same (GetCommittedState base turns a k).
Proof. unfold GetCommittedState, recordStoreRead. solve_erase. Qed.

#[local] Hint Resolve e_Exist e_GetCode e_GetState e_GetCommittedState : erase.

Lemma e_GetCodeHash a : same (GetCodeHash keccak base turns a).
Proof. unfold GetCodeHash, codeHashTail, recordStoreRead. solve_erase. Qed.
Lemma e_AddBalance a x : same (AddBalance a x).
Proof. unfold AddBalance. solve_erase. Qed.
Lemma e_SubBalance a x : same (SubBalance a x).
Proof. unfold SubBalance. solve_erase. Qed.
Lemma e_CreateAccount a : same (CreateAccount a).
Proof. unfold CreateAccount. solve_erase. Qed.

#[local] Hint Resolve e_GetCodeHash e_AddBalance e_SubBalance e_CreateAccount : erase.

Lemma e_SelfDestruct a : same (SelfDestruct base a).
Proof. unfold SelfDestruct. solve_erase. Qed.

Lemma e_revertAll js : same (revertAll js).
Proof. induction js as [|j js IH]; cbn [revertAll]; unfold revertStore; solve_erase. Qed.

#[local] Hint Resolve e_SelfDestruct e_revertAll : erase.

Lemma e_perform o : same (perform keccak base turns o).
Proof.
  destruct o; cbn [perform]; unfold asNum, asBool, asUnit, asCode, Empty, SetBalance, SetNonce, GetCodeSize, SetCode,
    GetStateAndCommittedState, SetState, GetStorageRoot, AddRefund, SubRefund, AddAddressToAccessList,
    AddSlotToAccessList, SetTransientState, SelfDestruct6780, CreateContract, Snapshot, RevertToSnapshot, AddLog,
    AddPreimage, RecordTransfer, Prepare; solve_erase.
Qed.

Lemma e_runProg p : same (runProg keccak base turns p).
Proof.
  induction p as [r|e|w|o k IH]; cbn [runProg]; [solve_erase..|]. apply e_bind_eq; [apply e_perform|done].
Qed.

End erase.

(** ** Executions *)

Lemma runs_weaken {A} (ok ok' : Key -> ReadResult -> Prop) (t : tm A) a :
  (forall k r, ok k r -> ok' k r) -> runs ok t a -> runs ok' t a.
Proof. intros H Hr. induction Hr; eauto using @runs. Qed.

(** A store without estimates or negative writers. *)
Definition settledBelow (s : MVStore) (tx : Z) : Prop :=
  wfStore s /\ forall k, wfRead (ReadVersionFull s k tx) /\ isEst (ReadVersionFull s k tx) = false.

Lemma settledBelow_cells s tx :
  wfStore s -> (forall k j e, j < tx -> cell s k j = Some e -> 0 <= j /\ estimate e = false) -> settledBelow s tx.
Proof.
  intros Hwf Hc. split; [done|]. intros k. unfold ReadVersionFull.
  destruct (negb (mayContain (bloom s) k)); [by split|].
  pose proof (read_cells s k tx Hwf) as H. destruct (searchTx txIdx (entriesOf s k) tx) as [|p]; [by split|].
  destruct H as (e & -> & He & Hlt & _). destruct (Hc k _ e Hlt He) as [H1 H2]. split; [|done].
  unfold wfRead. cbn. by split.
Qed.

Section execution.
Context (keccak : list Z -> Z) (base : SafeBase) (turns : nat) (Hturns : (0 < turns)%nat).
Context (sn : gmap Z Z) (coinbase : Z).

Abbreviation exec rec t inc := (Execute keccak base turns rec t inc sn coinbase true).

(** The execution of a transaction on a store nobody else changes. *)
Definition runOn (s : MVStore) (b : MVBalanceStore) (t : Task) : PDB :=
  interp (fun k => ReadVersionFull s k (tIndex t)) (fun a => ReadDelta b a (tIndex t)) (exec None t 0).

(** What a run leaves is fixed by its state before marking a panic. *)
Lemma exec_quiet rec t inc : quiet (okInc inc) (fun p => Incarnation p = inc) (exec rec t inc).
Proof.
  unfold Execute, applyMessage. set (s := preparePDB rec t inc sn coinbase true).
  assert (Hi : Incarnation s = inc) by (by destruct rec).
  eapply quiet_bind; [rewrite <- Hi; apply q_runProg; [done|by destruct rec]|].
  intros [s' o] (H1 & H2 & H3). cbn [fst snd] in *. destruct o; [..|done]; constructor; cbn; congruence.
Qed.

Lemma prepare_loc rec rec' t inc inc' :
  loc (preparePDB rec t inc sn coinbase true) = loc (preparePDB rec' t inc' sn coinbase true).
Proof. by destruct rec, rec'. Qed.

Lemma prepare_trk rec t inc : trk (preparePDB rec t inc sn coinbase true) = newTrack.
Proof. by destruct rec. Qed.

Lemma R_start σ δ rec rec' t inc inc' :
  R σ δ (tIndex t, sn, true) (preparePDB rec t inc sn coinbase true) (preparePDB rec' t inc' sn coinbase true).
Proof.
  split; rewrite ?prepare_trk; [apply prepare_loc|by destruct rec|done..].
Qed.

(** A run whose answers agree on versions with a store and whose records match it did
    what the run on that store does, to the last field, panics included. *)
Lemma validated_run σ δ rec t inc p :
  (forall k, wfRead (σ k)) -> (forall k, isEst (σ k) = false) ->
  runs (fun k r => okRead σ k r /\ okInc inc r) (exec rec t inc) p -> validReads σ δ (trk p) ->
  loc p = loc (interp σ δ (exec None t 0)).
Proof.
  intros Hwf Hest Hr Hv. unfold Execute, applyMessage in *. set (s1 := preparePDB rec t inc sn coinbase true) in *.
  apply runs_bind in Hr as ([s1' o] & Hr & Hend). rewrite interp_bind.
  assert (Hspin : o <> Spin).
  { assert (Hi : Incarnation s1 = inc) by (by unfold s1; destruct rec).
    assert (Hd : DeferMVWrites (loc s1) = true) by (by unfold s1; destruct rec).
    apply (quiet_runs _ _ _ (s1', o) (q_runProg keccak base turns Hturns (tProg t) s1 Hd)).
    eapply runs_weaken; [|exact Hr]. intros k r [_ Ho]. by rewrite Hi. }
  assert (Hvs : validReads σ δ (trk s1')) by (destruct o; inversion Hend; subst; done).
  pose proof (sim_runProg keccak base turns σ δ Hturns Hwf Hest (tIndex t, sn, true) eq_refl (tProg t) s1
    (preparePDB None t 0 sn coinbase true) s1' o (R_start σ δ rec None t inc 0)
    ltac:(by unfold s1; destruct rec)
    ltac:(eapply runs_weaken; [|exact Hr]; by intros k r [Ho _]) Hvs) as Hsim.
  destruct o as [a|w|]; [| |done].
  - destruct Hsim as (s2' & a2 & -> & HR & ->). inversion Hend; subst. cbn. apply HR.
  - destruct Hsim as (s2' & -> & Hl). inversion Hend; subst. cbn. by rewrite Hl.
Qed.

(** A run keeps its configuration and only adds reads that validation looks at. *)
Lemma exec_ext σ rec t inc p :
  runs (okRead σ) (exec rec t inc) p -> ext (preparePDB rec t inc sn coinbase true) p.
Proof.
  intros Hr. unfold Execute, applyMessage in Hr. apply runs_bind in Hr as ([s1' o] & Hr & Hend).
  apply (mono_runProg keccak base turns σ (tIndex t, sn, true)) in Hr; [|by destruct rec].
  eapply ext_trans; [exact Hr|]. destruct o; inversion Hend; subst; [apply ext_refl|by apply (ext_local s1' (set_Panicked true))..].
Qed.

Lemma exec_TxIndex σ rec t inc p : runs (okRead σ) (exec rec t inc) p -> TxIndex (loc p) = tIndex t.
Proof. intros Hr. apply exec_ext in Hr as (Hcfg & _). injection Hcfg as -> _. by destruct rec. Qed.

Lemma exec_noSkip σ rec t inc p : runs (okRead σ) (exec rec t inc) p -> noSkip p.
Proof.
  intros Hr. apply exec_ext in Hr as (_ & _ & _ & Hns). apply Hns. intros rd Hrd. rewrite prepare_trk in Hrd.
  by apply not_elem_of_nil in Hrd.
Qed.

(** The recorded reads are none that validation skips, so a successful validation is
    about all of them. *)
Lemma Validate_reads σ rec t inc p s b :
  runs (okRead σ) (exec rec t inc) p ->
  (forall k, isEst (ReadVersionFull s k (tIndex t)) = false) -> Validate p s s b = true ->
  Panicked (loc p) = false /\
  validReads (fun k => ReadVersionFull s k (tIndex t)) (fun a => ReadDelta b a (tIndex t)) (trk p).
Proof.
  intros Hr Hest Hv. unfold Validate in Hv. apply bool_decide_eq_true in Hv. unfold ValidateDetailed in Hv.
  destruct (Panicked (loc p)); [done|]. split; [done|].
  destruct (firstFailure (loc p) s s (StoreReads (trk p))) eqn:Hf; [done|].
  destruct (forallb (validateBalanceRead (loc p) b) (BalReads (trk p))) eqn:Hb; [|done].
  pose proof (exec_TxIndex _ _ _ _ _ Hr) as Htx. pose proof (exec_noSkip _ _ _ _ _ Hr) as Hns. split.
  - unfold noSkip in Hns. revert Hf Hns. generalize (StoreReads (trk p)). clear -Hest Htx.
    induction l as [|x l IH]; cbn [firstFailure]; intros Hf Hns rd Hrd; [by apply not_elem_of_nil in Hrd|].
    case_bool_decide as Hcat; [|done]. apply elem_of_cons in Hrd as [->|Hrd]; [|apply IH; [done| |done]].
    + unfold validateStoreRead in Hcat. rewrite Hns in Hcat by constructor.
      unfold readForValidate in Hcat. rewrite Htx, Hest, andb_false_r in Hcat. case_if; [done|].
      unfold storeReadFailCategory in Hcat. repeat case_if; done.
    + intros rd' Hrd'. apply Hns. by constructor.
  - intros rd Hrd. rewrite forallb_forall in Hb. specialize (Hb rd ltac:(by apply list_elem_of_In)).
    unfold validateBalanceRead in Hb. rewrite Htx in Hb. bool_to_prop.
    destruct (ReadDelta b (brAddr rd) (tIndex t)) as [x y]. cbn in *. by subst.
Qed.

(** C14: validation is sound.  Take any transaction, any program the EVM may run for it, and
    any interleaving with the others, in which every read got a version that some
    incarnation published (so that versions with equal writer and incarnation have
    equal values).  If the state it left validates against a store whose entries below
    the transaction are settled, then that state (its nonces, storage, code, balance
    operations, created and destroyed accounts, logs, refund, result and error, and the
    keys it will publish) is exactly what running the transaction alone on that store
    gives. *)
Theorem validation_sound rec t inc p s b :
  settledBelow s (tIndex t) ->
  runs (fun k r => okRead (fun k => ReadVersionFull s k (tIndex t)) k r /\ okInc inc r) (exec rec t inc) p ->
  Validate p s s b = true ->
  loc p = loc (runOn s b t).
Proof.
  intros [Hwf Hs] Hr Hv. unfold runOn. apply validated_run with rec inc; [apply Hs..|done|].
  apply (Validate_reads (fun k => ReadVersionFull s k (tIndex t)) rec t inc p s b); [|apply Hs|done].
  eapply runs_weaken; [|exact Hr]. by intros k r [? _].
Qed.

(** The slot of an account is 5 before the block; the transaction adds one to it. *)
Definition demoBase : SafeBase :=
  mkBase (fun _ => (true, false)) (fun _ => (100, false)) (fun _ => (1, false)) (fun _ => ([], false))
         (fun _ => (0, false)) (fun _ _ => (5, false)) (fun _ _ => (5, false)) (fun _ => (0, false)).

Definition demoResult : TxResult := mkTxResult 21000 false None None 0 None.

Definition demoProg : prog :=
  pDo (oGetState 7 9) (fun r =>
    match r with
    | aNum v => pDo (oSetState 7 9 (v + 1)) (fun _ => pDo (oAddBalance 8 3) (fun _ => pDone demoResult))
    | _ => pPanic "answer"
    end).

Definition demoTask (i : Z) : Task := mkTask i (10 + i) (Some 7) [] demoProg.

(** Running again on a settled store gives the same state for every incarnation, and
    incarnations of the versions in the store do not matter either. *)
Lemma exec_incarnations σ σ' δ rec rec' t inc inc' :
  (forall k, isEst (σ k) = false) -> (forall k, sameVersion (σ k) (σ' k)) ->
  loc (interp σ δ (exec rec t inc)) = loc (interp σ' δ (exec rec' t inc')).
Proof.
  intros Hest Hsame. unfold Execute, applyMessage. rewrite !interp_bind.
  destruct (e_runProg keccak base turns Hturns σ σ' δ Hest Hsame (tProg t)
    (preparePDB rec t inc sn coinbase true) (preparePDB rec' t inc' sn coinbase true)) as [HE HQ].
  { split; rewrite ?prepare_trk; [apply prepare_loc|done..|]. intros a. cbn. rewrite lookup_empty. constructor. }
  destruct (interp σ δ _) as [s1 [a|w|]], (interp σ' δ _) as [s2 [a'|w'|]]; cbn in *; try done;
    by rewrite (E_loc _ _ HE).
Qed.

End execution.

(** A transaction that ran before an earlier one published, and finds the value it read
    unchanged. *)
Definition demoEarly : PDB :=
  interp (fun _ => notFound) (fun _ => (0, 0))
    (Execute (fun _ => 0) demoBase 1 None (demoTask 1) 0 ∅ 99 true).

Definition demoPublished : MVStore := WriteInc NewMVStore (NewStateKey 7 9) 0 0 (VHash 5).

Lemma demoPublished_settled : settledBelow demoPublished 1.
Proof.
  destruct (WriteInc_spec NewMVStore (NewStateKey 7 9) 0 0 (VHash 5) NewMVStore_wf) as [Hwf Hc].
  apply settledBelow_cells; [done|]. intros k j e _. unfold demoPublished. rewrite Hc.
  case_decide as Hd; [intros [= <-]; destruct Hd as [_ ->]; done|].
  destruct NewMVStore_refines as [_ Hn]. rewrite Hn, lookup_empty. done.
Qed.

Lemma demoEarly_valid : Validate demoEarly demoPublished demoPublished NewMVBalanceStore = true.
Proof. vm_compute. reflexivity. Qed.

Lemma validation_sound_witness :
  loc demoEarly = loc (runOn (fun _ => 0) demoBase 1 ∅ 99 demoPublished NewMVBalanceStore (demoTask 1)).
Proof.
  apply (validation_sound (fun _ => 0) demoBase 1 ltac:(lia) ∅ 99 None (demoTask 1) 0 demoEarly).
  - exact demoPublished_settled.
  - apply (interp_runs (fun k r => okRead (fun k => ReadVersionFull demoPublished k (tIndex (demoTask 1))) k r /\ okInc 0 r)).
    intros k. split; [apply notFound_ok|by left].
  - exact demoEarly_valid.
Defined.

End ParallelRun.
