(* ===== verification/ParallelCover.v ===== *)
(** * What a transaction publishes is what it recorded as written

    When a transaction is executed again, its old versions are marked and cleaned up by
    the keys and addresses it recorded ([WriteKeys], [BalAddrs]).  So whatever
    [FlushToMVStore] publishes has to be among them, through every write, revert and
    self-destruction.  Also: a flush publishes at most one value per key. *)

From S2P Require Import Prelude Bytes MvStore ParallelState ParallelRead.
Import MvStore ParallelState ParallelRead.

Module ParallelCover.

(** ** The invariant *)

(** An entry that puts a value back needs its key recorded. *)
Definition coveredEntry (l : Local) (j : journalEntry) : Prop :=
  match j with
  | jkNonce a true _ => NewSubpathKey a NoncePath ∈ WriteKeys l
  | jkStorage a k true _ => NewStateKey a k ∈ WriteKeys l
  | jkCode a true _ => NewSubpathKey a CodePath ∈ WriteKeys l
  | _ => True
  end.

Record covered (l : Local) : Prop := {
  cov_on : trackReads l = true;
  cov_defer : DeferMVWrites l = true;
  cov_nonce : forall a, is_Some (localNonces l !! a) -> NewSubpathKey a NoncePath ∈ WriteKeys l;
  cov_state : forall a k m, localStorage l !! a = Some m -> is_Some (m !! k) -> NewStateKey a k ∈ WriteKeys l;
  cov_code : forall a, is_Some (localCode l !! a) -> NewSubpathKey a CodePath ∈ WriteKeys l;
  cov_created : forall a, a ∈ created l -> NewSubpathKey a CreatePath ∈ WriteKeys l;
  cov_destructed : forall a, a ∈ destructed l -> NewSubpathKey a SuicidePath ∈ WriteKeys l;
  cov_add : forall a, is_Some (localBalAdd l !! a) -> a ∈ BalAddrs l;
  cov_sub : forall a, is_Some (localBalSub l !! a) -> a ∈ BalAddrs l;
  cov_set : forall a, a ∈ balWriteSet l -> a ∈ BalAddrs l;
  cov_journal : forall j, j ∈ journalEntries l -> coveredEntry l j
}.

Definition anyRead (k : Key) (r : ReadResult) : Prop := True.

(** [m] keeps the invariant, however it ends. *)
Definition coverM {A} (m : M A) : Prop :=
  forall s s' o, covered (loc s) -> runs anyRead (m s) (s', o) -> covered (loc s').

Section cover.
Context (keccak : list Z -> Z) (base : SafeBase) (turns : nat).

Lemma c_ret {A} (a : A) : coverM (mret a).
Proof. intros s s' o H Hr. by inversion Hr; subst. Qed.
Lemma c_panic {A} w : coverM (panicM w : M A).
Proof. intros s s' o H Hr. by inversion Hr; subst. Qed.
Lemma c_spin {A} : coverM (spinM : M A).
Proof. intros s s' o H Hr. by inversion Hr; subst. Qed.

Lemma c_bind {A B} (m : M A) (k : A -> M B) : coverM m -> (forall a, coverM (k a)) -> coverM (m ≫= k).
Proof.
  intros Hm Hk s s' o H Hr. unfold mbind, M_bind in Hr. apply runs_bind in Hr as ([s1 o1] & H1 & H2).
  specialize (Hm s s1 o1 H H1). destruct o1 as [a|w|]; [exact (Hk a s1 s' o Hm H2)|by inversion H2; subst..].
Qed.

Lemma c_getL {A} (f : Local -> A) : coverM (getL f).
Proof. intros s s' o H Hr. by inversion Hr; subst. Qed.
Lemma c_getT {A} (f : Track -> A) : coverM (getT f).
Proof. intros s s' o H Hr. by inversion Hr; subst. Qed.
Lemma c_getInc : coverM getInc.
Proof. intros s s' o H Hr. by inversion Hr; subst. Qed.
Lemma c_modT f : coverM (modT f).
Proof. intros s s' o H Hr. by inversion Hr; subst. Qed.

Lemma c_modL f : (forall l, covered l -> covered (f l)) -> coverM (modL f).
Proof. intros Hf s s' o H Hr. inversion Hr; subst. by apply Hf. Qed.

(** A step that only changes the local state. *)
Lemma c_local {A} (m : M A) (f : Local -> Local) :
  (forall l, covered l -> covered (f l)) ->
  (forall s, covered (loc s) -> exists o, m s = TRet (mkPDB (f (loc s)) (Incarnation s) (trk s), o)) -> coverM m.
Proof. intros Hf Hm s s' o H Hr. destruct (Hm s H) as [o' He]. rewrite He in Hr. inversion Hr; subst. by apply Hf. Qed.

Lemma c_access {A} (m : M A) :
  (forall s s' o, runs anyRead (m s) (s', o) -> s' = s) -> coverM m.
Proof. intros Hm s s' o H Hr. by rewrite (Hm s s' o Hr). Qed.

Ltac access := apply c_access; intros s s' o Hr; inversion Hr; subst;
  match goal with H : runs _ (TRet _) _ |- _ => by inversion H end.

Lemma c_readStore k : coverM (readStore k).
Proof. access. Qed.
Lemma c_readDelta a : coverM (readDelta a).
Proof. access. Qed.
Lemma c_wait j : coverM (waitForFinal j).
Proof. access. Qed.
Lemma c_isEst k j : coverM (isEstimate k j).
Proof. access. Qed.
Lemma c_delete k j : coverM (deleteStore k j).
Proof. access. Qed.
Lemma c_write k v : coverM (writeStore k v).
Proof. access. Qed.

Create HintDb cover discriminated.
#[local] Hint Resolve c_ret c_panic c_spin c_getL c_getT c_getInc c_modT c_readStore c_readDelta c_wait c_isEst c_delete
  c_write : cover.

Ltac solve_cover :=
  repeat first
    [ solve [auto with cover nocore]
    | progress cbn [fst snd]
    | match goal with
      | |- coverM (_ ≫= _) => apply c_bind; [|intros ?]
      | |- coverM (modL _) => apply c_modL; by intros ? []; split
      | |- coverM (if ?b then _ else _) => destruct b
      | |- coverM (match ?x with _ => _ end) => destruct x
      end ].

(** *** Reading *)

Lemma c_readStoreWait_loop n k : coverM (readStoreWait_loop n k).
Proof. induction n as [|n IH]; cbn [readStoreWait_loop]; [apply c_spin|]. unfold handleEstimate. solve_cover. Qed.
Lemma c_readStoreWait k : coverM (readStoreWait turns k).
Proof. apply c_readStoreWait_loop. Qed.
Lemma c_recordStoreReadEx k w i v ex : coverM (recordStoreReadEx k w i v ex).
Proof. unfold recordStoreReadEx. solve_cover. Qed.
Lemma c_recordBalanceRead a x y : coverM (recordBalanceRead a x y).
Proof. unfold recordBalanceRead. solve_cover. Qed.
Lemma c_baseRead {A} (r : A * bool) : coverM (baseRead r).
Proof. unfold baseRead, noteBaseReadErr. solve_cover. Qed.
Lemma c_asUint64 v : coverM (asUint64 v).
Proof. unfold asUint64. solve_cover. Qed.
Lemma c_asHash v : coverM (asHash v).
Proof. unfold asHash. solve_cover. Qed.
Lemma c_asBytes v : coverM (asBytes v).
Proof. unfold asBytes. solve_cover. Qed.

#[local] Hint Resolve c_readStoreWait c_recordStoreReadEx c_recordBalanceRead c_baseRead c_asUint64 c_asHash c_asBytes : cover.

Lemma c_readCodeKey a k : coverM (readCodeKey turns a k).
Proof. unfold readCodeKey. solve_cover. Qed.
Lemma c_priorDestructedAt a : coverM (priorDestructedAt turns a).
Proof. unfold priorDestructedAt, recordStoreRead. solve_cover. Qed.
Lemma c_priorCreatedAt a : coverM (priorCreatedAt turns a).
Proof. unfold priorCreatedAt, recordStoreRead. solve_cover. Qed.
Lemma c_GetBalance a : coverM (GetBalance base a).
Proof. unfold GetBalance, priorBalanceDeltas. solve_cover. Qed.

#[local] Hint Resolve c_readCodeKey c_priorDestructedAt c_priorCreatedAt c_GetBalance : cover.

Lemma c_GetNonce a : coverM (GetNonce base turns a).
Proof. unfold GetNonce, recordStoreRead. solve_cover. Qed.

#[local] Hint Resolve c_GetNonce : cover.

Lemma c_Exist a : coverM (Exist base turns a).
Proof. unfold Exist. solve_cover. Qed.
Lemma c_GetCode a : coverM (GetCode base turns a).
Proof. unfold GetCode, recordStoreRead. solve_cover. Qed.
Lemma c_GetState a k : coverM (GetState base turns a k).
Proof. unfold GetState, recordStoreRead. solve_cover. Qed.
Lemma c_GetCommittedState a k : coverM (GetCommittedState base turns a k).
Proof. unfold GetCommittedState, recordStoreRead. solve_cover. Qed.

#[local] Hint Resolve c_Exist c_GetCode c_GetState c_GetCommittedState : cover.

Lemma c_GetCodeHash a : coverM (GetCodeHash keccak base turns a).
Proof. unfold GetCodeHash, codeHashTail, recordStoreRead. solve_cover. Qed.

#[local] Hint Resolve c_GetCodeHash : cover.

(** *** Writing *)

Lemma coveredEntry_mono l l' j : (forall k, k ∈ WriteKeys l -> k ∈ WriteKeys l') -> coveredEntry l j -> coveredEntry l' j.
Proof. intros H. destruct j as [a [] p|a k [] p| | | | | |a [] p| | |]; cbn; auto. Qed.

Lemma cov_record k l :
  covered l -> covered (set_WriteKeys (WriteKeys l ++ [k]) l) /\ k ∈ WriteKeys l ++ [k].
Proof.
  intros []. split; [|apply elem_of_app; right; by constructor].
  split; cbn; try done; intros; rewrite ?elem_of_app; eauto.
  eapply coveredEntry_mono; [|by eauto]. cbn. intros. rewrite elem_of_app. auto.
Qed.

Lemma cov_push j l : covered l -> coveredEntry l j -> covered (set_journalEntries (journalEntries l ++ [j]) l).
Proof.
  intros [] Hj. split; cbn; try done. intros j' Hj'.
  apply elem_of_app in Hj' as [H|H]; [by apply cov_journal0|by apply list_elem_of_singleton in H as ->].
Qed.

Lemma insert_is_Some {V} (m : gmap Z V) a b v : is_Some (<[a := v]> m !! b) -> b = a \/ is_Some (m !! b).
Proof. destruct (decide (b = a)) as [->|]; [by left|]. rewrite lookup_insert_ne by done. by right. Qed.

Lemma delete_is_Some {V} (m : gmap Z V) a b : is_Some (delete a m !! b) -> is_Some (m !! b).
Proof.
  destruct (decide (b = a)) as [->|]; [rewrite lookup_delete_eq; by intros []|]. by rewrite lookup_delete_ne by done.
Qed.

Lemma cov_setNonce a n l :
  covered l -> NewSubpathKey a NoncePath ∈ WriteKeys l -> covered (set_localNonces (<[a := n]> (localNonces l)) l).
Proof. intros [] Hk. split; cbn; try done. intros b Hb. apply insert_is_Some in Hb as [->|Hb]; auto. Qed.

Lemma cov_setState a k v l :
  covered l -> NewStateKey a k ∈ WriteKeys l ->
  covered (set_localStorage (<[a := <[k := v]> (default ∅ (localStorage l !! a))]> (localStorage l)) l).
Proof.
  intros [] Hk. split; cbn; try done. intros b k' m Hm Hs. destruct (decide (b = a)) as [->|].
  - rewrite lookup_insert_eq in Hm. injection Hm as <-. apply insert_is_Some in Hs as [->|Hs]; [done|].
    destruct (localStorage l !! a) as [m|] eqn:Hl; cbn in Hs; [by eauto|]. rewrite lookup_empty in Hs. by destruct Hs.
  - rewrite lookup_insert_ne in Hm by done. eauto.
Qed.

Lemma cov_setCode a c l :
  covered l -> NewSubpathKey a CodePath ∈ WriteKeys l -> covered (set_localCode (<[a := c]> (localCode l)) l).
Proof. intros [] Hk. split; cbn; try done. intros b Hb. apply insert_is_Some in Hb as [->|Hb]; auto. Qed.

Lemma cov_setCreated a l :
  covered l -> NewSubpathKey a CreatePath ∈ WriteKeys l -> covered (set_created ({[a]} ∪ created l) l).
Proof. intros [] Hk. split; cbn; try done. intros b Hb. apply elem_of_union in Hb as [Hb|Hb]; [|auto]. by apply elem_of_singleton in Hb as ->. Qed.

Lemma cov_setDestructed a l :
  covered l -> NewSubpathKey a SuicidePath ∈ WriteKeys l -> covered (set_destructed ({[a]} ∪ destructed l) l).
Proof. intros [] Hk. split; cbn; try done. intros b Hb. apply elem_of_union in Hb as [Hb|Hb]; [|auto]. by apply elem_of_singleton in Hb as ->. Qed.

Lemma cov_setAdd a v l : covered l -> a ∈ BalAddrs l -> covered (set_localBalAdd (<[a := v]> (localBalAdd l)) l).
Proof. intros [] Hk. split; cbn; try done. intros b Hb. apply insert_is_Some in Hb as [->|Hb]; auto. Qed.

Lemma cov_setSub a v l : covered l -> a ∈ BalAddrs l -> covered (set_localBalSub (<[a := v]> (localBalSub l)) l).
Proof. intros [] Hk. split; cbn; try done. intros b Hb. apply insert_is_Some in Hb as [->|Hb]; auto. Qed.

Definition recBal (a : Z) (l : Local) : Local :=
  if bool_decide (a ∈ balWriteSet l) then l
  else set_BalAddrs (BalAddrs l ++ [a]) (set_balWriteSet ({[a]} ∪ balWriteSet l) l).

Lemma cov_recBal a l : covered l -> covered (recBal a l) /\ a ∈ BalAddrs (recBal a l).
Proof.
  intros []. unfold recBal. case_bool_decide as Hin; [split; [by split|by apply cov_set0]|].
  split; [|cbn; apply elem_of_app; right; by constructor].
  split; cbn; try done; intros; rewrite elem_of_app; auto.
  match goal with H : _ ∈ _ ∪ _ |- _ => apply elem_of_union in H as [H|H]; [apply elem_of_singleton in H as ->|] end; [|auto].
  right. by constructor.
Qed.

Lemma cov_balanceOps v l : covered l -> covered (set_BalanceOps v l).
Proof. intros []. by split. Qed.

Lemma recordBalWrite_eq a s :
  trackReads (loc s) = true -> recordBalWrite a s = TRet (mkPDB (recBal a (loc s)) (Incarnation s) (trk s), Ok tt).
Proof. intros H. unfold recordBalWrite, modL. by rewrite H. Qed.

Lemma c_AddBalance a x : coverM (AddBalance a x).
Proof.
  eapply (c_local _ (fun l =>
    let l2 := recBal a (set_journalEntries (journalEntries l ++ [jkBalance a true x]) l) in
    set_BalanceOps (BalanceOps l2 ++ [mkBalanceOp a x true])
      (set_localBalAdd (<[a := u256 (default 0 (localBalAdd l2 !! a) + x)]> (localBalAdd l2)) l2))).
  - intros l H. cbn zeta. destruct (cov_recBal a _ (cov_push (jkBalance a true x) l H I)) as [H1 Ha].
    by apply cov_balanceOps, cov_setAdd.
  - intros s H. eexists. unfold AddBalance, journal, mbind, M_bind. cbn [modL tmBind].
    rewrite recordBalWrite_eq by apply H. done.
Qed.

Lemma c_SubBalance a x : coverM (SubBalance a x).
Proof.
  eapply (c_local _ (fun l =>
    let l2 := recBal a (set_journalEntries (journalEntries l ++ [jkBalance a false x]) l) in
    set_BalanceOps (BalanceOps l2 ++ [mkBalanceOp a x false])
      (set_localBalSub (<[a := u256 (default 0 (localBalSub l2 !! a) + x)]> (localBalSub l2)) l2))).
  - intros l H. cbn zeta. destruct (cov_recBal a _ (cov_push (jkBalance a false x) l H I)) as [H1 Ha].
    by apply cov_balanceOps, cov_setSub.
  - intros s H. eexists. unfold SubBalance, journal, mbind, M_bind. cbn [modL tmBind].
    rewrite recordBalWrite_eq by apply H. done.
Qed.

Definition recKey (k : Key) (l : Local) : Local := set_WriteKeys (WriteKeys l ++ [k]) l.

Lemma c_SetNonce a n : coverM (SetNonce a n).
Proof.
  eapply (c_local _ (fun l => set_localNonces (<[a := n]> (localNonces l))
    (set_journalEntries (journalEntries l ++ [jkNonce a (bool_decide (is_Some (localNonces l !! a))) (default 0 (localNonces l !! a))])
      (recKey (NewSubpathKey a NoncePath) l)))).
  - intros l H. destruct (cov_record (NewSubpathKey a NoncePath) l H) as [H1 Hk].
    eapply (cov_setNonce a n) in H1; [|done]. eapply cov_push in H1; [exact H1|]. cbn. by case_bool_decide.
  - intros s H. eexists. unfold SetNonce, journal, recordWrite, mbind, M_bind, modL, getL. cbn. rewrite (cov_on _ H). done.
Qed.

Lemma c_CreateAccount a : coverM (CreateAccount a).
Proof.
  eapply (c_local _ (fun l => set_created ({[a]} ∪ created l)
    (set_journalEntries (journalEntries l ++ [jkCreate a]) (recKey (NewSubpathKey a CreatePath) l)))).
  - intros l H. destruct (cov_record (NewSubpathKey a CreatePath) l H) as [H1 Hk].
    eapply (cov_setCreated a) in H1; [|done]. by eapply (cov_push (jkCreate a)) in H1.
  - intros s H. eexists. unfold CreateAccount, journal, recordWrite, mbind, M_bind, modL, getL. cbn.
    rewrite (cov_defer _ H). cbn. rewrite (cov_on _ H). done.
Qed.

#[local] Hint Resolve c_AddBalance c_SubBalance c_SetNonce c_CreateAccount : cover.

Lemma c_SetState a k v : coverM (SetState base turns a k v).
Proof.
  unfold SetState. apply c_bind; [apply c_GetState|intros prev].
  eapply (c_local _ (fun l => set_localStorage (<[a := <[k := v]> (default ∅ (localStorage l !! a))]> (localStorage l))
    (set_journalEntries (journalEntries l ++
      [jkStorage a k (bool_decide (is_Some (localStorage l !! a ≫= (fun slots => slots !! k)))) prev])
      (recKey (NewStateKey a k) l)))).
  - intros l H. destruct (cov_record (NewStateKey a k) l H) as [H1 Hk].
    eapply (cov_setState a k v) in H1; [|done]. eapply cov_push in H1; [exact H1|]. cbn. by case_bool_decide.
  - intros s H. eexists. unfold journal, recordWrite, mbind, M_bind, modL, getL. cbn. rewrite (cov_on _ H). done.
Qed.

Lemma c_SetCode a code : coverM (SetCode base turns a code).
Proof.
  unfold SetCode. apply c_bind; [apply c_GetCode|intros prev].
  intros s s' o H Hr. unfold mbind, M_bind in Hr. cbn [getL tmBind journal modL] in Hr.
  set (l1 := set_localCode (<[a := code]> (localCode (loc s)))
     (set_journalEntries (journalEntries (loc s) ++ [jkCode a (bool_decide (is_Some (localCode (loc s) !! a))) prev])
       (recKey (NewSubpathKey a CodePath) (loc s)))).
  assert (H1 : covered l1).
  { destruct (cov_record (NewSubpathKey a CodePath) (loc s) H) as [H1 Hk].
    eapply (cov_setCode a code) in H1; [|done]. eapply cov_push in H1; [exact H1|]. cbn. by case_bool_decide. }
  cbn in Hr. rewrite (cov_defer _ H) in Hr. cbn in Hr. rewrite (cov_on _ H) in Hr. cbn [negb] in Hr.
  assert (Hc : coverM (_ ← (if negb (bool_decide (a ∈ created (loc s))) then CreateAccount a else mret tt); mret prev)).
  { apply c_bind; [case_if; [apply c_CreateAccount|apply c_ret]|intros; apply c_ret]. }
  exact (Hc (mkPDB l1 (Incarnation s) (trk s)) s' o H1 Hr).
Qed.

Lemma c_SelfDestruct a : coverM (SelfDestruct base a).
Proof.
  unfold SelfDestruct. apply c_bind; [apply c_GetBalance|intros bal].
  apply c_bind; [apply c_getL|intros de]. apply c_bind; [|intros _; apply c_bind; [apply c_SubBalance|intros _; apply c_ret]].
  case_if; [|apply c_ret].
  eapply (c_local _ (fun l => set_destructed ({[a]} ∪ destructed l)
    (set_journalEntries (journalEntries l ++ [jkDestruct a]) (recKey (NewSubpathKey a SuicidePath) l)))).
  - intros l H. destruct (cov_record (NewSubpathKey a SuicidePath) l H) as [H1 Hk].
    eapply (cov_setDestructed a) in H1; [|done]. by eapply (cov_push (jkDestruct a)) in H1.
  - intros s H. eexists. unfold journal, recordWrite, mbind, M_bind, modL, getL. cbn. rewrite (cov_on _ H). done.
Qed.

Lemma c_journal j : (forall l, coveredEntry l j) -> coverM (journal j).
Proof. intros Hj. apply c_modL. intros l H. by apply cov_push. Qed.

(** *** Reverting *)

Lemma WriteKeys_revertLocal j l : WriteKeys (revertLocal j l) = WriteKeys l.
Proof. destruct j; cbn; repeat case_match; done. Qed.

Lemma subKey_is_Some m a v b : is_Some (subKey m a v !! b) -> is_Some (m !! b).
Proof.
  unfold subKey. destruct (m !! a) eqn:Ha; [|done]. intros H. apply insert_is_Some in H as [->|H]; [by rewrite Ha|done].
Qed.

Lemma cov_revertLocal j l : covered l -> coveredEntry l j -> covered (revertLocal j l).
Proof.
  intros H Hj. pose proof H as []. destruct j as [a had p|a k had p|a up amt|p|p|a|a|a had code|a k p|a|a k]; cbn [revertLocal].
  - destruct had; [by apply cov_setNonce|]. split; cbn; try done. intros b Hb. by apply cov_nonce0, (delete_is_Some _ a).
  - destruct had; [by apply cov_setState|]. destruct (localStorage l !! a) as [m|] eqn:Hl; [|done].
    split; cbn; try done. intros b k' m' Hm Hs. destruct (decide (b = a)) as [->|].
    + rewrite lookup_insert_eq in Hm. injection Hm as <-. apply (cov_state0 a k' m Hl). by apply (delete_is_Some _ k).
    + rewrite lookup_insert_ne in Hm by done. eauto.
  - destruct up; split; cbn; try done; intros b Hb; apply subKey_is_Some in Hb; auto.
  - by split.
  - by split.
  - split; cbn; try done; [|set_solver]. intros b Hb. by apply cov_code0, (delete_is_Some _ a).
  - split; cbn; try done. set_solver.
  - destruct had; [by apply cov_setCode|]. split; cbn; try done. intros b Hb. by apply cov_code0, (delete_is_Some _ a).
  - by split.
  - by split.
  - repeat case_match; by split.
Qed.

Lemma runs_revertAll js s s' o :
  covered (loc s) -> Forall (coveredEntry (loc s)) js -> runs anyRead (revertAll js s) (s', o) -> covered (loc s').
Proof.
  revert s. induction js as [|j js IH]; intros s H Hj Hr; cbn [revertAll] in Hr; [by inversion Hr; subst|].
  apply Forall_cons in Hj as [Hj Hjs]. pose proof (cov_revertLocal j (loc s) H Hj) as H1.
  unfold revertStore, mbind, M_bind in Hr. cbn in Hr. rewrite (cov_defer _ H1) in Hr. cbn in Hr.
  eapply IH in Hr; [done|done|]. cbn. eapply Forall_impl; [exact Hjs|]. intros x. apply coveredEntry_mono.
  intros k. by rewrite WriteKeys_revertLocal.
Qed.

Lemma c_RevertToSnapshot id : coverM (RevertToSnapshot id).
Proof.
  unfold RevertToSnapshot. apply c_bind; [apply c_getL|intros revs]. destruct (revs !! _) as [rev|]; [|apply c_panic].
  case_if; [apply c_panic|]. intros s s' o H Hr. unfold mbind, M_bind in Hr. cbn [getL tmBind] in Hr.
  apply runs_bind in Hr as ([s1 o1] & H1 & H2). apply runs_revertAll in H1; [|done|].
  - destruct o1; [|by inversion H2; subst..]. inversion H2; subst. cbn. destruct H1. split; cbn; try done.
    intros j Hj. apply cov_journal0. apply elem_of_take in Hj as (i & Hi & _). by apply list_elem_of_lookup_2 in Hi.
  - apply Forall_forall. intros j Hj. apply (cov_journal _ H). rewrite elem_of_reverse in Hj.
    apply list_elem_of_lookup in Hj as [i Hi]. rewrite lookup_drop in Hi. by apply list_elem_of_lookup_2 in Hi.
Qed.

#[local] Hint Resolve c_SetState c_SetCode c_SelfDestruct c_RevertToSnapshot : cover.

Lemma c_perform o : coverM (perform keccak base turns o).
Proof.
  destruct o; cbn [perform]; unfold asNum, asBool, asUnit, asCode, Empty, SetBalance, GetCodeSize,
    GetStateAndCommittedState, GetStorageRoot, AddRefund, SubRefund, AddAddressToAccessList, AddSlotToAccessList,
    SetTransientState, SelfDestruct6780, CreateContract, Snapshot, AddLog, AddPreimage, RecordTransfer, Prepare;
    repeat first [ apply c_journal; by intros []
                 | progress solve_cover
                 | apply c_modL; intros l []; case_match; by split ].
Qed.

Lemma c_runProg p : coverM (runProg keccak base turns p).
Proof.
  induction p as [r|e|w|o k IH]; cbn [runProg]; [solve_cover..|]. apply c_bind; [apply c_perform|done].
Qed.

Lemma covered_start rec t inc sn coinbase : covered (loc (preparePDB rec t inc sn coinbase true)).
Proof.
  assert (H : covered (set_DeferMVWrites true (set_trackReads true (newLocal (tIndex t))))).
  { split; cbn; try done; intros; rewrite ?lookup_empty in *; try (by destruct H); try (by apply not_elem_of_empty in H);
      try done. by apply not_elem_of_nil in H. }
  destruct H. by destruct rec; split.
Qed.

(** What a run of a transaction leaves. *)
Lemma Execute_covered rec t inc sn coinbase p :
  runs anyRead (Execute keccak base turns rec t inc sn coinbase true) p -> covered (loc p).
Proof.
  intros Hr. unfold Execute, applyMessage in Hr. apply runs_bind in Hr as ([s o] & H1 & H2).
  apply c_runProg in H1; [|apply covered_start].
  destruct o; inversion H2; subst; cbn; [done|destruct H1; by split..].
Qed.

End cover.

(** ** What is published *)

Lemma elem_flushWrites l k v :
  (k, v) ∈ flushWrites l ->
  (exists a n, k = NewSubpathKey a NoncePath /\ v = VUint64 n /\ localNonces l !! a = Some n) \/
  (exists a h x m, k = NewStateKey a h /\ v = VHash x /\ localStorage l !! a = Some m /\ m !! h = Some x) \/
  (exists a c, k = NewSubpathKey a CodePath /\ v = VBytes c /\ localCode l !! a = Some c) \/
  (exists a, k = NewSubpathKey a CreatePath /\ v = VBool true /\ a ∈ created l) \/
  (exists a, k = NewSubpathKey a SuicidePath /\ v = VBool true /\ a ∈ destructed l).
Proof.
  unfold flushWrites. destruct (Panicked l); [by intros H; apply not_elem_of_nil in H|].
  rewrite !elem_of_app. intros [H|[H|[H|[H|H]]]].
  - left. apply list_elem_of_fmap in H as ([a n] & [= -> ->] & H). apply elem_of_map_to_list in H. eauto.
  - right; left. apply list_elem_of_In, in_concat in H as (lst & Hlst & Hin).
    apply list_elem_of_In, list_elem_of_fmap in Hlst as ([a m] & -> & Hm). apply elem_of_map_to_list in Hm.
    apply list_elem_of_In, list_elem_of_fmap in Hin as ([h x] & [= -> ->] & Hx). apply elem_of_map_to_list in Hx. eauto 10.
  - right; right; left. apply list_elem_of_fmap in H as ([a c] & [= -> ->] & H). apply elem_of_map_to_list in H. eauto.
  - right; right; right; left. apply list_elem_of_fmap in H as (a & [= -> ->] & H). apply elem_of_elements in H. eauto.
  - right; right; right; right. apply list_elem_of_fmap in H as (a & [= -> ->] & H). apply elem_of_elements in H. eauto.
Qed.

(** One value per key. *)
Lemma flushWrites_unique l k v v' : (k, v) ∈ flushWrites l -> (k, v') ∈ flushWrites l -> v = v'.
Proof.
  intros H H'. apply elem_flushWrites in H, H'.
  destruct H as [(a&n&->&->&?)|[(a&h&x&m&->&->&?&?)|[(a&c&->&->&?)|[(a&->&->&?)|(a&->&->&?)]]]];
    destruct H' as [(a'&n'&[=]&->&?)|[(a'&h'&x'&m'&[=]&->&?&?)|[(a'&c'&[=]&->&?)|[(a'&[=]&->&?)|(a'&[=]&->&?)]]]];
    simplify_eq; done.
Qed.

Lemma flushWrites_covered l k v : covered l -> (k, v) ∈ flushWrites l -> k ∈ WriteKeys l.
Proof.
  intros [] H. apply elem_flushWrites in H.
  destruct H as [(a&n&->&->&?)|[(a&h&x&m&->&->&?&?)|[(a&c&->&->&?)|[(a&->&->&?)|(a&->&->&?)]]]]; eauto.
Qed.

Lemma flushDeltas_covered l a x y : covered l -> (a, x, y) ∈ flushDeltas l -> a ∈ BalAddrs l.
Proof.
  intros [] H. unfold flushDeltas in H. destruct (Panicked l); [by apply not_elem_of_nil in H|].
  apply list_elem_of_filter in H as [_ H]. apply list_elem_of_fmap in H as (b & [= -> _ _] & H).
  apply elem_of_elements, elem_of_union in H as [H|H]; apply elem_of_dom in H; auto.
Qed.

(** C17: whatever a transaction publishes is among what it recorded as written.  For every
    program and every run, with any answers from the store and any sequence of writes,
    snapshots, reverts, creations and self-destructions, each key of [FlushToMVStore] is
    in [WriteKeys] with one value only, and each address with a balance delta is in
    [BalAddrs]; so marking and cleaning up by these lists misses nothing. *)
Theorem flush_recorded keccak base turns rec t inc sn coinbase p :
  runs anyRead (Execute keccak base turns rec t inc sn coinbase true) p ->
  (forall k v, (k, v) ∈ flushWrites (loc p) ->
     k ∈ WriteKeys (loc p) /\ forall v', (k, v') ∈ flushWrites (loc p) -> v' = v) /\
  (forall a x y, (a, x, y) ∈ flushDeltas (loc p) -> a ∈ BalAddrs (loc p)).
Proof.
  intros Hr. apply Execute_covered in Hr. split.
  - intros k v H. split; [by eapply flushWrites_covered|]. intros v' H'. by eapply flushWrites_unique.
  - intros a x y H. by eapply flushDeltas_covered.
Qed.

(** A transaction that writes a slot and a nonce, reverts the slot, destroys an account and
    credits another. *)
Definition coverProg : prog :=
  pDo (oSetNonce 4 8) (fun _ => pDo oSnapshot (fun r => pDo (oSetState 7 9 1) (fun _ =>
    match r with
    | aNum id => pDo (oRevertToSnapshot id) (fun _ => pDo (oCreateContract 6) (fun _ => pDo (oSelfDestruct6780 6)
                   (fun _ => pDo (oAddBalance 5 2) (fun _ => pDone (mkTxResult 0 false None None 0 None)))))
    | _ => pPanic "answer"
    end))).

Definition coverBase : SafeBase :=
  mkBase (fun _ => (true, false)) (fun _ => (100, false)) (fun _ => (1, false)) (fun _ => ([], false))
         (fun _ => (0, false)) (fun _ _ => (5, false)) (fun _ _ => (5, false)) (fun _ => (0, false)).

Abbreviation coverRun := (Execute (fun _ => 0) coverBase 1 None (mkTask 3 4 None [] coverProg) 0 ∅ 99 true).

Definition coverLeft : PDB := interp (fun _ => notFound) (fun _ => (0, 0)) coverRun.

Lemma coverLeft_runs : runs anyRead coverRun coverLeft.
Proof. unfold coverLeft. apply interp_runs. intros k. exact I. Qed.

Lemma coverLeft_keys :
  map fst (flushWrites (loc coverLeft))
  = [NewSubpathKey 4 NoncePath; NewSubpathKey 6 CreatePath; NewSubpathKey 6 SuicidePath].
Proof. vm_compute. reflexivity. Qed.

Lemma coverLeft_destroyed : (NewSubpathKey 6 SuicidePath, VBool true) ∈ flushWrites (loc coverLeft).
Proof. apply list_elem_of_In. vm_compute. auto. Qed.

Lemma flush_recorded_witness :
  map fst (flushWrites (loc coverLeft))
  = [NewSubpathKey 4 NoncePath; NewSubpathKey 6 CreatePath; NewSubpathKey 6 SuicidePath] /\
  NewSubpathKey 6 SuicidePath ∈ WriteKeys (loc coverLeft).
Proof.
  split; [exact coverLeft_keys|].
  destruct (flush_recorded _ _ _ _ _ _ _ _ coverLeft coverLeft_runs) as [H _].
  exact (proj1 (H _ (VBool true) coverLeft_destroyed)).
Defined.

End ParallelCover.
