(* ===== verification/V2Exec.v ===== *)
(** * The parallel executor

    core/blockstm/v2_executor.go.  Workers execute the transactions of a block
    speculatively, in the order a dispatcher hands them out, and publish what they
    wrote; a validation loop goes through the block in order, checks the reads of each
    transaction against the settled ones below it, and has a transaction that fails
    executed once more; a settlement loop receives the transactions one by one.

    The preparation ([computeSenderNonces], [computeToPrev]) are functions.  The rest
    is a step relation over the shared variables: each step is one access that other
    goroutines can see, such as one read of a store, one published key, the closing of
    a channel.  A channel that is only closed is the set of indices for which it is.
    A settlement function is given.  Cancellation, timings and the statistics of
    failure categories are left out. *)

From S2P Require Import Prelude Bytes MvStore ParallelState.
Import MvStore ParallelState.

Module V2Exec.

Definition InFlightTaskMultiplier : nat := 4.

(** ** Nonces of chains of one sender *)

Record senderChain : Type := mkChain { baseNonce : Z; taskIdxs : list nat }.

Section prepare.
Context (base : SafeBase).

(** [env.BaseNonce] and [env.BaseCodeSize]. *)
Definition BaseNonce (a : Z) : Z := (bNonce base a).1.
Definition BaseCodeSize (a : Z) : nat := length (bCode base a).1.

Definition authoritySet (tasks : list Task) : gset Z :=
  fold_left (fun s t => fold_left (fun s a => {[a]} ∪ s) (tAuthorities t) s) tasks ∅.

Definition addToChain (chains : gmap Z senderChain) (i : nat) (t : Task) : gmap Z senderChain :=
  let c := default (mkChain (BaseNonce (tSender t)) []) (chains !! tSender t) in
  <[tSender t := mkChain (baseNonce c) (taskIdxs c ++ [i])]> chains.

Fixpoint groupBySender_loop (tasks : list Task) (i : nat) (chains : gmap Z senderChain) : gmap Z senderChain :=
  match tasks with
  | [] => chains
  | t :: tasks => groupBySender_loop tasks (S i) (addToChain chains i t)
  end.

Definition groupBySender (tasks : list Task) : gmap Z senderChain := groupBySender_loop tasks 0 ∅.

Definition precomputeSenderNonces (sender : Z) (c : senderChain) (auths : gset Z) : bool :=
  if (length (taskIdxs c) <? 2)%nat then false
  else if bool_decide (sender ∈ auths) then false
  else (BaseCodeSize sender =? 0)%nat.

Fixpoint assignLoop (sender nonce : Z) (idxs : list nat) (pos : Z) (out : list (gmap Z Z)) : list (gmap Z Z) :=
  match idxs with
  | [] => out
  | i :: idxs => assignLoop sender nonce idxs (pos + 1) (alter <[sender := u64 (nonce + pos)]> i out)
  end.

Definition assignSenderNonces (out : list (gmap Z Z)) (sender : Z) (c : senderChain) : list (gmap Z Z) :=
  if (length (taskIdxs c) <? 2)%nat then out
  else assignLoop sender (baseNonce c) (taskIdxs c) 0 out.

(** The loop over the chains, in the order [cs] in which the map is iterated. *)
Definition assignChains (auths : gset Z) (cs : list (Z * senderChain)) (out : list (gmap Z Z)) : list (gmap Z Z) :=
  fold_left (fun out p => if precomputeSenderNonces p.1 p.2 auths then assignSenderNonces out p.1 p.2 else out) cs out.

Definition computeSenderNonces (tasks : list Task) : list (gmap Z Z) :=
  assignChains (authoritySet tasks) (map_to_list (groupBySender tasks)) (replicate (length tasks) ∅).

End prepare.

(** ** Predicted predecessors *)

Definition minChainSize : Z := 3.

Definition countToAddrs (tasks : list Task) : gmap Z Z :=
  fold_left (fun out t => match tTo t with
                          | Some a => <[a := default 0 (out !! a) + 1]> out
                          | None => out
                          end) tasks ∅.

Record chainState : Type := mkChainState { lastTo : gmap Z Z; lastConflict : Z }.

Definition predecessor (c : chainState) (to : option Z) (i : Z) (toCount : gmap Z Z) (conflictAddrs : gset Z)
    (minChainSize : Z) : Z * chainState :=
  match to with
  | None => (-1, c)
  | Some a =>
      let '(prev, c) :=
        if minChainSize <=? default 0 (toCount !! a)
        then (default (-1) (lastTo c !! a), mkChainState (<[a := i]> (lastTo c)) (lastConflict c))
        else (-1, c) in
      if (prev =? -1) && bool_decide (a ∈ conflictAddrs)
      then (if 0 <=? lastConflict c then lastConflict c else prev, mkChainState (lastTo c) i)
      else (prev, c)
  end.

Fixpoint toPrev_loop (tasks : list Task) (i : Z) (c : chainState) (toCount : gmap Z Z) (conflictAddrs : gset Z) : list Z :=
  match tasks with
  | [] => []
  | t :: tasks =>
      let '(p, c) := predecessor c (tTo t) i toCount conflictAddrs minChainSize in
      p :: toPrev_loop tasks (i + 1) c toCount conflictAddrs
  end.

Definition computeToPrev (tasks : list Task) (conflictAddrs : gset Z) : list Z :=
  toPrev_loop tasks 0 (mkChainState ∅ (-1)) (countToAddrs tasks) conflictAddrs.

(** ** Shared state *)

(** Where a goroutine is in [execute]. *)
Inductive pc : Type :=
| pcVfailed                                             (* x.vfailed[i-1].Load() && x.toPrev[i] == i-1 *)
| pcFinalized                                           (* x.finalized[i-1].Load() *)
| pcCompletion                                          (* <-x.completionCh[i-1] *)
| pcPrev                                                (* <-x.execDone[prev] *)
| pcRun (t : tm PDB)                                    (* x.env.Execute *)
| pcFlush (p : PDB) (ws : list (Key * Value))           (* st.FlushToMVStore: values to publish *)
| pcFlushBal (p : PDB) (ds : list (Z * option Z * option Z))  (* flushBalanceDeltas *)
| pcCount                                               (* x.execCount.Add(1) *)
| pcDone.

(** Where the goroutine of a re-execution is: in [execute] with the old write keys and
    addresses in hand, or in [CleanupEstimate]. *)
Inductive repc : Type :=
| rExec (p : pc) (owk : list Key) (oba : list Z)
| rClean (tx : Z) (ks : list Key) (addrs : list Z).

(** What is left of [runValidationLoop]: a list of instructions. *)
Inductive vinstr : Type :=
| iFinishPrev (i : nat)
| iFinishLast (i : nat)
| iFinish (i : nat)                       (* finishReexec *)
| iFinalize (i : nat)                     (* x.finalized[i].Store(true) *)
| iComplete (i : nat)                     (* close(x.completionCh[i]) *)
| iSettle (i : nat)                       (* x.chSettle <- i *)
| iSettleReexec (i : nat)                 (* the same unless x.states[i] is nil *)
| iAwait (i : nat)                        (* <-x.execDone[i] *)
| iValidate (i : nat)                     (* x.states[i] != nil && x.states[i].Validate() *)
| iReads (i : nat) (l : Local) (rds : list StoreReadDesc) (brds : list BalReadDesc)
| iReread (i : nat) (l : Local) (writer : Z) (rd : StoreReadDesc) (rds : list StoreReadDesc) (brds : list BalReadDesc)
| iFail (i : nat)                         (* dispatchReexec *)
| iMark (tx : Z) (ks : list Key)          (* store.MarkEstimate *)
| iZero (tx : Z) (addrs : list Z)         (* bals.ZeroDelta *)
| iVfailed (i : nat)                      (* x.vfailed[i].Store(true) *)
| iBump (i : nat)                         (* x.incarnations[i]++ *)
| iLaunch (i : nat) (owk : list Key) (oba : list Z)
| iCloseSettle.

(** The variables [execute] works on. *)
Record shared : Type := mkShared {
  store : MVStore;
  bals : MVBalanceStore;
  states : gmap nat PDB;
  incarnations : gmap nat Z;
  execCount : Z;
  vfailed : gset nat;
  finalized : gset nat;
  completionCh : gset nat;
  execDone : gset nat
}.

Record v2ExecCtx : Type := mkCtx {
  sh : shared;
  next : nat;
  taskCh : list nat;
  workers : gmap nat pc;
  reexecs : gmap nat repc;
  vpc : list vinstr;
  reexecDone : gset nat;
  reexecClosed : gset nat;
  chSettle : list nat;
  settleClosed : bool;
  settled : list (nat * option PDB);
  vfailIdxs : list nat
}.

Definition set_store (v : MVStore) (s : shared) : shared :=
  mkShared v (bals s) (states s) (incarnations s) (execCount s) (vfailed s) (finalized s) (completionCh s) (execDone s).
Definition set_bals (v : MVBalanceStore) (s : shared) : shared :=
  mkShared (store s) v (states s) (incarnations s) (execCount s) (vfailed s) (finalized s) (completionCh s) (execDone s).
Definition set_state (i : nat) (p : PDB) (s : shared) : shared :=
  mkShared (store s) (bals s) (<[i := p]> (states s)) (incarnations s) (execCount s) (vfailed s) (finalized s)
    (completionCh s) (execDone s).
Definition incOf (s : shared) (i : nat) : Z := default 0 (incarnations s !! i).
Definition bumpInc (i : nat) (s : shared) : shared :=
  mkShared (store s) (bals s) (states s) (<[i := incOf s i + 1]> (incarnations s)) (execCount s) (vfailed s) (finalized s)
    (completionCh s) (execDone s).
Definition countExec (s : shared) : shared :=
  mkShared (store s) (bals s) (states s) (incarnations s) (execCount s + 1) (vfailed s) (finalized s)
    (completionCh s) (execDone s).
Definition set_vfailed (i : nat) (s : shared) : shared :=
  mkShared (store s) (bals s) (states s) (incarnations s) (execCount s) ({[i]} ∪ vfailed s) (finalized s)
    (completionCh s) (execDone s).
Definition set_finalized (i : nat) (s : shared) : shared :=
  mkShared (store s) (bals s) (states s) (incarnations s) (execCount s) (vfailed s) ({[i]} ∪ finalized s)
    (completionCh s) (execDone s).
Definition close_completionCh (i : nat) (s : shared) : shared :=
  mkShared (store s) (bals s) (states s) (incarnations s) (execCount s) (vfailed s) (finalized s)
    ({[i]} ∪ completionCh s) (execDone s).
Definition close_execDone (i : nat) (s : shared) : shared :=
  mkShared (store s) (bals s) (states s) (incarnations s) (execCount s) (vfailed s) (finalized s)
    (completionCh s) ({[i]} ∪ execDone s).

(** ** Steps *)

Section executor.
Context (keccak : list Z -> Z) (base : SafeBase) (turns : nat).
Context (tasks : list Task) (conflictAddrs : gset Z) (coinbase : Z) (numWorkers : nat).

Definition n : nat := length tasks.
Definition taskSenderNonces (i : nat) : gmap Z Z := default ∅ (computeSenderNonces base tasks !! i).
Definition toPrev (i : nat) : Z := default (-1) (computeToPrev tasks conflictAddrs !! i).

Definition isSet (s : gset nat) (j : Z) : Prop := 0 <= j /\ Z.to_nat j ∈ s.
Definition outOfRange (j : Z) : Prop := j < 0 \/ Z.of_nat n <= j.

(** [waitForFinal] may return. *)
Definition finalReturns (s : shared) (j : Z) : Prop :=
  outOfRange j \/ isSet (finalized s) j \/ (isSet (execDone s) j /\ isSet (completionCh s) j).

(** [waitForTx] may return. *)
Definition txReturns (s : shared) (j : Z) : Prop :=
  outOfRange j \/ isSet (finalized s) j \/ isSet (execDone s) j.

(** [execute] for the task [i].  The pool hands out a recycled state or none; the maps of
    [FlushToMVStore] are iterated in any order. *)
Inductive exec_step (i : nat) : shared -> pc -> shared -> pc -> Prop :=
| x_vfailed s :
    (0 < i)%nat -> (i - 1)%nat ∈ vfailed s -> toPrev i = Z.of_nat i - 1 ->
    exec_step i s pcVfailed s pcFinalized
| x_not_vfailed s :
    ~ ((0 < i)%nat /\ (i - 1)%nat ∈ vfailed s /\ toPrev i = Z.of_nat i - 1) ->
    exec_step i s pcVfailed s pcPrev
| x_finalized s : (i - 1)%nat ∈ finalized s -> exec_step i s pcFinalized s pcPrev
| x_not_finalized s : (i - 1)%nat ∉ finalized s -> exec_step i s pcFinalized s pcCompletion
| x_completion s : (i - 1)%nat ∈ completionCh s -> exec_step i s pcCompletion s pcPrev
| x_prev s t rec :
    tasks !! i = Some t -> toPrev i < 0 \/ isSet (execDone s) (toPrev i) ->
    exec_step i s pcPrev s
      (pcRun (Execute keccak base turns rec t (incOf s i) (taskSenderNonces i) coinbase true))
| x_read s k c : exec_step i s (pcRun (TRead k c)) s (pcRun (c (ReadVersionFull (store s) k (Z.of_nat i))))
| x_delta s a c : exec_step i s (pcRun (TDelta a c)) s (pcRun (c (ReadDelta (bals s) a (Z.of_nat i))))
| x_wait s j c : finalReturns s j -> exec_step i s (pcRun (TWait j c)) s (pcRun c)
| x_isest s k j c : exec_step i s (pcRun (TIsEst k j c)) s (pcRun (c (IsEstimate (store s) k j)))
| x_del s k j c : exec_step i s (pcRun (TDel k j c)) (set_store (Delete (store s) k j) s) (pcRun c)
| x_write s k v c :
    exec_step i s (pcRun (TWrite k v c)) (set_store (WriteInc (store s) k (Z.of_nat i) (incOf s i) v) s) (pcRun c)
| x_return s p ws : ws ≡ₚ flushWrites (loc p) -> exec_step i s (pcRun (TRet p)) s (pcFlush p ws)
| x_flush s p k v ws :
    exec_step i s (pcFlush p ((k, v) :: ws))
      (set_store (WriteInc (store s) k (TxIndex (loc p)) (Incarnation p) v) s) (pcFlush p ws)
| x_flushed s p ds : ds ≡ₚ flushDeltas (loc p) -> exec_step i s (pcFlush p []) s (pcFlushBal p ds)
| x_flush_bal s p a add sub ds :
    exec_step i s (pcFlushBal p ((a, add, sub) :: ds))
      (set_bals (WriteDelta (bals s) a (TxIndex (loc p)) add sub) s) (pcFlushBal p ds)
| x_state s p : exec_step i s (pcFlushBal p []) (set_state i p s) pcCount
| x_count s : exec_step i s pcCount (countExec s) pcDone.

(** The goroutine of a re-execution, up to the closing of its channel. *)
Inductive reexec_step (i : nat) : shared -> repc -> shared -> option repc -> Prop :=
| re_exec s s' p p' owk oba :
    exec_step i s p s' p' -> reexec_step i s (rExec p owk oba) s' (Some (rExec p' owk oba))
| re_cleanup s p owk oba :
    states s !! i = Some p ->
    reexec_step i s (rExec pcDone owk oba) s
      (Some (rClean (TxIndex (loc p)) owk (filter (fun a => a ∉ BalAddrs (loc p)) oba)))
| re_no_state s owk oba :
    states s !! i = None -> reexec_step i s (rExec pcDone owk oba) s (Some (rClean 0 [] []))
| re_clean s tx k ks addrs :
    reexec_step i s (rClean tx (k :: ks) addrs) (set_store (cleanupKey tx (store s) k) s) (Some (rClean tx ks addrs))
| re_clean_bal s tx a addrs :
    reexec_step i s (rClean tx [] (a :: addrs)) (set_bals (DeleteSingle (bals s) a tx) s) (Some (rClean tx [] addrs))
| re_close s tx : reexec_step i s (rClean tx [] []) s None.

(** The instructions of [validateOne] and of the whole loop from [i] on. *)
Definition validateOne (i : nat) : list vinstr := [iFinishPrev i; iFinishLast i; iAwait i; iValidate i].
Definition drainFrom (i : nat) : list vinstr := map iFinish (seq i (n - i)) ++ [iCloseSettle].
Definition loopFrom (i : nat) : list vinstr := concat (map validateOne (seq i (n - i))) ++ drainFrom 0.
Definition finalizePass (i : nat) : list vinstr := [iFinalize i; iComplete i; iSettle i].
Definition finishReexec (i : nat) : list vinstr := [iFinalize i; iComplete i; iSettleReexec i].

(** [dispatchReexec] for the state [o] that failed. *)
Definition dispatchReexec (i : nat) (o : option PDB) : list vinstr :=
  match o with
  | Some p => [iMark (TxIndex (loc p)) (WriteKeys (loc p)); iZero (TxIndex (loc p)) (BalAddrs (loc p));
               iVfailed i; iBump i; iLaunch i (WriteKeys (loc p)) (BalAddrs (loc p))]
  | None => [iVfailed i; iBump i; iLaunch i [] []]
  end.

Definition set_sh (s : shared) (x : v2ExecCtx) : v2ExecCtx :=
  mkCtx s (next x) (taskCh x) (workers x) (reexecs x) (vpc x) (reexecDone x) (reexecClosed x) (chSettle x)
    (settleClosed x) (settled x) (vfailIdxs x).
Definition set_vpc (v : list vinstr) (x : v2ExecCtx) : v2ExecCtx :=
  mkCtx (sh x) (next x) (taskCh x) (workers x) (reexecs x) v (reexecDone x) (reexecClosed x) (chSettle x)
    (settleClosed x) (settled x) (vfailIdxs x).
Definition set_workers (w : gmap nat pc) (x : v2ExecCtx) : v2ExecCtx :=
  mkCtx (sh x) (next x) (taskCh x) w (reexecs x) (vpc x) (reexecDone x) (reexecClosed x) (chSettle x)
    (settleClosed x) (settled x) (vfailIdxs x).
Definition set_reexecs (r : gmap nat repc) (x : v2ExecCtx) : v2ExecCtx :=
  mkCtx (sh x) (next x) (taskCh x) (workers x) r (vpc x) (reexecDone x) (reexecClosed x) (chSettle x)
    (settleClosed x) (settled x) (vfailIdxs x).
Definition set_reexecDone (d : gset nat) (x : v2ExecCtx) : v2ExecCtx :=
  mkCtx (sh x) (next x) (taskCh x) (workers x) (reexecs x) (vpc x) d (reexecClosed x) (chSettle x)
    (settleClosed x) (settled x) (vfailIdxs x).
Definition set_reexecClosed (d : gset nat) (x : v2ExecCtx) : v2ExecCtx :=
  mkCtx (sh x) (next x) (taskCh x) (workers x) (reexecs x) (vpc x) (reexecDone x) d (chSettle x)
    (settleClosed x) (settled x) (vfailIdxs x).
Definition set_taskCh (nx : nat) (c : list nat) (x : v2ExecCtx) : v2ExecCtx :=
  mkCtx (sh x) nx c (workers x) (reexecs x) (vpc x) (reexecDone x) (reexecClosed x) (chSettle x)
    (settleClosed x) (settled x) (vfailIdxs x).
Definition set_chSettle (c : list nat) (x : v2ExecCtx) : v2ExecCtx :=
  mkCtx (sh x) (next x) (taskCh x) (workers x) (reexecs x) (vpc x) (reexecDone x) (reexecClosed x) c
    (settleClosed x) (settled x) (vfailIdxs x).
Definition set_settled (c : list nat) (l : list (nat * option PDB)) (x : v2ExecCtx) : v2ExecCtx :=
  mkCtx (sh x) (next x) (taskCh x) (workers x) (reexecs x) (vpc x) (reexecDone x) (reexecClosed x) c
    (settleClosed x) l (vfailIdxs x).
Definition close_settle (x : v2ExecCtx) : v2ExecCtx :=
  mkCtx (sh x) (next x) (taskCh x) (workers x) (reexecs x) (vpc x) (reexecDone x) (reexecClosed x) (chSettle x)
    true (settled x) (vfailIdxs x).
Definition add_vfailIdx (i : nat) (x : v2ExecCtx) : v2ExecCtx :=
  mkCtx (sh x) (next x) (taskCh x) (workers x) (reexecs x) (vpc x) (reexecDone x) (reexecClosed x) (chSettle x)
    (settleClosed x) (settled x) (vfailIdxs x ++ [i]).

(** The recorded read is compared with the entry [r] that is read for it. *)
Definition readPasses (l : Local) (rd : StoreReadDesc) (r : ReadResult) : bool :=
  skipNonceForSenderChain l (rdKey rd) || storeReadMatches rd r.

Definition estimateMet (l : Local) (rd : StoreReadDesc) (r : ReadResult) : bool :=
  negb (skipNonceForSenderChain l (rdKey rd)) && (0 <=? writerIdx r) && isEst r.

(** One instruction of the validation loop with [tl] after it. *)
Inductive validate_step (x : v2ExecCtx) (tl : list vinstr) : vinstr -> v2ExecCtx -> Prop :=
| v_prev i j :
    toPrev i = Z.of_nat j -> j ∈ reexecDone x -> validate_step x tl (iFinishPrev i) (set_vpc (iFinish j :: tl) x)
| v_no_prev i :
    ~ (isSet (reexecDone x) (toPrev i)) -> validate_step x tl (iFinishPrev i) (set_vpc tl x)
| v_last i :
    (0 < i)%nat -> (i - 1)%nat ∈ vfailed (sh x) -> (i - 1)%nat ∈ reexecDone x ->
    validate_step x tl (iFinishLast i) (set_vpc (iFinish (i - 1) :: tl) x)
| v_no_last i :
    ~ ((0 < i)%nat /\ (i - 1)%nat ∈ vfailed (sh x) /\ (i - 1)%nat ∈ reexecDone x) ->
    validate_step x tl (iFinishLast i) (set_vpc tl x)
| v_finish_none i : i ∉ reexecDone x -> validate_step x tl (iFinish i) (set_vpc tl x)
| v_finish i :
    i ∈ reexecDone x -> i ∈ reexecClosed x ->
    validate_step x tl (iFinish i) (set_vpc (finishReexec i ++ tl) (set_reexecDone (reexecDone x ∖ {[i]}) x))
| v_finalize i : validate_step x tl (iFinalize i) (set_vpc tl (set_sh (set_finalized i (sh x)) x))
| v_complete i : validate_step x tl (iComplete i) (set_vpc tl (set_sh (close_completionCh i (sh x)) x))
| v_settle i :
    (length (chSettle x) < n)%nat -> validate_step x tl (iSettle i) (set_vpc tl (set_chSettle (chSettle x ++ [i]) x))
| v_settle_reexec i p :
    states (sh x) !! i = Some p -> (length (chSettle x) < n)%nat ->
    validate_step x tl (iSettleReexec i) (set_vpc tl (set_chSettle (chSettle x ++ [i]) x))
| v_settle_nil i : states (sh x) !! i = None -> validate_step x tl (iSettleReexec i) (set_vpc tl x)
| v_await i : i ∈ execDone (sh x) -> validate_step x tl (iAwait i) (set_vpc tl x)
| v_validate_nil i : states (sh x) !! i = None -> validate_step x tl (iValidate i) (set_vpc (iFail i :: tl) x)
| v_validate_panicked i p :
    states (sh x) !! i = Some p -> Panicked (loc p) = true ->
    validate_step x tl (iValidate i) (set_vpc (iFail i :: tl) x)
| v_validate i p :
    states (sh x) !! i = Some p -> Panicked (loc p) = false ->
    validate_step x tl (iValidate i) (set_vpc (iReads i (loc p) (StoreReads (trk p)) (BalReads (trk p)) :: tl) x)
| v_read_estimate i l rd rds brds r :
    r = ReadVersionFull (store (sh x)) (rdKey rd) (TxIndex l) -> estimateMet l rd r = true ->
    validate_step x tl (iReads i l (rd :: rds) brds) (set_vpc (iReread i l (writerIdx r) rd rds brds :: tl) x)
| v_read i l rd rds brds r :
    r = ReadVersionFull (store (sh x)) (rdKey rd) (TxIndex l) -> estimateMet l rd r = false ->
    validate_step x tl (iReads i l (rd :: rds) brds)
      (set_vpc ((if readPasses l rd r then iReads i l rds brds else iFail i) :: tl) x)
| v_reread i l w rd rds brds :
    txReturns (sh x) w ->
    validate_step x tl (iReread i l w rd rds brds)
      (set_vpc ((if readPasses l rd (ReadVersionFull (store (sh x)) (rdKey rd) (TxIndex l))
                 then iReads i l rds brds else iFail i) :: tl) x)
| v_bal i l rd brds :
    validate_step x tl (iReads i l [] (rd :: brds))
      (set_vpc ((if validateBalanceRead l (bals (sh x)) rd then iReads i l [] brds else iFail i) :: tl) x)
| v_pass i l : validate_step x tl (iReads i l [] []) (set_vpc (finalizePass i ++ tl) x)
| v_fail i : validate_step x tl (iFail i) (set_vpc (dispatchReexec i (states (sh x) !! i) ++ tl) (add_vfailIdx i x))
| v_mark tx k ks :
    validate_step x tl (iMark tx (k :: ks))
      (set_vpc (iMark tx ks :: tl) (set_sh (set_store (markKey tx (store (sh x)) k) (sh x)) x))
| v_marked tx : validate_step x tl (iMark tx []) (set_vpc tl x)
| v_zero tx a addrs :
    validate_step x tl (iZero tx (a :: addrs))
      (set_vpc (iZero tx addrs :: tl) (set_sh (set_bals (zeroKey tx (bals (sh x)) a) (sh x)) x))
| v_zeroed tx : validate_step x tl (iZero tx []) (set_vpc tl x)
| v_vfailed i : validate_step x tl (iVfailed i) (set_vpc tl (set_sh (set_vfailed i (sh x)) x))
| v_bump i : validate_step x tl (iBump i) (set_vpc tl (set_sh (bumpInc i (sh x)) x))
| v_launch i owk oba :
    validate_step x tl (iLaunch i owk oba)
      (set_vpc tl (set_reexecDone ({[i]} ∪ reexecDone x) (set_reexecs (<[i := rExec pcVfailed owk oba]> (reexecs x)) x)))
| v_close : validate_step x tl iCloseSettle (set_vpc tl (close_settle x)).

Inductive step (x : v2ExecCtx) : v2ExecCtx -> Prop :=
| s_dispatch :
    (next x < n)%nat ->
    ((numWorkers * InFlightTaskMultiplier <= next x)%nat ->
       (next x - numWorkers * InFlightTaskMultiplier)%nat ∈ execDone (sh x)) ->
    (length (taskCh x) < numWorkers)%nat ->
    step x (set_taskCh (S (next x)) (taskCh x ++ [next x]) x)
| s_take i rest :
    taskCh x = i :: rest -> (size (workers x) < numWorkers)%nat ->
    step x (set_workers (<[i := pcVfailed]> (workers x)) (set_taskCh (next x) rest x))
| s_work i p s' p' :
    workers x !! i = Some p -> exec_step i (sh x) p s' p' ->
    step x (set_workers (<[i := p']> (workers x)) (set_sh s' x))
| s_work_done i :
    workers x !! i = Some pcDone ->
    step x (set_workers (delete i (workers x)) (set_sh (close_execDone i (sh x)) x))
| s_reexec i r s' r' :
    reexecs x !! i = Some r -> reexec_step i (sh x) r s' (Some r') ->
    step x (set_reexecs (<[i := r']> (reexecs x)) (set_sh s' x))
| s_reexec_done i r s' :
    reexecs x !! i = Some r -> reexec_step i (sh x) r s' None ->
    step x (set_reexecClosed ({[i]} ∪ reexecClosed x) (set_reexecs (delete i (reexecs x)) (set_sh s' x)))
| s_validate h tl x' : vpc x = h :: tl -> validate_step x tl h x' -> step x x'
| s_settle i rest :
    chSettle x = i :: rest -> step x (set_settled rest (settled x ++ [(i, states (sh x) !! i)]) x).

Definition newV2ExecCtx : v2ExecCtx :=
  mkCtx (mkShared NewMVStore NewMVBalanceStore ∅ ∅ 0 ∅ ∅ ∅ ∅) 0 [] ∅ ∅ (loopFrom 0) ∅ ∅ [] false [] [].

Inductive reachable : v2ExecCtx -> Prop :=
| r_start : reachable newV2ExecCtx
| r_step x x' : reachable x -> step x x' -> reachable x'.

(** [ExecuteV2BlockSTM] returns: the validation loop is through, every worker and
    re-execution has ended, everything sent for settlement is settled. *)
Definition returned (x : v2ExecCtx) : Prop :=
  vpc x = [] /\ workers x = ∅ /\ taskCh x = [] /\ reexecs x = ∅ /\ chSettle x = [].

End executor.

End V2Exec.
