(* ===== verification/V2Prepare.v ===== *)
(** * Nonces prepared for chains of one sender

    [computeSenderNonces] of core/blockstm/v2_executor.go hands a transaction the nonce
    of its sender before anything is executed.  Here: to which transactions, and which
    nonce, whatever the order in which the map of chains is iterated. *)

From S2P Require Import Prelude Bytes MvStore ParallelState V2Exec.
Import MvStore ParallelState V2Exec.

Module V2Prepare.

Section prepare.
Context (base : SafeBase).

(** The tasks of a sender, numbered from [i]. *)
Fixpoint idxsFrom (a : Z) (tasks : list Task) (i : nat) : list nat :=
  match tasks with
  | [] => []
  | t :: tasks => if tSender t =? a then i :: idxsFrom a tasks (S i) else idxsFrom a tasks (S i)
  end.

(** How many tasks have the sender [a]. *)
Definition countOf (a : Z) (tasks : list Task) : nat := length (filter (fun t => tSender t = a) tasks).

Lemma idxsFrom_length a tasks i : length (idxsFrom a tasks i) = countOf a tasks.
Proof.
  unfold countOf. revert i. induction tasks as [|t tasks IH]; intros i; cbn [idxsFrom]; [done|].
  destruct (Z.eqb_spec (tSender t) a) as [H|H]; [rewrite filter_cons_True by done|rewrite filter_cons_False by done]; cbn; by rewrite IH.
Qed.

Lemma idxsFrom_ge a tasks i j : j ∈ idxsFrom a tasks i -> (i <= j)%nat.
Proof.
  revert i. induction tasks as [|t tasks IH]; intros i; cbn [idxsFrom]; [by intros H; apply not_elem_of_nil in H|].
  case_if; [rewrite elem_of_cons; intros [->|H]; [done|]|intros H]; apply IH in H; lia.
Qed.

Lemma idxsFrom_NoDup a tasks i : NoDup (idxsFrom a tasks i).
Proof.
  revert i. induction tasks as [|t tasks IH]; intros i; cbn [idxsFrom]; [constructor|]. case_if; [|apply IH].
  constructor; [|apply IH]. intros H. apply idxsFrom_ge in H. lia.
Qed.

(** The position of a task in the chain of its sender. *)
Lemma idxsFrom_pos a tasks i j t :
  tasks !! j = Some t -> tSender t = a -> idxsFrom a tasks i !! countOf a (take j tasks) = Some (i + j)%nat.
Proof.
  unfold countOf. revert i j. induction tasks as [|u tasks IH]; intros i j Hj Ht; [done|]. destruct j as [|j]; cbn in Hj.
  - injection Hj as ->. cbn. rewrite (proj2 (Z.eqb_eq _ _) Ht). cbn. f_equal. lia.
  - cbn [idxsFrom take]. destruct (Z.eqb_spec (tSender u) a) as [H|H].
    + rewrite filter_cons_True by done. etrans; [exact (IH (S i) j Hj Ht)|f_equal; lia].
    + rewrite filter_cons_False by done. rewrite (IH (S i) j Hj Ht). f_equal. lia.
Qed.

Lemma idxsFrom_elem a tasks i j : j ∈ idxsFrom a tasks i -> exists t, tasks !! (j - i)%nat = Some t /\ tSender t = a.
Proof.
  revert i. induction tasks as [|u tasks IH]; intros i; cbn [idxsFrom]; [by intros H; apply not_elem_of_nil in H|].
  destruct (Z.eqb_spec (tSender u) a) as [Hu|Hu]; [rewrite elem_of_cons; intros [->|H]|intros H].
  - exists u. by rewrite Nat.sub_diag.
  - pose proof (idxsFrom_ge _ _ _ _ H). apply IH in H as (t & Ht & Hs). exists t.
    replace (j - i)%nat with (S (j - S i)) by lia. done.
  - pose proof (idxsFrom_ge _ _ _ _ H). apply IH in H as (t & Ht & Hs). exists t.
    replace (j - i)%nat with (S (j - S i)) by lia. done.
Qed.

(** ** Chains *)

Lemma groupBySender_loop_lookup tasks i chains a :
  groupBySender_loop base tasks i chains !! a =
  match idxsFrom a tasks i with
  | [] => chains !! a
  | l => let c := default (mkChain (BaseNonce base a) []) (chains !! a) in Some (mkChain (baseNonce c) (taskIdxs c ++ l))
  end.
Proof.
  revert i chains. induction tasks as [|t tasks IH]; intros i chains; cbn [groupBySender_loop idxsFrom]; [done|].
  rewrite IH. unfold addToChain. destruct (Z.eqb_spec (tSender t) a) as [->|Hne].
  - rewrite lookup_insert_eq. cbn. destruct (idxsFrom a tasks (S i)) as [|x l]; cbn; [done|]. by rewrite <- app_assoc.
  - by rewrite lookup_insert_ne by done.
Qed.

Lemma groupBySender_lookup tasks a c :
  groupBySender base tasks !! a = Some c <->
  idxsFrom a tasks 0 <> [] /\ c = mkChain (BaseNonce base a) (idxsFrom a tasks 0).
Proof.
  unfold groupBySender. rewrite groupBySender_loop_lookup, lookup_empty.
  destruct (idxsFrom a tasks 0) as [|x l]; cbn; naive_solver.
Qed.

(** ** Assigning *)

Definition nonceAt (out : list (gmap Z Z)) (i : nat) (a : Z) : option Z := m ← out !! i; m !! a.

Lemma nonceAt_alter out i j s v a :
  (i < length out)%nat -> nonceAt (alter <[s := v]> i out) j a = if decide (j = i /\ a = s) then Some v else nonceAt out j a.
Proof.
  intros Hi. unfold nonceAt. destruct (decide (j = i)) as [->|Hne].
  - rewrite list_lookup_alter_eq. destruct (lookup_lt_is_Some_2 out i Hi) as [m ->]. cbn.
    destruct (decide (a = s)) as [->|Ha]; [by rewrite lookup_insert_eq, decide_True|].
    rewrite lookup_insert_ne, decide_False by naive_solver. done.
  - rewrite list_lookup_alter_ne, decide_False by naive_solver. done.
Qed.

Lemma length_assignLoop s nonce idxs pos out : length (assignLoop s nonce idxs pos out) = length out.
Proof. revert pos out. induction idxs as [|i idxs IH]; intros pos out; cbn; [done|]. rewrite IH. apply length_alter. Qed.

Lemma assignLoop_other s nonce idxs pos out j a :
  (forall i, i ∈ idxs -> (i < length out)%nat) -> a <> s \/ j ∉ idxs ->
  nonceAt (assignLoop s nonce idxs pos out) j a = nonceAt out j a.
Proof.
  revert pos out. induction idxs as [|i idxs IH]; intros pos out Hlt Ha; cbn [assignLoop]; [done|].
  rewrite IH; [|intros k Hk; rewrite length_alter; apply Hlt; by right|rewrite elem_of_cons in Ha; tauto].
  rewrite nonceAt_alter by (apply Hlt; by left). apply decide_False. rewrite elem_of_cons in Ha. naive_solver.
Qed.

Lemma assignLoop_at s nonce idxs pos out k j :
  NoDup idxs -> (forall i, i ∈ idxs -> (i < length out)%nat) -> idxs !! k = Some j ->
  nonceAt (assignLoop s nonce idxs pos out) j s = Some (u64 (nonce + (pos + Z.of_nat k))).
Proof.
  revert pos out k. induction idxs as [|i idxs IH]; intros pos out k Hn Hlt Hk; [done|].
  apply NoDup_cons in Hn as [Hi Hn]. cbn [assignLoop].
  assert (Hlt' : forall v l, l ∈ idxs -> (l < length (alter <[s := v]> i out))%nat)
    by (intros v l Hl; rewrite length_alter; apply Hlt; by right).
  destruct k as [|k]; cbn in Hk.
  - injection Hk as ->. rewrite assignLoop_other; [|apply Hlt'|by right].
    rewrite nonceAt_alter, decide_True by first [apply Hlt; by left|done]. do 2 f_equal. lia.
  - rewrite (IH _ _ k) by first [done|apply Hlt']. do 2 f_equal. lia.
Qed.

Lemma length_assignChains auths cs out : length (assignChains base auths cs out) = length out.
Proof.
  unfold assignChains. revert out. induction cs as [|p cs IH]; intros out; cbn; [done|]. rewrite IH.
  case_if; [|done]. unfold assignSenderNonces. case_if; [done|]. apply length_assignLoop.
Qed.

Lemma qualifies a c auths :
  precomputeSenderNonces base a c auths = true <->
  (2 <= length (taskIdxs c))%nat /\ (a ∉ auths) /\ BaseCodeSize base a = 0%nat.
Proof.
  unfold precomputeSenderNonces. destruct (Nat.ltb_spec (length (taskIdxs c)) 2); [split; [done|lia]|].
  case_bool_decide; [naive_solver|]. rewrite Nat.eqb_eq. naive_solver.
Qed.

(** A chain contributes to its own sender only. *)
Lemma assignChains_nonce auths cs out j a :
  NoDup cs.*1 -> (forall b c, (b, c) ∈ cs -> NoDup (taskIdxs c) /\ forall i, i ∈ taskIdxs c -> (i < length out)%nat) ->
  (forall c k, (a, c) ∈ cs -> precomputeSenderNonces base a c auths = true -> taskIdxs c !! k = Some j ->
     nonceAt (assignChains base auths cs out) j a = Some (u64 (baseNonce c + Z.of_nat k))) /\
  ((forall c, (a, c) ∈ cs -> precomputeSenderNonces base a c auths = true -> j ∉ taskIdxs c) ->
     nonceAt (assignChains base auths cs out) j a = nonceAt out j a).
Proof.
  unfold assignChains. revert out. induction cs as [|[b d] cs IH]; intros out Hn Hc; cbn [fold_left fst snd].
  { split; [|done]. intros c k Hin. by apply not_elem_of_nil in Hin. }
  cbn in Hn. apply NoDup_cons in Hn as [Hb Hn].
  set (out' := if precomputeSenderNonces base b d auths then assignSenderNonces out b d else out).
  assert (Hlen : length out' = length out).
  { unfold out'. case_if; [|done]. unfold assignSenderNonces. case_if; [done|]. apply length_assignLoop. }
  destruct (IH out' Hn) as [IH1 IH2].
  { intros e c Hin. rewrite Hlen. apply (Hc e). by right. }
  destruct (Hc b d ltac:(by left)) as [Hnd Hlt].
  assert (Hout : a <> b \/ precomputeSenderNonces base b d auths = false \/ j ∉ taskIdxs d -> nonceAt out' j a = nonceAt out j a).
  { intros H. unfold out'. destruct (precomputeSenderNonces base b d auths) eqn:Eq; [|done].
    unfold assignSenderNonces. case_if; [done|]. apply assignLoop_other; [done|]. naive_solver. }
  split.
  - intros c k Hin Hq Hk. apply elem_of_cons in Hin as [[= <- <-]|Hin]; [|by eapply IH1].
    rewrite IH2.
    + unfold out'. rewrite Hq. apply qualifies in Hq as (Hl & _). unfold assignSenderNonces.
      destruct (Nat.ltb_spec (length (taskIdxs c)) 2); [lia|]. rewrite (assignLoop_at _ _ _ _ _ k) by done. by rewrite Z.add_0_l.
    + intros e Hin. exfalso. apply Hb. apply list_elem_of_fmap. by exists (a, e).
  - intros H. rewrite IH2; [|intros c Hin; apply H; by right]. apply Hout.
    destruct (decide (a = b)) as [->|]; [|by left]. right. destruct (precomputeSenderNonces base b d auths) eqn:Eq; [|by left].
    right. apply (H d); [by left|done].
Qed.

Lemma authorities tasks a : a ∈ authoritySet tasks <-> exists t, t ∈ tasks /\ a ∈ tAuthorities t.
Proof.
  unfold authoritySet.
  assert (Hin : forall l (s : gset Z), a ∈ fold_left (fun s b => {[b]} ∪ s) l s <-> a ∈ l \/ a ∈ s).
  { induction l as [|b l IH]; intros s; cbn; [set_solver|]. rewrite IH, elem_of_cons. set_solver. }
  assert (Hout : forall l (s : gset Z), a ∈ fold_left (fun s t => fold_left (fun s b => {[b]} ∪ s) (tAuthorities t) s) l s <->
                                        (exists t, t ∈ l /\ a ∈ tAuthorities t) \/ a ∈ s).
  { induction l as [|t l IH]; intros s; cbn; [set_solver|]. rewrite IH, Hin. setoid_rewrite elem_of_cons. naive_solver. }
  rewrite Hout. set_solver.
Qed.

(** C16: the prepared nonces, exactly.  Whatever the order in which the map of chains is
    iterated, a transaction gets a nonce for an address exactly when the address is its
    sender, sends at least two transactions of the block, authorizes nothing in any of
    them and has no code before the block; the nonce is that of the base state plus the
    number of earlier transactions of the sender, in 64 bits. *)
Theorem computeSenderNonces_exact tasks cs i t a v :
  tasks !! i = Some t -> cs ≡ₚ map_to_list (groupBySender base tasks) ->
  nonceAt (assignChains base (authoritySet tasks) cs (replicate (length tasks) ∅)) i a = Some v <->
  a = tSender t /\ (2 <= countOf a tasks)%nat /\ (forall u, u ∈ tasks -> a ∉ tAuthorities u) /\ BaseCodeSize base a = 0%nat /\
  v = u64 (BaseNonce base a + Z.of_nat (countOf a (take i tasks))).
Proof.
  intros Ht Hcs.
  assert (Hin : forall b c, (b, c) ∈ cs <-> idxsFrom b tasks 0 <> [] /\ c = mkChain (BaseNonce base b) (idxsFrom b tasks 0)).
  { intros b c. rewrite Hcs, elem_of_map_to_list. apply groupBySender_lookup. }
  destruct (assignChains_nonce (authoritySet tasks) cs (replicate (length tasks) ∅) i a) as [H1 H2].
  { rewrite Hcs. apply NoDup_fst_map_to_list. }
  { intros b c Hb. apply Hin in Hb as [_ ->]. split; [apply idxsFrom_NoDup|]. cbn. intros j Hj. rewrite length_replicate.
    apply idxsFrom_elem in Hj as (u & Hu & _). rewrite Nat.sub_0_r in Hu. by apply lookup_lt_Some in Hu. }
  assert (Hnone : nonceAt (replicate (length tasks) ∅) i a = None).
  { unfold nonceAt. rewrite lookup_replicate_2 by (by apply lookup_lt_Some in Ht). cbn. apply lookup_empty. }
  set (c := mkChain (BaseNonce base a) (idxsFrom a tasks 0)) in *.
  assert (Hq : precomputeSenderNonces base a c (authoritySet tasks) = true <->
    (2 <= countOf a tasks)%nat /\ (forall u, u ∈ tasks -> a ∉ tAuthorities u) /\ BaseCodeSize base a = 0%nat).
  { rewrite qualifies. cbn. rewrite idxsFrom_length, authorities. naive_solver. }
  split.
  - intros Hv. destruct (decide (a = tSender t)) as [->|Hne].
    + destruct (precomputeSenderNonces base (tSender t) c (authoritySet tasks)) eqn:E.
      * apply proj1 in Hq. destruct (Hq eq_refl) as (Q1 & Q2 & Q3). split_and!; [done..|].
        rewrite (H1 c (countOf (tSender t) (take i tasks))) in Hv; [by injection Hv| |done|by apply (idxsFrom_pos _ _ 0%nat i t)].
        apply Hin. split; [|done]. intros Hnil. pose proof (idxsFrom_length (tSender t) tasks 0) as Hl. rewrite Hnil in Hl. cbn in Hl. lia.
      * rewrite H2, Hnone in Hv; [done|]. intros c' Hc' Hq'. apply Hin in Hc' as [_ ->]. unfold c in E. congruence.
    + rewrite H2, Hnone in Hv; [done|]. intros c' Hc' _ Hj. apply Hin in Hc' as [_ ->]. cbn in Hj.
      apply idxsFrom_elem in Hj as (u & Hu & Hs). rewrite Nat.sub_0_r, Ht in Hu. by injection Hu as ->.
  - intros (-> & Q1 & Q2 & Q3 & ->). apply (H1 c (countOf (tSender t) (take i tasks))); [|by apply Hq|by apply (idxsFrom_pos _ _ 0%nat i t)].
    apply Hin. split; [|done]. intros Hnil. pose proof (idxsFrom_length (tSender t) tasks 0) as Hl. rewrite Hnil in Hl. cbn in Hl. lia.
Qed.

End prepare.

(** Three transactions; the first and the last have the same sender. *)
Definition prepBase : SafeBase :=
  mkBase (fun _ => (true, false)) (fun _ => (100, false)) (fun _ => (7, false)) (fun _ => ([], false))
         (fun _ => (0, false)) (fun _ _ => (5, false)) (fun _ _ => (5, false)) (fun _ => (0, false)).

Definition prepTasks : list Task :=
  [mkTask 0 10 None [] (pPanic "none"); mkTask 1 11 None [12] (pPanic "none"); mkTask 2 10 None [] (pPanic "none")].

Lemma computeSenderNonces_exact_witness :
  nonceAt (computeSenderNonces prepBase prepTasks) 2 10 = Some 8.
Proof.
  refine (proj2 (computeSenderNonces_exact prepBase prepTasks _ 2 (mkTask 2 10 None [] (pPanic "none")) 10 8 _ _) _).
  - reflexivity.
  - reflexivity.
  - split_and!; [reflexivity|vm_compute; lia| |reflexivity|reflexivity].
    intros u Hu. unfold prepTasks in Hu. rewrite !elem_of_cons in Hu.
    destruct Hu as [->|[->|[->|Hu]]]; cbn; rewrite ?elem_of_cons; [by intros H; apply not_elem_of_nil in H| |by intros H; apply not_elem_of_nil in H|by apply not_elem_of_nil in Hu].
    intros [H|H]; [lia|by apply not_elem_of_nil in H].
Defined.

End V2Prepare.
