(* ===== verification/V2Cells.v ===== *)
(** * What one transaction has in the stores

    The executor moves the entries of a transaction through publishing, marking as
    estimates and cleaning up, one key at a time.  This file describes the entries of
    one transaction at each point, how the single accesses move them, and that a
    reader sees the entries below it and nothing else. *)

From S2P Require Import Prelude Bytes MvStore MvStoreProps ParallelState ParallelRead ParallelRun ParallelCover.
Import MvStore MvStoreProps ParallelState ParallelRead ParallelRun ParallelCover.

Module V2Cells.

(** ** Readers depend on the entries below them *)

Lemma ReadVersionFull_cells s k tx :
  wfStore s ->
  (ReadVersionFull s k tx = notFound /\ forall j, j < tx -> cell s k j = None) \/
  (exists e, cell s k (txIdx e) = Some e /\ txIdx e < tx /\ (forall j, txIdx e < j < tx -> cell s k j = None) /\
     ReadVersionFull s k tx = mkRead (Some (value e)) (txIdx e) (incarnation e) true (estimate e)).
Proof.
  intros Hwf. unfold ReadVersionFull. destruct (mayContain (bloom s) k) eqn:Hb; cbn [negb].
  - pose proof (read_cells s k tx Hwf) as H. destruct (searchTx txIdx (entriesOf s k) tx) as [|p]; [by left|].
    right. destruct H as (e & -> & Hc & Hlt & Hmax). eauto 10.
  - left. split; [done|]. intros j _. unfold cell. destruct (decide (entriesOf s k = [])) as [->|Hn]; [done|].
    apply (wf_filter _ Hwf) in Hn. congruence.
Qed.

(** Entries that differ in the incarnation at most. *)
Definition sameEntry (e e' : versionedEntry) : Prop :=
  txIdx e = txIdx e' /\ value e = value e' /\ estimate e = estimate e'.

Lemma read_sameVersion s s' k tx :
  wfStore s -> wfStore s' -> (forall j, j < tx -> option_Forall2 sameEntry (cell s k j) (cell s' k j)) ->
  sameVersion (ReadVersionFull s k tx) (ReadVersionFull s' k tx).
Proof.
  intros Hwf Hwf' Hc.
  assert (Hn : forall j, j < tx -> cell s k j = None <-> cell s' k j = None).
  { intros j Hj. specialize (Hc j Hj). by inversion Hc. }
  destruct (ReadVersionFull_cells s k tx Hwf) as [(-> & H)|(e & He & Hlt & Hmax & ->)],
    (ReadVersionFull_cells s' k tx Hwf') as [(-> & H')|(e' & He' & Hlt' & Hmax' & ->)].
  - done.
  - by rewrite (proj1 (Hn _ Hlt') (H _ Hlt')) in He'.
  - by rewrite (proj2 (Hn _ Hlt) (H' _ Hlt)) in He.
  - assert (Heq : txIdx e = txIdx e').
    { destruct (Z.lt_trichotomy (txIdx e) (txIdx e')) as [Hl|[?|Hl]]; [|done|].
      - by rewrite (proj1 (Hn _ Hlt') (Hmax _ (conj Hl Hlt'))) in He'.
      - by rewrite (proj2 (Hn _ Hlt) (Hmax' _ (conj Hl Hlt))) in He. }
    specialize (Hc _ Hlt). rewrite He, Heq, He' in Hc. inversion Hc as [? ? (H1 & H2 & H3)|]; subst.
    unfold sameVersion. cbn. by rewrite H1, H2, H3.
Qed.

Lemma read_frame s s' k tx :
  wfStore s -> wfStore s' -> (forall j, j < tx -> cell s' k j = cell s k j) ->
  ReadVersionFull s' k tx = ReadVersionFull s k tx.
Proof.
  intros Hwf Hwf' Hc.
  destruct (ReadVersionFull_cells s k tx Hwf) as [(-> & H)|(e & He & Hlt & Hmax & ->)],
    (ReadVersionFull_cells s' k tx Hwf') as [(-> & H')|(e' & He' & Hlt' & Hmax' & ->)].
  - done.
  - rewrite (Hc _ Hlt'), (H _ Hlt') in He'. done.
  - rewrite <- (Hc _ Hlt), (H' _ Hlt) in He. done.
  - assert (Heq : txIdx e = txIdx e').
    { destruct (Z.lt_trichotomy (txIdx e) (txIdx e')) as [Hl|[?|Hl]]; [|done|].
      - rewrite (Hc _ Hlt'), (Hmax _ (conj Hl Hlt')) in He'. done.
      - rewrite <- (Hc _ Hlt), (Hmax' _ (conj Hl Hlt)) in He. done. }
    rewrite (Hc _ Hlt'), <- Heq, He in He'. by injection He' as <-.
Qed.

Lemma sumTo_mod n f g :
  (forall j, 0 <= j < Z.of_nat n -> u256 (f j) = u256 (g j)) -> u256 (sumTo n f) = u256 (sumTo n g).
Proof.
  induction n as [|n IH]; intros H; cbn [sumTo]; [done|].
  unfold u256 in *. rewrite Zplus_mod, IH, (H (Z.of_nat n)) by first [intros j Hj; apply H; lia|lia].
  by rewrite <- Zplus_mod.
Qed.

Lemma delta_reads b b' a i :
  wfBals b -> wfBals b' ->
  (forall j, 0 <= j < Z.of_nat i -> u256 (addsOf b a j) = u256 (addsOf b' a j) /\ u256 (subsOf b a j) = u256 (subsOf b' a j)) ->
  ReadDelta b a (Z.of_nat i) = ReadDelta b' a (Z.of_nat i).
Proof.
  intros Hb Hb' H. rewrite !ReadDelta_sum by done.
  f_equal; apply sumTo_mod; intros j Hj; by apply H.
Qed.

(** ** Values *)

(** The entries of transaction [j] are those of [new], written by incarnation [inc], and
    estimates under keys of [old]. *)
Definition shows (s : MVStore) (j : Z) (old : list Key) (new : list (Key * Value)) (inc : Z) : Prop :=
  (forall k v, (k, v) ∈ new -> cell s k j = Some (mkEntry j inc v false)) /\
  (forall k e, cell s k j = Some e ->
     (exists v, (k, v) ∈ new /\ e = mkEntry j inc v false) \/ (k ∈ old /\ estimate e = true)).

Lemma shows_frame s s' j old new inc :
  (forall k, cell s' k j = cell s k j) -> shows s j old new inc -> shows s' j old new inc.
Proof. intros H [H1 H2]. split; [intros k v|intros k e]; rewrite H; [apply H1|apply H2]. Qed.

Lemma shows_empty s j inc : (forall k, cell s k j = None) -> shows s j [] [] inc.
Proof.
  intros H. split; [intros k v Hk; by apply not_elem_of_nil in Hk|]. intros k e He. by rewrite H in He.
Qed.

Lemma shows_inc s j old inc inc' : shows s j old [] inc -> shows s j old [] inc'.
Proof.
  intros [H1 H2]. split; [intros k v Hk; by apply not_elem_of_nil in Hk|]. intros k e He.
  destruct (H2 k e He) as [(v & Hv & _)|H]; [by apply not_elem_of_nil in Hv|by right].
Qed.

Lemma shows_perm s j old new new' inc : new ≡ₚ new' -> shows s j old new inc -> shows s j old new' inc.
Proof.
  intros Hp [H1 H2]. split.
  - intros k v Hk. apply H1. by rewrite Hp.
  - intros k e He. destruct (H2 k e He) as [(v & Hv & ?)|H]; [left; exists v; by rewrite <- Hp|by right].
Qed.

Lemma shows_write s j old new inc k v :
  wfStore s -> (forall v', (k, v') ∈ new -> v' = v) -> shows s j old new inc ->
  shows (WriteInc s k j inc v) j old ((k, v) :: new) inc.
Proof.
  intros Hwf Hu [H1 H2]. destruct (WriteInc_spec s k j inc v Hwf) as [_ Hc]. split.
  - intros k' v' Hk. rewrite Hc. apply elem_of_cons in Hk as [[= -> ->]|Hk]; [by rewrite decide_True|].
    case_decide as Hd; [|by apply H1]. destruct Hd as [-> _]. by rewrite (Hu v' Hk).
  - intros k' e He. rewrite Hc in He. case_decide as Hd.
    + destruct Hd as [-> _]. injection He as <-. left. exists v. split; [by left|done].
    + destruct (H2 k' e He) as [(v' & Hv & ->)|H]; [left; exists v'; split; [by right|done]|by right].
Qed.

Lemma shows_clean s j k ks new inc :
  wfStore s -> shows s j (k :: ks) new inc -> shows (cleanupKey j s k) j ks new inc.
Proof.
  intros Hwf [H1 H2]. destruct (cleanupKey_spec j s k Hwf) as [_ Hc]. split.
  - intros k' v Hk. rewrite Hc. rewrite decide_False; [by apply H1|]. intros (_ & _ & Hs).
    by rewrite (H1 _ _ Hk) in Hs.
  - intros k' e He. rewrite Hc in He. case_decide as Hd; [done|].
    destruct (H2 k' e He) as [H|[Hin Hest]]; [by left|]. apply elem_of_cons in Hin as [->|Hin]; [|by right].
    destruct Hd. rewrite He. by cbn.
Qed.

(** Every entry is under a key of [keys], and flagged unless its key is one of [ks]. *)
Definition flaggedBut (s : MVStore) (j : Z) (keys ks : list Key) : Prop :=
  forall k e, cell s k j = Some e -> k ∈ keys /\ (estimate e = true \/ k ∈ ks).

Lemma flaggedBut_start s j l inc :
  covered l -> shows s j [] (flushWrites l) inc -> flaggedBut s j (WriteKeys l) (WriteKeys l).
Proof.
  intros Hcov [_ H] k e He. destruct (H k e He) as [(v & Hv & _)|[Hn _]]; [|by apply not_elem_of_nil in Hn].
  apply (flushWrites_covered _ _ _ Hcov) in Hv. auto.
Qed.

Lemma flaggedBut_mark s j keys k ks :
  wfStore s -> flaggedBut s j keys (k :: ks) -> flaggedBut (markKey j s k) j keys ks.
Proof.
  intros Hwf H k' e He. destruct (markKey_spec j s k Hwf) as [_ Hc]. rewrite Hc in He. case_decide as Hd.
  - destruct (cell s k' j) as [e'|] eqn:E; [|done]. injection He as <-. destruct (H k' e' E) as [Hk _]. auto.
  - destruct (H k' e He) as [Hk [He'|Hin]]; [auto|]. apply elem_of_cons in Hin as [->|Hin]; [by destruct Hd|auto].
Qed.

Lemma flaggedBut_end s j keys inc : flaggedBut s j keys [] -> shows s j keys [] inc.
Proof.
  intros H. split; [intros k v Hk; by apply not_elem_of_nil in Hk|]. intros k e He.
  destruct (H k e He) as [Hk [?|Hn]]; [by right|by apply not_elem_of_nil in Hn].
Qed.

(** ** Balance deltas *)

(** The sums of a list of deltas for an address. *)
Definition dsum (ds : list (Z * option Z * option Z)) (a : Z) : Z * Z :=
  fold_right (fun d p => if d.1.1 =? a then (default 0 d.1.2 + p.1, default 0 d.2 + p.2) else p) (0, 0) ds.

Lemma dsum_cons d ds a :
  dsum (d :: ds) a = if d.1.1 =? a then (default 0 d.1.2 + (dsum ds a).1, default 0 d.2 + (dsum ds a).2) else dsum ds a.
Proof. done. Qed.

Lemma dsum_perm ds ds' a : ds ≡ₚ ds' -> dsum ds a = dsum ds' a.
Proof.
  induction 1 as [|d ds ds' _ IH|d d' ds|]; rewrite ?dsum_cons; [done|by rewrite <- IH| |congruence].
  repeat case_if; cbn [fst snd]; f_equal; lia.
Qed.

Lemma dsum_absent ds a : (forall x y, (a, x, y) ∉ ds) -> dsum ds a = (0, 0).
Proof.
  induction ds as [|[[b x] y] ds IH]; intros H; [done|]. rewrite dsum_cons. cbn [fst snd].
  destruct (Z.eqb_spec b a) as [->|Hne]; [exfalso; apply (H x y); by left|].
  apply IH. intros x' y' Hin. apply (H x' y'). by right.
Qed.

(** Modulo 2^256, transaction [j] has contributed [d] to every balance. *)
Definition owes (b : MVBalanceStore) (j : Z) (d : Z -> Z * Z) : Prop :=
  forall a, u256 (addsOf b a j) = u256 (d a).1 /\ u256 (subsOf b a j) = u256 (d a).2.

Lemma owes_frame b b' j d : (forall a, delta b' a j = delta b a j) -> owes b j d -> owes b' j d.
Proof. intros H Ho a. unfold addsOf, subsOf. rewrite H. apply Ho. Qed.

Lemma owes_ext b j d d' : (forall a, d a = d' a) -> owes b j d -> owes b j d'.
Proof. intros H Ho a. rewrite <- H. apply Ho. Qed.

Lemma owes_write b j ds a x y :
  wfBals b -> 0 <= j -> owes b j (dsum ds) -> owes (WriteDelta b a j x y) j (dsum ((a, x, y) :: ds)).
Proof.
  intros Hwf Hj Ho a'. destruct (WriteDelta_spec b a j x y Hwf Hj) as [_ Hc]. destruct (Ho a') as [H1 H2].
  unfold addsOf, subsOf in *. rewrite Hc, dsum_cons. cbn [fst snd].
  destruct (Z.eqb_spec a a') as [<-|Hne].
  - rewrite decide_True by done. cbn [fst snd].
    assert (Hsum : forall u w z, u256 u = u256 w -> u256 (u256 (u + z)) = u256 (z + w)).
    { intros u w z Hu. rewrite u256_idem, (Z.add_comm u z). unfold u256 in *. rewrite Zplus_mod, Hu.
      by rewrite <- Zplus_mod. }
    unfold added. destruct (delta b a j) as [e|]; cbn [Add Sub]; [by rewrite !(Hsum _ _ _ H1), !(Hsum _ _ _ H2)|].
    rewrite <- (Hsum _ _ _ H1), <- (Hsum _ _ _ H2). cbn. by rewrite !u256_idem.
  - rewrite decide_False; [done|]. intros [-> _]. done.
Qed.

Lemma owes_delete b j d a : wfBals b -> d a = (0, 0) -> owes b j d -> owes (DeleteSingle b a j) j d.
Proof.
  intros Hwf Hd Ho a'. destruct (DeleteSingle_spec b a j Hwf) as [_ Hc]. unfold addsOf, subsOf. rewrite Hc.
  case_decide as Hx; [|apply Ho]. destruct Hx as [-> _]. by rewrite Hd.
Qed.

(** Nothing contributed, except to the addresses of [addrs]. *)
Definition zeroBut (b : MVBalanceStore) (j : Z) (addrs : list Z) : Prop :=
  forall a, a ∈ addrs \/ (u256 (addsOf b a j) = 0 /\ u256 (subsOf b a j) = 0).

Lemma zeroBut_start b j l : covered l -> owes b j (dsum (flushDeltas l)) -> zeroBut b j (BalAddrs l).
Proof.
  intros Hcov Ho a. destruct (decide (a ∈ BalAddrs l)) as [|Hn]; [by left|right].
  destruct (Ho a) as [-> ->]. rewrite dsum_absent; [done|]. intros x y Hin. by apply (flushDeltas_covered _ _ _ _ Hcov) in Hin.
Qed.

Lemma zeroBut_zero b j a addrs : wfBals b -> zeroBut b j (a :: addrs) -> zeroBut (zeroKey j b a) j addrs.
Proof.
  intros Hwf H a'. destruct (zeroKey_spec j b a Hwf) as [_ Hc]. unfold addsOf, subsOf. rewrite Hc.
  case_decide as Hd; [right; by destruct (delta b a' j)|].
  destruct (H a') as [Hin|H']; [|by right]. apply elem_of_cons in Hin as [->|Hin]; [by destruct Hd|by left].
Qed.

Lemma zeroBut_end b j : zeroBut b j [] -> owes b j (dsum []).
Proof. intros H a. destruct (H a) as [Hn|H']; [by apply not_elem_of_nil in Hn|done]. Qed.

Lemma owes_none b j : (forall a, delta b a j = None) -> owes b j (dsum []).
Proof. intros H a. unfold addsOf, subsOf. by rewrite H. Qed.

(** ** Frames of the single accesses *)

Lemma WriteInc_frame s k tx inc v k' j : wfStore s -> j <> tx -> cell (WriteInc s k tx inc v) k' j = cell s k' j.
Proof. intros Hwf Hj. destruct (WriteInc_spec s k tx inc v Hwf) as [_ Hc]. rewrite Hc, decide_False; [done|tauto]. Qed.

Lemma markKey_frame tx s k k' j : wfStore s -> j <> tx -> cell (markKey tx s k) k' j = cell s k' j.
Proof. intros Hwf Hj. destruct (markKey_spec tx s k Hwf) as [_ Hc]. rewrite Hc, decide_False; [done|tauto]. Qed.

Lemma cleanupKey_frame tx s k k' j : wfStore s -> j <> tx -> cell (cleanupKey tx s k) k' j = cell s k' j.
Proof. intros Hwf Hj. destruct (cleanupKey_spec tx s k Hwf) as [_ Hc]. rewrite Hc, decide_False; [done|tauto]. Qed.

Lemma WriteDelta_frame b a tx x y a' j : wfBals b -> 0 <= tx -> j <> tx -> delta (WriteDelta b a tx x y) a' j = delta b a' j.
Proof. intros Hwf Htx Hj. destruct (WriteDelta_spec b a tx x y Hwf Htx) as [_ Hc]. rewrite Hc, decide_False; [done|tauto]. Qed.

Lemma zeroKey_frame tx b a a' j : wfBals b -> j <> tx -> delta (zeroKey tx b a) a' j = delta b a' j.
Proof. intros Hwf Hj. destruct (zeroKey_spec tx b a Hwf) as [_ Hc]. rewrite Hc, decide_False; [done|tauto]. Qed.

Lemma DeleteSingle_frame b a tx a' j : wfBals b -> j <> tx -> delta (DeleteSingle b a tx) a' j = delta b a' j.
Proof. intros Hwf Hj. destruct (DeleteSingle_spec b a tx Hwf) as [_ Hc]. rewrite Hc, decide_False; [done|tauto]. Qed.

End V2Cells.
