(* ===== verification/V2Serial.v ===== *)
(** * Serial execution, and runs in progress

    The reference of the parallel executor: the transactions of the block executed one
    after the other, each on what the earlier ones published.  A store whose entries
    below a transaction are those of the reference answers the reads of that
    transaction like the reference.  The second part describes an execution that is
    under way among others by the answers it has got so far. *)

From S2P Require Import Prelude Bytes MvStore MvStoreProps ParallelState ParallelRead ParallelRun ParallelCover V2Exec V2Cells.
Import MvStore MvStoreProps ParallelState ParallelRead ParallelRun ParallelCover V2Exec V2Cells.

Module V2Serial.

(** Publishing a state at once. *)
Definition publish (tx : Z) (l : Local) (s : MVStore) : MVStore :=
  fold_left (fun s p => WriteInc s p.1 tx 0 p.2) (flushWrites l) s.

Definition publishBals (tx : Z) (l : Local) (b : MVBalanceStore) : MVBalanceStore :=
  fold_left (fun b d => WriteDelta b d.1.1 tx d.1.2 d.2) (flushDeltas l) b.

Lemma writes_shows ws s j new inc :
  wfStore s -> (forall k v v', (k, v) ∈ ws ++ new -> (k, v') ∈ ws ++ new -> v = v') -> shows s j [] new inc ->
  let s' := fold_left (fun s p => WriteInc s p.1 j inc p.2) ws s in
  wfStore s' /\ shows s' j [] (ws ++ new) inc /\ forall k z, z <> j -> cell s' k z = cell s k z.
Proof.
  revert s new. induction ws as [|[k v] ws IH]; intros s new Hwf Hu Hs; [done|]. cbn [fold_left fst snd].
  pose proof (WriteInc_spec s k j inc v Hwf) as [Hwf' _].
  assert (Hs' : shows (WriteInc s k j inc v) j [] ((k, v) :: new) inc).
  { apply shows_write; [done| |done]. intros v' Hin. apply (Hu k); [apply elem_of_app; by right|by left]. }
  destruct (IH _ ((k, v) :: new) Hwf') as (H1 & H2 & H3).
  - intros k' v1 v2 Hin1 Hin2. apply (Hu k'); rewrite ?elem_of_app, ?elem_of_cons in *; tauto.
  - done.
  - split_and!; [done|eapply shows_perm; [|exact H2]; solve_Permutation|].
    intros k' z Hz. rewrite (H3 k' z Hz). by apply WriteInc_frame.
Qed.

Lemma deltas_owe ds b j done :
  wfBals b -> 0 <= j -> owes b j (dsum done) ->
  let b' := fold_left (fun b d => WriteDelta b d.1.1 j d.1.2 d.2) ds b in
  wfBals b' /\ owes b' j (dsum (ds ++ done)) /\ forall a z, z <> j -> delta b' a z = delta b a z.
Proof.
  revert b done. induction ds as [|[[a x] y] ds IH]; intros b done Hwf Hj Ho; [by split_and!|]. cbn [fold_left fst snd].
  pose proof (WriteDelta_spec b a j x y Hwf Hj) as [Hwf' _].
  destruct (IH _ ((a, x, y) :: done) Hwf' Hj (owes_write b j done a x y Hwf Hj Ho)) as (H1 & H2 & H3).
  split_and!; [done| |].
  - eapply owes_ext; [|exact H2]. intros a'. apply dsum_perm. solve_Permutation.
  - intros a' z Hz. rewrite (H3 a' z Hz). by apply WriteDelta_frame.
Qed.

Section serial.
Context (keccak : list Z -> Z) (base : SafeBase) (turns : nat).
Context (tasks : list Task) (conflictAddrs : gset Z) (coinbase : Z).
Context (Hturns : (0 < turns)%nat).
Context (Hidx : forall i t, tasks !! i = Some t -> tIndex t = Z.of_nat i).

Abbreviation sn i := (taskSenderNonces base tasks i).
Abbreviation exec i rec t inc := (Execute keccak base turns rec t inc (sn i) coinbase true).

(** One transaction after the other. *)
Fixpoint serialStores (i : nat) : MVStore * MVBalanceStore :=
  match i with
  | O => (NewMVStore, NewMVBalanceStore)
  | S i' =>
      let '(s, b) := serialStores i' in
      match tasks !! i' with
      | Some t => let l := loc (runOn keccak base turns (sn i') coinbase s b t) in
                  (publish (Z.of_nat i') l s, publishBals (Z.of_nat i') l b)
      | None => (s, b)
      end
  end.

(** What transaction [i] leaves when the block is executed serially. *)
Definition serial (i : nat) : Local :=
  match tasks !! i with
  | Some t => loc (runOn keccak base turns (sn i) coinbase (serialStores i).1 (serialStores i).2 t)
  | None => newLocal 0
  end.

(** A store and a balance store with the entries of the reference below [i]. *)
Record settledTo (s : MVStore) (b : MVBalanceStore) (i : nat) : Prop := {
  st_wf : wfStore s;
  st_wfb : wfBals b;
  st_neg : forall k z, z < 0 -> cell s k z = None;
  st_shows : forall j, (j < i)%nat -> exists inc, shows s (Z.of_nat j) [] (flushWrites (serial j)) inc;
  st_owes : forall j, (j < i)%nat -> owes b (Z.of_nat j) (dsum (flushDeltas (serial j)))
}.

Lemma serialStores_settled i :
  (i <= length tasks)%nat ->
  settledTo (serialStores i).1 (serialStores i).2 i /\
  (forall k z, Z.of_nat i <= z -> cell (serialStores i).1 k z = None) /\
  (forall a z, Z.of_nat i <= z -> delta (serialStores i).2 a z = None).
Proof.
  induction i as [|i IH]; intros Hi.
  - assert (Hc : forall k z, cell NewMVStore k z = None).
    { intros k z. destruct NewMVStore_refines as [_ H]. by rewrite H, lookup_empty. }
    assert (Hd : forall a z, delta NewMVBalanceStore a z = None).
    { intros a z. unfold delta, deltasOf, NewMVBalanceStore. cbn [balShards].
      rewrite lookup_replicate_2 by apply balShardOf_range. cbn. by rewrite lookup_empty. }
    split_and!; [|by intros..]. split; [apply NewMVStore_wf|apply NewMVBalanceStore_wf|by intros|lia..].
  - destruct (IH ltac:(lia)) as ([H1 H2 H3 H4 H5] & Hc & Hd). clear IH.
    assert (Hs : is_Some (tasks !! i)) by (apply lookup_lt_is_Some; lia). destruct Hs as [t Ht].
    assert (Hser : serial i = loc (runOn keccak base turns (sn i) coinbase (serialStores i).1 (serialStores i).2 t))
      by (unfold serial; by rewrite Ht).
    cbn [serialStores]. destruct (serialStores i) as [s b] eqn:E. cbn [fst snd] in *. rewrite Ht. cbn [fst snd].
    rewrite <- Hser. clear Hser.
    destruct (writes_shows (flushWrites (serial i)) s (Z.of_nat i) [] 0) as (W1 & W2 & W3); [done| | |].
    { intros k v v'. rewrite app_nil_r. apply flushWrites_unique. }
    { apply shows_empty. intros k. apply Hc. lia. }
    rewrite app_nil_r in W2.
    destruct (deltas_owe (flushDeltas (serial i)) b (Z.of_nat i) []) as (D1 & D2 & D3); [done|lia| |].
    { apply owes_none. intros a. apply Hd. lia. }
    rewrite app_nil_r in D2. split_and!.
    + split; [done|done| | |].
      * intros k z Hz. unfold publish. rewrite W3 by lia. by apply H3.
      * intros j Hj. destruct (decide (j = i)) as [->|Hne]; [by exists 0|].
        destruct (H4 j ltac:(lia)) as [inc Hinc]. exists inc. eapply shows_frame; [|exact Hinc]. intros k. apply W3. lia.
      * intros j Hj. destruct (decide (j = i)) as [->|Hne]; [done|].
        eapply owes_frame; [|apply H5; lia]. intros a. apply D3. lia.
    + intros k z Hz. unfold publish. rewrite W3 by lia. apply Hc. lia.
    + intros a z Hz. unfold publishBals. rewrite D3 by lia. apply Hd. lia.
Qed.

Lemma shows_cell s j new inc k :
  shows s j [] new inc ->
  match cell s k j with
  | Some e => exists v, (k, v) ∈ new /\ e = mkEntry j inc v false
  | None => forall v, (k, v) ∉ new
  end.
Proof.
  intros [H1 H2]. destruct (cell s k j) as [e|] eqn:E.
  - destruct (H2 k e E) as [H|[Hn _]]; [done|by apply not_elem_of_nil in Hn].
  - intros v Hin. by rewrite (H1 k v Hin) in E.
Qed.

(** Two settled stores give the same answers, up to incarnation numbers. *)
Lemma settled_reads s b s' b' i :
  settledTo s b i -> settledTo s' b' i ->
  (forall k, sameVersion (ReadVersionFull s k (Z.of_nat i)) (ReadVersionFull s' k (Z.of_nat i))) /\
  (forall a, ReadDelta b a (Z.of_nat i) = ReadDelta b' a (Z.of_nat i)).
Proof.
  intros [H1 H2 H3 H4 H5] [G1 G2 G3 G4 G5]. split.
  - intros k. apply read_sameVersion; [done..|]. intros z Hz.
    destruct (decide (z < 0)) as [Hneg|Hpos]; [rewrite H3, G3 by done; constructor|].
    destruct (H4 (Z.to_nat z) ltac:(lia)) as [inc Hs]. destruct (G4 (Z.to_nat z) ltac:(lia)) as [inc' Hs'].
    rewrite Z2Nat.id in Hs, Hs' by lia. apply (shows_cell _ _ _ _ k) in Hs, Hs'.
    destruct (cell s k z) as [e|], (cell s' k z) as [e'|].
    + destruct Hs as (v & Hv & ->), Hs' as (v' & Hv' & ->). constructor. unfold sameEntry. cbn.
      by rewrite (flushWrites_unique _ _ _ _ Hv Hv').
    + destruct Hs as (v & Hv & _). by apply Hs' in Hv.
    + destruct Hs' as (v & Hv & _). by apply Hs in Hv.
    + constructor.
  - intros a. apply delta_reads; [done..|]. intros z Hz.
    destruct (H5 (Z.to_nat z) ltac:(lia) a) as [A1 A2]. destruct (G5 (Z.to_nat z) ltac:(lia) a) as [B1 B2].
    rewrite Z2Nat.id in A1, A2, B1, B2 by lia. by rewrite A1, A2, B1, B2.
Qed.

(** A settled store has no estimates for its readers. *)
Lemma settled_reads_wf s b i k :
  settledTo s b i ->
  wfRead (ReadVersionFull s k (Z.of_nat i)) /\ isEst (ReadVersionFull s k (Z.of_nat i)) = false.
Proof.
  intros [H1 H2 H3 H4 H5]. destruct (ReadVersionFull_cells s k (Z.of_nat i) H1) as [(-> & _)|(e & He & Hlt & _ & ->)]; [done|].
  destruct (decide (txIdx e < 0)) as [Hneg|Hpos]; [by rewrite H3 in He|].
  destruct (H4 (Z.to_nat (txIdx e)) ltac:(lia)) as [inc Hs]. rewrite Z2Nat.id in Hs by lia.
  apply (shows_cell _ _ _ _ k) in Hs. rewrite He in Hs. destruct Hs as (v & _ & ->). cbn. unfold wfRead. cbn. split; [|done].
  split; [lia|done].
Qed.

(** On a settled store every incarnation does what serial execution does. *)
Lemma settled_run s b i t rec inc :
  settledTo s b i -> tasks !! i = Some t ->
  loc (interp (fun k => ReadVersionFull s k (Z.of_nat i)) (fun a => ReadDelta b a (Z.of_nat i)) (exec i rec t inc)) = serial i.
Proof.
  intros Hs Ht. pose proof (lookup_lt_Some _ _ _ Ht) as Hlt.
  destruct (serialStores_settled i ltac:(lia)) as [Hser _].
  destruct (settled_reads _ _ _ _ _ Hs Hser) as [Hv Hd].
  unfold serial. rewrite Ht. unfold runOn. rewrite (Hidx i t Ht).
  erewrite (exec_incarnations keccak base turns Hturns (sn i) coinbase
    (fun k => ReadVersionFull s k (Z.of_nat i)) (fun k => ReadVersionFull (serialStores i).1 k (Z.of_nat i)) _ rec None t inc 0);
    [|intros k; by apply (settled_reads_wf s b)|done].
  f_equal. apply interp_ext; [done|done].
Qed.

End serial.

(** ** Runs in progress *)

(** What is left of [t0] after some reads, answered as [ok] allows. *)
Inductive resid {A} (ok : Key -> ReadResult -> Prop) (t0 : tm A) : tm A -> Prop :=
| resid_start : resid ok t0 t0
| resid_read k c r : resid ok t0 (TRead k c) -> ok k r -> resid ok t0 (c r)
| resid_delta a c p : resid ok t0 (TDelta a c) -> resid ok t0 (c p).

Lemma resid_runs {A} ok (t0 t : tm A) a : resid ok t0 t -> runs ok t a -> runs ok t0 a.
Proof. intros H. revert a. induction H; intros a' Hr; [done|..]; apply IHresid; by econstructor. Qed.

Lemma resid_weaken {A} (ok ok' : Key -> ReadResult -> Prop) (t0 t : tm A) :
  (forall k r, ok k r -> ok' k r) -> resid ok t0 t -> resid ok' t0 t.
Proof. intros H Hr. induction Hr; eauto using @resid. Qed.

Lemma resid_quiet {A} ok ok' (Φ : A -> Prop) (t0 t : tm A) :
  (forall k r, ok k r -> ok' r) -> quiet ok' Φ t0 -> resid ok t0 t -> quiet ok' Φ t.
Proof. intros H Hq Hr. induction Hr as [|k c r _ IH Hok|a c p _ IH]; [done|..]; inversion IH; subst; eauto. Qed.

(** What each incarnation has published, or is publishing. *)
Definition publications : Type := nat -> Z -> option Local.

Definition pubLe (pub pub' : publications) : Prop := forall j i l, pub j i = Some l -> pub' j i = Some l.

Definition pubSet (pub : publications) (j : nat) (i : Z) (l : Local) : publications :=
  fun j' i' => if decide (j' = j /\ i' = i) then Some l else pub j' i'.

Lemma pubSet_le pub j i l : pub j i = None -> pubLe pub (pubSet pub j i l).
Proof. intros H j' i' l' H'. unfold pubSet. case_decide as Hd; [|done]. destruct Hd as [-> ->]. congruence. Qed.

Lemma pubSet_eq pub j i l : pubSet pub j i l j i = Some l.
Proof. unfold pubSet. by rewrite decide_True. Qed.

(** Every entry of the store is a publication. *)
Definition published (s : MVStore) (pub : publications) : Prop :=
  forall k z e, cell s k z = Some e ->
    0 <= z /\ exists l, pub (Z.to_nat z) (incarnation e) = Some l /\ (k, value e) ∈ flushWrites l.

Lemma published_le s pub pub' : pubLe pub pub' -> published s pub -> published s pub'.
Proof. intros H Hp k z e He. destruct (Hp k z e He) as (Hz & l & Hl & Hin). eauto. Qed.

Lemma published_write s pub k j inc l v :
  wfStore s -> published s pub -> pub j inc = Some l -> (k, v) ∈ flushWrites l ->
  published (WriteInc s k (Z.of_nat j) inc v) pub.
Proof.
  intros Hwf Hp Hl Hin k' z e He. destruct (WriteInc_spec s k (Z.of_nat j) inc v Hwf) as [_ Hc]. rewrite Hc in He.
  case_decide as Hd; [|by apply Hp]. destruct Hd as [-> ->]. injection He as <-. cbn. rewrite Nat2Z.id. split; [lia|eauto].
Qed.

Lemma published_mark s pub tx k : wfStore s -> published s pub -> published (markKey tx s k) pub.
Proof.
  intros Hwf Hp k' z e He. destruct (markKey_spec tx s k Hwf) as [_ Hc]. rewrite Hc in He.
  case_decide as Hd; [|by apply Hp]. destruct (cell s k' z) as [e'|] eqn:E; [|done]. injection He as <-. cbn.
  by apply Hp.
Qed.

Lemma published_clean s pub tx k : wfStore s -> published s pub -> published (cleanupKey tx s k) pub.
Proof.
  intros Hwf Hp k' z e He. destruct (cleanupKey_spec tx s k Hwf) as [_ Hc]. rewrite Hc in He.
  case_decide as Hd; [done|by apply Hp].
Qed.

(** An answer a reader may get. *)
Definition okPub (pub : publications) (k : Key) (r : ReadResult) : Prop :=
  wfRead r /\
  (found r = true -> exists l v, pub (Z.to_nat (writerIdx r)) (writerInc r) = Some l /\
                                 rVal r = Some v /\ (k, v) ∈ flushWrites l).

Lemma okPub_le pub pub' k r : pubLe pub pub' -> okPub pub k r -> okPub pub' k r.
Proof. intros H [Hw Hr]. split; [done|]. intros Hf. destruct (Hr Hf) as (l & v & Hl & ?). eauto. Qed.

Lemma read_okPub s pub k tx : wfStore s -> published s pub -> okPub pub k (ReadVersionFull s k tx).
Proof.
  intros Hwf Hp. destruct (ReadVersionFull_cells s k tx Hwf) as [(-> & _)|(e & He & _ & _ & ->)]; [by split|].
  destruct (Hp _ _ _ He) as (Hz & l & Hl & Hin). split; [unfold wfRead; cbn; by split|]. cbn. eauto.
Qed.

(** Answers that come from publications agree with any store made of publications. *)
Lemma okPub_okRead s pub k tx r :
  wfStore s -> published s pub -> okPub pub k r -> okRead (fun k => ReadVersionFull s k tx) k r.
Proof.
  intros Hwf Hp [Hw Hr]. split; [done|]. intros Hf Hf' Hi Hn.
  destruct (Hr Hf) as (l & v & Hl & -> & Hin). destruct (read_okPub s pub k tx Hwf Hp) as [_ Hs].
  destruct (Hs Hf') as (l' & v' & Hl' & -> & Hin'). rewrite Hi, Hn in Hl. rewrite Hl in Hl'. injection Hl' as <-.
  f_equal. by eapply flushWrites_unique.
Qed.

Section results.
Context (keccak : list Z -> Z) (base : SafeBase) (turns : nat).
Context (tasks : list Task) (coinbase : Z).
Context (Hturns : (0 < turns)%nat).
Context (Hidx : forall i t, tasks !! i = Some t -> tIndex t = Z.of_nat i).

Abbreviation exec i rec t inc := (Execute keccak base turns rec t inc (taskSenderNonces base tasks i) coinbase true).
Abbreviation serial i := (serial keccak base turns tasks coinbase i).
Abbreviation settledTo s b i := (settledTo keccak base turns tasks coinbase s b i).

(** [p] was left by an execution of task [j]. *)
Definition result (ok : Key -> ReadResult -> Prop) (j : nat) (inc : Z) (p : PDB) : Prop :=
  exists rec t, tasks !! j = Some t /\ runs ok (exec j rec t inc) p.

Lemma result_weaken (ok ok' : Key -> ReadResult -> Prop) j inc p :
  (forall k r, ok k r -> ok' k r) -> result ok j inc p -> result ok' j inc p.
Proof. intros H (rec & t & Ht & Hr). exists rec, t. split; [done|]. by eapply runs_weaken. Qed.

Lemma result_facts (ok : Key -> ReadResult -> Prop) j inc p :
  (forall k r, ok k r -> wfRead r /\ okInc inc r) -> result ok j inc p ->
  covered (loc p) /\ TxIndex (loc p) = Z.of_nat j /\ Incarnation p = inc.
Proof.
  intros Hok (rec & t & Ht & Hr). rewrite <- (Hidx j t Ht). split_and!.
  - eapply Execute_covered, runs_weaken; [|exact Hr]. by intros.
  - apply (exec_TxIndex keccak base turns (taskSenderNonces base tasks j) coinbase (fun _ => notFound) rec t inc).
    eapply runs_weaken; [|exact Hr]. intros k r Hk. split; [by apply (Hok k)|done].
  - apply (quiet_runs (okInc inc) (fun p => Incarnation p = inc) (exec j rec t inc)); [by apply exec_quiet|].
    eapply runs_weaken; [|exact Hr]. intros k r Hk. by apply (Hok k).
Qed.

Lemma okPub_facts pub k r : okPub pub k r -> wfRead r /\ okInc 0 r.
Proof. intros [H _]. split; [done|by left]. Qed.

(** A speculative execution whose records all hold on the settled store left what serial
    execution leaves. *)
Lemma passed_serial s b pub j p :
  settledTo s b j -> published s pub -> result (okPub pub) j 0 p ->
  (forall rd, rd ∈ StoreReads (trk p) -> readPasses (loc p) rd (ReadVersionFull s (rdKey rd) (Z.of_nat j)) = true) ->
  (forall rd, rd ∈ BalReads (trk p) -> validateBalanceRead (loc p) b rd = true) ->
  loc p = serial j.
Proof.
  intros Hs Hpub Hres Hst Hbl. pose proof (result_facts _ _ _ _ (okPub_facts pub) Hres) as (_ & Htx & _).
  destruct Hres as (rec & t & Ht & Hr). pose proof (st_wf _ _ _ _ _ _ _ _ Hs) as Hwf.
  rewrite <- (settled_run keccak base turns tasks coinbase Hturns Hidx s b j t None 0 Hs Ht).
  assert (Hr' : runs (fun k r => okRead (fun k => ReadVersionFull s k (Z.of_nat j)) k r /\ okInc 0 r) (exec j rec t 0) p).
  { eapply runs_weaken; [|exact Hr]. intros k r Hk. split; [by eapply okPub_okRead|by left]. }
  apply validated_run with rec 0; [done|intros k; by eapply settled_reads_wf..|done|].
  assert (Hns : noSkip p).
  { eapply exec_noSkip. eapply runs_weaken; [|exact Hr']. by intros k r [H _]. }
  split.
  - intros rd Hrd. specialize (Hst rd Hrd). unfold readPasses in Hst. by rewrite (Hns rd Hrd) in Hst.
  - intros rd Hrd. specialize (Hbl rd Hrd). unfold validateBalanceRead in Hbl. rewrite Htx in Hbl. bool_to_prop.
    destruct (ReadDelta b (brAddr rd) (Z.of_nat j)) as [x y]. cbn in *. by subst.
Qed.

End results.

End V2Serial.
