(* ===== verification/V2Inv.v ===== *)
(** * The invariant of the parallel executor

    Every transaction of the block is in one phase: it waits, is executed by a worker,
    has been executed, is being marked after a failed validation, is executed again, or
    is final.  The phase fixes what the transaction has in the stores and what the flags
    say about it.  The validation loop is at one transaction; all below are final, with
    the entries of serial execution, and all above are before validation.  Every step
    keeps this. *)

From S2P Require Import Prelude Bytes MvStore MvStoreProps ParallelState ParallelRead ParallelRun ParallelCover V2Exec V2Cells V2Serial.
Import MvStore MvStoreProps ParallelState ParallelRead ParallelRun ParallelCover V2Exec V2Cells V2Serial.

Module V2Inv.

(** ** Functions updated at a point *)

Definition upd {A} (Φ : nat -> A) (j : nat) (a : A) : nat -> A := fun i => if decide (i = j) then a else Φ i.

Lemma upd_eq {A} (Φ : nat -> A) j a : upd Φ j a j = a.
Proof. unfold upd. by rewrite decide_True. Qed.

Lemma upd_ne {A} (Φ : nat -> A) j a i : i <> j -> upd Φ j a i = Φ i.
Proof. intros H. unfold upd. by rewrite decide_False. Qed.

(** ** Changes that concern one transaction *)

Record onlyTx (s s' : shared) (j : nat) : Prop := {
  ot_wf : wfStore (store s');
  ot_wfb : wfBals (bals s');
  ot_cell : forall k z, z <> Z.of_nat j -> cell (store s') k z = cell (store s) k z;
  ot_delta : forall a z, z <> Z.of_nat j -> delta (bals s') a z = delta (bals s) a z;
  ot_state : forall i, i <> j -> states s' !! i = states s !! i;
  ot_inc : incarnations s' = incarnations s;
  ot_vfailed : vfailed s' = vfailed s;
  ot_finalized : finalized s' = finalized s;
  ot_completion : completionCh s' = completionCh s;
  ot_execDone : execDone s' = execDone s
}.

Lemma onlyTx_refl s j : wfStore (store s) -> wfBals (bals s) -> onlyTx s s j.
Proof. by split. Qed.

Lemma onlyTx_store s v j :
  wfBals (bals s) -> wfStore v -> (forall k z, z <> Z.of_nat j -> cell v k z = cell (store s) k z) ->
  onlyTx s (set_store v s) j.
Proof. by split. Qed.

Lemma onlyTx_bals s v j :
  wfStore (store s) -> wfBals v -> (forall a z, z <> Z.of_nat j -> delta v a z = delta (bals s) a z) ->
  onlyTx s (set_bals v s) j.
Proof. by split. Qed.

(** Readers below see no change. *)
Lemma onlyTx_reads s s' j i :
  wfStore (store s) -> wfBals (bals s) -> onlyTx s s' j -> (i <= j)%nat ->
  (forall k, ReadVersionFull (store s') k (Z.of_nat i) = ReadVersionFull (store s) k (Z.of_nat i)) /\
  (forall a, ReadDelta (bals s') a (Z.of_nat i) = ReadDelta (bals s) a (Z.of_nat i)).
Proof.
  intros Hwf Hwfb H Hi. split.
  - intros k. apply read_frame; [done|apply H|]. intros z Hz. apply (ot_cell _ _ _ H). lia.
  - intros a. apply delta_reads; [apply H|done|]. intros z Hz. unfold addsOf, subsOf.
    by rewrite (ot_delta _ _ _ H) by lia.
Qed.

(** ** Executing *)

(** Everything published, with estimates under [old] left. *)
Definition left (s : shared) (j : nat) (old : list Key) (inc : Z) (l : Local) : Prop :=
  shows (store s) (Z.of_nat j) old (flushWrites l) inc /\ owes (bals s) (Z.of_nat j) (dsum (flushDeltas l)).

Lemma left_frame s s' i j old inc l : onlyTx s s' i -> j <> i -> left s j old inc l -> left s' j old inc l.
Proof.
  intros H Hj [H1 H2]. split; [eapply shows_frame; [|exact H1]|eapply owes_frame; [|exact H2]].
  - intros k. apply (ot_cell _ _ _ H). lia.
  - intros a. apply (ot_delta _ _ _ H). lia.
Qed.

(** [execute] of task [j]: [T] is known of the running tree, [F] of the state it leaves. *)
Definition execInv (s : shared) (pub : publications) (j : nat) (old : list Key) (inc : Z)
    (T : tm PDB -> Prop) (F : PDB -> Prop) (p : pc) : Prop :=
  match p with
  | pcVfailed | pcPrev =>
      pub j inc = None /\ shows (store s) (Z.of_nat j) old [] inc /\ owes (bals s) (Z.of_nat j) (dsum [])
  | pcFinalized | pcCompletion =>
      (0 < j)%nat /\ pub j inc = None /\ shows (store s) (Z.of_nat j) old [] inc /\ owes (bals s) (Z.of_nat j) (dsum [])
  | pcRun t =>
      T t /\ pub j inc = None /\ shows (store s) (Z.of_nat j) old [] inc /\ owes (bals s) (Z.of_nat j) (dsum [])
  | pcFlush p ws =>
      F p /\ pub j inc = Some (loc p) /\
      (exists done, done ++ ws ≡ₚ flushWrites (loc p) /\ shows (store s) (Z.of_nat j) old done inc) /\
      owes (bals s) (Z.of_nat j) (dsum [])
  | pcFlushBal p ds =>
      F p /\ pub j inc = Some (loc p) /\ shows (store s) (Z.of_nat j) old (flushWrites (loc p)) inc /\
      exists done, done ++ ds ≡ₚ flushDeltas (loc p) /\ owes (bals s) (Z.of_nat j) (dsum done)
  | pcCount | pcDone => exists p, states s !! j = Some p /\ F p /\ left s j old inc (loc p)
  end.

Lemma execInv_mono s pub pub' j old inc (T T' : tm PDB -> Prop) (F F' : PDB -> Prop) p :
  (forall t, T t -> T' t) -> (forall q, F q -> F' q) -> pub' j inc = pub j inc ->
  execInv s pub j old inc T F p -> execInv s pub' j old inc T' F' p.
Proof. intros HT HF Hp. destruct p; cbn; rewrite ?Hp; naive_solver. Qed.

Lemma execInv_frame s s' pub i j old inc T F p :
  onlyTx s s' i -> j <> i -> execInv s pub j old inc T F p -> execInv s' pub j old inc T F p.
Proof.
  intros H Hj.
  assert (Hs : forall new, shows (store s) (Z.of_nat j) old new inc -> shows (store s') (Z.of_nat j) old new inc).
  { intros new. apply shows_frame. intros k. apply (ot_cell _ _ _ H). lia. }
  assert (Ho : forall d, owes (bals s) (Z.of_nat j) d -> owes (bals s') (Z.of_nat j) d).
  { intros d. apply owes_frame. intros a. apply (ot_delta _ _ _ H). lia. }
  destruct p; cbn; try naive_solver; rewrite (ot_state _ _ _ H) by done; intros (q & ? & ? & Hl); exists q;
    (split_and!; [done|done|by eapply left_frame]).
Qed.

Section executor.
Context (keccak : list Z -> Z) (base : SafeBase) (turns : nat).
Context (tasks : list Task) (conflictAddrs : gset Z) (coinbase : Z) (numWorkers : nat).

Abbreviation exec i rec t inc := (Execute keccak base turns rec t inc (taskSenderNonces base tasks i) coinbase true).
Abbreviation serial i := (serial keccak base turns tasks coinbase i).
Abbreviation settledTo s b i := (settledTo keccak base turns tasks coinbase s b i).
Abbreviation result ok j inc p := (result keccak base turns tasks coinbase ok j inc p).
Abbreviation exec_step := (exec_step keccak base turns tasks conflictAddrs coinbase).
Abbreviation reexec_step := (reexec_step keccak base turns tasks conflictAddrs coinbase).
Abbreviation validate_step := (validate_step tasks conflictAddrs).
Abbreviation step := (step keccak base turns tasks conflictAddrs coinbase numWorkers).
Abbreviation reachable := (reachable keccak base turns tasks conflictAddrs coinbase numWorkers).
Abbreviation n := (V2Exec.n tasks).
Abbreviation loopFrom := (loopFrom tasks).
Abbreviation drainFrom := (drainFrom tasks).
Abbreviation toPrev := (toPrev tasks conflictAddrs).

(** One step of [execute], for any [T] and [F] that go together. *)
Lemma exec_step_inv s s' pub j old inc (T : tm PDB -> Prop) (F : PDB -> Prop) p p' :
  wfStore (store s) -> wfBals (bals s) -> published (store s) pub ->
  (forall t, T t -> exists Q, quiet (okInc inc) Q t) ->
  (forall k c, T (TRead k c) -> T (c (ReadVersionFull (store s) k (Z.of_nat j)))) ->
  (forall a c, T (TDelta a c) -> T (c (ReadDelta (bals s) a (Z.of_nat j)))) ->
  (forall q, T (TRet q) -> F q) ->
  (forall rec t, tasks !! j = Some t -> T (exec j rec t inc)) ->
  (forall q, F q -> TxIndex (loc q) = Z.of_nat j /\ Incarnation q = inc) ->
  incOf s j = inc ->
  execInv s pub j old inc T F p -> exec_step j s p s' p' ->
  exists pub', pubLe pub pub' /\ (forall j' i', ~ (j' = j /\ i' = inc) -> pub' j' i' = pub j' i') /\
    published (store s') pub' /\ onlyTx s s' j /\ execInv s' pub' j old inc T F p'.
Proof.
  intros Hwf Hwfb Hpub HTq HTr HTd HTF HT0 HF Hinc Hi Hst.
  assert (Hsame : forall s0, store s0 = store s -> bals s0 = bals s -> incarnations s0 = incarnations s ->
    vfailed s0 = vfailed s -> finalized s0 = finalized s -> completionCh s0 = completionCh s -> execDone s0 = execDone s ->
    (forall i, i <> j -> states s0 !! i = states s !! i) -> execInv s0 pub j old inc T F p' ->
    exists pub', pubLe pub pub' /\ (forall j' i', ~ (j' = j /\ i' = inc) -> pub' j' i' = pub j' i') /\
      published (store s0) pub' /\ onlyTx s s0 j /\ execInv s0 pub' j old inc T F p').
  { intros s0 E1 E2 E3 E4 E5 E6 E7 E8 H. exists pub. split_and!; [by intros ???|done|by rewrite E1| |done].
    split; rewrite ?E1, ?E2; done. }
  destruct Hst; cbn in Hi.
  1-5: apply Hsame; [done..|]; cbn; tauto.
  - apply Hsame; [done..|]. cbn. split; [rewrite Hinc; by apply HT0|done].
  - destruct Hi as (HT & Hi). apply Hsame; [done..|]. cbn. auto.
  - destruct Hi as (HT & Hi). apply Hsame; [done..|]. cbn. auto.
  - destruct Hi as (HT & _). apply HTq in HT as [Q HT]. inversion HT.
  - destruct Hi as (HT & _). apply HTq in HT as [Q HT]. inversion HT.
  - destruct Hi as (HT & _). apply HTq in HT as [Q HT]. inversion HT.
  - destruct Hi as (HT & _). apply HTq in HT as [Q HT]. inversion HT.
  - destruct Hi as (HT & Hn & Hsh & Ho). exists (pubSet pub j inc (loc p)).
    pose proof (pubSet_le pub j inc (loc p) Hn) as Hle. split_and!; [done| |by eapply published_le|by apply onlyTx_refl|].
    { intros j' i' Hne. unfold pubSet. by rewrite decide_False. }
    cbn. split_and!; [by apply HTF|by apply pubSet_eq| |done]. exists []. by split.
  - destruct Hi as (HFp & Hp & (dn & Hperm & Hsh) & Ho). destruct (HF p HFp) as [Htx Hin]. rewrite Htx, Hin.
    assert (Hkv : (k, v) ∈ flushWrites (loc p)) by (rewrite <- Hperm, elem_of_app; right; by left).
    exists pub. split_and!; [by intros ???|done|by eapply published_write| |].
    { apply onlyTx_store; [done|by apply WriteInc_spec|]. intros k' z Hz. by apply WriteInc_frame. }
    cbn. split_and!; [done..| |done]. exists ((k, v) :: dn). split.
    { rewrite <- Hperm. solve_Permutation. }
    apply shows_write; [done| |done]. intros v' Hv'. eapply flushWrites_unique; [|exact Hkv].
    rewrite <- Hperm, elem_of_app. by left.
  - destruct Hi as (HFp & Hp & (dn & Hperm & Hsh) & Ho). apply Hsame; [done..|]. cbn. split_and!; [done..| |].
    { eapply shows_perm; [|exact Hsh]. by rewrite <- Hperm, app_nil_r. }
    exists []. by split.
  - destruct Hi as (HFp & Hp & Hsh & dn & Hperm & Ho). destruct (HF p HFp) as [Htx Hin]. rewrite Htx.
    exists pub. split_and!; [by intros ???|done|done| |].
    { apply onlyTx_bals; [done|apply WriteDelta_spec; [done|lia]|]. intros a' z Hz. apply WriteDelta_frame; [done|lia|done]. }
    cbn. split_and!; [done..|]. exists ((a, add, sub) :: dn). split; [rewrite <- Hperm; solve_Permutation|].
    apply owes_write; [done|lia|done].
  - destruct Hi as (HFp & Hp & Hsh & dn & Hperm & Ho). apply Hsame; [done..| |].
    { intros i Hi. cbn. by rewrite lookup_insert_ne. }
    cbn. exists p. rewrite lookup_insert_eq. split_and!; [done..|]. split; [done|]. cbn.
    eapply owes_ext; [|exact Ho]. intros a. apply dsum_perm. by rewrite <- Hperm, app_nil_r.
  - apply Hsame; done.
Qed.

(** ** Phases *)

Inductive phase : Type :=
| Waiting
| Working (p : pc)
| Executed (p : PDB)
| Marking (p : PDB)
| Again (r : repc)
| AgainDone (p : PDB)
| Final (p : PDB).

(** Not validated yet. *)
Definition early (φ : phase) : Prop :=
  match φ with Waiting | Working _ | Executed _ => True | _ => False end.

(** Running for the first time, and what it leaves. *)
Definition specT (pub : publications) (j : nat) (t : tm PDB) : Prop :=
  exists rec tk, tasks !! j = Some tk /\ resid (okPub pub) (exec j rec tk 0) t.
Definition specF (pub : publications) (j : nat) (p : PDB) : Prop := result (okPub pub) j 0 p.

(** Running again, on settled entries below. *)
Definition againOk (k : Key) (r : ReadResult) : Prop := wfRead r /\ okInc 1 r.
Definition againT (s : shared) (j : nat) (t : tm PDB) : Prop :=
  (exists rec tk, tasks !! j = Some tk /\ resid againOk (exec j rec tk 1) t) /\
  loc (interp (fun k => ReadVersionFull (store s) k (Z.of_nat j)) (fun a => ReadDelta (bals s) a (Z.of_nat j)) t) = serial j.
Definition againF (j : nat) (p : PDB) : Prop := result againOk j 1 p /\ loc p = serial j.

Definition againInv (s : shared) (pub : publications) (j : nat) (r : repc) : Prop :=
  match r with
  | rExec p owk oba => execInv s pub j owk 1 (againT s j) (againF j) p
  | rClean tx ks addrs =>
      tx = Z.of_nat j /\
      exists p, states s !! j = Some p /\ loc p = serial j /\ covered (loc p) /\ left s j ks 1 (loc p) /\
        forall a, a ∈ addrs -> a ∉ BalAddrs (loc p)
  end.

(** What the flags say of a transaction. *)
Record flags (x : v2ExecCtx) (j : nat) (w : option pc) (r : option repc) (exd red rcl : Prop) : Prop := {
  fl_w : workers x !! j = w;
  fl_r : reexecs x !! j = r;
  fl_exd : j ∈ execDone (sh x) <-> exd;
  fl_red : j ∈ reexecDone x <-> red;
  fl_rcl : j ∈ reexecClosed x <-> rcl
}.

Definition firstRun (x : v2ExecCtx) (j : nat) : Prop := incOf (sh x) j = 0 /\ j ∉ vfailed (sh x).
Definition secondRun (x : v2ExecCtx) (j : nat) : Prop := incOf (sh x) j = 1 /\ j ∈ vfailed (sh x).

Definition coh (x : v2ExecCtx) (pub : publications) (j : nat) (φ : phase) : Prop :=
  match φ with
  | Waiting =>
      flags x j None None False False False /\ firstRun x j /\ pub j 1 = None /\
      execInv (sh x) pub j [] 0 (specT pub j) (specF pub j) pcVfailed
  | Working p =>
      flags x j (Some p) None False False False /\ firstRun x j /\ pub j 1 = None /\
      execInv (sh x) pub j [] 0 (specT pub j) (specF pub j) p
  | Executed p =>
      flags x j None None True False False /\ firstRun x j /\ pub j 1 = None /\
      states (sh x) !! j = Some p /\ specF pub j p /\ left (sh x) j [] 0 (loc p)
  | Marking p =>
      flags x j None None True False False /\ pub j 1 = None /\
      states (sh x) !! j = Some p /\ covered (loc p) /\ TxIndex (loc p) = Z.of_nat j
  | Again r => flags x j None (Some r) True True False /\ secondRun x j /\ againInv (sh x) pub j r
  | AgainDone p =>
      flags x j None None True True True /\ secondRun x j /\
      states (sh x) !! j = Some p /\ loc p = serial j /\ left (sh x) j [] 1 (loc p)
  | Final p =>
      workers x !! j = None /\ reexecs x !! j = None /\ j ∈ execDone (sh x) /\ (j ∉ reexecDone x) /\
      states (sh x) !! j = Some p /\ loc p = serial j /\ exists inc, left (sh x) j [] inc (loc p)
  end.

(** Nothing but transaction [i] has changed. *)
Record sameBut (x x' : v2ExecCtx) (i : nat) : Prop := {
  sb_sh : forall j, j <> i -> states (sh x') !! j = states (sh x) !! j;
  sb_cell : forall k z, z <> Z.of_nat i -> cell (store (sh x')) k z = cell (store (sh x)) k z;
  sb_delta : forall a z, z <> Z.of_nat i -> delta (bals (sh x')) a z = delta (bals (sh x)) a z;
  sb_inc : forall j, j <> i -> incOf (sh x') j = incOf (sh x) j;
  sb_vf : forall j, j <> i -> (j ∈ vfailed (sh x') <-> j ∈ vfailed (sh x));
  sb_exd : forall j, j <> i -> (j ∈ execDone (sh x') <-> j ∈ execDone (sh x));
  sb_red : forall j, j <> i -> (j ∈ reexecDone x' <-> j ∈ reexecDone x);
  sb_rcl : forall j, j <> i -> (j ∈ reexecClosed x' <-> j ∈ reexecClosed x);
  sb_w : forall j, j <> i -> workers x' !! j = workers x !! j;
  sb_r : forall j, j <> i -> reexecs x' !! j = reexecs x !! j
}.

Lemma specT_le pub pub' j t : pubLe pub pub' -> specT pub j t -> specT pub' j t.
Proof.
  intros H (rec & tk & Ht & Hr). exists rec, tk. split; [done|]. eapply resid_weaken; [|exact Hr].
  intros k r. by apply okPub_le.
Qed.

Lemma specF_le pub pub' j p : pubLe pub pub' -> specF pub j p -> specF pub' j p.
Proof. intros H. apply result_weaken. intros k r. by apply okPub_le. Qed.

(** The phase of a transaction survives changes of another one, as long as those are not
    below a transaction that runs again. *)
Lemma coh_frame x x' pub pub' i j φ :
  wfStore (store (sh x)) -> wfBals (bals (sh x)) -> wfStore (store (sh x')) -> wfBals (bals (sh x')) ->
  sameBut x x' i -> j <> i -> pubLe pub pub' -> (forall inc, pub' j inc = pub j inc) ->
  (match φ with Again _ => (j < i)%nat | _ => True end) ->
  coh x pub j φ -> coh x' pub' j φ.
Proof.
  intros Hwf Hwfb Hwf' Hwfb' Hs Hj Hle Hp Hlt.
  assert (Hfl : forall w r a b c, flags x j w r a b c -> flags x' j w r a b c).
  { intros w r a b c []. split.
    - by rewrite (sb_w _ _ _ Hs).
    - by rewrite (sb_r _ _ _ Hs).
    - by rewrite (sb_exd _ _ _ Hs).
    - by rewrite (sb_red _ _ _ Hs).
    - by rewrite (sb_rcl _ _ _ Hs). }
  assert (Hot : exists s0, onlyTx (sh x) s0 i /\ store s0 = store (sh x') /\ bals s0 = bals (sh x') /\ states s0 = states (sh x')).
  { exists (mkShared (store (sh x')) (bals (sh x')) (states (sh x')) (incarnations (sh x)) 0 (vfailed (sh x)) (finalized (sh x))
      (completionCh (sh x)) (execDone (sh x))). split; [|done]. split; [done|done|apply Hs..|done|done|done|done|done]. }
  destruct Hot as (s0 & Hot & Es & Eb & Est).
  assert (Hleft : forall old inc l, left (sh x) j old inc l -> left (sh x') j old inc l).
  { intros old inc l H. apply (left_frame _ s0 i) in H; [|done..]. unfold left in *. by rewrite Es, Eb in H. }
  assert (Hex : forall old inc T F p, execInv (sh x) pub j old inc T F p -> execInv (sh x') pub j old inc T F p).
  { intros old inc T F p H. apply (execInv_frame _ s0 pub i) in H; [|done..].
    destruct p; cbn in *; unfold left in *; rewrite ?Es, ?Eb, ?Est in H; done. }
  assert (Hst : states (sh x') !! j = states (sh x) !! j) by (by apply Hs).
  assert (Hf1 : firstRun x j -> firstRun x' j).
  { intros [H1 H2]. split; [by rewrite (sb_inc _ _ _ Hs)|by rewrite (sb_vf _ _ _ Hs)]. }
  assert (Hf2 : secondRun x j -> secondRun x' j).
  { intros [H1 H2]. split; [by rewrite (sb_inc _ _ _ Hs)|by rewrite (sb_vf _ _ _ Hs)]. }
  assert (Hspec : forall p, execInv (sh x) pub j [] 0 (specT pub j) (specF pub j) p ->
                            execInv (sh x') pub' j [] 0 (specT pub' j) (specF pub' j) p).
  { intros p H. apply Hex in H. eapply execInv_mono; [..|exact H]; [intros t; by apply specT_le|intros q; by apply specF_le|apply Hp]. }
  destruct φ as [|p|p|p|r|p|p]; cbn [coh]; rewrite ?Hp, ?Hst.
  - intros (H1 & H2 & H3 & H4). split_and!; [by apply Hfl|by apply Hf1|done|by apply Hspec].
  - intros (H1 & H2 & H3 & H4). split_and!; [by apply Hfl|by apply Hf1|done|by apply Hspec].
  - intros (H1 & H2 & H3 & H4 & H5 & H6). split_and!; [by apply Hfl|by apply Hf1|done|done|by eapply specF_le|by apply Hleft].
  - intros (H1 & H2). split; [by apply Hfl|done].
  - intros (H1 & H2 & H3). split_and!; [by apply Hfl|by apply Hf2|]. destruct r as [p owk oba|tx ks addrs]; cbn in *.
    + apply Hex in H3. eapply execInv_mono; [..|exact H3]; [|done|by rewrite Hp].
      intros t [Hr Hl]. split; [done|]. rewrite <- Hl. f_equal.
      destruct (onlyTx_reads (sh x) s0 i j Hwf Hwfb Hot ltac:(lia)) as [R1 R2]. rewrite Es in R1. rewrite Eb in R2.
      apply interp_ext; [apply R1|apply R2].
    + destruct H3 as (Htx & p & G1 & G2 & G3 & G4 & G5). split; [done|]. exists p. rewrite Hst. split_and!; [done..|by apply Hleft|done].
  - intros (H1 & H2 & H3 & H4 & H5). split_and!; [by apply Hfl|by apply Hf2|done|done|by apply Hleft].
  - intros (H1 & H2 & H3 & H4 & H5 & H6 & inc & H7).
    rewrite (sb_w _ _ _ Hs), (sb_r _ _ _ Hs), (sb_exd _ _ _ Hs), (sb_red _ _ _ Hs) by done. split_and!; [done..|]. exists inc. by apply Hleft.
Qed.

(** ** The validation loop *)

(** The loop is between transactions, everything below [f] is final, nothing is pending. *)
Inductive idle : nat -> list vinstr -> Prop :=
| idle_head f : (f < n)%nat -> idle f (loopFrom f)
| idle_last f : (f < n)%nat -> idle f (iFinishLast f :: iAwait f :: iValidate f :: loopFrom (S f))
| idle_await f : (f < n)%nat -> idle f (iAwait f :: iValidate f :: loopFrom (S f))
| idle_drain j : (j <= n)%nat -> idle n (drainFrom j)
| idle_end : idle n [].

(** The same with the second execution of [f] pending. *)
Inductive pending : nat -> list vinstr -> Prop :=
| pend_head f : (S f < n)%nat -> pending f (loopFrom (S f))
| pend_last f : (S f < n)%nat -> pending f (iFinishLast (S f) :: iAwait (S f) :: iValidate (S f) :: loopFrom (S (S f)))
| pend_drain f j : S f = n -> (j < f)%nat -> pending f (drainFrom j)
| pend_finish f tl : idle (S f) tl -> pending f (iFinish f :: tl).

Lemma loopFrom_cons i : (i < n)%nat -> loopFrom i = validateOne i ++ loopFrom (S i).
Proof.
  intros Hi. unfold V2Exec.loopFrom. replace (n - i)%nat with (S (n - S i)) by lia. cbn [seq map concat].
  by rewrite <- app_assoc.
Qed.

Lemma loopFrom_end : loopFrom n = drainFrom 0.
Proof. unfold V2Exec.loopFrom. by rewrite Nat.sub_diag. Qed.

Lemma drainFrom_cons i : (i < n)%nat -> drainFrom i = iFinish i :: drainFrom (S i).
Proof. intros Hi. unfold V2Exec.drainFrom. replace (n - i)%nat with (S (n - S i)) by lia. done. Qed.

Lemma drainFrom_end : drainFrom n = [iCloseSettle].
Proof. unfold V2Exec.drainFrom. by rewrite Nat.sub_diag. Qed.

Lemma idle_loop f : (f <= n)%nat -> idle f (loopFrom f).
Proof.
  intros Hf. destruct (decide (f = n)) as [->|Hne]; [rewrite loopFrom_end; apply idle_drain; lia|apply idle_head; lia].
Qed.

Lemma pending_drain f j : S f = n -> (j <= f)%nat -> pending f (drainFrom j).
Proof.
  intros Hf Hj. destruct (decide (j = f)) as [->|Hne]; [|apply pend_drain; lia].
  rewrite drainFrom_cons by lia. apply pend_finish. rewrite Hf. by apply idle_drain.
Qed.

Lemma pending_loop f : (f < n)%nat -> pending f (loopFrom (S f)).
Proof.
  intros Hf. destruct (decide (S f = n)) as [He|Hne]; [|apply pend_head; lia].
  rewrite He, loopFrom_end. apply pending_drain; [done|lia].
Qed.

Definition settleInstr (f : nat) (i : vinstr) : Prop := i = iSettle f \/ i = iSettleReexec f.

Definition launchTail (f : nat) (l : Local) : list vinstr :=
  iVfailed f :: iBump f :: iLaunch f (WriteKeys l) (BalAddrs l) :: loopFrom (S f).

(** The instructions left, with how many transactions are validated, finalized, completed
    and sent to settlement. *)
Inductive vshape (x : v2ExecCtx) (Φ : nat -> phase) : nat -> nat -> nat -> nat -> list vinstr -> Prop :=
| vs_idle f tl :
    idle f tl -> (f <= n)%nat -> ((f < n)%nat -> early (Φ f)) -> vshape x Φ f f f f tl
| vs_pending f tl :
    pending f tl -> (f < n)%nat -> (exists r, Φ f = Again r) \/ (exists p, Φ f = AgainDone p) -> vshape x Φ f f f f tl
| vs_finalize f i tl :
    settleInstr f i -> idle (S f) tl -> (S f <= n)%nat -> ((S f < n)%nat -> early (Φ (S f))) ->
    vshape x Φ (S f) f f f (iFinalize f :: iComplete f :: i :: tl)
| vs_complete f i tl :
    settleInstr f i -> idle (S f) tl -> (S f <= n)%nat -> ((S f < n)%nat -> early (Φ (S f))) ->
    vshape x Φ (S f) (S f) f f (iComplete f :: i :: tl)
| vs_settle f i tl :
    settleInstr f i -> idle (S f) tl -> (S f <= n)%nat -> ((S f < n)%nat -> early (Φ (S f))) ->
    vshape x Φ (S f) (S f) (S f) f (i :: tl)
| vs_validate f p : (f < n)%nat -> Φ f = Executed p -> vshape x Φ f f f f (iValidate f :: loopFrom (S f))
| vs_reads f p rds brds :
    (f < n)%nat -> Φ f = Executed p ->
    (forall rd, rd ∈ StoreReads (trk p) ->
       rd ∈ rds \/ readPasses (loc p) rd (ReadVersionFull (store (sh x)) (rdKey rd) (Z.of_nat f)) = true) ->
    (forall rd, rd ∈ BalReads (trk p) ->
       rd ∈ brds \/ ReadDelta (bals (sh x)) (brAddr rd) (Z.of_nat f) = (brAdd rd, brSub rd)) ->
    vshape x Φ f f f f (iReads f (loc p) rds brds :: loopFrom (S f))
| vs_fail f p : (f < n)%nat -> Φ f = Executed p -> vshape x Φ f f f f (iFail f :: loopFrom (S f))
| vs_mark f p ks :
    (f < n)%nat -> Φ f = Marking p -> firstRun x f ->
    flaggedBut (store (sh x)) (Z.of_nat f) (WriteKeys (loc p)) ks ->
    owes (bals (sh x)) (Z.of_nat f) (dsum (flushDeltas (loc p))) ->
    vshape x Φ f f f f (iMark (Z.of_nat f) ks :: iZero (Z.of_nat f) (BalAddrs (loc p)) :: launchTail f (loc p))
| vs_zero f p addrs :
    (f < n)%nat -> Φ f = Marking p -> firstRun x f ->
    flaggedBut (store (sh x)) (Z.of_nat f) (WriteKeys (loc p)) [] ->
    zeroBut (bals (sh x)) (Z.of_nat f) addrs ->
    vshape x Φ f f f f (iZero (Z.of_nat f) addrs :: launchTail f (loc p))
| vs_launch f p tl :
    (f < n)%nat -> Φ f = Marking p ->
    flaggedBut (store (sh x)) (Z.of_nat f) (WriteKeys (loc p)) [] ->
    zeroBut (bals (sh x)) (Z.of_nat f) [] ->
    (tl = launchTail f (loc p) /\ firstRun x f \/
     tl = iBump f :: iLaunch f (WriteKeys (loc p)) (BalAddrs (loc p)) :: loopFrom (S f) /\
       incOf (sh x) f = 0 /\ f ∈ vfailed (sh x) \/
     tl = iLaunch f (WriteKeys (loc p)) (BalAddrs (loc p)) :: loopFrom (S f) /\ secondRun x f) ->
    vshape x Φ f f f f tl.

(** ** The invariant *)

Record Inv (x : v2ExecCtx) (pub : publications) (Φ : nat -> phase) (f fz c sent taken : nat) : Prop := {
  inv_wf : wfStore (store (sh x));
  inv_wfb : wfBals (bals (sh x));
  inv_pub : published (store (sh x)) pub;
  inv_coh : forall j, (j < n)%nat -> coh x pub j (Φ j);
  inv_out : forall j, (n <= j)%nat -> workers x !! j = None /\ reexecs x !! j = None /\ (j ∉ reexecDone x);
  inv_below : forall j, (j < f)%nat -> exists p, Φ j = Final p;
  inv_above : forall j, (f < j < n)%nat -> early (Φ j);
  inv_finalized : forall j, j ∈ finalized (sh x) <-> (j < fz)%nat;
  inv_completed : forall j, j ∈ completionCh (sh x) <-> (j < c)%nat;
  inv_taken : (taken <= next x <= n)%nat;
  inv_taskCh : taskCh x = seq taken (next x - taken);
  inv_room : (length (taskCh x) <= numWorkers)%nat;
  inv_waiting : forall j, (j < n)%nat -> (Φ j = Waiting <-> (taken <= j)%nat);
  inv_shape : vshape x Φ f fz c sent (vpc x);
  inv_sent : map fst (settled x) ++ chSettle x = seq 0 sent;
  inv_settled : forall i o, (i, o) ∈ settled x -> exists p, o = Some p /\ loc p = serial i
}.

Lemma inv_start : Inv (newV2ExecCtx tasks) (fun _ _ => None) (fun _ => Waiting) 0 0 0 0 0.
Proof.
  assert (Hc : forall k z, cell NewMVStore k z = None).
  { intros k z. destruct NewMVStore_refines as [_ H]. by rewrite H, lookup_empty. }
  assert (Hd : forall a z, delta NewMVBalanceStore a z = None).
  { intros a z. unfold delta, deltasOf, NewMVBalanceStore. cbn [balShards].
    rewrite lookup_replicate_2 by apply balShardOf_range. cbn. by rewrite lookup_empty. }
  split; cbn; try done; try lia; try set_solver.
  - apply NewMVStore_wf.
  - apply NewMVBalanceStore_wf.
  - intros k z e He. by rewrite Hc in He.
  - intros j Hj. split_and!; [|by split|done|done|by apply shows_empty|by apply owes_none].
    split; cbn; rewrite ?lookup_empty; set_solver.
  - intros j. rewrite elem_of_empty. lia.
  - intros j. rewrite elem_of_empty. lia.
  - intros j _. split; [lia|done].
  - apply vs_idle; [apply idle_loop; lia|lia|done].
Qed.

Lemma inv_settledTo x pub Φ f fz c sent taken i :
  Inv x pub Φ f fz c sent taken -> (f <= n)%nat -> (i <= f)%nat -> settledTo (store (sh x)) (bals (sh x)) i.
Proof.
  intros H Hf Hi. split; [apply H|apply H| | |].
  - intros k z Hz. destruct (cell (store (sh x)) k z) as [e|] eqn:E; [|done].
    apply (inv_pub _ _ _ _ _ _ _ _ H) in E as [? _]. lia.
  - intros j Hj. destruct (inv_below _ _ _ _ _ _ _ _ H j ltac:(lia)) as [p Hp].
    pose proof (inv_coh _ _ _ _ _ _ _ _ H j ltac:(lia)) as Hcoh. rewrite Hp in Hcoh.
    destruct Hcoh as (_ & _ & _ & _ & _ & <- & inc & Hl & _). by exists inc.
  - intros j Hj. destruct (inv_below _ _ _ _ _ _ _ _ H j ltac:(lia)) as [p Hp].
    pose proof (inv_coh _ _ _ _ _ _ _ _ H j ltac:(lia)) as Hcoh. rewrite Hp in Hcoh.
    destruct Hcoh as (_ & _ & _ & _ & _ & <- & inc & _ & Hl). done.
Qed.

Lemma vshape_le x Φ f fz c sent v : vshape x Φ f fz c sent v -> (f <= n)%nat.
Proof. destruct 1; lia. Qed.

End executor.

End V2Inv.
