(* ===== verification/V2Steps.v ===== *)
(** * Every step of the executor keeps its invariant *)

From S2P Require Import Prelude Bytes MvStore MvStoreProps ParallelState ParallelRead ParallelRun ParallelCover V2Exec V2Cells V2Serial V2Inv.
Import MvStore MvStoreProps ParallelState ParallelRead ParallelRun ParallelCover V2Exec V2Cells V2Serial V2Inv.

Module V2Steps.

Section executor.
Context (keccak : list Z -> Z) (base : SafeBase) (turns : nat).
Context (tasks : list Task) (conflictAddrs : gset Z) (coinbase : Z) (numWorkers : nat).

Abbreviation exec i rec t inc := (Execute keccak base turns rec t inc (taskSenderNonces base tasks i) coinbase true).
Abbreviation serial i := (serial keccak base turns tasks coinbase i).
Abbreviation settledTo s b i := (settledTo keccak base turns tasks coinbase s b i).
Abbreviation exec_step := (exec_step keccak base turns tasks conflictAddrs coinbase).
Abbreviation reexec_step := (reexec_step keccak base turns tasks conflictAddrs coinbase).
Abbreviation validate_step := (validate_step tasks conflictAddrs).
Abbreviation step := (step keccak base turns tasks conflictAddrs coinbase numWorkers).
Abbreviation reachable := (reachable keccak base turns tasks conflictAddrs coinbase numWorkers).
Abbreviation n := (V2Exec.n tasks).
Abbreviation loopFrom := (loopFrom tasks).
Abbreviation drainFrom := (drainFrom tasks).
Abbreviation toPrev := (toPrev tasks conflictAddrs).
Abbreviation specT := (specT keccak base turns tasks coinbase).
Abbreviation specF := (specF keccak base turns tasks coinbase).
Abbreviation againT := (againT keccak base turns tasks coinbase).
Abbreviation againF := (againF keccak base turns tasks coinbase).
Abbreviation againInv := (againInv keccak base turns tasks coinbase).
Abbreviation coh := (coh keccak base turns tasks coinbase).
Abbreviation vshape := (vshape tasks).
Abbreviation Inv := (Inv keccak base turns tasks coinbase numWorkers).

(** ** Steps of one transaction *)

(** The shape of the validation loop survives a change of a later transaction. *)
Lemma vshape_later x x' Φ Φ' j f fz c sent v :
  wfStore (store (sh x)) -> wfBals (bals (sh x)) -> wfStore (store (sh x')) -> wfBals (bals (sh x')) ->
  sameBut x x' j -> (f < j)%nat -> Φ' f = Φ f -> vshape x Φ f fz c sent v -> vshape x' Φ' f fz c sent v.
Proof.
  intros Hwf Hwfb Hwf' Hwfb' Hs Hj HΦ Hv.
  assert (Hrd : forall k, ReadVersionFull (store (sh x')) k (Z.of_nat f) = ReadVersionFull (store (sh x)) k (Z.of_nat f)).
  { intros k. apply read_frame; [done..|]. intros z Hz. apply (sb_cell _ _ _ Hs). lia. }
  assert (Hrb : forall a, ReadDelta (bals (sh x')) a (Z.of_nat f) = ReadDelta (bals (sh x)) a (Z.of_nat f)).
  { intros a. apply delta_reads; [done..|]. intros z Hz. unfold addsOf, subsOf. by rewrite (sb_delta _ _ _ Hs) by lia. }
  assert (Hfb : forall keys ks, flaggedBut (store (sh x)) (Z.of_nat f) keys ks -> flaggedBut (store (sh x')) (Z.of_nat f) keys ks).
  { intros keys ks H k e. rewrite (sb_cell _ _ _ Hs) by lia. apply H. }
  assert (Hzb : forall addrs, zeroBut (bals (sh x)) (Z.of_nat f) addrs -> zeroBut (bals (sh x')) (Z.of_nat f) addrs).
  { intros addrs H a. unfold addsOf, subsOf. rewrite (sb_delta _ _ _ Hs) by lia. apply H. }
  assert (Ho : forall d, owes (bals (sh x)) (Z.of_nat f) d -> owes (bals (sh x')) (Z.of_nat f) d).
  { intros d. apply owes_frame. intros a. apply (sb_delta _ _ _ Hs). lia. }
  assert (Hi : incOf (sh x') f = incOf (sh x) f) by (apply (sb_inc _ _ _ Hs); lia).
  assert (Hf : f ∈ vfailed (sh x') <-> f ∈ vfailed (sh x)) by (apply (sb_vf _ _ _ Hs); lia).
  assert (H1 : firstRun x f -> firstRun x' f) by (unfold firstRun; rewrite Hi, Hf; done).
  assert (H2 : secondRun x f -> secondRun x' f) by (unfold secondRun; rewrite Hi, Hf; done).
  destruct Hv.
  - apply vs_idle; [done..|]. by rewrite HΦ.
  - apply vs_pending; [done..|]. by rewrite HΦ.
  - apply vs_finalize; [done..|]. by rewrite HΦ.
  - apply vs_complete; [done..|]. by rewrite HΦ.
  - apply vs_settle; [done..|]. by rewrite HΦ.
  - apply vs_validate with p; [done|by rewrite HΦ].
  - apply vs_reads; [done|by rewrite HΦ| |].
    + intros rd Hin. rewrite Hrd. auto.
    + intros rd Hin. rewrite Hrb. auto.
  - apply vs_fail with p; [done|by rewrite HΦ].
  - apply vs_mark; [done|by rewrite HΦ|auto..].
  - apply vs_zero; [done|by rewrite HΦ|auto..].
  - apply vs_launch with p; [done|by rewrite HΦ|auto..|]. rewrite Hi, Hf. naive_solver.
Qed.

(** A transaction that is not executed yet is at the loop only between instructions. *)
Lemma vshape_first x x' Φ φ' f fz c sent v :
  early φ' -> (Φ f = Waiting \/ exists p, Φ f = Working p) -> vshape x Φ f fz c sent v ->
  vshape x' (upd Φ f φ') f fz c sent v.
Proof.
  intros He Hw Hv.
  destruct Hv as [f tl H1 H2 H3|f tl H1 H2 H3|f i tl H1 H2 H3 H4|f i tl H1 H2 H3 H4|f i tl H1 H2 H3 H4
    |f p H1 H2|f p rds brds H1 H2|f p H1 H2|f p ks H1 H2|f p addrs H1 H2|f p tl H1 H2].
  - apply vs_idle; [done..|]. by rewrite upd_eq.
  - destruct Hw as [Hw|[q Hw]], H3 as [[r H3]|[p H3]]; congruence.
  - apply vs_finalize; [done..|]. by rewrite upd_eq.
  - apply vs_complete; [done..|]. by rewrite upd_eq.
  - apply vs_settle; [done..|]. by rewrite upd_eq.
  - destruct Hw as [Hw|[q Hw]]; congruence.
  - destruct Hw as [Hw|[q Hw]]; congruence.
  - destruct Hw as [Hw|[q Hw]]; congruence.
  - destruct Hw as [Hw|[q Hw]]; congruence.
  - destruct Hw as [Hw|[q Hw]]; congruence.
  - destruct Hw as [Hw|[q Hw]]; congruence.
Qed.

Lemma vshape_again x x' Φ φ' f fz c sent v :
  (exists r, φ' = Again r) \/ (exists p, φ' = AgainDone p) -> (exists r, Φ f = Again r) -> vshape x Φ f fz c sent v ->
  vshape x' (upd Φ f φ') f fz c sent v.
Proof.
  intros He [r Hr] Hv.
  destruct Hv as [f tl H1 H2 H3|f tl H1 H2 H3|f i tl H1 H2 H3 H4|f i tl H1 H2 H3 H4|f i tl H1 H2 H3 H4
    |f p H1 H2|f p rds brds H1 H2|f p H1 H2|f p ks H1 H2|f p addrs H1 H2|f p tl H1 H2]; rewrite ?Hr in *; try done.
  - destruct (decide (f < n)%nat) as [Hlt|Hge]; [by specialize (H3 Hlt)|]. apply vs_idle; [done..|]. intros; lia.
  - apply vs_pending; [done..|]. by rewrite upd_eq.
  - destruct (decide (S f < n)%nat) as [Hlt|Hge]; [by specialize (H4 Hlt)|]. apply vs_finalize; [done..|]. intros; lia.
  - destruct (decide (S f < n)%nat) as [Hlt|Hge]; [by specialize (H4 Hlt)|]. apply vs_complete; [done..|]. intros; lia.
  - destruct (decide (S f < n)%nat) as [Hlt|Hge]; [by specialize (H4 Hlt)|]. apply vs_settle; [done..|]. intros; lia.
Qed.

(** A step of one transaction gives a new phase to it and leaves the rest alone. *)
Lemma inv_thread_gen x x' pub pub' Φ j φ' f fz c sent taken taken' :
  Inv x pub Φ f fz c sent taken -> (f <= j < n)%nat ->
  wfStore (store (sh x')) -> wfBals (bals (sh x')) -> published (store (sh x')) pub' ->
  sameBut x x' j -> pubLe pub pub' -> (forall j' i', j' <> j -> pub' j' i' = pub j' i') ->
  coh x' pub' j φ' -> ((f < j)%nat -> early φ') ->
  finalized (sh x') = finalized (sh x) -> completionCh (sh x') = completionCh (sh x) ->
  next x' = next x -> chSettle x' = chSettle x -> settled x' = settled x ->
  (taken' <= next x)%nat -> taskCh x' = seq taken' (next x - taken') -> (length (taskCh x') <= length (taskCh x))%nat ->
  (φ' = Waiting <-> (taken' <= j)%nat) -> (forall i, i <> j -> (taken <= i)%nat <-> (taken' <= i)%nat) ->
  vshape x' (upd Φ j φ') f fz c sent (vpc x') ->
  Inv x' pub' (upd Φ j φ') f fz c sent taken'.
Proof.
  intros H [Hj1 Hj2] Hwf' Hwfb' Hpub Hs Hle Hp Hcoh He E1 E2 E3 E5 E6 Ht1 Ht2 Ht3 Hw Hw' Hv.
  destruct H as [Iwf Iwfb Ipub Icoh Iout Ibelow Iabove Ifin Icom Itaken Ich Iroom Iwait Ishape Isent Isett].
  split; rewrite ?E1, ?E2, ?E3, ?E5, ?E6; try done; try lia.
  - intros i Hi. destruct (decide (i = j)) as [->|Hne]; [by rewrite upd_eq|]. rewrite upd_ne by done.
    eapply coh_frame; [exact Iwf|exact Iwfb|done..|intros inc; by apply Hp| |by apply Icoh].
    destruct (Φ i) as [| | | |r| |] eqn:Ei; try done.
    destruct (Nat.lt_trichotomy i f) as [Hlt|[->|Hgt]].
    + destruct (Ibelow i Hlt) as [p Hp']. congruence.
    + lia.
    + specialize (Iabove i ltac:(lia)). by rewrite Ei in Iabove.
  - intros i Hi. rewrite (sb_w _ _ _ Hs), (sb_r _ _ _ Hs), (sb_red _ _ _ Hs) by lia. by apply Iout.
  - intros i Hi. rewrite upd_ne by lia. by apply Ibelow.
  - intros i Hi. destruct (decide (i = j)) as [->|Hne]; [rewrite upd_eq; apply He; lia|]. rewrite upd_ne by done. by apply Iabove.
  - intros i Hi. destruct (decide (i = j)) as [->|Hne]; [by rewrite upd_eq|]. rewrite upd_ne by done.
    rewrite <- Hw' by done. by apply Iwait.
Qed.

Lemma inv_thread x x' pub pub' Φ j φ' f fz c sent taken :
  Inv x pub Φ f fz c sent taken -> (f <= j < n)%nat ->
  wfStore (store (sh x')) -> wfBals (bals (sh x')) -> published (store (sh x')) pub' ->
  sameBut x x' j -> pubLe pub pub' -> (forall j' i', j' <> j -> pub' j' i' = pub j' i') ->
  coh x' pub' j φ' -> (φ' = Waiting <-> Φ j = Waiting) -> ((f < j)%nat -> early φ') ->
  finalized (sh x') = finalized (sh x) -> completionCh (sh x') = completionCh (sh x) ->
  next x' = next x -> taskCh x' = taskCh x -> chSettle x' = chSettle x -> settled x' = settled x ->
  vshape x' (upd Φ j φ') f fz c sent (vpc x') ->
  Inv x' pub' (upd Φ j φ') f fz c sent taken.
Proof.
  intros H Hj Hwf' Hwfb' Hpub Hs Hle Hp Hcoh Hw He E1 E2 E3 E4 E5 E6 Hv.
  eapply (inv_thread_gen x x' pub pub' Φ j φ' f fz c sent taken taken); try done; [apply H|rewrite E4; apply H|by rewrite E4|].
  rewrite Hw. apply (inv_waiting _ _ _ _ _ _ _ _ _ _ _ _ _ _ H). lia.
Qed.

(** ** Workers *)

Lemma worker_phase x pub Φ f fz c sent taken i p :
  Inv x pub Φ f fz c sent taken -> workers x !! i = Some p -> (f <= i < n)%nat /\ Φ i = Working p.
Proof.
  intros H Hw. destruct (decide (i < n)%nat) as [Hlt|Hge]; [|destruct (inv_out _ _ _ _ _ _ _ _ _ _ _ _ _ _ H i) as [? _]; [lia|congruence]].
  pose proof (inv_coh _ _ _ _ _ _ _ _ _ _ _ _ _ _ H i Hlt) as Hc.
  assert (Φ i = Working p) as HΦ.
  { destruct (Φ i); cbn in Hc; destruct Hc as [Hf Hc]; first [destruct Hf; congruence|congruence]. }
  split; [|done]. split; [|done]. destruct (decide (i < f)%nat) as [Hb|]; [|lia].
  destruct (inv_below _ _ _ _ _ _ _ _ _ _ _ _ _ _ H i Hb) as [q Hq]. congruence.
Qed.

Lemma sameBut_sh x s' j :
  onlyTx (sh x) s' j -> sameBut x (set_sh s' x) j.
Proof.
  intros H. split; cbn; try done; try apply H.
  - intros i Hi. unfold incOf. by rewrite (ot_inc _ _ _ H).
  - by rewrite (ot_vfailed _ _ _ H).
  - by rewrite (ot_execDone _ _ _ H).
Qed.

Lemma sameBut_chain x y z j : sameBut x y j -> sameBut y z j -> sameBut x z j.
Proof.
  intros H1 H2. split; intros; (etrans; [by apply H2|by apply H1]).
Qed.

Lemma sameBut_workers x w j : (forall i, i <> j -> w !! i = workers x !! i) -> sameBut x (set_workers w x) j.
Proof. intros H. by split. Qed.

Lemma sameBut_reexecs x r j : (forall i, i <> j -> r !! i = reexecs x !! i) -> sameBut x (set_reexecs r x) j.
Proof. intros H. by split. Qed.

Lemma inv_take x pub Φ f fz c sent taken i rest :
  Inv x pub Φ f fz c sent taken -> taskCh x = i :: rest ->
  exists pub' Φ' taken', Inv (set_workers (<[i := pcVfailed]> (workers x)) (set_taskCh (next x) rest x)) pub' Φ' f fz c sent taken'.
Proof.
  intros H Ht. pose proof (inv_taskCh _ _ _ _ _ _ _ _ _ _ _ _ _ _ H) as Hch.
  pose proof (inv_taken _ _ _ _ _ _ _ _ _ _ _ _ _ _ H) as Htk. rewrite Ht in Hch.
  destruct (next x - taken)%nat as [|m] eqn:Em; [done|]. cbn in Hch. injection Hch as -> ->.
  assert (HΦ : Φ taken = Waiting) by (apply (inv_waiting _ _ _ _ _ _ _ _ _ _ _ _ _ _ H); lia).
  pose proof (inv_coh _ _ _ _ _ _ _ _ _ _ _ _ _ _ H taken ltac:(lia)) as Hc. rewrite HΦ in Hc. destruct Hc as (Hfl & Hfr & Hp1 & Hex).
  assert (Hf : (f <= taken)%nat).
  { destruct (decide (taken < f)%nat) as [Hb|]; [|lia].
    destruct (inv_below _ _ _ _ _ _ _ _ _ _ _ _ _ _ H taken Hb) as [q Hq]. congruence. }
  set (x' := set_workers (<[taken := pcVfailed]> (workers x)) (set_taskCh (next x) (seq (S taken) m) x)).
  assert (Hs : sameBut x x' taken).
  { split; cbn; try done. intros j Hj. by rewrite lookup_insert_ne. }
  exists pub, (upd Φ taken (Working pcVfailed)), (S taken).
  eapply inv_thread_gen; [exact H|lia|apply H|apply H|apply H|exact Hs|by intros ???|done| | |done..| | | | | |].
  - refine (conj _ (conj Hfr (conj Hp1 Hex))). destruct Hfl. split; cbn; [by rewrite lookup_insert_eq|done..].
  - done.
  - lia.
  - cbn. f_equal. lia.
  - cbn. rewrite Ht. cbn. lia.
  - split; [done|lia].
  - intros j Hj. lia.
  - cbn. destruct (decide (taken = f)) as [->|Hne].
    + eapply vshape_first; [done|by left|apply H].
    + eapply vshape_later; [apply H|apply H|apply H|apply H|exact Hs|lia|by rewrite upd_ne by lia|apply H].
Qed.

Lemma inv_work_done x pub Φ f fz c sent taken i :
  Inv x pub Φ f fz c sent taken -> workers x !! i = Some pcDone ->
  exists pub' Φ', Inv (set_workers (delete i (workers x)) (set_sh (close_execDone i (sh x)) x)) pub' Φ' f fz c sent taken.
Proof.
  intros H Hw. destruct (worker_phase _ _ _ _ _ _ _ _ _ _ H Hw) as [Hi HΦ].
  pose proof (inv_coh _ _ _ _ _ _ _ _ _ _ _ _ _ _ H i ltac:(lia)) as Hc. rewrite HΦ in Hc.
  destruct Hc as (Hfl & Hfr & Hp1 & (p & Hst & HF & Hl)).
  set (x' := set_workers (delete i (workers x)) (set_sh (close_execDone i (sh x)) x)).
  assert (Hs : sameBut x x' i).
  { split; cbn; try done; [set_solver|]. intros j Hj. by rewrite lookup_delete_ne. }
  exists pub, (upd Φ i (Executed p)). eapply inv_thread; [exact H|done|apply H|apply H|apply H|exact Hs|by intros ???|done| | | |done..|].
  - cbn. split_and!; [|done..]. destruct Hfl. split; cbn; [by rewrite lookup_delete_eq|done|set_solver|done|done].
  - rewrite HΦ. done.
  - done.
  - cbn. destruct (decide (i = f)) as [->|Hne].
    + eapply vshape_first; [done|right; by eexists|apply H].
    + eapply vshape_later; [apply H|apply H|apply H|apply H|exact Hs|lia|by rewrite upd_ne by lia|apply H].
Qed.

(** ** Re-executions *)

Lemma reexec_phase x pub Φ f fz c sent taken i r :
  Inv x pub Φ f fz c sent taken -> reexecs x !! i = Some r -> i = f /\ (f < n)%nat /\ Φ f = Again r.
Proof.
  intros H Hw. destruct (decide (i < n)%nat) as [Hlt|Hge]; [|destruct (inv_out _ _ _ _ _ _ _ _ _ _ _ _ _ _ H i) as (_ & ? & _); [lia|congruence]].
  pose proof (inv_coh _ _ _ _ _ _ _ _ _ _ _ _ _ _ H i Hlt) as Hc.
  assert (Φ i = Again r) as HΦ.
  { destruct (Φ i); cbn in Hc; destruct Hc as [Hf Hc]; first [destruct Hf; congruence|destruct Hc; congruence]. }
  destruct (Nat.lt_trichotomy i f) as [Hb|[->|Ha]].
  - destruct (inv_below _ _ _ _ _ _ _ _ _ _ _ _ _ _ H i Hb) as [q Hq]. congruence.
  - done.
  - pose proof (inv_above _ _ _ _ _ _ _ _ _ _ _ _ _ _ H i ltac:(lia)) as He. by rewrite HΦ in He.
Qed.

Lemma inv_reexec_done x pub Φ f fz c sent taken i r s' :
  Inv x pub Φ f fz c sent taken -> reexecs x !! i = Some r -> reexec_step i (sh x) r s' None ->
  exists pub' Φ', Inv (set_reexecClosed ({[i]} ∪ reexecClosed x) (set_reexecs (delete i (reexecs x)) (set_sh s' x)))
    pub' Φ' f fz c sent taken.
Proof.
  intros H Hw Hst. destruct (reexec_phase _ _ _ _ _ _ _ _ _ _ H Hw) as (-> & Hi & HΦ).
  pose proof (inv_coh _ _ _ _ _ _ _ _ _ _ _ _ _ _ H f ltac:(lia)) as Hc. rewrite HΦ in Hc. destruct Hc as (Hfl & Hfr & Hex).
  inversion Hst; subst. destruct Hex as (-> & p & Hst' & Hser & Hcov & Hl & _).
  set (x' := set_reexecClosed ({[f]} ∪ reexecClosed x) (set_reexecs (delete f (reexecs x)) (set_sh (sh x) x))).
  assert (Hs : sameBut x x' f).
  { split; cbn; try done; [set_solver|]. intros j Hj. by rewrite lookup_delete_ne. }
  exists pub, (upd Φ f (AgainDone p)). eapply inv_thread; [exact H|lia|apply H|apply H|apply H|exact Hs|by intros ???|done| | | |done..|].
  - refine (conj _ (conj Hfr (conj Hst' (conj Hser Hl)))).
    destruct Hfl. split; cbn; [done|by rewrite lookup_delete_eq|done|done|set_solver].
  - rewrite HΦ. done.
  - lia.
  - cbn. eapply vshape_again; [right; by eexists|by eexists|apply H].
Qed.

(** ** Dispatching and settling *)

Lemma vshape_fields x x' Φ f fz c sent v :
  sh x' = sh x -> vshape x Φ f fz c sent v -> vshape x' Φ f fz c sent v.
Proof.
  intros E Hv. destruct Hv; [apply vs_idle|apply vs_pending|apply vs_finalize|apply vs_complete|apply vs_settle
    |apply vs_validate with p|apply vs_reads|apply vs_fail with p|apply vs_mark|apply vs_zero|apply vs_launch with p];
    unfold firstRun, secondRun in *; rewrite ?E; done.
Qed.

Lemma coh_fields x x' pub j φ :
  sh x' = sh x -> workers x' = workers x -> reexecs x' = reexecs x -> reexecDone x' = reexecDone x ->
  reexecClosed x' = reexecClosed x -> coh x pub j φ -> coh x' pub j φ.
Proof.
  intros E1 E2 E3 E4 E5.
  assert (Hf : forall w r a b d, flags x j w r a b d -> flags x' j w r a b d).
  { intros w r a b d []. split; rewrite ?E1, ?E2, ?E3, ?E4, ?E5; done. }
  destruct φ; cbn; unfold firstRun, secondRun; rewrite ?E1, ?E2, ?E3, ?E4; intuition auto.
Qed.

Lemma inv_dispatch x pub Φ f fz c sent taken :
  Inv x pub Φ f fz c sent taken -> (next x < n)%nat -> (length (taskCh x) < numWorkers)%nat ->
  Inv (set_taskCh (S (next x)) (taskCh x ++ [next x]) x) pub Φ f fz c sent taken.
Proof.
  intros H Hn Hl. destruct H as [Iwf Iwfb Ipub Icoh Iout Ibelow Iabove Ifin Icom Itaken Ich Iroom Iwait Ishape Isent Isett].
  split; cbn; try done.
  - intros j Hj. by apply (coh_fields x); [..|by apply Icoh].
  - lia.
  - rewrite Ich. replace (S (next x) - taken)%nat with (S (next x - taken)) by lia. rewrite seq_S. do 2 f_equal. lia.
  - rewrite length_app. cbn. lia.
  - by apply (vshape_fields x).
Qed.

Lemma inv_settle x pub Φ f fz c sent taken i rest :
  Inv x pub Φ f fz c sent taken -> (sent <= f)%nat -> chSettle x = i :: rest ->
  Inv (set_settled rest (settled x ++ [(i, states (sh x) !! i)]) x) pub Φ f fz c sent taken.
Proof.
  intros H Hs Hch. assert (Hf : (f <= n)%nat) by (eapply vshape_le; apply H).
  assert (Hi : (i < sent)%nat).
  { pose proof (inv_sent _ _ _ _ _ _ _ _ _ _ _ _ _ _ H) as He. rewrite Hch in He.
    assert (Hin : i ∈ seq 0 sent) by (rewrite <- He, elem_of_app; right; by left). apply elem_of_seq in Hin. lia. }
  destruct H as [Iwf Iwfb Ipub Icoh Iout Ibelow Iabove Ifin Icom Itaken Ich Iroom Iwait Ishape Isent Isett].
  split; cbn; try done.
  - intros j Hj. by apply (coh_fields x); [..|by apply Icoh].
  - by apply (vshape_fields x).
  - rewrite map_app. cbn. rewrite <- app_assoc. cbn. by rewrite <- Hch.
  - intros j o Hin. apply elem_of_app in Hin as [Hin|Hin]; [by apply Isett|]. apply list_elem_of_singleton in Hin as [= -> ->].
    destruct (Ibelow i ltac:(lia)) as [p Hp]. specialize (Icoh i ltac:(lia)). rewrite Hp in Icoh.
    destruct Icoh as (_ & _ & _ & _ & Hst & Hser & _). eauto.
Qed.

Lemma vshape_sent x Φ f fz c sent v : vshape x Φ f fz c sent v -> (sent <= f)%nat.
Proof. destruct 1; lia. Qed.

(** ** The validation loop *)

Lemma inv_vpc x pub Φ f fz c sent taken v :
  Inv x pub Φ f fz c sent taken -> vshape x Φ f fz c sent v -> Inv (set_vpc v x) pub Φ f fz c sent taken.
Proof.
  intros H Hv. destruct H as [Iwf Iwfb Ipub Icoh Iout Ibelow Iabove Ifin Icom Itaken Ich Iroom Iwait Ishape Isent Isett].
  split; cbn; try done; [|by apply (vshape_fields x)].
  intros j Hj. by apply (coh_fields x); [..|by apply Icoh].
Qed.

(** The loop changes the transaction it is at. *)
Lemma inv_at x x' pub Φ φ' f f' fz c sent taken :
  Inv x pub Φ f fz c sent taken -> (f < n)%nat ->
  wfStore (store (sh x')) -> wfBals (bals (sh x')) -> published (store (sh x')) pub ->
  sameBut x x' f -> coh x' pub f φ' -> (f' = f \/ f' = S f /\ exists p, φ' = Final p) ->
  (φ' <> Waiting) -> (Φ f <> Waiting) ->
  finalized (sh x') = finalized (sh x) -> completionCh (sh x') = completionCh (sh x) ->
  next x' = next x -> taskCh x' = taskCh x -> chSettle x' = chSettle x -> settled x' = settled x ->
  vshape x' (upd Φ f φ') f' fz c sent (vpc x') ->
  Inv x' pub (upd Φ f φ') f' fz c sent taken.
Proof.
  intros H Hj Hwf' Hwfb' Hpub Hs Hcoh Hf' Hw1 Hw2 E1 E2 E3 E4 E5 E6 Hv.
  destruct H as [Iwf Iwfb Ipub Icoh Iout Ibelow Iabove Ifin Icom Itaken Ich Iroom Iwait Ishape Isent Isett].
  split; rewrite ?E1, ?E2, ?E3, ?E4, ?E5, ?E6; try done.
  - intros i Hi. destruct (decide (i = f)) as [->|Hne]; [by rewrite upd_eq|]. rewrite upd_ne by done.
    eapply coh_frame; [exact Iwf|exact Iwfb|done..|by intros ???|done| |by apply Icoh].
    destruct (Φ i) as [| | | |r| |] eqn:Ei; try done.
    destruct (Nat.lt_trichotomy i f) as [Hlt|[->|Hgt]]; [lia|done|].
    specialize (Iabove i ltac:(lia)). by rewrite Ei in Iabove.
  - intros i Hi. rewrite (sb_w _ _ _ Hs), (sb_r _ _ _ Hs), (sb_red _ _ _ Hs) by lia. by apply Iout.
  - intros i Hi. destruct (decide (i = f)) as [->|Hne].
    + rewrite upd_eq. destruct Hf' as [->|[_ Hp]]; [lia|done].
    + rewrite upd_ne by done. apply Ibelow. destruct Hf' as [->|[-> _]]; lia.
  - intros i Hi. assert (i <> f) by (destruct Hf' as [->|[-> _]]; lia). rewrite upd_ne by done. apply Iabove.
    destruct Hf' as [->|[-> _]]; lia.
  - intros i Hi. destruct (decide (i = f)) as [->|Hne]; [|rewrite upd_ne by done; by apply Iwait].
    rewrite upd_eq. split; [done|]. intros Ht. destruct Hw2. by apply Iwait.
Qed.

(** The loop changes the counters only. *)
Lemma inv_counters x x' pub Φ f fz c sent fz' c' sent' taken :
  Inv x pub Φ f fz c sent taken ->
  store (sh x') = store (sh x) -> bals (sh x') = bals (sh x) -> (forall i, sameBut x x' i) ->
  next x' = next x -> taskCh x' = taskCh x -> settled x' = settled x ->
  (forall j, j ∈ finalized (sh x') <-> (j < fz')%nat) -> (forall j, j ∈ completionCh (sh x') <-> (j < c')%nat) ->
  map fst (settled x) ++ chSettle x' = seq 0 sent' ->
  vshape x' Φ f fz' c' sent' (vpc x') -> Inv x' pub Φ f fz' c' sent' taken.
Proof.
  intros H E1 E2 Hs E3 E4 E6 Hf Hc Hse Hv.
  destruct H as [Iwf Iwfb Ipub Icoh Iout Ibelow Iabove Ifin Icom Itaken Ich Iroom Iwait Ishape Isent Isett].
  split; rewrite ?E1, ?E2, ?E3, ?E4, ?E6; try done.
  - intros i Hi. eapply coh_frame with (i := S i); [exact Iwf|exact Iwfb|by rewrite E1|by rewrite E2|apply Hs|lia|by intros ???|done| |by apply Icoh].
    destruct (Φ i); try done. lia.
  - intros i Hi. rewrite (sb_w _ _ (S i) (Hs (S i))), (sb_r _ _ (S i) (Hs (S i))), (sb_red _ _ (S i) (Hs (S i))) by lia. by apply Iout.
Qed.

Lemma idle_inv f h tl :
  idle tasks f (h :: tl) ->
  ((h = iFinishPrev f \/ h = iFinishLast f) /\ (f < n)%nat /\ idle tasks f tl) \/
  (h = iAwait f /\ (f < n)%nat /\ tl = iValidate f :: loopFrom (S f)) \/
  (((exists j, h = iFinish j) \/ h = iCloseSettle) /\ f = n /\ idle tasks n tl).
Proof.
  intros H. inversion H as [f' Hf E1 E2|f' Hf E1 E2|f' Hf E1 E2|j Hj E1 E2|E1 E2]; subst.
  - rewrite loopFrom_cons in E2 by done. injection E2 as <- <-. left. split_and!; [by left|done|by apply idle_last].
  - left. split_and!; [by right|done|by apply idle_await].
  - right; left. done.
  - right; right. destruct (decide (j = n)) as [->|Hne].
    + rewrite drainFrom_end in E2. injection E2 as <- <-. split_and!; [by right|done|constructor].
    + rewrite drainFrom_cons in E2 by lia. injection E2 as <- <-. split_and!; [left; by eexists|done|apply idle_drain; lia].
Qed.

Lemma pending_inv f h tl :
  pending tasks f (h :: tl) ->
  (h = iFinishPrev (S f) /\ pending tasks f tl /\ idle tasks (S f) tl) \/
  (h = iFinishLast (S f) /\ idle tasks (S f) tl) \/
  (exists j, h = iFinish j /\ (j < f)%nat /\ pending tasks f tl) \/
  (h = iFinish f /\ idle tasks (S f) tl).
Proof.
  intros H. inversion H as [f' Hf E1 E2|f' Hf E1 E2|f' j Hf Hj E1 E2|f' tl' Hi E1 E2]; subst.
  - rewrite loopFrom_cons in E2 by done. injection E2 as <- <-. left. split_and!; [done|by apply pend_last|by apply idle_last].
  - right; left. split; [done|by apply idle_await].
  - rewrite drainFrom_cons in E2 by lia. injection E2 as <- <-. right; right; left. exists j. split_and!; [done|done|].
    apply pending_drain; [done..|lia].
  - right; right; right. done.
Qed.

(** Only the transaction after the final ones can have its second execution pending. *)
Lemma red_phase x pub Φ f fz c sent taken j :
  Inv x pub Φ f fz c sent taken -> j ∈ reexecDone x ->
  j = f /\ (f < n)%nat /\ ((exists r, Φ f = Again r) \/ (exists p, Φ f = AgainDone p)).
Proof.
  intros H Hj. destruct (decide (j < n)%nat) as [Hlt|Hge]; [|by destruct (inv_out _ _ _ _ _ _ _ _ _ _ _ _ _ _ H j) as (_ & _ & ?); [lia|]].
  pose proof (inv_coh _ _ _ _ _ _ _ _ _ _ _ _ _ _ H j Hlt) as Hc.
  assert (HΦ : (exists r, Φ j = Again r) \/ (exists p, Φ j = AgainDone p)).
  { destruct (Φ j); cbn in Hc; [..|left; by eexists|right; by eexists|]; destruct Hc as [Hf Hc];
      first [by apply (fl_red _ _ _ _ _ _ _ Hf) in Hj|by destruct Hc as (_ & _ & ? & _)]. }
  destruct (Nat.lt_trichotomy j f) as [Hb|[->|Ha]]; [|done|].
  - destruct (inv_below _ _ _ _ _ _ _ _ _ _ _ _ _ _ H j Hb) as [q Hq]. destruct HΦ as [[r Hr]|[p Hp]]; congruence.
  - pose proof (inv_above _ _ _ _ _ _ _ _ _ _ _ _ _ _ H j ltac:(lia)) as He. destruct HΦ as [[r Hr]|[p Hp]]; by rewrite ?Hr, ?Hp in He.
Qed.

Lemma early_not_red x pub Φ f fz c sent taken j :
  Inv x pub Φ f fz c sent taken -> ((f < n)%nat -> early (Φ f)) -> (j ∉ reexecDone x).
Proof.
  intros H He Hj. apply (red_phase _ _ _ _ _ _ _ _ _ H) in Hj as (-> & Hlt & Hj).
  specialize (He Hlt). destruct Hj as [[r Hr]|[p Hp]]; by rewrite ?Hr, ?Hp in He.
Qed.

(** Some invariant holds. *)
Definition Good (x : v2ExecCtx) : Prop := exists pub Φ f fz c sent taken, Inv x pub Φ f fz c sent taken.

Lemma val_idle x x' pub Φ f taken h tl :
  Inv x pub Φ f f f f taken -> vpc x = h :: tl -> idle tasks f (h :: tl) -> ((f < n)%nat -> early (Φ f)) ->
  validate_step x tl h x' -> Good x'.
Proof.
  intros H Hv Hi He Hst. assert (Hf : (f <= n)%nat) by (eapply vshape_le; apply H).
  pose proof (fun j => early_not_red x pub Φ f f f f taken j H He) as Hred.
  assert (Hgo : idle tasks f tl -> Good (set_vpc tl x)).
  { intros Hi'. do 7 eexists. apply inv_vpc; [exact H|]. by apply vs_idle. }
  apply idle_inv in Hi as [([->| ->] & Hlt & Hi')|[(-> & Hlt & ->)|(Hh & -> & Hi')]].
  - inversion Hst; subst; [by destruct (Hred j)|by apply Hgo].
  - inversion Hst; subst; [by destruct (Hred (f - 1)%nat)|by apply Hgo].
  - inversion Hst as [| | | | | | | | | | |i Hd E| | | | | | | | | | | | | | | | |]; subst.
    pose proof (inv_coh _ _ _ _ _ _ _ _ _ _ _ _ _ _ H f Hlt) as Hc.
    assert (exists p, Φ f = Executed p) as [p Hp].
    { specialize (He Hlt). destruct (Φ f); cbn in Hc, He; try done; [..|by eexists];
        destruct Hc as [[_ _ Hx _ _] _]; by apply Hx in Hd. }
    do 7 eexists. apply inv_vpc; [exact H|]. by apply vs_validate with p.
  - destruct Hh as [[j ->]| ->]; inversion Hst; subst; [by apply Hgo|by destruct (Hred j)|].
    do 7 eexists. eapply inv_counters; [exact H|done|done|intros i; by split|done|done|done|apply H|apply H|apply H|].
    cbn. apply (vshape_fields x); [done|]. by apply vs_idle.
Qed.

Lemma val_pending x x' pub Φ f taken h tl :
  Inv x pub Φ f f f f taken -> vpc x = h :: tl -> pending tasks f (h :: tl) -> (f < n)%nat ->
  (exists r, Φ f = Again r) \/ (exists p, Φ f = AgainDone p) -> validate_step x tl h x' -> Good x'.
Proof.
  intros H Hv Hi Hlt HΦ Hst. pose proof (inv_coh _ _ _ _ _ _ _ _ _ _ _ _ _ _ H f Hlt) as Hc.
  assert (Hred : f ∈ reexecDone x /\ f ∈ vfailed (sh x)).
  { destruct HΦ as [[r Hr]|[p Hp]]; rewrite ?Hr, ?Hp in Hc; destruct Hc as ([] & [_ Hvf] & _); tauto. }
  destruct Hred as [Hred Hvf].
  assert (Hgo : forall v, pending tasks f v -> Good (set_vpc v x)).
  { intros v Hi'. do 7 eexists. apply inv_vpc; [exact H|]. by apply vs_pending. }
  apply pending_inv in Hi as [(-> & Hp & Hid)|[(-> & Hid)|[(j & -> & Hj & Hp)|(-> & Hid)]]].
  - inversion Hst as [i j Ht Hj| | | | | | | | | | | | | | | | | | | | | | | | | | | |]; subst; [|by apply Hgo].
    apply (red_phase _ _ _ _ _ _ _ _ _ H) in Hj as [-> _]. apply Hgo. by apply pend_finish.
  - inversion Hst as [| |i Hi Hf Hr| i Hn| | | | | | | | | | | | | | | | | | | | | | | | |]; subst.
    + replace (S f - 1)%nat with f by lia. apply Hgo. by apply pend_finish.
    + destruct Hn. replace (S f - 1)%nat with f by lia. split; [lia|done].
  - inversion Hst as [| | | |i Hn|i Hin| | | | | | | | | | | | | | | | | | | | | | |]; subst; [by apply Hgo|].
    apply (red_phase _ _ _ _ _ _ _ _ _ H) in Hin as [-> _]. lia.
  - inversion Hst as [| | | |i Hn|i Hin Hcl| | | | | | | | | | | | | | | | | | | | | | |]; subst; [done|].
    destruct HΦ as [[r Hr]|[p Hp]]; [rewrite Hr in Hc; destruct Hc as [[_ _ _ _ Hx] _]; by apply Hx in Hcl|].
    rewrite Hp in Hc. destruct Hc as (Hfl & _ & Hs & Hser & Hl).
    exists pub, (upd Φ f (Final p)), (S f). do 4 eexists. eapply inv_at; [exact H|done|apply H|apply H|apply H| | | | | |done..|].
    + split; cbn; try done. set_solver.
    + cbn. destruct Hfl. split_and!; [done|done|tauto|set_solver|done|done|]. by exists 1.
    + right. split; [done|by eexists].
    + done.
    + by rewrite Hp.
    + cbn. apply vs_finalize; [by right|done|lia|]. intros Hlt'. rewrite upd_ne by lia. apply H. lia.
Qed.

(** Finalizing, completing, sending to settlement. *)
Lemma val_finish x x' pub Φ f fz c taken i tl h rest :
  Inv x pub Φ (S f) fz c f taken -> settleInstr f i -> idle tasks (S f) tl -> (S f <= n)%nat ->
  ((S f < n)%nat -> early (Φ (S f))) ->
  (h = iFinalize f /\ rest = iComplete f :: i :: tl /\ fz = f /\ c = f \/
   h = iComplete f /\ rest = i :: tl /\ fz = S f /\ c = f \/
   h = i /\ rest = tl /\ fz = S f /\ c = S f) ->
  validate_step x rest h x' -> Good x'.
Proof.
  intros H Hset Hid Hn He Hh Hst. destruct Hh as [(-> & -> & -> & ->)|[(-> & -> & -> & ->)|(-> & -> & -> & ->)]].
  - inversion Hst; subst. exists pub, Φ, (S f), (S f), f, f, taken.
    eapply inv_counters; [exact H|done|done|intros j; by split|done|done|done| |apply H|apply H|].
    + intros j. cbn. rewrite elem_of_union, elem_of_singleton, (inv_finalized _ _ _ _ _ _ _ _ _ _ _ _ _ _ H). lia.
    + cbn. by apply vs_complete.
  - inversion Hst; subst. exists pub, Φ, (S f), (S f), (S f), f, taken.
    eapply inv_counters; [exact H|done|done|intros j; by split|done|done|done|apply H| |apply H|].
    + intros j. cbn. rewrite elem_of_union, elem_of_singleton, (inv_completed _ _ _ _ _ _ _ _ _ _ _ _ _ _ H). lia.
    + cbn. by apply vs_settle.
  - assert (Hgo : Good (set_vpc tl (set_chSettle (chSettle x ++ [f]) x))).
    { exists pub, Φ, (S f), (S f), (S f), (S f), taken.
      eapply inv_counters; [exact H|done|done|intros j; by split|done|done|done|apply H|apply H| |].
      - cbn [chSettle set_vpc set_chSettle]. rewrite app_assoc, (inv_sent _ _ _ _ _ _ _ _ _ _ _ _ _ _ H). by rewrite seq_S.
      - cbn. by apply vs_idle. }
    destruct (inv_below _ _ _ _ _ _ _ _ _ _ _ _ _ _ H f ltac:(lia)) as [p Hp].
    pose proof (inv_coh _ _ _ _ _ _ _ _ _ _ _ _ _ _ H f ltac:(lia)) as Hc. rewrite Hp in Hc.
    destruct Hc as (_ & _ & _ & _ & Hs & _).
    destruct Hset as [->| ->]; inversion Hst; subst; [done|done|congruence].
Qed.

(** The loop changes what the transaction it has failed has in the stores, or its flags. *)
Lemma val_at_marking x x' pub Φ f taken p :
  Inv x pub Φ f f f f taken -> (f < n)%nat -> Φ f = Marking p ->
  wfStore (store (sh x')) -> wfBals (bals (sh x')) -> published (store (sh x')) pub ->
  sameBut x x' f -> workers x' = workers x -> reexecs x' = reexecs x -> execDone (sh x') = execDone (sh x) ->
  reexecDone x' = reexecDone x -> reexecClosed x' = reexecClosed x -> states (sh x') = states (sh x) ->
  finalized (sh x') = finalized (sh x) -> completionCh (sh x') = completionCh (sh x) ->
  next x' = next x -> taskCh x' = taskCh x -> chSettle x' = chSettle x -> settled x' = settled x ->
  vshape x' (upd Φ f (Marking p)) f f f f (vpc x') -> Good x'.
Proof.
  intros H Hlt Hp Hwf Hwfb Hpub Hs E1 E2 E3 E4 E5 E6 E7 E8 E9 E10 E11 E12 Hv.
  pose proof (inv_coh _ _ _ _ _ _ _ _ _ _ _ _ _ _ H f Hlt) as Hc. rewrite Hp in Hc. destruct Hc as (Hfl & Hc).
  exists pub, (upd Φ f (Marking p)), f. do 4 eexists. eapply inv_at; [exact H|exact Hlt|exact Hwf|exact Hwfb|exact Hpub|exact Hs| |by left|done|by rewrite Hp|done..].
  cbn. rewrite E6. split; [|done]. destruct Hfl. split; by rewrite ?E1, ?E2, ?E3, ?E4, ?E5.
Qed.

Lemma val_mark x x' pub Φ f taken p ks rest :
  Inv x pub Φ f f f f taken -> (f < n)%nat -> Φ f = Marking p -> firstRun x f ->
  flaggedBut (store (sh x)) (Z.of_nat f) (WriteKeys (loc p)) ks ->
  owes (bals (sh x)) (Z.of_nat f) (dsum (flushDeltas (loc p))) ->
  rest = iZero (Z.of_nat f) (BalAddrs (loc p)) :: launchTail tasks f (loc p) ->
  validate_step x rest (iMark (Z.of_nat f) ks) x' -> Good x'.
Proof.
  intros H Hlt Hp Hfr Hfb Ho -> Hst. pose proof (inv_wf _ _ _ _ _ _ _ _ _ _ _ _ _ _ H) as Hwf.
  pose proof (inv_coh _ _ _ _ _ _ _ _ _ _ _ _ _ _ H f Hlt) as Hc. rewrite Hp in Hc. destruct Hc as (_ & _ & _ & Hcov & _).
  inversion Hst; subst.
  - eapply val_at_marking; [exact H|done|exact Hp|by apply markKey_spec|apply H|apply published_mark; [done|apply H]| |done..|].
    + split; cbn; try done. intros k' z Hz. by apply markKey_frame.
    + cbn. apply vs_mark; [done|apply upd_eq|done| |done]. by apply flaggedBut_mark.
  - do 7 eexists. apply inv_vpc; [exact H|]. apply vs_zero; [done..|]. by apply zeroBut_start.
Qed.

Lemma val_zero x x' pub Φ f taken p addrs :
  Inv x pub Φ f f f f taken -> (f < n)%nat -> Φ f = Marking p -> firstRun x f ->
  flaggedBut (store (sh x)) (Z.of_nat f) (WriteKeys (loc p)) [] ->
  zeroBut (bals (sh x)) (Z.of_nat f) addrs ->
  validate_step x (launchTail tasks f (loc p)) (iZero (Z.of_nat f) addrs) x' -> Good x'.
Proof.
  intros H Hlt Hp Hfr Hfb Hz Hst. pose proof (inv_wfb _ _ _ _ _ _ _ _ _ _ _ _ _ _ H) as Hwfb. inversion Hst; subst.
  - eapply val_at_marking; [exact H|done|exact Hp|apply H|by apply zeroKey_spec|apply H| |done..|].
    + split; cbn; try done. intros k' z Hz'. by apply zeroKey_frame.
    + cbn. apply vs_zero; [done|apply upd_eq|done|done|]. by apply zeroBut_zero.
  - do 7 eexists. apply inv_vpc; [exact H|]. apply vs_launch with p; [done..|]. by left.
Qed.

Lemma val_launch x x' pub Φ f taken p h rest :
  Inv x pub Φ f f f f taken -> (f < n)%nat -> Φ f = Marking p ->
  flaggedBut (store (sh x)) (Z.of_nat f) (WriteKeys (loc p)) [] -> zeroBut (bals (sh x)) (Z.of_nat f) [] ->
  (h :: rest = launchTail tasks f (loc p) /\ firstRun x f \/
   h :: rest = iBump f :: iLaunch f (WriteKeys (loc p)) (BalAddrs (loc p)) :: loopFrom (S f) /\
     incOf (sh x) f = 0 /\ f ∈ vfailed (sh x) \/
   h :: rest = iLaunch f (WriteKeys (loc p)) (BalAddrs (loc p)) :: loopFrom (S f) /\ secondRun x f) ->
  validate_step x rest h x' -> Good x'.
Proof.
  intros H Hlt Hp Hfb Hz Hh Hst. destruct Hh as [[[= -> ->] Hfr]|[([= -> ->] & Hi & Hvf)|[[= -> ->] Hfr]]]; inversion Hst; subst.
  - eapply val_at_marking; [exact H|done|exact Hp|apply H|apply H|apply H| |done..|].
    + split; cbn; try done. set_solver.
    + cbn. apply vs_launch with p; [done|apply upd_eq|done|done|]. right; left. destruct Hfr. split_and!; [done|done|]. cbn. set_solver.
  - eapply val_at_marking; [exact H|done|exact Hp|apply H|apply H|apply H| |done..|].
    + split; cbn; try done. intros j Hj. unfold incOf. cbn. by rewrite lookup_insert_ne.
    + cbn. apply vs_launch with p; [done|apply upd_eq|done|done|]. right; right. split; [done|]. split; [|done].
      unfold incOf at 1. cbn. rewrite lookup_insert_eq. cbn. by rewrite Hi.
  - pose proof (inv_coh _ _ _ _ _ _ _ _ _ _ _ _ _ _ H f Hlt) as Hc. rewrite Hp in Hc. destruct Hc as (Hfl & Hp1 & Hs & Hcov & Htx).
    exists pub, (upd Φ f (Again (rExec pcVfailed (WriteKeys (loc p)) (BalAddrs (loc p))))), f. do 4 eexists.
    eapply inv_at; [exact H|done|apply H|apply H|apply H| | | | | |done..|].
    + split; cbn; try done; [set_solver|]. intros j Hj. by rewrite lookup_insert_ne.
    + refine (conj _ (conj Hfr (conj Hp1 (conj _ _)))).
      * destruct Hfl. split; cbn; [done|by rewrite lookup_insert_eq|done|set_solver|done].
      * by apply flaggedBut_end.
      * by apply zeroBut_end.
    + by left.
    + done.
    + by rewrite Hp.
    + cbn. apply vs_pending; [by apply pending_loop|done|]. left. rewrite upd_eq. by eexists.
Qed.

(** ** Executing, checking and the whole step *)

Context (Hturns : (0 < turns)%nat).
Context (Hidx : forall i t, tasks !! i = Some t -> tIndex t = Z.of_nat i).

Lemma specT_quiet pub j t : specT pub j t -> exists Q, quiet (okInc 0) Q t.
Proof.
  intros (rec & tk & Ht & Hr). eexists. eapply resid_quiet; [|by apply exec_quiet|exact Hr]. intros k r _. by left.
Qed.

Lemma spec_step s s' pub j p p' :
  wfStore (store s) -> wfBals (bals s) -> published (store s) pub -> incOf s j = 0 ->
  execInv s pub j [] 0 (specT pub j) (specF pub j) p -> exec_step j s p s' p' ->
  exists pub', pubLe pub pub' /\ (forall j' i', ~ (j' = j /\ i' = 0) -> pub' j' i' = pub j' i') /\
    published (store s') pub' /\ onlyTx s s' j /\ execInv s' pub' j [] 0 (specT pub' j) (specF pub' j) p'.
Proof.
  intros Hwf Hwfb Hpub Hinc Hi Hst.
  destruct (exec_step_inv keccak base turns tasks conflictAddrs coinbase s s' pub j [] 0 (specT pub j) (specF pub j) p p')
    as (pub' & Hle & Hp & Hpub' & Hot & Hi'); try done.
  - apply specT_quiet.
  - intros k ct (rec & tk & Ht & Hr). exists rec, tk. split; [done|]. eapply resid_read; [done|by apply read_okPub].
  - intros a ct (rec & tk & Ht & Hr). exists rec, tk. split; [done|]. by eapply resid_delta.
  - intros q (rec & tk & Ht & Hr). exists rec, tk. split; [done|]. eapply resid_runs; [exact Hr|constructor].
  - intros rec t Ht. exists rec, t. split; [done|constructor].
  - intros q Hq. eapply result_facts in Hq; [|done|done|by apply okPub_facts]. tauto.
  - exists pub'. split_and!; [done..|]. eapply execInv_mono; [..|exact Hi']; [|intros q; by apply specF_le|done].
    intros t. by apply specT_le.
Qed.

Lemma inv_work x pub Φ f fz c sent taken i p s' p' :
  Inv x pub Φ f fz c sent taken -> workers x !! i = Some p -> exec_step i (sh x) p s' p' ->
  exists pub' Φ', Inv (set_workers (<[i := p']> (workers x)) (set_sh s' x)) pub' Φ' f fz c sent taken.
Proof.
  intros H Hw Hst. destruct (worker_phase _ _ _ _ _ _ _ _ _ _ H Hw) as [Hi HΦ].
  pose proof (inv_coh _ _ _ _ _ _ _ _ _ _ _ _ _ _ H i ltac:(lia)) as Hc. rewrite HΦ in Hc. destruct Hc as (Hfl & Hfr & Hp1 & Hex).
  destruct (spec_step (sh x) s' pub i p p') as (pub' & Hle & Hp & Hpub' & Hot & Hex'); [apply H|apply H|apply H|apply Hfr|done|done|].
  assert (Hs : sameBut x (set_workers (<[i := p']> (workers x)) (set_sh s' x)) i).
  { eapply sameBut_chain; [by apply sameBut_sh|]. apply sameBut_workers. intros j Hj. cbn. by rewrite lookup_insert_ne. }
  exists pub', (upd Φ i (Working p')). eapply inv_thread; [exact H|done|apply Hot|apply Hot|done|done|done| | | | | | |done..|].
  - intros j' i' Hj. apply Hp. tauto.
  - cbn. split_and!.
    + destruct Hfl. split; cbn; [by rewrite lookup_insert_eq|done|by rewrite (ot_execDone _ _ _ Hot)|done|done].
    + destruct Hfr. split; cbn; [unfold incOf; by rewrite (ot_inc _ _ _ Hot)|by rewrite (ot_vfailed _ _ _ Hot)].
    + rewrite Hp; [done|]. by intros [_ ?].
    + done.
  - rewrite HΦ. by split.
  - done.
  - cbn. by rewrite (ot_finalized _ _ _ Hot).
  - cbn. by rewrite (ot_completion _ _ _ Hot).
  - cbn. destruct (decide (i = f)) as [->|Hne].
    + eapply vshape_first; [done|right; by exists p|apply H].
    + eapply vshape_later; [apply H|apply H|apply Hot|apply Hot|exact Hs|lia|by rewrite upd_ne|apply H].
Qed.

Lemma againT_quiet s j t : againT s j t -> exists Q, quiet (okInc 1) Q t.
Proof.
  intros [(rec & tk & Ht & Hr) _]. eexists. eapply resid_quiet; [|by apply exec_quiet|exact Hr]. by intros k r [_ ?].
Qed.

Lemma again_exec_step s s' pub j owk p p' :
  settledTo (store s) (bals s) j -> published (store s) pub -> incOf s j = 1 ->
  execInv s pub j owk 1 (againT s j) (againF j) p -> exec_step j s p s' p' ->
  exists pub', pubLe pub pub' /\ (forall j' i', ~ (j' = j /\ i' = 1) -> pub' j' i' = pub j' i') /\
    published (store s') pub' /\ onlyTx s s' j /\ execInv s' pub' j owk 1 (againT s' j) (againF j) p'.
Proof.
  intros Hset Hpub Hinc Hi Hst. pose proof (st_wf _ _ _ _ _ _ _ _ Hset) as Hwf. pose proof (st_wfb _ _ _ _ _ _ _ _ Hset) as Hwfb.
  destruct (exec_step_inv keccak base turns tasks conflictAddrs coinbase s s' pub j owk 1 (againT s j) (againF j) p p')
    as (pub' & Hle & Hp & Hpub' & Hot & Hi'); try done.
  - apply againT_quiet.
  - intros k ct [(rec & tk & Ht & Hr) Hl]. split; [|exact Hl]. exists rec, tk. split; [done|].
    eapply resid_read; [done|]. split; [|right]; by eapply settled_reads_wf.
  - intros a ct [(rec & tk & Ht & Hr) Hl]. split; [|exact Hl]. exists rec, tk. split; [done|]. by eapply resid_delta.
  - intros q [(rec & tk & Ht & Hr) Hl]. split; [|exact Hl]. exists rec, tk. split; [done|]. eapply resid_runs; [exact Hr|constructor].
  - intros rec t Ht. split; [exists rec, t; split; [done|constructor]|]. by eapply settled_run.
  - intros q [Hq _]. eapply result_facts in Hq; [|done|done|done]. tauto.
  - exists pub'. split_and!; [done..|]. eapply execInv_mono; [..|exact Hi']; [|done|done].
    intros t [Hr Hl]. split; [done|]. rewrite <- Hl. f_equal.
    destruct (onlyTx_reads s s' j j Hwf Hwfb Hot ltac:(lia)) as [R1 R2]. apply interp_ext; [apply R1|apply R2].
Qed.

Lemma again_step s s' pub j r r' :
  settledTo (store s) (bals s) j -> published (store s) pub -> incOf s j = 1 ->
  againInv s pub j r -> reexec_step j s r s' (Some r') ->
  exists pub', pubLe pub pub' /\ (forall j' i', ~ (j' = j /\ i' = 1) -> pub' j' i' = pub j' i') /\
    published (store s') pub' /\ onlyTx s s' j /\ againInv s' pub' j r'.
Proof.
  intros Hset Hpub Hinc Hi Hst. pose proof (st_wf _ _ _ _ _ _ _ _ Hset) as Hwf. pose proof (st_wfb _ _ _ _ _ _ _ _ Hset) as Hwfb.
  inversion Hst; subst; clear Hst.
  - by eapply again_exec_step.
  - exists pub. split_and!; [by intros ???|done|done|by apply onlyTx_refl|]. destruct Hi as (q & Hq & [Hres Hser] & Hl).
    assert (p = q) as -> by congruence. eapply result_facts in Hres as (Hcov & Htx & _); [|done|done|done].
    split; [done|]. exists q. split_and!; [done..|]. intros a Ha. by apply list_elem_of_filter in Ha as [? _].
  - destruct Hi as (q & Hq & _). congruence.
  - destruct Hi as (-> & q & Hq & Hser & Hcov & [Hsh Ho] & Ha). exists pub.
    split_and!; [by intros ???|done|by apply published_clean| |].
    { apply onlyTx_store; [done|by apply cleanupKey_spec|]. intros k' z Hz. by apply cleanupKey_frame. }
    split; [done|]. exists q. split_and!; [done..| |done]. split; [by apply shows_clean|done].
  - destruct Hi as (-> & q & Hq & Hser & Hcov & [Hsh Ho] & Ha). exists pub.
    split_and!; [by intros ???|done|done| |].
    { apply onlyTx_bals; [done|by apply DeleteSingle_spec|]. intros k' z Hz. by apply DeleteSingle_frame. }
    split; [done|]. exists q. split_and!; [done..| |].
    + split; [done|]. cbn. apply owes_delete; [done| |done]. apply dsum_absent. intros u v Hin.
      apply (flushDeltas_covered _ _ _ _ Hcov) in Hin. by apply (Ha a); [left|].
    + intros b Hb. apply Ha. by right.
Qed.

Lemma inv_reexec x pub Φ f fz c sent taken i r s' r' :
  Inv x pub Φ f fz c sent taken -> reexecs x !! i = Some r -> reexec_step i (sh x) r s' (Some r') ->
  exists pub' Φ', Inv (set_reexecs (<[i := r']> (reexecs x)) (set_sh s' x)) pub' Φ' f fz c sent taken.
Proof.
  intros H Hw Hst. destruct (reexec_phase _ _ _ _ _ _ _ _ _ _ H Hw) as (-> & Hi & HΦ).
  pose proof (inv_coh _ _ _ _ _ _ _ _ _ _ _ _ _ _ H f ltac:(lia)) as Hc. rewrite HΦ in Hc. destruct Hc as (Hfl & Hfr & Hex).
  destruct (again_step (sh x) s' pub f r r') as (pub' & Hle & Hp & Hpub' & Hot & Hex'); [eapply inv_settledTo; [exact H|lia|lia]|apply H|apply Hfr|done|done|].
  assert (Hs : sameBut x (set_reexecs (<[f := r']> (reexecs x)) (set_sh s' x)) f).
  { eapply sameBut_chain; [by apply sameBut_sh|]. apply sameBut_reexecs. intros j Hj. cbn. by rewrite lookup_insert_ne. }
  exists pub', (upd Φ f (Again r')). eapply inv_thread; [exact H|lia|apply Hot|apply Hot|done|done|done| | | | | | |done..|].
  - intros j' i' Hj. apply Hp. tauto.
  - refine (conj _ (conj _ Hex')).
    + destruct Hfl. split; cbn; [done|by rewrite lookup_insert_eq|by rewrite (ot_execDone _ _ _ Hot)|done|done].
    + destruct Hfr. split; cbn; [unfold incOf; by rewrite (ot_inc _ _ _ Hot)|by rewrite (ot_vfailed _ _ _ Hot)].
  - rewrite HΦ. by split.
  - lia.
  - cbn. by rewrite (ot_finalized _ _ _ Hot).
  - cbn. by rewrite (ot_completion _ _ _ Hot).
  - cbn. eapply vshape_again; [left; by eexists|by eexists|apply H].
Qed.

(** Checking the reads of a transaction. *)
Lemma val_check x x' pub Φ f taken p h :
  Inv x pub Φ f f f f taken -> (f < n)%nat -> Φ f = Executed p ->
  (h = iValidate f \/
   exists rds brds, h = iReads f (loc p) rds brds /\
    (forall rd, rd ∈ StoreReads (trk p) ->
       rd ∈ rds \/ readPasses (loc p) rd (ReadVersionFull (store (sh x)) (rdKey rd) (Z.of_nat f)) = true) /\
    (forall rd, rd ∈ BalReads (trk p) ->
       rd ∈ brds \/ ReadDelta (bals (sh x)) (brAddr rd) (Z.of_nat f) = (brAdd rd, brSub rd))) ->
  validate_step x (loopFrom (S f)) h x' -> Good x'.
Proof.
  intros H Hlt Hp Hh Hst. pose proof (inv_coh _ _ _ _ _ _ _ _ _ _ _ _ _ _ H f Hlt) as Hc. rewrite Hp in Hc.
  destruct Hc as (Hfl & Hfr & Hp1 & Hs & HF & Hl).
  pose proof (inv_settledTo _ _ _ _ _ _ _ _ _ _ _ _ _ _ f H ltac:(lia) ltac:(lia)) as Hset.
  assert (Htx : TxIndex (loc p) = Z.of_nat f).
  { eapply result_facts in HF as (_ & ? & _); [done|done|done|by apply okPub_facts]. }
  assert (Hgo : forall v, vshape x Φ f f f f v -> Good (set_vpc v x)) by (intros v Hv; do 7 eexists; by apply inv_vpc).
  assert (Hfail : Good (set_vpc (iFail f :: loopFrom (S f)) x)) by (apply Hgo; by apply vs_fail with p).
  destruct Hh as [->|(rds & brds & -> & Hr & Hb)].
  - inversion Hst; subst; [done|done|]. simplify_eq. apply Hgo. apply vs_reads; [done..| |]; intros rd Hrd; by left.
  - inversion Hst; subst.
    + (* an estimate *)
      match goal with He : estimateMet _ _ _ = true |- _ => unfold estimateMet in He; rewrite Htx in He end.
      assert (Hest : isEst (ReadVersionFull (store (sh x)) (rdKey rd) (Z.of_nat f)) = false) by (by eapply settled_reads_wf).
      rewrite Hest in *. by rewrite andb_false_r in *.
    + rewrite Htx. destruct (readPasses (loc p) rd (ReadVersionFull (store (sh x)) (rdKey rd) (Z.of_nat f))) eqn:Hpass; [|exact Hfail]. apply Hgo. apply vs_reads; [done..| |done].
      intros rd' Hrd'. destruct (Hr rd' Hrd') as [Hin|Hok]; [|by right].
      apply elem_of_cons in Hin as [->|Hin]; [by right|by left].
    + destruct (validateBalanceRead (loc p) (bals (sh x)) rd) eqn:Hpass; [|exact Hfail]. apply Hgo. apply vs_reads; [done..|].
      intros rd' Hrd'. destruct (Hb rd' Hrd') as [Hin|Hok]; [|by right].
      apply elem_of_cons in Hin as [->|Hin]; [right|by left].
      unfold validateBalanceRead in Hpass. rewrite Htx in Hpass. bool_to_prop.
      destruct (ReadDelta (bals (sh x)) (brAddr rd) (Z.of_nat f)) as [u v]. cbn in *. by subst.
    + (* everything passed *)
      assert (Hser : loc p = serial f).
      { apply (passed_serial keccak base turns tasks coinbase Hturns Hidx (store (sh x)) (bals (sh x)) pub f p); [done|apply H|done| |].
        - intros rd Hrd. destruct (Hr rd Hrd) as [Hn|?]; [by apply not_elem_of_nil in Hn|done].
        - intros rd Hrd. destruct (Hb rd Hrd) as [Hn|Hok]; [by apply not_elem_of_nil in Hn|].
          unfold validateBalanceRead. rewrite Htx, Hok. cbn. by rewrite !Z.eqb_refl. }
      exists pub, (upd Φ f (Final p)), (S f). do 4 eexists. eapply inv_at; [exact H|done|apply H|apply H|apply H|by split| | | | |done..|].
      * cbn. destruct Hfl. split_and!; [done|done|tauto|tauto|done|done|]. by exists 0.
      * right. split; [done|by eexists].
      * done.
      * by rewrite Hp.
      * cbn. apply vs_finalize; [by left|apply idle_loop; lia|lia|]. intros Hlt'. rewrite upd_ne by lia. apply H. lia.
Qed.

Lemma val_fail x x' pub Φ f taken p :
  Inv x pub Φ f f f f taken -> (f < n)%nat -> Φ f = Executed p ->
  validate_step x (loopFrom (S f)) (iFail f) x' -> Good x'.
Proof.
  intros H Hlt Hp Hst. pose proof (inv_coh _ _ _ _ _ _ _ _ _ _ _ _ _ _ H f Hlt) as Hc. rewrite Hp in Hc.
  destruct Hc as (Hfl & Hfr & Hp1 & Hs & HF & [Hsh Ho]).
  eapply result_facts in HF as (Hcov & Htx & _); [|done|done|by apply okPub_facts].
  inversion Hst; subst. rewrite Hs. cbn [dispatchReexec]. rewrite Htx.
  exists pub, (upd Φ f (Marking p)), f. do 4 eexists. eapply inv_at; [exact H|done|apply H|apply H|apply H|by split| | | | |done..|].
  - refine (conj _ (conj Hp1 (conj Hs (conj Hcov Htx)))). destruct Hfl. by split.
  - by left.
  - done.
  - by rewrite Hp.
  - cbn. apply vs_mark; [done|apply upd_eq|done| |done]. by apply flaggedBut_start with 0.
Qed.

Lemma inv_validate x x' pub Φ f fz c sent taken h tl :
  Inv x pub Φ f fz c sent taken -> vpc x = h :: tl -> validate_step x tl h x' -> Good x'.
Proof.
  intros H Hv Hst. pose proof (inv_shape _ _ _ _ _ _ _ _ _ _ _ _ _ _ H) as Hs. rewrite Hv in Hs. remember (h :: tl) as v eqn:Ev.
  destruct Hs as [f v H1 H2 H3|f v H1 H2 H3|f i v H1 H2 H3 H4|f i v H1 H2 H3 H4|f i v H1 H2 H3 H4
    |f p H1 H2|f p rds brds H1 H2 H3 H4|f p H1 H2|f p ks H1 H2 H3 H4 H5|f p addrs H1 H2 H3 H4 H5|f p v H1 H2 H3 H4 H5];
    try (injection Ev as <- <-).
  - subst v. by eapply val_idle.
  - subst v. by eapply val_pending.
  - eapply val_finish; [exact H|done..| |exact Hst]. by left.
  - eapply val_finish; [exact H|done..| |exact Hst]. by right; left.
  - eapply val_finish; [exact H|done..| |exact Hst]. by right; right.
  - eapply val_check; [exact H|done|done| |exact Hst]. by left.
  - eapply val_check; [exact H|done|done| |exact Hst]. right. by exists rds, brds.
  - by eapply val_fail.
  - by eapply val_mark.
  - by eapply val_zero.
  - subst v. by eapply val_launch.
Qed.

Lemma step_good x x' : Good x -> step x x' -> Good x'.
Proof.
  intros (pub & Φ & f & fz & c & sent & taken & H) Hst.
  assert (Hsent : (sent <= f)%nat) by (eapply vshape_sent; apply H).
  inversion Hst; subst.
  - do 7 eexists. by eapply inv_dispatch.
  - edestruct inv_take as (pub' & Φ' & taken' & H'); [exact H|done|]. by do 7 eexists.
  - edestruct inv_work as (pub' & Φ' & H'); [exact H|done|done|]. by do 7 eexists.
  - edestruct inv_work_done as (pub' & Φ' & H'); [exact H|done|]. by do 7 eexists.
  - edestruct inv_reexec as (pub' & Φ' & H'); [exact H|done|done|]. by do 7 eexists.
  - edestruct inv_reexec_done as (pub' & Φ' & H'); [exact H|done|done|]. by do 7 eexists.
  - by eapply inv_validate.
  - do 7 eexists. by eapply inv_settle.
Qed.

Lemma reachable_good x : reachable x -> Good x.
Proof. induction 1; [do 7 eexists; apply inv_start|by eapply step_good]. Qed.

End executor.

End V2Steps.
