(* ===== verification/V2Run.v ===== *)
(** * Running the executor under a schedule

    The step relation of the executor leaves open which goroutine moves next.  Here a
    schedule says so: [runSchedule] executes the steps it names, and everything it
    reaches is reachable. *)

From S2P Require Import Prelude Bytes MvStore ParallelState V2Exec.
Import MvStore ParallelState V2Exec.

Module V2Run.

(** Who moves. *)
Inductive choice : Type :=
| cDispatch
| cTake
| cWork (i : nat)
| cReexec (i : nat)
| cValidate
| cSettle.

Section executor.
Context (keccak : list Z -> Z) (base : SafeBase) (turns : nat).
Context (tasks : list Task) (conflictAddrs : gset Z) (coinbase : Z) (numWorkers : nat).

Abbreviation exec_step := (exec_step keccak base turns tasks conflictAddrs coinbase).
Abbreviation reexec_step := (reexec_step keccak base turns tasks conflictAddrs coinbase).
Abbreviation validate_step := (validate_step tasks conflictAddrs).
Abbreviation step := (step keccak base turns tasks conflictAddrs coinbase numWorkers).
Abbreviation reachable := (reachable keccak base turns tasks conflictAddrs coinbase numWorkers).
Abbreviation n := (V2Exec.n tasks).
Abbreviation toPrev := (toPrev tasks conflictAddrs).

#[local] Instance isSet_dec s j : Decision (isSet s j).
Proof. unfold isSet. apply _. Defined.

#[local] Instance finalReturns_dec s j : Decision (finalReturns tasks s j).
Proof. unfold finalReturns, outOfRange. apply _. Defined.

#[local] Instance txReturns_dec s j : Decision (txReturns tasks s j).
Proof. unfold txReturns, outOfRange. apply _. Defined.

(** One step of [execute], with a new state and the maps in their own order. *)
Definition execFn (i : nat) (s : shared) (p : pc) : option (shared * pc) :=
  match p with
  | pcVfailed =>
      Some (s, if decide ((0 < i)%nat /\ (i - 1)%nat ∈ vfailed s /\ toPrev i = Z.of_nat i - 1) then pcFinalized else pcPrev)
  | pcFinalized => Some (s, if decide ((i - 1)%nat ∈ finalized s) then pcPrev else pcCompletion)
  | pcCompletion => if decide ((i - 1)%nat ∈ completionCh s) then Some (s, pcPrev) else None
  | pcPrev =>
      t ← tasks !! i;
      if decide (toPrev i < 0 \/ isSet (execDone s) (toPrev i))
      then Some (s, pcRun (Execute keccak base turns None t (incOf s i) (taskSenderNonces base tasks i) coinbase true))
      else None
  | pcRun (TRead k c) => Some (s, pcRun (c (ReadVersionFull (store s) k (Z.of_nat i))))
  | pcRun (TDelta a c) => Some (s, pcRun (c (ReadDelta (bals s) a (Z.of_nat i))))
  | pcRun (TWait j c) => if decide (finalReturns tasks s j) then Some (s, pcRun c) else None
  | pcRun (TIsEst k j c) => Some (s, pcRun (c (IsEstimate (store s) k j)))
  | pcRun (TDel k j c) => Some (set_store (Delete (store s) k j) s, pcRun c)
  | pcRun (TWrite k v c) => Some (set_store (WriteInc (store s) k (Z.of_nat i) (incOf s i) v) s, pcRun c)
  | pcRun (TRet p) => Some (s, pcFlush p (flushWrites (loc p)))
  | pcFlush p ((k, v) :: ws) =>
      Some (set_store (WriteInc (store s) k (TxIndex (loc p)) (Incarnation p) v) s, pcFlush p ws)
  | pcFlush p [] => Some (s, pcFlushBal p (flushDeltas (loc p)))
  | pcFlushBal p ((a, add, sub) :: ds) =>
      Some (set_bals (WriteDelta (bals s) a (TxIndex (loc p)) add sub) s, pcFlushBal p ds)
  | pcFlushBal p [] => Some (set_state i p s, pcCount)
  | pcCount => Some (countExec s, pcDone)
  | pcDone => None
  end.

Lemma execFn_step i s p s' p' : execFn i s p = Some (s', p') -> exec_step i s p s' p'.
Proof.
  destruct p as [| | | |t|p ws|p ds| |]; cbn [execFn].
  - intros [= <- <-]. case_decide as H; [apply x_vfailed; tauto|by apply x_not_vfailed].
  - intros [= <- <-]. case_decide as H; [by apply x_finalized|by apply x_not_finalized].
  - case_decide; [|done]. intros [= <- <-]. by apply x_completion.
  - destruct (tasks !! i) as [t|] eqn:Ht; cbn; [|done]. case_decide; [|done]. intros [= <- <-]. by apply x_prev.
  - destruct t; try case_decide; try done; intros [= <- <-]; by constructor.
  - destruct ws as [|[k v] ws]; intros [= <- <-]; by constructor.
  - destruct ds as [|[[a x] y] ds]; intros [= <- <-]; by constructor.
  - intros [= <- <-]. apply x_count.
  - done.
Qed.

Definition reexecFn (i : nat) (s : shared) (r : repc) : option (shared * option repc) :=
  match r with
  | rExec pcDone owk oba =>
      match states s !! i with
      | Some p => Some (s, Some (rClean (TxIndex (loc p)) owk (filter (fun a => a ∉ BalAddrs (loc p)) oba)))
      | None => Some (s, Some (rClean 0 [] []))
      end
  | rExec p owk oba => '(s', p') ← execFn i s p; Some (s', Some (rExec p' owk oba))
  | rClean tx (k :: ks) addrs => Some (set_store (cleanupKey tx (store s) k) s, Some (rClean tx ks addrs))
  | rClean tx [] (a :: addrs) => Some (set_bals (DeleteSingle (bals s) a tx) s, Some (rClean tx [] addrs))
  | rClean tx [] [] => Some (s, None)
  end.

Lemma reexecFn_step i s r s' o : reexecFn i s r = Some (s', o) -> reexec_step i s r s' o.
Proof.
  assert (Hex : forall p owk oba, ('(s', p') ← execFn i s p; Some (s', Some (rExec p' owk oba))) = Some (s', o) ->
                  reexec_step i s (rExec p owk oba) s' o).
  { intros p owk oba. destruct (execFn i s p) as [[s1 p1]|] eqn:E; cbn; [|done]. intros [= <- <-].
    apply re_exec. by apply execFn_step. }
  destruct r as [p owk oba|tx [|k ks] [|a addrs]]; cbn [reexecFn]; try (intros [= <- <-]; by constructor).
  destruct p; try apply Hex. destruct (states s !! i) as [q|] eqn:E; intros [= <- <-]; by constructor.
Qed.

(** The next instruction of the validation loop. *)
Definition validateFn (x : v2ExecCtx) : option v2ExecCtx :=
  match vpc x with
  | [] => None
  | h :: tl =>
      match h with
      | iFinishPrev i =>
          Some (set_vpc (if decide (isSet (reexecDone x) (toPrev i)) then iFinish (Z.to_nat (toPrev i)) :: tl else tl) x)
      | iFinishLast i =>
          Some (set_vpc (if decide ((0 < i)%nat /\ (i - 1)%nat ∈ vfailed (sh x) /\ (i - 1)%nat ∈ reexecDone x)
                         then iFinish (i - 1) :: tl else tl) x)
      | iFinish i =>
          if decide (i ∈ reexecDone x) then
            if decide (i ∈ reexecClosed x)
            then Some (set_vpc (finishReexec i ++ tl) (set_reexecDone (reexecDone x ∖ {[i]}) x)) else None
          else Some (set_vpc tl x)
      | iFinalize i => Some (set_vpc tl (set_sh (set_finalized i (sh x)) x))
      | iComplete i => Some (set_vpc tl (set_sh (close_completionCh i (sh x)) x))
      | iSettle i =>
          if decide (length (chSettle x) < n)%nat then Some (set_vpc tl (set_chSettle (chSettle x ++ [i]) x)) else None
      | iSettleReexec i =>
          match states (sh x) !! i with
          | Some _ =>
              if decide (length (chSettle x) < n)%nat then Some (set_vpc tl (set_chSettle (chSettle x ++ [i]) x)) else None
          | None => Some (set_vpc tl x)
          end
      | iAwait i => if decide (i ∈ execDone (sh x)) then Some (set_vpc tl x) else None
      | iValidate i =>
          match states (sh x) !! i with
          | None => Some (set_vpc (iFail i :: tl) x)
          | Some p =>
              Some (set_vpc ((if Panicked (loc p) then iFail i
                              else iReads i (loc p) (StoreReads (trk p)) (BalReads (trk p))) :: tl) x)
          end
      | iReads i l (rd :: rds) brds =>
          let r := ReadVersionFull (store (sh x)) (rdKey rd) (TxIndex l) in
          Some (set_vpc ((if estimateMet l rd r then iReread i l (writerIdx r) rd rds brds
                          else if readPasses l rd r then iReads i l rds brds else iFail i) :: tl) x)
      | iReread i l w rd rds brds =>
          if decide (txReturns tasks (sh x) w) then
            Some (set_vpc ((if readPasses l rd (ReadVersionFull (store (sh x)) (rdKey rd) (TxIndex l))
                            then iReads i l rds brds else iFail i) :: tl) x)
          else None
      | iReads i l [] (rd :: brds) =>
          Some (set_vpc ((if validateBalanceRead l (bals (sh x)) rd then iReads i l [] brds else iFail i) :: tl) x)
      | iReads i l [] [] => Some (set_vpc (finalizePass i ++ tl) x)
      | iFail i => Some (set_vpc (dispatchReexec i (states (sh x) !! i) ++ tl) (add_vfailIdx i x))
      | iMark tx (k :: ks) =>
          Some (set_vpc (iMark tx ks :: tl) (set_sh (set_store (markKey tx (store (sh x)) k) (sh x)) x))
      | iMark tx [] => Some (set_vpc tl x)
      | iZero tx (a :: addrs) =>
          Some (set_vpc (iZero tx addrs :: tl) (set_sh (set_bals (zeroKey tx (bals (sh x)) a) (sh x)) x))
      | iZero tx [] => Some (set_vpc tl x)
      | iVfailed i => Some (set_vpc tl (set_sh (set_vfailed i (sh x)) x))
      | iBump i => Some (set_vpc tl (set_sh (bumpInc i (sh x)) x))
      | iLaunch i owk oba =>
          Some (set_vpc tl (set_reexecDone ({[i]} ∪ reexecDone x)
                              (set_reexecs (<[i := rExec pcVfailed owk oba]> (reexecs x)) x)))
      | iCloseSettle => Some (set_vpc tl (close_settle x))
      end
  end.

Lemma validateFn_step x x' : validateFn x = Some x' -> step x x'.
Proof.
  unfold validateFn. destruct (vpc x) as [|h tl] eqn:Ev; [done|]. intros H. eapply s_validate; [exact Ev|].
  destruct h as [i|i|i|i|i|i|i|i|i|i l [|rd rds] [|brd brds]|i l w rd rds brds|i|tx [|k ks]|tx [|a addrs]|i|i|i owk oba|];
    try (injection H as <-; by constructor).
  - injection H as <-. case_decide as Hd; [|by apply v_no_prev]. destruct Hd as [H1 H2]. apply v_prev; [lia|done].
  - injection H as <-. case_decide as Hd; [apply v_last; tauto|by apply v_no_last].
  - case_decide; [case_decide; [|done]|]; injection H as <-; by constructor.
  - case_decide; [|done]. injection H as <-. by constructor.
  - destruct (states (sh x) !! i) as [p|] eqn:E; [case_decide; [|done]|]; injection H as <-; by econstructor.
  - case_decide; [|done]. injection H as <-. by constructor.
  - destruct (states (sh x) !! i) as [p|] eqn:E; [|injection H as <-; by apply v_validate_nil].
    destruct (Panicked (loc p)) eqn:Ep; injection H as <-; by econstructor.
  - injection H as <-. destruct (estimateMet _ _ _) eqn:E; [by apply v_read_estimate|by apply v_read].
  - injection H as <-. destruct (estimateMet _ _ _) eqn:E; [by apply v_read_estimate|by apply v_read].
  - case_decide; [|done]. injection H as <-. by constructor.
Qed.

Definition stepFn (ch : choice) (x : v2ExecCtx) : option v2ExecCtx :=
  match ch with
  | cDispatch =>
      if decide ((next x < n)%nat /\
                 ((numWorkers * InFlightTaskMultiplier <= next x)%nat ->
                    (next x - numWorkers * InFlightTaskMultiplier)%nat ∈ execDone (sh x)) /\
                 (length (taskCh x) < numWorkers)%nat)
      then Some (set_taskCh (S (next x)) (taskCh x ++ [next x]) x) else None
  | cTake =>
      match taskCh x with
      | i :: rest =>
          if decide (size (workers x) < numWorkers)%nat
          then Some (set_workers (<[i := pcVfailed]> (workers x)) (set_taskCh (next x) rest x)) else None
      | [] => None
      end
  | cWork i =>
      match workers x !! i with
      | Some pcDone => Some (set_workers (delete i (workers x)) (set_sh (close_execDone i (sh x)) x))
      | Some p => '(s', p') ← execFn i (sh x) p; Some (set_workers (<[i := p']> (workers x)) (set_sh s' x))
      | None => None
      end
  | cReexec i =>
      r ← reexecs x !! i;
      '(s', o) ← reexecFn i (sh x) r;
      match o with
      | Some r' => Some (set_reexecs (<[i := r']> (reexecs x)) (set_sh s' x))
      | None => Some (set_reexecClosed ({[i]} ∪ reexecClosed x) (set_reexecs (delete i (reexecs x)) (set_sh s' x)))
      end
  | cValidate => validateFn x
  | cSettle =>
      match chSettle x with
      | i :: rest => Some (set_settled rest (settled x ++ [(i, states (sh x) !! i)]) x)
      | [] => None
      end
  end.

Lemma stepFn_step ch x x' : stepFn ch x = Some x' -> step x x'.
Proof.
  destruct ch as [| |i|i| |]; cbn [stepFn].
  - case_decide as H; [|done]. intros [= <-]. destruct H as (H1 & H2 & H3). by apply s_dispatch.
  - destruct (taskCh x) as [|i rest] eqn:E; [done|]. case_decide; [|done]. intros [= <-]. by eapply s_take.
  - destruct (workers x !! i) as [p|] eqn:E; [|done].
    assert (Hex : ('(s', p') ← execFn i (sh x) p; Some (set_workers (<[i := p']> (workers x)) (set_sh s' x))) = Some x' -> step x x').
    { destruct (execFn i (sh x) p) as [[s' p']|] eqn:Ex; cbn; [|done]. intros [= <-]. eapply s_work; [done|by apply execFn_step]. }
    destruct p; try exact Hex. intros [= <-]. by apply s_work_done.
  - destruct (reexecs x !! i) as [r|] eqn:E; cbn; [|done]. destruct (reexecFn i (sh x) r) as [[s' o]|] eqn:Er; cbn; [|done].
    apply reexecFn_step in Er. destruct o; intros [= <-]; [by eapply s_reexec|by eapply s_reexec_done].
  - apply validateFn_step.
  - destruct (chSettle x) as [|i rest] eqn:E; [done|]. intros [= <-]. by apply s_settle.
Qed.

(** Steps that are not possible are skipped. *)
Definition runSchedule (chs : list choice) : v2ExecCtx :=
  fold_left (fun x ch => default x (stepFn ch x)) chs (newV2ExecCtx tasks).

Lemma runSchedule_reachable chs : reachable (runSchedule chs).
Proof.
  unfold runSchedule. rewrite <- (rev_involutive chs). induction (rev chs) as [|ch l IH]; cbn; [constructor|].
  rewrite fold_left_app. cbn. destruct (stepFn ch _) as [x'|] eqn:E; cbn; [|done]. eapply r_step; [exact IH|by apply stepFn_step in E].
Qed.

End executor.

End V2Run.
