(* ===== verification/V2Correct.v ===== *)
(** * The parallel executor is serial execution

    For every schedule of the goroutines: what is settled is what serial execution
    leaves, in order; the executor never blocks for good; and it always ends. *)

From S2P Require Import Prelude Bytes MvStore MvStoreProps ParallelState ParallelRead ParallelRun ParallelCover V2Exec V2Cells V2Serial V2Inv V2Steps V2Run.
Import MvStore MvStoreProps ParallelState ParallelRead ParallelRun ParallelCover V2Exec V2Cells V2Serial V2Inv V2Steps V2Run.

Module V2Correct.

(** ** Predicted predecessors *)

(** The trackers hold earlier tasks. *)
Definition chainsBelow (c : chainState) (i : Z) : Prop :=
  (forall a p, lastTo c !! a = Some p -> 0 <= p < i) /\ -1 <= lastConflict c < i.

Lemma predecessor_below c to i cnt conf :
  0 <= i -> chainsBelow c i ->
  let '(p, c') := predecessor c to i cnt conf minChainSize in -1 <= p < i /\ chainsBelow c' (i + 1).
Proof.
  intros Hi [H1 H2]. unfold predecessor. destruct to as [a|].
  2: { split; [lia|]. split; [|lia]. intros a p Hp. apply H1 in Hp. lia. }
  assert (Hl : -1 <= default (-1) (lastTo c !! a) < i).
  { destruct (lastTo c !! a) as [p|] eqn:E; cbn; [apply H1 in E|]; lia. }
  assert (Hins : forall b p, <[a := i]> (lastTo c) !! b = Some p -> 0 <= p < i + 1).
  { intros b p. destruct (decide (a = b)) as [->|Hne]; [rewrite lookup_insert_eq; intros [= <-]; lia|].
    rewrite lookup_insert_ne by done. intros Hp. apply H1 in Hp. lia. }
  assert (Hold : forall b p, lastTo c !! b = Some p -> 0 <= p < i + 1) by (intros b p Hp; apply H1 in Hp; lia).
  destruct (minChainSize <=? default 0 (cnt !! a)); cbn;
    repeat (case_if; cbn); split; try lia; (split; [done|cbn; lia]).
Qed.

Lemma toPrev_loop_below tasks i c cnt conf j p :
  0 <= i -> chainsBelow c i -> toPrev_loop tasks i c cnt conf !! j = Some p -> -1 <= p < i + Z.of_nat j.
Proof.
  revert i c j. induction tasks as [|t tasks IH]; intros i c j Hi Hc Hj; cbn [toPrev_loop] in Hj; [done|].
  pose proof (predecessor_below c (tTo t) i cnt conf Hi Hc) as Hp.
  destruct (predecessor c (tTo t) i cnt conf minChainSize) as [q c']. destruct Hp as [Hq Hc'].
  destruct j as [|j]; cbn in Hj; [injection Hj as <-; lia|]. apply IH in Hj; [lia..|done].
Qed.

Lemma toPrev_below tasks conf i : -1 <= toPrev tasks conf i < Z.of_nat i \/ toPrev tasks conf i = -1.
Proof.
  unfold toPrev. destruct (computeToPrev tasks conf !! i) as [p|] eqn:E; cbn; [left|by right].
  apply toPrev_loop_below in E; [lia|lia|]. split; [|cbn; lia]. intros a q Hq. cbn in Hq. by rewrite lookup_empty in Hq.
Qed.

(** ** Termination *)

Section wf.
Context {A : Type} (R : A -> A -> Prop).

(** One entry of a map has decreased or is gone. *)
Definition mapLt (m' m : gmap nat A) : Prop :=
  exists i a, m !! i = Some a /\ ((exists a', R a' a /\ m' = <[i := a']> m) \/ m' = delete i m).

Lemma mapLt_insert_acc i a : Acc R a -> forall m, Acc mapLt m -> m !! i = None -> Acc mapLt (<[i := a]> m).
Proof.
  induction 1 as [a Ha IHa]. induction 1 as [m Hm IHm]. intros Hi. constructor. intros m' (j & b & Hj & Hb).
  destruct (decide (j = i)) as [->|Hne].
  - rewrite lookup_insert_eq in Hj. injection Hj as <-. destruct Hb as [(a' & Hr & ->)| ->].
    + rewrite insert_insert_eq. by apply IHa; [|constructor|].
    + rewrite delete_insert_id by done. by constructor.
  - rewrite lookup_insert_ne in Hj by done. destruct Hb as [(b' & Hr & ->)| ->].
    + rewrite insert_insert_ne by done. apply IHm; [|by rewrite lookup_insert_ne]. exists j, b. eauto.
    + rewrite delete_insert_ne by done. apply IHm; [|by rewrite lookup_delete_ne]. exists j, b. eauto.
Qed.

Lemma mapLt_wf : well_founded R -> well_founded mapLt.
Proof.
  intros Hwf m. induction m as [|i a m Hi IH] using map_ind.
  - constructor. intros m' (i & a & Ha & _). by rewrite lookup_empty in Ha.
  - by apply mapLt_insert_acc.
Qed.

End wf.

Section executor.
Context (keccak : list Z -> Z) (base : SafeBase) (turns : nat).
Context (tasks : list Task) (conflictAddrs : gset Z) (coinbase : Z) (numWorkers : nat).

Abbreviation exec_step := (exec_step keccak base turns tasks conflictAddrs coinbase).
Abbreviation reexec_step := (reexec_step keccak base turns tasks conflictAddrs coinbase).
Abbreviation validate_step := (validate_step tasks conflictAddrs).
Abbreviation step := (step keccak base turns tasks conflictAddrs coinbase numWorkers).
Abbreviation reachable := (reachable keccak base turns tasks conflictAddrs coinbase numWorkers).
Abbreviation n := (V2Exec.n tasks).
Abbreviation serial i := (serial keccak base turns tasks coinbase i).
Abbreviation Inv := (Inv keccak base turns tasks coinbase numWorkers).

Definition pcLt (p' p : pc) : Prop := exists i s s', exec_step i s p s' p'.

Ltac acc_step := constructor; intros ? (?i & ?s & ?s' & Hst); inversion Hst; subst.

Lemma pcLt_wf : well_founded pcLt.
Proof.
  assert (Hdone : Acc pcLt pcDone) by acc_step.
  assert (Hcount : Acc pcLt pcCount) by (by acc_step).
  assert (Hbal : forall p ds, Acc pcLt (pcFlushBal p ds)) by (intros p ds; induction ds; by acc_step).
  assert (Hflush : forall p ws, Acc pcLt (pcFlush p ws)) by (intros p ws; induction ws; by acc_step).
  assert (Hrun : forall t, Acc pcLt (pcRun t)) by (intros t; induction t; by acc_step).
  assert (Hprev : Acc pcLt pcPrev) by (by acc_step).
  assert (Hcompl : Acc pcLt pcCompletion) by (by acc_step).
  assert (Hfin : Acc pcLt pcFinalized) by (by acc_step).
  assert (Hvf : Acc pcLt pcVfailed) by (by acc_step).
  intros []; done.
Qed.

Definition repcLt (r' r : repc) : Prop := exists i s s', reexec_step i s r s' (Some r').

Lemma repcLt_wf : well_founded repcLt.
Proof.
  assert (Hbal : forall tx addrs, Acc repcLt (rClean tx [] addrs)) by (intros tx addrs; induction addrs; by acc_step).
  assert (Hclean : forall tx ks addrs, Acc repcLt (rClean tx ks addrs)).
  { intros tx ks addrs. induction ks; [done|]. by acc_step. }
  intros [p owk oba|tx ks addrs]; [|done]. induction (pcLt_wf p) as [p _ IH]. acc_step; [|done..]. apply IH. by eexists _, _, _.
Qed.

Definition vpcLt (l' l : list vinstr) : Prop :=
  exists x tl h x', l = h :: tl /\ validate_step x tl h x' /\ l' = vpc x'.

Ltac vacc_step := constructor; intros ? (?x & ?tl & ?h & ?x' & [= <- <-] & Hst & ->); inversion Hst; subst; cbn [vpc set_vpc].

Lemma vpcLt_wf : well_founded vpcLt.
Proof.
  intros l. induction l as [|h tl IH]; [constructor; by intros ? (? & ? & ? & ? & [=] & _)|].
  assert (Hs : forall i tl, Acc vpcLt tl -> Acc vpcLt (iSettle i :: tl)) by (intros; by vacc_step).
  assert (Hsr : forall i tl, Acc vpcLt tl -> Acc vpcLt (iSettleReexec i :: tl)) by (intros; by vacc_step).
  assert (Hc : forall i tl, Acc vpcLt tl -> Acc vpcLt (iComplete i :: tl)) by (intros; by vacc_step).
  assert (Hf : forall i tl, Acc vpcLt tl -> Acc vpcLt (iFinalize i :: tl)) by (intros; by vacc_step).
  assert (Hfi : forall i tl, Acc vpcLt tl -> Acc vpcLt (iFinish i :: tl)) by (intros; vacc_step; cbn; auto).
  assert (Hl : forall i owk oba tl, Acc vpcLt tl -> Acc vpcLt (iLaunch i owk oba :: tl)) by (intros; by vacc_step).
  assert (Hb : forall i tl, Acc vpcLt tl -> Acc vpcLt (iBump i :: tl)) by (intros; by vacc_step).
  assert (Hv : forall i tl, Acc vpcLt tl -> Acc vpcLt (iVfailed i :: tl)) by (intros; by vacc_step).
  assert (Hz : forall tx addrs tl, Acc vpcLt tl -> Acc vpcLt (iZero tx addrs :: tl))
    by (intros tx addrs; induction addrs; intros; vacc_step; auto).
  assert (Hm : forall tx ks tl, Acc vpcLt tl -> Acc vpcLt (iMark tx ks :: tl))
    by (intros tx ks; induction ks; intros; vacc_step; auto).
  assert (Hfa : forall i tl, Acc vpcLt tl -> Acc vpcLt (iFail i :: tl)).
  { intros i tl' H. vacc_step. destruct (states (sh x) !! i); cbn; auto 10. }
  assert (Hrb : forall i l brds tl, Acc vpcLt tl -> Acc vpcLt (iReads i l [] brds :: tl)).
  { intros i l brds. induction brds; intros; vacc_step; cbn; try case_if; auto. }
  assert (Hr : forall i l rds brds tl, Acc vpcLt tl -> Acc vpcLt (iReads i l rds brds :: tl)).
  { intros i l rds. induction rds as [|rd rds IHr]; intros brds tl' H; [by apply Hrb|].
    assert (Hrr : forall w, Acc vpcLt (iReread i l w rd rds brds :: tl')) by (intros w; vacc_step; case_if; auto).
    vacc_step; [apply Hrr|case_if; auto]. }
  assert (Hva : forall i tl, Acc vpcLt tl -> Acc vpcLt (iValidate i :: tl)) by (intros; vacc_step; auto).
  destruct h; auto; vacc_step; auto. case_if; auto.
Qed.

Lemma step_wf : well_founded (fun x' x => step x x').
Proof.
  intros x. remember (vpc x) as v eqn:Ev. revert x Ev. induction (vpcLt_wf v) as [v _ IHv].
  intros x Ev. remember (n - next x)%nat as m eqn:Em. revert x Ev Em. induction (lt_wf m) as [m _ IHm].
  intros x Ev Em. remember (length (taskCh x)) as t eqn:Et. revert x Ev Em Et. induction (lt_wf t) as [t _ IHt].
  intros x Ev Em Et. remember (workers x) as w eqn:Ew. revert x Ev Em Et Ew. induction (mapLt_wf pcLt pcLt_wf w) as [w _ IHw].
  intros x Ev Em Et Ew. remember (reexecs x) as r eqn:Er. revert x Ev Em Et Ew Er. induction (mapLt_wf repcLt repcLt_wf r) as [r _ IHr].
  intros x Ev Em Et Ew Er. remember (length (chSettle x)) as c eqn:Ec. revert x Ev Em Et Ew Er Ec. induction (lt_wf c) as [c _ IHc].
  intros x Ev Em Et Ew Er Ec. constructor. intros x' Hst. inversion Hst; subst.
  - eapply IHm; [|done|done]. cbn. lia.
  - eapply IHt; [|done|done|done]. cbn. rewrite H. cbn. lia.
  - eapply IHw; [|done..]. exists i, p. split; [done|]. left. exists p'. split; [by eexists _, _, _|done].
  - eapply IHw; [|done..]. exists i, pcDone. split; [done|by right].
  - eapply IHr; [|done..]. exists i, r0. split; [done|]. left. exists r'. split; [by eexists _, _, _|done].
  - eapply IHr; [|done..]. exists i, r0. split; [done|by right].
  - eapply IHv; [|done]. eexists _, _, _, _. done.
  - eapply IHc; [|done..]. cbn. rewrite H. cbn. lia.
Qed.

(** ** Progress *)

Context (Hturns : (0 < turns)%nat).
Context (Hidx : forall i t, tasks !! i = Some t -> tIndex t = Z.of_nat i).

Lemma pcDone_dec (p : pc) : {p = pcDone} + {p <> pcDone}.
Proof. destruct p; first [by left|by right]. Qed.

(** [execute] goes on when every earlier transaction has been executed and completed. *)
Lemma exec_progress s pub j old inc (T : tm PDB -> Prop) (F : PDB -> Prop) p :
  (j < n)%nat -> (forall i, (i < j)%nat -> i ∈ execDone s /\ i ∈ completionCh s) ->
  (forall t, T t -> exists Q, quiet (okInc inc) Q t) -> execInv s pub j old inc T F p -> p <> pcDone ->
  exists s' p', exec_step j s p s' p'.
Proof.
  intros Hj Hb HT Hi Hp. destruct p as [| | | |t|q ws|q ds| |]; cbn in Hi.
  - destruct (decide ((0 < j)%nat /\ (j - 1)%nat ∈ vfailed s /\ toPrev tasks conflictAddrs j = Z.of_nat j - 1)) as [(H1 & H2 & H3)|Hn].
    + do 2 eexists. by apply x_vfailed.
    + do 2 eexists. by apply x_not_vfailed.
  - destruct (decide ((j - 1)%nat ∈ finalized s)); do 2 eexists; [by apply x_finalized|by apply x_not_finalized].
  - do 2 eexists. apply x_completion. apply Hb. lia.
  - assert (Hs : is_Some (tasks !! j)) by (by apply lookup_lt_is_Some). destruct Hs as [t Ht]. do 2 eexists.
    apply (x_prev _ _ _ _ _ _ _ _ t None Ht).
    destruct (toPrev_below tasks conflictAddrs j) as [H| ->]; [|left; lia].
    destruct (decide (toPrev tasks conflictAddrs j < 0)); [by left|right]. split; [lia|]. apply Hb. lia.
  - destruct Hi as [Ht _]. apply HT in Ht as [Q Ht]. destruct Ht; do 2 eexists; [by apply x_return|apply x_read|apply x_delta].
  - destruct ws as [|[k v] ws]; do 2 eexists; [by apply x_flushed|apply x_flush].
  - destruct ds as [|[[a u] v] ds]; do 2 eexists; [apply x_state|apply x_flush_bal].
  - do 2 eexists. apply x_count.
  - done.
Qed.

Lemma below_done x pub Φ f fz c sent taken i :
  Inv x pub Φ f fz c sent taken -> (f <= n)%nat -> c = f -> (i < f)%nat -> i ∈ execDone (sh x) /\ i ∈ completionCh (sh x).
Proof.
  intros H Hf -> Hi. split; [|by apply (inv_completed _ _ _ _ _ _ _ _ _ _ _ _ _ _ H)].
  destruct (inv_below _ _ _ _ _ _ _ _ _ _ _ _ _ _ H i Hi) as [p Hp].
  pose proof (inv_coh _ _ _ _ _ _ _ _ _ _ _ _ _ _ H i ltac:(lia)) as Hc. rewrite Hp in Hc. apply Hc.
Qed.

(** The transaction the loop waits for is on its way. *)
Lemma worker_progress x pub Φ f taken :
  (0 < numWorkers)%nat -> Inv x pub Φ f f f f taken -> (f < n)%nat -> early (Φ f) -> (f ∉ execDone (sh x)) ->
  exists x', step x x'.
Proof.
  intros Hnw H Hlt He Hd. pose proof (inv_coh _ _ _ _ _ _ _ _ _ _ _ _ _ _ H f Hlt) as Hc.
  pose proof (fun i => below_done _ _ _ _ _ _ _ _ i H ltac:(lia) eq_refl) as Hb.
  destruct (Φ f) as [|p|p| | | |] eqn:Ef; cbn in He; try done.
  - assert (Htk : (taken <= f)%nat) by (by apply (inv_waiting _ _ _ _ _ _ _ _ _ _ _ _ _ _ H)).
    assert (Hw : workers x = ∅).
    { apply map_eq. intros i. rewrite lookup_empty. destruct (workers x !! i) as [p|] eqn:E; [|done].
      eapply worker_phase in E as [Hi HΦ]; [|exact H].
      pose proof (inv_waiting _ _ _ _ _ _ _ _ _ _ _ _ _ _ H i ltac:(lia)) as [_ Hw]. rewrite Hw in HΦ by lia. done. }
    destruct (taskCh x) as [|i rest] eqn:Et.
    + pose proof (inv_taskCh _ _ _ _ _ _ _ _ _ _ _ _ _ _ H) as Hch. pose proof (inv_taken _ _ _ _ _ _ _ _ _ _ _ _ _ _ H) as Htn.
      rewrite Et in Hch. destruct (next x - taken)%nat eqn:Em; [|done]. eexists. apply s_dispatch; [lia| |rewrite Et; cbn; lia].
      intros Hwin. apply Hb. unfold InFlightTaskMultiplier in *. lia.
    + eexists. eapply s_take; [exact Et|]. rewrite Hw, map_size_empty. done.
  - destruct Hc as (Hfl & _ & _ & Hex). pose proof (fl_w _ _ _ _ _ _ _ Hfl) as Hw. destruct (pcDone_dec p) as [->|Hne].
    + eexists. by apply s_work_done.
    + edestruct exec_progress as (s' & p' & Hst); [exact Hlt|exact Hb| |exact Hex|exact Hne|by eexists; eapply s_work].
      intros t. by apply specT_quiet.
  - destruct Hc as (Hfl & _). destruct Hd. by apply (fl_exd _ _ _ _ _ _ _ Hfl).
Qed.

Lemma reexec_progress x pub Φ f taken r :
  Inv x pub Φ f f f f taken -> (f < n)%nat -> Φ f = Again r -> exists x', step x x'.
Proof.
  intros H Hlt Hr. pose proof (inv_coh _ _ _ _ _ _ _ _ _ _ _ _ _ _ H f Hlt) as Hc. rewrite Hr in Hc.
  pose proof (fun i => below_done _ _ _ _ _ _ _ _ i H ltac:(lia) eq_refl) as Hb.
  destruct Hc as (Hfl & _ & Hi). pose proof (fl_r _ _ _ _ _ _ _ Hfl) as Hw.
  destruct r as [p owk oba|tx [|k ks] [|a addrs]].
  - destruct (pcDone_dec p) as [->|Hne].
    + destruct Hi as (q & Hq & _). eexists. eapply s_reexec; [done|by apply re_cleanup].
    + edestruct exec_progress as (s' & p' & Hst); [exact Hlt|exact Hb| |exact Hi|exact Hne|].
      { intros t. by apply againT_quiet. }
      eexists. eapply s_reexec; [done|by apply re_exec].
  - eexists. eapply s_reexec_done; [done|apply re_close].
  - eexists. eapply s_reexec; [done|apply re_clean_bal].
  - eexists. eapply s_reexec; [done|apply re_clean].
  - eexists. eapply s_reexec; [done|apply re_clean].
Qed.

Lemma room_to_settle x pub Φ f fz c taken :
  Inv x pub Φ (S f) fz c f taken -> (S f <= n)%nat -> (length (chSettle x) < n)%nat.
Proof.
  intros H Hf. pose proof (f_equal length (inv_sent _ _ _ _ _ _ _ _ _ _ _ _ _ _ H)) as Hl.
  rewrite length_app, length_seq in Hl. lia.
Qed.

(** The validation loop can go on, or waits for a transaction that can. *)
Lemma validate_progress x pub Φ f fz c sent taken h tl :
  (0 < numWorkers)%nat -> Inv x pub Φ f fz c sent taken -> vpc x = h :: tl -> exists x', step x x'.
Proof.
  intros Hnw H Hv. pose proof (inv_shape _ _ _ _ _ _ _ _ _ _ _ _ _ _ H) as Hs. rewrite Hv in Hs. remember (h :: tl) as v eqn:Ev.
  assert (Hgo : forall x', validate_step x tl h x' -> exists x', step x x') by (intros x' Hx; exists x'; subst v; by eapply s_validate).
  destruct Hs as [f v H1 H2 H3|f v H1 H2 H3|f i v H1 H2 H3 H4|f i v H1 H2 H3 H4|f i v H1 H2 H3 H4
    |f p H1 H2|f p rds brds H1 H2 H3 H4|f p H1 H2|f p ks H1 H2 H3 H4 H5|f p addrs H1 H2 H3 H4 H5|f p v H1 H2 H3 H4 H5];
    try (injection Ev as <- <-).
  - subst v. assert (Hred : forall j, j ∉ reexecDone x) by (intros j; by eapply early_not_red).
    apply idle_inv in H1 as [([->| ->] & Hlt & _)|[(-> & Hlt & ->)|([[j ->]| ->] & -> & _)]].
    + eapply Hgo, v_no_prev. intros [_ Hin]. by apply Hred in Hin.
    + eapply Hgo, v_no_last. intros (_ & _ & Hin). by apply Hred in Hin.
    + destruct (decide (f ∈ execDone (sh x))) as [Hd|Hd]; [by eapply Hgo, v_await|].
      eapply worker_progress; [done|exact H|done|by apply H3|done].
    + by eapply Hgo, v_finish_none.
    + eapply Hgo, v_close.
  - subst v. pose proof (inv_coh _ _ _ _ _ _ _ _ _ _ _ _ _ _ H f H2) as Hc.
    assert (Hred : f ∈ reexecDone x /\ f ∈ vfailed (sh x)).
    { destruct H3 as [[r Hr]|[p Hp]]; rewrite ?Hr, ?Hp in Hc; destruct Hc as (Hfl & [_ Hvf] & _); split; [|done| |done];
        by apply (fl_red _ _ _ _ _ _ _ Hfl). }
    apply pending_inv in H1 as [(-> & _)|[(-> & _)|[(j & -> & Hj & _)|(-> & _)]]].
    + destruct (decide (isSet (reexecDone x) (toPrev tasks conflictAddrs (S f)))) as [[Hp Hin]|Hn]; [|by eapply Hgo, v_no_prev].
      eapply Hgo, v_prev; [|done]. lia.
    + eapply Hgo, v_last; [lia| |]; (replace (S f - 1)%nat with f by lia; tauto).
    + eapply Hgo, v_finish_none. intros Hin. eapply red_phase in Hin; [|exact H]. lia.
    + destruct (decide (f ∈ reexecClosed x)) as [Hcl|Hcl]; [eapply Hgo, v_finish; [tauto|done]|].
      destruct H3 as [[r Hr]|[p Hp]]; [by eapply reexec_progress|].
      rewrite Hp in Hc. destruct Hc as (Hfl & _). destruct Hcl. by apply (fl_rcl _ _ _ _ _ _ _ Hfl).
  - eapply Hgo, v_finalize.
  - eapply Hgo, v_complete.
  - pose proof (room_to_settle _ _ _ _ _ _ _ H H3) as Hroom. destruct H1 as [->| ->]; [by eapply Hgo, v_settle|].
    destruct (states (sh x) !! f) as [q|] eqn:E; [by eapply Hgo, v_settle_reexec|by eapply Hgo, v_settle_nil].
  - destruct (states (sh x) !! f) as [q|] eqn:E; [|by eapply Hgo, v_validate_nil].
    destruct (Panicked (loc q)) eqn:Ep; [by eapply Hgo, v_validate_panicked|by eapply Hgo, v_validate].
  - destruct rds as [|rd rds]; [destruct brds as [|rd brds]; [eapply Hgo, v_pass|eapply Hgo, v_bal]|].
    destruct (estimateMet (loc p) rd (ReadVersionFull (store (sh x)) (rdKey rd) (TxIndex (loc p)))) eqn:Ee;
      [by eapply Hgo, v_read_estimate|by eapply Hgo, v_read].
  - eapply Hgo, v_fail.
  - destruct ks as [|k ks]; [eapply Hgo, v_marked|eapply Hgo, v_mark].
  - destruct addrs as [|a addrs]; [eapply Hgo, v_zeroed|eapply Hgo, v_zero].
  - subst v. destruct H5 as [[[= -> ->] _]|[([= -> ->] & _)|[[= -> ->] _]]]; [eapply Hgo, v_vfailed|eapply Hgo, v_bump|eapply Hgo, v_launch].
Qed.

(** When the loop is through, everything is final. *)
Lemma loop_end x pub Φ f fz c sent taken :
  Inv x pub Φ f fz c sent taken -> vpc x = [] -> f = n /\ sent = n.
Proof.
  intros H Hv. pose proof (inv_shape _ _ _ _ _ _ _ _ _ _ _ _ _ _ H) as Hs. rewrite Hv in Hs.
  inversion Hs as [f' tl Hi Hf He|f' tl Hp Hf|f' i tl|f' i tl|f' i tl|f' p|f' p rds brds|f' p|f' p ks|f' p addrs|f' p tl H1 H2 H3 H4 H5]; subst.
  - inversion Hi as [g Hg E1 E2|g Hg E1 E2|g Hg E1 E2|j Hj E1 E2|]; subst; [by rewrite loopFrom_cons in E2| |done].
    destruct (decide (j = n)) as [->|Hne]; [by rewrite drainFrom_end in E2|by rewrite drainFrom_cons in E2 by lia].
  - inversion Hp as [g Hg E1 E2|g Hg E1 E2|g j Hg Hj E1 E2|]; subst; [by rewrite loopFrom_cons in E2|by rewrite drainFrom_cons in E2 by lia].
  - by destruct H5 as [[? _]|[[? _]|[? _]]].
Qed.

Lemma all_final_returned x pub Φ fz c sent taken :
  Inv x pub Φ n fz c sent taken -> workers x = ∅ /\ taskCh x = [] /\ reexecs x = ∅.
Proof.
  intros H.
  assert (Hfin : forall j, (j < n)%nat -> exists p, Φ j = Final p /\ workers x !! j = None /\ reexecs x !! j = None).
  { intros j Hj. destruct (inv_below _ _ _ _ _ _ _ _ _ _ _ _ _ _ H j Hj) as [p Hp].
    pose proof (inv_coh _ _ _ _ _ _ _ _ _ _ _ _ _ _ H j Hj) as Hc. rewrite Hp in Hc. exists p. destruct Hc as (? & ? & _). done. }
  assert (Hall : forall j, workers x !! j = None /\ reexecs x !! j = None).
  { intros j. destruct (decide (j < n)%nat) as [Hj|Hj]; [by destruct (Hfin j Hj) as (p & _ & ?)|].
    destruct (inv_out _ _ _ _ _ _ _ _ _ _ _ _ _ _ H j ltac:(lia)) as (? & ? & _). done. }
  split_and!; [apply map_eq; intros j; rewrite lookup_empty; apply Hall| |apply map_eq; intros j; rewrite lookup_empty; apply Hall].
  pose proof (inv_taken _ _ _ _ _ _ _ _ _ _ _ _ _ _ H) as Ht. rewrite (inv_taskCh _ _ _ _ _ _ _ _ _ _ _ _ _ _ H).
  destruct (next x - taken)%nat eqn:Em; [done|]. destruct (Hfin taken ltac:(lia)) as (p & Hp & _).
  pose proof (inv_waiting _ _ _ _ _ _ _ _ _ _ _ _ _ _ H taken ltac:(lia)) as [_ Hw]. rewrite Hw in Hp by lia. done.
Qed.

(** C4: the executor does not block for good.  With at least one worker, in every state it
    can reach it either has returned or some goroutine can go on, whatever waits for
    whatever: workers for predecessors, the dispatcher for its window, the loop for
    executions and re-executions. *)
Theorem ExecuteV2BlockSTM_progress x :
  (0 < numWorkers)%nat -> reachable x -> returned x \/ exists x', step x x'.
Proof.
  intros Hnw Hr. apply reachable_good in Hr as (pub & Φ & f & fz & c & sent & taken & H); [|done..].
  destruct (vpc x) as [|h tl] eqn:Ev; [|right; by eapply validate_progress].
  destruct (loop_end _ _ _ _ _ _ _ _ H Ev) as [-> ->]. destruct (all_final_returned _ _ _ _ _ _ _ H) as (Hw & Ht & Hre).
  destruct (chSettle x) as [|i rest] eqn:Es; [by left|]. right. eexists. by eapply s_settle.
Qed.

(** C3: parallel execution is serial execution.  Under every schedule, what has been
    settled is a prefix of the block, each transaction once and in order, and each left
    exactly the state it leaves when the block is executed serially, field for field;
    when the executor has returned, it is the whole block. *)
Theorem ExecuteV2BlockSTM_serial x :
  reachable x ->
  exists m, (m <= n)%nat /\ map fst (settled x) = seq 0 m /\
    (forall i o, (i, o) ∈ settled x -> exists p, o = Some p /\ loc p = serial i) /\
    (returned x -> m = n).
Proof.
  intros Hr. apply reachable_good in Hr as (pub & Φ & f & fz & c & sent & taken & H); [|done..].
  assert (Hf : (f <= n)%nat) by (eapply vshape_le; apply H).
  assert (Hsent : (sent <= f)%nat) by (eapply vshape_sent; apply H).
  pose proof (inv_sent _ _ _ _ _ _ _ _ _ _ _ _ _ _ H) as Hse.
  exists (length (map fst (settled x))).
  assert (Hlen : (length (map fst (settled x)) <= sent)%nat).
  { apply (f_equal length) in Hse. rewrite length_app, length_seq in Hse. lia. }
  split_and!; [lia| |apply H|].
  - apply (f_equal (take (length (map fst (settled x))))) in Hse. rewrite take_app_length in Hse.
    rewrite take_seq in Hse. rewrite Hse at 1. f_equal. lia.
  - intros (Hv & _ & _ & _ & Hc). destruct (loop_end _ _ _ _ _ _ _ _ H Hv) as [-> ->].
    rewrite Hc, app_nil_r in Hse. rewrite Hse. apply length_seq.
Qed.

(** A goroutine, of a worker or of a re-execution, is executing [i], with [t] left. *)
Definition executing (x : v2ExecCtx) (i : nat) (t : tm PDB) : Prop :=
  workers x !! i = Some (pcRun t) \/ exists owk oba, reexecs x !! i = Some (rExec (pcRun t) owk oba).

(** What [applyMessage] does with the outcome of the program. *)
Definition messageEnd (r : PDB * res unit) : tm PDB :=
  match r with
  | (s', Ok _) => TRet s'
  | (s', Panic _) | (s', Spin) => TRet (mkPDB (set_Panicked true (loc s')) (Incarnation s') (trk s'))
  end.

(** What is left of the program waits for nothing and does not run out of turns, on
    every answer that incarnation [inc] can do with. *)
Definition endsUnspun (inc : Z) (t : tm PDB) : Prop :=
  exists t0, t = tmBind t0 messageEnd /\ quiet (okInc inc) (fun r => r.2 <> Spin) t0.

Lemma resid_bind {A B} ok (t1 : tm A) (f : A -> tm B) t :
  (forall a, exists b, f a = TRet b) -> resid ok (tmBind t1 f) t -> exists t0, t = tmBind t0 f /\ resid ok t1 t0.
Proof.
  intros Hf H. induction H as [|k c r H (t0 & E & H0) Hr|a c q H (t0 & E & H0)]; [exists t1; by split; [|constructor]|..].
  - destruct t0; cbn in E; try done; [destruct (Hf a) as [b Hb]; rewrite Hb in E; discriminate E|].
    injection E as -> ->. eexists. split; [done|]. by eapply resid_read.
  - destruct t0; cbn in E; try done; [destruct (Hf a0) as [b Hb]; rewrite Hb in E; discriminate E|].
    injection E as -> ->. eexists. split; [done|]. by eapply resid_delta.
Qed.

Lemma quiet_mono {A} ok (Φ Ψ : A -> Prop) t : (forall a, Φ a -> Ψ a) -> quiet ok Φ t -> quiet ok Ψ t.
Proof. intros H Hq. induction Hq; constructor; auto. Qed.

Lemma resid_unspun ok inc rec tk j t :
  (forall k r, ok k r -> okInc inc r) ->
  resid ok (Execute keccak base turns rec tk inc (taskSenderNonces base tasks j) coinbase true) t -> endsUnspun inc t.
Proof using Hturns.
  intros Hok H. unfold Execute, applyMessage in H.
  apply (resid_bind _ _ messageEnd) in H as (t0 & -> & H); [|intros [s' []]; by eexists].
  exists t0. split; [done|]. eapply resid_quiet; [exact Hok| |exact H].
  set (s0 := preparePDB rec tk inc _ coinbase true).
  assert (Hi : Incarnation s0 = inc) by (by unfold s0; destruct rec).
  pose proof (q_runProg keccak base turns Hturns (tProg tk) s0 ltac:(by unfold s0; destruct rec)) as Hq.
  rewrite Hi in Hq. eapply quiet_mono; [|exact Hq]. by intros a (_ & _ & Ha).
Qed.

(** C5: the executor ends under every schedule.  No infinite sequence of steps of the
    dispatcher, the workers, the re-executions, the validation loop and the settlement
    begins in a state it can reach, and nobody spins inside a step: the reads of an
    execution that is under way are given no estimate it would have to wait for (a
    repeated execution meets none below it, a first one does not wait for them), so that
    its program comes to its own end without waiting for a final transaction and
    without using up the turns of [readStoreWait], however few they are (at least one). *)
Theorem ExecuteV2BlockSTM_terminates x :
  reachable x ->
  Acc (fun x' x => step x x') x /\
  forall i t, executing x i t ->
    (forall k, okInc (incOf (sh x) i) (ReadVersionFull (store (sh x)) k (Z.of_nat i))) /\
    endsUnspun (incOf (sh x) i) t.
Proof.
  intros Hr. split; [apply step_wf|]. apply reachable_good in Hr as (pub & Φ & f & fz & c & sent & taken & H); [|done..].
  intros i t [Hw|(owk & oba & Hw)].
  - destruct (worker_phase _ _ _ _ _ _ _ _ _ _ _ _ _ _ _ _ H Hw) as [Hi HΦ].
    pose proof (inv_coh _ _ _ _ _ _ _ _ _ _ _ _ _ _ H i ltac:(lia)) as Hc. rewrite HΦ in Hc.
    destruct Hc as (_ & [-> _] & _ & ((rec & tk & _ & Ht) & _)). split; [intros k; by left|].
    eapply resid_unspun; [|exact Ht]. intros k r _. by left.
  - destruct (reexec_phase _ _ _ _ _ _ _ _ _ _ _ _ _ _ _ _ H Hw) as (-> & Hf & HΦ).
    pose proof (inv_coh _ _ _ _ _ _ _ _ _ _ _ _ _ _ H f Hf) as Hc. rewrite HΦ in Hc.
    destruct Hc as (_ & [-> _] & (((rec & tk & _ & Ht) & _) & _)). split.
    + intros k. right. eapply settled_reads_wf; [exact Hturns|eapply inv_settledTo; [exact H|lia|lia]].
    + eapply resid_unspun; [|exact Ht]. by intros k r [_ ?].
Qed.

End executor.

(** ** An example

    Two transactions add one to the same slot.  The second is executed first, reads the
    value from before the block and publishes it plus one; its validation fails and it is
    executed again. *)

Definition demoTasks : list Task := [demoTask 0; demoTask 1].

Lemma demoTasks_idx i t : demoTasks !! i = Some t -> tIndex t = Z.of_nat i.
Proof. destruct i as [|[|i]]; intros [= <-]; done. Qed.

Definition demoConflict : list choice :=
  [cDispatch; cTake; cDispatch; cTake] ++ replicate 40 (cWork 1) ++ replicate 40 (cWork 0) ++ replicate 40 cValidate.

Definition demoRest : list choice := replicate 40 (cReexec 1) ++ replicate 20 cValidate ++ [cSettle; cSettle].

Abbreviation demoRun chs := (runSchedule (fun _ => 0) demoBase 1 demoTasks ∅ 99 2 chs).

Lemma demoRun_conflict : head (vpc (demoRun demoConflict)) = Some (iFinish 1) /\ map fst (settled (demoRun demoConflict)) = [].
Proof. vm_compute. done. Qed.

Lemma demoRun_end :
  vfailIdxs (demoRun (demoConflict ++ demoRest)) = [1%nat] /\
  map fst (settled (demoRun (demoConflict ++ demoRest))) = [0; 1]%nat /\
  map (fun q => default 0 (p ← q.2; m ← localStorage (loc p) !! 7; m !! 9)) (settled (demoRun (demoConflict ++ demoRest))) = [6; 7].
Proof. vm_compute. done. Qed.

Lemma ExecuteV2BlockSTM_progress_witness :
  head (vpc (demoRun demoConflict)) = Some (iFinish 1) /\
  (returned (demoRun demoConflict) \/
   exists x', step (fun _ => 0) demoBase 1 demoTasks ∅ 99 2 (demoRun demoConflict) x').
Proof.
  split; [exact (proj1 demoRun_conflict)|].
  apply (ExecuteV2BlockSTM_progress (fun _ => 0) demoBase 1 demoTasks ∅ 99 2 ltac:(lia) demoTasks_idx (demoRun demoConflict));
    [lia|exact (runSchedule_reachable _ _ _ _ _ _ _ _)].
Defined.

(** The second transaction is executing for the first time. *)
Definition demoMidway : v2ExecCtx := demoRun [cDispatch; cTake; cDispatch; cTake; cWork 1; cWork 1].

Lemma ExecuteV2BlockSTM_terminates_witness :
  Acc (fun x' x => step (fun _ => 0) demoBase 1 demoTasks ∅ 99 2 x x') demoMidway /\
  exists t, executing demoMidway 1 t /\ endsUnspun 0 t.
Proof.
  destruct (ExecuteV2BlockSTM_terminates (fun _ => 0) demoBase 1 demoTasks ∅ 99 2 ltac:(lia) demoTasks_idx demoMidway
    (runSchedule_reachable _ _ _ _ _ _ _ _)) as [Hacc Hend].
  split; [exact Hacc|].
  assert (Hw : match workers demoMidway !! 1%nat with Some (pcRun _) => True | _ => False end) by (vm_compute; exact I).
  assert (Hi : incOf (sh demoMidway) 1 = 0) by (vm_compute; reflexivity).
  destruct (workers demoMidway !! 1%nat) as [p|] eqn:E; [|destruct Hw].
  destruct p as [| | | |t| | | |]; try destruct Hw. exists t.
  assert (Hx : executing demoMidway 1 t) by (left; exact E). split; [exact Hx|].
  destruct (Hend 1%nat t Hx) as [_ H]. rewrite Hi in H. exact H.
Defined.

Lemma ExecuteV2BlockSTM_serial_witness :
  vfailIdxs (demoRun (demoConflict ++ demoRest)) = [1%nat] /\
  exists m, (m <= V2Exec.n demoTasks)%nat /\ map fst (settled (demoRun (demoConflict ++ demoRest))) = seq 0 m /\
    (forall i o, (i, o) ∈ settled (demoRun (demoConflict ++ demoRest)) ->
       exists p, o = Some p /\ loc p = serial (fun _ => 0) demoBase 1 demoTasks 99 i) /\
    (returned (demoRun (demoConflict ++ demoRest)) -> m = V2Exec.n demoTasks).
Proof.
  split; [exact (proj1 demoRun_end)|].
  apply (ExecuteV2BlockSTM_serial (fun _ => 0) demoBase 1 demoTasks ∅ 99 2 ltac:(lia) demoTasks_idx
           (demoRun (demoConflict ++ demoRest))).
  exact (runSchedule_reachable _ _ _ _ _ _ _ _).
Defined.

End V2Correct.
