(* ===== verification/ParallelTyped.v ===== *)
(** * The types of published values

    The stores keep values of type [any]; a reader asserts the type it expects under a
    key, and a failed assertion would panic.  Here every published value has the type of
    its key, in every state the executor reaches, and so no transaction ever stops on a
    failed assertion: a panic comes from the program itself, from a refund below zero or
    from an unknown snapshot. *)

From S2P Require Import Prelude Bytes MvStore MvStoreProps ParallelState ParallelRead ParallelRun ParallelCover V2Exec V2Cells V2Run V2Correct.
Import MvStore MvStoreProps ParallelState ParallelRead ParallelRun ParallelCover V2Exec V2Cells V2Run V2Correct.

Module ParallelTyped.

(** ** Types *)

(** The dynamic type expected under a key; other keys are not published. *)
Definition typedValue (k : Key) (v : Value) : bool :=
  match v with
  | VHash _ => IsState k
  | VUint64 _ => IsSubpath k && (GetSubpath k =? NoncePath)
  | VBytes _ => IsSubpath k && (GetSubpath k =? CodePath)
  | VBool _ => IsSubpath k && ((GetSubpath k =? CreatePath) || (GetSubpath k =? SuicidePath))
  end.

Definition typedRead (k : Key) (r : ReadResult) : Prop :=
  found r = true -> exists v, rVal r = Some v /\ typedValue k v = true.

Definition typedStore (s : MVStore) : Prop :=
  forall k j e, cell s k j = Some e -> typedValue k (value e) = true.

(** The cached reads of code. *)
Definition typedCache (t : Track) : Prop :=
  forall a r, codeReadCache t !! a = Some r -> typedRead (NewSubpathKey a CodePath) r.

(** Every run of [t] on typed answers writes typed values and ends in [Q]. *)
Fixpoint wp {A} (Q : A -> Prop) (t : tm A) : Prop :=
  match t with
  | TRet a => Q a
  | TRead k c => forall r, typedRead k r -> wp Q (c r)
  | TDelta a c => forall p, wp Q (c p)
  | TWait j c => wp Q c
  | TIsEst k j c => forall b, wp Q (c b)
  | TDel k j c => wp Q c
  | TWrite k v c => typedValue k v = true /\ wp Q c
  end.

Lemma wp_mono {A} (Q Q' : A -> Prop) t : (forall a, Q a -> Q' a) -> wp Q t -> wp Q' t.
Proof. intros H. induction t; cbn; naive_solver. Qed.

Lemma wp_bind {A B} (Q : B -> Prop) (t : tm A) (f : A -> tm B) : wp (fun a => wp Q (f a)) t -> wp Q (tmBind t f).
Proof. induction t; cbn; naive_solver. Qed.

Lemma wp_runs {A} (Q : A -> Prop) t a : wp Q t -> runs typedRead t a -> Q a.
Proof. intros H Hr. induction Hr; cbn in *; naive_solver. Qed.

(** ** Operations *)

(** The panics an operation may end in. *)
Definition opPanic (w : string) : Prop := w = "refund counter below zero"%string \/ w = "invalid snapshot id"%string.

(** [m] keeps the cache typed, panics only as [R] allows, and returns a result in [P]. *)
Definition typedM {A} (R : string -> Prop) (P : A -> Prop) (m : M A) : Prop :=
  forall s, typedCache (trk s) ->
  wp (fun p => typedCache (trk p.1) /\ match p.2 with Ok a => P a | Panic w => R w | Spin => True end) (m s).

Definition any {A} (a : A) : Prop := True.

Section ops.
Context (keccak : list Z -> Z) (base : SafeBase) (turns : nat) (R : string -> Prop).
Hypothesis HR : forall w, opPanic w -> R w.

Abbreviation typed m := (typedM R any m).

Lemma ty_ret {A} (P : A -> Prop) (a : A) : P a -> typedM R P (mret a).
Proof. intros H s Hs. done. Qed.
Lemma ty_spin {A} (P : A -> Prop) : typedM R P (spinM : M A).
Proof. intros s Hs. done. Qed.

Lemma ty_bind {A B} (P : A -> Prop) (Q : B -> Prop) (m : M A) (k : A -> M B) :
  typedM R P m -> (forall a, P a -> typedM R Q (k a)) -> typedM R Q (m ≫= k).
Proof.
  intros Hm Hk s Hs. unfold mbind, M_bind. apply wp_bind. eapply wp_mono; [|exact (Hm s Hs)].
  intros [s1 [a|w|]] [H1 H2]; cbn in *; [exact (Hk a H2 s1 H1)|done|done].
Qed.

Lemma ty_weaken {A} (P : A -> Prop) (m : M A) : typedM R P m -> typed m.
Proof. intros H s Hs. eapply wp_mono; [|exact (H s Hs)]. intros [s1 [a|w|]]; intros [H1 H2]; by split. Qed.

Lemma ty_getL {A} (f : Local -> A) : typed (getL f).
Proof. intros s Hs. done. Qed.
Lemma ty_getInc : typed getInc.
Proof. intros s Hs. done. Qed.
Lemma ty_getT {A} (f : Track -> A) : typed (getT f).
Proof. intros s Hs. done. Qed.
Lemma ty_modL f : typed (modL f).
Proof. intros s Hs. done. Qed.
Lemma ty_modT f : (forall t, codeReadCache (f t) = codeReadCache t) -> typed (modT f).
Proof. intros H s Hs. split; [|done]. intros a r. cbn. rewrite H. apply Hs. Qed.
Lemma ty_readStore k : typedM R (typedRead k) (readStore k).
Proof. intros s Hs r Hr. done. Qed.
Lemma ty_readDelta a : typed (readDelta a).
Proof. intros s Hs r. done. Qed.
Lemma ty_wait j : typed (waitForFinal j).
Proof. intros s Hs. done. Qed.
Lemma ty_isEst k j : typed (isEstimate k j).
Proof. intros s Hs b. done. Qed.
Lemma ty_delete k j : typed (deleteStore k j).
Proof. intros s Hs. done. Qed.
Lemma ty_write k v : typedValue k v = true -> typed (writeStore k v).
Proof. intros H s Hs. done. Qed.

Create HintDb typed discriminated.
#[local] Hint Resolve ty_spin ty_getL ty_getInc ty_getT ty_modL ty_readStore ty_readDelta ty_wait ty_isEst ty_delete : typed.
#[local] Hint Extern 1 (typedM _ any (mret _)) => exact (ty_ret any _ I) : typed.

Ltac solve_typed :=
  repeat first
    [ solve [auto with typed nocore]
    | progress cbn [fst snd]
    | match goal with
      | |- typedM _ _ (_ ≫= _) => eapply ty_bind; [solve [auto with typed nocore]|intros ? ?]
      | |- typedM _ _ (_ ≫= _) => apply (ty_bind any); [|intros ? ?]
      | |- typedM _ _ (modT _) => apply ty_modT; intros ?; by repeat case_match
      | |- typedM _ _ (writeStore _ _) => by apply ty_write
      | |- typedM _ _ (if ?b then _ else _) => destruct b eqn:?
      | |- typedM _ _ (match ?x with _ => _ end) => destruct x eqn:?
      end ].

Lemma ty_handleEstimate k w : typed (handleEstimate k w).
Proof. unfold handleEstimate. solve_typed. Qed.
#[local] Hint Resolve ty_handleEstimate : typed.

Lemma ty_loop n k : typedM R (typedRead k) (readStoreWait_loop n k).
Proof.
  induction n as [|n IH]; cbn [readStoreWait_loop]; [apply ty_spin|].
  eapply ty_bind; [apply ty_readStore|intros r Hr]. destruct (_ || _); [by apply ty_ret|].
  destruct (negb _); [by apply ty_ret|]. eapply ty_bind; [apply ty_handleEstimate|intros [] _]; [done|by apply ty_ret].
Qed.

Lemma ty_readStoreWait k : typedM R (typedRead k) (readStoreWait turns k).
Proof. apply ty_loop. Qed.
#[local] Hint Resolve ty_readStoreWait : typed.

Lemma ty_readCodeKey a : typedM R (typedRead (NewSubpathKey a CodePath)) (readCodeKey turns a (NewSubpathKey a CodePath)).
Proof.
  intros s Hs. unfold readCodeKey, mbind, M_bind, getT. cbn [tmBind].
  destruct (codeReadCache (trk s) !! a) as [r|] eqn:E; [by split; [|apply (Hs a)]|].
  apply wp_bind. eapply wp_mono; [|exact (ty_readStoreWait (NewSubpathKey a CodePath) s Hs)].
  intros [s1 [r|w|]] [H1 H2]; cbn in *; [|done|done]. split; [|done]. intros b r'. cbn.
  rewrite lookup_insert_Some. intros [[-> ->]|[_ H]]; [done|by apply H1].
Qed.
#[local] Hint Resolve ty_readCodeKey : typed.

(** The assertions. *)
Lemma ty_asUint64 a r : typedRead (NewSubpathKey a NoncePath) r -> found r = true -> typed (asUint64 (rVal r)).
Proof. intros H Hf. destruct (H Hf) as ([] & -> & Hv); done. Qed.
Lemma ty_asHash a k r : typedRead (NewStateKey a k) r -> found r = true -> typed (asHash (rVal r)).
Proof. intros H Hf. destruct (H Hf) as ([] & -> & Hv); done. Qed.
Lemma ty_asBytes a r : typedRead (NewSubpathKey a CodePath) r -> found r = true -> typed (asBytes (rVal r)).
Proof. intros H Hf. destruct (H Hf) as ([] & -> & Hv); done. Qed.
#[local] Hint Extern 2 (typedM _ any (asUint64 _)) => eapply ty_asUint64; eassumption : typed.
#[local] Hint Extern 2 (typedM _ any (asHash _)) => eapply ty_asHash; eassumption : typed.
#[local] Hint Extern 2 (typedM _ any (asBytes _)) => eapply ty_asBytes; eassumption : typed.

Lemma ty_record k w i v ex : typed (recordStoreReadEx k w i v ex).
Proof. unfold recordStoreReadEx. solve_typed. Qed.
Lemma ty_recordBalanceRead a x y : typed (recordBalanceRead a x y).
Proof. unfold recordBalanceRead. solve_typed. Qed.
Lemma ty_baseRead {A} (r : A * bool) : typed (baseRead r).
Proof. unfold baseRead, noteBaseReadErr. solve_typed. Qed.
Lemma ty_journal j : typed (journal j).
Proof. apply ty_modL. Qed.
Lemma ty_recordWrite k : typed (recordWrite k).
Proof. apply ty_modL. Qed.
Lemma ty_recordBalWrite a : typed (recordBalWrite a).
Proof. apply ty_modL. Qed.
#[local] Hint Resolve ty_record ty_recordBalanceRead ty_baseRead ty_journal ty_recordWrite ty_recordBalWrite : typed.

Lemma ty_priorDestructedAt a : typed (priorDestructedAt turns a).
Proof. unfold priorDestructedAt, recordStoreRead. solve_typed. Qed.
Lemma ty_priorCreatedAt a : typed (priorCreatedAt turns a).
Proof. unfold priorCreatedAt, recordStoreRead. solve_typed. Qed.
Lemma ty_GetBalance a : typed (GetBalance base a).
Proof. unfold GetBalance, priorBalanceDeltas. solve_typed. Qed.
#[local] Hint Resolve ty_priorDestructedAt ty_priorCreatedAt ty_GetBalance : typed.

Lemma ty_GetNonce a : typed (GetNonce base turns a).
Proof. unfold GetNonce, recordStoreRead. solve_typed. Qed.
#[local] Hint Resolve ty_GetNonce : typed.
Lemma ty_Exist a : typed (Exist base turns a).
Proof. unfold Exist. solve_typed. Qed.
Lemma ty_GetCode a : typed (GetCode base turns a).
Proof. unfold GetCode, recordStoreRead. solve_typed. Qed.
Lemma ty_GetState a k : typed (GetState base turns a k).
Proof. unfold GetState, recordStoreRead. solve_typed. Qed.
Lemma ty_GetCommittedState a k : typed (GetCommittedState base turns a k).
Proof. unfold GetCommittedState, recordStoreRead. solve_typed. Qed.
#[local] Hint Resolve ty_Exist ty_GetCode ty_GetState ty_GetCommittedState : typed.
Lemma ty_GetCodeHash a : typed (GetCodeHash keccak base turns a).
Proof. unfold GetCodeHash, codeHashTail, recordStoreRead. solve_typed. Qed.
#[local] Hint Resolve ty_GetCodeHash : typed.

Lemma ty_CreateAccount a : typed (CreateAccount a).
Proof. unfold CreateAccount. solve_typed. Qed.
Lemma ty_AddBalance a x : typed (AddBalance a x).
Proof. unfold AddBalance. solve_typed. Qed.
Lemma ty_SubBalance a x : typed (SubBalance a x).
Proof. unfold SubBalance. solve_typed. Qed.
#[local] Hint Resolve ty_CreateAccount ty_AddBalance ty_SubBalance : typed.
Lemma ty_SelfDestruct a : typed (SelfDestruct base a).
Proof. unfold SelfDestruct. solve_typed. Qed.
#[local] Hint Resolve ty_SelfDestruct : typed.

Lemma ty_panic {A} (P : A -> Prop) w : R w -> typedM R P (panicM w : M A).
Proof. intros H s Hs. done. Qed.

Lemma ty_revertAll js : typed (revertAll js).
Proof. induction js as [|j js IH]; cbn [revertAll]; unfold revertStore; [by apply ty_ret|]. destruct j; solve_typed. Qed.
#[local] Hint Resolve ty_revertAll : typed.
#[local] Hint Extern 2 (typedM _ _ (panicM _)) => apply ty_panic, HR; first [by left|by right] : typed.

Lemma ty_perform o : typed (perform keccak base turns o).
Proof.
  destruct o; cbn [perform]; unfold asNum, asBool, asUnit, asCode, Empty, SetBalance, SetNonce, SetCode, SetState,
    GetStateAndCommittedState, GetCodeSize, GetStorageRoot, AddRefund, SubRefund, AddAddressToAccessList, AddSlotToAccessList,
    SetTransientState, SelfDestruct6780, CreateContract, Snapshot, RevertToSnapshot, AddLog, AddPreimage, RecordTransfer,
    Prepare; solve_typed.
Qed.

End ops.

(** ** Programs *)

(** The program can panic with [w] by itself. *)
Inductive says (w : string) : prog -> Prop :=
| says_panic : says w (pPanic w)
| says_do o k a : says w (k a) -> says w (pDo o k).

(** The panics of a message: its own, and those of the operations. *)
Definition msgPanic (p : prog) (w : string) : Prop := opPanic w \/ says w p.

Lemma ty_runProg keccak base turns p (R : string -> Prop) :
  (forall w, msgPanic p w -> R w) -> typedM R any (runProg keccak base turns p).
Proof.
  induction p as [r|e|w|o k IH]; intros HR; cbn [runProg]; try apply ty_modL.
  - apply ty_panic, HR. right. constructor.
  - eapply ty_bind; [apply ty_perform; intros w Hw; apply HR; by left|intros a _].
    apply IH. intros w [Hw|Hw]; apply HR; [by left|right; by econstructor].
Qed.

(** What a message leaves: the state its program ended in, marked if it did not end. *)
Definition ends (p : prog) (s : PDB) (o : res unit) (q : PDB) : Prop :=
  match o with
  | Ok _ => q = s
  | Panic w => q = mkPDB (set_Panicked true (loc s)) (Incarnation s) (trk s) /\ msgPanic p w
  | Spin => q = mkPDB (set_Panicked true (loc s)) (Incarnation s) (trk s)
  end.

(** A run of transaction [t] on typed answers. *)
Definition typedRun keccak base turns coinbase (sn : gmap Z Z) (t : Task) (q : PDB) : Prop :=
  exists rec inc s o,
    runs typedRead (runProg keccak base turns (tProg t) (preparePDB rec t inc sn coinbase true)) (s, o) /\
    ends (tProg t) s o q.

Lemma typedCache_start rec t inc sn coinbase d : typedCache (trk (preparePDB rec t inc sn coinbase d)).
Proof. intros a r. destruct rec; cbn; by rewrite lookup_empty. Qed.

Lemma Execute_typed keccak base turns rec t inc sn coinbase :
  wp any (Execute keccak base turns rec t inc sn coinbase true) /\
  forall q, runs typedRead (Execute keccak base turns rec t inc sn coinbase true) q ->
    typedRun keccak base turns coinbase sn t q.
Proof.
  pose proof (ty_runProg keccak base turns (tProg t) (msgPanic (tProg t)) (fun w H => H) _
    (typedCache_start rec t inc sn coinbase true)) as Hwp.
  unfold Execute, applyMessage. split.
  - apply wp_bind. eapply wp_mono; [|exact Hwp]. by intros [s [|w|]] _.
  - intros q Hr. apply runs_bind in Hr as ([s o] & H1 & H2). exists rec, inc, s, o. split; [done|].
    apply (wp_runs _ _ _ Hwp) in H1 as [_ H1]. destruct o; cbn in *; by apply runs_ret_inv in H2 as ->.
Qed.

Lemma flushWrites_typed l k v : (k, v) ∈ flushWrites l -> typedValue k v = true.
Proof. intros H. by apply elem_flushWrites in H as [(?&?&->&->&?)|[(?&?&?&?&->&->&?&?)|[(?&?&->&->&?)|[(?&->&->&?)|(?&->&->&?)]]]]. Qed.

(** ** Stores *)

Lemma typed_read s k tx : wfStore s -> typedStore s -> typedRead k (ReadVersionFull s k tx).
Proof.
  intros Hwf Ht. destruct (ReadVersionFull_cells s k tx Hwf) as [[-> _]|(e & He & _ & _ & ->)]; [done|].
  intros _. exists (value e). split; [done|]. by eapply Ht.
Qed.

Definition goodStore (s : MVStore) : Prop := wfStore s /\ typedStore s.

Lemma good_write s k tx inc v : typedValue k v = true -> goodStore s -> goodStore (WriteInc s k tx inc v).
Proof.
  intros Hv [Hwf Ht]. destruct (WriteInc_spec s k tx inc v Hwf) as [Hwf' Hc]. split; [done|].
  intros k' j e He. rewrite Hc in He. case_decide as Hd; [|by eapply Ht]. destruct Hd as [-> _]. by injection He as <-.
Qed.

Lemma good_delete s k tx : goodStore s -> goodStore (Delete s k tx).
Proof.
  intros [Hwf Ht]. destruct (Delete_spec s k tx Hwf) as [Hwf' Hc]. split; [done|].
  intros k' j e He. rewrite Hc in He. case_decide as Hd; [done|by eapply Ht].
Qed.

Lemma good_mark tx s k : goodStore s -> goodStore (markKey tx s k).
Proof.
  intros [Hwf Ht]. destruct (markKey_spec tx s k Hwf) as [Hwf' Hc]. split; [done|].
  intros k' j e He. rewrite Hc in He. case_decide as Hd; [|by eapply Ht].
  destruct (cell s k' j) as [e'|] eqn:E; [|done]. injection He as <-. by apply (Ht k' j e').
Qed.

Lemma good_clean tx s k : goodStore s -> goodStore (cleanupKey tx s k).
Proof.
  intros [Hwf Ht]. destruct (cleanupKey_spec tx s k Hwf) as [Hwf' Hc]. split; [done|].
  intros k' j e He. rewrite Hc in He. case_decide as Hd; [done|by eapply Ht].
Qed.

Create HintDb good discriminated.
#[local] Hint Resolve good_write good_delete good_mark good_clean : good.

(** ** The executor *)

Section executor.
Context (keccak : list Z -> Z) (base : SafeBase) (turns : nat).
Context (tasks : list Task) (conflictAddrs : gset Z) (coinbase : Z) (numWorkers : nat).

Definition runOf (i : nat) (q : PDB) : Prop :=
  exists t, tasks !! i = Some t /\ typedRun keccak base turns coinbase (taskSenderNonces base tasks i) t q.

Definition goodPc (i : nat) (p : pc) : Prop :=
  match p with
  | pcRun t => wp any t /\ forall q, runs typedRead t q -> runOf i q
  | pcFlush q ws => runOf i q /\ forall k v, (k, v) ∈ ws -> typedValue k v = true
  | pcFlushBal q _ => runOf i q
  | _ => True
  end.

Definition goodRepc (i : nat) (r : repc) : Prop :=
  match r with rExec p _ _ => goodPc i p | rClean _ _ _ => True end.

Definition goodShared (s : shared) : Prop :=
  goodStore (store s) /\ forall i q, states s !! i = Some q -> runOf i q.

Record good (x : v2ExecCtx) : Prop := {
  good_sh : goodShared (sh x);
  good_workers : forall i p, workers x !! i = Some p -> goodPc i p;
  good_reexecs : forall i r, reexecs x !! i = Some r -> goodRepc i r
}.

Lemma goodShared_store s v : goodShared s -> goodStore v -> goodShared (set_store v s).
Proof. intros [_ H] Hv. by split. Qed.

Lemma exec_good i s p s' p' :
  exec_step keccak base turns tasks conflictAddrs coinbase i s p s' p' ->
  goodShared s -> goodPc i p -> goodShared s' /\ goodPc i p'.
Proof.
  intros H. inversion H; subst; intros [Hs Hst] Hp; cbn [goodPc] in *; try (by split).
  - split; [done|]. destruct (Execute_typed keccak base turns rec t (incOf s' i) (taskSenderNonces base tasks i) coinbase)
      as [Hp1 Hp2]. split; [done|]. intros q Hq. exists t. auto.
  - destruct Hp as [Hp1 Hp2]. split; [done|]. split; [apply Hp1, typed_read; apply Hs|].
    intros q Hq. apply Hp2. econstructor; [apply typed_read; apply Hs|done].
  - destruct Hp as [Hp1 Hp2]. split; [done|]. split; [apply Hp1|]. intros q Hq. apply Hp2. by econstructor.
  - destruct Hp as [Hp1 Hp2]. split; [done|]. split; [apply Hp1|]. intros q Hq. apply Hp2. by econstructor.
  - destruct Hp as [Hp1 Hp2]. split; [done|]. split; [apply Hp1|]. intros q Hq. apply Hp2. by econstructor.
  - destruct Hp as [Hp1 Hp2]. split; [apply goodShared_store; auto with good; done|]. split; [apply Hp1|].
    intros q Hq. apply Hp2. by econstructor.
  - destruct Hp as [[Hp0 Hp1] Hp2]. split; [apply goodShared_store; auto with good; done|]. split; [apply Hp1|].
    intros q Hq. apply Hp2. by econstructor.
  - destruct Hp as [_ Hp2]. split; [done|]. split; [apply Hp2; constructor|]. intros k v Hin.
    match goal with Hperm : _ ≡ₚ _ |- _ => rewrite Hperm in Hin end. by eapply flushWrites_typed.
  - destruct Hp as [Hp1 Hp2]. split; [|split; [done|intros k' v' Hin; apply Hp2; by right]].
    apply goodShared_store; [done|]. apply good_write; [|done]. apply Hp2. by left.
  - by destruct Hp.
  - split; [|done]. split; [done|]. intros j q. cbn. rewrite lookup_insert_Some. intros [[<- <-]|[_ Hq]]; auto.
Qed.

Abbreviation step := (step keccak base turns tasks conflictAddrs coinbase numWorkers).
Abbreviation reachable := (reachable keccak base turns tasks conflictAddrs coinbase numWorkers).

Lemma reexec_good i s r s' o :
  reexec_step keccak base turns tasks conflictAddrs coinbase i s r s' o ->
  goodShared s -> goodRepc i r -> goodShared s' /\ (forall r', o = Some r' -> goodRepc i r').
Proof.
  intros H. inversion H as [? ? p p' ? ? Hx| | | | |]; subst; intros Hs Hr; cbn [goodRepc] in *.
  - destruct (exec_good _ _ _ _ _ Hx Hs Hr) as [Hs' Hp']. split; [done|]. by intros ? [= <-].
  - split; [done|]. by intros ? [= <-].
  - split; [done|]. by intros ? [= <-].
  - split; [|by intros ? [= <-]]. apply goodShared_store; [done|]. apply good_clean, Hs.
  - split; [done|]. by intros ? [= <-].
  - by split.
Qed.

Lemma insert_good {A} (P : nat -> A -> Prop) (m : gmap nat A) i a :
  (forall j b, m !! j = Some b -> P j b) -> P i a -> forall j b, <[i := a]> m !! j = Some b -> P j b.
Proof. intros H Ha j b. rewrite lookup_insert_Some. intros [[<- <-]|[_ Hb]]; auto. Qed.

Lemma delete_good {A} (P : nat -> A -> Prop) (m : gmap nat A) i :
  (forall j b, m !! j = Some b -> P j b) -> forall j b, delete i m !! j = Some b -> P j b.
Proof. intros H j b. rewrite lookup_delete_Some. intros [_ Hb]. auto. Qed.

Lemma validate_good x tl h x' :
  validate_step tasks conflictAddrs x tl h x' -> good x -> good x'.
Proof.
  intros H [Hs Hw Hr]. inversion H; subst; try (by split).
  - split; [|done|done]. apply goodShared_store; [done|]. apply good_mark, Hs.
  - split; [done|done|]. cbn. by apply insert_good.
Qed.

Lemma step_typed x x' : step x x' -> good x -> good x'.
Proof.
  intros H Hg. pose proof Hg as [Hs Hw Hr]. destruct H as [| | i p s' p' Hp Hx|i Hp|i r s' r' Hi Hx|i r s' Hi Hx|h tl x' _ Hx|]; try (by split).
  - split; [done| |done]. cbn. by apply insert_good.
  - destruct (exec_good _ _ _ _ _ Hx Hs (Hw _ _ Hp)) as [Hs' Hp']. split; [done| |done]. cbn. by apply insert_good.
  - split; [done| |done]. cbn. by apply delete_good.
  - destruct (reexec_good _ _ _ _ _ Hx Hs (Hr _ _ Hi)) as [Hs' Hr']. split; [done|done|]. cbn. apply insert_good; auto.
  - destruct (reexec_good _ _ _ _ _ Hx Hs (Hr _ _ Hi)) as [Hs' _]. split; [done|done|]. cbn. by apply delete_good.
  - by eapply validate_good.
Qed.

Lemma start_typed : good (newV2ExecCtx tasks).
Proof.
  split; cbn; [split; [split; [apply NewMVStore_wf|]|]| |]; intros *; rewrite ?lookup_empty; try done.
  destruct NewMVStore_refines as [_ H]. intros k j e. cbn. by rewrite H, lookup_empty.
Qed.

(** C9: published values have the type of their key.  In every state the executor can reach,
    each entry of the store holds a nonce, a hash, code or a flag as its key says; and each
    state a transaction has left comes from a run of its program on such values, which ended
    in a panic only where the program itself panics, takes more refund than there is, or
    reverts to an unknown snapshot, never on a failed type assertion. *)
Theorem ExecuteV2BlockSTM_typed x :
  reachable x ->
  (forall k j e, cell (store (sh x)) k j = Some e -> typedValue k (value e) = true) /\
  forall i q, states (sh x) !! i = Some q ->
    exists t, tasks !! i = Some t /\ typedRun keccak base turns coinbase (taskSenderNonces base tasks i) t q.
Proof.
  intros H. assert (Hg : good x) by (induction H; [apply start_typed|by eapply step_typed]).
  destruct Hg as [[[_ Hs] Hst] _ _]. by split.
Qed.

End executor.
(** Two transactions on one slot, with a failed validation in between. *)
Lemma demo_published :
  omap (fun k => cell (store (sh (demoRun (demoConflict ++ demoRest)))) k 1) [NewStateKey 7 9] = [mkEntry 1 1 (VHash 7) false].
Proof. vm_compute. reflexivity. Qed.

Lemma demo_left : is_Some (states (sh (demoRun (demoConflict ++ demoRest))) !! 1%nat).
Proof. vm_compute. by eexists. Qed.

Lemma ExecuteV2BlockSTM_typed_witness :
  omap (fun k => cell (store (sh (demoRun (demoConflict ++ demoRest)))) k 1) [NewStateKey 7 9] = [mkEntry 1 1 (VHash 7) false] /\
  exists q t, states (sh (demoRun (demoConflict ++ demoRest))) !! 1%nat = Some q /\ demoTasks !! 1%nat = Some t /\
    typedRun (fun _ => 0) demoBase 1 99 (taskSenderNonces demoBase demoTasks 1) t q.
Proof.
  split; [exact demo_published|]. destruct demo_left as [q Hq]. exists q.
  destruct (ExecuteV2BlockSTM_typed (fun _ => 0) demoBase 1 demoTasks ∅ 99 2 (demoRun (demoConflict ++ demoRest))
              (runSchedule_reachable _ _ _ _ _ _ _ _)) as [_ H].
  destruct (H 1%nat q Hq) as (t & Ht & Hr). exists t. exact (conj Hq (conj Ht Hr)).
Defined.

End ParallelTyped.
