(* ===== verification/Deps.v ===== *)
(** * Dependencies between the transactions of a block

    core/blockstm/dag.go and the descriptors of core/blockstm/txio.go: bitsets of
    transactions, and the builder that adds the transactions of a block one by one and
    keeps, for each, the transactions it depends on (reduced by transitivity) and all it
    depends on through others.  The graph made with the package heimdalr/dag for reports
    is not modelled. *)

From S2P Require Import Prelude Bytes MvStore.
Import MvStore.

Module Deps.

(** ** Reads and writes of a transaction (txio.go) *)

Record Version : Type := mkVersion { TxnIndex : Z; vIncarnation : Z }.

Definition ReadKindMap : Z := 0.
Definition ReadKindStorage : Z := 1.

Record ReadDescriptor : Type := mkReadDesc { rPath : Key; Kind : Z; rV : Version }.
Record WriteDescriptor : Type := mkWriteDesc { wPath : Key; wV : Version; wVal : option Value }.

Abbreviation TxnInput := (list ReadDescriptor) (only parsing).
Abbreviation TxnOutput := (list WriteDescriptor) (only parsing).

(** The set of paths as the code builds it, one insertion per write. *)
Definition pathSet {A} (path : A -> Key) (l : list A) : gset Key := fold_left (fun m w => {[path w]} ∪ m) l ∅.

Definition hasNewWrite (txo cmpSet : TxnOutput) : bool :=
  if bool_decide (length txo = 0%nat) then false
  else if bool_decide (length cmpSet = 0%nat) || (length cmpSet <? length txo)%nat then true
  else
    let cmpMap := pathSet wPath cmpSet in
    existsb (fun v => negb (bool_decide (wPath v ∈ cmpMap))) txo.

Definition smallCutoff : nat := 512.

(** Whether [txTo] reads what [txFrom] writes: nested loops for a short list, a set for a
    long one. *)
Definition HasReadDep (txFrom : TxnOutput) (txTo : TxnInput) : bool :=
  if (length txTo <=? smallCutoff)%nat then
    existsb (fun rd => existsb (fun v => bool_decide (wPath rd = rPath v)) txTo) txFrom
  else
    let reads := pathSet rPath txTo in
    existsb (fun rd => bool_decide (wPath rd ∈ reads)) txFrom.

(** ** Bitsets

    Words of 64 bits.  An index out of range panics: no result. *)

Record TxBitset : Type := mkBitset { words : list Z }.

Definition newTxBitset (numTx : Z) : TxBitset := mkBitset (replicate (Z.to_nat ((numTx + 63) / 64)) 0).

(** [b.words[i/64]]: Go's division rounds towards zero. *)
Definition wordAt (b : TxBitset) (i : Z) : option Z :=
  if Z.quot i 64 <? 0 then None else words b !! Z.to_nat (Z.quot i 64).

Definition bitMask (i : Z) : Z := Z.shiftl 1 (u64 i mod 64).

Definition Set_ (b : TxBitset) (i : Z) : option TxBitset :=
  w ← wordAt b i; Some (mkBitset (<[Z.to_nat (Z.quot i 64) := Z.lor w (bitMask i)]> (words b))).

Definition Test_ (b : TxBitset) (i : Z) : option bool :=
  w ← wordAt b i; Some (negb (Z.land w (bitMask i) =? 0)).

(** The loops over the words of [b], with [other.words[w]] at each. *)
Fixpoint zipWords (f : Z -> Z -> Z) (ws others : list Z) : option (list Z) :=
  match ws, others with
  | [], _ => Some []
  | w :: ws, o :: others => r ← zipWords f ws others; Some (f w o :: r)
  | _ :: _, [] => None
  end.

Definition Or (b other : TxBitset) : option TxBitset := mkBitset <$> zipWords Z.lor (words b) (words other).
Definition AndNot (b other : TxBitset) : option TxBitset := mkBitset <$> zipWords Z.ldiff (words b) (words other).

(** [bits.TrailingZeros64]: the position of the lowest bit set, 64 for zero. *)
Definition TrailingZeros64 (x : Z) : Z :=
  match filter (fun i => is_true (Z.testbit x i)) (seqZ 0 64) with i :: _ => i | [] => 64 end.

(** The indices a word adds: the lowest bit is taken and cleared until none is left. *)
Fixpoint wordLoop (fuel : nat) (base word : Z) : list Z :=
  match fuel with
  | O => []
  | S fuel' => if word =? 0 then [] else (base + TrailingZeros64 word) :: wordLoop fuel' base (Z.land word (word - 1))
  end.

(** [ForEach]: the indices its function is called with, in order. *)
Definition ForEach (b : TxBitset) : list Z :=
  concat (imap (fun w word => wordLoop 64 (Z.of_nat w * 64) word) (words b)).

Definition ToSlice (b : TxBitset) : list Z := ForEach b.

(** ** The builder *)

Definition defaultBitsetWidth : Z := 512.

Inductive DepsError : Type := errNonSequentialIndex (got expected : Z).

Record DepsBuilder : Type := mkDeps {
  lastWriter : gmap Key Z;
  directDeps : list TxBitset;
  reachableDeps : list TxBitset;
  width : Z;
  numTx : Z;
  depsErr : option DepsError
}.

Definition NewDepsBuilder : DepsBuilder := mkDeps ∅ [] [] defaultBitsetWidth 0 None.

Fixpoint widen (fuel : nat) (needed newWidth : Z) : Z :=
  match fuel with
  | O => newWidth
  | S fuel' => if newWidth <=? needed then widen fuel' needed (newWidth * 2) else newWidth
  end.

Definition extend (extra : Z) (b : TxBitset) : TxBitset := mkBitset (words b ++ replicate (Z.to_nat extra) 0).

Definition ensureCapacity (needed : Z) (db : DepsBuilder) : DepsBuilder :=
  let newWidth := widen (S (Z.to_nat needed)) needed (width db) in
  let oldWords := (width db + 63) / 64 in
  let newWords := (newWidth + 63) / 64 in
  let grow := if oldWords <? newWords then map (extend (newWords - oldWords)) else id in
  mkDeps (lastWriter db) (grow (directDeps db)) (grow (reachableDeps db)) newWidth (numTx db) (depsErr db).

Abbreviation run := (st DepsBuilder DepsError) (only parsing).

Definition set_direct (i : nat) (b : TxBitset) (db : DepsBuilder) : DepsBuilder :=
  mkDeps (lastWriter db) (<[i := b]> (directDeps db)) (reachableDeps db) (width db) (numTx db) (depsErr db).
Definition set_reachable (i : nat) (b : TxBitset) (db : DepsBuilder) : DepsBuilder :=
  mkDeps (lastWriter db) (directDeps db) (<[i := b]> (reachableDeps db)) (width db) (numTx db) (depsErr db).

Definition outOfRangeMsg : string := "index out of range".

Definition directAt (i : Z) : run TxBitset := db ← getS; orPanic outOfRangeMsg (directDeps db !! Z.to_nat i).
Definition reachableAt (i : Z) : run TxBitset := db ← getS; orPanic outOfRangeMsg (reachableDeps db !! Z.to_nat i).

(** [for _, rd := range readList]. *)
Fixpoint readLoop (index : Z) (readList : list ReadDescriptor) : run unit :=
  match readList with
  | [] => mret tt
  | rd :: rest =>
      db ← getS;
      _ ← (match lastWriter db !! rPath rd with
           | Some writer =>
               if writer <? index then
                 b ← directAt index;
                 b' ← orPanic outOfRangeMsg (Set_ b writer);
                 modify (set_direct (Z.to_nat index) b')
               else mret tt
           | None => mret tt
           end);
      readLoop index rest
  end.

(** [db.directDeps[index].ForEach(...)]: the closures of the direct dependencies. *)
Fixpoint closeLoop (index : Z) (js : list Z) : run unit :=
  match js with
  | [] => mret tt
  | j :: rest =>
      r ← reachableAt index;
      rj ← reachableAt j;
      r' ← orPanic outOfRangeMsg (Or r rj);
      _ ← modify (set_reachable (Z.to_nat index) r');
      closeLoop index rest
  end.

Definition AddTransaction (index : Z) (readList : list ReadDescriptor) (writeList : list WriteDescriptor) : run unit :=
  db ← getS;
  match depsErr db with
  | Some e => failS e
  | None =>
      if negb (index =? numTx db) then
        let e := errNonSequentialIndex index (numTx db) in
        _ ← modify (fun db => mkDeps (lastWriter db) (directDeps db) (reachableDeps db) (width db) (numTx db) (Some e));
        failS e
      else
        _ ← (if width db <=? index then modify (ensureCapacity index) else mret tt);
        _ ← modify (fun db => mkDeps (lastWriter db) (directDeps db ++ [newTxBitset (width db)])
                                (reachableDeps db ++ [newTxBitset (width db)]) (width db) (index + 1) (depsErr db));
        _ ← readLoop index readList;
        d ← directAt index;
        _ ← closeLoop index (ForEach d);
        d ← directAt index;
        r ← reachableAt index;
        d' ← orPanic outOfRangeMsg (AndNot d r);
        _ ← modify (set_direct (Z.to_nat index) d');
        r ← reachableAt index;
        r' ← orPanic outOfRangeMsg (Or r d');
        _ ← modify (set_reachable (Z.to_nat index) r');
        modify (fun db => mkDeps (fold_left (fun m wd => <[wPath wd := index]> m) writeList (lastWriter db))
                            (directDeps db) (reachableDeps db) (width db) (numTx db) (depsErr db))
  end.

(** [GetDeps]: the map of the indices of each bitset, nil after an error. *)
Definition innerDeps (b : TxBitset) : gset Z := fold_left (fun m j => {[j]} ∪ m) (ForEach b) ∅.

Fixpoint getLoop (idxs : list nat) (result : gmap Z (gset Z)) : run (gmap Z (gset Z)) :=
  match idxs with
  | [] => mret result
  | i :: rest => b ← directAt (Z.of_nat i); getLoop rest (<[Z.of_nat i := innerDeps b]> result)
  end.

Definition GetDeps : run (option (gmap Z (gset Z))) :=
  db ← getS;
  match depsErr db with
  | Some _ => mret None
  | None => m ← getLoop (seq 0 (Z.to_nat (numTx db))) ∅; mret (Some m)
  end.

(** The loop of the first executor: every transaction with its index; the results are
    ignored. *)
Abbreviation TxReadWriteSet := (list ReadDescriptor * list WriteDescriptor)%type (only parsing).

Fixpoint addAll (i : Z) (txs : list TxReadWriteSet) : run unit :=
  match txs with
  | [] => mret tt
  | (rs, ws) :: rest => fun s => match AddTransaction i rs ws s with
                                 | Done s' _ | Fail s' _ => addAll (i + 1) rest s'
                                 | Panicked w => Panicked w
                                 end
  end.

End Deps.
