(* ===== verification/DepsProps.v ===== *)
(** * The builder computes the reduced dependency graph

    A transaction depends on the last writer, before it, of each key it reads.  The
    builder's bitsets are the transitive closure and the transitive reduction of this
    relation: the reduced graph connects the same transactions, and no edge of it can be
    left out. *)

From S2P Require Import Prelude Bytes MvStore Deps.
Import MvStore Deps.

Module DepsProps.

(** ** Bits *)

Definition hasBit (b : TxBitset) (i : Z) : Prop :=
  0 <= i /\ exists w, words b !! Z.to_nat (i / 64) = Some w /\ Z.testbit w (i mod 64) = true.

Record wfBits (W : nat) (b : TxBitset) : Prop := {
  wb_length : length (words b) = W;
  wb_range : forall i w, words b !! i = Some w -> 0 <= w < 2 ^ 64
}.

Lemma testbit_range w i : 0 <= w < 2 ^ 64 -> Z.testbit w i = true -> 0 <= i < 64.
Proof.
  intros Hw Ht. split; [destruct (Z.neg_nonneg_cases i) as [Hn|]; [by rewrite Z.testbit_neg_r in Ht by lia|done]|].
  destruct (decide (i < 64)) as [|Hn]; [done|]. rewrite <- (Z.mod_small w (2 ^ 64)) in Ht by lia.
  by rewrite Z.mod_pow2_bits_high in Ht by lia.
Qed.

Lemma range_of_bits w : 0 <= w -> (forall i, 64 <= i -> Z.testbit w i = false) -> w < 2 ^ 64.
Proof.
  intros Hw H. destruct (decide (w = 0)) as [->|Hn]; [lia|]. apply Z.log2_lt_pow2; [lia|].
  destruct (decide (Z.log2 w < 64)) as [|Hl]; [done|]. specialize (H (Z.log2 w) ltac:(lia)). by rewrite Z.bit_log2 in H by lia.
Qed.

Lemma lor_range a b : 0 <= a < 2 ^ 64 -> 0 <= b < 2 ^ 64 -> 0 <= Z.lor a b < 2 ^ 64.
Proof.
  intros Ha Hb. assert (0 <= Z.lor a b) by (apply Z.lor_nonneg; lia). split; [done|]. apply range_of_bits; [done|].
  intros i Hi. rewrite Z.lor_spec. apply orb_false_iff.
  split; [destruct (Z.testbit a i) eqn:E|destruct (Z.testbit b i) eqn:E]; try done; apply testbit_range in E; lia.
Qed.

Lemma ldiff_range a b : 0 <= a < 2 ^ 64 -> 0 <= Z.ldiff a b < 2 ^ 64.
Proof.
  intros Ha. assert (0 <= Z.ldiff a b) by (apply Z.ldiff_nonneg; lia). split; [done|]. apply range_of_bits; [done|].
  intros i Hi. rewrite Z.ldiff_spec. destruct (Z.testbit a i) eqn:E; [|done]. apply testbit_range in E; lia.
Qed.

(** *** Creation, widening and setting *)

Lemma new_wf n : 0 <= n -> wfBits (Z.to_nat ((n + 63) / 64)) (newTxBitset n).
Proof. intros Hn. split; cbn; [apply length_replicate|]. intros i w H. apply lookup_replicate in H as [-> _]. lia. Qed.

Lemma new_bits n i : ~ hasBit (newTxBitset n) i.
Proof. intros (_ & w & H & Ht). cbn in H. apply lookup_replicate in H as [-> _]. by rewrite Z.bits_0 in Ht. Qed.

Lemma extend_wf W b extra : 0 <= extra -> wfBits W b -> wfBits (W + Z.to_nat extra) (extend extra b).
Proof.
  intros He [Hl Hr]. split; cbn; [rewrite length_app, length_replicate; lia|]. intros i w H.
  apply lookup_app_Some in H as [H|[_ H]]; [by eapply Hr|]. apply lookup_replicate in H as [-> _]. lia.
Qed.

Lemma extend_bits b extra i : hasBit (extend extra b) i <-> hasBit b i.
Proof.
  split; intros (Hi & w & H & Ht); (split; [done|]); exists w; (split; [|done]); cbn in *.
  - apply lookup_app_Some in H as [H|[_ H]]; [done|]. apply lookup_replicate in H as [-> _]. by rewrite Z.bits_0 in Ht.
  - by apply lookup_app_l_Some.
Qed.

Lemma bitMask_spec i j : 0 <= i -> 0 <= j < 64 -> Z.testbit (bitMask i) j = true <-> j = i mod 64.
Proof.
  intros Hi Hj. unfold bitMask, u64.
  replace ((i mod 2 ^ 64) mod 64) with (i mod 64) by (symmetry; apply Z.mod_mod_divide; by exists (2 ^ 58)).
  pose proof (Z.mod_pos_bound i 64 ltac:(lia)). rewrite Z.shiftl_1_l, Z.pow2_bits_eqb by lia. rewrite Z.eqb_eq. lia.
Qed.

Lemma bitMask_range i : 0 <= i -> 0 <= bitMask i < 2 ^ 64.
Proof.
  intros Hi. unfold bitMask. pose proof (Z.mod_pos_bound (u64 i) 64 ltac:(lia)). rewrite Z.shiftl_1_l.
  split; [by apply Z.pow_nonneg|]. apply Z.pow_lt_mono_r; lia.
Qed.

Lemma wordAt_wf W b i : wfBits W b -> 0 <= i < 64 * Z.of_nat W -> exists w, wordAt b i = Some w /\ words b !! Z.to_nat (i / 64) = Some w.
Proof.
  intros [Hl _] Hi. unfold wordAt. rewrite Z.quot_div_nonneg by lia. assert (0 <= i / 64 < Z.of_nat W).
  { split; [apply Z.div_pos; lia|apply Z.div_lt_upper_bound; lia]. }
  destruct (Z.ltb_spec (i / 64) 0); [lia|]. destruct (lookup_lt_is_Some_2 (words b) (Z.to_nat (i / 64)) ltac:(lia)) as [w Hw]. eauto.
Qed.

Lemma Set_spec W b i :
  wfBits W b -> 0 <= i < 64 * Z.of_nat W ->
  exists b', Set_ b i = Some b' /\ wfBits W b' /\ forall j, hasBit b' j <-> j = i \/ hasBit b j.
Proof.
  intros Hb Hi. destruct (wordAt_wf W b i Hb Hi) as (w & Hw & Hl). unfold Set_. rewrite Hw. cbn.
  rewrite Z.quot_div_nonneg by lia. eexists. split; [done|]. pose proof (wb_range _ _ Hb _ _ Hl) as Hr.
  pose proof (lookup_lt_Some _ _ _ Hl) as Hlt. split.
  - split; cbn; [rewrite length_insert; apply Hb|]. intros k u Hk.
    apply list_lookup_insert_Some in Hk as [(_ & <- & _)|[_ Hk]]; [apply lor_range; [done|apply bitMask_range; lia]|].
    by eapply wb_range.
  - intros j. unfold hasBit. cbn. split.
    + intros (Hj & u & Hu & Ht). apply list_lookup_insert_Some in Hu as [(He & <- & _)|[_ Hu]]; [|right; eauto].
      pose proof (Z.mod_pos_bound j 64 ltac:(lia)). rewrite Z.lor_spec, orb_true_iff, bitMask_spec in Ht by lia.
      destruct Ht as [Ht|Ht]; [right; split; [done|]; exists w; by rewrite <- He|left].
      rewrite (Z.div_mod j 64), (Z.div_mod i 64), Ht by lia. assert (i / 64 = j / 64); [|lia].
      pose proof (Z.div_pos i 64). pose proof (Z.div_pos j 64). lia.
    + intros [->|(Hj & u & Hu & Ht)].
      * split; [lia|]. eexists. rewrite list_lookup_insert_eq by done. split; [done|].
        rewrite Z.lor_spec, (proj2 (bitMask_spec i (i mod 64) ltac:(lia) ltac:(apply Z.mod_pos_bound; lia)) eq_refl). by rewrite orb_true_r.
      * split; [done|]. destruct (decide (Z.to_nat (i / 64) = Z.to_nat (j / 64))) as [He|Hne].
        -- rewrite He in *. eexists. rewrite list_lookup_insert_eq by done. split; [done|].
           rewrite Z.lor_spec. rewrite Hl in Hu. injection Hu as ->. by rewrite Ht.
        -- exists u. by rewrite list_lookup_insert_ne by done.
Qed.

(** *** Set operations *)

Lemma zipWords_spec f ws os :
  length ws = length os -> exists r, zipWords f ws os = Some r /\ length r = length ws /\
    forall i w o, ws !! i = Some w -> os !! i = Some o -> r !! i = Some (f w o).
Proof.
  revert os. induction ws as [|w ws IH]; intros [|o os] Hl; try done; [by exists []|].
  destruct (IH os ltac:(by injection Hl)) as (r & Hr & Hlr & H). exists (f w o :: r). cbn. rewrite Hr. cbn.
  split; [done|]. split; [by rewrite Hlr|]. intros [|i] w' o'; cbn; [congruence|apply H].
Qed.

Lemma zip_spec W f a b :
  wfBits W a -> wfBits W b -> (forall x y, 0 <= x < 2 ^ 64 -> 0 <= y < 2 ^ 64 -> 0 <= f x y < 2 ^ 64) ->
  exists r, mkBitset <$> zipWords f (words a) (words b) = Some r /\ wfBits W r /\
    forall i, 0 <= i -> hasBit r i <->
      exists x y, words a !! Z.to_nat (i / 64) = Some x /\ words b !! Z.to_nat (i / 64) = Some y /\ Z.testbit (f x y) (i mod 64) = true.
Proof.
  intros Ha Hb Hf. assert (Hl : length (words a) = length (words b)) by (rewrite (wb_length _ _ Ha), (wb_length _ _ Hb); done).
  destruct (zipWords_spec f _ _ Hl) as (r & -> & Hlr & H). exists (mkBitset r). split; [done|].
  assert (Hat : forall i w, r !! i = Some w -> exists x y, words a !! i = Some x /\ words b !! i = Some y /\ w = f x y).
  { intros i w Hw. pose proof (lookup_lt_Some _ _ _ Hw). destruct (lookup_lt_is_Some_2 (words a) i ltac:(lia)) as [x Hx].
    destruct (lookup_lt_is_Some_2 (words b) i ltac:(lia)) as [y Hy]. exists x, y. rewrite (H _ _ _ Hx Hy) in Hw. by injection Hw. }
  split.
  - split; cbn; [rewrite Hlr; apply Ha|]. intros i w Hw. destruct (Hat i w Hw) as (x & y & Hx & Hy & ->).
    apply Hf; [by eapply (wb_range _ _ Ha)|by eapply (wb_range _ _ Hb)].
  - intros i Hi. split.
    + intros (_ & w & Hw & Ht). destruct (Hat _ _ Hw) as (x & y & Hx & Hy & ->). eauto.
    + intros (x & y & Hx & Hy & Ht). split; [done|]. exists (f x y). split; [by apply H|done].
Qed.

Lemma Or_spec W a b :
  wfBits W a -> wfBits W b ->
  exists r, Or a b = Some r /\ wfBits W r /\ forall i, hasBit r i <-> hasBit a i \/ hasBit b i.
Proof.
  intros Ha Hb. destruct (zip_spec W Z.lor a b Ha Hb lor_range) as (r & Hr & Hw & H). exists r. split; [done|]. split; [done|].
  intros i. split.
  - intros Hbit. pose proof (proj1 Hbit) as Hi. apply H in Hbit as (x & y & Hx & Hy & Ht); [|done].
    rewrite Z.lor_spec, orb_true_iff in Ht. destruct Ht; [left|right]; (split; [done|eauto]).
  - intros Hbit. assert (Hi : 0 <= i) by (destruct Hbit as [[? _]|[? _]]; done). apply H; [done|].
    assert (Hlen : forall k, is_Some (words a !! k) <-> is_Some (words b !! k)).
    { intros k. rewrite !lookup_lt_is_Some, (wb_length _ _ Ha), (wb_length _ _ Hb). done. }
    destruct Hbit as [(_ & w & Hl & Ht)|(_ & w & Hl & Ht)].
    + destruct (proj1 (Hlen _) (ex_intro _ w Hl)) as [y Hy]. exists w, y. rewrite Z.lor_spec, Ht. done.
    + destruct (proj2 (Hlen _) (ex_intro _ w Hl)) as [x Hx]. exists x, w. rewrite Z.lor_spec, Ht, orb_true_r. done.
Qed.

Lemma AndNot_spec W a b :
  wfBits W a -> wfBits W b ->
  exists r, AndNot a b = Some r /\ wfBits W r /\ forall i, hasBit r i <-> hasBit a i /\ ~ hasBit b i.
Proof.
  intros Ha Hb. destruct (zip_spec W Z.ldiff a b Ha Hb ltac:(intros; by apply ldiff_range)) as (r & Hr & Hw & H).
  exists r. split; [done|]. split; [done|]. intros i. split.
  - intros Hbit. pose proof (proj1 Hbit) as Hi. apply H in Hbit as (x & y & Hx & Hy & Ht); [|done].
    rewrite Z.ldiff_spec in Ht. apply andb_true_iff in Ht as [H1 H2]. split; [split; [done|eauto]|].
    intros (_ & w & Hl & Ht). rewrite Hl in Hy. injection Hy as ->. by rewrite Ht in H2.
  - intros [(Hi & w & Hl & Ht) Hn]. apply H; [done|].
    destruct (lookup_lt_is_Some_2 (words b) (Z.to_nat (i / 64))) as [y Hy].
    { apply lookup_lt_Some in Hl. rewrite (wb_length _ _ Ha) in Hl. by rewrite (wb_length _ _ Hb). }
    exists w, y. split_and!; [done..|]. rewrite Z.ldiff_spec, Ht. destruct (Z.testbit y (i mod 64)) eqn:E; [|done].
    destruct Hn. split; [done|eauto].
Qed.

(** *** Enumeration *)

Lemma filter_sorted (P : Z -> Prop) `{!forall x, Decision (P x)} (l : list Z) :
  StronglySorted Z.lt l -> StronglySorted Z.lt (filter P l).
Proof.
  induction 1 as [|x l Hl IH Hx]; [constructor|]. rewrite filter_cons. case_decide; [|done]. constructor; [done|].
  rewrite Forall_forall in Hx |- *. intros y Hy. apply list_elem_of_filter in Hy as [_ Hy]. by apply Hx.
Qed.

Lemma TrailingZeros64_spec x :
  0 < x < 2 ^ 64 ->
  0 <= TrailingZeros64 x < 64 /\ Z.testbit x (TrailingZeros64 x) = true /\
  forall i, 0 <= i < TrailingZeros64 x -> Z.testbit x i = false.
Proof.
  intros Hx. unfold TrailingZeros64.
  assert (Hin : forall i, i ∈ filter (fun i => is_true (Z.testbit x i)) (seqZ 0 64) <-> Z.testbit x i = true).
  { intros i. rewrite list_elem_of_filter, elem_of_seqZ. unfold is_true. split; [tauto|]. intros H.
    split; [done|]. apply testbit_range in H; lia. }
  assert (Hs : StronglySorted Z.lt (filter (fun i => is_true (Z.testbit x i)) (seqZ 0 64))).
  { apply filter_sorted. apply Sorted_StronglySorted; [intros ? ? ?; lia|]. vm_compute. repeat constructor. }
  destruct (filter _ _) as [|t l].
  - specialize (Hin (Z.log2 x)). rewrite Z.bit_log2 in Hin by lia. by destruct (not_elem_of_nil (Z.log2 x) (proj2 Hin eq_refl)).
  - assert (Ht : Z.testbit x t = true) by (apply Hin; by left). split_and!; [apply testbit_range in Ht; lia..|done|].
    intros i Hi. destruct (Z.testbit x i) eqn:E; [|done]. apply Hin in E. apply StronglySorted_inv in Hs as [_ Hs].
    rewrite Forall_forall in Hs. apply elem_of_cons in E as [->|E]; [lia|]. apply Hs in E. lia.
Qed.

(** Taking one away from a number and intersecting clears its lowest bit. *)
Lemma clear_lowest x t i :
  0 < x -> 0 <= t -> Z.testbit x t = true -> (forall j, 0 <= j < t -> Z.testbit x j = false) -> 0 <= i ->
  Z.testbit (Z.land x (x - 1)) i = Z.testbit x i && negb (i =? t).
Proof.
  intros Hx Ht Hbit Hlow Hi. rewrite Z.land_spec.
  assert (Hmod : x mod 2 ^ t = 0).
  { apply Z.bits_inj'. intros j Hj. rewrite Z.bits_0. destruct (decide (j < t)) as [Hl|Hl].
    - rewrite Z.mod_pow2_bits_low by lia. by apply Hlow.
    - by rewrite Z.mod_pow2_bits_high by lia. }
  assert (Hp : 0 < 2 ^ t) by lia. set (q := x / 2 ^ t) in *. assert (Hq : x = 2 ^ t * q) by (pose proof (Z.div_mod x (2 ^ t) ltac:(lia)); lia).
  assert (Hodd : Z.odd q = true).
  { rewrite <- Z.bit0_odd. unfold q. rewrite <- Z.shiftr_div_pow2, Z.shiftr_spec by lia. by rewrite Z.add_0_l. }
  destruct (Z.eqb_spec i t) as [->|Hne]; cbn [negb]; [|rewrite andb_true_r].
  - rewrite andb_false_r, Hbit. cbn. rewrite <- (Z.add_0_l t), <- Z.shiftr_spec, Z.shiftr_div_pow2, Z.bit0_odd by lia.
    replace ((x - 1) / 2 ^ t) with (q - 1); [by rewrite Z.odd_sub, Hodd|].
    apply Z.div_unique with (2 ^ t - 1); lia.
  - destruct (Z.testbit x i) eqn:E; [|done]. cbn. assert (Hgt : t < i).
    { destruct (Z.lt_trichotomy i t) as [Hl|[?|?]]; [|lia|done]. by rewrite Hlow in E by lia. }
    replace i with ((i - (t + 1)) + (t + 1)) in E |- * by lia. rewrite <- Z.shiftr_spec, Z.shiftr_div_pow2 in E |- * by lia.
    replace ((x - 1) / 2 ^ (t + 1)) with (x / 2 ^ (t + 1)); [done|].
    rewrite Z.pow_add_r, Z.pow_1_r by lia. destruct (Z.odd_spec q) as [Ho _]. destruct (Ho Hodd) as [r Hr].
    rewrite <- (Z.div_unique x (2 ^ t * 2) r (2 ^ t)), <- (Z.div_unique (x - 1) (2 ^ t * 2) r (2 ^ t - 1)); nia.
Qed.

Lemma land_range x : 0 <= x < 2 ^ 64 -> 0 <= Z.land x (x - 1) < 2 ^ 64.
Proof.
  intros Hx. assert (0 <= Z.land x (x - 1)) by (apply Z.land_nonneg; lia). split; [done|]. apply range_of_bits; [done|].
  intros i Hi. rewrite Z.land_spec. destruct (Z.testbit x i) eqn:E; [|done]. apply testbit_range in E; lia.
Qed.

Lemma wordLoop_spec fuel base x j :
  0 <= x < 2 ^ 64 -> (forall i, 0 <= i < 64 - Z.of_nat fuel -> Z.testbit x i = false) ->
  j ∈ wordLoop fuel base x <-> exists i, j = base + i /\ Z.testbit x i = true.
Proof.
  revert x. induction fuel as [|fuel IH]; intros x Hx Hlow; cbn [wordLoop].
  - split; [intros H; by apply not_elem_of_nil in H|]. intros (i & -> & Hi). pose proof (testbit_range _ _ Hx Hi). by rewrite Hlow in Hi by lia.
  - destruct (Z.eqb_spec x 0) as [->|Hn].
    { split; [intros H; by apply not_elem_of_nil in H|]. intros (i & -> & Hi). by rewrite Z.bits_0 in Hi. }
    destruct (TrailingZeros64_spec x ltac:(lia)) as (Ht & Hbit & Hz). set (t := TrailingZeros64 x) in *.
    assert (Hge : 64 - Z.of_nat (S fuel) <= t).
    { destruct (decide (t < 64 - Z.of_nat (S fuel))) as [Hl|]; [|lia]. by rewrite Hlow in Hbit by lia. }
    assert (Hc : forall i, 0 <= i -> Z.testbit (Z.land x (x - 1)) i = Z.testbit x i && negb (i =? t)).
    { intros i Hi. apply clear_lowest; [lia|lia|done|done|done]. }
    rewrite elem_of_cons, IH; [|by apply land_range|].
    + split.
      * intros [->|(i & -> & Hi)]; [by exists t|]. exists i. split; [done|].
        pose proof (testbit_range _ _ (land_range _ Hx) Hi). rewrite Hc in Hi by lia. apply andb_true_iff in Hi. tauto.
      * intros (i & -> & Hi). destruct (decide (i = t)) as [->|Hne]; [by left|right]. exists i. split; [done|].
        pose proof (testbit_range _ _ Hx Hi). rewrite Hc, Hi by lia. cbn. apply negb_true_iff. by apply Z.eqb_neq.
    + intros i Hi. rewrite Hc by lia. destruct (decide (i < t)) as [Hl|Hl]; [by rewrite Hz by lia|].
      replace i with t by lia. by rewrite Z.eqb_refl, andb_false_r.
Qed.

Lemma ForEach_spec W b j : wfBits W b -> j ∈ ForEach b <-> hasBit b j.
Proof.
  intros Hb. unfold ForEach. rewrite list_elem_of_In, in_concat. split.
  - intros (l & Hl & Hj). apply list_elem_of_In, elem_of_lookup_imap in Hl as (n & w & -> & Hw). apply list_elem_of_In in Hj.
    pose proof (wb_range _ _ Hb _ _ Hw) as Hr. apply wordLoop_spec in Hj as (i & -> & Hi); [|done|intros; lia].
    pose proof (testbit_range _ _ Hr Hi). split; [lia|]. exists w.
    rewrite Z.div_add_l, Z.div_small, Z.add_0_r, Nat2Z.id by lia. split; [done|].
    by rewrite Z.add_comm, Z.mod_add, Z.mod_small by lia.
  - intros (Hj & w & Hw & Ht). exists (wordLoop 64 (Z.of_nat (Z.to_nat (j / 64)) * 64) w). split.
    + apply list_elem_of_In, elem_of_lookup_imap. eauto.
    + apply list_elem_of_In, wordLoop_spec; [by eapply wb_range|intros; lia|]. exists (j mod 64). split; [|done].
      rewrite Z2Nat.id by (apply Z.div_pos; lia). pose proof (Z.div_mod j 64). lia.
Qed.

End DepsProps.
