(* ===== verification/DepsGraph.v ===== *)
(** * The graph the builder keeps

    The relation a block's reads and writes define, its transitive closure and its
    reduction, and the theorem that adding the transactions one by one computes them. *)

From S2P Require Import Prelude Bytes MvStore Deps DepsProps.
Import MvStore Deps DepsProps.

Module DepsGraph.

(** ** Relations that go down *)

Lemma tc_sub (R R' : Z -> Z -> Prop) i j : (forall a b, R a b -> R' a b) -> tc R i j -> tc R' i j.
Proof. intros H. induction 1 as [i j Hd|i m j Hd _ IH]; [by apply tc_once, H|eapply tc_l; [by apply H|done]]. Qed.

Section reduction.
Context (dep : Z -> Z -> Prop) (Hdown : forall i j, dep i j -> j < i).

(** The dependencies that no other dependency brings along. *)
Definition reduced (i j : Z) : Prop := dep i j /\ ~ exists m, dep i m /\ tc dep m j.

Lemma tc_down i j : tc dep i j -> j < i.
Proof. induction 1 as [i j H|i m j H _ IH]; apply Hdown in H; lia. Qed.

Lemma tc_split i j : tc dep i j <-> dep i j \/ exists m, dep i m /\ tc dep m j.
Proof.
  split.
  - inversion 1; subst; eauto.
  - intros [H|(m & H1 & H2)]; [by apply tc_once|by eapply tc_l].
Qed.

Context (Hdec : forall i j, (exists m, dep i m /\ tc dep m j) \/ ~ (exists m, dep i m /\ tc dep m j)).

Lemma reduced_closure i j : tc dep i j <-> tc reduced i j.
Proof.
  split.
  - remember (Z.to_nat (i - j)) as n eqn:En. revert i j En. induction n as [n IH] using lt_wf_ind. intros i j -> H.
    pose proof (tc_down _ _ H) as Hij. destruct (Hdec i j) as [(m & H1 & H2)|Hn].
    + pose proof (Hdown _ _ H1). pose proof (tc_down _ _ H2). etrans; [eapply IH; [|reflexivity|by apply tc_once]; lia|].
      eapply IH; [|reflexivity|done]. lia.
    + apply tc_split in H as [H|H]; [|done]. by apply tc_once.
  - induction 1 as [i j [H _]|i m j [H _] _ IH]; [by apply tc_once|by eapply tc_l].
Qed.

(** Without one of its edges the reduced graph no longer connects its ends. *)
Lemma reduced_minimal i j : reduced i j -> ~ tc (fun a b => reduced a b /\ (a, b) <> (i, j)) i j.
Proof.
  intros [H Hn] Ht.
  assert (Hsub : forall a b, tc (fun a b => reduced a b /\ (a, b) <> (i, j)) a b -> tc dep a b).
  { intros a b. induction 1 as [a b [[Hd _] _]|a m b [[Hd _] _] _ IH]; [by apply tc_once|by eapply tc_l]. }
  inversion Ht as [? ? [_ Hne]|? m ? [[Hd _] _] Hm]; subst; [done|]. apply Hn. eauto.
Qed.

End reduction.

(** ** The dependencies of a block *)

Definition writesKey (txs : list TxReadWriteSet) (j : Z) (k : Key) : Prop :=
  0 <= j /\ exists rs ws, txs !! Z.to_nat j = Some (rs, ws) /\ k ∈ map wPath ws.

(** [j] is the last transaction below [i] that writes [k]. *)
Definition lastWriterOf (txs : list TxReadWriteSet) (i : Z) (k : Key) (j : Z) : Prop :=
  writesKey txs j k /\ j < i /\ forall j', j < j' < i -> ~ writesKey txs j' k.

Definition dependsOn (txs : list TxReadWriteSet) (i j : Z) : Prop :=
  0 <= i /\ exists rs ws k, txs !! Z.to_nat i = Some (rs, ws) /\ k ∈ map rPath rs /\ lastWriterOf txs i k j.

Lemma dependsOn_down txs i j : dependsOn txs i j -> 0 <= j < i.
Proof. intros (_ & rs & ws & k & _ & _ & [[Hj _] [Hlt _]]). lia. Qed.

Section builder.
Context (txs : list TxReadWriteSet).

Abbreviation dep := (dependsOn txs).

Definition wordsFor (w : Z) : nat := Z.to_nat ((w + 63) / 64).

Record Binv (n : nat) (db : DepsBuilder) : Prop := {
  b_err : depsErr db = None;
  b_num : numTx db = Z.of_nat n;
  b_width : 0 < width db;
  b_direct : length (directDeps db) = n;
  b_reach : length (reachableDeps db) = n;
  b_last : forall k j, lastWriter db !! k = Some j <-> lastWriterOf txs (Z.of_nat n) k j;
  b_bits : forall i, (i < n)%nat ->
    exists d r, directDeps db !! i = Some d /\ reachableDeps db !! i = Some r /\
      wfBits (wordsFor (width db)) d /\ wfBits (wordsFor (width db)) r /\
      (forall j, hasBit d j <-> reduced dep (Z.of_nat i) j) /\
      (forall j, hasBit r j <-> tc dep (Z.of_nat i) j);
  b_dec : forall i, (i < n)%nat -> forall j, (exists m, dep (Z.of_nat i) m /\ tc dep m j) \/ ~ (exists m, dep (Z.of_nat i) m /\ tc dep m j)
}.

Lemma Binv_start : Binv 0 NewDepsBuilder.
Proof.
  split; cbn; try done.
  - intros k j. rewrite lookup_empty. split; [done|]. intros [[Hj _] [Hlt _]]. lia.
  - lia.
  - lia.
Qed.

(** *** Capacity *)

Lemma widen_spec fuel needed w : 0 < w -> needed < w + Z.of_nat fuel -> w <= widen fuel needed w /\ needed < widen fuel needed w.
Proof.
  revert w. induction fuel as [|fuel IH]; intros w Hw Hf; cbn [widen]; [lia|].
  destruct (Z.leb_spec w needed) as [Hle|Hgt]; [|lia]. destruct (IH (w * 2) ltac:(lia) ltac:(lia)). lia.
Qed.

Lemma ensureCapacity_inv n db needed :
  0 <= needed -> Binv n db -> Binv n (ensureCapacity needed db) /\ needed < width (ensureCapacity needed db).
Proof.
  intros Hne []. destruct (widen_spec (S (Z.to_nat needed)) needed (width db) ltac:(lia) ltac:(lia)) as [H1 H2].
  unfold ensureCapacity. set (w' := widen _ _ _) in *. clearbody w'. split; [|done].
  set (extra := (w' + 63) / 64 - (width db + 63) / 64).
  assert (Hmono : (width db + 63) / 64 <= (w' + 63) / 64) by (apply Z.div_le_mono; lia).
  assert (H0 : 0 <= (width db + 63) / 64) by (apply Z.div_pos; lia).
  split; cbn; try done; [lia|by case_if; rewrite ?length_map|by case_if; rewrite ?length_map|].
  intros i Hi. destruct (b_bits0 i Hi) as (d & r & Hd & Hr & Hwd & Hwr & Hbd & Hbr).
  assert (Hw : (if (width db + 63) / 64 <? (w' + 63) / 64 then (wordsFor (width db) + Z.to_nat extra)%nat else wordsFor (width db)) = wordsFor w').
  { unfold wordsFor, extra. destruct (Z.ltb_spec ((width db + 63) / 64) ((w' + 63) / 64)); lia. }
  destruct ((width db + 63) / 64 <? (w' + 63) / 64).
  - exists (extend extra d), (extend extra r). rewrite !list_lookup_fmap, Hd, Hr. rewrite <- Hw.
    split_and!; [done|done|apply extend_wf; [lia|done]..| |]; intros j; rewrite extend_bits; auto.
  - rewrite <- Hw. exists d, r. split_and!; done.
Qed.

(** *** The loops *)

Definition sameElse (db db' : DepsBuilder) : Prop :=
  lastWriter db' = lastWriter db /\ width db' = width db /\ numTx db' = numTx db /\ depsErr db' = depsErr db.

Lemma readLoop_spec n rs db d W :
  directDeps db !! n = Some d -> wfBits W d -> Z.of_nat n <= 64 * Z.of_nat W ->
  (forall k j, lastWriter db !! k = Some j -> 0 <= j < Z.of_nat n) ->
  exists db' d', readLoop (Z.of_nat n) rs db = Done db' tt /\ sameElse db db' /\
    reachableDeps db' = reachableDeps db /\ directDeps db' = <[n := d']> (directDeps db) /\ wfBits W d' /\
    forall j, hasBit d' j <-> hasBit d j \/ exists k, k ∈ map rPath rs /\ lastWriter db !! k = Some j.
Proof.
  intros Hd Hw Hn Hlast. revert db d Hd Hw Hlast. induction rs as [|rd rs IH]; intros db d Hd Hw Hlast; cbn [readLoop].
  - exists db, d. rewrite list_insert_id by done. split_and!; try done. intros j. split; [by left|].
    intros [H|(k & Hk & _)]; [done|by apply not_elem_of_nil in Hk].
  - assert (Hkey : forall k (j : Z), k ∈ map rPath (rd :: rs) /\ lastWriter db !! k = Some j <->
                     (k = rPath rd /\ lastWriter db !! rPath rd = Some j) \/ (k ∈ map rPath rs /\ lastWriter db !! k = Some j)).
    { intros k j. cbn. rewrite elem_of_cons. split; [intros [[->|?] ?]; auto|]. intros [[-> ?]|[? ?]]; auto. }
    unfold getS, mbind, st_bind. cbn [mret]. destruct (lastWriter db !! rPath rd) as [w|] eqn:El.
    + pose proof (Hlast _ _ El) as Hr. destruct (Z.ltb_spec w (Z.of_nat n)) as [_|]; [|lia].
      destruct (Set_spec W d w Hw ltac:(lia)) as (d1 & Hset & Hw1 & Hb1).
      unfold directAt, getS, mbind, st_bind, orPanic, modify. rewrite Nat2Z.id, Hd. cbn [mret st_ret]. rewrite Hset. cbn.
      pose proof (lookup_lt_Some _ _ _ Hd) as Hlt.
      destruct (IH (set_direct n d1 db) d1) as (db' & d' & He & (S1 & S2 & S3 & S4) & Hre & Hdi & Hw' & Hb'); [|done|done|].
      { cbn. by rewrite list_lookup_insert_eq. }
      exists db', d'. split_and!; try done; [rewrite Hdi; cbn; apply list_insert_insert_eq|].
      intros j. rewrite Hb', Hb1. cbn. split.
      * intros [[->|?]|(k & ? & ?)]; [right; exists (rPath rd); apply Hkey; auto|by left|right; exists k; apply Hkey; auto].
      * intros [?|(k & Hk)]; [auto|]. apply Hkey in Hk as [[-> Hk]|Hk]; [left; left; congruence|right; by exists k].
    + destruct (IH db d Hd Hw Hlast) as (db' & d' & He & HS & Hre & Hdi & Hw' & Hb'). exists db', d'. split_and!; try done.
      intros j. rewrite Hb'. split; [intros [?|(k & ? & ?)]; [by left|right; exists k; apply Hkey; auto]|].
      intros [?|(k & Hk)]; [by left|]. apply Hkey in Hk as [[-> Hk]|Hk]; [congruence|right; by exists k].
Qed.

Lemma closeLoop_spec n js db r W :
  reachableDeps db !! n = Some r -> wfBits W r ->
  (forall j, j ∈ js -> 0 <= j < Z.of_nat n /\ exists rj, reachableDeps db !! Z.to_nat j = Some rj /\ wfBits W rj) ->
  exists db' r', closeLoop (Z.of_nat n) js db = Done db' tt /\ sameElse db db' /\
    directDeps db' = directDeps db /\ reachableDeps db' = <[n := r']> (reachableDeps db) /\ wfBits W r' /\
    forall k, hasBit r' k <-> hasBit r k \/ exists j rj, j ∈ js /\ reachableDeps db !! Z.to_nat j = Some rj /\ hasBit rj k.
Proof.
  revert db r. induction js as [|j js IH]; intros db r Hr Hw Hjs; cbn [closeLoop].
  - exists db, r. rewrite list_insert_id by done. split_and!; try done. intros k. split; [by left|].
    intros [H|(j & rj & Hj & _)]; [done|by apply not_elem_of_nil in Hj].
  - destruct (Hjs j ltac:(by left)) as (Hj & rj & Hrj & Hwj). destruct (Or_spec W r rj Hw Hwj) as (r1 & Hor & Hw1 & Hb1).
    unfold reachableAt, getS, mbind, st_bind, orPanic, modify. rewrite Nat2Z.id, Hr. cbn [mret st_ret]. rewrite Hrj. cbn [mret st_ret]. rewrite Hor. cbn.
    pose proof (lookup_lt_Some _ _ _ Hr) as Hlt.
    assert (Hsame : forall j', 0 <= j' < Z.of_nat n -> <[n := r1]> (reachableDeps db) !! Z.to_nat j' = reachableDeps db !! Z.to_nat j').
    { intros j' Hj'. apply list_lookup_insert_ne. lia. }
    destruct (IH (set_reachable n r1 db) r1) as (db' & r' & He & (S1 & S2 & S3 & S4) & Hdi & Hre & Hw' & Hb').
    { cbn. by rewrite list_lookup_insert_eq. } { done. }
    { intros j' Hin. destruct (Hjs j' ltac:(by right)) as [H1 H2]. split; [done|]. cbn. by rewrite Hsame. }
    exists db', r'. split_and!; try done; [rewrite Hre; cbn; apply list_insert_insert_eq|].
    intros k. rewrite Hb', Hb1. cbn. split.
    + intros [[?|?]|(j' & rj' & Hin & Hl & ?)]; [by left|right; exists j, rj; split; [by left|done]|].
      destruct (Hjs j' ltac:(by right)) as [Hj' _]. rewrite Hsame in Hl by done. right. exists j', rj'. split; [by right|done].
    + intros [?|(j' & rj' & Hin & Hl & ?)]; [by left; left|]. apply elem_of_cons in Hin as [->|Hin].
      * left. right. rewrite Hrj in Hl. by injection Hl as ->.
      * destruct (Hjs j' ltac:(by right)) as [Hj' _]. right. exists j', rj'. by rewrite Hsame.
Qed.

(** *** Adding a transaction *)

Lemma bind_modify {S E B} (f : S -> S) (k : unit -> st S E B) s : (modify f ≫= k) s = k tt (f s).
Proof. done. Qed.

Lemma last_step n rs ws k j :
  txs !! n = Some (rs, ws) ->
  lastWriterOf txs (Z.of_nat (S n)) k j <->
  (k ∈ map wPath ws /\ j = Z.of_nat n) \/ ((k ∉ map wPath ws) /\ lastWriterOf txs (Z.of_nat n) k j).
Proof.
  intros Hn.
  assert (Hw : writesKey txs (Z.of_nat n) k <-> k ∈ map wPath ws).
  { unfold writesKey. rewrite Nat2Z.id, Hn. split; [intros (_ & rs' & ws' & [= <- <-] & H); done|]. intros H. split; [lia|eauto]. }
  split.
  - intros (H1 & H2 & H3). destruct (decide (j = Z.of_nat n)) as [->|Hne]; [left; split; [by apply Hw|done]|right].
    split; [intros Hk; apply Hw in Hk; apply (H3 (Z.of_nat n)); [lia|done]|]. split_and!; [done|lia|]. intros j' Hj'. apply H3. lia.
  - intros [[Hk ->]|[Hk (H1 & H2 & H3)]]; [split_and!; [by apply Hw|lia|intros; lia]|]. split_and!; [done|lia|].
    intros j' Hj'. destruct (decide (j' = Z.of_nat n)) as [->|]; [by rewrite Hw|apply H3; lia].
Qed.

Lemma lastWriter_fold (idx : Z) ws (m : gmap Key Z) k j :
  fold_left (fun m wd => <[wPath wd := idx]> m) ws m !! k = Some j <->
  (k ∈ map wPath ws /\ j = idx) \/ ((k ∉ map wPath ws) /\ m !! k = Some j).
Proof.
  revert m. induction ws as [|w ws IH]; intros m; cbn [fold_left map].
  - split; [intros H; right; split; [by apply not_elem_of_nil|done]|]. intros [[H _]|[_ H]]; [by apply not_elem_of_nil in H|done].
  - rewrite IH, elem_of_cons. destruct (decide (k = wPath w)) as [->|Hne].
    + rewrite lookup_insert_eq. destruct (decide (wPath w ∈ map wPath ws)); naive_solver.
    + rewrite lookup_insert_ne by done. naive_solver.
Qed.

#[local] Instance hasBit_dec b i : Decision (hasBit b i).
Proof.
  unfold hasBit. destruct (words b !! Z.to_nat (i / 64)) as [w|] eqn:E.
  - destruct (decide (0 <= i /\ Z.testbit w (i mod 64) = true)) as [[H1 H2]|H]; [left; eauto|right].
    intros (H1 & w' & [= <-] & H2). by destruct H.
  - right. by intros (_ & w & ? & _).
Defined.

Lemma dep_new n rs ws db j :
  Binv n db -> txs !! n = Some (rs, ws) ->
  dep (Z.of_nat n) j <-> exists k, k ∈ map rPath rs /\ lastWriter db !! k = Some j.
Proof.
  intros Hb Hn. unfold dependsOn. rewrite Nat2Z.id, Hn. split.
  - intros (_ & rs' & ws' & k & [= <- <-] & Hk & Hl). exists k. split; [done|]. by apply Hb.
  - intros (k & Hk & Hl). split; [lia|]. exists rs, ws, k. split_and!; [done|done|]. by apply Hb.
Qed.

Lemma width_words w : 0 < w -> w <= 64 * Z.of_nat (wordsFor w).
Proof.
  intros Hw. unfold wordsFor. pose proof (Z.div_pos (w + 63) 64 ltac:(lia) ltac:(lia)). rewrite Z2Nat.id by lia.
  pose proof (Z.div_mod (w + 63) 64 ltac:(lia)). pose proof (Z.mod_pos_bound (w + 63) 64 ltac:(lia)). lia.
Qed.

(** The bitsets of transaction [n], computed from the direct dependencies [d]. *)
Lemma reduce_bits n W (d r1 d' r' : TxBitset) :
  (forall j, hasBit d j <-> dep (Z.of_nat n) j) ->
  (forall k, hasBit r1 k <-> exists j, dep (Z.of_nat n) j /\ tc dep j k) ->
  (forall j, hasBit d' j <-> hasBit d j /\ ~ hasBit r1 j) -> (forall j, hasBit r' j <-> hasBit r1 j \/ hasBit d' j) ->
  wfBits W d' ->
  (forall j, hasBit d' j <-> reduced dep (Z.of_nat n) j) /\ (forall j, hasBit r' j <-> tc dep (Z.of_nat n) j).
Proof.
  intros Hd Hr1 Hd' Hr' _. assert (Hred : forall j, hasBit d' j <-> reduced dep (Z.of_nat n) j).
  { intros j. rewrite Hd', Hd, Hr1. done. }
  split; [done|]. intros j. rewrite Hr', tc_split. split.
  - intros [H|H]; [right; by apply Hr1|left]. by apply Hd' in H as [H%Hd _].
  - intros [H|H]; [|left; by apply Hr1]. destruct (decide (hasBit r1 j)); [by left|right]. apply Hd'. split; [by apply Hd|done].
Qed.

Lemma capacity_step n db :
  Binv n db -> exists db1, (if width db <=? Z.of_nat n then modify (ensureCapacity (Z.of_nat n)) else mret tt : st _ DepsError _) db = Done db1 tt /\
    Binv n db1 /\ Z.of_nat n < width db1.
Proof.
  intros Hb. destruct (Z.leb_spec (width db) (Z.of_nat n)).
  - eexists. split; [done|]. apply ensureCapacity_inv; [lia|done].
  - exists db. done.
Qed.

Lemma insert_last {A} (l : list A) (x y : A) n : length l = n -> <[n := y]> (l ++ [x]) = l ++ [y].
Proof. intros <-. rewrite insert_app_r_alt, Nat.sub_diag by lia. done. Qed.

Lemma lookup_last {A} (l : list A) (x : A) n : length l = n -> (l ++ [x]) !! n = Some x.
Proof. intros <-. by rewrite lookup_app_r, Nat.sub_diag by lia. Qed.

Lemma directAt_last n db l d :
  directDeps db = l ++ [d] -> length l = n -> directAt (Z.of_nat n) db = Done db d.
Proof. intros H Hl. unfold directAt, getS, mbind, st_bind, orPanic. rewrite Nat2Z.id, H, lookup_last by done. done. Qed.

Lemma reachableAt_last n db l r :
  reachableDeps db = l ++ [r] -> length l = n -> reachableAt (Z.of_nat n) db = Done db r.
Proof. intros H Hl. unfold reachableAt, getS, mbind, st_bind, orPanic. rewrite Nat2Z.id, H, lookup_last by done. done. Qed.

(** The state once the empty bitsets of a new transaction are there. *)
Definition opened (n : nat) (db : DepsBuilder) : DepsBuilder :=
  mkDeps (lastWriter db) (directDeps db ++ [newTxBitset (width db)])
    (reachableDeps db ++ [newTxBitset (width db)]) (width db) (Z.of_nat n + 1) (depsErr db).

(** [db'] has the bitsets [d] and [r] for the new transaction on top of [db]. *)
Definition grown (n : nat) (db db' : DepsBuilder) (d r : TxBitset) : Prop :=
  sameElse (opened n db) db' /\ directDeps db' = directDeps db ++ [d] /\ reachableDeps db' = reachableDeps db ++ [r] /\
  wfBits (wordsFor (width db)) d /\ wfBits (wordsFor (width db)) r.

Lemma read_step n rs ws db :
  Binv n db -> Z.of_nat n < width db -> txs !! n = Some (rs, ws) ->
  exists db' d, readLoop (Z.of_nat n) rs (opened n db) = Done db' tt /\ grown n db db' d (newTxBitset (width db)) /\
    forall j, hasBit d j <-> dep (Z.of_nat n) j.
Proof.
  intros Hb Hcap Hn. pose proof (width_words (width db) (b_width _ _ Hb)) as HW.
  assert (Hnew : wfBits (wordsFor (width db)) (newTxBitset (width db))) by (apply new_wf; pose proof (b_width _ _ Hb); lia).
  destruct (readLoop_spec n rs (opened n db) (newTxBitset (width db)) (wordsFor (width db)))
    as (db' & d & Hrl & HS & Hre & Hdi & Hwd & Hbd).
  { by apply lookup_last, Hb. } { done. } { lia. }
  { intros k j Hl. cbn in Hl. apply (b_last _ _ Hb) in Hl as ([Hj _] & Hlt & _). lia. }
  exists db', d. split_and!; [done|split_and!; [done|rewrite Hdi; cbn; by apply insert_last, Hb|done|done|done]|].
  intros j. rewrite Hbd, (dep_new n rs ws db) by done. cbn. split; [intros [H|H]; [by apply new_bits in H|done]|by right].
Qed.

Lemma close_step n db db' d r0 :
  Binv n db -> grown n db db' d r0 -> (forall j, ~ hasBit r0 j) -> (forall j, hasBit d j <-> dep (Z.of_nat n) j) ->
  exists db'' r, closeLoop (Z.of_nat n) (ForEach d) db' = Done db'' tt /\ grown n db db'' d r /\
    forall k, hasBit r k <-> exists j, dep (Z.of_nat n) j /\ tc dep j k.
Proof.
  intros Hb ((S1 & S2 & S3 & S4) & Hdi & Hre & Hwd & Hwr) H0 Hd.
  assert (Hin : forall j, j ∈ ForEach d <-> dep (Z.of_nat n) j) by (intros j; rewrite <- Hd; by eapply ForEach_spec).
  assert (Hat : forall j, dep (Z.of_nat n) j -> 0 <= j < Z.of_nat n /\ exists rj, reachableDeps db' !! Z.to_nat j = Some rj /\
      wfBits (wordsFor (width db)) rj /\ forall k, hasBit rj k <-> tc dep j k).
  { intros j Hj. pose proof (dependsOn_down _ _ _ Hj) as Hr. split; [done|].
    destruct (b_bits _ _ Hb (Z.to_nat j) ltac:(lia)) as (_ & rj & _ & Hrj & _ & Hwrj & _ & Hbj). exists rj.
    rewrite Z2Nat.id in Hbj by lia. split_and!; [|done|done]. rewrite Hre. by apply lookup_app_l_Some. }
  destruct (closeLoop_spec n (ForEach d) db' r0 (wordsFor (width db))) as (db'' & r & Hcl & (T1 & T2 & T3 & T4) & Hdi' & Hre' & Hwr' & Hbr).
  { rewrite Hre. by apply lookup_last, Hb. } { done. }
  { intros j Hj. apply Hin, Hat in Hj as (Hr & rj & ? & ? & _). eauto. }
  exists db'', r. split_and!; [done|split_and!; [split_and!; congruence|congruence|rewrite Hre', Hre; by apply insert_last, Hb|done|done]|].
  intros k. rewrite Hbr. split.
  - intros [H|(j & rj & Hj & Hl & Hk)]; [by apply H0 in H|]. apply Hin in Hj. destruct (Hat j Hj) as (_ & rj' & Hl' & _ & Hbj).
    rewrite Hl in Hl'. injection Hl' as <-. exists j. split; [done|]. by apply Hbj.
  - intros (j & Hj & Hk). right. destruct (Hat j Hj) as (_ & rj & Hl & _ & Hbj). exists j, rj.
    split_and!; [by apply Hin|done|by apply Hbj].
Qed.

(** A builder grown by bitsets with the right bits, and the writes recorded. *)
Lemma Binv_grow n rs ws db db' d r :
  Binv n db -> txs !! n = Some (rs, ws) -> grown n db db' d r ->
  (forall j, hasBit d j <-> reduced dep (Z.of_nat n) j) -> (forall j, hasBit r j <-> tc dep (Z.of_nat n) j) ->
  (forall j, (exists m, dep (Z.of_nat n) m /\ tc dep m j) \/ ~ (exists m, dep (Z.of_nat n) m /\ tc dep m j)) ->
  Binv (S n) (mkDeps (fold_left (fun m wd => <[wPath wd := Z.of_nat n]> m) ws (lastWriter db'))
                (directDeps db') (reachableDeps db') (width db') (numTx db') (depsErr db')).
Proof.
  intros Hb Hn ((S1 & S2 & S3 & S4) & Hdi & Hre & Hwd & Hwr) Hd Hr Hdec. split; cbn.
  - rewrite S4. apply Hb.
  - rewrite S3. cbn. lia.
  - rewrite S2. apply Hb.
  - rewrite Hdi, length_app, (b_direct _ _ Hb). cbn. lia.
  - rewrite Hre, length_app, (b_reach _ _ Hb). cbn. lia.
  - intros k j. rewrite lastWriter_fold, (last_step n rs ws) by done. rewrite S1. cbn.
    by rewrite (b_last _ _ Hb).
  - intros i Hi. rewrite Hdi, Hre, S2. cbn. destruct (decide (i = n)) as [->|Hne].
    + exists d, r. split_and!; [by apply lookup_last, Hb|by apply lookup_last, Hb|done..].
    + destruct (b_bits _ _ Hb i ltac:(lia)) as (di & ri & H1 & H2 & H3). exists di, ri.
      split; [by apply lookup_app_l_Some|]. split; [by apply lookup_app_l_Some|done].
  - intros i Hi. destruct (decide (i = n)) as [->|Hne]; [done|]. apply (b_dec _ _ Hb). lia.
Qed.

Lemma AddTransaction_inv n rs ws db :
  Binv n db -> txs !! n = Some (rs, ws) ->
  exists db', AddTransaction (Z.of_nat n) rs ws db = Done db' tt /\ Binv (S n) db'.
Proof.
  intros Hb0 Hn. unfold AddTransaction. rewrite (bind_eq getS _ db db db eq_refl).
  rewrite (b_err _ _ Hb0), (b_num _ _ Hb0), Z.eqb_refl. cbn [negb].
  destruct (capacity_step n db Hb0) as (db1 & H1 & Hb & Hcap). rewrite (bind_eq _ _ _ _ _ H1). clear db Hb0 H1.
  rewrite bind_modify. fold (opened n db1).
  destruct (read_step n rs ws db1 Hb Hcap Hn) as (db3 & d & H3 & Hg3 & Hd). rewrite (bind_eq _ _ _ _ _ H3). clear H3.
  rewrite (bind_eq _ _ _ _ _ (directAt_last n db3 _ d (proj1 (proj2 Hg3)) (b_direct _ _ Hb))).
  destruct (close_step n db1 db3 d _ Hb Hg3 (new_bits _) Hd) as (db4 & r & H4 & Hg4 & Hr). rewrite (bind_eq _ _ _ _ _ H4). clear H4 Hg3 db3.
  destruct Hg4 as ((S1 & S2 & S3 & S4) & Hdi & Hre & Hwd & Hwr).
  rewrite (bind_eq _ _ _ _ _ (directAt_last n db4 _ d Hdi (b_direct _ _ Hb))), (bind_eq _ _ _ _ _ (reachableAt_last n db4 _ r Hre (b_reach _ _ Hb))).
  destruct (AndNot_spec _ d r Hwd Hwr) as (d' & -> & Hwd' & Hbd'). cbn [orPanic].
  rewrite (bind_eq (mret d') _ db4 db4 d' eq_refl), bind_modify. set (db5 := set_direct _ _ db4).
  assert (Hdi5 : directDeps db5 = directDeps db1 ++ [d']).
  { cbn. rewrite Nat2Z.id, Hdi. by apply insert_last, Hb. }
  rewrite (bind_eq _ _ _ _ _ (reachableAt_last n db5 _ r Hre (b_reach _ _ Hb))).
  destruct (Or_spec _ r d' Hwr Hwd') as (r' & -> & Hwr' & Hbr'). cbn [orPanic].
  rewrite (bind_eq (mret r') _ db5 db5 r' eq_refl), bind_modify. set (db6 := set_reachable _ _ db5).
  destruct (reduce_bits n _ d r d' r' Hd Hr Hbd' Hbr' Hwd') as [Hfd Hfr].
  eexists. split; [reflexivity|]. apply (Binv_grow n rs ws db1 db6 d' r' Hb Hn); [|done|done|intros j; rewrite <- Hr; destruct (decide (hasBit r j)); auto].
  split_and!; [by split_and!|done| |done|done]. cbn. rewrite Nat2Z.id, Hre. by apply insert_last, Hb.
Qed.

(** *** The whole block *)

Lemma addAll_inv rest n db :
  Binv n db -> rest = drop n txs -> exists db', addAll (Z.of_nat n) rest db = Done db' tt /\ Binv (n + length rest) db'.
Proof.
  revert n db. induction rest as [|[rs ws] rest IH]; intros n db Hb Hr; cbn [addAll length].
  - exists db. split; [done|]. by rewrite Nat.add_0_r.
  - assert (Hn : txs !! n = Some (rs, ws)) by (pose proof (lookup_drop txs n 0) as H; rewrite <- Hr, Nat.add_0_r in H; by symmetry).
    destruct (AddTransaction_inv n rs ws db Hb Hn) as (db1 & -> & Hb1).
    destruct (IH (S n) db1 Hb1) as (db' & He & Hb'); [pose proof (drop_S _ _ _ Hn) as Hd; pose proof (eq_trans Hr Hd) as H; by injection H|].
    exists db'. replace (Z.of_nat n + 1) with (Z.of_nat (S n)) by lia. split; [done|].
    by replace (n + S (length rest))%nat with (S n + length rest)%nat by lia.
Qed.

Lemma innerDeps_spec W b j : wfBits W b -> j ∈ innerDeps b <-> hasBit b j.
Proof.
  intros Hb. rewrite <- (ForEach_spec W) by done. unfold innerDeps.
  assert (H : forall l (m : gset Z), j ∈ fold_left (fun m j => {[j]} ∪ m) l m <-> j ∈ l \/ j ∈ m).
  { induction l as [|x l IH]; intros m; cbn [fold_left]; [rewrite elem_of_nil; tauto|]. rewrite IH, elem_of_cons, elem_of_union, elem_of_singleton. tauto. }
  rewrite H, elem_of_empty. tauto.
Qed.

Lemma getLoop_spec n db idxs m :
  Binv n db -> (forall i, i ∈ idxs -> (i < n)%nat) ->
  exists m', getLoop idxs m db = Done db m' /\
    (forall z, z ∉ map Z.of_nat idxs -> m' !! z = m !! z) /\
    (forall i, i ∈ idxs -> exists s, m' !! Z.of_nat i = Some s /\ forall j, j ∈ s <-> reduced dep (Z.of_nat i) j).
Proof.
  intros Hb. revert m. induction idxs as [|i idxs IH]; intros m Hi; cbn [getLoop map].
  { exists m. split_and!; [done|done|]. intros i H. by apply not_elem_of_nil in H. }
  destruct (b_bits _ _ Hb i (Hi i ltac:(by left))) as (d & r & Hd & _ & Hwd & _ & Hbd & _).
  assert (Hat : directAt (Z.of_nat i) db = Done db d).
  { unfold directAt, getS, mbind, st_bind, orPanic. by rewrite Nat2Z.id, Hd. }
  rewrite (bind_eq _ _ _ _ _ Hat). destruct (IH (<[Z.of_nat i := innerDeps d]> m)) as (m' & He & Hf & Hin).
  { intros j Hj. apply Hi. by right. }
  exists m'. split_and!; [done| |].
  - intros z Hz. apply not_elem_of_cons in Hz as [Hne Hz]. by rewrite Hf, lookup_insert_ne by done.
  - intros j Hj. destruct (decide (j ∈ idxs)) as [Hj'|Hj']; [by apply Hin|].
    apply elem_of_cons in Hj as [->|Hj]; [|done]. exists (innerDeps d). rewrite Hf.
    + rewrite lookup_insert_eq. split; [done|]. intros j. by rewrite (innerDeps_spec _ _ _ Hwd).
    + intros Hz. apply Hj'. apply list_elem_of_fmap in Hz as (x & He' & Hx). by replace i with x by lia.
Qed.

End builder.

(** The edges of a map of dependencies. *)
Definition edge (m : gmap Z (gset Z)) (i j : Z) : Prop := exists s, m !! i = Some s /\ j ∈ s.

(** C13: the builder computes the transitive reduction of the dependencies.  Adding the
    transactions of a block in order never fails, also past the initial width of the
    bitsets; the map it returns has one entry per transaction, connects exactly the
    transactions that the last writers of the keys read connect, and no edge can be left
    out of it. *)
Theorem GetDeps_reduces txs :
  exists db m, addAll 0 txs NewDepsBuilder = Done db tt /\ GetDeps db = Done db (Some m) /\
    (forall i, is_Some (m !! i) <-> 0 <= i < Z.of_nat (length txs)) /\
    (forall i j, tc (edge m) i j <-> tc (dependsOn txs) i j) /\
    (forall i j, edge m i j -> dependsOn txs i j /\ ~ tc (fun a b => edge m a b /\ (a, b) <> (i, j)) i j).
Proof.
  destruct (addAll_inv txs txs 0 NewDepsBuilder (Binv_start txs) eq_refl) as (db & He & Hb). cbn [Nat.add] in Hb.
  destruct (getLoop_spec txs _ db (seq 0 (length txs)) ∅ Hb) as (m & Hm & Hout & Hin).
  { intros i Hi. apply elem_of_seq in Hi. lia. }
  exists db, m. split; [done|].
  assert (Hmem : forall i, 0 <= i < Z.of_nat (length txs) -> exists s, m !! i = Some s /\ forall j, j ∈ s <-> reduced (dependsOn txs) i j).
  { intros i Hi. destruct (Hin (Z.to_nat i)) as (s & Hs & H); [apply elem_of_seq; lia|]. rewrite Z2Nat.id in Hs, H by lia. eauto. }
  assert (Hnone : forall i, ~ 0 <= i < Z.of_nat (length txs) -> m !! i = None).
  { intros i Hi. rewrite Hout, lookup_empty; [done|]. intros Hz. apply list_elem_of_fmap in Hz as (x & -> & Hx). apply elem_of_seq in Hx. lia. }
  assert (Hdom : forall i, is_Some (m !! i) <-> 0 <= i < Z.of_nat (length txs)).
  { intros i. split; [|intros Hi; destruct (Hmem i Hi) as (s & -> & _); by eexists].
    intros [s Hs]. destruct (decide (0 <= i < Z.of_nat (length txs))) as [|Hn]; [done|]. by rewrite Hnone in Hs. }
  assert (Hdown : forall i j, dependsOn txs i j -> j < i) by (intros i j H; apply dependsOn_down in H; lia).
  assert (Hrange : forall i j, dependsOn txs i j -> 0 <= i < Z.of_nat (length txs)).
  { intros i j (Hi & rs & ws & k & Hl & _). apply lookup_lt_Some in Hl. lia. }
  assert (Hedge : forall i j, edge m i j <-> reduced (dependsOn txs) i j).
  { intros i j. split.
    - intros (s & Hs & Hj). destruct (Hmem i (proj1 (Hdom i) (ex_intro _ s Hs))) as (s' & Hs' & H). rewrite Hs in Hs'. injection Hs' as <-. by apply H.
    - intros Hr. destruct (Hmem i (Hrange i j (proj1 Hr))) as (s & Hs & H). exists s. split; [done|by apply H]. }
  assert (Hdec : forall i j, (exists k, dependsOn txs i k /\ tc (dependsOn txs) k j) \/ ~ (exists k, dependsOn txs i k /\ tc (dependsOn txs) k j)).
  { intros i j. destruct (decide (0 <= i < Z.of_nat (length txs))) as [Hi|Hi]; [|right; intros (k & Hk & _); by apply Hrange in Hk].
    pose proof (b_dec _ _ _ Hb (Z.to_nat i) ltac:(lia) j) as H. by rewrite Z2Nat.id in H by lia. }
  split_and!; [|done| |].
  - unfold GetDeps. rewrite (bind_eq getS _ db db db eq_refl), (b_err _ _ _ Hb), (b_num _ _ _ Hb), Nat2Z.id.
    by rewrite (bind_eq _ _ _ _ _ Hm).
  - intros i j. rewrite (reduced_closure (dependsOn txs)); [|apply Hdown|done].
    split; apply tc_sub; intros; by apply Hedge.
  - intros i j Hij. apply Hedge in Hij. split; [apply Hij|]. intros Ht. apply (reduced_minimal _ _ _ Hij).
    eapply tc_sub; [|exact Ht]. intros a b [H Hne]. split; [by apply Hedge|done].
Qed.

(** ** The builder after an error *)

(** An index out of order is refused with the bitsets unchanged, and so is everything
    after it, with the same error; there are no dependencies then. *)
Lemma AddTransaction_refused index rs ws db :
  depsErr db = None -> index <> numTx db ->
  exists db', AddTransaction index rs ws db = Fail db' (errNonSequentialIndex index (numTx db)) /\
    directDeps db' = directDeps db /\ reachableDeps db' = reachableDeps db /\ GetDeps db' = Done db' None /\
    forall index' rs' ws', AddTransaction index' rs' ws' db' = Fail db' (errNonSequentialIndex index (numTx db)).
Proof.
  intros He Hne. unfold AddTransaction at 1. rewrite (bind_eq getS _ db db db eq_refl), He.
  destruct (Z.eqb_spec index (numTx db)) as [|_]; [done|]. cbn [negb]. rewrite bind_modify. eexists. by split_and!.
Qed.

(** ** The two forms of the dependency test *)

Lemma pathSet_spec {A} (path : A -> Key) l k : k ∈ pathSet path l <-> k ∈ map path l.
Proof.
  unfold pathSet.
  assert (H : forall l (m : gset Key), k ∈ fold_left (fun m w => {[path w]} ∪ m) l m <-> k ∈ map path l \/ k ∈ m).
  { clear l. induction l as [|x l IH]; intros m; cbn [fold_left map]; [rewrite elem_of_nil; tauto|].
    rewrite IH, elem_of_cons, elem_of_union, elem_of_singleton. tauto. }
  rewrite H, elem_of_empty. tauto.
Qed.

(** Short lists and long ones are compared alike. *)
Lemma HasReadDep_spec txFrom txTo :
  HasReadDep txFrom txTo = true <-> exists k, k ∈ map wPath txFrom /\ k ∈ map rPath txTo.
Proof.
  assert (Hmap : forall {A} (path : A -> Key) l k, k ∈ map path l <-> exists a, In a l /\ path a = k).
  { intros A path l k. rewrite list_elem_of_In, in_map_iff. firstorder. }
  unfold HasReadDep. destruct (length txTo <=? smallCutoff)%nat; rewrite existsb_exists; split.
  - intros (rd & Hrd & H). apply existsb_exists in H as (v & Hv & He%bool_decide_eq_true). exists (wPath rd). split; apply Hmap; eauto.
  - intros (k & (rd & Hrd & <-)%Hmap & (v & Hv & He)%Hmap). exists rd. split; [done|]. apply existsb_exists. exists v.
    split; [done|]. by apply bool_decide_eq_true.
  - intros (rd & Hrd & H%bool_decide_eq_true%pathSet_spec). exists (wPath rd). split; [apply Hmap; eauto|done].
  - intros (k & (rd & Hrd & <-)%Hmap & Hk). exists rd. split; [done|]. by apply bool_decide_eq_true, pathSet_spec.
Qed.

(** ** Writers before the last one

    Two transactions write a key without reading it and a third reads it: the third
    depends on the second only, and not on the first through it. *)

Definition blindKey : Key := NewStateKey 7 9.
Definition blindWrite (i : Z) : list WriteDescriptor := [mkWriteDesc blindKey (mkVersion i 0) (Some (VHash i))].
Definition blindRead : list ReadDescriptor := [mkReadDesc blindKey ReadKindMap (mkVersion 1 0)].

Lemma blind_writer_not_covered :
  HasReadDep (blindWrite 0) blindRead = true /\
  match addAll 0 [([], blindWrite 0); ([], blindWrite 1); (blindRead, [])] NewDepsBuilder with
  | Done db _ => match GetDeps db with
                 | Done _ (Some m) => elements <$> m !! 2 = Some [1] /\ elements <$> m !! 1 = Some []
                 | _ => False
                 end
  | _ => False
  end.
Proof. vm_compute. done. Qed.

End DepsGraph.
