(* ===== verification/StateDB.v ===== *)
(** * The state of a block

    core/state/statedb.go, state_object.go, journal.go, access_list.go: accounts loaded
    from the parent's state, changed by the transactions of a block, journalled so that a
    call can be undone, finalised at the end of each transaction.  A state may stand on
    the flat changes of the parent block ([FlatDiff]) while that block's root is still
    being computed.

    The reader of the committed state is a parameter.  The hooks of the first parallel
    executor (a [StateDB] without [mvHashmap] reads and writes directly), prefetching,
    witnesses and the tries are not modelled.  An object of the map is a pointer in the
    code; every operation reaches it through the map, so it is a value of the map here. *)

From S2P Require Import Prelude Bytes MvStore ParallelState.
Import MvStore.

Module StateDB.

Abbreviation accessList := ParallelState.accessList (only parsing).

(** ** Data *)

Record StateAccount : Type := mkAccount { Nonce : Z; Balance : Z; Root : Z; CodeHash : Z }.

Record stateObject : Type := mkObject {
  origin : option StateAccount;
  data : StateAccount;
  fromFlatDiff : bool;
  code : list Z;
  originStorage : gmap Z Z;
  dirtyStorage : gmap Z Z;
  pendingStorage : gmap Z Z;
  uncommittedStorage : gmap Z Z;
  dirtyCode : bool;
  selfDestructed : bool;
  newContract : bool
}.

Definition set_data (v : StateAccount) (o : stateObject) : stateObject :=
  mkObject (origin o) v (fromFlatDiff o) (code o) (originStorage o) (dirtyStorage o) (pendingStorage o)
    (uncommittedStorage o) (dirtyCode o) (selfDestructed o) (newContract o).
Definition set_code (c : list Z) (dirty : bool) (o : stateObject) : stateObject :=
  mkObject (origin o) (data o) (fromFlatDiff o) c (originStorage o) (dirtyStorage o) (pendingStorage o)
    (uncommittedStorage o) dirty (selfDestructed o) (newContract o).
Definition set_originStorage (v : gmap Z Z) (o : stateObject) : stateObject :=
  mkObject (origin o) (data o) (fromFlatDiff o) (code o) v (dirtyStorage o) (pendingStorage o)
    (uncommittedStorage o) (dirtyCode o) (selfDestructed o) (newContract o).
Definition set_dirtyStorage (v : gmap Z Z) (o : stateObject) : stateObject :=
  mkObject (origin o) (data o) (fromFlatDiff o) (code o) (originStorage o) v (pendingStorage o)
    (uncommittedStorage o) (dirtyCode o) (selfDestructed o) (newContract o).
Definition set_pendingStorage (v : gmap Z Z) (o : stateObject) : stateObject :=
  mkObject (origin o) (data o) (fromFlatDiff o) (code o) (originStorage o) (dirtyStorage o) v
    (uncommittedStorage o) (dirtyCode o) (selfDestructed o) (newContract o).
Definition set_uncommittedStorage (v : gmap Z Z) (o : stateObject) : stateObject :=
  mkObject (origin o) (data o) (fromFlatDiff o) (code o) (originStorage o) (dirtyStorage o) (pendingStorage o)
    v (dirtyCode o) (selfDestructed o) (newContract o).
Definition set_selfDestructed (v : bool) (o : stateObject) : stateObject :=
  mkObject (origin o) (data o) (fromFlatDiff o) (code o) (originStorage o) (dirtyStorage o) (pendingStorage o)
    (uncommittedStorage o) (dirtyCode o) v (newContract o).
Definition set_newContract (v : bool) (o : stateObject) : stateObject :=
  mkObject (origin o) (data o) (fromFlatDiff o) (code o) (originStorage o) (dirtyStorage o) (pendingStorage o)
    (uncommittedStorage o) (dirtyCode o) (selfDestructed o) v.

Inductive journalEntry : Type :=
| createObjectChange (account : Z)
| createContractChange (account : Z)
| selfDestructChange (account : Z)
| balanceChange (account prev : Z)
| nonceChange (account prev : Z)
| storageChange (account key prevvalue origvalue : Z)
| codeChange (account : Z) (prevCode : list Z)
| refundChange (prev : Z)
| addLogChange (txhash : Z)
| touchChange (account : Z)
| accessListAddAccountChange (address : Z)
| accessListAddSlotChange (address slot : Z)
| transientStorageChange (account key prevalue : Z).

Definition dirtied (e : journalEntry) : option Z :=
  match e with
  | createObjectChange a | selfDestructChange a | balanceChange a _ | nonceChange a _ | storageChange a _ _ _
  | codeChange a _ | touchChange a => Some a
  | _ => None
  end.

Record journal : Type := mkJournal {
  entries : list journalEntry;
  dirties : gmap Z Z;
  validRevisions : list (Z * nat);
  nextRevisionId : Z
}.

Definition newJournal : journal := mkJournal [] ∅ [] 0.

Inductive mutationType : Type := update | deletion.

(** A mutation: its type and whether it is applied to the trie. *)
Record mutation : Type := mkMutation { typ : mutationType; applied : bool }.

Definition isDelete (m : mutation) : bool := match typ m with deletion => true | update => false end.

Record Log : Type := mkLog { lgBody : Z; lgTxHash : Z; lgTxIndex : Z; lgIndex : Z }.

(** The flat changes of a block; the read sets are for witnesses. *)
Record FlatDiff : Type := mkFlatDiff {
  Accounts : gmap Z StateAccount;
  Storage : gmap Z (gmap Z Z);
  Destructs : gset Z;
  Code : gmap Z (list Z)
}.

Record StateDB : Type := mkStateDB {
  stateObjects : gmap Z stateObject;
  stateObjectsDestruct : gmap Z stateObject;
  currentBlockDestructs : gset Z;
  mutations : gmap Z mutation;
  revertedKeys : gset Key;
  dbErr : bool;
  sdRefund : Z;
  thash : Z;
  txIndex : Z;
  sdLogs : gmap Z (list Log);
  sdLogSize : Z;
  sdPreimages : gmap Z (list Z);
  sdAccess : accessList;
  transientStorage : gmap Z (gmap Z Z);
  jrn : journal;
  nonExistentReads : gset Z;
  flatDiffRef : option FlatDiff
}.

Definition set_objects (v : gmap Z stateObject) (s : StateDB) : StateDB :=
  mkStateDB v (stateObjectsDestruct s) (currentBlockDestructs s) (mutations s) (revertedKeys s) (dbErr s) (sdRefund s)
    (thash s) (txIndex s) (sdLogs s) (sdLogSize s) (sdPreimages s) (sdAccess s) (transientStorage s) (jrn s)
    (nonExistentReads s) (flatDiffRef s).
Definition set_destructs (d : gmap Z stateObject) (c : gset Z) (s : StateDB) : StateDB :=
  mkStateDB (stateObjects s) d c (mutations s) (revertedKeys s) (dbErr s) (sdRefund s)
    (thash s) (txIndex s) (sdLogs s) (sdLogSize s) (sdPreimages s) (sdAccess s) (transientStorage s) (jrn s)
    (nonExistentReads s) (flatDiffRef s).
Definition set_mutations (v : gmap Z mutation) (s : StateDB) : StateDB :=
  mkStateDB (stateObjects s) (stateObjectsDestruct s) (currentBlockDestructs s) v (revertedKeys s) (dbErr s) (sdRefund s)
    (thash s) (txIndex s) (sdLogs s) (sdLogSize s) (sdPreimages s) (sdAccess s) (transientStorage s) (jrn s)
    (nonExistentReads s) (flatDiffRef s).
Definition set_revertedKeys (v : gset Key) (s : StateDB) : StateDB :=
  mkStateDB (stateObjects s) (stateObjectsDestruct s) (currentBlockDestructs s) (mutations s) v (dbErr s) (sdRefund s)
    (thash s) (txIndex s) (sdLogs s) (sdLogSize s) (sdPreimages s) (sdAccess s) (transientStorage s) (jrn s)
    (nonExistentReads s) (flatDiffRef s).
Definition set_dbErr (s : StateDB) : StateDB :=
  mkStateDB (stateObjects s) (stateObjectsDestruct s) (currentBlockDestructs s) (mutations s) (revertedKeys s) true (sdRefund s)
    (thash s) (txIndex s) (sdLogs s) (sdLogSize s) (sdPreimages s) (sdAccess s) (transientStorage s) (jrn s)
    (nonExistentReads s) (flatDiffRef s).
Definition set_sdRefund (v : Z) (s : StateDB) : StateDB :=
  mkStateDB (stateObjects s) (stateObjectsDestruct s) (currentBlockDestructs s) (mutations s) (revertedKeys s) (dbErr s) v
    (thash s) (txIndex s) (sdLogs s) (sdLogSize s) (sdPreimages s) (sdAccess s) (transientStorage s) (jrn s)
    (nonExistentReads s) (flatDiffRef s).
Definition SetTxContext (h ti : Z) (s : StateDB) : StateDB :=
  mkStateDB (stateObjects s) (stateObjectsDestruct s) (currentBlockDestructs s) (mutations s) (revertedKeys s) (dbErr s) (sdRefund s)
    h ti (sdLogs s) (sdLogSize s) (sdPreimages s) (sdAccess s) (transientStorage s) (jrn s)
    (nonExistentReads s) (flatDiffRef s).
Definition set_sdLogs (v : gmap Z (list Log)) (sz : Z) (s : StateDB) : StateDB :=
  mkStateDB (stateObjects s) (stateObjectsDestruct s) (currentBlockDestructs s) (mutations s) (revertedKeys s) (dbErr s) (sdRefund s)
    (thash s) (txIndex s) v sz (sdPreimages s) (sdAccess s) (transientStorage s) (jrn s)
    (nonExistentReads s) (flatDiffRef s).
Definition set_sdPreimages (v : gmap Z (list Z)) (s : StateDB) : StateDB :=
  mkStateDB (stateObjects s) (stateObjectsDestruct s) (currentBlockDestructs s) (mutations s) (revertedKeys s) (dbErr s) (sdRefund s)
    (thash s) (txIndex s) (sdLogs s) (sdLogSize s) v (sdAccess s) (transientStorage s) (jrn s)
    (nonExistentReads s) (flatDiffRef s).
Definition set_sdAccess (v : accessList) (s : StateDB) : StateDB :=
  mkStateDB (stateObjects s) (stateObjectsDestruct s) (currentBlockDestructs s) (mutations s) (revertedKeys s) (dbErr s) (sdRefund s)
    (thash s) (txIndex s) (sdLogs s) (sdLogSize s) (sdPreimages s) v (transientStorage s) (jrn s)
    (nonExistentReads s) (flatDiffRef s).
Definition set_transient (v : gmap Z (gmap Z Z)) (s : StateDB) : StateDB :=
  mkStateDB (stateObjects s) (stateObjectsDestruct s) (currentBlockDestructs s) (mutations s) (revertedKeys s) (dbErr s) (sdRefund s)
    (thash s) (txIndex s) (sdLogs s) (sdLogSize s) (sdPreimages s) (sdAccess s) v (jrn s)
    (nonExistentReads s) (flatDiffRef s).
Definition set_jrn (v : journal) (s : StateDB) : StateDB :=
  mkStateDB (stateObjects s) (stateObjectsDestruct s) (currentBlockDestructs s) (mutations s) (revertedKeys s) (dbErr s) (sdRefund s)
    (thash s) (txIndex s) (sdLogs s) (sdLogSize s) (sdPreimages s) (sdAccess s) (transientStorage s) v
    (nonExistentReads s) (flatDiffRef s).
Definition set_nonExistentReads (v : gset Z) (s : StateDB) : StateDB :=
  mkStateDB (stateObjects s) (stateObjectsDestruct s) (currentBlockDestructs s) (mutations s) (revertedKeys s) (dbErr s) (sdRefund s)
    (thash s) (txIndex s) (sdLogs s) (sdLogSize s) (sdPreimages s) (sdAccess s) (transientStorage s) (jrn s)
    v (flatDiffRef s).
Definition SetFlatDiffRef (v : option FlatDiff) (s : StateDB) : StateDB :=
  mkStateDB (stateObjects s) (stateObjectsDestruct s) (currentBlockDestructs s) (mutations s) (revertedKeys s) (dbErr s) (sdRefund s)
    (thash s) (txIndex s) (sdLogs s) (sdLogSize s) (sdPreimages s) (sdAccess s) (transientStorage s) (jrn s)
    (nonExistentReads s) v.

(** [NewWithReader]. *)
Definition NewStateDB : StateDB :=
  mkStateDB ∅ ∅ ∅ ∅ ∅ false 0 0 0 ∅ 0 ∅ ParallelState.newAccessList ∅ newJournal ∅ None.

(** [NewWithFlatBase]. *)
Definition NewWithFlatBase (flatDiff : option FlatDiff) : StateDB :=
  match flatDiff with Some d => SetFlatDiffRef (Some d) NewStateDB | None => NewStateDB end.

(** The reader of the committed state: a value and whether reading failed. *)
Record Reader : Type := mkReader {
  rdAccount : Z -> option StateAccount * bool;
  rdStorage : Z -> Z -> Z * bool;
  rdCode : Z -> Z -> list Z * bool;
  rdCodeSize : Z -> Z -> Z * bool
}.

(** Methods on a [*StateDB]: they end with a result or in a panic. *)
Abbreviation run := (st StateDB Empty_set) (only parsing).

Definition nilDeref : string := "nil pointer dereference".

(** *** The journal *)

Definition jdirty (a : Z) (j : journal) : journal :=
  mkJournal (entries j) (<[a := default 0 (dirties j !! a) + 1]> (dirties j)) (validRevisions j) (nextRevisionId j).

Definition jappend (e : journalEntry) (j : journal) : journal :=
  let j' := mkJournal (entries j ++ [e]) (dirties j) (validRevisions j) (nextRevisionId j) in
  match dirtied e with Some a => jdirty a j' | None => j' end.

Definition jreset (j : journal) : journal := newJournal.

Definition jundirty (e : journalEntry) (j : journal) : journal :=
  match dirtied e with
  | Some a =>
      let n := default 0 (dirties j !! a) - 1 in
      mkJournal (entries j) (if n =? 0 then delete a (dirties j) else <[a := n]> (dirties j)) (validRevisions j) (nextRevisionId j)
  | None => j
  end.

Definition journ (e : journalEntry) : run unit := modify (fun s => set_jrn (jappend e (jrn s)) s).
Definition dirty (a : Z) : run unit := modify (fun s => set_jrn (jdirty a (jrn s)) s).

Definition ripemd : Z := 3.

Definition journTouch (a : Z) : run unit :=
  _ ← journ (touchChange a);
  if a =? ripemd then dirty a else mret tt.

(** *** Access list removals (access_list.go) *)

Definition DeleteSlot (al : accessList) (a slot : Z) : option accessList :=
  match ParallelState.alAddresses al !! a with
  | None => None
  | Some idx =>
      if idx <? 0 then None
      else
        match ParallelState.alSlots al !! Z.to_nat idx with
        | None => None
        | Some slotmap =>
            let slotmap' := slotmap ∖ {[slot]} in
            if bool_decide (slotmap' = ∅) then
              Some (ParallelState.mkAccess (<[a := -1]> (ParallelState.alAddresses al)) (take (Z.to_nat idx) (ParallelState.alSlots al)))
            else Some (ParallelState.mkAccess (ParallelState.alAddresses al) (<[Z.to_nat idx := slotmap']> (ParallelState.alSlots al)))
        end
  end.

Definition DeleteAddress (al : accessList) (a : Z) : accessList :=
  ParallelState.mkAccess (delete a (ParallelState.alAddresses al)) (ParallelState.alSlots al).

(** *** The overlay of the parent's changes *)

(** [storageOverlay]: the value of a covered slot. *)
Definition storageOverlay (d : option FlatDiff) (a k : Z) : option Z :=
  match d with
  | None => None
  | Some d =>
      match Storage d !! a ≫= (fun slots => slots !! k) with
      | Some v => Some v
      | None => if bool_decide (a ∈ Destructs d) then Some 0 else None
      end
  end.

(** [accountOverlay]: the account of a covered address, none for a destructed one. *)
Definition accountOverlay (d : option FlatDiff) (a : Z) : option (option StateAccount) :=
  match d with
  | None => None
  | Some d =>
      match Accounts d !! a with
      | Some acct => Some (Some acct)
      | None => if bool_decide (a ∈ Destructs d) then Some None else None
      end
  end.

Definition hasAccountMutation (s : StateDB) (a : Z) : bool :=
  bool_decide (is_Some (dirties (jrn s) !! a)) || bool_decide (is_Some (mutations s !! a)).

(** The root of an empty trie. *)
Definition EmptyRootHash : Z := 0x56e81f171bcc55a6ff8345e692c0f86e5b48e01b996cadc001622fb5e363b421.

Section state.
Context (keccak : list Z -> Z) (reader : Reader).

Definition EmptyCodeHash : Z := keccak [].

(** *** Objects *)

Definition NewEmptyStateAccount : StateAccount := mkAccount 0 0 EmptyRootHash EmptyCodeHash.

Definition newObject (acct : option StateAccount) : stateObject :=
  mkObject acct (default NewEmptyStateAccount acct) false [] ∅ ∅ ∅ ∅ false false false.

Definition empty (o : stateObject) : bool :=
  (Nonce (data o) =? 0) && (Balance (data o) =? 0) && (CodeHash (data o) =? EmptyCodeHash).

Definition setStateObject (a : Z) (o : stateObject) : run unit := modify (fun s => set_objects (<[a := o]> (stateObjects s)) s).

(** A write through the pointer of an object. *)
Definition updObject (a : Z) (f : stateObject -> stateObject) : run unit :=
  modify (fun s => set_objects (alter f a (stateObjects s)) s).

Definition setError : run unit := modify set_dbErr.

Definition flatDiffStateObject (a : Z) (acct : StateAccount) : run stateObject :=
  s ← getS;
  let o := newObject (Some acct) in
  let c := match flatDiffRef s with Some d => default [] (Code d !! CodeHash acct) | None => [] end in
  let o := mkObject (origin o) (data o) true c (originStorage o) (dirtyStorage o) (pendingStorage o)
             (uncommittedStorage o) (dirtyCode o) (selfDestructed o) (newContract o) in
  _ ← setStateObject a o;
  mret o.

Definition getStateObject (a : Z) : run (option stateObject) :=
  s ← getS;
  match (if hasAccountMutation s a then None else accountOverlay (flatDiffRef s) a) with
  | Some None => mret None
  | Some (Some acct) =>
      match stateObjects s !! a with
      | Some o => if fromFlatDiff o then mret (Some o) else o ← flatDiffStateObject a acct; mret (Some o)
      | None => o ← flatDiffStateObject a acct; mret (Some o)
      end
  | None =>
      match stateObjects s !! a with
      | Some o => mret (Some o)
      | None =>
          if bool_decide (is_Some (stateObjectsDestruct s !! a)) then mret None
          else
            match rdAccount reader a with
            | (_, true) => _ ← setError; mret None
            | (None, false) =>
                _ ← modify (fun s => set_nonExistentReads ({[a]} ∪ nonExistentReads s) s);
                mret None
            | (Some acct, false) =>
                let o := newObject (Some acct) in
                _ ← setStateObject a o;
                mret (Some o)
            end
      end
  end.

Definition createObject (a : Z) : run stateObject :=
  let o := newObject None in
  _ ← journ (createObjectChange a);
  _ ← setStateObject a o;
  mret o.

Definition getOrNewStateObject (a : Z) : run stateObject :=
  o ← getStateObject a;
  match o with Some o => mret o | None => createObject a end.

(** The object at [a] after its caches may have changed. *)
Definition objectAt (a : Z) : run stateObject :=
  s ← getS; orPanic nilDeref (stateObjects s !! a).

(** *** Storage of an object *)

Definition cacheOrigin (a k v : Z) : run unit := updObject a (fun o => set_originStorage (<[k := v]> (originStorage o)) o).

Definition objGetCommittedState (a k : Z) : run Z :=
  o ← objectAt a;
  match pendingStorage o !! k with
  | Some v => mret v
  | None =>
      s ← getS;
      if bool_decide (a ∈ currentBlockDestructs s) then _ ← cacheOrigin a k 0; mret 0
      else
        match storageOverlay (flatDiffRef s) a k with
        | Some v => _ ← cacheOrigin a k v; mret v
        | None =>
            match originStorage o !! k with
            | Some v => mret v
            | None =>
                if bool_decide (is_Some (stateObjectsDestruct s !! a)) then _ ← cacheOrigin a k 0; mret 0
                else
                  match rdStorage reader a k with
                  | (_, true) => _ ← setError; mret 0
                  | (v, false) => _ ← cacheOrigin a k v; mret v
                  end
            end
        end
  end.

Definition objgetState (a k : Z) : run (Z * Z) :=
  org ← objGetCommittedState a k;
  o ← objectAt a;
  mret (default org (dirtyStorage o !! k), org).

Definition setState_ (k v org : Z) (o : stateObject) : stateObject :=
  if v =? org then set_dirtyStorage (delete k (dirtyStorage o)) o else set_dirtyStorage (<[k := v]> (dirtyStorage o)) o.

Definition objSetState (a k v : Z) : run Z :=
  p ← objgetState a k;
  if p.1 =? v then mret p.1
  else
    _ ← journ (storageChange a k p.1 p.2);
    _ ← updObject a (setState_ k v p.2);
    mret p.1.

(** *** Code of an object *)

Definition objCode (a : Z) : run (list Z) :=
  o ← objectAt a;
  if negb (bool_decide (code o = [])) then mret (code o)
  else if CodeHash (data o) =? EmptyCodeHash then mret []
  else
    let '(c, err) := rdCode reader a (CodeHash (data o)) in
    _ ← (if (err : bool) || bool_decide (c = []) then setError else mret tt);
    _ ← updObject a (fun o => set_code c (dirtyCode o) o);
    mret c.

Definition objCodeSize (a : Z) : run Z :=
  o ← objectAt a;
  if negb (bool_decide (code o = [])) then mret (Z.of_nat (length (code o)))
  else if CodeHash (data o) =? EmptyCodeHash then mret 0
  else
    let '(sz, err) := rdCodeSize reader a (CodeHash (data o)) in
    _ ← (if (err : bool) || (sz =? 0) then setError else mret tt);
    mret sz.

Definition withNonce (n : Z) (d : StateAccount) : StateAccount := mkAccount n (Balance d) (Root d) (CodeHash d).
Definition withBalance (b : Z) (d : StateAccount) : StateAccount := mkAccount (Nonce d) b (Root d) (CodeHash d).
Definition withCodeHash (h : Z) (d : StateAccount) : StateAccount := mkAccount (Nonce d) (Balance d) (Root d) h.

Definition setBalance (b : Z) (o : stateObject) : stateObject := set_data (withBalance b (data o)) o.
Definition setNonce (n : Z) (o : stateObject) : stateObject := set_data (withNonce n (data o)) o.
Definition setCode (h : Z) (c : list Z) (o : stateObject) : stateObject := set_code c true (set_data (withCodeHash h (data o)) o).

Definition objSetBalance (a amount : Z) : run Z :=
  o ← objectAt a;
  _ ← journ (balanceChange a (Balance (data o)));
  _ ← updObject a (setBalance amount);
  mret (Balance (data o)).

Definition objAddBalance (a amount : Z) : run Z :=
  o ← objectAt a;
  if amount =? 0 then
    _ ← (if empty o then journTouch a else mret tt);
    mret (Balance (data o))
  else objSetBalance a (u256 (Balance (data o) + amount)).

Definition objSetCode (a h : Z) (c : list Z) : run (list Z) :=
  o ← objectAt a;
  _ ← journ (codeChange a (code o));
  _ ← updObject a (setCode h c);
  mret (code o).

Definition objSetNonce (a n : Z) : run unit :=
  o ← objectAt a;
  _ ← journ (nonceChange a (Nonce (data o)));
  updObject a (setNonce n).

(** *** Reading *)

Definition Exist (a : Z) : run bool := o ← getStateObject a; mret (bool_decide (is_Some o)).

Definition Empty (a : Z) : run bool := o ← getStateObject a; mret (match o with Some o => empty o | None => true end).

Definition GetBalance (a : Z) : run Z := o ← getStateObject a; mret (match o with Some o => Balance (data o) | None => 0 end).
Definition GetNonce (a : Z) : run Z := o ← getStateObject a; mret (match o with Some o => Nonce (data o) | None => 0 end).
Definition GetStorageRoot (a : Z) : run Z := o ← getStateObject a; mret (match o with Some o => Root (data o) | None => 0 end).
Definition GetCodeHash (a : Z) : run Z := o ← getStateObject a; mret (match o with Some o => CodeHash (data o) | None => 0 end).

Definition GetCode (a : Z) : run (list Z) :=
  o ← getStateObject a; match o with Some _ => objCode a | None => mret [] end.
Definition GetCodeSize (a : Z) : run Z :=
  o ← getStateObject a; match o with Some _ => objCodeSize a | None => mret 0 end.
Definition GetState (a k : Z) : run Z :=
  o ← getStateObject a; match o with Some _ => p ← objgetState a k; mret p.1 | None => mret 0 end.
Definition GetCommittedState (a k : Z) : run Z :=
  o ← getStateObject a; match o with Some _ => objGetCommittedState a k | None => mret 0 end.
Definition GetStateAndCommittedState (a k : Z) : run (Z * Z) :=
  o ← getStateObject a; match o with Some _ => objgetState a k | None => mret (0, 0) end.
Definition HasSelfDestructed (a : Z) : run bool :=
  o ← getStateObject a; mret (match o with Some o => selfDestructed o | None => false end).

(** *** Writing *)

Definition AddBalance (a amount : Z) : run Z := _ ← getOrNewStateObject a; objAddBalance a amount.

Definition SubBalance (a amount : Z) : run Z :=
  o ← getOrNewStateObject a;
  if amount =? 0 then mret (Balance (data o)) else objSetBalance a (u256 (Balance (data o) - amount)).

Definition SetBalance (a amount : Z) : run Z := _ ← getOrNewStateObject a; objSetBalance a amount.
Definition SetNonce (a n : Z) : run unit := _ ← getOrNewStateObject a; objSetNonce a n.
Definition SetCode (a : Z) (c : list Z) : run (list Z) := _ ← getOrNewStateObject a; objSetCode a (keccak c) c.
Definition SetState (a k v : Z) : run Z := _ ← getOrNewStateObject a; objSetState a k v.

Definition SelfDestruct (a : Z) : run Z :=
  o ← getStateObject a;
  match o with
  | None => mret 0
  | Some o =>
      _ ← (if negb (Balance (data o) =? 0) then _ ← objSetBalance a 0; mret tt else mret tt);
      _ ← (if negb (selfDestructed o) then _ ← journ (selfDestructChange a); updObject a (set_selfDestructed true) else mret tt);
      mret (Balance (data o))
  end.

Definition SelfDestruct6780 (a : Z) : run (Z * bool) :=
  o ← getStateObject a;
  match o with
  | None => mret (0, false)
  | Some o => if newContract o then b ← SelfDestruct a; mret (b, true) else mret (Balance (data o), false)
  end.

Definition CreateAccount (a : Z) : run unit := _ ← createObject a; mret tt.

Definition CreateContract (a : Z) : run unit :=
  o ← getStateObject a;
  match o with
  | None => panic nilDeref
  | Some o => if newContract o then mret tt else _ ← updObject a (set_newContract true); journ (createContractChange a)
  end.

Definition SetTransientState (a k v : Z) : run unit :=
  s ← getS;
  let prev := ParallelState.transientGet (transientStorage s) a k in
  if prev =? v then mret tt
  else
    _ ← journ (transientStorageChange a k prev);
    modify (fun s => set_transient (ParallelState.transientSet (transientStorage s) a k v) s).

Definition AddLog (body : Z) : run unit :=
  s ← getS;
  _ ← journ (addLogChange (thash s));
  modify (fun s => set_sdLogs (<[thash s := default [] (sdLogs s !! thash s) ++ [mkLog body (thash s) (txIndex s) (sdLogSize s)]]> (sdLogs s))
                     (sdLogSize s + 1) s).

Definition AddPreimage (h : Z) (p : list Z) : run unit :=
  modify (fun s => match sdPreimages s !! h with Some _ => s | None => set_sdPreimages (<[h := p]> (sdPreimages s)) s end).

Definition AddRefund (g : Z) : run unit :=
  s ← getS; _ ← journ (refundChange (sdRefund s)); modify (set_sdRefund (u64 (sdRefund s + g))).

Definition SubRefund (g : Z) : run unit :=
  s ← getS;
  _ ← journ (refundChange (sdRefund s));
  if sdRefund s <? g then panic "refund counter below zero" else modify (set_sdRefund (sdRefund s - g)).

Definition AddAddressToAccessList (a : Z) : run unit :=
  s ← getS;
  let '(al, added) := ParallelState.AddAddress (sdAccess s) a in
  _ ← modify (set_sdAccess al);
  if added : bool then journ (accessListAddAccountChange a) else mret tt.

Definition AddSlotToAccessList (a slot : Z) : run unit :=
  s ← getS;
  let '(al, addrMod, slotMod) := ParallelState.AddSlot (sdAccess s) a slot in
  _ ← modify (set_sdAccess al);
  _ ← (if addrMod : bool then journ (accessListAddAccountChange a) else mret tt);
  if slotMod : bool then journ (accessListAddSlotChange a slot) else mret tt.

(** *** Undoing *)

(** [getStateObject(a).f()]: nil is dereferenced when there is no object. *)
Definition onObject (a : Z) (f : stateObject -> stateObject) : run unit :=
  o ← getStateObject a;
  match o with Some _ => updObject a f | None => panic nilDeref end.

Definition revertEntry (e : journalEntry) : run unit :=
  match e with
  | createObjectChange a => modify (fun s => set_objects (delete a (stateObjects s)) s)
  | createContractChange a => onObject a (set_newContract false)
  | selfDestructChange a =>
      o ← getStateObject a;
      match o with
      | Some _ =>
          _ ← updObject a (set_selfDestructed false);
          modify (fun s => set_revertedKeys ({[NewSubpathKey a SuicidePath]} ∪ revertedKeys s) s)
      | None => mret tt
      end
  | balanceChange a prev => onObject a (setBalance prev)
  | nonceChange a prev => onObject a (setNonce prev)
  | storageChange a k prev org => onObject a (setState_ k prev org)
  | codeChange a prev => onObject a (setCode (keccak prev) prev)
  | refundChange prev => modify (set_sdRefund prev)
  | addLogChange h =>
      modify (fun s =>
        let ls := default [] (sdLogs s !! h) in
        set_sdLogs (if bool_decide (length ls = 1%nat) then delete h (sdLogs s)
                    else <[h := take (length ls - 1) ls]> (sdLogs s)) (sdLogSize s - 1) s)
  | touchChange _ => mret tt
  | accessListAddAccountChange a => modify (fun s => set_sdAccess (DeleteAddress (sdAccess s) a) s)
  | accessListAddSlotChange a slot =>
      s ← getS; al ← orPanic "reverting slot change" (DeleteSlot (sdAccess s) a slot); modify (set_sdAccess al)
  | transientStorageChange a k prev => modify (fun s => set_transient (ParallelState.transientSet (transientStorage s) a k prev) s)
  end.

(** [journal.revert], the entries from the last one on; [es] is in the order of undoing. *)
Fixpoint revertAll (es : list journalEntry) : run unit :=
  match es with
  | [] => mret tt
  | e :: es => _ ← revertEntry e; _ ← modify (fun s => set_jrn (jundirty e (jrn s)) s); revertAll es
  end.

Definition journalRevert (snapshot : nat) : run unit :=
  s ← getS;
  _ ← revertAll (reverse (drop snapshot (entries (jrn s))));
  modify (fun s => set_jrn (mkJournal (take snapshot (entries (jrn s))) (dirties (jrn s)) (validRevisions (jrn s)) (nextRevisionId (jrn s))) s).

Definition Snapshot : run Z :=
  s ← getS;
  let j := jrn s in
  _ ← modify (set_jrn (mkJournal (entries j) (dirties j) (validRevisions j ++ [(nextRevisionId j, length (entries j))]) (nextRevisionId j + 1)));
  mret (nextRevisionId j).

Definition RevertToSnapshot (revid : Z) : run unit :=
  s ← getS;
  let revs := validRevisions (jrn s) in
  let idx := sortSearch (length revs) (fun i => match revs !! i with Some r => revid <=? r.1 | None => true end) in
  match revs !! idx with
  | Some (id, snapshot) =>
      if negb (id =? revid) then panic "revision id cannot be reverted"
      else
        _ ← journalRevert snapshot;
        modify (fun s => set_jrn (mkJournal (entries (jrn s)) (dirties (jrn s)) (take idx (validRevisions (jrn s))) (nextRevisionId (jrn s))) s)
  | None => panic "revision id cannot be reverted"
  end.

(** *** The end of a transaction *)

Definition markDelete (a : Z) : run unit := modify (fun s => set_mutations (<[a := mkMutation deletion false]> (mutations s)) s).
Definition markUpdate (a : Z) : run unit := modify (fun s => set_mutations (<[a := mkMutation update false]> (mutations s)) s).

Definition finaliseDelete (a : Z) (o : stateObject) : run unit :=
  _ ← modify (fun s => set_objects (delete a (stateObjects s)) s);
  _ ← markDelete a;
  modify (fun s => set_destructs (match stateObjectsDestruct s !! a with
                                  | Some _ => stateObjectsDestruct s
                                  | None => <[a := o]> (stateObjectsDestruct s)
                                  end) ({[a]} ∪ currentBlockDestructs s) s).

(** [finalise] of an object: its slots one by one. *)
Definition finaliseSlot (a k v : Z) : run unit :=
  o ← objectAt a;
  _ ← (match uncommittedStorage o !! k with
       | Some org => if org =? v then updObject a (fun o => set_uncommittedStorage (delete k (uncommittedStorage o)) o) else mret tt
       | None => org ← objGetCommittedState a k; updObject a (fun o => set_uncommittedStorage (<[k := org]> (uncommittedStorage o)) o)
       end);
  updObject a (fun o => set_pendingStorage (<[k := v]> (pendingStorage o)) o).

Fixpoint finaliseSlots (a : Z) (kvs : list (Z * Z)) : run unit :=
  match kvs with
  | [] => updObject a (fun o => set_newContract false (set_dirtyStorage ∅ o))
  | (k, v) :: rest => _ ← finaliseSlot a k v; finaliseSlots a rest
  end.

Definition finalise (a : Z) (o : stateObject) : run unit :=
  _ ← finaliseSlots a (map_to_list (dirtyStorage o)); markUpdate a.

(** [finalisePromote]: the origin comes from the cache where there is one. *)
Definition promoteSlot (a k v : Z) : run unit :=
  o ← objectAt a;
  _ ← (match uncommittedStorage o !! k with
       | Some _ => mret tt
       | None =>
           org ← (match originStorage o !! k with Some org => mret org | None => objGetCommittedState a k end);
           updObject a (fun o => set_uncommittedStorage (<[k := org]> (uncommittedStorage o)) o)
       end);
  updObject a (fun o => set_pendingStorage (<[k := v]> (pendingStorage o)) o).

Fixpoint promoteSlots (a : Z) (kvs : list (Z * Z)) : run unit :=
  match kvs with
  | [] => updObject a (fun o => set_newContract false (set_dirtyStorage ∅ o))
  | (k, v) :: rest => _ ← promoteSlot a k v; promoteSlots a rest
  end.

Definition finalisePromote (a : Z) (o : stateObject) : run unit :=
  _ ← promoteSlots a (map_to_list (dirtyStorage o)); markUpdate a.

Definition clearJournalAndRefund : run unit := modify (fun s => set_sdRefund 0 (set_jrn (jreset (jrn s)) s)).

(** The loop over the dirty addresses, with what is done to an object that stays. *)
Fixpoint finaliseLoop (keep : Z -> stateObject -> run unit) (deleteEmptyObjects : bool) (addrs : list Z) : run unit :=
  match addrs with
  | [] => mret tt
  | a :: rest =>
      s ← getS;
      _ ← (match stateObjects s !! a with
           | None => mret tt
           | Some o => if selfDestructed o || (deleteEmptyObjects && empty o) then finaliseDelete a o else keep a o
           end);
      finaliseLoop keep deleteEmptyObjects rest
  end.

Definition Finalise (deleteEmptyObjects : bool) : run unit :=
  s ← getS;
  _ ← finaliseLoop finalise deleteEmptyObjects (elements (dom (dirties (jrn s))));
  clearJournalAndRefund.

Definition FinaliseFast (deleteEmptyObjects : bool) : run unit :=
  s ← getS;
  _ ← finaliseLoop finalisePromote deleteEmptyObjects (elements (dom (dirties (jrn s))));
  clearJournalAndRefund.

(** *** Settlement without a journal *)

Definition SetNonceDirect (a n : Z) : run unit :=
  _ ← getOrNewStateObject a; _ ← dirty a; _ ← markUpdate a; updObject a (setNonce n).

Definition AddBalanceDirect (a amount : Z) : run unit :=
  o ← getOrNewStateObject a;
  if amount =? 0 then (if empty o then journTouch a else mret tt)
  else _ ← dirty a; _ ← markUpdate a; updObject a (setBalance (u256 (Balance (data o) + amount))).

Definition SubBalanceDirect (a amount : Z) : run unit :=
  o ← getOrNewStateObject a;
  _ ← dirty a; _ ← markUpdate a; updObject a (setBalance (u256 (Balance (data o) - amount))).

(** One slot of [SetStorageDirectWithOrigins]; a missing origin leaves the cache alone. *)
Definition directSlot (origins : gmap Z Z) (o : stateObject) (kv : Z * Z) : stateObject :=
  let o := set_dirtyStorage (<[kv.1 := kv.2]> (dirtyStorage o)) o in
  match originStorage o !! kv.1, origins !! kv.1 with
  | None, Some org => set_originStorage (<[kv.1 := org]> (originStorage o)) o
  | _, _ => o
  end.

Definition SetStorageDirectWithOrigins (a : Z) (slots origins : gmap Z Z) : run unit :=
  if bool_decide (slots = ∅) then mret tt
  else
    _ ← getOrNewStateObject a; _ ← dirty a; _ ← markUpdate a;
    updObject a (fun o => fold_left (directSlot origins) (map_to_list slots) o).

(** *** The changes an object brings to its storage trie ([updateTrie]): slots whose
    value differs from the origin. *)
Definition trieChanges (o : stateObject) : gmap Z Z :=
  merge (fun org v => match org, v with
                      | Some org, Some v => if v =? org then None else Some v
                      | _, _ => None
                      end) (uncommittedStorage o) (pendingStorage o).

(** *** Flat changes of a block *)

Definition captureMutation (s : StateDB) (diff : FlatDiff) (p : Z * mutation) : FlatDiff :=
  let '(a, op) := p in
  if isDelete op then mkFlatDiff (Accounts diff) (Storage diff) ({[a]} ∪ Destructs diff) (Code diff)
  else
    match stateObjects s !! a with
    | None => diff
    | Some o =>
        mkFlatDiff (<[a := data o]> (Accounts diff))
          (if bool_decide (pendingStorage o = ∅) then Storage diff else <[a := pendingStorage o]> (Storage diff))
          (Destructs diff)
          (if dirtyCode o then <[CodeHash (data o) := code o]> (Code diff) else Code diff)
    end.

(** [CommitSnapshot], less the sets of reads for the witness. *)
Definition CommitSnapshot (deleteEmptyObjects : bool) : run FlatDiff :=
  _ ← Finalise deleteEmptyObjects;
  s ← getS;
  let diff := mkFlatDiff ∅ ∅ (dom (stateObjectsDestruct s)) ∅ in
  mret (fold_left (captureMutation s) (map_to_list (mutations s)) diff).

End state.

End StateDB.
