(* ===== verification/SerialRun.v ===== *)
(** * Serial execution and settlement on the block's state

    The operations of the EVM's interface on a [StateDB], the end of a transaction on the
    serial path (core/state_processor.go), and the settlement of a transaction that was
    executed in parallel (core/state/parallel_statedb_settle.go and the settle callback of
    core/parallel_state_processor.go).  Transfer and fee logs are made outside of this
    code; here they are the records that are handed over. *)

From S2P Require Import Prelude Bytes MvStore ParallelState StateDB.
Import MvStore.

Module SerialRun.

Import StateDB.

Abbreviation Op := ParallelState.Op (only parsing).
Abbreviation Answer := ParallelState.Answer (only parsing).

Section serial.
Context (keccak : list Z -> Z) (reader : Reader).

(** ** The interface of the EVM *)

Definition ansNum (m : run Z) : run Answer := n ← m; mret (ParallelState.aNum n).
Definition ansBool (m : run bool) : run Answer := b ← m; mret (ParallelState.aBool b).
Definition ansUnit (m : run unit) : run Answer := _ ← m; mret ParallelState.aUnit.
Definition ansDrop (m : run Z) : run Answer := _ ← m; mret ParallelState.aUnit.
Definition ansCode (m : run (list Z)) : run Answer := l ← m; mret (ParallelState.aBytes l).

(** [Prepare] under Berlin rules. *)
Definition Prepare (isShanghai : bool) (sender coinbase : Z) (dst : option Z) (precompiles : list Z)
    (list_ : list (Z * list Z)) : run unit :=
  let al := (ParallelState.AddAddress ParallelState.newAccessList sender).1 in
  let al := match dst with Some d => (ParallelState.AddAddress al d).1 | None => al end in
  let al := fold_left (fun al a => (ParallelState.AddAddress al a).1) precompiles al in
  let al := fold_left (fun al el => fold_left (fun al k => (ParallelState.AddSlot al el.1 k).1.1) el.2
                                      (ParallelState.AddAddress al el.1).1) list_ al in
  let al := if isShanghai then (ParallelState.AddAddress al coinbase).1 else al in
  modify (fun s => set_transient ∅ (set_sdAccess al s)).

Definition perform (o : Op) : run Answer :=
  match o with
  | ParallelState.oExist a => ansBool (Exist keccak reader a)
  | ParallelState.oEmpty a => ansBool (Empty keccak reader a)
  | ParallelState.oGetBalance a => ansNum (GetBalance keccak reader a)
  | ParallelState.oAddBalance a v => ansDrop (AddBalance keccak reader a v)
  | ParallelState.oSubBalance a v => ansDrop (SubBalance keccak reader a v)
  | ParallelState.oSetBalance a v => ansDrop (SetBalance keccak reader a v)
  | ParallelState.oGetNonce a => ansNum (GetNonce keccak reader a)
  | ParallelState.oSetNonce a n => ansUnit (SetNonce keccak reader a n)
  | ParallelState.oGetCode a => ansCode (GetCode keccak reader a)
  | ParallelState.oGetCodeSize a => ansNum (GetCodeSize keccak reader a)
  | ParallelState.oGetCodeHash a => ansNum (GetCodeHash keccak reader a)
  | ParallelState.oSetCode a c => ansCode (SetCode keccak reader a c)
  | ParallelState.oGetState a k => ansNum (GetState keccak reader a k)
  | ParallelState.oGetCommittedState a k => ansNum (GetCommittedState keccak reader a k)
  | ParallelState.oGetStateAndCommittedState a k => p ← GetStateAndCommittedState keccak reader a k; mret (ParallelState.aNums p.1 p.2)
  | ParallelState.oSetState a k v => ansNum (SetState keccak reader a k v)
  | ParallelState.oGetStorageRoot a => ansNum (GetStorageRoot keccak reader a)
  | ParallelState.oAddRefund g => ansUnit (AddRefund g)
  | ParallelState.oSubRefund g => ansUnit (SubRefund g)
  | ParallelState.oGetRefund => s ← getS; mret (ParallelState.aNum (sdRefund s))
  | ParallelState.oAddressInAccessList a => s ← getS; mret (ParallelState.aBool (ParallelState.ContainsAddress (sdAccess s) a))
  | ParallelState.oSlotInAccessList a k => s ← getS; let p := ParallelState.Contains (sdAccess s) a k in mret (ParallelState.aBools p.1 p.2)
  | ParallelState.oAddAddressToAccessList a => ansUnit (AddAddressToAccessList a)
  | ParallelState.oAddSlotToAccessList a k => ansUnit (AddSlotToAccessList a k)
  | ParallelState.oGetTransientState a k => s ← getS; mret (ParallelState.aNum (ParallelState.transientGet (transientStorage s) a k))
  | ParallelState.oSetTransientState a k v => ansUnit (SetTransientState a k v)
  | ParallelState.oSelfDestruct a => ansNum (SelfDestruct keccak reader a)
  | ParallelState.oHasSelfDestructed a => ansBool (HasSelfDestructed keccak reader a)
  | ParallelState.oSelfDestruct6780 a => p ← SelfDestruct6780 keccak reader a; mret (ParallelState.aNumBool p.1 p.2)
  | ParallelState.oCreateAccount a => ansUnit (CreateAccount keccak a)
  | ParallelState.oCreateContract a => ansUnit (CreateContract keccak reader a)
  | ParallelState.oSnapshot => ansNum Snapshot
  | ParallelState.oRevertToSnapshot id => ansUnit (RevertToSnapshot keccak reader id)
  | ParallelState.oAddLog l => ansUnit (AddLog l)
  | ParallelState.oAddPreimage h p => ansUnit (AddPreimage h p)
  | ParallelState.oRecordTransfer _ _ _ => mret (ParallelState.aBool false)
  | ParallelState.oPrepare sh se co de pr al => ansUnit (Prepare sh se co de pr al)
  end.

(** The result of a message, or its error. *)
Fixpoint runProg (p : ParallelState.prog) : run (option ParallelState.TxResult) :=
  match p with
  | ParallelState.pDone r => mret (Some r)
  | ParallelState.pFail _ => mret None
  | ParallelState.pPanic w => panic w
  | ParallelState.pDo o k => a ← perform o; runProg (k a)
  end.

(** A log this code adds: one of the execution, a transfer with its balances before
    and after, or the fee of the transaction. *)
Inductive settleLog : Type :=
| execLog (body : Z)
| transferLog (sender recipient amount input1 input2 output1 output2 : Z)
| feeLog (sender recipient amount input1 input2 output1 output2 : Z).

Context (logBody : settleLog -> Z).
(** Whether the chain has the logs of Bor, and whether London is active. *)
Context (borLogs isLondon : bool).

(** [BigIntToUint256Int]: the bytes of the absolute value. *)
Definition BigIntToUint256Int (x : Z) : Z := u256 (Z.abs x).

(** The end of [execute] when it pays the fees itself and leaves the log to the caller
    ([ApplyMessageNoFeeLog]), after a message that pays nothing. *)
Fixpoint withFees (coinbase : Z) (p : ParallelState.prog) : ParallelState.prog :=
  match p with
  | ParallelState.pDone r =>
      let tip := ParallelState.pDo (ParallelState.oAddBalance coinbase (BigIntToUint256Int (default 0 (ParallelState.FeeTipped r))))
                   (fun _ => ParallelState.pDone r) in
      match ParallelState.FeeBurnt r with
      | Some b => ParallelState.pDo (ParallelState.oAddBalance (ParallelState.BurntContractAddress r) (BigIntToUint256Int b)) (fun _ => tip)
      | None => tip
      end
  | ParallelState.pDo o k => ParallelState.pDo o (fun a => withFees coinbase (k a))
  | ParallelState.pFail _ | ParallelState.pPanic _ => p
  end.

(** [AddFeeTransferLog]. *)
Definition AddFeeTransferLog (sender recipient amount input1 input2 output1 output2 : Z) : run unit :=
  if amount <=? 0 then mret tt else AddLog (logBody (feeLog sender recipient amount input1 input2 output1 output2)).

(** A transaction of the serial processor ([SetTxContext], [ApplyTransactionWithEVM] after
    Byzantium): the message pays no fees, they are paid here. *)
Definition applyTransaction (coinbase hash idx sender : Z) (p : ParallelState.prog) : run (option ParallelState.TxResult) :=
  _ ← modify (SetTxContext hash idx);
  pre ← GetBalance keccak reader coinbase;
  r ← runProg p;
  match r with
  | None => mret None
  | Some r =>
      _ ← (match ParallelState.FeeBurnt r with
           | Some b => if isLondon then _ ← AddBalance keccak reader (ParallelState.BurntContractAddress r) (BigIntToUint256Int b); mret tt
                       else mret tt
           | None => mret tt
           end);
      tip ← orPanic nilDeref (ParallelState.FeeTipped r);
      _ ← AddBalance keccak reader coinbase (BigIntToUint256Int tip);
      init ← orPanic nilDeref (ParallelState.SenderInitBalance r);
      _ ← (if borLogs then AddFeeTransferLog sender coinbase tip init pre (init - tip) (pre + tip) else mret tt);
      _ ← Finalise keccak reader true;
      mret (Some r)
  end.

(** The loop of the serial processor: the first error ends the block. *)
Fixpoint process (coinbase idx : Z) (txs : list (Z * Z * ParallelState.prog)) : run (option (list ParallelState.TxResult)) :=
  match txs with
  | [] => mret (Some [])
  | (hash, sender, p) :: rest =>
      r ← applyTransaction coinbase hash idx sender p;
      match r with
      | None => mret None
      | Some r => rs ← process coinbase (idx + 1) rest; mret (match rs with Some rs => Some (r :: rs) | None => None end)
      end
  end.

(** ** Settlement *)

(** The state of the pre-block base that settlement asks for origins. *)
Context (baseState : Z -> Z -> Z).

Fixpoint settleNonces (ns : list (Z * Z)) : run unit :=
  match ns with
  | [] => mret tt
  | (a, n) :: rest => _ ← SetNonceDirect keccak reader a n; settleNonces rest
  end.

Fixpoint settleStorage (ss : list (Z * gmap Z Z)) : run unit :=
  match ss with
  | [] => mret tt
  | (a, slots) :: rest =>
      _ ← SetStorageDirectWithOrigins keccak reader a slots (map_imap (fun k _ => Some (baseState a k)) slots);
      settleStorage rest
  end.

Fixpoint settleCode (cs : list (Z * list Z)) : run unit :=
  match cs with
  | [] => mret tt
  | (a, c) :: rest => _ ← SetCode keccak reader a c; settleCode rest
  end.

(** [amt.Sign()] takes the amount as a signed number. *)
Definition emitTransferLog (tr : ParallelState.TransferRecord) : run unit :=
  let amt := ParallelState.trAmount tr in
  if (amt =? 0) || (2 ^ 255 <=? amt) || negb borLogs then mret tt
  else if ParallelState.trSender tr =? ParallelState.trRecipient tr then
    in1 ← GetBalance keccak reader (ParallelState.trSender tr);
    AddLog (logBody (transferLog (ParallelState.trSender tr) (ParallelState.trRecipient tr) amt in1 in1 in1 in1))
  else
    post1 ← GetBalance keccak reader (ParallelState.trSender tr);
    post2 ← GetBalance keccak reader (ParallelState.trRecipient tr);
    AddLog (logBody (transferLog (ParallelState.trSender tr) (ParallelState.trRecipient tr) amt
                       (post1 + amt) (post2 - amt) post1 post2)).

Fixpoint addLogs (ls : list Z) : run unit :=
  match ls with [] => mret tt | l :: rest => _ ← AddLog (logBody (execLog l)); addLogs rest end.

(** [tryEmitTransferAt] at [opIdx]: the transfer that starts there, if any. *)
Definition transferAt (l : ParallelState.Local) (opIdx transferIdx : nat) : option ParallelState.TransferRecord :=
  match ParallelState.Transfers l !! transferIdx with
  | None => None
  | Some tr =>
      if negb (bool_decide (opIdx = ParallelState.BalanceOpsIdx tr)) then None
      else
        match ParallelState.BalanceOps l !! opIdx, ParallelState.BalanceOps l !! S opIdx with
        | Some op, Some op2 =>
            if ParallelState.boIsAdd op || negb (ParallelState.boAddr op =? ParallelState.trSender tr)
               || negb (ParallelState.boAmount op =? ParallelState.trAmount tr) then None
            else if negb (ParallelState.boIsAdd op2) || negb (ParallelState.boAddr op2 =? ParallelState.trRecipient tr)
               || negb (ParallelState.boAmount op2 =? ParallelState.trAmount tr) then None
            else Some tr
        | _, _ => None
        end
  end.

(** The loop over the balance operations; each turn takes one or two of them. *)
Fixpoint settleOps (fuel : nat) (l : ParallelState.Local) (opIdx transferIdx logIdx : nat) : run nat :=
  match fuel with
  | O => mret logIdx
  | S fuel' =>
      match ParallelState.BalanceOps l !! opIdx with
      | None => mret logIdx
      | Some op =>
          match transferAt l opIdx transferIdx with
          | Some tr =>
              let upto := Nat.max logIdx (Nat.min (length (ParallelState.logs l)) (ParallelState.LogIdx tr)) in
              _ ← addLogs (take (upto - logIdx) (drop logIdx (ParallelState.logs l)));
              _ ← SubBalanceDirect keccak reader (ParallelState.trSender tr) (ParallelState.trAmount tr);
              _ ← AddBalanceDirect keccak reader (ParallelState.trRecipient tr) (ParallelState.trAmount tr);
              _ ← emitTransferLog tr;
              settleOps fuel' l (S (S opIdx)) (S transferIdx) upto
          | None =>
              _ ← (if ParallelState.boIsAdd op then AddBalanceDirect keccak reader (ParallelState.boAddr op) (ParallelState.boAmount op)
                   else SubBalanceDirect keccak reader (ParallelState.boAddr op) (ParallelState.boAmount op));
              settleOps fuel' l (S opIdx) transferIdx logIdx
          end
      end
  end.

Definition settleBalanceOpsAndLogs (l : ParallelState.Local) : run unit :=
  logIdx ← settleOps (length (ParallelState.BalanceOps l)) l 0 0 0;
  addLogs (drop logIdx (ParallelState.logs l)).

Fixpoint settleDestructed (ds : list Z) : run unit :=
  match ds with [] => mret tt | a :: rest => _ ← SelfDestruct keccak reader a; settleDestructed rest end.

Fixpoint settleCreated (cs : list Z) : run unit :=
  match cs with
  | [] => mret tt
  | a :: rest =>
      ex ← Exist keccak reader a;
      _ ← (if ex : bool then mret tt else CreateAccount keccak a);
      settleCreated rest
  end.

Fixpoint settlePreimages (ps : list (Z * list Z)) : run unit :=
  match ps with [] => mret tt | (h, p) :: rest => _ ← AddPreimage h p; settlePreimages rest end.

Definition settleAccountSet (l : ParallelState.Local) : run unit :=
  _ ← settleDestructed (elements (ParallelState.destructed l));
  _ ← settleCreated (elements (ParallelState.created l));
  settlePreimages (map_to_list (ParallelState.preimages l)).

(** [applyFeeData] with the balances applied during execution: only the log is left. *)
Definition applyFeeData (l : ParallelState.Local) (preTxCoinbaseBal : Z) : run unit :=
  match ParallelState.Result l with
  | Some (ParallelState.mkTxResult _ _ _ (Some tip) _ init) =>
      if negb borLogs || (tip <=? 0) then mret tt
      else
        match init with
        | Some init => AddFeeTransferLog (ParallelState.Sender l) (ParallelState.Coinbase l) tip init preTxCoinbaseBal
                         (init - tip) (preTxCoinbaseBal + tip)
        | None => panic nilDeref
        end
  | _ => mret tt
  end.

Definition SettleTo (l : ParallelState.Local) : run unit :=
  pre ← GetBalance keccak reader (ParallelState.Coinbase l);
  _ ← settleNonces (map_to_list (ParallelState.localNonces l));
  _ ← settleStorage (map_to_list (ParallelState.localStorage l));
  _ ← settleCode (map_to_list (ParallelState.localCode l));
  _ ← settleBalanceOpsAndLogs l;
  _ ← settleAccountSet l;
  _ ← applyFeeData l pre;
  FinaliseFast keccak reader true.

(** What the settle callback keeps for the caller, beside the state: the receipts of the
    transactions settled (status, gas, cumulative gas), the first panicked transaction,
    the first failed one and whether a base read failed. *)
Record settleAcc : Type := mkSettleAcc {
  receipts : list (Z * Z * bool);
  totalUsedGas : Z;
  panickedIdx : Z;
  execErrIdx : Z;
  readErr : bool
}.

Definition newSettleAcc : settleAcc := mkSettleAcc [] 0 (-1) (-1) false.

(** The callback of [newV2SettleFn] for a transaction with hash [hash] and index [idx]
    (after Byzantium: no intermediate root). *)
Definition settleFn (hash idx : Z) (o : option ParallelState.PDB) (acc : settleAcc) : run settleAcc :=
  match o with
  | None => mret acc
  | Some p =>
      let l := ParallelState.loc p in
      if ParallelState.Panicked l then
        mret (mkSettleAcc (receipts acc) (totalUsedGas acc) (if panickedIdx acc <? 0 then idx else panickedIdx acc)
                (execErrIdx acc) (readErr acc))
      else if bool_decide (is_Some (ParallelState.ExecErr l)) then
        mret (mkSettleAcc (receipts acc) (totalUsedGas acc) (panickedIdx acc)
                (if execErrIdx acc <? 0 then idx else execErrIdx acc) (readErr acc))
      else if ParallelState.BaseReadErr (ParallelState.trk p) then
        mret (mkSettleAcc (receipts acc) (totalUsedGas acc) (panickedIdx acc) (execErrIdx acc) true)
      else
        _ ← modify (SetTxContext hash idx);
        _ ← SettleTo l;
        let gas := match ParallelState.Result l with Some r => ParallelState.UsedGas r | None => 0 end in
        let failed := match ParallelState.Result l with Some r => ParallelState.ExecFailed r | None => false end in
        let total := u64 (totalUsedGas acc + gas) in
        mret (mkSettleAcc (receipts acc ++ [(gas, total, negb failed)]) total (panickedIdx acc) (execErrIdx acc) (readErr acc))
  end.

End serial.

End SerialRun.
