(* ===== verification/SettleProps.v ===== *)
(** * Where settlement and serial execution part

    Two blocks, run by the parallel executor and settled on a [StateDB], and run by the
    serial processor on the same state.  In the first an account that its own transaction
    destroys is paid afterwards: the balance store keeps the payment.  In the second a
    contract is destroyed and created again with the storage it had: the origin of the slot
    is taken from the state before the block and the slot never reaches the trie. *)

From S2P Require Import Prelude Bytes MvStore ParallelState V2Exec V2Run StateDB SerialRun.
Import MvStore.

Module SettleProps.

Import ParallelState.

Definition keccak0 (l : list Z) : Z := 0.

Definition returns (gas : Z) : prog := pDone (mkTxResult gas false None (Some 0) 0 (Some 0)).

(** One message after the other, their answers ignored. *)
Fixpoint sequence (os : list Op) (k : prog) : prog :=
  match os with [] => k | o :: os => pDo o (fun _ => sequence os k) end.

(** The schedule in which each transaction runs to its end before the next is settled. *)
Definition oneByOne : list V2Run.choice :=
  [V2Run.cDispatch; V2Run.cTake; V2Run.cDispatch; V2Run.cTake] ++ replicate 40 (V2Run.cWork 0) ++ replicate 40 (V2Run.cWork 1)
  ++ replicate 60 V2Run.cValidate ++ [V2Run.cSettle; V2Run.cSettle].

Definition parallelRun (base : SafeBase) (txs : list prog) : list (option PDB) :=
  map snd (V2Exec.settled (V2Run.runSchedule keccak0 base 1 (imap (fun i p => mkTask (Z.of_nat i) (10 + Z.of_nat i) None [] (SerialRun.withFees 99 p)) txs)
                             ∅ 99 2 oneByOne)).

(** The state after settlement of all of [ps]. *)
Fixpoint settleAll (reader : StateDB.Reader) (baseState : Z -> Z -> Z) (ps : list (option PDB)) (acc : SerialRun.settleAcc)
    (idx : Z) (s : StateDB.StateDB) : option StateDB.StateDB :=
  match ps with
  | [] => Some s
  | p :: rest =>
      match SerialRun.settleFn keccak0 reader (fun _ => 0) true baseState (100 + idx) idx p acc s with
      | Done s' acc' => settleAll reader baseState rest acc' (idx + 1) s'
      | _ => None
      end
  end.

Definition serialRun (reader : StateDB.Reader) (txs : list prog) : option (StateDB.StateDB * option (list TxResult)) :=
  match SerialRun.process keccak0 reader (fun _ => 0) true true 99 0 (imap (fun i p => (100 + Z.of_nat i, 10 + Z.of_nat i, p)) txs) StateDB.NewStateDB with
  | Done s rs => Some (s, rs)
  | _ => None
  end.

(** ** A payment to a destroyed account

    The first transaction creates contract 6, which destroys itself (EIP-6780), and then
    pays 7 to it.  The second asks for the balance of 6 and returns it as its gas. *)

Definition payDestroyed : list prog :=
  [sequence [oCreateAccount 6; oCreateContract 6; oSetNonce 6 1; oSelfDestruct6780 6; oSubBalance 10 7; oAddBalance 6 7] (returns 1);
   pDo (oGetBalance 6) (fun a => match a with aNum n => returns n | _ => pPanic "type" end)].

Definition richBase : SafeBase :=
  mkBase (fun a => (a =? 10, false)) (fun a => (if a =? 10 then 100 else 0, false)) (fun _ => (0, false)) (fun _ => ([], false))
    (fun _ => (0, false)) (fun _ _ => (0, false)) (fun _ _ => (0, false)) (fun _ => (0, false)).

Definition richReader : StateDB.Reader :=
  StateDB.mkReader (fun a => (if a =? 10 then Some (StateDB.mkAccount 0 100 StateDB.EmptyRootHash 0) else None, false))
    (fun _ _ => (0, false)) (fun _ _ => ([], false)) (fun _ _ => (0, false)).

Definition gasOfTx (p : option PDB) : option Z :=
  match p with Some p => option_map UsedGas (Result (loc p)) | None => None end.

(** The parallel executor settles the second transaction with the balance 7; serially the
    account is gone and its balance is 0. *)
Theorem destroyed_balance_survives :
  map gasOfTx (parallelRun richBase payDestroyed) = [Some 1; Some 7]
  /\ option_map (fun p => option_map (map UsedGas) p.2) (serialRun richReader payDestroyed) = Some (Some [1; 0]).
Proof. split; vm_compute; reflexivity. Qed.

(** ** A contract created again

    Contract 6 has 5 in slot 1.  The first transaction destroys it (before EIP-6780), the
    second creates it again and writes 5 to slot 1. *)

Definition recreate : list prog :=
  [sequence [oSelfDestruct 6] (returns 1);
   sequence [oCreateAccount 6; oCreateContract 6; oSetNonce 6 1; oSetState 6 1 5] (returns 1)].

Definition slotOf6 (a k : Z) : Z := if (a =? 6) && (k =? 1) then 5 else 0.

Definition contractBase : SafeBase :=
  mkBase (fun a => (a =? 6, false)) (fun _ => (0, false)) (fun a => (if a =? 6 then 1 else 0, false)) (fun _ => ([], false))
    (fun _ => (0, false)) (fun a k => (slotOf6 a k, false)) (fun a k => (slotOf6 a k, false)) (fun _ => (0, false)).

Definition contractReader : StateDB.Reader :=
  StateDB.mkReader (fun a => (if a =? 6 then Some (StateDB.mkAccount 1 0 77 0) else None, false))
    (fun a k => (slotOf6 a k, false)) (fun _ _ => ([], false)) (fun _ _ => (0, false)).

(** What an account brings to its storage trie. *)
Definition changesOf (a : Z) (s : option StateDB.StateDB) : option (list (Z * Z)) :=
  match s with
  | Some s => option_map (fun o => map_to_list (StateDB.trieChanges o)) (StateDB.stateObjects s !! a)
  | None => None
  end.

(** Settled, the new contract leaves its (empty) storage trie unchanged; serially it gets
    the slot. *)
Theorem recreated_slot_is_lost :
  changesOf 6 (settleAll contractReader slotOf6 (parallelRun contractBase recreate) SerialRun.newSettleAcc 0 StateDB.NewStateDB) = Some []
  /\ changesOf 6 (option_map fst (serialRun contractReader recreate)) = Some [(1, 5)].
Proof. split; vm_compute; reflexivity. Qed.

End SettleProps.
