(* ===== verification/StateRel.v ===== *)
(** * States that cannot be told apart

    What a [StateDB] answers is a function of its objects, of the overlay of the parent's
    changes and of the reader; how much of it has been cached is not to be seen.  [stRel]
    relates two states, on two readers, that answer alike; the operations keep related
    states related (in [StateOps]), and so does undoing an entry of the journal, which is
    proved here. *)

From S2P Require Import Prelude Bytes MvStore ParallelState StateDB.
Import MvStore.

Module StateRel.

Import StateDB.

Section views.
Context (keccak : list Z -> Z).

(** ** What a state answers *)

(** What the overlay says of an account the block has not changed. *)
Definition covered (s : StateDB) (a : Z) : option (option StateAccount) :=
  if hasAccountMutation s a then None else accountOverlay (flatDiffRef s) a.

Definition flatObject (s : StateDB) (acct : StateAccount) : stateObject :=
  mkObject (Some acct) acct true
    (match flatDiffRef s with Some d => default [] (Code d !! CodeHash acct) | None => [] end) ∅ ∅ ∅ ∅ false false false.

(** The object at [a] when the overlay says [c] and the map holds [m] there. *)
Definition lookAt (c : option (option StateAccount)) (r : Reader) (s : StateDB) (a : Z) (m : option stateObject) : option stateObject :=
  match c with
  | Some None => None
  | Some (Some acct) =>
      match m with
      | Some o => if fromFlatDiff o then Some o else Some (flatObject s acct)
      | None => Some (flatObject s acct)
      end
  | None =>
      match m with
      | Some o => Some o
      | None =>
          if bool_decide (is_Some (stateObjectsDestruct s !! a)) then None
          else match rdAccount r a with (Some acct, false) => Some (newObject keccak (Some acct)) | _ => None end
      end
  end.

Definition look (r : Reader) (s : StateDB) (a : Z) (m : option stateObject) : option stateObject := lookAt (covered s a) r s a m.

Definition peek (r : Reader) (s : StateDB) (a : Z) : option stateObject := look r s a (stateObjects s !! a).

(** A slot of an account before any cache of its object. *)
Definition baseOf (r : Reader) (s : StateDB) (a k : Z) : Z :=
  if bool_decide (a ∈ currentBlockDestructs s) then 0
  else
    match storageOverlay (flatDiffRef s) a k with
    | Some v => v
    | None =>
        if bool_decide (is_Some (stateObjectsDestruct s !! a)) then 0
        else match rdStorage r a k with (v, false) => v | (_, true) => 0 end
    end.

Definition committedOf (r : Reader) (s : StateDB) (a : Z) (o : stateObject) (k : Z) : Z :=
  match pendingStorage o !! k with
  | Some v => v
  | None =>
      if bool_decide (a ∈ currentBlockDestructs s) then 0
      else
        match storageOverlay (flatDiffRef s) a k with
        | Some v => v
        | None => match originStorage o !! k with Some v => v | None => baseOf r s a k end
        end
  end.

(** A slot as the running transaction sees it. *)
Definition valueOf (r : Reader) (s : StateDB) (a : Z) (o : stateObject) (k : Z) : Z := default (committedOf r s a o k) (dirtyStorage o !! k).

Definition codeOf (r : Reader) (a : Z) (o : stateObject) : list Z :=
  if negb (bool_decide (code o = [])) then code o
  else if CodeHash (data o) =? EmptyCodeHash keccak then []
  else (rdCode r a (CodeHash (data o))).1.

(** What slots below the objects depend on, what objects depend on, and everything the
    operations look at besides the map of objects. *)
Definition slots (s : StateDB) := (stateObjectsDestruct s, currentBlockDestructs s, flatDiffRef s).
Definition frame (s : StateDB) := (jrn s, mutations s, stateObjectsDestruct s, currentBlockDestructs s, flatDiffRef s).
Definition env (s : StateDB) :=
  (sdRefund s, thash s, txIndex s, sdLogs s, sdLogSize s, sdAccess s, transientStorage s,
   jrn s, mutations s, stateObjectsDestruct s, currentBlockDestructs s, flatDiffRef s).

Lemma env_frame s t : env s = env t -> frame s = frame t.
Proof. unfold env, frame. by intros [= ? ? ? ? ? ? ? -> -> -> -> ->]. Qed.

Lemma frame_slots s t : frame s = frame t -> slots s = slots t.
Proof. unfold frame, slots. by intros [= ? ? -> -> ->]. Qed.

#[local] Hint Resolve env_frame frame_slots : core.

Lemma frame_covered s t a : frame s = frame t -> covered s a = covered t a.
Proof. intros [= Hj Hm Hd Hc Hf]. unfold covered, hasAccountMutation. by rewrite Hj, Hm, Hf. Qed.

Lemma slots_lookAt c r s t a m : slots s = slots t -> lookAt c r s a m = lookAt c r t a m.
Proof. intros [= Hd Hc Hf]. unfold lookAt, flatObject. by rewrite Hd, Hf. Qed.

Lemma frame_look r s t a m : frame s = frame t -> look r s a m = look r t a m.
Proof. intros H. unfold look. rewrite (frame_covered s t a H). by apply slots_lookAt, frame_slots. Qed.

Lemma slots_baseOf r s t a k : slots s = slots t -> baseOf r s a k = baseOf r t a k.
Proof. intros [= Hd Hc Hf]. unfold baseOf. by rewrite Hc, Hd, Hf. Qed.

Lemma slots_committedOf r s t a o k : slots s = slots t -> committedOf r s a o k = committedOf r t a o k.
Proof. intros H. unfold committedOf. rewrite (slots_baseOf r s t) by done. injection H as Hd Hc Hf. by rewrite Hc, Hf. Qed.

Lemma look_again r s a m o : look r s a m = Some o -> look r s a (Some o) = Some o.
Proof.
  unfold look, lookAt. destruct (covered s a) as [[acct|]|]; [|done|done].
  destruct m as [x|]; [destruct (fromFlatDiff x) eqn:E|]; intros [= <-]; by rewrite ?E.
Qed.

(** ** Reading an account *)

Lemma getStateObject_spec r s a :
  exists t, getStateObject keccak r a s = Done t (peek r s a) /\ env t = env s /\
    (forall b, b <> a -> stateObjects t !! b = stateObjects s !! b) /\
    (forall o, peek r s a = Some o -> stateObjects t !! a = Some o) /\
    (peek r s a = None -> stateObjects t = stateObjects s).
Proof.
  assert (Hput : forall s' o, env s' = env s -> stateObjects s' = <[a := o]> (stateObjects s) -> peek r s a = Some o ->
    exists t, Done (E := Empty_set) s' (Some o) = Done t (peek r s a) /\ env t = env s /\
    (forall b, b <> a -> stateObjects t !! b = stateObjects s !! b) /\
    (forall o, peek r s a = Some o -> stateObjects t !! a = Some o) /\
    (peek r s a = None -> stateObjects t = stateObjects s)).
  { intros s' o He Hs ->. exists s'. split_and!; [done|done| | |done]; rewrite Hs.
    - intros b Hb. by apply lookup_insert_ne.
    - intros o' [= <-]. apply lookup_insert_eq. }
  assert (Hsame : forall s' x, env s' = env s -> stateObjects s' = stateObjects s -> peek r s a = x ->
    (forall o, x = Some o -> stateObjects s !! a = Some o) ->
    exists t, Done (E := Empty_set) s' x = Done t (peek r s a) /\ env t = env s /\
    (forall b, b <> a -> stateObjects t !! b = stateObjects s !! b) /\
    (forall o, peek r s a = Some o -> stateObjects t !! a = Some o) /\
    (peek r s a = None -> stateObjects t = stateObjects s)).
  { intros s' x He Hs -> Hx. exists s'. rewrite Hs. split_and!; try done. }
  unfold getStateObject, flatDiffStateObject, setStateObject, setError. rewrite (bind_eq getS _ s s s eq_refl).
  unfold peek, look, lookAt in *. fold (covered s a). destruct (covered s a) as [[acct|]|] eqn:Hc.
  - destruct (stateObjects s !! a) as [o|] eqn:Ho; [destruct (fromFlatDiff o) eqn:Ef|].
    + apply Hsame; naive_solver.
    + by apply Hput.
    + by apply Hput.
  - by apply Hsame.
  - destruct (stateObjects s !! a) as [o|] eqn:Ho; [apply Hsame; naive_solver|].
    case_bool_decide as Hd; [by apply Hsame|]. destruct (rdAccount r a) as [[acct|] []] eqn:Hr.
    + by apply Hsame.
    + by apply Hput.
    + by apply Hsame.
    + by apply Hsame.
Qed.

(** ** Related objects *)

(** Two objects at [a] that answer alike, the second with at least the code loaded that the
    first has.  [rt] says for which accounts the storage roots have to be equal. *)
Record objRel (rt : Z -> Prop) (r : Reader) (s : StateDB) (r' : Reader) (s' : StateDB) (a : Z) (o o' : stateObject) : Prop := mkObjRel {
  or_nonce : Nonce (data o) = Nonce (data o');
  or_balance : Balance (data o) = Balance (data o');
  or_hash : CodeHash (data o) = CodeHash (data o');
  or_root : rt a -> Root (data o) = Root (data o');
  or_code : codeOf r a o = codeOf r' a o';
  or_cache : code o = [] \/ code o' = code o;
  or_value : forall k, valueOf r s a o k = valueOf r' s' a o' k;
  or_destructed : selfDestructed o = selfDestructed o';
  or_new : newContract o = newContract o';
  or_committed : forall k, committedOf r s a o k = committedOf r' s' a o' k
}.

(** Every account. *)
Definition everywhere : Z -> Prop := fun _ => True.

Definition optRel {A} (R : A -> A -> Prop) (x y : option A) : Prop :=
  match x, y with Some a, Some b => R a b | None, None => True | _, _ => False end.

(** [ids] asks for equal journals and revisions. *)
Record stRel (rt : Z -> Prop) (ids : bool) (r : Reader) (s : StateDB) (r' : Reader) (s' : StateDB) : Prop := mkStRel {
  sr_peek : forall a, optRel (objRel rt r s r' s' a) (peek r s a) (peek r' s' a);
  sr_base : forall a k, baseOf r s a k = baseOf r' s' a k;
  sr_refund : sdRefund s = sdRefund s';
  sr_thash : thash s = thash s';
  sr_txIndex : txIndex s = txIndex s';
  sr_logs : forall h, default [] (sdLogs s !! h) = default [] (sdLogs s' !! h);
  sr_logSize : sdLogSize s = sdLogSize s';
  sr_access : sdAccess s = sdAccess s';
  sr_transient : forall a k, ParallelState.transientGet (transientStorage s) a k = ParallelState.transientGet (transientStorage s') a k;
  sr_mutations : mutations s = mutations s';
  sr_destructs : dom (stateObjectsDestruct s) = dom (stateObjectsDestruct s');
  sr_cbd : currentBlockDestructs s = currentBlockDestructs s';
  sr_dirties : dirties (jrn s) = dirties (jrn s');
  sr_ids : ids = true -> entries (jrn s) = entries (jrn s') /\ validRevisions (jrn s) = validRevisions (jrn s') /\
             nextRevisionId (jrn s) = nextRevisionId (jrn s')
}.

Lemma objRel_refl rt r s a o : objRel rt r s r s a o o.
Proof. by split; auto. Qed.

Lemma objRel_trans rt r s r1 s1 r2 s2 a o o1 o2 :
  objRel rt r s r1 s1 a o o1 -> objRel rt r1 s1 r2 s2 a o1 o2 -> objRel rt r s r2 s2 a o o2.
Proof.
  intros [] []; split; try congruence.
  - intros H. by rewrite or_root0, or_root1.
  - destruct or_cache0 as [H|H]; [by left|]. destruct or_cache1 as [H'|H']; [left; congruence|right; congruence].
Qed.

Lemma optRel_refl {A} (R : A -> A -> Prop) x : (forall a, R a a) -> optRel R x x.
Proof. destruct x; cbn; auto. Qed.

Lemma stRel_refl rt ids r s : stRel rt ids r s r s.
Proof. split; auto. intros a. apply optRel_refl, objRel_refl. Qed.

Lemma stRel_trans rt ids r s r1 s1 r2 s2 :
  stRel rt ids r s r1 s1 -> stRel rt ids r1 s1 r2 s2 -> stRel rt ids r s r2 s2.
Proof.
  intros [] []. split; try congruence.
  - intros a. specialize (sr_peek0 a). specialize (sr_peek1 a). unfold optRel in *.
    destruct (peek r s a), (peek r1 s1 a), (peek r2 s2 a); try done. by eapply objRel_trans.
  - intros H. destruct (sr_ids0 H) as (? & ? & ?), (sr_ids1 H) as (? & ? & ?). split_and!; by etrans.
Qed.

(** Related in whatever states, as long as these have the same slots below. *)
Lemma objRel_slots rt r s t r' s' t' a o o' :
  slots s = slots t -> slots s' = slots t' -> objRel rt r s r' s' a o o' -> objRel rt r t r' t' a o o'.
Proof.
  intros H H' [? ? ? ? ? ? Hv ? ? Hc]. split; try done; intros k; specialize (Hv k); unfold valueOf in *;
    by rewrite <- (slots_committedOf r s t), <- (slots_committedOf r' s' t').
Qed.

(** Related states stay related when they change in what is no object, to the same. *)
Lemma stRel_slots rt ids r s t r' s' t' :
  slots s = slots t -> slots s' = slots t' -> (forall a, optRel (objRel rt r s r' s' a) (peek r t a) (peek r' t' a)) ->
  stRel rt ids r s r' s' ->
  sdRefund t = sdRefund t' -> thash t = thash t' -> txIndex t = txIndex t' ->
  (forall h, default [] (sdLogs t !! h) = default [] (sdLogs t' !! h)) -> sdLogSize t = sdLogSize t' -> sdAccess t = sdAccess t' ->
  (forall a k, ParallelState.transientGet (transientStorage t) a k = ParallelState.transientGet (transientStorage t') a k) ->
  mutations t = mutations t' -> dirties (jrn t) = dirties (jrn t') ->
  (ids = true -> entries (jrn t) = entries (jrn t') /\ validRevisions (jrn t) = validRevisions (jrn t') /\
                 nextRevisionId (jrn t) = nextRevisionId (jrn t')) ->
  stRel rt ids r t r' t'.
Proof.
  intros H H' Hp []. intros. split; try done.
  - intros a. specialize (Hp a). unfold optRel in *. destruct (peek r t a), (peek r' t' a); try done. by eapply objRel_slots.
  - intros a k. rewrite <- (slots_baseOf r s t), <- (slots_baseOf r' s' t') by done. auto.
  - injection H as <- ? ?. by injection H' as <- ? ?.
  - injection H as ? <- ?. by injection H' as ? <- ?.
Qed.

Lemma stRel_env rt ids r s t r' s' t' :
  env s = env t -> env s' = env t' -> (forall a, optRel (objRel rt r s r' s' a) (peek r t a) (peek r' t' a)) ->
  stRel rt ids r s r' s' -> stRel rt ids r t r' t'.
Proof.
  intros H H' Hp Hs. eapply (stRel_slots rt ids r s t r' s' t'); eauto; destruct Hs;
    injection H as ? ? ? Hl ? ? Ht Hj ? ? ? ?; injection H' as ? ? ? Hl' ? ? Ht' Hj' ? ? ? ?;
    rewrite <- ?Hl, <- ?Hl', <- ?Ht, <- ?Ht', <- ?Hj, <- ?Hj'; try congruence; done.
Qed.

(** ** Loaded objects *)

Definition loaded (r : Reader) (s : StateDB) (a : Z) (o : stateObject) : Prop :=
  stateObjects s !! a = Some o /\ peek r s a = Some o.

(** Reading an account changes nothing but what is loaded. *)
Record loads (r : Reader) (a : Z) (s t : StateDB) : Prop := mkLoads {
  ld_env : env t = env s;
  ld_peek : forall b, peek r t b = peek r s b;
  ld_at : forall o, peek r s a = Some o -> loaded r t a o;
  ld_keep : forall b o, covered s b = None -> stateObjects s !! b = Some o -> stateObjects t !! b = Some o
}.

Lemma getStateObject_loads r s a : exists t, getStateObject keccak r a s = Done t (peek r s a) /\ loads r a s t.
Proof.
  destruct (getStateObject_spec r s a) as (t & Ht & He & Hne & Hsome & Hnone). exists t. split; [done|].
  assert (Hp : forall b, peek r t b = peek r s b).
  { intros b. unfold peek. rewrite (frame_look r t s) by auto. destruct (decide (b = a)) as [->|Hb]; [|by rewrite Hne].
    destruct (look r s a (stateObjects s !! a)) as [o|] eqn:E; [|by rewrite Hnone].
    rewrite (Hsome o) by done. by eapply look_again. }
  split; [done|done| |].
  - intros o Ho. split; [by apply Hsome|]. by rewrite Hp.
  - intros b o Hc Ho. destruct (decide (b = a)) as [->|Hb]; [|by rewrite Hne]. apply Hsome.
    unfold peek, look. by rewrite Hc, Ho.
Qed.

Lemma loads_stRel rt ids r s t r' s' t' a :
  loads r a s t -> loads r' a s' t' -> stRel rt ids r s r' s' -> stRel rt ids r t r' t'.
Proof.
  intros [He Hp _ _] [He' Hp' _ _] H. eapply stRel_env; [by symmetry..| |done].
  intros b. rewrite Hp, Hp'. apply (sr_peek _ _ _ _ _ _ H).
Qed.

(** ** Changing a loaded object *)

Definition updO (a : Z) (f : stateObject -> stateObject) (s : StateDB) : StateDB := set_objects (alter f a (stateObjects s)) s.

Lemma updO_peek r s a o f b :
  loaded r s a o -> fromFlatDiff (f o) = fromFlatDiff o ->
  peek r (updO a f s) b = if decide (b = a) then Some (f o) else peek r s b.
Proof.
  intros [Hm Hp] Hf. unfold peek, updO. cbn [stateObjects set_objects]. rewrite (frame_look r _ s) by done.
  destruct (decide (b = a)) as [->|Hb]; [|by rewrite lookup_alter_ne]. rewrite lookup_alter, decide_True, Hm by done. cbn.
  unfold peek in Hp. rewrite Hm in Hp. unfold look, lookAt in *. rewrite Hf. destruct (covered s a) as [[acct|]|]; [|done|done].
  destruct (fromFlatDiff o) eqn:E; [done|]. injection Hp as <-. done.
Qed.

Lemma updO_loaded r s a o f :
  loaded r s a o -> fromFlatDiff (f o) = fromFlatDiff o -> loaded r (updO a f s) a (f o).
Proof.
  intros H Hf. split; [|rewrite (updO_peek r s a o) by done; by rewrite decide_True].
  destruct H as [Hm _]. cbn. by rewrite lookup_alter, decide_True, Hm.
Qed.

Lemma updO_stRel rt ids r s r' s' a o o' f f' :
  loaded r s a o -> loaded r' s' a o' -> fromFlatDiff (f o) = fromFlatDiff o -> fromFlatDiff (f' o') = fromFlatDiff o' ->
  objRel rt r s r' s' a (f o) (f' o') -> stRel rt ids r s r' s' -> stRel rt ids r (updO a f s) r' (updO a f' s').
Proof.
  intros Hl Hl' Hf Hf' Ho H. eapply (stRel_env rt ids r s _ r' s'); [done|done| |done].
  intros b. rewrite (updO_peek r s a o), (updO_peek r' s' a o') by done. case_decide as Hb; [by subst|].
  apply (sr_peek _ _ _ _ _ _ H).
Qed.

(** ** Journals that fit their state *)

Definition about (a : Z) (es : list journalEntry) : list journalEntry := filter (fun e => dirtied e = Some a) es.

Definition isCreate (e : journalEntry) : bool := match e with createObjectChange _ => true | _ => false end.

(** What an account would be without an object and without journal. *)
Definition atRest (r : Reader) (s : StateDB) (a : Z) : option stateObject :=
  lookAt (if bool_decide (is_Some (mutations s !! a)) then None else accountOverlay (flatDiffRef s) a) r s a None.

(** The object of a journalled account: created where there was none, or loaded. *)
Definition journalled (r : Reader) (s : StateDB) (a : Z) (es : list journalEntry) (o : stateObject) : Prop :=
  match es with
  | [] => True
  | e :: rest =>
      Forall (fun e => isCreate e = false) rest /\
      if isCreate e then atRest r s a = None
      else forall x, mutations s !! a = None -> accountOverlay (flatDiffRef s) a = Some x -> is_Some x /\ fromFlatDiff o = true
  end.

Record wfJ (r : Reader) (es : list journalEntry) (s : StateDB) : Prop := mkWfJ {
  wj_dirties : forall a, dirties (jrn s) !! a = match about a es with [] => None | l => Some (Z.of_nat (length l)) end;
  wj_objects : forall a, about a es <> [] -> exists o, stateObjects s !! a = Some o /\ journalled r s a (about a es) o
}.

Lemma about_app a es es' : about a (es ++ es') = about a es ++ about a es'.
Proof. apply filter_app. Qed.

Lemma about_here a e : dirtied e = Some a -> about a [e] = [e].
Proof. intros H. unfold about. by rewrite filter_cons_True. Qed.

Lemma about_other a e : dirtied e <> Some a -> about a [e] = [].
Proof. intros H. unfold about. by rewrite filter_cons_False. Qed.

Lemma wfJ_dirty r es s a : wfJ r es s -> about a es <> [] -> covered s a = None.
Proof.
  intros H Ha. unfold covered, hasAccountMutation. rewrite (wj_dirties _ _ _ H). destruct (about a es); [done|].
  rewrite bool_decide_true by (by eexists). done.
Qed.

Lemma wfJ_loaded r es s a : wfJ r es s -> about a es <> [] -> exists o, loaded r s a o /\ journalled r s a (about a es) o.
Proof.
  intros H Ha. destruct (wj_objects _ _ _ H a Ha) as (o & Ho & Hj). exists o. split; [|done]. split; [done|].
  unfold peek, look. by rewrite (wfJ_dirty r es s a), Ho.
Qed.

Lemma frame_atRest r s t a : mutations s = mutations t -> slots s = slots t -> atRest r s a = atRest r t a.
Proof. intros Hm H. unfold atRest. rewrite (slots_lookAt _ r s t) by done. injection H as ? ? Hf. by rewrite Hm, Hf. Qed.

Lemma frame_journalled r s t a es o :
  mutations s = mutations t -> slots s = slots t -> journalled r s a es o -> journalled r t a es o.
Proof. intros Hm H. unfold journalled. rewrite (frame_atRest r s t) by done. injection H as ? ? Hf. by rewrite Hm, Hf. Qed.

(** A state with the same frame and the same journalled objects, up to changes that keep
    where they come from. *)
Lemma wfJ_frame r es s t :
  frame s = frame t ->
  (forall a o, covered s a = None -> stateObjects s !! a = Some o -> exists o', stateObjects t !! a = Some o' /\ fromFlatDiff o' = fromFlatDiff o) ->
  wfJ r es s -> wfJ r es t.
Proof.
  intros He Hk H. pose proof (frame_slots _ _ He) as Hs. pose proof He as [= Hj Hm Hd Hc Hf]. split.
  - intros a. rewrite <- Hj. apply (wj_dirties _ _ _ H).
  - intros a Ha. destruct (wj_objects _ _ _ H a Ha) as (o & Ho & Hjo).
    destruct (Hk a o (wfJ_dirty _ _ _ _ H Ha) Ho) as (o' & Ho' & Hfo). exists o'. split; [done|].
    apply (frame_journalled r s t a _ o' Hm Hs). unfold journalled in *. destruct (about a es) as [|e l]; [done|].
    destruct Hjo as [Hr Hx]. split; [done|]. destruct (isCreate e); [done|]. by rewrite Hfo.
Qed.

(** Where neither the frame nor the map changes. *)
Lemma wfJ_same r es s t : frame s = frame t -> stateObjects s = stateObjects t -> wfJ r es s -> wfJ r es t.
Proof. intros He Ho. apply wfJ_frame; [done|]. rewrite Ho. eauto. Qed.

Lemma peek_same r s t a : frame s = frame t -> stateObjects s = stateObjects t -> peek r t a = peek r s a.
Proof. intros He Ho. unfold peek. by rewrite Ho, (frame_look r s t). Qed.

Lemma loads_wfJ r es s t a : loads r a s t -> wfJ r es s -> wfJ r es t.
Proof. intros [He _ _ Hk]. apply wfJ_frame; [auto|]. intros b o Hc Ho. exists o. split; [by apply Hk|done]. Qed.

Lemma updO_wfJ r es s a f : (forall o, fromFlatDiff (f o) = fromFlatDiff o) -> wfJ r es s -> wfJ r es (updO a f s).
Proof.
  intros Hf. apply wfJ_frame; [done|]. intros b o _ Ho. unfold updO. cbn. rewrite lookup_alter.
  destruct (decide (a = b)) as [->|]; rewrite Ho; cbn; eexists; split; eauto.
Qed.

End views.

End StateRel.
