(* ===== verification/StateUndo.v ===== *)
(** * Undoing entries of the journal

    Undoing the last entry of the journal on two related states leaves related states: the
    entries hold old values, and an object in the journal is in the map.  [outRel] relates
    the outcomes of two computations. *)

From S2P Require Import Prelude Bytes MvStore ParallelState StateDB StateRel.
Import MvStore.

Module StateUndo.

Import StateDB StateRel.

(** ** Related outcomes *)

Definition outRel {A B} (Q : StateDB -> StateDB -> A -> B -> Prop)
    (x : outcome StateDB Empty_set A) (y : outcome StateDB Empty_set B) : Prop :=
  match x, y with
  | Done s a, Done t b => Q s t a b
  | Panicked w, Panicked w' => w = w'
  | _, _ => False
  end.

Lemma outRel_bind {A B C D} (Q : StateDB -> StateDB -> A -> B -> Prop) (R : StateDB -> StateDB -> C -> D -> Prop)
    (m : st StateDB Empty_set A) (m' : st StateDB Empty_set B) k k' s s' :
  outRel Q (m s) (m' s') -> (forall t t' a b, Q t t' a b -> outRel R (k a t) (k' b t')) ->
  outRel R ((m ≫= k) s) ((m' ≫= k') s').
Proof. unfold mbind, st_bind. intros H Hk. destruct (m s) as [| |w], (m' s') as [| |w']; cbn in H |- *; try done. by apply Hk. Qed.

Lemma outRel_weaken {A B} (Q R : StateDB -> StateDB -> A -> B -> Prop) x y :
  outRel Q x y -> (forall t t' a b, Q t t' a b -> R t t' a b) -> outRel R x y.
Proof. intros H HR. destruct x, y; cbn in *; auto. Qed.

Section undo.
Context (keccak : list Z -> Z).

#[local] Abbreviation stRel := (stRel keccak).
#[local] Abbreviation objRel := (objRel keccak).
#[local] Abbreviation peek := (peek keccak).
#[local] Abbreviation loaded := (loaded keccak).
#[local] Abbreviation wfJ := (wfJ keccak).
#[local] Abbreviation loads := (loads keccak).

(** ** Changes of an object that respect the relation *)

Definition respects (a : Z) (f : stateObject -> stateObject) : Prop :=
  (forall o, fromFlatDiff (f o) = fromFlatDiff o) /\
  forall rt r s r' s' o o', objRel rt r s r' s' a o o' -> objRel rt r s r' s' a (f o) (f o').

Lemma respects_newContract a b : respects a (set_newContract b).
Proof. split; [done|]. by intros * []. Qed.

Lemma respects_selfDestructed a b : respects a (set_selfDestructed b).
Proof. split; [done|]. by intros * []. Qed.

Lemma respects_setBalance a v : respects a (setBalance v).
Proof. split; [done|]. by intros * []. Qed.

Lemma respects_setNonce a v : respects a (setNonce v).
Proof. split; [done|]. by intros * []. Qed.

Lemma respects_setState a k v org : respects a (setState_ k v org).
Proof.
  split; [intros o; unfold setState_; by destruct (v =? org)|].
  intros * []. unfold setState_. destruct (v =? org); split; try done; intros l; specialize (or_value0 l); specialize (or_committed0 l);
    unfold valueOf in *; cbn [dirtyStorage set_dirtyStorage]; (destruct (decide (l = k)) as [->|Hl];
      [rewrite ?lookup_delete_eq, ?lookup_insert_eq; done|rewrite ?lookup_delete_ne, ?lookup_insert_ne by done; done]).
Qed.

Lemma codeOf_setCode r a c o : codeOf keccak r a (setCode (keccak c) c o) = c.
Proof.
  unfold codeOf. cbn [code setCode set_code set_data]. case_bool_decide as H; cbn; [|done].
  subst c. unfold EmptyCodeHash. by rewrite Z.eqb_refl.
Qed.

Lemma respects_setCode a c : respects a (setCode (keccak c) c).
Proof. split; [done|]. intros * []. split; try done; [by rewrite !codeOf_setCode|by right]. Qed.

(** ** Reading and changing the object of an account *)

Section related.
Context (rt : Z -> Prop) (ids : bool) (r r' : Reader).

(** Related states whose journals are [es] and [es']. *)
Definition inStep (es es' : list journalEntry) (s s' : StateDB) : Prop :=
  stRel rt ids r s r' s' /\ wfJ r es s /\ wfJ r' es' s'.

Lemma getStateObject_sim a es es' s s' :
  inStep es es' s s' ->
  outRel (fun t t' o o' => inStep es es' t t' /\ optRel (objRel rt r t r' t' a) o o' /\
                           (forall x, o = Some x -> loaded r t a x) /\ (forall x, o' = Some x -> loaded r' t' a x) /\
                           loads r a s t /\ loads r' a s' t')
    (getStateObject keccak r a s) (getStateObject keccak r' a s').
Proof.
  intros (H & Hw & Hw'). destruct (getStateObject_loads keccak r s a) as (t & -> & Hl).
  destruct (getStateObject_loads keccak r' s' a) as (t' & -> & Hl'). cbn [outRel].
  assert (Ht : stRel rt ids r t r' t') by by eapply loads_stRel.
  split_and!; [split_and!; [done|by eapply loads_wfJ..]| | | |done|done].
  - pose proof (sr_peek _ _ _ _ _ _ _ Ht a) as Hp. by rewrite (ld_peek _ _ _ _ _ Hl), (ld_peek _ _ _ _ _ Hl') in Hp.
  - apply (ld_at _ _ _ _ _ Hl).
  - apply (ld_at _ _ _ _ _ Hl').
Qed.

Lemma updO_inStep a f es es' s s' o o' :
  respects a f -> loaded r s a o -> loaded r' s' a o' -> objRel rt r s r' s' a o o' ->
  inStep es es' s s' -> inStep es es' (updO a f s) (updO a f s').
Proof.
  intros [Hf Hr] Hl Hl' Ho (H & Hw & Hw'). split_and!; [|by apply updO_wfJ..].
  eapply updO_stRel; eauto.
Qed.

Lemma onObject_sim a f es es' s s' :
  respects a f -> inStep es es' s s' ->
  outRel (fun t t' _ _ => inStep es es' t t') (onObject keccak r a f s) (onObject keccak r' a f s').
Proof.
  intros Hf H. unfold onObject. eapply outRel_bind; [by apply getStateObject_sim|].
  intros t t' [o|] [o'|] (Ht & Ho & Hl & Hl' & _); cbn in Ho; try done. cbn. by eapply updO_inStep; eauto.
Qed.

End related.

(** ** Taking an entry off the journal *)

Definition undirty (e : journalEntry) (s : StateDB) : StateDB := set_jrn (jundirty e (jrn s)) s.

Lemma undirty_none e s : dirtied e = None -> undirty e s = s.
Proof. intros H. unfold undirty, jundirty. rewrite H. by destruct s. Qed.

Lemma undirty_dirties r es e s a :
  wfJ r (es ++ [e]) s -> dirtied e = Some a ->
  dirties (jrn (undirty e s)) = match about a es with [] => delete a (dirties (jrn s))
                                                    | l => <[a := Z.of_nat (length l)]> (dirties (jrn s)) end.
Proof.
  intros H Ha. unfold undirty, jundirty. rewrite Ha. cbn. rewrite (wj_dirties _ _ _ _ H a), about_app, (about_here a e Ha).
  destruct (about a es) as [|x l]; [done|]. cbn [app length default]. rewrite length_app. cbn [length].
  unfold id. replace (Z.of_nat (S (length l + 1)) - 1) with (Z.of_nat (S (length l))) by lia.
  by assert ((Z.of_nat (S (length l)) =? 0) = false) as -> by (apply Z.eqb_neq; lia).
Qed.

(** The environment but for the journal. *)
Lemma covered_undirty e s b :
  covered (undirty e s) b = if bool_decide (is_Some (dirties (jrn (undirty e s)) !! b)) || bool_decide (is_Some (mutations s !! b))
                            then None else accountOverlay (flatDiffRef s) b.
Proof. done. Qed.

Lemma undirty_lookup_ne r es e s a b :
  wfJ r (es ++ [e]) s -> dirtied e = Some a -> b <> a -> dirties (jrn (undirty e s)) !! b = dirties (jrn s) !! b.
Proof.
  intros H Ha Hb. rewrite (undirty_dirties r es e s a H Ha).
  destruct (about a es); [by rewrite lookup_delete_ne|by rewrite lookup_insert_ne].
Qed.

Lemma undirty_lookup_eq r es e s a :
  wfJ r (es ++ [e]) s -> dirtied e = Some a ->
  dirties (jrn (undirty e s)) !! a = match about a es with [] => None | l => Some (Z.of_nat (length l)) end.
Proof.
  intros H Ha. rewrite (undirty_dirties r es e s a H Ha). destruct (about a es); [apply lookup_delete_eq|apply lookup_insert_eq].
Qed.

Lemma peek_undirty_ne r es e s a b :
  wfJ r (es ++ [e]) s -> dirtied e = Some a -> b <> a -> peek r (undirty e s) b = peek r s b.
Proof.
  intros H Ha Hb. unfold StateRel.peek, look. rewrite covered_undirty, (undirty_lookup_ne r es e s a b) by done. done.
Qed.

(** The object of an account stays what it is when it goes off the journal. *)
Lemma peek_undirty r es e s :
  wfJ r (es ++ [e]) s -> isCreate e = false -> forall b, peek r (undirty e s) b = peek r s b.
Proof.
  intros H He b. destruct (dirtied e) as [a|] eqn:Ha; [|by rewrite undirty_none].
  destruct (decide (b = a)) as [->|Hb]; [|by eapply peek_undirty_ne].
  destruct (wfJ_loaded _ _ _ _ a H) as (o & [Ho Hp] & Hj); [rewrite about_app, (about_here a e Ha); by destruct (about a es)|].
  rewrite Hp. unfold StateRel.peek, look. rewrite covered_undirty, (undirty_lookup_eq r es e s a) by done. cbn [stateObjects undirty set_jrn].
  rewrite Ho. rewrite about_app, (about_here a e Ha) in Hj. destruct (about a es) as [|x l]; cbn [app] in Hj.
  - destruct Hj as [_ Hj]. rewrite He in Hj. rewrite bool_decide_false by (by intros []). cbn [orb].
    case_bool_decide as Hm; [done|]. destruct (accountOverlay (flatDiffRef s) a) as [x|] eqn:Ex; [|done].
    destruct (Hj x) as [[acct ->] Hf]; [by apply eq_None_not_Some|done|]. cbn. by rewrite Hf.
  - rewrite bool_decide_true by (by eexists). done.
Qed.

Lemma wfJ_undirty r es e s t :
  wfJ r (es ++ [e]) s -> jrn t = jundirty e (jrn s) -> mutations t = mutations s -> slots t = slots s ->
  (forall b, dirtied e = Some b -> isCreate e = true \/ stateObjects t !! b = stateObjects s !! b) ->
  (forall b, dirtied e <> Some b -> stateObjects t !! b = stateObjects s !! b) -> wfJ r es t.
Proof.
  intros H Hj Hmu Hsl Hat Hne. split.
  - intros b. rewrite Hj. destruct (dirtied e) as [a|] eqn:Ha.
    + change (jundirty e (jrn s)) with (jrn (undirty e s)). destruct (decide (b = a)) as [->|Hb].
      * by apply (undirty_lookup_eq r es e s a).
      * rewrite (undirty_lookup_ne r es e s a b) by done. rewrite (wj_dirties _ _ _ _ H), about_app, (about_other b e) by congruence.
        by rewrite app_nil_r.
    + unfold jundirty. rewrite Ha, (wj_dirties _ _ _ _ H), about_app, (about_other b e) by congruence. by rewrite app_nil_r.
  - intros b Hb. destruct (wj_objects _ _ _ _ H b) as (o & Ho & Hjo); [rewrite about_app; by destruct (about b es)|].
    assert (Hjr : journalled keccak r t b (about b es) o).
    { pose proof (frame_journalled keccak r s t b _ o (eq_sym Hmu) (eq_sym Hsl) Hjo) as Hx.
      rewrite about_app in Hx. destruct (about b es) as [|x l]; [done|]. cbn in Hx |- *. destruct Hx as [Hf Hx].
      split; [|done]. by apply Forall_app in Hf as [? _]. }
    exists o. split; [|done]. destruct (decide (dirtied e = Some b)) as [Hd|Hd]; [|by rewrite Hne].
    destruct (Hat b Hd) as [Hc|Hc]; [|by rewrite Hc]. exfalso.
    rewrite about_app, (about_here b e Hd) in Hjo. destruct (about b es) as [|x l]; [done|]. cbn in Hjo.
    destruct Hjo as [Hf _]. apply Forall_app in Hf as [_ Hf]. rewrite Forall_singleton in Hf. congruence.
Qed.

Lemma transientGet_set t a k v b l :
  ParallelState.transientGet (ParallelState.transientSet t a k v) b l =
  if decide (b = a /\ l = k) then v else ParallelState.transientGet t b l.
Proof.
  unfold ParallelState.transientGet, ParallelState.transientSet. destruct (v =? 0) eqn:Ev.
  - apply Z.eqb_eq in Ev as ->. destruct (t !! a) as [m|] eqn:Em.
    + destruct (decide (b = a)) as [->|Hb].
      * rewrite Em. case_bool_decide as Hd; cbn zeta in *.
        -- rewrite lookup_delete_eq. case_decide as Hl; [done|]. destruct (decide (l = k)) as [->|Hk]; [naive_solver|].
           rewrite <- (lookup_delete_ne m k l) by done. rewrite Hd. by rewrite lookup_empty.
        -- rewrite lookup_insert_eq. destruct (decide (l = k)) as [->|Hk].
           ++ rewrite lookup_delete_eq, decide_True by done. done.
           ++ rewrite lookup_delete_ne, decide_False by naive_solver. done.
      * rewrite decide_False by naive_solver. case_bool_decide; [by rewrite lookup_delete_ne|by rewrite lookup_insert_ne].
    + case_decide as H; [destruct H as [-> ->]; by rewrite Em|done].
  - destruct (decide (b = a)) as [->|Hb].
    + rewrite lookup_insert_eq. destruct (decide (l = k)) as [->|Hk].
      * rewrite lookup_insert_eq, decide_True by done. done.
      * rewrite lookup_insert_ne, decide_False by naive_solver. by destruct (t !! a); cbn; rewrite ?lookup_empty.
    + rewrite lookup_insert_ne, decide_False by naive_solver. done.
Qed.


(** ** Undoing one entry *)

Section steps.
Context (rt : Z -> Prop) (ids : bool) (r r' : Reader).

#[local] Abbreviation inStep := (inStep rt ids r r').

(** A change of fields that hold no object, the same on both sides. *)
Lemma inStep_fields es s s' t t' :
  inStep es es s s' -> frame s = frame t -> frame s' = frame t' -> stateObjects s = stateObjects t -> stateObjects s' = stateObjects t' ->
  sdRefund t = sdRefund t' -> thash t = thash t' -> txIndex t = txIndex t' ->
  (forall h, default [] (sdLogs t !! h) = default [] (sdLogs t' !! h)) -> sdLogSize t = sdLogSize t' -> sdAccess t = sdAccess t' ->
  (forall a k, ParallelState.transientGet (transientStorage t) a k = ParallelState.transientGet (transientStorage t') a k) ->
  inStep es es t t'.
Proof.
  intros (H & Hw & Hw') Hf Hf' Ho Ho'. intros. split_and!; [|by eapply wfJ_same..].
  eapply (stRel_slots keccak rt ids r s t r' s' t'); eauto using frame_slots.
  - intros a. rewrite (peek_same keccak r s t), (peek_same keccak r' s' t') by done. apply (sr_peek _ _ _ _ _ _ _ H).
  - injection Hf as ? <- ? ? ?. injection Hf' as ? <- ? ? ?. apply (sr_mutations _ _ _ _ _ _ _ H).
  - injection Hf as <- ? ? ? ?. injection Hf' as <- ? ? ? ?. apply (sr_dirties _ _ _ _ _ _ _ H).
  - injection Hf as <- ? ? ? ?. injection Hf' as <- ? ? ? ?. apply (sr_ids _ _ _ _ _ _ _ H).
Qed.

Lemma jundirty_same e j j' : dirties j = dirties j' -> dirties (jundirty e j) = dirties (jundirty e j').
Proof. intros H. unfold jundirty. destruct (dirtied e); [cbn; by rewrite H|done]. Qed.

Lemma jundirty_ids e j j' :
  entries j = entries j' /\ validRevisions j = validRevisions j' /\ nextRevisionId j = nextRevisionId j' ->
  entries (jundirty e j) = entries (jundirty e j') /\ validRevisions (jundirty e j) = validRevisions (jundirty e j') /\
  nextRevisionId (jundirty e j) = nextRevisionId (jundirty e j').
Proof. unfold jundirty. by destruct (dirtied e). Qed.

(** Once its effect is undone an entry can be taken off. *)
Lemma inStep_undirty es e s s' :
  isCreate e = false -> inStep (es ++ [e]) (es ++ [e]) s s' -> inStep es es (undirty e s) (undirty e s').
Proof.
  intros He (H & Hw & Hw'). split_and!; [|eapply wfJ_undirty; eauto..].
  eapply (stRel_slots keccak rt ids r s _ r' s' _); [done|done| |done|..]; try apply H.
  - intros a. rewrite (peek_undirty r es), (peek_undirty r' es) by done. apply (sr_peek _ _ _ _ _ _ _ H).
  - apply jundirty_same, (sr_dirties _ _ _ _ _ _ _ H).
  - intros Hi. by apply jundirty_ids, (sr_ids _ _ _ _ _ _ _ H).
Qed.

(** Undoing a creation: the account is what it is at rest, that is absent. *)
Definition uncreate (a : Z) (s : StateDB) : StateDB :=
  undirty (createObjectChange a) (set_objects (delete a (stateObjects s)) s).

Lemma uncreate_about r0 es a s : wfJ r0 (es ++ [createObjectChange a]) s -> about a es = [] /\ atRest keccak r0 s a = None.
Proof.
  intros H. destruct (wj_objects _ _ _ _ H a) as (o & Ho & Hj); [rewrite about_app, (about_here a (createObjectChange a) eq_refl); by destruct (about a es)|].
  rewrite about_app, (about_here a (createObjectChange a) eq_refl) in Hj. destruct (about a es) as [|x l]; cbn in Hj; [by destruct Hj|].
  destruct Hj as [Hj _]. apply Forall_app in Hj as [_ Hj]. rewrite Forall_singleton in Hj. done.
Qed.

Lemma peek_uncreate r0 es a s b :
  wfJ r0 (es ++ [createObjectChange a]) s -> peek r0 (uncreate a s) b = if decide (b = a) then None else peek r0 s b.
Proof.
  intros H. destruct (uncreate_about r0 es a s H) as [Hes Hr]. unfold uncreate.
  change (undirty (createObjectChange a) (set_objects (delete a (stateObjects s)) s))
    with (set_objects (delete a (stateObjects s)) (undirty (createObjectChange a) s)).
  unfold StateRel.peek. cbn [stateObjects set_objects]. rewrite (frame_look keccak r0 _ (undirty (createObjectChange a) s)) by done.
  case_decide as Hb; [subst b|].
  - rewrite lookup_delete_eq. unfold look. rewrite covered_undirty, (undirty_lookup_eq r0 es _ s a H eq_refl), Hes.
    rewrite bool_decide_false by (by intros []). exact Hr.
  - rewrite lookup_delete_ne by done. apply (peek_undirty_ne r0 es _ s a b H eq_refl Hb).
Qed.

Lemma inStep_uncreate es a s s' :
  inStep (es ++ [createObjectChange a]) (es ++ [createObjectChange a]) s s' -> inStep es es (uncreate a s) (uncreate a s').
Proof.
  intros (H & Hw & Hw'). split_and!.
  2,3: eapply wfJ_undirty; [eassumption|done..| |]; [by left|];
       intros b Hb; apply lookup_delete_ne; cbn in Hb; congruence.
  eapply (stRel_slots keccak rt ids r s _ r' s' _); [done|done| |done|..]; try apply H.
  - intros b. rewrite (peek_uncreate r es), (peek_uncreate r' es) by done. case_decide; [done|]. apply (sr_peek _ _ _ _ _ _ _ H).
  - apply (jundirty_same (createObjectChange a)), (sr_dirties _ _ _ _ _ _ _ H).
Qed.

Definition undo (r0 : Reader) (e : journalEntry) : run unit := _ ← revertEntry keccak r0 e; modify (undirty e).

(** An entry whose reversal changes an object through its pointer. *)
Lemma undo_object es e a f s s' :
  isCreate e = false -> respects a f -> inStep (es ++ [e]) (es ++ [e]) s s' ->
  (revertEntry keccak r e = onObject keccak r a f) -> (revertEntry keccak r' e = onObject keccak r' a f) ->
  outRel (fun t t' _ _ => inStep es es t t') (undo r e s) (undo r' e s').
Proof.
  intros He Hf H H1 H2. unfold undo. rewrite H1, H2. eapply outRel_bind; [by apply onObject_sim|].
  intros t t' ? ? Ht. by apply inStep_undirty.
Qed.

(** An entry whose reversal changes a field. *)
Lemma undo_field es e s s' t t' :
  isCreate e = false -> revertEntry keccak r e s = Done t tt -> revertEntry keccak r' e s' = Done t' tt ->
  inStep (es ++ [e]) (es ++ [e]) t t' -> outRel (fun t t' _ _ => inStep es es t t') (undo r e s) (undo r' e s').
Proof.
  intros He H H' Ht. unfold undo. rewrite (bind_eq _ _ s t tt H), (bind_eq _ _ s' t' tt H'). by apply inStep_undirty.
Qed.

(** The logs of a transaction less the last one. *)
Definition dropLog (h : Z) (m : gmap Z (list Log)) : gmap Z (list Log) :=
  let ls := default [] (m !! h) in
  if bool_decide (length ls = 1%nat) then delete h m else <[h := take (length ls - 1) ls]> m.

Lemma dropLog_get h m x :
  default [] (dropLog h m !! x) = if decide (x = h) then take (length (default [] (m !! h)) - 1) (default [] (m !! h)) else default [] (m !! x).
Proof.
  unfold dropLog. set (ls := default [] (m !! h)). case_bool_decide as Hl; case_decide as Hx; subst.
  - rewrite lookup_delete_eq, Hl. done.
  - by rewrite lookup_delete_ne.
  - by rewrite lookup_insert_eq.
  - by rewrite lookup_insert_ne.
Qed.

Lemma undo_selfDestruct es a s s' :
  inStep (es ++ [selfDestructChange a]) (es ++ [selfDestructChange a]) s s' ->
  outRel (fun t t' _ _ => inStep es es t t') (undo r (selfDestructChange a) s) (undo r' (selfDestructChange a) s').
Proof.
  intros H. unfold undo. cbn [revertEntry].
  eapply (outRel_bind (fun t t' _ _ => inStep (es ++ [selfDestructChange a]) (es ++ [selfDestructChange a]) t t')).
  - eapply outRel_bind; [by apply (getStateObject_sim rt ids r r' a)|].
    intros t t' [o|] [o'|] (Ht & Ho & Hl & Hl' & _); cbn in Ho; try done. cbn.
    assert (Hu : inStep (es ++ [selfDestructChange a]) (es ++ [selfDestructChange a]) (updO a (set_selfDestructed false) t) (updO a (set_selfDestructed false) t'))
      by (eapply updO_inStep; eauto using respects_selfDestructed).
    destruct Hu as (Hu & ? & ?). eapply inStep_fields; [by split_and!|done..| | | | | | |]; apply Hu.
  - intros t t' ? ? Ht. by apply (inStep_undirty es).
Qed.

(** What undoing an entry does to two related states. *)
Theorem undo_sim es e s s' :
  inStep (es ++ [e]) (es ++ [e]) s s' -> outRel (fun t t' _ _ => inStep es es t t') (undo r e s) (undo r' e s').
Proof.
  intros H. destruct (proj1 H) as [_ _ Hrf Hth Hti Hlg Hls Hal Htr _ _ _ _ _].
  destruct e as [a|a|a|a prev|a prev|a k prev org|a prev|prev|h|a|a|a slot|a k prev];
    try (eapply undo_object; [done| |eassumption|reflexivity|reflexivity];
         auto using respects_newContract, respects_setBalance, respects_setNonce, respects_setState, respects_setCode).
  - cbn. by apply inStep_uncreate.
  - by apply undo_selfDestruct.
  - eapply undo_field; [done|reflexivity..|]. by eapply inStep_fields; [exact H|..].
  - eapply undo_field; [done|reflexivity..|]. eapply inStep_fields; [exact H|..]; try done.
    + intros x. change (default [] (dropLog h (sdLogs s) !! x) = default [] (dropLog h (sdLogs s') !! x)). by rewrite !dropLog_get, !Hlg.
    + cbn. by rewrite Hls.
  - eapply undo_field; [done|reflexivity..|exact H].
  - eapply undo_field; [done|reflexivity..|]. eapply inStep_fields; [exact H|..]; try done. cbn. by rewrite Hal.
  - destruct (DeleteSlot (sdAccess s) a slot) as [al|] eqn:Ed.
    + apply (undo_field es _ s s' (set_sdAccess al s) (set_sdAccess al s')); [done| | |by eapply inStep_fields; [exact H|..]];
        cbn; unfold mbind, st_bind, getS; cbn; [by rewrite Ed|by rewrite <- Hal, Ed].
    + unfold undo. cbn. unfold mbind, st_bind, getS. cbn. by rewrite <- Hal, Ed.
  - eapply undo_field; [done|reflexivity..|]. eapply inStep_fields; [exact H|..]; try done.
    intros b l. cbn. rewrite !transientGet_set. case_decide; [done|apply Htr].
Qed.

Lemma undo_revertAll r0 e es s : revertAll keccak r0 (e :: es) s = (_ ← undo r0 e; revertAll keccak r0 es) s.
Proof. cbn [revertAll]. unfold undo. by rewrite <- bind_assoc. Qed.

(** A stretch of the journal. *)
Theorem revertAll_sim es l s s' :
  inStep (es ++ l) (es ++ l) s s' ->
  outRel (fun t t' _ _ => inStep es es t t') (revertAll keccak r (reverse l) s) (revertAll keccak r' (reverse l) s').
Proof.
  revert s s'. induction l as [|e l IH] using rev_ind; intros s s' H; [by rewrite app_nil_r in H|].
  rewrite reverse_snoc, !undo_revertAll. eapply outRel_bind; [apply undo_sim; by rewrite <- app_assoc|].
  intros t t' ? ? Ht. by apply IH.
Qed.

End steps.

End undo.

End StateUndo.
