(* ===== verification/StateUnits.v ===== *)
(** * Steps of a transaction on related states

    The steps the operations of a [StateDB] are made of: loading, and an entry of the
    journal with the change it undoes.  Each keeps related states related and well formed
    ([together]).  Well-formedness may carry a mark, a revision taken in a state [s0]: as
    long as the revision is valid, undoing the journal back to it gives a state that
    cannot be told from [s0]. *)

From S2P Require Import Prelude Bytes MvStore ParallelState StateDB StateRel StateUndo.
Import MvStore.

Module StateUnits.

Import StateDB StateRel StateUndo.

(** ** Well-formed states *)

(** Sets of slots are not empty, and addresses name one or none. *)
Definition accOK (al : accessList) : Prop :=
  Forall (fun m => m <> ∅) (ParallelState.alSlots al) /\
  forall a idx, ParallelState.alAddresses al !! a = Some idx -> idx = -1 \/ 0 <= idx < Z.of_nat (length (ParallelState.alSlots al)).

(** The access list and the entries about it, the last one first: taking them off one by
    one meets well-formed lists only. *)
Fixpoint accWf (es : list journalEntry) (al : accessList) : Prop :=
  accOK al /\
  match es with
  | [] => True
  | accessListAddSlotChange a slot :: rest => exists al', DeleteSlot al a slot = Some al' /\ accWf rest al'
  | accessListAddAccountChange a :: rest => accWf rest (DeleteAddress al a)
  | _ :: rest => accWf rest al
  end.

Definition isAccess (e : journalEntry) : bool :=
  match e with accessListAddSlotChange _ _ | accessListAddAccountChange _ => true | _ => false end.

Lemma accWf_ok es al : accWf es al -> accOK al.
Proof. by destruct es; intros [? _]. Qed.

Lemma accWf_snoc es e al : isAccess e = false -> accWf (reverse es) al -> accWf (reverse (es ++ [e])) al.
Proof. intros He H. rewrite reverse_snoc. pose proof (accWf_ok _ _ H). by destruct e. Qed.

Lemma AddAddress_ok al a al' b : ParallelState.AddAddress al a = (al', b) -> accOK al -> accOK al'.
Proof.
  unfold ParallelState.AddAddress. destruct (_ !! a) as [i|] eqn:E; intros [= <- <-]; [done|]. intros [Hs Hi]. split; [done|].
  intros b j. cbn. destruct (decide (b = a)) as [->|Hb]; [rewrite lookup_insert_eq; intros [= <-]; by left|].
  rewrite lookup_insert_ne by done. apply Hi.
Qed.

Lemma AddAddress_back al a al' : ParallelState.AddAddress al a = (al', true) -> DeleteAddress al' a = al.
Proof.
  unfold ParallelState.AddAddress, DeleteAddress. destruct (ParallelState.alAddresses al !! a) eqn:E; intros [= <-]. cbn.
  rewrite delete_insert_id by done. by destruct al.
Qed.

Lemma AddAddress_same al a al' : ParallelState.AddAddress al a = (al', false) -> al' = al.
Proof. unfold ParallelState.AddAddress. by destruct (_ !! a); intros [= <-]. Qed.

(** Adding a slot to an address of the list can be taken back. *)
Lemma AddSlot_back al a slot al' b :
  accOK al -> is_Some (ParallelState.alAddresses al !! a) -> ParallelState.AddSlot al a slot = (al', b, true) ->
  b = false /\ accOK al' /\ DeleteSlot al' a slot = Some al.
Proof.
  intros [Hok Hidx] [idx Hi]. unfold ParallelState.AddSlot. rewrite Hi. destruct (idx =? -1) eqn:E1.
  - apply Z.eqb_eq in E1 as ->. intros [= <- <-]. split; [done|]. split; [split|].
    + apply Forall_app. split; [done|]. apply Forall_singleton. set_solver.
    + intros c j. cbn. rewrite length_app. cbn. destruct (decide (c = a)) as [->|Hc]; [rewrite lookup_insert_eq; intros [= <-]; lia|].
      rewrite lookup_insert_ne by done. intros Hj. destruct (Hidx c j Hj); lia.
    + unfold DeleteSlot. cbn. rewrite lookup_insert_eq, (proj2 (Z.ltb_ge _ 0)) by lia.
      rewrite Nat2Z.id, list_lookup_middle by done. rewrite bool_decide_true by set_solver. f_equal.
      rewrite take_app_length, insert_insert_eq. rewrite insert_id by done. by destruct al.
  - apply Z.eqb_neq in E1. destruct (Hidx a idx Hi) as [|Hpos]; [done|].
    destruct (lookup_lt_is_Some_2 (ParallelState.alSlots al) (Z.to_nat idx)) as [m Em]; [lia|].
    rewrite (nth_lookup_Some _ _ _ m Em). case_bool_decide as Hin; [done|]. intros [= <- <-]. split; [done|].
    assert (Hne : m <> ∅) by (by eapply (Forall_lookup_1 _ _ _ _ Hok)). split; [split|].
    + apply Forall_lookup. intros i x Hx. cbn in Hx. rewrite list_lookup_alter in Hx.
      destruct (decide (Z.to_nat idx = i)) as [<-|]; [|by eapply (Forall_lookup_1 _ _ _ _ Hok)].
      rewrite Em in Hx. injection Hx as <-. set_solver.
    + intros c j. cbn. rewrite length_alter. apply Hidx.
    + unfold DeleteSlot. cbn. rewrite Hi, (proj2 (Z.ltb_ge _ 0)) by lia. rewrite list_lookup_alter, decide_True, Em by done. cbn.
      assert (Hm : ({[slot]} ∪ m) ∖ {[slot]} = m) by set_solver. rewrite Hm, bool_decide_false by done.
      f_equal. destruct al as [ad sl]. cbn in *. f_equal. apply list_eq. intros i.
      destruct (decide (i = Z.to_nat idx)) as [->|Hi'].
      * rewrite list_lookup_insert_eq, Em; [done|]. rewrite length_alter. by eapply lookup_lt_Some.
      * rewrite list_lookup_insert_ne, list_lookup_alter_ne by done. done.
Qed.

(** A slot of an address that is not in the list: the address first. *)
Lemma AddSlot_absent al a slot :
  ParallelState.alAddresses al !! a = None ->
  exists al1 al2, ParallelState.AddAddress al a = (al1, true) /\ ParallelState.AddSlot al1 a slot = (al2, false, true) /\
    ParallelState.AddSlot al a slot = (al2, true, true) /\ is_Some (ParallelState.alAddresses al1 !! a).
Proof.
  intros E. unfold ParallelState.AddAddress, ParallelState.AddSlot. rewrite E. eexists _, _. split; [done|]. cbn.
  rewrite lookup_insert_eq. cbn. split; [done|]. rewrite insert_insert_eq. split; [done|]. by eexists.
Qed.

Lemma accWf_reset es al : Forall (fun e => isAccess e = false) es -> accOK al -> accWf es al.
Proof. induction 1 as [|e l He _ IH]; intros Hal; [done|]. split; [done|]. by destruct e; try apply IH. Qed.

Lemma AddSlot_ok al a slot : accOK al -> accOK (ParallelState.AddSlot al a slot).1.1.
Proof.
  intros Hok. destruct (ParallelState.alAddresses al !! a) as [i|] eqn:Ei.
  - destruct (ParallelState.AddSlot al a slot) as [[al' b] []] eqn:E.
    + by destruct (AddSlot_back al a slot al' b Hok) as (_ & H & _); [rewrite Ei|done|].
    + unfold ParallelState.AddSlot in E. rewrite Ei in E. destruct (i =? -1); [done|]. case_bool_decide; [|done]. by injection E as <- <-.
  - destruct (AddSlot_absent al a slot Ei) as (al1 & al2 & E1 & E2 & -> & Hi).
    by destruct (AddSlot_back al1 a slot al2 false (AddAddress_ok _ _ _ _ E1 Hok) Hi E2) as (_ & H & _).
Qed.

Lemma AddAddress_fst_ok al a : accOK al -> accOK (ParallelState.AddAddress al a).1.
Proof. intros H. destruct (ParallelState.AddAddress al a) eqn:E. by eapply AddAddress_ok. Qed.

Lemma fold_ok {A} (f : accessList -> A -> accessList) l al : (forall al x, accOK al -> accOK (f al x)) -> accOK al -> accOK (fold_left f l al).
Proof. intros Hf. revert al. induction l as [|x l IH]; intros al H; [done|]. by apply IH, Hf. Qed.

Lemma newAccessList_ok : accOK ParallelState.newAccessList.
Proof. split; [constructor|]. intros a idx H. cbn in H. by rewrite lookup_empty in H. Qed.

(** Revisions are ordered, and within the journal. *)
Record revsOK (j : journal) : Prop := mkRevsOK {
  rv_sorted : forall i i' p p', (i < i')%nat -> validRevisions j !! i = Some p -> validRevisions j !! i' = Some p' -> p.1 < p'.1 /\ (p.2 <= p'.2)%nat;
  rv_bound : forall p, p ∈ validRevisions j -> p.1 < nextRevisionId j /\ (p.2 <= length (entries j))%nat
}.

Section units.
Context (keccak : list Z -> Z).

#[local] Abbreviation stRel := (stRel keccak).
#[local] Abbreviation objRel := (objRel keccak).
#[local] Abbreviation peek := (peek keccak).
#[local] Abbreviation loaded := (loaded keccak).
#[local] Abbreviation wfJ := (wfJ keccak).
#[local] Abbreviation loads := (loads keccak).
#[local] Abbreviation revertAll := (revertAll keccak).

Definition canUndo (mark : option (StateDB * Z)) (r : Reader) (s : StateDB) : Prop :=
  match mark with
  | None => True
  | Some (s0, id) =>
      id < nextRevisionId (jrn s) /\
      forall n, (id, n) ∈ validRevisions (jrn s) ->
        n = length (entries (jrn s0)) /\
        exists es u, entries (jrn s) = entries (jrn s0) ++ es /\ revertAll r (reverse es) s = Done u tt /\
          stRel everywhere false r s0 r u /\ wfJ r (entries (jrn s0)) u
  end.

Record wf (mark : option (StateDB * Z)) (r : Reader) (s : StateDB) : Prop := mkWf {
  wf_journal : wfJ r (entries (jrn s)) s;
  wf_access : accWf (reverse (entries (jrn s))) (sdAccess s);
  wf_revs : revsOK (jrn s);
  wf_undo : canUndo mark r s
}.

(** A step that leaves the journal alone and answers alone. *)
Lemma canUndo_same mark r s t :
  jrn t = jrn s -> stRel everywhere false r s r t -> wfJ r (entries (jrn s)) s -> wfJ r (entries (jrn s)) t ->
  canUndo mark r s -> canUndo mark r t.
Proof.
  intros Hj H Hw Hw' Hu. destruct mark as [[s0 id]|]; [|done]. unfold canUndo in *. rewrite Hj. destruct Hu as [Hid Hu].
  split; [done|]. intros n Hn. destruct (Hu n Hn) as (Hlen & es & u & He & Hr & Hs & Hwu). split; [done|].
  rewrite He in Hw, Hw'.
  pose proof (revertAll_sim keccak everywhere false r r _ es s t (conj H (conj Hw Hw'))) as Ho. rewrite Hr in Ho.
  destruct (revertAll r (reverse es) t) as [u' []| |] eqn:Er; cbn in Ho; try done. destruct Ho as (Ho & _ & Hwt).
  exists es, u'. split_and!; [done|done| |done]. by eapply stRel_trans.
Qed.

(** A step that adds an entry whose reversal restores the state. *)
Lemma canUndo_entry mark r s t e v :
  entries (jrn t) = entries (jrn s) ++ [e] -> validRevisions (jrn t) = validRevisions (jrn s) -> nextRevisionId (jrn t) = nextRevisionId (jrn s) ->
  undo keccak r e t = Done v tt -> stRel everywhere false r s r v -> wfJ r (entries (jrn s)) s -> wfJ r (entries (jrn s)) v ->
  canUndo mark r s -> canUndo mark r t.
Proof.
  intros He Hv Hn Hundo H Hw Hw' Hu. destruct mark as [[s0 id]|]; [|done]. unfold canUndo in *. rewrite Hv, Hn. destruct Hu as [Hid Hu].
  split; [done|]. intros n Hin. destruct (Hu n Hin) as (Hlen & es & u & Hes & Hr & Hs & Hwu). split; [done|].
  rewrite Hes in Hw, Hw'.
  pose proof (revertAll_sim keccak everywhere false r r _ es s v (conj H (conj Hw Hw'))) as Ho. rewrite Hr in Ho.
  destruct (revertAll r (reverse es) v) as [u' []| |] eqn:Er; cbn in Ho; try done. destruct Ho as (Ho & _ & Hwt).
  exists (es ++ [e]), u'. split_and!; [by rewrite He, Hes, app_assoc| | |done].
  - rewrite reverse_snoc, undo_revertAll, (bind_eq _ _ t v tt Hundo). done.
  - by eapply stRel_trans.
Qed.

Lemma revsOK_entry j e : revsOK j -> revsOK (jappend e j).
Proof.
  intros [Hs Hb]. assert (Hj : validRevisions (jappend e j) = validRevisions j /\ nextRevisionId (jappend e j) = nextRevisionId j /\
    entries (jappend e j) = entries j ++ [e]) by (unfold jappend; by destruct (dirtied e)).
  destruct Hj as (Hv & Hn & He). split; rewrite Hv, ?Hn, ?He; [done|]. intros p Hp. destruct (Hb p Hp).
  rewrite length_app. cbn. lia.
Qed.

Lemma jappend_entries e j : entries (jappend e j) = entries j ++ [e].
Proof. unfold jappend. by destruct (dirtied e). Qed.

Lemma jappend_revisions e j : validRevisions (jappend e j) = validRevisions j /\ nextRevisionId (jappend e j) = nextRevisionId j.
Proof. unfold jappend. by destruct (dirtied e). Qed.

(** The entries determine which addresses are dirty. *)
Lemma wfJ_dirties r r0 es s t : wfJ r es s -> wfJ r0 es t -> dirties (jrn s) = dirties (jrn t).
Proof. intros H H'. apply map_eq. intros a. by rewrite (wj_dirties _ _ _ _ H), (wj_dirties _ _ _ _ H'). Qed.

Lemma jappend_dirties_ne e j b : dirtied e <> Some b -> dirties (jappend e j) !! b = dirties j !! b.
Proof. unfold jappend. destruct (dirtied e) as [a|]; [|done]. intros H. cbn. apply lookup_insert_ne. congruence. Qed.

Lemma jappend_dirties_eq r es s e a :
  wfJ r es s -> dirtied e = Some a -> dirties (jappend e (jrn s)) !! a = Some (Z.of_nat (length (about a (es ++ [e])))).
Proof.
  intros H He. unfold jappend. rewrite He. cbn. rewrite lookup_insert_eq, (wj_dirties _ _ _ _ H), about_app, (about_here a e He), length_app.
  cbn [length]. destruct (about a es) as [|x l]; cbn [default length]; f_equal; unfold id; lia.
Qed.

(** *** Adding an entry *)

Definition J (e : journalEntry) (s : StateDB) : StateDB := set_jrn (jappend e (jrn s)) s.

Lemma covered_J_ne e s b : dirtied e <> Some b -> covered (J e s) b = covered s b.
Proof. intros H. unfold covered, hasAccountMutation, J. cbn [jrn set_jrn mutations flatDiffRef]. by rewrite jappend_dirties_ne. Qed.

Lemma covered_J_eq r es e s a : wfJ r es s -> dirtied e = Some a -> covered (J e s) a = None.
Proof.
  intros H He. unfold covered, hasAccountMutation, J. cbn [jrn set_jrn mutations flatDiffRef].
  by rewrite (jappend_dirties_eq r es s e a), bool_decide_true by (done || by eexists).
Qed.

Lemma peek_J_ne r0 e s b : dirtied e <> Some b -> peek r0 (J e s) b = peek r0 s b.
Proof. intros H. unfold StateRel.peek, look. by rewrite covered_J_ne. Qed.

(** An entry about a loaded account, or about none. *)
Lemma peek_J r es e s a o :
  wfJ r es s -> loaded r s a o -> dirtied e = Some a \/ dirtied e = None -> forall b, peek r (J e s) b = peek r s b.
Proof.
  intros Hw [Ho Hp] He b. destruct (decide (dirtied e = Some b)) as [Hb|Hb]; [|by apply peek_J_ne].
  assert (b = a) as -> by (destruct He; congruence). rewrite Hp. unfold StateRel.peek, look.
  rewrite (covered_J_eq r es e s a) by done. cbn [stateObjects J set_jrn]. by rewrite Ho.
Qed.

Lemma J_loaded r es e s a o : wfJ r es s -> loaded r s a o -> dirtied e = Some a \/ dirtied e = None -> loaded r (J e s) a o.
Proof. intros Hw Hl He. split; [apply Hl|]. rewrite (peek_J r es e s a o) by done. apply Hl. Qed.

Lemma wfJ_J r es e s a o :
  isCreate e = false -> wfJ r es s -> loaded r s a o -> dirtied e = Some a \/ dirtied e = None -> wfJ r (es ++ [e]) (J e s).
Proof.
  intros Hc Hw Hl He. split.
  - intros b. unfold J. cbn [jrn set_jrn]. destruct (decide (dirtied e = Some b)) as [Hb|Hb].
    + rewrite (jappend_dirties_eq r es s e b) by done. rewrite about_app, (about_here b e Hb). by destruct (about b es).
    + rewrite jappend_dirties_ne by done. rewrite (wj_dirties _ _ _ _ Hw), about_app, (about_other b e) by done. by rewrite app_nil_r.
  - intros b Hb. rewrite about_app in Hb |- *. destruct (about b es) as [|x l] eqn:Ea.
    + destruct (decide (dirtied e = Some b)) as [Hd|Hd]; [|by rewrite (about_other b e) in Hb].
      assert (b = a) as -> by (destruct He; congruence). exists o. split; [apply Hl|].
      rewrite (about_here a e Hd). cbn. split; [done|]. rewrite Hc. intros x Hm Hx. destruct Hl as [Ho Hp].
      unfold StateRel.peek, look in Hp. unfold covered, hasAccountMutation in Hp.
      rewrite (wj_dirties _ _ _ _ Hw), Ea, Hm, !bool_decide_false in Hp by (by intros []). cbn in Hp. rewrite Hx, Ho in Hp.
      destruct x as [acct|]; [|done]. split; [by eexists|]. cbn in Hp. destruct (fromFlatDiff o) eqn:Ef; [done|].
      injection Hp as <-. done.
    + destruct (wj_objects _ _ _ _ Hw b) as (o' & Ho' & Hj); [by rewrite Ea|]. exists o'. split; [done|]. rewrite Ea in Hj.
      change (journalled keccak r s b ((x :: l) ++ about b [e]) o'). destruct Hj as [Hf Hj]. split; [|done].
      change (Forall (fun e => isCreate e = false) (l ++ about b [e])). apply Forall_app. split; [done|].
      destruct (decide (dirtied e = Some b)); [rewrite (about_here b e) by done; by constructor|by rewrite (about_other b e)].
Qed.

(** *** Reversals that change one object *)

Definition reverts (e : journalEntry) (a : Z) (h : stateObject -> stateObject) : Prop :=
  forall r0 s o, peek r0 s a = Some o ->
    exists t, revertEntry keccak r0 e s = Done t tt /\ env t = env s /\
      (forall b, peek r0 t b = if decide (b = a) then Some (h o) else peek r0 s b) /\
      forall es, wfJ r0 es s -> wfJ r0 es t.

Definition keeps_flat (f : stateObject -> stateObject) : Prop := forall o, fromFlatDiff (f o) = fromFlatDiff o.

Lemma reverts_onObject e a h :
  (forall r0, revertEntry keccak r0 e = onObject keccak r0 a h) -> keeps_flat h -> reverts e a h.
Proof.
  intros He Hh r0 s o Ho. rewrite He. unfold onObject. destruct (getStateObject_loads keccak r0 s a) as (t & Ht & Hl).
  rewrite (bind_eq _ _ s t _ Ht), Ho. exists (updO a h t).
  pose proof (ld_at _ _ _ _ _ Hl o Ho) as Hat. split_and!; [done|by rewrite <- (ld_env _ _ _ _ _ Hl)| |].
  - intros b. rewrite (updO_peek keccak r0 t a o h b) by auto. case_decide; [done|]. apply (ld_peek _ _ _ _ _ Hl).
  - intros es Hw. apply updO_wfJ; [done|]. by eapply loads_wfJ.
Qed.

Lemma reverts_selfDestruct a : reverts (selfDestructChange a) a (set_selfDestructed false).
Proof.
  intros r0 s o Ho. cbn [revertEntry]. destruct (getStateObject_loads keccak r0 s a) as (t & Ht & Hl).
  rewrite (bind_eq _ _ s t _ Ht), Ho.
  pose proof (ld_at _ _ _ _ _ Hl o Ho) as Hat. eexists. split; [reflexivity|]. split_and!; [by rewrite <- (ld_env _ _ _ _ _ Hl)| |].
  - intros b. rewrite (peek_same keccak r0 (updO a (set_selfDestructed false) t)) by done.
    rewrite (updO_peek keccak r0 t a o _ b) by done. case_decide; [done|]. apply (ld_peek _ _ _ _ _ Hl).
  - intros es Hw. apply (wfJ_same keccak r0 es (updO a (set_selfDestructed false) t)); [done|done|].
    apply updO_wfJ; [done|]. by eapply loads_wfJ.
Qed.

Lemma reverts_touch a : reverts (touchChange a) a id.
Proof. intros r0 s o Ho. exists s. split_and!; [done|done| |done]. intros b. by case_decide; subst. Qed.

(** *** An entry and the change of the object it is about *)

(** A state is well formed when it differs in nothing that can be told. *)
Lemma wf_quiet mark r s t :
  jrn t = jrn s -> sdAccess t = sdAccess s -> stRel everywhere false r s r t -> wfJ r (entries (jrn s)) t -> wf mark r s -> wf mark r t.
Proof. intros Hj Ha H Hw [Hj0 Ha0 Hr Hu]. split; rewrite ?Hj, ?Ha; try done. by apply (canUndo_same mark r s t). Qed.

Lemma loads_quiet r s t a : loads r a s t -> stRel everywhere false r s r t.
Proof.
  intros Hl. eapply (stRel_env keccak everywhere false r s s r s t); [done|symmetry; apply (ld_env _ _ _ _ _ Hl)| |apply stRel_refl].
  intros b. rewrite (ld_peek _ _ _ _ _ Hl). apply optRel_refl, objRel_refl.
Qed.

Lemma loads_wf mark r s t a : loads r a s t -> wf mark r s -> wf mark r t.
Proof.
  intros Hl Hw. pose proof (ld_env _ _ _ _ _ Hl) as He. injection He as ? ? ? ? ? Ha ? Hj ? ? ? ?.
  apply (wf_quiet mark r s t); try done; [by eapply loads_quiet|]. eapply loads_wfJ; [done|apply Hw].
Qed.

Lemma unit_wf mark r s a o e f h :
  wf mark r s -> loaded r s a o -> dirtied e = Some a \/ dirtied e = None -> isCreate e = false -> isAccess e = false -> keeps_flat f ->
  reverts e a h -> objRel everywhere r s r s a o (h (f o)) -> wf mark r (updO a f (J e s)).
Proof.
  intros [Hj Ha Hr Hu] Hl He Hc Hia Hf Hrev Ho.
  assert (HlJ : loaded r (J e s) a o) by by eapply J_loaded.
  assert (HwJ : wfJ r (entries (jrn s) ++ [e]) (updO a f (J e s))) by (apply updO_wfJ; [done|]; by eapply wfJ_J).
  assert (Hp : peek r (updO a f (J e s)) a = Some (f o)) by (rewrite (updO_peek keccak r (J e s) a o) by auto; by rewrite decide_True).
  destruct (Hrev r _ _ Hp) as (v & Hv & Henv & Hpv & Hwv). specialize (Hwv _ HwJ).
  injection Henv as Hrf Hth Hti Hlg Hls Hal Htr Hjr Hmu Hd Hcb Hfl.
  assert (Hwu : wfJ r (entries (jrn s)) (undirty e v)) by (eapply wfJ_undirty; eauto).
  split; [| |by apply revsOK_entry|].
  - cbn [jrn updO J set_objects set_jrn]. by rewrite jappend_entries.
  - cbn [jrn updO J set_objects set_jrn sdAccess]. rewrite jappend_entries. by apply accWf_snoc.
  - apply (canUndo_entry mark r s _ e (undirty e v)); try done; try (cbn; apply jappend_revisions).
    + apply jappend_entries.
    + unfold undo. by rewrite (bind_eq _ _ _ v tt Hv).
    + eapply (stRel_slots keccak everywhere false r s s r s (undirty e v)); [done| | |apply stRel_refl|..];
        try (symmetry; done); try (cbn [undirty set_jrn]; unfold slots; cbn; congruence).
      * intros b. rewrite (peek_undirty keccak r (entries (jrn s)) e v) by done. rewrite Hpv.
        destruct (decide (b = a)) as [->|Hb]; [destruct Hl as [_ ->]; exact Ho|].
        rewrite (updO_peek keccak r (J e s) a o) by auto. rewrite decide_False by done.
        rewrite (peek_J r (entries (jrn s)) e s a o) by done. apply optRel_refl, objRel_refl.
      * by eapply wfJ_dirties.
Qed.

(** *** Creating an object *)

Definition created (a : Z) (s : StateDB) : StateDB :=
  set_objects (<[a := newObject keccak None]> (stateObjects s)) (J (createObjectChange a) s).

Lemma created_about r es s a : wfJ r es s -> peek r s a = None -> about a es = [] /\ atRest keccak r s a = None.
Proof.
  intros Hw Hp. assert (Ha : about a es = []).
  { destruct (about a es) as [|x l] eqn:Ea; [done|]. destruct (wfJ_loaded _ _ _ _ a Hw) as (o & [_ Ho] & _); [by rewrite Ea|].
    by rewrite Hp in Ho. }
  split; [done|]. unfold StateRel.peek, look in Hp. unfold covered, hasAccountMutation in Hp.
  rewrite (wj_dirties _ _ _ _ Hw), Ha, (bool_decide_false (is_Some (None : option Z))) in Hp by (by intros []). cbn [orb] in Hp.
  unfold atRest. destruct (if bool_decide (is_Some (mutations s !! a)) then None else _) as [[acct|]|]; [|done|].
  - cbn in Hp. destruct (stateObjects s !! a) as [o|]; [destruct (fromFlatDiff o)|]; done.
  - by destruct (stateObjects s !! a).
Qed.

Lemma peek_created r es s a b :
  wfJ r es s -> peek r (created a s) b = if decide (b = a) then Some (newObject keccak None) else peek r s b.
Proof.
  intros Hw. unfold StateRel.peek, created. cbn [stateObjects set_objects]. rewrite (frame_look keccak r _ (J (createObjectChange a) s)) by done.
  case_decide as Hb; [subst b|].
  - rewrite lookup_insert_eq. unfold look. by rewrite (covered_J_eq r es _ s a).
  - rewrite lookup_insert_ne by done. apply (peek_J_ne r (createObjectChange a) s b). cbn. congruence.
Qed.

Lemma created_loaded r es s a : wfJ r es s -> loaded r (created a s) a (newObject keccak None).
Proof. intros Hw. split; [apply lookup_insert_eq|]. rewrite (peek_created r es) by done. by rewrite decide_True. Qed.

Lemma wfJ_created r es s a : wfJ r es s -> peek r s a = None -> wfJ r (es ++ [createObjectChange a]) (created a s).
Proof.
  intros Hw Hp. destruct (created_about r es s a Hw Hp) as [Ha Hr]. split.
  - intros b. cbn [jrn created set_objects J set_jrn]. destruct (decide (b = a)) as [->|Hb].
    + rewrite (jappend_dirties_eq r es s _ a) by done. by rewrite about_app, Ha, (about_here a (createObjectChange a)).
    + rewrite jappend_dirties_ne by (cbn; congruence). rewrite (wj_dirties _ _ _ _ Hw), about_app, (about_other b (createObjectChange a)) by (cbn; congruence).
      by rewrite app_nil_r.
  - intros b Hb. destruct (decide (b = a)) as [->|Hne].
    + exists (newObject keccak None). split; [apply lookup_insert_eq|]. rewrite about_app, Ha, (about_here a (createObjectChange a)) by done. cbn. by split.
    + rewrite about_app, (about_other b (createObjectChange a)), app_nil_r in Hb |- * by (cbn; congruence).
      destruct (wj_objects _ _ _ _ Hw b Hb) as (o & Ho & Hj). exists o. split; [|done]. cbn. by rewrite lookup_insert_ne.
Qed.

Lemma created_wf mark r s a : wf mark r s -> peek r s a = None -> wf mark r (created a s).
Proof.
  intros [Hj Ha Hr Hu] Hp. pose proof (wfJ_created r _ s a Hj Hp) as HwJ.
  assert (Hwu : wfJ r (entries (jrn s)) (uncreate a (created a s))).
  { eapply wfJ_undirty; [exact HwJ|done..| |]; [by left|]. intros b Hb. cbn in Hb |- *.
    apply lookup_delete_ne. congruence. }
  split; [| |by apply revsOK_entry|].
  - cbn [jrn created J set_objects set_jrn]. by rewrite jappend_entries.
  - cbn [jrn created J set_objects set_jrn sdAccess]. rewrite jappend_entries. by apply accWf_snoc.
  - apply (canUndo_entry mark r s _ (createObjectChange a) (uncreate a (created a s))); try done.
    eapply (stRel_slots keccak everywhere false r s s r s (uncreate a (created a s))); [done|done| |apply stRel_refl|..]; try done.
    + intros b. rewrite (peek_uncreate keccak r (entries (jrn s))) by done. rewrite (peek_created r (entries (jrn s))) by done.
      destruct (decide (b = a)) as [->|Hb]; [by rewrite Hp|]. apply optRel_refl, objRel_refl.
    + by eapply wfJ_dirties.
Qed.

(** *** Entries about no object *)

(** An entry about no account and a change [t] of fields, which its reversal [v] takes
    back. *)
Lemma field_wf mark r s e t v :
  wf mark r s -> dirtied e = None -> isCreate e = false -> frame t = frame (J e s) -> stateObjects t = stateObjects s ->
  accWf (reverse (entries (jrn s) ++ [e])) (sdAccess t) -> revertEntry keccak r e t = Done v tt -> frame v = frame t -> stateObjects v = stateObjects s ->
  sdRefund v = sdRefund s -> thash v = thash s -> txIndex v = txIndex s -> (forall h, default [] (sdLogs v !! h) = default [] (sdLogs s !! h)) ->
  sdLogSize v = sdLogSize s -> sdAccess v = sdAccess s ->
  (forall a k, ParallelState.transientGet (transientStorage v) a k = ParallelState.transientGet (transientStorage s) a k) ->
  wf mark r t.
Proof.
  intros [Hj Ha Hr Hu] He Hc Hf Ho Hacc Hrev Hfv Hov. intros.
  assert (HJ : jappend e (jrn s) = mkJournal (entries (jrn s) ++ [e]) (dirties (jrn s)) (validRevisions (jrn s)) (nextRevisionId (jrn s)))
    by (unfold jappend; by rewrite He).
  assert (Hjt : jrn t = jappend e (jrn s)) by (injection Hf as ->; done).
  assert (Hw : forall x, frame x = frame t -> stateObjects x = stateObjects s -> wfJ r (entries (jrn s)) x).
  { intros x Hx Hox. rewrite Hf in Hx. injection Hx as Hxj Hxm Hxd Hxc Hxf. split.
    - intros b. rewrite Hxj, HJ. cbn [dirties]. apply (wj_dirties _ _ _ _ Hj).
    - intros b Hb. destruct (wj_objects _ _ _ _ Hj b Hb) as (o & Hob & Hjo). exists o. split; [by rewrite Hox|].
      apply (frame_journalled keccak r s x b _ o); [done| |done]. unfold slots. congruence. }
  assert (Hp : forall x b, frame x = frame t -> stateObjects x = stateObjects s -> peek r x b = peek r s b).
  { intros x b Hx Hox. rewrite Hf in Hx. injection Hx as Hxj Hxm Hxd Hxc Hxf. unfold StateRel.peek. rewrite Hox. unfold look.
    replace (covered x b) with (covered s b) by (unfold covered, hasAccountMutation; by rewrite Hxj, HJ, Hxm, Hxf).
    apply slots_lookAt. unfold slots. congruence. }
  assert (Hv : dirties (jrn v) = dirties (jrn s)) by (injection Hfv as -> ? ? ? ?; rewrite Hjt, HJ; done).
  split; [|by rewrite Hjt, jappend_entries|rewrite Hjt; by apply revsOK_entry|].
  - rewrite Hjt, jappend_entries. split.
    + intros b. rewrite about_app, (about_other b e), app_nil_r by congruence. apply (wj_dirties _ _ _ _ (Hw t eq_refl Ho)).
    + intros b. rewrite about_app, (about_other b e), app_nil_r by congruence. apply (wj_objects _ _ _ _ (Hw t eq_refl Ho)).
  - apply (canUndo_entry mark r s t e v); try done; try (rewrite Hjt; try apply jappend_revisions; by apply jappend_entries).
    + unfold undo. rewrite (bind_eq _ _ t v tt Hrev). change (Done (E := Empty_set) (undirty e v) tt = Done v tt). by rewrite undirty_none.
    + pose proof Hfv as Hs. rewrite Hf in Hs. injection Hs as ? ? ? ? ?.
      eapply (stRel_slots keccak everywhere false r s s r s v); [done|unfold slots; cbn in *; congruence| |apply stRel_refl|..]; try (intros; symmetry; done); try (symmetry; done).
      * intros b. rewrite (Hp v b) by done. apply optRel_refl, objRel_refl.
      * cbn in *. congruence.
    + by apply Hw.
Qed.

End units.

End StateUnits.
