(* ===== verification/StateOps.v ===== *)
(** * Operations on related states

    Every operation of the EVM's interface gives the same answer on related states and
    leaves them related and well formed. *)

From S2P Require Import Prelude Bytes MvStore ParallelState StateDB SerialRun StateRel StateUndo StateUnits.
Import MvStore.

Module StateOps.

Import StateDB StateRel StateUndo StateUnits.

(** The size of code is the length of the code. *)
Definition sizesFit (r : Reader) : Prop := forall a h, (rdCodeSize r a h).1 = Z.of_nat (length (rdCode r a h).1).

Section ops.
Context (keccak : list Z -> Z) (rt : Z -> Prop) (ids : bool) (mark : option (StateDB * Z)) (r r' : Reader).
Context (Hsize : sizesFit r) (Hsize' : sizesFit r').

#[local] Abbreviation stRel := (stRel keccak).
#[local] Abbreviation objRel := (objRel keccak).
#[local] Abbreviation peek := (peek keccak).
#[local] Abbreviation loaded := (loaded keccak).
#[local] Abbreviation wfJ := (wfJ keccak).
#[local] Abbreviation loads := (loads keccak).
#[local] Abbreviation wf := (wf keccak).

Record together (s s' : StateDB) : Prop := mkTogether {
  tg_rel : stRel rt ids r s r' s';
  tg_wf : wf mark r s;
  tg_wf' : wf None r' s'
}.

(** Objects loaded on both sides. *)
Record both (a : Z) (s s' : StateDB) (o o' : stateObject) : Prop := mkBoth {
  bt_left : loaded r s a o;
  bt_right : loaded r' s' a o';
  bt_rel : objRel rt r s r' s' a o o'
}.

Definition sim {A} (m m' : st StateDB Empty_set A) : Prop :=
  forall s s', together s s' -> outRel (fun t t' x x' => x = x' /\ together t t') (m s) (m' s').

Lemma pair_ret {A} (x : A) : sim (mret x) (mret x).
Proof. by intros s s' H. Qed.

Lemma pair_bind {A B} (m m' : st StateDB Empty_set A) (k k' : A -> st StateDB Empty_set B) :
  sim m m' -> (forall x, sim (k x) (k' x)) -> sim (m ≫= k) (m' ≫= k').
Proof. intros Hm Hk s s' H. eapply outRel_bind; [by apply Hm|]. intros t t' x x' [<- Ht]. by apply Hk. Qed.

(** A computation that begins with a look at the state. *)
Lemma pair_get {A} (k k' : StateDB -> st StateDB Empty_set A) :
  (forall s s', together s s' -> outRel (fun t t' x x' => x = x' /\ together t t') (k s s) (k' s' s')) -> sim (getS ≫= k) (getS ≫= k').
Proof. intros H s s' Hs. by apply H. Qed.

(** *** Loading *)

Lemma load_sim a s s' :
  together s s' ->
  outRel (fun t t' o o' => together t t' /\ peek r s a = o /\
            match o, o' with
            | Some x, Some x' => both a t t' x x'
            | None, None => peek r t a = None /\ peek r' t' a = None
            | _, _ => False
            end)
    (getStateObject keccak r a s) (getStateObject keccak r' a s').
Proof.
  intros [H Hw Hw']. destruct (getStateObject_loads keccak r s a) as (t & -> & Hl).
  destruct (getStateObject_loads keccak r' s' a) as (t' & -> & Hl'). cbn [outRel].
  assert (Ht : stRel rt ids r t r' t') by by eapply loads_stRel.
  split; [split; [done|by eapply loads_wf|by eapply loads_wf]|]. split; [done|].
  pose proof (sr_peek _ _ _ _ _ _ _ Ht a) as Hp. rewrite (ld_peek _ _ _ _ _ Hl), (ld_peek _ _ _ _ _ Hl') in Hp |- *.
  pose proof (ld_at _ _ _ _ _ Hl) as Ha. pose proof (ld_at _ _ _ _ _ Hl') as Ha'.
  destruct (peek r s a), (peek r' s' a); cbn in Hp; try done. by split; auto.
Qed.

(** *** One entry and its change *)

Lemma stRel_J e s s' a o o' :
  stRel rt ids r s r' s' -> wfJ r (entries (jrn s)) s -> wfJ r' (entries (jrn s')) s' -> both a s s' o o' ->
  dirtied e = Some a \/ dirtied e = None -> stRel rt ids r (J e s) r' (J e s').
Proof.
  intros H Hw Hw' [Hl Hl' Ho] He. eapply (stRel_slots keccak rt ids r s _ r' s' _); [done|done| |done|..]; try apply H.
  - intros b. rewrite (peek_J keccak r (entries (jrn s)) e s a o), (peek_J keccak r' (entries (jrn s')) e s' a o') by done.
    apply (sr_peek _ _ _ _ _ _ _ H).
  - cbn. unfold jappend. destruct (dirtied e); cbn; by rewrite ?(sr_dirties _ _ _ _ _ _ _ H).
  - intros Hi. destruct (sr_ids _ _ _ _ _ _ _ H Hi) as (H1 & H2 & H3).
    cbn [jrn J set_jrn]. rewrite !jappend_entries, !(proj1 (jappend_revisions _ _)), !(proj2 (jappend_revisions _ _)).
    split_and!; congruence.
Qed.

Lemma unit_object a s s' o o' e f h :
  together s s' -> both a s s' o o' -> dirtied e = Some a \/ dirtied e = None -> isCreate e = false -> isAccess e = false ->
  respects keccak a f -> reverts keccak e a h -> objRel everywhere r s r s a o (h (f o)) -> objRel everywhere r' s' r' s' a o' (h (f o')) ->
  together (updO a f (J e s)) (updO a f (J e s')) /\ both a (updO a f (J e s)) (updO a f (J e s')) (f o) (f o').
Proof.
  intros [H Hw Hw'] Hb He Hc Hia [Hf Hr] Hrev Ho Ho'. destruct Hb as [Hl Hl' Hoo] eqn:Eb. clear Eb.
  pose proof (wf_journal _ _ _ _ Hw) as Hj. pose proof (wf_journal _ _ _ _ Hw') as Hj'.
  assert (HlJ : loaded r (J e s) a o) by by eapply J_loaded. assert (HlJ' : loaded r' (J e s') a o') by by eapply J_loaded.
  assert (HR : objRel rt r (J e s) r' (J e s') a (f o) (f o')).
  { apply Hr. by apply (objRel_slots keccak rt r s (J e s) r' s' (J e s')). }
  split.
  - split; [|by eapply unit_wf; eauto|by eapply unit_wf; eauto].
    eapply updO_stRel; eauto. by eapply stRel_J.
  - split; [by apply updO_loaded|by apply updO_loaded|].
    by apply (objRel_slots keccak rt r (J e s) _ r' (J e s')).
Qed.

(** An object that answers alike after caching. *)
Definition alike (r0 : Reader) (s t : StateDB) (a : Z) (o o1 : stateObject) : Prop :=
  data o1 = data o /\ selfDestructed o1 = selfDestructed o /\ newContract o1 = newContract o /\ dirtyStorage o1 = dirtyStorage o /\
  codeOf keccak r0 a o1 = codeOf keccak r0 a o /\ forall k, committedOf r0 t a o1 k = committedOf r0 s a o k.

(** A cache filled on both sides. *)
Lemma cache_sim a s s' o o' f f' :
  together s s' -> both a s s' o o' -> keeps_flat f -> keeps_flat f' ->
  alike r s s a o (f o) -> alike r' s' s' a o' (f' o') -> (code o = [] \/ code (f o) = code o) -> (code (f o) = [] \/ code (f' o') = code (f o)) ->
  together (updO a f s) (updO a f' s') /\ both a (updO a f s) (updO a f' s') (f o) (f' o').
Proof.
  intros [H Hw Hw'] [Hl Hl' Ho] Hf Hf' (D & S & N & DS & C & K) (D' & S' & N' & DS' & C' & K') Hc1 Hc.
  assert (HR : objRel rt r s r' s' a (f o) (f' o')).
  { destruct Ho as [? ? ? ? ? ? Hv ? ? Hk]. split; try congruence; [by rewrite D, D'|].
    intros k. specialize (Hv k). unfold valueOf in *. rewrite DS, DS', K, K'. done. }
  assert (Hq : stRel everywhere false r s r (updO a f s)).
  { pose proof (stRel_refl keccak everywhere false r s) as Hx.
    eapply (stRel_env keccak everywhere false r s s r s (updO a f s)); [done|done| |done].
    intros b. rewrite (updO_peek keccak r s a o f b) by auto. case_decide as Hb; [subst|apply optRel_refl, objRel_refl].
    destruct Hl as [_ ->]. split; try congruence. intros k. unfold valueOf. by rewrite DS, K. }
  split.
  - split; [by eapply updO_stRel; eauto| |].
    + eapply wf_quiet; [..|exact Hw]; try done. apply updO_wfJ; [done|apply Hw].
    + destruct Hw' as [Hj' ? ? ?]. split; try done. by apply updO_wfJ.
  - split; [by apply updO_loaded|by apply updO_loaded|]. by apply (objRel_slots keccak rt r s _ r' s').
Qed.

(** States equal but for what is never answered (errors, missed reads, preimages). *)
Definition quiet (s t : StateDB) : Prop := env t = env s /\ stateObjects t = stateObjects s.

Lemma quiet_stRel rt0 ids0 r0 s t : quiet s t -> stRel rt0 ids0 r0 s r0 t.
Proof.
  intros [He Ho]. eapply (stRel_env keccak rt0 ids0 r0 s s r0 s t); [done|by symmetry| |apply stRel_refl].
  intros b. rewrite (peek_same keccak r0 s t b) by (try (by symmetry); symmetry; by apply env_frame). apply optRel_refl, objRel_refl.
Qed.

Lemma quiet_wf m r0 s t : quiet s t -> wf m r0 s -> wf m r0 t.
Proof.
  intros Hq Hw. pose proof Hq as [He Ho]. pose proof He as [= ? ? ? ? ? Ha ? Hj ? ? ? ?].
  apply (wf_quiet keccak m r0 s t); try done; [by apply quiet_stRel|].
  apply (wfJ_same keccak r0 _ s t); [symmetry; by apply env_frame|by symmetry|apply Hw].
Qed.

Lemma quiet_together s s' t t' : quiet s t -> quiet s' t' -> together s s' -> together t t'.
Proof.
  intros Hq Hq' [H Hw Hw']. split; [|by eapply quiet_wf..]. destruct Hq as [He Ho], Hq' as [He' Ho'].
  eapply (stRel_env keccak rt ids r s t r' s' t'); [by symmetry..| |done].
  intros b. rewrite (peek_same keccak r s t b), (peek_same keccak r' s' t' b) by (try (by symmetry); symmetry; by apply env_frame).
  apply (sr_peek _ _ _ _ _ _ _ H).
Qed.

Lemma quiet_loaded r0 s t a o : quiet s t -> loaded r0 s a o -> loaded r0 t a o.
Proof.
  intros [He Ho] [Hm Hp]. split; [by rewrite Ho|].
  rewrite (peek_same keccak r0 s t a); [done|symmetry; by apply env_frame|by symmetry].
Qed.

Lemma quiet_both a s s' t t' o o' : quiet s t -> quiet s' t' -> both a s s' o o' -> both a t t' o o'.
Proof.
  intros Hq Hq' [Hl Hl' Ho]. split; [by eapply quiet_loaded..|].
  apply (objRel_slots keccak rt r s t r' s' t'); [| |done]; symmetry; apply frame_slots, env_frame; [apply Hq|apply Hq'].
Qed.

Lemma alike_refl r0 s a o : alike r0 s s a o o.
Proof. by split_and!. Qed.

Lemma updO_id a s : quiet (updO a id s) s.
Proof.
  split; [done|]. cbn. apply map_eq. intros b. rewrite lookup_alter. case_decide; subst; by destruct (_ !! _).
Qed.

(** *** Slots *)

Lemma alike_origin r0 s a o k :
  pendingStorage o !! k = None -> alike r0 s s a o (set_originStorage (<[k := committedOf r0 s a o k]> (originStorage o)) o).
Proof.
  intros Hp. split_and!; try done. intros l. unfold committedOf at 1 3. cbn [pendingStorage set_originStorage originStorage].
  destruct (pendingStorage o !! l); [done|]. case_bool_decide as Hc; [done|].
  destruct (storageOverlay (flatDiffRef s) a l) as [v|] eqn:Ev; [done|].
  destruct (decide (l = k)) as [->|Hl]; [|by rewrite lookup_insert_ne]. rewrite lookup_insert_eq.
  unfold committedOf. rewrite Hp, bool_decide_false, Ev by done. done.
Qed.

Lemma objGetCommittedState_spec r0 a k s o :
  loaded r0 s a o ->
  exists t f, objGetCommittedState r0 a k s = Done t (committedOf r0 s a o k) /\ quiet (updO a f s) t /\
    keeps_flat f /\ alike r0 s s a o (f o) /\ code (f o) = code o.
Proof.
  intros [Ho Hp]. unfold objGetCommittedState, objectAt. unfold mbind at 1, st_bind at 1. cbn [getS]. unfold mbind at 1, st_bind at 1.
  unfold getS at 1. rewrite Ho. cbn [orPanic]. unfold mret, st_ret.
  assert (Hid : exists t f, Done (E := Empty_set) s (committedOf r0 s a o k) = Done t (committedOf r0 s a o k) /\ quiet (updO a f s) t /\
      keeps_flat f /\ alike r0 s s a o (f o) /\ code (f o) = code o).
  { exists s, id. split; [done|]. split; [apply updO_id|]. split; [by intros ?|]. by split; [apply alike_refl|]. }
  assert (Hcache : pendingStorage o !! k = None -> exists t f, (_ ← cacheOrigin a k (committedOf r0 s a o k); mret (committedOf r0 s a o k)) s =
      Done t (committedOf r0 s a o k) /\ quiet (updO a f s) t /\ keeps_flat f /\ alike r0 s s a o (f o) /\ code (f o) = code o).
  { intros Hn. eexists _, (fun o1 => set_originStorage (<[k := committedOf r0 s a o k]> (originStorage o1)) o1).
    split; [reflexivity|]. split; [done|]. split; [done|]. by split; [apply alike_origin|]. }
  destruct (pendingStorage o !! k) as [v|] eqn:Ep; [unfold committedOf in Hid |- *; by rewrite Ep in Hid |- *|].
  specialize (Hcache eq_refl). unfold mbind at 1, st_bind at 1, getS at 1.
  assert (Hval : committedOf r0 s a o k = if bool_decide (a ∈ currentBlockDestructs s) then 0 else
    match storageOverlay (flatDiffRef s) a k with Some v => v | None => match originStorage o !! k with Some v => v | None => baseOf r0 s a k end end).
  { unfold committedOf. by rewrite Ep. }
  set (c := committedOf r0 s a o k) in *. clearbody c. unfold baseOf in Hval.
  case_bool_decide as Hc; [by subst c|]. destruct (storageOverlay (flatDiffRef s) a k) as [v|]; [by subst c|].
  destruct (originStorage o !! k) as [v|]; [by subst c|]. case_bool_decide as Hd; [by subst c|].
  destruct (rdStorage r0 a k) as [v []]; [|by subst c]. subst c.
  exists (set_dbErr s), id. split; [done|]. split; [|split; [by intros ?|]; by split; [apply alike_refl|]].
  destruct (updO_id a s) as [_ Hx]. split; [done|exact Hx].
Qed.

Lemma committed_sim a k s s' o o' :
  together s s' -> both a s s' o o' ->
  outRel (fun t t' x x' => x = x' /\ x = committedOf r s a o k /\ together t t' /\
            exists o1 o1', both a t t' o1 o1' /\ alike r s t a o o1 /\ alike r' s' t' a o' o1')
    (objGetCommittedState r a k s) (objGetCommittedState r' a k s').
Proof.
  intros H Hb. destruct (objGetCommittedState_spec r a k s o) as (t & f & -> & Hq & Hf & Ha & Hc); [apply Hb|].
  destruct (objGetCommittedState_spec r' a k s' o') as (t' & f' & -> & Hq' & Hf' & Ha' & Hc'); [apply Hb|]. cbn [outRel].
  destruct (cache_sim a s s' o o' f f') as [Ht Hbt]; try done; [by right|rewrite Hc, Hc'; apply (or_cache _ _ _ _ _ _ _ _ _ (bt_rel _ _ _ _ _ Hb))|].
  split; [apply (or_committed _ _ _ _ _ _ _ _ _ (bt_rel _ _ _ _ _ Hb))|]. split; [done|].
  split; [by eapply quiet_together|]. exists (f o), (f' o'). split; [by eapply quiet_both|].
  destruct Hq as [He _], Hq' as [He' _]. split.
  - destruct Ha as (?&?&?&?&?&K). split_and!; try done. intros l. rewrite <- K. apply slots_committedOf, frame_slots, env_frame, He.
  - destruct Ha' as (?&?&?&?&?&K). split_and!; try done. intros l. rewrite <- K. apply slots_committedOf, frame_slots, env_frame, He'.
Qed.

Lemma objectAt_eq r0 a s o : loaded r0 s a o -> objectAt a s = Done s o.
Proof. intros [Ho _]. unfold objectAt. rewrite (bind_eq getS _ s s s eq_refl), Ho. done. Qed.

Lemma getState_sim a k s s' o o' :
  together s s' -> both a s s' o o' ->
  outRel (fun t t' x x' => x = x' /\ x = (valueOf r s a o k, committedOf r s a o k) /\ together t t' /\
            exists o1 o1', both a t t' o1 o1' /\ alike r s t a o o1 /\ alike r' s' t' a o' o1')
    (objgetState r a k s) (objgetState r' a k s').
Proof.
  intros H Hb. unfold objgetState. eapply outRel_bind; [by apply committed_sim|].
  intros t t' x x' (<- & -> & Ht & o1 & o1' & Hb1 & Ha & Ha').
  rewrite (bind_eq _ _ t t o1 (objectAt_eq r a t o1 (bt_left _ _ _ _ _ Hb1))), (bind_eq _ _ t' t' o1' (objectAt_eq r' a t' o1' (bt_right _ _ _ _ _ Hb1))).
  pose proof (or_value _ _ _ _ _ _ _ _ _ (bt_rel _ _ _ _ _ Hb) k) as Hv. pose proof (or_committed _ _ _ _ _ _ _ _ _ (bt_rel _ _ _ _ _ Hb) k) as Hc.
  pose proof Ha as (_ & _ & _ & Hd & _). pose proof Ha' as (_ & _ & _ & Hd' & _). cbn.
  split; [|split; [|split; [done|by exists o1, o1']]]; f_equal; rewrite ?Hd, ?Hd'; [|done].
  unfold valueOf in Hv. by rewrite <- Hc in Hv.
Qed.

(** *** Changes of objects *)

(** An operation on a loaded object that ends with one entry and its change. *)
Lemma changed_sim {A} a s s' o o' e f h (x : A) (m m' : st StateDB Empty_set A) :
  together s s' -> both a s s' o o' -> dirtied e = Some a \/ dirtied e = None -> isCreate e = false -> isAccess e = false ->
  respects keccak a f -> reverts keccak e a h -> objRel everywhere r s r s a o (h (f o)) -> objRel everywhere r' s' r' s' a o' (h (f o')) ->
  m s = Done (updO a f (J e s)) x -> m' s' = Done (updO a f (J e s')) x ->
  outRel (fun t t' y y' => y = y' /\ together t t' /\ y = x /\ both a t t' (f o) (f o')) (m s) (m' s').
Proof.
  intros. destruct (unit_object a s s' o o' e f h) as [Ht Hb]; try done.
  match goal with Hm : m s = _, Hm' : m' s' = _ |- _ => rewrite Hm, Hm' end. cbn. by split_and!.
Qed.

Lemma outRel_drop {A} (P : StateDB -> StateDB -> A -> Prop) x y :
  outRel (fun t t' a b => a = b /\ together t t' /\ P t t' a) x y -> outRel (fun t t' a b => a = b /\ together t t') x y.
Proof. intros H. eapply outRel_weaken; [exact H|]. by intros t t' a b (? & ? & _). Qed.

Lemma bind_objectAt {A} r0 a s o (k : stateObject -> st StateDB Empty_set A) : loaded r0 s a o -> (objectAt a ≫= k) s = k o s.
Proof. intros H. by rewrite (bind_eq _ _ s s o (objectAt_eq r0 a s o H)). Qed.

Lemma setBalance_sim a v s s' o o' :
  together s s' -> both a s s' o o' ->
  outRel (fun t t' x x' => x = x' /\ together t t' /\ x = Balance (data o) /\ both a t t' (setBalance v o) (setBalance v o'))
    (objSetBalance a v s) (objSetBalance a v s').
Proof.
  intros H Hb. pose proof (or_balance _ _ _ _ _ _ _ _ _ (bt_rel _ _ _ _ _ Hb)) as Hbal.
  apply (changed_sim a s s' o o' (balanceChange a (Balance (data o))) (setBalance v) (setBalance (Balance (data o)))); try done.
  - by left.
  - apply respects_setBalance.
  - by apply reverts_onObject.
  - by split; try done; right.
  - rewrite Hbal. by split; try done; right.
  - unfold objSetBalance. by rewrite (bind_objectAt r a s o) by apply Hb.
  - unfold objSetBalance. rewrite (bind_objectAt r' a s' o') by apply Hb. by rewrite Hbal.
Qed.

Lemma setNonce_sim a v s s' o o' :
  together s s' -> both a s s' o o' -> outRel (fun t t' x x' => x = x' /\ together t t') (objSetNonce a v s) (objSetNonce a v s').
Proof.
  intros H Hb. pose proof (or_nonce _ _ _ _ _ _ _ _ _ (bt_rel _ _ _ _ _ Hb)) as Hn. eapply outRel_drop.
  apply (changed_sim a s s' o o' (nonceChange a (Nonce (data o))) (setNonce v) (setNonce (Nonce (data o))) tt); try done.
  - by left.
  - apply respects_setNonce.
  - by apply reverts_onObject.
  - by split; try done; right.
  - rewrite Hn. by split; try done; right.
  - unfold objSetNonce. by rewrite (bind_objectAt r a s o) by apply Hb.
  - unfold objSetNonce. rewrite (bind_objectAt r' a s' o') by apply Hb. by rewrite Hn.
Qed.

(** A slot is restored by its value and its origin. *)
Lemma setState_restores r0 s a k v o :
  objRel everywhere r0 s r0 s a o (setState_ k (valueOf r0 s a o k) (committedOf r0 s a o k) (setState_ k v (committedOf r0 s a o k) o)).
Proof.
  set (c := committedOf r0 s a o k). set (w := valueOf r0 s a o k).
  assert (Hd : forall l, default (committedOf r0 s a o l) (dirtyStorage (setState_ k w c (setState_ k v c o)) !! l) = valueOf r0 s a o l).
  { intros l. unfold setState_. destruct (w =? c) eqn:Ew, (v =? c); cbn [dirtyStorage set_dirtyStorage];
      (destruct (decide (l = k)) as [->|Hl]; [|rewrite ?lookup_delete_ne, ?lookup_insert_ne by done;
        rewrite ?lookup_delete_ne, ?lookup_insert_ne by done; done]);
      rewrite ?lookup_delete_eq, ?lookup_insert_eq; cbn [default]; try done; apply Z.eqb_eq in Ew; exact (eq_sym Ew). }
  assert (Hsame : forall o1 p q, data (setState_ k p q o1) = data o1 /\ code (setState_ k p q o1) = code o1 /\ selfDestructed (setState_ k p q o1) = selfDestructed o1
     /\ newContract (setState_ k p q o1) = newContract o1 /\ (forall l, committedOf r0 s a (setState_ k p q o1) l = committedOf r0 s a o1 l)).
  { intros o1 p q. unfold setState_. by destruct (p =? q). }
  destruct (Hsame (setState_ k v c o) w c) as (D & C & S & N & K), (Hsame o v c) as (D0 & C0 & S0 & N0 & K0).
  split; try congruence.
  - unfold codeOf. by rewrite C, C0, D, D0.
  - right. congruence.
  - intros l. rewrite <- Hd. unfold valueOf. by rewrite K, K0.
Qed.

Lemma objSetState_sim a k v s s' o o' :
  together s s' -> both a s s' o o' -> outRel (fun t t' x x' => x = x' /\ together t t') (objSetState r a k v s) (objSetState r' a k v s').
Proof.
  intros H Hb. unfold objSetState. eapply outRel_bind; [by apply getState_sim|].
  intros t t' p p' (<- & -> & Ht & o1 & o1' & Hb1 & Ha & Ha'). cbn [fst snd].
  destruct (valueOf r s a o k =? v); [by apply pair_ret|].
  assert (Hk : committedOf r t a o1 k = committedOf r s a o k) by apply Ha.
  assert (Hv : valueOf r t a o1 k = valueOf r s a o k).
  { destruct Ha as (_ & _ & _ & Hd & _ & K). unfold valueOf. by rewrite Hd, K. }
  eapply outRel_drop.
  apply (changed_sim a t t' o1 o1' (storageChange a k (valueOf r s a o k) (committedOf r s a o k))
           (setState_ k v (committedOf r s a o k)) (setState_ k (valueOf r s a o k) (committedOf r s a o k)) (valueOf r s a o k)); try done.
  - by left.
  - apply respects_setState.
  - apply reverts_onObject; [done|]. intros x. unfold setState_. by destruct (_ =? _).
  - rewrite <- Hv, <- Hk. apply setState_restores.
  - rewrite <- Hv, <- Hk, (or_value _ _ _ _ _ _ _ _ _ (bt_rel _ _ _ _ _ Hb1) k), (or_committed _ _ _ _ _ _ _ _ _ (bt_rel _ _ _ _ _ Hb1) k).
    apply setState_restores.
Qed.

(** *** Code *)

Lemma alike_code r0 s a o : alike r0 s s a o (set_code (codeOf keccak r0 a o) (dirtyCode o) o).
Proof.
  split_and!; try done. unfold codeOf at 1. cbn [code set_code data]. case_bool_decide as H; cbn [negb]; [|done].
  destruct (CodeHash (data o) =? EmptyCodeHash keccak) eqn:E; [done|]. unfold codeOf in *. rewrite E in *.
  case_bool_decide as H1; cbn [negb] in *; [done|]. done.
Qed.

Lemma objCode_spec r0 a s o :
  loaded r0 s a o ->
  exists t f, objCode keccak r0 a s = Done t (codeOf keccak r0 a o) /\ quiet (updO a f s) t /\
    keeps_flat f /\ alike r0 s s a o (f o) /\ code (f o) = codeOf keccak r0 a o.
Proof.
  intros Hl. unfold objCode. rewrite (bind_objectAt r0 a s o) by done.
  destruct (negb (bool_decide (code o = []))) eqn:Ec.
  { exists s, id. unfold codeOf. rewrite Ec. split; [done|]. split; [apply updO_id|]. split; [by intros ?|]. by split; [apply alike_refl|]. }
  assert (Hn : code o = []) by (apply negb_false_iff, bool_decide_eq_true in Ec; done).
  destruct (CodeHash (data o) =? EmptyCodeHash keccak) eqn:Eh.
  { exists s, id. unfold codeOf. rewrite Ec, Eh. split; [done|]. split; [apply updO_id|]. split; [by intros ?|]. by split; [apply alike_refl|]. }
  assert (Hco : codeOf keccak r0 a o = (rdCode r0 a (CodeHash (data o))).1) by (unfold codeOf; by rewrite Ec, Eh).
  destruct (rdCode r0 a (CodeHash (data o))) as [c err] eqn:Er. cbn [fst] in Hco.
  exists (updO a (fun o1 => set_code c (dirtyCode o1) o1) (if err || bool_decide (c = []) then set_dbErr s else s)), (fun o1 => set_code c (dirtyCode o1) o1).
  split; [rewrite Hco; by destruct (err || bool_decide (c = []))|]. split; [by destruct (err || bool_decide (c = []))|].
  split; [done|]. split; [|done]. rewrite <- Hco. apply alike_code.
Qed.

Lemma objCode_sim a s s' o o' :
  together s s' -> both a s s' o o' -> outRel (fun t t' x x' => x = x' /\ together t t') (objCode keccak r a s) (objCode keccak r' a s').
Proof.
  intros H Hb. destruct (objCode_spec r a s o) as (t & f & -> & Hq & Hf & Ha & Hc); [apply Hb|].
  destruct (objCode_spec r' a s' o') as (t' & f' & -> & Hq' & Hf' & Ha' & Hc'); [apply Hb|]. cbn.
  pose proof (or_code _ _ _ _ _ _ _ _ _ (bt_rel _ _ _ _ _ Hb)) as Hco. split; [done|].
  destruct (cache_sim a s s' o o' f f') as [Ht _]; try done; [|right; congruence|by eapply quiet_together].
  rewrite Hc. unfold codeOf. case_bool_decide as Hn; cbn [negb]; [by left|by right].
Qed.

Lemma sizeOf r0 a s o : sizesFit r0 -> loaded r0 s a o ->
  exists t, objCodeSize keccak r0 a s = Done t (Z.of_nat (length (codeOf keccak r0 a o))) /\ quiet s t.
Proof.
  intros Hs Hl. unfold objCodeSize. rewrite (bind_objectAt r0 a s o) by done. unfold codeOf.
  destruct (negb (bool_decide (code o = []))); [by exists s|]. destruct (CodeHash (data o) =? EmptyCodeHash keccak); [by exists s|].
  rewrite <- (Hs a). destruct (rdCodeSize r0 a (CodeHash (data o))) as [sz err]. cbn [fst].
  destruct (err || (sz =? 0)).
  - by exists (set_dbErr s).
  - by exists s.
Qed.

Lemma objCodeSize_sim a s s' o o' :
  together s s' -> both a s s' o o' -> outRel (fun t t' x x' => x = x' /\ together t t') (objCodeSize keccak r a s) (objCodeSize keccak r' a s').
Proof.
  intros H Hb. destruct (sizeOf r a s o Hsize) as (t & -> & Hq); [apply Hb|]. destruct (sizeOf r' a s' o' Hsize') as (t' & -> & Hq'); [apply Hb|].
  cbn. split; [by rewrite (or_code _ _ _ _ _ _ _ _ _ (bt_rel _ _ _ _ _ Hb))|by eapply quiet_together].
Qed.

(** The code in the cache is the code of the account. *)
Definition codeKnown (o : stateObject) : Prop := keccak (code o) = CodeHash (data o).

Lemma known_code rt0 s s' a o o' : objRel rt0 r s r' s' a o o' -> codeKnown o -> code o' = code o.
Proof.
  intros H Hk. destruct (or_cache _ _ _ _ _ _ _ _ _ H) as [Hn|]; [|done]. rewrite Hn. pose proof (or_code _ _ _ _ _ _ _ _ _ H) as Hc.
  unfold codeKnown in Hk. rewrite Hn in Hk. fold (EmptyCodeHash keccak) in Hk. unfold codeOf in Hc.
  rewrite Hn, <- (or_hash _ _ _ _ _ _ _ _ _ H), <- Hk, Z.eqb_refl in Hc. cbn in Hc. case_bool_decide; [done|]. cbn in Hc. done.
Qed.

Lemma setCode_restores r0 s a c o : codeKnown o -> objRel everywhere r0 s r0 s a o (setCode (keccak (code o)) (code o) (setCode (keccak c) c o)).
Proof.
  intros Hk. unfold codeKnown in Hk. split; try done; try (by right). rewrite codeOf_setCode. unfold codeOf.
  case_bool_decide as Hn; cbn [negb]; [|done]. rewrite Hn in Hk |- *. fold (EmptyCodeHash keccak) in Hk. by rewrite <- Hk, Z.eqb_refl.
Qed.

Lemma objSetCode_sim a c s s' o o' :
  together s s' -> both a s s' o o' -> codeKnown o ->
  outRel (fun t t' x x' => x = x' /\ together t t') (objSetCode a (keccak c) c s) (objSetCode a (keccak c) c s').
Proof.
  intros H Hb Hk. pose proof (known_code rt s s' a o o' (bt_rel _ _ _ _ _ Hb) Hk) as Hc. eapply outRel_drop.
  apply (changed_sim a s s' o o' (codeChange a (code o)) (setCode (keccak c) c) (setCode (keccak (code o)) (code o)) (code o)); try done.
  - by left.
  - apply respects_setCode.
  - by apply reverts_onObject.
  - by apply setCode_restores.
  - rewrite <- Hc. apply setCode_restores. unfold codeKnown. rewrite Hc, Hk. apply (or_hash _ _ _ _ _ _ _ _ _ (bt_rel _ _ _ _ _ Hb)).
  - unfold objSetCode. by rewrite (bind_objectAt r a s o) by apply Hb.
  - unfold objSetCode. rewrite (bind_objectAt r' a s' o') by apply Hb. by rewrite Hc.
Qed.

End ops.
End StateOps.
