(* ===== verification/StateSim.v ===== *)
(** * Runs on related states

    The interface of the EVM on related states ([perform_sim]), programs, the end of a
    transaction and the transactions of a block. *)

From S2P Require Import Prelude Bytes MvStore ParallelState StateDB SerialRun StateRel StateUndo StateUnits StateOps.
Import MvStore.

Module StateSim.

Import StateDB StateRel StateUndo StateUnits StateOps.

Section sim.
Context (keccak : list Z -> Z) (rt : Z -> Prop) (ids : bool) (mark : option (StateDB * Z)) (r r' : Reader).
Context (Hsize : sizesFit r) (Hsize' : sizesFit r').

#[local] Abbreviation stRel := (stRel keccak).
#[local] Abbreviation objRel := (objRel keccak).
#[local] Abbreviation peek := (peek keccak).
#[local] Abbreviation loaded := (loaded keccak).
#[local] Abbreviation wfJ := (wfJ keccak).
#[local] Abbreviation wf := (wf keccak).
#[local] Abbreviation together := (together keccak rt ids mark r r').
#[local] Abbreviation both := (both keccak rt r r').
#[local] Abbreviation sim := (sim keccak rt ids mark r r').

#[local] Abbreviation post := (fun t t' x x' => x = x' /\ together t t') (only parsing).

(** ** Reading *)

Lemma pair_read {A} a (k k' : option stateObject -> st StateDB Empty_set A) :
  (forall s s', together s s' -> outRel post (k None s) (k' None s')) ->
  (forall s s' o o', together s s' -> both a s s' o o' -> outRel post (k (Some o) s) (k' (Some o') s')) ->
  sim (getStateObject keccak r a ≫= k) (getStateObject keccak r' a ≫= k').
Proof.
  intros Hn Hs s s' H. eapply outRel_bind; [by apply load_sim|].
  intros t t' [o|] [o'|] (Ht & _ & Hb); try done; [by apply Hs|by apply Hn].
Qed.

(** A field of the object that related objects share. *)
Lemma pair_field {A} a (f : stateObject -> A) (d : A) :
  (forall s s' o o', objRel rt r s r' s' a o o' -> f o = f o') ->
  sim (o ← getStateObject keccak r a; mret (match o with Some o => f o | None => d end))
      (o ← getStateObject keccak r' a; mret (match o with Some o => f o | None => d end)).
Proof.
  intros Hf. apply pair_read; [by intros s s' H|]. intros s s' o o' H [_ _ Ho]. cbn. by split; [eapply Hf|].
Qed.

Lemma pair_ask {A B} (f : A -> B) (m m' : st StateDB Empty_set A) :
  sim m m' -> sim (x ← m; mret (f x)) (x ← m'; mret (f x)).
Proof. intros H. apply pair_bind; [done|]. intros x. apply pair_ret. Qed.

Lemma empty_same s s' a o o' : objRel rt r s r' s' a o o' -> empty keccak o = empty keccak o'.
Proof. intros [Hn Hb Hh _ _ _ _ _ _ _]. unfold empty. by rewrite Hn, Hb, Hh. Qed.

Lemma pair_Exist a : sim (Exist keccak r a) (Exist keccak r' a).
Proof. unfold Exist. apply pair_read; [by intros s s' H|]. by intros s s' o o' H _. Qed.

Lemma pair_Empty a : sim (Empty keccak r a) (Empty keccak r' a).
Proof. apply (pair_field a (empty keccak) true). intros. by eapply empty_same. Qed.

Lemma pair_GetBalance a : sim (GetBalance keccak r a) (GetBalance keccak r' a).
Proof. apply (pair_field a (fun o => Balance (data o)) 0). by intros * []. Qed.

Lemma pair_GetNonce a : sim (GetNonce keccak r a) (GetNonce keccak r' a).
Proof. apply (pair_field a (fun o => Nonce (data o)) 0). by intros * []. Qed.

Lemma pair_GetCodeHash a : sim (GetCodeHash keccak r a) (GetCodeHash keccak r' a).
Proof. apply (pair_field a (fun o => CodeHash (data o)) 0). by intros * []. Qed.

Lemma GetStorageRoot_sim a s s' :
  together s s' -> rt a \/ peek r s a = None -> outRel post (GetStorageRoot keccak r a s) (GetStorageRoot keccak r' a s').
Proof.
  intros H Ha. eapply outRel_bind; [by apply load_sim|]. intros t t' [o|] [o'|] (Ht & Hp & Hb); try done; cbn.
  destruct Ha as [Ha|Ha]; [|congruence]. split; [|done]. by apply (or_root _ _ _ _ _ _ _ _ _ (bt_rel _ _ _ _ _ _ _ _ _ Hb)).
Qed.

Lemma pair_HasSelfDestructed a : sim (HasSelfDestructed keccak r a) (HasSelfDestructed keccak r' a).
Proof. apply (pair_field a selfDestructed false). by intros * []. Qed.

Lemma pair_GetCode a : sim (GetCode keccak r a) (GetCode keccak r' a).
Proof. apply pair_read; [by intros s s' H|]. intros. by eapply objCode_sim. Qed.

Lemma pair_GetCodeSize a : sim (GetCodeSize keccak r a) (GetCodeSize keccak r' a).
Proof. apply pair_read; [by intros s s' H|]. intros. by eapply objCodeSize_sim. Qed.

Lemma pair_GetCommittedState a k : sim (GetCommittedState keccak r a k) (GetCommittedState keccak r' a k).
Proof.
  apply pair_read; [by intros s s' H|]. intros. eapply outRel_weaken; [by eapply committed_sim|].
  by intros t t' x x' (? & _ & ? & _).
Qed.

Lemma pair_GetStateAndCommittedState a k : sim (GetStateAndCommittedState keccak r a k) (GetStateAndCommittedState keccak r' a k).
Proof.
  apply pair_read; [by intros s s' H|]. intros. eapply outRel_weaken; [by eapply getState_sim|].
  by intros t t' x x' (? & _ & ? & _).
Qed.

Lemma pair_GetState a k : sim (GetState keccak r a k) (GetState keccak r' a k).
Proof.
  apply pair_read; [by intros s s' H|]. intros. eapply outRel_bind; [by eapply getState_sim|].
  by intros t t' x x' (<- & _ & ? & _).
Qed.

(** ** Objects that are made when there are none *)

Lemma committed_new r0 s a k : committedOf r0 s a (newObject keccak None) k = baseOf r0 s a k.
Proof.
  unfold committedOf, baseOf. cbn [pendingStorage newObject originStorage]. rewrite !lookup_empty.
  case_bool_decide; [done|]. by destruct (storageOverlay (flatDiffRef s) a k).
Qed.

Lemma create_sim a s s' :
  together s s' -> peek r s a = None -> peek r' s' a = None ->
  together (created keccak a s) (created keccak a s') /\
  both a (created keccak a s) (created keccak a s') (newObject keccak None) (newObject keccak None).
Proof.
  intros [H Hw Hw'] Hp Hp'. pose proof (wf_journal _ _ _ _ Hw) as Hj. pose proof (wf_journal _ _ _ _ Hw') as Hj'.
  assert (Ho : objRel rt r s r' s' a (newObject keccak None) (newObject keccak None)).
  { assert (Hc : forall k, committedOf r s a (newObject keccak None) k = committedOf r' s' a (newObject keccak None) k)
      by (intros k; rewrite !committed_new; apply (sr_base _ _ _ _ _ _ _ H)).
    split; try done; try (by left); try (unfold codeOf; cbn; by rewrite Z.eqb_refl). }
  split.
  - split; [|by apply created_wf|by apply created_wf].
    eapply (stRel_slots keccak rt ids r s _ r' s' _); [done|done| |done|..]; try apply H.
    + intros b. rewrite (peek_created keccak r (entries (jrn s))), (peek_created keccak r' (entries (jrn s'))) by done.
      case_decide; [by subst|]. apply (sr_peek _ _ _ _ _ _ _ H).
    + cbn. by rewrite (sr_dirties _ _ _ _ _ _ _ H).
    + intros Hi. destruct (sr_ids _ _ _ _ _ _ _ H Hi) as (He & Hv & Hn). cbn. by rewrite He, Hv, Hn.
  - split; [by eapply created_loaded|by eapply created_loaded|]. by apply (objRel_slots keccak rt r s _ r' s').
Qed.

Lemma getOrNew_sim a s s' :
  together s s' ->
  outRel (fun t t' o o' => together t t' /\ both a t t' o o' /\ (peek r s a = Some o \/ peek r s a = None /\ o = newObject keccak None))
    (getOrNewStateObject keccak r a s) (getOrNewStateObject keccak r' a s').
Proof.
  intros H. unfold getOrNewStateObject. eapply outRel_bind; [by apply load_sim|].
  intros t t' [o|] [o'|] (Ht & Hp & Hb); try done; cbn.
  - split_and!; [done|done|by left].
  - destruct Hb as [Hn Hn']. destruct (create_sim a t t' Ht Hn Hn') as [Hc Hbc]. split_and!; [exact Hc|exact Hbc|by right].
Qed.

Lemma pair_make {A} a (k k' : stateObject -> st StateDB Empty_set A) :
  (forall s s' o o', together s s' -> both a s s' o o' -> outRel post (k o s) (k' o' s')) ->
  sim (getOrNewStateObject keccak r a ≫= k) (getOrNewStateObject keccak r' a ≫= k').
Proof.
  intros Hk s s' H. eapply outRel_bind; [by apply getOrNew_sim|]. intros t t' o o' (Ht & Hb & _). by apply Hk.
Qed.

(** ** Writing *)

Lemma pair_SetBalance a v : sim (SetBalance keccak r a v) (SetBalance keccak r' a v).
Proof. apply pair_make. intros s s' o o' H Hb. eapply outRel_drop. by eapply setBalance_sim. Qed.

Lemma pair_SubBalance a v : sim (SubBalance keccak r a v) (SubBalance keccak r' a v).
Proof.
  apply pair_make. intros s s' o o' H Hb. rewrite <- (or_balance _ _ _ _ _ _ _ _ _ (bt_rel _ _ _ _ _ _ _ _ _ Hb)).
  destruct (v =? 0); [done|]. eapply outRel_drop. by eapply setBalance_sim.
Qed.

Lemma touch_sim a s s' o o' : a <> ripemd -> together s s' -> both a s s' o o' -> outRel post (journTouch a s) (journTouch a s').
Proof.
  intros Ha H Hb. unfold journTouch. rewrite (proj2 (Z.eqb_neq a ripemd)) by done. cbn. split; [done|].
  destruct (unit_object keccak rt ids mark r r' a s s' o o' (touchChange a) id id) as [Ht _]; try done; [by left|apply reverts_touch|apply objRel_refl..|].
  eapply quiet_together; [apply updO_id|apply updO_id|exact Ht].
Qed.

(** The touched account of [ripemd] stays dirty when the touch is undone, so touching it
    is left out as long as it is empty. *)
Definition touchable (r0 : Reader) (s : StateDB) (a v : Z) : Prop :=
  a = ripemd -> v = 0 -> match peek r0 s a with Some o => empty keccak o = false | None => False end.

Lemma AddBalance_sim a v s s' :
  together s s' -> touchable r s a v -> outRel post (AddBalance keccak r a v s) (AddBalance keccak r' a v s').
Proof.
  intros H0 Hg. eapply outRel_bind; [by apply getOrNew_sim|]. intros u u' o o' (H & Hb & Ho). unfold objAddBalance.
  rewrite (bind_objectAt keccak r a u o), (bind_objectAt keccak r' a u' o') by apply Hb.
  rewrite <- (or_balance _ _ _ _ _ _ _ _ _ (bt_rel _ _ _ _ _ _ _ _ _ Hb)), <- (empty_same u u' a o o') by apply Hb.
  destruct (v =? 0) eqn:Ev; [|eapply outRel_drop; by eapply setBalance_sim]. apply Z.eqb_eq in Ev.
  eapply (outRel_bind post); [|by intros t t' x x' [_ Ht]]. destruct (empty keccak o) eqn:Ee; [|done].
  eapply touch_sim; [|done..]. intros Ha. specialize (Hg Ha Ev). destruct Ho as [Ho|[Ho _]]; rewrite Ho in Hg; congruence.
Qed.

Lemma pair_AddBalance a v : a <> ripemd -> sim (AddBalance keccak r a v) (AddBalance keccak r' a v).
Proof. intros Ha s s' H. apply AddBalance_sim; [done|by intros ?]. Qed.

Lemma pair_SetNonce a n : sim (SetNonce keccak r a n) (SetNonce keccak r' a n).
Proof. apply pair_make. intros. by eapply setNonce_sim. Qed.

Lemma pair_SetState a k v : sim (SetState keccak r a k v) (SetState keccak r' a k v).
Proof. apply pair_make. intros. by eapply objSetState_sim. Qed.

Lemma SetCode_sim a c s s' :
  together s s' -> (forall o, peek r s a = Some o -> codeKnown keccak o) ->
  outRel post (SetCode keccak r a c s) (SetCode keccak r' a c s').
Proof.
  intros H Hk. eapply outRel_bind; [by apply getOrNew_sim|]. intros t t' o o' (Ht & Hb & Ho).
  eapply objSetCode_sim; [done|done|]. destruct Ho as [Ho|[_ ->]]; [by apply Hk|done].
Qed.

Lemma CreateAccount_sim a s s' : together s s' -> peek r s a = None -> outRel post (CreateAccount keccak a s) (CreateAccount keccak a s').
Proof.
  intros H Hp. pose proof (sr_peek _ _ _ _ _ _ _ (tg_rel _ _ _ _ _ _ _ _ H) a) as Hq. rewrite Hp in Hq.
  destruct (peek r' s' a) eqn:E; [done|]. destruct (create_sim a s s' H Hp E) as [Ht _]. cbn. by split.
Qed.

Lemma pair_CreateContract a : sim (CreateContract keccak r a) (CreateContract keccak r' a).
Proof.
  apply pair_read; [by intros s s' H|]. intros s s' o o' H Hb.
  pose proof (or_new _ _ _ _ _ _ _ _ _ (bt_rel _ _ _ _ _ _ _ _ _ Hb)) as Hn. rewrite <- Hn. destruct (newContract o) eqn:En; [done|].
  eapply outRel_drop.
  apply (changed_sim keccak rt ids mark r r' a s s' o o' (createContractChange a) (set_newContract true) (set_newContract false) tt); try done.
  - by right.
  - apply respects_newContract.
  - by apply reverts_onObject.
  - by split; try done; right.
  - by split; try done; right.
Qed.

Lemma destroy_sim a s s' o o' : together s s' -> both a s s' o o' ->
  outRel post ((if negb (selfDestructed o) then _ ← journ (selfDestructChange a); updObject a (set_selfDestructed true) else mret tt) s)
    ((if negb (selfDestructed o') then _ ← journ (selfDestructChange a); updObject a (set_selfDestructed true) else mret tt) s').
Proof.
  intros H Hb. pose proof (or_destructed _ _ _ _ _ _ _ _ _ (bt_rel _ _ _ _ _ _ _ _ _ Hb)) as Hd. rewrite <- Hd.
  destruct (selfDestructed o) eqn:E; cbn [negb]; [done|]. eapply outRel_drop.
  apply (changed_sim keccak rt ids mark r r' a s s' o o' (selfDestructChange a) (set_selfDestructed true) (set_selfDestructed false) tt); try done.
  - by left.
  - apply respects_selfDestructed.
  - apply reverts_selfDestruct.
  - by split; try done; right.
  - by split; try done; right.
Qed.

Lemma pair_SelfDestruct a : sim (SelfDestruct keccak r a) (SelfDestruct keccak r' a).
Proof.
  apply pair_read; [by intros s s' H|]. intros s s' o o' H Hb.
  rewrite <- (or_balance _ _ _ _ _ _ _ _ _ (bt_rel _ _ _ _ _ _ _ _ _ Hb)).
  rewrite <- (or_destructed _ _ _ _ _ _ _ _ _ (bt_rel _ _ _ _ _ _ _ _ _ Hb)).
  eapply (outRel_bind (fun t t' _ _ => together t t' /\ exists o1 o1', both a t t' o1 o1' /\ selfDestructed o1 = selfDestructed o)).
  - destruct (Balance (data o) =? 0); cbn [negb]; [by split; [|exists o, o']|].
    eapply outRel_bind; [by eapply (setBalance_sim keccak rt ids mark r r' a 0 s s' o o')|].
    intros t t' x x' (_ & Ht & _ & Hbt). split; [exact Ht|]. by exists (setBalance 0 o), (setBalance 0 o').
  - intros t t' _ _ (Ht & o1 & o1' & Hb1 & Hd).
    eapply (outRel_bind post); [|by intros u u' y y' [_ Hu]]. rewrite <- Hd.
    pose proof (destroy_sim a t t' o1 o1' Ht Hb1) as Hx.
    by rewrite <- (or_destructed _ _ _ _ _ _ _ _ _ (bt_rel _ _ _ _ _ _ _ _ _ Hb1)) in Hx.
Qed.

Lemma pair_SelfDestruct6780 a : sim (SelfDestruct6780 keccak r a) (SelfDestruct6780 keccak r' a).
Proof.
  apply pair_read; [by intros s s' H|]. intros s s' o o' H Hb.
  rewrite <- (or_balance _ _ _ _ _ _ _ _ _ (bt_rel _ _ _ _ _ _ _ _ _ Hb)), <- (or_new _ _ _ _ _ _ _ _ _ (bt_rel _ _ _ _ _ _ _ _ _ Hb)).
  destruct (newContract o); [|done]. by apply (pair_ask (fun b => (b, true)) _ _ (pair_SelfDestruct a)).
Qed.

(** ** Entries about no object *)

(** [t] is [s] with an entry that is about no object and a change of fields. *)
Definition adds (e : journalEntry) (s t : StateDB) : Prop := frame t = frame (J e s) /\ stateObjects t = stateObjects s.

(** Undoing the entry in [t] gives the fields of [s] back. *)
Definition takesBack (r0 : Reader) (e : journalEntry) (s t : StateDB) : Prop :=
  exists v, revertEntry keccak r0 e t = Done v tt /\ frame v = frame t /\ stateObjects v = stateObjects s /\
    sdRefund v = sdRefund s /\ thash v = thash s /\ txIndex v = txIndex s /\
    (forall h, default [] (sdLogs v !! h) = default [] (sdLogs s !! h)) /\ sdLogSize v = sdLogSize s /\ sdAccess v = sdAccess s /\
    forall a k, ParallelState.transientGet (transientStorage v) a k = ParallelState.transientGet (transientStorage s) a k.

Lemma peek_adds r0 e s t b : dirtied e = None -> adds e s t -> peek r0 t b = peek r0 s b.
Proof.
  intros He [Hf Ho]. unfold StateRel.peek. rewrite Ho, (frame_look keccak r0 t (J e s)) by done.
  unfold look. rewrite covered_J_ne by congruence. done.
Qed.

Lemma unit_field e s s' t t' :
  together s s' -> dirtied e = None -> isCreate e = false -> adds e s t -> adds e s' t' ->
  accWf (reverse (entries (jrn s) ++ [e])) (sdAccess t) -> accWf (reverse (entries (jrn s') ++ [e])) (sdAccess t') -> takesBack r e s t -> takesBack r' e s' t' ->
  sdRefund t = sdRefund t' -> thash t = thash t' -> txIndex t = txIndex t' ->
  (forall h, default [] (sdLogs t !! h) = default [] (sdLogs t' !! h)) -> sdLogSize t = sdLogSize t' -> sdAccess t = sdAccess t' ->
  (forall a k, ParallelState.transientGet (transientStorage t) a k = ParallelState.transientGet (transientStorage t') a k) ->
  together t t'.
Proof.
  intros [H Hw Hw'] He Hc Ha Ha' Hk Hk' (v & Hv) (v' & Hv'). intros.
  pose proof Ha as [Hf Ho]. pose proof Ha' as [Hf' Ho']. split.
  - pose proof Hf as [= Hj Hm Hd Hb Hx]. pose proof Hf' as [= Hj' Hm' Hd' Hb' Hx'].
    eapply (stRel_slots keccak rt ids r s t r' s' t'); try done; try (unfold slots; cbn in *; congruence).
    + intros b. rewrite (peek_adds r e s t), (peek_adds r' e s' t') by done. apply (sr_peek _ _ _ _ _ _ _ H).
    + rewrite Hm, Hm'. apply (sr_mutations _ _ _ _ _ _ _ H).
    + rewrite Hj, Hj'. unfold jappend. rewrite He. apply (sr_dirties _ _ _ _ _ _ _ H).
    + intros Hi. destruct (sr_ids _ _ _ _ _ _ _ H Hi) as (Q1 & Q2 & Q3). rewrite Hj, Hj'. unfold jappend. rewrite He. cbn. by rewrite Q1, Q2, Q3.
  - destruct Hv as (V1 & V2 & V3 & V4 & V5 & V6 & V7 & V8 & V9 & V10). by eapply (field_wf keccak mark r s e t v).
  - destruct Hv' as (V1 & V2 & V3 & V4 & V5 & V6 & V7 & V8 & V9 & V10). by eapply (field_wf keccak None r' s' e t' v').
Qed.

(** *** Refund, logs, preimages, transient storage *)

Lemma refund_sim v s s' :
  together s s' -> together (set_sdRefund v (J (refundChange (sdRefund s)) s)) (set_sdRefund v (J (refundChange (sdRefund s')) s')).
Proof.
  intros H. pose proof (tg_rel _ _ _ _ _ _ _ _ H) as Hr. rewrite <- (sr_refund _ _ _ _ _ _ _ Hr).
  apply (unit_field (refundChange (sdRefund s)) s s'); try done; try apply Hr; try (by apply accWf_snoc; [|apply H]).
  - eexists. split; [reflexivity|]. by split_and!.
  - eexists. split; [reflexivity|]. split_and!; try done. apply (sr_refund _ _ _ _ _ _ _ Hr).
Qed.

Lemma pair_AddRefund g : sim (AddRefund g) (AddRefund g).
Proof.
  apply pair_get. intros s s' H. pose proof (sr_refund _ _ _ _ _ _ _ (tg_rel _ _ _ _ _ _ _ _ H)) as E. cbn. split; [done|].
  pose proof (refund_sim (u64 (sdRefund s + g)) s s' H) as Hx. by rewrite <- E in Hx |- *.
Qed.

Lemma pair_SubRefund g : sim (SubRefund g) (SubRefund g).
Proof.
  apply pair_get. intros s s' H. pose proof (sr_refund _ _ _ _ _ _ _ (tg_rel _ _ _ _ _ _ _ _ H)) as E. rewrite <- E.
  unfold mbind, st_bind, journ, modify. destruct (sdRefund s <? g); [done|]. cbn. split; [done|].
  pose proof (refund_sim (sdRefund s - g) s s' H) as Hx. by rewrite <- E in Hx.
Qed.

Lemma take_snoc {A} (l : list A) x : take (length (l ++ [x]) - 1) (l ++ [x]) = l.
Proof. rewrite length_app. cbn. replace (length l + 1 - 1)%nat with (length l) by lia. apply take_app_length. Qed.

Definition logged (body h ti n : Z) (ls : list Log) (s : StateDB) : StateDB :=
  set_sdLogs (<[h := ls ++ [mkLog body h ti n]]> (sdLogs s)) (n + 1) (J (addLogChange h) s).

Lemma pair_AddLog body : sim (AddLog body) (AddLog body).
Proof.
  apply pair_get. intros s s' H. pose proof (tg_rel _ _ _ _ _ _ _ _ H) as Hr. cbn. split; [done|].
  change (together (logged body (thash s) (txIndex s) (sdLogSize s) (default [] (sdLogs s !! thash s)) s)
            (logged body (thash s') (txIndex s') (sdLogSize s') (default [] (sdLogs s' !! thash s')) s')).
  rewrite <- (sr_thash _ _ _ _ _ _ _ Hr), <- (sr_txIndex _ _ _ _ _ _ _ Hr), <- (sr_logSize _ _ _ _ _ _ _ Hr), <- (sr_logs _ _ _ _ _ _ _ Hr).
  assert (Hback : forall r0 s0 ls n, default [] (sdLogs s0 !! thash s) = ls -> sdLogSize s0 = n ->
    takesBack r0 (addLogChange (thash s)) s0 (logged body (thash s) (txIndex s) n ls s0)).
  { intros r0 s0 ls n Hls Hn. eexists. split; [reflexivity|]. split_and!; try done; [|cbn; lia].
    intros h. cbn [sdLogs set_sdLogs J set_jrn logged].
    match goal with |- default [] (?m !! h) = _ => change m with (dropLog (thash s) (<[thash s:=ls ++ [mkLog body (thash s) (txIndex s) n]]> (sdLogs s0))) end.
    rewrite dropLog_get, lookup_insert_eq. case_decide as Hh; [subst h; cbn [default]; unfold id; by rewrite take_snoc|].
    by rewrite lookup_insert_ne. }
  apply (unit_field (addLogChange (thash s)) s s'); try done; try apply Hr; try (by apply accWf_snoc; [|apply H]).
  - by apply Hback.
  - apply Hback; [by rewrite <- (sr_logs _ _ _ _ _ _ _ Hr)|by rewrite <- (sr_logSize _ _ _ _ _ _ _ Hr)].
  - intros h. cbn. destruct (decide (h = thash s)) as [->|Hh]; [by rewrite !lookup_insert_eq|].
    rewrite !lookup_insert_ne by done. apply (sr_logs _ _ _ _ _ _ _ Hr).
Qed.

Lemma pair_AddPreimage h p : sim (AddPreimage h p) (AddPreimage h p).
Proof.
  intros s s' H. cbn. split; [done|].
  eapply quiet_together; [| |exact H]; by destruct (_ !! h).
Qed.

Lemma pair_SetTransientState a k v : sim (SetTransientState a k v) (SetTransientState a k v).
Proof.
  apply pair_get. intros s s' H. pose proof (tg_rel _ _ _ _ _ _ _ _ H) as Hr.
  cbv zeta. rewrite <- (sr_transient _ _ _ _ _ _ _ Hr). set (prev := ParallelState.transientGet (transientStorage s) a k).
  destruct (prev =? v); [done|]. cbn. split; [done|].
  assert (Hback : forall r0 s0, ParallelState.transientGet (transientStorage s0) a k = prev ->
    takesBack r0 (transientStorageChange a k prev) s0
      (set_transient (ParallelState.transientSet (transientStorage s0) a k v) (J (transientStorageChange a k prev) s0))).
  { intros r0 s0 Hp. eexists. split; [reflexivity|]. split_and!; try done. intros b l. cbn. rewrite !transientGet_set.
    case_decide as Hb; [destruct Hb as [-> ->]; by rewrite Hp|done]. }
  apply (unit_field (transientStorageChange a k prev) s s'); try done; try apply Hr; try (by apply accWf_snoc; [|apply H]).
  - by apply Hback.
  - apply Hback. unfold prev. by rewrite (sr_transient _ _ _ _ _ _ _ Hr).
  - intros b l. cbn. rewrite !transientGet_set. case_decide; [done|]. apply (sr_transient _ _ _ _ _ _ _ Hr).
Qed.

(** *** The access list *)

(** An entry about the access list, on both sides. *)
Lemma access_sim e al s s' :
  together s s' -> dirtied e = None -> isCreate e = false ->
  (forall r0 s0 v, sdAccess v = al -> sdAccess s0 = sdAccess s ->
     revertEntry keccak r0 e v = Done (set_sdAccess (sdAccess s0) v) tt) ->
  (forall es, accWf (reverse es) (sdAccess s) -> accWf (reverse (es ++ [e])) al) ->
  together (J e (set_sdAccess al s)) (J e (set_sdAccess al s')).
Proof.
  intros H He Hc Hrev Hacc. pose proof (tg_rel _ _ _ _ _ _ _ _ H) as Hr. pose proof (sr_access _ _ _ _ _ _ _ Hr) as Ha.
  apply (unit_field e s s'); try done; try apply Hr.
  - cbn. apply Hacc, (tg_wf _ _ _ _ _ _ _ _ H).
  - cbn. apply Hacc. rewrite Ha. apply (tg_wf' _ _ _ _ _ _ _ _ H).
  - eexists. split; [by apply (Hrev r s)|]. by split_and!.
  - eexists. split; [by apply (Hrev r' s')|]. by split_and!.
Qed.

Lemma account_sim a al s s' :
  together s s' -> ParallelState.AddAddress (sdAccess s) a = (al, true) ->
  together (J (accessListAddAccountChange a) (set_sdAccess al s)) (J (accessListAddAccountChange a) (set_sdAccess al s')).
Proof.
  intros H E. apply access_sim; try done.
  - intros r0 s0 v Hv H0. cbn. unfold modify. by rewrite Hv, H0, (AddAddress_back _ _ _ E).
  - intros es Hes. rewrite reverse_snoc. cbn. split; [by eapply AddAddress_ok, accWf_ok|]. by rewrite (AddAddress_back _ _ _ E).
Qed.

Lemma slot_sim a slot al b s s' :
  together s s' -> is_Some (ParallelState.alAddresses (sdAccess s) !! a) -> ParallelState.AddSlot (sdAccess s) a slot = (al, b, true) ->
  together (J (accessListAddSlotChange a slot) (set_sdAccess al s)) (J (accessListAddSlotChange a slot) (set_sdAccess al s')).
Proof.
  intros H Hi E. destruct (AddSlot_back _ _ _ _ _ (accWf_ok _ _ (wf_access _ _ _ _ (tg_wf _ _ _ _ _ _ _ _ H))) Hi E) as (_ & Hok & Hd).
  apply access_sim; try done.
  - intros r0 s0 v Hv H0. cbn. unfold mbind, st_bind, getS. by rewrite Hv, Hd, H0.
  - intros es Hes. rewrite reverse_snoc. cbn. split; [done|]. by exists (sdAccess s).
Qed.

Lemma pair_AddAddress a : sim (AddAddressToAccessList a) (AddAddressToAccessList a).
Proof.
  apply pair_get. intros s s' H. pose proof (tg_rel _ _ _ _ _ _ _ _ H) as Hr. rewrite <- (sr_access _ _ _ _ _ _ _ Hr).
  destruct (ParallelState.AddAddress (sdAccess s) a) as [al []] eqn:E; cbn; (split; [done|]).
  - by apply account_sim.
  - apply AddAddress_same in E as ->. eapply quiet_together; [| |exact H]; [by destruct s|].
    split; [|done]. rewrite (sr_access _ _ _ _ _ _ _ Hr). by destruct s'.
Qed.

Lemma pair_AddSlot a slot : sim (AddSlotToAccessList a slot) (AddSlotToAccessList a slot).
Proof.
  apply pair_get. intros s s' H. pose proof (tg_rel _ _ _ _ _ _ _ _ H) as Hr. rewrite <- (sr_access _ _ _ _ _ _ _ Hr).
  destruct (ParallelState.alAddresses (sdAccess s) !! a) as [i|] eqn:Ei.
  - destruct (ParallelState.AddSlot (sdAccess s) a slot) as [[al b] []] eqn:E.
    + destruct (AddSlot_back (sdAccess s) a slot al b) as (-> & _ & _); [|by rewrite Ei|done|].
      { by eapply accWf_ok, wf_access, tg_wf. }
      cbn. split; [done|]. by eapply slot_sim; [|rewrite Ei|].
    + assert (al = sdAccess s /\ b = false) as [-> ->].
      { unfold ParallelState.AddSlot in E. rewrite Ei in E. destruct (i =? -1); [done|]. case_bool_decide; [by injection E as <- <-|done]. }
      cbn. split; [done|]. eapply quiet_together; [| |exact H]; [by destruct s|].
      split; [|done]. rewrite (sr_access _ _ _ _ _ _ _ Hr). by destruct s'.
  - destruct (AddSlot_absent (sdAccess s) a slot Ei) as (al1 & al2 & E1 & E2 & -> & Hi). cbn. split; [done|].
    exact (slot_sim a slot al2 false _ _ (account_sim a al1 s s' H E1) Hi E2).
Qed.

End sim.

End StateSim.
