(* ===== verification/StateRevert.v ===== *)
(** * Snapshots, programs

    Taking a snapshot and going back to it on related states, the interface of the EVM as a
    whole ([perform_sim]) and programs ([runProg_sim]). *)

From S2P Require Import Prelude Bytes MvStore ParallelState StateDB SerialRun StateRel StateUndo StateUnits StateOps StateSim.
Import MvStore.

Module StateRevert.

Import StateDB StateRel StateUndo StateUnits StateOps StateSim.

Section revert.
Context (keccak : list Z -> Z).

#[local] Abbreviation stRel := (stRel keccak).
#[local] Abbreviation peek := (peek keccak).
#[local] Abbreviation wfJ := (wfJ keccak).
#[local] Abbreviation wf := (wf keccak).
#[local] Abbreviation revertAll := (revertAll keccak).

(** ** Other revisions *)

Lemma peek_set_jrn r j s b : dirties j = dirties (jrn s) -> peek r (set_jrn j s) b = peek r s b.
Proof. intros H. unfold StateRel.peek, look, covered, hasAccountMutation. cbn. by rewrite H. Qed.

Lemma wfJ_set_jrn r es j s : dirties j = dirties (jrn s) -> wfJ r es s -> wfJ r es (set_jrn j s).
Proof. intros H [Hd Ho]. split; [|exact Ho]. intros a. cbn. rewrite H. apply Hd. Qed.

Lemma stRel_set_jrn rt r j s : dirties j = dirties (jrn s) -> stRel rt false r s r (set_jrn j s).
Proof.
  intros H. eapply (stRel_slots keccak rt false r s s r s (set_jrn j s)); [done|done| |apply stRel_refl|..]; try done.
  intros b. rewrite peek_set_jrn by done. apply optRel_refl, objRel_refl.
Qed.

Lemma together_set_jrn rt ids r r' j j' s s' :
  stRel rt ids r s r' s' -> dirties j = dirties (jrn s) -> dirties j' = dirties (jrn s') ->
  (ids = true -> entries j = entries j' /\ validRevisions j = validRevisions j' /\ nextRevisionId j = nextRevisionId j') ->
  stRel rt ids r (set_jrn j s) r' (set_jrn j' s').
Proof.
  intros H Hd Hd' Hi. eapply (stRel_slots keccak rt ids r s _ r' s' _); [done|done| |done|..]; try apply H; try done.
  - intros b. rewrite !peek_set_jrn by done. apply (sr_peek _ _ _ _ _ _ _ H).
  - cbn. rewrite Hd, Hd'. apply (sr_dirties _ _ _ _ _ _ _ H).
Qed.

(** Fewer revisions, or a new one, on the same entries. *)
Lemma canUndo_revs mark r j s :
  wfJ r (entries (jrn s)) s -> dirties j = dirties (jrn s) -> entries j = entries (jrn s) -> nextRevisionId (jrn s) <= nextRevisionId j ->
  (forall p, p ∈ validRevisions j -> p ∈ validRevisions (jrn s) \/ nextRevisionId (jrn s) <= p.1) ->
  canUndo keccak mark r s -> canUndo keccak mark r (set_jrn j s).
Proof.
  intros Hw Hd He Hn Hv Hu. destruct mark as [[s0 id]|]; [|done]. unfold canUndo in *. cbn [jrn set_jrn]. destruct Hu as [Hid Hu].
  split; [lia|]. intros n Hin. destruct (Hv _ Hin) as [Hin'|Hbad]; [|cbn in Hbad; lia]. destruct (Hu n Hin') as (Hlen & es & u & Hes & Hr & Hs & Hwu).
  split; [done|]. rewrite Hes in Hw.
  pose proof (revertAll_sim keccak everywhere false r r _ es s (set_jrn j s)
    (conj (stRel_set_jrn everywhere r j s Hd) (conj Hw (wfJ_set_jrn r _ j s Hd Hw)))) as Ho. rewrite Hr in Ho.
  destruct (revertAll r (reverse es) (set_jrn j s)) as [u' []| |] eqn:Er; cbn in Ho; try done. destruct Ho as (Ho & _ & Hwt).
  exists es, u'. split_and!; [by rewrite He|done|by eapply stRel_trans|done].
Qed.

(** ** What undoing keeps *)

Record keepsJournal (s t : StateDB) : Prop := mkKeeps {
  kj_entries : entries (jrn t) = entries (jrn s);
  kj_revs : validRevisions (jrn t) = validRevisions (jrn s);
  kj_next : nextRevisionId (jrn t) = nextRevisionId (jrn s)
}.

Lemma revertEntry_env r e s t :
  revertEntry keccak r e s = Done t tt -> jrn t = jrn s /\
  sdAccess t = match e with
               | accessListAddAccountChange a => DeleteAddress (sdAccess s) a
               | accessListAddSlotChange a slot => default (sdAccess s) (DeleteSlot (sdAccess s) a slot)
               | _ => sdAccess s
               end.
Proof.
  assert (Hobj : forall a f, onObject keccak r a f s = Done t tt -> jrn t = jrn s /\ sdAccess t = sdAccess s).
  { intros a f. unfold onObject. destruct (getStateObject_loads keccak r s a) as (t1 & Ht & Hl). rewrite (bind_eq _ _ s t1 _ Ht).
    pose proof (ld_env _ _ _ _ _ Hl) as [= _ _ _ _ _ Ha _ Hj _ _ _ _]. destruct (peek r s a); [|done]. by intros [= <-]. }
  destruct e; cbn [revertEntry]; try apply Hobj; try (by intros [= <-]).
  - destruct (getStateObject_loads keccak r s account) as (t1 & Ht & Hl). rewrite (bind_eq _ _ s t1 _ Ht).
    pose proof (ld_env _ _ _ _ _ Hl) as [= _ _ _ _ _ Ha _ Hj _ _ _ _]. destruct (peek r s account); by intros [= <-].
  - unfold mbind, st_bind, getS. destruct (DeleteSlot (sdAccess s) address slot); cbn; [by intros [= <-]|done].
Qed.

Lemma undo_keeps r e rest s t :
  undo keccak r e s = Done t tt -> keepsJournal s t /\ (accWf (e :: rest) (sdAccess s) -> accWf rest (sdAccess t)).
Proof.
  unfold undo. intros H. apply bind_Done in H as (t1 & [] & H & Ht). injection Ht as <-.
  destruct (revertEntry_env r e s t1 H) as [Hj Ha]. split.
  - split; rewrite <- Hj; unfold undirty, jundirty; cbn; by destruct (dirtied e).
  - cbn [sdAccess undirty set_jrn]. rewrite Ha. intros [_ Hx].
    destruct e; try exact Hx. destruct Hx as (al' & -> & Hx). exact Hx.
Qed.

Lemma revertAll_keeps r l rest s t :
  revertAll r l s = Done t tt -> keepsJournal s t /\ (accWf (l ++ rest) (sdAccess s) -> accWf rest (sdAccess t)).
Proof.
  revert s. induction l as [|e l IH]; intros s; [by intros [= <-]|].
  rewrite undo_revertAll. intros H. apply bind_Done in H as (t1 & [] & H & Ht).
  destruct (undo_keeps r e (l ++ rest) s t1 H) as [[K1 K2 K3] Ka], (IH t1 Ht) as [[L1 L2 L3] La].
  split; [split; by etrans|]. intros Hx. by apply La, Ka.
Qed.

Lemma revertAll_app r l l' s : revertAll r (l ++ l') s = (_ ← revertAll r l; revertAll r l') s.
Proof.
  revert s. induction l as [|e l IH]; intros s; [done|]. cbn [app]. rewrite undo_revertAll.
  unfold mbind, st_bind in IH |- *. rewrite undo_revertAll. unfold mbind, st_bind. destruct (undo keccak r e s) as [t []| |]; [apply IH|done..].
Qed.

(** ** Going back *)

Lemma revsOK_take j n idx id :
  revsOK j -> validRevisions j !! idx = Some (id, n) ->
  revsOK (mkJournal (take n (entries j)) (dirties j) (take idx (validRevisions j)) (nextRevisionId j)).
Proof.
  intros [Hs Hb] Hi. split; cbn.
  - intros i i' p p' Hlt Hp Hp'. apply lookup_take_Some in Hp as [Hp _], Hp' as [Hp' _]. by eapply Hs.
  - intros p Hp. apply list_elem_of_lookup in Hp as [i Hp]. apply lookup_take_Some in Hp as [Hp Hlt].
    destruct (Hs i idx p (id, n) Hlt Hp Hi) as [_ Hle]. destruct (Hb p) as [H1 H2]; [by eapply list_elem_of_lookup_2|].
    split; [done|]. cbn in Hle. rewrite length_take. lia.
Qed.

Definition backTo (n idx : nat) (t : StateDB) : StateDB :=
  set_jrn (mkJournal (take n (entries (jrn t))) (dirties (jrn t)) (take idx (validRevisions (jrn t))) (nextRevisionId (jrn t))) t.

Lemma backTo_wf mark r s t id n idx :
  wf mark r s -> validRevisions (jrn s) !! idx = Some (id, n) ->
  revertAll r (reverse (drop n (entries (jrn s)))) s = Done t tt -> wfJ r (take n (entries (jrn s))) t -> wf mark r (backTo n idx t).
Proof.
  intros [Hj Ha Hr Hu] Hi Ht Hw. destruct (revertAll_keeps r _ (reverse (take n (entries (jrn s)))) s t Ht) as [[K1 K2 K3] Ka].
  rewrite <- reverse_app, take_drop in Ka. specialize (Ka Ha).
  assert (Hrv : revsOK (mkJournal (take n (entries (jrn t))) (dirties (jrn t)) (take idx (validRevisions (jrn t))) (nextRevisionId (jrn t)))).
  { rewrite K1, K2, K3. pose proof (revsOK_take (jrn s) n idx id Hr Hi) as [Q1 Q2]. by split. }
  split; cbn [jrn backTo set_jrn entries sdAccess]; [|by rewrite K1|exact Hrv|].
  - apply wfJ_set_jrn; [done|]. by rewrite K1.
  - destruct mark as [[s0 m]|]; [|done]. destruct Hu as [Hid Hu]. cbn [canUndo jrn backTo set_jrn nextRevisionId validRevisions entries].
    rewrite K1, K2, K3. split; [done|]. intros k Hk.
    apply list_elem_of_lookup in Hk as [i Hk]. apply lookup_take_Some in Hk as [Hk Hlt].
    destruct (Hu k) as (Hlen & es & u & Hes & Hru & Hs & Hwu); [by eapply list_elem_of_lookup_2|]. split; [done|].
    destruct (rv_sorted _ Hr i idx (m, k) (id, n) Hlt Hk Hi) as [_ Hle]. cbn in Hle.
    assert (Htake : take n (entries (jrn s)) = entries (jrn s0) ++ take (n - k) es).
    { rewrite Hes, take_app_ge by lia. by rewrite <- Hlen. }
    assert (Hdrop : drop n (entries (jrn s)) = drop (n - k) es) by (rewrite Hes, drop_app_ge by lia; by rewrite <- Hlen).
    rewrite <- (take_drop (n - k) es), reverse_app, revertAll_app in Hru. apply bind_Done in Hru as (t1 & [] & Ht1 & Hru).
    rewrite <- Hdrop, Ht in Ht1. injection Ht1 as <-. rewrite Htake in Hw.
    assert (Hin : inStep keccak everywhere false r r (entries (jrn s0) ++ take (n - k) es) (entries (jrn s0) ++ take (n - k) es) t (backTo n idx t))
      by (split_and!; [by apply stRel_set_jrn|done|by apply wfJ_set_jrn]).
    pose proof (revertAll_sim keccak everywhere false r r _ _ _ _ Hin) as Ho. rewrite Hru in Ho.
    destruct (revertAll r (reverse (take (n - k) es)) (backTo n idx t)) as [u' []| |] eqn:Er; cbn in Ho; try done.
    destruct Ho as (Ho & _ & Hwt). exists (take (n - k) es), u'. split_and!; [done|exact Er|by eapply stRel_trans|done].
Qed.

End revert.

Section runs.
Context (keccak : list Z -> Z) (rt : Z -> Prop) (ids : bool) (mark : option (StateDB * Z)) (r r' : Reader).
Context (Hsize : sizesFit r) (Hsize' : sizesFit r').

#[local] Abbreviation stRel := (stRel keccak).
#[local] Abbreviation peek := (peek keccak).
#[local] Abbreviation wfJ := (wfJ keccak).
#[local] Abbreviation wf := (wf keccak).
#[local] Abbreviation together := (together keccak rt ids mark r r').
#[local] Abbreviation sim := (sim keccak rt ids mark r r').
#[local] Abbreviation post := (fun t t' x x' => x = x' /\ together t t') (only parsing).

(** A new revision. *)
Definition revise (s : StateDB) : StateDB :=
  let j := jrn s in
  set_jrn (mkJournal (entries j) (dirties j) (validRevisions j ++ [(nextRevisionId j, length (entries j))]) (nextRevisionId j + 1)) s.

Lemma revise_wf m r0 s : wf m r0 s -> wf m r0 (revise s).
Proof.
  intros [Hj Ha [Hs Hb] Hu]. split; cbn [jrn revise set_jrn entries sdAccess]; [by apply wfJ_set_jrn|done| |].
  - split; cbn [validRevisions entries nextRevisionId].
    + intros i i' p p' Hlt Hp Hp'. apply lookup_app_Some in Hp as [Hp|[Hge Hp]].
      * apply lookup_app_Some in Hp' as [Hp'|[Hge Hp']]; [by eapply Hs|]. apply list_lookup_singleton_Some in Hp' as [_ <-].
        destruct (Hb p) as [H1 H2]; [by eapply list_elem_of_lookup_2|done].
      * apply list_lookup_singleton_Some in Hp as [Hz _]. apply lookup_lt_Some in Hp'. rewrite length_app in Hp'. cbn in Hp'. lia.
    + intros p Hp. apply elem_of_app in Hp as [Hp|Hp]; [destruct (Hb p Hp); lia|]. apply list_elem_of_singleton in Hp as ->. cbn. lia.
  - apply canUndo_revs; try done; cbn; [lia|]. intros p Hp. apply elem_of_app in Hp as [Hp|Hp]; [by left|].
    apply list_elem_of_singleton in Hp as ->. cbn. right. lia.
Qed.

Lemma pair_Snapshot : ids = true -> sim Snapshot Snapshot.
Proof.
  intros Hi. apply pair_get. intros s s' [H Hw Hw']. destruct (sr_ids _ _ _ _ _ _ _ H Hi) as (He & Hv & Hn).
  cbn. rewrite <- Hn. split; [done|]. split; [|by apply (revise_wf mark r s)|rewrite Hn; by apply (revise_wf None r' s')].
  apply together_set_jrn; [done..|]. intros _. cbn. by rewrite He, Hv.
Qed.

Lemma pair_RevertToSnapshot id : ids = true -> sim (RevertToSnapshot keccak r id) (RevertToSnapshot keccak r' id).
Proof.
  intros Hi. apply pair_get. intros s s' [H Hw Hw']. destruct (sr_ids _ _ _ _ _ _ _ H Hi) as (He & Hv & Hn). cbv zeta. rewrite <- Hv.
  set (idx := sortSearch _ _). destruct (validRevisions (jrn s) !! idx) as [[x n]|] eqn:Ei; [|done].
  destruct (negb (x =? id)); [done|]. unfold journalRevert.
  eapply (outRel_bind (fun t t' (_ _ : unit) => exists u u',
    revertAll keccak r (reverse (drop n (entries (jrn s)))) s = Done u tt /\ revertAll keccak r' (reverse (drop n (entries (jrn s')))) s' = Done u' tt /\
    stRel rt ids r u r' u' /\ wfJ r (take n (entries (jrn s))) u /\ wfJ r' (take n (entries (jrn s'))) u' /\
    t = set_jrn (mkJournal (take n (entries (jrn u))) (dirties (jrn u)) (validRevisions (jrn u)) (nextRevisionId (jrn u))) u /\
    t' = set_jrn (mkJournal (take n (entries (jrn u'))) (dirties (jrn u')) (validRevisions (jrn u')) (nextRevisionId (jrn u'))) u')).
  - rewrite !(bind_eq getS _ _ _ _ eq_refl). rewrite <- He.
    pose proof (revertAll_sim keccak rt ids r r' (take n (entries (jrn s))) (drop n (entries (jrn s))) s s') as Ho.
    rewrite take_drop in Ho. specialize (Ho (conj H (conj (wf_journal _ _ _ _ Hw) (eq_rect_r (fun l => wfJ r' l s') (wf_journal _ _ _ _ Hw') He)))).
    unfold mbind, st_bind. destruct (revertAll keccak r _ s) as [u []| |] eqn:E1, (revertAll keccak r' _ s') as [u' []| |] eqn:E2; cbn in Ho; try done.
    cbn. destruct Ho as (H1 & H2 & H3). by exists u, u'.
  - intros t t' _ _ (u & u' & E1 & E2 & H1 & H2 & H3 & -> & ->). cbn. split; [done|].
    assert (Hb : together (backTo n idx u) (backTo n idx u')); [|exact Hb].
    split; [|by eapply backTo_wf|by eapply backTo_wf; [| |exact E2|]; [done|rewrite <- Hv|]].
    apply together_set_jrn; [done..|]. intros _. destruct (sr_ids _ _ _ _ _ _ _ H1 Hi) as (Q1 & Q2 & Q3). cbn. by rewrite Q1, Q2, Q3.
Qed.

(** ** The interface of the EVM *)

(** Which operations are in question: those that answer with a revision need revisions to
    agree, and the access list is not reset within a mark. *)
Definition permitted (o : ParallelState.Op) : Prop :=
  match o with
  | ParallelState.oSnapshot | ParallelState.oRevertToSnapshot _ => ids = true
  | ParallelState.oPrepare _ _ _ _ _ _ => mark = None /\ ids = true
  | _ => True
  end.

(** What the EVM sees to: accounts are created where there are none; code is set where
    the old code is known; the access list is prepared before it is used.  Besides, the
    account of RIPEMD is not touched with nothing while it is empty, and a storage root is
    asked for where the roots have to agree, or of no account. *)
Definition fits (r0 : Reader) (s : StateDB) (o : ParallelState.Op) : Prop :=
  match o with
  | ParallelState.oCreateAccount a => peek r0 s a = None
  | ParallelState.oSetCode a _ => forall x, peek r0 s a = Some x -> codeKnown keccak x
  | ParallelState.oAddBalance a v => touchable keccak r0 s a v
  | ParallelState.oGetStorageRoot a => rt a \/ peek r0 s a = None
  | ParallelState.oPrepare _ _ _ _ _ _ => Forall (fun e => isAccess e = false) (entries (jrn s))
  | _ => True
  end.

Lemma reset_sim al s s' :
  mark = None -> accOK al -> Forall (fun e => isAccess e = false) (entries (jrn s)) -> Forall (fun e => isAccess e = false) (entries (jrn s')) ->
  together s s' -> together (set_transient ∅ (set_sdAccess al s)) (set_transient ∅ (set_sdAccess al s')).
Proof.
  intros Hm Hal Hf Hf' [H Hw Hw'].
  assert (Hwf : forall r0 s0, Forall (fun e => isAccess e = false) (entries (jrn s0)) -> wf None r0 s0 -> wf None r0 (set_transient ∅ (set_sdAccess al s0))).
  { intros r0 s0 Hn [Hj Ha Hr Hu]. split; [by apply (wfJ_same keccak r0 _ s0)| |exact Hr|done]. cbn. apply accWf_reset; [by apply Forall_reverse|done]. }
  split; [|rewrite Hm in Hw |- *; by apply Hwf|by apply Hwf].
  eapply (stRel_slots keccak rt ids r s _ r' s' _); [done|done| |done|..]; try apply H; try done.
Qed.

Lemma pair_Prepare sh se co dst pre l s s' :
  mark = None -> Forall (fun e => isAccess e = false) (entries (jrn s)) -> Forall (fun e => isAccess e = false) (entries (jrn s')) -> together s s' ->
  outRel post (SerialRun.Prepare sh se co dst pre l s) (SerialRun.Prepare sh se co dst pre l s').
Proof.
  intros Hm Hf Hf' H. unfold SerialRun.Prepare. cbn. split; [done|]. apply reset_sim; try done.
  assert (Hk : forall b : bool, forall al, accOK al -> accOK (if b then (ParallelState.AddAddress al co).1 else al)).
  { intros [] al Hal; [by apply AddAddress_fst_ok|done]. }
  apply Hk. apply fold_ok.
  { intros al el Hal. apply fold_ok; [intros; by apply AddSlot_ok|by apply AddAddress_fst_ok]. }
  apply fold_ok; [intros; by apply AddAddress_fst_ok|]. destruct dst; [apply AddAddress_fst_ok|]; apply AddAddress_fst_ok, newAccessList_ok.
Qed.

Lemma pair_query {A B} (g : StateDB -> A) (f : A -> B) :
  (forall s s', stRel rt ids r s r' s' -> g s = g s') -> sim (s ← getS; mret (f (g s))) (s ← getS; mret (f (g s))).
Proof. intros Hg. apply pair_get. intros s s' H. cbn. split; [|done]. by rewrite (Hg s s' (tg_rel _ _ _ _ _ _ _ _ H)). Qed.

#[local] Hint Resolve pair_Exist pair_Empty pair_GetBalance pair_GetNonce pair_GetCodeHash pair_HasSelfDestructed
  pair_GetCode pair_GetCodeSize pair_GetCommittedState pair_GetStateAndCommittedState pair_GetState pair_SetBalance pair_SubBalance
  pair_SetNonce pair_SetState pair_CreateContract pair_SelfDestruct pair_SelfDestruct6780 pair_AddRefund pair_SubRefund
  pair_AddLog pair_AddPreimage pair_SetTransientState pair_AddAddress pair_AddSlot pair_Snapshot pair_RevertToSnapshot : core.

(** An answer made of a result. *)
Lemma outRel_answer {A B} (f : A -> B) (m m' : st StateDB Empty_set A) s s' :
  outRel post (m s) (m' s') -> outRel post ((x ← m; mret (f x)) s) ((x ← m'; mret (f x)) s').
Proof. intros H. eapply outRel_bind; [exact H|]. intros t t' x x' [<- Ht]. by split. Qed.

Lemma outRel_sim {A B} (f : A -> B) (m m' : st StateDB Empty_set A) s s' :
  sim m m' -> together s s' -> outRel post ((x ← m; mret (f x)) s) ((x ← m'; mret (f x)) s').
Proof. intros Hm H. by apply outRel_answer, Hm. Qed.

Theorem perform_sim o s s' :
  together s s' -> permitted o -> fits r s o -> outRel post (SerialRun.perform keccak r o s) (SerialRun.perform keccak r' o s').
Proof.
  intros H Hp Hf. pose proof (tg_rel _ _ _ _ _ _ _ _ H) as Hr.
  destruct o; cbn [SerialRun.perform permitted fits] in *;
    try (eapply outRel_sim; [by auto|exact H]); try (by apply (pair_query sdRefund); [intros ? ? []|]).
  - apply outRel_answer. by apply AddBalance_sim.
  - apply outRel_answer. by apply SetCode_sim.
  - apply outRel_answer. by apply GetStorageRoot_sim.
  - apply (pair_query sdAccess (fun al => ParallelState.aBool (ParallelState.ContainsAddress al a))); [by intros ? ? []|done].
  - apply (pair_query sdAccess (fun al => let p := ParallelState.Contains al a k in ParallelState.aBools p.1 p.2)); [by intros ? ? []|done].
  - apply (pair_query (fun s => ParallelState.transientGet (transientStorage s) a k) ParallelState.aNum); [intros ? ? []; auto|done].
  - apply outRel_answer. by apply CreateAccount_sim.
  - by apply pair_ret.
  - apply outRel_answer. destruct Hp as [Hm Hi]. destruct (sr_ids _ _ _ _ _ _ _ Hr Hi) as (He & _). apply pair_Prepare; try done. by rewrite <- He.
Qed.

(** ** Programs *)

Fixpoint fitsRun (s : StateDB) (p : ParallelState.prog) : Prop :=
  match p with
  | ParallelState.pDo o k =>
      permitted o /\ fits r s o /\
      match SerialRun.perform keccak r o s with Done t a => fitsRun t (k a) | _ => True end
  | _ => True
  end.

Theorem runProg_sim p s s' :
  together s s' -> fitsRun s p -> outRel post (SerialRun.runProg keccak r p s) (SerialRun.runProg keccak r' p s').
Proof.
  revert s s'. induction p as [res|e|w|o k IH]; intros s s' H Hf; [by split|by split|done|].
  destruct Hf as (Hp & Hf & Hk). cbn [SerialRun.runProg]. pose proof (perform_sim o s s' H Hp Hf) as Ho.
  unfold mbind, st_bind. destruct (SerialRun.perform keccak r o s) as [t a| |], (SerialRun.perform keccak r' o s') as [t' a'| |]; cbn in Ho; try done.
  destruct Ho as [<- Ht]. by apply IH.
Qed.

End runs.

End StateRevert.
