(* ===== verification/StateFinal.v ===== *)
(** * The end of a transaction on related states

    Finalising related states leaves related states, whichever of the two ways of moving
    slots is taken on either side. *)

From S2P Require Import Prelude Bytes MvStore ParallelState StateDB SerialRun StateRel StateUndo StateUnits StateOps StateSim StateRevert.
Import MvStore.

Module StateFinal.

Import StateDB StateRel StateUndo StateUnits StateOps StateSim StateRevert.

(** Slots overridden one by one. *)
Definition override (kvs : list (Z * Z)) (f : Z -> Z) : Z -> Z :=
  fold_left (fun f kv l => if decide (l = kv.1) then kv.2 else f l) kvs f.

Lemma override_map kvs f l :
  NoDup kvs.*1 -> override kvs f l = default (f l) ((list_to_map kvs : gmap Z Z) !! l).
Proof.
  unfold override. revert f. induction kvs as [|[k v] kvs IH]; intros f; cbn; [by rewrite lookup_empty|].
  rewrite NoDup_cons. intros [Hk Hn]. rewrite IH by done. destruct (decide (l = k)) as [->|Hl].
  - rewrite lookup_insert_eq. by rewrite (not_elem_of_list_to_map_1 kvs k).
  - by rewrite lookup_insert_ne.
Qed.

Lemma override_ext kvs f f' : (forall l, f l = f' l) -> forall l, override kvs f l = override kvs f' l.
Proof.
  unfold override. revert f f'. induction kvs as [|kv kvs IH]; intros f f' Hf l; [apply Hf|]. cbn. apply IH. intros l'. by case_decide.
Qed.

Lemma override_to_list (m : gmap Z Z) f l : override (map_to_list m) f l = default (f l) (m !! l).
Proof. rewrite override_map by apply NoDup_fst_map_to_list. by rewrite list_to_map_to_list. Qed.

Section final.
Context (keccak : list Z -> Z).

#[local] Abbreviation stRel := (stRel keccak).
#[local] Abbreviation objRel := (objRel keccak).
#[local] Abbreviation peek := (peek keccak).
#[local] Abbreviation loaded := (loaded keccak).
#[local] Abbreviation wfJ := (wfJ keccak).
#[local] Abbreviation wf := (wf keccak).
#[local] Abbreviation together := (together keccak).

(** ** Moving the slots of an object *)

(** [t] is [s] with the object at [a] changed to [o1]. *)
Record moved (r : Reader) (a : Z) (s t : StateDB) (o1 : stateObject) : Prop := mkMoved {
  mv_env : env t = env s;
  mv_others : forall b, b <> a -> stateObjects t !! b = stateObjects s !! b;
  mv_at : loaded r t a o1
}.

(** The object with other slots. *)
Record shifted (r : Reader) (s t : StateDB) (a : Z) (o o1 : stateObject) (g : Z -> Z) : Prop := mkShifted {
  sh_data : data o1 = data o;
  sh_code : code o1 = code o;
  sh_flat : fromFlatDiff o1 = fromFlatDiff o;
  sh_destructed : selfDestructed o1 = selfDestructed o;
  sh_dirty : dirtyStorage o1 = dirtyStorage o;
  sh_committed : forall k, committedOf r t a o1 k = g k
}.

Lemma moved_trans r a s t u o1 o2 : moved r a s t o1 -> moved r a t u o2 -> moved r a s u o2.
Proof. intros [E1 N1 _] [E2 N2 L2]. split; [by etrans| |done]. intros b Hb. by rewrite N2, N1. Qed.

Lemma updO_moved r a s o f : loaded r s a o -> fromFlatDiff (f o) = fromFlatDiff o -> moved r a s (updO a f s) (f o).
Proof. intros Hl Hf. split; [done| |by apply updO_loaded]. intros b Hb. cbn. by rewrite lookup_alter_ne. Qed.

Lemma quiet_moved r a s t u o1 : quiet t u -> moved r a s t o1 -> moved r a s u o1.
Proof. intros Hq [E N L]. split; [destruct Hq as [Hq _]; by rewrite Hq|destruct Hq as [_ Hq]; by rewrite Hq|by eapply (quiet_loaded keccak)]. Qed.

(** The two parts of moving a slot: the origin, then the value. *)
Lemma remember_slot r a s o k :
  loaded r s a o ->
  exists t o1, (org ← objGetCommittedState r a k; updObject a (fun o => set_uncommittedStorage (<[k := org]> (uncommittedStorage o)) o)) s = Done t tt /\
    moved r a s t o1 /\ shifted r s t a o o1 (committedOf r s a o).
Proof.
  intros Hl. destruct (objGetCommittedState_spec keccak r a k s o Hl) as (t & f & Ht & Hq & Hf & Ha & Hc).
  rewrite (bind_eq _ _ s t _ Ht). destruct Ha as (D & S & N & DS & _ & K).
  assert (Hmt : moved r a s t (f o)) by (eapply quiet_moved; [exact Hq|by apply updO_moved]).
  eexists _, _. split; [reflexivity|]. split.
  - eapply moved_trans; [exact Hmt|].
    apply (updO_moved r a t (f o) (fun x => set_uncommittedStorage (<[k := committedOf r s a o k]> (uncommittedStorage x)) x) (mv_at _ _ _ _ _ Hmt) eq_refl).
  - split; try done; [exact (Hf o)|]. intros l. rewrite <- (K l).
    exact (slots_committedOf r t s a (f o) l (frame_slots _ _ (env_frame _ _ (mv_env _ _ _ _ _ Hmt)))).
Qed.

Lemma shifted_refl r s a o : shifted r s s a o o (committedOf r s a o).
Proof. by split. Qed.

(** A way of moving one slot. *)
Definition movesSlot (r : Reader) (slot : Z -> Z -> Z -> run unit) : Prop :=
  forall a k v s o, loaded r s a o ->
    exists t o1, slot a k v s = Done t tt /\ moved r a s t o1 /\ shifted r s t a o o1 (override [(k, v)] (committedOf r s a o)).

(** The value, after the origin. *)
Lemma put_slot r a s t o o1 k v :
  moved r a s t o1 -> shifted r s t a o o1 (committedOf r s a o) ->
  exists u o2, updObject a (fun x => set_pendingStorage (<[k := v]> (pendingStorage x)) x) t = Done u tt /\ moved r a s u o2 /\
    shifted r s u a o o2 (override [(k, v)] (committedOf r s a o)).
Proof.
  intros Hm [D C F S DS K]. eexists _, _. split; [reflexivity|]. split.
  - eapply moved_trans; [exact Hm|].
    apply (updO_moved r a t o1 (fun x => set_pendingStorage (<[k := v]> (pendingStorage x)) x) (mv_at _ _ _ _ _ Hm) eq_refl).
  - split; try done. intros l. unfold override. cbn [fold_left fst snd]. unfold committedOf at 1. cbn [pendingStorage set_pendingStorage].
    case_decide as Hl; [subst; by rewrite lookup_insert_eq|]. rewrite lookup_insert_ne by done. rewrite <- (K l). done.
Qed.

Lemma finaliseSlot_moves r : movesSlot r (finaliseSlot r).
Proof.
  intros a k v s o Hl. unfold finaliseSlot. rewrite (bind_objectAt keccak r a s o) by done.
  destruct (uncommittedStorage o !! k) as [org|] eqn:E.
  - destruct (org =? v).
    + assert (Hm := updO_moved r a s o (fun x => set_uncommittedStorage (delete k (uncommittedStorage x)) x) Hl eq_refl).
      apply (put_slot r a s _ o _ k v Hm). by split.
    + apply (put_slot r a s s o o k v); [|apply shifted_refl]. by split.
  - destruct (remember_slot r a s o k Hl) as (t & o1 & Ht & Hm & Hs). rewrite (bind_eq _ _ s t tt Ht). by apply (put_slot r a s t o o1 k v).
Qed.

Lemma promoteSlot_moves r : movesSlot r (promoteSlot r).
Proof.
  intros a k v s o Hl. unfold promoteSlot. rewrite (bind_objectAt keccak r a s o) by done.
  destruct (uncommittedStorage o !! k) as [org|] eqn:E.
  - apply (put_slot r a s s o o k v); [|apply shifted_refl]. by split.
  - destruct (originStorage o !! k) as [org|].
    + assert (Hm := updO_moved r a s o (fun x => set_uncommittedStorage (<[k := org]> (uncommittedStorage x)) x) Hl eq_refl).
      apply (put_slot r a s _ o _ k v Hm). by split.
    + destruct (remember_slot r a s o k Hl) as (t & o1 & Ht & Hm & Hs). rewrite (bind_eq _ _ s t tt Ht). by apply (put_slot r a s t o o1 k v).
Qed.

(** All slots, then the slate is cleaned. *)
Definition movesSlots (slot : Z -> Z -> Z -> run unit) (slotsOf : Z -> list (Z * Z) -> run unit) : Prop :=
  (forall a, slotsOf a [] = updObject a (fun o => set_newContract false (set_dirtyStorage ∅ o))) /\
  forall a k v rest, slotsOf a ((k, v) :: rest) = (_ ← slot a k v; slotsOf a rest).

Lemma slots_moved r slot slotsOf a kvs s o :
  movesSlot r slot -> movesSlots slot slotsOf -> loaded r s a o ->
  exists t o1, slotsOf a kvs s = Done t tt /\ moved r a s t o1 /\ data o1 = data o /\ code o1 = code o /\ selfDestructed o1 = selfDestructed o /\
    newContract o1 = false /\ dirtyStorage o1 = ∅ /\ forall k, committedOf r t a o1 k = override kvs (committedOf r s a o) k.
Proof.
  intros Hslot [Hnil Hcons] Hl.
  assert (Hgo : forall kvs t o1, moved r a s t o1 ->
    exists u o2, slotsOf a kvs t = Done u tt /\ moved r a t u o2 /\ data o2 = data o1 /\ code o2 = code o1 /\ selfDestructed o2 = selfDestructed o1 /\
      newContract o2 = false /\ dirtyStorage o2 = ∅ /\ forall k, committedOf r u a o2 k = override kvs (committedOf r t a o1) k).
  { clear kvs. intros kvs. induction kvs as [|[k v] kvs IH]; intros t o1 Hm.
    - rewrite Hnil. eexists _, _. split; [reflexivity|]. split; [apply (updO_moved r a t o1 (fun o => set_newContract false (set_dirtyStorage ∅ o)) (mv_at _ _ _ _ _ Hm) eq_refl)|].
      by split_and!.
    - rewrite Hcons. destruct (Hslot a k v t o1 (mv_at _ _ _ _ _ Hm)) as (t1 & o2 & Ht1 & Hm1 & Hs1). rewrite (bind_eq _ _ t t1 tt Ht1).
      destruct (IH t1 o2) as (u & o3 & Hu & Hmu & D & C & S & N & DS & K); [by eapply moved_trans|].
      exists u, o3. destruct Hs1 as [D1 C1 F1 S1 DS1 K1]. split; [done|]. split; [by eapply moved_trans|]. split_and!; try congruence.
      intros l. rewrite K. apply (override_ext kvs). intros l'. apply K1. }
  destruct (Hgo kvs s o) as (t & o1 & H); [by split|]. by exists t, o1.
Qed.

(** ** The loop over the dirty addresses *)

(** A way of keeping an object: move its slots, mark it. *)
Definition keepsObject (r : Reader) (keep : Z -> stateObject -> run unit) : Prop :=
  exists slot slotsOf, movesSlot r slot /\ movesSlots slot slotsOf /\
    forall a o, keep a o = (_ ← slotsOf a (map_to_list (dirtyStorage o)); markUpdate a).

Lemma finalise_keeps r : keepsObject r (finalise r).
Proof. exists (finaliseSlot r), (finaliseSlots r). split; [apply finaliseSlot_moves|]. by split; [split|]. Qed.

Lemma finalisePromote_keeps r : keepsObject r (finalisePromote r).
Proof. exists (promoteSlot r), (promoteSlots r). split; [apply promoteSlot_moves|]. by split; [split|]. Qed.

Section loop.
Context (rt : Z -> Prop) (r r' : Reader).

Record halfway (rest : list Z) (s s' : StateDB) : Prop := mkHalfway {
  hw_rel : stRel rt false r s r' s';
  hw_left : forall a, a ∈ rest -> exists o, loaded r s a o;
  hw_right : forall a, a ∈ rest -> exists o, loaded r' s' a o;
  hw_done : forall a, is_Some (dirties (jrn s) !! a) -> a ∈ rest \/ is_Some (mutations s !! a);
  hw_access : accOK (sdAccess s)
}.

(** *** An object that goes *)

Definition deleted (a : Z) (o : stateObject) (s : StateDB) : StateDB :=
  set_destructs (match stateObjectsDestruct s !! a with Some _ => stateObjectsDestruct s | None => <[a := o]> (stateObjectsDestruct s) end)
    ({[a]} ∪ currentBlockDestructs s)
    (set_mutations (<[a := mkMutation deletion false]> (mutations s)) (set_objects (delete a (stateObjects s)) s)).

Lemma finaliseDelete_eq a o s : finaliseDelete a o s = Done (deleted a o s) tt.
Proof. done. Qed.

Lemma deleted_destruct a o s b :
  is_Some (stateObjectsDestruct (deleted a o s) !! b) <-> b = a \/ is_Some (stateObjectsDestruct s !! b).
Proof.
  cbn. destruct (stateObjectsDestruct s !! a) as [x|] eqn:E.
  - split; [by right|]. intros [->|]; [by rewrite E|done].
  - destruct (decide (b = a)) as [->|Hb]; [rewrite lookup_insert_eq; split; [by left|by eexists]|]. rewrite lookup_insert_ne by done. naive_solver.
Qed.

Lemma deleted_slots_ne a o s b : b <> a ->
  bool_decide (b ∈ currentBlockDestructs (deleted a o s)) = bool_decide (b ∈ currentBlockDestructs s) /\
  bool_decide (is_Some (stateObjectsDestruct (deleted a o s) !! b)) = bool_decide (is_Some (stateObjectsDestruct s !! b)).
Proof.
  intros Hb. split; apply bool_decide_ext; [cbn; set_solver|]. rewrite deleted_destruct. naive_solver.
Qed.

Lemma baseOf_deleted r0 a o s b k : baseOf r0 (deleted a o s) b k = if decide (b = a) then 0 else baseOf r0 s b k.
Proof.
  case_decide as Hb; [subst|].
  - unfold baseOf. rewrite bool_decide_true; [done|]. cbn. set_solver.
  - destruct (deleted_slots_ne a o s b Hb) as [H1 H2]. unfold baseOf. by rewrite H1, H2.
Qed.

Lemma committedOf_deleted r0 a o s b x k : b <> a -> committedOf r0 (deleted a o s) b x k = committedOf r0 s b x k.
Proof.
  intros Hb. destruct (deleted_slots_ne a o s b Hb) as [H1 _]. unfold committedOf. by rewrite H1, baseOf_deleted, decide_False.
Qed.

Lemma peek_deleted r0 a o s b : peek r0 (deleted a o s) b = if decide (b = a) then None else peek r0 s b.
Proof.
  unfold StateRel.peek, look. case_decide as Hb; [subst|].
  - unfold covered, hasAccountMutation. cbn [mutations deleted set_destructs set_mutations stateObjects set_objects].
    rewrite lookup_insert_eq, (bool_decide_true (is_Some (Some _))), orb_true_r by (by eexists). rewrite lookup_delete_eq.
    cbn. rewrite bool_decide_true; [done|]. apply (deleted_destruct a o s a). by left.
  - destruct (deleted_slots_ne a o s b Hb) as [_ H2]. unfold lookAt. rewrite H2.
    unfold covered, hasAccountMutation. cbn [mutations deleted set_destructs set_mutations stateObjects set_objects jrn flatDiffRef].
    by rewrite lookup_insert_ne, lookup_delete_ne by done.
Qed.

Lemma deleted_stRel a o o' s s' : stRel rt false r s r' s' -> stRel rt false r (deleted a o s) r' (deleted a o' s').
Proof.
  intros []. split; try done.
  - intros b. rewrite !peek_deleted. case_decide as Hb; [done|]. specialize (sr_peek0 b). unfold optRel in *.
    destruct (peek r s b), (peek r' s' b); try done. destruct sr_peek0 as [? ? ? ? ? ? Hv ? ? Hc]. split; try done; intros k; specialize (Hv k);
      unfold valueOf in *; by rewrite !committedOf_deleted.
  - intros b k. rewrite !baseOf_deleted. case_decide; [done|auto].
  - cbn. by rewrite sr_mutations0.
  - apply set_eq. intros b. rewrite !elem_of_dom, !deleted_destruct. rewrite <- !elem_of_dom, sr_destructs0. done.
  - cbn. by rewrite sr_cbd0.
Qed.

Lemma deleted_loaded r0 a o s b x : b <> a -> loaded r0 s b x -> loaded r0 (deleted a o s) b x.
Proof. intros Hb [Hm Hp]. split; [cbn; by rewrite lookup_delete_ne|]. by rewrite peek_deleted, decide_False. Qed.

(** *** An object that stays *)

Definition marked (a : Z) (s : StateDB) : StateDB := set_mutations (<[a := mkMutation update false]> (mutations s)) s.

Lemma peek_marked r0 a s o b : stateObjects s !! a = Some o -> peek r0 (marked a s) b = if decide (b = a) then Some o else peek r0 s b.
Proof.
  intros Ho. unfold StateRel.peek, look. case_decide as Hb; [subst|].
  - unfold covered, hasAccountMutation. cbn [mutations marked set_mutations stateObjects].
    by rewrite lookup_insert_eq, (bool_decide_true (is_Some (Some _))), orb_true_r, Ho by (by eexists).
  - unfold covered, hasAccountMutation. cbn [mutations marked set_mutations stateObjects jrn flatDiffRef]. by rewrite lookup_insert_ne by done.
Qed.

Lemma kept_moves r0 keep a o s :
  keepsObject r0 keep -> loaded r0 s a o ->
  exists t o1, keep a o s = Done (marked a t) tt /\ moved r0 a s t o1 /\ data o1 = data o /\ code o1 = code o /\
    selfDestructed o1 = selfDestructed o /\ newContract o1 = false /\ dirtyStorage o1 = ∅ /\ forall k, committedOf r0 t a o1 k = valueOf r0 s a o k.
Proof.
  intros (slot & slotsOf & H1 & H2 & H3) Hl. rewrite H3.
  destruct (slots_moved r0 slot slotsOf a (map_to_list (dirtyStorage o)) s o H1 H2 Hl) as (t & o1 & Ht & Hm & D & C & S & N & DS & K).
  exists t, o1. split; [by rewrite (bind_eq _ _ s t tt Ht)|]. split_and!; try done. intros k. rewrite K. apply override_to_list.
Qed.

Lemma moved_peek r0 a s t o1 b : moved r0 a s t o1 -> peek r0 t b = if decide (b = a) then Some o1 else peek r0 s b.
Proof.
  intros [E N L]. case_decide as Hb; [subst; apply L|]. unfold StateRel.peek.
  rewrite (N b Hb). by apply frame_look, env_frame.
Qed.

Lemma kept_stRel a s s' t t' o o' o1 o1' :
  stRel rt false r s r' s' -> objRel rt r s r' s' a o o' -> moved r a s t o1 -> moved r' a s' t' o1' ->
  data o1 = data o -> code o1 = code o -> selfDestructed o1 = selfDestructed o -> newContract o1 = false -> dirtyStorage o1 = ∅ ->
  (forall k, committedOf r t a o1 k = valueOf r s a o k) ->
  data o1' = data o' -> code o1' = code o' -> selfDestructed o1' = selfDestructed o' -> newContract o1' = false -> dirtyStorage o1' = ∅ ->
  (forall k, committedOf r' t' a o1' k = valueOf r' s' a o' k) ->
  stRel rt false r (marked a t) r' (marked a t').
Proof.
  intros H [? ? ? ? Hcode Hcache Hv ? ? ?] Hm Hm' D C S N DS K D' C' S' N' DS' K'.
  assert (Hst : stRel rt false r t r' t').
  { eapply (stRel_env keccak rt false r s t r' s' t'); [symmetry; apply Hm|symmetry; apply Hm'| |exact H].
    intros b. rewrite (moved_peek r a s t o1 b Hm), (moved_peek r' a s' t' o1' b Hm').
    case_decide as Hb; [subst b|apply (sr_peek _ _ _ _ _ _ _ H)]. cbn.
    assert (Hc : forall k, committedOf r s a o1 k = committedOf r' s' a o1' k).
    { intros k. rewrite <- (slots_committedOf r t s a o1 k), <- (slots_committedOf r' t' s' a o1' k), K, K' by apply frame_slots, env_frame, mv_env with (1 := Hm) || apply frame_slots, env_frame, mv_env with (1 := Hm'). apply Hv. }
    split; rewrite ?D, ?D', ?C, ?C', ?S, ?S', ?N, ?N'; try done.
    - unfold codeOf in *. by rewrite D, D', C, C'.
    - intros k. unfold valueOf. rewrite DS, DS'. rewrite !lookup_empty. apply Hc. }
  eapply (stRel_slots keccak rt false r t _ r' t' _); [done|done| |exact Hst|..]; try apply Hst; try done.
  - intros b. rewrite (peek_marked r a t o1 b), (peek_marked r' a t' o1' b) by (apply Hm || apply Hm').
    pose proof (sr_peek _ _ _ _ _ _ _ Hst b) as Hp. case_decide as Hb; [|done]. subst b.
    by rewrite (proj2 (mv_at _ _ _ _ _ Hm)), (proj2 (mv_at _ _ _ _ _ Hm')) in Hp.
  - cbn. by rewrite (sr_mutations _ _ _ _ _ _ _ Hst).
Qed.

Lemma marked_loaded r0 a s t o1 b x : moved r0 a s t o1 -> b <> a -> loaded r0 s b x -> loaded r0 (marked a t) b x.
Proof.
  intros Hm Hb [Ho Hp]. split; [cbn; by rewrite (mv_others _ _ _ _ _ Hm)|].
  rewrite (peek_marked r0 a t o1) by apply Hm. rewrite decide_False by done. rewrite (moved_peek r0 a s t o1 b Hm). by rewrite decide_False.
Qed.

(** *** The loop *)

Lemma delete_halfway a rest s s' o o' :
  a ∉ rest -> halfway (a :: rest) s s' -> halfway rest (deleted a o s) (deleted a o' s').
Proof.
  intros Ha [H Hl Hr Hd Hok]. split; [by apply deleted_stRel| | | |done].
  - intros b Hb. destruct (Hl b) as [x Hx]; [by right|]. exists x. apply deleted_loaded; [by intros ->|done].
  - intros b Hb. destruct (Hr b) as [x Hx]; [by right|]. exists x. apply deleted_loaded; [by intros ->|done].
  - intros b Hb. cbn. destruct (decide (b = a)) as [->|Hne]; [right; by rewrite lookup_insert_eq|].
    rewrite lookup_insert_ne by done. destruct (Hd b Hb) as [Hin|]; [|by right]. apply elem_of_cons in Hin as [|]; [done|by left].
Qed.

Lemma keep_halfway keep keep' a rest s s' o o' :
  keepsObject r keep -> keepsObject r' keep' -> a ∉ rest -> halfway (a :: rest) s s' -> loaded r s a o -> loaded r' s' a o' ->
  outRel (fun t t' _ _ => halfway rest t t') (keep a o s) (keep' a o' s').
Proof.
  intros Hk Hk' Ha [H Hl Hr Hd Hok] Ho Ho'.
  destruct (kept_moves r keep a o s Hk Ho) as (t & o1 & -> & Hm & D & C & S & N & DS & K).
  destruct (kept_moves r' keep' a o' s' Hk' Ho') as (t' & o1' & -> & Hm' & D' & C' & S' & N' & DS' & K'). cbn [outRel].
  assert (Hrel : objRel rt r s r' s' a o o').
  { pose proof (sr_peek _ _ _ _ _ _ _ H a) as Hp. by rewrite (proj2 Ho), (proj2 Ho') in Hp. }
  pose proof (mv_env _ _ _ _ _ Hm) as [= _ _ _ _ _ Hacc _ Hj Hmu _ _ _]. split.
  - by eapply (kept_stRel a s s' t t' o o' o1 o1').
  - intros b Hb. destruct (Hl b) as [x Hx]; [by right|]. exists x. by eapply marked_loaded; [|intros ->|].
  - intros b Hb. destruct (Hr b) as [x Hx]; [by right|]. exists x. by eapply marked_loaded; [|intros ->|].
  - intros b Hb. cbn in Hb |- *. rewrite Hj in Hb. rewrite Hmu. destruct (decide (b = a)) as [->|Hne]; [right; by rewrite lookup_insert_eq|].
    rewrite lookup_insert_ne by done. destruct (Hd b Hb) as [Hin|]; [|by right]. apply elem_of_cons in Hin as [|]; [done|by left].
  - cbn. by rewrite Hacc.
Qed.

Lemma finaliseLoop_sim keep keep' de rest s s' :
  keepsObject r keep -> keepsObject r' keep' -> NoDup rest -> halfway rest s s' ->
  outRel (fun t t' _ _ => halfway [] t t') (finaliseLoop keccak keep de rest s) (finaliseLoop keccak keep' de rest s').
Proof.
  intros Hk Hk'. revert s s'. induction rest as [|a rest IH]; intros s s' Hn Hh; [done|].
  apply NoDup_cons in Hn as [Ha Hn]. cbn [finaliseLoop]. rewrite !(bind_eq getS _ _ _ _ eq_refl).
  destruct (hw_left _ _ _ Hh a) as [o Ho]; [by left|]. destruct (hw_right _ _ _ Hh a) as [o' Ho']; [by left|].
  rewrite (proj1 Ho), (proj1 Ho').
  assert (Hdec : selfDestructed o || (de && empty keccak o) = selfDestructed o' || (de && empty keccak o')).
  { pose proof (sr_peek _ _ _ _ _ _ _ (hw_rel _ _ _ Hh) a) as Hp. rewrite (proj2 Ho), (proj2 Ho') in Hp. destruct Hp as [E1 E2 E3 _ _ _ _ E4 _ _].
    unfold empty. by rewrite E1, E2, E3, E4. }
  rewrite Hdec. eapply (outRel_bind (fun t t' _ _ => halfway rest t t')); [|intros t t' _ _ Ht; by apply IH].
  destruct (selfDestructed o' || (de && empty keccak o')); [|by eapply keep_halfway].
  rewrite !finaliseDelete_eq. by apply delete_halfway.
Qed.

(** *** The journal is cleared *)

Definition cleared (s : StateDB) : StateDB := set_sdRefund 0 (set_jrn newJournal s).

Lemma peek_cleared r0 s b :
  (forall a, is_Some (dirties (jrn s) !! a) -> is_Some (mutations s !! a)) -> peek r0 (cleared s) b = peek r0 s b.
Proof.
  intros H. unfold StateRel.peek, look. replace (covered (cleared s) b) with (covered s b); [done|].
  unfold covered, hasAccountMutation. cbn. rewrite lookup_empty, (bool_decide_false (is_Some (None : option Z))) by (by intros []). cbn [orb].
  destruct (decide (is_Some (dirties (jrn s) !! b))) as [Hb|Hb]; [|by rewrite (bool_decide_false (is_Some (dirties _ !! b)))].
  rewrite (bool_decide_true (is_Some (mutations s !! b))) by auto. by rewrite orb_true_r.
Qed.

Lemma cleared_wf r0 s : accOK (sdAccess s) -> wf None r0 (cleared s).
Proof.
  intros H. split; [split|..|done].
  - intros a. cbn. by rewrite lookup_empty.
  - done.
  - done.
  - split; [by intros i i' p p' _ Hp|by intros p Hp%elem_of_nil].
Qed.

Lemma cleared_together s s' : halfway [] s s' -> together rt true None r r' (cleared s) (cleared s').
Proof.
  intros [H _ _ Hd Hok].
  assert (HL : forall a, is_Some (dirties (jrn s) !! a) -> is_Some (mutations s !! a))
    by (intros a Ha; destruct (Hd a Ha) as [Hn%elem_of_nil|]; done).
  split; [|by apply cleared_wf|apply cleared_wf; by rewrite <- (sr_access _ _ _ _ _ _ _ H)].
  assert (H0 : stRel rt false r (cleared s) r' (cleared s')); [|by destruct H0; split].
  eapply (stRel_slots keccak rt false r s _ r' s' _); [done|done| |exact H|..]; try apply H; try done.
  intros b. rewrite !peek_cleared; [apply H|by rewrite <- (sr_dirties _ _ _ _ _ _ _ H), <- (sr_mutations _ _ _ _ _ _ _ H)|done].
Qed.

End loop.

(** ** The end of a transaction *)

Section ends.
Context (rt : Z -> Prop) (ids : bool) (mark : option (StateDB * Z)) (r r' : Reader).

Lemma wf_dirty m r0 s a : wf m r0 s -> is_Some (dirties (jrn s) !! a) -> exists o, loaded r0 s a o.
Proof.
  intros Hw Ha. destruct (wfJ_loaded keccak r0 (entries (jrn s)) s a) as (o & Ho & _); [apply Hw| |by exists o].
  intros He. rewrite (wj_dirties _ _ _ _ (wf_journal _ _ _ _ Hw)), He in Ha. by destruct Ha.
Qed.

Theorem Finalise_sim keep keep' de s s' :
  keepsObject r keep -> keepsObject r' keep' -> together rt ids mark r r' s s' ->
  outRel (fun t t' _ _ => together rt true None r r' t t')
    ((s ← getS; _ ← finaliseLoop keccak keep de (elements (dom (dirties (jrn s)))); clearJournalAndRefund) s)
    ((s ← getS; _ ← finaliseLoop keccak keep' de (elements (dom (dirties (jrn s)))); clearJournalAndRefund) s').
Proof.
  intros Hk Hk' [H Hw Hw']. rewrite !(bind_eq getS _ _ _ _ eq_refl), <- (sr_dirties _ _ _ _ _ _ _ H).
  eapply (outRel_bind (fun t t' _ _ => halfway rt r r' [] t t')); [|intros t t' _ _ Ht; by apply cleared_together].
  apply finaliseLoop_sim; [done..|apply NoDup_elements|]. split.
  - by destruct H; split.
  - intros a Ha. apply (wf_dirty mark r s a Hw). by apply elem_of_elements, elem_of_dom in Ha.
  - intros a Ha. apply (wf_dirty None r' s' a Hw'). rewrite <- (sr_dirties _ _ _ _ _ _ _ H). by apply elem_of_elements, elem_of_dom in Ha.
  - intros a Ha. left. by apply elem_of_elements, elem_of_dom.
  - by eapply accWf_ok, wf_access.
Qed.

End ends.

End final.

End StateFinal.
