(* ===== verification/StateProps.v ===== *)
(** * What the state of a block guarantees

    Going back to a snapshot restores what could be seen when it was taken; executing on
    the parent's changes laid over an older state is executing on the parent's state; the
    two ways of ending a transaction cannot be told apart.  The simulations these rest on
    are in the files from [StateRel] on. *)

From S2P Require Import Prelude Bytes MvStore ParallelState StateDB SerialRun StateRel StateUndo StateUnits StateOps StateSim StateRevert StateFinal.
Import MvStore.

Module StateProps.

Import StateDB StateRel StateUndo StateUnits StateOps StateSim StateRevert StateFinal.

(** What is seen of a computation: its result or its panic. *)
Definition seen {A} (x : outcome StateDB Empty_set A) : A + string :=
  match x with Done _ a => inl a | Fail _ e => match e with end | Panicked w => inr w end.

Lemma outRel_seen {A} (Q : StateDB -> StateDB -> A -> A -> Prop) x y :
  outRel Q x y -> (forall t t' a b, Q t t' a b -> a = b) -> seen x = seen y.
Proof. intros H HQ. destruct x as [| [] |], y as [| [] |]; cbn in *; try done; [by rewrite (HQ _ _ _ _ H)|by rewrite H]. Qed.

(** ** Transactions and blocks on related states *)

Section blocks.
Context (keccak : list Z -> Z) (logBody : SerialRun.settleLog -> Z) (borLogs isLondon : bool).

#[local] Abbreviation applyTransaction r := (SerialRun.applyTransaction keccak r logBody borLogs isLondon).
#[local] Abbreviation process r := (SerialRun.process keccak r logBody borLogs isLondon).

(** The state a message starts on. *)
Definition enter (r : Reader) (coinbase hash idx : Z) : run Z := _ ← modify (SetTxContext hash idx); GetBalance keccak r coinbase.

(** What a transaction must keep to: its message fits, and neither the coinbase nor the
    account of the burnt fees is the contract of [ripemd]. *)
Definition fitsTx (rt : Z -> Prop) (r : Reader) (coinbase hash idx : Z) (p : ParallelState.prog) (s : StateDB) : Prop :=
  coinbase <> ripemd /\
  match enter r coinbase hash idx s with
  | Done t _ =>
      fitsRun keccak rt true None r t p /\
      match SerialRun.runProg keccak r p t with
      | Done _ (Some res) => ParallelState.BurntContractAddress res <> ripemd
      | _ => True
      end
  | _ => True
  end.

Fixpoint fitsBlock (rt : Z -> Prop) (r : Reader) (coinbase idx : Z) (txs : list (Z * Z * ParallelState.prog)) (s : StateDB) : Prop :=
  match txs with
  | [] => True
  | (hash, sender, p) :: rest =>
      fitsTx rt r coinbase hash idx p s /\
      match applyTransaction r coinbase hash idx sender p s with
      | Done t (Some _) => fitsBlock rt r coinbase (idx + 1) rest t
      | _ => True
      end
  end.

Section two.
Context (rt : Z -> Prop) (r r' : Reader) (Hsize : sizesFit r) (Hsize' : sizesFit r').

#[local] Abbreviation together := (together keccak rt true None r r').
#[local] Abbreviation sim := (sim keccak rt true None r r').
#[local] Abbreviation post := (fun t t' x x' => x = x' /\ together t t') (only parsing).

Lemma pair_SetTxContext h i : sim (modify (SetTxContext h i)) (modify (SetTxContext h i)).
Proof.
  intros s s' [H Hw Hw']. cbn. split; [done|].
  assert (Hwf : forall r0 s0, wf keccak None r0 s0 -> wf keccak None r0 (SetTxContext h i s0))
    by (intros r0 s0 [Hj Ha Hr _]; split; [by apply (wfJ_same keccak r0 _ s0)|done..]).
  split; [|by apply Hwf|by apply Hwf].
  eapply (stRel_slots keccak rt true r s _ r' s' _); [done|done|apply H|done|..]; try done; apply H.
Qed.

Lemma pair_orPanic {A} w (x : option A) : sim (orPanic w x) (orPanic w x).
Proof. intros s s' H. by destruct x. Qed.

Lemma pair_fee s1 c a i1 i2 o1 o2 : sim (SerialRun.AddFeeTransferLog logBody s1 c a i1 i2 o1 o2) (SerialRun.AddFeeTransferLog logBody s1 c a i1 i2 o1 o2).
Proof. unfold SerialRun.AddFeeTransferLog. destruct (a <=? 0); [apply pair_ret|apply pair_AddLog]. Qed.

Lemma pair_credit a v : a <> ripemd -> sim (_ ← AddBalance keccak r a v; mret tt) (_ ← AddBalance keccak r' a v; mret tt).
Proof. intros Ha. apply pair_bind; [apply pair_AddBalance; naive_solver|intros x; apply pair_ret]. Qed.

Lemma Finalise_both s s' de :
  together s s' -> outRel post (Finalise keccak r de s) (Finalise keccak r' de s').
Proof.
  intros H. eapply outRel_weaken; [exact (Finalise_sim keccak rt true None r r' _ _ de s s' (finalise_keeps keccak r) (finalise_keeps keccak r') H)|].
  intros t t' [] [] Ht. by split.
Qed.

Lemma pair_enter coinbase hash idx : sim (enter r coinbase hash idx) (enter r' coinbase hash idx).
Proof. unfold enter. apply pair_bind; [apply pair_SetTxContext|intros _; by apply pair_GetBalance]. Qed.

(** The end of a transaction, from the result of its message on. *)
Definition leave (r0 : Reader) (coinbase sender pre : Z) (res : ParallelState.TxResult) : run (option ParallelState.TxResult) :=
  _ ← (match ParallelState.FeeBurnt res with
       | Some b => if isLondon then _ ← AddBalance keccak r0 (ParallelState.BurntContractAddress res) (SerialRun.BigIntToUint256Int b); mret tt
                   else mret tt
       | None => mret tt
       end);
  tip ← orPanic nilDeref (ParallelState.FeeTipped res);
  _ ← AddBalance keccak r0 coinbase (SerialRun.BigIntToUint256Int tip);
  init ← orPanic nilDeref (ParallelState.SenderInitBalance res);
  _ ← (if borLogs then SerialRun.AddFeeTransferLog logBody sender coinbase tip init pre (init - tip) (pre + tip) else mret tt);
  _ ← Finalise keccak r0 true;
  mret (Some res).

Lemma pair_leave coinbase sender pre res :
  coinbase <> ripemd -> ParallelState.BurntContractAddress res <> ripemd ->
  sim (leave r coinbase sender pre res) (leave r' coinbase sender pre res).
Proof.
  intros Hc Hb. unfold leave. apply pair_bind.
  { destruct (ParallelState.FeeBurnt res); [destruct isLondon; [by apply pair_credit|apply pair_ret]|apply pair_ret]. }
  intros _. apply pair_bind; [apply pair_orPanic|intros tip]. apply pair_bind; [apply pair_AddBalance; naive_solver|intros _].
  apply pair_bind; [apply pair_orPanic|intros init]. apply pair_bind; [destruct borLogs; [apply pair_fee|apply pair_ret]|intros _].
  apply pair_bind; [|intros x; apply pair_ret]. intros s s' H. by apply Finalise_both.
Qed.

Lemma applyTransaction_eq r0 coinbase hash idx sender p s :
  applyTransaction r0 coinbase hash idx sender p s =
  (pre ← enter r0 coinbase hash idx; res ← SerialRun.runProg keccak r0 p;
   match res with None => mret None | Some res => leave r0 coinbase sender pre res end) s.
Proof. reflexivity. Qed.

Lemma applyTransaction_sim coinbase hash idx sender p s s' :
  together s s' -> fitsTx rt r coinbase hash idx p s ->
  outRel post (applyTransaction r coinbase hash idx sender p s) (applyTransaction r' coinbase hash idx sender p s').
Proof.
  intros H [Hc Hf]. rewrite !applyTransaction_eq.
  pose proof (pair_enter coinbase hash idx s s' H) as He.
  destruct (enter r coinbase hash idx s) as [t pre| |] eqn:E, (enter r' coinbase hash idx s') as [t' pre'| |] eqn:E'; cbn in He; try done.
  2: by unfold mbind, st_bind; rewrite E, E'; cbn.
  rewrite (bind_eq _ _ s t pre E), (bind_eq _ _ s' t' pre' E').
  destruct He as [<- Ht], Hf as [Hp Hb]. pose proof (runProg_sim keccak rt true None r r' Hsize Hsize' p t t' Ht Hp) as Hr.
  unfold mbind, st_bind. destruct (SerialRun.runProg keccak r p t) as [u res| |], (SerialRun.runProg keccak r' p t') as [u' res'| |]; cbn in Hr; try done.
  destruct Hr as [<- Hu]. destruct res as [res|]; [|by cbn].
  by apply (pair_leave coinbase sender pre res Hc Hb u u').
Qed.

Theorem process_sim txs coinbase idx s s' :
  together s s' -> fitsBlock rt r coinbase idx txs s ->
  outRel post (process r coinbase idx txs s) (process r' coinbase idx txs s').
Proof.
  revert idx s s'. induction txs as [|[[hash sender] p] txs IH]; intros idx s s' H Hf; [by split|].
  destruct Hf as [Hp Hf]. cbn [SerialRun.process]. pose proof (applyTransaction_sim coinbase hash idx sender p s s' H Hp) as Ha.
  unfold mbind, st_bind in IH |- *.
  destruct (applyTransaction r coinbase hash idx sender p s) as [t res| |], (applyTransaction r' coinbase hash idx sender p s') as [t' res'| |]; cbn in Ha; try done.
  destruct Ha as [<- Ht]. destruct res as [res|]; [|by split]. specialize (IH _ t t' Ht Hf).
  destruct (process r coinbase (idx + 1) txs t) as [u rs| |], (process r' coinbase (idx + 1) txs t') as [u' rs'| |]; cbn in IH; try done.
  by destruct IH as [<- Hu].
Qed.

End two.

End blocks.

(** ** Going back to a snapshot *)

Section revert.
Context (keccak : list Z -> Z) (r : Reader) (Hsize : sizesFit r).

Lemma wf_unmarked mark s : wf keccak mark r s -> wf keccak None r s.
Proof. intros [? ? ? _]. by split. Qed.

(** Just after a snapshot there is nothing to undo. *)
Lemma Snapshot_marked s s1 id : wf keccak None r s -> Snapshot s = Done s1 id -> wf keccak (Some (s, id)) r s1.
Proof.
  intros Hw H. change (Done (E := Empty_set) (revise s) (nextRevisionId (jrn s)) = Done s1 id) in H. injection H as <- <-.
  destruct (revise_wf keccak None r s Hw) as [Hj Ha Hr _]. split; [exact Hj|exact Ha|exact Hr|].
  cbn. split; [lia|]. intros n Hn. apply elem_of_app in Hn as [Hn|Hn].
  - destruct (rv_bound _ (wf_revs _ _ _ _ Hw) _ Hn) as [Hlt _]. cbn in Hlt. lia.
  - apply list_elem_of_singleton in Hn as [= ->]. split; [done|]. exists [], (revise s). rewrite app_nil_r. split_and!; [done|done| |exact Hj].
    by apply stRel_set_jrn.
Qed.

(** The search finds the revision. *)
Lemma revision_found j id n :
  revsOK j -> (id, n) ∈ validRevisions j ->
  validRevisions j !! sortSearch (length (validRevisions j))
    (fun i => match validRevisions j !! i with Some p => id <=? p.1 | None => true end) = Some (id, n).
Proof.
  intros [Hs _] Hin. apply list_elem_of_lookup in Hin as [i Hi].
  set (f := fun i => match validRevisions j !! i with Some p => id <=? p.1 | None => true end).
  assert (Hlow : forall i' p, (i' < i)%nat -> validRevisions j !! i' = Some p -> f i' = false).
  { intros i' p Hlt Hp. unfold f. rewrite Hp. destruct (Hs i' i p (id, n) Hlt Hp Hi) as [Hx _]. cbn in Hx. lia. }
  assert (Hhigh : forall i', (i <= i')%nat -> f i' = true).
  { intros i' Hle. unfold f. destruct (validRevisions j !! i') as [p|] eqn:Hp; [|done]. destruct (decide (i = i')) as [<-|Hne].
    - rewrite Hi in Hp. injection Hp as <-. cbn. lia.
    - destruct (Hs i i' (id, n) p ltac:(lia) Hi Hp) as [Hx _]. cbn in Hx. lia. }
  assert (Hlen := lookup_lt_Some _ _ _ Hi).
  destruct (sortSearch_spec (length (validRevisions j)) f) as (Hle & Hbefore & Hat).
  { intros a b Hab Ha. destruct (decide (i <= a)%nat) as [|Hia]; [|exfalso]; [apply Hhigh; lia|].
    destruct (lookup_lt_is_Some_2 (validRevisions j) a) as [p Hp]; [lia|]. by rewrite (Hlow a p) in Ha by (done || lia). }
  set (x := sortSearch (length (validRevisions j)) f) in *.
  assert (Hx : x = i); [|by rewrite Hx].
  destruct (Nat.lt_trichotomy x i) as [Hlt|[|Hgt]]; [exfalso|done|exfalso].
  - destruct (lookup_lt_is_Some_2 (validRevisions j) x) as [p Hp]; [lia|]. rewrite (Hlow x p Hlt Hp) in Hat.
    discriminate Hat. lia.
  - specialize (Hbefore i Hgt). by rewrite Hhigh in Hbefore by lia.
Qed.

Lemma revert_back s s2 id n :
  wf keccak None r s -> wf keccak (Some (s, id)) r s2 -> (id, n) ∈ validRevisions (jrn s2) ->
  exists s3, RevertToSnapshot keccak r id s2 = Done s3 tt /\ together keccak everywhere false None r r s s3.
Proof.
  intros Hw Hw2 Hin. pose proof (wf_undo _ _ _ _ Hw2) as [_ Hu]. destruct (Hu n Hin) as (Hn & es & u & He & Hr & Hs & Hwu).
  pose proof (revision_found _ _ _ (wf_revs _ _ _ _ Hw2) Hin) as Hi.
  set (idx := sortSearch _ _) in Hi. exists (backTo n idx u).
  assert (Hdrop : drop n (entries (jrn s2)) = es) by (by rewrite He, Hn, drop_app_length).
  assert (Htake : take n (entries (jrn s2)) = entries (jrn s)) by (by rewrite He, Hn, take_app_length).
  split.
  - unfold RevertToSnapshot. rewrite (bind_eq getS _ _ s2 s2 eq_refl). cbv zeta. fold idx. rewrite Hi, Z.eqb_refl. cbn [negb].
    unfold journalRevert. unfold mbind, st_bind, getS. rewrite Hdrop, Hr. done.
  - split; [|done|].
    + eapply stRel_trans; [exact Hs|]. by apply stRel_set_jrn.
    + eapply backTo_wf; [by eapply wf_unmarked|exact Hi|by rewrite Hdrop|by rewrite Htake].
Qed.

End revert.

(** ** A fresh state *)

Lemma wf_new keccak r d : wf keccak None r (NewWithFlatBase d).
Proof.
  assert (Hj : jrn (NewWithFlatBase d) = newJournal) by by destruct d.
  assert (Ha : sdAccess (NewWithFlatBase d) = ParallelState.newAccessList) by by destruct d.
  split; rewrite ?Hj, ?Ha; [split|..|done].
  - intros a. rewrite Hj. cbn. by rewrite lookup_empty.
  - done.
  - split; [|done]. apply newAccessList_ok.
  - split; [by intros i i' p p' _ Hp|by intros p Hp%elem_of_nil].
Qed.

(** [r'] reads what [r] reads with the changes [d] applied; a changed account may have
    another storage root. *)
Record applied (keccak : list Z -> Z) (r : Reader) (d : FlatDiff) (r' : Reader) : Prop := mkApplied {
  ap_account : forall a,
    match accountOverlay (Some d) a with
    | Some (Some acct) => exists root, rdAccount r' a = (Some (mkAccount (Nonce acct) (Balance acct) root (CodeHash acct)), false)
    | Some None => rdAccount r' a = (None, false)
    | None => rdAccount r' a = rdAccount r a
    end;
  ap_storage : forall a k, rdStorage r' a k = match storageOverlay (Some d) a k with Some v => (v, false) | None => rdStorage r a k end;
  ap_code : forall a acct, (rdAccount r' a).1 = Some acct -> CodeHash acct <> EmptyCodeHash keccak ->
    (rdCode r' a (CodeHash acct)).1 =
    match accountOverlay (Some d) a, default [] (Code d !! CodeHash acct) with
    | Some _, c :: cs => c :: cs
    | _, _ => (rdCode r a (CodeHash acct)).1
    end;
  ap_empty : default [] (Code d !! EmptyCodeHash keccak) = []
}.

(** The accounts whose recorded storage root is the one [r'] reads: all the changes leave
    alone, and of the changed ones those whose root is recorded as it came out. *)
Definition recordedRoot (d : FlatDiff) (r' : Reader) (a : Z) : Prop :=
  match accountOverlay (Some d) a, (rdAccount r' a).1 with
  | Some (Some acct), Some acct' => Root acct' = Root acct
  | _, _ => True
  end.

Section fresh.
Context (keccak : list Z -> Z) (r r' : Reader) (d : FlatDiff) (Happ : applied keccak r d r').

#[local] Abbreviation rt := (recordedRoot d r').

Lemma applied_committed a o o' k :
  pendingStorage o = ∅ -> pendingStorage o' = ∅ -> originStorage o = ∅ -> originStorage o' = ∅ ->
  committedOf r' NewStateDB a o k = committedOf r (NewWithFlatBase (Some d)) a o' k.
Proof.
  intros E1 E2 E3 E4. unfold committedOf, baseOf. rewrite E1, E2, E3, E4. cbn [currentBlockDestructs flatDiffRef stateObjectsDestruct NewStateDB NewWithFlatBase SetFlatDiffRef].
  rewrite !lookup_empty, !(bool_decide_false (a ∈ ∅)) by set_solver. cbn [storageOverlay].
  rewrite (ap_storage _ _ _ _ Happ). rewrite (bool_decide_false (is_Some _)) by (by intros []). cbn [storageOverlay].
  by destruct (match Storage d !! a ≫= _ with Some _ => _ | None => _ end).
Qed.

Lemma applied_base a k : baseOf r' NewStateDB a k = baseOf r (NewWithFlatBase (Some d)) a k.
Proof.
  unfold baseOf. cbn [currentBlockDestructs flatDiffRef stateObjectsDestruct NewStateDB NewWithFlatBase SetFlatDiffRef].
  rewrite !lookup_empty, !(bool_decide_false (a ∈ ∅)) by set_solver. cbn [storageOverlay].
  rewrite (ap_storage _ _ _ _ Happ). rewrite (bool_decide_false (is_Some _)) by (by intros []). cbn [storageOverlay].
  by destruct (match Storage d !! a ≫= _ with Some _ => _ | None => _ end).
Qed.

Lemma objRel_fresh a o o' :
  pendingStorage o = ∅ -> pendingStorage o' = ∅ -> originStorage o = ∅ -> originStorage o' = ∅ -> dirtyStorage o = ∅ -> dirtyStorage o' = ∅ ->
  Nonce (data o) = Nonce (data o') -> Balance (data o) = Balance (data o') -> CodeHash (data o) = CodeHash (data o') ->
  (rt a -> Root (data o) = Root (data o')) ->
  code o = [] -> codeOf keccak r' a o = codeOf keccak r a o' -> selfDestructed o = selfDestructed o' -> newContract o = newContract o' ->
  objRel keccak rt r' NewStateDB r (NewWithFlatBase (Some d)) a o o'.
Proof.
  intros P P' O O' D D'. intros. split; try done; [by left| |]; intros k; [unfold valueOf; rewrite D, D', !lookup_empty|]; by apply applied_committed.
Qed.

Lemma applied_code a acct c :
  (rdAccount r' a).1 = Some acct -> c = match accountOverlay (Some d) a with Some _ => default [] (Code d !! CodeHash acct) | None => [] end ->
  (if CodeHash acct =? EmptyCodeHash keccak then [] else (rdCode r' a (CodeHash acct)).1) =
  (if negb (bool_decide (c = [])) then c else if CodeHash acct =? EmptyCodeHash keccak then [] else (rdCode r a (CodeHash acct)).1).
Proof.
  intros Hr ->. destruct (CodeHash acct =? EmptyCodeHash keccak) eqn:E.
  - apply Z.eqb_eq in E. rewrite E, (ap_empty _ _ _ _ Happ). by destruct (accountOverlay _ _).
  - apply Z.eqb_neq in E. rewrite (ap_code _ _ _ _ Happ a acct Hr E). destruct (accountOverlay (Some d) a); [|done].
    by destruct (default [] (Code d !! CodeHash acct)).
Qed.

Lemma peek_fresh r0 d0 a :
  peek keccak r0 (NewWithFlatBase d0) a =
  match accountOverlay d0 a with
  | Some (Some acct) => Some (flatObject (NewWithFlatBase d0) acct)
  | Some None => None
  | None => match rdAccount r0 a with (Some acct, false) => Some (newObject keccak (Some acct)) | _ => None end
  end.
Proof.
  assert (H1 : stateObjects (NewWithFlatBase d0) = ∅) by by destruct d0.
  assert (H2 : dirties (jrn (NewWithFlatBase d0)) = ∅) by by destruct d0.
  assert (H3 : mutations (NewWithFlatBase d0) = ∅) by by destruct d0.
  assert (H4 : stateObjectsDestruct (NewWithFlatBase d0) = ∅) by by destruct d0.
  assert (H5 : flatDiffRef (NewWithFlatBase d0) = d0) by by destruct d0.
  unfold peek, look, covered, hasAccountMutation, lookAt. rewrite H1, H2, H3, H4, H5, !lookup_empty.
  rewrite !bool_decide_false by (by intros []). done.
Qed.

Lemma peek_applied a :
  optRel (objRel keccak rt r' NewStateDB r (NewWithFlatBase (Some d)) a) (peek keccak r' NewStateDB a) (peek keccak r (NewWithFlatBase (Some d)) a).
Proof.
  change NewStateDB with (NewWithFlatBase None) at 2. rewrite !peek_fresh. cbn [accountOverlay].
  pose proof (ap_account _ _ _ _ Happ a) as Ha. pose proof (applied_code a) as Hc. cbn [accountOverlay] in Ha, Hc.
  assert (Hrt : forall acct acct', accountOverlay (Some d) a = Some (Some acct) -> (rdAccount r' a).1 = Some acct' ->
    rt a -> Root acct' = Root acct) by (unfold recordedRoot; by intros ? ? -> ->).
  cbn [accountOverlay] in Hrt.
  destruct (match Accounts d !! a with Some _ => _ | None => _ end) as [[acct|]|]; [|by rewrite Ha|].
  - destruct Ha as [root Ha]. rewrite Ha in Hc. rewrite Ha. apply objRel_fresh; try done; [intros Hroot; eapply Hrt; [done|by rewrite Ha|done]|].
    apply (Hc _ (default [] (Code d !! CodeHash acct)) eq_refl eq_refl).
  - rewrite <- Ha. destruct (rdAccount r' a) as [[acct|] []]; try done. apply objRel_fresh; try done.
    unfold codeOf. cbn. by apply (Hc acct []).
Qed.

Lemma together_applied : together keccak rt true None r' r NewStateDB (NewWithFlatBase (Some d)).
Proof. split; [|apply (wf_new keccak r' None)|apply wf_new]. split; try done; [apply peek_applied|apply applied_base]. Qed.

End fresh.

(** ** A small chain the properties apply to *)

Definition hash1 (l : list Z) : Z := fold_left (fun h b => h * 31 + b + 1) l 17.

(** Account 1 has a hundred, account 2 fifty and a slot. *)
Definition older : Reader :=
  mkReader
    (fun a => (if a =? 1 then Some (mkAccount 0 100 EmptyRootHash (hash1 []))
               else if a =? 2 then Some (mkAccount 1 50 EmptyRootHash (hash1 [])) else None, false))
    (fun a k => (if (a =? 2) && (k =? 5) then 9 else 0, false))
    (fun _ _ => ([], false)) (fun _ _ => (0, false)).

(** A block pays, sets code and a slot of account 1 and destructs account 2. *)
Definition changes : FlatDiff :=
  mkFlatDiff {[1 := mkAccount 1 70 EmptyRootHash (hash1 [6; 7])]} {[1 := {[4 := 8]}]} {[2]} {[hash1 [6; 7] := [6; 7]]}.

Definition newer : Reader :=
  mkReader
    (fun a => (if a =? 1 then Some (mkAccount 1 70 77 (hash1 [6; 7])) else None, false))
    (fun a k => (if (a =? 1) && (k =? 4) then 8 else 0, false))
    (fun a h => (if h =? hash1 [6; 7] then [6; 7] else [], false))
    (fun a h => (if h =? hash1 [6; 7] then 2 else 0, false)).

Lemma older_fits : sizesFit older.
Proof. done. Qed.

Lemma newer_fits : sizesFit newer.
Proof. intros a h. cbn. by destruct (h =? _). Qed.

Lemma newer_applied : applied hash1 older changes newer.
Proof.
  assert (Hacc : forall a, accountOverlay (Some changes) a =
    if a =? 1 then Some (Some (mkAccount 1 70 EmptyRootHash (hash1 [6; 7]))) else if a =? 2 then Some None else None).
  { intros a. unfold accountOverlay. cbn [Accounts Destructs changes]. destruct (Z.eqb_spec a 1) as [->|H1]; [done|].
    rewrite lookup_singleton_ne by done. destruct (Z.eqb_spec a 2) as [->|H2]; [by rewrite bool_decide_true by set_solver|].
    by rewrite bool_decide_false by set_solver. }
  split.
  - intros a. rewrite Hacc. cbn. destruct (a =? 1); [by exists 77|]. by destruct (a =? 2).
  - intros a k. unfold storageOverlay. cbn [Storage Destructs changes rdStorage newer older]. destruct (Z.eqb_spec a 1) as [->|H1].
    + rewrite lookup_singleton_eq. cbn [mbind option_bind andb]. destruct (Z.eqb_spec k 4) as [->|Hk]; [by rewrite lookup_singleton_eq|].
      rewrite lookup_singleton_ne by done. by rewrite bool_decide_false by set_solver.
    + rewrite lookup_singleton_ne by done. cbn [mbind option_bind andb]. destruct (Z.eqb_spec a 2) as [->|H2]; [by rewrite bool_decide_true by set_solver|].
      by rewrite bool_decide_false by set_solver.
  - intros a acct. rewrite Hacc. cbn. destruct (a =? 1); [by intros [= <-]|done].
  - done.
Qed.

Definition done1 : ParallelState.TxResult := ParallelState.mkTxResult 21000 false (Some 3) (Some 2) 8 (Some 100).

#[local] Notation "'act' o ;; p" := (ParallelState.pDo o (fun _ => p)) (at level 90, o at level 89, right associativity).

(** Pays, writes, takes a snapshot of its own, creates a contract and goes back. *)
Definition spends : ParallelState.prog :=
  act ParallelState.oSubBalance 1 30;; act ParallelState.oAddBalance 9 30;; act ParallelState.oSetState 1 4 6;;
  ParallelState.pDo ParallelState.oSnapshot (fun a =>
    act ParallelState.oGetStorageRoot 7;; act ParallelState.oCreateAccount 7;; act ParallelState.oSetCode 7 [5];;
    act ParallelState.oRevertToSnapshot (match a with ParallelState.aNum n => n | _ => 0 end);;
    act ParallelState.oSetNonce 1 5;; ParallelState.pDone done1).

(** Ends with the balance of 1 and the slot as its gas and its fee. *)
Definition looks : ParallelState.prog :=
  ParallelState.pDo (ParallelState.oGetBalance 1) (fun b => ParallelState.pDo (ParallelState.oGetState 1 4) (fun v =>
    match b, v with
    | ParallelState.aNum b, ParallelState.aNum v => ParallelState.pDone (ParallelState.mkTxResult b false None (Some v) 8 (Some b))
    | _, _ => ParallelState.pFail 1
    end)).

Definition block1 : list (Z * Z * ParallelState.prog) := [(101, 1, spends); (102, 2, looks)].

(** ** Properties *)

Section properties.
Context (keccak : list Z -> Z) (logBody : SerialRun.settleLog -> Z) (borLogs isLondon : bool).

#[local] Abbreviation process r := (SerialRun.process keccak r logBody borLogs isLondon).
#[local] Abbreviation runProg r := (SerialRun.runProg keccak r).
#[local] Abbreviation fitsBlock := (fitsBlock keccak logBody borLogs isLondon).

(** The rest of a transaction, and a block of further ones after it. *)
Definition onwards (r : Reader) (q : ParallelState.prog) (coinbase idx : Z) (txs : list (Z * Z * ParallelState.prog)) :
    run (option ParallelState.TxResult * option (list ParallelState.TxResult)) :=
  x ← runProg r q; _ ← Finalise keccak r true; rs ← process r coinbase idx txs; mret (x, rs).

(** The rest takes no snapshots: their numbers go on counting. *)
Definition fitsOnwards (r : Reader) (q : ParallelState.prog) (coinbase idx : Z) (txs : list (Z * Z * ParallelState.prog)) (s : StateDB) : Prop :=
  fitsRun keccak everywhere false None r s q /\
  match (_ ← runProg r q; Finalise keccak r true) s with Done t _ => fitsBlock everywhere r coinbase idx txs t | _ => True end.

(** A block, and a program on the state it leaves. *)
Definition blockThen (r : Reader) (coinbase idx : Z) (txs : list (Z * Z * ParallelState.prog)) (q : ParallelState.prog) :
    run (option (list ParallelState.TxResult) * option ParallelState.TxResult) :=
  rs ← process r coinbase idx txs; x ← runProg r q; mret (rs, x).

Definition fitsBlockThen (rt : Z -> Prop) (r : Reader) (coinbase idx : Z) (txs : list (Z * Z * ParallelState.prog)) (q : ParallelState.prog) (s : StateDB) : Prop :=
  fitsBlock rt r coinbase idx txs s /\
  match process r coinbase idx txs s with Done t _ => fitsRun keccak rt true None r t q | _ => True end.

Lemma blockThen_sim rt r r' coinbase idx txs q s s' :
  sizesFit r -> sizesFit r' -> together keccak rt true None r r' s s' -> fitsBlockThen rt r coinbase idx txs q s ->
  seen (blockThen r coinbase idx txs q s) = seen (blockThen r' coinbase idx txs q s').
Proof.
  intros Hs Hs' H [Hf Hq]. pose proof (process_sim keccak logBody borLogs isLondon rt r r' Hs Hs' txs coinbase idx s s' H Hf) as Hp.
  unfold blockThen, mbind, st_bind.
  destruct (process r coinbase idx txs s) as [t rs| |], (process r' coinbase idx txs s') as [t' rs'| |]; cbn in Hp; try done; [|by cbn; rewrite Hp].
  destruct Hp as [<- Ht]. pose proof (runProg_sim keccak rt true None r r' Hs Hs' q t t' Ht Hq) as Hr.
  destruct (runProg r q t) as [u x| |], (runProg r' q t') as [u' x'| |]; cbn in Hr; try done; [|by cbn; rewrite Hr].
  by destruct Hr as [<- Hu].
Qed.

(** C10: Going back to a snapshot undoes everything since: on a well-formed state [s], after
    a snapshot [id] and any program [p] that fits and has left the revision valid, reverting
    to [id] succeeds, and any rest of the transaction that fits, its end and any fitting
    block of further transactions give the same results or the same panic from there as from
    [s] itself.  To fit ([fitsRun], judged on the states the program goes through) is to
    create accounts where there are none, to set code where the old code has been read or is
    empty (otherwise it is lost, [SetCode_unread_is_lost]), and not to add nothing to the
    account of RIPEMD while it is empty (it stays dirty).  Neither [p] nor the rest
    prepares the access list, which is done before, and the rest takes no snapshots of its
    own, whose numbers go on counting; in the further block the access list is prepared before it is used and RIPEMD is neither
    coinbase nor burn address. *)
Theorem RevertToSnapshot_restores (r : Reader) (s s1 s2 : StateDB) (id : Z) (p : ParallelState.prog) (x : option ParallelState.TxResult) :
  sizesFit r -> wf keccak None r s -> Snapshot s = Done s1 id ->
  fitsRun keccak everywhere true (Some (s, id)) r s1 p -> runProg r p s1 = Done s2 x ->
  (exists n, (id, n) ∈ validRevisions (jrn s2)) ->
  exists s3, RevertToSnapshot keccak r id s2 = Done s3 tt /\
    forall q coinbase idx txs, fitsOnwards r q coinbase idx txs s ->
      seen (onwards r q coinbase idx txs s3) = seen (onwards r q coinbase idx txs s).
Proof.
  intros Hsize Hw Hsnap Hfit Hrun [n Hin].
  pose proof (Snapshot_marked keccak r s s1 id Hw Hsnap) as Hw1.
  assert (Hdiag : together keccak everywhere true (Some (s, id)) r r s1 s1) by (split; [apply stRel_refl|done|by eapply wf_unmarked]).
  pose proof (runProg_sim keccak everywhere true (Some (s, id)) r r Hsize Hsize p s1 s1 Hdiag Hfit) as Ho. rewrite Hrun in Ho. destruct Ho as [_ [_ Hw2 _]].
  destruct (revert_back keccak r s s2 id n Hw Hw2 Hin) as (s3 & H3 & Ht). exists s3. split; [done|].
  intros q coinbase idx txs [Hq Hb]. symmetry. unfold onwards.
  pose proof (runProg_sim keccak everywhere false None r r Hsize Hsize q s s3 Ht Hq) as Hr. unfold mbind, st_bind in Hb |- *.
  destruct (runProg r q s) as [t y| |], (runProg r q s3) as [t' y'| |]; cbn in Hr; try done; [|by cbn; rewrite Hr].
  destruct Hr as [<- Ht3].
  pose proof (Finalise_sim keccak everywhere false None r r _ _ true t t' (finalise_keeps keccak r) (finalise_keeps keccak r) Ht3) as Hf.
  fold (Finalise keccak r true) in Hf. destruct (Finalise keccak r true t) as [u []| |], (Finalise keccak r true t') as [u' []| |]; cbn in Hf; try done; [|by cbn; rewrite Hf].
  pose proof (process_sim keccak logBody borLogs isLondon everywhere r r Hsize Hsize txs coinbase idx u u' Hf Hb) as Hp.
  destruct (process r coinbase idx txs u) as [v rs| |], (process r coinbase idx txs u') as [v' rs'| |]; cbn in Hp; try done; [|by cbn; rewrite Hp].
  by destruct Hp as [<- _].
Qed.

(** C11: Executing a block on the changes of its parent laid over an older state is executing
    it on the parent's state: where [r'] reads what [r] reads with [d] applied, every block
    gives the same results or the same panic on [NewWithFlatBase d] over [r] as on a new
    state over [r'], and so does any program on the states they leave, as long as their
    operations fit ([fitsBlockThen]): they ask for the storage root only of accounts that
    are absent, that the parent left alone or whose root it recorded as it came out (so
    contracts may be created, [evm.create] asks for the root of the new address); accounts
    are created where there are none, code is set where the old code is known, the access
    list is prepared before it is used; and RIPEMD is no coinbase or burn address and is
    not touched with nothing while it is empty. *)
Theorem flat_base_executes (r r' : Reader) (d : FlatDiff) (coinbase : Z) (txs : list (Z * Z * ParallelState.prog)) (q : ParallelState.prog) :
  sizesFit r -> sizesFit r' -> applied keccak r d r' -> fitsBlockThen (recordedRoot d r') r' coinbase 0 txs q NewStateDB ->
  seen (blockThen r coinbase 0 txs q (NewWithFlatBase (Some d))) = seen (blockThen r' coinbase 0 txs q NewStateDB).
Proof. intros Hs Hs' Ha Hf. symmetry. apply (blockThen_sim (recordedRoot d r')); try done. by apply together_applied. Qed.

(** C12: Ending a transaction with [FinaliseFast] is ending it with [Finalise]: from a
    well-formed state both succeed, and what any further block and any program after it give
    is the same, as long as these fit ([fitsBlockThen]): they create accounts where there
    are none, set code where the old code is known, prepare the access list before they use
    it, and do not add nothing to the account of RIPEMD while it is empty, which is neither
    coinbase nor burn address. *)
Theorem FinaliseFast_as_Finalise (r : Reader) (s t : StateDB) (de : bool) (coinbase idx : Z) (txs : list (Z * Z * ParallelState.prog)) (q : ParallelState.prog) :
  sizesFit r -> wf keccak None r s -> Finalise keccak r de s = Done t tt -> fitsBlockThen everywhere r coinbase idx txs q t ->
  exists t', FinaliseFast keccak r de s = Done t' tt /\
    seen (blockThen r coinbase idx txs q t') = seen (blockThen r coinbase idx txs q t).
Proof.
  intros Hs Hw Ht Hf.
  pose proof (Finalise_sim keccak everywhere true None r r _ _ de s s (finalise_keeps keccak r) (finalisePromote_keeps keccak r)
    (mkTogether _ _ _ _ _ _ _ _ (stRel_refl keccak everywhere true r s) Hw Hw)) as Ho.
  fold (Finalise keccak r de) in Ho. rewrite Ht in Ho. fold (FinaliseFast keccak r de) in Ho.
  destruct (FinaliseFast keccak r de s) as [t' []| |]; cbn in Ho; try done. exists t'. split; [done|]. symmetry. by apply (blockThen_sim everywhere).
Qed.

(** At every moment of a block the state is well formed: the journal counts the entries
    of each dirty account, every account with entries is loaded or created in the
    transaction, the access list can be taken back entry by entry and the revisions are
    ordered and within the journal. *)
Theorem state_wellformed (r : Reader) (d : option FlatDiff) (coinbase hash idx : Z) (txs : list (Z * Z * ParallelState.prog)) (p : ParallelState.prog)
    (t u v : StateDB) (rs : option (list ParallelState.TxResult)) (bal : Z) (x : option ParallelState.TxResult) :
  sizesFit r -> fitsBlock everywhere r coinbase 0 txs (NewWithFlatBase d) -> process r coinbase 0 txs (NewWithFlatBase d) = Done t rs ->
  enter keccak r coinbase hash idx t = Done u bal -> fitsRun keccak everywhere true None r u p -> runProg r p u = Done v x ->
  wf keccak None r v.
Proof.
  intros Hs Hf Ht Hu Hp Hv. pose proof (wf_new keccak r d) as Hw.
  pose proof (process_sim keccak logBody borLogs isLondon everywhere r r Hs Hs txs coinbase 0 _ _
    (mkTogether _ _ _ _ _ _ _ _ (stRel_refl keccak everywhere true r _) Hw Hw) Hf) as Ho. rewrite Ht in Ho. destruct Ho as [_ Ho].
  pose proof (pair_enter keccak everywhere r r coinbase hash idx t t Ho) as He. rewrite Hu in He. destruct He as [_ He].
  pose proof (runProg_sim keccak everywhere true None r r Hs Hs p u u He Hp) as Hr. rewrite Hv in Hr. apply Hr.
Qed.

End properties.

(** ** The properties on the small chain *)

Lemma fitsRun_do keccak rt ids mark r s t o k a :
  permitted ids mark o -> fits keccak rt r s o -> SerialRun.perform keccak r o s = Done t a -> fitsRun keccak rt ids mark r t (k a) ->
  fitsRun keccak rt ids mark r s (ParallelState.pDo o k).
Proof. intros Hp Hf E Hk. cbn [fitsRun]. by rewrite E. Qed.

Lemma fitsTx_run keccak rt r coinbase hash idx p s t bal :
  coinbase <> ripemd -> enter keccak r coinbase hash idx s = Done t bal -> fitsRun keccak rt true None r t p ->
  match SerialRun.runProg keccak r p t with Done _ (Some res) => bool_decide (ParallelState.BurntContractAddress res <> ripemd) | _ => true end ->
  fitsTx keccak rt r coinbase hash idx p s.
Proof.
  intros Hc E Hp Hb. split; [done|]. rewrite E. split; [done|]. destruct (SerialRun.runProg keccak r p t) as [u [res|]| |]; try done.
  by apply bool_decide_unpack in Hb.
Qed.

Lemma fitsBlock_cons keccak logBody borLogs isLondon rt r coinbase idx hash sender p rest s t res :
  fitsTx keccak rt r coinbase hash idx p s ->
  SerialRun.applyTransaction keccak r logBody borLogs isLondon coinbase hash idx sender p s = Done t (Some res) ->
  fitsBlock keccak logBody borLogs isLondon rt r coinbase (idx + 1) rest t ->
  fitsBlock keccak logBody borLogs isLondon rt r coinbase idx ((hash, sender, p) :: rest) s.
Proof. intros Ht E Hr. cbn [fitsBlock]. by rewrite E. Qed.

#[local] Ltac value := vm_compute; reflexivity.
#[local] Ltac fitOp := cbn [fits]; first [exact I | by intros ? ? | left; exact I | left; vm_compute; exact I | right; value | intros ? H; vm_compute in H; injection H as <-; value | value].
#[local] Ltac fitRun := cbv [spends looks];
  repeat (match goal with
          | |- fitsRun _ _ _ _ _ _ (ParallelState.pDo _ _) => eapply fitsRun_do; [exact I || reflexivity|fitOp|value|cbn beta iota]
          | |- fitsRun _ _ _ _ _ _ _ => exact I
          end).
#[local] Ltac fitBlock := cbv [block1];
  repeat (match goal with
          | |- fitsBlock _ _ _ _ _ _ _ _ (_ :: _) _ => eapply fitsBlock_cons; [eapply fitsTx_run; [discriminate|value|fitRun|value]|value|]
          | |- fitsBlock _ _ _ _ _ _ _ _ _ _ => exact I
          end).
(** Where what is left to fit depends on the outcome of a run. *)
#[local] Ltac fitEnd := match goal with |- match ?m with _ => _ end => let v := eval vm_compute in m in replace m with v by (symmetry; value) end; cbn beta iota; fitRun; fitBlock.

Lemma RevertToSnapshot_restores_witness :
  exists s2 s3, SerialRun.runProg hash1 older spends (revise NewStateDB) = Done s2 (Some done1) /\
    RevertToSnapshot hash1 older 0 s2 = Done s3 tt /\
    seen (onwards hash1 (fun _ => 0) true true older looks 8 1 block1 s3) =
    seen (onwards hash1 (fun _ => 0) true true older looks 8 1 block1 NewStateDB).
Proof.
  destruct (SerialRun.runProg hash1 older spends (revise NewStateDB)) as [s2 x|? []|?] eqn:E; [|vm_compute in E; discriminate E].
  assert (Hx : x = Some done1) by (vm_compute in E; by injection E).
  assert (Hin : exists n, (0, n) ∈ validRevisions (jrn s2)) by (exists 0%nat; vm_compute in E; injection E as <- _; by left).
  destruct (RevertToSnapshot_restores hash1 (fun _ => 0) true true older NewStateDB (revise NewStateDB) s2 0 spends x older_fits
    (wf_new hash1 older None) eq_refl ltac:(fitRun) E Hin) as (s3 & H3 & Hall).
  exists s2, s3. rewrite Hx. split; [done|]. split; [done|]. apply Hall. split; [fitRun|]. fitEnd.
Defined.

Lemma flat_base_executes_witness :
  seen (blockThen hash1 (fun _ => 0) true true older 8 0 block1 looks (NewWithFlatBase (Some changes))) =
  seen (blockThen hash1 (fun _ => 0) true true newer 8 0 block1 looks NewStateDB) /\
  exists rs x, seen (blockThen hash1 (fun _ => 0) true true newer 8 0 block1 looks NewStateDB) = inl (Some rs, Some x).
Proof. split; [|eexists _, _; value]. apply (flat_base_executes hash1 (fun _ => 0) true true older newer changes 8 block1 looks older_fits newer_fits newer_applied). split; [fitBlock|]. fitEnd. Defined.

Lemma FinaliseFast_as_Finalise_witness :
  exists s t t', SerialRun.runProg hash1 older spends NewStateDB = Done s (Some done1) /\
    Finalise hash1 older true s = Done t tt /\ FinaliseFast hash1 older true s = Done t' tt /\
    seen (blockThen hash1 (fun _ => 0) true true older 8 0 block1 looks t') = seen (blockThen hash1 (fun _ => 0) true true older 8 0 block1 looks t).
Proof.
  assert (Hw : forall s x, SerialRun.runProg hash1 older spends NewStateDB = Done s x -> wf hash1 None older s).
  { intros s x E. pose proof (wf_new hash1 older None) as Hw.
    pose proof (runProg_sim hash1 everywhere true None older older older_fits older_fits spends NewStateDB NewStateDB
      (mkTogether _ _ _ _ _ _ _ _ (stRel_refl hash1 everywhere true older NewStateDB) Hw Hw) ltac:(fitRun)) as Ho. rewrite E in Ho. apply Ho. }
  destruct (SerialRun.runProg hash1 older spends NewStateDB) as [s x|? []|?] eqn:E; [|vm_compute in E; discriminate E].
  specialize (Hw s x eq_refl). assert (Hx : x = Some done1) by (vm_compute in E; by injection E).
  vm_compute in E. injection E as <- _.
  match goal with _ : wf hash1 None older ?s0 |- _ => destruct (Finalise hash1 older true s0) as [t []|? []|?] eqn:Et; [|vm_compute in Et; discriminate Et];
    destruct (FinaliseFast_as_Finalise hash1 (fun _ => 0) true true older s0 t true 8 0 block1 looks older_fits Hw Et) as (t' & Ht' & Hs);
    [vm_compute in Et; injection Et as <-; split; [fitBlock|fitEnd]|exists s0, t, t'] end.
  by rewrite Hx.
Defined.

Lemma state_wellformed_witness :
  exists t u v x, SerialRun.process hash1 older (fun _ => 0) true true 8 0 block1 NewStateDB =
      Done t (Some [done1; ParallelState.mkTxResult 70 false None (Some 6) 8 (Some 70)]) /\
    enter hash1 older 8 103 2 t = Done u 11 /\ SerialRun.runProg hash1 older spends u = Done v x /\ wf hash1 None older v.
Proof.
  assert (Hf : fitsBlock hash1 (fun _ => 0) true true everywhere older 8 0 block1 (NewWithFlatBase None)) by fitBlock.
  destruct (SerialRun.process hash1 older (fun _ => 0) true true 8 0 block1 NewStateDB) as [t rs|? []|?] eqn:Et; [|vm_compute in Et; discriminate Et].
  assert (Hrs : rs = Some [done1; ParallelState.mkTxResult 70 false None (Some 6) 8 (Some 70)]) by (vm_compute in Et; by injection Et).
  destruct (enter hash1 older 8 103 2 t) as [u bal|? []|?] eqn:Eu; [|vm_compute in Et; injection Et as <- _; vm_compute in Eu; discriminate Eu].
  assert (Hu : bal = 11 /\ fitsRun hash1 everywhere true None older u spends)
    by (vm_compute in Et; injection Et as <- _; vm_compute in Eu; injection Eu as <- <-; split; [done|fitRun]).
  destruct Hu as [-> Hp].
  destruct (SerialRun.runProg hash1 older spends u) as [v x|? []|?] eqn:Ev; [|
    vm_compute in Et; injection Et as <- _; vm_compute in Eu; injection Eu as <-; vm_compute in Ev; discriminate Ev].
  exists t, u, v, x. rewrite Hrs. do 3 (split; [done|]).
  exact (state_wellformed hash1 (fun _ => 0) true true older None 8 103 2 block1 spends t u v rs 11 x older_fits Hf Et Eu Hp Ev).
Defined.

(** Setting code journals the code the object has loaded: where the old code was never
    read, going back to the snapshot leaves the account without code. *)
Lemma SetCode_unread_is_lost :
  seen (GetCode hash1 newer 1 NewStateDB) = inl [6; 7] /\
  seen ((id ← Snapshot; _ ← SetCode hash1 newer 1 [9]; _ ← RevertToSnapshot hash1 newer id; GetCode hash1 newer 1) NewStateDB) = inl [] /\
  seen ((_ ← GetCode hash1 newer 1; id ← Snapshot; _ ← SetCode hash1 newer 1 [9]; _ ← RevertToSnapshot hash1 newer id; GetCode hash1 newer 1) NewStateDB) = inl [6; 7].
Proof. split_and!; by vm_compute. Qed.

End StateProps.
