(* ===== verification/BorApi.v ===== *)
(** * The interface of the engine for other programs (consensus/bor/api.go, merkle.go)

    Queries for snapshots, signers and proposers, and the Merkle root of the headers of
    a checkpoint.  The chain may change between two reads of a call: every read has the
    view of the chain it is answered from.  The Merkle tree (xsleonard/go-merkle) is a
    parameter. *)

From stdpp Require Import pretty.
From Stdlib Require Import Ascii.
From S2P Require Import Prelude Bytes Valset ValsetBytes ChainConfig Header BorTypes Snapshot Seal Engine.

Module BorApi.
Import Bytes Valset ChainConfig Header BorTypes Seal Engine.

(** ** Helpers (merkle.go) *)

(** The bits below the highest one are filled in, and one is added. *)
Definition nextPowerOfTwo (n : Z) : Z :=
  if n =? 0 then 1
  else
    let n := n - 1 in
    let n := Z.lor n (Z.shiftr n 1) in
    let n := Z.lor n (Z.shiftr n 2) in
    let n := Z.lor n (Z.shiftr n 4) in
    let n := Z.lor n (Z.shiftr n 8) in
    let n := Z.lor n (Z.shiftr n 16) in
    let n := Z.lor n (Z.shiftr n 32) in
    u64 (n + 1).

(** Strings that are too long give zeros. *)
Definition convertTo32 (input : list Z) : list Z :=
  let l := length input in
  if (32 <? l)%nat || (l =? 0)%nat then replicate 32 0 else replicate (32 - l) 0 ++ input.

Fixpoint appendBytes32 (data : list (list Z)) : list Z :=
  match data with [] => [] | v :: rest => convertTo32 v ++ appendBytes32 rest end.

(** [hex.EncodeToString]. *)
Definition hexChar (n : Z) : Ascii.ascii := Ascii.ascii_of_N (Z.to_N (if n <? 10 then 48 + n else 87 + n)).

Fixpoint EncodeToString (l : list Z) : string :=
  match l with
  | [] => EmptyString
  | b :: rest => String (hexChar (b / 16)) (String (hexChar (b mod 16)) (EncodeToString rest))
  end.

(** ** What a query sees of the chain *)

Record View := mkView {
  CurrentHeader : option Header;
  HeaderByNumber : Z -> option Header;
  HeaderByHash : Z -> option Header
}.

Definition LatestBlockNumber : Z := -2.

(** [rpc.BlockNumberOrHash]. *)
Record BlockNumberOrHash := mkBlockNumberOrHash { BlockNumber : option Z; BlockHash : option Z }.

Definition headerOfNumber (v : View) (number : option Z) : option Header :=
  match number with
  | None => CurrentHeader v
  | Some n => if n =? LatestBlockNumber then CurrentHeader v else HeaderByNumber v (u64 n)
  end.

Definition headerOf (v : View) (o : option BlockNumberOrHash) : option Header :=
  match o with
  | None => CurrentHeader v
  | Some o =>
      match BlockNumber o, BlockHash o with
      | Some n, _ => headerOfNumber v (Some n)
      | None, Some h => HeaderByHash v h
      | None, None => None
      end
  end.

(** ** Queries on snapshots *)

Record BlockSigners := mkBlockSigners {
  Signers : list (Z * Z);
  Diff : Z;
  bsAuthor : Z
}.

Definition harder (a b : Z * Z) : Prop := b.2 <= a.2.

#[export] Instance harder_dec : RelDecision harder.
Proof. intros a b. unfold harder. apply _. Defined.

(** The order of entries of the same difficulty is not determined. *)
Definition rankMapDifficulties (values : gmap Z Z) : list (Z * Z) := merge_sort harder (map_to_list values).

(** The difficulties of [signers], the first at index [i]. *)
Fixpoint difficultiesLoop (n proposerIndex i : Z) (signers : list Z) (m : gmap Z Z) : gmap Z Z :=
  match signers with
  | [] => m
  | a :: rest =>
      let tempIndex := if i <? proposerIndex then i + n else i in
      difficultiesLoop n proposerIndex (i + 1) rest (<[a := u64 (n - (tempIndex - proposerIndex))]> m)
  end.

Section queries.
Context {C : Type -> Type} `{!Cache C}.
Variable keccak : list Z -> Z.
Variable Ecrecover : list Z -> list Z -> option (list Z).
Variable cfg : Settings.
(** What the engine sees while it retrieves a snapshot. *)
Variable w : World.

#[local] Abbreviation eng := (st (Bor C) bor_error).

Definition snapshotOf (o : option Header) : eng Snapshot.Snapshot :=
  match o with
  | None => failS errUnknownBlock
  | Some header => snapshot keccak Ecrecover cfg w header [] false
  end.

Definition GetSnapshot (v : View) (number : option Z) : eng Snapshot.Snapshot := snapshotOf (headerOfNumber v number).

Definition GetSnapshotAtHash (v : View) (hash : Z) : eng Snapshot.Snapshot := snapshotOf (HeaderByHash v hash).

Definition GetAuthor (v : View) (o : option BlockNumberOrHash) : eng Z :=
  match headerOf v o with
  | None => failS errUnknownBlock
  | Some header => Author keccak Ecrecover cfg header
  end.

(** The snapshot of the block that [v1] has there, looked up again by its number at [v2]. *)
Definition GetSnapshotFor (v1 v2 : View) (o : option BlockNumberOrHash) : eng Snapshot.Snapshot :=
  match headerOf v1 o with
  | None => failS errUnknownBlock
  | Some header =>
      n ← orPanic "nil pointer dereference" (Header.Number header);
      GetSnapshot v2 (Some (i64 n))
  end.

Definition GetSnapshotProposerSequence (v1 v2 v3 : View) (o : option BlockNumberOrHash) : eng BlockSigners :=
  snap ← GetSnapshotFor v1 v2 o;
  '(vals, proposer) ← onValue id Snapshot.proposerAddress (Snapshot.vals snap);
  '(vals, (proposerIndex, _)) ← onValue id (GetByAddress proposer) vals;
  let signers := map Address (Validators vals) in
  let difficulties := difficultiesLoop (Z.of_nat (length signers)) proposerIndex 0 signers ∅ in
  author ← GetAuthor v3 o;
  mret (mkBlockSigners (rankMapDifficulties difficulties) (i64 (default 0 (difficulties !! author))) author).

Definition GetSnapshotProposer (v1 v2 : View) (o : option BlockNumberOrHash) : eng Z :=
  snap ← GetSnapshotFor v1 v2 o;
  '(_, proposer) ← onValue id Snapshot.proposerAddress (Snapshot.vals snap);
  mret proposer.

Definition GetSigners (v : View) (number : option Z) : eng (list Z) :=
  snap ← GetSnapshot v number; mret (Snapshot.signers snap).

Definition GetSignersAtHash (v : View) (hash : Z) : eng (list Z) :=
  snap ← GetSnapshotAtHash v hash; mret (Snapshot.signers snap).

Definition GetCurrentProposer (v : View) : eng Z :=
  snap ← GetSnapshot v None;
  '(_, proposer) ← onValue id Snapshot.proposerAddress (Snapshot.vals snap);
  mret proposer.

Definition GetCurrentValidators (v : View) : eng (list Validator) :=
  snap ← GetSnapshot v None; mret (Validators (Snapshot.vals snap)).

End queries.

(** ** The root of a checkpoint *)

Definition MaxCheckpointLength : Z := 2 ^ 15.

Record rootHashCacheEntry := mkRootEntry { endHash : Z; root : string }.

(** The cache of roots (hashicorp/golang-lru), by strings: it may forget entries but
    makes none up. *)
Class RootCache (R : Type) := {
  rempty : R;
  rget : string -> R -> option rootHashCacheEntry * R;
  radd : string -> rootHashCacheEntry -> R -> R;
  rremove : string -> R -> R;
  rget_empty : forall k, (rget k rempty).1 = None;
  rget_get : forall k k' c x, (rget k (rget k' c).2).1 = Some x -> (rget k c).1 = Some x;
  rget_add : forall k k' v c x, (rget k (radd k' v c)).1 = Some x -> (k = k' /\ x = v) \/ (rget k c).1 = Some x;
  rget_remove : forall k k' c x, (rget k (rremove k' c)).1 = Some x -> (rget k c).1 = Some x
}.

#[export] Instance gmap_roots : RootCache (gmap string rootHashCacheEntry).
Proof.
  refine {| rempty := ∅; rget := fun k m => (m !! k, m); radd := fun k v m => <[k := v]> m; rremove := fun k m => delete k m |}.
  - intros. apply lookup_empty.
  - by intros.
  - intros k k' v c x H. cbn in *. destruct (decide (k' = k)) as [->|Hn].
    + rewrite lookup_insert_eq in H. left. split; congruence.
    + rewrite lookup_insert_ne in H by done. by right.
  - intros k k' c x H. cbn in *. by apply lookup_delete_Some in H as [_ H].
Defined.

Inductive api_error :=
| eBor (e : bor_error)
| InvalidStartEndBlockError (start endB currentHeader : Z)
| MaxCheckpointLengthExceededError (start endB : Z)
| errReorgDuringRootComputation
| errNonContiguousHeaderRange
| errTree.

(** The views of the reads of one call: the head, the end block, the blocks of the range
    (read by concurrent goroutines) and the end block again. *)
Record RootReads := mkRootReads {
  readHead : View;
  readEnd : View;
  readBlock : Z -> View;
  readAgain : View
}.

Definition getRootHashKey (start endB : Z) : string := pretty (Z.to_N start) +:+ "-" +:+ pretty (Z.to_N endB).

Section roots.
Context {R : Type} `{!RootCache R}.
Variable keccak : list Z -> Z.
(** The root of the tree over the leaves, without hashing or sorting them. *)
Variable merkleRoot : list (list Z) -> option (list Z).

#[local] Abbreviation api := (st (option R) api_error).
#[local] Abbreviation hashOf := (Hash keccak).

Definition initializeRootHashCache : api unit := modify (fun c => Some (default rempty c)).

(** An operation on the cache, which is there. *)
Definition onRoots {A} (f : R -> A * R) : api A :=
  fun c => match c with Some c => let '(a, c') := f c in Done (Some c') a | None => Panicked "nil pointer dereference" end.

Definition headerLeaf (h : Header) (number : Z) : list Z :=
  be_bytes 32 (keccak (appendBytes32 [bigBytes number; bigBytes (Time h); be_bytes 32 (TxHash h); be_bytes 32 (ReceiptHash h)])).

(** The leaves of the blocks after the one with hash [prev]. *)
Fixpoint leavesLoop (prev : option Z) (blocks : list (option Header)) : api (list (list Z)) :=
  match blocks with
  | [] => mret []
  | None :: _ => failS (eBor errUnknownBlock)
  | Some h :: rest =>
      failIf (match prev with Some p => negb (ParentHash h =? p) | None => false end) errNonContiguousHeaderRange;;
      number ← orPanic "nil pointer dereference" (Header.Number h);
      leaves ← leavesLoop (Some (hashOf h)) rest;
      mret (headerLeaf h number :: leaves)
  end.

Definition computeRootHash (rd : RootReads) (start endB length_ : Z) (key : string) (endHash_ : Z) : api string :=
  if length_ =? 0 then panic "index out of range" else
  let blocks := map (fun i => HeaderByNumber (readBlock rd (start + i)) (start + i)) (seqZ 0 length_) in
  failIf (match HeaderByNumber (readAgain rd) endB with Some h => negb (hashOf h =? endHash_) | None => true end)
    errReorgDuringRootComputation;;
  leaves ← leavesLoop None blocks;
  let size := Z.to_nat (nextPowerOfTwo length_) in
  match merkleRoot (leaves ++ replicate (size - length leaves) (replicate 32 0)) with
  | None => failS errTree
  | Some r =>
      let root_ := EncodeToString r in
      onRoots (fun c => (tt, radd key (mkRootEntry endHash_ root_) c));;
      mret root_
  end.

(** A call for a range whose root is being computed with the same end block joins that
    computation, made with its own reads [joined]. *)
Definition GetRootHash (rd : RootReads) (joined : option RootReads) (start endB : Z) : api string :=
  initializeRootHashCache;;
  match CurrentHeader (readHead rd) with
  | None => failS (eBor errUnknownBlock)
  | Some head =>
      n ← orPanic "nil pointer dereference" (Header.Number head);
      let headNumber := u64 n in
      failIf ((endB <? start) || (headNumber <? endB)) (InvalidStartEndBlockError start endB headNumber);;
      match HeaderByNumber (readEnd rd) endB with
      | None => failS (eBor errUnknownBlock)
      | Some endHeader =>
          let endHash_ := hashOf endHeader in
          let key := getRootHashKey start endB in
          cached ← onRoots (rget key);
          match (match cached with Some e => if endHash e =? endHash_ then Some (root e) else None | None => None end) with
          | Some r => mret r
          | None =>
              (match cached with Some _ => onRoots (fun c => (tt, rremove key c)) | None => mret tt end);;
              let length_ := u64 (endB - start + 1) in
              failIf (MaxCheckpointLength <? length_) (MaxCheckpointLengthExceededError start endB);;
              computeRootHash (default rd joined) start endB length_ key endHash_
          end
      end
  end.

End roots.

End BorApi.
