(* ===== verification/BorApiProps.v ===== *)
(** * Properties of the interface of the engine

    The root returned for a range of blocks is that of the line of headers below the end
    block, whatever the chain did between the reads of the call and whatever was cached;
    the ranges that are refused; what equal roots say of the blocks; and the sequence of
    proposers, which ranks the signers by the difficulty their seals must carry. *)

From stdpp Require Import pretty.
From Stdlib Require Import Ascii.
From S2P Require Import Prelude Bytes Valset ValsetBytes ValsetRotation ChainConfig Header BorTypes Snapshot SnapshotProps Seal Engine EngineDemo BorApi.

Module BorApiProps.
Import Bytes Valset Header BorTypes SnapshotProps Seal Engine BorApi.

(** ** The next power of two *)

(** Bit [i] of [x] or one of the [w - 1] bits above it. *)
Definition anyBit (x i w : Z) : bool := existsb (fun j => Z.testbit x (i + j)) (seqZ 0 w).

Lemma anyBit_spec x i w : anyBit x i w = true <-> exists j, 0 <= j < w /\ Z.testbit x (i + j) = true.
Proof.
  unfold anyBit. rewrite existsb_exists. split.
  - intros (j & Hj & Hb). exists j. split; [|done]. apply list_elem_of_In, elem_of_seqZ in Hj. lia.
  - intros (j & Hj & Hb). exists j. split; [|done]. apply list_elem_of_In, elem_of_seqZ. lia.
Qed.

Lemma smear_step x y w :
  0 <= w -> (forall i, 0 <= i -> Z.testbit y i = anyBit x i w) ->
  forall i, 0 <= i -> Z.testbit (Z.lor y (Z.shiftr y w)) i = anyBit x i (2 * w).
Proof.
  intros Hw Hy i Hi. rewrite Z.lor_spec, Z.shiftr_spec, !Hy by lia. apply eq_true_iff_eq.
  rewrite orb_true_iff, !anyBit_spec. split.
  - intros [(j & Hj & Hb)|(j & Hj & Hb)]; [by exists j; split; [lia|]|].
    exists (w + j). split; [lia|]. by replace (i + (w + j)) with (i + w + j) by lia.
  - intros (j & Hj & Hb). destruct (Z.lt_ge_cases j w); [left; exists j; split; [lia|done]|right].
    exists (j - w). split; [lia|]. by replace (i + w + (j - w)) with (i + j) by lia.
Qed.

(** All bits up to the highest one. *)
Lemma anyBit_ones m i : 0 < m < 2 ^ 64 -> 0 <= i -> anyBit m i 64 = Z.testbit (Z.ones (Z.log2 m + 1)) i.
Proof.
  intros Hm Hi. assert (Hl : 0 <= Z.log2 m < 64) by (split; [apply Z.log2_nonneg|apply Z.log2_lt_pow2; lia]).
  rewrite Z.testbit_ones_nonneg by lia. apply eq_true_iff_eq. rewrite anyBit_spec, Z.ltb_lt. split.
  - intros (j & Hj & Hb). destruct (Z.lt_ge_cases (Z.log2 m) (i + j)); [|lia]. by rewrite Z.bits_above_log2 in Hb by lia.
  - intros Hle. exists (Z.log2 m - i). split; [lia|]. replace (i + (Z.log2 m - i)) with (Z.log2 m) by lia. apply Z.bit_log2. lia.
Qed.

Lemma nextPowerOfTwo_least n : 1 <= n <= 2 ^ 63 -> exists k, 0 <= k /\ nextPowerOfTwo n = 2 ^ k /\ n <= 2 ^ k < 2 * n.
Proof.
  intros Hn. unfold nextPowerOfTwo. rewrite (proj2 (Z.eqb_neq n 0)) by lia. cbv zeta.
  destruct (Z.eq_dec n 1) as [->|H1]; [exists 0; vm_compute; intuition discriminate|].
  set (m := n - 1).
  assert (H0 : forall i, 0 <= i -> Z.testbit m i = anyBit m i 1) by (intros i _; unfold anyBit; change (seqZ 0 1) with [0]; cbn [existsb]; by rewrite Z.add_0_r, orb_false_r).
  set (m1 := Z.lor m _). pose proof (smear_step m m 1 ltac:(lia) H0) as S1. fold m1 in S1.
  set (m2 := Z.lor m1 _). pose proof (smear_step m m1 2 ltac:(lia) S1) as S2. fold m2 in S2.
  set (m3 := Z.lor m2 _). pose proof (smear_step m m2 4 ltac:(lia) S2) as S3. fold m3 in S3.
  set (m4 := Z.lor m3 _). pose proof (smear_step m m3 8 ltac:(lia) S3) as S4. fold m4 in S4.
  set (m5 := Z.lor m4 _). pose proof (smear_step m m4 16 ltac:(lia) S4) as S5. fold m5 in S5.
  set (m6 := Z.lor m5 _). pose proof (smear_step m m5 32 ltac:(lia) S5) as S6. fold m6 in S6.
  assert (Hm : m6 = Z.ones (Z.log2 m + 1)).
  { apply Z.bits_inj'. intros i Hi. rewrite S6 by done. change (2 * 32) with 64. apply anyBit_ones; lia. }
  assert (Hl : 0 <= Z.log2 m < 63) by (split; [apply Z.log2_nonneg|apply Z.log2_lt_pow2; lia]).
  exists (Z.log2 m + 1). rewrite Hm, Z.ones_equiv. pose proof (Z.log2_spec m ltac:(lia)) as Hs. rewrite <- Z.add_1_r in Hs.
  assert (Hp : 2 ^ (Z.log2 m + 1) <= 2 ^ 63) by (apply Z.pow_le_mono_r; lia).
  rewrite (Z.pow_add_r 2 (Z.log2 m) 1) in * by lia. unfold u64.
  replace (Z.pred (2 ^ Z.log2 m * 2 ^ 1) + 1) with (2 ^ Z.log2 m * 2 ^ 1) by lia. rewrite Z.mod_small by lia.
  unfold m in *. lia.
Qed.

(** ** Hexadecimal strings, keys *)

Lemma hexChar_inj x y : 0 <= x < 16 -> 0 <= y < 16 -> hexChar x = hexChar y -> x = y.
Proof.
  intros Hx Hy H. unfold hexChar in H. apply (f_equal Ascii.N_of_ascii) in H.
  rewrite !Ascii.N_ascii_embedding in H by (case_if; lia). apply (f_equal Z.of_N) in H.
  rewrite !Z2N.id in H by (case_if; lia). destruct (Z.ltb_spec x 10), (Z.ltb_spec y 10); lia.
Qed.

Lemma EncodeToString_inj l l' : Forall isByte l -> Forall isByte l' -> EncodeToString l = EncodeToString l' -> l = l'.
Proof.
  intros H. revert l'. induction H as [|b l Hb _ IH]; intros [|b' l'] H' E; cbn in E; try done.
  apply Forall_cons in H' as [Hb' H'].
  unfold isByte in *. injection E as E1 E2 E.
  apply hexChar_inj in E1; [|split; [apply Z.div_pos|apply Z.div_lt_upper_bound]; lia..].
  apply hexChar_inj in E2; [|apply Z.mod_pos_bound; lia..].
  f_equal; [|by apply IH]. rewrite (Z.div_mod b 16), (Z.div_mod b' 16) by lia. congruence.
Qed.

(** Strings without the separator. *)
Fixpoint undashed (s : string) : Prop :=
  match s with EmptyString => True | String c s => c <> "-"%char /\ undashed s end.

Lemma undashed_pretty_go x s : undashed s -> undashed (pretty_N_go x s).
Proof.
  revert s. induction (N.lt_wf_0 x) as [x _ IH]; intros s Hs.
  assert (x = 0 \/ 0 < x)%N as [->|Hx] by lia; [done|].
  rewrite pretty_N_go_step by done. apply IH; [by apply N.div_lt|]. split; [|done].
  unfold pretty_N_char. by repeat case_match.
Qed.

Lemma undashed_pretty (x : N) : undashed (pretty x).
Proof. unfold pretty, pretty_N. case_decide; [done|by apply undashed_pretty_go]. Qed.

Lemma dash_inj a a' b b' :
  undashed a -> undashed a' -> a +:+ "-" +:+ b = a' +:+ "-" +:+ b' -> a = a' /\ b = b'.
Proof.
  revert a'. induction a as [|c a IH]; intros [|c' a'] Ha Ha' E; cbn in Ha, Ha', E.
  - injection E as E. by change (b = b') in E.
  - injection E as <- _. by destruct Ha'.
  - injection E as -> _. by destruct Ha.
  - injection E as -> E. destruct Ha as [_ Ha], Ha' as [_ Ha']. by destruct (IH a' Ha Ha' E) as [-> ->].
Qed.

Lemma getRootHashKey_inj s e s' e' :
  0 <= s -> 0 <= e -> 0 <= s' -> 0 <= e' -> getRootHashKey s e = getRootHashKey s' e' -> s = s' /\ e = e'.
Proof.
  intros ? ? ? ? E. apply dash_inj in E as [E1 E2]; [|apply undashed_pretty..].
  apply pretty_N_inj in E1, E2. split; by apply Z2N.inj.
Qed.

(** ** Roots of checkpoints *)

Section roots.
Context {R : Type} `{!RootCache R}.
Variable keccak : list Z -> Z.
Variable merkleRoot : list (list Z) -> option (list Z).

#[local] Abbreviation hashOf := (Hash keccak).
#[local] Abbreviation getRootHash := (GetRootHash keccak merkleRoot).
#[local] Abbreviation leavesLoop := (leavesLoop (R := R) keccak).
#[local] Abbreviation computeRootHash := (computeRootHash keccak merkleRoot).

(** Headers each of which names the one before it as its parent. *)
Fixpoint line (hs : list Header) : Prop :=
  match hs with
  | h :: ((h' :: _) as rest) => ParentHash h' = hashOf h /\ line rest
  | _ => True
  end.

Definition leafOf (h : Header) : list Z := headerLeaf keccak h (default 0 (Number h)).

Definition leavesOf (hs : list Header) : list (list Z) :=
  map leafOf hs ++ replicate (Z.to_nat (nextPowerOfTwo (Z.of_nat (length hs))) - length hs) (replicate 32 0).

(** The root of the headers. *)
Definition rootOf (hs : list Header) : option string := EncodeToString <$> merkleRoot (leavesOf hs).

(** The blocks of a range that ends in a block with hash [eh]. *)
Definition range (start endB eh : Z) (hs : list Header) : Prop :=
  line hs /\ Z.of_nat (length hs) = endB - start + 1 /\ hashOf <$> last hs = Some eh.

Lemma headers_line_app hs h : line (hs ++ [h]) <-> line hs /\ match last hs with Some l => ParentHash h = hashOf l | None => True end.
Proof.
  induction hs as [|a hs IH]; [done|]. destruct hs as [|b hs]; [cbn; naive_solver|].
  change (line ((a :: b :: hs) ++ [h])) with (ParentHash b = hashOf a /\ line ((b :: hs) ++ [h])). rewrite IH. cbn. naive_solver.
Qed.

(** ** What a root says of the blocks *)

Lemma length_convertTo32 l : length (convertTo32 l) = 32%nat.
Proof.
  unfold convertTo32. destruct ((32 <? length l)%nat || (length l =? 0)%nat) eqn:E; [done|].
  apply orb_false_iff in E as [E _]. apply Nat.ltb_ge in E. rewrite length_app, length_replicate. lia.
Qed.

Lemma SetBytes_convertTo32 l : (length l <= 32)%nat -> SetBytes (convertTo32 l) = SetBytes l.
Proof.
  intros Hl. unfold convertTo32. rewrite (proj2 (Nat.ltb_ge 32 (length l))) by done. cbn [orb].
  destruct (Nat.eqb_spec (length l) 0) as [H0|_]; [by destruct l|apply SetBytes_zeros].
Qed.

Lemma length_bigBytes x : 0 <= x < 2 ^ 256 -> (length (bigBytes x) <= 32)%nat.
Proof.
  intros Hx. unfold bigBytes. destruct (Z.eqb_spec x 0) as [->|H0]; [cbn; lia|]. rewrite length_be_bytes, Z.abs_eq by lia.
  assert (Hl : 0 <= Z.log2 x <= 255) by (pose proof (Z.log2_nonneg x); pose proof (proj1 (Z.log2_lt_pow2 x 256 ltac:(lia)) (proj2 Hx)); lia).
  pose proof (Z.div_le_mono (Z.log2 x) 255 8 ltac:(lia) ltac:(lia)) as Hd. change (255 / 8) with 31 in Hd. lia.
Qed.

Lemma convertTo32_bigBytes_inj x y : 0 <= x < 2 ^ 256 -> 0 <= y < 2 ^ 256 -> convertTo32 (bigBytes x) = convertTo32 (bigBytes y) -> x = y.
Proof.
  intros Hx Hy E. apply (f_equal SetBytes) in E. rewrite !SetBytes_convertTo32, !SetBytes_bigBytes in E by (by apply length_bigBytes). lia.
Qed.

Lemma convertTo32_hash_inj x y : 0 <= x < 2 ^ 256 -> 0 <= y < 2 ^ 256 -> convertTo32 (be_bytes 32 x) = convertTo32 (be_bytes 32 y) -> x = y.
Proof.
  intros Hx Hy E. apply (f_equal SetBytes) in E. rewrite !SetBytes_convertTo32 in E by (by rewrite length_be_bytes).
  by rewrite !SetBytes_be_bytes in E.
Qed.

(** The fields a leaf is made of, and the string that is hashed. *)
Definition leafFields (h : Header) : Z * Z * Z * Z := (default 0 (Number h), Time h, TxHash h, ReceiptHash h).

Definition leafBytes (h : Header) : list Z :=
  appendBytes32 [bigBytes (default 0 (Number h)); bigBytes (Time h); be_bytes 32 (TxHash h); be_bytes 32 (ReceiptHash h)].

Definition legalLeaf (h : Header) : Prop :=
  0 <= default 0 (Number h) < 2 ^ 256 /\ is_u64 (Time h) /\ 0 <= TxHash h < 2 ^ 256 /\ 0 <= ReceiptHash h < 2 ^ 256.

Lemma leafBytes_inj h h' : legalLeaf h -> legalLeaf h' -> leafBytes h = leafBytes h' -> leafFields h = leafFields h'.
Proof.
  intros (N & T & X & C) (N' & T' & X' & C') E. unfold leafBytes, appendBytes32 in E. unfold is_u64, MaxUint64 in *.
  apply app_inj_1 in E as [E1 E]; [|by rewrite !length_convertTo32]. apply app_inj_1 in E as [E2 E]; [|by rewrite !length_convertTo32].
  apply app_inj_1 in E as [E3 E]; [|by rewrite !length_convertTo32]. apply app_inj_1 in E as [E4 _]; [|by rewrite !length_convertTo32].
  apply convertTo32_bigBytes_inj in E1, E2; [|lia..]. apply convertTo32_hash_inj in E3, E4; [|done..]. unfold leafFields. congruence.
Qed.

(** Equal roots of ranges of the same length are of blocks with the same numbers,
    times, transaction roots and receipt roots, one by one, unless the tree or the hash of
    two of the leaves collides: the number is the whole of 256 bits, padding never merges
    two fields, and the text of the root determines its bytes. *)
Theorem root_binds hs hs' r :
  length hs = length hs' -> rootOf hs = Some r -> rootOf hs' = Some r ->
  Forall legalLeaf hs -> Forall legalLeaf hs' ->
  (forall ls b, merkleRoot ls = Some b -> Forall isByte b) ->
  (merkleRoot (leavesOf hs) = merkleRoot (leavesOf hs') -> leavesOf hs = leavesOf hs') ->
  (forall h h', h ∈ hs -> h' ∈ hs' -> leafOf h = leafOf h' -> leafBytes h = leafBytes h') ->
  map leafFields hs = map leafFields hs'.
Proof.
  intros Hlen Hr Hr' Hs Hs' Hb Htree Hleaf. unfold rootOf in *.
  destruct (merkleRoot (leavesOf hs)) as [b|] eqn:E; [|done]. destruct (merkleRoot (leavesOf hs')) as [b'|] eqn:E'; [|done].
  injection Hr as <-. injection Hr' as Heq. apply EncodeToString_inj in Heq; [|by eapply Hb..]. subst b'.
  specialize (Htree eq_refl). unfold leavesOf in Htree. apply app_inj_1 in Htree as [Htree _]; [|by rewrite !length_map].
  clear E E' Hb. revert hs' Hlen Hs' Hleaf Htree. induction Hs as [|h hs Hh _ IH]; intros [|h' hs'] Hlen Hs' Hleaf Htree; try done.
  apply Forall_cons in Hs' as [Hh' Hs']. injection Hlen as Hlen. pose proof (f_equal (hd []) Htree) as Hl. apply (f_equal (@tail _)) in Htree. cbn [map hd tail] in Hl, Htree |- *. f_equal.
  - apply leafBytes_inj; [done..|]. apply Hleaf; [by left|by left|exact Hl].
  - apply IH; try done. intros x x' Hx Hx'. apply Hleaf; by right.
Qed.

Section seen.
Variable Seen : Header -> Prop.
Hypothesis Hsep : forall h h', Seen h -> Seen h' -> hashOf h = hashOf h' -> h = h'.
Hypothesis Hnum : forall h, Seen h -> is_Some (Number h).

(** The hash of its end determines a line. *)
Lemma line_unique hs hs' :
  Forall Seen hs -> Forall Seen hs' -> line hs -> line hs' -> length hs = length hs' -> hashOf <$> last hs = hashOf <$> last hs' -> hs = hs'.
Proof.
  revert hs'. induction hs as [|h hs IH] using rev_ind; intros hs' Hs Hs' Hl Hl' Hn He.
  - by destruct hs'.
  - destruct hs' as [|h' hs' _] using rev_ind; [rewrite length_app in Hn; cbn in Hn; lia|].
    rewrite !last_snoc in He. injection He as He. apply Forall_app in Hs as [Hs Hh], Hs' as [Hs' Hh'].
    rewrite Forall_singleton in Hh, Hh'. pose proof (Hsep h h' Hh Hh' He) as <-.
    apply headers_line_app in Hl as [Hl Hp], Hl' as [Hl' Hp']. f_equal. apply IH; try done; [rewrite !length_app in Hn; lia|].
    rewrite !length_app in Hn. destruct (last hs) as [x|] eqn:Ex, (last hs') as [x'|] eqn:Ex'; cbn; try done; [congruence|..].
    + apply last_None in Ex' as ->. destruct hs; [done|cbn in Hn; lia].
    + apply last_None in Ex as ->. destruct hs'; [done|cbn in Hn; lia].
Qed.

Definition viewSeen (v : View) : Prop :=
  (forall h, CurrentHeader v = Some h -> Seen h) /\ forall n h, HeaderByNumber v n = Some h -> Seen h.

Definition readsSeen (rd : RootReads) : Prop :=
  viewSeen (readHead rd) /\ viewSeen (readEnd rd) /\ (forall n, viewSeen (readBlock rd n)) /\ viewSeen (readAgain rd).

(** The chain did not leave the end block and come back while the range was read. *)
Definition noReturn (rd : RootReads) (endB : Z) : Prop :=
  HeaderByNumber (readAgain rd) endB = HeaderByNumber (readEnd rd) endB ->
  HeaderByNumber (readBlock rd endB) endB = HeaderByNumber (readEnd rd) endB.

(** Cached roots are the roots of their ranges, and of ranges that are allowed. *)
Definition coherent (c : option R) : Prop :=
  match c with
  | None => True
  | Some c => forall start endB e, 0 <= start -> 0 <= endB -> (rget (getRootHashKey start endB) c).1 = Some e ->
      endB - start + 1 <= MaxCheckpointLength /\
      exists hs, Forall Seen hs /\ range start endB (endHash e) hs /\ rootOf hs = Some (root e)
  end.

(** *** The loop over the blocks *)

(** Blocks that are there, each a child of the one before, the first of [prev]. *)
Definition linkedTo (prev : option Z) (hs : list Header) : Prop :=
  line hs /\ match prev, hs with Some p, h :: _ => ParentHash h = p | _, _ => True end.

Lemma leavesLoop_spec prev blocks c :
  (forall h, Some h ∈ blocks -> Seen h) ->
  match leavesLoop prev blocks c with
  | Done c' ls => c' = c /\ exists hs, blocks = map Some hs /\ linkedTo prev hs /\ ls = map leafOf hs
  | Fail c' e => c' = c
  | Panicked _ => False
  end.
Proof.
  revert prev. induction blocks as [|[h|] blocks IH]; intros prev Hs; cbn [BorApi.leavesLoop]; [|..|done].
  { split; [done|]. exists []. by destruct prev. }
  unfold failIf. destruct (match prev with Some p => _ | None => false end) eqn:Hp; [done|].
  destruct (Hnum h) as [n Hn]; [apply Hs; by left|]. rewrite Hn. unfold mbind, st_bind in *. cbn [orPanic mret st_ret].
  specialize (IH (Some (hashOf h)) (fun x Hx => Hs x (list_elem_of_further _ _ _ Hx))).
  destruct (leavesLoop (Some (hashOf h)) blocks c) as [c' ls|c' e|w]; [|done|done].
  destruct IH as (-> & hs & -> & [Hl Hlp] & ->). split; [done|]. exists (h :: hs). split; [done|]. split; [split|].
  - destruct hs as [|h' hs]; [done|]. by split.
  - destruct prev as [p|]; [|done]. apply negb_false_iff, Z.eqb_eq in Hp. done.
  - cbn. unfold leafOf at 2. by rewrite Hn.
Qed.

(** All blocks there and linked: the loop succeeds. *)
Lemma leavesLoop_all prev hs c :
  Forall Seen hs -> linkedTo prev hs -> leavesLoop prev (map Some hs) c = Done c (map leafOf hs).
Proof.
  intros Hs. revert prev. induction Hs as [|h hs Hh _ IH]; intros prev [Hl Hp]; [done|]. cbn [map BorApi.leavesLoop].
  assert (H0 : match prev with Some p => negb (ParentHash h =? p) | None => false end = false).
  { destruct prev as [p|]; [|done]. by rewrite Hp, Z.eqb_refl. }
  rewrite H0. destruct (Hnum h Hh) as [n Hn]. rewrite Hn. unfold mbind, st_bind in *. cbn.
  rewrite IH; [|by destruct hs as [|h' hs]; [|destruct Hl; split]]. unfold leafOf at 2. by rewrite Hn.
Qed.

Lemma map_at {A B} (f : A -> B) l i : map f l !! i = f <$> l !! i.
Proof. exact (list_lookup_fmap f l i). Qed.

(** *** One computation *)

Definition blocksRead (rd : RootReads) (start n : Z) : list (option Header) :=
  map (fun i => HeaderByNumber (readBlock rd (start + i)) (start + i)) (seqZ 0 n).

Lemma blocksRead_seen rd start n h : readsSeen rd -> Some h ∈ blocksRead rd start n -> Seen h.
Proof.
  intros (_ & _ & Hb & _) Hin. apply list_elem_of_In, in_map_iff in Hin as (i & Hi & _). by apply (Hb (start + i)) in Hi.
Qed.

Lemma blocksRead_last rd start endB n : n = endB - start + 1 -> 0 < n -> last (blocksRead rd start n) = Some (HeaderByNumber (readBlock rd endB) endB).
Proof.
  intros Hn Hpos. unfold blocksRead. replace n with ((n - 1) + 1) by lia. rewrite seqZ_app by lia.
  rewrite (seqZ_cons (0 + (n - 1)) 1), (seqZ_nil _ (Z.pred 1)) by lia. rewrite map_app. cbn [map]. rewrite last_snoc. by replace (start + (0 + (n - 1))) with endB by lia.
Qed.

Lemma compute_spec rd start endB n key e c :
  readsSeen rd -> noReturn rd endB -> HeaderByNumber (readEnd rd) endB = Some e -> n = endB - start + 1 -> 0 < n ->
  match computeRootHash rd start endB n key (hashOf e) (Some c) with
  | Done c' r => c' = Some (radd key (mkRootEntry (hashOf e) r) c) /\
      exists hs, Forall Seen hs /\ range start endB (hashOf e) hs /\ rootOf hs = Some r
  | Fail c' _ => c' = Some c
  | Panicked _ => False
  end.
Proof.
  intros Hseen Hret He Hn Hpos. unfold BorApi.computeRootHash. rewrite (proj2 (Z.eqb_neq n 0)) by lia.
  cbv zeta. fold (blocksRead rd start n). unfold failIf.
  destruct (HeaderByNumber (readAgain rd) endB) as [a|] eqn:Ha; [|done].
  destruct (Z.eqb_spec (hashOf a) (hashOf e)) as [Hae|]; [|done]. cbn [negb].
  assert (a = e) as ->.
  { destruct Hseen as (_ & [_ H1] & _ & [_ H2]). apply Hsep; [by eapply H2|by eapply H1|done]. }
  unfold noReturn in Hret. rewrite Ha, He in Hret. specialize (Hret eq_refl).
  unfold mbind, st_bind. cbn [mret st_ret].
  pose proof (leavesLoop_spec None (blocksRead rd start n) (Some c) (fun h => blocksRead_seen rd start n h Hseen)) as Hl.
  destruct (leavesLoop None (blocksRead rd start n) (Some c)) as [c' ls|c' er|w]; [|done|done].
  destruct Hl as (-> & hs & Hb & [Hline _] & ->).
  assert (Hlen : Z.of_nat (length hs) = n).
  { assert (Hx : length (blocksRead rd start n) = length hs) by (by rewrite Hb, length_map).
    unfold blocksRead in Hx. rewrite length_map, length_seqZ in Hx. lia. }
  assert (Hlast : last hs = Some e).
  { pose proof (blocksRead_last rd start endB n Hn Hpos) as Hx. rewrite Hb, Hret in Hx. change (map Some hs) with (Some <$> hs) in Hx. rewrite fmap_last in Hx.
    destruct (last hs); [by injection Hx as ->|done]. }
  assert (Hroot : rootOf hs = EncodeToString <$> merkleRoot (map leafOf hs ++
    replicate (Z.to_nat (nextPowerOfTwo n) - length (map leafOf hs)) (replicate 32 0))).
  { unfold rootOf, leavesOf. by rewrite Hlen, length_map. }
  destruct (merkleRoot _) as [r|]; [|done]. cbn. split; [done|]. exists hs. split; [|split; [split; [done|split; [lia|by rewrite Hlast]]|done]].
  apply Forall_forall. intros h Hh. apply (blocksRead_seen rd start n h Hseen). rewrite Hb. by apply list_elem_of_In, in_map, list_elem_of_In.
Qed.

Lemma coherent_add c start endB e :
  coherent (Some c) -> 0 <= start -> 0 <= endB -> endB - start + 1 <= MaxCheckpointLength ->
  (exists hs, Forall Seen hs /\ range start endB (endHash e) hs /\ rootOf hs = Some (root e)) ->
  coherent (Some (radd (getRootHashKey start endB) e c)).
Proof.
  intros Hc Hs He Hm Hr s' e' x Hs' He' Hx. apply rget_add in Hx as [[Hk ->]|Hx]; [|by apply Hc].
  apply getRootHashKey_inj in Hk as [-> ->]; [|done..]. done.
Qed.

Lemma coherent_get c k : coherent (Some c) -> coherent (Some (rget k c).2).
Proof. intros Hc s' e' x Hs' He' Hx. apply rget_get in Hx. by apply Hc. Qed.

Lemma coherent_remove c k : coherent (Some c) -> coherent (Some (rremove k c)).
Proof. intros Hc s' e' x Hs' He' Hx. apply rget_remove in Hx. by apply Hc. Qed.

Lemma coherent_init c : coherent c -> coherent (Some (default rempty c)).
Proof. destruct c as [c|]; [done|]. intros _ s e x _ _ Hx. cbn in Hx. by rewrite rget_empty in Hx. Qed.

(** A call whose computation another one has begun. *)
Definition joins (rd : RootReads) (joined : option RootReads) (endB : Z) : Prop :=
  match joined with
  | None => True
  | Some rd' => readsSeen rd' /\ noReturn rd' endB /\ HeaderByNumber (readEnd rd') endB = HeaderByNumber (readEnd rd) endB
  end.

Lemma u64_length start endB : is_u64 start -> is_u64 endB -> start <= endB -> endB - start + 1 < 2 ^ 64 -> u64 (endB - start + 1) = endB - start + 1.
Proof. intros Hs He Hle Hlt. unfold u64. rewrite Z.mod_small; lia. Qed.

(** *** A call *)

Lemma range_unique start endB eh hs hs' :
  Forall Seen hs -> Forall Seen hs' -> range start endB eh hs -> range start endB eh hs' -> hs = hs'.
Proof. intros Hs Hs' (Hl & Hn & He) (Hl' & Hn' & He'). apply line_unique; try done; [lia|congruence]. Qed.

(** What the computation behind a call gives. *)
Lemma joined_spec rd joined start endB e c :
  readsSeen rd -> noReturn rd endB -> joins rd joined endB -> HeaderByNumber (readEnd rd) endB = Some e ->
  0 <= start <= endB -> endB - start + 1 <= MaxCheckpointLength -> coherent (Some c) ->
  match computeRootHash (default rd joined) start endB (endB - start + 1) (getRootHashKey start endB) (hashOf e) (Some c) with
  | Done c' r => coherent c' /\ exists hs, Forall Seen hs /\ range start endB (hashOf e) hs /\ rootOf hs = Some r
  | Fail c' _ => coherent c'
  | Panicked _ => False
  end.
Proof.
  intros Hs Hret Hj He Hle Hm Hc.
  assert (Hrd : readsSeen (default rd joined) /\ noReturn (default rd joined) endB /\ HeaderByNumber (readEnd (default rd joined)) endB = Some e).
  { destruct joined as [rd'|]; [|done]. destruct Hj as (H1 & H2 & H3). split_and!; [done..|]. by rewrite <- He. }
  destruct Hrd as (H1 & H2 & H3).
  pose proof (compute_spec (default rd joined) start endB (endB - start + 1) (getRootHashKey start endB) e c H1 H2 H3 eq_refl ltac:(lia)) as Hx.
  destruct (computeRootHash _ _ _ _ _ _ _) as [c' r|c' er|w]; [|by subst|done].
  destruct Hx as [-> Hx]. split; [|done]. apply coherent_add; try done; lia.
Qed.

(** The part of a call after the end block is known. *)
Lemma lookup_spec rd joined start endB e c :
  readsSeen rd -> noReturn rd endB -> joins rd joined endB -> HeaderByNumber (readEnd rd) endB = Some e ->
  is_u64 start -> is_u64 endB -> start <= endB < MaxUint64 -> coherent (Some c) ->
  match (cached ← onRoots (rget (getRootHashKey start endB));
         match (match cached with Some x => if endHash x =? hashOf e then Some (root x) else None | None => None end) with
         | Some r => mret r
         | None =>
             (match cached with Some _ => onRoots (fun c => (tt, rremove (getRootHashKey start endB) c)) | None => mret tt end);;
             failIf (MaxCheckpointLength <? u64 (endB - start + 1)) (MaxCheckpointLengthExceededError start endB);;
             computeRootHash (default rd joined) start endB (u64 (endB - start + 1)) (getRootHashKey start endB) (hashOf e)
         end) (Some c) with
  | Done c' r => coherent c' /\ exists hs, Forall Seen hs /\ range start endB (hashOf e) hs /\ rootOf hs = Some r
  | Fail c' er => coherent c'
  | Panicked _ => False
  end.
Proof.
  intros Hs Hret Hj He Hus Hue Hle Hc. pose proof (u64_length start endB Hus Hue ltac:(lia)) as Hlen.
  unfold is_u64, MaxUint64 in *. rewrite Hlen by lia.
  assert (Hgo : forall c1, coherent (Some c1) ->
    match (failIf (MaxCheckpointLength <? endB - start + 1) (MaxCheckpointLengthExceededError start endB);;
           computeRootHash (default rd joined) start endB (endB - start + 1) (getRootHashKey start endB) (hashOf e)) (Some c1) with
    | Done c' r => coherent c' /\ exists hs, Forall Seen hs /\ range start endB (hashOf e) hs /\ rootOf hs = Some r
    | Fail c' er => coherent c'
    | Panicked _ => False
    end).
  { intros c1 Hc1. unfold failIf. destruct (Z.ltb_spec MaxCheckpointLength (endB - start + 1)); [done|]. apply joined_spec; try done; lia. }
  unfold mbind at 1, st_bind at 1. cbn [onRoots]. destruct (rget (getRootHashKey start endB) c) as [[x|] c1] eqn:Eg.
  - assert (Hc1 : coherent (Some c1)) by (pose proof (coherent_get c (getRootHashKey start endB) Hc) as Hx; by rewrite Eg in Hx).
    destruct (Z.eqb_spec (endHash x) (hashOf e)) as [Hx|Hx].
    + cbn. split; [done|]. destruct (Hc start endB x) as [_ Hr]; [lia|lia|by rewrite Eg|]. by rewrite Hx in Hr.
    + apply (Hgo (rremove (getRootHashKey start endB) c1)). by apply coherent_remove.
  - apply Hgo. pose proof (coherent_get c (getRootHashKey start endB) Hc) as Hx. by rewrite Eg in Hx.
Qed.

(** C27: The root of a range is the root of the blocks below its end: whatever chain each
    read of a call is answered from, with cached roots of ranges that were right and a
    computation that may be shared with another call, a root that [GetRootHash] returns is
    the Merkle root of the line of headers of the range's length that ends in the end block
    it has read, and that line is the only one; what is cached stays right, and nothing
    panics.  The chain must not have left the end block and come back to it while the range
    was read. *)
Theorem GetRootHash_attests rd joined start endB c :
  readsSeen rd -> noReturn rd endB -> joins rd joined endB -> is_u64 start -> is_u64 endB -> endB < MaxUint64 -> coherent c ->
  match getRootHash rd joined start endB c with
  | Done c' r => coherent c' /\ exists e hs, HeaderByNumber (readEnd rd) endB = Some e /\
      Forall Seen hs /\ range start endB (hashOf e) hs /\ rootOf hs = Some r /\
      forall hs', Forall Seen hs' -> range start endB (hashOf e) hs' -> hs' = hs
  | Fail c' _ => coherent c'
  | Panicked _ => False
  end.
Proof.
  intros Hs Hret Hj Hus Hue Hlt Hc. unfold BorApi.GetRootHash. unfold mbind at 1, st_bind at 1.
  cbn [initializeRootHashCache modify]. apply coherent_init in Hc.
  destruct (CurrentHeader (readHead rd)) as [h|] eqn:Eh; [|done].
  destruct (Hnum h) as [n Hn]; [by apply (proj1 (proj1 Hs))|]. rewrite Hn. unfold mbind at 1, st_bind at 1. cbn [orPanic mret st_ret]. cbv zeta.
  unfold mbind at 1, st_bind at 1. unfold failIf at 1. destruct (_ || _) eqn:Eb; [done|]. cbn [mret st_ret].
  apply orb_false_iff in Eb as [Eb _]. apply Z.ltb_ge in Eb.
  destruct (HeaderByNumber (readEnd rd) endB) as [e|] eqn:Ee; [|done].
  pose proof (lookup_spec rd joined start endB e (default rempty c) Hs Hret Hj Ee Hus Hue ltac:(lia) Hc) as Hx.
  match type of Hx with match ?m with _ => _ end => destruct m as [c' r|c' er|w] end; try done.
  destruct Hx as [Hc' (hs & H1 & H2 & H3)]. split; [done|]. exists e, hs. split_and!; try done.
  intros hs' H1' H2'. by apply (range_unique start endB (hashOf e)).
Qed.

(** *** A chain that does not change *)

(** The chain from the genesis block on, the same at every read. *)
Definition viewOf (chain : list Header) : View :=
  mkView (last chain) (fun n => if n <? 0 then None else chain !! Z.to_nat n) (fun _ => None).

Definition stable (chain : list Header) : RootReads :=
  mkRootReads (viewOf chain) (viewOf chain) (fun _ => viewOf chain) (viewOf chain).

(** Blocks with their numbers, each the child of the one before. *)
Record canonical (chain : list Header) : Prop := mkCanonical {
  cn_seen : Forall Seen chain;
  cn_line : line chain;
  cn_number : forall i h, chain !! i = Some h -> Number h = Some (Z.of_nat i)
}.

Definition slice (start endB : Z) (chain : list Header) : list Header :=
  take (Z.to_nat (endB - start + 1)) (drop (Z.to_nat start) chain).

Lemma line_lookup hs : line hs <-> forall i h h', hs !! i = Some h -> hs !! S i = Some h' -> ParentHash h' = hashOf h.
Proof.
  induction hs as [|a hs IH]; [done|]. split.
  - intros Hl i h h' Hi Hi'. destruct hs as [|b hs]; [done|]. destruct Hl as [Hp Hl]. destruct i as [|i]; cbn in Hi, Hi'.
    + by injection Hi as <-; injection Hi' as <-.
    + by apply (proj1 IH Hl i).
  - intros Hx. destruct hs as [|b hs]; [done|]. split; [by apply (Hx 0%nat)|]. apply IH. intros i h h'. apply (Hx (S i)).
Qed.

Section canonical.
Variable chain : list Header.
Hypothesis Hcanon : canonical chain.

Lemma viewOf_lookup i h : chain !! i = Some h -> HeaderByNumber (viewOf chain) (Z.of_nat i) = Some h.
Proof. intros H. cbn. rewrite (proj2 (Z.ltb_ge _ 0)) by lia. by rewrite Nat2Z.id. Qed.

Lemma stable_seen : readsSeen (stable chain).
Proof.
  assert (Hv : viewSeen (viewOf chain)).
  { split; cbn; [intros h Hh; apply last_Some_elem_of in Hh|intros n h Hh; case_match; [done|]; apply list_elem_of_lookup_2 in Hh];
      by eapply Forall_forall in Hh; [|apply Hcanon]. }
  by split_and!.
Qed.

Section inside.
Context (start endB : Z) (Hrange : 0 <= start <= endB) (Hinside : endB < Z.of_nat (length chain)).

Lemma slice_lookup i : (i < Z.to_nat (endB - start + 1))%nat -> slice start endB chain !! i = chain !! (Z.to_nat start + i)%nat.
Proof. intros Hi. unfold slice. by rewrite lookup_take_lt, lookup_drop by done. Qed.

Lemma slice_length : length (slice start endB chain) = Z.to_nat (endB - start + 1).
Proof. unfold slice. rewrite length_take, length_drop. lia. Qed.

Lemma slice_range e : chain !! Z.to_nat endB = Some e -> Forall Seen (slice start endB chain) /\ range start endB (hashOf e) (slice start endB chain).
Proof.
  intros He. split; [by apply Forall_take, Forall_drop, Hcanon|]. split; [|split].
  - apply line_lookup. intros i h h' Hi Hi'. pose proof (lookup_lt_Some _ _ _ Hi') as Hlt. rewrite slice_length in Hlt.
    rewrite slice_lookup in Hi, Hi' by lia. rewrite Nat.add_succ_r in Hi'. by eapply (proj1 (line_lookup chain) (cn_line _ Hcanon)).
  - rewrite slice_length. lia.
  - rewrite last_lookup, slice_length. rewrite slice_lookup by lia.
    replace (Z.to_nat start + Nat.pred (Z.to_nat (endB - start + 1)))%nat with (Z.to_nat endB) by lia. by rewrite He.
Qed.

Lemma slice_read : blocksRead (stable chain) start (endB - start + 1) = map Some (slice start endB chain).
Proof.
  apply list_eq. intros i. unfold blocksRead. rewrite !map_at.
  destruct (lt_dec i (Z.to_nat (endB - start + 1))) as [Hi|Hi].
  - rewrite lookup_seqZ_lt by lia. rewrite slice_lookup by done. cbn [fmap option_fmap option_map].
    destruct (lookup_lt_is_Some_2 chain (Z.to_nat start + i)) as [h Hh]; [lia|]. rewrite Hh. cbn [fmap option_fmap option_map].
    replace (start + (0 + Z.of_nat i)) with (Z.of_nat (Z.to_nat start + i)) by lia.
    f_equal. by apply viewOf_lookup.
  - rewrite lookup_seqZ_ge by lia. by rewrite lookup_ge_None_2 by (rewrite slice_length; lia).
Qed.

Lemma compute_stable e key c :
  chain !! Z.to_nat endB = Some e ->
  match computeRootHash (stable chain) start endB (endB - start + 1) key (hashOf e) (Some c), rootOf (slice start endB chain) with
  | Done c' r, Some r' => r = r'
  | Fail c' er, None => er = errTree
  | _, _ => False
  end.
Proof.
  intros He. destruct (slice_range e He) as [Hs (Hl & Hn & _)]. unfold BorApi.computeRootHash.
  rewrite (proj2 (Z.eqb_neq _ 0)) by lia. cbv zeta. fold (blocksRead (stable chain) start (endB - start + 1)). rewrite slice_read.
  pose proof (viewOf_lookup _ e He) as Hv. rewrite Z2Nat.id in Hv by lia. cbn [readAgain stable]. rewrite Hv, Z.eqb_refl. unfold failIf.
  unfold mbind, st_bind. cbn [mret st_ret negb]. rewrite (leavesLoop_all None (slice start endB chain)) by done.
  unfold rootOf, leavesOf. rewrite length_map, Hn. by destruct (merkleRoot _).
Qed.

End inside.

(** C28: On a chain that does not change the answers are determined: a range that is turned
    around or ends above the head is refused with the head, a range of more than 32768
    blocks is refused, and any other gets the root of its blocks, or the error of the tree;
    roots in the cache, which were right when they were entered, change nothing. *)
Theorem GetRootHash_exact start endB c :
  chain <> [] -> Z.of_nat (length chain) <= MaxUint64 -> is_u64 start -> is_u64 endB -> coherent c ->
  let head := Z.of_nat (length chain) - 1 in
  match getRootHash (stable chain) None start endB c with
  | Done c' r => coherent c' /\ start <= endB <= head /\ endB - start + 1 <= MaxCheckpointLength /\ rootOf (slice start endB chain) = Some r
  | Fail c' er => coherent c' /\
      er = (if (endB <? start) || (head <? endB) then InvalidStartEndBlockError start endB head
            else if MaxCheckpointLength <? endB - start + 1 then MaxCheckpointLengthExceededError start endB else errTree) /\
      ((endB <? start) || (head <? endB) || (MaxCheckpointLength <? endB - start + 1) = false -> rootOf (slice start endB chain) = None)
  | Panicked _ => False
  end.
Proof.
  intros Hne Hmax Hus Hue Hc head. unfold is_u64, MaxUint64 in *. unfold BorApi.GetRootHash. unfold mbind at 1, st_bind at 1.
  cbn [initializeRootHashCache modify]. apply coherent_init in Hc. set (c0 := default rempty c) in *. cbn [CurrentHeader readHead stable viewOf].
  destruct (last chain) as [h|] eqn:Eh; [|by apply last_None in Eh].
  assert (Hlen : (0 < length chain)%nat) by (destruct chain; [done|cbn; lia]).
  pose proof Eh as Hl. rewrite last_lookup in Hl. apply (cn_number _ Hcanon) in Hl. rewrite Hl.
  unfold mbind at 1, st_bind at 1. cbn [orPanic mret st_ret]. cbv zeta.
  replace (u64 (Z.of_nat (Nat.pred (length chain)))) with head by (unfold u64; rewrite Z.mod_small; lia).
  unfold mbind at 1, st_bind at 1. unfold failIf at 1. destruct ((endB <? start) || (head <? endB)) eqn:Eb; [done|]. cbn [mret st_ret].
  apply orb_false_iff in Eb as [Eb1 Eb2]. apply Z.ltb_ge in Eb1, Eb2.
  destruct (lookup_lt_is_Some_2 chain (Z.to_nat endB)) as [e He]; [lia|].
  pose proof (viewOf_lookup _ e He) as Hv. rewrite Z2Nat.id in Hv by lia. cbn [readEnd stable]. rewrite Hv.
  destruct (slice_range start endB ltac:(lia) ltac:(lia) e He) as [Hs Hr].
  rewrite u64_length by (unfold is_u64, MaxUint64; lia). unfold mbind at 1, st_bind at 1. cbn [onRoots].
  assert (Hgo : forall c1, coherent (Some c1) ->
    match (failIf (MaxCheckpointLength <? endB - start + 1) (MaxCheckpointLengthExceededError start endB);;
           computeRootHash (stable chain) start endB (endB - start + 1) (getRootHashKey start endB) (hashOf e)) (Some c1) with
    | Done c' r => coherent c' /\ start <= endB <= head /\ endB - start + 1 <= MaxCheckpointLength /\ rootOf (slice start endB chain) = Some r
    | Fail c' er => coherent c' /\ er = (if MaxCheckpointLength <? endB - start + 1 then MaxCheckpointLengthExceededError start endB else errTree) /\
        (false || (MaxCheckpointLength <? endB - start + 1) = false -> rootOf (slice start endB chain) = None)
    | Panicked _ => False
    end).
  { intros c1 Hc1. unfold failIf. destruct (Z.ltb_spec MaxCheckpointLength (endB - start + 1)); [done|].
    unfold mbind, st_bind. cbn [mret st_ret].
    assert (Hret : noReturn (stable chain) endB) by done.
    pose proof (joined_spec (stable chain) None start endB e c1 stable_seen Hret I Hv ltac:(lia) ltac:(lia) Hc1) as Hj.
    pose proof (compute_stable start endB ltac:(lia) ltac:(lia) e (getRootHashKey start endB) c1 He) as Hx. cbn [default] in Hj. unfold id in Hj.
    destruct (computeRootHash _ _ _ _ _ _ _) as [c' r|c' er|]; [|by destruct (rootOf (slice _ _ _))|done].
    destruct (rootOf (slice _ _ _)); [|done]. subst. by destruct Hj. }
  destruct (rget (getRootHashKey start endB) c0) as [[x|] c1] eqn:Eg.
  - assert (Hc1 : coherent (Some c1)) by (pose proof (coherent_get c0 (getRootHashKey start endB) Hc) as Hx; by rewrite Eg in Hx).
    destruct (Z.eqb_spec (endHash x) (hashOf e)) as [Hx|Hx].
    + cbn. split; [done|]. destruct (Hc start endB x) as [Hm (hs & Hhs & Hrx & Hroot)]; [lia|lia|by rewrite Eg|]. rewrite Hx in Hrx.
      by rewrite <- (range_unique start endB (hashOf e) hs (slice start endB chain) Hhs Hs Hrx Hr).
    + apply (Hgo (rremove (getRootHashKey start endB) c1)). by apply coherent_remove.
  - apply Hgo. pose proof (coherent_get c0 (getRootHashKey start endB) Hc) as Hx. by rewrite Eg in Hx.
Qed.

End canonical.

End seen.

End roots.

(** ** The sequence of proposers *)

(** The signers from the proposer on, going round, with difficulties from their number
    down to one. *)
Definition sequenceOf (pi : nat) (addrs : list Z) : list (Z * Z) :=
  imap (fun j a => (a, Z.of_nat (length addrs) - Z.of_nat j)) (drop pi addrs ++ take pi addrs).

(** What the loop enters. *)
Definition rankAt (n pi i : Z) : Z := u64 (n - ((if i <? pi then i + n else i) - pi)).

Fixpoint ranksFrom (n pi i : Z) (l : list Z) : list (Z * Z) :=
  match l with [] => [] | a :: rest => (a, rankAt n pi i) :: ranksFrom n pi (i + 1) rest end.

Lemma ranksFrom_fst n pi i l : (ranksFrom n pi i l).*1 = l.
Proof. revert i. induction l as [|a l IH]; intros i; [done|]. cbn. f_equal. apply IH. Qed.

Lemma difficultiesLoop_ranks n pi i l m :
  NoDup l -> difficultiesLoop n pi i l m = list_to_map (ranksFrom n pi i l) ∪ m.
Proof.
  intros Hn. revert i m. induction Hn as [|a l Ha _ IH]; intros i m; cbn [difficultiesLoop ranksFrom list_to_map foldr].
  - by rewrite (left_id_L ∅ (∪)).
  - rewrite IH. change (foldr _ _ ((a, rankAt n pi i) :: ranksFrom n pi (i + 1) l)) with (<[a := rankAt n pi i]> (list_to_map (ranksFrom n pi (i + 1) l) : gmap Z Z)).
    rewrite <- insert_union_l, insert_union_r; [done|]. apply not_elem_of_list_to_map_1. by rewrite ranksFrom_fst.
Qed.

Lemma ranksFrom_app n pi i l l' : ranksFrom n pi i (l ++ l') = ranksFrom n pi i l ++ ranksFrom n pi (i + Z.of_nat (length l)) l'.
Proof.
  revert i. induction l as [|a l IH]; intros i; cbn [ranksFrom app length]; [by rewrite Z.add_0_r|].
  rewrite IH. do 3 f_equal. lia.
Qed.

Lemma ranksFrom_lookup n pi i l j : ranksFrom n pi i l !! j = (fun a => (a, rankAt n pi (i + Z.of_nat j))) <$> l !! j.
Proof.
  revert i j. induction l as [|a l IH]; intros i [|j]; try done; cbn [ranksFrom lookup list_lookup].
  - by rewrite Z.add_0_r.
  - rewrite IH. by replace (i + 1 + Z.of_nat j) with (i + Z.of_nat (S j)) by lia.
Qed.

Lemma sequenceOf_ranks addrs pi :
  (pi < length addrs)%nat -> Z.of_nat (length addrs) <= MaxInt64 ->
  sequenceOf pi addrs = ranksFrom (Z.of_nat (length addrs)) (Z.of_nat pi) (Z.of_nat pi) (drop pi addrs) ++
                        ranksFrom (Z.of_nat (length addrs)) (Z.of_nat pi) 0 (take pi addrs).
Proof.
  intros Hpi Hmax. unfold MaxInt64 in Hmax. apply list_eq. intros j. unfold sequenceOf. rewrite list_lookup_imap.
  assert (Hd : length (ranksFrom (Z.of_nat (length addrs)) (Z.of_nat pi) (Z.of_nat pi) (drop pi addrs)) = (length addrs - pi)%nat).
  { rewrite <- length_drop. rewrite <- (length_fmap fst), ranksFrom_fst. done. }
  destruct (lt_dec j (length addrs - pi)) as [Hj|Hj].
  - rewrite !lookup_app_l by (rewrite ?length_drop, ?Hd; done). rewrite ranksFrom_lookup. destruct (drop pi addrs !! j); [|done].
    cbn. do 2 f_equal. unfold rankAt, u64. rewrite (proj2 (Z.ltb_ge _ _)) by lia. rewrite Z.mod_small by lia. lia.
  - rewrite !lookup_app_r by (rewrite ?length_drop, ?Hd; lia). rewrite Hd, length_drop, ranksFrom_lookup.
    destruct (take pi addrs !! (j - (length addrs - pi))%nat) as [a|] eqn:Ea; [|done]. apply lookup_lt_Some in Ea. rewrite length_take in Ea.
    cbn. do 2 f_equal. unfold rankAt, u64. rewrite (proj2 (Z.ltb_lt _ _)) by lia. rewrite Z.mod_small by lia. lia.
Qed.

Lemma sequenceOf_sorted addrs pi : StronglySorted harder (sequenceOf pi addrs).
Proof.
  unfold sequenceOf. set (n := Z.of_nat (length addrs)). clearbody n. generalize (drop pi addrs ++ take pi addrs) as l. intros l.
  assert (H : forall k, StronglySorted harder (imap (fun j a => (a, n - Z.of_nat (k + j))) l)); [|exact (H 0%nat)].
  induction l as [|a l IH]; intros k; [constructor|]. cbn [imap]. constructor.
  - replace (imap _ l) with (imap (fun j a0 => (a0, n - Z.of_nat (S k + j))) l); [apply IH|]. apply imap_ext. intros j x _. cbn. do 2 f_equal. lia.
  - apply Forall_forall. intros x Hx. apply list_elem_of_lookup in Hx as [j Hx]. rewrite list_lookup_imap in Hx.
    destruct (l !! j); [|done]. injection Hx as <-. unfold harder. cbn. lia.
Qed.

Lemma rankMapDifficulties_sequence addrs pi :
  NoDup addrs -> (pi < length addrs)%nat -> Z.of_nat (length addrs) <= MaxInt64 ->
  rankMapDifficulties (difficultiesLoop (Z.of_nat (length addrs)) (Z.of_nat pi) 0 addrs ∅) = sequenceOf pi addrs.
Proof.
  intros Hn Hpi Hmax. unfold rankMapDifficulties. rewrite difficultiesLoop_ranks, (right_id_L ∅ (∪)) by done.
  assert (Hperm : map_to_list (list_to_map (ranksFrom (Z.of_nat (length addrs)) (Z.of_nat pi) 0 addrs) : gmap Z Z) ≡ₚ sequenceOf pi addrs).
  { rewrite map_to_list_to_map by (by rewrite ranksFrom_fst). rewrite sequenceOf_ranks by done.
    rewrite <- (take_drop pi addrs) at 2. rewrite ranksFrom_app, length_take_le by lia. apply Permutation_app_comm. }
  apply (StronglySorted_unique_strong harder); [| | |by rewrite merge_sort_Permutation].
  - intros x y Hx Hy Hxy Hyx. rewrite merge_sort_Permutation, Hperm in Hx.
    apply list_elem_of_lookup in Hx as [i Hx], Hy as [j Hy]. unfold sequenceOf in Hx, Hy. rewrite list_lookup_imap in Hx, Hy.
    destruct ((drop pi addrs ++ take pi addrs) !! i) as [a|] eqn:Ei; [|done]. destruct ((drop pi addrs ++ take pi addrs) !! j) as [b|] eqn:Ej; [|done].
    injection Hx as <-. injection Hy as <-. unfold harder in *. cbn in Hxy, Hyx. assert (i = j) as -> by lia. congruence.
  - apply Sorted_StronglySorted; [intros x y z; unfold harder; lia|]. apply Sorted_merge_sort. intros x y. unfold harder. lia.
  - apply sequenceOf_sorted.
Qed.

Section sequence.
Context {C : Type -> Type} `{!Cache C}.
Variable keccak : list Z -> Z.
Variable Ecrecover : list Z -> list Z -> option (list Z).
Variable cfg : Settings.
Variable w : World.

Lemma addresses_position l a j : map Address l !! j = Some a <-> positionOf l a (Z.of_nat j).
Proof.
  rewrite map_at. unfold positionOf. rewrite Nat2Z.id. destruct (l !! j) as [v|]; cbn; [|naive_solver].
  split; [intros [= <-]; split; [lia|by exists v]|]. by intros (_ & x & [= <-] & <-).
Qed.

(** C29: The sequence of proposers of a block: where its snapshot is found and its author
    recovered, the signers come in the order of their turns from the proposer on, each
    with the difficulty that a seal of the signer on that snapshot must carry, and the
    author's is reported with it. *)
Theorem proposer_sequence v1 v2 v3 o (s0 s1 s2 : Bor C) snap p pi author :
  GetSnapshotFor keccak Ecrecover cfg w v1 v2 o s0 = Done s1 snap -> ready (Snapshot.vals snap) p pi ->
  Z.of_nat (length (Validators (Snapshot.vals snap))) <= MaxInt64 -> zeroAddress ∉ map Address (Validators (Snapshot.vals snap)) ->
  GetAuthor keccak Ecrecover cfg v3 o s1 = Done s2 author ->
  exists diff, GetSnapshotProposerSequence keccak Ecrecover cfg w v1 v2 v3 o s0 =
      Done s2 (mkBlockSigners (sequenceOf (Z.to_nat pi) (map Address (Validators (Snapshot.vals snap)))) diff author) /\
    (forall a d, (a, d) ∈ sequenceOf (Z.to_nat pi) (map Address (Validators (Snapshot.vals snap))) ->
       Snapshot.Difficulty (E := bor_error) a (Snapshot.vals snap) = Done (Snapshot.vals snap) d) /\
    (author ∈ map Address (Validators (Snapshot.vals snap)) ->
       Snapshot.Difficulty (E := bor_error) author (Snapshot.vals snap) = Done (Snapshot.vals snap) diff).
Proof.
  intros Hsnap Hr Hlen Hz Hauthor. set (vs := Snapshot.vals snap) in *. set (addrs := map Address (Validators vs)) in *.
  pose proof (positionOf_bound _ _ _ (proj2 (proj2 Hr))) as Hpb.
  assert (Hn : length addrs = length (Validators vs)) by (unfold addrs; by rewrite length_map).
  assert (Hnd : NoDup addrs) by apply Hr.
  assert (Hpi : (Z.to_nat pi < length addrs)%nat) by lia.
  destruct (GetByAddress_at (E := bor_error) vs (Address p) pi) as [o1 E1]; [apply Hr|apply Hr|].
  assert (Hseq : rankMapDifficulties (difficultiesLoop (Z.of_nat (length addrs)) pi 0 addrs ∅) = sequenceOf (Z.to_nat pi) addrs).
  { rewrite <- (Z2Nat.id pi) at 1 by lia. apply rankMapDifficulties_sequence; [done|done|lia]. }
  assert (Hdiff : forall a d, (a, d) ∈ sequenceOf (Z.to_nat pi) addrs -> Snapshot.Difficulty (E := bor_error) a vs = Done vs d).
  { intros a d Hin. apply list_elem_of_lookup in Hin as [j Hj]. rewrite sequenceOf_ranks in Hj by lia.
    assert (Hat : exists i, addrs !! i = Some a /\ d = rankAt (Z.of_nat (length addrs)) (Z.of_nat (Z.to_nat pi)) (Z.of_nat i)).
    { apply lookup_app_Some in Hj as [Hj|[_ Hj]]; rewrite ranksFrom_lookup in Hj.
      - rewrite lookup_drop in Hj. destruct (addrs !! (Z.to_nat pi + j)%nat) as [x|] eqn:Ex; [|done]. injection Hj as <- <-.
        exists (Z.to_nat pi + j)%nat. split; [done|]. f_equal. lia.
      - match type of Hj with _ <$> take _ _ !! ?k = _ => destruct (take (Z.to_nat pi) addrs !! k) as [x|] eqn:Ex end; [|done]. injection Hj as <- <-.
        apply lookup_take_Some in Ex as [Ex _]. eexists. split; [exact Ex|]. f_equal. }
    destruct Hat as (i & Hi & ->). pose proof (lookup_lt_Some _ _ _ Hi) as Hlt. apply addresses_position in Hi as Hpos.
    rewrite (difficulty_at vs p pi a (Z.of_nat i) Hr); [|intros ->; apply Hz; by eapply list_elem_of_lookup_2|done|done].
    f_equal. unfold rankAt, turn, u64. unfold MaxInt64 in Hlen. rewrite Z2Nat.id by lia. rewrite Hn in *.
    destruct (Z.ltb_spec (Z.of_nat i) pi); rewrite Z.mod_small by lia; lia. }
  exists (i64 (default 0 (difficultiesLoop (Z.of_nat (length addrs)) pi 0 addrs ∅ !! author))). split; [|split; [exact Hdiff|]].
  - unfold GetSnapshotProposerSequence. rewrite (bind_eq _ _ s0 s1 snap Hsnap). fold vs. unfold mbind, st_bind, onValue.
    rewrite (proposerAddress_ready vs p pi Hr), E1. cbn [id]. fold addrs. rewrite Hauthor, Hseq. done.
  - intros Hin.
    assert (Hd : exists d, difficultiesLoop (Z.of_nat (length addrs)) pi 0 addrs ∅ !! author = Some d /\ (author, d) ∈ sequenceOf (Z.to_nat pi) addrs).
    { rewrite <- Hseq. unfold rankMapDifficulties. rewrite difficultiesLoop_ranks by done. rewrite (right_id_L ∅ (∪)).
      apply list_elem_of_lookup in Hin as [i Hi]. exists (rankAt (Z.of_nat (length addrs)) pi (0 + Z.of_nat i)).
      assert (Hl : (list_to_map (ranksFrom (Z.of_nat (length addrs)) pi 0 addrs) : gmap Z Z) !! author = Some (rankAt (Z.of_nat (length addrs)) pi (0 + Z.of_nat i))).
      { apply elem_of_list_to_map_1; [by rewrite ranksFrom_fst|]. apply (list_elem_of_lookup_2 _ i). by rewrite ranksFrom_lookup, Hi. }
      split; [done|]. rewrite merge_sort_Permutation. by apply elem_of_map_to_list. }
    destruct Hd as (d & -> & Hind). pose proof (Hdiff author d Hind) as Hd. rewrite Hd. do 2 f_equal. cbn [default]. unfold id.
    apply list_elem_of_lookup in Hind as [j Hj]. unfold sequenceOf in Hj. rewrite list_lookup_imap in Hj.
    destruct ((drop (Z.to_nat pi) addrs ++ take (Z.to_nat pi) addrs) !! j) as [x|] eqn:Ex; [|done]. injection Hj as _ <-.
    apply lookup_lt_Some in Ex. rewrite length_app, length_drop, length_take in Ex. unfold i64, MaxInt64 in *. rewrite Z.mod_small by lia. lia.
Qed.

End sequence.

(** ** A small chain, and one it may have been *)

Import EngineDemo.

(** A sibling of the first block, and the first block with other extra data. *)
Definition demoBlock1' : Header := demoBlock (Hash demoKeccak demoGenesis) 1 1003.
Definition demoBlock1x : Header :=
  mkHeader (Hash demoKeccak demoGenesis) (demoKeccak [192]) 0 0 0 0 0 (Some 1) (Some 1) 30000000 0 1002
    (replicate 32 7 ++ replicate 65 1) 0 0 None None None None None None None false.

Definition demoTree (ls : list (list Z)) : option (list Z) := Some (be_bytes 32 (demoKeccak (concat ls))).

Lemma demoTree_bytes ls b : demoTree ls = Some b -> Forall isByte b.
Proof. unfold demoTree. intros H. assert (b = be_bytes 32 (demoKeccak (concat ls))) as -> by congruence. apply be_bytes_isByte. Qed.

Definition demoHeaders : list Header := [demoGenesis; demoBlock1; demoBlock1'].

Lemma demoHeaders_separate h h' : h ∈ demoHeaders -> h' ∈ demoHeaders -> Hash demoKeccak h = Hash demoKeccak h' -> h = h'.
Proof.
  unfold demoHeaders. rewrite !elem_of_cons, !elem_of_nil. intros [->|[->|[->|[]]]] [->|[->|[->|[]]]] E; vm_compute in E; first [discriminate E|reflexivity].
Qed.

Lemma demoHeaders_numbered h : h ∈ demoHeaders -> is_Some (Number h).
Proof. unfold demoHeaders. rewrite !elem_of_cons, elem_of_nil. intros [->|[->|[->|[]]]]; by eexists. Qed.

Lemma demo_canonical : canonical demoKeccak (fun h => h ∈ demoHeaders) [demoGenesis; demoBlock1].
Proof.
  split; [apply Forall_forall; intros x; unfold demoHeaders; rewrite !elem_of_cons, !elem_of_nil; naive_solver| |].
  - split; [vm_compute; reflexivity|exact I].
  - intros [|[|i]] h E; [by injection E as <-|by injection E as <-|done].
Qed.

Lemma demo_sibling_canonical : canonical demoKeccak (fun h => h ∈ demoHeaders) [demoGenesis; demoBlock1'].
Proof.
  split; [apply Forall_forall; intros x; unfold demoHeaders; rewrite !elem_of_cons, !elem_of_nil; naive_solver| |].
  - split; [vm_compute; reflexivity|exact I].
  - intros [|[|i]] h E; [by injection E as <-|by injection E as <-|done].
Qed.

Lemma GetRootHash_attests_witness :
  match GetRootHash (R := gmap string rootHashCacheEntry) demoKeccak demoTree (stable [demoGenesis; demoBlock1])
          (Some (stable [demoGenesis; demoBlock1])) 0 1 None with
  | Done c' r => coherent demoKeccak demoTree (fun h => h ∈ demoHeaders) c' /\ exists e hs, Some demoBlock1 = Some e /\
      Forall (fun h => h ∈ demoHeaders) hs /\ range demoKeccak 0 1 (Hash demoKeccak e) hs /\ rootOf demoKeccak demoTree hs = Some r /\
      forall hs', Forall (fun h => h ∈ demoHeaders) hs' -> range demoKeccak 0 1 (Hash demoKeccak e) hs' -> hs' = hs
  | _ => False
  end.
Proof.
  assert (Hs : readsSeen (fun h => h ∈ demoHeaders) (stable [demoGenesis; demoBlock1])) by (apply (stable_seen demoKeccak _ _ demo_canonical)).
  pose proof (GetRootHash_attests (R := gmap string rootHashCacheEntry) demoKeccak demoTree (fun h => h ∈ demoHeaders) demoHeaders_separate demoHeaders_numbered
    (stable [demoGenesis; demoBlock1]) (Some (stable [demoGenesis; demoBlock1])) 0 1 None Hs
    (fun _ => eq_refl) (conj Hs (conj (fun _ => eq_refl) eq_refl)) ltac:(by vm_compute) ltac:(by vm_compute) ltac:(by vm_compute) I) as H.
  destruct (GetRootHash demoKeccak demoTree (stable [demoGenesis; demoBlock1]) (Some (stable [demoGenesis; demoBlock1])) 0 1 None) as [c' r|c' er|?] eqn:E;
    [exact H|vm_compute in E; discriminate E|vm_compute in E; discriminate E].
Defined.

Lemma GetRootHash_exact_witness :
  exists c' r, GetRootHash (R := gmap string rootHashCacheEntry) demoKeccak demoTree (stable [demoGenesis; demoBlock1]) None 0 1 None = Done c' r /\
    rootOf demoKeccak demoTree (slice 0 1 [demoGenesis; demoBlock1]) = Some r /\
    GetRootHash demoKeccak demoTree (stable [demoGenesis; demoBlock1]) None 0 2 c' = Fail c' (InvalidStartEndBlockError 0 2 1).
Proof.
  pose proof (GetRootHash_exact (R := gmap string rootHashCacheEntry) demoKeccak demoTree (fun h => h ∈ demoHeaders) demoHeaders_separate demoHeaders_numbered
    [demoGenesis; demoBlock1] demo_canonical 0 1 None ltac:(done) ltac:(by vm_compute) ltac:(by vm_compute) ltac:(by vm_compute) I) as H.
  destruct (GetRootHash demoKeccak demoTree (stable [demoGenesis; demoBlock1]) None 0 1 None) as [c' r|c' er|?] eqn:E; [|vm_compute in E; discriminate E..].
  exists c', r. destruct H as (_ & _ & _ & H). split; [done|]. split; [exact H|]. vm_compute in E. injection E as <- _. by vm_compute.
Defined.

Lemma root_binds_witness :
  exists r, rootOf demoKeccak demoTree [demoGenesis; demoBlock1] = Some r /\ rootOf demoKeccak demoTree [demoGenesis; demoBlock1x] = Some r /\
    map leafFields [demoGenesis; demoBlock1] = map leafFields [demoGenesis; demoBlock1x].
Proof.
  destruct (rootOf demoKeccak demoTree [demoGenesis; demoBlock1]) as [r|] eqn:E; [|discriminate E].
  assert (E' : rootOf demoKeccak demoTree [demoGenesis; demoBlock1x] = Some r) by (rewrite <- E; by vm_compute).
  exists r. split; [done|]. split; [done|].
  apply (root_binds demoKeccak demoTree [demoGenesis; demoBlock1] [demoGenesis; demoBlock1x] r eq_refl E E').
  - repeat constructor; by vm_compute.
  - repeat constructor; by vm_compute.
  - exact demoTree_bytes.
  - intros _. by vm_compute.
  - intros h h'. rewrite !elem_of_cons, !elem_of_nil. intros [->|[->|[]]] [->|[->|[]]] E2; vm_compute in E2; first [discriminate E2|vm_compute; reflexivity].
Defined.

(** The end block is read before and after the range and compared, but not with the last
    block of the range: where the chain leaves the end block and comes back, the root of
    the other chain is returned, and it stays in the cache under the end block, so that it
    is returned when the chain does not change any more. *)
Theorem GetRootHash_other_chain :
  let here := viewOf [demoGenesis; demoBlock1] in
  let there := viewOf [demoGenesis; demoBlock1'] in
  exists c r, GetRootHash (R := gmap string rootHashCacheEntry) demoKeccak demoTree (mkRootReads here here (fun _ => there) here) None 0 1 None = Done c r /\
    GetRootHash demoKeccak demoTree (stable [demoGenesis; demoBlock1]) None 0 1 c = Done c r /\
    rootOf demoKeccak demoTree [demoGenesis; demoBlock1'] = Some r /\ rootOf demoKeccak demoTree [demoGenesis; demoBlock1] <> Some r.
Proof. eexists _, _. split; [vm_compute; reflexivity|]. split; [vm_compute; reflexivity|]. split; [vm_compute; reflexivity|]. by vm_compute. Qed.

(** Three validators, one of them the author of the blocks, on the genesis block. *)
Definition demoThree : ValidatorSet :=
  UpdateValidatorMap (mkValidatorSet [mkValidator 1 11 10 0; mkValidator 2 22 20 0; mkValidator 3 demoSigner 30 0] (Some (mkValidator 2 22 20 0)) 60 ∅).

Lemma demoThree_ready : ready demoThree (mkValidator 2 22 20 0) 1.
Proof.
  split; [split|split; [reflexivity|split; [lia|exists (mkValidator 2 22 20 0); split; reflexivity]]].
  - apply (bool_decide_unpack (NoDup (map Address (Validators demoThree)))). vm_compute. exact I.
  - vm_compute. reflexivity.
Qed.

Lemma demoThree_nonzero : zeroAddress ∉ map Address (Validators demoThree).
Proof. apply (bool_decide_unpack (zeroAddress ∉ map Address (Validators demoThree))). vm_compute. exact I. Qed.

Definition demoThreeState : Bor (gmap Z) :=
  setRecentsCache {[Hash demoKeccak demoGenesis := Snapshot.mkSnapshot (Some (chainConfig demoSettings)) 0 (Hash demoKeccak demoGenesis) demoThree ∅]} demoState.

Definition demoView : View := viewOf [demoGenesis; demoBlock1].

Lemma proposer_sequence_witness :
  exists s2 b, GetSnapshotProposerSequence demoKeccak demoEcrecover demoSettings (demoWorld [demoGenesis; demoBlock1]) demoView demoView demoView None demoThreeState = Done s2 b /\
    Signers b = [(22, 3); (demoSigner, 2); (11, 1)] /\ Diff b = 2 /\ bsAuthor b = demoSigner.
Proof.
  destruct (GetSnapshotFor demoKeccak demoEcrecover demoSettings (demoWorld [demoGenesis; demoBlock1]) demoView demoView None demoThreeState)
    as [s1 snap|? ?|?] eqn:E1; [|vm_compute in E1; discriminate E1..].
  destruct (GetAuthor demoKeccak demoEcrecover demoSettings demoView None s1) as [s2 author|? ?|?] eqn:E2;
    [|vm_compute in E1; injection E1 as <- _; vm_compute in E2; discriminate E2..].
  assert (Hv : Snapshot.vals snap = demoThree /\ author = demoSigner)
    by (vm_compute in E1; injection E1 as <- <-; vm_compute in E2; injection E2 as _ <-; by vm_compute).
  destruct Hv as [Hv ->].
  destruct (proposer_sequence demoKeccak demoEcrecover demoSettings (demoWorld [demoGenesis; demoBlock1]) demoView demoView demoView None demoThreeState s1 s2
    snap (mkValidator 2 22 20 0) 1 demoSigner E1) as (diff & E & _ & Hd); rewrite ?Hv; try exact E2.
  - exact demoThree_ready.
  - vm_compute. discriminate.
  - exact demoThree_nonzero.
  - eexists s2, _. split; [exact E|]. rewrite Hv in Hd |- *. split; [by vm_compute|]. split; [|done].
    assert (Hx : Done demoThree 2 = Done demoThree diff) by (rewrite <- Hd; [by vm_compute|vm_compute; right; right; by left]). by injection Hx.
Defined.

End BorApiProps.
